(* ===== verification/_CoqProject ===== *)
-Q . S2P
Prelude.v
TokenKinds.v
Text.v
APInts.v
CanonicalStores.v
IntStores.v
IntLaws.v
LexDiagnostics.v
NumericLiterals.v
NumericShape.v
NumericValues.v
StringLiterals.v
Utf8.v
StringShape.v
StringValues.v
StringRoundTrip.v
StateKinds.v
NodeKinds.v
Tokens.v
Lexed.v
Simd.v
IdentifierScan.v
TokenText.v
LexState.v
LexComments.v
LexTokens.v
BracketTokens.v
BracketRules.v
BracketAnalysis.v
BracketSearch.v
BracketStacks.v
LexRecovery.v
Lexer.v
LexPieces.v
LexInvariant.v
LexSteps.v
LexWords.v
LexLayout.v
LexDispatch.v
RecoveryMerge.v
RecoveryLinks.v
RecoveryTotal.v
Precedence.v
PrecedenceLaws.v
ParseTree.v
Diagnostics.v
Context.v
Nesting.v
HandleExpr.v
HandleExprForms.v
HandlePattern.v
HandlePatternList.v
HandleLetVar.v
HandleDeclScope.v
HandleDecl.v
HandleDeclForms.v
HandlePackaging.v
HandleStatement.v
HandleMatch.v
Parse.v
Samples.v
Grouping.v
Runs.v
Scanning.v
Descent.v
DescentHandlers.v
Termination.v
Frame.v
Quiet.v
Placeholders.v
Correctness.v
Lexing.v
Recovered.v
BracketWalk.v
BracketRegions.v
BracketBeam.v
BracketPaths.v
BracketRepair.v
FrontEnd.v
Formatter.v
