(* ===== verification/Prelude.v ===== *)
(** * A model of the Carbon toolchain's front end: the lexer and the parser

    The Carbon toolchain ([toolchain/]) compiles in phases: [Lex] turns the
    source text into a [TokenizedBuffer], [Parse] turns the buffer into a
    [Tree], and checking, lowering and code generation follow. This development
    is a shallow embedding of the first two phases, of the value stores they
    fill, and of the diagnostics they emit, with what makes them correct.

    ** The parts and the files

    Shared: [Prelude] has the outcome type of code that can fail a
    [CARBON_CHECK] and the state-passing monad with an output log; [Text] has
    bytes, [llvm::StringRef] and [lex/character_set.h]; [APInts] and [Simd] are
    interfaces for [llvm::APInt] and the SSE intrinsics, with laws and an
    implementation of each.

    Value stores ([base/]): [CanonicalStores] is [canonical_value_store.h],
    [IntStores] is [int.{h,cpp}], whose laws are in [IntLaws].

    Literals ([lex/]): [NumericLiterals] is [numeric_literal.cpp], proved in
    [NumericShape] and [NumericValues];
    [StringLiterals] is [string_literal.cpp], proved in [StringShape],
    [StringValues] and [StringRoundTrip], with [Utf8] for the conversions of
    LLVM. [LexDiagnostics] has the diagnostics of the lexer.

    Tokens ([lex/]): [TokenKinds] is [token_kind.{def,h,cpp}]; [Tokens] and
    [TokenText] are [token_info.h] and [tokenized_buffer.{h,cpp}]. [Lexed] is
    the class of the buffers lexing promises to parsing; it is the interface
    between the two phases.

    Lexer ([lex/lex.cpp]): [LexState] has the members of [Lexer] and the value
    stores, [LexComments] the lines, blanks, comments and directives,
    [IdentifierScan] the scalar and the x86 scan of identifiers, [LexTokens] the
    methods that form a token, [Lexer] the dispatch table, its loop, [Finalize]
    and [Lex]. [LexRecovery] is the [ErrorRecoveryBuffer] with its merge into
    the token stream. The theorems are built in [LexPieces] (a source is blanks,
    comments and tokens), [LexInvariant] and, a group of methods each,
    [LexSteps], [LexWords], [LexLayout] and [LexDispatch]; [Lexing] has the
    theorems on whole sources. [RecoveryMerge], [RecoveryLinks] and
    [RecoveryTotal] are about the merge, the cross references and the checks of
    bracket recovery, [Recovered] about the sources it is applied to.

    Bracket repair ([lex/mismatched_brackets.{h,cpp}]): [BracketTokens] is the
    header, whose function the lexer takes as an argument; [BracketRules] has
    the cues, the three rule tables and their bit indices, [BracketAnalysis]
    the pairing of brackets, the ranges that can be trusted, the items and the
    regions, [BracketSearch] the store of open-bracket stacks, the layered beam
    search, the enumeration of its cheapest repairs, the greedy fallback and
    [FixMismatchedBrackets]. [BracketStacks] shows that the store implements
    immutable lists. [BracketWalk] is the specification of the rest: a walk over
    the tokens that decides at each bracket and leaves none open, whose
    corrections balance the stream. [BracketRegions] shows that the analysis
    is total and that regions, collapsed ranges and the fallback are walks,
    [BracketBeam] that every edge of the search graph is a step of one,
    [BracketPaths] that its paths are, tied corrections apart or not, and
    [BracketRepair] has the theorem on whole streams.

    Parser ([parse/]): [StateKinds], [NodeKinds] and [Diagnostics] are its
    enumerations; [Precedence] is [precedence.cpp]; [ParseTree] is [tree.cpp];
    [Context] is [context.cpp]; the [Handle*] files have one definition per
    [Handle*] function of the [handle_*.cpp] files; [Parse] is the state loop,
    both with fuel and as a transition relation. [PrecedenceLaws] and [Grouping]
    are about operators, [Scanning] about the scans of error recovery, [Runs]
    about the loop, [Frame] about what no handler can do, [Quiet] has
    two program logics for the handlers, and with [Placeholders] applies them
    to every handler; [Correctness] has the theorems on whole parses. [Nesting]
    has the invariant of the state stack that the loop ends by, and its
    measure; [Descent] is the program logic for it, applied to
    the handlers in [DescentHandlers], and [Termination] has the theorems about
    the end of the loop. [Samples] builds token streams for the witnesses.

    [FrontEnd] puts the phases together: [Lex] with the search of
    [BracketSearch], then [Parse]. [Formatter] is [format/formatter.cpp], a
    client of the lexer: its model, and what formatting a lexed source keeps.

    ** How code is translated

    A method is a definition of the same name in a state monad [Action], whose
    state is the record of the class's members ([LexerState], [Context.t]) and
    whose log is the diagnostics emitted; [const] functions return in [Result].
    A failed [CARBON_CHECK] or [CARBON_DCHECK], an access outside a vector, and
    a loop that outlives its bound are different values of [Failure]. Integers
    are [Z] with the bit-fields, the two's complement conversions and the token
    payloads written out; indices are [Z] with [-1] for [None], as in the code.
    Loops over lists are structural. Other loops have fuel: the length of the
    text, or the number of lines, and theorems show that it is never used up
    ([Lexing.lexing_returns], [Scanning.SkipPastLikelyEnd_stops],
    [PrecedenceLaws.closure_loop_computes_tc]). The loops of bracket repair
    over a worklist are bounded by what can be on it: closing brackets by the
    depth of the stacks, the enumeration of repairs by their length and
    [MaxOptimalPaths], each shown to be enough in [BracketBeam] and
    [BracketPaths]. Its costs are [Z] without the wrap-around of the code's
    32 bits: a region has at most [MaxRegionItemsForSearch] items, and a
    decision costs a constant or twenty for each column of a difference in
    indentation, so a sum could only wrap in a source with hundreds of braces
    indented by hundreds of thousands of columns. Hash maps are association
    lists in the order of insertion. Only the state loop of the
    parser takes its fuel as an argument; [Runs] shows that it is the
    reflexive transitive closure of its step and that its fuel is irrelevant, and
    [Termination] that 48 iterations for every token are enough.

    ** What the theorems show

    - The lexer is total: on every source below [MaxSource] (2 to the 21) bytes
      it returns, so no check fails and no loop outlives its bound. It is
      lossless: the source is the concatenation of its blanks, comments and
      token texts, and [GetTokenText] reads each text back. Lines and columns
      are those of the source. No error token is made in silence. A source whose
      brackets match gives a buffer with all the parser asks for.
    - Literals mean what they spell: numeric values in every radix, string
      contents under escaping, Unicode escapes, and the fast paths.
    - Integer ids denote their integers; a payload holds an id exactly when
      its check passes.
    - Bracket recovery keeps every token, puts the insertions where they were
      asked for, and links every bracket to its partner.
    - The search for a repair returns on every token stream and its corrections
      balance it, whatever the rules cost, whichever corrections are given up as
      tied, and whether the beam, the fallback or neither handled a region. Its
      data structures are what they stand for: the bit index of the rules a scan
      of the table, the stack store a store of lists, and the ties exactly the
      corrections that another cheapest repair spares.
    - Together: [Lex] returns a buffer for the parser on every source below
      [MaxSource], and the parser ends on it.
    - The formatter returns on every source that lexes without errors and keeps
      its tokens and its comments, in order. That the output lexes to the same
      tokens, or parses, is false; [Formatter] ends with the examples.
    - The precedence table is the strict order its rules generate, and the parser
      groups every pair of infix operators by it.
    - The state loop of the parser ends, whatever the tokens, unless a
      [match_first] is directly followed by a close brace, where the code has a
      bug; the loop it then enters is shown as well.
    - The parser never moves back or rewrites what it built apart from
      placeholders; no placeholder is left; a parse without diagnostics has no
      node in error; [Tree::Verify] can only object to the number of nodes.

    ** What is not modelled

    That the beam search finds a repair of least cost among all is not claimed: it
    prunes each layer. Semantic checking, SemIR, lowering, the driver and
    the language server are other phases; printing, memory
    accounting and verbose logging have no effect on the result. The Arm code
    paths differ from the x86 ones in the intrinsics only.

    This file is the shared vocabulary: the outcome type, the monad and its
    rules, checked vector access, and the tactics and hint databases the other
    files use. *)

From stdpp Require Export prelude strings.
From Stdlib Require Export ZArith Lia.

#[global] Open Scope Z_scope.

(** * Outcomes *)

(** How a run of the C++ code can stop without returning: a failed
    [CARBON_CHECK]/[CARBON_DCHECK], [CARBON_FATAL], an access outside a
    [ValueStore]/[SmallVector], a pop from an empty stack, or an unbounded
    loop of the C++ code that outlived the bound its model runs it with. *)
Inductive Failure : Type :=
  | CheckFailed
  | FatalError
  | OutOfRange
  | EmptyStack
  | OutOfFuel.

Inductive Result (A : Type) : Type :=
  | Ok (a : A)
  | Err (f : Failure).
Arguments Ok {A} a.
Arguments Err {A} f.

#[export] Instance Result_ret : MRet Result := @Ok.
#[export] Instance Result_bind : MBind Result :=
  λ A B k m, match m with Ok a => k a | Err f => Err f end.

(** [CARBON_CHECK(b)] inside a function that only reads. *)
Definition require (b : bool) : Result unit := if b then Ok tt else Err CheckFailed.

Lemma result_bind_Ok {A B} (m : Result A) (k : A → Result B) b :
  m ≫= k = Ok b ↔ ∃ a, m = Ok a ∧ k a = Ok b.
Proof. destruct m; cbn; naive_solver. Qed.

Lemma require_Ok b u : require b = Ok u ↔ b = true.
Proof. destruct b; destruct u; done. Qed.

#[export] Instance Failure_eq_dec : EqDecision Failure.
Proof. solve_decision. Defined.

#[export] Instance Result_eq_dec {A} `{EqDecision A} : EqDecision (Result A).
Proof. solve_decision. Defined.

(** * The monad

    A computation reads and writes a state [S], appends to an output log of
    [W] and can fail. The log is an output only: no computation can read
    back or erase what was written. *)
Section monad.
Context {S W : Type}.

Definition Action (A : Type) : Type := S → Result (A * S * list W).

Definition action_ret {A} (a : A) : Action A := λ s, Ok (a, s, []).

Definition action_bind {A B} (k : A → Action B) (m : Action A) : Action B :=
  λ s,
    match m s with
    | Err f => Err f
    | Ok (a, s1, w1) =>
        match k a s1 with
        | Err f => Err f
        | Ok (b, s2, w2) => Ok (b, s2, w1 ++ w2)
        end
    end.

Definition action_fail {A} (f : Failure) : Action A := λ _, Err f.

(** [gets f] reads a component of the state. *)
Definition gets {A} (f : S → A) : Action A := λ s, Ok (f s, s, []).

(** [modify f] updates the state. *)
Definition modify (f : S → S) : Action unit := λ s, Ok (tt, f s, []).

(** [tell w] appends one entry to the log. *)
Definition tell (w : W) : Action unit := λ s, Ok (tt, s, [w]).

(** [CARBON_CHECK(b)]. *)
Definition check (b : bool) : Action unit :=
  if b then action_ret tt else action_fail CheckFailed.

(** Lifts a result computed from the current state. *)
Definition lift_result {A} (f : S → Result A) : Action A :=
  λ s, match f s with Ok a => Ok (a, s, []) | Err e => Err e end.
End monad.
Arguments Action : clear implicits.

#[export] Instance Action_ret {S W} : MRet (Action S W) := @action_ret S W.
#[export] Instance Action_bind {S W} : MBind (Action S W) := @action_bind S W.

Declare Scope action_scope.
Delimit Scope action_scope with action.
#[global] Open Scope action_scope.

(** [if! c then m else m'] is [if (c()) { m } else { m' }], and
    [if? x := c then m else m'] is [if (auto x = c()) { m } else { m' }] for a
    [c] that returns an optional. *)
Notation "'if!' c 'then' m1 'else' m2" :=
  (mbind (λ b : bool, if b then m1 else m2) c)
  (at level 10, m1 at level 200, m2 at level 200)
  : action_scope.
Notation "'if?' x ':=' c 'then' m1 'else' m2" :=
  (mbind (λ o, match o with Some x => m1 | None => m2 end) c)
  (at level 10, x name, m1 at level 200, m2 at level 200)
  : action_scope.

(** [when b m] is [if (b) { m }]. *)
Definition when {S W} (b : bool) (m : Action S W unit) : Action S W unit :=
  if b then m else mret tt.

(** Running a bind whose first part is silent, or emits [w1]. *)
Lemma bind_silent {S W A B} (m : Action S W A) (k : A → Action S W B) s a s1 :
  m s = Ok (a, s1, []) → (m ≫= k) s = k a s1.
Proof.
  intros H. unfold mbind, Action_bind, action_bind. rewrite H.
  by destruct (k a s1) as [[[??]?]|].
Qed.

Lemma bind_Ok {S W A B} (m : Action S W A) (k : A → Action S W B) s a s1 w1 b s2 w2 :
  m s = Ok (a, s1, w1) → k a s1 = Ok (b, s2, w2) → (m ≫= k) s = Ok (b, s2, w1 ++ w2).
Proof. intros H1 H2. unfold mbind, Action_bind, action_bind. by rewrite H1, H2. Qed.

Lemma bind_fails {S W A B} (m : Action S W A) (k : A → Action S W B) s f :
  m s = Err f → (m ≫= k) s = Err f.
Proof. intros H. unfold mbind, Action_bind, action_bind. by rewrite H. Qed.

(** Unfolds the monad, to run a short action on a given state. *)
Ltac run_action :=
  unfold mbind, Action_bind, action_bind, mret, Action_ret, action_ret, gets, modify,
    tell, check, action_fail, lift_result, when; cbn.

(** * Weakest preconditions

    [wp E m Q s]: run from [s], [m] either fails with a failure allowed by
    [E] or returns [a] in state [s'] having logged [w], with [Q a s' w]. *)
Section wp.
Context {S W : Type}.

Definition wp {A} (E : Failure → Prop) (m : Action S W A)
    (Q : A → S → list W → Prop) (s : S) : Prop :=
  match m s with
  | Ok (a, s', w) => Q a s' w
  | Err f => E f
  end.

Lemma wp_ret {A} E (a : A) Q s : Q a s [] → wp E (mret a) Q s.
Proof. done. Qed.

Lemma wp_bind {A B} E (m : Action S W A) (k : A → Action S W B) Q s :
  wp E m (λ a s1 w1, wp E (k a) (λ b s2 w2, Q b s2 (w1 ++ w2)) s1) s →
  wp E (m ≫= k) Q s.
Proof.
  unfold wp, mbind, Action_bind, action_bind. cbv beta. intros H.
  destruct (m s) as [[[a s1] w1]|f]; [|done].
  destruct (k a s1) as [[[b s2] w2]|f]; done.
Qed.

Lemma wp_mono {A} E (m : Action S W A) (Q Q' : A → S → list W → Prop) s :
  wp E m Q s → (∀ a s' w, Q a s' w → Q' a s' w) → wp E m Q' s.
Proof. unfold wp. destruct (m s) as [[[a s'] w]|f]; auto. Qed.

Lemma wp_inv {A} (m : Action S W A) Q s a s' w E :
  wp E m Q s → m s = Ok (a, s', w) → Q a s' w.
Proof. unfold wp. intros H Hm. by rewrite Hm in H. Qed.
End wp.

(** * Optional values *)

(** [std::optional::has_value]. *)
Definition is_some {A} (o : option A) : bool :=
  match o with Some _ => true | None => false end.

(** * Vectors indexed by [int32_t] *)

(** [vec_get v i]: element [i] of a [ValueStore] or [SmallVector]; an index
    outside the vector is a failed [CARBON_DCHECK]. *)
Definition vec_get {A} (v : list A) (i : Z) : Result A :=
  if 0 <=? i then
    match v !! Z.to_nat i with Some x => Ok x | None => Err OutOfRange end
  else Err OutOfRange.

(** [vec_set v i x]: overwrites element [i], which must exist. *)
Definition vec_set {A} (v : list A) (i : Z) (x : A) : list A :=
  <[Z.to_nat i := x]> v.

Definition vec_size {A} (v : list A) : Z := Z.of_nat (length v).

Lemma vec_get_Ok {A} (v : list A) i x :
  vec_get v i = Ok x ↔ 0 ≤ i ∧ v !! Z.to_nat i = Some x.
Proof.
  unfold vec_get. destruct (Z.leb_spec 0 i) as [Hi|Hi].
  - destruct (v !! Z.to_nat i); naive_solver.
  - split; [done|]. lia.
Qed.

Lemma vec_get_lt {A} (v : list A) i x :
  vec_get v i = Ok x → 0 ≤ i < vec_size v.
Proof.
  intros [? Hx]%vec_get_Ok. apply lookup_lt_Some in Hx.
  unfold vec_size. lia.
Qed.

Lemma vec_get_app_l {A} (v w : list A) i x :
  vec_get v i = Ok x → vec_get (v ++ w) i = Ok x.
Proof. rewrite !vec_get_Ok. intros [? H]. split; [done|]. by apply lookup_app_l_Some. Qed.

Lemma vec_get_in_range {A} (v : list A) i :
  0 ≤ i < vec_size v → ∃ x, vec_get v i = Ok x.
Proof.
  intros [? Hi]. unfold vec_size in Hi.
  destruct (lookup_lt_is_Some_2 v (Z.to_nat i)) as [x Hx]; [lia|].
  exists x. by apply vec_get_Ok.
Qed.

Lemma vec_size_app {A} (v w : list A) : vec_size (v ++ w) = vec_size v + vec_size w.
Proof. unfold vec_size. rewrite length_app. lia. Qed.

Lemma vec_size_nonneg {A} (v : list A) : 0 ≤ vec_size v.
Proof. unfold vec_size. lia. Qed.

Lemma vec_set_size {A} (v : list A) i x : vec_size (vec_set v i x) = vec_size v.
Proof. unfold vec_size, vec_set. by rewrite length_insert. Qed.

Lemma vec_size_cons {A} (x : A) (l : list A) : vec_size (x :: l) = vec_size l + 1.
Proof. unfold vec_size. cbn [length]. lia. Qed.

Lemma vec_size_one {A} (x : A) : vec_size [x] = 1.
Proof. done. Qed.

Lemma vec_get_snoc_inv {A} (l : list A) x i y :
  vec_get (l ++ [x]) i = Ok y → vec_get l i = Ok y ∨ i = vec_size l ∧ y = x.
Proof.
  intros [Hi H]%vec_get_Ok. apply lookup_app_Some in H as [H|[Hl H]].
  - left. by apply vec_get_Ok.
  - right. apply list_lookup_singleton_Some in H as [H <-]. unfold vec_size. split; [lia|done].
Qed.

Lemma vec_get_app_last {A} (l : list A) x : vec_get (l ++ [x]) (vec_size l) = Ok x.
Proof.
  apply vec_get_Ok. unfold vec_size. split; [lia|]. rewrite Nat2Z.id. by rewrite list_lookup_middle.
Qed.

Lemma vec_get_app_r {A} (l l' : list A) n x :
  vec_get l' n = Ok x → vec_get (l ++ l') (vec_size l + n) = Ok x.
Proof.
  intros [Hn H]%vec_get_Ok. apply vec_get_Ok. unfold vec_size. split; [lia|].
  replace (Z.to_nat (Z.of_nat (length l) + n)) with (length l + Z.to_nat n)%nat by lia.
  rewrite lookup_app_r by lia. by replace (length l + Z.to_nat n - length l)%nat with (Z.to_nat n) by lia.
Qed.

Lemma vec_set_last {A} (l : list A) x y : vec_set (l ++ [x]) (vec_size l) y = l ++ [y].
Proof.
  unfold vec_set, vec_size. rewrite Nat2Z.id, insert_app_r_alt by lia.
  by rewrite Nat.sub_diag.
Qed.

Lemma last_index {A} (x y : A) l : vec_size (x :: l ++ [y]) - 1 = vec_size (x :: l).
Proof. rewrite !vec_size_cons, vec_size_app. change (vec_size [y]) with 1. lia. Qed.

Lemma vec_get_set {A} (l : list A) i x j y :
  0 ≤ i < vec_size l →
  vec_get (vec_set l i x) j = Ok y ↔ i = j ∧ x = y ∨ i ≠ j ∧ vec_get l j = Ok y.
Proof.
  intros Hi. rewrite !vec_get_Ok. unfold vec_set, vec_size in *. destruct (decide (i = j)) as [->|Hne].
  - rewrite list_lookup_insert_eq by lia. split.
    + intros [_ [= ->]]. by left.
    + intros [[_ ->]|[? _]]; [|done]. split; [lia|done].
  - split.
    + intros [Hj H]. right. split; [done|]. split; [done|].
      by rewrite list_lookup_insert_ne in H by lia.
    + intros [[]|[_ [Hj H]]]; [done|]. split; [done|].
      by rewrite list_lookup_insert_ne by lia.
Qed.

Lemma take_init {A} (l : list A) x : take (length (l ++ [x]) - 1) (l ++ [x]) = l.
Proof. rewrite length_app. cbn [length]. rewrite Nat.add_sub. apply take_app_length. Qed.

Lemma filter_none {A} (P : A → Prop) `{∀ x, Decision (P x)} (l : list A) :
  Forall (λ x, ¬ P x) l → filter P l = [].
Proof. induction 1; [done|]. by rewrite filter_cons_False. Qed.

Lemma filter_every {A} (P : A → Prop) `{∀ x, Decision (P x)} (l : list A) :
  Forall P l → filter P l = l.
Proof. induction 1 as [|x l Hx _ IH]; [done|]. by rewrite filter_cons_True, IH. Qed.

(** * Functions that return *)

(** A function that only reads returns, and what it returns is as stated. *)
Definition succeeds {A} (m : Result A) (P : A → Prop) : Prop := ∃ a, m = Ok a ∧ P a.

Lemma succeeds_ret {A} (a : A) (P : A → Prop) : P a → succeeds (mret a) P.
Proof. by exists a. Qed.

Lemma succeeds_bind {A B} (m : Result A) (k : A → Result B) (P : B → Prop) :
  succeeds m (λ a, succeeds (k a) P) → succeeds (m ≫= k) P.
Proof. intros (a & -> & H). exact H. Qed.

Lemma succeeds_mono {A} (m : Result A) (P Q : A → Prop) :
  succeeds m P → (∀ a, P a → Q a) → succeeds m Q.
Proof. intros (a & E & H) HQ. exists a. auto. Qed.

Lemma succeeds_then {A B} (m : Result A) (k : A → Result B) (P : A → Prop) (Q : B → Prop) :
  succeeds m P → (∀ a, P a → succeeds (k a) Q) → succeeds (m ≫= k) Q.
Proof. intros Hm Hk. apply succeeds_bind. by eapply succeeds_mono. Qed.

Lemma succeeds_require (p : bool) (P : unit → Prop) : p = true → P tt → succeeds (require p) P.
Proof. intros -> H. by exists tt. Qed.

Lemma succeeds_get {A} (l : list A) i (P : A → Prop) :
  0 ≤ i < vec_size l → (∀ x, vec_get l i = Ok x → P x) → succeeds (vec_get l i) P.
Proof. intros [x Hx]%vec_get_in_range H. exists x. auto. Qed.

(** One step through a function that should return. *)
Ltac succeeds_step :=
  match goal with
  | |- succeeds (mret _) _ => apply succeeds_ret
  | |- succeeds (Ok _) _ => apply succeeds_ret
  | |- succeeds (mbind _ _) _ => apply succeeds_bind
  | |- succeeds (vec_get _ _) _ => apply succeeds_get
  end.

(** * Loops that can fail *)

Section loops.
Context {St : Type}.
Implicit Types (s : St) (body : Z → St → Result St).

(** [for (i = lo; i < hi; ++i) s = body(i, s)]. *)
Fixpoint for_up (n : nat) (i : Z) body s : Result St :=
  match n with O => Ok s | S n => s ← body i s; for_up n (i + 1) body s end.
Definition for_seq (lo hi : Z) body s : Result St := for_up (Z.to_nat (hi - lo)) lo body s.

(** [for (i = hi - 1; i >= lo; --i) s = body(i, s)]. *)
Fixpoint for_down (n : nat) (i : Z) body s : Result St :=
  match n with O => Ok s | S n => s ← body (i - 1) s; for_down n (i - 1) body s end.
Definition for_seq_reverse (lo hi : Z) body s : Result St :=
  for_down (Z.to_nat (hi - lo)) hi body s.

(** [for (x : l) s = body(x, s)]. *)
Fixpoint for_each {A} (l : list A) (body : A → St → Result St) s : Result St :=
  match l with [] => Ok s | x :: l => s ← body x s; for_each l body s end.

(** A loop that goes on with [inl s] and leaves with [inr r]. *)
Fixpoint loop {R} (fuel : nat) (body : St → Result (St + R)) s : Result R :=
  match fuel with
  | O => Err OutOfFuel
  | S fuel => x ← body s; match x with inl s => loop fuel body s | inr r => Ok r end
  end.

Lemma for_up_succeeds (I : Z → St → Prop) body n : ∀ lo s,
  I lo s →
  (∀ i s, lo ≤ i < lo + Z.of_nat n → I i s → succeeds (body i s) (I (i + 1))) →
  succeeds (for_up n lo body s) (I (lo + Z.of_nat n)).
Proof.
  induction n as [|n IH]; intros lo s H Hb; cbn [for_up].
  { exists s. split; [done|]. by rewrite Z.add_0_r. }
  apply (succeeds_then _ _ (I (lo + 1))); [apply Hb; [lia|done]|]. intros s' Hs'.
  replace (lo + Z.of_nat (S n)) with (lo + 1 + Z.of_nat n) by lia.
  apply IH; [done|]. intros i s'' Hi. apply Hb. lia.
Qed.

Lemma for_seq_succeeds (I : Z → St → Prop) lo hi body s :
  lo ≤ hi → I lo s →
  (∀ i s, lo ≤ i < hi → I i s → succeeds (body i s) (I (i + 1))) →
  succeeds (for_seq lo hi body s) (I hi).
Proof.
  intros Hr H Hb. unfold for_seq. replace hi with (lo + Z.of_nat (Z.to_nat (hi - lo))) at 2 by lia.
  apply for_up_succeeds; [done|]. intros i s' Hi. apply Hb. lia.
Qed.

Lemma for_down_succeeds (I : Z → St → Prop) body n : ∀ hi s,
  I hi s →
  (∀ i s, hi - Z.of_nat n ≤ i < hi → I (i + 1) s → succeeds (body i s) (I i)) →
  succeeds (for_down n hi body s) (I (hi - Z.of_nat n)).
Proof.
  induction n as [|n IH]; intros hi s H Hb; cbn [for_down].
  { exists s. split; [done|]. by rewrite Z.sub_0_r. }
  apply (succeeds_then _ _ (I (hi - 1))); [apply Hb; [lia|by rewrite Z.sub_add]|]. intros s' Hs'.
  replace (hi - Z.of_nat (S n)) with (hi - 1 - Z.of_nat n) by lia.
  apply IH; [done|]. intros i s'' Hi. apply Hb. lia.
Qed.

Lemma for_seq_reverse_succeeds (I : Z → St → Prop) lo hi body s :
  lo ≤ hi → I hi s →
  (∀ i s, lo ≤ i < hi → I (i + 1) s → succeeds (body i s) (I i)) →
  succeeds (for_seq_reverse lo hi body s) (I lo).
Proof.
  intros Hr H Hb. unfold for_seq_reverse.
  replace lo with (hi - Z.of_nat (Z.to_nat (hi - lo))) at 2 by lia.
  apply for_down_succeeds; [done|]. intros i s' Hi. apply Hb. lia.
Qed.

Lemma for_each_succeeds {A} (I : list A → St → Prop) (body : A → St → Result St) (l : list A) : ∀ s,
  I l s → (∀ x l s, I (x :: l) s → succeeds (body x s) (I l)) →
  succeeds (for_each l body s) (I []).
Proof.
  induction l as [|x l IH]; intros s H Hb; cbn [for_each]; [by exists s|].
  apply (succeeds_then _ _ (I l)); [by apply Hb|]. intros s' Hs'. by apply IH.
Qed.

(** A loop whose measure decreases returns. *)
Lemma loop_succeeds {R} (I : St → Prop) (m : St → nat) (body : St → Result (St + R))
    (Q : R → Prop) fuel : ∀ s,
  I s → (m s < fuel)%nat →
  (∀ s, I s → succeeds (body s) (λ x,
    match x with inl s' => I s' ∧ (m s' < m s)%nat | inr r => Q r end)) →
  succeeds (loop fuel body s) Q.
Proof.
  induction fuel as [|fuel IH]; intros s H Hm Hb; [lia|]. cbn [loop].
  eapply succeeds_then; [by apply Hb|]. intros [s'|r]; [|by exists r]. intros [H' Hm'].
  apply IH; [done|lia|done].
Qed.
End loops.

(** * Enumerations

    An enumeration of the C++ code is compared through its [AsInt], so that
    a comparison evaluates to one integer comparison. *)
Section enum.
Context {A : Type} (AsInt : A → Z) (of_int : Z → option A).
Hypothesis of_int_AsInt : ∀ x, of_int (AsInt x) = Some x.

Lemma enum_inj x y : AsInt x = AsInt y → x = y.
Proof. intros H. apply (inj Some). by rewrite <- !of_int_AsInt, H. Qed.

Definition enum_eq_dec (x y : A) : Decision (x = y).
Proof.
  destruct (Z.eq_dec (AsInt x) (AsInt y)) as [H|H].
  - left. by apply enum_inj.
  - right. by intros ->.
Defined.
End enum.
