(* ===== verification/TokenKinds.v ===== *)
(** Token kinds: [Lex::TokenKind] of [toolchain/lex/token_kind.h] with the
    enumerators of [toolchain/lex/token_kind.def] and the classification
    tables of [toolchain/lex/token_kind.cpp]. *)

From S2P Require Import Prelude.

Module TokenKind.

(** The enumerators. [Type], [True] and [False] are reserved words here
    and take a trailing underscore. *)
Inductive t : Set :=
  | Error | GreaterGreaterEqual | LessEqualGreater | LessLessEqual
  | MinusGreaterQuestion | PeriodPeriodPeriod | AmpEqual | CaretEqual
  | ColonEqual | ColonQuestion | EqualEqual | EqualGreater | ExclaimEqual
  | GreaterEqual | GreaterGreater | LessEqual | LessGreater | LessLess
  | LessMinus | MinusEqual | MinusGreater | MinusMinus | PercentEqual
  | PipeEqual | PlusEqual | PlusPlus | SlashEqual | StarEqual | TildeEqual
  | Amp | At | Backslash | Caret | Colon | Equal | Exclaim | Greater | Less
  | Minus | Percent | Period | Pipe | Plus | Question | Slash | Star | Tilde
  | Comma | Semi | OpenParen | OpenCurlyBrace | OpenSquareBracket
  | CloseParen | CloseCurlyBrace | CloseSquareBracket | Adapt | Alias | Base
  | Choice | Class | Constraint | Export | Fn | Impl | Import | Interface
  | Let | Library | MatchFirst | Namespace | Package | Require | Union | Var
  | Abstract | And | Array | As | Auto | Bool | Break | Case | Char | Const
  | Continue | Core | Cpp | Default | Each | Else | Eval | Expand | Extend
  | Extern | False_ | Final | For | Form | Forall | Friend | Generic | If
  | Impls | In | Inline | Like | Match | MustEval | Not | Observe | Or
  | Overload | Override | Partial | Private | Protected | Ref | Return
  | Returned | Runtime | SelfTypeIdentifier | SelfValueIdentifier | Static
  | Str | Template | Then | True_ | Type_ | TypeOf | Underscore | Unsafe
  | Unused | Virtual | Val | Where | While | Identifier | IntLiteral
  | RealLiteral | StringLiteral | CharLiteral | IntTypeLiteral
  | UnsignedIntTypeLiteral | FloatTypeLiteral | DollarIntLiteral | FileStart
  | FileEnd.

(** The enumerator's position in the X-macro file. *)
Definition AsInt (k : t) : Z :=
  match k with
    | Error => 0 | GreaterGreaterEqual => 1 | LessEqualGreater => 2
    | LessLessEqual => 3 | MinusGreaterQuestion => 4
    | PeriodPeriodPeriod => 5 | AmpEqual => 6 | CaretEqual => 7
    | ColonEqual => 8 | ColonQuestion => 9 | EqualEqual => 10
    | EqualGreater => 11 | ExclaimEqual => 12 | GreaterEqual => 13
    | GreaterGreater => 14 | LessEqual => 15 | LessGreater => 16
    | LessLess => 17 | LessMinus => 18 | MinusEqual => 19
    | MinusGreater => 20 | MinusMinus => 21 | PercentEqual => 22
    | PipeEqual => 23 | PlusEqual => 24 | PlusPlus => 25 | SlashEqual => 26
    | StarEqual => 27 | TildeEqual => 28 | Amp => 29 | At => 30
    | Backslash => 31 | Caret => 32 | Colon => 33 | Equal => 34
    | Exclaim => 35 | Greater => 36 | Less => 37 | Minus => 38
    | Percent => 39 | Period => 40 | Pipe => 41 | Plus => 42 | Question => 43
    | Slash => 44 | Star => 45 | Tilde => 46 | Comma => 47 | Semi => 48
    | OpenParen => 49 | OpenCurlyBrace => 50 | OpenSquareBracket => 51
    | CloseParen => 52 | CloseCurlyBrace => 53 | CloseSquareBracket => 54
    | Adapt => 55 | Alias => 56 | Base => 57 | Choice => 58 | Class => 59
    | Constraint => 60 | Export => 61 | Fn => 62 | Impl => 63 | Import => 64
    | Interface => 65 | Let => 66 | Library => 67 | MatchFirst => 68
    | Namespace => 69 | Package => 70 | Require => 71 | Union => 72
    | Var => 73 | Abstract => 74 | And => 75 | Array => 76 | As => 77
    | Auto => 78 | Bool => 79 | Break => 80 | Case => 81 | Char => 82
    | Const => 83 | Continue => 84 | Core => 85 | Cpp => 86 | Default => 87
    | Each => 88 | Else => 89 | Eval => 90 | Expand => 91 | Extend => 92
    | Extern => 93 | False_ => 94 | Final => 95 | For => 96 | Form => 97
    | Forall => 98 | Friend => 99 | Generic => 100 | If => 101 | Impls => 102
    | In => 103 | Inline => 104 | Like => 105 | Match => 106
    | MustEval => 107 | Not => 108 | Observe => 109 | Or => 110
    | Overload => 111 | Override => 112 | Partial => 113 | Private => 114
    | Protected => 115 | Ref => 116 | Return => 117 | Returned => 118
    | Runtime => 119 | SelfTypeIdentifier => 120 | SelfValueIdentifier => 121
    | Static => 122 | Str => 123 | Template => 124 | Then => 125
    | True_ => 126 | Type_ => 127 | TypeOf => 128 | Underscore => 129
    | Unsafe => 130 | Unused => 131 | Virtual => 132 | Val => 133
    | Where => 134 | While => 135 | Identifier => 136 | IntLiteral => 137
    | RealLiteral => 138 | StringLiteral => 139 | CharLiteral => 140
    | IntTypeLiteral => 141 | UnsignedIntTypeLiteral => 142
    | FloatTypeLiteral => 143 | DollarIntLiteral => 144 | FileStart => 145
    | FileEnd => 146
  end.

(** Every enumerator, in declaration order. *)
Definition all : list t := [
    Error; GreaterGreaterEqual; LessEqualGreater; LessLessEqual;
    MinusGreaterQuestion; PeriodPeriodPeriod; AmpEqual; CaretEqual;
    ColonEqual; ColonQuestion; EqualEqual; EqualGreater; ExclaimEqual;
    GreaterEqual; GreaterGreater; LessEqual; LessGreater; LessLess;
    LessMinus; MinusEqual; MinusGreater; MinusMinus; PercentEqual; PipeEqual;
    PlusEqual; PlusPlus; SlashEqual; StarEqual; TildeEqual; Amp; At;
    Backslash; Caret; Colon; Equal; Exclaim; Greater; Less; Minus; Percent;
    Period; Pipe; Plus; Question; Slash; Star; Tilde; Comma; Semi; OpenParen;
    OpenCurlyBrace; OpenSquareBracket; CloseParen; CloseCurlyBrace;
    CloseSquareBracket; Adapt; Alias; Base; Choice; Class; Constraint;
    Export; Fn; Impl; Import; Interface; Let; Library; MatchFirst; Namespace;
    Package; Require; Union; Var; Abstract; And; Array; As; Auto; Bool;
    Break; Case; Char; Const; Continue; Core; Cpp; Default; Each; Else; Eval;
    Expand; Extend; Extern; False_; Final; For; Form; Forall; Friend;
    Generic; If; Impls; In; Inline; Like; Match; MustEval; Not; Observe; Or;
    Overload; Override; Partial; Private; Protected; Ref; Return; Returned;
    Runtime; SelfTypeIdentifier; SelfValueIdentifier; Static; Str; Template;
    Then; True_; Type_; TypeOf; Underscore; Unsafe; Unused; Virtual; Val;
    Where; While; Identifier; IntLiteral; RealLiteral; StringLiteral;
    CharLiteral; IntTypeLiteral; UnsignedIntTypeLiteral; FloatTypeLiteral;
    DollarIntLiteral; FileStart; FileEnd].

Definition of_int (i : Z) : option t := all !! Z.to_nat i.

Lemma token_of_int_AsInt k : of_int (AsInt k) = Some k.
Proof. destruct k; reflexivity. Qed.

#[global] Instance eq_dec : EqDecision t := enum_eq_dec AsInt of_int token_of_int_AsInt.

(** [operator==]. *)
Definition eqb (a b : t) : bool := AsInt a =? AsInt b.

Lemma token_eqb_eq a b : eqb a b = true ↔ a = b.
Proof.
  unfold eqb. rewrite Z.eqb_eq. split; [|by intros ->].
  apply (enum_inj AsInt of_int token_of_int_AsInt).
Qed.

Lemma token_eqb_refl a : eqb a a = true.
Proof. by apply token_eqb_eq. Qed.

Lemma token_eqb_spec a b : BoolSpec (a = b) (a ≠ b) (eqb a b).
Proof.
  destruct (eqb a b) eqn:E; constructor; rewrite <- token_eqb_eq; [done|].
  by rewrite E.
Qed.

Lemma token_elem_of_all k : k ∈ all.
Proof. eapply list_elem_of_lookup_2. apply (token_of_int_AsInt k). Qed.

(** [TokenKind::is_symbol]: punctuation with a fixed spelling. *)
Definition is_symbol (k : t) : bool :=
  match k with
    | GreaterGreaterEqual | LessEqualGreater | LessLessEqual
    | MinusGreaterQuestion | PeriodPeriodPeriod | AmpEqual | CaretEqual
    | ColonEqual | ColonQuestion | EqualEqual | EqualGreater | ExclaimEqual
    | GreaterEqual | GreaterGreater | LessEqual | LessGreater | LessLess
    | LessMinus | MinusEqual | MinusGreater | MinusMinus | PercentEqual
    | PipeEqual | PlusEqual | PlusPlus | SlashEqual | StarEqual | TildeEqual
    | Amp | At | Backslash | Caret | Colon | Equal | Exclaim | Greater | Less
    | Minus | Percent | Period | Pipe | Plus | Question | Slash | Star
    | Tilde | Comma | Semi | OpenParen | OpenCurlyBrace | OpenSquareBracket
    | CloseParen | CloseCurlyBrace | CloseSquareBracket => true
  | _ => false
  end.

(** [TokenKind::is_opening_symbol]. *)
Definition is_opening_symbol (k : t) : bool :=
  match k with
    | OpenParen | OpenCurlyBrace | OpenSquareBracket => true
  | _ => false
  end.

(** [TokenKind::is_closing_symbol]. *)
Definition is_closing_symbol (k : t) : bool :=
  match k with
    | CloseParen | CloseCurlyBrace | CloseSquareBracket => true
  | _ => false
  end.

(** [TokenKind::is_grouping_symbol]. *)
Definition is_grouping_symbol (k : t) : bool :=
  match k with
    | OpenParen | OpenCurlyBrace | OpenSquareBracket | CloseParen
    | CloseCurlyBrace | CloseSquareBracket => true
  | _ => false
  end.

(** [TokenKind::is_one_char_symbol]. *)
Definition is_one_char_symbol (k : t) : bool :=
  match k with
    | Comma | Semi | OpenParen | OpenCurlyBrace | OpenSquareBracket
    | CloseParen | CloseCurlyBrace | CloseSquareBracket => true
  | _ => false
  end.

(** [TokenKind::is_keyword]. *)
Definition is_keyword (k : t) : bool :=
  match k with
    | Adapt | Alias | Base | Choice | Class | Constraint | Export | Fn | Impl
    | Import | Interface | Let | Library | MatchFirst | Namespace | Package
    | Require | Union | Var | Abstract | And | Array | As | Auto | Bool
    | Break | Case | Char | Const | Continue | Core | Cpp | Default | Each
    | Else | Eval | Expand | Extend | Extern | False_ | Final | For | Form
    | Forall | Friend | Generic | If | Impls | In | Inline | Like | Match
    | MustEval | Not | Observe | Or | Overload | Override | Partial | Private
    | Protected | Ref | Return | Returned | Runtime | SelfTypeIdentifier
    | SelfValueIdentifier | Static | Str | Template | Then | True_ | Type_
    | TypeOf | Underscore | Unsafe | Unused | Virtual | Val | Where | While => true
  | _ => false
  end.

(** The [ClosingSymbol] table; [Error] for a kind that opens no group. *)
Definition closing_symbol (k : t) : t :=
  match k with
  | OpenParen => CloseParen
  | OpenCurlyBrace => CloseCurlyBrace
  | OpenSquareBracket => CloseSquareBracket
  | _ => Error
  end.

(** The [OpeningSymbol] table; [Error] for a kind that closes no group. *)
Definition opening_symbol (k : t) : t :=
  match k with
  | CloseParen => OpenParen
  | CloseCurlyBrace => OpenCurlyBrace
  | CloseSquareBracket => OpenSquareBracket
  | _ => Error
  end.

(** [TokenKind::is_sized_type_literal]. *)
Definition is_sized_type_literal (k : t) : bool :=
  eqb k IntTypeLiteral || eqb k UnsignedIntTypeLiteral || eqb k FloatTypeLiteral.

(** [TokenKind::is_word]. *)
Definition is_word (k : t) : bool :=
  eqb k Identifier || eqb k Underscore || is_keyword k || is_sized_type_literal k.

(** [TokenKind::is_binding_pattern_operator]. *)
Definition is_binding_pattern_operator (k : t) : bool :=
  eqb k Colon || eqb k ColonQuestion.

(** The [ExpectedParseTreeSize] table: two nodes for a token marked [CARBON_TOKEN_WITH_VIRTUAL_NODE], one for the others. *)
Definition expected_max_parse_tree_size (k : t) : Z :=
  match k with
    | PeriodPeriodPeriod | ColonQuestion | Colon | Equal | Period | Fn | Var
    | And | Else | Or | SelfValueIdentifier | Where => 2
  | _ => 1
  end.

(** [TokenKind::IsOneOf]. *)
Definition IsOneOf (k : t) (kinds : list t) : bool := existsb (eqb k) kinds.

(** The [FixedSpelling] table; the empty string when the spelling varies. *)
Definition fixed_spelling (k : t) : string :=
  match k with
  | GreaterGreaterEqual => ">>=" | LessEqualGreater => "<=>"
  | LessLessEqual => "<<=" | MinusGreaterQuestion => "->?"
  | PeriodPeriodPeriod => "..." | AmpEqual => "&=" | CaretEqual => "^="
  | ColonEqual => ":=" | ColonQuestion => ":?" | EqualEqual => "=="
  | EqualGreater => "=>" | ExclaimEqual => "!=" | GreaterEqual => ">="
  | GreaterGreater => ">>" | LessEqual => "<=" | LessGreater => "<>"
  | LessLess => "<<" | LessMinus => "<-" | MinusEqual => "-="
  | MinusGreater => "->" | MinusMinus => "--" | PercentEqual => "%="
  | PipeEqual => "|=" | PlusEqual => "+=" | PlusPlus => "++"
  | SlashEqual => "/=" | StarEqual => "*=" | TildeEqual => "~=" | Amp => "&"
  | At => "@" | Backslash => "\" | Caret => "^" | Colon => ":" | Equal => "="
  | Exclaim => "!" | Greater => ">" | Less => "<" | Minus => "-"
  | Percent => "%" | Period => "." | Pipe => "|" | Plus => "+"
  | Question => "?" | Slash => "/" | Star => "*" | Tilde => "~"
  | Comma => "," | Semi => ";" | OpenParen => "(" | OpenCurlyBrace => "{"
  | OpenSquareBracket => "[" | CloseParen => ")" | CloseCurlyBrace => "}"
  | CloseSquareBracket => "]" | Adapt => "adapt" | Alias => "alias"
  | Base => "base" | Choice => "choice" | Class => "class"
  | Constraint => "constraint" | Export => "export" | Fn => "fn"
  | Impl => "impl" | Import => "import" | Interface => "interface"
  | Let => "let" | Library => "library" | MatchFirst => "match_first"
  | Namespace => "namespace" | Package => "package" | Require => "require"
  | Union => "union" | Var => "var" | Abstract => "abstract" | And => "and"
  | Array => "array" | As => "as" | Auto => "auto" | Bool => "bool"
  | Break => "break" | Case => "case" | Char => "char" | Const => "const"
  | Continue => "continue" | Core => "Core" | Cpp => "Cpp"
  | Default => "default" | Each => "each" | Else => "else" | Eval => "eval"
  | Expand => "expand" | Extend => "extend" | Extern => "extern"
  | False_ => "false" | Final => "final" | For => "for" | Form => "form"
  | Forall => "forall" | Friend => "friend" | Generic => "generic"
  | If => "if" | Impls => "impls" | In => "in" | Inline => "inline"
  | Like => "like" | Match => "match" | MustEval => "musteval" | Not => "not"
  | Observe => "observe" | Or => "or" | Overload => "overload"
  | Override => "override" | Partial => "partial" | Private => "private"
  | Protected => "protected" | Ref => "ref" | Return => "return"
  | Returned => "returned" | Runtime => "runtime"
  | SelfTypeIdentifier => "Self" | SelfValueIdentifier => "self"
  | Static => "static" | Str => "str" | Template => "template"
  | Then => "then" | True_ => "true" | Type_ => "type" | TypeOf => "typeof"
  | Underscore => "_" | Unsafe => "unsafe" | Unused => "unused"
  | Virtual => "virtual" | Val => "val" | Where => "where" | While => "while"
  | _ => ""
  end.

Lemma IsOneOf_elem k kinds : IsOneOf k kinds = true ↔ k ∈ kinds.
Proof.
  unfold IsOneOf. rewrite existsb_exists. split.
  - intros (x & Hx & Hk). apply token_eqb_eq in Hk as ->. by apply list_elem_of_In.
  - intros Hk. exists k. rewrite token_eqb_refl. split; [by apply list_elem_of_In|done].
Qed.

End TokenKind.
