(* ===== verification/Text.v ===== *)
(** Bytes and views of text: the character classes of
    [toolchain/lex/character_set.h], and [llvm::StringRef] as the lexer uses it,
    a list of bytes with the offset in the source buffer it starts at. *)

From S2P Require Import Prelude.
From Stdlib Require Export Ascii.


(** * Bytes *)

Abbreviation char := Ascii.ascii.

(** [static_cast<unsigned char>(c)]. *)
Definition code (c : char) : Z := Z.of_N (N_of_ascii c).

Definition char_eqb (a b : char) : bool := code a =? code b.

Lemma code_inj a b : code a = code b → a = b.
Proof.
  unfold code. intros H%N2Z.inj.
  by rewrite <- (ascii_N_embedding a), H, ascii_N_embedding.
Qed.

Lemma code_range c : 0 ≤ code c < 256.
Proof. unfold code. pose proof (N_ascii_bounded c). lia. Qed.

Lemma char_eqb_eq a b : char_eqb a b = true ↔ a = b.
Proof. unfold char_eqb. rewrite Z.eqb_eq. split; [apply code_inj|by intros ->]. Qed.

Lemma char_eqb_spec a b : reflect (a = b) (char_eqb a b).
Proof. apply iff_reflect. by rewrite char_eqb_eq. Qed.

Lemma char_eqb_refl a : char_eqb a a = true.
Proof. by apply char_eqb_eq. Qed.

(** ['lo' <= c && c <= 'hi']. *)
Definition in_range (lo hi c : char) : bool := (code lo <=? code c) && (code c <=? code hi).

Section classes.
Local Open Scope char_scope.

Definition IsAlpha (c : char) : bool := in_range "A" "Z" c || in_range "a" "z" c.
Definition IsDecimalDigit (c : char) : bool := in_range "0" "9" c.
Definition IsAlnum (c : char) : bool := IsAlpha c || IsDecimalDigit c.
Definition IsUpperHexDigit (c : char) : bool := in_range "0" "9" c || in_range "A" "F" c.
Definition IsLower (c : char) : bool := in_range "a" "z" c.
Definition IsHorizontalWhitespace (c : char) : bool :=
  char_eqb c " " || char_eqb c "009".
Definition IsVerticalWhitespace (c : char) : bool := char_eqb c "010".
Definition IsSpace (c : char) : bool := IsHorizontalWhitespace c || IsVerticalWhitespace c.
End classes.

(** Decides a statement about every byte. *)
Definition all_chars : list char := ascii_of_nat <$> seq 0 256.

Lemma elem_of_all_chars c : c ∈ all_chars.
Proof.
  apply list_elem_of_fmap. exists (nat_of_ascii c). split.
  - by rewrite ascii_nat_embedding.
  - apply elem_of_seq. pose proof (nat_ascii_bounded c). lia.
Qed.

Lemma forall_chars (P : char → bool) : forallb P all_chars = true → ∀ c, P c = true.
Proof.
  intros H c. rewrite forallb_forall in H. apply H, list_elem_of_In, elem_of_all_chars.
Qed.

(** * Byte sequences *)

(** A string literal of the source. *)
Definition str (s : string) : list char := Stdlib.Strings.String.list_ascii_of_string s.

Fixpoint starts_with (prefix s : list char) : bool :=
  match prefix, s with
  | [], _ => true
  | c :: prefix, c' :: s => char_eqb c c' && starts_with prefix s
  | _ :: _, [] => false
  end.

Lemma starts_with_spec prefix s :
  starts_with prefix s = true ↔ ∃ rest, s = prefix ++ rest.
Proof.
  revert s. induction prefix as [|c prefix IH]; intros s; cbn.
  { split; [by exists s|done]. }
  destruct s as [|c' s]; [split; [done|by intros [? ?]]|].
  rewrite andb_true_iff, char_eqb_eq, IH. naive_solver.
Qed.

Fixpoint take_while (p : char → bool) (s : list char) : list char :=
  match s with
  | c :: s => if p c then c :: take_while p s else []
  | [] => []
  end.

Fixpoint drop_while (p : char → bool) (s : list char) : list char :=
  match s with
  | c :: s' => if p c then drop_while p s' else s
  | [] => []
  end.

Lemma take_drop_while p s : take_while p s ++ drop_while p s = s.
Proof. induction s as [|c s IH]; cbn; [done|]. destruct (p c); cbn; by rewrite ?IH. Qed.

Lemma take_while_all p s : Forall (λ c, p c = true) (take_while p s).
Proof. induction s as [|c s IH]; cbn; [done|]. destruct (p c) eqn:E; [by constructor|done]. Qed.

Lemma take_while_length p s : (length (take_while p s) ≤ length s)%nat.
Proof. rewrite <- (take_drop_while p s) at 2. rewrite length_app. lia. Qed.

Lemma drop_while_head p s c s' : drop_while p s = c :: s' → p c = false.
Proof.
  induction s as [|d s IH]; cbn; [done|]. destruct (p d) eqn:E; [done|].
  intros [= <- _]. done.
Qed.

Lemma take_while_id p s : Forall (λ c, p c = true) s → take_while p s = s.
Proof. induction 1 as [|c s Hc _ IH]; cbn; [done|]. by rewrite Hc, IH. Qed.

(** The index of the first byte with [p]. *)
Fixpoint find_if (p : char → bool) (s : list char) : option Z :=
  match s with
  | [] => None
  | c :: s => if p c then Some 0 else (λ i, i + 1) <$> find_if p s
  end.

Definition find_if_not (p : char → bool) : list char → option Z := find_if (λ c, negb (p c)).

(** * [llvm::StringRef] *)

Module StringRef.

Record t := mk { begin : Z; chars : list char }.

Implicit Types (s : t).

Definition size s : Z := vec_size (chars s).
Definition end_ s : Z := begin s + size s.
Definition empty s : bool := match chars s with [] => true | _ => false end.

(** [operator[]] and [front], which assert that the index is in range. *)
Definition at_ s (i : Z) : Result char := vec_get (chars s) i.
Definition front s : Result char := at_ s 0.

(** A [size_t] argument. *)
Definition size_t (n : Z) : Z := n mod 2 ^ 64.
Definition npos : Z := 2 ^ 64 - 1.

(** [substr(start, n)]: both arguments are clamped to the view. *)
Definition substr s (start n : Z) : t :=
  let start := Z.min (size_t start) (size s) in
  let n := Z.min (size_t n) (size s - start) in
  mk (begin s + start) (take (Z.to_nat n) (drop (Z.to_nat start) (chars s))).
Definition substr_from s (start : Z) : t := substr s start npos.

(** [take_front(n)] and [drop_front(n)]; the latter asserts [n <= size()]. *)
Definition take_front s (n : Z) : t := substr s 0 n.
Definition drop_front s (n : Z) : Result t :=
  require (n <=? size s) ;; mret (substr_from s n).

(** The view between two positions of the buffer, as built from two
    pointers into [s]. *)
Definition between s (b e : Z) : t := substr s (b - begin s) (e - b).

(** [consume_front]: whether the prefix was there, and the rest. *)
Definition consume_front s (prefix : list char) : bool * t :=
  if starts_with prefix (chars s)
  then (true, mk (begin s + vec_size prefix) (drop (length prefix) (chars s)))
  else (false, s).

(** [ltrim(c)]. *)
Definition ltrim (c : char) s : list char := drop_while (char_eqb c) (chars s).

Lemma substr_all_in s start n :
  0 ≤ start → 0 ≤ n → start + n ≤ size s → size s < 2 ^ 64 →
  substr s start n =
    mk (begin s + start) (take (Z.to_nat n) (drop (Z.to_nat start) (chars s))).
Proof.
  intros. unfold substr, size_t. rewrite !Z.mod_small by lia.
  by rewrite !Z.min_l by lia.
Qed.

Lemma substr_from_in s start :
  0 ≤ start ≤ size s → size s < 2 ^ 64 →
  substr_from s start = mk (begin s + start) (drop (Z.to_nat start) (chars s)).
Proof.
  intros Hs Hz. unfold substr_from, substr, size_t, npos. rewrite !Z.mod_small by lia.
  rewrite (Z.min_l start), Z.min_r by lia. f_equal. apply take_ge.
  unfold size, vec_size in *. rewrite length_drop. lia.
Qed.

End StringRef.
