(* ===== verification/APInts.v ===== *)
(** [llvm::APInt], the fixed-width integers the lexer and the integer store
    compute with. The library is not part of the repository: its operations are
    a record of parameters, [APIntLaws] is what its documentation says of
    them, and [ZAPInt] is an implementation that shows the laws can hold. *)

From S2P Require Import Prelude.

(** The operations the repository uses. *)
Class APInts := {
  APInt : Type;
  (** [getBitWidth()], and the value as an unsigned and a signed integer. *)
  getBitWidth : APInt → Z;
  getZExtValue : APInt → Z;
  (** [APInt(width, value, isSigned)]: [value] truncated to the width. *)
  makeAPInt : Z → Z → APInt;
  (** [setBit(i)] and [setSignBit()]. *)
  setBit : APInt → Z → APInt;
  setSignBit : APInt → APInt;
  (** [x = v], [x *= v], [x += v], [x -= v] for a 64-bit [v]. *)
  assign : APInt → Z → APInt;
  mulAssign : APInt → Z → APInt;
  addAssign : APInt → Z → APInt;
  subAssign : APInt → Z → APInt;
  (** [negate()], [zext(w)], [sextOrTrunc(w)], [zextOrTrunc(w)]. *)
  negate : APInt → APInt;
  zext : APInt → Z → APInt;
  sextOrTrunc : APInt → Z → APInt;
  zextOrTrunc : APInt → Z → APInt;
}.

(** A [w]-bit pattern as a signed integer. *)
Definition to_signed (w v : Z) : Z := if v <? 2 ^ (w - 1) then v else v - 2 ^ w.

Definition getSExtValue `{APInts} (x : APInt) : Z :=
  to_signed (getBitWidth x) (getZExtValue x).

Definition isNegative `{APInts} (x : APInt) : bool := getSExtValue x <? 0.

(** [getActiveBits()]: the width without leading zeros. *)
Definition getActiveBits `{APInts} (x : APInt) : Z :=
  if getZExtValue x =? 0 then 0 else Z.log2 (getZExtValue x) + 1.

(** [getSignificantBits()]: the narrowest two's complement width. *)
Definition getSignificantBits `{APInts} (x : APInt) : Z :=
  let v := getSExtValue x in
  let m := if v <? 0 then - v - 1 else v in
  if m =? 0 then 1 else Z.log2 m + 2.

(** What the library documents. A width is positive. *)
Class APIntLaws `(APInts) := {
  getZExtValue_range x : 0 < getBitWidth x ∧ 0 ≤ getZExtValue x < 2 ^ getBitWidth x;
  makeAPInt_spec w v : 0 < w →
    getBitWidth (makeAPInt w v) = w ∧ getZExtValue (makeAPInt w v) = v mod 2 ^ w;
  setBit_spec x i : 0 ≤ i < getBitWidth x →
    getBitWidth (setBit x i) = getBitWidth x ∧
    getZExtValue (setBit x i) = Z.lor (getZExtValue x) (2 ^ i);
  setSignBit_spec x :
    getBitWidth (setSignBit x) = getBitWidth x ∧
    getZExtValue (setSignBit x) = Z.lor (getZExtValue x) (2 ^ (getBitWidth x - 1));
  assign_spec x v :
    getBitWidth (assign x v) = getBitWidth x ∧
    getZExtValue (assign x v) = (v mod 2 ^ 64) mod 2 ^ getBitWidth x;
  mulAssign_spec x v :
    getBitWidth (mulAssign x v) = getBitWidth x ∧
    getZExtValue (mulAssign x v) = (getZExtValue x * (v mod 2 ^ 64)) mod 2 ^ getBitWidth x;
  addAssign_spec x v :
    getBitWidth (addAssign x v) = getBitWidth x ∧
    getZExtValue (addAssign x v) = (getZExtValue x + v mod 2 ^ 64) mod 2 ^ getBitWidth x;
  subAssign_spec x v :
    getBitWidth (subAssign x v) = getBitWidth x ∧
    getZExtValue (subAssign x v) = (getZExtValue x - v mod 2 ^ 64) mod 2 ^ getBitWidth x;
  negate_spec x :
    getBitWidth (negate x) = getBitWidth x ∧
    getZExtValue (negate x) = (- getZExtValue x) mod 2 ^ getBitWidth x;
  zext_spec x w : getBitWidth x ≤ w →
    getBitWidth (zext x w) = w ∧ getZExtValue (zext x w) = getZExtValue x;
  sextOrTrunc_spec x w : 0 < w →
    getBitWidth (sextOrTrunc x w) = w ∧
    getZExtValue (sextOrTrunc x w) = getSExtValue x mod 2 ^ w;
  zextOrTrunc_spec x w : 0 < w →
    getBitWidth (zextOrTrunc x w) = w ∧
    getZExtValue (zextOrTrunc x w) = getZExtValue x mod 2 ^ w;
}.

(** [operator==] on two values of any widths, as the hash tables of the
    repository compare them. *)
Definition APInt_eqb `{APInts} (x y : APInt) : bool :=
  (getBitWidth x =? getBitWidth y) && (getZExtValue x =? getZExtValue y).

(** * An implementation *)

Module ZAPInt.

Record t := mk { width_ : Z; bits : Z }.

Definition width (x : t) : Z := Z.max 1 (width_ x).
Definition value (x : t) : Z := bits x mod 2 ^ width x.
Definition make (w v : Z) : t := mk w (v mod 2 ^ Z.max 1 w).
Definition on_value (f : Z → Z) (x : t) : t := make (width_ x) (f (value x)).

#[export] Instance ops : APInts := {|
  APInt := t;
  getBitWidth := width;
  getZExtValue := value;
  makeAPInt := make;
  setBit x i := on_value (λ v, Z.lor v (2 ^ i)) x;
  setSignBit x := on_value (λ v, Z.lor v (2 ^ (width x - 1))) x;
  assign x v := on_value (λ _, v mod 2 ^ 64) x;
  mulAssign x v := on_value (λ u, u * (v mod 2 ^ 64)) x;
  addAssign x v := on_value (λ u, u + v mod 2 ^ 64) x;
  subAssign x v := on_value (λ u, u - v mod 2 ^ 64) x;
  negate x := on_value Z.opp x;
  zext x w := make w (value x);
  sextOrTrunc x w := make w (to_signed (width x) (value x));
  zextOrTrunc x w := make w (value x);
|}.

Lemma width_pos x : 0 < width x.
Proof. unfold width. lia. Qed.

Lemma value_range x : 0 ≤ value x < 2 ^ width x.
Proof. apply Z.mod_pos_bound. pose proof (width_pos x). lia. Qed.

Lemma make_spec w v : 0 < w → width (make w v) = w ∧ value (make w v) = v mod 2 ^ w.
Proof.
  intros Hw. unfold value, make, width. cbn [width_ bits].
  rewrite Z.max_r by lia. split; [done|]. apply Z.mod_mod. lia.
Qed.

Lemma on_value_spec f x :
  width (on_value f x) = width x ∧ value (on_value f x) = f (value x) mod 2 ^ width x.
Proof.
  unfold on_value, value at 1, make, width. cbn [width_ bits]. split; [done|].
  apply Z.mod_mod. lia.
Qed.

Lemma lor_bit_range w v i : 0 ≤ v < 2 ^ w → 0 ≤ i < w → 0 ≤ Z.lor v (2 ^ i) < 2 ^ w.
Proof.
  intros Hv Hi. split; [apply Z.lor_nonneg; lia|].
  destruct (Z.eq_dec (Z.lor v (2 ^ i)) 0) as [->|Hz]; [lia|].
  apply Z.log2_lt_pow2; [|].
  { pose proof (proj2 (Z.lor_nonneg v (2 ^ i)) ltac:(lia)). lia. }
  rewrite Z.log2_lor by lia. apply Z.max_lub_lt.
  - destruct (Z.eq_dec v 0) as [->|]; [cbn; lia|]. apply Z.log2_lt_pow2; lia.
  - rewrite Z.log2_pow2; lia.
Qed.

#[export] Instance laws : APIntLaws ops.
Proof.
  split; cbn.
  - intros x. split; [apply width_pos|apply value_range].
  - apply make_spec.
  - intros x i Hi. destruct (on_value_spec (λ v, Z.lor v (2 ^ i)) x) as [-> ->].
    split; [done|]. apply Z.mod_small, lor_bit_range; [apply value_range|done].
  - intros x. destruct (on_value_spec (λ v, Z.lor v (2 ^ (width x - 1))) x) as [-> ->].
    split; [done|]. pose proof (width_pos x).
    apply Z.mod_small, lor_bit_range; [apply value_range|lia].
  - intros x v. apply (on_value_spec (λ _, v mod 2 ^ 64)).
  - intros x v. apply (on_value_spec (λ u, u * (v mod 2 ^ 64))).
  - intros x v. apply (on_value_spec (λ u, u + v mod 2 ^ 64)).
  - intros x v. apply (on_value_spec (λ u, u - v mod 2 ^ 64)).
  - intros x. apply on_value_spec.
  - intros x w Hw. pose proof (width_pos x). pose proof (value_range x).
    destruct (make_spec w (value x)) as [-> ->]; [lia|]. split; [done|].
    apply Z.mod_small. pose proof (Z.pow_le_mono_r 2 (width x) w). lia.
  - intros x w Hw. by apply make_spec.
  - intros x w Hw. by apply make_spec.
Qed.

End ZAPInt.

(** * Facts about the operations *)

Section laws.
Context {Ops : APInts} {Laws : APIntLaws Ops}.

Lemma getSExtValue_range x :
  - 2 ^ (getBitWidth x - 1) ≤ getSExtValue x < 2 ^ (getBitWidth x - 1).
Proof.
  pose proof (getZExtValue_range x) as [Hw Hx]. unfold getSExtValue, to_signed.
  assert (2 ^ getBitWidth x = 2 * 2 ^ (getBitWidth x - 1)) as E.
  { rewrite <- Z.pow_succ_r by lia. f_equal. lia. }
  destruct (Z.ltb_spec (getZExtValue x) (2 ^ (getBitWidth x - 1))); lia.
Qed.

Lemma getSExtValue_small x :
  getZExtValue x < 2 ^ (getBitWidth x - 1) → getSExtValue x = getZExtValue x.
Proof. intros Hx. unfold getSExtValue, to_signed. by rewrite (proj2 (Z.ltb_lt _ _) Hx). Qed.

(** A pattern that reads as [v] modulo the width, for a [v] in the signed
    range, is [v]. *)
Lemma to_signed_mod w v :
  0 < w → - 2 ^ (w - 1) ≤ v < 2 ^ (w - 1) → to_signed w (v mod 2 ^ w) = v.
Proof.
  intros Hw Hv. assert (2 ^ w = 2 * 2 ^ (w - 1)) as E.
  { rewrite <- Z.pow_succ_r by lia. f_equal. lia. }
  unfold to_signed. destruct (Z.lt_ge_cases v 0).
  - replace (v mod 2 ^ w) with (v + 2 ^ w).
    + rewrite (proj2 (Z.ltb_ge _ _)); lia.
    + apply Z.mod_unique with (-1); lia.
  - rewrite Z.mod_small by lia. rewrite (proj2 (Z.ltb_lt _ _)); lia.
Qed.

Lemma getSExtValue_mod x v :
  getZExtValue x = v mod 2 ^ getBitWidth x →
  - 2 ^ (getBitWidth x - 1) ≤ v < 2 ^ (getBitWidth x - 1) → getSExtValue x = v.
Proof.
  intros Hx Hv. unfold getSExtValue. rewrite Hx. apply to_signed_mod; [|done].
  apply getZExtValue_range.
Qed.
End laws.
