(* ===== verification/CanonicalStores.v ===== *)
(** Canonicalizing stores: [CanonicalValueStore]
    ([toolchain/base/canonical_value_store.h]) over the vector of
    [ValueStore] ([toolchain/base/value_store.h]). The hash set of ids is
    represented by what it answers: the id of the stored value equal to the
    key, if there is one. *)

From S2P Require Import Prelude.

Section store.
Context {V : Type} (eqb : V → V → bool).

(** [set_.Lookup(key)]: the index of the value equal to the key. *)
Fixpoint FindKey (values : list V) (key : V) : option Z :=
  match values with
  | [] => None
  | v :: values => if eqb v key then Some 0 else (λ i, 1 + i) <$> FindKey values key
  end.

(** [ValueStore::Add]: the [CARBON_DCHECK] bounds the ids to [int32_t]. *)
Definition ValueStoreAdd (values : list V) (v : V) : Result (Z * list V) :=
  require (vec_size values <? 2 ^ 31 - 1) ;;
  mret (vec_size values, values ++ [v]).

(** [CanonicalValueStore::Add] and [Lookup], the latter with the [None] id of
    the store's id type. *)
Definition CanonicalAdd (values : list V) (v : V) : Result (Z * list V) :=
  match FindKey values v with
  | Some i => mret (i, values)
  | None => ValueStoreAdd values v
  end.
Definition CanonicalLookup (none : Z) (values : list V) (key : V) : Z :=
  match FindKey values key with Some i => i | None => none end.

(** * Canonical stores *)

Hypothesis eqb_refl : ∀ v, eqb v v = true.
Hypothesis eqb_sym : ∀ v w, eqb v w = true → eqb w v = true.
Hypothesis eqb_trans : ∀ u v w, eqb u v = true → eqb v w = true → eqb u w = true.

(** No two stored values are equal. *)
Definition canonical (values : list V) : Prop :=
  ∀ i j v w, values !! i = Some v → values !! j = Some w → eqb v w = true → i = j.

Lemma FindKey_Some values key i :
  FindKey values key = Some i → ∃ v, vec_get values i = Ok v ∧ eqb v key = true.
Proof.
  revert i. induction values as [|v values IH]; intros i; cbn; [done|].
  destruct (eqb v key) eqn:E.
  - intros [= <-]. exists v. split; [|done]. by apply vec_get_Ok.
  - destruct (FindKey values key) as [j|]; [|done]. intros [= <-].
    destruct (IH j eq_refl) as (w & [Hj Hw]%vec_get_Ok & He). exists w. split; [|done].
    apply vec_get_Ok. split; [lia|]. by replace (Z.to_nat (1 + j)) with (S (Z.to_nat j)) by lia.
Qed.

Lemma FindKey_None values key v :
  FindKey values key = None → v ∈ values → eqb v key = false.
Proof.
  induction values as [|w values IH]; cbn; [by inversion 2|].
  destruct (eqb w key) eqn:E; [done|]. destruct (FindKey values key); [done|].
  intros _ [->|Hv]%elem_of_cons; auto.
Qed.

Lemma canonical_nil : canonical [].
Proof. intros i j v w H. done. Qed.

(** What an addition does: the id is that of a value equal to [v], the stored
    values keep their ids, and the store stays canonical. *)
Lemma CanonicalAdd_spec values v id values' :
  canonical values → CanonicalAdd values v = Ok (id, values') →
  canonical values' ∧ values `prefix_of` values' ∧
  (∃ w, vec_get values' id = Ok w ∧ eqb w v = true) ∧
  (values' = values ∨ values' = values ++ [v] ∧ id = vec_size values).
Proof.
  unfold CanonicalAdd, ValueStoreAdd. intros Hc.
  destruct (FindKey values v) as [i|] eqn:E.
  - intros [= <- <-]. apply FindKey_Some in E. eauto 10.
  - rewrite result_bind_Ok. intros (_ & _ & [= <- <-]).
    split; [|split; [by eexists|split]]; [| |by right].
    + intros i j x y Hx Hy He. apply lookup_app_Some in Hx as [Hx|[Hi Hx]], Hy as [Hy|[Hj Hy]].
      * by eapply Hc.
      * apply list_lookup_singleton_Some in Hy as [_ <-].
        apply list_elem_of_lookup_2 in Hx. by rewrite (FindKey_None _ _ _ E Hx) in He.
      * apply list_lookup_singleton_Some in Hx as [_ <-]. apply eqb_sym in He.
        apply list_elem_of_lookup_2 in Hy. by rewrite (FindKey_None _ _ _ E Hy) in He.
      * apply list_lookup_singleton_Some in Hx as [Hx _], Hy as [Hy _]. lia.
    + exists v. split; [|done]. apply vec_get_Ok. unfold vec_size. split; [lia|].
      by rewrite Nat2Z.id, list_lookup_middle.
Qed.

(** Ids identify values. *)
Lemma canonical_ids values i j v w :
  canonical values → vec_get values i = Ok v → vec_get values j = Ok w →
  eqb v w = true → i = j.
Proof.
  intros Hc [? Hv]%vec_get_Ok [? Hw]%vec_get_Ok He.
  pose proof (Hc _ _ _ _ Hv Hw He). lia.
Qed.
End store.
