(* ===== verification/IntStores.v ===== *)
(** Integer values: [IntId] and [IntStore] of [toolchain/base/int.{h,cpp}]. An
    id is a 32-bit integer that either embeds a small value or is the negated
    index of a canonical [APInt]; token payloads hold its low 23 bits. *)

From S2P Require Import Prelude APInts CanonicalStores.

(** * Machine integers *)

Definition uint32 (v : Z) : Z := v mod 2 ^ 32.
Definition int32 (v : Z) : Z := to_signed 32 (v mod 2 ^ 32).

Module IntId.

Definition TokenIdBits : Z := 23.
Definition TokenIdBitsShift : Z := 32 - TokenIdBits.
Definition MaxValue : Z := Z.shiftr (2 ^ 31 - 1) TokenIdBitsShift.
Definition ZeroIndexId : Z := Z.shiftr (- 2 ^ 31) (TokenIdBitsShift + 1).
Definition MinValue : Z := ZeroIndexId + 1.
Definition NoneId : Z := - 2 ^ 31.
Definition NoneIndex : Z := ZeroIndexId - NoneId.

Implicit Types (id payload : Z).

Definition is_embedded_value id : bool := ZeroIndexId <? id.
Definition is_index id : bool := id <=? ZeroIndexId.
Definition has_value id : bool := negb (id =? NoneId).

(** [AsValue] and [AsIndex]. *)
Definition AsValue id : Result Z := require (is_embedded_value id) ;; mret id.
Definition AsIndex id : Result Z := require (is_index id) ;; mret (ZeroIndexId - id).

(** [MakeFromTokenPayload]: sign extension from bit [TokenIdBits - 1]. *)
Definition MakeFromTokenPayload payload : Z :=
  Z.shiftr (int32 (uint32 (Z.shiftl payload TokenIdBitsShift))) TokenIdBitsShift.

(** [AsTokenPayload], with its [CARBON_DCHECK]. *)
Definition AsTokenPayload id : Result Z :=
  let payload := uint32 id in
  require (MakeFromTokenPayload payload =? id) ;; mret payload.

(** The ids whose payload reads back as themselves. *)
Definition in_payload id : Prop := - 2 ^ (TokenIdBits - 1) ≤ id < 2 ^ (TokenIdBits - 1).

Lemma MakeFromTokenPayload_signed payload :
  0 ≤ payload →
  MakeFromTokenPayload payload = to_signed TokenIdBits (payload mod 2 ^ TokenIdBits).
Proof.
  intros Hp. unfold MakeFromTokenPayload, int32, uint32, to_signed, TokenIdBitsShift, TokenIdBits.
  rewrite Z.mod_mod by lia. rewrite Z.shiftl_mul_pow2, Z.shiftr_div_pow2 by lia.
  change (32 - 23) with 9. change (2 ^ 32) with (2 ^ 23 * 2 ^ 9).
  rewrite Zmult_mod_distr_r.
  pose proof (Z.mod_pos_bound payload (2 ^ 23) ltac:(lia)).
  set (m := payload mod 2 ^ 23) in *. change (2 ^ (32 - 1)) with (2 ^ (23 - 1) * 2 ^ 9).
  destruct (Z.ltb_spec (m * 2 ^ 9) (2 ^ (23 - 1) * 2 ^ 9)),
    (Z.ltb_spec m (2 ^ (23 - 1))); try lia.
  - by rewrite Z.div_mul.
  - rewrite <- Z.mul_sub_distr_r. by rewrite Z.div_mul.
Qed.

Lemma uint32_low id : uint32 id mod 2 ^ TokenIdBits = id mod 2 ^ TokenIdBits.
Proof.
  unfold uint32, TokenIdBits. apply Z.mod_mod_divide. by exists (2 ^ 9).
Qed.

Lemma uint32_range id : 0 ≤ uint32 id < 2 ^ 32.
Proof. by apply Z.mod_pos_bound. Qed.

Lemma to_signed_bits id : to_signed TokenIdBits (id mod 2 ^ TokenIdBits) = id ↔ in_payload id.
Proof.
  unfold in_payload, TokenIdBits. split; [|by intros; apply to_signed_mod].
  intros <-. pose proof (Z.mod_pos_bound id (2 ^ 23) ltac:(lia)). unfold to_signed.
  destruct (Z.ltb_spec (id mod 2 ^ 23) (2 ^ (23 - 1))); lia.
Qed.

Lemma AsTokenPayload_Ok id p :
  AsTokenPayload id = Ok p ↔ p = uint32 id ∧ in_payload id.
Proof.
  unfold AsTokenPayload. rewrite result_bind_Ok.
  rewrite MakeFromTokenPayload_signed, uint32_low by apply uint32_range.
  rewrite <- to_signed_bits. split.
  - intros ([] & H%require_Ok & [= <-]). by apply Z.eqb_eq in H.
  - intros [-> H]. exists tt. split; [|done]. apply require_Ok. by rewrite H, Z.eqb_refl.
Qed.

End IntId.

(** * The store *)

Module IntStore.
Section store.
Context {Ops : APInts}.

Definition MinAPWidth : Z := 64.
Definition MaxIntWidth : Z := Z.shiftl 1 23.

(** [values_], the values that do not fit in an id. *)
Definition t : Type := list APInt.
Implicit Types (s : t).

(** [CanonicalBitWidth]; [WordWidth] is [APInt::APINT_BITS_PER_WORD]. *)
Definition CanonicalBitWidth (significant_bits : Z) : Z :=
  Z.max MinAPWidth ((significant_bits + 64 - 1) / 64 * 64).

Definition CanonicalizeSigned (value : APInt) : APInt :=
  sextOrTrunc value (CanonicalBitWidth (getSignificantBits value)).
Definition CanonicalizeUnsigned (value : APInt) : APInt :=
  zextOrTrunc value (CanonicalBitWidth (getActiveBits value + 1)).

(** [MakeIndexOrNone]. *)
Definition MakeIndexOrNone (index : Z) : Result Z :=
  require ((0 <=? index) && (index <=? IntId.NoneIndex)) ;;
  mret (IntId.ZeroIndexId - index).

(** [TryMakeValue], [TryMakeSignedValue], [TryMakeUnsignedValue]. *)
Definition TryMakeValue (value : Z) : Z :=
  if (IntId.MinValue <=? value) && (value <=? IntId.MaxValue) then value else IntId.NoneId.
Definition TryMakeSignedValue (value : APInt) : Z :=
  let v := getSExtValue value in
  if (IntId.MinValue <=? v) && (v <=? IntId.MaxValue) then v else IntId.NoneId.
Definition TryMakeUnsignedValue (value : APInt) : Z :=
  let v := getZExtValue value in
  if v <=? IntId.MaxValue then v else IntId.NoneId.

(** [values_.Add] followed by [MakeIndexOrNone]. *)
Definition add_large (s : t) (value : APInt) : Result (Z * t) :=
  '(ap_id, s) ← CanonicalAdd APInt_eqb s value;
  id ← MakeIndexOrNone ap_id;
  mret (id, s).

Definition AddLarge (s : t) (value : Z) : Result (Z * t) :=
  add_large s (makeAPInt (CanonicalBitWidth 64) value).
Definition AddSignedLarge (s : t) (value : APInt) : Result (Z * t) :=
  add_large s (CanonicalizeSigned value).
Definition AddUnsignedLarge (s : t) (value : APInt) : Result (Z * t) :=
  add_large s (CanonicalizeUnsigned value).

(** [Add(int64_t)], [AddSigned], [AddUnsigned]. *)
Definition Add (s : t) (value : Z) : Result (Z * t) :=
  let id := TryMakeValue value in
  if IntId.has_value id then mret (id, s) else AddLarge s value.
Definition AddSigned (s : t) (value : APInt) : Result (Z * t) :=
  let id := TryMakeSignedValue value in
  if IntId.has_value id then mret (id, s) else AddSignedLarge s value.
Definition AddUnsigned (s : t) (value : APInt) : Result (Z * t) :=
  let id := TryMakeUnsignedValue value in
  if IntId.has_value id then mret (id, s) else AddUnsignedLarge s value.

(** [Get] and [GetAtWidth]. *)
Definition Get (s : t) (id : Z) : Result APInt :=
  if IntId.is_embedded_value id then
    v ← IntId.AsValue id; mret (makeAPInt MinAPWidth v)
  else i ← IntId.AsIndex id; vec_get s i.
Definition GetAtWidth (s : t) (id bit_width : Z) : Result APInt :=
  value ← Get s id;
  mret (if getBitWidth value =? bit_width then value else sextOrTrunc value bit_width).

(** [Lookup] and [LookupSigned]. *)
Definition LookupLarge (s : t) (value : Z) : Result Z :=
  MakeIndexOrNone (CanonicalLookup APInt_eqb IntId.NoneIndex s
    (makeAPInt (CanonicalBitWidth 64) value)).
Definition LookupSignedLarge (s : t) (value : APInt) : Result Z :=
  MakeIndexOrNone (CanonicalLookup APInt_eqb IntId.NoneIndex s (CanonicalizeSigned value)).
Definition Lookup (s : t) (value : Z) : Result Z :=
  let id := TryMakeValue value in
  if IntId.has_value id then mret id else LookupLarge s value.
Definition LookupSigned (s : t) (value : APInt) : Result Z :=
  let id := TryMakeSignedValue value in
  if IntId.has_value id then mret id else LookupSignedLarge s value.

End store.
Arguments t {Ops}.
End IntStore.
