(* ===== verification/IntLaws.v ===== *)
(** What an [IntStore] promises: an id stands for one mathematical integer,
    however and at whatever width it was added, and the ids of a token survive
    the 23 bits of its payload exactly when they fit. *)

From S2P Require Import Prelude APInts CanonicalStores IntStores.

(** * Widths *)

(** The two's complement width of an integer. *)
Definition significant (z : Z) : Z :=
  let m := if z <? 0 then - z - 1 else z in
  if m =? 0 then 1 else Z.log2 m + 2.

Lemma significant_bounds z :
  1 ≤ significant z ∧ - 2 ^ (significant z - 1) ≤ z < 2 ^ (significant z - 1).
Proof.
  unfold significant. set (m := if z <? 0 then - z - 1 else z).
  assert (0 ≤ m ∧ (z = m ∨ z = - m - 1)) as [Hm Hz].
  { subst m. destruct (Z.ltb_spec z 0); lia. }
  destruct (Z.eqb_spec m 0) as [->|Hne]; [cbn; lia|].
  pose proof (Z.log2_nonneg m). pose proof (Z.log2_spec m ltac:(lia)) as [_ H2].
  replace (Z.log2 m + 2 - 1) with (Z.succ (Z.log2 m)) by lia. lia.
Qed.

Lemma significant_least z w : 1 ≤ w → - 2 ^ (w - 1) ≤ z < 2 ^ (w - 1) → significant z ≤ w.
Proof.
  intros Hw Hz. unfold significant. set (m := if z <? 0 then - z - 1 else z).
  assert (0 ≤ m < 2 ^ (w - 1)) as Hm by (subst m; destruct (Z.ltb_spec z 0); lia).
  destruct (Z.eqb_spec m 0) as [->|Hne]; [lia|].
  pose proof (proj1 (Z.log2_lt_pow2 m (w - 1) ltac:(lia)) (proj2 Hm)). lia.
Qed.

Section widths.
Context {Ops : APInts} {Laws : APIntLaws Ops}.

Lemma getSignificantBits_eq x : getSignificantBits x = significant (getSExtValue x).
Proof. done. Qed.

Lemma CanonicalBitWidth_ge n : n ≤ IntStore.CanonicalBitWidth n.
Proof.
  unfold IntStore.CanonicalBitWidth, IntStore.MinAPWidth.
  pose proof (Z.div_mod (n + 64 - 1) 64 ltac:(lia)).
  pose proof (Z.mod_pos_bound (n + 64 - 1) 64 ltac:(lia)). lia.
Qed.

Lemma CanonicalBitWidth_min n : 64 ≤ IntStore.CanonicalBitWidth n.
Proof. unfold IntStore.CanonicalBitWidth, IntStore.MinAPWidth. lia. Qed.

Lemma CanonicalBitWidth_small n : n ≤ 64 → IntStore.CanonicalBitWidth n = 64.
Proof.
  intros Hn. unfold IntStore.CanonicalBitWidth, IntStore.MinAPWidth.
  pose proof (Z.div_le_mono (n + 64 - 1) 127 64 ltac:(lia) ltac:(lia)) as Hd.
  change (127 / 64) with 1 in Hd. lia.
Qed.

(** [x] represents [z] at its canonical width. *)
Definition canonical_of (z : Z) (x : APInt) : Prop :=
  getBitWidth x = IntStore.CanonicalBitWidth (significant z) ∧ getSExtValue x = z.

Lemma signed_fits z w : significant z ≤ w → - 2 ^ (w - 1) ≤ z < 2 ^ (w - 1).
Proof.
  intros Hw. pose proof (significant_bounds z) as [H1 Hz].
  pose proof (Z.pow_le_mono_r 2 (significant z - 1) (w - 1)). lia.
Qed.

Lemma CanonicalizeSigned_of x :
  canonical_of (getSExtValue x) (IntStore.CanonicalizeSigned x).
Proof.
  unfold IntStore.CanonicalizeSigned. rewrite getSignificantBits_eq.
  set (w := IntStore.CanonicalBitWidth (significant (getSExtValue x))).
  assert (64 ≤ w) by apply CanonicalBitWidth_min.
  destruct (sextOrTrunc_spec x w) as [Hw Hv]; [lia|]. split; [done|].
  eapply getSExtValue_mod; rewrite Hw; [done|]. apply signed_fits, CanonicalBitWidth_ge.
Qed.

Lemma active_bits_bound x :
  0 ≤ getActiveBits x ∧ getZExtValue x < 2 ^ getActiveBits x.
Proof.
  pose proof (getZExtValue_range x) as [_ Hx]. unfold getActiveBits.
  destruct (Z.eqb_spec (getZExtValue x) 0) as [->|Hne]; [cbn; lia|].
  pose proof (Z.log2_spec (getZExtValue x) ltac:(lia)) as [_ Hl].
  pose proof (Z.log2_nonneg (getZExtValue x)). unfold Z.succ in Hl. lia.
Qed.

Lemma active_bits_significant x : getActiveBits x + 1 = significant (getZExtValue x).
Proof.
  pose proof (getZExtValue_range x) as [_ Hx]. unfold getActiveBits, significant.
  rewrite (proj2 (Z.ltb_ge _ 0)) by lia. by destruct (Z.eqb_spec (getZExtValue x) 0); lia.
Qed.

Lemma CanonicalizeUnsigned_of x :
  canonical_of (getZExtValue x) (IntStore.CanonicalizeUnsigned x).
Proof.
  unfold IntStore.CanonicalizeUnsigned, canonical_of. rewrite active_bits_significant.
  set (w := IntStore.CanonicalBitWidth (significant (getZExtValue x))).
  assert (64 ≤ w) by apply CanonicalBitWidth_min.
  destruct (zextOrTrunc_spec x w) as [Hw Hv]; [lia|]. split; [done|].
  eapply getSExtValue_mod; rewrite Hw; [done|]. apply signed_fits, CanonicalBitWidth_ge.
Qed.

Lemma make64_of v :
  - 2 ^ 63 ≤ v < 2 ^ 63 → canonical_of v (makeAPInt (IntStore.CanonicalBitWidth 64) v).
Proof.
  intros Hv. rewrite CanonicalBitWidth_small by lia.
  destruct (makeAPInt_spec 64 v) as [Hw Hz]; [lia|].
  split.
  - rewrite Hw. symmetry. apply CanonicalBitWidth_small, significant_least; [lia|done].
  - eapply getSExtValue_mod; rewrite Hw; [done|done].
Qed.

Lemma canonical_of_eqb x y z z' :
  canonical_of z x → canonical_of z' y → APInt_eqb x y = true ↔ z = z'.
Proof.
  intros [Wx Vx] [Wy Vy]. unfold APInt_eqb. rewrite andb_true_iff, !Z.eqb_eq.
  split.
  - intros [Ew Ev]. rewrite <- Vx, <- Vy. unfold getSExtValue. by rewrite Ew, Ev.
  - intros ->. assert (getBitWidth x = getBitWidth y) as Ew by congruence.
    split; [done|]. rewrite <- Vy in Vx. clear Vy Wx Wy.
    pose proof (getZExtValue_range x) as [Hw Hx]. pose proof (getZExtValue_range y) as [_ Hy].
    unfold getSExtValue, to_signed in Vx. rewrite Ew in *.
    destruct (Z.ltb_spec (getZExtValue x) (2 ^ (getBitWidth y - 1))),
      (Z.ltb_spec (getZExtValue y) (2 ^ (getBitWidth y - 1))); lia.
Qed.
End widths.

(** * The store *)

(** The bounds of embedded values. *)
Lemma id_bounds :
  IntId.MinValue = - 2097151 ∧ IntId.MaxValue = 4194303 ∧ IntId.ZeroIndexId = - 2097152.
Proof. done. Qed.

Section stores.
Context {Ops : APInts} {Laws : APIntLaws Ops}.
Implicit Types (s : IntStore.t).

Definition embeddable (z : Z) : Prop := IntId.MinValue ≤ z ≤ IntId.MaxValue.

#[export] Instance embeddable_dec z : Decision (embeddable z).
Proof. unfold embeddable. apply _. Defined.

(** The store's invariant: every stored value has its canonical width, does
    not fit in an id, and is stored once. *)
Record wf s : Prop := {
  wf_values : Forall (λ x, canonical_of (getSExtValue x) x ∧ ¬ embeddable (getSExtValue x)) s;
  wf_canonical : canonical APInt_eqb s;
}.

(** The integer an id stands for. *)
Definition value_of s (id : Z) : Result Z :=
  x ← IntStore.Get s id; mret (getSExtValue x).

(** The ids a store hands out: embedded values and indices. *)
Definition valid_id (id : Z) : Prop := id ≤ IntId.MaxValue.

(** The three ways to add an integer, and the integer each denotes. *)
Inductive Request :=
  | RequestInt (v : Z)
  | RequestSigned (x : APInt)
  | RequestUnsigned (x : APInt).

Definition run_add s (r : Request) : Result (Z * IntStore.t) :=
  match r with
  | RequestInt v => IntStore.Add s v
  | RequestSigned x => IntStore.AddSigned s x
  | RequestUnsigned x => IntStore.AddUnsigned s x
  end.

Definition denoted (r : Request) : Z :=
  match r with
  | RequestInt v => v
  | RequestSigned x => getSExtValue x
  | RequestUnsigned x => getZExtValue x
  end.

(** An [int64_t] argument. *)
Definition request_ok (r : Request) : Prop :=
  match r with RequestInt v => - 2 ^ 63 ≤ v < 2 ^ 63 | _ => True end.

Lemma wf_nil : wf [].
Proof. split; [constructor|]. intros i j v w Hi. done. Qed.

Lemma eqb_refl' x : APInt_eqb x x = true.
Proof. unfold APInt_eqb. by rewrite !Z.eqb_refl. Qed.
Lemma eqb_sym' x y : APInt_eqb x y = true → APInt_eqb y x = true.
Proof. unfold APInt_eqb. rewrite !andb_true_iff, !Z.eqb_eq. naive_solver. Qed.

Lemma embedded_value z : embeddable z → IntId.is_embedded_value z = true.
Proof. intros [Hz _]. apply Z.ltb_lt. unfold IntId.MinValue in Hz. lia. Qed.

Lemma value_of_embedded s z :
  embeddable z → value_of s z = Ok z.
Proof.
  intros Hz. unfold value_of, IntStore.Get, IntId.AsValue.
  rewrite embedded_value by done. cbn. f_equal.
  change IntStore.MinAPWidth with 64.
  destruct (makeAPInt_spec 64 z) as [Hw Hv]; [lia|].
  eapply getSExtValue_mod; rewrite Hw; [done|].
  unfold embeddable in Hz. pose proof id_bounds. lia.
Qed.

Lemma value_of_index s i :
  0 ≤ i →
  value_of s (IntId.ZeroIndexId - i) = x ← vec_get s i; mret (getSExtValue x).
Proof.
  intros Hi. unfold value_of, IntStore.Get, IntId.is_embedded_value, IntId.AsIndex, IntId.is_index.
  rewrite (proj2 (Z.ltb_ge _ _)), (proj2 (Z.leb_le _ _)) by lia. cbn.
  by replace (IntId.ZeroIndexId - (IntId.ZeroIndexId - i)) with i by lia.
Qed.

(** A value that does not fit in an id is added through [add_large]. *)
Lemma add_large_spec s x z id s' :
  wf s → canonical_of z x → ¬ embeddable z →
  IntStore.add_large s x = Ok (id, s') →
  wf s' ∧ s `prefix_of` s' ∧ value_of s' id = Ok z ∧ id ≤ IntId.ZeroIndexId.
Proof.
  intros [Hv Hc] Hx Hz. unfold IntStore.add_large. rewrite result_bind_Ok.
  intros ([i s1] & Ha & HH). apply result_bind_Ok in HH as (id' & Hm & [= <- <-]).
  apply result_bind_Ok in Hm as ([] & Hr & [= <-]).
  apply require_Ok, andb_true_iff in Hr as [Hi%Z.leb_le _].
  apply (CanonicalAdd_spec APInt_eqb eqb_refl' eqb_sym') in Ha as (Hc' & Hpre & (w & Hw & He) & Hor);
    [|done].
  assert (Forall (λ x, canonical_of (getSExtValue x) x ∧ ¬ embeddable (getSExtValue x)) s1) as Hv'.
  { destruct Hor as [->|[-> _]]; [done|]. apply Forall_app. split; [done|].
    constructor; [|done]. destruct Hx as [Wx Vx]. rewrite Vx. split; [by split|done]. }
  split; [by split|]. split; [done|]. split; [|lia].
  rewrite value_of_index by done. rewrite Hw. cbn. f_equal.
  apply vec_get_Ok in Hw as [_ Hw]. eapply Forall_lookup_1 in Hv' as [Hcw _]; [|exact Hw].
  by eapply canonical_of_eqb in He; [| |].
Qed.

Lemma run_add_cases s r id s' :
  request_ok r → run_add s r = Ok (id, s') →
  (embeddable (denoted r) ∧ id = denoted r ∧ s' = s) ∨
  (¬ embeddable (denoted r) ∧
   ∃ x, canonical_of (denoted r) x ∧ IntStore.add_large s x = Ok (id, s')).
Proof.
  assert (∀ z, IntId.has_value (if (IntId.MinValue <=? z) && (z <=? IntId.MaxValue)
                                then z else IntId.NoneId) = bool_decide (embeddable z)) as Hd.
  { intros z. unfold embeddable, IntId.has_value.
    destruct (Z.leb_spec IntId.MinValue z), (Z.leb_spec z IntId.MaxValue); cbn [andb].
    - rewrite bool_decide_true by done. apply negb_true_iff, Z.eqb_neq.
      unfold IntId.NoneId. pose proof id_bounds. lia.
    - by rewrite bool_decide_false by lia.
    - by rewrite bool_decide_false by lia.
    - by rewrite bool_decide_false by lia. }
  destruct r as [v|x|x]; cbn [run_add denoted request_ok]; intros Hr.
  - unfold IntStore.Add, IntStore.TryMakeValue. rewrite Hd. case_bool_decide as E.
    + rewrite (proj2 (Z.leb_le _ _) (proj1 E)), (proj2 (Z.leb_le _ _) (proj2 E)). intros [= <- <-]. by left.
    + intros Hadd. right. split; [done|]. exists (makeAPInt (IntStore.CanonicalBitWidth 64) v).
      split; [by apply make64_of|done].
  - unfold IntStore.AddSigned, IntStore.TryMakeSignedValue. rewrite Hd. case_bool_decide as E.
    + rewrite (proj2 (Z.leb_le _ _) (proj1 E)), (proj2 (Z.leb_le _ _) (proj2 E)). intros [= <- <-]. by left.
    + intros Hadd. right. split; [done|]. exists (IntStore.CanonicalizeSigned x).
      split; [apply CanonicalizeSigned_of|done].
  - unfold IntStore.AddUnsigned, IntStore.TryMakeUnsignedValue.
    pose proof (getZExtValue_range x) as [_ Hx]. specialize (Hd (getZExtValue x)).
    assert ((IntId.MinValue <=? getZExtValue x) = true) as E1.
    { apply Z.leb_le. pose proof id_bounds. lia. }
    rewrite E1 in Hd. cbn [andb] in Hd. rewrite Hd. case_bool_decide as E.
    + destruct E as [_ E2%Z.leb_le]. rewrite E2. intros [= <- <-]. left.
      split; [|done]. split; [by apply Z.leb_le|by apply Z.leb_le].
    + intros Hadd. right. split; [done|]. exists (IntStore.CanonicalizeUnsigned x).
      split; [apply CanonicalizeUnsigned_of|done].
Qed.

Lemma MakeIndex_small i :
  0 ≤ i ≤ 2 ^ 21 →
  IntStore.MakeIndexOrNone i = Ok (IntId.ZeroIndexId - i) ∧
  - 2 ^ 22 ≤ IntId.ZeroIndexId - i < 2 ^ 22.
Proof.
  intros Hi. assert (IntId.NoneIndex = 2145386496) as En by reflexivity.
  unfold IntStore.MakeIndexOrNone. rewrite En.
  rewrite (proj2 (Z.leb_le 0 i)), (proj2 (Z.leb_le i _)) by lia. split; [done|].
  pose proof id_bounds. lia.
Qed.

(** Adding to a store with room for one more index returns, with an id whose
    payload reads back. *)
Lemma run_add_total s r :
  wf s → request_ok r → vec_size s < 2 ^ 21 →
  ∃ id s', run_add s r = Ok (id, s') ∧ wf s' ∧ s `prefix_of` s' ∧
    value_of s' id = Ok (denoted r) ∧ vec_size s' ≤ vec_size s + 1 ∧ - 2 ^ 22 ≤ id < 2 ^ 22.
Proof.
  intros Hwf Hr Hs.
  assert (∀ x, ∃ id s', IntStore.add_large s x = Ok (id, s') ∧
    vec_size s' ≤ vec_size s + 1 ∧ - 2 ^ 22 ≤ id < 2 ^ 22) as Hadd.
  { intros x. unfold IntStore.add_large, CanonicalAdd, ValueStoreAdd.
    destruct (FindKey APInt_eqb s x) as [i|] eqn:E.
    - apply FindKey_Some in E as (v & Hi%vec_get_lt & _). cbn [mbind Result_bind mret Result_ret].
      destruct (MakeIndex_small i) as [-> Hr']; [lia|]. eexists _, _. split; [done|]. lia.
    - rewrite (proj2 (Z.ltb_lt _ _)) by lia. cbn [require mbind Result_bind mret Result_ret].
      pose proof (vec_size_nonneg s). destruct (MakeIndex_small (vec_size s)) as [-> Hr']; [lia|].
      eexists _, _. split; [done|]. rewrite vec_size_app. unfold vec_size at 2. cbn [length]. lia. }
  assert (∃ id s', run_add s r = Ok (id, s') ∧ vec_size s' ≤ vec_size s + 1 ∧
    - 2 ^ 22 ≤ id < 2 ^ 22) as (id & s' & E & Hsz & Hid).
  { assert (∀ z, IntId.has_value (if (IntId.MinValue <=? z) && (z <=? IntId.MaxValue)
      then z else IntId.NoneId) = true → - 2 ^ 22 ≤ (if (IntId.MinValue <=? z) &&
      (z <=? IntId.MaxValue) then z else IntId.NoneId) < 2 ^ 22) as Hemb.
    { intros z. destruct (Z.leb_spec IntId.MinValue z), (Z.leb_spec z IntId.MaxValue);
        cbn [andb]; try done. pose proof id_bounds. lia. }
    destruct r as [v|x|x]; cbn [run_add].
    - unfold IntStore.Add, IntStore.AddLarge. destruct (IntId.has_value _) eqn:Hv; [|apply Hadd].
      eexists _, _. split; [done|]. split; [lia|]. by apply Hemb.
    - unfold IntStore.AddSigned, IntStore.AddSignedLarge.
      destruct (IntId.has_value _) eqn:Hv; [|apply Hadd].
      eexists _, _. split; [done|]. split; [lia|]. by apply Hemb.
    - unfold IntStore.AddUnsigned, IntStore.AddUnsignedLarge.
      destruct (IntId.has_value _) eqn:Hv; [|apply Hadd].
      eexists _, _. split; [done|]. split; [lia|]. unfold IntStore.TryMakeUnsignedValue in *.
      pose proof (getZExtValue_range x) as [_ Hx]. specialize (Hemb (getZExtValue x)).
      rewrite (proj2 (Z.leb_le IntId.MinValue _)) in Hemb by (pose proof id_bounds; lia).
      by apply Hemb. }
  exists id, s'. split; [done|].
  apply run_add_cases in E as [(He & -> & ->)|(He & x & Hx & Ha)]; [| |done].
  - split; [done|]. split; [done|]. split; [by apply value_of_embedded|]. lia.
  - apply (add_large_spec s x (denoted r)) in Ha as (? & ? & ? & ?); [|done..]. eauto.
Qed.

Lemma value_of_kept s s' id z :
  wf s → s `prefix_of` s' → value_of s id = Ok z → value_of s' id = Ok z.
Proof.
  intros _ [more ->]. unfold value_of, IntStore.Get. rewrite !result_bind_Ok.
  intros (x & Hx & Hz). exists x. split; [|done].
  destruct (IntId.is_embedded_value id); [done|].
  apply result_bind_Ok in Hx as (i & Hi & Hx). rewrite Hi. cbn. by apply vec_get_app_l.
Qed.

(** In a well-formed store two valid ids with one value are the same id. *)
Lemma value_of_inj s i j z :
  wf s → valid_id i → valid_id j → value_of s i = Ok z → value_of s j = Ok z → i = j.
Proof.
  intros [Hv Hc]. pose proof id_bounds as (B1 & B2 & B3). unfold valid_id.
  assert (∀ k, k ≤ IntId.MaxValue → value_of s k = Ok z →
    (embeddable z ∧ k = z) ∨
    ∃ n x, k = IntId.ZeroIndexId - n ∧ vec_get s n = Ok x ∧ canonical_of z x ∧ ¬ embeddable z)
    as Hk.
  { intros k Hk Hz. destruct (Z.lt_ge_cases IntId.ZeroIndexId k).
    - left. assert (embeddable k) as He by (unfold embeddable; lia).
      rewrite value_of_embedded in Hz by done. by injection Hz as <-.
    - right. exists (IntId.ZeroIndexId - k).
      replace k with (IntId.ZeroIndexId - (IntId.ZeroIndexId - k)) in Hz by lia.
      rewrite value_of_index in Hz by lia.
      apply result_bind_Ok in Hz as (x & Hx & [= <-]). exists x.
      split; [lia|]. split; [done|]. apply vec_get_Ok in Hx as [_ Hx].
      by eapply Forall_lookup_1 in Hv. }
  intros Hi Hj Vi Vj. apply Hk in Vi as [[Ei ->]|(n & x & -> & Hx & Cx & Ni)]; [| |done];
    apply Hk in Vj as [[Ej ->]|(m & y & -> & Hy & Cy & Nj)]; try done.
  f_equal. eapply canonical_ids; [exact Hc|exact Hx|exact Hy|]. by eapply canonical_of_eqb.
Qed.

(** C37. An id stands for one mathematical integer: adding an integer as an
    [int64_t], a signed or an unsigned [APInt] of any width returns an id whose
    value is that integer, keeps the value of every id already handed out and
    the store well formed, and no other valid id has that value; so two ids
    of a store are equal exactly when their integers are. *)
Theorem int_store_add s r id s' :
  wf s → request_ok r → run_add s r = Ok (id, s') →
  wf s' ∧ value_of s' id = Ok (denoted r) ∧
  (∀ i z, value_of s i = Ok z → value_of s' i = Ok z) ∧
  (∀ i, valid_id i → value_of s' i = Ok (denoted r) → i = id).
Proof.
  intros Hwf Hr Hrun.
  assert (wf s' ∧ value_of s' id = Ok (denoted r) ∧ s `prefix_of` s' ∧ valid_id id)
    as (Hwf' & Hv & Hpre & Hid).
  { unfold valid_id. pose proof id_bounds.
    apply run_add_cases in Hrun as [(He & -> & ->)|(He & x & Hx & Hadd)]; [| |done].
    - split; [done|]. split; [by apply value_of_embedded|]. split; [done|apply He].
    - apply (add_large_spec s x (denoted r)) in Hadd as (? & ? & ? & ?); try done.
      split; [done|]. split; [done|]. split; [done|lia]. }
  split; [done|]. split; [done|]. split.
  - intros i z. by apply value_of_kept.
  - intros i Hi Hvi. by eapply value_of_inj.
Qed.
End stores.

(** Adding [2^70] twice, at two widths, to the store of the samples. *)
Lemma int_store_add_witness :
  wf (Ops := ZAPInt.ops) [ZAPInt.make 128 (2 ^ 70)] ∧
  value_of (Ops := ZAPInt.ops) [ZAPInt.make 128 (2 ^ 70)] (-2097152) = Ok (2 ^ 70) ∧
  (∀ i z, value_of (Ops := ZAPInt.ops) [] i = Ok z →
     value_of (Ops := ZAPInt.ops) [ZAPInt.make 128 (2 ^ 70)] i = Ok z) ∧
  (∀ i, valid_id i →
     value_of (Ops := ZAPInt.ops) [ZAPInt.make 128 (2 ^ 70)] i = Ok (2 ^ 70) → i = -2097152).
Proof.
  apply (int_store_add (Laws := ZAPInt.laws) [] (RequestUnsigned (Ops := ZAPInt.ops) (ZAPInt.make 200 (2 ^ 70)))).
  - apply wf_nil.
  - exact I.
  - vm_compute. reflexivity.
Defined.

(** * Ids in tokens *)

(** C38. An id survives the 23-bit payload of a token exactly when its
    [CARBON_DCHECK] passes, which it does for every embedded value and for the
    first 2,097,153 indices. *)
Theorem payload_roundtrip id :
  match IntId.AsTokenPayload id with
  | Ok p => - 2 ^ 22 ≤ id < 2 ^ 22 ∧
      IntId.MakeFromTokenPayload (p mod 2 ^ IntId.TokenIdBits) = id
  | Err f => f = CheckFailed ∧ ¬ (- 2 ^ 22 ≤ id < 2 ^ 22)
  end.
Proof.
  pose proof (IntId.AsTokenPayload_Ok id) as H. unfold IntId.in_payload in H.
  change (2 ^ (IntId.TokenIdBits - 1)) with (2 ^ 22) in H.
  destruct (IntId.AsTokenPayload id) as [p|f] eqn:E.
  - destruct (proj1 (H p) eq_refl) as [-> Hid]. split; [done|].
    rewrite IntId.MakeFromTokenPayload_signed by by apply Z.mod_pos_bound.
    rewrite Z.mod_mod, IntId.uint32_low by done. by apply IntId.to_signed_bits.
  - split.
    + unfold IntId.AsTokenPayload, require in E.
      by destruct (IntId.MakeFromTokenPayload (uint32 id) =? id); inversion E.
    + intros Hid. by discriminate (proj2 (H (uint32 id)) (conj eq_refl Hid)).
Qed.

