(* ===== verification/LexDiagnostics.v ===== *)
(** The diagnostics the lexer emits: one constructor per
    [CARBON_DIAGNOSTIC(Kind, Level, ...)] under [toolchain/lex/]. A location is
    the byte offset a source pointer refers to. *)

From S2P Require Import Prelude TokenKinds Text.

Module LexDiagnosticKind.

Inductive t : Set :=
  | TooManyDigits
  | InvalidDigitSeparator | InvalidDigit | EmptyDigitSequence
  | UnknownBaseSpecifier | InvalidRealLiteralRadix | WrongRealLiteralExponent
  | ContentBeforeStringTerminator | UnicodeEscapeTooLarge
  | UnicodeEscapeSurrogate | DecimalEscapeSequence
  | HexadecimalEscapeMissingDigits | UnicodeEscapeMissingBracedDigits
  | UnknownEscapeSequence | MismatchedIndentInString
  | InvalidHorizontalWhitespaceInString | CharLiteralRaw | CharLiteralEmpty
  | CharLiteralControlCharacter | CharLiteralHexEscape | CharLiteralUnderflow
  | CharLiteralOverflow | CharLiteralInvalidUTF8
  | MultiLineStringWithDoubleQuotes
  | UnsupportedLfCrLineEnding | UnsupportedCrLineEnding
  | DumpSemIRRangeMissingBegin | DumpSemIRRangeMissingEnd
  | NoWhitespaceAfterCommentIntroducer | UnterminatedString
  | MultiLineStringInvalidIntroducer | TooManyTypeBitWidthDigits
  | CharacterOnlyAllowedAtStart | InvalidCharacterInDollarIntLiteral
  | DollarIntLiteralMissingNumber | DollarIntLiteralLeadingZero
  | TooManyDollarIntDigits | UnrecognizedCharacters | TooManyTokens
  | UnmatchedOpening | UnmatchedClosing | PossiblyMissingBracketHere.

End LexDiagnosticKind.

(** A format argument. *)
Inductive LexArg : Type :=
  | LexArgChar (c : char)
  | LexArgInt (i : Z)
  | LexArgBool (b : bool)
  | LexArgTokenKind (k : TokenKind.t).

(** An emitted diagnostic; every kind is an error but the note
    [PossiblyMissingBracketHere], which only appears in [lex_notes]. *)
Record LexDiagnostic := {
  lex_kind : LexDiagnosticKind.t;
  lex_loc : Z;
  lex_args : list LexArg;
  lex_notes : list (LexDiagnosticKind.t * Z * list LexArg);
}.

(** [emitter.Emit(loc, Kind, args...)]. *)
Definition LexEmit {S} (k : LexDiagnosticKind.t) (loc : Z) (args : list LexArg)
    : Action S LexDiagnostic unit :=
  tell {| lex_kind := k; lex_loc := loc; lex_args := args; lex_notes := [] |}.

(** [CanLexInt] of [toolchain/lex/helpers.cpp]. *)
Definition DigitLimit : Z := 10000.

Definition CanLexInt {S} (text : StringRef.t) : Action S LexDiagnostic bool :=
  if DigitLimit <? StringRef.size text then
    LexEmit LexDiagnosticKind.TooManyDigits (StringRef.begin text)
      [LexArgInt (StringRef.size text); LexArgInt DigitLimit] ;;
    mret false
  else mret true.

(** * Computations that return

    [yields m Q]: from any state [m] returns without changing it, with a value
    and diagnostics that satisfy [Q]. *)
Section yields.
Context {S : Type}.

Definition yields {A} (m : Action S LexDiagnostic A)
    (Q : A → list LexDiagnostic → Prop) : Prop :=
  ∀ s, ∃ a w, m s = Ok (a, s, w) ∧ Q a w.

Lemma yields_ret {A} (a : A) Q : Q a [] → yields (mret a) Q.
Proof. intros H s. by exists a, []. Qed.

Lemma yields_bind {A B} (m : Action S LexDiagnostic A) (k : A → Action S LexDiagnostic B) Q :
  yields m (λ a w1, yields (k a) (λ b w2, Q b (w1 ++ w2))) → yields (m ≫= k) Q.
Proof.
  intros H s. destruct (H s) as (a & w1 & E1 & H1). destruct (H1 s) as (b & w2 & E2 & H2).
  exists b, (w1 ++ w2). split; [|done]. by eapply bind_Ok.
Qed.

Lemma yields_mono {A} (m : Action S LexDiagnostic A) Q Q' :
  yields m Q → (∀ a w, Q a w → Q' a w) → yields m Q'.
Proof. intros H HQ s. destruct (H s) as (a & w & E & H1). eauto. Qed.

Lemma yields_emit k loc args Q :
  (∀ d, Q tt [d]) → yields (LexEmit k loc args) Q.
Proof. intros H s. eexists tt, [_]. split; [reflexivity|apply H]. Qed.

Lemma yields_lift {A} (r : Result A) a Q :
  r = Ok a → Q a [] → yields (lift_result (λ _, r)) Q.
Proof. intros -> H s. by exists a, []. Qed.

Lemma yields_check (b : bool) Q : b = true → Q tt [] → yields (check b) Q.
Proof. intros -> H s. by exists tt, []. Qed.

Lemma yields_when (b : bool) (m : Action S LexDiagnostic unit) Q :
  (b = true → yields m Q) → (b = false → Q tt []) → yields (when b m) Q.
Proof. unfold when. destruct b; intros H1 H2; [by apply H1|]. by apply yields_ret, H2. Qed.
End yields.
