(* ===== verification/NumericLiterals.v ===== *)
(** Numeric literals: [toolchain/lex/numeric_literal.{h,cpp}]. [Lex] takes the
    longest run of bytes that could be a literal; [ComputeValue] checks it and
    computes its value in [APInt]s. *)

From S2P Require Import Prelude Text APInts IntStores LexDiagnostics.

Module NumericLiteral.

(** [NumericLiteral::Radix]. *)
Inductive Radix : Set := Binary | Octal | Decimal | Hexadecimal.

#[global] Instance Radix_eq_dec : EqDecision Radix.
Proof. solve_decision. Defined.

Definition radix_int (r : Radix) : Z :=
  match r with Binary => 2 | Octal => 8 | Decimal => 10 | Hexadecimal => 16 end.

(** [NumericLiteral]'s members. *)
Record t := { text_ : StringRef.t; radix_point_ : Z; exponent_ : Z }.

Local Open Scope char_scope.
Local Open Scope Z_scope.

(** * [NumericLiteral::Lex] *)

(** The locals of the loop, with the members of [result] it sets. *)
Record LexState := {
  seen_plus_minus : bool;
  seen_radix_point : bool;
  seen_potential_exponent : bool;
  result_radix_point : Z;
  result_exponent : Z;
}.

(** The loop from index [i], at which [rest] starts. *)
Fixpoint lex_loop (can_form_real_literal : bool) (i : Z) (rest : list char) (st : LexState)
    : Result (Z * LexState) :=
  match rest with
  | [] => mret (i, st)
  | c :: rest =>
      let next_is_alnum := match rest with c' :: _ => IsAlnum c' | [] => false end in
      if IsAlnum c || char_eqb c "_" || char_eqb c "$" then
        let st :=
          if IsLower c && seen_radix_point st && negb (seen_plus_minus st) then
            {| seen_plus_minus := seen_plus_minus st;
               seen_radix_point := seen_radix_point st;
               seen_potential_exponent := true;
               result_radix_point := result_radix_point st;
               result_exponent := i |}
          else st in
        lex_loop can_form_real_literal (i + 1) rest st
      else if char_eqb c "." && can_form_real_literal && next_is_alnum &&
              negb (seen_radix_point st) then
        lex_loop can_form_real_literal (i + 1) rest
          {| seen_plus_minus := seen_plus_minus st;
             seen_radix_point := true;
             seen_potential_exponent := seen_potential_exponent st;
             result_radix_point := i;
             result_exponent := result_exponent st |}
      else if (char_eqb c "+" || char_eqb c "-") && seen_potential_exponent st &&
              (result_exponent st =? i - 1) && next_is_alnum then
        require (negb (seen_plus_minus st)) ;;
        lex_loop can_form_real_literal (i + 1) rest
          {| seen_plus_minus := true;
             seen_radix_point := seen_radix_point st;
             seen_potential_exponent := seen_potential_exponent st;
             result_radix_point := result_radix_point st;
             result_exponent := result_exponent st |}
      else mret (i, st)
  end.

(** [NumericLiteral::Lex]. *)
Definition Lex (source_text : StringRef.t) (can_form_real_literal : bool)
    : Result (option t) :=
  match StringRef.chars source_text with
  | c :: rest =>
      if negb (IsDecimalDigit c) then mret None
      else
        '(i, st) ← lex_loop can_form_real_literal 1 rest
          {| seen_plus_minus := false; seen_radix_point := false;
             seen_potential_exponent := false;
             result_radix_point := 0; result_exponent := 0 |};
        mret (Some
          {| text_ := StringRef.substr source_text 0 i;
             radix_point_ := if seen_radix_point st then result_radix_point st else i;
             exponent_ := if seen_potential_exponent st then result_exponent st else i |})
  | [] => mret None
  end.

(** * [NumericLiteral::Parser] *)

Record Parser := {
  literal_ : t;
  radix_ : Radix;
  int_part_ : StringRef.t;
  fract_part_ : StringRef.t;
  exponent_part_ : StringRef.t;
  mantissa_needs_cleaning_ : bool;
  exponent_needs_cleaning_ : bool;
  exponent_is_negative_ : bool;
}.

(** The constructor. *)
Definition MakeParser (literal : t) : Parser :=
  let text := text_ literal in
  let int_part := StringRef.substr text 0 (radix_point_ literal) in
  let '(radix, int_part) :=
    let '(hex, rest) := StringRef.consume_front int_part (str "0x") in
    if hex then (Hexadecimal, rest) else
    let '(bin, rest) := StringRef.consume_front int_part (str "0b") in
    if bin then (Binary, rest) else
    let '(oct, rest) := StringRef.consume_front int_part (str "0o") in
    if oct then (Octal, rest) else (Decimal, int_part) in
  let fract_part := StringRef.substr text (radix_point_ literal + 1)
                      (exponent_ literal - radix_point_ literal - 1) in
  let exponent_part := StringRef.substr_from text (exponent_ literal + 1) in
  let '(plus, rest) := StringRef.consume_front exponent_part (str "+") in
  let '(negative, exponent_part) :=
    if plus then (false, rest) else StringRef.consume_front exponent_part (str "-") in
  {| literal_ := literal; radix_ := radix; int_part_ := int_part;
     fract_part_ := fract_part; exponent_part_ := exponent_part;
     mantissa_needs_cleaning_ := false; exponent_needs_cleaning_ := false;
     exponent_is_negative_ := negative |}.

Definition set_mantissa_needs_cleaning (b : bool) (p : Parser) : Parser :=
  {| literal_ := literal_ p; radix_ := radix_ p; int_part_ := int_part_ p;
     fract_part_ := fract_part_ p; exponent_part_ := exponent_part_ p;
     mantissa_needs_cleaning_ := b; exponent_needs_cleaning_ := exponent_needs_cleaning_ p;
     exponent_is_negative_ := exponent_is_negative_ p |}.
Definition set_exponent_needs_cleaning (b : bool) (p : Parser) : Parser :=
  {| literal_ := literal_ p; radix_ := radix_ p; int_part_ := int_part_ p;
     fract_part_ := fract_part_ p; exponent_part_ := exponent_part_ p;
     mantissa_needs_cleaning_ := mantissa_needs_cleaning_ p;
     exponent_needs_cleaning_ := b; exponent_is_negative_ := exponent_is_negative_ p |}.

(** [IsInt]. *)
Definition IsInt (p : Parser) : bool :=
  radix_point_ (literal_ p) =? StringRef.size (text_ (literal_ p)).

(** ** Checking *)

Section checks.
Context {S : Type}.

(** [valid_digits]: the first [radix] of the digits. *)
Definition Digits : list char := str "0123456789ABCDEF".
Definition valid_digit (radix : Radix) (c : char) : bool :=
  existsb (char_eqb c) (take (Z.to_nat (radix_int radix)) Digits).

(** The loop of [CheckDigitSequence] from index [i] of a text that starts at
    byte [b]; [prev] is the preceding character. The result is the number of
    separators, or nothing when an invalid digit was diagnosed. *)
Fixpoint check_digits (radix : Radix) (allow_digit_separators : bool) (b i : Z)
    (prev : option char) (rest : list char) (num_digit_separators : Z)
    : Action S LexDiagnostic (option Z) :=
  match rest with
  | [] => mret (Some num_digit_separators)
  | c :: rest =>
      if valid_digit radix c then
        check_digits radix allow_digit_separators b (i + 1) (Some c) rest num_digit_separators
      else if char_eqb c "_" then
        let after_separator :=
          match prev with Some c' => char_eqb c' "_" | None => false end in
        let at_end := match rest with [] => true | _ => false end in
        when (negb allow_digit_separators || (i =? 0) || after_separator || at_end)
          (LexEmit LexDiagnosticKind.InvalidDigitSeparator (b + i) []) ;;
        check_digits radix allow_digit_separators b (i + 1) (Some c) rest
          (num_digit_separators + 1)
      else
        LexEmit LexDiagnosticKind.InvalidDigit (b + i)
          [LexArgChar c; LexArgInt (radix_int radix)] ;;
        mret None
  end.

(** [CheckDigitSequence]: whether the sequence is valid, and whether it has
    separators. *)
Definition CheckDigitSequence (text : StringRef.t) (radix : Radix)
    (allow_digit_separators : bool) : Action S LexDiagnostic (bool * bool) :=
  r ← check_digits radix allow_digit_separators (StringRef.begin text) 0 None
        (StringRef.chars text) 0;
  match r with
  | None => mret (false, false)
  | Some num_digit_separators =>
      if num_digit_separators =? StringRef.size text then
        LexEmit LexDiagnosticKind.EmptyDigitSequence (StringRef.begin text) [] ;;
        mret (false, false)
      else
        can_lex ← CanLexInt text;
        if negb can_lex then mret (false, false)
        else mret (true, negb (num_digit_separators =? 0))
  end.

(** [CheckLeadingZero], [CheckIntPart], [CheckFractionalPart] and
    [CheckExponentPart], each with the parser it leaves. *)
Definition CheckLeadingZero (p : Parser) : Action S LexDiagnostic bool :=
  if bool_decide (radix_ p = Decimal) &&
     starts_with (str "0") (StringRef.chars (int_part_ p)) &&
     negb (bool_decide (StringRef.chars (int_part_ p) = str "0")) then
    LexEmit LexDiagnosticKind.UnknownBaseSpecifier (StringRef.begin (int_part_ p)) [] ;;
    mret false
  else mret true.

Definition CheckIntPart (p : Parser) : Action S LexDiagnostic (bool * Parser) :=
  '(ok, has_digit_separators) ← CheckDigitSequence (int_part_ p) (radix_ p) true;
  mret (ok, set_mantissa_needs_cleaning
              (mantissa_needs_cleaning_ p || has_digit_separators) p).

Definition CheckFractionalPart (p : Parser) : Action S LexDiagnostic (bool * Parser) :=
  if IsInt p then mret (true, p)
  else
    when (bool_decide (radix_ p = Binary) || bool_decide (radix_ p = Octal))
      (LexEmit LexDiagnosticKind.InvalidRealLiteralRadix
         (StringRef.begin (text_ (literal_ p)) + radix_point_ (literal_ p))
         [LexArgInt (radix_int (radix_ p))]) ;;
    let p := set_mantissa_needs_cleaning true p in
    '(ok, _) ← CheckDigitSequence (fract_part_ p) (radix_ p) false;
    mret (ok, p).

Definition CheckExponentPart (p : Parser) : Action S LexDiagnostic (bool * Parser) :=
  let text := text_ (literal_ p) in
  let exponent := exponent_ (literal_ p) in
  if exponent =? StringRef.size text then mret (true, p)
  else
    let expected_exponent_kind : char :=
      if bool_decide (radix_ p = Decimal) then "e"%char else "p"%char in
    c ← lift_result (λ _, StringRef.at_ text exponent);
    if negb (char_eqb c expected_exponent_kind) then
      LexEmit LexDiagnosticKind.WrongRealLiteralExponent (StringRef.begin text + exponent)
        [LexArgChar expected_exponent_kind] ;;
      mret (false, p)
    else
      '(ok, has_digit_separators) ← CheckDigitSequence (exponent_part_ p) Decimal true;
      mret (ok, set_exponent_needs_cleaning has_digit_separators p).

(** [Check]: the four checks, each run if the previous ones passed. *)
Definition Check_ (p : Parser) : Action S LexDiagnostic (bool * Parser) :=
  ok ← CheckLeadingZero p;
  if negb ok then mret (false, p) else
  '(ok, p) ← CheckIntPart p;
  if negb ok then mret (false, p) else
  '(ok, p) ← CheckFractionalPart p;
  if negb ok then mret (false, p) else
  CheckExponentPart p.
End checks.

(** ** Values *)

(** [digits.size() * bits_per_digit] rounded up, where [bits_per_digit] is the
    [double] nearest to [log2(10)], [Log2Of10 * 2^-51]. The product is rounded
    to 53 bits, ties to even, before [std::ceil]. *)
Definition Log2Of10 : Z := 7480317065143153.

(** [v * 2^-s] rounded to an integer, ties to even. *)
Definition round_shift (v s : Z) : Z :=
  let q := v / 2 ^ s in
  let r := v mod 2 ^ s in
  if (2 ^ s <? 2 * r) || ((2 ^ s =? 2 * r) && Z.odd q) then q + 1 else q.

Definition decimal_bits (size : Z) : Z :=
  let product := size * Log2Of10 in
  let dropped := Z.max 0 (Z.log2 product + 1 - 53) in
  let rounded := round_shift product dropped in
  let shift := 51 - dropped in
  (rounded + 2 ^ shift - 1) / 2 ^ shift.

(** A digit of a valid literal, as [c - '0'] or [c - 'A' + 10]. *)
Definition decimal_digit (c : char) : Z := code c - code "0".
Definition hex_digit (c : char) : Z :=
  if code c <=? code "9" then code c - code "0" else code c - code "A" + 10.

Section values.
Context {Ops : APInts}.

Definition signed_bit (is_signed : bool) : Z := if is_signed then 1 else 0.

(** [ParseBinary]. *)
Fixpoint set_binary_bits (value : APInt) (cursor : Z) (digits : list char) : APInt :=
  match digits with
  | [] => value
  | c :: digits =>
      set_binary_bits (if char_eqb c "1" then setBit value cursor else value)
        (cursor - 1) digits
  end.
Definition ParseBinary (digits : list char) (is_signed : bool) : APInt :=
  set_binary_bits
    (makeAPInt (Z.max IntStore.MinAPWidth (vec_size digits + signed_bit is_signed)) 0)
    (vec_size digits - 1) digits.

(** [ParseOctalOrHexadecimal<Radix>]; [set_digit_bits] sets the bits of one
    digit below [cursor]. *)
Definition set_bit_if (digit mask cursor : Z) (value : APInt) : APInt :=
  if negb (Z.land digit mask =? 0) then setBit value cursor else value.
Definition set_digit_bits (radix : Radix) (value : APInt) (cursor : Z) (c : char)
    : APInt * Z :=
  let '(digit, value, cursor) :=
    if bool_decide (radix = Octal) then (decimal_digit c, value, cursor)
    else let digit := hex_digit c in
         (digit, set_bit_if digit 8 cursor value, cursor - 1) in
  let value := set_bit_if digit 4 cursor value in
  let value := set_bit_if digit 2 (cursor - 1) value in
  let value := set_bit_if digit 1 (cursor - 2) value in
  (value, cursor - 3).
Fixpoint set_digits_bits (radix : Radix) (value : APInt) (cursor : Z) (digits : list char)
    : APInt :=
  match digits with
  | [] => value
  | c :: digits =>
      let '(value, cursor) := set_digit_bits radix value cursor c in
      set_digits_bits radix value cursor digits
  end.
Definition BitsPerDigit (radix : Radix) : Z :=
  if bool_decide (radix = Hexadecimal) then 4 else 3.
Definition ParseOctalOrHexadecimal (radix : Radix) (digits : list char) (is_signed : bool)
    : APInt :=
  set_digits_bits radix
    (makeAPInt (Z.max IntStore.MinAPWidth
       (vec_size digits * BitsPerDigit radix + signed_bit is_signed)) 0)
    (vec_size digits * BitsPerDigit radix - 1) digits.

(** [ParseDecimalChunk], in [uint64_t]. *)
Definition uint64 (v : Z) : Z := v mod 2 ^ 64.
Definition ParseDecimalChunk (digits : list char) : Z :=
  foldl (λ chunk_val c, uint64 (uint64 (chunk_val * 10) + decimal_digit c)) 0 digits.

(** The chunk loop of [ParseDecimal]: [drop_front] asserts that a whole chunk
    is left. *)
Definition DigitsPerChunk : nat := 19.
Definition Mult : Z := 10000000000000000000.
Fixpoint parse_chunks (fuel : nat) (value : APInt) (digits : list char) : Result APInt :=
  match digits, fuel with
  | [], _ => mret value
  | _, O => Err OutOfFuel
  | _, Datatypes.S fuel =>
      let value := addAssign (mulAssign value Mult)
                     (ParseDecimalChunk (take DigitsPerChunk digits)) in
      require (Nat.leb DigitsPerChunk (length digits)) ;;
      parse_chunks fuel value (drop DigitsPerChunk digits)
  end.

(** [ParseDecimal]. *)
Definition ParseDecimal (digits : list char) (is_signed : bool) : Result APInt :=
  let size := length digits in
  let value := makeAPInt (Z.max IntStore.MinAPWidth
                 (decimal_bits (Z.of_nat size) + signed_bit is_signed)) 0 in
  if Nat.leb size DigitsPerChunk then mret (assign value (ParseDecimalChunk digits))
  else
    let first_chunk_size :=
      match Nat.modulo size DigitsPerChunk with O => DigitsPerChunk | n => n end in
    let value := assign value (ParseDecimalChunk (take first_chunk_size digits)) in
    let digits := drop first_chunk_size digits in
    parse_chunks (length digits) value digits.

(** [ParseInt]. *)
Definition ParseInt (digits : list char) (radix : Radix) (needs_cleaning is_signed : bool)
    : Result APInt :=
  let digits :=
    if needs_cleaning
    then List.filter (λ c, negb (char_eqb c "_") && negb (char_eqb c ".")) digits
    else digits in
  let digits := drop_while (char_eqb "0") digits in
  match radix with
  | Binary => mret (ParseBinary digits is_signed)
  | Octal => mret (ParseOctalOrHexadecimal Octal digits is_signed)
  | Decimal => ParseDecimal digits is_signed
  | Hexadecimal => mret (ParseOctalOrHexadecimal Hexadecimal digits is_signed)
  end.

(** [GetMantissa] and [GetExponent]. *)
Definition GetMantissa (p : Parser) : Result APInt :=
  let end_ := if IsInt p then StringRef.end_ (int_part_ p) else StringRef.end_ (fract_part_ p) in
  let digits := StringRef.between (text_ (literal_ p)) (StringRef.begin (int_part_ p)) end_ in
  ParseInt (StringRef.chars digits) (radix_ p) (mantissa_needs_cleaning_ p) true.

Definition GetExponent (p : Parser) : Result APInt :=
  exponent ←
    (if StringRef.empty (exponent_part_ p) then mret (makeAPInt IntStore.MinAPWidth 0)
     else
       exponent ← ParseInt (StringRef.chars (exponent_part_ p)) Decimal
                    (exponent_needs_cleaning_ p) true;
       mret (if exponent_is_negative_ p then negate exponent else exponent));
  let excess_exponent := StringRef.size (fract_part_ p) in
  let excess_exponent :=
    match radix_ p with
    | Hexadecimal => excess_exponent * 4
    | Octal => excess_exponent * 3
    | _ => excess_exponent
    end in
  let exponent := subAssign exponent excess_exponent in
  require (64 <=? getBitWidth exponent) ;;
  mret (if exponent_is_negative_ p && negb (isNegative exponent)
        then setSignBit (zext exponent (getBitWidth exponent + 1))
        else exponent).

(** [NumericLiteral::Value]. *)
Inductive Value :=
  | IntValue (value : APInt)
  | RealValue (radix : Radix) (mantissa exponent : APInt)
  | UnrecoverableError.

(** [NumericLiteral::ComputeValue]. *)
Definition ComputeValue {S} (literal : t) : Action S LexDiagnostic Value :=
  '(ok, p) ← Check_ (MakeParser literal);
  if negb ok then mret UnrecoverableError
  else if IsInt p then
    value ← lift_result (λ _, GetMantissa p);
    mret (IntValue value)
  else
    mantissa ← lift_result (λ _, GetMantissa p);
    exponent ← lift_result (λ _, GetExponent p);
    mret (RealValue (if bool_decide (radix_ p = Decimal) then Decimal else Binary)
            mantissa exponent).
End values.
End NumericLiteral.
