(* ===== verification/NumericShape.v ===== *)
(** The value of a numeric literal. The width [ParseDecimal] computes in
    floating point is enough: a decimal number of [n] digits fits in
    [decimal_bits n] bits, for every length the lexer accepts, where
    [70777/21306] is a rational bound of [log2(10)] from above with no integer
    between its multiples and those of the logarithm in that range. The bit and
    chunk arithmetic of [ParseInt] computes the number its digits denote, at a
    width with a bit to spare for the sign.
    Last, the shape of the literals [NumericLiteral::Lex] returns: a maximal run of
    literal characters, with the offsets of its radix point and exponent, and
    how [NumericLiteral::Parser] divides it. *)

From S2P Require Import Prelude Text APInts IntStores LexDiagnostics NumericLiterals.
Import NumericLiteral.

(** * A certificate for [10^21306 <= 2^70777] *)

(** [(m, e)] stands for the upper bound [m * 2^e]; [round_up] keeps [m]
    short. *)
Definition round_up (x : Z * Z) : Z * Z :=
  let '(m, e) := x in
  let s := Z.max 0 (Z.log2 m - 63) in ((m + 2 ^ s - 1) / 2 ^ s, e + s).

Fixpoint up_pow (p : positive) : Z * Z :=
  match p with
  | xH => (10, 0)
  | xO p => let '(m, e) := up_pow p in round_up (m * m, e + e)
  | xI p => let '(m, e) := up_pow p in round_up (10 * (m * m), e + e)
  end.

Lemma round_up_bound m e m' e' :
  0 ≤ m → 0 ≤ e → round_up (m, e) = (m', e') → 0 ≤ m' ∧ 0 ≤ e' ∧ m * 2 ^ e ≤ m' * 2 ^ e'.
Proof.
  unfold round_up. intros Hm He [= <- <-]. set (s := Z.max 0 (Z.log2 m - 63)).
  assert (0 ≤ s) by lia. pose proof (Z.pow_pos_nonneg 2 s ltac:(lia) ltac:(lia)).
  pose proof (Z.div_pos (m + 2 ^ s - 1) (2 ^ s) ltac:(lia) ltac:(lia)).
  split; [lia|]. split; [lia|]. rewrite Z.pow_add_r by lia.
  pose proof (Z.mul_succ_div_gt (m + 2 ^ s - 1) (2 ^ s) ltac:(lia)) as Hd.
  pose proof (Z.pow_pos_nonneg 2 e ltac:(lia) ltac:(lia)).
  assert (m ≤ (m + 2 ^ s - 1) / 2 ^ s * 2 ^ s) by lia. nia.
Qed.

Lemma up_pow_bound p :
  let '(m, e) := up_pow p in 0 ≤ m ∧ 0 ≤ e ∧ 10 ^ Zpos p ≤ m * 2 ^ e.
Proof.
  induction p as [p IH|p IH|]; cbn [up_pow]; [| |cbn; lia].
  - destruct (up_pow p) as [m e]. destruct IH as (Hm & He & Hp).
    destruct (round_up _) as [m' e'] eqn:E. apply round_up_bound in E; [|nia|lia].
    destruct E as (? & ? & Hb). split; [done|]. split; [done|].
    replace (Zpos p~1) with (Zpos p + Zpos p + 1) by lia. rewrite !Z.pow_add_r by lia.
    rewrite Z.pow_add_r in Hb by lia. pose proof (Z.pow_pos_nonneg 10 (Zpos p) ltac:(lia) ltac:(lia)).
    nia.
  - destruct (up_pow p) as [m e]. destruct IH as (Hm & He & Hp).
    destruct (round_up _) as [m' e'] eqn:E. apply round_up_bound in E; [|nia|lia].
    destruct E as (? & ? & Hb). split; [done|]. split; [done|].
    replace (Zpos p~0) with (Zpos p + Zpos p) by lia. rewrite !Z.pow_add_r by lia.
    rewrite Z.pow_add_r in Hb by lia. pose proof (Z.pow_pos_nonneg 10 (Zpos p) ltac:(lia) ltac:(lia)).
    nia.
Qed.

(** [m * 2^e <= 2^k], decided without computing the powers. *)
Lemma pow10_bound p k :
  (let '(m, e) := up_pow p in (e <=? k) && (Z.log2_up m <=? k - e)) = true →
  10 ^ Zpos p ≤ 2 ^ k.
Proof.
  pose proof (up_pow_bound p) as Hb. destruct (up_pow p) as [m e].
  destruct Hb as (Hm & He & Hp). rewrite andb_true_iff, !Z.leb_le. intros [H1 H2].
  etransitivity; [exact Hp|]. replace k with ((k - e) + e) by lia.
  rewrite Z.pow_add_r by lia. apply Z.mul_le_mono_nonneg_r; [lia|].
  destruct (Z.le_gt_cases m 1); [assert (0 < 2 ^ (k - e)) by (apply Z.pow_pos_nonneg; lia); lia|].
  etransitivity; [apply Z.log2_up_spec; lia|]. apply Z.pow_le_mono_r; lia.
Qed.

Lemma pow10_21306 : 10 ^ 21306 ≤ 2 ^ 70777.
Proof. apply pow10_bound. vm_compute. reflexivity. Qed.

(** * The width *)

Lemma round_shift_bound v s :
  0 ≤ s → 2 * v - 2 ^ s ≤ 2 * (round_shift v s * 2 ^ s).
Proof.
  intros Hs. pose proof (Z.pow_pos_nonneg 2 s ltac:(lia) Hs). unfold round_shift.
  pose proof (Z.div_mod v (2 ^ s) ltac:(lia)) as Hd.
  pose proof (Z.mod_pos_bound v (2 ^ s) ltac:(lia)) as Hr.
  destruct (Z.ltb_spec (2 ^ s) (2 * (v mod 2 ^ s))); cbn [orb]; [nia|].
  destruct ((_ =? _) && _); nia.
Qed.

(** The error of the rounded product is at most half of its last bit. *)
Lemma decimal_bits_product n :
  0 ≤ n ≤ 20001 → n * Log2Of10 - 2 ^ 14 ≤ decimal_bits n * 2 ^ 51.
Proof.
  intros Hn. unfold decimal_bits. set (v := n * Log2Of10).
  assert (0 ≤ v < 2 ^ 68) as Hv by (subst v; unfold Log2Of10; lia).
  set (d := Z.max 0 (Z.log2 v + 1 - 53)).
  assert (0 ≤ d ≤ 15) as Hd.
  { subst d. assert (Z.log2 v < 68); [|lia].
    destruct (Z.eq_dec v 0) as [->|]; [cbn; lia|]. apply Z.log2_lt_pow2; lia. }
  pose proof (round_shift_bound v d ltac:(lia)) as Hr.
  pose proof (Z.pow_pos_nonneg 2 (51 - d) ltac:(lia) ltac:(lia)) as Hp.
  pose proof (Z.mul_succ_div_gt (round_shift v d + 2 ^ (51 - d) - 1) (2 ^ (51 - d)) ltac:(lia)) as Hc.
  set (b := (round_shift v d + 2 ^ (51 - d) - 1) / 2 ^ (51 - d)) in *.
  assert (2 ^ 51 = 2 ^ (51 - d) * 2 ^ d) as -> by (rewrite <- Z.pow_add_r by lia; f_equal; lia).
  pose proof (Z.pow_pos_nonneg 2 d ltac:(lia) ltac:(lia)).
  pose proof (Z.pow_le_mono_r 2 d 15 ltac:(lia) ltac:(lia)).
  change (2 ^ 15) with (2 * 2 ^ 14) in *.
  assert (round_shift v d ≤ b * 2 ^ (51 - d)) by lia.
  assert (round_shift v d * 2 ^ d ≤ b * 2 ^ (51 - d) * 2 ^ d) by nia. lia.
Qed.

Lemma decimal_bits_ratio n : 0 ≤ n ≤ 20001 → n * 70777 ≤ decimal_bits n * 21306.
Proof. intros Hn. pose proof (decimal_bits_product n Hn). unfold Log2Of10 in *. lia. Qed.

Lemma decimal_bits_nonneg n : 0 ≤ n ≤ 20001 → 0 ≤ decimal_bits n.
Proof. intros Hn. pose proof (decimal_bits_ratio n Hn). lia. Qed.

Lemma decimal_bits_enough n : 0 ≤ n ≤ 20001 → 10 ^ n ≤ 2 ^ decimal_bits n.
Proof.
  intros Hn. pose proof (decimal_bits_ratio n Hn). pose proof (decimal_bits_nonneg n Hn).
  apply Z.le_ngt. intros Hlt.
  assert ((2 ^ decimal_bits n) ^ 21306 < (10 ^ n) ^ 21306) as Hp
    by (apply Z.pow_lt_mono_l; [lia|split; [apply Z.pow_nonneg; lia|done]]).
  clear Hlt.
  rewrite <- !Z.pow_mul_r in Hp by lia.
  assert (10 ^ (n * 21306) ≤ 2 ^ (decimal_bits n * 21306)); [|lia].
  rewrite Z.mul_comm, Z.pow_mul_r by lia.
  etransitivity; [apply Z.pow_le_mono_l; split; [apply Z.pow_nonneg; lia|apply pow10_21306]|].
  rewrite <- Z.pow_mul_r by lia. apply Z.pow_le_mono_r; lia.
Qed.

(** * The number a sequence of digits denotes *)

Definition digit_value (radix : Radix) (c : char) : Z :=
  match radix with Hexadecimal => hex_digit c | _ => decimal_digit c end.

Definition number_from (radix : Radix) (acc : Z) (digits : list char) : Z :=
  foldl (λ v c, v * radix_int radix + digit_value radix c) acc digits.
Definition number (radix : Radix) (digits : list char) : Z := number_from radix 0 digits.

Lemma radix_pos radix : 2 ≤ radix_int radix.
Proof. by destruct radix. Qed.

Lemma valid_digit_value radix c :
  valid_digit radix c = true → 0 ≤ digit_value radix c < radix_int radix.
Proof.
  intros Hc.
  enough (negb (valid_digit radix c) ||
    ((0 <=? digit_value radix c) && (digit_value radix c <? radix_int radix)) = true) as H.
  { rewrite Hc in H. cbn [negb orb] in H. lia. }
  clear Hc. revert c. apply forall_chars. destruct radix; vm_compute; reflexivity.
Qed.

Definition valid_digits (radix : Radix) (digits : list char) : Prop :=
  Forall (λ c, valid_digit radix c = true) digits.

Lemma number_from_cons radix acc c l :
  number_from radix acc (c :: l) =
    number_from radix (acc * radix_int radix + digit_value radix c) l.
Proof. done. Qed.

Lemma number_from_split radix acc digits :
  number_from radix acc digits =
    acc * radix_int radix ^ Z.of_nat (length digits) + number radix digits.
Proof.
  unfold number. revert acc. induction digits as [|c digits IH]; intros acc.
  { unfold number_from. cbn. lia. }
  rewrite !number_from_cons, IH, (IH (0 * _ + _)). cbn [length].
  rewrite Nat2Z.inj_succ, Z.pow_succ_r by lia. ring.
Qed.

Lemma number_app radix l1 l2 :
  number radix (l1 ++ l2) =
    number radix l1 * radix_int radix ^ Z.of_nat (length l2) + number radix l2.
Proof. unfold number at 1, number_from. rewrite foldl_app. apply number_from_split. Qed.

Lemma number_cons radix c l :
  number radix (c :: l) =
    digit_value radix c * radix_int radix ^ Z.of_nat (length l) + number radix l.
Proof. unfold number at 1. rewrite number_from_cons, number_from_split. lia. Qed.

Lemma number_range radix digits :
  valid_digits radix digits →
  0 ≤ number radix digits < radix_int radix ^ Z.of_nat (length digits).
Proof.
  induction 1 as [|c l Hc _ IH]; [cbn; lia|].
  rewrite number_cons. apply valid_digit_value in Hc.
  cbn [length]. rewrite Nat2Z.inj_succ, Z.pow_succ_r by lia. nia.
Qed.

Lemma number_zeros radix digits :
  number radix (drop_while (char_eqb "0") digits) = number radix digits.
Proof.
  induction digits as [|c l IH]; cbn [drop_while]; [done|].
  destruct (char_eqb_spec "0" c) as [<-|_]; [|done].
  rewrite IH, number_cons. by destruct radix.
Qed.

Lemma valid_digits_drop_while radix p digits :
  valid_digits radix digits → valid_digits radix (drop_while p digits).
Proof.
  induction 1 as [|c l Hc Hl IH]; cbn [drop_while]; [constructor|].
  destruct (p c); [done|by constructor].
Qed.

Lemma drop_while_length p (s : list char) : (length (drop_while p s) ≤ length s)%nat.
Proof. induction s as [|c s IH]; cbn; [done|]. destruct (p c); cbn; lia. Qed.

(** * Setting bits *)

Section values.
Context {Ops : APInts} {Laws : APIntLaws Ops}.

Lemma lor_add v i : 0 ≤ i → v mod 2 ^ (i + 1) = 0 → Z.lor v (2 ^ i) = v + 2 ^ i.
Proof.
  intros Hi Hv. rewrite <- Z.add_lor_land.
  replace (Z.land v (2 ^ i)) with 0; [lia|]. symmetry. apply Z.bits_inj'. intros n Hn.
  rewrite Z.land_spec, Z.bits_0, Z.pow2_bits_eqb by done.
  destruct (Z.eqb_spec i n) as [<-|]; [|apply andb_false_r].
  rewrite <- (Z.mod_pow2_bits_low v (i + 1)) by lia. by rewrite Hv, Z.bits_0.
Qed.

(** The bits of [x] from [n] down are clear, and so is its sign bit. *)
Definition clear_below (x : APInt) (n : Z) : Prop := getZExtValue x mod 2 ^ n = 0.

Lemma clear_below_mono x n m : 0 ≤ m ≤ n → clear_below x n → clear_below x m.
Proof.
  unfold clear_below. intros Hm Hx.
  rewrite <- (Z.mod_mod_divide (getZExtValue x) (2 ^ n) (2 ^ m)).
  - rewrite Hx. apply Z.mod_0_l. pose proof (Z.pow_pos_nonneg 2 m). lia.
  - exists (2 ^ (n - m)). rewrite <- Z.pow_add_r by lia. f_equal. lia.
Qed.

Lemma set_bit_if_value digit mask i x :
  0 ≤ i < getBitWidth x → clear_below x (i + 1) →
  let y := set_bit_if digit mask i x in
  getBitWidth y = getBitWidth x ∧ clear_below y i ∧
  getZExtValue y = getZExtValue x + (if Z.land digit mask =? 0 then 0 else 2 ^ i).
Proof.
  intros Hi Hx. cbn zeta. unfold set_bit_if.
  destruct (Z.land digit mask =? 0); cbn [negb].
  { split; [done|]. split; [by eapply clear_below_mono; [|exact Hx]; lia|lia]. }
  destruct (setBit_spec x i Hi) as [Hw Hv]. rewrite lor_add in Hv by (done || lia).
  split; [done|]. split; [|done]. unfold clear_below. rewrite Hv.
  apply (clear_below_mono _ _ i) in Hx; [|lia]. unfold clear_below in Hx.
  rewrite <- Z.add_mod_idemp_l, Hx by lia. apply Z.mod_same.
  pose proof (Z.pow_pos_nonneg 2 i). lia.
Qed.

(** A digit is the sum of the bits its masks select. *)
Definition bit_of (digit mask : Z) : Z := if Z.land digit mask =? 0 then 0 else 1.

Lemma octal_digit_bits c :
  valid_digit Octal c = true →
  decimal_digit c = 4 * bit_of (decimal_digit c) 4 + 2 * bit_of (decimal_digit c) 2 +
                    bit_of (decimal_digit c) 1.
Proof.
  intros Hc.
  enough (negb (valid_digit Octal c) || (decimal_digit c =?
    4 * bit_of (decimal_digit c) 4 + 2 * bit_of (decimal_digit c) 2 +
    bit_of (decimal_digit c) 1) = true) as H.
  { rewrite Hc in H. by apply Z.eqb_eq in H. }
  clear Hc. revert c. apply forall_chars. vm_compute. reflexivity.
Qed.

Lemma hex_digit_bits c :
  valid_digit Hexadecimal c = true →
  hex_digit c = 8 * bit_of (hex_digit c) 8 + 4 * bit_of (hex_digit c) 4 +
                2 * bit_of (hex_digit c) 2 + bit_of (hex_digit c) 1.
Proof.
  intros Hc.
  enough (negb (valid_digit Hexadecimal c) || (hex_digit c =?
    8 * bit_of (hex_digit c) 8 + 4 * bit_of (hex_digit c) 4 +
    2 * bit_of (hex_digit c) 2 + bit_of (hex_digit c) 1) = true) as H.
  { rewrite Hc in H. by apply Z.eqb_eq in H. }
  clear Hc. revert c. apply forall_chars. vm_compute. reflexivity.
Qed.

Lemma binary_digit c :
  valid_digit Binary c = true → decimal_digit c = if char_eqb c "1" then 1 else 0.
Proof.
  intros Hc.
  enough (negb (valid_digit Binary c) ||
    (decimal_digit c =? if char_eqb c "1" then 1 else 0) = true) as H.
  { rewrite Hc in H. by apply Z.eqb_eq in H. }
  clear Hc. revert c. apply forall_chars. vm_compute. reflexivity.
Qed.

(** [y] is [x] with the number [d] written in its bits from [n] up. *)
Definition gained (x y : APInt) (n d : Z) : Prop :=
  getBitWidth y = getBitWidth x ∧ clear_below y n ∧
  getZExtValue y = getZExtValue x + d * 2 ^ n.

Lemma gained_none x n : clear_below x n → gained x x n 0.
Proof. intros Hx. repeat split; [done|lia]. Qed.

(** Writing the next lower bit. *)
Lemma gained_bit x y n d digit mask :
  1 ≤ n ≤ getBitWidth x → gained x y n d →
  gained x (set_bit_if digit mask (n - 1) y) (n - 1) (2 * d + bit_of digit mask).
Proof.
  intros Hn (Hw & Hc & Hv).
  destruct (set_bit_if_value digit mask (n - 1) y) as (Hw' & Hc' & Hv'); [lia| |].
  { by replace (n - 1 + 1) with n by lia. }
  split; [congruence|]. split; [done|]. rewrite Hv', Hv. unfold bit_of.
  replace n with (n - 1 + 1) at 1 by lia. rewrite Z.pow_add_r by lia.
  destruct (Z.land digit mask =? 0); lia.
Qed.

(** One octal or hexadecimal digit. *)
Definition power_radix (radix : Radix) : Prop := radix = Octal ∨ radix = Hexadecimal.

Lemma BitsPerDigit_pow radix : power_radix radix → 2 ^ BitsPerDigit radix = radix_int radix.
Proof. by intros [-> | ->]. Qed.

Lemma BitsPerDigit_range radix : 3 ≤ BitsPerDigit radix ≤ 4.
Proof. unfold BitsPerDigit. case_bool_decide; lia. Qed.

Lemma set_digit_bits_gained radix c x n :
  power_radix radix → valid_digit radix c = true →
  BitsPerDigit radix ≤ n ≤ getBitWidth x → clear_below x n →
  let '(y, cursor) := set_digit_bits radix x (n - 1) c in
  cursor = n - BitsPerDigit radix - 1 ∧
  gained x y (n - BitsPerDigit radix) (digit_value radix c).
Proof.
  intros Hr Hc Hn Hx. unfold set_digit_bits. apply gained_none in Hx.
  destruct Hr as [-> | ->]; cbn [digit_value].
  - rewrite bool_decide_true by done. change (BitsPerDigit Octal) with 3 in *.
    rewrite (octal_digit_bits c Hc) at 4. set (d := decimal_digit c). split; [lia|].
    apply (gained_bit x _ n _ d 4) in Hx; [|lia].
    apply (gained_bit x _ (n - 1) _ d 2) in Hx; [|lia].
    apply (gained_bit x _ (n - 1 - 1) _ d 1) in Hx; [|lia].
    replace (n - 1 - 2) with (n - 1 - 1 - 1) by lia.
    replace (n - 3) with (n - 1 - 1 - 1) by lia.
    eapply eq_ind; [exact Hx|]. ring.
  - rewrite bool_decide_false by done. change (BitsPerDigit Hexadecimal) with 4 in *.
    rewrite (hex_digit_bits c Hc) at 5. set (d := hex_digit c). split; [lia|].
    apply (gained_bit x _ n _ d 8) in Hx; [|lia].
    apply (gained_bit x _ (n - 1) _ d 4) in Hx; [|lia].
    apply (gained_bit x _ (n - 1 - 1) _ d 2) in Hx; [|lia].
    apply (gained_bit x _ (n - 1 - 1 - 1) _ d 1) in Hx; [|lia].
    replace (n - 1 - 1 - 2) with (n - 1 - 1 - 1 - 1) by lia.
    replace (n - 4) with (n - 1 - 1 - 1 - 1) by lia.
    eapply eq_ind; [exact Hx|]. ring.
Qed.

Lemma set_digits_bits_value radix digits x :
  power_radix radix → valid_digits radix digits →
  vec_size digits * BitsPerDigit radix ≤ getBitWidth x →
  clear_below x (vec_size digits * BitsPerDigit radix) →
  let y := set_digits_bits radix x (vec_size digits * BitsPerDigit radix - 1) digits in
  getBitWidth y = getBitWidth x ∧ getZExtValue y = getZExtValue x + number radix digits.
Proof.
  intros Hr Hd. cbn zeta. pose proof (BitsPerDigit_range radix) as Hb. revert x.
  induction Hd as [|c l Hc _ IH]; intros x Hw Hx; cbn [set_digits_bits].
  { split; [done|]. unfold number, number_from. cbn. lia. }
  assert (vec_size (c :: l) * BitsPerDigit radix - BitsPerDigit radix =
    vec_size l * BitsPerDigit radix) as El.
  { unfold vec_size. cbn [length]. rewrite Nat2Z.inj_succ. lia. }
  pose proof (vec_size_nonneg l).
  pose proof (set_digit_bits_gained radix c x (vec_size (c :: l) * BitsPerDigit radix)
    Hr Hc ltac:(nia) Hx) as Hstep.
  destruct (set_digit_bits radix x _ c) as [y cursor].
  rewrite El in Hstep. destruct Hstep as (-> & Wy & Cy & Vy).
  destruct (IH y) as [Wz Vz]; [by rewrite Wy; nia|done|].
  rewrite Wz, Vz, Wy, Vy, number_cons, <- (BitsPerDigit_pow radix Hr).
  rewrite <- Z.pow_mul_r by lia. split; [done|]. unfold vec_size.
  rewrite (Z.mul_comm (BitsPerDigit radix)). lia.
Qed.

Lemma set_binary_bits_value digits x :
  valid_digits Binary digits → vec_size digits ≤ getBitWidth x →
  clear_below x (vec_size digits) →
  let y := set_binary_bits x (vec_size digits - 1) digits in
  getBitWidth y = getBitWidth x ∧ getZExtValue y = getZExtValue x + number Binary digits.
Proof.
  intros Hd. cbn zeta. revert x.
  induction Hd as [|c l Hc _ IH]; intros x Hw Hx; cbn [set_binary_bits].
  { split; [done|]. unfold number, number_from. cbn. lia. }
  assert (vec_size (c :: l) = vec_size l + 1) as El.
  { unfold vec_size. cbn [length]. lia. }
  pose proof (vec_size_nonneg l). rewrite El in *.
  replace (if char_eqb c "1" then setBit x (vec_size l + 1 - 1) else x)
    with (set_bit_if (decimal_digit c) 1 (vec_size l + 1 - 1) x).
  2:{ rewrite (binary_digit c Hc). by destruct (char_eqb c "1"). }
  apply gained_none in Hx. apply (gained_bit x x _ 0 (decimal_digit c) 1) in Hx; [|lia].
  destruct Hx as (Wy & Cy & Vy).
  replace (vec_size l + 1 - 1) with (vec_size l) in * by lia.
  destruct (IH _ ltac:(rewrite Wy; lia) Cy) as [Wz Vz].
  rewrite Wz, Vz, Wy, Vy, number_cons. split; [done|].
  assert (bit_of (decimal_digit c) 1 = digit_value Binary c) as ->.
  { cbn [digit_value]. rewrite (binary_digit c Hc). by destruct (char_eqb c "1"). }
  cbn [radix_int]. unfold vec_size. lia.
Qed.

(** * [ParseInt] *)

(** [x] is a value [v] whose width has [room] bits above it, and the minimum
    width. *)
Definition holds (x : APInt) (v room : Z) : Prop :=
  getZExtValue x = v ∧ IntStore.MinAPWidth ≤ getBitWidth x ∧
  0 ≤ v < 2 ^ (getBitWidth x - room).

Lemma make_zero w n :
  0 < w → 0 ≤ n → getBitWidth (makeAPInt w 0) = w ∧ getZExtValue (makeAPInt w 0) = 0 ∧
  clear_below (makeAPInt w 0) n.
Proof.
  intros Hw Hn. destruct (makeAPInt_spec w 0 Hw) as [Ew Ev].
  pose proof (Z.pow_pos_nonneg 2 w). pose proof (Z.pow_pos_nonneg 2 n).
  rewrite Z.mod_0_l in Ev by lia. repeat split; [done|done|].
  unfold clear_below. rewrite Ev. apply Z.mod_0_l. lia.
Qed.

Lemma signed_bit_range b : 0 ≤ signed_bit b ≤ 1.
Proof. by destruct b. Qed.

Lemma ParseBinary_holds digits is_signed :
  valid_digits Binary digits →
  holds (ParseBinary digits is_signed) (number Binary digits) (signed_bit is_signed).
Proof.
  intros Hd. unfold ParseBinary. pose proof (signed_bit_range is_signed).
  pose proof (vec_size_nonneg digits). unfold IntStore.MinAPWidth.
  set (w := Z.max 64 (vec_size digits + signed_bit is_signed)).
  destruct (make_zero w (vec_size digits)) as (Ew & Ev & Ec); [lia|lia|].
  destruct (set_binary_bits_value digits (makeAPInt w 0) Hd) as [Wy Vy]; [lia|done|].
  unfold holds. rewrite Wy, Vy, Ew, Ev. split; [lia|]. split; [unfold IntStore.MinAPWidth; lia|].
  pose proof (number_range Binary digits Hd) as Hn. cbn [radix_int] in Hn.
  pose proof (Z.pow_le_mono_r 2 (Z.of_nat (length digits)) (w - signed_bit is_signed)).
  unfold vec_size in *. lia.
Qed.

Lemma ParseOctalOrHexadecimal_holds radix digits is_signed :
  power_radix radix → valid_digits radix digits →
  holds (ParseOctalOrHexadecimal radix digits is_signed) (number radix digits)
    (signed_bit is_signed).
Proof.
  intros Hr Hd. unfold ParseOctalOrHexadecimal. pose proof (signed_bit_range is_signed).
  pose proof (vec_size_nonneg digits). pose proof (BitsPerDigit_range radix).
  unfold IntStore.MinAPWidth.
  set (n := vec_size digits * BitsPerDigit radix).
  assert (0 ≤ n) by (subst n; nia).
  set (w := Z.max 64 (n + signed_bit is_signed)).
  destruct (make_zero w n) as (Ew & Ev & Ec); [lia|lia|].
  destruct (set_digits_bits_value radix digits (makeAPInt w 0) Hr Hd) as [Wy Vy];
    [fold n; lia|done|].
  fold n in Wy, Vy. unfold holds. rewrite Wy, Vy, Ew, Ev.
  split; [lia|]. split; [unfold IntStore.MinAPWidth; lia|].
  pose proof (number_range radix digits Hd) as Hn.
  rewrite <- (BitsPerDigit_pow radix Hr), <- Z.pow_mul_r in Hn by lia.
  pose proof (Z.pow_le_mono_r 2 (BitsPerDigit radix * Z.of_nat (length digits))
    (w - signed_bit is_signed)).
  subst n. unfold vec_size in *. lia.
Qed.

(** A chunk of at most 19 digits does not wrap around in 64 bits. *)
Lemma ParseDecimalChunk_number digits :
  valid_digits Decimal digits → (length digits ≤ 19)%nat →
  ParseDecimalChunk digits = number Decimal digits.
Proof.
  unfold ParseDecimalChunk, number, number_from. intros Hd Hl.
  enough (∀ n acc, valid_digits Decimal digits → 0 ≤ acc < 10 ^ Z.of_nat n →
    (n + length digits ≤ 19)%nat →
    foldl (λ v c, uint64 (uint64 (v * 10) + decimal_digit c)) acc digits =
    foldl (λ v c, v * radix_int Decimal + digit_value Decimal c) acc digits) as H.
  { apply (H O 0); [done|cbn; lia|done]. }
  clear Hd Hl. induction digits as [|c l IH]; intros n acc Hd Ha Hl; cbn [foldl]; [done|].
  apply Forall_cons in Hd as [Hc Hd].
  pose proof (valid_digit_value Decimal c Hc) as Hv. cbn [digit_value radix_int length] in *.
  assert (10 ^ Z.of_nat (S n) = 10 * 10 ^ Z.of_nat n) as En
    by (rewrite Nat2Z.inj_succ, Z.pow_succ_r; lia).
  pose proof (Z.pow_le_mono_r 10 (Z.of_nat (S n)) 19 ltac:(lia) ltac:(lia)).
  change (10 ^ 19) with 10000000000000000000 in *. change (2 ^ 64) with 18446744073709551616.
  assert (uint64 (uint64 (acc * 10) + decimal_digit c) = acc * 10 + decimal_digit c) as ->.
  { unfold uint64. change (2 ^ 64) with 18446744073709551616. rewrite (Z.mod_small (acc * 10)) by lia.
    by rewrite Z.mod_small by lia. }
  apply (IH (S n)); [done|lia|lia].
Qed.

Lemma parse_chunks_number fuel digits x :
  valid_digits Decimal digits → (length digits ≤ fuel)%nat →
  (length digits mod 19 = 0)%nat →
  getZExtValue x * 10 ^ Z.of_nat (length digits) + number Decimal digits < 2 ^ getBitWidth x →
  ∃ y, parse_chunks fuel x digits = Ok y ∧ getBitWidth y = getBitWidth x ∧
    getZExtValue y = getZExtValue x * 10 ^ Z.of_nat (length digits) + number Decimal digits.
Proof.
  revert digits x. induction fuel as [|fuel IH]; intros digits x Hd Hf Hm Hx.
  { destruct digits; [|cbn in Hf; lia]. exists x. split; [done|]. split; [done|].
    unfold number, number_from. cbn. lia. }
  destruct digits as [|c l] eqn:E.
  { exists x. split; [done|]. split; [done|]. unfold number, number_from. cbn. lia. }
  rewrite <- E in *. assert (parse_chunks (S fuel) x digits =
    require (Nat.leb DigitsPerChunk (length digits)) ≫= λ _,
      parse_chunks fuel (addAssign (mulAssign x Mult)
        (ParseDecimalChunk (take DigitsPerChunk digits))) (drop DigitsPerChunk digits)) as ->
    by by rewrite E.
  assert (19 ≤ length digits)%nat as Hlen.
  { destruct (Nat.lt_ge_cases (length digits) 19) as [Hlt|]; [|done].
    rewrite Nat.mod_small in Hm by done. rewrite E in Hm. done. }
  change DigitsPerChunk with 19%nat.
  rewrite (proj2 (Nat.leb_le _ _) Hlen). cbn [require mbind Result_bind]. clear E c l.
  pose proof (getZExtValue_range x) as [_ Hrx].
  assert (valid_digits Decimal (take 19 digits) ∧ valid_digits Decimal (drop 19 digits)) as [Ht Hdr].
  { unfold valid_digits in *. split; [by apply Forall_take|by apply Forall_drop]. }
  pose proof (number_range _ _ Ht) as Nt. pose proof (number_range _ _ Hdr) as Nd.
  assert (number Decimal digits = number Decimal (take 19 digits) *
    10 ^ Z.of_nat (length (drop 19 digits)) + number Decimal (drop 19 digits)) as En.
  { rewrite <- (take_drop 19 digits) at 1. apply number_app. }
  rewrite length_take, Nat.min_l in Nt by done. cbn [radix_int] in *.
  assert (10 ^ Z.of_nat (length digits) = 10 ^ 19 * 10 ^ Z.of_nat (length (drop 19 digits))) as Ep.
  { rewrite <- Z.pow_add_r by lia. f_equal. rewrite length_drop. lia. }
  pose proof (Z.pow_pos_nonneg 10 (Z.of_nat (length (drop 19 digits))) ltac:(lia) ltac:(lia)) as Hp.
  set (P := 10 ^ Z.of_nat (length (drop 19 digits))) in *.
  rewrite ParseDecimalChunk_number by (done || rewrite length_take; lia).
  destruct (mulAssign_spec x Mult) as [W1 V1].
  destruct (addAssign_spec (mulAssign x Mult) (number Decimal (take 19 digits))) as [W2 V2].
  change (Z.of_nat 19) with 19 in Nt.
  change (10 ^ 19) with 10000000000000000000 in *.
  assert (getZExtValue x * 10000000000000000000 + number Decimal (take 19 digits)
    < 2 ^ getBitWidth x) as Hb by nia.
  rewrite W1, V1 in V2. unfold Mult in *.
  change (10000000000000000000 mod 2 ^ 64) with 10000000000000000000 in V2.
  rewrite (Z.mod_small (_ * _)) in V2 by nia.
  rewrite (Z.mod_small (number _ _)) in V2 by (change (2 ^ 64) with 18446744073709551616; lia).
  rewrite Z.mod_small in V2 by nia.
  destruct (IH (drop 19 digits) (addAssign (mulAssign x 10000000000000000000)
    (number Decimal (take 19 digits)))) as (y & Hy & Wy & Vy); [done| | |fold P|].
  - rewrite length_drop. lia.
  - rewrite length_drop. pose proof (Nat.div_mod_eq (length digits) 19).
    replace (length digits - 19)%nat with ((length digits / 19 - 1) * 19)%nat by lia.
    apply Nat.Div0.mod_mul.
  - rewrite V2, W2, W1. rewrite En, Ep in Hx. nia.
  - exists y. split; [done|]. fold P in Vy. split; [congruence|].
    rewrite Vy, V2, En, Ep. ring.
Qed.

Lemma ParseDecimal_holds digits is_signed :
  valid_digits Decimal digits → vec_size digits ≤ 20001 →
  ∃ y, ParseDecimal digits is_signed = Ok y ∧
    holds y (number Decimal digits) (signed_bit is_signed).
Proof.
  intros Hd Hl. unfold ParseDecimal, vec_size in *. pose proof (signed_bit_range is_signed).
  pose proof (decimal_bits_enough (Z.of_nat (length digits)) ltac:(lia)) as Hb.
  pose proof (decimal_bits_nonneg (Z.of_nat (length digits)) ltac:(lia)) as Hb0.
  unfold IntStore.MinAPWidth.
  set (w := Z.max 64 (decimal_bits (Z.of_nat (length digits)) + signed_bit is_signed)).
  destruct (make_zero w 0) as (Ew & Ev & _); [lia|lia|].
  pose proof (number_range Decimal digits Hd) as Hn. cbn [radix_int] in Hn.
  pose proof (Z.pow_le_mono_r 2 (decimal_bits (Z.of_nat (length digits)))
    (w - signed_bit is_signed) ltac:(lia) ltac:(lia)) as Hroom.
  pose proof (Z.pow_le_mono_r 2 (w - signed_bit is_signed) w ltac:(lia) ltac:(lia)) as Hw.
  pose proof (Z.pow_le_mono_r 2 64 w ltac:(lia) ltac:(lia)) as H64.
  change DigitsPerChunk with 19%nat. destruct (Nat.leb_spec (length digits) 19) as [Hs|Hs].
  - exists (assign (makeAPInt w 0) (ParseDecimalChunk digits)). split; [done|].
    rewrite ParseDecimalChunk_number by done.
    destruct (assign_spec (makeAPInt w 0) (number Decimal digits)) as [Wy Vy].
    pose proof (Z.pow_le_mono_r 10 (Z.of_nat (length digits)) 19 ltac:(lia) ltac:(lia)) as Hp.
    change (10 ^ 19) with 10000000000000000000 in Hp.
    rewrite Ew in *. rewrite (Z.mod_small _ (2 ^ 64)) in Vy by lia.
    rewrite Z.mod_small in Vy by lia.
    unfold holds. rewrite Wy, Vy. split; [done|]. split; [unfold IntStore.MinAPWidth; lia|lia].
  - set (k := match (length digits mod 19)%nat with O => 19%nat | n => n end).
    assert (1 ≤ k ≤ 19 ∧ (length digits - k) mod 19 = 0)%nat as [Hk Hm].
    { pose proof (Nat.mod_upper_bound (length digits) 19 ltac:(lia)).
      pose proof (Nat.div_mod_eq (length digits) 19) as Hdm. subst k.
      destruct (length digits mod 19)%nat as [|r] eqn:Er.
      - split; [lia|]. replace (length digits - 19)%nat with ((length digits / 19 - 1) * 19)%nat by lia.
        apply Nat.Div0.mod_mul.
      - split; [lia|]. replace (length digits - S r)%nat with (length digits / 19 * 19)%nat by lia.
        apply Nat.Div0.mod_mul. }
    assert (valid_digits Decimal (take k digits) ∧ valid_digits Decimal (drop k digits)) as [Ht Hdr].
    { unfold valid_digits in *. split; [by apply Forall_take|by apply Forall_drop]. }
    pose proof (number_range _ _ Ht) as Nt. rewrite length_take, Nat.min_l in Nt by lia.
    cbn [radix_int] in Nt.
    pose proof (Z.pow_le_mono_r 10 (Z.of_nat k) 19 ltac:(lia) ltac:(lia)) as Hp.
    change (10 ^ 19) with 10000000000000000000 in Hp.
    rewrite ParseDecimalChunk_number by (done || rewrite length_take; lia).
    destruct (assign_spec (makeAPInt w 0) (number Decimal (take k digits))) as [Wx Vx].
    rewrite Ew in *. change (2 ^ 64) with 18446744073709551616 in *.
    rewrite (Z.mod_small _ 18446744073709551616) in Vx by lia.
    rewrite Z.mod_small in Vx by lia.
    assert (number Decimal digits = number Decimal (take k digits) *
      10 ^ Z.of_nat (length (drop k digits)) + number Decimal (drop k digits)) as En.
    { rewrite <- (take_drop k digits) at 1. apply number_app. }
    destruct (parse_chunks_number (length (drop k digits)) (drop k digits)
      (assign (makeAPInt w 0) (number Decimal (take k digits)))) as (y & Hy & Wy & Vy);
      [done|done|by rewrite length_drop| |].
    { rewrite Vx, <- En, Wx. lia. }
    exists y. split; [done|]. unfold holds. rewrite Vx, <- En in Vy. rewrite Wy, Vy, Wx.
    split; [done|]. split; [unfold IntStore.MinAPWidth; lia|lia].
Qed.

(** The digits left once separators and the radix point are removed. *)
Definition cleaned (needs_cleaning : bool) (digits : list char) : list char :=
  if needs_cleaning
  then List.filter (λ c, negb (char_eqb c "_") && negb (char_eqb c ".")) digits
  else digits.

(** [ParseInt] returns the number its digits denote, with a bit to spare when
    a sign will be needed. *)
Lemma ParseInt_holds digits radix needs_cleaning is_signed :
  valid_digits radix (cleaned needs_cleaning digits) →
  vec_size (cleaned needs_cleaning digits) ≤ 20001 →
  ∃ y, ParseInt digits radix needs_cleaning is_signed = Ok y ∧
    holds y (number radix (cleaned needs_cleaning digits)) (signed_bit is_signed).
Proof.
  unfold ParseInt. fold (cleaned needs_cleaning digits).
  set (ds := cleaned needs_cleaning digits). intros Hd Hl.
  pose proof (valid_digits_drop_while radix (char_eqb "0") ds Hd) as Hd'.
  pose proof (drop_while_length (char_eqb "0") ds) as Hl'.
  rewrite <- (number_zeros radix ds).
  destruct radix; try (eexists; split; [reflexivity|]).
  - by apply ParseBinary_holds.
  - apply ParseOctalOrHexadecimal_holds; [by left|done].
  - apply ParseDecimal_holds; [done|]. unfold vec_size in *. lia.
  - apply ParseOctalOrHexadecimal_holds; [by right|done].
Qed.
End values.

(** A character that continues any literal. *)
Definition literal_char (c : char) : bool :=
  IsAlnum c || char_eqb c "_" || char_eqb c "$".

(** The rest of a literal's text after its radix point: the fractional part
    and the exponent, introduced by a lowercase letter and perhaps a sign. *)
Record well_formed (l : t) : Prop := {
  wf_nonempty : 1 ≤ radix_point_ l;
  wf_radix_point : radix_point_ l ≤ exponent_ l;
  wf_exponent : exponent_ l ≤ StringRef.size (text_ l);
  wf_int : radix_point_ l = exponent_ l → exponent_ l = StringRef.size (text_ l);
  wf_real : radix_point_ l < exponent_ l →
    vec_get (StringRef.chars (text_ l)) (radix_point_ l) = Ok "."%char;
}.

(** * The loop of [Lex] *)

(** What holds after the characters [pre]. *)
Record loop_inv (pre : list char) (st : LexState) : Prop := {
  inv_nonempty : 1 ≤ vec_size pre;
  inv_point : seen_radix_point st = true →
    1 ≤ result_radix_point st < vec_size pre ∧
    vec_get pre (result_radix_point st) = Ok "."%char;
  inv_exponent : seen_potential_exponent st = true →
    seen_radix_point st = true ∧ result_radix_point st < result_exponent st < vec_size pre;
  inv_sign : seen_plus_minus st = true → result_exponent st + 1 < vec_size pre;
}.

Lemma vec_get_snoc {A} (l : list A) x : vec_get (l ++ [x]) (vec_size l) = Ok x.
Proof.
  apply vec_get_Ok. split; [apply vec_size_nonneg|]. unfold vec_size.
  rewrite Nat2Z.id. by apply list_lookup_middle.
Qed.

Lemma vec_size_snoc {A} (l : list A) x : vec_size (l ++ [x]) = vec_size l + 1.
Proof. by rewrite vec_size_app. Qed.

Lemma loop_inv_snoc pre st c : loop_inv pre st → loop_inv (pre ++ [c]) st.
Proof.
  intros []. split; rewrite ?vec_size_snoc; [lia|..].
  - intros H. destruct (inv_point0 H). split; [lia|by apply vec_get_app_l].
  - intros H. destruct (inv_exponent0 H). split; [done|lia].
  - intros H. specialize (inv_sign0 H). lia.
Qed.

(** The loop never fails its check, and stops at the end or at a character that
    does not continue the literal. *)
Lemma lex_loop_shape can_real rest pre st :
  loop_inv pre st →
  ∃ more rest' st', rest = more ++ rest' ∧
    lex_loop can_real (vec_size pre) rest st = Ok (vec_size (pre ++ more), st') ∧
    loop_inv (pre ++ more) st' ∧
    match rest' with c :: _ => literal_char c = false | [] => True end.
Proof.
  revert pre st. induction rest as [|c rest IH]; intros pre st Hinv.
  { exists [], [], st. rewrite (app_nil_r pre). done. }
  assert (∀ st1, loop_inv (pre ++ [c]) st1 →
    ∃ more rest' st', c :: rest = more ++ rest' ∧
      lex_loop can_real (vec_size pre + 1) rest st1 = Ok (vec_size (pre ++ more), st') ∧
      loop_inv (pre ++ more) st' ∧
      match rest' with c :: _ => literal_char c = false | [] => True end) as step.
  { intros st1 Hinv1. destruct (IH _ _ Hinv1) as (more & rest' & st' & -> & E & I & R).
    exists (c :: more), rest', st'. rewrite vec_size_snoc, <- app_assoc in E.
    rewrite <- app_assoc in I. done. }
  cbn [lex_loop]. fold (literal_char c). destruct (literal_char c) eqn:Hc.
  - apply step. destruct (IsLower c && _ && _) eqn:El; [|by apply loop_inv_snoc].
    rewrite !andb_true_iff, negb_true_iff in El. destruct El as [[_ Hp] Hs].
    destruct Hinv. destruct (inv_point0 Hp). split; cbn; rewrite ?vec_size_snoc; [lia|..].
    + intros _. split; [lia|by apply vec_get_app_l].
    + intros _. split; [done|lia].
    + congruence.
  - destruct (char_eqb c "." && _ && _ && _) eqn:Ed.
    { apply step. rewrite !andb_true_iff, negb_true_iff, char_eqb_eq in Ed.
      destruct Ed as [[[-> _] _] Hp]. destruct Hinv.
      split; cbn; rewrite ?vec_size_snoc; [lia|..].
      - intros _. split; [lia|apply vec_get_snoc].
      - intros H. destruct (inv_exponent0 H). congruence.
      - intros H. specialize (inv_sign0 H). lia. }
    destruct (_ && seen_potential_exponent st && _ && _) eqn:Es.
    + rewrite !andb_true_iff, Z.eqb_eq in Es. destruct Es as [[[_ He] Hi] _].
      assert (seen_plus_minus st = false) as Hs.
      { destruct (seen_plus_minus st) eqn:E; [|done]. pose proof (inv_sign _ _ Hinv E). lia. }
      rewrite Hs. cbn [negb require]. apply step. destruct Hinv.
      destruct (inv_exponent0 He) as [Hp ?]. destruct (inv_point0 Hp).
      split; cbn; rewrite ?vec_size_snoc; [lia|..].
      * intros _. split; [lia|by apply vec_get_app_l].
      * intros _. split; [done|lia].
      * intros _. lia.
    + exists [], (c :: rest), st. rewrite (app_nil_r pre). done.
Qed.

Lemma digit_literal_char c : IsDecimalDigit c = true → literal_char c = true.
Proof. unfold literal_char, IsAlnum. intros ->. by rewrite orb_true_r. Qed.

(** [Lex] finds a literal exactly when the text starts with a digit. Its text
    is a prefix, longest in that no literal character follows it. *)
Lemma Lex_shape src can_real :
  StringRef.size src < 2 ^ 31 →
  match Lex src can_real with
  | Err _ => False
  | Ok None => match StringRef.chars src with c :: _ => IsDecimalDigit c = false | [] => True end
  | Ok (Some l) =>
      StringRef.begin (text_ l) = StringRef.begin src ∧ well_formed l ∧
      ∃ rest, StringRef.chars src = StringRef.chars (text_ l) ++ rest ∧
        match rest with c :: _ => literal_char c = false | [] => True end
  end.
Proof.
  unfold Lex. destruct src as [b [|c rest]]; cbn [StringRef.chars StringRef.begin]; [done|].
  intros Hsize. destruct (IsDecimalDigit c) eqn:Hc; cbn [negb]; [|done].
  edestruct (lex_loop_shape can_real rest [c]) as (more & rest' & st & -> & E & I & R).
  2:{ change (vec_size [c]) with 1 in E. rewrite E. cbv [mbind Result_bind mret Result_ret].
      change ([c] ++ more) with (c :: more) in *.
      change (c :: more ++ rest') with ((c :: more) ++ rest') in *.
      set (pre := c :: more) in *. cbn [text_].
      pose proof (vec_size_nonneg pre). pose proof (vec_size_nonneg rest').
      unfold StringRef.size in Hsize. cbn [StringRef.chars] in Hsize.
      rewrite vec_size_app in Hsize.
      rewrite StringRef.substr_all_in
        by (unfold StringRef.size; cbn [StringRef.chars]; rewrite ?vec_size_app; lia).
      cbn [StringRef.begin StringRef.chars]. change (Z.to_nat 0) with 0%nat. rewrite drop_0.
      assert (take (Z.to_nat (vec_size pre)) (pre ++ rest') = pre) as ->.
      { unfold vec_size. by rewrite Nat2Z.id, take_app_length. }
      split; [lia|]. split; [|by exists rest'].
      destruct I. split; cbn; unfold StringRef.size; cbn [StringRef.chars];
        destruct (seen_radix_point st) eqn:Hp, (seen_potential_exponent st) eqn:He;
        try (specialize (inv_point0 eq_refl)); try (specialize (inv_exponent0 eq_refl));
        try (destruct inv_exponent0; congruence); try lia; by intros; apply inv_point0. }
  split; cbn; try done.
Qed.

(** * The parts [Parser] divides a literal into *)

Definition radix_prefix (r : Radix) : list char :=
  match r with
  | Binary => str "0b" | Octal => str "0o" | Decimal => [] | Hexadecimal => str "0x"
  end.

(** What follows the fractional part: nothing, or a letter, perhaps a sign, and
    the exponent. *)
Inductive exponent_text (negative : bool) (digits : list char) : list char → Prop :=
  | no_exponent : negative = false → digits = [] → exponent_text negative digits []
  | some_exponent c sign :
      sign = str "-" ∧ negative = true ∨ (sign = [] ∨ sign = str "+") ∧ negative = false →
      exponent_text negative digits (c :: sign ++ digits).

Lemma consume_front_spec s prefix :
  match StringRef.consume_front s prefix with
  | (true, r) => StringRef.chars s = prefix ++ StringRef.chars r ∧
      StringRef.begin r = StringRef.begin s + vec_size prefix
  | (false, r) => r = s
  end.
Proof.
  unfold StringRef.consume_front. destruct (starts_with prefix _) eqn:E; [|done].
  apply starts_with_spec in E as [rest E]. cbn. by rewrite E, drop_app_length.
Qed.

Lemma substr_from_end s n :
  StringRef.size s = n → n < 2 ^ 31 →
  StringRef.chars (StringRef.substr_from s (n + 1)) = [].
Proof.
  intros <- Hn. unfold StringRef.size in *. pose proof (vec_size_nonneg (StringRef.chars s)).
  unfold StringRef.substr_from, StringRef.substr, StringRef.size_t, StringRef.size.
  cbn [StringRef.chars]. rewrite (Z.mod_small (_ + 1)) by lia. rewrite (Z.min_r (_ + 1)) by lia.
  unfold vec_size. by rewrite Nat2Z.id, drop_all, take_nil.
Qed.

Lemma take_drop_Z {A} (l : list A) i :
  0 ≤ i ≤ vec_size l → l = take (Z.to_nat i) l ++ drop (Z.to_nat i) l ∧
    vec_size (take (Z.to_nat i) l) = i.
Proof.
  intros Hi. split; [by rewrite take_drop|]. unfold vec_size in *. rewrite length_take. lia.
Qed.

Lemma drop_cons_Z {A} (l : list A) i x :
  vec_get l i = Ok x → drop (Z.to_nat i) l = x :: drop (Z.to_nat (i + 1)) l.
Proof.
  intros [Hi Hx]%vec_get_Ok. rewrite (drop_S _ _ _ Hx). f_equal. f_equal. lia.
Qed.

(** How the parser's parts make up the text [T] of the literal. *)
Record divided (l : t) (p : Parser) : Prop := {
  divided_literal : literal_ p = l;
  divided_clean : mantissa_needs_cleaning_ p = false ∧ exponent_needs_cleaning_ p = false;
  divided_begin : StringRef.begin (int_part_ p) =
    StringRef.begin (text_ l) + vec_size (radix_prefix (radix_ p));
  divided_int : IsInt p = true →
    StringRef.chars (text_ l) = radix_prefix (radix_ p) ++ StringRef.chars (int_part_ p) ∧
    exponent_ l = StringRef.size (text_ l);
  divided_real : IsInt p = false →
    ∃ tail, StringRef.chars (text_ l) =
        radix_prefix (radix_ p) ++ StringRef.chars (int_part_ p) ++
        "."%char :: StringRef.chars (fract_part_ p) ++ tail ∧
      StringRef.begin (fract_part_ p) = StringRef.begin (int_part_ p) +
        StringRef.size (int_part_ p) + 1 ∧
      exponent_text (exponent_is_negative_ p) (StringRef.chars (exponent_part_ p)) tail ∧
      tail = drop (Z.to_nat (exponent_ l)) (StringRef.chars (text_ l)) ∧
      (tail = [] ↔ exponent_ l = StringRef.size (text_ l));
}.

(** Splits on the radix prefix of the integer part [i]. *)
Ltac case_prefix i :=
  destruct (StringRef.consume_front i (str "0x")) as [[] ?];
    [|destruct (StringRef.consume_front i (str "0b")) as [[] ?];
      [|destruct (StringRef.consume_front i (str "0o")) as [[] ?]]].

(** The radix prefix and the integer part are the text before the point. *)
Lemma MakeParser_int l :
  let p := MakeParser l in
  let int_part := StringRef.substr (text_ l) 0 (radix_point_ l) in
  StringRef.chars int_part = radix_prefix (radix_ p) ++ StringRef.chars (int_part_ p) ∧
  StringRef.begin (int_part_ p) = StringRef.begin int_part + vec_size (radix_prefix (radix_ p)).
Proof.
  unfold MakeParser. cbn zeta. set (i := StringRef.substr (text_ l) 0 _).
  pose proof (consume_front_spec i (str "0x")) as H1.
  pose proof (consume_front_spec i (str "0b")) as H2.
  pose proof (consume_front_spec i (str "0o")) as H3.
  case_prefix i;
    (destruct (StringRef.consume_front _ (str "+")) as [[] ?];
      [|destruct (StringRef.consume_front _ (str "-")) as [? ?]]);
    cbn [int_part_ radix_ radix_prefix];
    first [exact H1|exact H2|exact H3|by split; [|unfold vec_size; cbn; lia]].
Qed.

(** The exponent and its sign. *)
Lemma MakeParser_exponent l :
  let p := MakeParser l in
  let e := StringRef.substr_from (text_ l) (exponent_ l + 1) in
  ∃ sign, StringRef.chars e = sign ++ StringRef.chars (exponent_part_ p) ∧
    (sign = str "-" ∧ exponent_is_negative_ p = true ∨
     (sign = [] ∨ sign = str "+") ∧ exponent_is_negative_ p = false).
Proof.
  unfold MakeParser. cbn zeta. set (i := StringRef.substr (text_ l) 0 _).
  set (e := StringRef.substr_from _ _).
  pose proof (consume_front_spec e (str "+")) as H1.
  pose proof (consume_front_spec e (str "-")) as H2.
  destruct (StringRef.consume_front e (str "+")) as [[] rp].
  { exists (str "+").
    case_prefix i; (split; [apply H1|right; split; [by right|done]]). }
  destruct (StringRef.consume_front e (str "-")) as [[] rm].
  - exists (str "-"). case_prefix i; (split; [apply H2|by left]).
  - exists []. subst rm. case_prefix i; (split; [done|right; split; [by left|done]]).
Qed.

Lemma MakeParser_divided l :
  well_formed l → StringRef.size (text_ l) < 2 ^ 31 → divided l (MakeParser l).
Proof.
  intros [] Hsize. pose proof (MakeParser_int l) as Hint.
  pose proof (MakeParser_exponent l) as (sign & He & Hsign). cbn zeta in *.
  set (T := StringRef.chars (text_ l)) in *.
  assert (StringRef.size (text_ l) = vec_size T) as Hz by done. rewrite Hz in *.
  rewrite StringRef.substr_all_in in Hint by (rewrite ?Hz; lia).
  cbn [StringRef.chars StringRef.begin] in Hint. fold T in Hint.
  change (Z.to_nat 0) with 0%nat in Hint. rewrite drop_0 in Hint. destruct Hint as [Hi Hb].
  assert (literal_ (MakeParser l) = l ∧ mantissa_needs_cleaning_ (MakeParser l) = false ∧
    exponent_needs_cleaning_ (MakeParser l) = false ∧
    fract_part_ (MakeParser l) = StringRef.substr (text_ l) (radix_point_ l + 1)
      (exponent_ l - radix_point_ l - 1)) as (Hl & Hm & Hx & Hf).
  { unfold MakeParser. set (i := StringRef.substr (text_ l) 0 _).
    destruct (StringRef.consume_front _ (str "+")) as [[] ?]; [by case_prefix i|].
    destruct (StringRef.consume_front _ (str "-")). by case_prefix i. }
  split; [done|done|lia|..]; unfold IsInt; rewrite Hl, Hz.
  - intros Hint%Z.eqb_eq. split; [|lia]. fold T. rewrite <- Hi, Hint.
    unfold vec_size. by rewrite Nat2Z.id, take_ge.
  - intros Hint%Z.eqb_neq. fold T. specialize (wf_real0 ltac:(lia)). fold T in wf_real0.
    destruct (take_drop_Z T (radix_point_ l)) as [ET Hlen]; [lia|].
    rewrite (drop_cons_Z _ _ _ wf_real0) in ET.
    set (rest := drop (Z.to_nat (radix_point_ l + 1)) T) in *.
    assert (vec_size T = radix_point_ l + 1 + vec_size rest) as Hrest.
    { rewrite ET, vec_size_app, Hlen. unfold vec_size. cbn. lia. }
    rewrite StringRef.substr_all_in in Hf by (rewrite ?Hz; lia). fold T rest in Hf.
    set (n := exponent_ l - radix_point_ l - 1) in *.
    destruct (take_drop_Z rest n) as [Er Hn]; [lia|].
    exists (drop (Z.to_nat n) rest). rewrite Hf. cbn [StringRef.chars StringRef.begin].
    rewrite <- Er, app_assoc, <- Hi. split; [done|]. split.
    { rewrite Hb. unfold StringRef.size. rewrite Hi, vec_size_app in Hlen. lia. }
    assert (drop (Z.to_nat n) rest = drop (Z.to_nat (exponent_ l)) T) as Ed.
    { subst rest. rewrite drop_drop. f_equal. lia. }
    rewrite Ed. destruct (decide (exponent_ l = vec_size T)) as [Hend|Hend].
    + pose proof (substr_from_end (text_ l) (exponent_ l) ltac:(by rewrite Hz) ltac:(lia)) as E0.
      rewrite E0 in He. symmetry in He. apply app_nil in He as [-> ->].
      rewrite drop_ge by (unfold vec_size in Hend; lia).
      destruct Hsign as [[? _]|[_ ?]]; [done|]. split; [by constructor|]. by split.
    + destruct (vec_get_in_range T (exponent_ l)) as [c Hc]; [lia|].
      rewrite (drop_cons_Z _ _ _ Hc). split; [|by split].
      rewrite StringRef.substr_from_in in He by (rewrite ?Hz; lia). cbn in He.
      fold T in He. rewrite He. by constructor.
Qed.
