(* ===== verification/NumericValues.v ===== *)
(** What [NumericLiteral::ComputeValue] computes: for every literal [Lex] can
    return, either a diagnostic or the number its text denotes. *)

From S2P Require Import Prelude Text APInts IntStores LexDiagnostics NumericLiterals.
From S2P Require Import NumericShape.
Import NumericLiteral.

(** * Digit sequences *)

Definition sequence_char (radix : Radix) (c : char) : bool :=
  valid_digit radix c || char_eqb c "_".

(** A digit sequence without its separators. *)
Definition digits_of (text : list char) : list char := cleaned true text.

Definition separators (text : list char) : Z := vec_size (List.filter (char_eqb "_") text).

(** What [CheckDigitSequence] accepts. *)
Record digit_sequence (radix : Radix) (text : list char) : Prop := {
  sequence_chars : Forall (λ c, sequence_char radix c = true) text;
  sequence_nonempty : digits_of text ≠ [];
  sequence_size : vec_size text ≤ DigitLimit;
}.

Lemma valid_digit_not_special radix c :
  valid_digit radix c = true → char_eqb c "_" = false ∧ char_eqb c "." = false.
Proof.
  intros Hc.
  enough (negb (valid_digit radix c) || negb (char_eqb c "_" || char_eqb c ".") = true) as H.
  { rewrite Hc in H. cbn [negb orb] in H. by apply negb_true_iff, orb_false_iff in H. }
  clear Hc. revert c. apply forall_chars. destruct radix; vm_compute; reflexivity.
Qed.

Lemma digits_of_cons c text :
  digits_of (c :: text) =
    if char_eqb c "_" || char_eqb c "." then digits_of text else c :: digits_of text.
Proof.
  unfold digits_of, cleaned. cbn [List.filter]. by destruct (char_eqb c "_"), (char_eqb c ".").
Qed.

Lemma digits_of_app l1 l2 : digits_of (l1 ++ l2) = digits_of l1 ++ digits_of l2.
Proof. unfold digits_of, cleaned. apply List.filter_app. Qed.

Lemma digits_of_size text : vec_size (digits_of text) ≤ vec_size text.
Proof. unfold digits_of, cleaned, vec_size. pose proof (filter_length_le (λ c, negb (char_eqb c "_") && negb (char_eqb c ".")) text). lia. Qed.

Lemma sequence_valid radix text :
  Forall (λ c, sequence_char radix c = true) text → valid_digits radix (digits_of text).
Proof.
  induction 1 as [|c text Hc _ IH]; [constructor|]. rewrite digits_of_cons.
  unfold sequence_char in Hc. destruct (char_eqb c "_"); cbn [orb]; [done|].
  rewrite orb_false_r in Hc. destruct (char_eqb c "."); [done|by constructor].
Qed.

Lemma valid_digits_of radix text : valid_digits radix text → digits_of text = text.
Proof.
  induction 1 as [|c text Hc _ IH]; [done|]. rewrite digits_of_cons, IH.
  by destruct (valid_digit_not_special _ _ Hc) as [-> ->].
Qed.

Lemma separators_zero radix text :
  Forall (λ c, sequence_char radix c = true) text → separators text = 0 →
  valid_digits radix text.
Proof.
  unfold separators, vec_size. induction 1 as [|c text Hc _ IH]; [constructor|].
  cbn [List.filter]. unfold sequence_char in Hc.
  destruct (char_eqb_spec "_" c) as [<-|Hne]; cbn [length]; [lia|]. intros H.
  constructor; [|by apply IH]. destruct (char_eqb_spec c "_") as [->|]; [done|].
  by rewrite orb_false_r in Hc.
Qed.

Lemma separators_cons c text :
  separators (c :: text) = separators text + (if char_eqb c "_" then 1 else 0).
Proof.
  unfold separators, vec_size. cbn [List.filter].
  destruct (char_eqb_spec "_" c) as [<-|Hne].
  - change (char_eqb "_" "_") with true. cbn [length]. lia.
  - destruct (char_eqb_spec c "_") as [->|_]; [done|lia].
Qed.

Lemma sequence_separator radix : sequence_char radix "_" = true.
Proof. unfold sequence_char. apply orb_true_r. Qed.

(** All of the text is separators exactly when no digit is left. *)
Lemma separators_all radix text :
  Forall (λ c, sequence_char radix c = true) text →
  vec_size (digits_of text) = vec_size text - separators text.
Proof.
  unfold separators, vec_size. induction 1 as [|c text Hc _ IH]; [done|].
  rewrite digits_of_cons. cbn [List.filter length]. unfold sequence_char in Hc.
  destruct (char_eqb_spec c "_") as [->|Hne]; cbn [orb].
  - change (char_eqb "_" "_") with true. cbn [length]. lia.
  - destruct (char_eqb_spec "_" c) as [<-|_]; [done|].
    rewrite orb_false_r in Hc. destruct (valid_digit_not_special _ _ Hc) as [_ ->].
    cbn [length]. lia.
Qed.

(** * The checks *)

Section checks.
Context {S : Type}.
Implicit Types (s : S) (p : Parser).
#[local] Abbreviation yields := (@LexDiagnostics.yields S _).

Lemma check_digits_spec radix allow b i prev text n :
  yields (check_digits radix allow b i prev text n) (λ r w,
    match r with
    | Some n' => Forall (λ c, sequence_char radix c = true) text ∧
        n' = n + separators text ∧ (allow = false → w = [] → separators text = 0)
    | None => w ≠ []
    end).
Proof.
  revert i prev n. induction text as [|c text IH]; intros i prev n; cbn [check_digits].
  { apply yields_ret. split; [constructor|]. change (separators []) with 0. split; [lia|done]. }
  rewrite separators_cons. destruct (valid_digit radix c) eqn:Hc.
  - destruct (valid_digit_not_special _ _ Hc) as [-> _]. rewrite Z.add_0_r.
    eapply yields_mono; [apply IH|]. intros [n'|] w; [|done]. intros (H & -> & Ha).
    split; [|done]. constructor; [|done]. unfold sequence_char. by rewrite Hc.
  - destruct (char_eqb_spec c "_") as [->|Hne].
    + apply yields_bind. unfold when.
      destruct (negb allow || _ || _ || _) eqn:Ea; [apply yields_emit; intros d|apply yields_ret];
        (eapply yields_mono; [apply IH|]); intros [n'|] w; try done; cbn [app];
        intros (H & -> & _); (split; [constructor; [apply sequence_separator|done]|]);
        (split; [lia|]); [done|by intros ->].
    + apply yields_bind, yields_emit. intros d. by apply yields_ret.
Qed.

Lemma CheckDigitSequence_spec text radix allow :
  yields (CheckDigitSequence text radix allow) (λ '(ok, has_separators) w,
    if ok then digit_sequence radix (StringRef.chars text) ∧
      (has_separators = false → valid_digits radix (StringRef.chars text)) ∧
      (allow = false → w = [] → valid_digits radix (StringRef.chars text))
    else w ≠ []).
Proof.
  unfold CheckDigitSequence. apply yields_bind.
  eapply yields_mono; [apply check_digits_spec|]. intros [n|] w; cbn beta iota.
  2:{ intros Hw. apply yields_ret. by rewrite app_nil_r. }
  intros (Hs & -> & Ha). cbn [Z.add]. rewrite Z.add_0_l.
  pose proof (separators_all _ _ Hs) as Hn. unfold StringRef.size.
  destruct (Z.eqb_spec (separators (StringRef.chars text)) (vec_size (StringRef.chars text)))
    as [|Hne].
  { apply yields_bind, yields_emit. intros d. apply yields_ret. by destruct w. }
  apply yields_bind. unfold CanLexInt, StringRef.size.
  destruct (Z.ltb_spec DigitLimit (vec_size (StringRef.chars text))) as [|Hlim].
  { apply yields_bind, yields_emit. intros d. apply yields_ret. cbn [negb].
    apply yields_ret. by destruct w. }
  apply yields_ret. cbn [negb]. apply yields_ret. rewrite !app_nil_r.
  split; [|split].
  - split; [done| |done]. intros E. rewrite E in Hn. cbn in Hn.
    unfold vec_size in Hn at 1. cbn in Hn. lia.
  - intros H%negb_false_iff%Z.eqb_eq. by apply separators_zero.
  - intros Hf Hw. apply separators_zero; auto.
Qed.

(** The parser [p'] that passed the checks is [p] with its flags set. *)
Record checked p p' : Prop := {
  checked_parts : literal_ p' = literal_ p ∧ radix_ p' = radix_ p ∧
    int_part_ p' = int_part_ p ∧ fract_part_ p' = fract_part_ p ∧
    exponent_part_ p' = exponent_part_ p ∧
    exponent_is_negative_ p' = exponent_is_negative_ p;
  checked_int : digit_sequence (radix_ p) (StringRef.chars (int_part_ p));
  checked_int_clean : IsInt p = true → mantissa_needs_cleaning_ p' = false →
    valid_digits (radix_ p) (StringRef.chars (int_part_ p));
  checked_real : IsInt p = false → mantissa_needs_cleaning_ p' = true ∧
    digit_sequence (radix_ p) (StringRef.chars (fract_part_ p));
  checked_exponent : exponent_ (literal_ p) ≠ StringRef.size (text_ (literal_ p)) →
    vec_get (StringRef.chars (text_ (literal_ p))) (exponent_ (literal_ p)) =
      Ok (if bool_decide (radix_ p = Decimal) then "e" else "p")%char ∧
    digit_sequence Decimal (StringRef.chars (exponent_part_ p)) ∧
    (exponent_needs_cleaning_ p' = false →
      valid_digits Decimal (StringRef.chars (exponent_part_ p)));
}.

(** A real literal that passes silently is decimal or hexadecimal, with no
    separator in its fractional part. *)
Definition silent_real p : Prop :=
  IsInt p = false → (radix_ p = Decimal ∨ radix_ p = Hexadecimal) ∧
    valid_digits (radix_ p) (StringRef.chars (fract_part_ p)).

Lemma CheckLeadingZero_spec p :
  yields (CheckLeadingZero p) (λ ok w, if ok then w = [] else w ≠ []).
Proof.
  unfold CheckLeadingZero. case_match; [|by apply yields_ret].
  apply yields_bind, yields_emit. intros d. by apply yields_ret.
Qed.

Lemma CheckFractionalPart_spec p :
  yields (CheckFractionalPart p) (λ '(ok, p') w,
    if ok then
      (IsInt p = true ∧ p' = p ∨ IsInt p = false ∧ p' = set_mantissa_needs_cleaning true p ∧
        digit_sequence (radix_ p) (StringRef.chars (fract_part_ p))) ∧
      (w = [] → silent_real p)
    else w ≠ []).
Proof.
  unfold CheckFractionalPart, silent_real. destruct (IsInt p) eqn:Hint.
  { apply yields_ret. split; [by left|done]. }
  apply yields_bind. unfold when.
  destruct (bool_decide (radix_ p = Binary) || _) eqn:Er.
  - apply yields_emit. intros d. apply yields_bind.
    eapply yields_mono; [apply CheckDigitSequence_spec|]. intros [[] sep] w; [|intros _; by apply yields_ret].
    intros (H & _). apply yields_ret. cbn [app]. split; [|done]. right.
    split; [done|]. by split.
  - apply yields_ret, yields_bind.
    eapply yields_mono; [apply CheckDigitSequence_spec|]. intros [[] sep] w.
    2:{ intros Hw. apply yields_ret. by rewrite app_nil_r. }
    intros (H & _ & Hsilent). apply yields_ret. cbn [app]. rewrite app_nil_r. split.
    { right. split; [done|]. by split. }
    intros -> _. split; [|by apply Hsilent].
    apply orb_false_iff in Er as [E1%bool_decide_eq_false E2%bool_decide_eq_false].
    destruct (radix_ p); [done|done|by left|by right].
Qed.

Lemma CheckExponentPart_spec p :
  exponent_ (literal_ p) ≤ StringRef.size (text_ (literal_ p)) → 0 ≤ exponent_ (literal_ p) →
  yields (CheckExponentPart p) (λ '(ok, p') w,
    if ok then
      exponent_ (literal_ p) = StringRef.size (text_ (literal_ p)) ∧ p' = p ∨
      vec_get (StringRef.chars (text_ (literal_ p))) (exponent_ (literal_ p)) =
        Ok (if bool_decide (radix_ p = Decimal) then "e" else "p")%char ∧
      digit_sequence Decimal (StringRef.chars (exponent_part_ p)) ∧
      ∃ b, p' = set_exponent_needs_cleaning b p ∧
        (b = false → valid_digits Decimal (StringRef.chars (exponent_part_ p)))
    else w ≠ []).
Proof.
  intros Hle H0. unfold CheckExponentPart.
  destruct (Z.eqb_spec (exponent_ (literal_ p)) (StringRef.size (text_ (literal_ p)))) as [He|He].
  { apply yields_ret. by left. }
  destruct (vec_get_in_range (StringRef.chars (text_ (literal_ p))) (exponent_ (literal_ p)))
    as [c Hc]; [unfold StringRef.size in *; lia|].
  apply yields_bind. eapply yields_lift; [exact Hc|].
  set (e := if bool_decide _ then "e"%char else "p"%char).
  destruct (char_eqb_spec c e) as [->|Hne]; cbn [negb].
  - apply yields_bind. eapply yields_mono; [apply CheckDigitSequence_spec|].
    intros [[] sep] w. 2:{ intros Hw. apply yields_ret. by rewrite app_nil_r. }
    intros (H & Hsep & _). apply yields_ret. right. split; [|split; [done|by exists sep]].
    rewrite Hc. subst e. by destruct (bool_decide _).
  - apply yields_bind, yields_emit. intros d. by apply yields_ret.
Qed.

Lemma Check_spec p :
  exponent_ (literal_ p) ≤ StringRef.size (text_ (literal_ p)) → 0 ≤ exponent_ (literal_ p) →
  mantissa_needs_cleaning_ p = false →
  yields (Check_ p) (λ '(ok, p') w,
    if ok then checked p p' ∧ (w = [] → silent_real p) else w ≠ []).
Proof.
  intros Hle H0 Hm. unfold Check_. apply yields_bind.
  eapply yields_mono; [apply CheckLeadingZero_spec|]. intros [] w0 Hw0; cbn [negb].
  2:{ apply yields_ret. by rewrite app_nil_r. }
  subst w0. apply yields_bind. unfold CheckIntPart. apply yields_bind.
  eapply yields_mono; [apply CheckDigitSequence_spec|]. intros [ok1 sep1] w1 H1.
  apply yields_ret. cbv beta iota. destruct ok1; cbn [negb].
  2:{ apply yields_ret. by rewrite !app_nil_r. }
  destruct H1 as (Hint & Hsep & _). rewrite Hm. cbn [orb].
  apply yields_bind. eapply yields_mono; [apply CheckFractionalPart_spec|].
  intros [ok2 p2] w2 H2. cbv beta iota. destruct ok2; cbn [negb].
  2:{ apply yields_ret. destruct w1, w2; done. }
  destruct H2 as [H2 Hsilent].
  assert (literal_ p2 = literal_ p ∧ radix_ p2 = radix_ p ∧ int_part_ p2 = int_part_ p ∧
    fract_part_ p2 = fract_part_ p ∧ exponent_part_ p2 = exponent_part_ p ∧
    exponent_is_negative_ p2 = exponent_is_negative_ p) as (E1 & E2 & E3 & E4 & E5 & E6).
  { by destruct H2 as [[_ ->]|(_ & -> & _)]. }
  eapply yields_mono; [apply CheckExponentPart_spec; by rewrite E1|].
  intros [[] p3] w3 H3; [|by destruct w1, w2, w3].
  rewrite E1, E2, E5 in H3. rewrite app_nil_r, app_nil_l. split.
  2:{ intros [Hw1 [Hw2 _]%app_nil]%app_nil. by apply Hsilent. }
  assert (literal_ p3 = literal_ p2 ∧ radix_ p3 = radix_ p2 ∧ int_part_ p3 = int_part_ p2 ∧
    fract_part_ p3 = fract_part_ p2 ∧ exponent_part_ p3 = exponent_part_ p2 ∧
    exponent_is_negative_ p3 = exponent_is_negative_ p2 ∧
    mantissa_needs_cleaning_ p3 = mantissa_needs_cleaning_ p2) as
    (F1 & F2 & F3 & F4 & F5 & F6 & F7).
  { by destruct H3 as [[_ ->]|(_ & _ & b & -> & _)]. }
  split; [|done|..].
  - rewrite F1, F2, F3, F4, F5, F6. done.
  - intros Hi. rewrite F7. destruct H2 as [[_ ->]|(Hi' & _)]; [|unfold IsInt in *; cbn in *; congruence].
    cbn. done.
  - intros Hi. rewrite F7. destruct H2 as [[Hi' _]|(_ & -> & H)];
      [unfold IsInt in *; cbn in *; congruence|]. done.
  - intros He. destruct H3 as [[? _]|(Hc & Hd & b & -> & Hb)]; done.
Qed.
End checks.

(** * The values *)

Section values.
Context {Ops : APInts} {Laws : APIntLaws Ops}.

Lemma between_chars s A B C b e :
  StringRef.chars s = A ++ B ++ C → StringRef.size s < 2 ^ 31 →
  b = StringRef.begin s + vec_size A → e = b + vec_size B →
  StringRef.chars (StringRef.between s b e) = B.
Proof.
  intros E Hs -> ->. unfold StringRef.between, StringRef.size in *. rewrite E in Hs.
  rewrite !vec_size_app in Hs.
  pose proof (vec_size_nonneg A). pose proof (vec_size_nonneg B). pose proof (vec_size_nonneg C).
  rewrite StringRef.substr_all_in
    by (unfold StringRef.size; rewrite ?E, ?vec_size_app; lia).
  cbn [StringRef.chars]. rewrite E.
  replace (Z.to_nat (StringRef.begin s + vec_size A - StringRef.begin s)) with (length A)
    by (unfold vec_size; lia).
  replace (Z.to_nat _) with (length B) by (unfold vec_size; lia).
  by rewrite drop_app_length, take_app_length.
Qed.

(** A parsed value is not negative: its sign bit is clear. *)
Lemma holds_signed x v : holds x v 1 → getSExtValue x = v.
Proof.
  intros (E & _ & Hv). unfold getSExtValue, to_signed. rewrite E.
  by rewrite (proj2 (Z.ltb_lt _ _)) by lia.
Qed.

(** [ParseInt] of a checked digit sequence. *)
Lemma ParseInt_sequence text radix needs_cleaning :
  Forall (λ c, sequence_char radix c = true ∨ c = "."%char) text →
  vec_size (digits_of text) ≤ 20001 →
  (needs_cleaning = false → valid_digits radix text) →
  ∃ x, ParseInt text radix needs_cleaning true = Ok x ∧
    holds x (number radix (digits_of text)) 1.
Proof.
  intros Hs Hn Hc.
  assert (cleaned needs_cleaning text = digits_of text) as E.
  { destruct needs_cleaning; [done|]. by rewrite (valid_digits_of radix) by auto. }
  rewrite <- E in *. apply ParseInt_holds; [|done]. rewrite E. clear E Hn Hc.
  induction Hs as [|c text Hc _ IH]; [constructor|]. rewrite digits_of_cons.
  unfold sequence_char in Hc. destruct (char_eqb_spec c "_"); cbn [orb]; [done|].
  destruct (char_eqb_spec c "."); [done|]. constructor; [|done].
  destruct Hc as [Hc|Hc]; [by rewrite orb_false_r in Hc|done].
Qed.

(** [negate] of a parsed value, then the subtraction of the digits after the
    radix point: one bit is added exactly when the result needs it. *)
Definition widened (x : APInt) (negative : bool) : APInt :=
  if negative && negb (isNegative x) then setSignBit (zext x (getBitWidth x + 1)) else x.

Lemma getSExtValue_bits x :
  - 2 ^ (getBitWidth x - 1) ≤ getSExtValue x < 2 ^ (getBitWidth x - 1) ∧
  getSExtValue x mod 2 ^ getBitWidth x = getZExtValue x.
Proof.
  destruct (getZExtValue_range x) as [Hw Hv]. unfold getSExtValue, to_signed.
  assert (2 ^ getBitWidth x = 2 * 2 ^ (getBitWidth x - 1)) as Ep.
  { rewrite <- Z.pow_succ_r by lia. f_equal. lia. }
  destruct (Z.ltb_spec (getZExtValue x) (2 ^ (getBitWidth x - 1))).
  - split; [lia|]. apply Z.mod_small. lia.
  - split; [lia|]. rewrite <- (Z.mod_add _ 1), Z.mod_small by lia. lia.
Qed.

(** A signed value in range is what its bits say. *)
Lemma getSExtValue_unique x v :
  - 2 ^ (getBitWidth x - 1) ≤ v < 2 ^ (getBitWidth x - 1) →
  getZExtValue x = v mod 2 ^ getBitWidth x → getSExtValue x = v.
Proof.
  intros Hv E. destruct (getZExtValue_range x) as [Hw _].
  destruct (getSExtValue_bits x) as [Hr Em]. rewrite E in Em.
  assert (2 ^ getBitWidth x = 2 * 2 ^ (getBitWidth x - 1)) as Ep.
  { rewrite <- Z.pow_succ_r by lia. f_equal. lia. }
  rewrite Ep in Em. set (h := 2 ^ (getBitWidth x - 1)) in *.
  rewrite (Z.div_mod v (2 * h)), (Z.div_mod (getSExtValue x) (2 * h)), Em by lia.
  f_equal. f_equal.
  pose proof (Z.div_mod v (2 * h) ltac:(lia)).
  pose proof (Z.div_mod (getSExtValue x) (2 * h) ltac:(lia)).
  pose proof (Z.mod_pos_bound v (2 * h) ltac:(lia)). nia.
Qed.

Lemma lor_high v i : 0 ≤ i → 0 ≤ v < 2 ^ i → Z.lor v (2 ^ i) = v + 2 ^ i.
Proof.
  intros Hi Hv. rewrite <- Z.add_lor_land.
  replace (Z.land v (2 ^ i)) with 0; [lia|]. symmetry. apply Z.bits_inj'. intros n Hn.
  rewrite Z.land_spec, Z.bits_0, Z.pow2_bits_eqb by done.
  destruct (Z.eqb_spec i n) as [<-|]; [|apply andb_false_r].
  by rewrite <- (Z.mod_small v (2 ^ i)), Z.mod_pow2_bits_high by lia.
Qed.

Lemma subAssign_exponent x v excess negative :
  holds x v 1 → 0 ≤ excess < 2 ^ 62 → (negative = true → 0 < excess) →
  let y := subAssign (if negative then negate x else x) excess in
  64 ≤ getBitWidth y ∧
  getSExtValue (widened y negative) = (if negative then - v else v) - excess.
Proof.
  intros (Ex & Hw & Hv) He Hneg. cbn zeta. unfold IntStore.MinAPWidth in Hw.
  set (x1 := if negative then negate x else x). set (v1 := if negative then - v else v).
  set (w := getBitWidth x) in *.
  assert (getBitWidth x1 = w ∧ getZExtValue x1 = v1 mod 2 ^ w) as [W1 E1].
  { destruct (negate_spec x) as [Wn En]. pose proof (getZExtValue_range x).
    subst x1 v1. destruct negative; [by rewrite Wn, En, Ex|]. split; [done|].
    fold w in H. rewrite Z.mod_small; lia. }
  destruct (subAssign_spec x1 excess) as [W2 E2]. rewrite W1 in *. rewrite E1 in E2.
  set (y := subAssign x1 excess) in *.
  rewrite (Z.mod_small excess) in E2 by (change (2 ^ 64) with (4 * 2 ^ 62); lia).
  rewrite Zminus_mod_idemp_l in E2. split; [lia|].
  assert (2 ^ w = 2 * 2 ^ (w - 1)) as Ep.
  { rewrite <- Z.pow_succ_r by lia. f_equal. lia. }
  pose proof (Z.pow_le_mono_r 2 63 (w - 1) ltac:(lia) ltac:(lia)) as H63.
  change (2 ^ 63) with (2 * 2 ^ 62) in H63.
  unfold widened. destruct negative; cbn [andb] in *.
  2:{ subst v1. apply getSExtValue_unique; rewrite W2; [lia|done]. }
  specialize (Hneg eq_refl). subst v1.
  destruct (Z.leb_spec (- 2 ^ (w - 1)) (- v - excess)) as [Hfit|Hover].
  - assert (getSExtValue y = - v - excess) as Ey
      by (apply getSExtValue_unique; rewrite W2; [lia|done]).
    unfold isNegative. rewrite Ey. by rewrite (proj2 (Z.ltb_lt _ _)) by lia.
  - assert (getSExtValue y = - v - excess + 2 ^ w) as Ey.
    { apply getSExtValue_unique; rewrite W2; [lia|]. rewrite E2.
      rewrite <- (Z.mod_add (- v - excess) 1) by lia. f_equal. lia. }
    unfold isNegative. rewrite Ey. rewrite (proj2 (Z.ltb_ge _ _)) by lia. cbn [negb].
    assert (getZExtValue y = - v - excess + 2 ^ w) as Ezy.
    { rewrite E2, <- (Z.mod_add (- v - excess) 1) by lia. rewrite Z.mod_small; lia. }
    destruct (zext_spec y (getBitWidth y + 1)) as [Wz Ez]; [lia|].
    destruct (setSignBit_spec (zext y (getBitWidth y + 1))) as [Ws Es].
    rewrite Wz in Ws. rewrite Ez, Ezy, Wz, W2 in Es.
    replace (w + 1 - 1) with w in Es by lia.
    rewrite lor_high in Es by lia.
    apply getSExtValue_unique; rewrite Ws, W2; replace (w + 1 - 1) with w by lia; [lia|].
    rewrite Es, Z.pow_add_r by lia. rewrite <- (Z.mod_add (- v - excess) 1) by lia.
    rewrite Z.mod_small; lia.
Qed.

Section parsed.
Context (l : t) (p p' : Parser) (HD : divided l p) (HC : checked p p').
Context (Hsize : StringRef.size (text_ l) < 2 ^ 31).

Lemma checked_IsInt : IsInt p' = IsInt p.
Proof. unfold IsInt. by destruct (checked_parts _ _ HC) as (-> & _). Qed.

Definition mantissa_text : list char :=
  if IsInt p then StringRef.chars (int_part_ p)
  else StringRef.chars (int_part_ p) ++ "."%char :: StringRef.chars (fract_part_ p).

Lemma sequence_or_point radix text :
  Forall (λ c, sequence_char radix c = true) text →
  Forall (λ c, sequence_char radix c = true ∨ c = "."%char) text.
Proof. intros H. eapply Forall_impl; [exact H|]. by left. Qed.

Lemma digits_of_mantissa :
  digits_of mantissa_text = digits_of (StringRef.chars (int_part_ p)) ++
    (if IsInt p then [] else digits_of (StringRef.chars (fract_part_ p))).
Proof.
  unfold mantissa_text. destruct (IsInt p); [by rewrite app_nil_r|].
  by rewrite digits_of_app, digits_of_cons.
Qed.

Lemma GetMantissa_holds :
  ∃ x, GetMantissa p' = Ok x ∧ holds x (number (radix_ p) (digits_of mantissa_text)) 1.
Proof.
  destruct (checked_parts _ _ HC) as (El & Er & Ei & Ef & _).
  destruct (checked_int _ _ HC) as [Si _ Ni].
  pose proof (digits_of_size (StringRef.chars (int_part_ p))) as Di.
  unfold GetMantissa. rewrite checked_IsInt, El, Er, Ei, Ef.
  rewrite (divided_literal _ _ HD). set (b := StringRef.begin (int_part_ p)).
  assert (StringRef.chars (StringRef.between (text_ l) b
    (if IsInt p then StringRef.end_ (int_part_ p) else StringRef.end_ (fract_part_ p))) =
    mantissa_text) as ->.
  { unfold mantissa_text. pose proof (divided_begin _ _ HD) as Hb. fold b in Hb.
    destruct (IsInt p) eqn:Hint.
    - destruct (divided_int _ _ HD Hint) as [E _].
      eapply (between_chars _ _ _ []); [by rewrite app_nil_r|done|done|done].
    - destruct (divided_real _ _ HD Hint) as (tail & E & Hf & _).
      eapply (between_chars _ (radix_prefix (radix_ p)) _ tail);
        [by rewrite E, <- app_assoc|done|done|].
      unfold StringRef.end_. rewrite Hf. fold b. unfold StringRef.size, vec_size.
      rewrite length_app. cbn [length]. lia. }
  apply ParseInt_sequence; unfold mantissa_text; destruct (IsInt p) eqn:Hint.
  - by apply sequence_or_point.
  - destruct (checked_real _ _ HC Hint) as [_ [Sf _ _]].
    apply Forall_app. split; [by apply sequence_or_point|]. constructor; [by right|].
    by apply sequence_or_point.
  - unfold DigitLimit in *. lia.
  - destruct (checked_real _ _ HC Hint) as [_ [_ _ Nf]].
    rewrite digits_of_app, digits_of_cons, vec_size_app. cbn [orb char_eqb].
    change (char_eqb "." "_" || char_eqb "." ".") with true. cbn iota.
    pose proof (digits_of_size (StringRef.chars (fract_part_ p))). unfold DigitLimit in *. lia.
  - intros Hm. by apply (checked_int_clean _ _ HC Hint).
  - intros Hm. destruct (checked_real _ _ HC Hint). congruence.
Qed.

(** The exponent a digit of the fractional part stands for. *)
Definition point_shift (radix : Radix) : Z :=
  match radix with Hexadecimal => 4 | Octal => 3 | _ => 1 end.

Definition signed_number (negative : bool) (digits : list char) : Z :=
  if negative then - number Decimal digits else number Decimal digits.

Lemma GetExponent_value :
  IsInt p = false →
  ∃ e, GetExponent p' = Ok e ∧
    getSExtValue e =
      signed_number (exponent_is_negative_ p) (digits_of (StringRef.chars (exponent_part_ p))) -
      vec_size (StringRef.chars (fract_part_ p)) * point_shift (radix_ p).
Proof.
  intros Hint. destruct (checked_parts _ _ HC) as (El & Er & _ & Ef & Ee & En).
  destruct (checked_real _ _ HC Hint) as [_ [_ Hf Nf]].
  destruct (divided_real _ _ HD Hint) as (tail & _ & _ & Htail & _ & Hend).
  unfold GetExponent. rewrite Er, Ef, Ee, En.
  set (ep := StringRef.chars (exponent_part_ p)) in *. set (neg := exponent_is_negative_ p) in *.
  assert (∃ x, (if StringRef.empty (exponent_part_ p) then mret (makeAPInt IntStore.MinAPWidth 0)
     else exponent ← ParseInt ep Decimal (exponent_needs_cleaning_ p') true;
          mret (if neg then negate exponent else exponent)) = Ok (if neg then negate x else x) ∧
     holds x (number Decimal (digits_of ep)) 1) as (x & -> & Hx).
  { pose proof (checked_exponent _ _ HC) as Hce. rewrite (divided_literal _ _ HD) in Hce.
    fold ep in Hce. unfold StringRef.empty. fold ep. destruct ep as [|c ep'] eqn:Eep.
    - assert (tail = []) as ->.
      { apply Hend. destruct (Z.eq_dec (exponent_ l) (StringRef.size (text_ l))) as [|Hne]; [done|].
        destruct (Hce Hne) as (_ & [_ H _] & _). done. }
      inversion Htail as [Hneg _|]. rewrite Hneg. eexists. split; [reflexivity|].
      unfold holds, IntStore.MinAPWidth. destruct (makeAPInt_spec 64 0) as [-> ->]; [lia|]. done.
    - rewrite <- Eep in *.
      destruct (Z.eq_dec (exponent_ l) (StringRef.size (text_ l))) as [Heq|Hne].
      { apply Hend in Heq as ->. inversion Htail; congruence. }
      destruct (Hce Hne) as (_ & [Sc _ Nc] & Hclean).
      destruct (ParseInt_sequence ep Decimal (exponent_needs_cleaning_ p')) as (x & Hp & Hx);
        [by apply sequence_or_point| |done|].
      { pose proof (digits_of_size ep). unfold DigitLimit in *. lia. }
      exists x. rewrite Hp. done. }
  cbv [mbind Result_bind mret Result_ret].
  set (excess := match radix_ p with Octal => _ | Hexadecimal => _ | _ => _ end).
  assert (excess = vec_size (StringRef.chars (fract_part_ p)) * point_shift (radix_ p)) as ->.
  { subst excess. unfold StringRef.size, point_shift. destruct (radix_ p); lia. }
  assert (0 < vec_size (StringRef.chars (fract_part_ p))) as Hpos.
  { pose proof (digits_of_size (StringRef.chars (fract_part_ p))).
    destruct (digits_of (StringRef.chars (fract_part_ p))); [done|].
    unfold vec_size in *. cbn [length] in *. lia. }
  assert (1 ≤ point_shift (radix_ p) ≤ 4) by (unfold point_shift; destruct (radix_ p); lia).
  unfold DigitLimit in Nf.
  destruct (subAssign_exponent x _ (vec_size (StringRef.chars (fract_part_ p)) *
    point_shift (radix_ p)) neg Hx) as [Hw Hv]; [nia|nia|].
  rewrite (proj2 (Z.leb_le _ _) Hw). cbn [require].
  eexists. split; [reflexivity|]. exact Hv.
Qed.
End parsed.

(** What the text of a literal denotes, and when only a diagnostic does. *)
Inductive literal_value (text : list char) : Value → list LexDiagnostic → Prop :=
  | int_literal radix digits x w :
      text = radix_prefix radix ++ digits → digit_sequence radix digits →
      getSExtValue x = number radix (digits_of digits) →
      literal_value text (IntValue x) w
  | real_literal radix int_part fract_part tail negative exponent m e w :
      text = radix_prefix radix ++ int_part ++ "."%char :: fract_part ++ tail →
      exponent_text negative exponent tail →
      digit_sequence radix int_part → digit_sequence radix fract_part →
      (tail ≠ [] → digit_sequence Decimal exponent ∧
        head tail = Some (if bool_decide (radix = Decimal) then "e" else "p")%char) →
      getSExtValue m = number radix (digits_of int_part ++ digits_of fract_part) →
      getSExtValue e = signed_number negative (digits_of exponent) -
        vec_size fract_part * point_shift radix →
      (w = [] → (radix = Decimal ∨ radix = Hexadecimal) ∧ valid_digits radix fract_part) →
      literal_value text
        (RealValue (if bool_decide (radix = Decimal) then Decimal else Binary) m e) w
  | invalid_literal w : w ≠ [] → literal_value text UnrecoverableError w.

(** Which values a literal can have: an integer has no radix point. *)
Definition value_form (l : t) (v : Value) : Prop :=
  match v with
  | IntValue _ => radix_point_ l = StringRef.size (text_ l)
  | RealValue _ _ _ => radix_point_ l ≠ StringRef.size (text_ l)
  | UnrecoverableError => True
  end.

Lemma ComputeValue_denotes {S} src can_form_real_literal l :
  StringRef.size src < 2 ^ 31 →
  Lex src can_form_real_literal = Ok (Some l) →
  yields (S := S) (ComputeValue l)
    (λ v w, literal_value (StringRef.chars (text_ l)) v w ∧ value_form l v).
Proof.
  intros Hsrc Hlex. pose proof (Lex_shape src can_form_real_literal Hsrc) as H.
  rewrite Hlex in H. destruct H as (_ & Hwf & rest & Hrest & _).
  assert (StringRef.size (text_ l) < 2 ^ 31) as Hsize.
  { unfold StringRef.size in *. rewrite Hrest, vec_size_app in Hsrc.
    pose proof (vec_size_nonneg rest). lia. }
  pose proof (MakeParser_divided l Hwf Hsize) as HD. set (p := MakeParser l) in *.
  pose proof (divided_literal _ _ HD) as El. destruct (divided_clean _ _ HD) as [Hm _].
  assert (IsInt p = (radix_point_ l =? StringRef.size (text_ l))) as Hform
    by (unfold IsInt; by rewrite El).
  apply yields_bind. fold p.
  eapply yields_mono; [apply Check_spec; rewrite ?El; [by apply wf_exponent| |done]|].
  { destruct Hwf. lia. }
  intros [[] p'] w; cbn [negb]; [|intros Hw; apply yields_ret; rewrite app_nil_r;
    split; [by constructor|done]].
  intros [HC Hsilent]. destruct (checked_parts _ _ HC) as (_ & Er & _).
  destruct (GetMantissa_holds l p p' HD HC Hsize) as (x & Hx & Vx%holds_signed).
  rewrite (checked_IsInt _ _ HC), digits_of_mantissa in *.
  destruct (IsInt p) eqn:Hint.
  - apply yields_bind. eapply yields_lift; [exact Hx|]. apply yields_ret.
    split; [|by apply Z.eqb_eq].
    destruct (divided_int _ _ HD Hint) as [E _]. eapply int_literal; [exact E|apply HC|].
    by rewrite Vx, app_nil_r.
  - destruct (GetExponent_value l p p' HD HC Hint) as (e & He & Ve).
    apply yields_bind. eapply yields_lift; [exact Hx|].
    apply yields_bind. eapply yields_lift; [exact He|]. apply yields_ret.
    split; [|by apply Z.eqb_neq]. rewrite Er, app_nil_r. cbn [app].
    destruct (divided_real _ _ HD Hint) as (tail & E & _ & Htail & Et & Hend).
    eapply real_literal; [exact E|exact Htail|apply HC|by apply (checked_real _ _ HC)|
      |exact Vx|exact Ve|intros Hw; by apply Hsilent].
    intros Hne. pose proof (checked_exponent _ _ HC) as Hce. rewrite El in Hce.
    destruct Hce as (Hc & Hd & _); [by rewrite <- Hend|]. split; [done|].
    rewrite Et, (drop_cons_Z _ _ _ Hc). done.
Qed.

End values.

Definition sample_literal : StringRef.t := StringRef.mk 7 (str "0x1F.8p-2+1").

Definition sample_lexed : t :=
  {| text_ := StringRef.mk 7 (str "0x1F.8p-2"); radix_point_ := 4; exponent_ := 6 |}.

