(* ===== verification/StringLiterals.v ===== *)
(** String and character literals: [toolchain/lex/string_literal.{h,cpp}].
    [Lex] finds the extent of a literal, [ComputeStringValue] and
    [ComputeCharLiteralValue] expand its escape sequences into a buffer sized
    to its content. The Unicode conversions of [llvm/Support/ConvertUTF.h] are
    parameters. *)

From S2P Require Import Prelude Text LexDiagnostics.

(** [llvm::ConversionResult]. *)
Inductive ConversionResult : Set :=
  | conversionOK | sourceExhausted | targetExhausted | sourceIllegal.

(** [ConvertUTF32toUTF8] of one code point and [ConvertUTF8toUTF32] into a
    target of the given size, both strict, each with what it wrote. *)
Class ConvertUTF := {
  ConvertUTF32toUTF8 : Z → ConversionResult * list char;
  ConvertUTF8toUTF32 : list char → Z → ConversionResult * list Z;
}.

(** A Unicode scalar value: a code point that is not a surrogate. *)
Definition scalar_value (v : Z) : Prop := 0 ≤ v ≤ 0x10FFFF ∧ ¬ (0xD800 ≤ v < 0xE000).

(** What the header documents: a scalar value takes one to four code units,
    and a successful strict conversion to UTF-32 yields scalar values, none
    exactly when there is no input, and no more than fit. *)
Class ConvertUTFLaws `(ConvertUTF) := {
  ConvertUTF32toUTF8_scalar v : scalar_value v →
    ∃ bytes, ConvertUTF32toUTF8 v = (conversionOK, bytes) ∧ 1 ≤ vec_size bytes ≤ 4;
  ConvertUTF8toUTF32_ok s n units : 0 ≤ n → ConvertUTF8toUTF32 s n = (conversionOK, units) →
    Forall scalar_value units ∧ (units = [] ↔ s = []) ∧ vec_size units ≤ n;
}.

Module StringLiteral.

(** [StringLiteral::Kind]. *)
Inductive Kind : Set := Char | SingleLine | MultiLine | MultiLineWithDoubleQuotes.

#[global] Instance Kind_eq_dec : EqDecision Kind.
Proof. solve_decision. Defined.

(** The members of [StringLiteral]. *)
Record t := {
  text_ : StringRef.t;
  content_ : StringRef.t;
  content_needs_validation_ : bool;
  hash_level_ : Z;
  kind_ : Kind;
  is_terminated_ : bool;
  has_invalid_introducer_ : bool;
}.

Local Open Scope char_scope.
Local Open Scope Z_scope.

Definition Quote : char := "034".
Definition Apostrophe : char := "039".
Definition Backslash : char := "092".
Definition Newline : char := "010".
Definition Tab : char := "009".

Definition MultiLineIndicator : list char := [Apostrophe; Apostrophe; Apostrophe].
Definition DoubleQuotedMultiLineIndicator : list char := [Quote; Quote; Quote].

(** * [StringLiteral::Introducer] *)

Record Introducer := {
  kind : Kind;
  terminator : list char;
  prefix_size : Z;
  is_valid : bool;
}.

(** The comment loop of [Introducer::Lex]: what is left of the line before the
    first [//] that whitespace or the end of the line follows. *)
Fixpoint strip_comment (rest : list char) : list char :=
  match rest with
  | [] => []
  | c :: rest =>
      let starts_comment :=
        char_eqb c "/" &&
        match rest with
        | d :: after_slashes =>
            char_eqb d "/" &&
            match after_slashes with
            | [] => true
            | e :: _ => char_eqb e " " || char_eqb e Tab
            end
        | [] => false
        end in
      if starts_comment then [] else c :: strip_comment rest
  end.

(** [rest.trim(" \t")]. *)
Definition trim (rest : list char) : list char :=
  let blank c := char_eqb c " " || char_eqb c Tab in
  reverse (drop_while blank (reverse (drop_while blank rest))).

(** [Introducer::Lex]. *)
Definition LexIntroducer (source_text : list char) : option Introducer :=
  let multi_line :=
    if starts_with MultiLineIndicator source_text then Some (MultiLine, MultiLineIndicator)
    else if starts_with DoubleQuotedMultiLineIndicator source_text
    then Some (MultiLineWithDoubleQuotes, DoubleQuotedMultiLineIndicator)
    else None in
  let single_line :=
    match source_text with
    | c :: _ =>
        if char_eqb c Quote then
          Some {| kind := SingleLine; terminator := [Quote]; prefix_size := 1; is_valid := true |}
        else if char_eqb c Apostrophe then
          Some {| kind := Char; terminator := [Apostrophe]; prefix_size := 1; is_valid := true |}
        else None
    | [] => None
    end in
  match multi_line with
  | None => single_line
  | Some (k, indicator) =>
      let line_end :=
        (λ i, i + vec_size indicator) <$>
          find_if (char_eqb Newline) (drop (length indicator) source_text) in
      let valid :=
        match line_end with
        | None => None
        | Some line_end =>
            let rest := take (Z.to_nat (line_end - vec_size indicator))
                          (drop (length indicator) source_text) in
            let file_type := trim (strip_comment rest) in
            if existsb (λ c, char_eqb c Apostrophe || char_eqb c "#" || char_eqb c Quote)
                 file_type
            then None
            else Some {| kind := k; terminator := indicator; prefix_size := line_end + 1;
                         is_valid := true |}
        end in
      match valid with
      | Some introducer => Some introducer
      | None =>
          if bool_decide (k = MultiLine) then
            Some {| kind := k; terminator := indicator;
                    prefix_size :=
                      match line_end with None => vec_size source_text | Some n => n end;
                    is_valid := false |}
          else single_line
      end
  end.

(** * [StringLiteral::Lex] *)

Definition IsMultiLine (k : Kind) : bool :=
  bool_decide (k = MultiLine) || bool_decide (k = MultiLineWithDoubleQuotes).

(** The number of leading ['#']s. *)
Definition count_hashes (source_text : list char) : nat :=
  length (take_while (char_eqb "#") source_text).

Definition InterestingChars (c : char) : bool :=
  existsb (char_eqb c) [Backslash; Newline; Quote; Apostrophe; Tab].

Section scan.
Context (source_text : StringRef.t) (hash_level prefix_len : Z) (k : Kind).
Context (terminator escape : list char).

Definition unterminated (cursor : Z) (content_needs_validation : bool) : Result t :=
  let text := StringRef.take_front source_text cursor in
  content ← StringRef.drop_front text prefix_len;
  mret {| text_ := text; content_ := content;
          content_needs_validation_ := content_needs_validation;
          hash_level_ := hash_level; kind_ := k;
          is_terminated_ := false; has_invalid_introducer_ := false |}.

(** The scanning loop at [cursor], where [rest] starts. *)
Fixpoint scan (fuel : nat) (cursor : Z) (rest : list char) (content_needs_validation : bool)
    : Result t :=
  match fuel, rest with
  | O, _ => Err OutOfFuel
  | S _, [] => unterminated (StringRef.size source_text) content_needs_validation
  | S fuel, c :: rest' =>
      if negb (InterestingChars c) then scan fuel (cursor + 1) rest' content_needs_validation
      else if char_eqb c Tab then scan fuel (cursor + 1) rest' true
      else if char_eqb c Backslash then
        if (vec_size escape =? 1) || starts_with (drop 1 escape) rest' then
          let cursor := cursor + vec_size escape in
          match drop (length escape) rest with
          | [] => unterminated cursor true
          | escaped :: rest =>
              if negb (IsMultiLine k) && char_eqb escaped Newline
              then unterminated cursor true
              else scan fuel (cursor + 1) rest true
          end
        else scan fuel (cursor + 1) rest' content_needs_validation
      else if char_eqb c Newline then
        if negb (IsMultiLine k) then unterminated cursor content_needs_validation
        else scan fuel (cursor + 1) rest' content_needs_validation
      else if starts_with terminator rest then
        mret {| text_ := StringRef.substr source_text 0 (cursor + vec_size terminator);
                content_ := StringRef.substr source_text prefix_len (cursor - prefix_len);
                content_needs_validation_ := content_needs_validation;
                hash_level_ := hash_level; kind_ := k;
                is_terminated_ := true; has_invalid_introducer_ := false |}
      else scan fuel (cursor + 1) rest' content_needs_validation
  end.
End scan.

Definition hashes (n : nat) : list char := replicate n "#".

(** [StringLiteral::Lex]. *)
Definition Lex (source_text : StringRef.t) : Result (option t) :=
  let chars := StringRef.chars source_text in
  let hash_level := count_hashes chars in
  match LexIntroducer (drop hash_level chars) with
  | None => mret None
  | Some introducer =>
      let prefix_len := Z.of_nat hash_level + prefix_size introducer in
      if negb (is_valid introducer) then
        mret (Some
          {| text_ := StringRef.take_front source_text prefix_len;
             content_ := StringRef.mk 0 [];
             content_needs_validation_ := false;
             hash_level_ := Z.of_nat hash_level; kind_ := kind introducer;
             is_terminated_ := false; has_invalid_introducer_ := true |})
      else
        let rest := drop (Z.to_nat prefix_len) chars in
        literal ← scan source_text (Z.of_nat hash_level) prefix_len (kind introducer)
          (terminator introducer ++ hashes hash_level) (Backslash :: hashes hash_level)
          (length rest + 1) prefix_len rest false;
        mret (Some literal)
  end.

(** * Values *)

(** The loop of [ComputeIndentOfFinalLine] at index [i], over the reversed text
    up to [i]. *)
Fixpoint indent_loop (text : StringRef.t) (i indent_end : Z) (before : list char)
    : Result StringRef.t :=
  match before with
  | [] => Err FatalError
  | c :: before =>
      if char_eqb c Newline
      then mret (StringRef.substr text (i + 1) (indent_end - (i + 1)))
      else indent_loop text (i - 1) (if negb (IsSpace c) then i else indent_end) before
  end.
Definition ComputeIndentOfFinalLine (text : StringRef.t) : Result StringRef.t :=
  indent_loop text (StringRef.size text - 1) (StringRef.size text)
    (reverse (StringRef.chars text)).

Definition CheckIndent {S} (text content : StringRef.t) : Action S LexDiagnostic StringRef.t :=
  indent ← lift_result (λ _, ComputeIndentOfFinalLine text);
  when (negb (StringRef.end_ indent =? StringRef.end_ content))
    (LexEmit LexDiagnosticKind.ContentBeforeStringTerminator (StringRef.end_ indent) []) ;;
  mret indent.

Section expand.
Context {Utf : ConvertUTF} {S : Type}.

(** The output buffer holds [capacity] bytes; [buffer] is what has been
    written before [buffer_cursor]. A write past the end of the allocation is
    out of range. *)
Variable capacity : Z.

Definition write (buffer bytes : list char) : Result (list char) :=
  if vec_size buffer + vec_size bytes <=? capacity then Ok (buffer ++ bytes)
  else Err OutOfRange.

Definition AppendChar (buffer : list char) (append_char : char) : Result (list char) :=
  write buffer [append_char].

(** [AppendFrontOfContents]; no length is [npos]. *)
Definition AppendFrontOfContents (buffer contents : list char) (len_or_npos : option Z)
    : Result (list char) :=
  let len := match len_or_npos with None => length contents | Some n => Z.to_nat n end in
  write buffer (take len contents).

(** [digits.getAsInteger(16, unsigned)] of hexadecimal digits: no value when it
    does not fit. *)
Definition hexDigitValue (c : char) : Z :=
  if code c <=? code "9" then code c - code "0" else code c - code "A" + 10.
Definition getAsHex (digits : list char) : option Z :=
  let v := foldl (λ v c, 16 * v + hexDigitValue c) 0 digits in
  if v <? 2 ^ 32 then Some v else None.
Definition hexFromNibbles (msb lsb : char) : char :=
  ascii_of_N (Z.to_N ((16 * hexDigitValue msb + hexDigitValue lsb) mod 256)).

(** [ExpandUnicodeEscapeSequence]: whether it succeeded, and the buffer. *)
Definition ExpandUnicodeEscapeSequence (digits : StringRef.t) (buffer : list char)
    : Action S LexDiagnostic (bool * list char) :=
  can_lex ← CanLexInt digits;
  if negb can_lex then mret (false, buffer)
  else
    match getAsHex (StringRef.chars digits) with
    | None =>
        LexEmit LexDiagnosticKind.UnicodeEscapeTooLarge (StringRef.begin digits) [] ;;
        mret (false, buffer)
    | Some code_point =>
        if 0x10FFFF <? code_point then
          LexEmit LexDiagnosticKind.UnicodeEscapeTooLarge (StringRef.begin digits) [] ;;
          mret (false, buffer)
        else if (0xD800 <=? code_point) && (code_point <? 0xE000) then
          LexEmit LexDiagnosticKind.UnicodeEscapeSurrogate (StringRef.begin digits) [] ;;
          mret (false, buffer)
        else
          match ConvertUTF32toUTF8 code_point with
          | (conversionOK, bytes) =>
              buffer ← lift_result (λ _, write buffer bytes); mret (true, buffer)
          | _ => action_fail FatalError
          end
    end.

(** A view without its first bytes, as [drop_front] on a view known to be long
    enough. *)
Definition advance (s : StringRef.t) (n : nat) : StringRef.t :=
  StringRef.mk (StringRef.begin s + Z.of_nat n) (drop n (StringRef.chars s)).

(** [ExpandAndConsumeEscapeSequence]: the rest of the content and the buffer. *)
Definition ExpandAndConsumeEscapeSequence (content : StringRef.t) (buffer : list char)
    : Action S LexDiagnostic (StringRef.t * list char) :=
  match StringRef.chars content with
  | [] => action_fail CheckFailed
  | first :: rest =>
      let content := advance content 1 in
      let append c :=
        buffer ← lift_result (λ _, AppendChar buffer c); mret (content, buffer) in
      let unrecognized k loc args := LexEmit k loc args ;; append first in
      if char_eqb first "t" then append Tab
      else if char_eqb first "n" then append Newline
      else if char_eqb first "r" then append "013"
      else if char_eqb first Quote then append Quote
      else if char_eqb first Apostrophe then append Apostrophe
      else if char_eqb first Backslash then append Backslash
      else if char_eqb first "0" then
        buffer ← lift_result (λ _, AppendChar buffer "000");
        when (match rest with d :: _ => IsDecimalDigit d | [] => false end)
          (LexEmit LexDiagnosticKind.DecimalEscapeSequence (StringRef.begin content) []) ;;
        mret (content, buffer)
      else if char_eqb first "x" then
        match rest with
        | h :: l :: _ =>
            if IsUpperHexDigit h && IsUpperHexDigit l then
              buffer ← lift_result (λ _, AppendChar buffer (hexFromNibbles h l));
              mret (advance content 2, buffer)
            else unrecognized LexDiagnosticKind.HexadecimalEscapeMissingDigits
                   (StringRef.begin content) []
        | _ => unrecognized LexDiagnosticKind.HexadecimalEscapeMissingDigits
                 (StringRef.begin content) []
        end
      else if char_eqb first "u" then
        let missing := unrecognized LexDiagnosticKind.UnicodeEscapeMissingBracedDigits
                         (StringRef.begin content) [] in
        match StringRef.consume_front content (str "{") with
        | (false, _) => missing
        | (true, remaining) =>
            let digits := StringRef.mk (StringRef.begin remaining)
                            (take_while IsUpperHexDigit (StringRef.chars remaining)) in
            let remaining := advance remaining (length (StringRef.chars digits)) in
            match StringRef.consume_front remaining (str "}") with
            | (true, remaining) =>
                if negb (StringRef.empty digits) then
                  '(ok, buffer') ← ExpandUnicodeEscapeSequence digits buffer;
                  if negb ok then append first else mret (remaining, buffer')
                else missing
            | (false, _) => missing
            end
        end
      else unrecognized LexDiagnosticKind.UnknownEscapeSequence
             (StringRef.begin content - 1) [LexArgChar first]
  end.

(** The loop that drops unescaped whitespace from the end of the buffer, down
    to the size at the last escape. *)
Fixpoint trim_trailing (fuel : nat) (buffer : list char) (last_escape : Z) : list char :=
  match fuel with
  | O => buffer
  | Datatypes.S fuel =>
      if last_escape <? vec_size buffer then
        match last buffer with
        | Some back =>
            if char_eqb back Newline || negb (IsSpace back) then buffer
            else trim_trailing fuel (take (length buffer - 1) buffer) last_escape
        | None => buffer
        end
      else buffer
  end.

(** A character that ends a segment of regular text. *)
Definition ends_regular_text (c : char) : bool :=
  char_eqb c Newline || char_eqb c Backslash ||
  (IsHorizontalWhitespace c && negb (char_eqb c " ")).

(** The loop over one line: the contents left for the next line, if any, and
    the buffer. *)
Fixpoint expand_line (escape : list char) (fuel : nat) (contents : StringRef.t)
    (buffer : list char) (last_escape : Z)
    : Action S LexDiagnostic (option StringRef.t * list char) :=
  match fuel with
  | O => action_fail OutOfFuel
  | Datatypes.S fuel =>
      let end_of_regular_text := find_if ends_regular_text (StringRef.chars contents) in
      buffer ← lift_result (λ _,
        AppendFrontOfContents buffer (StringRef.chars contents) end_of_regular_text);
      match end_of_regular_text with
      | None => mret (None, buffer)
      | Some n =>
          let contents := advance contents (Z.to_nat n) in
          match StringRef.consume_front contents [Newline] with
          | (true, contents) =>
              buffer ← lift_result (λ _,
                AppendChar (trim_trailing (length buffer) buffer last_escape) Newline);
              mret (Some contents, buffer)
          | (false, _) =>
              front ← lift_result (λ _, StringRef.front contents);
              if IsHorizontalWhitespace front then
                check (negb (char_eqb front " ")) ;;
                let after_space :=
                  find_if_not IsHorizontalWhitespace (StringRef.chars contents) in
                let at_end :=
                  match after_space with
                  | None => true
                  | Some n => negb (starts_with [Newline]
                                (drop (Z.to_nat n) (StringRef.chars contents)))
                  end in
                buffer ←
                  (if at_end then
                     LexEmit LexDiagnosticKind.InvalidHorizontalWhitespaceInString
                       (StringRef.begin contents) [] ;;
                     lift_result (λ _,
                       AppendFrontOfContents buffer (StringRef.chars contents) after_space)
                   else mret buffer);
                let contents :=
                  match after_space with
                  | None => advance contents (length (StringRef.chars contents))
                  | Some n => advance contents (Z.to_nat n)
                  end in
                expand_line escape fuel contents buffer last_escape
              else
                match StringRef.consume_front contents escape with
                | (false, _) =>
                    buffer ← lift_result (λ _, AppendChar buffer front);
                    expand_line escape fuel (advance contents 1) buffer last_escape
                | (true, contents) =>
                    match StringRef.consume_front contents [Newline] with
                    | (true, contents) => mret (Some contents, buffer)
                    | (false, _) =>
                        '(contents, buffer) ← ExpandAndConsumeEscapeSequence contents buffer;
                        expand_line escape fuel contents buffer (vec_size buffer)
                    end
                end
          end
      end
  end.

(** The loop over the lines. *)
Fixpoint expand_lines (escape indent : list char) (fuel : nat) (contents : StringRef.t)
    (buffer : list char) : Action S LexDiagnostic (list char) :=
  match fuel with
  | O => action_fail OutOfFuel
  | Datatypes.S fuel =>
      contents ←
        (match StringRef.consume_front contents indent with
         | (true, contents) => mret contents
         | (false, _) =>
             let line_start := StringRef.begin contents in
             let contents := advance contents
               (length (take_while IsHorizontalWhitespace (StringRef.chars contents))) in
             when (negb (starts_with [Newline] (StringRef.chars contents)))
               (LexEmit LexDiagnosticKind.MismatchedIndentInString line_start []) ;;
             mret contents
         end);
      '(next, buffer) ← expand_line escape (length (StringRef.chars contents) + 1) contents
                          buffer (vec_size buffer);
      match next with
      | None => mret buffer
      | Some contents => expand_lines escape indent fuel contents buffer
      end
  end.

(** [ExpandEscapeSequencesAndRemoveIndent] into a fresh buffer. *)
Definition ExpandEscapeSequencesAndRemoveIndent (contents : StringRef.t) (hash_level : Z)
    (indent : list char) : Action S LexDiagnostic (list char) :=
  expand_lines (Backslash :: hashes (Z.to_nat hash_level)) indent
    (length (StringRef.chars contents) + 1) contents [].
End expand.

Section values.
Context {Utf : ConvertUTF} {S : Type}.

Definition IsControlCharacter (c : Z) : bool :=
  ((0 <=? c) && (c <=? 0x1F)) || ((0x7F <=? c) && (c <=? 0x9F)).

(** [ComputeCharLiteralValue]. *)
Definition ComputeCharLiteralValue (l : t) : Action S LexDiagnostic (option Z) :=
  check (bool_decide (kind_ l = Char)) ;;
  check (is_terminated_ l) ;;
  let text_begin := StringRef.begin (text_ l) in
  let content := StringRef.chars (content_ l) in
  when (negb (hash_level_ l =? 0))
    (LexEmit LexDiagnosticKind.CharLiteralRaw text_begin []) ;;
  result ← ExpandEscapeSequencesAndRemoveIndent (StringRef.size (content_ l)) (content_ l)
             (hash_level_ l) [];
  check (vec_size result <=? StringRef.size (content_ l)) ;;
  match ConvertUTF8toUTF32 result 1 with
  | (conversionOK, []) =>
      LexEmit LexDiagnosticKind.CharLiteralEmpty text_begin [] ;; mret None
  | (conversionOK, result :: _) =>
      is_control ←
        (if IsControlCharacter result then
           front ← lift_result (λ _, StringRef.front (content_ l));
           if char_eqb front Backslash then mret false
           else mret (negb (IsHorizontalWhitespace front))
         else mret false);
      if is_control : bool then
        LexEmit LexDiagnosticKind.CharLiteralControlCharacter text_begin [LexArgInt result] ;;
        mret None
      else if starts_with (str "\x") content then
        LexEmit LexDiagnosticKind.CharLiteralHexEscape text_begin [LexArgInt result] ;;
        mret None
      else mret (Some result)
  | (sourceExhausted, _) =>
      LexEmit LexDiagnosticKind.CharLiteralUnderflow text_begin [] ;; mret None
  | (targetExhausted, _) =>
      LexEmit LexDiagnosticKind.CharLiteralOverflow text_begin [] ;; mret None
  | (sourceIllegal, _) =>
      LexEmit LexDiagnosticKind.CharLiteralInvalidUTF8 text_begin [] ;; mret None
  end.

(** [ComputeStringValue]. *)
Definition ComputeStringValue (l : t) : Action S LexDiagnostic (list char) :=
  check (negb (bool_decide (kind_ l = Char))) ;;
  check (is_terminated_ l) ;;
  when (bool_decide (kind_ l = MultiLineWithDoubleQuotes))
    (LexEmit LexDiagnosticKind.MultiLineStringWithDoubleQuotes
       (StringRef.begin (text_ l)) []) ;;
  indent ←
    (if IsMultiLine (kind_ l) then
       indent ← CheckIndent (text_ l) (content_ l); mret (StringRef.chars indent)
     else mret []);
  if negb (content_needs_validation_ l) &&
     (negb (IsMultiLine (kind_ l)) || bool_decide (indent = []))
  then mret (StringRef.chars (content_ l))
  else
    result ← ExpandEscapeSequencesAndRemoveIndent (StringRef.size (content_ l)) (content_ l)
               (hash_level_ l) indent;
    check (vec_size result <=? StringRef.size (content_ l)) ;;
    mret result.
End values.
End StringLiteral.
