(* ===== verification/Utf8.v ===== *)
(** A concrete UTF-8 codec, which shows that the laws assumed of the
    conversions of [llvm/Support/ConvertUTF.h] can hold. *)

From S2P Require Import Prelude Text LexDiagnostics StringLiterals.

Module Utf8.

Definition byte (v : Z) : char := ascii_of_N (Z.to_N v).
Definition continuation (v : Z) : char := byte (0x80 + v mod 64).

Definition is_scalar (v : Z) : bool :=
  (0 <=? v) && (v <=? 0x10FFFF) && negb ((0xD800 <=? v) && (v <? 0xE000)).

Definition encode (v : Z) : ConversionResult * list char :=
  if negb (is_scalar v) then (sourceIllegal, [])
  else if v <? 0x80 then (conversionOK, [byte v])
  else if v <? 0x800 then (conversionOK, [byte (0xC0 + v / 64); continuation v])
  else if v <? 0x10000 then
    (conversionOK, [byte (0xE0 + v / 4096); continuation (v / 64); continuation v])
  else
    (conversionOK, [byte (0xF0 + v / 262144); continuation (v / 4096);
                    continuation (v / 64); continuation v]).

(** The bits of a continuation byte, if it is one. *)
Definition tail_bits (c : char) : option Z :=
  if (0x80 <=? code c) && (code c <=? 0xBF) then Some (code c - 0x80) else None.

(** A decoded value of the range of its length. *)
Definition legal (minimum v : Z) : bool := (minimum <=? v) && is_scalar v.

(** One more unit before the rest of the result. *)
Definition cons_unit (v : Z) (r : ConversionResult * list Z) : ConversionResult * list Z :=
  (r.1, v :: r.2).

Fixpoint decode (s : list char) (n : Z) : ConversionResult * list Z :=
  let emit minimum v s' (rest : Z → ConversionResult * list Z) :=
    if negb (legal minimum v) then (sourceIllegal, [])
    else if n <=? 0 then (targetExhausted, []) else cons_unit v (rest (n - 1)) in
  match s with
  | [] => (conversionOK, [])
  | a :: s1 =>
      if code a <? 0x80 then emit 0 (code a) s1 (decode s1)
      else if code a <? 0xC0 then (sourceIllegal, [])
      else match s1 with
      | [] => (sourceExhausted, [])
      | b :: s2 =>
          if code a <? 0xE0 then
            match tail_bits b with
            | Some x => emit 0x80 ((code a - 0xC0) * 64 + x) s2 (decode s2)
            | None => (sourceIllegal, [])
            end
          else match s2 with
          | [] => (sourceExhausted, [])
          | c :: s3 =>
              if code a <? 0xF0 then
                match tail_bits b, tail_bits c with
                | Some x, Some y =>
                    emit 0x800 ((code a - 0xE0) * 4096 + x * 64 + y) s3 (decode s3)
                | _, _ => (sourceIllegal, [])
                end
              else match s3 with
              | [] => (sourceExhausted, [])
              | d :: s4 =>
                  match tail_bits b, tail_bits c, tail_bits d with
                  | Some x, Some y, Some z =>
                      emit 0x10000 ((code a - 0xF0) * 262144 + x * 4096 + y * 64 + z) s4
                        (decode s4)
                  | _, _, _ => (sourceIllegal, [])
                  end
              end
          end
      end
  end.

#[global] Instance codec : ConvertUTF :=
  {| ConvertUTF32toUTF8 := encode; ConvertUTF8toUTF32 := decode |}.

Lemma is_scalar_value v : is_scalar v = true ↔ scalar_value v.
Proof. unfold is_scalar, scalar_value. rewrite !andb_true_iff, negb_true_iff, andb_false_iff. lia. Qed.

Lemma encode_scalar v :
  scalar_value v → ∃ bytes, encode v = (conversionOK, bytes) ∧ 1 ≤ vec_size bytes ≤ 4.
Proof.
  intros Hv%is_scalar_value. unfold encode. rewrite Hv. cbn [negb].
  destruct (v <? 0x80), (v <? 0x800), (v <? 0x10000);
    (eexists; split; [reflexivity|]; unfold vec_size; cbn; lia).
Qed.

(** What one unit followed by a successful conversion gives. *)
Definition good (s : list char) (n : Z) (r : ConversionResult * list Z) : Prop :=
  ∀ units, r = (conversionOK, units) →
    Forall scalar_value units ∧ (units = [] ↔ s = []) ∧ vec_size units ≤ n.

Lemma good_emit minimum v a s s' n (rest : Z → ConversionResult * list Z) :
  (∀ n, 0 ≤ n → good s' n (rest n)) →
  good (a :: s) n
    (if negb (legal minimum v) then (sourceIllegal, [])
     else if n <=? 0 then (targetExhausted, []) else cons_unit v (rest (n - 1))).
Proof.
  intros Hrest units. unfold legal. destruct (_ && is_scalar v) eqn:Hv; cbn [negb]; [|done].
  apply andb_true_iff in Hv as [_ Hv%is_scalar_value].
  destruct (Z.leb_spec n 0) as [|Hn]; [done|]. unfold cons_unit.
  pose proof (Hrest (n - 1) ltac:(lia)) as H. destruct (rest (n - 1)) as [r us]. cbn [fst snd].
  intros [= -> <-]. destruct (H us eq_refl) as (Hf & _ & Hl).
  split; [by constructor|]. split; [done|]. unfold vec_size in *. cbn [length]. lia.
Qed.

Lemma decode_good k s n : (length s < k)%nat → 0 ≤ n → good s n (decode s n).
Proof.
  revert s n. induction k as [|k IH]; intros s n Hk Hn; [lia|].
  assert (∀ a t m, good (a :: t) m (sourceIllegal, []) ∧ good (a :: t) m (sourceExhausted, []))
    as Hbad by done.
  destruct s as [|a s1]; cbn [decode].
  { intros units [= <-]. split; [constructor|]. split; [done|]. unfold vec_size. cbn. lia. }
  cbn [length] in Hk.
  destruct (code a <? 0x80). { apply (good_emit _ _ _ _ s1). intros m Hm. apply IH; [lia|done]. }
  destruct (code a <? 0xC0); [apply Hbad|].
  destruct s1 as [|b s2]; [apply Hbad|]. cbn [length] in Hk.
  destruct (code a <? 0xE0).
  { destruct (tail_bits b); [|apply Hbad]. apply (good_emit _ _ _ _ s2).
    intros m Hm. apply IH; [lia|done]. }
  destruct s2 as [|c s3]; [apply Hbad|]. cbn [length] in Hk.
  destruct (code a <? 0xF0).
  { destruct (tail_bits b), (tail_bits c); try apply Hbad. apply (good_emit _ _ _ _ s3).
    intros m Hm. apply IH; [lia|done]. }
  destruct s3 as [|d s4]; [apply Hbad|]. cbn [length] in Hk.
  destruct (tail_bits b), (tail_bits c), (tail_bits d); try apply Hbad.
  apply (good_emit _ _ _ _ s4). intros m Hm. apply IH; [lia|done].
Qed.

#[global] Instance codec_laws : ConvertUTFLaws codec.
Proof.
  split; [exact encode_scalar|]. intros s n units Hn E.
  apply (decode_good (S (length s)) s n); [lia|done|exact E].
Qed.

End Utf8.
