(* ===== verification/StringShape.v ===== *)
(** The extent of string literals: [StringLiteral::Lex] always returns, and a
    terminated literal is its introducer, a content without an unescaped
    terminator, and the terminator. *)

From S2P Require Import Prelude Text LexDiagnostics StringLiterals.
Import StringLiteral.

(** * Introducers *)

(** What an introducer spells after the hashes: the quotes, and for a block
    string the rest of its line. *)
Definition introducer_quotes (k : Kind) : list char :=
  match k with
  | Char => [Apostrophe]
  | SingleLine => [Quote]
  | MultiLine => MultiLineIndicator
  | MultiLineWithDoubleQuotes => DoubleQuotedMultiLineIndicator
  end.

Lemma find_if_spec p (s : list char) :
  match find_if p s with
  | None => Forall (λ c, p c = false) s
  | Some n => ∃ c rest, s = take (Z.to_nat n) s ++ c :: rest ∧ p c = true ∧
      Forall (λ c, p c = false) (take (Z.to_nat n) s) ∧ 0 ≤ n ∧ n = vec_size (take (Z.to_nat n) s)
  end.
Proof.
  induction s as [|c s IH]; cbn [find_if]; [constructor|].
  destruct (p c) eqn:Hc. { exists c, s. by repeat split. }
  destruct (find_if p s) as [n|]; cbn; [|by constructor].
  destruct IH as (d & rest & E & Hd & Hf & Hn & Hlen). exists d, rest.
  replace (Z.to_nat (n + 1)) with (S (Z.to_nat n)) by lia. cbn [take].
  split; [by rewrite <- app_comm_cons, <- E|]. split; [done|]. split; [by constructor|].
  split; [lia|]. unfold vec_size in *. cbn [length]. lia.
Qed.

Lemma find_if_range p (s : list char) n :
  find_if p s = Some n → 0 ≤ n < vec_size s.
Proof.
  intros E. pose proof (find_if_spec p s) as H. rewrite E in H.
  destruct H as (c & rest & Es & _ & _ & Hn & Hlen). split; [done|].
  rewrite Es, vec_size_app. unfold vec_size at 2. cbn [length]. lia.
Qed.

Lemma quotes_line k : Newline ∉ introducer_quotes k.
Proof. destruct k; cbn; set_solver. Qed.

Lemma line_of_find (s : list char) :
  Forall (λ c, char_eqb Newline c = false) s → Newline ∉ s.
Proof.
  intros H Hin. rewrite Forall_forall in H. specialize (H _ Hin).
  by rewrite char_eqb_refl in H.
Qed.

(** What [Introducer::Lex] returns. *)
Record introducer_shape (s : list char) (i : Introducer) : Prop := {
  shape_kind : starts_with (introducer_quotes (kind i)) s = true;
  shape_terminator : terminator i = introducer_quotes (kind i);
  shape_prefix : vec_size (introducer_quotes (kind i)) ≤ prefix_size i ≤ vec_size s;
  shape_line : is_valid i = true → IsMultiLine (kind i) = true →
    Newline ∈ take (Z.to_nat (prefix_size i)) s;
  shape_invalid : is_valid i = false → kind i = MultiLine ∧
    Newline ∉ take (Z.to_nat (prefix_size i)) s;
  shape_single : IsMultiLine (kind i) = false → is_valid i = true ∧ prefix_size i = 1;
}.

Lemma starts_with_single c s :
  starts_with [c] s = true ↔ ∃ s', s = c :: s'.
Proof. rewrite starts_with_spec. cbn. naive_solver. Qed.

(** The single-line forms. *)
Lemma single_line_shape s :
  match (match s with
    | c :: _ =>
        if char_eqb c Quote then
          Some {| kind := SingleLine; terminator := [Quote]; prefix_size := 1; is_valid := true |}
        else if char_eqb c Apostrophe then
          Some {| kind := Char; terminator := [Apostrophe]; prefix_size := 1; is_valid := true |}
        else None
    | [] => None
    end) with
  | Some i => introducer_shape s i
  | None => match s with c :: _ => c ≠ Quote ∧ c ≠ Apostrophe | [] => True end
  end.
Proof.
  destruct s as [|c s]; [done|].
  assert (1 ≤ vec_size (c :: s)) by (unfold vec_size; cbn [length]; lia).
  destruct (char_eqb_spec c Quote) as [->|H1]; [by split|].
  destruct (char_eqb_spec c Apostrophe) as [->|H2]; [by split|]. done.
Qed.

Lemma LexIntroducer_shape s :
  match LexIntroducer s with
  | Some i => introducer_shape s i
  | None => match s with c :: _ => c ≠ Quote ∧ c ≠ Apostrophe | [] => True end
  end.
Proof.
  unfold LexIntroducer. pose proof (single_line_shape s) as Hs.
  set (single := match s with [] => None | c :: _ => _ end) in *.
  assert (∀ k, IsMultiLine k = true → starts_with (introducer_quotes k) s = true →
    let indicator := introducer_quotes k in
    let line_end := (λ i, i + vec_size indicator) <$>
      find_if (char_eqb Newline) (drop (length indicator) s) in
    (∀ n, line_end = Some n → introducer_shape s
       {| kind := k; terminator := indicator; prefix_size := n + 1; is_valid := true |}) ∧
    (introducer_shape s {| kind := k; terminator := indicator;
       prefix_size := match line_end with None => vec_size s | Some n => n end;
       is_valid := false |} ∨ k ≠ MultiLine)) as Hmulti.
  { intros k Hk Hq. cbn zeta. set (ind := introducer_quotes k) in *.
    apply starts_with_spec in Hq as [rest ->]. rewrite drop_app_length.
    pose proof (vec_size_nonneg rest). pose proof (find_if_spec (char_eqb Newline) rest) as Hf.
    destruct (find_if (char_eqb Newline) rest) as [m|] eqn:E; cbn.
    - apply find_if_range in E as Hm. destruct Hf as (c & r & Er & Hc & Hline & _ & Hlen).
      split; [intros n [= <-]|destruct (decide (k = MultiLine)) as [Hkm|]; [left|by right]].
      all: split; cbn; fold ind; rewrite ?vec_size_app; try done; try lia.
      + apply starts_with_spec. by eexists.
      + intros _ _. apply char_eqb_eq in Hc as <-.
        replace (Z.to_nat (m + vec_size ind + 1)) with (length ind + (Z.to_nat m + 1))%nat
          by (unfold vec_size; lia).
        rewrite take_app_add. apply elem_of_app. right. rewrite Er at 1.
        rewrite take_app. apply elem_of_app. right.
        replace (Z.to_nat m + 1 - length (take (Z.to_nat m) rest))%nat with 1%nat
          by (unfold vec_size in Hlen; lia).
        cbn. set_solver.
      + congruence.
      + apply starts_with_spec. by eexists.
      + intros _. split; [done|].
        replace (Z.to_nat (m + vec_size ind)) with (length ind + Z.to_nat m)%nat
          by (unfold vec_size; lia).
        rewrite take_app_add, not_elem_of_app. split; [apply quotes_line|by apply line_of_find].
      + congruence.
    - split; [done|]. destruct (decide (k = MultiLine)) as [Hm|]; [left|by right].
      split; cbn; fold ind; rewrite ?vec_size_app; try done; try lia.
      + apply starts_with_spec. by eexists.
      + intros _. split; [done|].
        rewrite take_ge by (rewrite length_app; unfold vec_size; lia).
        rewrite not_elem_of_app. split; [apply quotes_line|by apply line_of_find].
      + congruence. }
  destruct (starts_with MultiLineIndicator s) eqn:E1;
    [|destruct (starts_with DoubleQuotedMultiLineIndicator s) eqn:E2; [|done]].
  - destruct (Hmulti MultiLine eq_refl E1) as [H1 H2]. cbn zeta in H1, H2.
    change (introducer_quotes MultiLine) with MultiLineIndicator in *.
    destruct ((λ i, i + vec_size MultiLineIndicator) <$> _) as [n|]; [|by destruct H2].
    destruct (existsb _ _); [by destruct H2|by apply H1].
  - destruct (Hmulti MultiLineWithDoubleQuotes eq_refl E2) as [H1 _]. cbn zeta in H1.
    change (introducer_quotes MultiLineWithDoubleQuotes) with DoubleQuotedMultiLineIndicator in *.
    destruct ((λ i, i + vec_size DoubleQuotedMultiLineIndicator) <$> _) as [n|]; [|done].
    destruct (existsb _ _); [done|by apply H1].
Qed.

(** * Scanned contents

    [scanned multi escape terminator needs body rest]: in the text
    [body ++ rest] the scanning loop gets to [rest] without finding the end of
    the literal. [needs] is whether it saw a tab or an escape sequence. *)
Inductive scanned (multi : bool) (escape terminator : list char)
    : bool → list char → list char → Prop :=
  | scanned_end rest : scanned multi escape terminator false [] rest
  | scanned_char c needs body rest :
      starts_with escape (c :: body ++ rest) = false →
      starts_with terminator (c :: body ++ rest) = false →
      (c = Newline → multi = true) →
      scanned multi escape terminator needs body rest →
      scanned multi escape terminator (char_eqb c Tab || needs) (c :: body) rest
  | scanned_escape e needs body rest :
      (e = Newline → multi = true) →
      scanned multi escape terminator needs body rest →
      scanned multi escape terminator true (escape ++ e :: body) rest.

Definition escape_of (hash_level : nat) : list char := Backslash :: hashes hash_level.
Definition terminator_of (k : Kind) (hash_level : nat) : list char :=
  introducer_quotes k ++ hashes hash_level.

Lemma escape_of_line h : Newline ∉ escape_of h.
Proof.
  unfold escape_of, hashes. rewrite not_elem_of_cons. split; [done|].
  by intros [? _]%elem_of_replicate.
Qed.

(** A terminator starts with a quote. *)
Lemma terminator_head k h :
  ∃ q more, terminator_of k h = q :: more ∧ (q = Quote ∨ q = Apostrophe).
Proof. destruct k; eexists _, _; (split; [reflexivity|by auto]). Qed.

Lemma starts_with_cons a l c s :
  starts_with (a :: l) (c :: s) = char_eqb a c && starts_with l s.
Proof. done. Qed.

Lemma starts_with_head a l c s : a ≠ c → starts_with (a :: l) (c :: s) = false.
Proof. intros H. cbn. by destruct (char_eqb_spec a c). Qed.

Section scan.
Context (source : StringRef.t) (h : nat) (k : Kind) (prefix_len : Z).
Context (Hsize : StringRef.size source < 2 ^ 31).

(** The shape of the literal [l] found after the [before] part of the source. *)
Record literal_shape (before rest : list char) (l : t) : Prop := {
  lit_hash_level : hash_level_ l = Z.of_nat h;
  lit_kind : kind_ l = k;
  lit_begin : StringRef.begin (text_ l) = StringRef.begin source;
  lit_valid : has_invalid_introducer_ l = false;
  lit_content_begin : StringRef.begin (content_ l) = StringRef.begin source + prefix_len;
  lit_terminated : is_terminated_ l = true → ∃ needs body after,
    rest = body ++ terminator_of k h ++ after ∧
    scanned (IsMultiLine k) (escape_of h) (terminator_of k h) needs body
      (terminator_of k h ++ after) ∧
    (content_needs_validation_ l = false → needs = false) ∧
    StringRef.chars (text_ l) = before ++ body ++ terminator_of k h ∧
    StringRef.chars (content_ l) = drop (Z.to_nat prefix_len) before ++ body;
  lit_unterminated : is_terminated_ l = false → ∃ body after,
    rest = body ++ after ∧ StringRef.chars (text_ l) = before ++ body ∧
    StringRef.chars (content_ l) = drop (Z.to_nat prefix_len) before ++ body ∧
    if IsMultiLine k then after = [] else Newline ∉ body;
}.

Lemma take_front_app before body after :
  StringRef.chars source = before ++ body ++ after →
  StringRef.take_front source (vec_size before + vec_size body) =
    StringRef.mk (StringRef.begin source) (before ++ body).
Proof.
  intros E. unfold StringRef.size in Hsize. rewrite E, !vec_size_app in Hsize.
  pose proof (vec_size_nonneg before). pose proof (vec_size_nonneg body).
  pose proof (vec_size_nonneg after). unfold StringRef.take_front.
  rewrite StringRef.substr_all_in by (unfold StringRef.size; rewrite ?E, ?vec_size_app; lia).
  f_equal; [lia|]. rewrite E, app_assoc. change (Z.to_nat 0) with 0%nat. rewrite drop_0.
  replace (Z.to_nat _) with (length (before ++ body)) by (rewrite length_app; unfold vec_size; lia).
  apply take_app_length.
Qed.

Lemma unterminated_shape before body after needs :
  StringRef.chars source = before ++ body ++ after → 0 ≤ prefix_len ≤ vec_size before →
  (if IsMultiLine k then after = [] else Newline ∉ body) →
  ∃ l, unterminated source (Z.of_nat h) prefix_len k (vec_size before + vec_size body) needs
         = Ok l ∧ literal_shape before (body ++ after) l.
Proof.
  intros E Hp Hend. unfold unterminated. rewrite (take_front_app _ _ _ E).
  unfold StringRef.size in Hsize. rewrite E, !vec_size_app in Hsize.
  pose proof (vec_size_nonneg body). pose proof (vec_size_nonneg after).
  set (text := StringRef.mk _ _). assert (StringRef.size text = vec_size before + vec_size body) as Hs.
  { unfold StringRef.size. cbn. apply vec_size_app. }
  unfold StringRef.drop_front. rewrite (proj2 (Z.leb_le _ _)) by lia.
  rewrite StringRef.substr_from_in by lia.
  eexists. split; [reflexivity|]. split; try done. intros _. exists body, after.
  split; [done|]. split; [done|]. split; [|exact Hend]. cbn.
  rewrite drop_app_le; [done|]. unfold vec_size in Hp. lia.
Qed.

(** Moving the first characters of the rest into the part before it. *)
Lemma literal_shape_char before c rest l :
  prefix_len ≤ vec_size before →
  starts_with (escape_of h) (c :: rest) = false →
  starts_with (terminator_of k h) (c :: rest) = false →
  (c = Newline → IsMultiLine k = true) →
  (c = Tab → content_needs_validation_ l = true) →
  literal_shape (before ++ [c]) rest l → literal_shape before (c :: rest) l.
Proof.
  intros Hp He Ht Hn Htab []. split; try done.
  - intros Hterm. destruct (lit_terminated0 Hterm) as (needs & body & after & -> & Hs & Hnv & Hx & Hc).
    exists (char_eqb c Tab || needs), (c :: body), after.
    split; [done|]. split; [by constructor|]. split.
    { intros H. rewrite (Hnv H). destruct (char_eqb_spec c Tab); [|done].
      rewrite Htab in H by done. done. }
    rewrite <- app_assoc in Hx. split; [done|]. rewrite Hc, drop_app_le, <- app_assoc; [done|].
    unfold vec_size in Hp. lia.
  - intros Hterm. destruct (lit_unterminated0 Hterm) as (body & after & -> & Hx & Hc & Hend).
    exists (c :: body), after. split; [done|]. rewrite <- app_assoc in Hx. split; [done|]. split.
    { rewrite Hc, drop_app_le, <- app_assoc; [done|]. unfold vec_size in Hp. lia. }
    destruct (IsMultiLine k); [done|]. rewrite not_elem_of_cons. split; [|done].
    intros <-. by specialize (Hn eq_refl).
Qed.

Lemma literal_shape_escape before e rest l :
  prefix_len ≤ vec_size before →
  (e = Newline → IsMultiLine k = true) →
  content_needs_validation_ l = true →
  literal_shape (before ++ escape_of h ++ [e]) rest l →
  literal_shape before (escape_of h ++ e :: rest) l.
Proof.
  intros Hp Hn Hneeds []. split; try done.
  - intros Hterm. destruct (lit_terminated0 Hterm) as (needs & body & after & -> & Hs & _ & Hx & Hc).
    exists true, (escape_of h ++ e :: body), after.
    split; [by rewrite <- app_assoc|]. split; [by econstructor|]. split; [congruence|].
    rewrite <- !app_assoc in Hx. split; [by rewrite Hx, <- app_assoc|].
    rewrite Hc, drop_app_le, <- !app_assoc; [done|]. unfold vec_size in Hp. lia.
  - intros Hterm. destruct (lit_unterminated0 Hterm) as (body & after & -> & Hx & Hc & Hend).
    exists (escape_of h ++ e :: body), after. split; [by rewrite <- app_assoc|].
    rewrite <- !app_assoc in Hx. split; [done|]. split.
    { rewrite Hc, drop_app_le, <- !app_assoc; [done|]. unfold vec_size in Hp. lia. }
    destruct (IsMultiLine k); [done|]. rewrite not_elem_of_app, not_elem_of_cons.
    split; [apply escape_of_line|]. split; [|done]. intros <-. by specialize (Hn eq_refl).
Qed.

(** The loop keeps the flag once it is set. *)
Lemma scan_needs fuel cursor rest l :
  scan source (Z.of_nat h) prefix_len k (terminator_of k h) (escape_of h) fuel cursor rest true
    = Ok l → content_needs_validation_ l = true.
Proof.
  assert (∀ c, unterminated source (Z.of_nat h) prefix_len k c true = Ok l →
    content_needs_validation_ l = true) as Hu.
  { unfold unterminated. intros c (x & _ & [= <-])%result_bind_Ok. done. }
  revert cursor rest. induction fuel as [|fuel IH]; intros cursor rest; [done|].
  cbn [scan]. destruct rest as [|c rest]; [apply Hu|].
  destruct (negb (InterestingChars c)); [apply IH|]. destruct (char_eqb c Tab); [apply IH|].
  destruct (char_eqb c Backslash).
  { destruct (_ || _); [|apply IH]. destruct (drop _ _) as [|e r]; [apply Hu|].
    destruct (_ && _); [apply Hu|apply IH]. }
  destruct (char_eqb c Newline); [destruct (negb _); [apply Hu|apply IH]|].
  destruct (starts_with _ _); [by intros [= <-]|apply IH].
Qed.

(** The test for an escape sequence at a backslash. *)
Lemma escape_test c rest :
  char_eqb c Backslash = true →
  (vec_size (escape_of h) =? 1) || starts_with (drop 1 (escape_of h)) rest =
    starts_with (escape_of h) (c :: rest).
Proof.
  intros ->%char_eqb_eq. unfold escape_of. cbn [drop]. rewrite starts_with_cons, char_eqb_refl.
  unfold vec_size, hashes. cbn [length]. rewrite length_replicate. destruct h; [done|].
  by destruct (Z.eqb_spec (Z.of_nat (S (S n))) 1); [lia|].
Qed.

Lemma scan_shape fuel before rest needs :
  (length rest < fuel)%nat →
  StringRef.chars source = before ++ rest → 0 ≤ prefix_len ≤ vec_size before →
  ∃ l, scan source (Z.of_nat h) prefix_len k (terminator_of k h) (escape_of h) fuel
         (vec_size before) rest needs = Ok l ∧ literal_shape before rest l.
Proof.
  revert before rest needs. induction fuel as [|fuel IH]; intros before rest needs Hf E Hp; [lia|].
  assert (∀ c rest' needs', rest = c :: rest' →
    starts_with (escape_of h) (c :: rest') = false →
    starts_with (terminator_of k h) (c :: rest') = false →
    (c = Newline → IsMultiLine k = true) → (c = Tab → needs' = true) →
    ∃ l, scan source (Z.of_nat h) prefix_len k (terminator_of k h) (escape_of h) fuel
      (vec_size before + 1) rest' needs' = Ok l ∧ literal_shape before rest l) as step.
  { intros c rest' needs' -> He Ht Hn Htab. cbn [length] in Hf.
    destruct (IH (before ++ [c]) rest' needs') as (l & Hl & Hs);
      [lia|by rewrite <- app_assoc|rewrite vec_size_app; unfold vec_size in *; cbn; lia|].
    rewrite vec_size_app in Hl. exists l. split; [exact Hl|].
    apply literal_shape_char; try done; [lia|]. intros Hc. rewrite (Htab Hc) in Hl.
    by eapply scan_needs. }
  destruct (terminator_head k h) as (q & more & Eq & Hq).
  cbn [scan]. destruct rest as [|c rest].
  { destruct (unterminated_shape before [] [] needs) as (l & Hl & Hs); [done|done| |].
    { destruct (IsMultiLine k); [done|]. apply not_elem_of_nil. }
    exists l. split; [|done]. rewrite <- Hl. f_equal. unfold StringRef.size.
    rewrite E, app_nil_r. unfold vec_size. cbn. lia. }
  assert (∀ d, c ≠ d → (d = Quote ∨ d = Apostrophe) → c ≠ d) as _ by done.
  destruct (InterestingChars c) eqn:Hi; cbn [negb].
  2:{ assert (c ≠ Backslash ∧ c ≠ Newline ∧ c ≠ Quote ∧ c ≠ Apostrophe ∧ c ≠ Tab) as Hc.
      { repeat split; intros ->; vm_compute in Hi; done. }
      eapply step; [done|apply starts_with_head; naive_solver|
        rewrite Eq; apply starts_with_head; naive_solver|naive_solver|naive_solver]. }
  destruct (char_eqb_spec c Tab) as [->|Htab].
  { eapply step; [done|done|rewrite Eq; apply starts_with_head; destruct Hq as [-> | ->]; done
      |done|done]. }
  destruct (char_eqb c Backslash) eqn:Hb.
  - rewrite (escape_test c) by done. apply char_eqb_eq in Hb as ->.
    destruct (starts_with (escape_of h) (Backslash :: rest)) eqn:He.
    2:{ eapply step; [done|done|rewrite Eq; apply starts_with_head; destruct Hq as [-> | ->]; done
          |done|done]. }
    apply starts_with_spec in He as [r Er]. rewrite Er, drop_app_length.
    rewrite Er in E, Hf. destruct r as [|e r].
    + rewrite app_nil_r in *.
      destruct (unterminated_shape before (escape_of h) [] true) as (l & Hl & Hs);
        [by rewrite app_nil_r|done| |rewrite app_nil_r in Hs; by exists l].
      destruct (IsMultiLine k); [done|]. apply escape_of_line.
    + destruct (negb (IsMultiLine k) && char_eqb e Newline) eqn:Hn.
      * destruct (unterminated_shape before (escape_of h) (e :: r) true) as (l & Hl & Hs);
          [done|done| |by exists l].
        apply andb_true_iff in Hn as [Hn _]. apply negb_true_iff in Hn. rewrite Hn.
        apply escape_of_line.
      * rewrite length_app in Hf. cbn [length] in Hf.
        destruct (IH (before ++ escape_of h ++ [e]) r true) as (l & Hl & Hs);
          [lia|by rewrite E, <- !app_assoc|rewrite !vec_size_app;
            pose proof (vec_size_nonneg (escape_of h)); unfold vec_size in *; cbn; lia|].
        rewrite !vec_size_app, Z.add_assoc in Hl. exists l. split; [exact Hl|].
        apply literal_shape_escape; [lia| |by eapply scan_needs|done].
        intros ->. rewrite char_eqb_refl, andb_true_r in Hn. by apply negb_false_iff in Hn.
  - assert (starts_with (escape_of h) (c :: rest) = false) as He.
    { apply starts_with_head. intros <-. by rewrite char_eqb_refl in Hb. }
    destruct (char_eqb_spec c Newline) as [->|Hnl].
    { destruct (IsMultiLine k) eqn:Hm; cbn [negb].
      - eapply step; [done|done|rewrite Eq; apply starts_with_head; destruct Hq as [-> | ->]; done
          |done|done].
      - destruct (unterminated_shape before [] (Newline :: rest) needs) as (l & Hl & Hs);
          [done|done|rewrite Hm; apply not_elem_of_nil|].
        exists l. split; [|done]. rewrite <- Hl. f_equal. unfold vec_size. cbn. lia. }
    destruct (starts_with (terminator_of k h) (c :: rest)) eqn:Ht.
    2:{ eapply step; done. }
    apply starts_with_spec in Ht as [after Ea]. eexists. split; [reflexivity|].
    rewrite Ea in E.
    pose proof (vec_size_nonneg (terminator_of k h)). pose proof (vec_size_nonneg after).
    assert (StringRef.size source =
      vec_size before + vec_size (terminator_of k h) + vec_size after) as Hsz.
    { unfold StringRef.size. rewrite E, !vec_size_app. lia. }
    pose proof Hsize as Hbound. rewrite Hsz in Hbound.
    pose proof (take_front_app before (terminator_of k h) after E) as Htf.
    unfold StringRef.take_front in Htf.
    split; cbn [hash_level_ kind_ text_ has_invalid_introducer_ content_ is_terminated_]; try done.
    + by rewrite Htf.
    + rewrite StringRef.substr_all_in by lia. done.
    + intros _. exists false, [], after. split; [done|]. split; [constructor|]. split; [done|].
      rewrite Htf. split; [done|]. rewrite StringRef.substr_all_in by lia. cbn [StringRef.chars].
      rewrite E, drop_app_le, app_nil_r by (unfold vec_size in *; lia).
      rewrite take_app_le by (rewrite length_drop; unfold vec_size in *; lia).
      apply take_ge. rewrite length_drop. unfold vec_size in *. lia.
Qed.
End scan.

(** * [Lex] *)

Lemma count_hashes_split s :
  s = hashes (count_hashes s) ++ drop (count_hashes s) s ∧
  match drop (count_hashes s) s with c :: _ => c ≠ "#"%char | [] => True end.
Proof.
  unfold count_hashes, hashes. induction s as [|c s [IH1 IH2]]; [done|].
  cbn [take_while]. destruct (char_eqb_spec "#" c) as [<-|Hne].
  - cbn [length replicate drop app]. by split; [f_equal|].
  - cbn. by split; [|congruence].
Qed.

(** The opening of a literal after its hashes, of its kind: the quotes, and for
    a block string the rest of the line. *)
Definition opening_of (k : Kind) (opening : list char) : Prop :=
  starts_with (introducer_quotes k) opening = true ∧
  if IsMultiLine k then Newline ∈ opening else opening = introducer_quotes k.

(** The literals [Lex] returns from [src]. *)
Inductive lexed_string (src : StringRef.t) (l : t) : Prop :=
  | invalid_introducer after :
      has_invalid_introducer_ l = true → is_terminated_ l = false → kind_ l = MultiLine →
      StringRef.begin (text_ l) = StringRef.begin src →
      text_ l ≠ StringRef.mk (StringRef.begin src) [] →
      StringRef.chars src = StringRef.chars (text_ l) ++ after →
      Newline ∉ StringRef.chars (text_ l) →
      lexed_string src l
  | valid_introducer h opening rest :
      opening_of (kind_ l) opening →
      StringRef.chars src = (hashes h ++ opening) ++ rest →
      literal_shape src h (kind_ l) (vec_size (hashes h ++ opening)) (hashes h ++ opening)
        rest l →
      lexed_string src l.

Lemma starts_with_prefix p s n :
  starts_with p s = true → vec_size p ≤ n → starts_with p (take (Z.to_nat n) s) = true.
Proof.
  intros [r ->]%starts_with_spec Hn. rewrite take_app_ge by (unfold vec_size in Hn; lia).
  apply starts_with_spec. by eexists.
Qed.

Lemma introducer_opening s i :
  introducer_shape s i → is_valid i = true →
  opening_of (kind i) (take (Z.to_nat (prefix_size i)) s).
Proof.
  intros [Hk _ Hp Hl _ Hs] Hv. unfold opening_of. split; [apply starts_with_prefix; [done|lia]|].
  destruct (IsMultiLine (kind i)) eqn:Hm; [by apply Hl|].
  destruct (Hs eq_refl) as [_ ->]. apply starts_with_spec in Hk as [r ->].
  by destruct (kind i).
Qed.

Lemma Lex_lexed_string src :
  StringRef.size src < 2 ^ 31 →
  match Lex src with
  | Err _ => False
  | Ok None => ∃ h rest, StringRef.chars src = hashes h ++ rest ∧
      match rest with c :: _ => c ∉ ["#"%char; Quote; Apostrophe] | [] => True end
  | Ok (Some l) => lexed_string src l
  end.
Proof.
  intros Hsize. unfold Lex. set (s := StringRef.chars src).
  destruct (count_hashes_split s) as [Es Hh]. set (h := count_hashes s) in *.
  pose proof (LexIntroducer_shape (drop h s)) as Hi.
  destruct (LexIntroducer (drop h s)) as [i|].
  2:{ exists h, (drop h s). split; [done|]. destruct (drop h s); [done|].
      rewrite !not_elem_of_cons. repeat split; try naive_solver. apply not_elem_of_nil. }
  assert (vec_size s = Z.of_nat h + vec_size (drop h s)) as Hn.
  { rewrite Es at 1. rewrite vec_size_app. unfold vec_size at 1, hashes.
    by rewrite length_replicate. }
  unfold StringRef.size in Hsize. fold s in Hsize.
  pose proof (shape_prefix _ _ Hi) as Hp. pose proof (vec_size_nonneg (introducer_quotes (kind i))).
  set (n := prefix_size i) in *.
  set (opening := take (Z.to_nat n) (drop h s)).
  assert (vec_size (hashes h ++ opening) = Z.of_nat h + n) as Hlen.
  { rewrite vec_size_app. unfold hashes, vec_size at 1. rewrite length_replicate.
    subst opening. unfold vec_size in *. rewrite length_take. lia. }
  set (rest := drop (Z.to_nat (Z.of_nat h + n)) s).
  assert (s = (hashes h ++ opening) ++ rest) as Eo.
  { rewrite Es at 1. rewrite <- app_assoc. f_equal. subst opening rest.
    replace (Z.to_nat (Z.of_nat h + n)) with (h + Z.to_nat n)%nat by lia.
    rewrite <- drop_drop. by rewrite take_drop. }
  destruct (is_valid i) eqn:Hv; cbn [negb].
  - destruct (scan_shape src h (kind i) (Z.of_nat h + n) ltac:(done) (length rest + 1)
      (hashes h ++ opening) rest false) as (l & Hl & Hs); [lia|done|lia|].
    rewrite Hlen in Hl. rewrite (shape_terminator _ _ Hi).
    unfold terminator_of, escape_of in Hl. rewrite Hl. cbn.
    pose proof (lit_kind _ _ _ _ _ _ _ Hs) as Hk.
    eapply (valid_introducer _ _ h opening rest); [by rewrite Hk; apply introducer_opening|done|].
    rewrite Hlen, Hk. done.
  - pose proof (take_front_app src Hsize (hashes h) opening rest) as Htf.
    rewrite vec_size_app in Hlen. fold s in Htf. rewrite app_assoc, Hlen in Htf.
    cbv [mret Result_ret]. rewrite (Htf Eo).
    eapply (invalid_introducer _ _ rest); cbn; try done.
    + by apply Hi.
    + intros [= H0]. apply (f_equal vec_size) in H0. rewrite vec_size_app in H0.
      rewrite Hlen in H0. unfold vec_size at 1 in H0. cbn in H0.
      rewrite (proj1 (shape_invalid _ _ Hi Hv)) in *. unfold introducer_quotes, MultiLineIndicator in *.
      unfold vec_size in Hp at 1. cbn in Hp. lia.
    + rewrite not_elem_of_app. split; [by intros [? _]%elem_of_replicate|].
      apply (shape_invalid _ _ Hi Hv).
Qed.

(** C35. [StringLiteral::Lex] always returns. It finds a literal exactly when a
    quote follows the leading hashes. A literal with a valid introducer is
    either terminated, and then its text is its hashes, its opening quotes, the
    content up to the first terminator that no escape sequence covers, and that
    terminator with as many hashes, with no line break in the content of a
    single-line literal; or it is unterminated and its text is a prefix of the
    source. The content starts right after the opening, and the validation flag
    is set whenever it has a tab or an escape sequence. *)
Theorem string_literal_extent src :
  StringRef.size src < 2 ^ 31 →
  match Lex src with
  | Err _ => False
  | Ok None => ∃ h rest, StringRef.chars src = hashes h ++ rest ∧
      match rest with c :: _ => c ∉ ["#"%char; Quote; Apostrophe] | [] => True end
  | Ok (Some l) => lexed_string src l
  end.
Proof. exact (Lex_lexed_string src). Qed.

Definition sample_string : StringRef.t :=
  StringRef.mk 4 (str "#'''py" ++ [Newline] ++ str " \t\#t" ++ [Newline] ++ str " '''# + 1").

Lemma string_literal_extent_witness :
  StringRef.size sample_string < 2 ^ 31 ∧
  match Lex sample_string with
  | Err _ => False
  | Ok None => ∃ h rest, StringRef.chars sample_string = hashes h ++ rest ∧
      match rest with c :: _ => c ∉ ["#"%char; Quote; Apostrophe] | [] => True end
  | Ok (Some l) => lexed_string sample_string l
  end.
Proof. split; [reflexivity|by apply string_literal_extent]. Defined.
