(* ===== verification/StringValues.v ===== *)
(** The values of string and character literals: the checks of
    [ExpandEscapeSequencesAndRemoveIndent] hold and its output fits the buffer,
    on every literal [Lex] accepts; the path that returns the content as it is
    agrees with it; and every byte string can be written as a literal. *)

From S2P Require Import Prelude Text LexDiagnostics StringLiterals StringShape.
Import StringLiteral.

(** * Contents *)

Section contents.
Context (multi : bool) (h : nat) (k : Kind).
#[local] Abbreviation scanned := (scanned multi (escape_of h) (terminator_of k h)).

(** Characters other than a backslash can be taken off the front. *)
Lemma scanned_drop w needs body rest :
  Forall (λ c, c ≠ Backslash) w → scanned needs (w ++ body) rest →
  ∃ needs', scanned needs' body rest.
Proof.
  intros Hw. revert needs. induction Hw as [|c w Hc _ IH]; intros needs Hs; [by exists needs|].
  inversion Hs as [|c' needs' b r H1 H2 H3 H4|e needs' b r H1 H2 Heq].
  - by eapply IH.
  - unfold escape_of in *. simplify_eq/=.
Qed.

Lemma scanned_tail c needs body rest :
  c ≠ Backslash → scanned needs (c :: body) rest → ∃ needs', scanned needs' body rest.
Proof. intros Hc. apply (scanned_drop [c]). by repeat constructor. Qed.

(** An escape sequence of the contents is complete: it does not run into the
    terminator. *)
Lemma starts_with_escape body rest :
  starts_with (escape_of h) (body ++ terminator_of k h ++ rest) = true →
  starts_with (escape_of h) body = true.
Proof.
  destruct (terminator_head k h) as (q & more & -> & Hq). unfold escape_of, hashes.
  destruct body as [|c body]; cbn.
  { rewrite andb_true_iff, char_eqb_eq. intros [<- _]. by destruct Hq. }
  rewrite !andb_true_iff. intros [Hc H]. split; [done|].
  revert body H. induction h as [|n IH]; intros body H; [done|]. cbn [replicate] in *.
  destruct body as [|d body]; cbn in *; rewrite andb_true_iff, char_eqb_eq in H.
  - destruct H as [<- _]. by destruct Hq.
  - apply andb_true_iff. destruct H as [Hd H]. split; [by apply char_eqb_eq|]. by apply IH.
Qed.

(** At a backslash: either an escape sequence with the character it escapes,
    or a plain backslash. *)
Lemma scanned_backslash needs body rest :
  scanned needs (Backslash :: body) (terminator_of k h ++ rest) →
  (∃ e body' needs', Backslash :: body = escape_of h ++ e :: body' ∧
     (e = Newline → multi = true) ∧ scanned needs' body' (terminator_of k h ++ rest)) ∨
  (starts_with (escape_of h) (Backslash :: body) = false ∧
     ∃ needs', scanned needs' body (terminator_of k h ++ rest)).
Proof.
  intros Hs. inversion Hs as [|c needs' b r H1 H2 H3 H4|e needs' b r H1 H2]; subst.
  - right. split; [|by exists needs']. apply not_true_iff_false. intros Hw.
    apply not_true_iff_false in H1. apply H1.
    apply starts_with_spec in Hw as [x Hx]. apply starts_with_spec.
    exists (x ++ terminator_of k h ++ rest). by rewrite app_comm_cons, Hx, <- app_assoc.
  - left. exists e, b, needs'. done.
Qed.
End contents.

(** * The expansion *)

Section expand.
Context {Utf : ConvertUTF} {Laws : ConvertUTFLaws Utf} {S : Type} (capacity : Z).
#[local] Abbreviation yields := (@LexDiagnostics.yields S _).
Implicit Types (contents : StringRef.t) (buffer : list char).

Definition room buffer contents : Prop :=
  vec_size buffer + StringRef.size contents ≤ capacity.

Lemma write_ok buffer bytes :
  vec_size buffer + vec_size bytes ≤ capacity →
  write capacity buffer bytes = Ok (buffer ++ bytes).
Proof. intros H. unfold write. by rewrite (proj2 (Z.leb_le _ _)). Qed.

Lemma AppendChar_ok buffer c :
  vec_size buffer + 1 ≤ capacity → AppendChar capacity buffer c = Ok (buffer ++ [c]).
Proof. intros H. by apply write_ok. Qed.

Lemma advance_size contents n :
  (n ≤ length (StringRef.chars contents))%nat →
  StringRef.size (advance contents n) = StringRef.size contents - Z.of_nat n.
Proof. intros H. unfold StringRef.size, vec_size. cbn. rewrite length_drop. lia. Qed.

Lemma advance_advance contents n m :
  advance (advance contents n) m = advance contents (n + m).
Proof. unfold advance. cbn. rewrite drop_drop. f_equal. lia. Qed.

Lemma consume_newline contents :
  StringRef.consume_front contents [Newline] =
    if starts_with [Newline] (StringRef.chars contents)
    then (true, advance contents 1) else (false, contents).
Proof. done. Qed.

Lemma consume_advance contents prefix :
  StringRef.consume_front contents prefix =
    if starts_with prefix (StringRef.chars contents)
    then (true, advance contents (length prefix)) else (false, contents).
Proof. done. Qed.

(** One regular character is one step of its segment. *)
Lemma expand_line_regular escape fuel contents buffer last_escape c cs :
  StringRef.chars contents = c :: cs → ends_regular_text c = false →
  vec_size buffer + 1 ≤ capacity →
  expand_line (S := S) capacity escape (Datatypes.S fuel) contents buffer last_escape =
  expand_line capacity escape (Datatypes.S fuel) (advance contents 1) (buffer ++ [c]) last_escape.
Proof.
  intros E Hc Hcap. cbn [expand_line].
  assert (StringRef.chars (advance contents 1) = cs) as E' by (unfold advance; by rewrite E).
  rewrite E, E'. cbn [find_if]. rewrite Hc.
  assert (∀ o, AppendFrontOfContents capacity buffer (c :: cs) ((λ i, i + 1) <$> o) =
    AppendFrontOfContents capacity (buffer ++ [c]) cs o ∨ ∃ n, o = Some n ∧ n < 0) as Ha.
  { intros [n|]; [|left]; unfold AppendFrontOfContents, write; cbn [fmap option_fmap option_map].
    - destruct (decide (n < 0)); [right; by exists n|left].
      replace (Z.to_nat (n + 1)) with (Datatypes.S (Z.to_nat n)) by lia. cbn [take].
      rewrite !vec_size_app, vec_size_cons, <- app_assoc.
      change (vec_size [c]) with 1. by rewrite (Z.add_comm _ 1), Z.add_assoc.
    - cbn [length take]. rewrite !vec_size_app, vec_size_cons, <- app_assoc.
      change (vec_size [c]) with 1. by rewrite (Z.add_comm _ 1), Z.add_assoc. }
  destruct (Ha (find_if ends_regular_text cs)) as [->|(n & En & Hn)].
  2:{ apply find_if_range in En. lia. }
  destruct (find_if ends_regular_text cs) as [n|] eqn:En; cbn [fmap option_fmap option_map]; [|done].
  apply find_if_range in En. rewrite (advance_advance contents 1).
  by replace (1 + Z.to_nat n)%nat with (Z.to_nat (n + 1)) by lia.
Qed.

Lemma advance_0 contents : advance contents 0 = contents.
Proof. destruct contents. unfold advance. cbn. by rewrite Z.add_0_r. Qed.

(** ** Escape sequences *)

Lemma hex_digits_nonneg digits acc :
  0 ≤ acc → Forall (λ c, IsUpperHexDigit c = true) digits →
  0 ≤ foldl (λ v c, 16 * v + hexDigitValue c) acc digits.
Proof.
  intros Ha Hd. revert acc Ha. induction Hd as [|c l Hc _ IH]; intros acc Ha; [done|].
  cbn [foldl]. apply IH.
  enough (0 ≤ hexDigitValue c) by lia. revert Hc.
  enough (negb (IsUpperHexDigit c) || (0 <=? hexDigitValue c) = true) as Hn.
  { intros Hc. rewrite Hc in Hn. cbn [negb orb] in Hn. by apply Z.leb_le. }
  revert c. apply forall_chars. vm_compute. reflexivity.
Qed.

(** The conversion of a code point: it succeeds silently and writes at most
    four bytes, or only a diagnostic comes of it. *)
Lemma ExpandUnicode_ok digits buffer :
  Forall (λ c, IsUpperHexDigit c = true) (StringRef.chars digits) →
  vec_size buffer + 4 ≤ capacity →
  yields (ExpandUnicodeEscapeSequence capacity digits buffer) (λ '(ok, buffer') w,
    ok = true → vec_size buffer' ≤ vec_size buffer + 4 ∧ w = []).
Proof.
  intros Hd Hcap. unfold ExpandUnicodeEscapeSequence, CanLexInt.
  apply yields_bind. destruct (DigitLimit <? StringRef.size digits).
  { apply yields_bind, yields_emit. intros d. apply yields_ret. cbn [negb].
    by apply yields_ret. }
  apply yields_ret. cbn [negb]. unfold getAsHex.
  pose proof (hex_digits_nonneg _ 0 ltac:(done) Hd) as Hv.
  set (v := foldl _ 0 _) in *. destruct (v <? 2 ^ 32); cycle 1.
  { apply yields_bind, yields_emit. intros d. by apply yields_ret. }
  destruct (Z.ltb_spec 0x10FFFF v).
  { apply yields_bind, yields_emit. intros d. by apply yields_ret. }
  destruct ((0xD800 <=? v) && (v <? 0xE000)) eqn:Hs.
  { apply yields_bind, yields_emit. intros d. by apply yields_ret. }
  destruct (ConvertUTF32toUTF8_scalar v) as (bytes & E & Hb).
  { split; [lia|]. rewrite andb_false_iff in Hs. lia. }
  rewrite E. apply yields_bind. eapply yields_lift; [apply write_ok; lia|].
  apply yields_ret. intros _. split; [rewrite vec_size_app; lia|done].
Qed.

Lemma take_while_split p (s : list char) :
  s = take_while p s ++ drop (length (take_while p s)) s.
Proof.
  transitivity (take_while p s ++ drop_while p s); [symmetry; apply take_drop_while|].
  f_equal. rewrite <- (drop_app_length (take_while p s) (drop_while p s)) at 1.
  by rewrite take_drop_while.
Qed.

Definition escape_result (e : char) (cs : list char)
    (r : StringRef.t * list char) : Prop :=
  ∃ w, cs = w ++ StringRef.chars r.1 ∧ Forall (λ c, c ≠ Backslash) w ∧
    vec_size r.2 + StringRef.size r.1 ≤ capacity.

Lemma upper_hex_not_backslash c : IsUpperHexDigit c = true → c ≠ Backslash.
Proof. by intros H ->. Qed.

Lemma ExpandAndConsume_ok content buffer e cs :
  StringRef.chars content = e :: cs →
  vec_size buffer + StringRef.size content + 1 ≤ capacity →
  yields (ExpandAndConsumeEscapeSequence capacity content buffer)
    (λ r _, escape_result e cs r).
Proof.
  intros E Hcap. unfold ExpandAndConsumeEscapeSequence. rewrite E.
  pose proof (vec_size_nonneg cs).
  assert (StringRef.size content = vec_size cs + 1) as Hs.
  { unfold StringRef.size. rewrite E. apply vec_size_cons. }
  assert (StringRef.chars (advance content 1) = cs) as E1 by (unfold advance; by rewrite E).
  assert (∀ b c' w, cs = w ++ StringRef.chars c' → Forall (λ c, c ≠ Backslash) w →
    vec_size b ≤ vec_size buffer + 1 → escape_result e cs (c', b)) as Hres.
  { intros b c' w Hw Hf Hb. exists w. split; [done|]. split; [done|]. cbn.
    unfold StringRef.size. rewrite Hw, vec_size_app in *. pose proof (vec_size_nonneg w). lia. }
  assert (∀ c, yields
    (buffer0 ← lift_result (λ _, AppendChar capacity buffer c); mret (advance content 1, buffer0))
    (λ r _, escape_result e cs r)) as Happend.
  { intros c. apply yields_bind. eapply yields_lift; [apply AppendChar_ok; lia|].
    apply yields_ret. apply (Hres _ _ []); [by rewrite E1|constructor|].
    rewrite vec_size_app. rewrite vec_size_one. lia. }
  assert (∀ kd loc args c, yields
    (LexEmit kd loc args ;;
     buffer0 ← lift_result (λ _, AppendChar capacity buffer c); mret (advance content 1, buffer0))
    (λ r _, escape_result e cs r)) as Hemit.
  { intros. apply yields_bind, yields_emit. intros _.
    eapply yields_mono; [apply Happend|]. done. }
  repeat match goal with
  | |- yields (if char_eqb e ?c then _ else _) _ =>
      lazymatch c with "0"%char => fail | "x"%char => fail | "u"%char => fail | _ => idtac end;
      destruct (char_eqb e c); [apply Happend|]
  end.
  destruct (char_eqb e "0").
  { apply yields_bind. eapply yields_lift; [apply AppendChar_ok; lia|].
    assert (∀ w, escape_result e cs (advance content 1, buffer ++ ["000"%char]) ∧ w = w :> list LexDiagnostic) as Hr.
    { intros w. split; [|done]. apply (Hres _ _ []); [by rewrite E1|constructor|].
      rewrite vec_size_app. rewrite vec_size_one. lia. }
    apply yields_bind, yields_when; [intros _; apply yields_emit; intros d|intros _];
      apply yields_ret, Hr; exact []. }
  destruct (char_eqb e "x").
  { destruct cs as [|a [|b cs']]; [apply Hemit..|].
    destruct (IsUpperHexDigit a && IsUpperHexDigit b) eqn:Hx; [|apply Hemit].
    apply andb_true_iff in Hx as [Ha Hb].
    apply yields_bind. eapply yields_lift; [apply AppendChar_ok; lia|]. apply yields_ret.
    apply (Hres _ _ [a; b]).
    - rewrite advance_advance. unfold advance. by rewrite E.
    - repeat constructor; by apply upper_hex_not_backslash.
    - rewrite vec_size_app. rewrite vec_size_one. lia. }
  destruct (char_eqb e "u"); [|apply Hemit].
  rewrite consume_advance, E1. destruct (starts_with (str "{") cs) eqn:Hopen; [|apply Hemit].
  apply starts_with_spec in Hopen as [r Er]. cbn in Er.
  rewrite (advance_advance content 1).
  assert (StringRef.chars (advance content (1 + length (str "{"))) = r) as E2.
  { unfold advance. by rewrite E, Er. }
  rewrite E2. set (digits := take_while IsUpperHexDigit r).
  rewrite consume_advance, advance_advance. cbn [StringRef.chars].
  set (after := advance content (1 + length (str "{") + length digits)).
  assert (StringRef.chars after = drop (length digits) r) as E3.
  { subst after. rewrite <- advance_advance. cbn. by rewrite <- E2. }
  destruct (starts_with (str "}") (StringRef.chars after)) eqn:Hclose; [|apply Hemit].
  apply starts_with_spec in Hclose as [r' Er'].
  change (StringRef.chars after = "}"%char :: r') in Er'.
  destruct (negb (StringRef.empty _)) eqn:Hne; [|apply Hemit].
  assert (r = digits ++ "}"%char :: r') as Er2.
  { rewrite <- Er', E3. apply take_while_split. }
  assert (0 < vec_size digits) as Hpos.
  { unfold StringRef.empty in Hne. cbn in Hne. fold digits in Hne. destruct digits; [done|].
    unfold vec_size. cbn. lia. }
  assert (vec_size cs = vec_size digits + vec_size r' + 2) as Hsize.
  { rewrite Er, vec_size_cons, Er2, vec_size_app, vec_size_cons. lia. }
  pose proof (vec_size_nonneg r').
  apply yields_bind. eapply yields_mono; [apply ExpandUnicode_ok|].
  - apply take_while_all.
  - lia.
  - intros [[] buffer'] w; cbn [negb]; [|intros _; eapply yields_mono; [apply Happend|done]].
    intros [Hb _]; [done|]. apply yields_ret.
    exists ("{"%char :: digits ++ ["}"%char]). cbn [fst snd].
    assert (StringRef.chars (advance after (length (str "}"))) = r') as E4.
    { change (StringRef.chars (advance after (length (str "}")))) with
        (drop 1 (StringRef.chars after)). by rewrite Er'. }
    unfold StringRef.size. rewrite E4. split; [rewrite Er, Er2; cbn [app]; by rewrite <- app_assoc|].
    split; [|lia]. constructor; [done|]. apply Forall_app. split; [|by repeat constructor].
    eapply Forall_impl; [apply take_while_all|]. apply upper_hex_not_backslash.
Qed.

(** ** Lines *)

Lemma trim_trailing_size fuel buffer last_escape :
  vec_size (trim_trailing fuel buffer last_escape) ≤ vec_size buffer.
Proof.
  revert buffer. induction fuel as [|fuel IH]; intros buffer; cbn [trim_trailing]; [done|].
  destruct (_ <? _); [|done]. destruct (last buffer); [|done]. destruct (_ || _); [done|].
  etransitivity; [apply IH|]. unfold vec_size. rewrite length_take. lia.
Qed.

Context (multi : bool) (h : nat) (k : Kind) (after : list char).

(** Contents that the scanning loop went through, up to the terminator. *)
Definition closed contents : Prop := ∃ needs,
  scanned multi (escape_of h) (terminator_of k h) needs (StringRef.chars contents)
    (terminator_of k h ++ after).

Lemma closed_advance contents w r :
  StringRef.chars contents = w ++ r → Forall (λ c, c ≠ Backslash) w → closed contents →
  closed (advance contents (length w)).
Proof.
  intros E Hw [needs Hs]. rewrite E in Hs. apply scanned_drop in Hs as [needs' Hs]; [|done].
  exists needs'. cbn. by rewrite E, drop_app_length.
Qed.

Lemma closed_chars contents contents' :
  StringRef.chars contents = StringRef.chars contents' → closed contents → closed contents'.
Proof. unfold closed. by intros ->. Qed.

(** What a line leaves: less contents than it started with, room for them. *)
Definition line_result contents (r : option StringRef.t * list char) : Prop :=
  match r.1 with
  | None => vec_size r.2 ≤ capacity
  | Some contents' => closed contents' ∧ room r.2 contents' ∧
      StringRef.size contents' < StringRef.size contents
  end.

Lemma line_result_mono contents contents' r :
  StringRef.size contents ≤ StringRef.size contents' →
  line_result contents r → line_result contents' r.
Proof. unfold line_result. destruct r.1; [|done]. intros ? (? & ? & ?). split_and!; [done..|lia]. Qed.

Lemma horizontal_not_backslash c : IsHorizontalWhitespace c = true → c ≠ Backslash.
Proof. by intros H ->. Qed.

Lemma find_if_not_take p (s : list char) :
  match find_if_not p s with
  | None => take_while p s = s
  | Some n => take_while p s = take (Z.to_nat n) s
  end.
Proof.
  unfold find_if_not. induction s as [|c s IH]; [done|]. cbn [find_if take_while].
  destruct (p c); cbn [negb]; [|done]. destruct (find_if _ s) as [n|] eqn:E; cbn; [|by rewrite IH].
  apply find_if_range in E. replace (Z.to_nat (n + 1)) with (Datatypes.S (Z.to_nat n)) by lia.
  cbn. by rewrite IH.
Qed.

Lemma size_cons contents c cs :
  StringRef.chars contents = c :: cs → StringRef.size contents = vec_size cs + 1.
Proof. unfold StringRef.size. intros ->. apply vec_size_cons. Qed.

Lemma size_advance_1 contents c cs :
  StringRef.chars contents = c :: cs → StringRef.size (advance contents 1) = vec_size cs.
Proof. unfold StringRef.size, advance. by intros ->. Qed.

Lemma expand_line_ok n : ∀ fuel contents buffer last_escape,
  StringRef.size contents ≤ n → n < Z.of_nat fuel →
  closed contents → room buffer contents →
  yields (expand_line capacity (escape_of h) fuel contents buffer last_escape)
    (λ r _, line_result contents r).
Proof.
  induction (Z.lt_wf 0 n) as [n _ IH]. intros fuel contents buffer last_escape Hn Hfuel Hc Hroom.
  destruct fuel as [|fuel]; [unfold StringRef.size in Hn; pose proof (vec_size_nonneg (StringRef.chars contents)); lia|].
  destruct (StringRef.chars contents) as [|c cs] eqn:E.
  { cbn [expand_line]. rewrite E. cbn [find_if]. apply yields_bind.
    unfold room, StringRef.size in Hroom. rewrite E in Hroom.
    eapply yields_lift; [apply write_ok; cbn; unfold vec_size in *; cbn in *; lia|].
    apply yields_ret. unfold line_result. cbn. unfold vec_size in *. rewrite length_app. cbn in *. lia. }
  pose proof (size_cons _ _ _ E) as Hsize. pose proof (size_advance_1 _ _ _ E) as Hsize1.
  pose proof (vec_size_nonneg cs). unfold room in Hroom.
  assert (∀ contents' buffer' fuel' le, closed contents' →
    StringRef.size contents' < StringRef.size contents → room buffer' contents' →
    StringRef.size contents' < Z.of_nat fuel' →
    yields (expand_line capacity (escape_of h) fuel' contents' buffer' le)
      (λ r _, line_result contents r)) as Hrec.
  { intros contents' buffer' fuel' le Hc' Hlt Hroom' Hf'.
    pose proof (vec_size_nonneg (StringRef.chars contents')).
    eapply yields_mono; [eapply (IH (StringRef.size contents')); try done|].
    - unfold StringRef.size in *. lia.
    - intros r w. apply line_result_mono. lia. }
  destruct (ends_regular_text c) eqn:Hends.
  2:{ rewrite (expand_line_regular _ _ _ _ _ c cs) by (done || lia).
      apply Hrec; [|lia| |lia].
      - apply (closed_advance contents [c] cs); [done| |done]. repeat constructor. by intros ->.
      - unfold room. rewrite Hsize1, vec_size_app. rewrite vec_size_one. lia. }
  cbn [expand_line]. rewrite E. cbn [find_if]. rewrite Hends.
  apply yields_bind.
  eapply yields_lift; [apply write_ok; change (vec_size buffer + 0 ≤ capacity); lia|].
  change (Z.to_nat 0) with 0%nat. rewrite advance_0. cbn [take]. rewrite app_nil_r.
  rewrite consume_newline, E. unfold starts_with at 1. rewrite andb_true_r.
  destruct (char_eqb_spec Newline c) as [<-|Hnl].
  { apply yields_bind.
    pose proof (trim_trailing_size (length buffer) buffer last_escape) as Ht.
    eapply yields_lift; [apply AppendChar_ok; lia|]. apply yields_ret.
    unfold line_result. cbn [fst snd]. split; [|split].
    - apply (closed_advance contents [Newline] cs); [done|by repeat constructor|done].
    - unfold room. rewrite Hsize1, vec_size_app. rewrite vec_size_one. lia.
    - lia. }
  unfold StringRef.front, StringRef.at_. rewrite E. apply yields_bind.
  eapply yields_lift; [reflexivity|].
  destruct (IsHorizontalWhitespace c) eqn:Hw.
  - apply yields_bind, yields_check.
    { unfold ends_regular_text in Hends. rewrite Hw in Hends. cbn in Hends.
      destruct (char_eqb_spec c Newline); [congruence|].
      destruct (char_eqb_spec c Backslash) as [->|]; [done|]. done. }
    apply yields_bind.
    pose proof (find_if_not_take IsHorizontalWhitespace (c :: cs)) as Hrun.
    pose proof (take_while_split IsHorizontalWhitespace (c :: cs)) as Hsplit.
    set (ws := take_while IsHorizontalWhitespace (c :: cs)) in *.
    set (o := find_if_not IsHorizontalWhitespace (c :: cs)) in *.
    assert (1 ≤ vec_size ws) as Hws.
    { subst ws. cbn [take_while]. rewrite Hw, vec_size_cons.
      pose proof (vec_size_nonneg (take_while IsHorizontalWhitespace cs)). lia. }
    assert (vec_size ws ≤ vec_size cs + 1) as Hws2.
    { apply (f_equal vec_size) in Hsplit. rewrite vec_size_cons, vec_size_app in Hsplit.
      pose proof (vec_size_nonneg (drop (length ws) (c :: cs))). lia. }
    assert (match o with
      | None => advance contents (length (c :: cs))
      | Some n => advance contents (Z.to_nat n) end = advance contents (length ws)) as Eadv.
    { destruct o as [m|] eqn:Eo; [|by rewrite Hrun].
      subst o. unfold find_if_not in Eo. apply find_if_range in Eo. f_equal. rewrite Hrun.
      rewrite length_take. unfold vec_size in Eo. lia. }
    assert (AppendFrontOfContents capacity buffer (c :: cs) o = Ok (buffer ++ ws)) as Eapp.
    { unfold AppendFrontOfContents. destruct o as [m|].
      - rewrite <- Hrun. apply write_ok. lia.
      - rewrite firstn_all, <- Hrun. apply write_ok. lia. }
    rewrite Eadv.
    assert (∀ buffer', vec_size buffer' ≤ vec_size buffer + vec_size ws →
      yields (expand_line capacity (escape_of h) fuel (advance contents (length ws)) buffer'
        last_escape) (λ r _, line_result contents r)) as Hnext.
    { intros buffer' Hb.
      assert (StringRef.size (advance contents (length ws)) =
        StringRef.size contents - vec_size ws) as Hsw.
      { rewrite advance_size; [done|]. rewrite E. unfold vec_size in Hws2. cbn [length]. lia. }
      apply Hrec; [|lia|unfold room; lia|lia].
      eapply closed_advance; [by rewrite E; exact Hsplit| |done].
      eapply Forall_impl; [apply take_while_all|]. apply horizontal_not_backslash. }
    destruct (match o with Some n => _ | None => true end).
    + apply yields_bind, yields_emit. intros d. eapply yields_lift; [exact Eapp|].
      eapply yields_mono; [apply Hnext|done]. rewrite vec_size_app. lia.
    + apply yields_ret. eapply yields_mono; [apply Hnext; lia|done].
  - assert (c = Backslash) as ->.
    { unfold ends_regular_text in Hends. rewrite Hw in Hends. cbn in Hends.
      rewrite orb_false_r, orb_true_iff, !char_eqb_eq in Hends. by destruct Hends. }
    rewrite consume_advance, E. destruct Hc as [needs Hs]. rewrite E in Hs.
    destruct (scanned_backslash _ _ _ _ _ _ Hs)
      as [(e & body & needs' & Eb & Hnl' & Hs')|(-> & needs' & Hs')].
    + rewrite (proj2 (starts_with_spec (escape_of h) _)) by (by eexists).
      assert (StringRef.chars (advance contents (length (escape_of h))) = e :: body) as Ea.
      { change (drop (length (escape_of h)) (StringRef.chars contents) = e :: body).
        by rewrite E, Eb, drop_app_length. }
      set (contents1 := advance contents (length (escape_of h))) in *.
      pose proof (size_cons _ _ _ Ea) as Hsb. pose proof (vec_size_nonneg body).
      assert (vec_size cs + 1 = vec_size (escape_of h) + vec_size body + 1) as Hlen.
      { rewrite <- (vec_size_cons Backslash), Eb, vec_size_app, vec_size_cons. lia. }
      assert (1 ≤ vec_size (escape_of h)) as He.
      { unfold escape_of. rewrite (vec_size_cons Backslash). pose proof (vec_size_nonneg (hashes h)). lia. }
      rewrite consume_newline, Ea. unfold starts_with at 1. rewrite andb_true_r.
      destruct (char_eqb_spec Newline e) as [<-|Hne].
      * apply yields_ret. unfold line_result. cbn [fst snd].
        pose proof (size_advance_1 _ _ _ Ea) as Hsa.
        split; [|unfold room; split; lia]. exists needs'. unfold advance. rewrite Ea. exact Hs'.
      * apply yields_bind. eapply yields_mono; [eapply ExpandAndConsume_ok; [exact Ea|lia]|].
        intros [contents2 buffer2] w (x & Ex & Hx & Hr). cbn [fst snd] in *.
        assert (StringRef.size contents2 ≤ vec_size body) as Hs2.
        { unfold StringRef.size. rewrite Ex, vec_size_app. pose proof (vec_size_nonneg x). lia. }
        eapply yields_mono; [apply Hrec; [|lia|done|lia]|done].
        rewrite Ex in Hs'. apply scanned_drop in Hs' as [needs2 Hs']; [|done]. by exists needs2.
    + apply yields_bind. eapply yields_lift; [apply AppendChar_ok; lia|].
      eapply yields_mono; [apply Hrec; [|lia| |lia]|done].
      * exists needs'. unfold advance. rewrite E. exact Hs'.
      * unfold room. rewrite Hsize1, vec_size_app. rewrite vec_size_one. lia.
Qed.

Lemma expand_lines_ok indent n : ∀ fuel contents buffer,
  Forall (λ c, c ≠ Backslash) indent →
  StringRef.size contents ≤ n → n < Z.of_nat fuel →
  closed contents → room buffer contents →
  yields (expand_lines capacity (escape_of h) indent fuel contents buffer)
    (λ buffer' _, vec_size buffer' ≤ capacity).
Proof.
  induction (Z.lt_wf 0 n) as [n _ IH]. intros fuel contents buffer Hi Hn Hfuel Hc Hroom.
  pose proof (vec_size_nonneg (StringRef.chars contents)) as Hpos.
  destruct fuel as [|fuel]; [unfold StringRef.size in Hn; lia|].
  cbn [expand_lines]. apply yields_bind. rewrite consume_advance.
  assert (∀ w r, StringRef.chars contents = w ++ r → Forall (λ c, c ≠ Backslash) w →
    yields
      ('(next, buffer') ← expand_line capacity (escape_of h)
         (length (StringRef.chars (advance contents (length w))) + 1)
         (advance contents (length w)) buffer (vec_size buffer);
       match next with
       | None => mret buffer'
       | Some contents' => expand_lines capacity (escape_of h) indent fuel contents' buffer'
       end) (λ buffer' _, vec_size buffer' ≤ capacity)) as Hline.
  { intros w r E Hw. assert (StringRef.size (advance contents (length w)) ≤ StringRef.size contents).
    { rewrite advance_size; [lia|]. rewrite E, length_app. lia. }
    apply yields_bind.
    eapply yields_mono;
      [eapply (expand_line_ok (StringRef.size (advance contents (length w)))); [done| | |]|].
    - unfold StringRef.size, vec_size. lia.
    - by eapply closed_advance.
    - unfold room in *. lia.
    - intros [[contents'|] buffer'] w1; unfold line_result; cbn [fst snd].
      + intros (Hc' & Hr' & Hlt). eapply yields_mono; [apply (IH (StringRef.size contents'))|done];
          try done; try lia.
        split; [|lia]. unfold StringRef.size. apply vec_size_nonneg.
      + intros Hcap. by apply yields_ret. }
  destruct (starts_with indent (StringRef.chars contents)) eqn:Hs.
  - apply yields_ret. apply starts_with_spec in Hs as [r E]. by eapply Hline.
  - apply yields_bind.
    assert (Forall (λ c, c ≠ Backslash)
      (take_while IsHorizontalWhitespace (StringRef.chars contents))) as Hws.
    { eapply Forall_impl; [apply take_while_all|]. apply horizontal_not_backslash. }
    pose proof (take_while_split IsHorizontalWhitespace (StringRef.chars contents)) as E.
    apply yields_when; [intros _; apply yields_emit; intros d|intros _];
      apply yields_ret; eapply yields_mono; try (by eapply Hline); done.
Qed.
End expand.

(** * Literals *)

(** The loop of [ComputeIndentOfFinalLine] finds the whitespace after the last
    line break. *)
Lemma indent_loop_spec text before ws rest :
  StringRef.size text < 2 ^ 31 →
  StringRef.chars text = reverse before ++ ws ++ rest →
  Forall (λ c, IsHorizontalWhitespace c = true) ws →
  Newline ∈ before →
  ∃ pre ws' rest',
    indent_loop text (vec_size before - 1) (vec_size before + vec_size ws) before =
      Ok (StringRef.mk (StringRef.begin text + vec_size pre) ws') ∧
    StringRef.chars text = pre ++ ws' ++ rest' ∧
    Forall (λ c, IsHorizontalWhitespace c = true) ws' ∧
    last pre = Some Newline.
Proof.
  intros Hsize. revert ws rest. induction before as [|c before IH]; intros ws rest E Hws Hin;
    [by apply not_elem_of_nil in Hin|].
  cbn [indent_loop]. rewrite vec_size_cons. rewrite reverse_cons, <- app_assoc in E.
  pose proof (vec_size_nonneg before). pose proof (vec_size_nonneg ws).
  destruct (char_eqb_spec c Newline) as [->|Hne].
  - exists (reverse before ++ [Newline]), ws, rest.
    assert (StringRef.size text = vec_size before + 1 + vec_size ws + vec_size rest) as Hs.
    { unfold StringRef.size. rewrite E, !vec_size_app. unfold vec_size at 1.
      rewrite length_reverse. unfold vec_size. cbn. lia. }
    pose proof (vec_size_nonneg rest).
    split.
    + rewrite StringRef.substr_all_in by lia. f_equal.
      assert (vec_size (reverse before ++ [Newline]) = vec_size before + 1) as Hp.
      { rewrite vec_size_app. unfold vec_size at 1. by rewrite length_reverse. }
      rewrite Hp. f_equal; [lia|]. rewrite E, app_assoc.
      replace (Z.to_nat (vec_size before + 1 - 1 + 1)) with (length (reverse before ++ [Newline]))
        by (unfold vec_size in *; lia).
      rewrite drop_app_length. replace (Z.to_nat _) with (length ws) by (unfold vec_size; lia).
      apply take_app_length.
    + split; [by rewrite <- app_assoc|]. split; [done|]. by rewrite last_snoc.
  - apply elem_of_cons in Hin as [Heq|Hin]; [congruence|].
    replace (vec_size before + 1 - 1 - 1) with (vec_size before - 1) by lia.
    destruct (IsSpace c) eqn:Hc; cbn [negb].
    + destruct (IH (c :: ws) rest) as (pre & ws' & rest' & Hr); [done| |done|].
      { constructor; [|done]. unfold IsSpace, IsVerticalWhitespace in Hc.
        destruct (char_eqb_spec c "010"); [by destruct Hne|]. by rewrite orb_false_r in Hc. }
      exists pre, ws', rest'. rewrite vec_size_cons in Hr.
      by replace (vec_size before + 1 + vec_size ws) with (vec_size before + (vec_size ws + 1)) by lia.
    + destruct (IH [] (c :: ws ++ rest)) as (pre & ws' & rest' & Hr); [done|constructor|done|].
      exists pre, ws', rest'. change (vec_size []) with 0 in Hr.
      by replace (vec_size before + 1 - 1) with (vec_size before + 0) by lia.
Qed.

Lemma ComputeIndent_ok text :
  StringRef.size text < 2 ^ 31 → Newline ∈ StringRef.chars text →
  ∃ indent, ComputeIndentOfFinalLine text = Ok indent ∧
    Forall (λ c, IsHorizontalWhitespace c = true) (StringRef.chars indent).
Proof.
  intros Hs Hin. unfold ComputeIndentOfFinalLine.
  destruct (indent_loop_spec text (reverse (StringRef.chars text)) [] []) as (pre & ws & rest & E & _ & Hw & _);
    [done|by rewrite reverse_involutive, !app_nil_r|constructor|by apply elem_of_reverse|].
  exists (StringRef.mk (StringRef.begin text + vec_size pre) ws). split; [|done].
  rewrite <- E. change (vec_size []) with 0.
  assert (vec_size (reverse (StringRef.chars text)) = StringRef.size text) as ->
    by (unfold StringRef.size, vec_size; by rewrite length_reverse).
  f_equal. lia.
Qed.

(** A terminated literal of [Lex]: its hash level and the closed contents. *)
Lemma lexed_content src l :
  StringRef.size src < 2 ^ 31 → Lex src = Ok (Some l) → is_terminated_ l = true →
  ∃ h after needs, hash_level_ l = Z.of_nat h ∧
    scanned (IsMultiLine (kind_ l)) (escape_of h) (terminator_of (kind_ l) h) needs
      (StringRef.chars (content_ l)) (terminator_of (kind_ l) h ++ after) ∧
    (content_needs_validation_ l = false → needs = false) ∧
    StringRef.size (text_ l) < 2 ^ 31 ∧
    (IsMultiLine (kind_ l) = true → Newline ∈ StringRef.chars (text_ l)).
Proof.
  intros Hsize Hl Ht. pose proof (Lex_lexed_string src Hsize) as Hlex. rewrite Hl in Hlex.
  destruct Hlex as [?|h opening rest Hopen E Hshape]; [congruence|].
  destruct (lit_terminated _ _ _ _ _ _ _ Hshape Ht)
    as (needs & body & after & Er & Hs & Hn & Hx & Hc).
  exists h, after, needs. split; [by eapply lit_hash_level|].
  assert (StringRef.chars (content_ l) = body) as ->.
  { rewrite Hc. unfold vec_size. by rewrite Nat2Z.id, drop_all. }
  split; [done|]. split; [done|]. split.
  - unfold StringRef.size in *. rewrite E, Er in Hsize. rewrite Hx.
    rewrite !vec_size_app in *. pose proof (vec_size_nonneg after). lia.
  - intros Hm. rewrite Hx. destruct Hopen as [_ Hopen]. rewrite Hm in Hopen. set_solver.
Qed.

Section literals.
Context {Utf : ConvertUTF} {Laws : ConvertUTFLaws Utf} {S : Type}.
#[local] Abbreviation yields := (@LexDiagnostics.yields S _).

Lemma expansion_ok l h after needs indent :
  hash_level_ l = Z.of_nat h →
  scanned (IsMultiLine (kind_ l)) (escape_of h) (terminator_of (kind_ l) h) needs
    (StringRef.chars (content_ l)) (terminator_of (kind_ l) h ++ after) →
  Forall (λ c, c ≠ Backslash) indent →
  yields
    (ExpandEscapeSequencesAndRemoveIndent (StringRef.size (content_ l)) (content_ l)
       (hash_level_ l) indent)
    (λ result _, vec_size result ≤ StringRef.size (content_ l)).
Proof.
  intros Hh Hs Hi. unfold ExpandEscapeSequencesAndRemoveIndent. rewrite Hh, Nat2Z.id.
  apply (expand_lines_ok _ (IsMultiLine (kind_ l)) h (kind_ l) after indent
    (StringRef.size (content_ l))); try done.
  - unfold StringRef.size, vec_size. lia.
  - by exists needs.
  - unfold room. change (vec_size []) with 0. lia.
Qed.

Lemma CheckIndent_ok text content :
  StringRef.size text < 2 ^ 31 → Newline ∈ StringRef.chars text →
  yields (CheckIndent text content)
    (λ indent _, Forall (λ c, IsHorizontalWhitespace c = true) (StringRef.chars indent)).
Proof.
  intros Hs Hin. destruct (ComputeIndent_ok text Hs Hin) as (indent & E & Hw).
  unfold CheckIndent. apply yields_bind. eapply yields_lift; [exact E|].
  apply yields_bind, yields_when; [intros _; apply yields_emit; intros d|intros _];
    by apply yields_ret.
Qed.

(** The part of [ComputeStringValue] after the indent is known. *)
Definition string_value_of (l : t) (indent : list char) : Action S LexDiagnostic (list char) :=
  if negb (content_needs_validation_ l) &&
     (negb (IsMultiLine (kind_ l)) || bool_decide (indent = []))
  then mret (StringRef.chars (content_ l))
  else
    result ← ExpandEscapeSequencesAndRemoveIndent (StringRef.size (content_ l)) (content_ l)
               (hash_level_ l) indent;
    check (vec_size result <=? StringRef.size (content_ l)) ;;
    mret result.

Lemma ComputeStringValue_ok src l :
  StringRef.size src < 2 ^ 31 → Lex src = Ok (Some l) → is_terminated_ l = true →
  kind_ l ≠ Char →
  yields (ComputeStringValue l) (λ v _, vec_size v ≤ StringRef.size (content_ l)).
Proof.
  intros Hsize Hl Ht Hk.
  destruct (lexed_content _ _ Hsize Hl Ht) as (h & after & needs & Hh & Hs & _ & Htext & Hnl).
  assert (∀ indent, Forall (λ c, IsHorizontalWhitespace c = true) indent → yields
    (string_value_of l indent) (λ v _, vec_size v ≤ StringRef.size (content_ l))) as Hbody.
  { intros indent Hi. unfold string_value_of. destruct (_ && _); [by apply yields_ret|].
    apply yields_bind. eapply yields_mono; [eapply expansion_ok; [done|exact Hs|]|].
    { eapply Forall_impl; [exact Hi|]. apply horizontal_not_backslash. }
    intros result w Hr. apply yields_bind, yields_check; [by apply Z.leb_le|].
    by apply yields_ret. }
  unfold ComputeStringValue. apply yields_bind, yields_check.
  { by rewrite bool_decide_false. }
  apply yields_bind, yields_check; [done|]. apply yields_bind.
  enough (yields
    (indent ← (if IsMultiLine (kind_ l) then
       indent ← CheckIndent (text_ l) (content_ l); mret (StringRef.chars indent) else mret []);
     string_value_of l indent) (λ v _, vec_size v ≤ StringRef.size (content_ l))) as Hrest.
  { apply yields_when; [intros _; apply yields_emit; intros d|intros _]; exact Hrest. }
  apply yields_bind. destruct (IsMultiLine (kind_ l)) eqn:Hm.
  - apply yields_bind. eapply yields_mono; [apply CheckIndent_ok; auto|].
    intros indent w Hi. apply yields_ret. eapply yields_mono; [by apply Hbody|done].
  - apply yields_ret. eapply yields_mono; [apply Hbody; constructor|done].
Qed.

Lemma ComputeCharLiteralValue_ok src l :
  StringRef.size src < 2 ^ 31 → Lex src = Ok (Some l) → is_terminated_ l = true →
  kind_ l = Char →
  yields (ComputeCharLiteralValue l) (λ o w,
    match o with Some v => scalar_value v | None => w ≠ [] end).
Proof.
  intros Hsize Hl Ht Hk.
  destruct (lexed_content _ _ Hsize Hl Ht) as (h & after & needs & Hh & Hs & _).
  unfold ComputeCharLiteralValue. apply yields_bind, yields_check.
  { by rewrite bool_decide_true. }
  apply yields_bind, yields_check; [done|]. apply yields_bind.
  match goal with |- yields _ (λ a w1, yields ?m _) => set (rest := m) end.
  enough (yields rest (λ o w, match o with Some v => scalar_value v | None => w ≠ [] end))
    as Hrest.
  { apply yields_when; [intros _; apply yields_emit; intros d|intros _];
      (eapply yields_mono; [exact Hrest|]); intros [v|] w; cbn; done. }
  subst rest. apply yields_bind.
  eapply yields_mono; [eapply expansion_ok; [done|exact Hs|constructor]|].
  intros result w Hr. apply yields_bind, yields_check; [by apply Z.leb_le|].
  destruct (ConvertUTF8toUTF32 result 1) as [r units] eqn:E.
  set (Q := λ (o : option Z) (w2 : list LexDiagnostic),
    match o with Some v => scalar_value v | None => w ++ [] ++ w2 ≠ [] end).
  assert (∀ kd args, yields (LexEmit kd (StringRef.begin (text_ l)) args ;; mret None) Q) as Hnone.
  { intros kd args. apply yields_bind, yields_emit. intros d. apply yields_ret. by destruct w. }
  destruct r; try apply Hnone. destruct units as [|v units]; [apply Hnone|].
  apply ConvertUTF8toUTF32_ok in E as (Hv & Hnil & _); [|done]. inversion Hv as [|? ? Hsv _]; subst.
  assert (∃ c cs, StringRef.chars (content_ l) = c :: cs) as (c & cs & Ec).
  { destruct (StringRef.chars (content_ l)) as [|c cs] eqn:Ec; [|by eexists _, _].
    destruct result; [by discriminate (proj2 Hnil eq_refl)|].
    unfold StringRef.size in Hr. rewrite Ec in Hr. unfold vec_size in Hr. cbn in Hr. lia. }
  apply yields_bind.
  match goal with |- yields _ (λ a w1, yields (@?m a) _) => set (rest := m) end.
  assert (∀ b, yields (rest b) Q) as Hfin.
  { intros []; subst rest; cbn beta iota; [apply Hnone|].
    destruct (starts_with _ _); [apply Hnone|by apply yields_ret]. }
  destruct (IsControlCharacter v); [|apply yields_ret; exact (Hfin false)].
  assert (StringRef.front (content_ l) = Ok c) as Hfront.
  { unfold StringRef.front, StringRef.at_. by rewrite Ec. }
  apply yields_bind. eapply yields_lift; [exact Hfront|].
  destruct (char_eqb c Backslash); apply yields_ret.
  - exact (Hfin false).
  - exact (Hfin (negb (IsHorizontalWhitespace c))).
Qed.
End literals.
