(* ===== verification/StringRoundTrip.v ===== *)
(** What string literals denote: every byte string has a literal that reads
    back as it, the path without a copy agrees with the expansion on
    single-line literals, and evaluation always returns within its buffer. *)

From S2P Require Import Prelude Text LexDiagnostics StringLiterals StringShape StringValues Utf8.
Import StringLiteral.

(** * Writing a string as a literal *)

(** The letter that stands for a character that cannot appear as it is. *)
Definition escape_letter (c : char) : option char :=
  if char_eqb c Backslash then Some Backslash
  else if char_eqb c Quote then Some Quote
  else if char_eqb c Newline then Some "n"%char
  else if char_eqb c Tab then Some "t"%char
  else None.

Definition escaped (h : nat) (c : char) : list char :=
  match escape_letter c with Some l => escape_of h ++ [l] | None => [c] end.

Definition escaped_text (h : nat) (s : list char) : list char := s ≫= escaped h.

(** The single-line literal of [s] with [h] hashes. *)
Definition literal_of (h : nat) (s : list char) : list char :=
  hashes h ++ [Quote] ++ escaped_text h s ++ [Quote] ++ hashes h.

Lemma escaped_text_cons h c s : escaped_text h (c :: s) = escaped h c ++ escaped_text h s.
Proof. done. Qed.

Lemma escape_letter_None c :
  escape_letter c = None → c ≠ Backslash ∧ c ≠ Quote ∧ c ≠ Newline ∧ c ≠ Tab.
Proof.
  unfold escape_letter. destruct (char_eqb_spec c Backslash), (char_eqb_spec c Quote),
    (char_eqb_spec c Newline), (char_eqb_spec c Tab); done.
Qed.

(** Evaluates the comparisons of known characters. *)
Ltac eval_chars :=
  repeat match goal with
  | |- context [char_eqb ?a ?b] =>
      let v := eval vm_compute in (char_eqb a b) in
      match v with true => idtac | false => idtac end;
      change (char_eqb a b) with v
  end; cbn beta iota.

Section expand.
Context {Utf : ConvertUTF} {Laws : ConvertUTFLaws Utf} {S : Type} (capacity : Z) (h : nat).
Implicit Types (contents : StringRef.t) (buffer s body : list char) (st : S).

(** Running the first action of a sequence that succeeds silently. *)
Lemma run_lift {A B} (r : Result A) a (f : A → Action S LexDiagnostic B) st :
  r = Ok a → (lift_result (λ _, r) ≫= f) st = f a st.
Proof. intros ->. by apply bind_silent with (s1 := st). Qed.

Lemma ExpandAndConsume_letter contents buffer c l cs st :
  escape_letter c = Some l → StringRef.chars contents = l :: cs →
  vec_size buffer + 1 ≤ capacity →
  ExpandAndConsumeEscapeSequence capacity contents buffer st =
    Ok (advance contents 1, buffer ++ [c], st, []).
Proof.
  intros Hl E Hcap. unfold ExpandAndConsumeEscapeSequence. rewrite E.
  unfold escape_letter in Hl.
  destruct (char_eqb_spec c Backslash) as [->|]; [|destruct (char_eqb_spec c Quote) as [->|];
    [|destruct (char_eqb_spec c Newline) as [->|]; [|destruct (char_eqb_spec c Tab) as [->|]; [|done]]]];
    injection Hl as <-; eval_chars; by rewrite (run_lift _ _ _ _ (AppendChar_ok _ _ _ Hcap)).
Qed.

(** One step of the loop at a special character, where the segment of regular
    text is empty. *)
Lemma find_if_head p c (cs : list char) : p c = true → find_if p (c :: cs) = Some 0.
Proof. intros H. cbn. by rewrite H. Qed.

Lemma AppendFront_nothing buffer cs :
  vec_size buffer ≤ capacity → AppendFrontOfContents capacity buffer cs (Some 0) = Ok buffer.
Proof.
  intros H. unfold AppendFrontOfContents. change (take (Z.to_nat 0) cs) with (@nil char).
  rewrite write_ok by (change (vec_size buffer + 0 ≤ capacity); lia). by rewrite app_nil_r.
Qed.

Lemma starts_with_app p s : starts_with p (p ++ s) = true.
Proof. apply starts_with_spec. by eexists. Qed.

(** At a backslash. *)
Lemma expand_line_backslash fuel contents buffer last_escape cs st :
  StringRef.chars contents = Backslash :: cs → vec_size buffer ≤ capacity →
  expand_line capacity (escape_of h) (Datatypes.S fuel) contents buffer last_escape st =
  (match StringRef.consume_front contents (escape_of h) with
   | (false, _) =>
       buffer ← lift_result (λ _, AppendChar capacity buffer Backslash);
       expand_line capacity (escape_of h) fuel (advance contents 1) buffer last_escape
   | (true, contents) =>
       match StringRef.consume_front contents [Newline] with
       | (true, contents) => mret (Some contents, buffer)
       | (false, _) =>
           '(contents, buffer) ← ExpandAndConsumeEscapeSequence capacity contents buffer;
           expand_line capacity (escape_of h) fuel contents buffer (vec_size buffer)
       end
   end) st.
Proof.
  intros E Hcap. cbn [expand_line]. rewrite E, find_if_head by done.
  rewrite (run_lift _ _ _ _ (AppendFront_nothing _ _ Hcap)).
  change (Z.to_nat 0) with 0%nat. rewrite advance_0, consume_newline, E.
  change (starts_with [Newline] (Backslash :: cs)) with false. cbv iota.
  assert (StringRef.front contents = Ok Backslash) as Hf.
  { unfold StringRef.front, StringRef.at_. by rewrite E. }
  by rewrite (run_lift _ _ _ _ Hf).
Qed.

Lemma chars_advance contents w r :
  StringRef.chars contents = w ++ r → StringRef.chars (advance contents (length w)) = r.
Proof.
  intros E. change (drop (length w) (StringRef.chars contents) = r). by rewrite E, drop_app_length.
Qed.

Lemma expand_end fuel contents buffer last_escape st :
  StringRef.chars contents = [] → vec_size buffer ≤ capacity →
  expand_line capacity (escape_of h) (Datatypes.S fuel) contents buffer last_escape st =
    Ok (None, buffer, st, []).
Proof.
  intros E Hcap. cbn [expand_line]. rewrite E. cbn [find_if].
  rewrite (run_lift _ buffer); [done|].
  unfold AppendFrontOfContents. change (take _ []) with (@nil char).
  rewrite write_ok by (change (vec_size buffer + 0 ≤ capacity); lia). by rewrite app_nil_r.
Qed.

(** Expanding an escaped string. *)
Lemma expand_escaped s : ∀ fuel contents buffer last_escape st,
  StringRef.chars contents = escaped_text h s →
  (length (escaped_text h s) < fuel)%nat →
  vec_size buffer + vec_size (escaped_text h s) ≤ capacity →
  expand_line capacity (escape_of h) fuel contents buffer last_escape st =
    Ok (None, buffer ++ s, st, []).
Proof.
  induction s as [|c s IH]; intros fuel contents buffer le st E Hf Hcap.
  { destruct fuel; [lia|]. change (escaped_text h []) with (@nil char) in *.
    rewrite app_nil_r. apply expand_end; [done|]. change (vec_size []) with 0 in Hcap. lia. }
  rewrite escaped_text_cons in *. rewrite vec_size_app in Hcap. rewrite length_app in Hf.
  pose proof (vec_size_nonneg (escaped_text h s)).
  replace (buffer ++ c :: s) with ((buffer ++ [c]) ++ s) by (by rewrite <- app_assoc).
  unfold escaped in *. destruct (escape_letter c) as [l|] eqn:Hl.
  - rewrite <- app_assoc in E. rewrite vec_size_app in Hcap. rewrite length_app in Hf.
    destruct fuel as [|fuel]; [lia|].
    assert (1 ≤ vec_size (escape_of h)).
    { unfold escape_of. rewrite (vec_size_cons Backslash). pose proof (vec_size_nonneg (hashes h)). lia. }
    change (vec_size [l]) with 1 in Hcap.
    rewrite (expand_line_backslash _ _ _ _ (hashes h ++ [l] ++ escaped_text h s)); [|done|lia].
    rewrite consume_advance, E, starts_with_app.
    pose proof (chars_advance _ _ _ E) as E1. set (contents1 := advance contents _) in *.
    rewrite consume_newline, E1.
    assert (starts_with [Newline] ([l] ++ escaped_text h s) = false) as ->.
    { apply starts_with_head. unfold escape_letter in Hl. intros <-.
      repeat case_match; discriminate. }
    erewrite bind_silent; [|by eapply ExpandAndConsume_letter; [exact Hl|exact E1|lia]].
    apply IH.
    + change (drop 1 (StringRef.chars contents1) = escaped_text h s). by rewrite E1.
    + cbn in Hf. lia.
    + rewrite vec_size_app, vec_size_one. lia.
  - destruct (escape_letter_None _ Hl) as (Hb & Hq & Hn & Ht). change (vec_size [c]) with 1 in Hcap.
    destruct fuel as [|fuel]; [lia|]. cbn [length app] in *.
    rewrite (expand_line_regular _ _ _ _ _ _ _ _ E); [| |lia].
    + apply IH; [|lia|rewrite vec_size_app, vec_size_one; lia].
      change (drop 1 (StringRef.chars contents) = escaped_text h s). by rewrite E.
    + unfold ends_regular_text. destruct (char_eqb_spec c Newline), (char_eqb_spec c Backslash); try done.
      unfold IsHorizontalWhitespace. destruct (char_eqb_spec c Tab) as [|]; [done|].
      change (char_eqb c "009") with (char_eqb c Tab).
      destruct (char_eqb_spec c Tab); [done|]. by destruct (char_eqb c " ").
Qed.

(** Expanding contents that need no validation. *)
Lemma expand_plain k body rest : ∀ fuel contents buffer last_escape st,
  scanned false (escape_of h) (terminator_of k h) false body (terminator_of k h ++ rest) →
  StringRef.chars contents = body → (length body < fuel)%nat →
  vec_size buffer + vec_size body ≤ capacity →
  expand_line capacity (escape_of h) fuel contents buffer last_escape st =
    Ok (None, buffer ++ body, st, []).
Proof.
  induction body as [|c body IH]; intros fuel contents buffer le st Hs E Hf Hcap.
  { destruct fuel; [lia|]. rewrite app_nil_r. apply expand_end; [done|].
    change (vec_size []) with 0 in Hcap. lia. }
  destruct fuel as [|fuel]; [lia|]. cbn [length] in Hf. rewrite vec_size_cons in Hcap.
  pose proof (vec_size_nonneg body).
  replace (buffer ++ c :: body) with ((buffer ++ [c]) ++ body) by (by rewrite <- app_assoc).
  assert (c ≠ Tab ∧ c ≠ Newline ∧ starts_with (escape_of h) (c :: body) = false ∧
    scanned false (escape_of h) (terminator_of k h) false body (terminator_of k h ++ rest))
    as (Ht & Hnl & He & Hs').
  { inversion Hs as [|c' needs' b r H1 H2 H3 H4 Hn|]; subst.
    rewrite Hn in *. apply orb_false_iff in Hn as [Hc ->].
    split; [intros ->; by rewrite char_eqb_refl in Hc|].
    split; [intros Hc'; by apply H3 in Hc'|]. split; [|done].
    apply not_true_iff_false. intros Hw. apply not_true_iff_false in H1. apply H1.
    apply starts_with_spec in Hw as [x Hx]. apply starts_with_spec.
    exists (x ++ terminator_of k h ++ rest). by rewrite app_comm_cons, Hx, <- app_assoc. }
  assert (StringRef.chars (advance contents 1) = body) as E1.
  { change (drop 1 (StringRef.chars contents) = body). by rewrite E. }
  destruct (char_eqb_spec c Backslash) as [->|Hb].
  - rewrite (expand_line_backslash _ _ _ _ body); [|done|lia].
    rewrite consume_advance, E, He.
    rewrite (run_lift _ _ _ _ (AppendChar_ok capacity buffer Backslash ltac:(lia))).
    apply IH; try done; [lia|]. rewrite vec_size_app, vec_size_one. lia.
  - rewrite (expand_line_regular _ _ _ _ _ _ _ _ E); [| |lia].
    + apply IH; try done; [lia|]. rewrite vec_size_app, vec_size_one. lia.
    + unfold ends_regular_text, IsHorizontalWhitespace. change (char_eqb c "009") with (char_eqb c Tab).
      destruct (char_eqb_spec c Newline), (char_eqb_spec c Backslash), (char_eqb_spec c Tab); try done.
      by destruct (char_eqb c " ").
Qed.

(** A line without line breaks is all of the contents. *)
Lemma expand_lines_single contents buffer st :
  (∀ fuel, (length (StringRef.chars contents) < fuel)%nat →
     expand_line capacity (escape_of h) fuel contents [] 0 st = Ok (None, buffer, st, [])) →
  ExpandEscapeSequencesAndRemoveIndent capacity contents (Z.of_nat h) [] st =
    Ok (buffer, st, []).
Proof.
  intros Hl. unfold ExpandEscapeSequencesAndRemoveIndent. rewrite Nat2Z.id.
  rewrite Nat.add_1_r. cbn [expand_lines]. rewrite consume_advance.
  change (starts_with [] (StringRef.chars contents)) with true. cbv iota.
  change (length []) with 0%nat. rewrite advance_0.
  rewrite (bind_silent (mret contents) _ st contents st) by done.
  erewrite bind_silent; [|apply Hl; lia]. done.
Qed.
End expand.

(** * Lexing a written literal *)

Section lex.
Context (source : StringRef.t) (h : nat) (prefix_len : Z).

Definition needs_escape (c : char) : bool := is_some (escape_letter c).

Lemma scan_escaped s : ∀ fuel cursor needs after,
  (length (escaped_text h s) < fuel)%nat →
  scan source (Z.of_nat h) prefix_len SingleLine (terminator_of SingleLine h) (escape_of h)
    fuel cursor (escaped_text h s ++ terminator_of SingleLine h ++ after) needs =
  Ok {| text_ := StringRef.substr source 0
          (cursor + vec_size (escaped_text h s) + vec_size (terminator_of SingleLine h));
        content_ := StringRef.substr source prefix_len
          (cursor + vec_size (escaped_text h s) - prefix_len);
        content_needs_validation_ := needs || existsb needs_escape s;
        hash_level_ := Z.of_nat h; kind_ := SingleLine;
        is_terminated_ := true; has_invalid_introducer_ := false |}.
Proof.
  induction s as [|c s IH]; intros fuel cursor needs after Hf; (destruct fuel as [|fuel]; [lia|]).
  { change (escaped_text h []) with (@nil char). cbn [app scan].
    change (terminator_of SingleLine h ++ after) with (Quote :: hashes h ++ after).
    cbv beta iota. change (InterestingChars Quote) with true. eval_chars. cbn [negb].
    change (Quote :: hashes h ++ after) with (terminator_of SingleLine h ++ after).
    rewrite starts_with_app. cbn [existsb]. rewrite orb_false_r.
    by replace (cursor + vec_size []) with cursor by (unfold vec_size; cbn; lia). }
  rewrite escaped_text_cons, <- app_assoc, vec_size_app. rewrite escaped_text_cons, length_app in Hf.
  cbn [existsb]. unfold escaped in *. unfold needs_escape at 1.
  destruct (escape_letter c) as [l|] eqn:Hl; cbn [is_some].
  - rewrite <- app_assoc. rewrite length_app in Hf. cbn [length] in Hf.
    change (escape_of h ++ [l] ++ escaped_text h s ++ terminator_of SingleLine h ++ after)
      with (Backslash :: hashes h ++ [l] ++ escaped_text h s ++ terminator_of SingleLine h ++ after).
    cbn [scan]. change (InterestingChars Backslash) with true. eval_chars. cbn [negb].
    rewrite (escape_test _ Backslash) by done.
    change (Backslash :: hashes h ++ [l] ++ escaped_text h s ++ terminator_of SingleLine h ++ after)
      with (escape_of h ++ [l] ++ escaped_text h s ++ terminator_of SingleLine h ++ after).
    rewrite starts_with_app, drop_app_length. cbn [app].
    assert (char_eqb l Newline = false) as ->.
    { unfold escape_letter in Hl. destruct (char_eqb_spec l Newline) as [->|]; [|done].
      repeat case_match; discriminate. }
    cbn [andb negb]. rewrite andb_false_r. rewrite IH by lia. rewrite orb_true_r. cbn [orb].
    f_equal. f_equal; f_equal; rewrite vec_size_app, vec_size_one; lia.
  - destruct (escape_letter_None _ Hl) as (Hb & Hq & Hn & Ht). cbn [app scan length] in *.
    assert (InterestingChars c = true → c = Apostrophe) as Hi.
    { unfold InterestingChars. cbn. rewrite !orb_true_iff, !char_eqb_eq. naive_solver. }
    assert (∀ P Q : Result t, (if negb (InterestingChars c) then P else
      if char_eqb c Tab then Q else P) = P) as _ by (intros; by destruct (InterestingChars c), (char_eqb_spec c Tab)).
    assert (starts_with (terminator_of SingleLine h)
      (c :: escaped_text h s ++ terminator_of SingleLine h ++ after) = false) as ->.
    { apply starts_with_head. congruence. }
    destruct (char_eqb_spec c Tab), (char_eqb_spec c Backslash), (char_eqb_spec c Newline); try done.
    cbn [orb]. rewrite vec_size_one.
    destruct (negb (InterestingChars c)); rewrite IH by lia; do 2 f_equal; f_equal; lia.
Qed.
End lex.

Lemma count_hashes_literal h c r :
  c ≠ "#"%char → count_hashes (hashes h ++ c :: r) = h.
Proof.
  intros Hc. unfold count_hashes, hashes. induction h as [|h IH]; cbn.
  - destruct (char_eqb_spec "#" c); [congruence|done].
  - change (char_eqb "#" "#") with true. cbn. by rewrite IH.
Qed.

(** The introducer of a written literal is not that of a block string. *)
Lemma LexIntroducer_literal h s after :
  s ≠ [] ∨ h ≠ 0%nat ∨ starts_with [Quote] after = false →
  LexIntroducer (Quote :: escaped_text h s ++ terminator_of SingleLine h ++ after) =
    Some {| kind := SingleLine; terminator := [Quote]; prefix_size := 1; is_valid := true |}.
Proof.
  intros Hcond. unfold LexIntroducer. set (rest := escaped_text h s ++ _).
  change (starts_with MultiLineIndicator (Quote :: rest)) with false.
  assert (starts_with DoubleQuotedMultiLineIndicator (Quote :: rest) = false) as ->; [|done].
  unfold DoubleQuotedMultiLineIndicator. rewrite starts_with_cons. cbn [andb].
  change (char_eqb Quote Quote) with true. cbn [andb]. subst rest.
  destruct s as [|c s].
  - change (escaped_text h [] ++ terminator_of SingleLine h ++ after)
      with (Quote :: hashes h ++ after).
    rewrite starts_with_cons. change (char_eqb Quote Quote) with true. cbn [andb].
    destruct h as [|h]; [|done]. destruct Hcond as [?|[?|H]]; [done|done|exact H].
  - rewrite escaped_text_cons, <- app_assoc. unfold escaped.
    destruct (escape_letter c) eqn:Hl; [done|].
    destruct (escape_letter_None _ Hl) as (_ & Hq & _). apply starts_with_head. congruence.
Qed.

Lemma Lex_literal_of src h s after :
  StringRef.size src < 2 ^ 31 →
  StringRef.chars src = literal_of h s ++ after →
  s ≠ [] ∨ h ≠ 0%nat ∨ starts_with [Quote] after = false →
  ∃ l, Lex src = Ok (Some l) ∧ kind_ l = SingleLine ∧ is_terminated_ l = true ∧
    hash_level_ l = Z.of_nat h ∧ StringRef.chars (text_ l) = literal_of h s ∧
    StringRef.chars (content_ l) = escaped_text h s ∧
    content_needs_validation_ l = existsb needs_escape s.
Proof.
  intros Hsize E Hcond.
  assert (StringRef.chars src =
    hashes h ++ Quote :: escaped_text h s ++ terminator_of SingleLine h ++ after) as E'.
  { rewrite E. unfold literal_of. by rewrite <- !app_assoc. }
  unfold Lex. rewrite E', count_hashes_literal by done.
  assert (vec_size (hashes h) = Z.of_nat h) as Hh.
  { unfold vec_size, hashes. by rewrite length_replicate. }
  replace (drop h (hashes h ++ _)) with
    (Quote :: escaped_text h s ++ terminator_of SingleLine h ++ after).
  2:{ rewrite drop_app_length'; [done|]. unfold hashes. by rewrite length_replicate. }
  rewrite LexIntroducer_literal by done. cbn [is_valid negb kind terminator prefix_size].
  replace (drop (Z.to_nat (Z.of_nat h + 1)) _) with
    (escaped_text h s ++ terminator_of SingleLine h ++ after).
  2:{ change (Quote :: escaped_text h s ++ terminator_of SingleLine h ++ after)
        with ([Quote] ++ escaped_text h s ++ terminator_of SingleLine h ++ after).
      rewrite (app_assoc (hashes h) [Quote]), drop_app_length'; [done|].
      rewrite length_app. unfold vec_size in Hh. cbn [length]. lia. }
  change ([Quote] ++ hashes h) with (terminator_of SingleLine h).
  change (Backslash :: hashes h) with (escape_of h).
  rewrite scan_escaped by (rewrite !length_app; lia).
  cbv [mbind Result_bind mret Result_ret]. eexists. split; [reflexivity|].
  cbn [kind_ is_terminated_ hash_level_ text_ content_ content_needs_validation_].
  split; [done|]. split; [done|]. split; [done|].
  assert (vec_size (terminator_of SingleLine h) = 1 + Z.of_nat h) as Ht.
  { unfold terminator_of. rewrite vec_size_app, Hh. done. }
  assert (StringRef.size src = Z.of_nat h + 1 + vec_size (escaped_text h s) +
    vec_size (terminator_of SingleLine h) + vec_size after) as Hs.
  { unfold StringRef.size. rewrite E', vec_size_app, vec_size_cons, !vec_size_app, Hh. lia. }
  pose proof (vec_size_nonneg after). pose proof (vec_size_nonneg (escaped_text h s)).
  pose proof (vec_size_nonneg (terminator_of SingleLine h)).
  split; [|split; [|done]].
  - rewrite StringRef.substr_all_in by lia. cbn [StringRef.chars]. rewrite E.
    change (Z.to_nat 0) with 0%nat. rewrite drop_0.
    replace (Z.to_nat _) with (length (literal_of h s)); [apply take_app_length|].
    unfold literal_of. rewrite !length_app. unfold vec_size in *. cbn [length]. lia.
  - rewrite StringRef.substr_all_in by lia. cbn [StringRef.chars]. rewrite E'.
    change (Quote :: escaped_text h s ++ terminator_of SingleLine h ++ after)
      with ([Quote] ++ escaped_text h s ++ terminator_of SingleLine h ++ after).
    rewrite (app_assoc (hashes h) [Quote]), drop_app_length'
      by (rewrite length_app; unfold vec_size in Hh; cbn [length]; lia).
    replace (Z.to_nat _) with (length (escaped_text h s)) by (unfold vec_size; lia).
    apply take_app_length.
Qed.

Lemma escaped_text_size h s : vec_size s ≤ vec_size (escaped_text h s).
Proof.
  induction s as [|c s IH]; [done|]. rewrite escaped_text_cons, vec_size_app, vec_size_cons.
  assert (1 ≤ vec_size (escaped h c)); [|lia]. unfold escaped.
  destruct (escape_letter c); [|done]. rewrite vec_size_app, vec_size_one.
  pose proof (vec_size_nonneg (escape_of h)). lia.
Qed.

Lemma escaped_text_plain h s : existsb needs_escape s = false → escaped_text h s = s.
Proof.
  induction s as [|c s IH]; [done|]. cbn [existsb]. rewrite orb_false_iff. intros [Hc Hs].
  rewrite escaped_text_cons, IH by done. unfold escaped, needs_escape in *.
  by destruct (escape_letter c).
Qed.

(** * The theorems *)

(** Evaluation after lexing: the value of any terminated literal, on its kind. *)
Definition evaluates {S} `{ConvertUTF} (l : t) (s : S) : Prop :=
  if bool_decide (kind_ l = Char) then
    ∃ o w, ComputeCharLiteralValue l s = Ok (o, s, w) ∧
      match o with Some v => scalar_value v | None => w ≠ [] end
  else
    ∃ v w, ComputeStringValue l s = Ok (v, s, w) ∧
      vec_size v ≤ StringRef.size (content_ l).

(** C34. Every terminated literal that [Lex] returns can be evaluated: no check
    fails, no escape sequence runs past the content, every write stays inside
    the buffer allocated for the content (also in the middle of the
    expansion, before trailing whitespace is dropped), and the loops end. The
    value of a string is no longer than its content; a character literal gives
    a Unicode scalar value, or none and a diagnostic. *)
Theorem string_evaluation_in_bounds {Utf : ConvertUTF} {Laws : ConvertUTFLaws Utf}
    {S} src l (s : S) :
  StringRef.size src < 2 ^ 31 → Lex src = Ok (Some l) → is_terminated_ l = true →
  evaluates l s.
Proof.
  intros Hsize Hl Ht. unfold evaluates. destruct (decide (kind_ l = Char)) as [Hk|Hk].
  - rewrite bool_decide_true by done. by eapply ComputeCharLiteralValue_ok.
  - rewrite bool_decide_false by done. by eapply ComputeStringValue_ok.
Qed.

(** The fast path of [ComputeStringValue] taken away: the content is always
    expanded. *)
Definition ComputeStringValueSlowly {Utf : ConvertUTF} {S} (l : t)
    : Action S LexDiagnostic (list char) :=
  ExpandEscapeSequencesAndRemoveIndent (StringRef.size (content_ l)) (content_ l)
    (hash_level_ l) [].

(** C36. On a single-line literal whose content was not marked for validation,
    returning the content as it is agrees with expanding it. *)
Theorem fast_path_agrees {Utf : ConvertUTF} {S} src l (s : S) :
  StringRef.size src < 2 ^ 31 → Lex src = Ok (Some l) → is_terminated_ l = true →
  kind_ l = SingleLine → content_needs_validation_ l = false →
  ComputeStringValue l s = Ok (StringRef.chars (content_ l), s, []) ∧
  ComputeStringValueSlowly l s = Ok (StringRef.chars (content_ l), s, []).
Proof.
  intros Hsize Hl Ht Hk Hn.
  destruct (lexed_content _ _ Hsize Hl Ht) as (h & after & needs & Hh & Hs & Hv & _).
  rewrite (Hv Hn), Hk in Hs. split.
  - unfold ComputeStringValue. rewrite Hk, Ht, Hn. done.
  - unfold ComputeStringValueSlowly. rewrite Hh. apply expand_lines_single. intros fuel Hf.
    apply (expand_plain _ _ SingleLine _ after fuel _ [] 0 s Hs); [done|done|].
    unfold StringRef.size. change (vec_size []) with 0. lia.
Qed.


(** * Samples *)

(** A raw string with a Unicode escape and a tab. *)
Definition sample_source : StringRef.t :=
  StringRef.mk 9 (hashes 1 ++ [Quote] ++ str "a\#u{70AD}" ++ [Tab] ++ str "\#0" ++ [Quote] ++
    hashes 1 ++ str " + 1").

Definition no_literal : t :=
  {| text_ := StringRef.mk 0 []; content_ := StringRef.mk 0 [];
     content_needs_validation_ := false; hash_level_ := 0; kind_ := SingleLine;
     is_terminated_ := false; has_invalid_introducer_ := false |}.

Definition lexed (src : StringRef.t) : t :=
  match Lex src with Ok (Some l) => l | _ => no_literal end.

Lemma string_evaluation_in_bounds_witness :
  StringRef.size sample_source < 2 ^ 31 ∧ Lex sample_source = Ok (Some (lexed sample_source)) ∧
  is_terminated_ (lexed sample_source) = true ∧
  evaluates (lexed sample_source) tt.
Proof.
  split; [reflexivity|]. split; [vm_compute; reflexivity|]. split; [vm_compute; reflexivity|].
  apply (string_evaluation_in_bounds sample_source); vm_compute; reflexivity.
Defined.

Definition plain_source : StringRef.t :=
  StringRef.mk 0 (hashes 2 ++ [Quote] ++ str "a\n \#" ++ [Quote] ++ hashes 2 ++ str ";").

Lemma fast_path_agrees_witness :
  Lex plain_source = Ok (Some (lexed plain_source)) ∧
  ComputeStringValue (lexed plain_source) tt =
    Ok (StringRef.chars (content_ (lexed plain_source)), tt, []) ∧
  ComputeStringValueSlowly (lexed plain_source) tt =
    Ok (StringRef.chars (content_ (lexed plain_source)), tt, []).
Proof.
  split; [vm_compute; reflexivity|].
  apply (fast_path_agrees plain_source); vm_compute; reflexivity.
Defined.

Definition written_string : list char := [Quote; Newline; Backslash; Tab; "z"%char; "255"%char].


(** A block string of two lines, the first with trailing spaces, without and
    with an indent. *)
Definition block_source (indent : list char) : StringRef.t :=
  StringRef.mk 0 (MultiLineIndicator ++ [Newline] ++ indent ++ str "ab  " ++ [Newline] ++
    indent ++ MultiLineIndicator).

(** The fast path keeps what the expansion drops: trailing spaces on the lines
    of a block string stay in its value when its closing quotes are not
    indented, and are removed when they are. *)
Theorem unindented_block_keeps_trailing_space :
  ComputeStringValue (lexed (block_source [])) tt =
    Ok (str "ab  " ++ [Newline], tt, []) ∧
  ComputeStringValueSlowly (lexed (block_source [])) tt = Ok (str "ab" ++ [Newline], tt, []) ∧
  ComputeStringValue (lexed (block_source (str " "))) tt =
    Ok (str "ab" ++ [Newline], tt, []).
Proof. vm_compute. repeat split. Qed.
