(* ===== verification/StateKinds.v ===== *)
(** Parser states: [Parse::StateKind], the enumerators of
    [toolchain/parse/state.def]. *)

From S2P Require Import Prelude.

Module StateKind.

Inductive t : Set :=
  | Invalid | IndexExpr | IndexExprFinish | ArrayExpr | ArrayExprComma
  | ArrayExprFinish | FormLiteral | PrimitiveForm | PrimitiveFormFinish
  | FormLiteralFinish | TypeOfExpr | TypeOfExprFinish | BraceExpr
  | BraceExprParamAsType | BraceExprParamAsValue | BraceExprParamAsUnknown
  | BraceExprParamAfterDesignatorAsType
  | BraceExprParamAfterDesignatorAsValue
  | BraceExprParamAfterDesignatorAsUnknown | BraceExprParamFinishAsType
  | BraceExprParamFinishAsValue | BraceExprParamFinishAsUnknown
  | BraceExprFinishAsType | BraceExprFinishAsValue | BraceExprFinishAsUnknown
  | CallExpr | CallExprFinish | CodeBlock | CodeBlockFinish
  | DeclNameAndParams | DeclNameAndParamsAfterImplicit
  | DeclNameAndParamsAfterParams | DeclAsClass | DeclAsInterface
  | DeclAsRegular | DeclAsUnion | DeclScopeLoopAsClass
  | DeclScopeLoopAsInterface | DeclScopeLoopAsRegular | DeclScopeLoopAsUnion
  | InlineDeclAfterIntroducer | PeriodAsExpr | PeriodAsStruct
  | CompoundMemberAccess | CompoundPointerMemberAccess | ArrowExpr | Expr
  | ExprInPostfix | ExprInPostfixLoop | ExprLoop | ExprLoopForInfixOperator
  | ExprLoopForPrefixOperator | ExprLoopForShortCircuitOperatorAsAnd
  | ExprLoopForShortCircuitOperatorAsOr | IfExprFinishCondition
  | IfExprFinishThen | IfExprFinishElse | IfExprFinish | RequirementBegin
  | RequirementOperator | RequirementOperatorFinish | WhereFinish
  | ExprStatementFinish | FriendDecl | FunctionIntroducer | LambdaIntroducer
  | LambdaAfterIntroducer | LambdaAfterImplicitParams | LambdaAfterParams
  | LambdaBody | LambdaBodyFinish | FunctionAfterParams
  | FunctionReturnTypeFinish | FunctionReturnFormFinish
  | FunctionSignatureFinish | FunctionDefinitionFinish
  | FunctionTerseBodyFinish | ExportName | ExportNameFinish | Import
  | Library | MatchFirst | MatchFirstFinish | Namespace | NamespaceFinish
  | Package | Alias | AliasAfterName | AliasFinish
  | PatternListElementAsTuple | PatternListElementAsStruct
  | PatternListElementAsExplicit | PatternListElementAsImplicit
  | PackExpansionPatternFinish | PatternListElementCheckForDefaultValue
  | PatternListElementFinishDefaultValue | PatternListElementFinishAsTuple
  | PatternListElementFinishAsStruct | PatternListElementFinishAsExplicit
  | PatternListElementFinishAsImplicit | PatternListAsTuple
  | PatternListAsStruct | PatternListAsExplicit | PatternListAsImplicit
  | PatternListFinishAsParen | PatternListFinishAsTuple
  | PatternListFinishAsStruct | PatternListFinishAsExplicit
  | PatternListFinishAsImplicit | StructPatternDesignatedFieldFinish
  | StructPatternFieldAfterDesignator | StructPatternUnderscore
  | ParenConditionAsIf | ParenConditionAsWhile | ParenConditionAsMatch
  | ParenConditionFinishAsIf | ParenConditionFinishAsWhile
  | ParenConditionFinishAsMatch | PatternConditionAfterPattern
  | OnlyParenExpr | OnlyParenExprFinish | ParenExpr | TupleLiteralFinish
  | ExprAfterOpenParenFinish | TupleLiteralElementFinish
  | TupleLiteralElement | PackExpansionExprFinish | ParenExprFinish | Pattern
  | ExprPattern | BindingPattern | BindingPatternFinishAsGeneric
  | BindingPatternFinishAsRegular | BindingPatternFinishAsForm
  | VariablePattern | FinishVariablePattern | UnusedPattern
  | FinishUnusedPattern | Statement | StatementBreakFinish
  | StatementContinueFinish | StatementForHeader | StatementForHeaderIn
  | StatementForHeaderFinish | StatementForFinish | StatementIf
  | StatementIfConditionFinish | StatementIfThenBlockFinish
  | StatementIfElseBlockFinish | StatementReturn | StatementReturnFinish
  | StatementPackExpansionFinish | StatementScopeLoop | StatementWhile
  | StatementWhileConditionFinish | StatementWhileBlockFinish
  | DeclDefinitionFinishAsClass | DeclDefinitionFinishAsImpl
  | DeclDefinitionFinishAsInterface | DeclDefinitionFinishAsNamedConstraint
  | DeclDefinitionFinishAsUnion | TypeAfterIntroducerAsClass
  | TypeAfterIntroducerAsInterface | TypeAfterIntroducerAsNamedConstraint
  | TypeAfterIntroducerAsUnion | DeclOrDefinitionAsClass
  | DeclOrDefinitionAsImpl | DeclOrDefinitionAsInterface
  | DeclOrDefinitionAsNamedConstraint | DeclOrDefinitionAsUnion
  | AdaptAfterIntroducer | AdaptDecl | BaseAfterIntroducer | BaseDecl
  | ImplAfterIntroducer | ImplAfterForall | ImplBeforeAs
  | RequireAfterIntroducer | RequireBeforeImpls | RequireDecl
  | ObserveAfterIntroducer | ObserveOperator | ObserveFinishOperator
  | ObserveDecl | VarAsRegular | VarAsReturned | VarAfterPattern | VarFinish
  | Let | LetAfterPatternAsRegular | LetAfterPatternAsAssociatedConstant
  | LetFinishAsRegular | LetFinishAsAssociatedConstant | LetElseFinish
  | AssociatedConstant | ChoiceIntroducer | ChoiceDefinitionStart
  | ChoiceAlternative | ChoiceAlternativeFinish | ChoiceDefinitionFinish
  | MatchIntroducer | MatchConditionFinish | MatchCaseLoop
  | MatchCaseIntroducer | MatchCaseAlternativePattern
  | MatchCaseAlternativePatternFinish | MatchCaseAfterPattern
  | MatchCaseGuardFinish | MatchCaseStart | MatchDefaultIntroducer
  | MatchGuardedDefaultStart | MatchHandlerFinish | MatchCaseLoopAfterDefault
  | MatchStatementFinish.

(** The enumerator's position in the X-macro file. *)
Definition AsInt (k : t) : Z :=
  match k with
    | Invalid => 0 | IndexExpr => 1 | IndexExprFinish => 2 | ArrayExpr => 3
    | ArrayExprComma => 4 | ArrayExprFinish => 5 | FormLiteral => 6
    | PrimitiveForm => 7 | PrimitiveFormFinish => 8 | FormLiteralFinish => 9
    | TypeOfExpr => 10 | TypeOfExprFinish => 11 | BraceExpr => 12
    | BraceExprParamAsType => 13 | BraceExprParamAsValue => 14
    | BraceExprParamAsUnknown => 15
    | BraceExprParamAfterDesignatorAsType => 16
    | BraceExprParamAfterDesignatorAsValue => 17
    | BraceExprParamAfterDesignatorAsUnknown => 18
    | BraceExprParamFinishAsType => 19 | BraceExprParamFinishAsValue => 20
    | BraceExprParamFinishAsUnknown => 21 | BraceExprFinishAsType => 22
    | BraceExprFinishAsValue => 23 | BraceExprFinishAsUnknown => 24
    | CallExpr => 25 | CallExprFinish => 26 | CodeBlock => 27
    | CodeBlockFinish => 28 | DeclNameAndParams => 29
    | DeclNameAndParamsAfterImplicit => 30
    | DeclNameAndParamsAfterParams => 31 | DeclAsClass => 32
    | DeclAsInterface => 33 | DeclAsRegular => 34 | DeclAsUnion => 35
    | DeclScopeLoopAsClass => 36 | DeclScopeLoopAsInterface => 37
    | DeclScopeLoopAsRegular => 38 | DeclScopeLoopAsUnion => 39
    | InlineDeclAfterIntroducer => 40 | PeriodAsExpr => 41
    | PeriodAsStruct => 42 | CompoundMemberAccess => 43
    | CompoundPointerMemberAccess => 44 | ArrowExpr => 45 | Expr => 46
    | ExprInPostfix => 47 | ExprInPostfixLoop => 48 | ExprLoop => 49
    | ExprLoopForInfixOperator => 50 | ExprLoopForPrefixOperator => 51
    | ExprLoopForShortCircuitOperatorAsAnd => 52
    | ExprLoopForShortCircuitOperatorAsOr => 53 | IfExprFinishCondition => 54
    | IfExprFinishThen => 55 | IfExprFinishElse => 56 | IfExprFinish => 57
    | RequirementBegin => 58 | RequirementOperator => 59
    | RequirementOperatorFinish => 60 | WhereFinish => 61
    | ExprStatementFinish => 62 | FriendDecl => 63 | FunctionIntroducer => 64
    | LambdaIntroducer => 65 | LambdaAfterIntroducer => 66
    | LambdaAfterImplicitParams => 67 | LambdaAfterParams => 68
    | LambdaBody => 69 | LambdaBodyFinish => 70 | FunctionAfterParams => 71
    | FunctionReturnTypeFinish => 72 | FunctionReturnFormFinish => 73
    | FunctionSignatureFinish => 74 | FunctionDefinitionFinish => 75
    | FunctionTerseBodyFinish => 76 | ExportName => 77
    | ExportNameFinish => 78 | Import => 79 | Library => 80
    | MatchFirst => 81 | MatchFirstFinish => 82 | Namespace => 83
    | NamespaceFinish => 84 | Package => 85 | Alias => 86
    | AliasAfterName => 87 | AliasFinish => 88
    | PatternListElementAsTuple => 89 | PatternListElementAsStruct => 90
    | PatternListElementAsExplicit => 91 | PatternListElementAsImplicit => 92
    | PackExpansionPatternFinish => 93
    | PatternListElementCheckForDefaultValue => 94
    | PatternListElementFinishDefaultValue => 95
    | PatternListElementFinishAsTuple => 96
    | PatternListElementFinishAsStruct => 97
    | PatternListElementFinishAsExplicit => 98
    | PatternListElementFinishAsImplicit => 99 | PatternListAsTuple => 100
    | PatternListAsStruct => 101 | PatternListAsExplicit => 102
    | PatternListAsImplicit => 103 | PatternListFinishAsParen => 104
    | PatternListFinishAsTuple => 105 | PatternListFinishAsStruct => 106
    | PatternListFinishAsExplicit => 107 | PatternListFinishAsImplicit => 108
    | StructPatternDesignatedFieldFinish => 109
    | StructPatternFieldAfterDesignator => 110
    | StructPatternUnderscore => 111 | ParenConditionAsIf => 112
    | ParenConditionAsWhile => 113 | ParenConditionAsMatch => 114
    | ParenConditionFinishAsIf => 115 | ParenConditionFinishAsWhile => 116
    | ParenConditionFinishAsMatch => 117
    | PatternConditionAfterPattern => 118 | OnlyParenExpr => 119
    | OnlyParenExprFinish => 120 | ParenExpr => 121
    | TupleLiteralFinish => 122 | ExprAfterOpenParenFinish => 123
    | TupleLiteralElementFinish => 124 | TupleLiteralElement => 125
    | PackExpansionExprFinish => 126 | ParenExprFinish => 127
    | Pattern => 128 | ExprPattern => 129 | BindingPattern => 130
    | BindingPatternFinishAsGeneric => 131
    | BindingPatternFinishAsRegular => 132
    | BindingPatternFinishAsForm => 133 | VariablePattern => 134
    | FinishVariablePattern => 135 | UnusedPattern => 136
    | FinishUnusedPattern => 137 | Statement => 138
    | StatementBreakFinish => 139 | StatementContinueFinish => 140
    | StatementForHeader => 141 | StatementForHeaderIn => 142
    | StatementForHeaderFinish => 143 | StatementForFinish => 144
    | StatementIf => 145 | StatementIfConditionFinish => 146
    | StatementIfThenBlockFinish => 147 | StatementIfElseBlockFinish => 148
    | StatementReturn => 149 | StatementReturnFinish => 150
    | StatementPackExpansionFinish => 151 | StatementScopeLoop => 152
    | StatementWhile => 153 | StatementWhileConditionFinish => 154
    | StatementWhileBlockFinish => 155 | DeclDefinitionFinishAsClass => 156
    | DeclDefinitionFinishAsImpl => 157
    | DeclDefinitionFinishAsInterface => 158
    | DeclDefinitionFinishAsNamedConstraint => 159
    | DeclDefinitionFinishAsUnion => 160 | TypeAfterIntroducerAsClass => 161
    | TypeAfterIntroducerAsInterface => 162
    | TypeAfterIntroducerAsNamedConstraint => 163
    | TypeAfterIntroducerAsUnion => 164 | DeclOrDefinitionAsClass => 165
    | DeclOrDefinitionAsImpl => 166 | DeclOrDefinitionAsInterface => 167
    | DeclOrDefinitionAsNamedConstraint => 168
    | DeclOrDefinitionAsUnion => 169 | AdaptAfterIntroducer => 170
    | AdaptDecl => 171 | BaseAfterIntroducer => 172 | BaseDecl => 173
    | ImplAfterIntroducer => 174 | ImplAfterForall => 175
    | ImplBeforeAs => 176 | RequireAfterIntroducer => 177
    | RequireBeforeImpls => 178 | RequireDecl => 179
    | ObserveAfterIntroducer => 180 | ObserveOperator => 181
    | ObserveFinishOperator => 182 | ObserveDecl => 183 | VarAsRegular => 184
    | VarAsReturned => 185 | VarAfterPattern => 186 | VarFinish => 187
    | Let => 188 | LetAfterPatternAsRegular => 189
    | LetAfterPatternAsAssociatedConstant => 190 | LetFinishAsRegular => 191
    | LetFinishAsAssociatedConstant => 192 | LetElseFinish => 193
    | AssociatedConstant => 194 | ChoiceIntroducer => 195
    | ChoiceDefinitionStart => 196 | ChoiceAlternative => 197
    | ChoiceAlternativeFinish => 198 | ChoiceDefinitionFinish => 199
    | MatchIntroducer => 200 | MatchConditionFinish => 201
    | MatchCaseLoop => 202 | MatchCaseIntroducer => 203
    | MatchCaseAlternativePattern => 204
    | MatchCaseAlternativePatternFinish => 205 | MatchCaseAfterPattern => 206
    | MatchCaseGuardFinish => 207 | MatchCaseStart => 208
    | MatchDefaultIntroducer => 209 | MatchGuardedDefaultStart => 210
    | MatchHandlerFinish => 211 | MatchCaseLoopAfterDefault => 212
    | MatchStatementFinish => 213
  end.

(** Every enumerator, in declaration order. *)
Definition all : list t := [
    Invalid; IndexExpr; IndexExprFinish; ArrayExpr; ArrayExprComma;
    ArrayExprFinish; FormLiteral; PrimitiveForm; PrimitiveFormFinish;
    FormLiteralFinish; TypeOfExpr; TypeOfExprFinish; BraceExpr;
    BraceExprParamAsType; BraceExprParamAsValue; BraceExprParamAsUnknown;
    BraceExprParamAfterDesignatorAsType;
    BraceExprParamAfterDesignatorAsValue;
    BraceExprParamAfterDesignatorAsUnknown; BraceExprParamFinishAsType;
    BraceExprParamFinishAsValue; BraceExprParamFinishAsUnknown;
    BraceExprFinishAsType; BraceExprFinishAsValue; BraceExprFinishAsUnknown;
    CallExpr; CallExprFinish; CodeBlock; CodeBlockFinish; DeclNameAndParams;
    DeclNameAndParamsAfterImplicit; DeclNameAndParamsAfterParams;
    DeclAsClass; DeclAsInterface; DeclAsRegular; DeclAsUnion;
    DeclScopeLoopAsClass; DeclScopeLoopAsInterface; DeclScopeLoopAsRegular;
    DeclScopeLoopAsUnion; InlineDeclAfterIntroducer; PeriodAsExpr;
    PeriodAsStruct; CompoundMemberAccess; CompoundPointerMemberAccess;
    ArrowExpr; Expr; ExprInPostfix; ExprInPostfixLoop; ExprLoop;
    ExprLoopForInfixOperator; ExprLoopForPrefixOperator;
    ExprLoopForShortCircuitOperatorAsAnd;
    ExprLoopForShortCircuitOperatorAsOr; IfExprFinishCondition;
    IfExprFinishThen; IfExprFinishElse; IfExprFinish; RequirementBegin;
    RequirementOperator; RequirementOperatorFinish; WhereFinish;
    ExprStatementFinish; FriendDecl; FunctionIntroducer; LambdaIntroducer;
    LambdaAfterIntroducer; LambdaAfterImplicitParams; LambdaAfterParams;
    LambdaBody; LambdaBodyFinish; FunctionAfterParams;
    FunctionReturnTypeFinish; FunctionReturnFormFinish;
    FunctionSignatureFinish; FunctionDefinitionFinish;
    FunctionTerseBodyFinish; ExportName; ExportNameFinish; Import; Library;
    MatchFirst; MatchFirstFinish; Namespace; NamespaceFinish; Package; Alias;
    AliasAfterName; AliasFinish; PatternListElementAsTuple;
    PatternListElementAsStruct; PatternListElementAsExplicit;
    PatternListElementAsImplicit; PackExpansionPatternFinish;
    PatternListElementCheckForDefaultValue;
    PatternListElementFinishDefaultValue; PatternListElementFinishAsTuple;
    PatternListElementFinishAsStruct; PatternListElementFinishAsExplicit;
    PatternListElementFinishAsImplicit; PatternListAsTuple;
    PatternListAsStruct; PatternListAsExplicit; PatternListAsImplicit;
    PatternListFinishAsParen; PatternListFinishAsTuple;
    PatternListFinishAsStruct; PatternListFinishAsExplicit;
    PatternListFinishAsImplicit; StructPatternDesignatedFieldFinish;
    StructPatternFieldAfterDesignator; StructPatternUnderscore;
    ParenConditionAsIf; ParenConditionAsWhile; ParenConditionAsMatch;
    ParenConditionFinishAsIf; ParenConditionFinishAsWhile;
    ParenConditionFinishAsMatch; PatternConditionAfterPattern; OnlyParenExpr;
    OnlyParenExprFinish; ParenExpr; TupleLiteralFinish;
    ExprAfterOpenParenFinish; TupleLiteralElementFinish; TupleLiteralElement;
    PackExpansionExprFinish; ParenExprFinish; Pattern; ExprPattern;
    BindingPattern; BindingPatternFinishAsGeneric;
    BindingPatternFinishAsRegular; BindingPatternFinishAsForm;
    VariablePattern; FinishVariablePattern; UnusedPattern;
    FinishUnusedPattern; Statement; StatementBreakFinish;
    StatementContinueFinish; StatementForHeader; StatementForHeaderIn;
    StatementForHeaderFinish; StatementForFinish; StatementIf;
    StatementIfConditionFinish; StatementIfThenBlockFinish;
    StatementIfElseBlockFinish; StatementReturn; StatementReturnFinish;
    StatementPackExpansionFinish; StatementScopeLoop; StatementWhile;
    StatementWhileConditionFinish; StatementWhileBlockFinish;
    DeclDefinitionFinishAsClass; DeclDefinitionFinishAsImpl;
    DeclDefinitionFinishAsInterface; DeclDefinitionFinishAsNamedConstraint;
    DeclDefinitionFinishAsUnion; TypeAfterIntroducerAsClass;
    TypeAfterIntroducerAsInterface; TypeAfterIntroducerAsNamedConstraint;
    TypeAfterIntroducerAsUnion; DeclOrDefinitionAsClass;
    DeclOrDefinitionAsImpl; DeclOrDefinitionAsInterface;
    DeclOrDefinitionAsNamedConstraint; DeclOrDefinitionAsUnion;
    AdaptAfterIntroducer; AdaptDecl; BaseAfterIntroducer; BaseDecl;
    ImplAfterIntroducer; ImplAfterForall; ImplBeforeAs;
    RequireAfterIntroducer; RequireBeforeImpls; RequireDecl;
    ObserveAfterIntroducer; ObserveOperator; ObserveFinishOperator;
    ObserveDecl; VarAsRegular; VarAsReturned; VarAfterPattern; VarFinish;
    Let; LetAfterPatternAsRegular; LetAfterPatternAsAssociatedConstant;
    LetFinishAsRegular; LetFinishAsAssociatedConstant; LetElseFinish;
    AssociatedConstant; ChoiceIntroducer; ChoiceDefinitionStart;
    ChoiceAlternative; ChoiceAlternativeFinish; ChoiceDefinitionFinish;
    MatchIntroducer; MatchConditionFinish; MatchCaseLoop;
    MatchCaseIntroducer; MatchCaseAlternativePattern;
    MatchCaseAlternativePatternFinish; MatchCaseAfterPattern;
    MatchCaseGuardFinish; MatchCaseStart; MatchDefaultIntroducer;
    MatchGuardedDefaultStart; MatchHandlerFinish; MatchCaseLoopAfterDefault;
    MatchStatementFinish].

Definition of_int (i : Z) : option t := all !! Z.to_nat i.

Lemma state_kind_of_int_AsInt k : of_int (AsInt k) = Some k.
Proof. destruct k; reflexivity. Qed.

#[global] Instance eq_dec : EqDecision t := enum_eq_dec AsInt of_int state_kind_of_int_AsInt.

(** [operator==]. *)
Definition eqb (a b : t) : bool := AsInt a =? AsInt b.

Lemma state_kind_eqb_eq a b : eqb a b = true ↔ a = b.
Proof.
  unfold eqb. rewrite Z.eqb_eq. split; [|by intros ->].
  apply (enum_inj AsInt of_int state_kind_of_int_AsInt).
Qed.

Lemma state_kind_eqb_refl a : eqb a a = true.
Proof. by apply state_kind_eqb_eq. Qed.

Lemma state_kind_eqb_spec a b : BoolSpec (a = b) (a ≠ b) (eqb a b).
Proof.
  destruct (eqb a b) eqn:E; constructor; rewrite <- state_kind_eqb_eq; [done|].
  by rewrite E.
Qed.

Lemma state_kind_elem_of_all k : k ∈ all.
Proof. eapply list_elem_of_lookup_2. apply (state_kind_of_int_AsInt k). Qed.

End StateKind.
