(* ===== verification/NodeKinds.v ===== *)
(** Parse node kinds: [Parse::NodeKind], the enumerators of
    [toolchain/parse/node_kind.def] in the order the macros expand them, and
    the [child_count]/[bracketed_by] arguments each kind is [Define]d with in
    [toolchain/parse/typed_nodes.h]. *)

From S2P Require Import Prelude.

Module NodeKind.

Inductive t : Set :=
  | FileStart | FileEnd | InvalidParse | InvalidParseStart
  | InvalidParseSubtree | Placeholder | EmptyDecl
  | IdentifierNameNotBeforeSignature | IdentifierNameMaybeBeforeSignature
  | IdentifierNameExpr | SelfValueName | SelfValueNameExpr | SelfTypeNameExpr
  | UnderscoreName | BaseName | PackageExpr | CoreNameExpr | CppNameExpr
  | IdentifierPackageName | CorePackageName | CppPackageName | LibraryName
  | PackageIntroducer | PackageDecl | ImportIntroducer | ImportDecl
  | DefaultLibrary | LibraryIntroducer | LibraryDecl | LibrarySpecifier
  | InlineImportSpecifier | InlineImportBody | InlineIntroducer
  | InlineCppDecl | IdentifierNameQualifierWithParams
  | IdentifierNameQualifierWithoutParams | ExportIntroducer | ExportDecl
  | NamespaceStart | Namespace | MatchFirstIntroducer
  | MatchFirstDefinitionStart | MatchFirst | CodeBlockStart | CodeBlock
  | FunctionIntroducer | LambdaIntroducer | ReturnType | ReturnForm
  | FunctionDefinitionStart | FunctionDefinition | FunctionTerseDefinition
  | FunctionDecl | Lambda | TerseBodyArrow | BuiltinFunctionDefinitionStart
  | BuiltinName | BuiltinFunctionDefinition | AliasIntroducer
  | AliasInitializer | Alias | TuplePatternStart | PatternListComma
  | ParenPattern | TuplePattern | StructPatternStart
  | StructPatternDesignatedField | StructPattern | ExplicitParamListStart
  | ExplicitParamList | ImplicitParamListStart | ImplicitParamList
  | ArrayExprOpenParen | ArrayExprKeyword | ArrayExprComma | ArrayExpr
  | RefBindingName | RuntimeBindingName | UnusedPattern
  | BindingPatternTypeStart | LetBindingPattern | SelfBindingPattern
  | AssociatedConstantNameAndType | VarBindingPattern | FormBindingPattern
  | TemplateBindingName | CompileTimeBindingPatternTypeStart
  | CompileTimeBindingPattern | DefaultValueExprStart | DefaultValuePattern
  | DefaultValueUnspecified | LetIntroducer | LetInitializer | LetDecl
  | LetElseIntroducer | LetElse | LetElseDecl | AssociatedConstantIntroducer
  | AssociatedConstantInitializer | AssociatedConstantDecl
  | VariableIntroducer | ReturnedModifier | VariableInitializer
  | VariableDecl | VariablePattern | ExprStatement | BreakStatementStart
  | BreakStatement | ContinueStatementStart | ContinueStatement
  | ReturnStatementStart | ReturnVarModifier | ReturnStatement
  | ForHeaderStart | ForIn | ForHeader | ForStatement
  | PatternConditionIntroducer | PatternConditionInitializer
  | IfConditionStart | IfCondition | IfStatementElse | IfStatement
  | WhileConditionStart | WhileCondition | WhileStatement
  | PackExpansionStart | PackExpansionStatement | PackExpansionExpr
  | PackExpansionPattern | EachNameExpr | EachBindingName | IndexExprStart
  | IndexExpr | RefPrimitiveForm | VarPrimitiveForm | ValPrimitiveForm
  | FormLiteralKeyword | FormLiteralOpenParen | FormLiteral
  | TypeOfExprKeyword | TypeOfExprOpenParen | TypeOfExpr | ParenExprStart
  | ParenExpr | TupleLiteralStart | TupleLiteralComma | TupleLiteral
  | CallExprStart | CallExpr | MemberAccessExpr | PointerMemberAccessExpr
  | IntLiteral | PositionalParamExpr | BoolLiteralFalse | BoolLiteralTrue
  | CharLiteral | RealLiteral | StringLiteral | AutoTypeLiteral
  | BoolTypeLiteral | CharTypeLiteral | FloatTypeLiteral | IntTypeLiteral
  | StringTypeLiteral | TypeTypeLiteral | UnsignedIntTypeLiteral
  | PrefixOperatorAmp | PrefixOperatorCaret | PrefixOperatorConst
  | PrefixOperatorExpand | PrefixOperatorNot | PrefixOperatorMinus
  | PrefixOperatorMinusMinus | PrefixOperatorPartial | PrefixOperatorPlusPlus
  | PrefixOperatorRef | PrefixOperatorStar | InfixOperatorAmp
  | InfixOperatorAmpEqual | InfixOperatorAs | InfixOperatorCaret
  | InfixOperatorCaretEqual | InfixOperatorEqual | InfixOperatorEqualEqual
  | InfixOperatorExclaimEqual | InfixOperatorGreater
  | InfixOperatorGreaterEqual | InfixOperatorGreaterGreater
  | InfixOperatorGreaterGreaterEqual | InfixOperatorLess
  | InfixOperatorLessEqual | InfixOperatorLessEqualGreater
  | InfixOperatorLessLess | InfixOperatorLessLessEqual | InfixOperatorMinus
  | InfixOperatorMinusEqual | InfixOperatorPercent
  | InfixOperatorPercentEqual | InfixOperatorPipe | InfixOperatorPipeEqual
  | InfixOperatorPlus | InfixOperatorPlusEqual | InfixOperatorSlash
  | InfixOperatorSlashEqual | InfixOperatorStar | InfixOperatorStarEqual
  | PostfixOperatorQuestion | PostfixOperatorStar | ShortCircuitOperandAnd
  | ShortCircuitOperandOr | ShortCircuitOperatorAnd | ShortCircuitOperatorOr
  | UnsafeModifier | DesignatorExpr | SelfTypeName | RequirementAnd
  | RequirementEqual | RequirementEqualEqual | RequirementImpls | WhereExpr
  | WhereOperand | IfExprIf | IfExprThen | IfExprElse | StructFieldDesignator
  | StructLiteralStart | StructLiteralField | StructLiteralComma
  | StructLiteral | StructTypeLiteralStart | StructTypeLiteralField
  | StructTypeLiteralComma | StructTypeLiteral | ExternModifierWithLibrary
  | ExternModifier | AbstractModifier | BaseModifier | DefaultModifier
  | EvalModifier | ExportModifier | ExtendModifier | FinalModifier
  | ImplModifier | MustEvalModifier | OverloadModifier | OverrideModifier
  | PrivateModifier | ProtectedModifier | StaticModifier | TemplateModifier
  | VirtualModifier | ClassIntroducer | ClassDefinitionStart
  | ClassDefinition | ClassDecl | UnionIntroducer | UnionDefinitionStart
  | UnionDefinition | UnionDecl | AdaptIntroducer | AdaptDecl
  | BaseIntroducer | BaseColon | BaseDecl | FriendIntroducer | FriendDecl
  | InterfaceIntroducer | InterfaceDefinitionStart | InterfaceDefinition
  | InterfaceDecl | ImplIntroducer | ImplDefinitionStart | ImplDefinition
  | ImplDecl | Forall | ImplTypeAs | ImplDefaultSelfAs | RequireIntroducer
  | RequireTypeImpls | RequireDefaultSelfImpls | RequireDecl
  | ObserveIntroducer | ObserveEqualEqual | ObserveImpls | ObserveDecl
  | NamedConstraintIntroducer | NamedConstraintDefinitionStart
  | NamedConstraintDefinition | NamedConstraintDecl | ChoiceIntroducer
  | ChoiceDefinitionStart | ChoiceDefinition | ChoiceAlternativeListComma
  | MatchIntroducer | MatchConditionStart | MatchCondition
  | MatchStatementStart | MatchStatement | MatchCaseIntroducer
  | AlternativePatternStart | AlternativePattern | MatchCaseGuardIntroducer
  | MatchCaseGuardStart | MatchCaseGuard | MatchCase | MatchDefaultIntroducer
  | MatchDefault | MatchGuardedDefault | MatchHandlerStart | MatchHandler.

(** The enumerator's position in the X-macro file. *)
Definition AsInt (k : t) : Z :=
  match k with
    | FileStart => 0 | FileEnd => 1 | InvalidParse => 2
    | InvalidParseStart => 3 | InvalidParseSubtree => 4 | Placeholder => 5
    | EmptyDecl => 6 | IdentifierNameNotBeforeSignature => 7
    | IdentifierNameMaybeBeforeSignature => 8 | IdentifierNameExpr => 9
    | SelfValueName => 10 | SelfValueNameExpr => 11 | SelfTypeNameExpr => 12
    | UnderscoreName => 13 | BaseName => 14 | PackageExpr => 15
    | CoreNameExpr => 16 | CppNameExpr => 17 | IdentifierPackageName => 18
    | CorePackageName => 19 | CppPackageName => 20 | LibraryName => 21
    | PackageIntroducer => 22 | PackageDecl => 23 | ImportIntroducer => 24
    | ImportDecl => 25 | DefaultLibrary => 26 | LibraryIntroducer => 27
    | LibraryDecl => 28 | LibrarySpecifier => 29
    | InlineImportSpecifier => 30 | InlineImportBody => 31
    | InlineIntroducer => 32 | InlineCppDecl => 33
    | IdentifierNameQualifierWithParams => 34
    | IdentifierNameQualifierWithoutParams => 35 | ExportIntroducer => 36
    | ExportDecl => 37 | NamespaceStart => 38 | Namespace => 39
    | MatchFirstIntroducer => 40 | MatchFirstDefinitionStart => 41
    | MatchFirst => 42 | CodeBlockStart => 43 | CodeBlock => 44
    | FunctionIntroducer => 45 | LambdaIntroducer => 46 | ReturnType => 47
    | ReturnForm => 48 | FunctionDefinitionStart => 49
    | FunctionDefinition => 50 | FunctionTerseDefinition => 51
    | FunctionDecl => 52 | Lambda => 53 | TerseBodyArrow => 54
    | BuiltinFunctionDefinitionStart => 55 | BuiltinName => 56
    | BuiltinFunctionDefinition => 57 | AliasIntroducer => 58
    | AliasInitializer => 59 | Alias => 60 | TuplePatternStart => 61
    | PatternListComma => 62 | ParenPattern => 63 | TuplePattern => 64
    | StructPatternStart => 65 | StructPatternDesignatedField => 66
    | StructPattern => 67 | ExplicitParamListStart => 68
    | ExplicitParamList => 69 | ImplicitParamListStart => 70
    | ImplicitParamList => 71 | ArrayExprOpenParen => 72
    | ArrayExprKeyword => 73 | ArrayExprComma => 74 | ArrayExpr => 75
    | RefBindingName => 76 | RuntimeBindingName => 77 | UnusedPattern => 78
    | BindingPatternTypeStart => 79 | LetBindingPattern => 80
    | SelfBindingPattern => 81 | AssociatedConstantNameAndType => 82
    | VarBindingPattern => 83 | FormBindingPattern => 84
    | TemplateBindingName => 85 | CompileTimeBindingPatternTypeStart => 86
    | CompileTimeBindingPattern => 87 | DefaultValueExprStart => 88
    | DefaultValuePattern => 89 | DefaultValueUnspecified => 90
    | LetIntroducer => 91 | LetInitializer => 92 | LetDecl => 93
    | LetElseIntroducer => 94 | LetElse => 95 | LetElseDecl => 96
    | AssociatedConstantIntroducer => 97
    | AssociatedConstantInitializer => 98 | AssociatedConstantDecl => 99
    | VariableIntroducer => 100 | ReturnedModifier => 101
    | VariableInitializer => 102 | VariableDecl => 103
    | VariablePattern => 104 | ExprStatement => 105
    | BreakStatementStart => 106 | BreakStatement => 107
    | ContinueStatementStart => 108 | ContinueStatement => 109
    | ReturnStatementStart => 110 | ReturnVarModifier => 111
    | ReturnStatement => 112 | ForHeaderStart => 113 | ForIn => 114
    | ForHeader => 115 | ForStatement => 116
    | PatternConditionIntroducer => 117 | PatternConditionInitializer => 118
    | IfConditionStart => 119 | IfCondition => 120 | IfStatementElse => 121
    | IfStatement => 122 | WhileConditionStart => 123 | WhileCondition => 124
    | WhileStatement => 125 | PackExpansionStart => 126
    | PackExpansionStatement => 127 | PackExpansionExpr => 128
    | PackExpansionPattern => 129 | EachNameExpr => 130
    | EachBindingName => 131 | IndexExprStart => 132 | IndexExpr => 133
    | RefPrimitiveForm => 134 | VarPrimitiveForm => 135
    | ValPrimitiveForm => 136 | FormLiteralKeyword => 137
    | FormLiteralOpenParen => 138 | FormLiteral => 139
    | TypeOfExprKeyword => 140 | TypeOfExprOpenParen => 141
    | TypeOfExpr => 142 | ParenExprStart => 143 | ParenExpr => 144
    | TupleLiteralStart => 145 | TupleLiteralComma => 146
    | TupleLiteral => 147 | CallExprStart => 148 | CallExpr => 149
    | MemberAccessExpr => 150 | PointerMemberAccessExpr => 151
    | IntLiteral => 152 | PositionalParamExpr => 153
    | BoolLiteralFalse => 154 | BoolLiteralTrue => 155 | CharLiteral => 156
    | RealLiteral => 157 | StringLiteral => 158 | AutoTypeLiteral => 159
    | BoolTypeLiteral => 160 | CharTypeLiteral => 161
    | FloatTypeLiteral => 162 | IntTypeLiteral => 163
    | StringTypeLiteral => 164 | TypeTypeLiteral => 165
    | UnsignedIntTypeLiteral => 166 | PrefixOperatorAmp => 167
    | PrefixOperatorCaret => 168 | PrefixOperatorConst => 169
    | PrefixOperatorExpand => 170 | PrefixOperatorNot => 171
    | PrefixOperatorMinus => 172 | PrefixOperatorMinusMinus => 173
    | PrefixOperatorPartial => 174 | PrefixOperatorPlusPlus => 175
    | PrefixOperatorRef => 176 | PrefixOperatorStar => 177
    | InfixOperatorAmp => 178 | InfixOperatorAmpEqual => 179
    | InfixOperatorAs => 180 | InfixOperatorCaret => 181
    | InfixOperatorCaretEqual => 182 | InfixOperatorEqual => 183
    | InfixOperatorEqualEqual => 184 | InfixOperatorExclaimEqual => 185
    | InfixOperatorGreater => 186 | InfixOperatorGreaterEqual => 187
    | InfixOperatorGreaterGreater => 188
    | InfixOperatorGreaterGreaterEqual => 189 | InfixOperatorLess => 190
    | InfixOperatorLessEqual => 191 | InfixOperatorLessEqualGreater => 192
    | InfixOperatorLessLess => 193 | InfixOperatorLessLessEqual => 194
    | InfixOperatorMinus => 195 | InfixOperatorMinusEqual => 196
    | InfixOperatorPercent => 197 | InfixOperatorPercentEqual => 198
    | InfixOperatorPipe => 199 | InfixOperatorPipeEqual => 200
    | InfixOperatorPlus => 201 | InfixOperatorPlusEqual => 202
    | InfixOperatorSlash => 203 | InfixOperatorSlashEqual => 204
    | InfixOperatorStar => 205 | InfixOperatorStarEqual => 206
    | PostfixOperatorQuestion => 207 | PostfixOperatorStar => 208
    | ShortCircuitOperandAnd => 209 | ShortCircuitOperandOr => 210
    | ShortCircuitOperatorAnd => 211 | ShortCircuitOperatorOr => 212
    | UnsafeModifier => 213 | DesignatorExpr => 214 | SelfTypeName => 215
    | RequirementAnd => 216 | RequirementEqual => 217
    | RequirementEqualEqual => 218 | RequirementImpls => 219
    | WhereExpr => 220 | WhereOperand => 221 | IfExprIf => 222
    | IfExprThen => 223 | IfExprElse => 224 | StructFieldDesignator => 225
    | StructLiteralStart => 226 | StructLiteralField => 227
    | StructLiteralComma => 228 | StructLiteral => 229
    | StructTypeLiteralStart => 230 | StructTypeLiteralField => 231
    | StructTypeLiteralComma => 232 | StructTypeLiteral => 233
    | ExternModifierWithLibrary => 234 | ExternModifier => 235
    | AbstractModifier => 236 | BaseModifier => 237 | DefaultModifier => 238
    | EvalModifier => 239 | ExportModifier => 240 | ExtendModifier => 241
    | FinalModifier => 242 | ImplModifier => 243 | MustEvalModifier => 244
    | OverloadModifier => 245 | OverrideModifier => 246
    | PrivateModifier => 247 | ProtectedModifier => 248
    | StaticModifier => 249 | TemplateModifier => 250
    | VirtualModifier => 251 | ClassIntroducer => 252
    | ClassDefinitionStart => 253 | ClassDefinition => 254 | ClassDecl => 255
    | UnionIntroducer => 256 | UnionDefinitionStart => 257
    | UnionDefinition => 258 | UnionDecl => 259 | AdaptIntroducer => 260
    | AdaptDecl => 261 | BaseIntroducer => 262 | BaseColon => 263
    | BaseDecl => 264 | FriendIntroducer => 265 | FriendDecl => 266
    | InterfaceIntroducer => 267 | InterfaceDefinitionStart => 268
    | InterfaceDefinition => 269 | InterfaceDecl => 270
    | ImplIntroducer => 271 | ImplDefinitionStart => 272
    | ImplDefinition => 273 | ImplDecl => 274 | Forall => 275
    | ImplTypeAs => 276 | ImplDefaultSelfAs => 277 | RequireIntroducer => 278
    | RequireTypeImpls => 279 | RequireDefaultSelfImpls => 280
    | RequireDecl => 281 | ObserveIntroducer => 282
    | ObserveEqualEqual => 283 | ObserveImpls => 284 | ObserveDecl => 285
    | NamedConstraintIntroducer => 286
    | NamedConstraintDefinitionStart => 287
    | NamedConstraintDefinition => 288 | NamedConstraintDecl => 289
    | ChoiceIntroducer => 290 | ChoiceDefinitionStart => 291
    | ChoiceDefinition => 292 | ChoiceAlternativeListComma => 293
    | MatchIntroducer => 294 | MatchConditionStart => 295
    | MatchCondition => 296 | MatchStatementStart => 297
    | MatchStatement => 298 | MatchCaseIntroducer => 299
    | AlternativePatternStart => 300 | AlternativePattern => 301
    | MatchCaseGuardIntroducer => 302 | MatchCaseGuardStart => 303
    | MatchCaseGuard => 304 | MatchCase => 305
    | MatchDefaultIntroducer => 306 | MatchDefault => 307
    | MatchGuardedDefault => 308 | MatchHandlerStart => 309
    | MatchHandler => 310
  end.

(** Every enumerator, in declaration order. *)
Definition all : list t := [
    FileStart; FileEnd; InvalidParse; InvalidParseStart; InvalidParseSubtree;
    Placeholder; EmptyDecl; IdentifierNameNotBeforeSignature;
    IdentifierNameMaybeBeforeSignature; IdentifierNameExpr; SelfValueName;
    SelfValueNameExpr; SelfTypeNameExpr; UnderscoreName; BaseName;
    PackageExpr; CoreNameExpr; CppNameExpr; IdentifierPackageName;
    CorePackageName; CppPackageName; LibraryName; PackageIntroducer;
    PackageDecl; ImportIntroducer; ImportDecl; DefaultLibrary;
    LibraryIntroducer; LibraryDecl; LibrarySpecifier; InlineImportSpecifier;
    InlineImportBody; InlineIntroducer; InlineCppDecl;
    IdentifierNameQualifierWithParams; IdentifierNameQualifierWithoutParams;
    ExportIntroducer; ExportDecl; NamespaceStart; Namespace;
    MatchFirstIntroducer; MatchFirstDefinitionStart; MatchFirst;
    CodeBlockStart; CodeBlock; FunctionIntroducer; LambdaIntroducer;
    ReturnType; ReturnForm; FunctionDefinitionStart; FunctionDefinition;
    FunctionTerseDefinition; FunctionDecl; Lambda; TerseBodyArrow;
    BuiltinFunctionDefinitionStart; BuiltinName; BuiltinFunctionDefinition;
    AliasIntroducer; AliasInitializer; Alias; TuplePatternStart;
    PatternListComma; ParenPattern; TuplePattern; StructPatternStart;
    StructPatternDesignatedField; StructPattern; ExplicitParamListStart;
    ExplicitParamList; ImplicitParamListStart; ImplicitParamList;
    ArrayExprOpenParen; ArrayExprKeyword; ArrayExprComma; ArrayExpr;
    RefBindingName; RuntimeBindingName; UnusedPattern;
    BindingPatternTypeStart; LetBindingPattern; SelfBindingPattern;
    AssociatedConstantNameAndType; VarBindingPattern; FormBindingPattern;
    TemplateBindingName; CompileTimeBindingPatternTypeStart;
    CompileTimeBindingPattern; DefaultValueExprStart; DefaultValuePattern;
    DefaultValueUnspecified; LetIntroducer; LetInitializer; LetDecl;
    LetElseIntroducer; LetElse; LetElseDecl; AssociatedConstantIntroducer;
    AssociatedConstantInitializer; AssociatedConstantDecl;
    VariableIntroducer; ReturnedModifier; VariableInitializer; VariableDecl;
    VariablePattern; ExprStatement; BreakStatementStart; BreakStatement;
    ContinueStatementStart; ContinueStatement; ReturnStatementStart;
    ReturnVarModifier; ReturnStatement; ForHeaderStart; ForIn; ForHeader;
    ForStatement; PatternConditionIntroducer; PatternConditionInitializer;
    IfConditionStart; IfCondition; IfStatementElse; IfStatement;
    WhileConditionStart; WhileCondition; WhileStatement; PackExpansionStart;
    PackExpansionStatement; PackExpansionExpr; PackExpansionPattern;
    EachNameExpr; EachBindingName; IndexExprStart; IndexExpr;
    RefPrimitiveForm; VarPrimitiveForm; ValPrimitiveForm; FormLiteralKeyword;
    FormLiteralOpenParen; FormLiteral; TypeOfExprKeyword;
    TypeOfExprOpenParen; TypeOfExpr; ParenExprStart; ParenExpr;
    TupleLiteralStart; TupleLiteralComma; TupleLiteral; CallExprStart;
    CallExpr; MemberAccessExpr; PointerMemberAccessExpr; IntLiteral;
    PositionalParamExpr; BoolLiteralFalse; BoolLiteralTrue; CharLiteral;
    RealLiteral; StringLiteral; AutoTypeLiteral; BoolTypeLiteral;
    CharTypeLiteral; FloatTypeLiteral; IntTypeLiteral; StringTypeLiteral;
    TypeTypeLiteral; UnsignedIntTypeLiteral; PrefixOperatorAmp;
    PrefixOperatorCaret; PrefixOperatorConst; PrefixOperatorExpand;
    PrefixOperatorNot; PrefixOperatorMinus; PrefixOperatorMinusMinus;
    PrefixOperatorPartial; PrefixOperatorPlusPlus; PrefixOperatorRef;
    PrefixOperatorStar; InfixOperatorAmp; InfixOperatorAmpEqual;
    InfixOperatorAs; InfixOperatorCaret; InfixOperatorCaretEqual;
    InfixOperatorEqual; InfixOperatorEqualEqual; InfixOperatorExclaimEqual;
    InfixOperatorGreater; InfixOperatorGreaterEqual;
    InfixOperatorGreaterGreater; InfixOperatorGreaterGreaterEqual;
    InfixOperatorLess; InfixOperatorLessEqual; InfixOperatorLessEqualGreater;
    InfixOperatorLessLess; InfixOperatorLessLessEqual; InfixOperatorMinus;
    InfixOperatorMinusEqual; InfixOperatorPercent; InfixOperatorPercentEqual;
    InfixOperatorPipe; InfixOperatorPipeEqual; InfixOperatorPlus;
    InfixOperatorPlusEqual; InfixOperatorSlash; InfixOperatorSlashEqual;
    InfixOperatorStar; InfixOperatorStarEqual; PostfixOperatorQuestion;
    PostfixOperatorStar; ShortCircuitOperandAnd; ShortCircuitOperandOr;
    ShortCircuitOperatorAnd; ShortCircuitOperatorOr; UnsafeModifier;
    DesignatorExpr; SelfTypeName; RequirementAnd; RequirementEqual;
    RequirementEqualEqual; RequirementImpls; WhereExpr; WhereOperand;
    IfExprIf; IfExprThen; IfExprElse; StructFieldDesignator;
    StructLiteralStart; StructLiteralField; StructLiteralComma;
    StructLiteral; StructTypeLiteralStart; StructTypeLiteralField;
    StructTypeLiteralComma; StructTypeLiteral; ExternModifierWithLibrary;
    ExternModifier; AbstractModifier; BaseModifier; DefaultModifier;
    EvalModifier; ExportModifier; ExtendModifier; FinalModifier;
    ImplModifier; MustEvalModifier; OverloadModifier; OverrideModifier;
    PrivateModifier; ProtectedModifier; StaticModifier; TemplateModifier;
    VirtualModifier; ClassIntroducer; ClassDefinitionStart; ClassDefinition;
    ClassDecl; UnionIntroducer; UnionDefinitionStart; UnionDefinition;
    UnionDecl; AdaptIntroducer; AdaptDecl; BaseIntroducer; BaseColon;
    BaseDecl; FriendIntroducer; FriendDecl; InterfaceIntroducer;
    InterfaceDefinitionStart; InterfaceDefinition; InterfaceDecl;
    ImplIntroducer; ImplDefinitionStart; ImplDefinition; ImplDecl; Forall;
    ImplTypeAs; ImplDefaultSelfAs; RequireIntroducer; RequireTypeImpls;
    RequireDefaultSelfImpls; RequireDecl; ObserveIntroducer;
    ObserveEqualEqual; ObserveImpls; ObserveDecl; NamedConstraintIntroducer;
    NamedConstraintDefinitionStart; NamedConstraintDefinition;
    NamedConstraintDecl; ChoiceIntroducer; ChoiceDefinitionStart;
    ChoiceDefinition; ChoiceAlternativeListComma; MatchIntroducer;
    MatchConditionStart; MatchCondition; MatchStatementStart; MatchStatement;
    MatchCaseIntroducer; AlternativePatternStart; AlternativePattern;
    MatchCaseGuardIntroducer; MatchCaseGuardStart; MatchCaseGuard; MatchCase;
    MatchDefaultIntroducer; MatchDefault; MatchGuardedDefault;
    MatchHandlerStart; MatchHandler].

Definition of_int (i : Z) : option t := all !! Z.to_nat i.

Lemma node_kind_of_int_AsInt k : of_int (AsInt k) = Some k.
Proof. destruct k; reflexivity. Qed.

#[global] Instance eq_dec : EqDecision t := enum_eq_dec AsInt of_int node_kind_of_int_AsInt.

(** [operator==]. *)
Definition eqb (a b : t) : bool := AsInt a =? AsInt b.

Lemma node_kind_eqb_eq a b : eqb a b = true ↔ a = b.
Proof.
  unfold eqb. rewrite Z.eqb_eq. split; [|by intros ->].
  apply (enum_inj AsInt of_int node_kind_of_int_AsInt).
Qed.

Lemma node_kind_eqb_refl a : eqb a a = true.
Proof. by apply node_kind_eqb_eq. Qed.

Lemma node_kind_eqb_spec a b : BoolSpec (a = b) (a ≠ b) (eqb a b).
Proof.
  destruct (eqb a b) eqn:E; constructor; rewrite <- node_kind_eqb_eq; [done|].
  by rewrite E.
Qed.

Lemma node_kind_elem_of_all k : k ∈ all.
Proof. eapply list_elem_of_lookup_2. apply (node_kind_of_int_AsInt k). Qed.

(** [NodeKind::child_count], [None] for a kind defined without one. *)
Definition child_count (k : t) : option Z :=
  match k with
    | LibrarySpecifier | InlineImportSpecifier | ReturnType | ReturnForm
    | RefBindingName | RuntimeBindingName | UnusedPattern
    | SelfBindingPattern | TemplateBindingName | VariablePattern
    | ExprStatement | BreakStatement | ContinueStatement | ForIn
    | EachNameExpr | EachBindingName | IndexExprStart | RefPrimitiveForm
    | VarPrimitiveForm | ValPrimitiveForm | CallExprStart | PrefixOperatorAmp
    | PrefixOperatorCaret | PrefixOperatorConst | PrefixOperatorExpand
    | PrefixOperatorNot | PrefixOperatorMinus | PrefixOperatorMinusMinus
    | PrefixOperatorPartial | PrefixOperatorPlusPlus | PrefixOperatorRef
    | PrefixOperatorStar | PostfixOperatorQuestion | PostfixOperatorStar
    | ShortCircuitOperandAnd | ShortCircuitOperandOr | UnsafeModifier
    | DesignatorExpr | WhereOperand | IfExprIf | IfExprThen
    | StructFieldDesignator | ExternModifierWithLibrary | ImplTypeAs
    | RequireTypeImpls | MatchDefault | MatchHandlerStart => Some 1
    | ParenPattern | StructPatternDesignatedField
    | AssociatedConstantNameAndType | ForStatement | WhileStatement
    | PackExpansionStatement | PackExpansionExpr | PackExpansionPattern
    | IndexExpr | ParenExpr | MemberAccessExpr | PointerMemberAccessExpr
    | InfixOperatorAmp | InfixOperatorAmpEqual | InfixOperatorAs
    | InfixOperatorCaret | InfixOperatorCaretEqual | InfixOperatorEqual
    | InfixOperatorEqualEqual | InfixOperatorExclaimEqual
    | InfixOperatorGreater | InfixOperatorGreaterEqual
    | InfixOperatorGreaterGreater | InfixOperatorGreaterGreaterEqual
    | InfixOperatorLess | InfixOperatorLessEqual
    | InfixOperatorLessEqualGreater | InfixOperatorLessLess
    | InfixOperatorLessLessEqual | InfixOperatorMinus
    | InfixOperatorMinusEqual | InfixOperatorPercent
    | InfixOperatorPercentEqual | InfixOperatorPipe | InfixOperatorPipeEqual
    | InfixOperatorPlus | InfixOperatorPlusEqual | InfixOperatorSlash
    | InfixOperatorSlashEqual | InfixOperatorStar | InfixOperatorStarEqual
    | ShortCircuitOperatorAnd | ShortCircuitOperatorOr | RequirementEqual
    | RequirementEqualEqual | RequirementImpls | StructLiteralField
    | StructTypeLiteralField | ObserveEqualEqual | ObserveImpls
    | MatchCondition | MatchStatementStart | MatchGuardedDefault => Some 2
    | LetBindingPattern | VarBindingPattern | FormBindingPattern
    | CompileTimeBindingPattern | DefaultValuePattern | FormLiteral
    | TypeOfExpr | IfExprElse | MatchCaseGuard => Some 3
    | ArrayExpr => Some 5
    | InvalidParseSubtree | PackageDecl | ImportDecl | LibraryDecl
    | InlineCppDecl | IdentifierNameQualifierWithParams
    | IdentifierNameQualifierWithoutParams | ExportDecl | Namespace
    | MatchFirstDefinitionStart | MatchFirst | CodeBlock
    | FunctionDefinitionStart | FunctionDefinition | FunctionTerseDefinition
    | FunctionDecl | Lambda | BuiltinFunctionDefinitionStart
    | BuiltinFunctionDefinition | Alias | TuplePattern | StructPattern
    | ExplicitParamList | ImplicitParamList | LetDecl | LetElseDecl
    | AssociatedConstantDecl | VariableDecl | ReturnStatement | ForHeader
    | IfCondition | IfStatement | WhileCondition | TupleLiteral | CallExpr
    | WhereExpr | StructLiteral | StructTypeLiteral | ClassDefinitionStart
    | ClassDefinition | ClassDecl | UnionDefinitionStart | UnionDefinition
    | UnionDecl | AdaptDecl | BaseDecl | FriendDecl
    | InterfaceDefinitionStart | InterfaceDefinition | InterfaceDecl
    | ImplDefinitionStart | ImplDefinition | ImplDecl | RequireDecl
    | ObserveDecl | NamedConstraintDefinitionStart
    | NamedConstraintDefinition | NamedConstraintDecl | ChoiceDefinitionStart
    | ChoiceDefinition | MatchStatement | AlternativePattern | MatchCase
    | MatchHandler => None
  | _ => Some 0
  end.

(** [NodeKind::bracket], [None] for a kind defined without one. *)
Definition bracket (k : t) : option t :=
  match k with
    | InvalidParseSubtree => Some InvalidParseStart
    | PackageDecl => Some PackageIntroducer
    | ImportDecl => Some ImportIntroducer
    | LibraryDecl => Some LibraryIntroducer
    | InlineCppDecl => Some InlineIntroducer
    | IdentifierNameQualifierWithParams => Some IdentifierNameMaybeBeforeSignature
    | IdentifierNameQualifierWithoutParams => Some IdentifierNameNotBeforeSignature
    | ExportDecl => Some ExportIntroducer
    | Namespace => Some NamespaceStart
    | MatchFirstDefinitionStart => Some MatchFirstIntroducer
    | MatchFirst => Some MatchFirstDefinitionStart
    | CodeBlock => Some CodeBlockStart
    | FunctionDefinitionStart | FunctionDecl | BuiltinFunctionDefinitionStart => Some FunctionIntroducer
    | FunctionDefinition | FunctionTerseDefinition => Some FunctionDefinitionStart
    | Lambda => Some LambdaIntroducer
    | BuiltinFunctionDefinition => Some BuiltinFunctionDefinitionStart
    | Alias => Some AliasIntroducer
    | ParenPattern | TuplePattern => Some TuplePatternStart
    | StructPatternDesignatedField | StructLiteralField
    | StructTypeLiteralField => Some StructFieldDesignator
    | StructPattern => Some StructPatternStart
    | ExplicitParamList => Some ExplicitParamListStart
    | ImplicitParamList => Some ImplicitParamListStart
    | LetDecl => Some LetIntroducer
    | LetElseDecl => Some LetElseIntroducer
    | AssociatedConstantDecl => Some AssociatedConstantIntroducer
    | VariableDecl => Some VariableIntroducer
    | BreakStatement => Some BreakStatementStart
    | ContinueStatement => Some ContinueStatementStart
    | ReturnStatement => Some ReturnStatementStart
    | ForHeader => Some ForHeaderStart
    | ForStatement => Some ForHeader
    | IfCondition => Some IfConditionStart
    | IfStatement => Some IfCondition
    | WhileCondition => Some WhileConditionStart
    | WhileStatement => Some WhileCondition
    | PackExpansionStatement | PackExpansionExpr | PackExpansionPattern => Some PackExpansionStart
    | IndexExpr => Some IndexExprStart
    | ParenExpr => Some ParenExprStart
    | TupleLiteral => Some TupleLiteralStart
    | CallExpr => Some CallExprStart
    | ShortCircuitOperatorAnd => Some ShortCircuitOperandAnd
    | ShortCircuitOperatorOr => Some ShortCircuitOperandOr
    | WhereExpr => Some WhereOperand
    | IfExprElse => Some IfExprIf
    | StructLiteral => Some StructLiteralStart
    | StructTypeLiteral => Some StructTypeLiteralStart
    | ClassDefinitionStart | ClassDecl => Some ClassIntroducer
    | ClassDefinition => Some ClassDefinitionStart
    | UnionDefinitionStart | UnionDecl => Some UnionIntroducer
    | UnionDefinition => Some UnionDefinitionStart
    | AdaptDecl => Some AdaptIntroducer
    | BaseDecl => Some BaseIntroducer
    | FriendDecl => Some FriendIntroducer
    | InterfaceDefinitionStart | InterfaceDecl => Some InterfaceIntroducer
    | InterfaceDefinition => Some InterfaceDefinitionStart
    | ImplDefinitionStart | ImplDecl => Some ImplIntroducer
    | ImplDefinition => Some ImplDefinitionStart
    | RequireDecl => Some RequireIntroducer
    | ObserveDecl => Some ObserveIntroducer
    | NamedConstraintDefinitionStart | NamedConstraintDecl => Some NamedConstraintIntroducer
    | NamedConstraintDefinition => Some NamedConstraintDefinitionStart
    | ChoiceDefinitionStart => Some ChoiceIntroducer
    | ChoiceDefinition => Some ChoiceDefinitionStart
    | MatchCondition => Some MatchConditionStart
    | MatchStatementStart => Some MatchIntroducer
    | MatchStatement => Some MatchStatementStart
    | AlternativePattern => Some AlternativePatternStart
    | MatchCaseGuard => Some MatchCaseGuardIntroducer
    | MatchCase => Some MatchCaseIntroducer
    | MatchDefault | MatchGuardedDefault => Some MatchDefaultIntroducer
    | MatchHandler => Some MatchHandlerStart
  | _ => None
  end.

(** [NodeKind::has_child_count] and [NodeKind::has_bracket]. *)
Definition has_child_count (k : t) : bool := bool_decide (is_Some (child_count k)).
Definition has_bracket (k : t) : bool := bool_decide (is_Some (bracket k)).

End NodeKind.
