(* ===== verification/Tokens.v ===== *)
(** The token stream the parser reads: [Lex::TokenInfo]
    ([toolchain/lex/token_info.h]) and the part of [Lex::TokenizedBuffer]
    ([toolchain/lex/tokenized_buffer.{h,cpp}]) that parsing uses. Token indices
    are integers, [-1] standing for [TokenIndex::None]. *)

From S2P Require Import Prelude TokenKinds.
From S2P Require Text.

Module TokenizedBuffer.

(** [TokenIndex::None], [TokenIndex::FirstNonCommentToken] and the width of a
    stored token index or payload. *)
Definition NoneToken : Z := -1.
Definition FirstNonCommentToken : Z := 1.
Definition TokenIndexBits : Z := 23.
Definition PayloadBits : Z := 23.

Record TokenInfo := {
  kind : TokenKind.t;
  has_leading_space : bool;
  token_payload : Z;
  byte_offset : Z;
}.

(** [TokenInfo(kind, has_leading_space, payload, byte_offset)]: the payload is
    a bit-field of [PayloadBits] bits. *)
Definition MakeTokenInfo (k : TokenKind.t) (leading : bool) (payload offset : Z)
    : TokenInfo :=
  {| kind := k; has_leading_space := leading;
     token_payload := payload mod 2 ^ PayloadBits; byte_offset := offset |}.

(** [TokenInfo::closing_token_index] and [TokenInfo::ident_id]. *)
Definition closing_token_index (i : TokenInfo) : Result Z :=
  require (TokenKind.is_opening_symbol (kind i)) ;; mret (token_payload i).

Definition ident_id (i : TokenInfo) : Result Z :=
  require (TokenKind.eqb (kind i) TokenKind.Identifier) ;; mret (token_payload i).

(** [TokenInfo::string_literal_id]. *)
Definition string_literal_id (i : TokenInfo) : Result Z :=
  require (TokenKind.eqb (kind i) TokenKind.StringLiteral) ;; mret (token_payload i).

(** [TokenInfo::AsErrorRecoveryIdentifier]. *)
Definition AsErrorRecoveryIdentifier (i : TokenInfo) (id : Z) : Result TokenInfo :=
  require (TokenKind.is_word (kind i)) ;;
  mret (MakeTokenInfo TokenKind.Identifier (has_leading_space i) id (byte_offset i)).

Record LineInfo := { start : Z; indent : Z }.

(** The buffer's members the parser's queries read or write, with the source
    text and the identifier store the recovery path needs. *)
Record t := {
  token_infos : list TokenInfo;
  line_infos : list LineInfo;
  has_errors : bool;
  expected_max_parse_tree_size : Z;
  post_lexing_recovery_tokens : Z;
  recovery_tokens : list bool;
  source_text : string;
  identifiers : list string;
}.

Implicit Types (b : t) (tok : Z).

(** [TokenizedBuffer::size] and [tokens().end()]. *)
Definition size b : Z := vec_size (token_infos b).
Definition tokens_end b : Z := size b - post_lexing_recovery_tokens b.

(** [TokenizedBuffer::GetKind]. *)
Definition GetKind b tok : Result TokenKind.t :=
  info ← vec_get (token_infos b) tok; mret (kind info).

(** [TokenizedBuffer::HasLeadingWhitespace]. *)
Definition HasLeadingWhitespace b tok : Result bool :=
  info ← vec_get (token_infos b) tok; mret (has_leading_space info).

(** [TokenizedBuffer::HasTrailingWhitespace]: the next token's flag, [false]
    for the last token. *)
Definition HasTrailingWhitespace b tok : Result bool :=
  if tok + 1 =? tokens_end b then mret false
  else info ← vec_get (token_infos b) (tok + 1); mret (has_leading_space info).

(** [TokenizedBuffer::GetMatchedClosingToken]. *)
Definition GetMatchedClosingToken b tok : Result Z :=
  info ← vec_get (token_infos b) tok;
  require (TokenKind.is_opening_symbol (kind info)) ;; closing_token_index info.

(** [TokenizedBuffer::GetIdentifier]. *)
Definition GetIdentifier b tok : Result Z :=
  info ← vec_get (token_infos b) tok;
  require (TokenKind.eqb (kind info) TokenKind.Identifier) ;; ident_id info.

(** [TokenizedBuffer::GetStringLiteralValue]. *)
Definition GetStringLiteralValue b tok : Result Z :=
  info ← vec_get (token_infos b) tok;
  require (TokenKind.eqb (kind info) TokenKind.StringLiteral) ;; string_literal_id info.

(** [llvm::partition_point(lines, start <= offset)] on a line table, which is
    sorted by start: the length of the prefix that satisfies the predicate. *)
Fixpoint partition_point (lines : list LineInfo) (offset : Z) : Z :=
  match lines with
  | [] => 0
  | l :: lines' => if start l <=? offset then 1 + partition_point lines' offset else 0
  end.

(** [TokenizedBuffer::FindLineIndex]. *)
Definition FindLineIndex b (offset : Z) : Result Z :=
  require (0 <? vec_size (line_infos b)) ;;
  let line := partition_point (line_infos b) offset - 1 in
  info ← vec_get (line_infos b) line;
  let line :=
    if negb (line =? 0) &&
       (start info =? Z.of_nat (String.length (source_text b)))
    then line - 1 else line in
  info ← vec_get (line_infos b) line;
  require (start info <=? offset) ;;
  mret line.

(** [TokenizedBuffer::GetLine(TokenIndex)]. *)
Definition GetLine b tok : Result Z :=
  info ← vec_get (token_infos b) tok; FindLineIndex b (byte_offset info).

(** [TokenizedBuffer::GetColumnNumber]. *)
Definition GetColumnNumber b tok : Result Z :=
  info ← vec_get (token_infos b) tok;
  line ← FindLineIndex b (byte_offset info);
  line_info ← vec_get (line_infos b) line;
  mret (byte_offset info - start line_info + 1).

(** [TokenizedBuffer::GetIndentColumnNumber]. *)
Definition GetIndentColumnNumber b (line : Z) : Result Z :=
  info ← vec_get (line_infos b) line; mret (indent info + 1).

(** [take_while(IsDecimalDigit)]. *)
Fixpoint take_digits (s : string) : string :=
  match s with
  | String c s' => if Text.IsDecimalDigit c then String c (take_digits s') else EmptyString
  | EmptyString => EmptyString
  end.

Fixpoint substr (s : string) (n : nat) : string :=
  match n, s with
  | O, _ => s
  | S n', String _ s' => substr s' n'
  | S _, EmptyString => EmptyString
  end.

(** The branches of [TokenizedBuffer::GetTokenText] that a word token other
    than an identifier takes: a fixed spelling, or the letter and digits of a
    sized type literal. The other kinds are refused here. *)
Definition GetWordText b tok : Result string :=
  info ← vec_get (token_infos b) tok;
  let fixed := TokenKind.fixed_spelling (kind info) in
  if negb (fixed =? "")%string then mret fixed
  else if TokenKind.is_sized_type_literal (kind info) then
    match substr (source_text b) (Z.to_nat (byte_offset info)) with
    | String c rest => mret (String c (take_digits rest))
    | EmptyString => Err OutOfRange
    end
  else Err FatalError.

(** [identifiers().Add(text)]: the store is canonical, an existing entry keeps
    its id and a new one gets the next. *)
Fixpoint find_identifier (ids : list string) (text : string) : option Z :=
  match ids with
  | [] => None
  | x :: ids' =>
      if (x =? text)%string then Some 0
      else (λ i, 1 + i) <$> find_identifier ids' text
  end.

Definition AddIdentifier (ids : list string) (text : string) : Z * list string :=
  match find_identifier ids text with
  | Some i => (i, ids)
  | None => (vec_size ids, ids ++ [text])
  end.

(** [TokenizedBuffer::AddPostLexingRecoveryToken]. *)
Definition AddPostLexingRecoveryToken b (info : TokenInfo) (ids : list string)
    : Z * t :=
  let recovery :=
    if bool_decide (recovery_tokens b = []) then
      replicate (length (token_infos b)) false
    else recovery_tokens b in
  (size b,
   {| token_infos := token_infos b ++ [info];
      line_infos := line_infos b;
      has_errors := has_errors b;
      expected_max_parse_tree_size := expected_max_parse_tree_size b;
      post_lexing_recovery_tokens := post_lexing_recovery_tokens b + 1;
      recovery_tokens := recovery ++ [true];
      source_text := source_text b;
      identifiers := ids |}).

(** [TokenizedBuffer::AddPostLexingRecoveryTokenAsIdentifier]. *)
Definition AddPostLexingRecoveryTokenAsIdentifier b tok : Result (Z * t) :=
  k ← GetKind b tok;
  require (TokenKind.is_word k) ;;
  require (negb (TokenKind.eqb k TokenKind.Identifier)) ;;
  text ← GetWordText b tok;
  let '(id, ids) := AddIdentifier (identifiers b) text in
  info ← vec_get (token_infos b) tok;
  info' ← AsErrorRecoveryIdentifier info id;
  mret (AddPostLexingRecoveryToken b info' ids).

(** [TokenizedBuffer::AddToken], which also accumulates the size estimate. *)
Definition AddToken b (info : TokenInfo) : t :=
  {| token_infos := token_infos b ++ [info];
     line_infos := line_infos b;
     has_errors := has_errors b;
     expected_max_parse_tree_size :=
       expected_max_parse_tree_size b +
       TokenKind.expected_max_parse_tree_size (kind info);
     post_lexing_recovery_tokens := post_lexing_recovery_tokens b;
     recovery_tokens := recovery_tokens b;
     source_text := source_text b;
     identifiers := identifiers b |}.

(** [TokenizedBuffer::IsRecoveryToken]. *)
Definition IsRecoveryToken b tok : Result bool :=
  match recovery_tokens b with
  | [] => mret false
  | _ => vec_get (recovery_tokens b) tok
  end.

(** [b'] keeps every token of [b] at its index and may have more of them: the
    only way parsing changes the buffer. *)
Definition extends b b' : Prop :=
  ∃ more, token_infos b' = token_infos b ++ more ∧ line_infos b' = line_infos b ∧
    has_errors b' = has_errors b ∧
    expected_max_parse_tree_size b' = expected_max_parse_tree_size b ∧
    tokens_end b' = tokens_end b ∧ source_text b' = source_text b.

#[global] Instance extends_po : PreOrder extends.
Proof.
  split.
  - intros b. exists []. by rewrite app_nil_r.
  - intros b1 b2 b3 (m1 & E1 & L1 & H1 & X1 & T1 & S1) (m2 & E2 & L2 & H2 & X2 & T2 & S2).
    exists (m1 ++ m2). rewrite E2, E1, L2, L1, H2, H1, X2, X1, T2, T1, S2, S1, app_assoc.
    done.
Qed.

Lemma extends_GetKind b b' tok k :
  extends b b' → GetKind b tok = Ok k → GetKind b' tok = Ok k.
Proof.
  intros (more & E & _). unfold GetKind. rewrite !result_bind_Ok.
  intros (i & Hi & Hk). exists i. split; [|done]. rewrite E. by apply vec_get_app_l.
Qed.

Lemma AddPostLexingRecoveryToken_extends b info ids tok b' :
  AddPostLexingRecoveryToken b info ids = (tok, b') → extends b b'.
Proof.
  intros [= <- <-]. exists [info]. unfold tokens_end, size; cbn.
  unfold vec_size. rewrite length_app. cbn. repeat split; lia.
Qed.

Lemma AddPostLexingRecoveryTokenAsIdentifier_extends b tok r b' :
  AddPostLexingRecoveryTokenAsIdentifier b tok = Ok (r, b') → extends b b'.
Proof.
  unfold AddPostLexingRecoveryTokenAsIdentifier. intros H.
  repeat (apply result_bind_Ok in H as (? & ? & H)).
  destruct (AddIdentifier _ _) as [id ids].
  repeat (apply result_bind_Ok in H as (? & ? & H)).
  destruct (AddPostLexingRecoveryToken _ _ _) as [r' b''] eqn:E.
  injection H as [= <- <-]. by eapply AddPostLexingRecoveryToken_extends.
Qed.

End TokenizedBuffer.
