(* ===== verification/Lexed.v ===== *)
(** What lexing promises to parsing: the class [Lexed] of well-formed token
    buffers, with a boolean decision procedure, and what follows from it about
    bracketing levels and source lines. The parser's theorems that need a
    well-formed input are proved against this interface. The last part is about
    the curly braces open at each position: the parser skips tokens of every
    kind to recover from errors, but not past the close of the innermost brace
    group it is in, so the open groups are what the handlers keep in step with
    the state stack. *)

From S2P Require Import Prelude TokenKinds Tokens.
Import TokenizedBuffer.

Definition is_opening b (i : Z) : Prop :=
  ∃ k, GetKind b i = Ok k ∧ TokenKind.is_opening_symbol k = true.
Definition is_closing b (i : Z) : Prop :=
  ∃ k, GetKind b i = Ok k ∧ TokenKind.is_closing_symbol k = true.

(** The contract of the lexer: the stream is delimited by [FileStart] and
    [FileEnd], which occur nowhere else; every opening symbol is matched by a
    later closing symbol of its kind, inside the stream; every closing symbol
    is the match of an opening one; groups nest; every token lies on a line. *)
Class Lexed (b : TokenizedBuffer.t) : Prop := {
  lexed_nonempty : 2 ≤ tokens_end b ≤ size b;
  lexed_start : GetKind b 0 = Ok TokenKind.FileStart;
  lexed_end : GetKind b (tokens_end b - 1) = Ok TokenKind.FileEnd;
  lexed_inside i k : GetKind b i = Ok k → 0 < i → i ≠ tokens_end b - 1 →
    k ≠ TokenKind.FileStart ∧ k ≠ TokenKind.FileEnd;
  lexed_match i k : GetKind b i = Ok k → TokenKind.is_opening_symbol k = true →
    ∃ j, GetMatchedClosingToken b i = Ok j ∧ i < j < tokens_end b - 1 ∧
         GetKind b j = Ok (TokenKind.closing_symbol k);
  lexed_closers j : is_closing b j → ∃ i, is_opening b i ∧ GetMatchedClosingToken b i = Ok j;
  lexed_nested i j i' j' : GetMatchedClosingToken b i = Ok j →
    GetMatchedClosingToken b i' = Ok j' → i < i' < j → j' < j;
  lexed_first_line : ∃ l ls, line_infos b = l :: ls ∧ start l ≤ 0;
  lexed_offsets : Forall (λ t, 0 ≤ byte_offset t) (token_infos b);
}.

(** * Deciding it *)

Definition indices b : list Z := seqZ 0 (size b).

Definition kind_is b (i : Z) (P : TokenKind.t → bool) : bool :=
  match GetKind b i with Ok k => P k | Err _ => false end.

Definition match_of b (i : Z) : option Z :=
  match GetMatchedClosingToken b i with Ok j => Some j | Err _ => None end.

Definition lexed_check b : bool :=
  (2 <=? tokens_end b) && (tokens_end b <=? size b) &&
  kind_is b 0 (TokenKind.eqb TokenKind.FileStart) &&
  kind_is b (tokens_end b - 1) (TokenKind.eqb TokenKind.FileEnd) &&
  forallb (λ i,
    kind_is b i (λ k,
      ((i =? 0) || (i =? tokens_end b - 1) ||
       negb (TokenKind.IsOneOf k [TokenKind.FileStart; TokenKind.FileEnd])) &&
      (negb (TokenKind.is_opening_symbol k) ||
       match match_of b i with
       | Some j => (i <? j) && (j <? tokens_end b - 1) &&
           kind_is b j (TokenKind.eqb (TokenKind.closing_symbol k))
       | None => false
       end) &&
      (negb (TokenKind.is_closing_symbol k) ||
       existsb (λ o, match match_of b o with Some j => j =? i | None => false end)
         (indices b)))) (indices b) &&
  forallb (λ i, forallb (λ i',
    match match_of b i, match_of b i' with
    | Some j, Some j' => negb ((i <? i') && (i' <? j)) || (j' <? j)
    | _, _ => true
    end) (indices b)) (indices b) &&
  match line_infos b with l :: _ => start l <=? 0 | [] => false end &&
  forallb (λ t, 0 <=? byte_offset t) (token_infos b).

Lemma GetKind_indices b i k : GetKind b i = Ok k → i ∈ indices b.
Proof.
  intros (t & Ht & _)%result_bind_Ok. apply vec_get_lt in Ht.
  unfold indices, size. apply elem_of_seqZ. lia.
Qed.

Lemma GetMatchedClosingToken_opening b i j :
  GetMatchedClosingToken b i = Ok j → is_opening b i.
Proof.
  unfold GetMatchedClosingToken, is_opening, GetKind.
  intros (t & Ht & H)%result_bind_Ok. apply result_bind_Ok in H as ([] & H & _).
  apply require_Ok in H. exists (kind t). by rewrite Ht.
Qed.

Lemma forallb_indices b (P : Z → bool) i k :
  forallb P (indices b) = true → GetKind b i = Ok k → P i = true.
Proof.
  rewrite forallb_forall. intros H Hi. apply H, list_elem_of_In. by eapply GetKind_indices.
Qed.

Lemma kind_is_eqb b i k : kind_is b i (TokenKind.eqb k) = true → GetKind b i = Ok k.
Proof.
  unfold kind_is. destruct (GetKind b i) as [k'|]; [|done].
  by destruct (TokenKind.token_eqb_spec k k') as [->|].
Qed.

Lemma lexed_check_sound b : lexed_check b = true → Lexed b.
Proof.
  unfold lexed_check. rewrite !andb_true_iff, !Z.leb_le.
  intros (((((((H1 & H2) & H3) & H4) & H5) & H6) & H7) & H8).
  assert (∀ i j, GetMatchedClosingToken b i = Ok j → match_of b i = Some j) as Hm.
  { intros i j E. unfold match_of. by rewrite E. }
  assert (∀ i j, match_of b i = Some j → GetMatchedClosingToken b i = Ok j) as Hm'.
  { intros i j. unfold match_of. by destruct (GetMatchedClosingToken b i); intros [= ->]. }
  split; [lia|by apply kind_is_eqb|by apply kind_is_eqb|..].
  - intros i k Hk Hi Hn. pose proof (forallb_indices _ _ _ _ H5 Hk) as H. cbn in H.
    unfold kind_is in H. rewrite Hk, !andb_true_iff, !orb_true_iff, !Z.eqb_eq in H.
    destruct H as [[[[?|?]|H] _] _]; [lia|lia|]. apply negb_true_iff in H.
    split; intros ->; vm_compute in H; discriminate.
  - intros i k Hk Ho. pose proof (forallb_indices _ _ _ _ H5 Hk) as H. cbn in H.
    unfold kind_is at 1 in H. rewrite Hk, !andb_true_iff, Ho in H. cbn in H.
    destruct H as [[_ H] _]. destruct (match_of b i) as [j|] eqn:E; [|done].
    rewrite !andb_true_iff, !Z.ltb_lt in H. destruct H as [[? ?] H].
    exists j. split; [by apply Hm'|]. split; [lia|]. by apply kind_is_eqb.
  - intros j (k & Hk & Hc). pose proof (forallb_indices _ _ _ _ H5 Hk) as H. cbn in H.
    unfold kind_is at 1 in H. rewrite Hk, !andb_true_iff, Hc in H. cbn in H.
    destruct H as [_ H]. apply existsb_exists in H as (i & _ & H).
    destruct (match_of b i) as [j'|] eqn:E; [|done]. apply Z.eqb_eq in H as ->.
    exists i. split; [by eapply GetMatchedClosingToken_opening, Hm'|by apply Hm'].
  - intros i j i' j' E E' Hi.
    destruct (GetMatchedClosingToken_opening _ _ _ E) as (k & Hk & _).
    destruct (GetMatchedClosingToken_opening _ _ _ E') as (k' & Hk' & _).
    pose proof (forallb_indices _ _ _ _ H6 Hk) as H. cbn beta in H.
    pose proof (forallb_indices _ _ _ _ H Hk') as H'. cbn beta in H'.
    rewrite (Hm _ _ E), (Hm _ _ E'), orb_true_iff, Z.ltb_lt in H'.
    destruct H' as [H'|H']; [|done].
    apply negb_true_iff, andb_false_iff in H'. rewrite !Z.ltb_ge in H'. lia.
  - destruct (line_infos b) as [|l ls]; [done|]. exists l, ls. split; [done|by apply Z.leb_le].
  - rewrite forallb_forall in H8. apply Forall_forall. intros t Ht%list_elem_of_In.
    by apply Z.leb_le, H8.
Qed.

(** * Bracketing levels

    [level_step b i j]: [j] is the position after token [i] at the same
    bracketing level, where a group counts as one token. There is none after
    a closing symbol or the end of the file. *)
Inductive level_step b : Z → Z → Prop :=
  | level_token i k :
      GetKind b i = Ok k → TokenKind.is_opening_symbol k = false →
      TokenKind.is_closing_symbol k = false → k ≠ TokenKind.FileEnd →
      level_step b i (i + 1)
  | level_group i j :
      GetMatchedClosingToken b i = Ok j → level_step b i (j + 1).

(** [q] is at the level of [p], at or after it. *)
Definition same_level b : Z → Z → Prop := rtc (level_step b).

Section lexed.
Context `{!Lexed b}.

Lemma match_bounds i j :
  GetMatchedClosingToken b i = Ok j → 0 ≤ i < j ∧ j < tokens_end b - 1 ∧ is_closing b j.
Proof.
  intros E. destruct (GetMatchedClosingToken_opening _ _ _ E) as (k & Hk & Ho).
  destruct (lexed_match i k Hk Ho) as (j' & E' & Hij & Hj).
  assert (j' = j) as -> by congruence.
  apply result_bind_Ok in Hk as (t & [? _]%vec_get_Ok & _).
  split; [lia|]. split; [lia|]. exists (TokenKind.closing_symbol k).
  split; [done|]. by destruct k.
Qed.

Lemma level_step_lt p q : level_step b p q → p < q.
Proof. intros [i k _ _ _ _|i j H]; [lia|]. apply match_bounds in H. lia. Qed.

Lemma same_level_le p q : same_level b p q → p ≤ q.
Proof. induction 1 as [|p q r H%level_step_lt]; lia. Qed.

Lemma GetKind_total i : 0 ≤ i < size b → ∃ k, GetKind b i = Ok k.
Proof.
  intros Hi. destruct (vec_get_in_range (token_infos b) i Hi) as [t Ht].
  exists (kind t). unfold GetKind. by rewrite Ht.
Qed.

(** Everything opened since [p] at [p]'s level is closed again. *)
Lemma same_level_closed p q i j :
  same_level b p q → p ≤ i < q → GetMatchedClosingToken b i = Ok j → j < q.
Proof.
  intros H. revert i j. induction H as [|p q r H Hqr IH]; intros i j Hi E; [lia|].
  destruct (decide (q ≤ i)); [by apply (IH i); [lia|]|].
  assert (j < q); [|pose proof (same_level_le _ _ Hqr); lia].
  destruct H as [i' k Hk Ho _ _|i' j' E'].
  - assert (i = i') as -> by lia.
    destruct (GetMatchedClosingToken_opening _ _ _ E) as (k' & Hk' & Ho'). congruence.
  - destruct (decide (i = i')) as [->|]; [assert (j = j') by congruence; lia|].
    destruct (match_bounds _ _ E') as (_ & _ & Hc).
    assert (i ≠ j').
    { intros ->. destruct Hc as (k & Hk & Hc).
      destruct (GetMatchedClosingToken_opening _ _ _ E) as (k' & Hk' & Ho').
      assert (k' = k) as -> by congruence. by destruct k. }
    pose proof (lexed_nested _ _ _ _ E' E ltac:(lia)). lia.
Qed.

(** Inside a group the level does not run past the group's end. *)
Lemma same_level_in_group o j p :
  GetMatchedClosingToken b o = Ok j → same_level b (o + 1) p → p ≤ j.
Proof.
  intros E H. destruct (match_bounds _ _ E) as (Ho & _ & Hc).
  revert p H. apply rtc_ind_r; [lia|]. intros q r Hq Hs IH.
  pose proof (same_level_le _ _ Hq).
  assert (q ≠ j) as Hne.
  { intros ->. destruct Hc as (k & Hk & Hc). inversion Hs as [i k' Hk' _ Hc'|i m Em]; subst.
    - congruence.
    - destruct (GetMatchedClosingToken_opening _ _ _ Em) as (k' & Hk' & Ho').
      assert (k' = k) as -> by congruence. by destruct k. }
  destruct Hs as [i k _ _ _ _|i m Em]; [lia|].
  pose proof (lexed_nested _ _ _ _ E Em ltac:(lia)). lia.
Qed.

(** The first closing symbol at the level of a group's contents is the match
    of the symbol that opened the group. *)
Lemma same_level_closing o j p :
  GetMatchedClosingToken b o = Ok j → same_level b (o + 1) p → is_closing b p → p = j.
Proof.
  intros E H Hp. pose proof (same_level_in_group _ _ _ E H) as Hle.
  pose proof (same_level_le _ _ H) as Hge.
  destruct (decide (p = j)) as [|Hne]; [done|]. exfalso.
  destruct (lexed_closers p Hp) as (i & _ & Ei).
  destruct (match_bounds _ _ Ei) as (Hi & _).
  destruct (Z.lt_trichotomy i o) as [Hio|[->|Hio]].
  - pose proof (lexed_nested _ _ _ _ Ei E ltac:(lia)). lia.
  - congruence.
  - pose proof (same_level_closed _ _ i _ H ltac:(lia) Ei). lia.
Qed.

(** ** Lines *)

Lemma partition_point_prefix (lines : list LineInfo) offset n l :
  0 ≤ n < partition_point lines offset → lines !! Z.to_nat n = Some l → start l ≤ offset.
Proof.
  revert n. induction lines as [|l' lines IH]; intros n; cbn; [done|].
  destruct (Z.leb_spec (start l') offset) as [Hl|]; [|lia]. intros Hn.
  destruct (Z.eq_dec n 0) as [->|]; [by intros [= <-]|].
  replace (Z.to_nat n) with (S (Z.to_nat (n - 1))) by lia. cbn. apply IH. lia.
Qed.

Lemma partition_point_bounds (lines : list LineInfo) offset :
  0 ≤ partition_point lines offset ≤ vec_size lines.
Proof.
  unfold vec_size. induction lines as [|l lines IH]; cbn; [lia|].
  destruct (start l <=? offset); lia.
Qed.

Lemma FindLineIndex_total offset :
  0 ≤ offset →
  ∃ n l, FindLineIndex b offset = Ok n ∧ vec_get (line_infos b) n = Ok l ∧
    start l ≤ offset.
Proof.
  intros Ho. destruct lexed_first_line as (l0 & ls & El & H0).
  unfold FindLineIndex. set (pp := partition_point (line_infos b) offset).
  assert (1 ≤ pp ≤ vec_size (line_infos b)) as Hpp.
  { split; [|apply partition_point_bounds]. unfold pp. rewrite El. cbn.
    destruct (Z.leb_spec (start l0) offset); [|lia].
    pose proof (partition_point_bounds ls offset). lia. }
  rewrite (proj2 (Z.ltb_lt 0 (vec_size (line_infos b)))) by lia. cbn.
  assert (∀ n, 0 ≤ n < pp → ∃ l, vec_get (line_infos b) n = Ok l ∧ start l ≤ offset) as Hget.
  { intros n Hn. destruct (vec_get_in_range (line_infos b) n ltac:(lia)) as [l Hl].
    exists l. split; [done|]. apply vec_get_Ok in Hl as [_ Hl].
    eapply partition_point_prefix; [|exact Hl]. done. }
  destruct (Hget (pp - 1)) as (l1 & E1 & _); [lia|]. rewrite E1. cbn.
  set (n := if _ && _ then _ else _).
  assert (0 ≤ n < pp) as Hn.
  { unfold n. destruct (Z.eqb_spec (pp - 1) 0); cbn; [lia|].
    destruct (_ =? _); lia. }
  destruct (Hget n Hn) as (l & E & Hl). exists n, l. rewrite E. cbn.
  by rewrite (proj2 (Z.leb_le _ _) Hl).
Qed.

Lemma GetLine_total t : 0 ≤ t < size b →
  ∃ n indent column, GetLine b t = Ok n ∧ GetIndentColumnNumber b n = Ok indent ∧
    GetColumnNumber b t = Ok column.
Proof.
  intros Ht. destruct (vec_get_in_range (token_infos b) t Ht) as [i Hi].
  assert (0 ≤ byte_offset i) as Ho.
  { apply vec_get_Ok in Hi as [_ Hi].
    exact (proj1 (Forall_lookup _ _) lexed_offsets _ _ Hi). }
  destruct (FindLineIndex_total _ Ho) as (n & l & En & El & _).
  exists n, (indent l + 1), (byte_offset i - start l + 1).
  unfold GetLine, GetIndentColumnNumber, GetColumnNumber. rewrite Hi. cbn.
  rewrite En. cbn. by rewrite El.
Qed.
End lexed.

(** * Recovery tokens

    An identifier appended for error recovery is outside the stream and
    changes nothing in it. *)
Section recovery.
Context (b b' : TokenizedBuffer.t) (info : TokenInfo).
Context (Hinfos : token_infos b' = token_infos b ++ [info])
  (Hlines : line_infos b' = line_infos b) (Hend : tokens_end b' = tokens_end b)
  (Hkind : kind info = TokenKind.Identifier) (Hoffset : 0 ≤ byte_offset info).

Lemma recovery_GetKind i k :
  GetKind b' i = Ok k ↔
  GetKind b i = Ok k ∨ (i = size b ∧ k = TokenKind.Identifier).
Proof using Hinfos Hkind.
  unfold GetKind, size. rewrite Hinfos. split.
  - intros (t & Ht & [= <-])%result_bind_Ok. apply vec_get_snoc_inv in Ht as [Ht|[-> ->]].
    + left. by rewrite Ht.
    + right. by rewrite Hkind.
  - intros [(t & Ht & Hk)%result_bind_Ok|[-> ->]].
    + by rewrite (vec_get_app_l _ _ _ _ Ht).
    + by rewrite vec_get_app_last, <- Hkind.
Qed.

Lemma recovery_match i j :
  GetMatchedClosingToken b' i = Ok j ↔ GetMatchedClosingToken b i = Ok j.
Proof using Hinfos Hkind.
  unfold GetMatchedClosingToken. rewrite Hinfos. split.
  - intros (t & Ht & H)%result_bind_Ok. apply vec_get_snoc_inv in Ht as [Ht|[-> ->]].
    + by rewrite Ht.
    + by rewrite Hkind in H.
  - intros (t & Ht & H)%result_bind_Ok. by rewrite (vec_get_app_l _ _ _ _ Ht).
Qed.

Lemma recovery_lexed : Lexed b → Lexed b'.
Proof using All.
  intros HL. pose proof lexed_nonempty as Hsz.
  assert (size b' = size b + 1) as Hsize.
  { unfold size, vec_size. rewrite Hinfos, length_app. cbn. lia. }
  split; rewrite ?Hend.
  - lia.
  - apply recovery_GetKind. left. apply lexed_start.
  - apply recovery_GetKind. left. apply lexed_end.
  - intros i k [Hk|[-> ->]]%recovery_GetKind Hi Hne; [by eapply lexed_inside|done].
  - intros i k [Hk|[-> ->]]%recovery_GetKind Ho; [|done].
    destruct (lexed_match i k Hk Ho) as (j & Hj & Hr & Hc). exists j.
    rewrite recovery_match, recovery_GetKind. auto.
  - intros j (k & Hk & Hc). apply recovery_GetKind in Hk as [Hk|[-> ->]]; [|done].
    destruct (lexed_closers j) as (i & (k' & Hk' & Ho) & E); [by exists k|].
    exists i. split; [|by apply recovery_match]. exists k'. split; [|done].
    apply recovery_GetKind. by left.
  - intros i j i' j'. rewrite !recovery_match. apply lexed_nested.
  - rewrite Hlines. apply lexed_first_line.
  - rewrite Hinfos. apply Forall_app. split; [apply lexed_offsets|by constructor].
Qed.
End recovery.

Lemma AddPostLexingRecoveryTokenAsIdentifier_lexed b tok r b' :
  Lexed b → AddPostLexingRecoveryTokenAsIdentifier b tok = Ok (r, b') → Lexed b'.
Proof.
  unfold AddPostLexingRecoveryTokenAsIdentifier. intros HL.
  intros (k & _ & H)%result_bind_Ok. apply result_bind_Ok in H as (? & _ & H).
  apply result_bind_Ok in H as (? & _ & H). apply result_bind_Ok in H as (text & _ & H).
  destruct (AddIdentifier _ _) as [id ids].
  apply result_bind_Ok in H as (info & Hi & H).
  apply result_bind_Ok in H as (info' & Hi' & H).
  apply result_bind_Ok in Hi' as (? & _ & [= <-]). injection H as [= <- <-].
  apply vec_get_Ok in Hi as [_ Hi].
  eapply recovery_lexed; [reflexivity|reflexivity| |reflexivity| |done].
  - unfold tokens_end, size, vec_size; cbn. rewrite length_app. cbn. lia.
  - exact (proj1 (Forall_lookup _ _) lexed_offsets _ _ Hi).
Qed.

(** The kind of a token, [FileEnd] outside the buffer. *)
Definition kind_at b (p : Z) : TokenKind.t :=
  match GetKind b p with Ok k => k | Err _ => TokenKind.FileEnd end.

(** The effect of token [p] on the open braces. *)
Definition brace_step (k : TokenKind.t) (p : Z) (open : list Z) : list Z :=
  match k with
  | TokenKind.OpenCurlyBrace => p :: open
  | TokenKind.CloseCurlyBrace => tail open
  | _ => open
  end.

Fixpoint braces_before b (n : nat) : list Z :=
  match n with
  | O => []
  | S m => brace_step (kind_at b (Z.of_nat m)) (Z.of_nat m) (braces_before b m)
  end.

(** The brace groups open at position [p], innermost first. *)
Definition braces b (p : Z) : list Z := braces_before b (Z.to_nat p).

Lemma kind_at_Ok b p k : GetKind b p = Ok k → kind_at b p = k.
Proof. unfold kind_at. by intros ->. Qed.

Lemma braces_succ b p : 0 ≤ p → braces b (p + 1) = brace_step (kind_at b p) p (braces b p).
Proof.
  intros Hp. unfold braces. replace (Z.to_nat (p + 1)) with (S (Z.to_nat p)) by lia.
  cbn. by rewrite Z2Nat.id.
Qed.

Lemma brace_step_plain k p open :
  k ≠ TokenKind.OpenCurlyBrace → k ≠ TokenKind.CloseCurlyBrace → brace_step k p open = open.
Proof. by destruct k. Qed.

(** What a scan may pass over: a token that closes no brace, or a group. *)
Inductive skip_step b : Z → Z → Prop :=
  | skip_token i k :
      GetKind b i = Ok k → TokenKind.is_opening_symbol k = false →
      k ≠ TokenKind.CloseCurlyBrace → skip_step b i (i + 1)
  | skip_group i j :
      GetMatchedClosingToken b i = Ok j → skip_step b i (j + 1).

Section lexed.
Context `{!Lexed b}.

(** From every position of a group that is not its end, the level goes on. *)
Lemma level_continues o j p :
  GetMatchedClosingToken b o = Ok j → same_level b (o + 1) p → p < j →
  ∃ q, level_step b p q ∧ q ≤ j.
Proof using Lexed0.
  intros E H Hp. destruct (match_bounds _ _ E) as (Ho & Hj & Hc).
  pose proof (same_level_le _ _ H) as Hge. pose proof lexed_nonempty as Hsz.
  destruct (GetKind_total (b := b) p) as [k Hk]; [lia|].
  assert (∃ q, level_step b p q) as [q Hq].
  { destruct (TokenKind.is_opening_symbol k) eqn:Hopen.
    { destruct (lexed_match p k Hk Hopen) as (m & Hm & _). exists (m + 1). by constructor. }
    destruct (TokenKind.is_closing_symbol k) eqn:Hclose.
    { assert (p = j); [|lia]. eapply same_level_closing; [done..|]. by exists k. }
    exists (p + 1). econstructor; [done..|].
    destruct (lexed_inside p k Hk); [lia|lia|done]. }
  exists q. split; [done|]. eapply same_level_in_group; [done|]. by eapply rtc_r.
Qed.

Lemma level_step_in_braces p q :
  0 ≤ p → (∀ j, GetMatchedClosingToken b p = Ok j → braces b (j + 1) = braces b p) →
  level_step b p q → braces b q = braces b p.
Proof using Lexed0.
  intros Hp Hg Hs. destruct Hs as [p k Hk Ho Hc _|p j Hj]; [|by apply Hg].
  rewrite braces_succ by done. rewrite (kind_at_Ok _ _ _ Hk).
  apply brace_step_plain; intros ->; done.
Qed.

(** A group opens what it closes. *)
Lemma group_braces o j :
  GetMatchedClosingToken b o = Ok j →
  braces b j = brace_step (kind_at b o) o (braces b o) ∧ braces b (j + 1) = braces b o.
Proof using Lexed0.
  remember (Z.to_nat (j - o)) as n eqn:Hn. revert o j Hn.
  induction (lt_wf n) as [n _ IH]. intros o j -> E.
  destruct (match_bounds _ _ E) as (Ho & Hj & Hc).
  destruct (GetMatchedClosingToken_opening _ _ _ E) as (k & Hk & Hopen).
  assert (∀ m p, (Z.to_nat (j - p) < m)%nat → same_level b (o + 1) p → p ≤ j →
    braces b j = braces b p) as Hwalk.
  { induction m as [|m IHm]; intros p Hm Hp Hle; [lia|].
    destruct (decide (p = j)) as [->|Hne]; [done|].
    pose proof (same_level_le _ _ Hp).
    destruct (level_continues _ _ _ E Hp) as (q & Hq & Hqj); [lia|].
    pose proof (level_step_lt _ _ Hq). rewrite (IHm q); [|lia|by eapply rtc_r|done].
    apply level_step_in_braces; [lia| |done]. intros j' Ej'.
    destruct (match_bounds _ _ Ej') as (? & _).
    pose proof (lexed_nested _ _ _ _ E Ej' ltac:(lia)).
    by apply (IH (Z.to_nat (j' - p))); [lia|..]. }
  assert (braces b j = brace_step (kind_at b o) o (braces b o)) as Hb.
  { rewrite (Hwalk (S (Z.to_nat (j - (o + 1)))) (o + 1)); [|lia|reflexivity|lia].
    by rewrite braces_succ by lia. }
  split; [done|]. rewrite braces_succ by lia. rewrite Hb, (kind_at_Ok _ _ _ Hk).
  destruct (lexed_match o k Hk Hopen) as (j' & E' & _ & Hkj).
  assert (j' = j) as -> by congruence. rewrite (kind_at_Ok _ _ _ Hkj). by destruct k.
Qed.

Lemma level_step_braces p q : 0 ≤ p → level_step b p q → braces b q = braces b p.
Proof using Lexed0.
  intros Hp. apply level_step_in_braces; [done|]. intros j Hj. by apply group_braces.
Qed.

Lemma same_level_braces p q : 0 ≤ p → same_level b p q → braces b q = braces b p.
Proof using Lexed0.
  intros Hp H. induction H as [|p q r Hs _ IH]; [done|].
  pose proof (level_step_lt _ _ Hs). rewrite IH by lia. by apply level_step_braces.
Qed.

Lemma skip_step_lt p q : skip_step b p q → p < q.
Proof using Lexed0. intros [i k _ _ _|i j H]; [lia|]. apply match_bounds in H. lia. Qed.

Lemma skip_steps_le p q : rtc (skip_step b) p q → p ≤ q.
Proof using Lexed0. induction 1 as [|p q r H%skip_step_lt]; lia. Qed.

Lemma skip_steps_braces p q : 0 ≤ p → rtc (skip_step b) p q → braces b q = braces b p.
Proof using Lexed0.
  intros Hp H. induction H as [|p q r Hs _ IH]; [done|].
  pose proof (skip_step_lt _ _ Hs). rewrite IH by lia.
  destruct Hs as [i k Hk Ho Hc|i j Hj]; [|by apply group_braces].
  rewrite braces_succ by done. rewrite (kind_at_Ok _ _ _ Hk).
  apply brace_step_plain; [by intros ->|done].
Qed.

(** No brace is open at the end of the file. *)
Lemma braces_at_end : braces b (tokens_end b - 1) = [].
Proof using Lexed0.
  pose proof lexed_nonempty as Hsz.
  assert (∀ m p, (Z.to_nat (tokens_end b - 1 - p) < m)%nat → same_level b 0 p →
    p ≤ tokens_end b - 1 → braces b (tokens_end b - 1) = braces b p) as Hwalk.
  { induction m as [|m IHm]; intros p Hm Hp Hle; [lia|].
    destruct (decide (p = tokens_end b - 1)) as [<-|Hne]; [done|].
    pose proof (same_level_le _ _ Hp).
    destruct (GetKind_total (b := b) p) as [k Hk]; [lia|].
    assert (∃ q, level_step b p q ∧ q ≤ tokens_end b - 1) as (q & Hq & Hqe).
    { destruct (TokenKind.is_opening_symbol k) eqn:Hopen.
      { destruct (lexed_match p k Hk Hopen) as (j & Hj & ? & _).
        exists (j + 1). split; [by constructor|lia]. }
      exists (p + 1). split; [|lia]. econstructor; [done..| |].
      - destruct (TokenKind.is_closing_symbol k) eqn:Hclose; [|done]. exfalso.
        destruct (lexed_closers p ltac:(by exists k)) as (i & _ & Ei).
        pose proof (match_bounds _ _ Ei).
        pose proof (same_level_closed _ _ i p Hp ltac:(lia) Ei). lia.
      - destruct (decide (p = 0)) as [->|].
        { intros ->. pose proof lexed_start. congruence. }
        destruct (lexed_inside p k Hk); [lia|done|done]. }
    pose proof (level_step_lt _ _ Hq).
    rewrite (IHm q); [|lia|by eapply rtc_r|done]. by apply level_step_braces. }
  by rewrite (Hwalk (S (Z.to_nat (tokens_end b - 1))) 0); [|lia|reflexivity|lia].
Qed.
End lexed.
