(* ===== verification/Simd.v ===== *)
(** The SSE instructions the lexer's x86 code uses, through their intrinsics.
    They are not code of the repository: the operations are a record of
    parameters, [X86SimdLaws] is what Intel documents of them, lane by lane, and
    [ByteLanes] is an implementation that shows the laws can hold. *)

From S2P Require Import Prelude.

(** A lane is a byte; lane 0 is the first in memory. *)
Definition byte (b : Z) : Prop := 0 ≤ b < 256.

(** The four 32-bit groups of sixteen lanes, little-endian. *)
Fixpoint dwords (bs : list Z) : list Z :=
  match bs with
  | b0 :: b1 :: b2 :: b3 :: bs => (b0 + 2 ^ 8 * b1 + 2 ^ 16 * b2 + 2 ^ 24 * b3) :: dwords bs
  | _ => []
  end.

(** The mask with bit [i] set where the [i]th element is. *)
Fixpoint mask_of (bits : list bool) : Z :=
  match bits with
  | [] => 0
  | b :: bits => Z.b2z b + 2 * mask_of bits
  end.

(** The sixteen bytes of a 128-bit integer in memory. *)
Fixpoint bytes_of (n : nat) (v : Z) : list Z :=
  match n with
  | O => []
  | S n => v mod 256 :: bytes_of n (v / 256)
  end.

Class X86Simd := {
  m128i : Type;
  lanes : m128i → list Z;
  (** The bits of an [unsigned __int128]. *)
  m128i_cast : Z → m128i;
  mm_loadu_si128 : list Z → m128i;
  mm_setzero_si128 : m128i;
  mm_set1_epi8 : Z → m128i;
  mm_and_si128 : m128i → m128i → m128i;
  mm_xor_si128 : m128i → m128i → m128i;
  mm_srli_epi32 : m128i → Z → m128i;
  mm_shuffle_epi8 : m128i → m128i → m128i;
  mm_cmpeq_epi8 : m128i → m128i → m128i;
  mm_movemask_epi8 : m128i → Z;
  mm_test_all_zeros : m128i → m128i → bool;
}.

Definition shuffle_lane (table : list Z) (i : Z) : Z :=
  if Z.testbit i 7 then 0 else default 0 (table !! Z.to_nat (i mod 16)).

Class X86SimdLaws `(X86Simd) := {
  lanes_length v : length (lanes v) = 16%nat;
  lanes_byte v : Forall byte (lanes v);
  m128i_cast_spec v : 0 ≤ v < 2 ^ 128 → lanes (m128i_cast v) = bytes_of 16 v;
  loadu_spec bs : length bs = 16%nat → Forall byte bs → lanes (mm_loadu_si128 bs) = bs;
  setzero_spec : lanes mm_setzero_si128 = replicate 16 0;
  set1_spec b : byte b → lanes (mm_set1_epi8 b) = replicate 16 b;
  and_spec a b : lanes (mm_and_si128 a b) = zip_with Z.land (lanes a) (lanes b);
  xor_spec a b : lanes (mm_xor_si128 a b) = zip_with Z.lxor (lanes a) (lanes b);
  srli_spec a n : 0 ≤ n →
    dwords (lanes (mm_srli_epi32 a n)) = (λ d, Z.shiftr d n) <$> dwords (lanes a);
  shuffle_spec a b : lanes (mm_shuffle_epi8 a b) = shuffle_lane (lanes a) <$> lanes b;
  cmpeq_spec a b :
    lanes (mm_cmpeq_epi8 a b) =
      zip_with (λ x y, if x =? y then 255 else 0) (lanes a) (lanes b);
  movemask_spec a : mm_movemask_epi8 a = mask_of ((λ b, Z.testbit b 7) <$> lanes a);
  test_all_zeros_spec a b :
    mm_test_all_zeros a b = forallb (Z.eqb 0) (zip_with Z.land (lanes a) (lanes b));
}.

(** [__builtin_ctz], undefined at zero. *)
Fixpoint ctz_pos (p : positive) : Z :=
  match p with xO p => 1 + ctz_pos p | _ => 0 end.
Definition builtin_ctz (x : Z) : Result Z :=
  match x with Zpos p => mret (ctz_pos p) | _ => Err OutOfRange end.

(** * Lanes *)

Lemma mask_of_nonneg bits : 0 ≤ mask_of bits.
Proof. induction bits as [|[] bits IH]; cbn [mask_of Z.b2z]; lia. Qed.

Lemma mask_of_zero bits : mask_of bits = 0 ↔ Forall (λ b, b = false) bits.
Proof.
  induction bits as [|b bits IH]; cbn [mask_of]; [split; [by constructor|done]|].
  pose proof (mask_of_nonneg bits). rewrite Forall_cons, <- IH.
  destruct b; cbn [Z.b2z]; split; [lia|naive_solver|intros; split; [done|lia]|].
  intros [_ ->]. done.
Qed.

(** [ctz] of a mask is the index of the first element set. *)
Lemma ctz_mask_of bits :
  mask_of bits ≠ 0 →
  ∃ pre post, bits = pre ++ true :: post ∧ Forall (λ b, b = false) pre ∧
    builtin_ctz (mask_of bits) = Ok (vec_size pre).
Proof.
  induction bits as [|b bits IH]; cbn [mask_of]; [done|]. intros Hm.
  pose proof (mask_of_nonneg bits) as Hn. destruct b; cbn [Z.b2z] in *.
  - exists [], bits. split; [done|]. split; [constructor|].
    destruct (mask_of bits) as [|p|p]; done.
  - destruct IH as (pre & post & -> & Hpre & E); [lia|].
    exists (false :: pre), post. split; [done|]. split; [by constructor|].
    destruct (mask_of (pre ++ true :: post)) as [|p|p] eqn:Em; [done| |done].
    cbn [builtin_ctz] in E. injection E as E.
    change (builtin_ctz (0 + 2 * Z.pos p)) with (@Ok Z (1 + ctz_pos p)).
    unfold vec_size in *. cbn [length]. f_equal. lia.
Qed.

Lemma bytes_of_length n v : length (bytes_of n v) = n.
Proof. revert v. induction n as [|n IH]; intros v; cbn; [done|]. by rewrite IH. Qed.

Lemma bytes_of_byte n v : Forall byte (bytes_of n v).
Proof.
  revert v. induction n as [|n IH]; intros v; cbn [bytes_of]; constructor; [|apply IH].
  apply Z.mod_pos_bound. lia.
Qed.

(** Shifting a group right by four moves each lane's high nibble down; what
    comes in from above is cut off by the mask. *)
Lemma shifted_nibble b0 b1 b2 b3 : byte b0 → byte b1 → byte b2 → byte b3 →
  ∀ c0 c1 c2 c3, byte c0 → byte c1 → byte c2 → byte c3 →
  c0 + 2 ^ 8 * c1 + 2 ^ 16 * c2 + 2 ^ 24 * c3 =
    Z.shiftr (b0 + 2 ^ 8 * b1 + 2 ^ 16 * b2 + 2 ^ 24 * b3) 4 →
  Z.land c0 15 = b0 / 16 ∧ Z.land c1 15 = b1 / 16 ∧
  Z.land c2 15 = b2 / 16 ∧ Z.land c3 15 = b3 / 16.
Proof.
  unfold byte. intros ? ? ? ? c0 c1 c2 c3 ? ? ? ?. rewrite Z.shiftr_div_pow2 by lia.
  change 15 with (Z.ones 4). rewrite !Z.land_ones by lia.
  change (2 ^ 4) with 16. change (2 ^ 8) with 256. change (2 ^ 16) with 65536.
  change (2 ^ 24) with 16777216. intros E.
  pose proof (Z.div_mod c0 16). pose proof (Z.div_mod c1 16).
  pose proof (Z.div_mod c2 16). pose proof (Z.div_mod c3 16).
  pose proof (Z.div_mod b0 16). pose proof (Z.div_mod b1 16).
  pose proof (Z.div_mod b2 16). pose proof (Z.div_mod b3 16).
  pose proof (Z.mod_pos_bound c0 16). pose proof (Z.mod_pos_bound c1 16).
  pose proof (Z.mod_pos_bound c2 16). pose proof (Z.mod_pos_bound c3 16).
  pose proof (Z.mod_pos_bound b0 16). pose proof (Z.mod_pos_bound b1 16).
  pose proof (Z.mod_pos_bound b2 16). pose proof (Z.mod_pos_bound b3 16).
  pose proof (Z.div_mod (b0 + 256 * b1 + 65536 * b2 + 16777216 * b3) 16).
  pose proof (Z.mod_pos_bound (b0 + 256 * b1 + 65536 * b2 + 16777216 * b3) 16).
  lia.
Qed.

Lemma dwords_nibbles bs cs :
  length bs = 16%nat → length cs = 16%nat → Forall byte bs → Forall byte cs →
  dwords cs = (λ d, Z.shiftr d 4) <$> dwords bs →
  zip_with Z.land cs (replicate 16 15) = (λ b, b / 16) <$> bs.
Proof.
  intros Hb Hc Fb Fc E.
  do 16 (destruct bs as [|? bs]; [done|]; apply Forall_cons in Fb as [? Fb]).
  destruct bs; [|done].
  do 16 (destruct cs as [|? cs]; [done|]; apply Forall_cons in Fc as [? Fc]).
  destruct cs; [|done].
  cbn [dwords fmap list_fmap] in E. injection E as E1 E2 E3 E4.
  apply shifted_nibble in E1 as (?&?&?&?), E2 as (?&?&?&?), E3 as (?&?&?&?),
    E4 as (?&?&?&?); [|done..].
  cbn [zip_with replicate fmap list_fmap]. congruence.
Qed.

(** * An implementation *)

Module ByteLanes.

Definition fit (bs : list Z) : list Z := (λ b, b mod 256) <$> take 16 (bs ++ replicate 16 0).

Record t := mk { raw : list Z }.
Definition lanes (v : t) : list Z := fit (raw v).

Fixpoint of_dwords (ds : list Z) : list Z :=
  match ds with [] => [] | d :: ds => bytes_of 4 d ++ of_dwords ds end.

#[export] Instance ops : X86Simd := {|
  m128i := t;
  Simd.lanes := lanes;
  m128i_cast v := mk (bytes_of 16 v);
  mm_loadu_si128 := mk;
  mm_setzero_si128 := mk (replicate 16 0);
  mm_set1_epi8 b := mk (replicate 16 b);
  mm_and_si128 a b := mk (zip_with Z.land (lanes a) (lanes b));
  mm_xor_si128 a b := mk (zip_with Z.lxor (lanes a) (lanes b));
  mm_srli_epi32 a n := mk (of_dwords ((λ d, Z.shiftr d n) <$> dwords (lanes a)));
  mm_shuffle_epi8 a b := mk (shuffle_lane (lanes a) <$> lanes b);
  mm_cmpeq_epi8 a b := mk (zip_with (λ x y, if x =? y then 255 else 0) (lanes a) (lanes b));
  mm_movemask_epi8 a := mask_of ((λ b, Z.testbit b 7) <$> lanes a);
  mm_test_all_zeros a b := forallb (Z.eqb 0) (zip_with Z.land (lanes a) (lanes b));
|}.

Lemma fit_length bs : length (fit bs) = 16%nat.
Proof.
  unfold fit. rewrite length_fmap, length_take, length_app, length_replicate. lia.
Qed.

Lemma fit_byte bs : Forall byte (fit bs).
Proof. apply Forall_fmap, Forall_true. intros b. apply Z.mod_pos_bound. lia. Qed.

Lemma fit_id bs : length bs = 16%nat → Forall byte bs → fit bs = bs.
Proof.
  intros Hl Hb. unfold fit. rewrite <- Hl at 1. rewrite take_app_length.
  rewrite <- (list_fmap_id bs) at 2. apply list_fmap_ext. intros i b Hi.
  apply Z.mod_small. by eapply Forall_lookup_1 in Hb.
Qed.

Lemma lanes_of (bs : list Z) : length bs = 16%nat → Forall byte bs → lanes (mk bs) = bs.
Proof. apply fit_id. Qed.

Lemma byte_bits a : byte a ↔ 0 ≤ a ∧ a / 256 = 0.
Proof. unfold byte. pose proof (Z.div_mod a 256). pose proof (Z.mod_pos_bound a 256). lia. Qed.

Lemma byte_land a b : byte a → byte b → byte (Z.land a b).
Proof.
  rewrite !byte_bits. change 256 with (2 ^ 8). rewrite <- !Z.shiftr_div_pow2 by lia.
  intros [? Ha] [? Hb]. rewrite Z.shiftr_land, Ha. split; [|done]. apply Z.land_nonneg. lia.
Qed.

Lemma byte_lxor a b : byte a → byte b → byte (Z.lxor a b).
Proof.
  rewrite !byte_bits. change 256 with (2 ^ 8). rewrite <- !Z.shiftr_div_pow2 by lia.
  intros [? Ha] [? Hb]. rewrite Z.shiftr_lxor, Ha, Hb. split; [|done].
  apply Z.lxor_nonneg. lia.
Qed.

Lemma zip_byte (f : Z → Z → Z) a b :
  (∀ x y, byte x → byte y → byte (f x y)) →
  lanes (mk (zip_with f (lanes a) (lanes b))) = zip_with f (lanes a) (lanes b).
Proof.
  intros Hf. apply lanes_of.
  - rewrite length_zip_with. unfold lanes. rewrite !fit_length. done.
  - apply Forall_zip_with_fst with byte; [apply fit_byte|].
    pose proof (fit_byte (raw b)) as Hb. eapply Forall_impl; [exact Hb|]. eauto.
Qed.

Lemma dwords_of_dwords ds :
  Forall (λ d, 0 ≤ d < 2 ^ 32) ds → dwords (of_dwords ds) = ds.
Proof.
  induction 1 as [|d ds Hd _ IH]; [done|]. cbn [of_dwords bytes_of app dwords].
  rewrite IH. f_equal. change (2 ^ 8) with 256. change (2 ^ 16) with 65536.
  change (2 ^ 24) with 16777216. change (2 ^ 32) with 4294967296 in Hd.
  pose proof (Z.div_mod d 256). pose proof (Z.div_mod (d / 256) 256).
  pose proof (Z.div_mod (d / 256 / 256) 256). pose proof (Z.div_mod (d / 256 / 256 / 256) 256).
  pose proof (Z.mod_pos_bound d 256). pose proof (Z.mod_pos_bound (d / 256) 256).
  pose proof (Z.mod_pos_bound (d / 256 / 256) 256).
  pose proof (Z.mod_pos_bound (d / 256 / 256 / 256) 256). lia.
Qed.

Lemma dwords_range bs : Forall byte bs → Forall (λ d, 0 ≤ d < 2 ^ 32) (dwords bs).
Proof.
  intros H. induction bs as [bs IH] using (well_founded_induction
    (well_founded_ltof _ length)). unfold ltof in IH.
  destruct bs as [|b0 [|b1 [|b2 [|b3 bs]]]]; cbn [dwords]; [constructor..|].
  repeat (apply Forall_cons in H as [? H]). constructor; [unfold byte in *; lia|].
  apply IH; [cbn; lia|done].
Qed.

Lemma of_dwords_byte ds : Forall byte (of_dwords ds).
Proof.
  induction ds as [|d ds IH]; cbn [of_dwords]; [constructor|].
  apply Forall_app_2; [apply bytes_of_byte|done].
Qed.

#[export] Instance laws : X86SimdLaws ops.
Proof.
  split; cbn [Simd.lanes ops m128i_cast mm_loadu_si128 mm_setzero_si128 mm_set1_epi8
    mm_and_si128 mm_xor_si128 mm_srli_epi32 mm_shuffle_epi8 mm_cmpeq_epi8
    mm_movemask_epi8 mm_test_all_zeros].
  - intros v. apply fit_length.
  - intros v. apply fit_byte.
  - intros v _. apply lanes_of; [apply bytes_of_length|apply bytes_of_byte].
  - intros bs. apply lanes_of.
  - reflexivity.
  - intros b Hb. apply lanes_of; [done|]. by apply Forall_replicate.
  - intros a b. apply zip_byte, byte_land.
  - intros a b. apply zip_byte, byte_lxor.
  - intros a n Hn. set (ds := (λ d, Z.shiftr d n) <$> dwords (lanes a)).
    assert (Forall (λ d, 0 ≤ d < 2 ^ 32) ds) as Hds.
    { apply Forall_fmap. eapply Forall_impl; [apply dwords_range, fit_byte|].
      intros d [? ?]. unfold compose. pose proof (Z.pow_pos_nonneg 2 n ltac:(lia) Hn).
      rewrite Z.shiftr_div_pow2 by lia. split; [apply Z.div_pos; lia|].
      apply Z.div_lt_upper_bound; lia. }
    rewrite lanes_of; [by apply dwords_of_dwords| |apply of_dwords_byte].
    assert (length (lanes a) = 16%nat) as Hl by apply fit_length.
    assert (length (dwords (lanes a)) = 4%nat) as Hd.
    { destruct (lanes a) as [|?[|?[|?[|?[|?[|?[|?[|?[|?[|?[|?[|?[|?[|?[|?[|?[|??]]]]]]]]]]]]]]]]];
        done. }
    subst ds. destruct (dwords (lanes a)) as [|?[|?[|?[|?[|??]]]]]; done.
  - intros a b. apply lanes_of; [rewrite length_fmap; apply fit_length|].
    apply Forall_fmap. eapply Forall_impl; [apply (fit_byte (raw b))|]. intros i _. cbn.
    unfold shuffle_lane. destruct (Z.testbit i 7); [unfold byte; lia|].
    destruct (lanes a !! _) eqn:E; cbn; [|unfold byte; lia].
    pose proof (fit_byte (raw a)) as Ha. by eapply Forall_lookup_1 in Ha.
  - intros a b. apply zip_byte. intros x y _ _. unfold byte. destruct (x =? y); lia.
  - done.
  - done.
Qed.

End ByteLanes.
