(* ===== verification/IdentifierScan.v ===== *)
(** Scanning for an identifier ([toolchain/lex/lex.cpp]): the byte tables, the
    scalar loop and the vectorized one, and a proof that the two agree. *)

From S2P Require Import Prelude Text Simd.

Local Open Scope char_scope.
Local Open Scope Z_scope.

(** * The tables *)

(** [for (char c = lo; c <= hi; ++c) table[c] = b;]. *)
Fixpoint set_run (n : nat) (i : Z) (b : bool) (table : list bool) : list bool :=
  match n with
  | O => table
  | S n => set_run n (i + 1) b (vec_set table i b)
  end.
Definition set_range (lo hi : char) (b : bool) (table : list bool) : list bool :=
  set_run (Z.to_nat (code hi - code lo + 1)) (code lo) b table.
Definition set_byte (c : char) (b : bool) (table : list bool) : list bool :=
  vec_set table (code c) b.

Definition IsIdStartByteTable : list bool :=
  set_byte "$" true (set_byte "_" true
    (set_range "a" "z" true (set_range "A" "Z" true (replicate 256 false)))).
Definition IsIdByteTable : list bool :=
  set_byte "$" false (set_range "0" "9" true IsIdStartByteTable).

(** [Table[static_cast<unsigned char>(c)]]. *)
Definition table_at (table : list bool) (c : char) : bool :=
  default false (table !! Z.to_nat (code c)).

(** * The scalar scan *)

(** The [while] loop from index [i], at which [rest] starts. *)
Fixpoint scan_id_bytes (i : Z) (rest : list char) : Z :=
  match rest with
  | c :: rest => if table_at IsIdByteTable c then scan_id_bytes (i + 1) rest else i
  | [] => i
  end.

Definition no_text : StringRef.t := StringRef.mk 0 [].

(** The test on the first byte both scans start with: the index to go on from,
    or nothing if the text cannot start an identifier. *)
Definition scan_id_start (text : StringRef.t) (i : Z) : Result (option Z) :=
  c ← StringRef.at_ text i;
  mret (if table_at IsIdStartByteTable c then Some (i + 1) else None).

Definition ScanForIdentifierPrefixScalar (text : StringRef.t) (i : Z)
    : Result StringRef.t :=
  start ← (if (i =? 0) && negb (StringRef.empty text) then scan_id_start text i
           else mret (Some i));
  match start with
  | None => mret no_text
  | Some i =>
      let i := scan_id_bytes i (drop (Z.to_nat i) (StringRef.chars text)) in
      mret (StringRef.substr text 0 i)
  end.

(** * The vectorized scan *)

(** [HighLUT] and [LowLUT], nibble 0 first. *)
Definition HighLUT : list Z :=
  [0; 0; 0; 2; 4; 9; 4; 8; 128; 128; 128; 128; 128; 128; 128; 128].
Definition LowLUT : list Z :=
  [138; 142; 142; 142; 142; 142; 142; 142; 142; 142; 140; 132; 132; 132; 132; 133].

Section x86.
Context {Simd : X86Simd}.

(** The classification of one block: the bytes that end an identifier, as a
    bit mask. *)
Definition tail_ascii_mask (input : m128i) : Z :=
  let low_lut := mm_loadu_si128 LowLUT in
  let high_lut := mm_loadu_si128 HighLUT in
  let low_mask := mm_shuffle_epi8 low_lut input in
  let input_high := mm_and_si128 (mm_srli_epi32 input 4) (mm_set1_epi8 15) in
  let high_mask := mm_shuffle_epi8 high_lut input_high in
  let mask := mm_and_si128 low_mask high_mask in
  mm_movemask_epi8 (mm_cmpeq_epi8 mask mm_setzero_si128).

(** The sixteen bytes at [text.data() + i]. *)
Definition load_block (text : StringRef.t) (i : Z) : m128i :=
  mm_loadu_si128 (code <$> take 16 (drop (Z.to_nat i) (StringRef.chars text))).

(** The [while] loop; it advances by sixteen bytes, so the text bounds it. The
    code has two spellings of the test for a non-ASCII byte, this is the one of
    SSE4.1 and the other is [mm_movemask_epi8 input =? 0]. *)
Fixpoint scan_x86_loop (fuel : nat) (text : StringRef.t) (i : Z) : Result StringRef.t :=
  match fuel with
  | O => Err OutOfFuel
  | S fuel =>
      if i + 16 <=? StringRef.size text then
        let input := load_block text i in
        if negb (mm_test_all_zeros (mm_set1_epi8 128) input)
        then ScanForIdentifierPrefixScalar text i
        else
          let tail := tail_ascii_mask input in
          if negb (tail =? 0) then
            n ← builtin_ctz tail; mret (StringRef.substr text 0 (i + n))
          else scan_x86_loop fuel text (i + 16)
      else ScanForIdentifierPrefixScalar text i
  end.

Definition ScanForIdentifierPrefixX86 (text : StringRef.t) : Result StringRef.t :=
  start ← (if negb (StringRef.empty text) then scan_id_start text 0 else mret (Some 0));
  match start with
  | None => mret no_text
  | Some i => scan_x86_loop (S (length (StringRef.chars text))) text i
  end.
End x86.

(** [ScanForIdentifierPrefix], as built without SIMD and for Arm. *)
Definition ScanForIdentifierPrefix (text : StringRef.t) : Result StringRef.t :=
  ScanForIdentifierPrefixScalar text 0.

(** * What the tables hold *)

Lemma IsIdStartByteTable_spec c :
  table_at IsIdStartByteTable c = IsAlpha c || char_eqb c "_" || char_eqb c "$".
Proof.
  apply eqb_prop. revert c. apply forall_chars. vm_compute. reflexivity.
Qed.

Lemma IsIdByteTable_spec c : table_at IsIdByteTable c = IsAlnum c || char_eqb c "_".
Proof.
  apply eqb_prop. revert c. apply forall_chars. vm_compute. reflexivity.
Qed.

Lemma scan_id_bytes_spec i rest :
  scan_id_bytes i rest = i + vec_size (take_while (table_at IsIdByteTable) rest).
Proof.
  revert i. induction rest as [|c rest IH]; intros i; cbn [scan_id_bytes take_while].
  { unfold vec_size. cbn. lia. }
  destruct (table_at IsIdByteTable c); unfold vec_size in *; cbn [length]; [|lia].
  rewrite IH. lia.
Qed.

Lemma scan_id_start_first text c rest :
  StringRef.chars text = c :: rest →
  scan_id_start text 0 = Ok (if table_at IsIdStartByteTable c then Some 1 else None).
Proof. intros E. unfold scan_id_start, StringRef.at_, vec_get. by rewrite E. Qed.

(** What a scan of any text returns: nothing, or its first byte and the longest
    run of identifier bytes after it. *)
Lemma ScanForIdentifierPrefix_spec text c rest :
  StringRef.size text < 2 ^ 64 → StringRef.chars text = c :: rest →
  ScanForIdentifierPrefix text =
    Ok (if table_at IsIdStartByteTable c
        then StringRef.mk (StringRef.begin text)
               (c :: take_while (table_at IsIdByteTable) rest)
        else no_text).
Proof.
  intros Hs E. unfold ScanForIdentifierPrefix, ScanForIdentifierPrefixScalar.
  rewrite (scan_id_start_first _ _ _ E). unfold StringRef.empty. rewrite E.
  cbn [Z.eqb negb andb mbind Result_bind mret Result_ret].
  destruct (table_at IsIdStartByteTable c); [|done]. f_equal. rewrite scan_id_bytes_spec.
  replace (drop _ _) with rest by done.
  pose proof (take_while_length (table_at IsIdByteTable) rest) as Hl.
  assert (StringRef.size text = 1 + Z.of_nat (length rest)) as Hz.
  { unfold StringRef.size, vec_size. rewrite E. cbn [length]. lia. }
  unfold vec_size. rewrite StringRef.substr_all_in by lia.
  rewrite Z.add_0_r, E. f_equal. change (Z.to_nat 0) with 0%nat. cbn [drop].
  replace (Z.to_nat _) with (S (length (take_while (table_at IsIdByteTable) rest))) by lia.
  cbn [take]. f_equal. rewrite <- (take_drop_while (table_at IsIdByteTable) rest) at 2.
  by rewrite take_app_length.
Qed.

(** * The two scans agree *)

Section x86_laws.
Context {Simd : X86Simd} {Laws : X86SimdLaws Simd}.

(** The lookup of one byte's two nibbles. *)
Definition nibble_class (b : Z) : Z :=
  Z.land (shuffle_lane LowLUT b) (shuffle_lane HighLUT (b / 16)).

Lemma nibble_class_spec c :
  code c < 128 → (nibble_class (code c) =? 0) = negb (table_at IsIdByteTable c).
Proof.
  intros Hc. apply Z.ltb_lt in Hc. revert Hc.
  enough (implb (code c <? 128)
    (Bool.eqb (nibble_class (code c) =? 0) (negb (table_at IsIdByteTable c))) = true) as H.
  { intros Hc. rewrite Hc in H. by apply eqb_prop. }
  revert c. apply forall_chars. vm_compute. reflexivity.
Qed.

Lemma block_lanes (cs : list char) :
  length cs = 16%nat → lanes (mm_loadu_si128 (code <$> cs)) = code <$> cs.
Proof.
  intros Hl. apply loadu_spec; [by rewrite length_fmap|].
  apply Forall_fmap, Forall_true. intros c. apply code_range.
Qed.

Lemma zip_with_replicate_r (f : Z → Z → Z) l n b :
  length l = n → zip_with f l (replicate n b) = (λ x, f x b) <$> l.
Proof.
  intros <-. induction l as [|x l IH]; cbn; [done|]. by rewrite IH.
Qed.

Lemma zip_with_fmap {A B C} (f : B → C → Z) (g : A → B) (h : A → C) l :
  zip_with f (g <$> l) (h <$> l) = (λ x, f (g x) (h x)) <$> l.
Proof. induction l as [|x l IH]; cbn; [done|]. by rewrite IH. Qed.

(** The test for non-ASCII bytes. *)
Lemma all_ascii_spec (cs : list char) :
  length cs = 16%nat →
  mm_test_all_zeros (mm_set1_epi8 128) (mm_loadu_si128 (code <$> cs)) =
    forallb (λ c, code c <? 128) cs.
Proof.
  intros Hl. rewrite test_all_zeros_spec, set1_spec, (block_lanes cs Hl) by (unfold byte; lia).
  rewrite <- Hl. clear Hl. induction cs as [|c cs IH]; [done|].
  cbn [length replicate fmap list_fmap zip_with forallb]. rewrite IH. f_equal.
  apply eqb_prop. revert c. clear. apply forall_chars. vm_compute. reflexivity.
Qed.

(** The classification, byte by byte. *)
Lemma tail_ascii_mask_spec (cs : list char) :
  length cs = 16%nat → Forall (λ c, code c < 128) cs →
  tail_ascii_mask (mm_loadu_si128 (code <$> cs)) =
    mask_of ((λ c, negb (table_at IsIdByteTable c)) <$> cs).
Proof.
  intros Hl Ha. pose proof (block_lanes cs Hl) as Hi. revert Hi.
  generalize (mm_loadu_si128 (code <$> cs)). intros input Hi. unfold tail_ascii_mask.
  rewrite movemask_spec, cmpeq_spec, setzero_spec, and_spec, !shuffle_spec.
  rewrite and_spec, set1_spec by (unfold byte; lia).
  rewrite (dwords_nibbles (lanes input)); [|apply lanes_length|apply lanes_length|
    apply lanes_byte|apply lanes_byte|apply srli_spec; lia].
  rewrite !loadu_spec by (first [done|repeat constructor; unfold byte; lia]).
  rewrite zip_with_replicate_r
    by (rewrite length_zip_with, !length_fmap, lanes_length; done).
  rewrite Hi, <- !list_fmap_compose, zip_with_fmap, <- list_fmap_compose.
  f_equal. apply list_fmap_ext. intros i c Hc. eapply Forall_lookup_1 in Ha; [|done].
  unfold compose. cbv beta. change (Z.land _ _) with (nibble_class (code c)).
  rewrite nibble_class_spec by done. by destruct (table_at IsIdByteTable c).
Qed.

Lemma all_id_block (cs : list char) rest :
  Forall (λ c, negb (table_at IsIdByteTable c) = false) cs →
  take_while (table_at IsIdByteTable) (cs ++ rest) =
    cs ++ take_while (table_at IsIdByteTable) rest.
Proof.
  induction 1 as [|c cs Hc _ IH]; [done|]. apply negb_false_iff in Hc.
  cbn [app take_while]. by rewrite Hc, IH.
Qed.

Lemma id_bytes_split (cs rest : list char) pre post :
  (λ c, negb (table_at IsIdByteTable c)) <$> cs = pre ++ true :: post →
  Forall (λ b, b = false) pre →
  vec_size (take_while (table_at IsIdByteTable) (cs ++ rest)) = vec_size pre.
Proof.
  unfold vec_size. revert cs. induction pre as [|b pre IH]; intros [|c cs] E Hp; try done.
  - cbn in E. injection E as Ec _. apply negb_true_iff in Ec. cbn. by rewrite Ec.
  - apply Forall_cons in Hp as [-> Hp]. cbn in E. injection E as Ec E.
    apply negb_false_iff in Ec. cbn [app take_while]. rewrite Ec. cbn [length].
    specialize (IH cs E Hp). lia.
Qed.

Lemma scan_scalar_from text i :
  i ≠ 0 →
  ScanForIdentifierPrefixScalar text i =
    Ok (StringRef.substr text 0 (i + vec_size (take_while (table_at IsIdByteTable)
      (drop (Z.to_nat i) (StringRef.chars text))))).
Proof.
  intros Hn. unfold ScanForIdentifierPrefixScalar.
  rewrite (proj2 (Z.eqb_neq i 0)) by done. cbn [andb mbind Result_bind mret Result_ret].
  by rewrite scan_id_bytes_spec.
Qed.

(** From any index past the first byte, the block loop is the byte loop. *)
Lemma scan_x86_loop_scalar text : ∀ fuel i,
  0 < i ≤ StringRef.size text → StringRef.size text - i < 16 * Z.of_nat fuel →
  scan_x86_loop fuel text i = ScanForIdentifierPrefixScalar text i.
Proof.
  induction fuel as [|fuel IH]; intros i Hi Hf; [lia|]. cbn [scan_x86_loop].
  destruct (Z.leb_spec (i + 16) (StringRef.size text)) as [Hb|]; [|done].
  unfold load_block. set (rest := drop (Z.to_nat i) (StringRef.chars text)).
  assert (length (take 16 rest) = 16%nat) as Hl.
  { unfold rest. rewrite length_take, length_drop. unfold StringRef.size, vec_size in Hb. lia. }
  rewrite all_ascii_spec by done.
  destruct (forallb _ _) eqn:Ha; [|done]. cbn [negb].
  rewrite tail_ascii_mask_spec; [|done|].
  2: { apply Forall_forall. intros c Hc. apply Z.ltb_lt.
       rewrite forallb_forall in Ha. by apply Ha, list_elem_of_In. }
  destruct (Z.eqb_spec (mask_of ((λ c, negb (table_at IsIdByteTable c)) <$> take 16 rest)) 0)
    as [E|E]; cbn [negb].
  - rewrite IH by lia. apply mask_of_zero, Forall_fmap in E. rewrite !scan_scalar_from by lia.
    fold rest. rewrite <- (take_drop 16 rest) at 1.
    rewrite (all_id_block _ _ E), vec_size_app. unfold rest at 2. rewrite drop_drop.
    unfold vec_size at 2. rewrite Hl.
    replace (Z.to_nat (i + 16)) with (Z.to_nat i + 16)%nat by lia. do 2 f_equal. lia.
  - destruct (ctz_mask_of _ E) as (pre & post & Em & Hp & Ec). rewrite Ec.
    cbn [mbind Result_bind mret Result_ret]. rewrite scan_scalar_from by lia. fold rest.
    rewrite <- (take_drop 16 rest) at 1. by rewrite (id_bytes_split _ _ _ _ Em Hp).
Qed.

(** C24. The vectorized scan for an identifier finds what the byte loop finds, on
    every text: the nibble tables classify each ASCII byte as the byte table
    does, the bit scan stops at the first byte outside the identifier, and the
    fall back for non-ASCII bytes and short tails goes on from the same place. *)
Theorem simd_scan_agrees text :
  ScanForIdentifierPrefixX86 text = ScanForIdentifierPrefix text.
Proof.
  unfold ScanForIdentifierPrefixX86, ScanForIdentifierPrefix.
  unfold ScanForIdentifierPrefixScalar at 1, StringRef.empty.
  destruct (StringRef.chars text) as [|c rest] eqn:E.
  - cbn [negb andb mbind Result_bind mret Result_ret Z.eqb length scan_x86_loop].
    unfold StringRef.size, vec_size. rewrite E.
    cbn [length Z.of_nat Z.add Z.leb Z.compare Pos.compare].
    unfold ScanForIdentifierPrefixScalar, StringRef.empty. by rewrite E.
  - rewrite (scan_id_start_first _ _ _ E).
    cbn [Z.eqb negb andb mbind Result_bind mret Result_ret].
    destruct (table_at IsIdStartByteTable c); [|done].
    assert (StringRef.size text = 1 + Z.of_nat (length rest)) as Hz.
    { unfold StringRef.size, vec_size. rewrite E. cbn [length]. lia. }
    rewrite scan_x86_loop_scalar by (cbn [length]; lia).
    by rewrite scan_scalar_from, scan_id_bytes_spec, E by lia.
Qed.
End x86_laws.

(** A text of two blocks with a non-ASCII byte after the identifier. *)
Definition scanned_text : StringRef.t :=
  StringRef.mk 7 (str "an_identifier_of_25_bytes_" ++ ascii_of_nat 200 :: str "0123456789").

Lemma simd_scan_agrees_witness :
  X86SimdLaws ByteLanes.ops ∧
  ScanForIdentifierPrefixX86 (Simd := ByteLanes.ops) scanned_text =
    ScanForIdentifierPrefix scanned_text ∧
  ScanForIdentifierPrefix scanned_text =
    Ok (StringRef.mk 7 (str "an_identifier_of_25_bytes_")).
Proof.
  split; [exact ByteLanes.laws|]. split; [exact (simd_scan_agrees (Laws := ByteLanes.laws) scanned_text)|].
  vm_compute. reflexivity.
Defined.
