(* ===== verification/TokenText.v ===== *)
(** The rest of [Lex::TokenizedBuffer]'s queries
    ([toolchain/lex/tokenized_buffer.{h,cpp}]): the payload accessors and the
    text of a token, which is read back from the source. *)

From S2P Require Import Prelude TokenKinds Text IntStores NumericLiterals StringLiterals Tokens.
Import TokenizedBuffer.

Implicit Types (b : TokenizedBuffer.t) (tok : Z).

(** [source_->text()]. *)
Definition source b : StringRef.t := StringRef.mk 0 (str (source_text b)).

(** A run of characters as a string of the identifier store. *)
Definition to_string (cs : list char) : string := Stdlib.Strings.String.string_of_list_ascii cs.

(** * Payloads *)

(** [TokenInfo]'s payload accessors; each checks the kind. *)
Definition is_kind (k : TokenKind.t) (info : TokenInfo) : bool := TokenKind.eqb (kind info) k.

Definition has_int_id (info : TokenInfo) : bool :=
  TokenKind.IsOneOf (kind info)
    [TokenKind.IntLiteral; TokenKind.IntTypeLiteral; TokenKind.UnsignedIntTypeLiteral;
     TokenKind.FloatTypeLiteral; TokenKind.DollarIntLiteral].

Definition char_literal (info : TokenInfo) : Result Z :=
  require (is_kind TokenKind.CharLiteral info) ;; mret (token_payload info).
Definition int_id (info : TokenInfo) : Result Z :=
  require (has_int_id info) ;; mret (IntId.MakeFromTokenPayload (token_payload info)).
Definition real_id (info : TokenInfo) : Result Z :=
  require (is_kind TokenKind.RealLiteral info) ;; mret (token_payload info).
Definition opening_token_index (info : TokenInfo) : Result Z :=
  require (TokenKind.is_closing_symbol (kind info)) ;; mret (token_payload info).
Definition error_length (info : TokenInfo) : Result Z :=
  require (is_kind TokenKind.Error info) ;; mret (token_payload info).

(** The setters, which store into the payload's bit-field. *)
Definition set_payload (payload : Z) (info : TokenInfo) : TokenInfo :=
  MakeTokenInfo (kind info) (has_leading_space info) payload (byte_offset info).
Definition set_ident_id (id : Z) (info : TokenInfo) : Result TokenInfo :=
  require (is_kind TokenKind.Identifier info) ;; mret (set_payload id info).
Definition set_closing_token_index (closing : Z) (info : TokenInfo) : Result TokenInfo :=
  require (TokenKind.is_opening_symbol (kind info)) ;; mret (set_payload closing info).
Definition set_opening_token_index (opening : Z) (info : TokenInfo) : Result TokenInfo :=
  require (TokenKind.is_closing_symbol (kind info)) ;; mret (set_payload opening info).

(** [WithLeadingSpace] and [AsError]. *)
Definition WithLeadingSpace (leading : bool) (info : TokenInfo) : TokenInfo :=
  {| kind := kind info; has_leading_space := leading;
     token_payload := token_payload info; byte_offset := byte_offset info |}.
Definition AsError (length : Z) (info : TokenInfo) : TokenInfo :=
  MakeTokenInfo TokenKind.Error (has_leading_space info) length (byte_offset info).

(** [GetIntLiteral], [GetRealLiteral], [GetCharLiteralValue],
    [GetTypeLiteralSize] and [GetMatchedOpeningToken]. *)
Definition GetIntLiteral b tok : Result Z :=
  info ← vec_get (token_infos b) tok;
  require (is_kind TokenKind.IntLiteral info) ;; int_id info.
Definition GetRealLiteral b tok : Result Z :=
  info ← vec_get (token_infos b) tok;
  require (is_kind TokenKind.RealLiteral info) ;; real_id info.
Definition GetCharLiteralValue b tok : Result Z :=
  info ← vec_get (token_infos b) tok;
  require (is_kind TokenKind.CharLiteral info) ;; char_literal info.
Definition GetTypeLiteralSize b tok : Result Z :=
  info ← vec_get (token_infos b) tok;
  require (TokenKind.is_sized_type_literal (kind info)) ;; int_id info.
Definition GetMatchedOpeningToken b tok : Result Z :=
  info ← vec_get (token_infos b) tok;
  require (TokenKind.is_closing_symbol (kind info)) ;; opening_token_index info.
Definition GetByteOffset b tok : Result Z :=
  info ← vec_get (token_infos b) tok; mret (byte_offset info).

(** * The text of a token *)

(** [StringRef::front()] of an identifier's spelling. *)
Definition front (s : string) : Result char :=
  match s with String c _ => mret c | EmptyString => Err OutOfRange end.

(** [IsRawIdentifier]. *)
Definition IsRawIdentifier b tok : Result bool :=
  info ← vec_get (token_infos b) tok;
  if negb (is_kind TokenKind.Identifier info) then mret false
  else
    let token_text := StringRef.substr_from (source b) (byte_offset info) in
    if (2 <? StringRef.size token_text) &&
       starts_with (str "r#") (StringRef.chars token_text)
    then
      c ← StringRef.at_ token_text 2;
      id ← ident_id info;
      ident ← vec_get (identifiers b) id;
      f ← front ident;
      mret (char_eqb c f)
    else mret false.

(** The text from [suffix.data() - 1] of a sized type literal or positional
    parameter: its introducing character and its digits. *)
Definition introduced_digits b (offset : Z) : list char :=
  let suffix := StringRef.substr_from (source b) (offset + 1) in
  let digits := take_while IsDecimalDigit (StringRef.chars suffix) in
  StringRef.chars
    (StringRef.substr (source b) (StringRef.begin suffix - 1) (vec_size digits + 1)).

(** The last branch, for an identifier. *)
Definition identifier_text b tok (info : TokenInfo) : Result (list char) :=
  require (is_kind TokenKind.Identifier info) ;;
  id ← ident_id info;
  ident ← vec_get (identifiers b) id;
  raw ← IsRawIdentifier b tok;
  if raw : bool then
    let raw_ident :=
      StringRef.substr (source b) (byte_offset info)
        (Z.of_nat (String.length ident) + 2) in
    require (starts_with (str "r#") (StringRef.chars raw_ident) &&
             bool_decide (drop 2 (StringRef.chars raw_ident) = str ident)) ;;
    mret (StringRef.chars raw_ident)
  else mret (str ident).

(** [GetTokenText]. *)
Definition GetTokenText b tok : Result (list char) :=
  info ← vec_get (token_infos b) tok;
  let fixed_spelling := str (TokenKind.fixed_spelling (kind info)) in
  let at_token := StringRef.substr_from (source b) (byte_offset info) in
  if negb (bool_decide (fixed_spelling = [])) then mret fixed_spelling
  else if is_kind TokenKind.Error info then
    n ← error_length info;
    mret (StringRef.chars (StringRef.substr (source b) (byte_offset info) n))
  else if is_kind TokenKind.IntLiteral info || is_kind TokenKind.RealLiteral info then
    relexed ← NumericLiteral.Lex at_token (is_kind TokenKind.RealLiteral info);
    match relexed with
    | Some l => mret (StringRef.chars (NumericLiteral.text_ l))
    | None => Err CheckFailed
    end
  else if is_kind TokenKind.StringLiteral info || is_kind TokenKind.CharLiteral info then
    relexed ← StringLiteral.Lex at_token;
    match relexed with
    | Some l => mret (StringRef.chars (StringLiteral.text_ l))
    | None => Err CheckFailed
    end
  else if TokenKind.is_sized_type_literal (kind info) ||
          is_kind TokenKind.DollarIntLiteral info
  then mret (introduced_digits b (byte_offset info))
  else if is_kind TokenKind.FileStart info || is_kind TokenKind.FileEnd info then mret []
  else identifier_text b tok info.

(** [GetEndLoc]: the line and the column just past the token. *)
Definition count_newlines (cs : list char) : Z :=
  vec_size (filter (λ c, IsVerticalWhitespace c = true) cs).
Definition GetEndLoc b tok : Result (Z * Z) :=
  line ← GetLine b tok;
  column ← GetColumnNumber b tok;
  token_text ← GetTokenText b tok;
  let after_newline :=
    take_while (λ c, negb (IsVerticalWhitespace c)) (reverse token_text) in
  if bool_decide (length after_newline = length token_text)
  then mret (line, column + vec_size token_text)
  else mret (line + count_newlines token_text, 1 + vec_size after_newline).
