(* ===== verification/LexState.v ===== *)
(** The state of [Lex::Lexer] ([toolchain/lex/lex.cpp]): the buffer it builds,
    the value stores it adds to, and its own members; and the small methods the
    others are written with. The source text is an argument of every method, as
    it is in the code, and a position is returned where the code updates it. *)

From S2P Require Import Prelude TokenKinds Text APInts CanonicalStores IntStores.
From S2P Require Import LexDiagnostics Tokens TokenText.
Import TokenizedBuffer.

(** [CommentData] and [InclusiveTokenRange]. *)
Record CommentData := { comment_start : Z; comment_length : Z; comment_is_trailing : bool }.
Record InclusiveTokenRange := { range_begin : Z; range_end : Z }.

(** [Real] of the value stores. *)
Record Real {Ops : APInts} := { mantissa : APInt; exponent : APInt; is_decimal : bool }.
Arguments Real {Ops}.

(** What the build and the compiler choose: whether the vectorized code is
    compiled in, and the payload left in a token made without one. *)
Class LexBuild := { CARBON_USE_SIMD : bool; unset_payload : Z }.

(** * The state *)

Section state.
Context {Ops : APInts}.

(** [Lexer]'s members and those of its [TokenizedBuffer] that parsing does not
    use, with the value stores. *)
Record LexerState := {
  buffer : TokenizedBuffer.t;
  comments : list CommentData;
  has_include_in_dumps : bool;
  dump_sem_ir_ranges : list InclusiveTokenRange;
  ints : IntStore.t;
  reals : list Real;
  string_literal_values : list (list char);
  line_index : Z;
  leading_space : bool;
  open_groups : list Z;
  has_mismatched_brackets : bool;
}.

Abbreviation Lexing := (Action LexerState LexDiagnostic).

Definition set_buffer (f : TokenizedBuffer.t → TokenizedBuffer.t) (s : LexerState)
    : LexerState :=
  {| buffer := f (buffer s); comments := comments s;
     has_include_in_dumps := has_include_in_dumps s;
     dump_sem_ir_ranges := dump_sem_ir_ranges s; ints := ints s; reals := reals s;
     string_literal_values := string_literal_values s; line_index := line_index s;
     leading_space := leading_space s; open_groups := open_groups s;
     has_mismatched_brackets := has_mismatched_brackets s |}.

(** The members comments and directives change. *)
Definition set_notes (cs : list CommentData) (include : bool) (rs : list InclusiveTokenRange)
    (s : LexerState) : LexerState :=
  {| buffer := buffer s; comments := cs; has_include_in_dumps := include;
     dump_sem_ir_ranges := rs; ints := ints s; reals := reals s;
     string_literal_values := string_literal_values s; line_index := line_index s;
     leading_space := leading_space s; open_groups := open_groups s;
     has_mismatched_brackets := has_mismatched_brackets s |}.

(** The value stores. *)
Definition set_values (iv : IntStore.t) (rs : list Real) (ss : list (list char))
    (s : LexerState) : LexerState :=
  {| buffer := buffer s; comments := comments s;
     has_include_in_dumps := has_include_in_dumps s;
     dump_sem_ir_ranges := dump_sem_ir_ranges s; ints := iv; reals := rs;
     string_literal_values := ss; line_index := line_index s;
     leading_space := leading_space s; open_groups := open_groups s;
     has_mismatched_brackets := has_mismatched_brackets s |}.

(** The lexer's own members. *)
Definition set_members (line : Z) (leading : bool) (groups : list Z) (mismatched : bool)
    (s : LexerState) : LexerState :=
  {| buffer := buffer s; comments := comments s;
     has_include_in_dumps := has_include_in_dumps s;
     dump_sem_ir_ranges := dump_sem_ir_ranges s; ints := ints s; reals := reals s;
     string_literal_values := string_literal_values s; line_index := line;
     leading_space := leading; open_groups := groups;
     has_mismatched_brackets := mismatched |}.

Definition set_line_index (line : Z) (s : LexerState) : LexerState :=
  set_members line (leading_space s) (open_groups s) (has_mismatched_brackets s) s.
Definition set_leading_space (b : bool) (s : LexerState) : LexerState :=
  set_members (line_index s) b (open_groups s) (has_mismatched_brackets s) s.
Definition set_open_groups (groups : list Z) (s : LexerState) : LexerState :=
  set_members (line_index s) (leading_space s) groups (has_mismatched_brackets s) s.
Definition set_mismatched (s : LexerState) : LexerState :=
  set_members (line_index s) (leading_space s) (open_groups s) true s.
Definition set_comments (cs : list CommentData) (s : LexerState) : LexerState :=
  set_notes cs (has_include_in_dumps s) (dump_sem_ir_ranges s) s.
Definition set_dump_ranges (rs : list InclusiveTokenRange) (s : LexerState) : LexerState :=
  set_notes (comments s) (has_include_in_dumps s) rs s.

(** Updates of the buffer. *)
Definition with_token_infos (infos : list TokenInfo) (b : TokenizedBuffer.t)
    : TokenizedBuffer.t :=
  {| token_infos := infos; line_infos := line_infos b; has_errors := has_errors b;
     expected_max_parse_tree_size := expected_max_parse_tree_size b;
     post_lexing_recovery_tokens := post_lexing_recovery_tokens b;
     recovery_tokens := recovery_tokens b; source_text := source_text b;
     identifiers := identifiers b |}.
Definition with_line_infos (lines : list LineInfo) (b : TokenizedBuffer.t)
    : TokenizedBuffer.t :=
  {| token_infos := token_infos b; line_infos := lines; has_errors := has_errors b;
     expected_max_parse_tree_size := expected_max_parse_tree_size b;
     post_lexing_recovery_tokens := post_lexing_recovery_tokens b;
     recovery_tokens := recovery_tokens b; source_text := source_text b;
     identifiers := identifiers b |}.
Definition with_identifiers (ids : list string) (b : TokenizedBuffer.t)
    : TokenizedBuffer.t :=
  {| token_infos := token_infos b; line_infos := line_infos b; has_errors := has_errors b;
     expected_max_parse_tree_size := expected_max_parse_tree_size b;
     post_lexing_recovery_tokens := post_lexing_recovery_tokens b;
     recovery_tokens := recovery_tokens b; source_text := source_text b;
     identifiers := ids |}.
Definition with_errors (errors : bool) (b : TokenizedBuffer.t) : TokenizedBuffer.t :=
  {| token_infos := token_infos b; line_infos := line_infos b; has_errors := errors;
     expected_max_parse_tree_size := expected_max_parse_tree_size b;
     post_lexing_recovery_tokens := post_lexing_recovery_tokens b;
     recovery_tokens := recovery_tokens b; source_text := source_text b;
     identifiers := identifiers b |}.
Definition with_recovery_tokens (recovery : list bool) (b : TokenizedBuffer.t)
    : TokenizedBuffer.t :=
  {| token_infos := token_infos b; line_infos := line_infos b; has_errors := has_errors b;
     expected_max_parse_tree_size := expected_max_parse_tree_size b;
     post_lexing_recovery_tokens := post_lexing_recovery_tokens b;
     recovery_tokens := recovery; source_text := source_text b;
     identifiers := identifiers b |}.

(** A lexer constructed on a source, with the value stores it shares. *)
Definition initial_buffer (source_text : StringRef.t) (ids : list string)
    : TokenizedBuffer.t :=
  {| token_infos := []; line_infos := []; has_errors := false;
     expected_max_parse_tree_size := 0; post_lexing_recovery_tokens := 0;
     recovery_tokens := []; source_text := to_string (StringRef.chars source_text);
     identifiers := ids |}.

Definition MakeLexer (source_text : StringRef.t) (ids : list string) (iv : IntStore.t)
    (rs : list Real) (ss : list (list char)) : LexerState :=
  {| buffer := initial_buffer source_text ids; comments := [];
     has_include_in_dumps := false; dump_sem_ir_ranges := []; ints := iv; reals := rs;
     string_literal_values := ss; line_index := NoneToken; leading_space := false;
     open_groups := []; has_mismatched_brackets := false |}.

(** * Lines *)

(** [buffer_.line_infos_.Get(line)], [current_line_info], [next_line]. *)
Definition GetLineInfo (line : Z) : Lexing LineInfo :=
  lift_result (λ s, vec_get (line_infos (buffer s)) line).
Definition current_line_info : Lexing LineInfo :=
  line ← gets line_index; GetLineInfo line.
Definition next_line : Lexing Z := gets (λ s, line_index s + 1).

(** [line_infos_.Get(line).indent = indent]. *)
Definition set_indent (line indent : Z) : Lexing unit :=
  info ← GetLineInfo line;
  modify (set_buffer (λ b, with_line_infos
    (vec_set (line_infos b) line {| start := start info; indent := indent |}) b)).

(** [line_infos_.Add(LineInfo(start))]; with no indent. *)
Definition AddLine (line_start : Z) : Lexing unit :=
  r ← lift_result (λ s,
    ValueStoreAdd (line_infos (buffer s)) {| start := line_start; indent := 0 |});
  modify (set_buffer (with_line_infos r.2)).

(** * Tokens *)

Definition NoteWhitespace : Lexing unit := modify (set_leading_space true).

(** [GetKind], at a token index. *)
Definition GetTokenInfo (tok : Z) : Lexing TokenInfo :=
  lift_result (λ s, vec_get (token_infos (buffer s)) tok).
Definition SetTokenInfo (tok : Z) (info : TokenInfo) : Lexing unit :=
  modify (set_buffer (λ b, with_token_infos (vec_set (token_infos b) tok info) b)).

(** [buffer_.tokens().end()[-1]]. *)
Definition last_token : Lexing Z := gets (λ s, tokens_end (buffer s) - 1).

(** [AddLexedToken]; [TokenizedBuffer::AddToken] with the check of the store. *)
Definition AddLexedToken (info : TokenInfo) : Lexing Z :=
  modify (set_leading_space false) ;;
  r ← lift_result (λ s, ValueStoreAdd (token_infos (buffer s)) info);
  modify (set_buffer (λ b, AddToken b info)) ;;
  mret r.1.

(** The kinds [LexToken] refuses. *)
Definition payload_kinds : list TokenKind.t :=
  [TokenKind.Identifier; TokenKind.StringLiteral; TokenKind.IntLiteral;
   TokenKind.IntTypeLiteral; TokenKind.UnsignedIntTypeLiteral;
   TokenKind.FloatTypeLiteral; TokenKind.RealLiteral; TokenKind.Error].

Definition LexToken {Build : LexBuild} (k : TokenKind.t) (byte_offset : Z) : Lexing Z :=
  check (negb (TokenKind.IsOneOf k payload_kinds)) ;;
  leading ← gets leading_space;
  AddLexedToken (MakeTokenInfo k leading unset_payload byte_offset).

Definition LexTokenWithPayload (k : TokenKind.t) (payload byte_offset : Z) : Lexing Z :=
  leading ← gets leading_space;
  AddLexedToken (MakeTokenInfo k leading payload byte_offset).

(** * Value stores *)

(** [ints().AddUnsigned(value).AsTokenPayload()] and
    [ints().Add(value).AsTokenPayload()]. *)
Definition add_int (add : IntStore.t → Result (Z * IntStore.t)) : Lexing Z :=
  r ← lift_result (λ s, add (ints s));
  modify (λ s, set_values r.2 (reals s) (string_literal_values s) s) ;;
  lift_result (λ _, IntId.AsTokenPayload r.1).

(** [reals().Add(value)]. *)
Definition add_real (value : Real) : Lexing Z :=
  r ← lift_result (λ s, ValueStoreAdd (reals s) value);
  modify (λ s, set_values (ints s) r.2 (string_literal_values s) s) ;;
  mret r.1.

(** [string_literal_values().Add(value)]: the store is canonical. *)
Definition add_string (value : list char) : Lexing Z :=
  r ← lift_result (λ s,
    CanonicalAdd (λ x y, bool_decide (x = y)) (string_literal_values s) value);
  modify (λ s, set_values (ints s) (reals s) r.2 s) ;;
  mret r.1.

(** [identifiers().Add(text)]. *)
Definition add_identifier (text : list char) : Lexing Z :=
  r ← gets (λ s, AddIdentifier (identifiers (buffer s)) (to_string text));
  modify (set_buffer (with_identifiers r.2)) ;;
  mret r.1.

End state.
Arguments LexerState {Ops}.
