(* ===== verification/LexComments.v ===== *)
(** Whitespace, lines and comments ([toolchain/lex/lex.cpp]): building the line
    table, moving between lines, and recording comments
    ([TokenizedBuffer::AddComment]), blocks of them in bulk. *)

From S2P Require Import Prelude TokenKinds Text APInts CanonicalStores Simd LexDiagnostics.
From S2P Require Import Tokens TokenText LexState.
Import TokenizedBuffer.

Section comments.
Context {Ops : APInts}.

#[local] Abbreviation Lexing := (Action LexerState LexDiagnostic).
Implicit Types (source_text : StringRef.t) (position : Z).

(** * Lines *)

(** The [memchr] loop of [MakeLines]; each round passes a newline, so the
    length of the text bounds it. *)
Fixpoint make_lines (fuel : nat) source_text (line_start : Z) : Lexing Z :=
  match fuel with
  | O => action_fail OutOfFuel
  | S fuel =>
      match find_if IsVerticalWhitespace
              (drop (Z.to_nat line_start) (StringRef.chars source_text)) with
      | Some n => AddLine line_start ;; make_lines fuel source_text (line_start + n + 1)
      | None => mret line_start
      end
  end.

Definition MakeLines source_text : Lexing unit :=
  if StringRef.empty source_text then
    AddLine 0 ;; modify (set_line_index 0)
  else
    line_start ← make_lines (S (length (StringRef.chars source_text))) source_text 0;
    AddLine line_start ;;
    when (negb (line_start =? StringRef.size source_text))
      (AddLine (StringRef.size source_text)) ;;
    modify (set_line_index 0).

(** [SkipHorizontalWhitespace]: the position after the run. *)
Definition SkipHorizontalWhitespace source_text position : Z :=
  position + vec_size (take_while IsHorizontalWhitespace
                         (drop (Z.to_nat position) (StringRef.chars source_text))).

Definition AdvanceToLine source_text (to_line_index : Z) : Lexing Z :=
  line_index ← gets line_index;
  check (line_index <=? to_line_index) ;;
  modify (set_line_index to_line_index) ;;
  line_info ← current_line_info;
  let position := SkipHorizontalWhitespace source_text (start line_info) in
  set_indent to_line_index (position - start line_info) ;;
  mret position.

(** * Whitespace *)

Definition LexHorizontalWhitespace source_text position : Lexing Z :=
  c ← lift_result (λ _, StringRef.at_ source_text position);
  check (IsHorizontalWhitespace c) ;;
  NoteWhitespace ;;
  mret (SkipHorizontalWhitespace source_text position).

Definition LexVerticalWhitespace source_text : Lexing Z :=
  NoteWhitespace ;;
  next ← next_line;
  AdvanceToLine source_text next.

Definition LexCR source_text position : Lexing Z :=
  next ← (if position + 1 <? StringRef.size source_text then
            lift_result (λ _, StringRef.at_ source_text (position + 1))
          else mret "000"%char);
  if IsVerticalWhitespace next then LexVerticalWhitespace source_text
  else
    is_lfcr ←
      (if 0 <? position then
         c ← lift_result (λ _, StringRef.at_ source_text (position - 1));
         mret (IsVerticalWhitespace c)
       else mret false);
    LexEmit (if is_lfcr : bool then LexDiagnosticKind.UnsupportedLfCrLineEnding
             else LexDiagnosticKind.UnsupportedCrLineEnding)
      (StringRef.begin source_text + position) [] ;;
    NoteWhitespace ;;
    mret (position + 1).

(** * Dump ranges *)

(** Whether the last range has no end yet. *)
Definition range_incomplete (rs : list InclusiveTokenRange) : bool :=
  match last rs with Some r => range_end r =? NoneToken | None => false end.

Definition EndDumpSemIRRange (diag_loc : Z) : Lexing unit :=
  rs ← gets dump_sem_ir_ranges;
  match last rs with
  | Some r =>
      if range_incomplete rs then
        size ← gets (λ s, size (buffer s));
        modify (set_dump_ranges (vec_set rs (vec_size rs - 1)
          {| range_begin := range_begin r; range_end := size - 1 |}))
      else LexEmit LexDiagnosticKind.DumpSemIRRangeMissingBegin diag_loc []
  | None => LexEmit LexDiagnosticKind.DumpSemIRRangeMissingBegin diag_loc []
  end.

Definition EndDumpSemIRRangeIfIncomplete (diag_loc : Z) : Lexing unit :=
  rs ← gets dump_sem_ir_ranges;
  if negb (range_incomplete rs) then mret tt
  else
    LexEmit LexDiagnosticKind.DumpSemIRRangeMissingEnd diag_loc [] ;;
    EndDumpSemIRRange diag_loc.

Definition BeginDumpSemIRRange (diag_loc : Z) : Lexing unit :=
  EndDumpSemIRRangeIfIncomplete diag_loc ;;
  modify (λ s, set_dump_ranges
    (dump_sem_ir_ranges s ++
       [{| range_begin := size (buffer s); range_end := NoneToken |}]) s).

(** * Recording a comment *)

Inductive CommentCategory : Set := Ordinary | Directive | Invalid.

#[global] Instance CommentCategory_eq_dec : EqDecision CommentCategory.
Proof using. solve_decision. Defined.

Definition GetCommentCategory (src : StringRef.t) (comment_start : Z) : Result CommentCategory :=
  if StringRef.size src <=? comment_start + 2 then mret Ordinary
  else
    c ← StringRef.at_ src (comment_start + 2);
    mret (if IsSpace c then Ordinary
          else if char_eqb c "@" then Directive else Invalid).

(** Whether the last comment takes in a comment that starts at [comment_start]
    on a line indented by [indent]. *)
Definition extends_comment (src : StringRef.t) (cs : list CommentData)
    (indent comment_start' : Z) : Result bool :=
  match last cs with
  | None => mret false
  | Some c =>
      if negb (comment_is_trailing c) &&
         (comment_start c + comment_length c + indent =? comment_start')
      then
        a ← GetCommentCategory src (comment_start c);
        b ← GetCommentCategory src comment_start';
        mret (bool_decide (a = b))
      else mret false
  end.

(** [TokenizedBuffer::AddComment]; a length is stored in 31 bits. *)
Definition comment_data (comment_start comment_end : Z) (is_trailing : bool) : CommentData :=
  {| comment_start := comment_start; comment_is_trailing := is_trailing;
     comment_length := (comment_end - comment_start) mod 2 ^ 32 mod 2 ^ 31 |}.

Definition AddComment (indent comment_start' comment_end : Z) (is_trailing : bool)
    : Lexing unit :=
  check (comment_start' <=? comment_end) ;;
  cs ← gets comments;
  extends ←
    (if is_trailing then mret false
     else lift_result (λ s, extends_comment (source (buffer s)) cs indent comment_start'));
  match last cs with
  | Some c =>
      if extends : bool then
        check (comment_start c <=? comment_end) ;;
        modify (set_comments (vec_set cs (vec_size cs - 1)
          (comment_data (comment_start c) comment_end false)))
      else
        r ← lift_result (λ _,
          ValueStoreAdd cs (comment_data comment_start' comment_end is_trailing));
        modify (set_comments r.2)
  | None =>
      r ← lift_result (λ _,
        ValueStoreAdd cs (comment_data comment_start' comment_end is_trailing));
      modify (set_comments r.2)
  end.

(** * [LexComment] *)

(** [skip_to_next_line]: the line and position after the skip. *)
Definition skip_to_next_line (indent line : Z) : Lexing (Z * Z) :=
  set_indent (line + 1) indent ;;
  info ← GetLineInfo (line + 1);
  mret (line + 1, start info).

(** [continues_block], for a block whose first line starts at
    [first_line_start]. *)
Definition continues_block source_text (first_line_start prefix_size : Z)
    (is_valid_after_slashes : bool) position : Result bool :=
  let chars := StringRef.chars source_text in
  let prefix p := take (Z.to_nat prefix_size) (drop (Z.to_nat p) chars) in
  if StringRef.size source_text <? position + prefix_size then mret false
  else if negb (bool_decide (prefix first_line_start = prefix position)) then mret false
  else if is_valid_after_slashes then mret true
  else if position + prefix_size =? StringRef.size source_text then mret false
  else
    after_slashes ← StringRef.at_ source_text (position + prefix_size);
    mret (negb (IsSpace after_slashes) && negb (char_eqb after_slashes "@")).

(** The scalar loop; each round goes down a line, so the number of lines bounds
    it. *)
Fixpoint skip_block (fuel : nat) source_text (first_line_start prefix_size : Z)
    (is_valid_after_slashes : bool) (indent line : Z) position : Lexing (Z * Z) :=
  match fuel with
  | O => action_fail OutOfFuel
  | S fuel =>
      continues ← lift_result (λ _, continues_block source_text first_line_start prefix_size
                                      is_valid_after_slashes position);
      if continues : bool then
        '(line, position) ← skip_to_next_line indent line;
        skip_block fuel source_text first_line_start prefix_size is_valid_after_slashes
          indent line position
      else mret (line, position)
  end.

Section simd.
Context {Simd : X86Simd}.

(** [PrefixMasks]: entry [i] selects the first [i] bytes of a register. *)
Definition PrefixMasks : list m128i :=
  m128i_cast 0 ::
  ((λ i, m128i_cast (Z.shiftr (2 ^ 128 - 1) ((16 - Z.of_nat i) * 8))) <$> seq 1 16).

Definition load_16 source_text position : m128i :=
  mm_loadu_si128 (code <$> take 16 (drop (Z.to_nat position) (StringRef.chars source_text))).

(** The [do] loop of the x86 code. *)
Fixpoint simd_skip_block (fuel : nat) source_text (mask prefix : m128i)
    (indent line : Z) position : Lexing (Z * Z) :=
  match fuel with
  | O => action_fail OutOfFuel
  | S fuel =>
      let next_prefix := load_16 source_text position in
      let prefix_diff := mm_xor_si128 prefix next_prefix in
      if negb (mm_test_all_zeros mask prefix_diff) then mret (line, position)
      else
        '(line, position) ← skip_to_next_line indent line;
        if position + 16 <? StringRef.size source_text then
          simd_skip_block fuel source_text mask prefix indent line position
        else mret (line, position)
  end.
End simd.

Definition MaxIndent : Z := 13.

(** The block-skipping part of [LexComment]. *)
Definition SkipCommentBlock {Build : LexBuild} {Simd : X86Simd} source_text
    (indent first_line_start : Z) (is_valid_after_slashes : bool) (line : Z) position
    : Lexing (Z * Z) :=
  let prefix_size := indent + (if is_valid_after_slashes then 3 else 2) in
  lines ← gets (λ s, length (line_infos (buffer s)));
  if CARBON_USE_SIMD && is_valid_after_slashes &&
     (position + 16 <? StringRef.size source_text) && (indent <=? MaxIndent)
  then
    mask ← lift_result (λ _, vec_get PrefixMasks prefix_size);
    simd_skip_block lines source_text mask (load_16 source_text first_line_start)
      indent line position
  else
    skip_block (S lines) source_text first_line_start prefix_size is_valid_after_slashes
      indent line position.

(** [add_directive_comment_line]. *)
Definition add_directive_comment_line source_text (line_indent comment_start : Z) : Lexing Z :=
  next ← next_line;
  info ← GetLineInfo next;
  AddComment line_indent comment_start (start info) false ;;
  AdvanceToLine source_text next.

(** The part of [LexComment] after its introducer has been looked at. *)
Definition lex_comment_text {Build : LexBuild} {Simd : X86Simd} source_text
    (line_info : LineInfo) (comment_start : Z) (is_trailing is_valid_after_slashes : bool)
    : Lexing Z :=
  line ← next_line;
  info ← GetLineInfo line;
  let position := start info in
  if is_trailing then
    AddComment (indent line_info) comment_start position true ;;
    NoteWhitespace ;;
    AdvanceToLine source_text line
  else
    '(line, position) ← SkipCommentBlock source_text (indent line_info) (start line_info)
                          is_valid_after_slashes line position;
    AddComment (indent line_info) comment_start position false ;;
    AdvanceToLine source_text line.

Definition LexComment {Build : LexBuild} {Simd : X86Simd} source_text position : Lexing Z :=
  let comment_text := StringRef.substr_from source_text position in
  let loc := StringRef.begin comment_text in
  check (starts_with (str "//") (StringRef.chars comment_text)) ;;
  line_info ← current_line_info;
  let is_trailing := negb (position =? start line_info + indent line_info) in
  after ← (if position + 2 <? StringRef.size source_text then
             c ← lift_result (λ _, StringRef.at_ source_text (position + 2));
             mret (negb (IsSpace c))
           else mret false);
  let directive name :=
    negb is_trailing &&
    starts_with (str name ++ ["010"%char]) (StringRef.chars comment_text) in
  let text := lex_comment_text source_text line_info position is_trailing in
  if negb after then text true
  else if directive "//@include-in-dumps" then
    modify (λ s, set_notes (comments s) true (dump_sem_ir_ranges s) s) ;;
    add_directive_comment_line source_text (indent line_info) position
  else if directive "//@dump-sem-ir-begin" then
    BeginDumpSemIRRange loc ;;
    add_directive_comment_line source_text (indent line_info) position
  else if directive "//@dump-sem-ir-end" then
    EndDumpSemIRRange loc ;;
    add_directive_comment_line source_text (indent line_info) position
  else
    LexEmit LexDiagnosticKind.NoWhitespaceAfterCommentIntroducer (loc + 2) [] ;;
    text false.

End comments.
