(* ===== verification/LexTokens.v ===== *)
(** The methods of [Lex::Lexer] that form a token ([toolchain/lex/lex.cpp]).
    Each returns whether it formed one, [LexResult], and the position after
    it. *)

From S2P Require Import Prelude TokenKinds Text APInts IntStores Simd IdentifierScan.
From S2P Require Import LexDiagnostics NumericLiterals StringLiterals Tokens TokenText.
From S2P Require Import LexState LexComments.
Import TokenizedBuffer.

Local Open Scope char_scope.
Local Open Scope Z_scope.

(** * Spellings *)

Definition spelling (k : TokenKind.t) : list char := str (TokenKind.fixed_spelling k).

(** The kinds of one macro of [token_kind.def], in its order. *)
Definition kinds_of (p : TokenKind.t → bool) : list TokenKind.t :=
  List.filter p TokenKind.all.

(** The symbols [LexSymbolToken] tries, in order. *)
Definition multi_char_symbols : list TokenKind.t :=
  kinds_of (λ k, TokenKind.is_symbol k && negb (TokenKind.is_one_char_symbol k)).

(** [llvm::StringSwitch] with a [StartsWith] and with a [Case] per kind. *)
Definition StartsWithSwitch (kinds : list TokenKind.t) (text : list char) : TokenKind.t :=
  default TokenKind.Error (List.find (λ k, starts_with (spelling k) text) kinds).
Definition CaseSwitch (kinds : list TokenKind.t) (text : list char) : TokenKind.t :=
  default TokenKind.Error (List.find (λ k, bool_decide (spelling k = text)) kinds).

(** The bytes [LexError] takes. *)
Definition is_error_char (c : char) : bool :=
  if IsAlnum c then false
  else if char_eqb c "_" || char_eqb c "009" || char_eqb c "010" then false
  else negb (existsb (λ k, starts_with (spelling k) [c]) (kinds_of TokenKind.is_symbol)).

(** [std::numeric_limits<int64_t>::digits10]. *)
Definition WidthDigitLimit : Z := 18.

(** The loop over a suffix's digits after the first: its value, or nothing if
    it meets a byte that is not a digit. *)
Fixpoint suffix_digits (suffix_value : Z) (rest : list char) : option Z :=
  match rest with
  | [] => Some suffix_value
  | c :: rest =>
      if IsDecimalDigit c then suffix_digits (suffix_value * 10 + (code c - code "0")) rest
      else None
  end.

Section tokens.
Context {Ops : APInts} {Build : LexBuild}.

#[local] Abbreviation Lexing := (Action LexerState LexDiagnostic).
Implicit Types (source_text word : StringRef.t) (position : Z) (k : TokenKind.t).

Definition formed (token : Z) position : Lexing (bool * Z) := mret (true, position).

(** * Errors and literals *)

Definition LexError source_text position : Lexing (bool * Z) :=
  let rest := StringRef.substr_from source_text position in
  let error_text :=
    StringRef.mk (StringRef.begin rest) (take_while is_error_char (StringRef.chars rest)) in
  let error_text :=
    if StringRef.empty error_text then StringRef.substr source_text position 1
    else error_text in
  token ← LexTokenWithPayload TokenKind.Error (StringRef.size error_text) position;
  LexEmit LexDiagnosticKind.UnrecognizedCharacters (StringRef.begin error_text) [] ;;
  formed token (position + StringRef.size error_text).

Definition CanFormRealLiteral : Lexing bool :=
  leading ← gets leading_space;
  if leading : bool then mret true
  else
    tok ← last_token;
    info ← GetTokenInfo tok;
    mret (negb (is_kind TokenKind.Period info) && negb (is_kind TokenKind.MinusGreater info)).

Definition LexNumericLiteral source_text position : Lexing (bool * Z) :=
  can_form_real_literal ← CanFormRealLiteral;
  literal ← lift_result (λ _,
    NumericLiteral.Lex (StringRef.substr_from source_text position) can_form_real_literal);
  match literal with
  | None => LexError source_text position
  | Some literal =>
      let token_size := StringRef.size (NumericLiteral.text_ literal) in
      value ← NumericLiteral.ComputeValue literal;
      token ←
        match value with
        | NumericLiteral.IntValue value =>
            payload ← add_int (λ s, IntStore.AddUnsigned s value);
            LexTokenWithPayload TokenKind.IntLiteral payload position
        | NumericLiteral.RealValue radix mantissa exponent =>
            id ← add_real {| mantissa := mantissa; exponent := exponent;
                             is_decimal := bool_decide (radix = NumericLiteral.Decimal) |};
            LexTokenWithPayload TokenKind.RealLiteral id position
        | NumericLiteral.UnrecoverableError =>
            LexTokenWithPayload TokenKind.Error token_size position
        end;
      formed token (position + token_size)
  end.

(** The lines a multi-line literal spans. *)
Fixpoint advance_lines (fuel : nat) position : Lexing unit :=
  match fuel with
  | O => action_fail OutOfFuel
  | S fuel =>
      next ← next_line;
      info ← GetLineInfo next;
      if start info <? position then
        modify (set_line_index next) ;; advance_lines fuel position
      else mret tt
  end.

(** [for (i = first; i <= line_index_.index; ++i) line(i).indent = indent]. *)
Fixpoint set_indents (n : nat) (line indent : Z) : Lexing unit :=
  match n with
  | O => mret tt
  | S n => set_indent line indent ;; set_indents n (line + 1) indent
  end.

Definition update_spanned_lines source_text position : Lexing unit :=
  first_spanned_line ← next_line;
  lines ← gets (λ s, length (line_infos (buffer s)));
  advance_lines (S lines) position ;;
  closing_line_info ← current_line_info;
  let indent_end := SkipHorizontalWhitespace source_text (start closing_line_info) in
  line ← gets line_index;
  set_indents (Z.to_nat (line - first_spanned_line + 1)) first_spanned_line
    (indent_end - start closing_line_info).

Definition DiagnoseUnterminatedString (literal : StringLiteral.t) (is_char : bool)
    : Lexing unit :=
  LexEmit LexDiagnosticKind.UnterminatedString
    (StringRef.begin (StringLiteral.text_ literal)) [LexArgBool is_char].

Section strings.
Context {Utf : ConvertUTF}.

Definition LexStringLiteral source_text position : Lexing (bool * Z) :=
  literal ← lift_result (λ _,
    StringLiteral.Lex (StringRef.substr_from source_text position));
  match literal with
  | None => LexError source_text position
  | Some literal =>
      let size := StringRef.size (StringLiteral.text_ literal) in
      let end_position := position + size in
      let lex_as_error :=
        token ← LexTokenWithPayload TokenKind.Error size position;
        formed token end_position in
      if bool_decide (StringLiteral.kind_ literal = StringLiteral.Char) then
        if negb (StringLiteral.is_terminated_ literal) then
          DiagnoseUnterminatedString literal true ;; lex_as_error
        else
          value ← StringLiteral.ComputeCharLiteralValue literal;
          match value with
          | Some value =>
              token ← LexTokenWithPayload TokenKind.CharLiteral value position;
              formed token end_position
          | None => lex_as_error
          end
      else if StringLiteral.has_invalid_introducer_ literal then
        LexEmit LexDiagnosticKind.MultiLineStringInvalidIntroducer
          (StringRef.begin (StringLiteral.text_ literal)) [] ;;
        lex_as_error
      else
        when (negb (bool_decide (StringLiteral.kind_ literal = StringLiteral.SingleLine)))
          (update_spanned_lines source_text end_position) ;;
        if negb (StringLiteral.is_terminated_ literal) then
          DiagnoseUnterminatedString literal false ;; lex_as_error
        else
          value ← StringLiteral.ComputeStringValue literal;
          string_id ← add_string value;
          token ← LexTokenWithPayload TokenKind.StringLiteral string_id position;
          formed token end_position
  end.

End strings.

(** * Symbols *)

(** The checks the three one-character methods share: the spelling is one byte,
    and the source has it. *)
Definition check_one_char source_text k position : Lexing unit :=
  check (vec_size (spelling k) =? 1) ;;
  c ← lift_result (λ _, StringRef.at_ source_text position);
  f ← lift_result (λ _, vec_get (spelling k) 0);
  check (char_eqb c f).

Definition LexOneCharSymbolToken source_text k position : Lexing (bool * Z) :=
  check (negb (TokenKind.eqb k TokenKind.Error)) ;;
  check_one_char source_text k position ;;
  token ← LexToken k position;
  formed token (position + 1).

Definition LexOpeningSymbolToken source_text k position : Lexing (bool * Z) :=
  check (TokenKind.is_opening_symbol k) ;;
  check_one_char source_text k position ;;
  token ← LexToken k position;
  modify (λ s, set_open_groups (open_groups s ++ [token]) s) ;;
  formed token (position + 1).

(** [open_groups_.pop_back_val()], after the test for an empty vector. *)
Definition LexClosingSymbolToken source_text k position : Lexing (bool * Z) :=
  check (TokenKind.is_closing_symbol k) ;;
  check_one_char source_text k position ;;
  groups ← gets open_groups;
  match last groups with
  | None =>
      modify set_mismatched ;;
      token ← LexToken k position;
      formed token (position + 1)
  | Some opening_token =>
      modify (set_open_groups (take (length groups - 1) groups)) ;;
      token ← LexTokenWithPayload k opening_token position;
      opening_info ← GetTokenInfo opening_token;
      if negb (TokenKind.eqb (kind opening_info) (TokenKind.opening_symbol k)) then
        modify set_mismatched ;;
        info ← GetTokenInfo token;
        info ← lift_result (λ _, set_opening_token_index NoneToken info);
        SetTokenInfo token info ;;
        formed token (position + 1)
      else
        opening_info ← lift_result (λ _, set_closing_token_index token opening_info);
        SetTokenInfo opening_token opening_info ;;
        formed token (position + 1)
  end.

Definition LexSymbolToken source_text position : Lexing (bool * Z) :=
  let k := StartsWithSwitch multi_char_symbols
             (StringRef.chars (StringRef.substr_from source_text position)) in
  if TokenKind.eqb k TokenKind.Error then LexError source_text position
  else
    token ← LexToken k position;
    formed token (position + vec_size (spelling k)).

(** [LexCommentOrSlash], which forms a token for a slash only. *)
Definition LexCommentOrSlash {Simd : X86Simd} source_text position : Lexing Z :=
  c ← lift_result (λ _, StringRef.at_ source_text position);
  check (char_eqb c "/") ;;
  next ← (if position + 1 <? StringRef.size source_text then
            lift_result (λ _, StringRef.at_ source_text (position + 1))
          else mret "000");
  if char_eqb next "/" then LexComment source_text position
  else
    '(result, position) ← LexSymbolToken source_text position;
    check result ;;
    mret position.

(** * Words *)

(** A method that gives up without a token. *)
Definition NoMatch : Lexing bool := mret false.
Definition error_token (size byte_offset : Z) : Lexing bool :=
  _ ← LexTokenWithPayload TokenKind.Error size byte_offset; mret true.

(** The value of a decimal suffix, added to the integer store. *)
Definition lex_width k (suffix_value byte_offset : Z) : Lexing bool :=
  check (0 <=? suffix_value) ;;
  payload ← add_int (λ s, IntStore.Add s suffix_value);
  _ ← LexTokenWithPayload k payload byte_offset;
  mret true.

Definition LexWordAsTypeLiteralToken word (byte_offset : Z) : Lexing bool :=
  if StringRef.size word <? 2 then NoMatch
  else
    front ← lift_result (λ _, StringRef.front word);
    second ← lift_result (λ _, StringRef.at_ word 1);
    let with_kind k :=
      if negb (in_range "1" "9" second) then NoMatch
      else
        let suffix := StringRef.substr_from word 1 in
        if WidthDigitLimit <? StringRef.size suffix then
          if negb (forallb IsDecimalDigit (StringRef.chars suffix)) then NoMatch
          else
            LexEmit LexDiagnosticKind.TooManyTypeBitWidthDigits (StringRef.begin word + 1)
              [LexArgInt (StringRef.size suffix); LexArgInt WidthDigitLimit] ;;
            error_token (StringRef.size word) byte_offset
        else
          match suffix_digits (code second - code "0") (drop 1 (StringRef.chars suffix)) with
          | None => NoMatch
          | Some suffix_value => lex_width k suffix_value byte_offset
          end in
    if char_eqb front "i" then with_kind TokenKind.IntTypeLiteral
    else if char_eqb front "u" then with_kind TokenKind.UnsignedIntTypeLiteral
    else if char_eqb front "f" then with_kind TokenKind.FloatTypeLiteral
    else NoMatch.

(** The token before a [$] that no whitespace separates from it, when it is a
    word: it takes in the [$] and becomes an error. *)
Definition merge_with_previous word (prev_token : Z) (prev : TokenInfo) : Lexing bool :=
  LexEmit LexDiagnosticKind.CharacterOnlyAllowedAtStart (StringRef.begin word) [] ;;
  prev_token_text ← lift_result (λ s, GetTokenText (buffer s) prev_token);
  leading ← gets leading_space;
  SetTokenInfo prev_token
    (MakeTokenInfo TokenKind.Error leading
       (vec_size prev_token_text + StringRef.size word) (byte_offset prev)) ;;
  mret true.

Definition dollar_diagnostic word (byte_offset : Z) (k : LexDiagnosticKind.t)
    (args : list LexArg) : Lexing bool :=
  LexEmit k (StringRef.begin word + 1) args ;;
  error_token (StringRef.size word) byte_offset.

(** The word after its [$]. *)
Definition lex_dollar_suffix word (byte_offset : Z) : Lexing bool :=
  let invalid_char :=
    dollar_diagnostic word byte_offset LexDiagnosticKind.InvalidCharacterInDollarIntLiteral [] in
  if StringRef.size word <? 2 then
    dollar_diagnostic word byte_offset LexDiagnosticKind.DollarIntLiteralMissingNumber []
  else
    second ← lift_result (λ _, StringRef.at_ word 1);
    if char_eqb second "0" && (2 <? StringRef.size word) then
      dollar_diagnostic word byte_offset LexDiagnosticKind.DollarIntLiteralLeadingZero []
    else if negb (IsDecimalDigit second) then invalid_char
    else
      let suffix := StringRef.substr_from word 1 in
      if WidthDigitLimit <? StringRef.size suffix then
        if negb (forallb IsDecimalDigit (StringRef.chars suffix)) then invalid_char
        else
          dollar_diagnostic word byte_offset LexDiagnosticKind.TooManyDollarIntDigits
            [LexArgInt (StringRef.size suffix); LexArgInt WidthDigitLimit]
      else
        match suffix_digits (code second - code "0") (drop 1 (StringRef.chars suffix)) with
        | None => invalid_char
        | Some suffix_value => lex_width TokenKind.DollarIntLiteral suffix_value byte_offset
        end.

Definition LexWordAsDollarIntLiteralToken word (byte_offset : Z) : Lexing bool :=
  if negb (starts_with ["$"] (StringRef.chars word)) then NoMatch
  else
    leading ← gets leading_space;
    if negb leading then
      prev_token ← last_token;
      prev ← GetTokenInfo prev_token;
      if TokenKind.is_word (kind prev) then merge_with_previous word prev_token prev
      else lex_dollar_suffix word byte_offset
    else lex_dollar_suffix word byte_offset.

(** The keywords, in the order of [token_kind.def]. *)
Definition keywords : list TokenKind.t := kinds_of TokenKind.is_keyword.

Definition LexKeywordOrIdentifier source_text position : Lexing (bool * Z) :=
  c ← lift_result (λ _, StringRef.at_ source_text position);
  if 0x7F <? code c then LexError source_text position
  else
    check (table_at IsIdStartByteTable c) ;;
    identifier_text ← lift_result (λ _,
      ScanForIdentifierPrefix (StringRef.substr_from source_text position));
    check (negb (StringRef.empty identifier_text)) ;;
    let end_position := position + StringRef.size identifier_text in
    result ← LexWordAsTypeLiteralToken identifier_text position;
    if result : bool then mret (true, end_position)
    else
      result ← LexWordAsDollarIntLiteralToken identifier_text position;
      if result : bool then mret (true, end_position)
      else
        let k := CaseSwitch keywords (StringRef.chars identifier_text) in
        if negb (TokenKind.eqb k TokenKind.Error) then
          token ← LexToken k position;
          formed token end_position
        else
          id ← add_identifier (StringRef.chars identifier_text);
          token ← LexTokenWithPayload TokenKind.Identifier id position;
          formed token end_position.

(** Whether the [#] at [position] makes the token before it a raw
    identifier. *)
Definition is_raw_introducer source_text position (prev : TokenInfo) : Result bool :=
  if negb (is_kind TokenKind.Identifier prev) then mret false
  else
    c ← StringRef.at_ source_text (position - 1);
    if negb (char_eqb c "r") then mret false
    else if position + 1 =? StringRef.size source_text then mret false
    else
      next ← StringRef.at_ source_text (position + 1);
      mret (table_at IsIdStartByteTable next && (byte_offset prev =? position - 1)).

(** The rest of [LexHash] once the token before is known to be the [r] of a raw
    identifier. *)
Definition lex_raw_identifier source_text position (prev_token : Z) (prev : TokenInfo)
    : Lexing (bool * Z) :=
  is_r ← lift_result (λ s,
    id ← ident_id prev; name ← vec_get (identifiers (buffer s)) id; mret (name =? "r")%string);
  check is_r ;;
  identifier_text ← lift_result (λ _,
    ScanForIdentifierPrefix (StringRef.substr_from source_text (position + 1)));
  check (negb (StringRef.empty identifier_text)) ;;
  id ← add_identifier (StringRef.chars identifier_text);
  prev ← lift_result (λ _, set_ident_id id prev);
  SetTokenInfo prev_token prev ;;
  mret (true, position + (1 + StringRef.size identifier_text)).

Definition LexHash {Utf : ConvertUTF} source_text position : Lexing (bool * Z) :=
  prev_token ← gets (λ s, size (buffer s) - 1);
  prev ← GetTokenInfo prev_token;
  raw ← lift_result (λ _, is_raw_introducer source_text position prev);
  if negb raw then LexStringLiteral source_text position
  else lex_raw_identifier source_text position prev_token prev.

(** * The ends of the file *)

Definition LexFileStart source_text position : Lexing Z :=
  check (position =? 0) ;;
  _ ← LexToken TokenKind.FileStart 0;
  NoteWhitespace ;;
  info ← current_line_info;
  check (start info =? 0) ;;
  AdvanceToLine source_text 0.

Definition LexFileEnd source_text position : Lexing unit :=
  check (position =? StringRef.size source_text) ;;
  info ← current_line_info;
  line ← gets line_index;
  position ←
    (if (position =? start info) && negb (line =? 0) then
       modify (set_line_index (line - 1)) ;; mret (position - 1)
     else mret position);
  NoteWhitespace ;;
  _ ← LexToken TokenKind.FileEnd position;
  mret tt.

End tokens.
