(* ===== verification/BracketTokens.v ===== *)
(** The interface of bracket repair ([toolchain/lex/mismatched_brackets.h]): the
    token descriptions it is given and the corrections it returns. What calls
    the search for the cheapest repair ([mismatched_brackets.cpp], in
    [BracketSearch]) takes it as an argument. *)

From S2P Require Import Prelude TokenKinds.

(** [BracketTokenKind]; [Other] must stay last. *)
Module BracketTokenKind.
Inductive t : Set :=
  | OpenParen | CloseParen | OpenCurlyBrace | CloseCurlyBrace
  | OpenSquareBracket | CloseSquareBracket | Semi | Comma | Period
  | StatementIntroducer | Leaf | Assignment | As | StructuralOp | ComparisonOp
  | ModifierKeyword | FileEnd | Other.

#[global] Instance eq_dec : EqDecision t.
Proof. solve_decision. Defined.
End BracketTokenKind.

Section kinds.
Import BracketTokenKind.
Implicit Types (k : BracketTokenKind.t).

Definition IsValueEndingKind k : bool :=
  match k with Leaf | CloseParen => true | _ => false end.
Definition IsStructuralOpKind k : bool :=
  match k with Assignment | As | StructuralOp => true | _ => false end.
Definition IsOpeningBracket k : bool :=
  match k with OpenParen | OpenCurlyBrace | OpenSquareBracket => true | _ => false end.
Definition IsClosingBracket k : bool :=
  match k with CloseParen | CloseCurlyBrace | CloseSquareBracket => true | _ => false end.

Definition MatchingClosingKind k : BracketTokenKind.t :=
  match k with
  | OpenParen => CloseParen
  | OpenCurlyBrace => CloseCurlyBrace
  | OpenSquareBracket => CloseSquareBracket
  | _ => Other
  end.
Definition MatchingOpeningKind k : BracketTokenKind.t :=
  match k with
  | CloseParen => OpenParen
  | CloseCurlyBrace => OpenCurlyBrace
  | CloseSquareBracket => OpenSquareBracket
  | _ => Other
  end.

Definition ToTokenKind k : TokenKind.t :=
  match k with
  | OpenParen => TokenKind.OpenParen
  | CloseParen => TokenKind.CloseParen
  | OpenCurlyBrace => TokenKind.OpenCurlyBrace
  | CloseCurlyBrace => TokenKind.CloseCurlyBrace
  | OpenSquareBracket => TokenKind.OpenSquareBracket
  | CloseSquareBracket => TokenKind.CloseSquareBracket
  | Semi => TokenKind.Semi
  | _ => TokenKind.Error
  end.
End kinds.

(** [MismatchedBracketToken]. *)
Record MismatchedBracketToken := {
  bracket_token_index : Z;
  bracket_kind : BracketTokenKind.t;
  bracket_line : Z;
  line_indent : Z;
  is_at_end_of_line : bool;
  is_struct_brace : bool;
  is_paren_keyword : bool;
  is_else_keyword : bool;
  bracket_has_leading_space : bool;
  has_wide_leading_space : bool;
}.

Inductive BracketFixAction : Set := InsertBefore | InsertAfter | ReplaceWithError.
Inductive BracketDiagnosticKind : Set := UnmatchedOpening | UnmatchedClosing.

#[export] Instance BracketFixAction_eq_dec : EqDecision BracketFixAction.
Proof. solve_decision. Defined.
#[export] Instance BracketDiagnosticKind_eq_dec : EqDecision BracketDiagnosticKind.
Proof. solve_decision. Defined.

(** [BracketCorrection], without the rule name that only debug dumps show. *)
Record BracketCorrection := {
  diagnostic_kind : BracketDiagnosticKind;
  diagnostic_token_index : Z;
  fix_action : BracketFixAction;
  fix_token_index : Z;
  fix_token_kind : TokenKind.t;
  is_tied : bool;
}.

(** The type of [FixMismatchedBrackets]. *)
Definition BracketFixer : Type := list MismatchedBracketToken → Result (list BracketCorrection).
