(* ===== verification/BracketRules.v ===== *)
(** The rules of bracket repair ([toolchain/lex/mismatched_brackets.cpp]): the
    cues a rule tests, the three tables of rules with their costs, and the index
    from a context and a token kind to the rules that can apply there. *)

From S2P Require Import Prelude BracketTokens.

(** [using Kind = BracketTokenKind]. *)
Module Kind := BracketTokenKind.

(** * The cost model *)

Definition MaxRegionItemsForSearch : Z := 1500.
Definition MaxBeamWidth : nat := 16.
Definition MaxSearchStackDepth : Z := 12.
Definition MaxOptimalPaths : Z := 100.

Definition CostReplaceClosing : Z := 30.
Definition CostReplaceOpening : Z := 50.
Definition CostCloseAtEnd : Z := 12.
Definition CostCloseParenAtEnd : Z := 22.
Definition CostCloseStructAtEnd : Z := 20.
Definition CostCloseParenBeforeSpacedPeriod : Z := 6.
Definition CostCloseAtWideGap : Z := 6.
Definition CostBraceIndentMismatchBase : Z := 30.
Definition CostBraceIndentMismatchPerColumn : Z := 20.

(** * Bit sets

    A [CueSet], [KindSet], set of context categories or set of rules is an
    integer with one bit for each element. *)

Declare Scope bits_scope.
Delimit Scope bits_scope with bits.
#[global] Open Scope bits_scope.
Infix ".|" := Z.lor (at level 50, left associativity) : bits_scope.
Infix ".&" := Z.land (at level 40, left associativity) : bits_scope.

Definition Bit (i : Z) : Z := Z.shiftl 1 i.

Module Cue.
Inductive t : Set :=
  | FirstOnLine | LeadingSpace | WideGap | StructBrace | ElseKeyword | PrevValueEnding |
    PrevValueLike | PrevHasLeadingSpace | PrevKeywordWantsParen | PrevKeywordWantsSquare |
    PrevIntroducesType | PrevIsPeriod | PrevIsComma | PrevIsOpenBracket | PrevIsOpenCurly |
    PrevIsCloseParen | PrevIsCloseSquare | PrevIsCloseCurly | PrevItemIsLeaf |
    PrevItemIsTypeName | CollapsedBlock | ContainsScopeBrace | FollowsStatementHeader |
    HeaderHasOpenCurly | CallParenTop | AfterOpenTop | DedentToHeader | DedentToOpenerLine |
    NewLineFromTop | Cascade | CloserInserted | CloserFixesAdjacency | OpenerHere |
    BracketInsertedHere | Count.

Definition AsInt (c : t) : Z :=
  match c with
  | FirstOnLine => 0 | LeadingSpace => 1 | WideGap => 2 | StructBrace => 3 |
    ElseKeyword => 4 | PrevValueEnding => 5 | PrevValueLike => 6 |
    PrevHasLeadingSpace => 7 | PrevKeywordWantsParen => 8 | PrevKeywordWantsSquare => 9 |
    PrevIntroducesType => 10 | PrevIsPeriod => 11 | PrevIsComma => 12 |
    PrevIsOpenBracket => 13 | PrevIsOpenCurly => 14 | PrevIsCloseParen => 15 |
    PrevIsCloseSquare => 16 | PrevIsCloseCurly => 17 | PrevItemIsLeaf => 18 |
    PrevItemIsTypeName => 19 | CollapsedBlock => 20 | ContainsScopeBrace => 21 |
    FollowsStatementHeader => 22 | HeaderHasOpenCurly => 23 | CallParenTop => 24 |
    AfterOpenTop => 25 | DedentToHeader => 26 | DedentToOpenerLine => 27 |
    NewLineFromTop => 28 | Cascade => 29 | CloserInserted => 30 |
    CloserFixesAdjacency => 31 | OpenerHere => 32 | BracketInsertedHere => 33 | Count => 34
  end.
End Cue.

Definition CueSet : Set := Z.
Definition CueSetOf (cues : list Cue.t) : CueSet :=
  foldl (λ s c, s .| Bit (Cue.AsInt c)) 0 cues.

(** [CueIf(holds, cue)]. *)
Definition CueIf (holds : bool) (c : Cue.t) : CueSet := if holds then CueSetOf [c] else 0.

(** [(cues & wanted) == wanted]. *)
Definition HasAllCues (cues : CueSet) (wanted : list Cue.t) : bool :=
  cues .& CueSetOf wanted =? CueSetOf wanted.

Definition KindIndex (k : Kind.t) : Z :=
  match k with
  | Kind.OpenParen => 0 | Kind.CloseParen => 1 | Kind.OpenCurlyBrace => 2 |
    Kind.CloseCurlyBrace => 3 | Kind.OpenSquareBracket => 4 | Kind.CloseSquareBracket => 5 |
    Kind.Semi => 6 | Kind.Comma => 7 | Kind.Period => 8 | Kind.StatementIntroducer => 9 |
    Kind.Leaf => 10 | Kind.Assignment => 11 | Kind.As => 12 | Kind.StructuralOp => 13 |
    Kind.ComparisonOp => 14 | Kind.ModifierKeyword => 15 | Kind.FileEnd => 16 |
    Kind.Other => 17
  end.

Definition NumKinds : Z := KindIndex Kind.Other + 1.

Definition KindSet : Set := Z.
Definition KindSetOf (kinds : list Kind.t) : KindSet :=
  foldl (λ s k, s .| Bit (KindIndex k)) 0 kinds.

(** [~] of a bitmask enum, which stays within its bits. *)
Definition KindSetNot (s : KindSet) : KindSet := Z.ldiff (Z.ones NumKinds) s.

(** [namespace Kinds]. *)
Module Kinds.
Definition Any : KindSet := KindSetNot 0.
Definition OpenGroup : KindSet := KindSetOf [Kind.OpenParen; Kind.OpenSquareBracket].
Definition CloseGroup : KindSet := KindSetOf [Kind.CloseParen; Kind.CloseSquareBracket].
Definition Opener : KindSet := OpenGroup .| KindSetOf [Kind.OpenCurlyBrace].
Definition NonOpener : KindSet := KindSetNot Opener.
Definition AnyStructural : KindSet :=
  KindSetOf [Kind.Assignment; Kind.As; Kind.StructuralOp].
Definition BinaryConnector : KindSet := AnyStructural .| KindSetOf [Kind.ComparisonOp].
Definition AnyOther : KindSet :=
  AnyStructural .| KindSetOf [Kind.Other; Kind.ComparisonOp; Kind.ModifierKeyword].
Definition GroupStarter : KindSet :=
  Opener .| KindSetOf [Kind.Leaf; Kind.Period; Kind.ModifierKeyword].
Definition LeafLike : KindSet := KindSetOf [Kind.Leaf; Kind.ModifierKeyword].
Definition Dedentable : KindSet :=
  KindSetNot (CloseGroup .| KindSetOf [Kind.CloseCurlyBrace; Kind.FileEnd]).
End Kinds.

(** [namespace Top]: the category of the innermost open bracket. *)
Module Top.
Definition ParenIndex : Z := 0.
Definition SquareIndex : Z := 1.
Definition StructIndex : Z := 2.
Definition ScopeIndex : Z := 3.
Definition NoneIndex : Z := 4.
Definition Count : Z := 5.
Definition Paren : Z := Bit ParenIndex.
Definition Square : Z := Bit SquareIndex.
Definition Struct : Z := Bit StructIndex.
Definition Scope : Z := Bit ScopeIndex.
Definition None : Z := Bit NoneIndex.
Definition ParenLike : Z := Paren .| Square.
Definition Any : Z := ParenLike .| Struct .| Scope .| None.
End Top.

(** [namespace Ins]: which bracket would be inserted. *)
Module Ins.
Definition ParenIndex : Z := 0.
Definition SquareIndex : Z := 1.
Definition ScopeBraceIndex : Z := 2.
Definition StructBraceIndex : Z := 3.
Definition Count : Z := 4.
Definition Paren : Z := Bit ParenIndex.
Definition Square : Z := Bit SquareIndex.
Definition ScopeBrace : Z := Bit ScopeBraceIndex.
Definition StructBrace : Z := Bit StructBraceIndex.
Definition ParenLike : Z := Paren .| Square.
End Ins.

Definition NumContextCategories : Z := Z.max Top.Count Ins.Count.

(** * Rules *)

Definition DeclineCost : Z := -1.

Record BracketRule := {
  rule_ctx : Z;
  rule_kinds : KindSet;
  rule_when : CueSet;
  rule_unless : CueSet;
  rule_not_all : CueSet;
  rule_any_of : CueSet;
  rule_cost : Z;
  rule_name : string;
}.

(** [Rule(ctx, kinds)], and the builders, applied with [|>]. *)
Definition Rule (ctx : Z) (kinds : KindSet) : BracketRule :=
  {| rule_ctx := ctx; rule_kinds := kinds; rule_when := 0; rule_unless := 0;
     rule_not_all := 0; rule_any_of := 0; rule_cost := DeclineCost; rule_name := EmptyString |}.

Definition When (cues : list Cue.t) (r : BracketRule) : BracketRule :=
  {| rule_ctx := rule_ctx r; rule_kinds := rule_kinds r; rule_when := CueSetOf cues;
     rule_unless := rule_unless r; rule_not_all := rule_not_all r;
     rule_any_of := rule_any_of r; rule_cost := rule_cost r; rule_name := rule_name r |}.
Definition Unless (cues : list Cue.t) (r : BracketRule) : BracketRule :=
  {| rule_ctx := rule_ctx r; rule_kinds := rule_kinds r; rule_when := rule_when r;
     rule_unless := CueSetOf cues; rule_not_all := rule_not_all r;
     rule_any_of := rule_any_of r; rule_cost := rule_cost r; rule_name := rule_name r |}.
Definition NotAll (cues : list Cue.t) (r : BracketRule) : BracketRule :=
  {| rule_ctx := rule_ctx r; rule_kinds := rule_kinds r; rule_when := rule_when r;
     rule_unless := rule_unless r; rule_not_all := CueSetOf cues;
     rule_any_of := rule_any_of r; rule_cost := rule_cost r; rule_name := rule_name r |}.
Definition AnyOf (cues : list Cue.t) (r : BracketRule) : BracketRule :=
  {| rule_ctx := rule_ctx r; rule_kinds := rule_kinds r; rule_when := rule_when r;
     rule_unless := rule_unless r; rule_not_all := rule_not_all r;
     rule_any_of := CueSetOf cues; rule_cost := rule_cost r; rule_name := rule_name r |}.
Definition Cost (cost : Z) (name : string) (r : BracketRule) : BracketRule :=
  {| rule_ctx := rule_ctx r; rule_kinds := rule_kinds r; rule_when := rule_when r;
     rule_unless := rule_unless r; rule_not_all := rule_not_all r;
     rule_any_of := rule_any_of r; rule_cost := cost; rule_name := name |}.
Definition Decline (r : BracketRule) : BracketRule :=
  {| rule_ctx := rule_ctx r; rule_kinds := rule_kinds r; rule_when := rule_when r;
     rule_unless := rule_unless r; rule_not_all := rule_not_all r;
     rule_any_of := rule_any_of r; rule_cost := DeclineCost; rule_name := rule_name r |}.
Notation "r '|>' f" := (f r) (at level 50, left associativity, only parsing) : bits_scope.

(** Whether a rule's cue conditions hold. *)
Definition Matches (rule : BracketRule) (cues : CueSet) : bool :=
  (cues .& rule_when rule =? rule_when rule) &&
  (cues .& rule_unless rule =? 0) &&
  ((rule_not_all rule =? 0) || negb (cues .& rule_not_all rule =? rule_not_all rule)) &&
  ((rule_any_of rule =? 0) || negb (cues .& rule_any_of rule =? 0)).

(** ** The tables *)

Definition CloserRules : list BracketRule :=
  [ Rule Top.ParenLike (KindSetOf [Kind.Comma]) |> When [Cue.AfterOpenTop]
        |> Cost 4 "Close_EmptyGroup";
    Rule Top.ParenLike Kinds.BinaryConnector |> When [Cue.AfterOpenTop]
        |> Cost 4 "Close_EmptyGroup";
    Rule Top.ParenLike (KindSetOf [Kind.Period]) |> When [Cue.AfterOpenTop; Cue.LeadingSpace]
        |> Cost 4 "Close_EmptyGroup";
    Rule Top.ParenLike (KindSetOf [Kind.Semi]) |> Cost 6 "Close_ParenBeforeSemi";
    Rule Top.ParenLike Kinds.Any |> When [Cue.Cascade] |> Cost 3 "Close_ParenCascade";
    Rule Top.Paren (KindSetOf [Kind.OpenCurlyBrace])
        |> NotAll [Cue.StructBrace; Cue.CallParenTop] |> Cost 11 "Close_ParenBeforeBrace";
    Rule Top.Paren Kinds.AnyStructural |> When [Cue.LeadingSpace]
        |> Cost 8 "Close_ParenBeforeStructuralOp";
    Rule Top.Square (KindSetOf [Kind.Assignment]) |> When [Cue.LeadingSpace]
        |> Cost 8 "Close_ParenBeforeStructuralOp";
    Rule Top.Square (KindSetOf [Kind.Leaf]) |> When [Cue.PrevValueEnding]
        |> Cost 4 "Close_SquareAtLeafAdjacency";
    Rule Top.ParenLike (KindSetOf [Kind.Period])
        |> When [Cue.LeadingSpace; Cue.PrevValueLike] |> Unless [Cue.FirstOnLine]
        |> Cost 6 "Close_ParenBeforeSpacedPeriod";
    Rule Top.ParenLike Kinds.OpenGroup |> When [Cue.LeadingSpace; Cue.PrevValueLike]
        |> Unless [Cue.FirstOnLine] |> Cost 6 "Close_ParenBeforeSpacedOpen";
    Rule Top.Square (KindSetOf [Kind.ComparisonOp]) |> Cost 11 "Close_ParenBeforeComparison";
    Rule Top.Paren (KindSetOf [Kind.ComparisonOp]) |> When [Cue.CallParenTop]
        |> Cost 11 "Close_ParenBeforeComparison";
    Rule Top.ParenLike (KindSetOf [Kind.Comma]) |> When [Cue.LeadingSpace; Cue.PrevValueLike]
        |> Unless [Cue.FirstOnLine] |> Cost 6 "Close_BeforeSpacedComma";
    Rule Top.ParenLike Kinds.CloseGroup |> When [Cue.LeadingSpace; Cue.PrevValueLike]
        |> Unless [Cue.FirstOnLine] |> Cost 6 "Close_BeforeSpacedCloser";
    Rule Top.ParenLike (KindSetOf [Kind.FileEnd]) |> Cost CostCloseAtEnd "Close_ParenAtFileEnd";
    Rule Top.ParenLike Kinds.Any |> When [Cue.WideGap] |> Unless [Cue.FirstOnLine]
        |> Cost CostCloseAtWideGap "Close_ParenAtWideGap";
    Rule Top.Square Kinds.Any |> When [Cue.FirstOnLine; Cue.NewLineFromTop]
        |> Cost 10 "Close_SquareAtContinuation";
    Rule Top.Square (KindSetOf [Kind.OpenCurlyBrace])
        |> Unless [Cue.StructBrace; Cue.CallParenTop] |> Cost 14 "Close_SquareBeforeBlock";
    Rule Top.ParenLike Kinds.Any |> Decline;
    Rule Top.Struct (KindSetOf [Kind.Semi]) |> Cost 6 "Close_StructBeforeSemi";
    Rule Top.Struct Kinds.Any |> When [Cue.Cascade] |> Cost 6 "Close_StructCascade";
    Rule Top.Struct (KindSetOf [Kind.OpenCurlyBrace]) |> Unless [Cue.StructBrace]
        |> Cost 14 "Close_StructBeforeBlock";
    Rule Top.Struct Kinds.Any |> When [Cue.WideGap] |> Unless [Cue.FirstOnLine]
        |> Cost CostCloseAtWideGap "Close_StructAtWideGap";
    Rule Top.Struct (KindSetOf [Kind.FileEnd]) |> Cost CostCloseAtEnd "Close_StructAtFileEnd";
    Rule Top.Struct Kinds.Any |> When [Cue.FirstOnLine; Cue.DedentToHeader]
        |> Cost 12 "Close_StructAtDedent";
    Rule Top.Struct Kinds.Any |> Cost 40 "Close_StructBaseline";
    Rule Top.Scope Kinds.Any |> When [Cue.ElseKeyword; Cue.FirstOnLine]
        |> Cost 4 "Close_ScopeBeforeElse";
    Rule Top.Scope Kinds.Any |> When [Cue.FirstOnLine; Cue.DedentToHeader]
        |> Cost 6 "Close_ScopeAtDedent";
    Rule Top.Scope Kinds.Any |> When [Cue.Cascade] |> Cost 6 "Close_ScopeCascade";
    Rule Top.Scope (KindSetOf [Kind.FileEnd]) |> Cost CostCloseAtEnd "Close_ScopeAtFileEnd";
    Rule Top.Scope Kinds.Any |> Cost 45 "Close_ScopeBaseline" ].

Definition OpenerRules : list BracketRule :=
  [ Rule Ins.Paren Kinds.NonOpener |> When [Cue.PrevKeywordWantsParen]
        |> Cost 3 "Open_AfterParenKeyword";
    Rule Ins.Square Kinds.NonOpener |> When [Cue.PrevKeywordWantsSquare]
        |> Cost 3 "Open_AfterParenKeyword";
    Rule Ins.ParenLike Kinds.LeafLike |> When [Cue.PrevValueEnding]
        |> Cost 3 "Open_AtLeafAdjacency";
    Rule Ins.Paren (KindSetOf [Kind.Period]) |> When [Cue.LeadingSpace; Cue.PrevValueEnding]
        |> Unless [Cue.FirstOnLine]
        |> Cost CostCloseParenBeforeSpacedPeriod "Open_BeforeSpacedPeriod";
    Rule Ins.ParenLike (KindSetOf [Kind.Leaf]) |> When [Cue.LeadingSpace; Cue.PrevIsPeriod]
        |> Unless [Cue.FirstOnLine; Cue.PrevHasLeadingSpace] |> Cost 4 "Open_AfterPeriodGap";
    Rule Ins.ParenLike (KindSetOf [Kind.Leaf])
        |> When [Cue.LeadingSpace; Cue.PrevIsOpenBracket] |> Unless [Cue.FirstOnLine]
        |> Cost 4 "Open_AfterOpenGap";
    Rule Ins.ParenLike Kinds.GroupStarter |> When [Cue.WideGap] |> Unless [Cue.FirstOnLine]
        |> Cost CostCloseAtWideGap "Open_AtWideGap";
    Rule Ins.Paren (KindSetOf [Kind.CloseParen])
        |> When [Cue.PrevItemIsLeaf; Cue.LeadingSpace] |> Unless [Cue.PrevItemIsTypeName]
        |> Cost 5 "Open_EmptyParens";
    Rule Ins.Square (KindSetOf [Kind.CloseSquareBracket])
        |> When [Cue.PrevItemIsLeaf; Cue.LeadingSpace] |> Unless [Cue.PrevItemIsTypeName]
        |> Cost 12 "Open_EmptySquares";
    Rule Ins.Paren (KindSetOf [Kind.CloseParen])
        |> When [Cue.PrevIsCloseParen; Cue.LeadingSpace] |> Unless [Cue.FirstOnLine]
        |> Cost 8 "Open_EmptyParensAfterClose";
    Rule Ins.ParenLike Kinds.Any |> Cost 70 "Open_ParenBaseline";
    Rule Ins.ScopeBrace Kinds.Opener |> Decline;
    Rule Ins.ScopeBrace Kinds.Any |> When [Cue.FollowsStatementHeader]
        |> Unless [Cue.HeaderHasOpenCurly] |> Cost 8 "Open_ScopeAfterHeader";
    Rule Ins.ScopeBrace Kinds.Any |> Cost 30 "Open_ScopeBaseline";
    Rule Ins.StructBrace (KindSetOf [Kind.Period]) |> Unless [Cue.PrevValueEnding]
        |> Cost 5 "Open_StructBeforeDesignator";
    Rule Ins.StructBrace (KindSetOf [Kind.CloseCurlyBrace]) |> Unless [Cue.FirstOnLine]
        |> AnyOf [Cue.PrevValueEnding; Cue.PrevIsCloseCurly; Cue.PrevIsCloseSquare;
        Cue.PrevIsComma] |> Cost 10 "Open_StructEmptyBraces";
    Rule Ins.StructBrace Kinds.Any |> Decline ].

Definition AdvanceRules : list BracketRule :=
  [ Rule (Top.Struct .| Top.Scope) Kinds.Dedentable
        |> When [Cue.FirstOnLine; Cue.DedentToHeader] |> Cost 40 "Adv_DedentInScope";
    Rule Top.ParenLike Kinds.Dedentable |> When [Cue.FirstOnLine; Cue.DedentToOpenerLine]
        |> Cost 25 "Adv_DedentInParen";
    Rule (Top.ParenLike .| Top.Struct) Kinds.Opener
        |> When [Cue.CollapsedBlock; Cue.ContainsScopeBrace] |> Cost 40 "Adv_ScopeBlockInParen";
    Rule (Top.ParenLike .| Top.Struct) (KindSetOf [Kind.OpenCurlyBrace])
        |> Unless [Cue.CollapsedBlock; Cue.StructBrace] |> Cost 40 "Adv_ScopeBraceInParen";
    Rule (Top.ParenLike .| Top.Struct) (KindSetOf [Kind.OpenCurlyBrace])
        |> When [Cue.StructBrace] |> Unless [Cue.CollapsedBlock]
        |> Cost 5 "Adv_StructBraceInParen";
    Rule Top.Any Kinds.OpenGroup |> When [Cue.LeadingSpace; Cue.PrevValueLike]
        |> Unless [Cue.FirstOnLine; Cue.CollapsedBlock; Cue.CloserInserted]
        |> Cost 10 "Adv_SpacedOpenAfterValue";
    Rule Top.Any Kinds.CloseGroup |> When [Cue.LeadingSpace; Cue.PrevValueLike]
        |> Unless [Cue.FirstOnLine; Cue.BracketInsertedHere]
        |> Cost 8 "Adv_SpacedCloserUnexplained";
    Rule (Top.ParenLike .| Top.Struct) (KindSetOf [Kind.Semi]) |> Cost 100 "Adv_SemiInParen";
    Rule (Top.None .| Top.Scope) (KindSetOf [Kind.Comma])
        |> Cost 50 "Adv_CommaAtStatementLevel";
    Rule (Top.ParenLike .| Top.Struct) (KindSetOf [Kind.Comma]) |> When [Cue.AfterOpenTop]
        |> Cost 50 "Adv_CommaAfterOpen";
    Rule (Top.ParenLike .| Top.Struct) (KindSetOf [Kind.Comma])
        |> When [Cue.LeadingSpace; Cue.PrevValueLike]
        |> Unless [Cue.FirstOnLine; Cue.CloserInserted; Cue.AfterOpenTop]
        |> Cost 8 "Adv_SpacedCommaInParen";
    Rule (Top.ParenLike .| Top.Struct) (KindSetOf [Kind.StatementIntroducer])
        |> Cost 60 "Adv_IntroducerInParen";
    Rule Top.Any Kinds.LeafLike |> When [Cue.PrevValueEnding]
        |> Unless [Cue.OpenerHere; Cue.CloserFixesAdjacency] |> Cost 60 "Adv_LeafAdjacency";
    Rule Top.ParenLike (KindSetOf [Kind.Assignment; Kind.StructuralOp])
        |> When [Cue.LeadingSpace] |> Cost 5 "Adv_StructuralOpInParen";
    Rule Top.ParenLike (KindSetOf [Kind.As]) |> When [Cue.LeadingSpace]
        |> Cost 1 "Adv_AsOpInParen";
    Rule Top.Square (KindSetOf [Kind.ComparisonOp]) |> Cost 8 "Adv_ComparisonInSquare";
    Rule Top.Paren (KindSetOf [Kind.ComparisonOp]) |> When [Cue.CallParenTop]
        |> Cost 8 "Adv_ComparisonInCall";
    Rule Top.Any Kinds.AnyOther |> When [Cue.WideGap]
        |> Unless [Cue.FirstOnLine; Cue.BracketInsertedHere]
        |> Cost 10 "Adv_WideGapUnexplained";
    Rule Top.Any (KindSetOf [Kind.Period]) |> When [Cue.LeadingSpace]
        |> Unless [Cue.FirstOnLine; Cue.BracketInsertedHere]
        |> AnyOf [Cue.PrevValueLike; Cue.PrevIsOpenBracket; Cue.PrevIsOpenCurly]
        |> Cost 10 "Adv_SpacedPeriodInParen" ].

(** * The index *)

(** For each context category and token kind, the set of rules that can apply. *)
Definition RuleIndex : Type := list (list Z).

Definition EmptyRuleIndex : RuleIndex :=
  replicate (Z.to_nat NumContextCategories) (replicate (Z.to_nat NumKinds) 0).

(** [index[t][k] |= bits]. *)
Definition add_candidates (index : RuleIndex) (t k : nat) (bits : Z) : RuleIndex :=
  alter (alter (λ b, b .| bits) k) t index.

(** The body of the loop over the rules. *)
Definition index_rule (r : nat) (rule : BracketRule) (index : RuleIndex) : RuleIndex :=
  foldl (λ index t,
    if rule_ctx rule .& Bit (Z.of_nat t) =? 0 then index
    else
      foldl (λ index k,
        if rule_kinds rule .& Bit (Z.of_nat k) =? 0 then index
        else add_candidates index t k (Bit (Z.of_nat r)))
        index (seq 0 (Z.to_nat NumKinds)))
    index (seq 0 (Z.to_nat NumContextCategories)).

Fixpoint index_rules (r : nat) (rules : list BracketRule) (index : RuleIndex) : RuleIndex :=
  match rules with
  | [] => index
  | rule :: rules => index_rules (S r) rules (index_rule r rule index)
  end.

Definition BuildRuleIndex (rules : list BracketRule) : RuleIndex :=
  index_rules 0 rules EmptyRuleIndex.

Definition CandidateRules (index : RuleIndex) (ctx_category : Z) (k : Kind.t) : Result Z :=
  row ← vec_get index ctx_category;
  vec_get row (KindIndex k).

(** [std::countr_zero], of a 64-bit integer. *)
Fixpoint countr_zero_pos (p : positive) : Z :=
  match p with xO p => 1 + countr_zero_pos p | _ => 0 end.
Definition countr_zero (x : Z) : Z :=
  match x with Zpos p => countr_zero_pos p | _ => 64 end.

(** The loop over the set bits of [candidates], lowest first: an integer of 64
    bits has at most that many. *)
Definition CandidateBits : nat := 64.

Fixpoint first_match (fuel : nat) (rules : list BracketRule) (candidates : Z) (cues : CueSet)
    : Result (option BracketRule) :=
  if candidates =? 0 then mret None
  else
    match fuel with
    | O => Err OutOfFuel
    | S fuel =>
        rule ← vec_get rules (countr_zero candidates);
        if Matches rule cues then mret (Some rule)
        else first_match fuel rules (candidates .& (candidates - 1)) cues
    end.

Definition FindMatchingRule (rules : list BracketRule) (index : RuleIndex) (ctx_category : Z)
    (k : Kind.t) (cues : CueSet) : Result (option BracketRule) :=
  candidates ← CandidateRules index ctx_category k;
  first_match CandidateBits rules candidates cues.

Fixpoint sum_matches (fuel : nat) (rules : list BracketRule) (candidates : Z) (cues : CueSet)
    (total : Z) : Result Z :=
  if candidates =? 0 then mret total
  else
    match fuel with
    | O => Err OutOfFuel
    | S fuel =>
        rule ← vec_get rules (countr_zero candidates);
        sum_matches fuel rules (candidates .& (candidates - 1)) cues
          (if Matches rule cues then total + rule_cost rule else total)
    end.

Definition SumMatchingRules (rules : list BracketRule) (index : RuleIndex) (ctx_category : Z)
    (k : Kind.t) (cues : CueSet) : Result Z :=
  candidates ← CandidateRules index ctx_category k;
  sum_matches CandidateBits rules candidates cues 0.

Definition CloserRuleIndex : RuleIndex := BuildRuleIndex CloserRules.
Definition OpenerRuleIndex : RuleIndex := BuildRuleIndex OpenerRules.
Definition AdvanceRuleIndex : RuleIndex := BuildRuleIndex AdvanceRules.

(** * The index finds what a scan of the table finds *)

(** Whether a rule is for a context category and a token kind. *)
Definition rule_applies (ctx_category : Z) (k : Kind.t) (rule : BracketRule) : bool :=
  negb (rule_ctx rule .& Bit ctx_category =? 0) &&
  negb (rule_kinds rule .& Bit (KindIndex k) =? 0).

Definition rule_fires (ctx_category : Z) (k : Kind.t) (cues : CueSet) (rule : BracketRule) : bool :=
  rule_applies ctx_category k rule && Matches rule cues.

(** The candidates among [rules], the first of which has bit 0. *)
Fixpoint candidate_mask (p : BracketRule → bool) (rules : list BracketRule) : Z :=
  match rules with
  | [] => 0
  | rule :: rules => Z.b2z (p rule) .| Z.shiftl (candidate_mask p rules) 1
  end.

Lemma candidate_mask_nonneg p rules : 0 ≤ candidate_mask p rules.
Proof.
  induction rules as [|rule rules IH]; cbn [candidate_mask]; [done|].
  apply Z.lor_nonneg. split; [by destruct (p rule)|by apply Z.shiftl_nonneg].
Qed.

(** ** Building *)

Definition cell (index : RuleIndex) (t k : nat) : option Z :=
  index !! t ≫= λ row, row !! k.

Lemma cell_add index t k bits t' k' :
  cell (add_candidates index t k bits) t' k' =
    (if decide (t = t' ∧ k = k') then (λ b, b .| bits) <$> cell index t' k' else cell index t' k').
Proof.
  unfold cell, add_candidates, RuleIndex in *. destruct (decide (t = t')) as [->|Ht].
  - rewrite list_lookup_alter_eq. destruct (index !! t') as [row|];
      cbn [mbind option_bind fmap option_fmap option_map]; [|by case_decide].
    destruct (decide (k = k')) as [->|Hk].
    + rewrite list_lookup_alter_eq, decide_True by done. done.
    + rewrite list_lookup_alter_ne, decide_False by naive_solver. done.
  - rewrite list_lookup_alter_ne, decide_False by naive_solver. done.
Qed.

(** A loop that adds [bits] at some of the cells it visits. *)
Lemma cell_loop {A} (touches : A → bool) (step : RuleIndex → A → RuleIndex) bits t k (l : list A) :
  (∀ index x, cell (step index x) t k =
    if touches x then (λ b, b .| bits) <$> cell index t k else cell index t k) → ∀ index,
  cell (foldl step index l) t k =
    if existsb touches l then (λ b, b .| bits) <$> cell index t k else cell index t k.
Proof.
  intros Hstep. induction l as [|x l IH]; intros index; cbn [foldl existsb]; [done|].
  rewrite IH, Hstep. destruct (touches x), (existsb touches l); cbn [orb]; try done.
  destruct (cell index t k) as [b|]; [|done]. cbn. by rewrite <- Z.lor_assoc, Z.lor_diag.
Qed.

Lemma existsb_seq (p : nat → bool) n i :
  existsb (λ j, bool_decide (j = i) && p j) (seq 0 n) = (bool_decide (i < n)%nat && p i).
Proof.
  apply eq_true_iff_eq. rewrite existsb_exists, andb_true_iff, bool_decide_eq_true.
  setoid_rewrite in_seq. setoid_rewrite andb_true_iff. setoid_rewrite bool_decide_eq_true. split.
  - intros (j & Hj & -> & Hp). split; [lia|done].
  - intros [Hi Hp]. exists i. split; [lia|done].
Qed.

Definition nat_applies (t k : nat) (rule : BracketRule) : bool :=
  negb (rule_ctx rule .& Bit (Z.of_nat t) =? 0) && negb (rule_kinds rule .& Bit (Z.of_nat k) =? 0).

Lemma cell_index_rule r rule index t k :
  (t < Z.to_nat NumContextCategories)%nat → (k < Z.to_nat NumKinds)%nat →
  cell (index_rule r rule index) t k =
    if nat_applies t k rule then (λ b, b .| Bit (Z.of_nat r)) <$> cell index t k
    else cell index t k.
Proof.
  intros Ht Hk. unfold index_rule.
  rewrite (cell_loop (λ t', bool_decide (t' = t) && nat_applies t' k rule) _ (Bit (Z.of_nat r)) t k).
  - rewrite existsb_seq, bool_decide_true by done. done.
  - intros idx t'. unfold nat_applies.
    destruct (rule_ctx rule .& Bit (Z.of_nat t') =? 0); cbn [negb andb]; [by rewrite andb_false_r|].
    rewrite (cell_loop (λ k', bool_decide (k' = k) &&
      (bool_decide (t' = t) && negb (rule_kinds rule .& Bit (Z.of_nat k') =? 0))) _ (Bit (Z.of_nat r)) t k).
    + rewrite existsb_seq, bool_decide_true by done. done.
    + intros idx' k'. destruct (rule_kinds rule .& Bit (Z.of_nat k') =? 0); cbn [negb];
        [by rewrite !andb_false_r|].
      rewrite cell_add, !andb_true_r. do 2 case_bool_decide; case_decide; cbn; naive_solver.
Qed.

Lemma cell_index_rules rules t k :
  (t < Z.to_nat NumContextCategories)%nat → (k < Z.to_nat NumKinds)%nat → ∀ r index,
  cell (index_rules r rules index) t k =
    (λ b, b .| Z.shiftl (candidate_mask (nat_applies t k) rules) (Z.of_nat r)) <$> cell index t k.
Proof.
  intros Ht Hk. induction rules as [|rule rules IH]; intros r index; cbn [index_rules candidate_mask].
  { rewrite Z.shiftl_0_l. destruct (cell index t k) as [b|]; [|done]. cbn. by rewrite Z.lor_0_r. }
  rewrite IH, cell_index_rule by done. rewrite Z.shiftl_lor, Z.shiftl_shiftl by lia.
  replace (1 + Z.of_nat r) with (Z.of_nat (S r)) by lia. unfold Bit.
  destruct (nat_applies t k rule); destruct (cell index t k) as [b|]; cbn; try done; f_equal.
  - by rewrite Z.lor_assoc.
  - by rewrite Z.shiftl_0_l, Z.lor_0_l.
Qed.

Lemma KindIndex_range k : 0 ≤ KindIndex k < NumKinds.
Proof. by destruct k. Qed.

Lemma CandidateRules_mask rules ctx_category k :
  0 ≤ ctx_category < NumContextCategories →
  CandidateRules (BuildRuleIndex rules) ctx_category k =
    Ok (candidate_mask (rule_applies ctx_category k) rules).
Proof.
  intros Hc. pose proof (KindIndex_range k) as Hk.
  pose proof (cell_index_rules rules (Z.to_nat ctx_category) (Z.to_nat (KindIndex k))
    ltac:(lia) ltac:(lia) 0 EmptyRuleIndex) as H.
  unfold cell, EmptyRuleIndex, RuleIndex in H. rewrite lookup_replicate_2 in H by lia. cbn [mbind option_bind] in H.
  rewrite lookup_replicate_2 in H by lia. cbn [fmap option_fmap option_map] in H.
  rewrite Z.lor_0_l, Z.shiftl_0_r in H. unfold CandidateRules, BuildRuleIndex, EmptyRuleIndex.
  destruct (_ !! Z.to_nat ctx_category) as [row|] eqn:E; [|done].
  apply result_bind_Ok. exists row. split; apply vec_get_Ok; (split; [lia|]); [exact E|].
  cbn in H. rewrite H. f_equal. clear -Hc Hk.
  induction rules as [|rule rules IH]; [done|]. cbn [candidate_mask]. rewrite IH.
  unfold nat_applies, rule_applies. by rewrite !Z2Nat.id by lia.
Qed.

(** ** Scanning *)

Lemma lor_one_double m : 0 ≤ m → 1 .| Z.shiftl m 1 = 2 * m + 1.
Proof. intros Hm. rewrite Z.shiftl_mul_pow2 by lia. rewrite Z.mul_comm. by destruct m. Qed.

Lemma countr_zero_shiftl m n : 0 ≤ m → countr_zero (Z.shiftl (2 * m + 1) (Z.of_nat n)) = Z.of_nat n.
Proof.
  intros Hm. induction n as [|n IH]; [rewrite Z.shiftl_0_r; by destruct m|].
  replace (Z.of_nat (S n)) with (Z.of_nat n + 1) by lia.
  rewrite <- Z.shiftl_shiftl by lia. set (x := Z.shiftl (2 * m + 1) (Z.of_nat n)) in *.
  assert (0 < x) as Hx by (unfold x; rewrite Z.shiftl_mul_pow2 by lia; nia).
  rewrite Z.shiftl_mul_pow2, Z.mul_comm by lia. change (2 ^ 1) with 2.
  rewrite <- IH. clearbody x. destruct x as [|p|p]; [done| |done].
  change (2 * Z.pos p) with (Z.pos p~0). cbn [countr_zero countr_zero_pos]. lia.
Qed.

Lemma land_double_pred x : 0 < x → (2 * x) .& (2 * x - 1) = 2 * (x .& (x - 1)).
Proof.
  intros Hx. replace (2 * x - 1) with (2 * (x - 1) + 1) by lia. apply Z.bits_inj'. intros n Hn.
  rewrite Z.land_spec. destruct (decide (n = 0)) as [->|Hne].
  - by rewrite !Z.testbit_even_0.
  - replace n with (Z.succ (Z.pred n)) by lia. set (i := Z.pred n). assert (0 ≤ i) by lia.
    rewrite Z.testbit_odd_succ, !Z.testbit_even_succ by done. by rewrite Z.land_spec.
Qed.

Lemma clear_lowest m n :
  0 ≤ m → let x := Z.shiftl (2 * m + 1) (Z.of_nat n) in
  x .& (x - 1) = Z.shiftl m (Z.of_nat (S n)).
Proof.
  intros Hm. cbv zeta. induction n as [|n IH].
  { rewrite !Z.shiftl_mul_pow2 by lia. change (2 ^ Z.of_nat 0) with 1. change (2 ^ Z.of_nat 1) with 2.
    rewrite Z.mul_1_r. apply Z.bits_inj'. intros i Hi. rewrite Z.land_spec.
    replace (2 * m + 1 - 1) with (2 * m) by lia. rewrite (Z.mul_comm m 2).
    destruct (decide (i = 0)) as [->|Hne]; [by rewrite Z.testbit_even_0, andb_false_r|].
    replace i with (Z.succ (Z.pred i)) by lia.
    rewrite Z.testbit_odd_succ, Z.testbit_even_succ by lia. apply andb_diag. }
  assert (∀ y k, Z.shiftl y (Z.of_nat (S k)) = 2 * Z.shiftl y (Z.of_nat k)) as E.
  { intros y k. rewrite !Z.shiftl_mul_pow2 by lia. rewrite Nat2Z.inj_succ, Z.pow_succ_r by lia. lia. }
  rewrite E, land_double_pred, IH; [by rewrite <- E|].
  rewrite Z.shiftl_mul_pow2 by lia. nia.
Qed.

(** The state of a scan that has reached the rules [rest]. *)
Lemma scan_skip p rule rest n :
  p rule = false →
  Z.shiftl (candidate_mask p (rule :: rest)) (Z.of_nat n) =
    Z.shiftl (candidate_mask p rest) (Z.of_nat (S n)).
Proof.
  intros E. cbn [candidate_mask]. rewrite E. cbn [Z.b2z]. rewrite Z.lor_0_l, Z.shiftl_shiftl by lia.
  f_equal. lia.
Qed.

Lemma scan_hit p rule rest n :
  p rule = true → let x := Z.shiftl (candidate_mask p (rule :: rest)) (Z.of_nat n) in
  (x =? 0) = false ∧ countr_zero x = Z.of_nat n ∧
  x .& (x - 1) = Z.shiftl (candidate_mask p rest) (Z.of_nat (S n)).
Proof.
  intros E. cbn [candidate_mask]. rewrite E. cbn [Z.b2z].
  pose proof (candidate_mask_nonneg p rest). rewrite lor_one_double by done.
  split; [|split; [by apply countr_zero_shiftl|by apply clear_lowest]].
  apply Z.eqb_neq. rewrite Z.shiftl_mul_pow2 by lia. nia.
Qed.

Lemma vec_get_middle {A} (l1 l2 : list A) x :
  vec_get (l1 ++ x :: l2) (Z.of_nat (length l1)) = Ok x.
Proof. apply vec_get_Ok. split; [lia|]. by rewrite Nat2Z.id, list_lookup_middle. Qed.

Lemma first_match_find p cues rest : ∀ done fuel,
  (length rest ≤ fuel)%nat →
  first_match fuel (done ++ rest)
    (Z.shiftl (candidate_mask p rest) (Z.of_nat (length done))) cues =
    Ok (find (λ rule, p rule && Matches rule cues) rest).
Proof.
  induction rest as [|rule rest IH]; intros dn fuel Hf.
  { cbn [candidate_mask]. rewrite Z.shiftl_0_l. by destruct fuel. }
  cbn [length] in Hf. specialize (IH (dn ++ [rule])).
  rewrite length_app, Nat.add_1_r, <- app_assoc in IH. cbn [app] in IH. cbn [find].
  destruct (p rule) eqn:Ep; cbn [andb].
  - destruct (scan_hit p rule rest (length dn) Ep) as (H0 & Hc & Hn).
    destruct fuel as [|fuel]; [lia|]. cbn [first_match]. rewrite H0, Hc, vec_get_middle, Hn.
    cbn [mbind Result_bind]. destruct (Matches rule cues); [done|]. apply IH. lia.
  - rewrite scan_skip by done. apply IH. lia.
Qed.

(** The costs of the rules a predicate selects. *)
Definition total_cost (p : BracketRule → bool) (rules : list BracketRule) : Z :=
  foldr (λ rule total, (if p rule then rule_cost rule else 0) + total) 0 rules.

Lemma sum_matches_total p cues rest : ∀ done fuel total,
  (length rest ≤ fuel)%nat →
  sum_matches fuel (done ++ rest)
    (Z.shiftl (candidate_mask p rest) (Z.of_nat (length done))) cues total =
    Ok (total + total_cost (λ rule, p rule && Matches rule cues) rest).
Proof.
  induction rest as [|rule rest IH]; intros dn fuel total Hf.
  { cbn [candidate_mask total_cost foldr]. rewrite Z.shiftl_0_l, Z.add_0_r. by destruct fuel. }
  cbn [length] in Hf. specialize (IH (dn ++ [rule])).
  rewrite length_app, Nat.add_1_r, <- app_assoc in IH. cbn [app] in IH.
  unfold total_cost in *. cbn [foldr].
  destruct (p rule) eqn:Ep; cbn [andb].
  - destruct (scan_hit p rule rest (length dn) Ep) as (H0 & Hc & Hn).
    destruct fuel as [|fuel]; [lia|]. cbn [sum_matches]. rewrite H0, Hc, vec_get_middle, Hn.
    cbn [mbind Result_bind]. rewrite IH by lia. f_equal. destruct (Matches rule cues); lia.
  - rewrite scan_skip by done. by rewrite IH by lia.
Qed.

Lemma FindMatchingRule_find rules ctx_category k cues :
  (length rules ≤ CandidateBits)%nat → 0 ≤ ctx_category < NumContextCategories →
  FindMatchingRule rules (BuildRuleIndex rules) ctx_category k cues =
    Ok (find (rule_fires ctx_category k cues) rules).
Proof.
  intros Hl Hc. unfold FindMatchingRule. rewrite CandidateRules_mask by done. cbn [mbind Result_bind].
  rewrite <- (Z.shiftl_0_r (candidate_mask _ _)).
  by apply (first_match_find (rule_applies ctx_category k) cues rules []).
Qed.

Lemma SumMatchingRules_total rules ctx_category k cues :
  (length rules ≤ CandidateBits)%nat → 0 ≤ ctx_category < NumContextCategories →
  SumMatchingRules rules (BuildRuleIndex rules) ctx_category k cues =
    Ok (total_cost (rule_fires ctx_category k cues) rules).
Proof.
  intros Hl Hc. unfold SumMatchingRules. rewrite CandidateRules_mask by done. cbn [mbind Result_bind].
  rewrite <- (Z.shiftl_0_r (candidate_mask _ _)).
  by rewrite (sum_matches_total (rule_applies ctx_category k) cues rules []).
Qed.

(** C16. The bit-indexed lookups are scans of the table. Whatever the table, as
    long as its rules fit in the 64 bits of an index entry, taking the lowest
    candidate bit first and clearing it finds exactly the first rule of the
    table that is for this context and kind and whose cues match, and summing
    over the candidates adds the costs of exactly the rules that match; neither
    reads outside the table or the index. *)
Theorem rule_index_scans_table rules ctx_category k cues :
  (length rules ≤ CandidateBits)%nat → 0 ≤ ctx_category < NumContextCategories →
  FindMatchingRule rules (BuildRuleIndex rules) ctx_category k cues =
    Ok (find (rule_fires ctx_category k cues) rules) ∧
  SumMatchingRules rules (BuildRuleIndex rules) ctx_category k cues =
    Ok (total_cost (rule_fires ctx_category k cues) rules).
Proof.
  intros Hl Hc. split; [by apply FindMatchingRule_find|by apply SumMatchingRules_total].
Qed.

(** A spaced comma inside a call: the closer table's first match, and the sum of
    the advance table. *)
Lemma rule_index_scans_table_witness :
  let cues := CueSetOf [Cue.LeadingSpace; Cue.PrevValueLike; Cue.AfterOpenTop] in
  (rule_name <$> find (rule_fires Top.ParenIndex Kind.Comma cues) CloserRules) =
    Some "Close_EmptyGroup"%string ∧
  FindMatchingRule CloserRules CloserRuleIndex Top.ParenIndex Kind.Comma cues =
    Ok (find (rule_fires Top.ParenIndex Kind.Comma cues) CloserRules) ∧
  SumMatchingRules AdvanceRules AdvanceRuleIndex Top.ParenIndex Kind.Comma cues = Ok 50.
Proof.
  cbv zeta. split; [vm_compute; reflexivity|]. split.
  - refine (proj1 (rule_index_scans_table CloserRules Top.ParenIndex Kind.Comma _ _ _));
      [cbn; unfold CandidateBits; lia|split; vm_compute; congruence].
  - refine (eq_trans (proj2 (rule_index_scans_table AdvanceRules Top.ParenIndex Kind.Comma _ _ _)) _);
      [cbn; unfold CandidateBits; lia|split; vm_compute; congruence|vm_compute; reflexivity].
Defined.
