(* ===== verification/BracketAnalysis.v ===== *)
(** What bracket repair learns about a token sequence before it searches
    ([toolchain/lex/mismatched_brackets.cpp]): the pairing of brackets, the
    statement each token belongs to, which pairs can be trusted and collapsed,
    and the items and regions that result. *)

From S2P Require Import Prelude TokenKinds BracketTokens BracketRules.

#[local] Abbreviation Token := MismatchedBracketToken.
Implicit Types (tokens : list Token) (token : Token) (match_partner : list Z).

Definition kind_eqb (k k' : Kind.t) : bool := KindIndex k =? KindIndex k'.
Definition kind_in (k : Kind.t) (ks : list Kind.t) : bool := existsb (kind_eqb k) ks.

(** [test(lo) && ... && test(hi - 1)], stopping at the first that fails. *)
Fixpoint all_up (n : nat) (i : Z) (test : Z → Result bool) : Result bool :=
  match n with
  | O => mret true
  | S n => b ← test i; if b : bool then all_up n (i + 1) test else mret false
  end.
Definition all_seq (lo hi : Z) (test : Z → Result bool) : Result bool :=
  all_up (Z.to_nat (hi - lo)) lo test.

(** * Items *)

Record Item := {
  token_start_index : Z;
  token_end_index : Z;
  item_token : Token;
  item_header_indent : Z;
  item_cues : CueSet;
}.
Implicit Types (item : Item) (items : list Item).

Definition HasAll item (wanted : list Cue.t) : bool := HasAllCues (item_cues item) wanted.

Definition item_kind item : Kind.t := bracket_kind (item_token item).

(** * Where a statement starts *)

(** The loop over the tokens before [n], last first. *)
Fixpoint find_branch_brace tokens (n : nat) (depth : Z) : Result Z :=
  match n with
  | O => mret (-1)
  | S n =>
      t ← vec_get tokens (Z.of_nat n);
      if kind_eqb (bracket_kind t) Kind.CloseCurlyBrace then find_branch_brace tokens n (depth + 1)
      else if kind_eqb (bracket_kind t) Kind.OpenCurlyBrace then
        if depth =? 0 then mret (Z.of_nat n) else find_branch_brace tokens n (depth - 1)
      else find_branch_brace tokens n depth
  end.

Definition FindBranchBrace tokens (else_index : Z) : Result Z :=
  find_branch_brace tokens (Z.to_nat else_index) 0.

(** [match_partner[p] != -1 && match_partner[p] < p], for a token of one of the
    kinds [ks]: the partner, if so. *)
Definition matched_before match_partner (p : Z) (k : Kind.t) (ks : list Kind.t)
    : Result (option Z) :=
  if kind_in k ks then
    partner ← vec_get match_partner p;
    mret (if negb (partner =? -1) && (partner <? p) then Some partner else None)
  else mret None.

(** One round of [GetOuterStatementIntroducerIndent]'s loop, with [j] and
    [result_indent]. *)
Definition outer_introducer_step tokens match_partner (s : Z * Z) : Result (Z * Z + Z) :=
  let '(j, result_indent) := s in
  if negb (0 <? j) then mret (inr result_indent)
  else
    tj ← vec_get tokens j;
    before ← vec_get tokens (j - 1);
    brace ← (if is_else_keyword tj && negb (bracket_line tj =? bracket_line before)
             then FindBranchBrace tokens j else mret (-1));
    if 0 <? brace then
      tb ← vec_get tokens brace; mret (inl (brace, line_indent tb))
    else
      opener ← matched_before match_partner (j - 1) (bracket_kind before)
                 [Kind.CloseParen; Kind.CloseSquareBracket];
      if match opener with Some o => o <=? 0 | None => false end then mret (inr result_indent)
      else
        let p := match opener with Some o => o - 1 | None => j - 1 end in
        tp ← vec_get tokens p;
        if kind_eqb (bracket_kind tp) Kind.StatementIntroducer then
          if (bracket_line tj =? bracket_line tp) || (line_indent tj <=? line_indent tp)
          then mret (inl (p, line_indent tp))
          else mret (inr (line_indent tp))
        else mret (inr result_indent).

(** Each round moves [j] down, so [j] rounds are enough. *)
Definition GetOuterStatementIntroducerIndent tokens match_partner (j : Z) : Result Z :=
  tj ← vec_get tokens j;
  loop (S (Z.to_nat j)) (outer_introducer_step tokens match_partner) (j, line_indent tj).

(** [std::numeric_limits<int32_t>::min()]. *)
Definition NeedsCaller : Z := - 2 ^ 31.

Definition continue_walk (walk_result : list Z) (next indent : Z) : Result Z :=
  if 0 <=? next then
    r ← vec_get walk_result next; mret (if r =? NeedsCaller then indent else r)
  else mret indent.

(** The body of the first loop. *)
Definition walk_step tokens match_partner (j : Z) (walk_result : list Z) : Result (list Z) :=
  tj ← vec_get tokens j;
  opener ← (if IsClosingBracket (bracket_kind tj) then
              partner ← vec_get match_partner j;
              mret (if negb (partner =? -1) && (partner <? j) then Some partner else None)
            else mret None);
  match opener with
  | Some open =>
      topen ← vec_get tokens open;
      r ← continue_walk walk_result (open - 1) (line_indent topen);
      mret (vec_set walk_result j r)
  | None =>
      if kind_in (bracket_kind tj) [Kind.Semi; Kind.OpenCurlyBrace; Kind.CloseCurlyBrace]
      then mret walk_result
      else if kind_eqb (bracket_kind tj) Kind.StatementIntroducer then
        r ← GetOuterStatementIntroducerIndent tokens match_partner j;
        mret (vec_set walk_result j r)
      else
        r ← continue_walk walk_result (j - 1) (line_indent tj);
        mret (vec_set walk_result j r)
  end.

Definition indent_step tokens (walk_result : list Z) (i : Z) (indents : list Z)
    : Result (list Z) :=
  ti ← vec_get tokens i;
  if kind_eqb (bracket_kind ti) Kind.FileEnd then mret indents
  else
    r ← continue_walk walk_result (i - 1) (line_indent ti);
    mret (vec_set indents i r).

Definition ComputeAssociatedLineIndents tokens match_partner : Result (list Z) :=
  let num_tokens := vec_size tokens in
  walk_result ← for_seq 0 num_tokens (walk_step tokens match_partner)
                  (replicate (length tokens) NeedsCaller);
  for_seq 0 num_tokens (indent_step tokens walk_result) (replicate (length tokens) 0).

(** One round of [ComputeFollowsStatementHeader]'s loop, at [j]. *)
Definition follows_header_step tokens match_partner (token_index : Z) (curr : Token) (j : Z)
    : Result (Z + bool) :=
  if negb (0 <=? j) then mret (inr false)
  else
    tj ← vec_get tokens j;
    let kind := bracket_kind tj in
    opener ← matched_before match_partner j kind [Kind.CloseParen; Kind.CloseSquareBracket];
    match opener with
    | Some o => mret (inl (o - 1))
    | None =>
        if kind_in kind [Kind.Semi; Kind.OpenCurlyBrace; Kind.CloseCurlyBrace;
                         Kind.OpenParen; Kind.OpenSquareBracket]
        then mret (inr false)
        else if kind_eqb kind Kind.StatementIntroducer then
          if kind_eqb (bracket_kind curr) Kind.StatementIntroducer then
            if bracket_line curr =? bracket_line tj then
              all_introducers ← all_seq (j + 1) token_index (λ k,
                tk ← vec_get tokens k;
                mret (kind_eqb (bracket_kind tk) Kind.StatementIntroducer));
              mret (inr (negb all_introducers))
            else mret (inr (negb (line_indent curr <=? line_indent tj)))
          else mret (inr true)
        else mret (inl (j - 1))
    end.

Definition ComputeFollowsStatementHeader tokens match_partner (token_index : Z) : Result bool :=
  if (token_index <=? 0) || (vec_size tokens <=? token_index) then mret false
  else
    curr ← vec_get tokens token_index;
    let curr_kind := bracket_kind curr in
    if kind_in curr_kind [Kind.Semi; Kind.OpenCurlyBrace] || IsClosingBracket curr_kind ||
       kind_eqb curr_kind Kind.FileEnd
    then mret false
    else
      prev ← vec_get tokens (token_index - 1);
      let is_first_on_line := negb (bracket_line curr =? bracket_line prev) in
      if negb is_first_on_line && negb (kind_eqb curr_kind Kind.StatementIntroducer) &&
         negb (kind_eqb (bracket_kind prev) Kind.CloseParen)
      then mret false
      else if IsStructuralOpKind curr_kind || kind_in curr_kind [Kind.ComparisonOp; Kind.Period]
      then mret false
      else
        loop (S (Z.to_nat token_index)) (follows_header_step tokens match_partner token_index curr)
          (token_index - 1).

(** One round of [ComputeHeaderHasOpenCurlyBrace]'s loop, at [j]. *)
Definition header_has_brace_step tokens match_partner (j : Z) : Result (Z + bool) :=
  if negb (j <? vec_size tokens) then mret (inr false)
  else
    tj ← vec_get tokens j;
    let kind := bracket_kind tj in
    if kind_eqb kind Kind.OpenCurlyBrace then mret (inr true)
    else
      closer ← (if kind_in kind [Kind.OpenParen; Kind.OpenSquareBracket] then
                  partner ← vec_get match_partner j;
                  mret (if negb (partner =? -1) && (j <? partner) then Some partner else None)
                else mret None);
      match closer with
      | Some c => mret (inl (c + 1))
      | None =>
          if kind_in kind [Kind.Semi; Kind.CloseCurlyBrace; Kind.FileEnd; Kind.StatementIntroducer]
          then mret (inr false)
          else mret (inl (j + 1))
      end.

Definition ComputeHeaderHasOpenCurlyBrace tokens match_partner (token_index : Z) : Result bool :=
  if (token_index <=? 0) || (vec_size tokens <=? token_index) then mret false
  else
    loop (S (Z.to_nat (vec_size tokens - token_index)))
      (header_has_brace_step tokens match_partner) token_index.

(** * Pairing brackets *)

(** Whether [opener] is a plausible match. *)
Definition plausible_opener (closer opener : Token) : bool :=
  if negb (kind_eqb (bracket_kind closer) Kind.CloseCurlyBrace) then
    kind_eqb (bracket_kind opener) (MatchingOpeningKind (bracket_kind closer))
  else
    kind_eqb (bracket_kind opener) Kind.OpenCurlyBrace &&
    ((bracket_line opener =? bracket_line closer) || is_struct_brace opener ||
     (line_indent opener =? line_indent closer)).

(** The loop over the first [n] entries of the stack, last first. *)
Fixpoint find_matching_opener tokens (open_stack : list Z) (closer : Token) (n : nat) : Result Z :=
  match n with
  | O => mret (-1)
  | S n =>
      idx ← vec_get open_stack (Z.of_nat n);
      opener ← vec_get tokens idx;
      if plausible_opener closer opener then mret (Z.of_nat n)
      else find_matching_opener tokens open_stack closer n
  end.

Definition FindMatchingOpener tokens (open_stack : list Z) (closer_index : Z) : Result Z :=
  closer ← vec_get tokens closer_index;
  find_matching_opener tokens open_stack closer (length open_stack).

(** The loop's body, with [match_partner] and [open_stack]. *)
Definition match_step tokens (i : Z) (s : list Z * list Z) : Result (list Z * list Z) :=
  let '(match_partner, open_stack) := s in
  t ← vec_get tokens i;
  if IsOpeningBracket (bracket_kind t) then mret (match_partner, open_stack ++ [i])
  else if IsClosingBracket (bracket_kind t) then
    match_s ← FindMatchingOpener tokens open_stack i;
    if match_s =? -1 then mret s
    else
      opener ← vec_get open_stack match_s;
      mret (vec_set (vec_set match_partner opener i) i opener, take (Z.to_nat match_s) open_stack)
  else mret s.

Definition MatchBracketPairs tokens : Result (list Z) :=
  r ← for_seq 0 (vec_size tokens) (match_step tokens) (replicate (length tokens) (-1), []);
  mret r.1.

(** * The analysis of all tokens *)

Record Segments := { segment_id : list Z; segment_first : list Z }.

Record UnmatchedGroupBrackets := {
  open_parens : list Z;
  open_squares : list Z;
  close_parens : list Z;
  close_squares : list Z;
}.

Definition OpenersOfKind (u : UnmatchedGroupBrackets) (open_kind : Kind.t) : list Z :=
  if kind_eqb open_kind Kind.OpenParen then open_parens u else open_squares u.
Definition ClosersOfKind (u : UnmatchedGroupBrackets) (open_kind : Kind.t) : list Z :=
  if kind_eqb open_kind Kind.OpenParen then close_parens u else close_squares u.

Record TokenAnalysis := {
  match_partner : list Z;
  segments : Segments;
  unmatched : UnmatchedGroupBrackets;
  effective_header_indent : list Z;
  is_first_on_line : list bool;
  follows_statement_header : list bool;
  header_has_open_curly_brace : list bool;
}.
Implicit Types (analysis : TokenAnalysis).

Definition segment_step tokens (i : Z) (s : Segments) : Result Segments :=
  prev ← vec_get tokens (i - 1);
  let new_seg := kind_in (bracket_kind prev)
                   [Kind.Semi; Kind.OpenCurlyBrace; Kind.CloseCurlyBrace] in
  prev_id ← vec_get (segment_id s) (i - 1);
  prev_first ← vec_get (segment_first s) (i - 1);
  mret {| segment_id := vec_set (segment_id s) i (prev_id + if new_seg then 1 else 0);
          segment_first := vec_set (segment_first s) i (if new_seg then i else prev_first) |}.

Definition ComputeSegments tokens : Result Segments :=
  for_seq 1 (vec_size tokens) (segment_step tokens)
    {| segment_id := replicate (length tokens) 0; segment_first := replicate (length tokens) 0 |}.

Definition unmatched_step match_partner (index : Z) (k : Kind.t) (u : UnmatchedGroupBrackets)
    : Result UnmatchedGroupBrackets :=
  partner ← vec_get match_partner index;
  mret
    (if negb (partner =? -1) then u
     else
       match k with
       | Kind.OpenParen =>
           {| open_parens := open_parens u ++ [index]; open_squares := open_squares u;
              close_parens := close_parens u; close_squares := close_squares u |}
       | Kind.OpenSquareBracket =>
           {| open_parens := open_parens u; open_squares := open_squares u ++ [index];
              close_parens := close_parens u; close_squares := close_squares u |}
       | Kind.CloseParen =>
           {| open_parens := open_parens u; open_squares := open_squares u;
              close_parens := close_parens u ++ [index]; close_squares := close_squares u |}
       | Kind.CloseSquareBracket =>
           {| open_parens := open_parens u; open_squares := open_squares u;
              close_parens := close_parens u; close_squares := close_squares u ++ [index] |}
       | _ => u
       end).

Definition FindUnmatchedGroupBrackets tokens match_partner : Result UnmatchedGroupBrackets :=
  for_seq 0 (vec_size tokens) (λ i u,
      t ← vec_get tokens i; unmatched_step match_partner i (bracket_kind t) u)
    {| open_parens := []; open_squares := []; close_parens := []; close_squares := [] |}.

(** The three bit vectors [AnalyzeTokens] fills in one loop. *)
Definition flags_step tokens match_partner (i : Z) (s : list bool * list bool * list bool)
    : Result (list bool * list bool * list bool) :=
  let '(first, follows, has_curly) := s in
  is_first ← (if i =? 0 then mret true
              else
                ti ← vec_get tokens i; prev ← vec_get tokens (i - 1);
                mret (negb (bracket_line ti =? bracket_line prev)));
  header ← ComputeFollowsStatementHeader tokens match_partner i;
  curly ← (if header : bool then
             b ← ComputeHeaderHasOpenCurlyBrace tokens match_partner i;
             mret (vec_set has_curly i b)
           else mret has_curly);
  mret (vec_set first i is_first, vec_set follows i header, curly).

Definition AnalyzeTokens tokens : Result TokenAnalysis :=
  partners ← MatchBracketPairs tokens;
  segs ← ComputeSegments tokens;
  unm ← FindUnmatchedGroupBrackets tokens partners;
  indents ← ComputeAssociatedLineIndents tokens partners;
  let bits := replicate (length tokens) false in
  flags ← for_seq 0 (vec_size tokens) (flags_step tokens partners) (bits, bits, bits);
  mret {| match_partner := partners; segments := segs; unmatched := unm;
          effective_header_indent := indents; is_first_on_line := flags.1.1;
          follows_statement_header := flags.1.2; header_has_open_curly_brace := flags.2 |}.

(** * Pairs that can be trusted *)

(** [std::lower_bound] in a sorted list: the first element that is not less. *)
Definition ContainsInRange (l : list Z) (lo hi : Z) : bool :=
  match find (λ x, lo <=? x) l with Some x => x <=? hi | None => false end.

(** The scan directly inside a brace pair, from [j], with [depth]. *)
Fixpoint no_bad_separator tokens (bad_kind : Kind.t) (n : nat) (j depth : Z) : Result bool :=
  match n with
  | O => mret true
  | S n =>
      t ← vec_get tokens j;
      if IsOpeningBracket (bracket_kind t)
      then no_bad_separator tokens bad_kind n (j + 1) (depth + 1)
      else if IsClosingBracket (bracket_kind t)
      then no_bad_separator tokens bad_kind n (j + 1) (depth - 1)
      else if kind_eqb (bracket_kind t) bad_kind && (depth =? 0) then mret false
      else no_bad_separator tokens bad_kind n (j + 1) depth
  end.

Definition BracePairIsClean tokens analysis (open_idx close_idx : Z) : Result bool :=
  open ← vec_get tokens open_idx;
  close ← vec_get tokens close_idx;
  header_indent ← vec_get (effective_header_indent analysis) open_idx;
  if negb (bracket_line open =? bracket_line close) &&
     ((negb (is_struct_brace open) &&
       (negb (is_at_end_of_line open) || negb (header_indent =? line_indent close))) ||
      (is_struct_brace open && (line_indent close <? header_indent)))
  then mret false
  else
    no_bad_separator tokens (if is_struct_brace open then Kind.Semi else Kind.Comma)
      (Z.to_nat (close_idx - (open_idx + 1))) (open_idx + 1) 0.

Definition GroupPairIsClean tokens analysis (open_idx close_idx : Z) : Result bool :=
  open ← vec_get tokens open_idx;
  first ← vec_get (segment_first (segments analysis)) open_idx;
  if ContainsInRange (OpenersOfKind (unmatched analysis) (bracket_kind open)) first (open_idx - 1)
  then mret false
  else
    match find (λ x, close_idx <? x) (ClosersOfKind (unmatched analysis) (bracket_kind open)) with
    | None => mret true
    | Some it =>
        seg ← vec_get (segment_id (segments analysis)) it;
        close_seg ← vec_get (segment_id (segments analysis)) close_idx;
        mret (negb (seg =? close_seg))
    end.

(** The body of the loop over the tokens between the brackets of a pair. *)
Definition interior_token_ok tokens analysis (is_clean_range : list bool)
    (open close : Token) (open_idx close_idx header_indent j : Z) : Result bool :=
  tj ← vec_get tokens j;
  partner ← vec_get (match_partner analysis) j;
  let k := bracket_kind tj in
  if (if partner =? -1 then IsOpeningBracket k || IsClosingBracket k
      else (partner <? open_idx) || (close_idx <? partner))
  then mret false
  else
    clean ← (if IsOpeningBracket k then vec_get is_clean_range j else mret true);
    first ← vec_get (is_first_on_line analysis) j;
    mret (clean &&
      negb (kind_eqb (bracket_kind open) Kind.OpenCurlyBrace && negb (is_struct_brace open) &&
            first && negb (bracket_line tj =? bracket_line close) &&
            (line_indent tj <=? header_indent))).

Definition PairInteriorIsClean tokens analysis (is_clean_range : list bool)
    (open_idx close_idx : Z) : Result bool :=
  open ← vec_get tokens open_idx;
  close ← vec_get tokens close_idx;
  header_indent ← vec_get (effective_header_indent analysis) open_idx;
  all_seq (open_idx + 1) close_idx
    (interior_token_ok tokens analysis is_clean_range open close open_idx close_idx header_indent).

Definition mark_step tokens analysis (i : Z) (is_clean_range : list bool) : Result (list bool) :=
  close_idx ← vec_get (match_partner analysis) i;
  if close_idx <=? i then mret is_clean_range
  else
    ti ← vec_get tokens i;
    clean ← (if kind_eqb (bracket_kind ti) Kind.OpenCurlyBrace
             then BracePairIsClean tokens analysis i close_idx
             else GroupPairIsClean tokens analysis i close_idx);
    interior ← (if clean : bool then PairInteriorIsClean tokens analysis is_clean_range i close_idx
                else mret false);
    mret (vec_set is_clean_range i interior).

Definition MarkCleanRanges tokens analysis : Result (list bool) :=
  for_seq_reverse 0 (vec_size tokens) (mark_step tokens analysis)
    (replicate (length tokens) false).

(** * Cues of an item *)

(** [prev_token] is [None] at the start of the input. *)
Definition PrevIsValueLike (prev_token : option Token) : bool :=
  match prev_token with
  | Some t => IsValueEndingKind (bracket_kind t) ||
              kind_in (bracket_kind t) [Kind.CloseSquareBracket; Kind.CloseCurlyBrace]
  | None => false
  end.

Definition PrevKindCue (k : Kind.t) : CueSet :=
  match k with
  | Kind.Period => CueSetOf [Cue.PrevIsPeriod]
  | Kind.OpenParen | Kind.OpenSquareBracket => CueSetOf [Cue.PrevIsOpenBracket]
  | Kind.OpenCurlyBrace => CueSetOf [Cue.PrevIsOpenCurly]
  | Kind.CloseParen => CueSetOf [Cue.PrevIsCloseParen]
  | Kind.CloseCurlyBrace => CueSetOf [Cue.PrevIsCloseCurly]
  | Kind.CloseSquareBracket => CueSetOf [Cue.PrevIsCloseSquare]
  | Kind.Comma => CueSetOf [Cue.PrevIsComma]
  | _ => 0
  end.

Definition ComputeItemCues token (prev_token : option Token) (prev_item : option Item)
    (context_cues : CueSet) : CueSet :=
  context_cues .|
  CueIf (bracket_has_leading_space token) Cue.LeadingSpace .|
  CueIf (has_wide_leading_space token) Cue.WideGap .|
  CueIf (is_else_keyword token) Cue.ElseKeyword .|
  CueIf (is_struct_brace token) Cue.StructBrace .|
  CueIf (PrevIsValueLike prev_token) Cue.PrevValueLike .|
  match prev_token with
  | Some prev =>
      let k := bracket_kind prev in
      let wants_paren := kind_eqb k Kind.StatementIntroducer in
      CueIf (is_paren_keyword prev && wants_paren) Cue.PrevKeywordWantsParen .|
      CueIf (is_paren_keyword prev && negb wants_paren) Cue.PrevKeywordWantsSquare .|
      CueIf (bracket_has_leading_space prev) Cue.PrevHasLeadingSpace .|
      CueIf (IsValueEndingKind k) Cue.PrevValueEnding .|
      CueIf (kind_in k [Kind.As; Kind.StructuralOp]) Cue.PrevIntroducesType .|
      PrevKindCue k
  | None => 0
  end .|
  match prev_item with
  | Some prev =>
      CueIf (kind_eqb (item_kind prev) Kind.Leaf) Cue.PrevItemIsLeaf .|
      CueIf (HasAll prev [Cue.PrevIntroducesType]) Cue.PrevItemIsTypeName
  | None => 0
  end.

(** * Building the items *)

(** [make_item]: [items] with the new item. *)
Definition make_item tokens analysis items (start stop : Z) (collapsed has_scope : bool)
    : Result (list Item) :=
  token ← vec_get tokens start;
  first ← vec_get (is_first_on_line analysis) start;
  follows ← vec_get (follows_statement_header analysis) start;
  has_curly ← vec_get (header_has_open_curly_brace analysis) start;
  header_indent ← vec_get (effective_header_indent analysis) start;
  prev_token ← (if 0 <? start then t ← vec_get tokens (start - 1); mret (Some t) else mret None);
  let context_cues :=
    CueIf collapsed Cue.CollapsedBlock .|
    CueIf has_scope Cue.ContainsScopeBrace .|
    CueIf first Cue.FirstOnLine .|
    CueIf follows Cue.FollowsStatementHeader .|
    CueIf has_curly Cue.HeaderHasOpenCurly in
  mret (items ++
    [{| token_start_index := start; token_end_index := stop; item_token := token;
        item_header_indent := header_indent;
        item_cues := ComputeItemCues token prev_token (last items) context_cues |}]).

(** One round of [BuildItems]'s loop, with [i] and the items so far. *)
Definition build_step tokens analysis (is_clean_range : list bool) (s : Z * list Item)
    : Result (Z * list Item + list Item) :=
  let '(i, items) := s in
  if negb (i <? vec_size tokens) then mret (inr items)
  else
    clean ← vec_get is_clean_range i;
    if negb clean then
      ti ← vec_get tokens i;
      items ← make_item tokens analysis items i i false
                (kind_in (bracket_kind ti) [Kind.OpenCurlyBrace; Kind.CloseCurlyBrace]);
      mret (inl (i + 1, items))
    else
      close_idx ← vec_get (match_partner analysis) i;
      no_scope ← all_seq i (close_idx + 1) (λ j,
        tj ← vec_get tokens j;
        mret (negb (kind_eqb (bracket_kind tj) Kind.OpenCurlyBrace && negb (is_struct_brace tj))));
      items ← make_item tokens analysis items i close_idx true (negb no_scope);
      mret (inl (close_idx + 1, items)).

(** Each round takes at least one token. *)
Definition BuildItems tokens analysis (is_clean_range : list bool) : Result (list Item) :=
  loop (S (length tokens)) (build_step tokens analysis is_clean_range) (0, []).

(** * Regions *)

Definition boundary_step tokens items (i : Z) (boundaries : list Z) : Result (list Z) :=
  item ← vec_get items i;
  if (i =? 0) || HasAll item [Cue.CollapsedBlock] ||
     negb (kind_eqb (item_kind item) Kind.StatementIntroducer) ||
     is_else_keyword (item_token item) || (1 <? line_indent (item_token item)) ||
     negb (HasAll item [Cue.FirstOnLine])
  then mret boundaries
  else
    prev ← vec_get items (i - 1);
    prev_end ← vec_get tokens (token_end_index prev);
    back ← vec_get boundaries (vec_size boundaries - 1);
    mret (if kind_in (bracket_kind prev_end) [Kind.Semi; Kind.CloseCurlyBrace] &&
             negb (back =? i)
          then boundaries ++ [i] else boundaries).

Definition FindRegionBoundaries tokens items : Result (list Z) :=
  boundaries ← for_seq 0 (vec_size items) (boundary_step tokens items) [0];
  back ← vec_get boundaries (vec_size boundaries - 1);
  mret (if back =? vec_size items then boundaries else boundaries ++ [vec_size items]).

(** The loop over the items of a region, with the open kinds, innermost first. *)
Fixpoint region_balances (open_kinds : list Kind.t) items : bool :=
  match items with
  | [] => bool_decide (length open_kinds = 0%nat)
  | item :: items =>
      if HasAll item [Cue.CollapsedBlock] then region_balances open_kinds items
      else if IsOpeningBracket (item_kind item) then
        region_balances (item_kind item :: open_kinds) items
      else if IsClosingBracket (item_kind item) then
        match open_kinds with
        | top :: open_kinds =>
            kind_eqb (MatchingClosingKind top) (item_kind item) && region_balances open_kinds items
        | [] => false
        end
      else region_balances open_kinds items
  end.

Definition RegionIsBalanced (region : list Item) : bool := region_balances [] region.
