(* ===== verification/BracketSearch.v ===== *)
(** The search for the cheapest bracket repair
    ([toolchain/lex/mismatched_brackets.cpp]): the shared store of open-bracket
    stacks, the layered beam search over a damaged region, the corrections
    that its cheapest repairs agree on, the greedy fallback, and
    [FixMismatchedBrackets] itself. *)

From S2P Require Import Prelude TokenKinds BracketTokens BracketRules BracketAnalysis.

#[local] Abbreviation Token := MismatchedBracketToken.
Implicit Types (token : Token) (item : Item) (items : list Item).

(** [TokenIndex::None], [OpenStackId::Empty] and the end of an [int32_t]. *)
Definition NoTokenIndex : Z := -1.
Definition EmptyStackId : Z := -1.
Definition MaxInt32 : Z := 2 ^ 31 - 1.

(** * Stacks of open brackets *)

Record OpenBracketKey := {
  open_token_index : Z;
  insertion_token_index : Z;
  open_token_pos : Z;
  open_line : Z;
  open_line_indent : Z;
  open_header_indent : Z;
  open_kind : Kind.t;
  is_synthetic : bool;
  open_is_struct_brace : bool;
  is_call_paren : bool;
}.

#[export] Instance OpenBracketKey_eq_dec : EqDecision OpenBracketKey.
Proof. solve_decision. Defined.

(** [OpenBracketInfo]: the key, and the rule that proposed a synthetic opener. *)
Record OpenBracketInfo := { open_key : OpenBracketKey; open_rule_name : string }.

Record Cell := {
  cell_parent : Z;
  cell_entry : OpenBracketInfo;
  cell_depth : Z;
  cell_open_kinds : Z;
  cell_has_synthetic : bool;
}.

(** The members: the cells, and the id of each cell's parent and key. *)
Record OpenStackStore := { cells : list Cell; intern : list ((Z * OpenBracketKey) * Z) }.
Implicit Types (stacks : OpenStackStore) (stack : Z) (entry : OpenBracketInfo).

Definition EmptyStacks : OpenStackStore := {| cells := []; intern := [] |}.

(** [Map::Lookup]. *)
Fixpoint map_lookup {K V} `{EqDecision K} (m : list (K * V)) (k : K) : option V :=
  match m with
  | [] => None
  | (k', v) :: m => if decide (k = k') then Some v else map_lookup m k
  end.

Definition KindBit (k : Kind.t) : Z := Z.shiftl 1 (KindIndex k) mod 2 ^ 8.

Definition IsEmpty stack : bool := stack =? EmptyStackId.

Definition Pop stacks stack : Result Z := c ← vec_get (cells stacks) stack; mret (cell_parent c).
Definition Top_ stacks stack : Result OpenBracketInfo :=
  c ← vec_get (cells stacks) stack; mret (cell_entry c).
Definition Depth stacks stack : Result Z :=
  if IsEmpty stack then mret 0 else c ← vec_get (cells stacks) stack; mret (cell_depth c).
Definition HasSynthetic stacks stack : Result bool :=
  if IsEmpty stack then mret false
  else c ← vec_get (cells stacks) stack; mret (cell_has_synthetic c).
Definition OpenKinds stacks stack : Result Z :=
  if IsEmpty stack then mret 0 else c ← vec_get (cells stacks) stack; mret (cell_open_kinds c).
Definition Contains stacks stack (k : Kind.t) : Result bool :=
  if IsEmpty stack then mret false
  else c ← vec_get (cells stacks) stack; mret (negb (cell_open_kinds c .& KindBit k =? 0)).

Definition Push stacks stack entry : Result (Z * OpenStackStore) :=
  match map_lookup (intern stacks) (stack, open_key entry) with
  | Some id => mret (id, stacks)
  | None =>
      depth ← Depth stacks stack;
      kinds ← OpenKinds stacks stack;
      synthetic ← HasSynthetic stacks stack;
      let id := vec_size (cells stacks) in
      mret (id,
        {| cells := cells stacks ++
             [{| cell_parent := stack; cell_entry := entry; cell_depth := depth + 1;
                 cell_open_kinds := kinds .| KindBit (open_kind (open_key entry));
                 cell_has_synthetic := synthetic || is_synthetic (open_key entry) |}];
           intern := intern stacks ++ [((stack, open_key entry), id)] |})
  end.

(** * Nodes of the search *)

(** [ParentEdge]; the correction is present if [has_correction]. *)
Record ParentEdge := { parent_node_index : Z; edge_correction : option BracketCorrection }.

Record BeamNode := {
  node_item_index : Z;
  node_stack : Z;
  node_cost : Z;
  node_closer_inserted : Kind.t;
  parent_edges : list ParentEdge;
}.

Record SearchState := { state_stack : Z; state_cost : Z; state_closer_inserted : Kind.t }.

Definition Snapshot (node : BeamNode) : SearchState :=
  {| state_stack := node_stack node; state_cost := node_cost node;
     state_closer_inserted := node_closer_inserted node |}.

Definition make_correction (diagnostic : BracketDiagnosticKind) (diagnostic_token : Z)
    (action : BracketFixAction) (fix_token : Z) (fix_kind : TokenKind.t) : BracketCorrection :=
  {| diagnostic_kind := diagnostic; diagnostic_token_index := diagnostic_token;
     fix_action := action; fix_token_index := fix_token; fix_token_kind := fix_kind;
     is_tied := false |}.

Definition ReplaceBracket token (diagnostic : BracketDiagnosticKind) : BracketCorrection :=
  make_correction diagnostic (bracket_token_index token) ReplaceWithError
    (bracket_token_index token) (ToTokenKind (bracket_kind token)).

(** * The greedy fallback *)

Definition NaiveLookback : nat := 16.

(** The search through the last [n] open brackets, innermost first: those passed
    over and those left, if one matches. *)
Fixpoint naive_match (n : nat) (k : Kind.t) (open_stack : list Token)
    : option (list Token * list Token) :=
  match n, open_stack with
  | S n, t :: open_stack =>
      if kind_eqb (MatchingClosingKind (bracket_kind t)) k then Some ([], open_stack)
      else
        match naive_match n k open_stack with
        | Some (passed, kept) => Some (t :: passed, kept)
        | None => None
        end
  | _, _ => None
  end.

(** The groups at the end of the stack that a statement cannot be inside. *)
Fixpoint naive_unclosed (open_stack : list Token) : list Token * list Token :=
  match open_stack with
  | t :: rest =>
      if kind_in (bracket_kind t) [Kind.OpenParen; Kind.OpenSquareBracket] then
        let r := naive_unclosed rest in (t :: r.1, r.2)
      else ([], open_stack)
  | [] => ([], [])
  end.

Definition drop_openers : list Token → list BracketCorrection :=
  fmap (λ t, ReplaceBracket t UnmatchedOpening).

(** The loop over the items, with the open brackets, innermost first, and then
    the brackets still open. *)
Fixpoint solve_naive items (open_stack : list Token) : list BracketCorrection :=
  match items with
  | [] => drop_openers open_stack
  | item :: items =>
      if HasAll item [Cue.CollapsedBlock] then solve_naive items open_stack
      else
        let token := item_token item in
        let k := bracket_kind token in
        let unclosed :=
          if kind_in k [Kind.Semi; Kind.StatementIntroducer; Kind.OpenCurlyBrace; Kind.FileEnd]
          then naive_unclosed open_stack else ([], open_stack) in
        drop_openers unclosed.1 ++
        (if IsOpeningBracket k then solve_naive items (token :: unclosed.2)
         else if IsClosingBracket k then
           match naive_match NaiveLookback k unclosed.2 with
           | None => ReplaceBracket token UnmatchedClosing :: solve_naive items unclosed.2
           | Some (passed, kept) => drop_openers passed ++ solve_naive items kept
           end
         else solve_naive items unclosed.2)
  end.

Definition SolveNaive items : list BracketCorrection := solve_naive items [].

(** * Costs of a move *)

Definition EdgesEqual (a b : ParentEdge) : bool :=
  (parent_node_index a =? parent_node_index b) &&
  match edge_correction a, edge_correction b with
  | None, None => true
  | Some c, Some d =>
      (diagnostic_token_index c =? diagnostic_token_index d) &&
      bool_decide (fix_action c = fix_action d) &&
      (fix_token_index c =? fix_token_index d) &&
      TokenKind.eqb (fix_token_kind c) (fix_token_kind d)
  | _, _ => false
  end.

Definition MatchesDeeperOpener stacks stack (closing_kind : Kind.t) : Result bool :=
  if negb (IsClosingBracket closing_kind) then mret false
  else
    depth ← Depth stacks stack;
    if depth <? 2 then mret false
    else
      below ← Pop stacks stack;
      Contains stacks below (MatchingOpeningKind closing_kind).

Definition OpenerSynthesizedHere stacks stack item : Result bool :=
  if IsEmpty stack then mret false
  else
    top ← Top_ stacks stack;
    mret (is_synthetic (open_key top) &&
          (insertion_token_index (open_key top) =? bracket_token_index (item_token item))).

Definition CloserFixesLeafAdjacency (closer_inserted : Kind.t) : bool :=
  kind_in closer_inserted [Kind.CloseSquareBracket; Kind.CloseCurlyBrace].

Definition TopCategoryOf (top : OpenBracketKey) : Z :=
  match open_kind top with
  | Kind.OpenParen => Top.ParenIndex
  | Kind.OpenSquareBracket => Top.SquareIndex
  | _ => if open_is_struct_brace top then Top.StructIndex else Top.ScopeIndex
  end.

Definition TopCategoryOfStack stacks stack : Result Z :=
  if IsEmpty stack then mret Top.NoneIndex
  else top ← Top_ stacks stack; mret (TopCategoryOf (open_key top)).

Definition InsCategoryOf (k : Kind.t) (struct_brace : bool) : Z :=
  match k with
  | Kind.OpenParen => Ins.ParenIndex
  | Kind.OpenSquareBracket => Ins.SquareIndex
  | _ => if struct_brace then Ins.StructBraceIndex else Ins.ScopeBraceIndex
  end.

Definition ComputeTopCues (top : OpenBracketKey) item stacks stack : Result CueSet :=
  let token := item_token item in
  deeper ← MatchesDeeperOpener stacks stack (bracket_kind token);
  mret
    (CueIf (is_call_paren top) Cue.CallParenTop .|
     CueIf deeper Cue.Cascade .|
     CueIf (open_token_pos top =? token_start_index item - 1) Cue.AfterOpenTop .|
     CueIf (line_indent token <=? open_header_indent top) Cue.DedentToHeader .|
     CueIf (negb (bracket_line token =? open_line top)) Cue.NewLineFromTop).

(** The cost and name of a rule, unless it declines. *)
Definition rule_verdict (rule : option BracketRule) : option (Z * string) :=
  match rule with
  | Some r => if rule_cost r =? DeclineCost then None else Some (rule_cost r, rule_name r)
  | None => None
  end.

Definition ClassifyCloserInsertion (top : OpenBracketKey) item stacks stack
    : Result (option (Z * string)) :=
  top_cues ← ComputeTopCues top item stacks stack;
  rule ← FindMatchingRule CloserRules CloserRuleIndex (TopCategoryOf top) (item_kind item)
           (item_cues item .| top_cues);
  mret (rule_verdict rule).

Definition ClassifyOpenerInsertion (k : Kind.t) (struct_brace : bool) item
    : Result (option (Z * string)) :=
  rule ← FindMatchingRule OpenerRules OpenerRuleIndex (InsCategoryOf k struct_brace)
           (item_kind item) (item_cues item);
  mret (rule_verdict rule).

Definition ComputeAdvanceCues stacks (node : SearchState) item : Result CueSet :=
  opener_here ← OpenerSynthesizedHere stacks (state_stack node) item;
  let closer_here := negb (kind_eqb (state_closer_inserted node) Kind.Other) in
  let cues :=
    item_cues item .|
    CueIf closer_here Cue.CloserInserted .|
    CueIf (CloserFixesLeafAdjacency (state_closer_inserted node)) Cue.CloserFixesAdjacency .|
    CueIf opener_here Cue.OpenerHere .|
    CueIf (closer_here || opener_here) Cue.BracketInsertedHere in
  if IsEmpty (state_stack node) then mret cues
  else
    info ← Top_ stacks (state_stack node);
    let top := open_key info in
    mret
      (cues .|
       CueIf (is_call_paren top) Cue.CallParenTop .|
       CueIf (open_token_pos top =? token_start_index item - 1) Cue.AfterOpenTop .|
       CueIf (line_indent (item_token item) <=? open_header_indent top) Cue.DedentToHeader .|
       CueIf (line_indent (item_token item) <=? open_line_indent top) Cue.DedentToOpenerLine).

Definition AdvancePenalty stacks (node : SearchState) item : Result Z :=
  category ← TopCategoryOfStack stacks (state_stack node);
  cues ← ComputeAdvanceCues stacks node item;
  SumMatchingRules AdvanceRules AdvanceRuleIndex category (item_kind item) cues.

Definition DirectMatchPreferred (top : OpenBracketKey) item : bool :=
  let curly := kind_eqb (item_kind item) Kind.CloseCurlyBrace in
  let direct_match_ok :=
    negb curly || open_is_struct_brace top ||
    (bracket_line (item_token item) =? open_line top) ||
    (open_header_indent top <=? line_indent (item_token item)) in
  let spaced_suspicious :=
    negb curly && negb (HasAll item [Cue.FirstOnLine]) &&
    HasAll item [Cue.LeadingSpace; Cue.PrevValueLike] in
  direct_match_ok && negb spaced_suspicious.

Definition SyntheticOpeners : list (Kind.t * bool) :=
  [(Kind.OpenParen, false); (Kind.OpenSquareBracket, false);
   (Kind.OpenCurlyBrace, false); (Kind.OpenCurlyBrace, true)].

Definition RealOpener item : OpenBracketInfo :=
  let token := item_token item in
  {| open_key :=
       {| open_token_index := bracket_token_index token; insertion_token_index := NoTokenIndex;
          open_token_pos := token_start_index item; open_line := bracket_line token;
          open_line_indent := line_indent token; open_header_indent := item_header_indent item;
          open_kind := bracket_kind token; is_synthetic := false;
          open_is_struct_brace := is_struct_brace token;
          is_call_paren := HasAll item [Cue.PrevValueEnding] |};
     open_rule_name := EmptyString |}.

Definition SynthesizedOpener item (k : Kind.t) (struct_brace : bool) (name : string)
    : OpenBracketInfo :=
  let token := item_token item in
  {| open_key :=
       {| open_token_index := NoTokenIndex; insertion_token_index := bracket_token_index token;
          open_token_pos := -1; open_line := bracket_line token;
          open_line_indent := line_indent token; open_header_indent := item_header_indent item;
          open_kind := k; is_synthetic := true; open_is_struct_brace := struct_brace;
          is_call_paren := false |};
     open_rule_name := name |}.

Definition MatchClosePenalty (top : OpenBracketKey) item : option Z :=
  let token := item_token item in
  if negb (kind_eqb (bracket_kind token) Kind.CloseCurlyBrace) || open_is_struct_brace top ||
     (bracket_line token =? open_line top)
  then Some 0
  else if line_indent token <? open_header_indent top then None
  else if HasAll item [Cue.FirstOnLine] && negb (line_indent token =? open_header_indent top) then
    Some (CostBraceIndentMismatchBase +
          CostBraceIndentMismatchPerColumn * Z.abs (open_header_indent top - line_indent token))
  else Some 0.

Definition InsertOpenerCorrection (opener : OpenBracketKey) (closer : Token) : BracketCorrection :=
  make_correction UnmatchedClosing (bracket_token_index closer) InsertBefore
    (insertion_token_index opener) (ToTokenKind (open_kind opener)).

(** The correction that closes the real opener [opener] before [fix_token]. *)
Definition InsertCloserCorrection (opener : OpenBracketKey) (fix_token : Z) : BracketCorrection :=
  make_correction UnmatchedOpening (open_token_index opener) InsertBefore fix_token
    (ToTokenKind (MatchingClosingKind (open_kind opener))).

Definition CostToCloseAtEnd (open : OpenBracketKey) : Z :=
  if negb (kind_eqb (open_kind open) Kind.OpenCurlyBrace) then CostCloseParenAtEnd
  else if open_is_struct_brace open then CostCloseStructAtEnd else CostCloseAtEnd.

(** * The search over one region *)

Record RegionSearch := {
  nodes : list BeamNode;
  min_goal_cost : Z;
  current_layer : list Z;
  layer_dedup : list ((Z * Kind.t) * Z);
  search_stacks : OpenStackStore;
}.
Implicit Types (s : RegionSearch) (layer worklist : list Z).

Definition with_nodes (l : list BeamNode) s : RegionSearch :=
  {| nodes := l; min_goal_cost := min_goal_cost s; current_layer := current_layer s;
     layer_dedup := layer_dedup s; search_stacks := search_stacks s |}.
Definition with_min_goal_cost (c : Z) s : RegionSearch :=
  {| nodes := nodes s; min_goal_cost := c; current_layer := current_layer s;
     layer_dedup := layer_dedup s; search_stacks := search_stacks s |}.
Definition with_layer layer s : RegionSearch :=
  {| nodes := nodes s; min_goal_cost := min_goal_cost s; current_layer := layer;
     layer_dedup := layer_dedup s; search_stacks := search_stacks s |}.
Definition with_dedup (m : list ((Z * Kind.t) * Z)) s : RegionSearch :=
  {| nodes := nodes s; min_goal_cost := min_goal_cost s; current_layer := current_layer s;
     layer_dedup := m; search_stacks := search_stacks s |}.
Definition with_stacks (st : OpenStackStore) s : RegionSearch :=
  {| nodes := nodes s; min_goal_cost := min_goal_cost s; current_layer := current_layer s;
     layer_dedup := layer_dedup s; search_stacks := st |}.

Definition set_node_path (cost : Z) (edges : list ParentEdge) (node : BeamNode) : BeamNode :=
  {| node_item_index := node_item_index node; node_stack := node_stack node; node_cost := cost;
     node_closer_inserted := node_closer_inserted node; parent_edges := edges |}.

(** Returns the worklist with what the function appends to it. *)
Definition MergeIntoNode s (idx cost : Z) (edge : ParentEdge) worklist
    : Result (RegionSearch * list Z) :=
  node ← vec_get (nodes s) idx;
  if cost <? node_cost node then
    mret (with_nodes (vec_set (nodes s) idx (set_node_path cost [edge] node)) s, worklist ++ [idx])
  else if (cost =? node_cost node) && forallb (λ e, negb (EdgesEqual e edge)) (parent_edges node)
  then
    mret (with_nodes (vec_set (nodes s) idx
                        (set_node_path (node_cost node) (parent_edges node ++ [edge]) node)) s,
          worklist)
  else mret (s, worklist).

(** [layer] and [worklist] are passed by reference: the new ones are returned,
    and a caller without a worklist drops the one it gets back. *)
Definition AddToLayer s layer (next_item_idx next_stack : Z) (closer_inserted : Kind.t)
    (next_cost : Z) (edge : ParentEdge) worklist : Result (RegionSearch * list Z * list Z) :=
  if min_goal_cost s <? next_cost then mret (s, layer, worklist)
  else
    match map_lookup (layer_dedup s) (next_stack, closer_inserted) with
    | Some existing =>
        r ← MergeIntoNode s existing next_cost edge worklist;
        mret (r.1, layer, r.2)
    | None =>
        let new_idx := vec_size (nodes s) in
        let node := {| node_item_index := next_item_idx; node_stack := next_stack;
                       node_cost := next_cost; node_closer_inserted := closer_inserted;
                       parent_edges := [edge] |} in
        mret (with_dedup (layer_dedup s ++ [((next_stack, closer_inserted), new_idx)])
                (with_nodes (nodes s ++ [node]) s),
              layer ++ [new_idx], worklist ++ [new_idx])
    end.

(** [llvm::stable_sort] by [lt]. *)
Fixpoint stable_insert {A} (lt : A → A → bool) (x : A) (l : list A) : list A :=
  match l with
  | [] => [x]
  | y :: l' => if lt y x then y :: stable_insert lt x l' else x :: l
  end.
Definition stable_sort {A} (lt : A → A → bool) (l : list A) : list A :=
  foldr (stable_insert lt) [] l.

(** Each state of the layer with its cost, which the comparisons read. *)
Fixpoint layer_costs s layer : Result (list (Z * Z)) :=
  match layer with
  | [] => mret []
  | idx :: layer =>
      node ← vec_get (nodes s) idx;
      rest ← layer_costs s layer;
      mret ((idx, node_cost node) :: rest)
  end.

Definition PruneBeam s layer : Result (list Z) :=
  if (MaxBeamWidth <? length layer)%nat then
    costs ← layer_costs s layer;
    mret (take MaxBeamWidth (stable_sort (λ a b, a.2 <? b.2) costs).*1)
  else mret layer.

(** One round of the loop over the worklist, at [head]. *)
Definition closer_step item (item_idx : Z) (x : RegionSearch * list Z * Z)
    : Result (RegionSearch * list Z * Z + RegionSearch) :=
  let '(s, worklist, head) := x in
  if negb (head <? vec_size worklist) then mret (inr s)
  else
    idx ← vec_get worklist head;
    node ← vec_get (nodes s) idx;
    let current := Snapshot node in
    let skip := mret (inl (s, worklist, head + 1)) in
    if (min_goal_cost s <? state_cost current) || IsEmpty (state_stack current) then skip
    else
      info ← Top_ (search_stacks s) (state_stack current);
      let top := open_key info in
      if is_synthetic top then skip
      else if kind_eqb (item_kind item) (MatchingClosingKind (open_kind top)) &&
              DirectMatchPreferred top item
      then skip
      else
        verdict ← ClassifyCloserInsertion top item (search_stacks s) (state_stack current);
        match verdict with
        | None => skip
        | Some (cost, _) =>
            next_stack ← Pop (search_stacks s) (state_stack current);
            '(s, layer, worklist) ←
              AddToLayer s (current_layer s) item_idx next_stack
                (MatchingClosingKind (open_kind top)) (state_cost current + cost)
                {| parent_node_index := idx;
                   edge_correction :=
                     Some (InsertCloserCorrection top (bracket_token_index (item_token item))) |}
                worklist;
            mret (inl (with_layer layer s, worklist, head + 1))
        end.

(** A state leads to at most one other, with one fewer bracket open, so the
    worklist has at most one entry for each state and depth. *)
Definition closer_rounds worklist : nat :=
  S (length worklist * S (Z.to_nat MaxSearchStackDepth)).

Definition InsertSyntheticClosers item (item_idx : Z) s : Result RegionSearch :=
  loop (closer_rounds (current_layer s)) (closer_step item item_idx) (s, current_layer s, 0).

(** The body of the loop over the flavors of opener. *)
Definition opener_step item (item_idx node_idx : Z) (current : SearchState)
    (flavor : Kind.t * bool) s : Result RegionSearch :=
  verdict ← ClassifyOpenerInsertion flavor.1 flavor.2 item;
  match verdict with
  | None => mret s
  | Some (cost, name) =>
      '(next_stack, stacks) ← Push (search_stacks s) (state_stack current)
                                (SynthesizedOpener item flavor.1 flavor.2 name);
      '(s, layer, _) ←
        AddToLayer (with_stacks stacks s) (current_layer s) item_idx next_stack
          (state_closer_inserted current) (state_cost current + cost)
          {| parent_node_index := node_idx; edge_correction := None |} [];
      mret (with_layer layer s)
  end.

Definition opener_round item (item_idx idx : Z) s : Result RegionSearch :=
  node_idx ← vec_get (current_layer s) idx;
  node ← vec_get (nodes s) node_idx;
  let current := Snapshot node in
  if min_goal_cost s <? state_cost current then mret s
  else
    depth ← Depth (search_stacks s) (state_stack current);
    if MaxSearchStackDepth <=? depth then mret s
    else for_each SyntheticOpeners (opener_step item item_idx node_idx current) s.

Definition InsertSyntheticOpeners item (item_idx : Z) s : Result RegionSearch :=
  for_seq 0 (vec_size (current_layer s)) (opener_round item item_idx) s.

(** Seeding the dedup table with one state of the layer. *)
Definition seed_dedup (idx : Z) s : Result RegionSearch :=
  node ← vec_get (nodes s) idx;
  let key := (node_stack node, node_closer_inserted node) in
  mret (match map_lookup (layer_dedup s) key with
        | Some _ => s
        | None => with_dedup (layer_dedup s ++ [(key, idx)]) s
        end).

Definition InsertBracketsBefore item (item_idx : Z) s : Result RegionSearch :=
  s ← for_each (current_layer s) seed_dedup s;
  s ← InsertSyntheticClosers item item_idx s;
  s ← InsertSyntheticOpeners item item_idx s;
  let s := with_dedup [] s in
  layer ← PruneBeam s (current_layer s);
  mret (with_layer layer s).

(** The lambda [advance]. *)
Definition advance (item_idx node_idx : Z) (current : SearchState) (next_stack add_cost : Z)
    (correction : option BracketCorrection) (x : RegionSearch * list Z)
    : Result (RegionSearch * list Z) :=
  r ← AddToLayer x.1 x.2 (item_idx + 1) next_stack Kind.Other (state_cost current + add_cost)
        {| parent_node_index := node_idx; edge_correction := correction |} [];
  mret r.1.

Definition AdvanceNode item (item_idx node_idx : Z) (x : RegionSearch * list Z)
    : Result (RegionSearch * list Z) :=
  let s := x.1 in
  node ← vec_get (nodes s) node_idx;
  let current := Snapshot node in
  if min_goal_cost s <? state_cost current then mret x
  else
    let stack := state_stack current in
    let token := item_token item in
    let k := item_kind item in
    let advance := advance item_idx node_idx current in
    penalty ← AdvancePenalty (search_stacks s) current item;
    if HasAll item [Cue.CollapsedBlock] then advance stack penalty None x
    else if IsOpeningBracket k then
      depth ← Depth (search_stacks s) stack;
      x ← (if depth <? MaxSearchStackDepth then
             '(next_stack, stacks) ← Push (search_stacks s) stack (RealOpener item);
             advance next_stack penalty None (with_stacks stacks s, x.2)
           else mret x);
      advance stack CostReplaceOpening (Some (ReplaceBracket token UnmatchedOpening)) x
    else if IsClosingBracket k then
      x ← (if IsEmpty stack then mret x
           else
             info ← Top_ (search_stacks s) stack;
             let top := open_key info in
             if negb (kind_eqb (open_kind top) (MatchingOpeningKind k)) then mret x
             else
               match MatchClosePenalty top item with
               | None => mret x
               | Some match_cost =>
                   next_stack ← Pop (search_stacks s) stack;
                   advance next_stack (penalty + match_cost)
                     (if is_synthetic top then Some (InsertOpenerCorrection top token) else None) x
               end);
      advance stack CostReplaceClosing (Some (ReplaceBracket token UnmatchedClosing)) x
    else advance stack penalty None x.

Definition AdvanceOverItem item (item_idx : Z) s : Result RegionSearch :=
  '(s, next_layer) ← for_each (current_layer s) (AdvanceNode item item_idx) (s, []);
  let s := with_dedup [] s in
  layer ← PruneBeam s next_layer;
  mret (with_layer layer s).

(** One round of the loop that closes what is open at the end of the region, with
    the stack, the cost and the parent. *)
Definition close_end_step (num_items region_end_token : Z) (x : RegionSearch * Z * Z * Z)
    : Result (RegionSearch * Z * Z * Z + RegionSearch * Z * Z) :=
  let '(s, open_stack, finish_cost, parent) := x in
  if IsEmpty open_stack then mret (inr (s, finish_cost, parent))
  else
    info ← Top_ (search_stacks s) open_stack;
    let open := open_key info in
    let finish_cost := finish_cost + CostToCloseAtEnd open in
    let node :=
      {| node_item_index := num_items; node_stack := EmptyStackId; node_cost := finish_cost;
         node_closer_inserted := Kind.Other;
         parent_edges :=
           [{| parent_node_index := parent;
               edge_correction := Some (InsertCloserCorrection open region_end_token) |}] |} in
    below ← Pop (search_stacks s) open_stack;
    mret (inl (with_nodes (nodes s ++ [node]) s, below, finish_cost, vec_size (nodes s))).

(** The body of the loop over the layer, with the goals so far. A stack has no
    more brackets than there are cells. *)
Definition close_node (num_items region_end_token node_idx : Z) (x : RegionSearch * list Z)
    : Result (RegionSearch * list Z) :=
  let '(s, goals) := x in
  node ← vec_get (nodes s) node_idx;
  let current := Snapshot node in
  if min_goal_cost s <? state_cost current then mret x
  else
    synthetic ← HasSynthetic (search_stacks s) (state_stack current);
    if synthetic : bool then mret x
    else
      '(s, finish_cost, parent) ←
        loop (S (length (cells (search_stacks s)))) (close_end_step num_items region_end_token)
          (s, state_stack current, state_cost current, node_idx);
      let '(s, goals) :=
        if finish_cost <? min_goal_cost s then (with_min_goal_cost finish_cost s, [])
        else (s, goals) in
      mret (s, if finish_cost =? min_goal_cost s then goals ++ [parent] else goals).

Definition CloseAtRegionEnd (num_items region_end_token : Z) s : Result (RegionSearch * list Z) :=
  for_each (current_layer s) (close_node num_items region_end_token) (s, []).

(** * The corrections of the cheapest repairs *)

(** The locals of [EnumerateOptimalPaths]: a vector used as a stack is a list
    with its back first, so that the path, which goes back from a goal, is in
    the order it is stored in. *)
Record PathSearch := {
  all_paths : list (list BracketCorrection);
  current_path : list BracketCorrection;
  frames : list (Z * Z);
}.

Definition path_step (node_list : list BeamNode) (x : PathSearch)
    : Result (PathSearch + list (list BracketCorrection)) :=
  match frames x with
  | [] => mret (inr (all_paths x))
  | (node_index, edge_index) :: rest =>
      node ← vec_get node_list node_index;
      match parent_edges node with
      | [] =>
          let found := all_paths x ++ [current_path x] in
          mret (if MaxOptimalPaths <=? vec_size found then inr found
                else inl {| all_paths := found; current_path := current_path x; frames := rest |})
      | edges =>
          path ←
            (if 0 <? edge_index then
               prev_edge ← vec_get edges (edge_index - 1);
               match edge_correction prev_edge, current_path x with
               | None, path => mret path
               | Some _, _ :: path => mret path
               | Some _, [] => Err EmptyStack
               end
             else mret (current_path x));
          if edge_index <? vec_size edges then
            edge ← vec_get edges edge_index;
            mret (inl
              {| all_paths := all_paths x;
                 current_path :=
                   match edge_correction edge with Some c => c :: path | None => path end;
                 frames := (parent_node_index edge, 0) :: (node_index, edge_index + 1) :: rest |})
          else mret (inl {| all_paths := all_paths x; current_path := path; frames := rest |})
      end
  end.

(** [max_length] bounds the length of a path of the graph: a search for each of
    the paths returned goes down and up at most that far. *)
Definition path_rounds (max_length num_goals : nat) : nat :=
  S (Z.to_nat MaxOptimalPaths) * (2 * max_length + num_goals + 4).

Definition EnumerateOptimalPaths (max_length : nat) (node_list : list BeamNode)
    (goal_node_indices : list Z) : Result (list (list BracketCorrection)) :=
  loop (path_rounds max_length (length goal_node_indices)) (path_step node_list)
    {| all_paths := []; current_path := [];
       frames := reverse ((λ goal_idx, (goal_idx, 0)) <$> goal_node_indices) |}.

(** The locals of the first loop of [FindTiedCorrections]. *)
Record BaselineKeys := {
  key_ids : list (Z * Z);
  baseline_key_id : list Z;
  baseline_rank : list Z;
  baseline_count : list Z;
}.

Definition number_key (key : Z) (b : BaselineKeys) : Result BaselineKeys :=
  let '(key_id, ids, counts) :=
    match map_lookup (key_ids b) key with
    | Some id => (id, key_ids b, baseline_count b)
    | None => (vec_size (baseline_count b),
               key_ids b ++ [(key, vec_size (baseline_count b))], baseline_count b ++ [0])
    end in
  count ← vec_get counts key_id;
  mret {| key_ids := ids; baseline_key_id := baseline_key_id b ++ [key_id];
          baseline_rank := baseline_rank b ++ [count + 1];
          baseline_count := vec_set counts key_id (count + 1) |}.

(** [++path_count[*key_id]], for a key the baseline uses. *)
Definition count_key (ids : list (Z * Z)) (key : Z) (path_count : list Z) : Result (list Z) :=
  match map_lookup ids key with
  | Some id => count ← vec_get path_count id; mret (vec_set path_count id (count + 1))
  | None => mret path_count
  end.

Definition FindTiedCorrections (paths : list (list BracketCorrection))
    (repair_key : BracketCorrection → Z) : Result (list bool) :=
  baseline ← vec_get paths 0;
  b ← for_each (repair_key <$> baseline) number_key
        {| key_ids := []; baseline_key_id := []; baseline_rank := []; baseline_count := [] |};
  min_count ← for_each (drop 1 paths) (λ path min_count,
      path_count ← for_each (repair_key <$> path) (count_key (key_ids b))
                     (replicate (length (baseline_count b)) 0);
      mret (zip_with Z.min min_count path_count)) (baseline_count b);
  tied ← for_each (zip (baseline_key_id b) (baseline_rank b)) (λ x tied,
      fewest ← vec_get min_count x.1;
      mret (tied ++ [fewest <? x.2])) [];
  mret tied.

(** [run_start], for the items from the one after [prev], whose own start is
    [start]. *)
Fixpoint run_starts (idx : Z) (prev : option (Item * Z)) items : list Z :=
  match items with
  | [] => []
  | item :: items =>
      let start :=
        match prev with
        | Some (p, start) =>
            if negb (HasAll item [Cue.CollapsedBlock]) && negb (HasAll p [Cue.CollapsedBlock]) &&
               kind_eqb (item_kind p) (item_kind item)
            then start else idx
        | None => idx
        end in
      start :: run_starts (idx + 1) (Some (item, start)) items
  end.

(** [token_to_item]: a later entry for a token replaces an earlier one. *)
Definition token_to_item items (region_end_token : Z) : list (Z * Z) :=
  reverse (imap (λ i item, (bracket_token_index (item_token item), Z.of_nat i)) items ++
           [(region_end_token, vec_size items)]).

Definition ActionIndex (a : BracketFixAction) : Z :=
  match a with InsertBefore => 0 | InsertAfter => 1 | ReplaceWithError => 2 end.

Definition repair_key items (region_end_token : Z) (c : BracketCorrection) : Z :=
  let token := fix_token_index c in
  let item_position :=
    if bool_decide (fix_action c = InsertBefore)
    then map_lookup (token_to_item items region_end_token) token else None in
  let position :=
    match item_position with
    | Some p =>
        match items !! Z.to_nat (p - 1) with
        | Some before =>
            if (0 <? p) && negb (HasAll before [Cue.CollapsedBlock]) &&
               TokenKind.eqb (ToTokenKind (item_kind before)) (fix_token_kind c)
            then default p (run_starts 0 None items !! Z.to_nat (p - 1)) else p
        | None => p
        end
    | None => token
    end in
  Z.shiftl (ActionIndex (fix_action c)) 40 .|
  Z.shiftl (TokenKind.AsInt (fix_token_kind c)) 33 .|
  Z.shiftl (Z.b2z (is_some item_position)) 32 .|
  position mod 2 ^ 32.

Definition set_tied (c : BracketCorrection) (tied : bool) : BracketCorrection :=
  {| diagnostic_kind := diagnostic_kind c; diagnostic_token_index := diagnostic_token_index c;
     fix_action := fix_action c; fix_token_index := fix_token_index c;
     fix_token_kind := fix_token_kind c; is_tied := tied |}.

(** No path of the search over some items is longer: it passes each item once, and
    inserts at most this many brackets before each and at the end. *)
Definition max_path_length items : nat := (length items + 2) * 16.

Definition ReconstructCorrections (node_list : list BeamNode) (goal_node_indices : list Z) items
    (region_end_token : Z) : Result (list BracketCorrection) :=
  paths ← EnumerateOptimalPaths (max_path_length items) node_list goal_node_indices;
  match paths with
  | [] => mret (SolveNaive items)
  | first :: _ =>
      tied ← FindTiedCorrections paths (repair_key items region_end_token);
      mret (zip_with set_tied first tied)
  end.

Definition InitialSearch : RegionSearch :=
  {| nodes := [{| node_item_index := 0; node_stack := EmptyStackId; node_cost := 0;
                  node_closer_inserted := Kind.Other; parent_edges := [] |}];
     min_goal_cost := MaxInt32; current_layer := [0]; layer_dedup := [];
     search_stacks := EmptyStacks |}.

(** The body of [Solve]'s loop over the items. *)
Definition solve_step items (i : Z) s : Result RegionSearch :=
  item ← vec_get items i;
  s ← (if kind_eqb (item_kind item) Kind.FileEnd then mret s else InsertBracketsBefore item i s);
  AdvanceOverItem item i s.

(** The corrections it appends. *)
Definition Solve items (region_end_token : Z) : Result (list BracketCorrection) :=
  s ← for_seq 0 (vec_size items) (solve_step items) InitialSearch;
  '(s, goals) ← CloseAtRegionEnd (vec_size items) region_end_token s;
  match goals with
  | [] => mret (SolveNaive items)
  | _ => ReconstructCorrections (nodes s) goals items region_end_token
  end.

Definition SolveRegionCostBased items (region_end_token : Z) : Result (list BracketCorrection) :=
  if MaxRegionItemsForSearch <? vec_size items then mret (SolveNaive items)
  else Solve items region_end_token.

(** * The whole repair *)

Definition correction_lt (a b : BracketCorrection) : bool :=
  if negb (diagnostic_token_index a =? diagnostic_token_index b)
  then diagnostic_token_index a <? diagnostic_token_index b
  else fix_token_index a <? fix_token_index b.

(** The body of the loop over the regions, [\[start, stop)]. *)
Definition fix_region (tokens : list Token) items (bounds : Z * Z)
    (corrections : list BracketCorrection) : Result (list BracketCorrection) :=
  let '(start, stop) := bounds in
  if stop <=? start then mret corrections
  else
    let region := take (Z.to_nat (stop - start)) (drop (Z.to_nat start) items) in
    if RegionIsBalanced region then mret corrections
    else
      region_end_token ←
        (if stop <? vec_size items then
           item ← vec_get items stop; mret (bracket_token_index (item_token item))
         else
           back ← vec_get tokens (vec_size tokens - 1); mret (bracket_token_index back));
      new ← SolveRegionCostBased region region_end_token;
      mret (corrections ++ new).

Definition FixMismatchedBrackets (tokens : list Token) : Result (list BracketCorrection) :=
  match tokens with
  | [] => mret []
  | _ =>
      analysis ← AnalyzeTokens tokens;
      is_clean_range ← MarkCleanRanges tokens analysis;
      items ← BuildItems tokens analysis is_clean_range;
      boundaries ← FindRegionBoundaries tokens items;
      corrections ← for_each (zip boundaries (drop 1 boundaries)) (fix_region tokens items) [];
      mret (stable_sort correction_lt corrections)
  end.
