(* ===== verification/BracketStacks.v ===== *)
(** The store of open-bracket stacks ([OpenStackStore] of
    [mismatched_brackets.cpp]) implements lists: an id stands for one list of
    brackets, equal lists have one id, and what a cell caches is what a walk
    over the list would find. *)

From S2P Require Import Prelude TokenKinds BracketTokens BracketRules BracketAnalysis BracketSearch.

Implicit Types (stacks : OpenStackStore) (id : Z) (key : OpenBracketKey).

(** The stack [id] names, innermost bracket first. *)
Inductive denotes stacks : Z → list OpenBracketKey → Prop :=
  | denotes_empty : denotes stacks EmptyStackId []
  | denotes_cell id c l :
      vec_get (cells stacks) id = Ok c → denotes stacks (cell_parent c) l →
      denotes stacks id (open_key (cell_entry c) :: l).

(** The kinds of a stack, as bits. *)
Definition kind_bits (l : list OpenBracketKey) : Z :=
  foldr (λ key bits, bits .| KindBit (open_kind key)) 0 l.

(** The cached answers of a cell are those for its stack. *)
Definition cell_ok stacks (id : Z) (c : Cell) : Prop :=
  cell_parent c < id ∧ ∃ l, denotes stacks (cell_parent c) l ∧
    let l := open_key (cell_entry c) :: l in
    cell_depth c = vec_size l ∧ cell_open_kinds c = kind_bits l ∧
    cell_has_synthetic c = existsb is_synthetic l.

Record stacks_ok stacks : Prop := {
  stacks_cells id c : vec_get (cells stacks) id = Ok c → cell_ok stacks id c;
  stacks_interned parent key id :
    map_lookup (intern stacks) (parent, key) = Some id ↔
    ∃ c, vec_get (cells stacks) id = Ok c ∧ cell_parent c = parent ∧
      open_key (cell_entry c) = key;
}.

Lemma EmptyStacks_ok : stacks_ok EmptyStacks.
Proof.
  split.
  - intros id c Hc%vec_get_lt. change (vec_size _) with 0 in Hc. lia.
  - intros parent key id. cbn. split; [done|]. intros (c & Hc%vec_get_lt & _).
    change (vec_size _) with 0 in Hc. lia.
Qed.

Lemma no_empty_cell stacks c : vec_get (cells stacks) EmptyStackId ≠ Ok c.
Proof. done. Qed.

Lemma denotes_det stacks id l l' : denotes stacks id l → denotes stacks id l' → l = l'.
Proof.
  intros H. revert l'. induction H as [|id c l Hc _ IH]; intros l' H'.
  - inversion H' as [|id c l'' Hc]; subst; [done|]. by apply no_empty_cell in Hc.
  - inversion H' as [|id' c' l'' Hc' Hl']; subst.
    + by apply no_empty_cell in Hc.
    + rewrite Hc in Hc'. injection Hc' as <-. by rewrite (IH _ Hl').
Qed.

Lemma denotes_inv stacks id key l :
  denotes stacks id (key :: l) → IsEmpty id = false ∧ ∃ c, vec_get (cells stacks) id = Ok c ∧
    open_key (cell_entry c) = key ∧ denotes stacks (cell_parent c) l.
Proof.
  inversion 1 as [|id' c l' Hc Hl]; subst. split; [|by exists c].
  apply vec_get_lt in Hc. apply Z.eqb_neq. unfold EmptyStackId. lia.
Qed.

Lemma denotes_nil stacks id l : denotes stacks id l → IsEmpty id = bool_decide (length l = 0%nat).
Proof.
  destruct l as [|key l]; [by inversion 1|]. by intros [-> _]%denotes_inv.
Qed.

(** ** Reading *)

Section read.
Context (stacks : OpenStackStore) (Hs : stacks_ok stacks).

Lemma Top_succeeds id key l :
  denotes stacks id (key :: l) → succeeds (Top_ stacks id) (λ entry, open_key entry = key).
Proof using.
  intros (_ & c & Hc & Hk & _)%denotes_inv. unfold Top_. rewrite Hc. by eexists.
Qed.

Lemma Pop_succeeds id key l :
  denotes stacks id (key :: l) → succeeds (Pop stacks id) (λ below, denotes stacks below l).
Proof using.
  intros (_ & c & Hc & _ & Hl)%denotes_inv. unfold Pop. rewrite Hc. by eexists.
Qed.

Lemma cell_of id key l :
  denotes stacks id (key :: l) → ∃ c, vec_get (cells stacks) id = Ok c ∧
    cell_depth c = vec_size (key :: l) ∧ cell_open_kinds c = kind_bits (key :: l) ∧
    cell_has_synthetic c = existsb is_synthetic (key :: l).
Proof using Hs.
  intros (_ & c & Hc & <- & Hl)%denotes_inv. exists c. split; [done|].
  destruct (stacks_cells _ Hs _ _ Hc) as (_ & l' & Hl' & H).
  by rewrite (denotes_det _ _ _ _ Hl Hl').
Qed.

Lemma Depth_denotes id l : denotes stacks id l → Depth stacks id = Ok (vec_size l).
Proof using Hs.
  intros Hl. unfold Depth. rewrite (denotes_nil _ _ _ Hl). destruct l as [|key l]; [done|].
  destruct (cell_of _ _ _ Hl) as (c & -> & Hd & _). cbn. by rewrite Hd.
Qed.

Lemma HasSynthetic_denotes id l :
  denotes stacks id l → HasSynthetic stacks id = Ok (existsb is_synthetic l).
Proof using Hs.
  intros Hl. unfold HasSynthetic. rewrite (denotes_nil _ _ _ Hl). destruct l as [|key l]; [done|].
  destruct (cell_of _ _ _ Hl) as (c & -> & _ & _ & Hd). cbn. by rewrite Hd.
Qed.

Lemma OpenKinds_denotes id l : denotes stacks id l → OpenKinds stacks id = Ok (kind_bits l).
Proof using Hs.
  intros Hl. unfold OpenKinds. rewrite (denotes_nil _ _ _ Hl). destruct l as [|key l]; [done|].
  destruct (cell_of _ _ _ Hl) as (c & -> & _ & Hd & _). cbn. by rewrite Hd.
Qed.

Lemma KindBit_testbit k k' :
  KindIndex k < 8 → KindIndex k' < 8 → Z.testbit (KindBit k) (KindIndex k') = kind_eqb k k'.
Proof using. unfold kind_eqb. destruct k, k'; cbn; (reflexivity || lia). Qed.

Lemma kind_bits_testbit k l :
  KindIndex k < 8 → Forall (λ key, KindIndex (open_kind key) < 8) l →
  Z.testbit (kind_bits l) (KindIndex k) = existsb (λ key, kind_eqb (open_kind key) k) l.
Proof using.
  intros Hk. induction 1 as [|key l Hkey _ IH]; cbn; [apply Z.testbit_0_l|].
  rewrite Z.lor_spec, KindBit_testbit by done. rewrite orb_comm. f_equal. exact IH.
Qed.

Lemma land_KindBit x k : KindIndex k < 8 → negb (x .& KindBit k =? 0) = Z.testbit x (KindIndex k).
Proof using.
  intros Hk. assert (KindBit k = Bit (KindIndex k)) as ->.
  { unfold KindBit, Bit. destruct k; (reflexivity || (cbn in Hk; lia)). }
  pose proof (KindIndex_range k) as Hr. unfold Bit. rewrite Z.shiftl_1_l.
  destruct (Z.testbit x (KindIndex k)) eqn:E.
  - apply negb_true_iff, Z.eqb_neq. intros H0.
    assert (Z.testbit (x .& 2 ^ KindIndex k) (KindIndex k) = false) as Hf by (rewrite H0; apply Z.testbit_0_l).
    rewrite Z.land_spec, E, Z.pow2_bits_true in Hf by lia. done.
  - apply negb_false_iff, Z.eqb_eq. apply Z.bits_inj'. intros i Hi.
    rewrite Z.land_spec, Z.testbit_0_l, Z.pow2_bits_eqb by lia.
    destruct (Z.eqb_spec (KindIndex k) i) as [<-|]; [by rewrite E|apply andb_false_r].
Qed.

Lemma Contains_denotes id l k :
  denotes stacks id l → KindIndex k < 8 → Forall (λ key, KindIndex (open_kind key) < 8) l →
  Contains stacks id k = Ok (existsb (λ key, kind_eqb (open_kind key) k) l).
Proof using Hs.
  intros Hl Hk HF. unfold Contains. rewrite (denotes_nil _ _ _ Hl). destruct l as [|key l]; [done|].
  destruct (cell_of _ _ _ Hl) as (c & -> & _ & Hd & _). cbn [mbind Result_bind].
  rewrite Hd, land_KindBit by done. unfold mret, Result_ret. f_equal. by apply kind_bits_testbit.
Qed.

(** Whatever the kinds, the answer is some boolean. *)
Lemma Contains_succeeds id l k : denotes stacks id l → succeeds (Contains stacks id k) (λ _, True).
Proof using Hs.
  intros Hl. unfold Contains. rewrite (denotes_nil _ _ _ Hl). destruct l as [|key l]; [by eexists|].
  destruct (cell_of _ _ _ Hl) as (c & -> & _). by eexists.
Qed.

(** Equal stacks have one id. *)
Lemma denotes_inj id id' l : denotes stacks id l → denotes stacks id' l → id = id'.
Proof using Hs.
  intros H. revert id'. induction H as [|id c l Hc _ IH]; intros id' H'.
  - by inversion H'.
  - destruct (denotes_inv _ _ _ _ H') as (_ & c' & Hc' & Hk & Hl').
    assert (cell_parent c' = cell_parent c) as Hp by (symmetry; by apply IH).
    assert (map_lookup (intern stacks) (cell_parent c, open_key (cell_entry c)) = Some id) as E1
      by (apply (stacks_interned _ Hs); eauto).
    assert (map_lookup (intern stacks) (cell_parent c, open_key (cell_entry c)) = Some id') as E2
      by (apply (stacks_interned _ Hs); eauto).
    congruence.
Qed.

Lemma denotes_below id l : denotes stacks id l → id < vec_size (cells stacks).
Proof using.
  inversion 1 as [|id' c l' Hc Hl]; [|apply vec_get_lt in Hc; lia].
  unfold EmptyStackId. pose proof (vec_size_nonneg (cells stacks)). lia.
Qed.

(** A stack is no deeper than the store is long. *)
Lemma denotes_length id l : denotes stacks id l → vec_size l ≤ id + 1.
Proof using Hs.
  induction 1 as [|id c l Hc _ IH]; [done|]. rewrite vec_size_cons.
  destruct (stacks_cells _ Hs _ _ Hc) as (? & _). lia.
Qed.
End read.

(** ** Pushing *)

Lemma map_lookup_app {K V} `{EqDecision K} (m m' : list (K * V)) k :
  map_lookup (m ++ m') k =
    match map_lookup m k with Some v => Some v | None => map_lookup m' k end.
Proof. induction m as [|[k' v] m IH]; [done|]. cbn. by case_decide. Qed.

(** A store with more cells. *)
Definition extends stacks stacks' : Prop :=
  ∀ id l, denotes stacks id l → denotes stacks' id l.

#[export] Instance extends_preorder : PreOrder extends.
Proof. split; [by intros s id l|]. intros s1 s2 s3 H12 H23 id l H. by apply H23, H12. Qed.

Lemma denotes_app_cells stacks c id l m :
  denotes stacks id l → denotes {| cells := cells stacks ++ [c]; intern := m |} id l.
Proof.
  induction 1 as [|id c' l Hc _ IH]; [constructor|]. 
  apply (denotes_cell {| cells := cells stacks ++ [c]; intern := m |} id c'); [|done].
  by apply vec_get_app_l.
Qed.

Lemma Push_succeeds stacks id l entry :
  stacks_ok stacks → denotes stacks id l →
  succeeds (Push stacks id entry) (λ r, stacks_ok r.2 ∧ extends stacks r.2 ∧
    denotes r.2 r.1 (open_key entry :: l)).
Proof.
  intros Hs Hl. unfold Push.
  destruct (map_lookup (intern stacks) (id, open_key entry)) as [id'|] eqn:E.
  { apply succeeds_ret. cbn. split; [done|]. split; [done|].
    apply (stacks_interned _ Hs) in E as (c & Hc & Hp & <-). constructor; [done|by rewrite Hp]. }
  rewrite (Depth_denotes _ Hs _ _ Hl), (OpenKinds_denotes _ Hs _ _ Hl), (HasSynthetic_denotes _ Hs _ _ Hl).
  cbn [mbind Result_bind]. apply succeeds_ret. cbn [fst snd].
  set (c := {| cell_parent := id |}). set (m := intern stacks ++ _). set (stacks' := {| cells := _ |}).
  assert (extends stacks stacks') as Hext by (intros id' l' H'; by apply denotes_app_cells).
  pose proof (vec_get_app_last (cells stacks) c) as Hnew.
  split; [|split; [done|]; by apply (denotes_cell stacks' _ c); [|apply Hext]].
  split.
  - intros id' c' Hc'. apply vec_get_snoc_inv in Hc' as [Hc'|[-> ->]].
    + destruct (stacks_cells _ Hs _ _ Hc') as (Hlt & l' & Hl' & H). split; [done|].
      exists l'. split; [by apply Hext|done].
    + split; [by eapply denotes_below|]. exists l. split; [by apply Hext|]. cbn.
      rewrite vec_size_cons. split_and!; [done|done|]. apply orb_comm.
  - intros parent key id'. cbn. unfold m. rewrite map_lookup_app.
    destruct (map_lookup (intern stacks) (parent, key)) as [x|] eqn:Ex.
    + pose proof Ex as (c' & Hc' & Hp & Hk)%(stacks_interned _ Hs). split.
      * intros [= <-]. exists c'. split; [by apply vec_get_app_l|done].
      * intros (c2 & Hc2 & Hp2 & Hk2). apply vec_get_snoc_inv in Hc2 as [Hc2|[-> ->]].
        -- assert (map_lookup (intern stacks) (parent, key) = Some id') as E2
             by (apply (stacks_interned _ Hs); eauto).
           congruence.
        -- cbn in Hp2, Hk2. congruence.
    + cbn. split.
      * case_decide as Hd; [|done]. intros [= <-]. injection Hd as -> ->. by exists c.
      * intros (c2 & Hc2 & Hp2 & Hk2). apply vec_get_snoc_inv in Hc2 as [Hc2|[-> ->]].
        -- assert (map_lookup (intern stacks) (parent, key) = Some id') as E2
             by (apply (stacks_interned _ Hs); eauto).
           congruence.
        -- cbn in Hp2, Hk2. subst. by rewrite decide_True.
Qed.

(** * The theorem *)

(** C14. [OpenStackStore] implements immutable stacks. Whatever has been pushed on
    it: pushing a bracket on the id of a stack gives an id of the longer stack
    and keeps the meaning of every other id; equal stacks have equal ids, so
    that the search may compare stacks by their ids; and the top, the rest, the
    depth, the open kinds and the presence of an inserted bracket are those of
    the stack, though they are read from one cell. *)
Theorem open_stack_store_refines stacks :
  stacks_ok stacks →
  (∀ id l entry, denotes stacks id l → ∃ id' stacks', Push stacks id entry = Ok (id', stacks') ∧
     stacks_ok stacks' ∧ denotes stacks' id' (open_key entry :: l) ∧
     ∀ i m, denotes stacks i m → denotes stacks' i m) ∧
  (∀ id id' l l', denotes stacks id l → denotes stacks id' l' → id = id' ↔ l = l') ∧
  (∀ id l, denotes stacks id l →
     IsEmpty id = bool_decide (l = []) ∧ Depth stacks id = Ok (Z.of_nat (length l)) ∧
     HasSynthetic stacks id = Ok (existsb is_synthetic l) ∧
     ∀ k, IsOpeningBracket k = true → Forall (λ key, IsOpeningBracket (open_kind key) = true) l →
       Contains stacks id k = Ok (existsb (λ key, kind_eqb (open_kind key) k) l)) ∧
  (∀ id key l, denotes stacks id (key :: l) →
     (∃ entry, Top_ stacks id = Ok entry ∧ open_key entry = key) ∧
     ∃ id', Pop stacks id = Ok id' ∧ denotes stacks id' l).
Proof.
  intros Hs. split; [|split; [|split]].
  - intros id l entry Hl. destruct (Push_succeeds _ _ _ entry Hs Hl) as ([id' stacks'] & E & H1 & H2 & H3).
    by exists id', stacks'.
  - intros id id' l l' Hl Hl'. split; intros ->.
    + by eapply denotes_det.
    + by apply (denotes_inj stacks Hs id id' l').
  - intros id l Hl. split_and!.
    + rewrite (denotes_nil _ _ _ Hl). by destruct l.
    + by apply Depth_denotes.
    + by apply HasSynthetic_denotes.
    + intros k Hk HF. assert (∀ k, IsOpeningBracket k = true → KindIndex k < 8) as Hlt by (by intros []).
      apply (Contains_denotes _ Hs); [done|by apply Hlt|]. eapply Forall_impl; [exact HF|].
      intros key. apply Hlt.
  - intros id key l Hl. split.
    + by apply (Top_succeeds stacks id key l).
    + by apply (Pop_succeeds stacks id key l).
Qed.

(** An open bracket, at a token. *)
Definition sample_entry (i : Z) (k : Kind.t) : OpenBracketInfo :=
  {| open_key :=
       {| open_token_index := i; insertion_token_index := NoTokenIndex; open_token_pos := i;
          open_line := 0; open_line_indent := 1; open_header_indent := 1; open_kind := k;
          is_synthetic := false; open_is_struct_brace := false; is_call_paren := false |};
     open_rule_name := EmptyString |}.

Lemma open_stack_store_refines_witness :
  ∃ id1 stacks1 id2 stacks2,
    Push EmptyStacks EmptyStackId (sample_entry 1 Kind.OpenParen) = Ok (id1, stacks1) ∧
    Push stacks1 id1 (sample_entry 2 Kind.OpenCurlyBrace) = Ok (id2, stacks2) ∧
    Depth stacks2 id2 = Ok 2 ∧ Contains stacks2 id2 Kind.OpenParen = Ok true ∧
    Pop stacks2 id2 = Ok id1.
Proof.
  destruct (open_stack_store_refines _ EmptyStacks_ok) as [H _].
  destruct (H EmptyStackId [] (sample_entry 1 Kind.OpenParen)) as (id1 & stacks1 & E1 & H1 & D1 & _);
    [constructor|].
  destruct (open_stack_store_refines _ H1) as [H' _].
  destruct (H' id1 _ (sample_entry 2 Kind.OpenCurlyBrace) D1) as (id2 & stacks2 & E2 & H2 & D2 & Hext).
  exists id1, stacks1, id2, stacks2. split; [exact E1|]. split; [exact E2|].
  destruct (open_stack_store_refines _ H2) as (_ & Hinj & Hread & Htop).
  destruct (Hread _ _ D2) as (_ & Hd & _ & Hc). split; [exact Hd|]. split; [apply Hc; by repeat constructor|].
  destruct (Htop _ _ _ D2) as (_ & id' & E & D'). rewrite E. f_equal.
  apply (Hinj _ _ _ _ D' (Hext _ _ D1)). reflexivity.
Defined.
