(* ===== verification/LexRecovery.v ===== *)
(** Recovery from mismatched brackets ([toolchain/lex/lex.cpp]): what is handed
    to the search for a repair, and [Lexer::ErrorRecoveryBuffer], which merges
    the repair into the token stream and renumbers it. *)

From S2P Require Import Prelude TokenKinds Text APInts CanonicalStores LexDiagnostics Tokens.
From S2P Require Import TokenText LexState BracketTokens.
Import TokenizedBuffer.

Implicit Types (b : TokenizedBuffer.t) (tok : Z).

(** * The tokens of a repair *)

Definition IsLeafTokenKind (k : TokenKind.t) : bool :=
  TokenKind.IsOneOf k
    [TokenKind.Identifier; TokenKind.IntLiteral; TokenKind.RealLiteral;
     TokenKind.StringLiteral; TokenKind.CharLiteral; TokenKind.IntTypeLiteral;
     TokenKind.UnsignedIntTypeLiteral; TokenKind.FloatTypeLiteral; TokenKind.True_;
     TokenKind.False_; TokenKind.SelfValueIdentifier; TokenKind.SelfTypeIdentifier;
     TokenKind.Underscore; TokenKind.Bool; TokenKind.Type_; TokenKind.Auto;
     TokenKind.Array; TokenKind.Str; TokenKind.Char; TokenKind.Core; TokenKind.Cpp].

(** The [CARBON_DECL_INTRODUCER_TOKEN]s and the keywords listed with them. *)
Definition IsStatementIntroducer (k : TokenKind.t) : bool :=
  TokenKind.IsOneOf k
    [TokenKind.Adapt; TokenKind.Alias; TokenKind.Base; TokenKind.Choice; TokenKind.Class;
     TokenKind.Constraint; TokenKind.Export; TokenKind.Fn; TokenKind.Impl;
     TokenKind.Import; TokenKind.Interface; TokenKind.Let; TokenKind.Library;
     TokenKind.MatchFirst; TokenKind.Namespace; TokenKind.Package; TokenKind.Require;
     TokenKind.Union; TokenKind.Var;
     TokenKind.Abstract; TokenKind.Case; TokenKind.Continue; TokenKind.Default;
     TokenKind.Eval; TokenKind.Extend; TokenKind.Final; TokenKind.Friend;
     TokenKind.Inline; TokenKind.MustEval; TokenKind.Observe; TokenKind.Overload;
     TokenKind.Override; TokenKind.Private; TokenKind.Protected; TokenKind.Return;
     TokenKind.Returned; TokenKind.Static; TokenKind.Virtual].

(** The [switch] on the kind: its bracket kind and whether a bracket must follow
    it; [FileStart] is skipped. *)
Definition ClassifyBracketToken (k : TokenKind.t) : option (BracketTokenKind.t * bool) :=
  match k with
  | TokenKind.OpenParen => Some (BracketTokenKind.OpenParen, false)
  | TokenKind.OpenCurlyBrace => Some (BracketTokenKind.OpenCurlyBrace, false)
  | TokenKind.OpenSquareBracket => Some (BracketTokenKind.OpenSquareBracket, false)
  | TokenKind.CloseParen => Some (BracketTokenKind.CloseParen, false)
  | TokenKind.CloseCurlyBrace => Some (BracketTokenKind.CloseCurlyBrace, false)
  | TokenKind.CloseSquareBracket => Some (BracketTokenKind.CloseSquareBracket, false)
  | TokenKind.Semi => Some (BracketTokenKind.Semi, false)
  | TokenKind.Comma => Some (BracketTokenKind.Comma, false)
  | TokenKind.Period => Some (BracketTokenKind.Period, false)
  | TokenKind.If | TokenKind.While | TokenKind.For | TokenKind.Match =>
      Some (BracketTokenKind.StatementIntroducer, true)
  | TokenKind.Else => Some (BracketTokenKind.StatementIntroducer, false)
  | TokenKind.Forall => Some (BracketTokenKind.Other, true)
  | TokenKind.Equal => Some (BracketTokenKind.Assignment, false)
  | TokenKind.As => Some (BracketTokenKind.As, false)
  | TokenKind.MinusGreater | TokenKind.Where =>
      Some (BracketTokenKind.StructuralOp, false)
  | TokenKind.Ref | TokenKind.Unused | TokenKind.Template | TokenKind.Const =>
      Some (BracketTokenKind.ModifierKeyword, false)
  | TokenKind.EqualEqual | TokenKind.ExclaimEqual | TokenKind.Less | TokenKind.LessEqual
  | TokenKind.Greater | TokenKind.GreaterEqual | TokenKind.And | TokenKind.Or =>
      Some (BracketTokenKind.ComparisonOp, false)
  | TokenKind.FileStart => None
  | TokenKind.FileEnd => Some (BracketTokenKind.FileEnd, false)
  | _ =>
      if IsStatementIntroducer k then Some (BracketTokenKind.StatementIntroducer, false)
      else if IsLeafTokenKind k then Some (BracketTokenKind.Leaf, false)
      else Some (BracketTokenKind.Other, false)
  end.

(** The kind of the token an iterator is at, unless it is at the end. *)
Definition KindBeforeEnd b tok : Result (option TokenKind.t) :=
  if tok <? tokens_end b then k ← GetKind b tok; mret (Some k) else mret None.

Definition kind_is (o : option TokenKind.t) (k : TokenKind.t) : bool :=
  match o with Some k' => TokenKind.eqb k' k | None => false end.

(** One round of the loop, for a token whose kind is not skipped. *)
Definition DescribeBracketToken b tok (k : TokenKind.t) (bracket_kind : BracketTokenKind.t)
    (paren_keyword : bool) (line : Z) (wide : bool) : Result MismatchedBracketToken :=
  next ← KindBeforeEnd b (tok + 1);
  line_indent ← (if TokenKind.eqb k TokenKind.FileEnd then mret 0
                 else GetIndentColumnNumber b line);
  end_of_line ←
    (if tok + 1 <? tokens_end b then
       next_line ← GetLine b (tok + 1); mret (negb (next_line =? line))
     else mret true);
  struct_brace ←
    (if negb (TokenKind.eqb k TokenKind.OpenCurlyBrace) then mret false
     else if kind_is next TokenKind.Period || kind_is next TokenKind.CloseCurlyBrace
     then mret true
     else if kind_is next TokenKind.Identifier then
       next2 ← KindBeforeEnd b (tok + 2); mret (kind_is next2 TokenKind.Colon)
     else mret false);
  leading ← HasLeadingWhitespace b tok;
  mret
    {| bracket_token_index := tok; bracket_kind := bracket_kind; bracket_line := line;
       line_indent := line_indent; is_at_end_of_line := end_of_line;
       is_struct_brace := struct_brace; is_paren_keyword := paren_keyword;
       is_else_keyword :=
         TokenKind.eqb k TokenKind.Else &&
         (kind_is next TokenKind.OpenCurlyBrace || kind_is next TokenKind.If);
       bracket_has_leading_space := leading; has_wide_leading_space := wide |}.

(** The loop over the [n] tokens from [tok], with where the previous one ended
    and its line. *)
Fixpoint collect_bracket_tokens b (n : nat) tok (prev_end_byte prev_line : Z)
    : Result (list MismatchedBracketToken) :=
  match n with
  | O => mret []
  | S n =>
      k ← GetKind b tok;
      offset ← GetByteOffset b tok;
      line ← GetLine b tok;
      text ← GetTokenText b tok;
      let wide := (0 <=? prev_end_byte) && (line =? prev_line) &&
                  (2 <=? offset - prev_end_byte) in
      let rest := collect_bracket_tokens b n (tok + 1) (offset + vec_size text) line in
      match ClassifyBracketToken k with
      | None => rest
      | Some (bracket_kind, paren_keyword) =>
          t ← DescribeBracketToken b tok k bracket_kind paren_keyword line wide;
          ts ← rest;
          mret (t :: ts)
      end
  end.

Definition CollectMismatchedBracketTokens b : Result (list MismatchedBracketToken) :=
  collect_bracket_tokens b (Z.to_nat (tokens_end b)) 0 (-1) (-1).

(** * Where a bracket would be written *)

Definition TokenStartPosition b tok : Result Z := GetByteOffset b tok.

Definition TokenEndPosition b tok : Result Z :=
  p ← TokenStartPosition b tok;
  text ← GetTokenText b tok;
  mret (p + vec_size text).

(** [skip_spaces(from, limit)], up to the end of the source. *)
Definition is_space_char (c : char) : bool := char_eqb c " ".
Definition skip_spaces b (from limit : Z) : Z :=
  let spaces :=
    take_while is_space_char (drop (Z.to_nat from) (StringRef.chars (source b))) in
  from + Z.max 0 (Z.min limit (vec_size spaces)).
Definition NoLimit : Z := 2 ^ 31 - 1.

Definition BracketInsertionPosition b (c : BracketCorrection) : Result Z :=
  let insert_after :=
    if bool_decide (fix_action c = InsertAfter) then fix_token_index c
    else fix_token_index c - 1 in
  if insert_after =? NoneToken then TokenStartPosition b (fix_token_index c)
  else
    pos ← TokenEndPosition b insert_after;
    if TokenKind.eqb (fix_token_kind c) TokenKind.CloseCurlyBrace then
      let line_end := skip_spaces b pos NoLimit in
      match StringRef.chars (source b) !! Z.to_nat line_end with
      | Some newline =>
          if IsVerticalWhitespace newline then
            open_line ← GetLine b (diagnostic_token_index c);
            indent ← GetIndentColumnNumber b open_line;
            mret (skip_spaces b (line_end + 1) (indent - 1))
          else mret pos
      | None => mret pos
      end
    else if TokenKind.is_opening_symbol (fix_token_kind c) then mret (skip_spaces b pos NoLimit)
    else mret pos.

(** * [ErrorRecoveryBuffer] *)

Record Insertion := {
  anchor : Z;
  is_after : bool;
  insertion_order : Z;
  insertion_info : TokenInfo;
}.

(** The members, but for the buffer, which every method takes and returns. *)
Record ErrorRecoveryBuffer := {
  insertions : list Insertion;
  any_error_tokens : bool;
  inserted_token_index : list Z;
  new_token_index : list Z;
}.

Implicit Types (fixes : ErrorRecoveryBuffer) (i j : Insertion).

Definition NoFixes : ErrorRecoveryBuffer :=
  {| insertions := []; any_error_tokens := false; inserted_token_index := [];
     new_token_index := [] |}.

Definition fixes_empty fixes : bool :=
  bool_decide (length (insertions fixes) = 0%nat) && negb (any_error_tokens fixes).

Definition target i : Z := if is_after i then anchor i + 1 else anchor i.

Definition insertion_is_closing i : bool := TokenKind.is_closing_symbol (kind (insertion_info i)).

(** [operator<]. *)
Definition insertion_lt i j : bool :=
  if negb (target i =? target j) then target i <? target j
  else if negb (Bool.eqb (is_after i) (is_after j)) then is_after i
  else if negb (Bool.eqb (insertion_is_closing i) (insertion_is_closing j))
  then insertion_is_closing i
  else if is_after i then insertion_order i <? insertion_order j
  else insertion_order j <? insertion_order i.

(** [llvm::sort]: the order is total, so any sorting algorithm gives this. *)
Fixpoint insert_sorted i (is' : list Insertion) : list Insertion :=
  match is' with
  | [] => [i]
  | j :: is'' => if insertion_lt i j then i :: is' else j :: insert_sorted i is''
  end.
Definition sort_insertions (is' : list Insertion) : list Insertion :=
  foldr insert_sorted [] is'.

Section recovery.
Context {Build : LexBuild}.

Definition AddInsertion fixes b (anchor : Z) (k : TokenKind.t) (is_after : bool)
    : Result (Z * ErrorRecoveryBuffer) :=
  require (0 <=? anchor) ;;
  require (anchor <? size b) ;;
  require (is_after || (0 <? anchor)) ;;
  r ←
    (if negb is_after then
       leading ← HasLeadingWhitespace b anchor;
       offset ← TokenEndPosition b (anchor - 1);
       mret (leading, offset)
     else
       offset ← TokenEndPosition b anchor;
       leading ← (if anchor + 1 <? size b then HasLeadingWhitespace b (anchor + 1)
                  else mret false);
       mret (leading, offset));
  let order := vec_size (insertions fixes) in
  mret (order,
    {| insertions := insertions fixes ++
         [{| anchor := anchor; is_after := is_after; insertion_order := order;
             insertion_info := MakeTokenInfo k r.1 unset_payload r.2 |}];
       any_error_tokens := any_error_tokens fixes;
       inserted_token_index := inserted_token_index fixes;
       new_token_index := new_token_index fixes |}).
End recovery.

(** [ReplaceWithError], which changes the buffer at once. *)
Definition replace_with_error fixes b tok : Result (ErrorRecoveryBuffer * TokenizedBuffer.t) :=
  info ← vec_get (token_infos b) tok;
  text ← GetTokenText b tok;
  mret ({| insertions := insertions fixes; any_error_tokens := true;
           inserted_token_index := inserted_token_index fixes;
           new_token_index := new_token_index fixes |},
        with_token_infos (vec_set (token_infos b) tok (AsError (vec_size text) info)) b).

(** * [Apply] *)

(** The locals of [Apply]'s loops: the buffer being rebuilt and the two maps. *)
Record Merge := { merged : TokenizedBuffer.t; inserted_at : list Z; moved_to : list Z }.

(** The insertions [p] holds of at the front of a list, and the others. *)
Fixpoint span {A} (p : A → bool) (l : list A) : list A * list A :=
  match l with
  | [] => ([], [])
  | x :: l' => if p x then let r := span p l' in (x :: r.1, r.2) else ([], l)
  end.

(** The inner loop: the insertions before one old token, the first of which
    takes its leading whitespace. *)
Fixpoint add_run (run : list Insertion) (leading : bool) (m : Merge) : Result Merge :=
  match run with
  | [] => mret m
  | i :: run =>
      let info := WithLeadingSpace leading (insertion_info i) in
      r ← ValueStoreAdd (token_infos (merged m)) info;
      let b := AddToken (merged m) info in
      add_run run false
        {| merged := with_recovery_tokens (vec_set (recovery_tokens b) r.1 true) b;
           inserted_at := vec_set (inserted_at m) (insertion_order i) r.1;
           moved_to := moved_to m |}
  end.

(** [token_infos_.Add(info)] for an old token. *)
Definition move_token (old_idx : Z) (info : TokenInfo) (m : Merge) : Result Merge :=
  r ← ValueStoreAdd (token_infos (merged m)) info;
  mret {| merged := with_token_infos r.2 (merged m); inserted_at := inserted_at m;
          moved_to := vec_set (moved_to m) old_idx r.1 |}.

(** The outer loop over the old tokens from [old_idx], with the insertions not
    yet applied. *)
Fixpoint merge_tokens (old_tokens : list TokenInfo) (old_idx : Z) (pending : list Insertion)
    (m : Merge) : Result Merge :=
  match old_tokens with
  | [] => mret m
  | info :: old_tokens =>
      let here := span (λ i, target i =? old_idx) pending in
      m ← match here.1 with
          | [] => move_token old_idx info m
          | run =>
              m ← add_run run (has_leading_space info) m;
              move_token old_idx (WithLeadingSpace false info) m
          end;
      merge_tokens old_tokens (old_idx + 1) here.2 m
  end.

(** [recovery_tokens_.resize(n)]. *)
Definition resize (n : nat) (l : list bool) : list bool := take n (l ++ replicate n false).

Definition Apply fixes b : Result (ErrorRecoveryBuffer * TokenizedBuffer.t) :=
  let sorted := sort_insertions (insertions fixes) in
  let old_tokens := token_infos b in
  let new_size := (length old_tokens + length sorted)%nat in
  m ← merge_tokens old_tokens 0 sorted
        {| merged := with_recovery_tokens (resize new_size (recovery_tokens b))
                       (with_token_infos [] b);
           inserted_at := replicate (length sorted) NoneToken;
           moved_to := replicate (length old_tokens) NoneToken |};
  mret ({| insertions := sorted; any_error_tokens := any_error_tokens fixes;
           inserted_token_index := inserted_at m; new_token_index := moved_to m |},
        merged m).

Definition GetNewTokenIndex fixes (old_index : Z) : Result Z :=
  match insertions fixes with
  | [] => mret old_index
  | _ =>
      require (negb (bool_decide (new_token_index fixes = []))) ;;
      vec_get (new_token_index fixes) old_index
  end.

Definition GetInsertedTokenIndex fixes (insertion_id : Z) : Result Z :=
  vec_get (inserted_token_index fixes) insertion_id.

(** * [FixTokenCrossReferences] *)

(** The loop over the [n] tokens from [tok], with the open groups. *)
Fixpoint fix_references b (n : nat) tok (open_groups : list Z) : Result TokenizedBuffer.t :=
  match n with
  | O => mret b
  | S n =>
      k ← GetKind b tok;
      if TokenKind.is_opening_symbol k then
        fix_references b n (tok + 1) (open_groups ++ [tok])
      else if TokenKind.is_closing_symbol k then
        match last open_groups with
        | None => Err CheckFailed
        | Some opening_token =>
            opening_info ← vec_get (token_infos b) opening_token;
            require (TokenKind.eqb k (TokenKind.closing_symbol (kind opening_info))) ;;
            closing_info ← vec_get (token_infos b) tok;
            opening_info ← set_closing_token_index tok opening_info;
            closing_info ← set_opening_token_index opening_token closing_info;
            let infos := vec_set (vec_set (token_infos b) opening_token opening_info)
                           tok closing_info in
            fix_references (with_token_infos infos b) n (tok + 1)
              (take (length open_groups - 1) open_groups)
        end
      else fix_references b n (tok + 1) open_groups
  end.

Definition FixTokenCrossReferences b : Result TokenizedBuffer.t :=
  fix_references b (Z.to_nat (tokens_end b)) 0 [].

(** * [DiagnoseAndFixMismatchedBrackets] *)

Section diagnose.
Context {Ops : APInts} {Build : LexBuild}.

#[local] Abbreviation Lexing := (Action LexerState LexDiagnostic).
Implicit Types (c : BracketCorrection).

(** [builder.Emit()], with the note if one was added. *)
Definition emit_correction c (loc : Z) (note : option Z) : Lexing unit :=
  tell {| lex_kind :=
            if bool_decide (diagnostic_kind c = UnmatchedOpening)
            then LexDiagnosticKind.UnmatchedOpening
            else LexDiagnosticKind.UnmatchedClosing;
          lex_loc := loc; lex_args := [];
          lex_notes :=
            match note with
            | Some p => [(LexDiagnosticKind.PossiblyMissingBracketHere, p,
                          [LexArgTokenKind (fix_token_kind c)])]
            | None => []
            end |}.

(** The fix one correction asks for: the recovery buffer, the insertion's id or
    -1, and the note's position. *)
Definition request_fix fixes c : Lexing (ErrorRecoveryBuffer * Z * option Z) :=
  let replace tok :=
    r ← lift_result (λ s, replace_with_error fixes (buffer s) tok);
    modify (set_buffer (λ _, r.2)) ;;
    mret (r.1, -1, None) in
  if bool_decide (fix_action c = ReplaceWithError) then replace (fix_token_index c)
  else if is_tied c then replace (diagnostic_token_index c)
  else
    pos ← lift_result (λ s, BracketInsertionPosition (buffer s) c);
    r ← lift_result (λ s,
      AddInsertion fixes (buffer s) (fix_token_index c) (fix_token_kind c)
        (negb (bool_decide (fix_action c = InsertBefore))));
    mret (r.2, r.1, Some pos).

Fixpoint request_fixes fixes (cs : list BracketCorrection) (ids : list Z)
    : Lexing (ErrorRecoveryBuffer * list Z) :=
  match cs with
  | [] => mret (fixes, ids)
  | c :: cs =>
      loc ← lift_result (λ s, TokenStartPosition (buffer s) (diagnostic_token_index c));
      '(fixes, id, note) ← request_fix fixes c;
      emit_correction c loc note ;;
      request_fixes fixes cs (ids ++ [id])
  end.

(** A correction against the token stream the caller sees. *)
Definition renumber fixes (insertion_id : Z) c : Result BracketCorrection :=
  diagnostic_token ← GetNewTokenIndex fixes (diagnostic_token_index c);
  fix_token ← (if 0 <=? insertion_id then GetInsertedTokenIndex fixes insertion_id
               else GetNewTokenIndex fixes (fix_token_index c));
  mret {| diagnostic_kind := diagnostic_kind c;
          diagnostic_token_index := diagnostic_token; fix_action := fix_action c;
          fix_token_index := fix_token; fix_token_kind := fix_token_kind c;
          is_tied := is_tied c |}.

Fixpoint renumber_all fixes (ids : list Z) (cs : list BracketCorrection)
    : Result (list BracketCorrection) :=
  match ids, cs with
  | id :: ids, c :: cs =>
      c ← renumber fixes id c; cs ← renumber_all fixes ids cs; mret (c :: cs)
  | _, _ => mret []
  end.

(** [FixMismatchedBrackets] is an argument; [want_corrections] is whether the
    options have a vector for the corrections, which are returned. *)
Definition DiagnoseAndFixMismatchedBrackets (FixMismatchedBrackets : BracketFixer)
    (want_corrections : bool) : Lexing (option (list BracketCorrection)) :=
  input_tokens ← lift_result (λ s, CollectMismatchedBracketTokens (buffer s));
  corrections ← lift_result (λ _, FixMismatchedBrackets input_tokens);
  '(fixes, ids) ← request_fixes NoFixes corrections [];
  modify (set_buffer (with_errors true)) ;;
  fixes ←
    (if fixes_empty fixes then mret fixes
     else
       r ← lift_result (λ s, Apply fixes (buffer s));
       b ← lift_result (λ _, FixTokenCrossReferences r.2);
       modify (set_buffer (λ _, b)) ;;
       mret r.1);
  if want_corrections then
    cs ← lift_result (λ _, renumber_all fixes ids corrections); mret (Some cs)
  else mret None.
End diagnose.
