(* ===== verification/Lexer.v ===== *)
(** [Lex::Lexer::Lex] ([toolchain/lex/lex.cpp]): the table that dispatches on
    the next byte, the loop over the source, and the checks at the end. *)

From S2P Require Import Prelude TokenKinds Text APInts IntStores Simd IdentifierScan.
From S2P Require Import LexDiagnostics StringLiterals Tokens TokenText LexState LexComments.
From S2P Require Import LexTokens BracketTokens LexRecovery.
Import TokenizedBuffer.

Local Open Scope char_scope.
Local Open Scope Z_scope.

(** * The tables *)

(** [table[c] = f], and a loop of such assignments. *)
Definition set_entry {A} (f : A) (c : char) (table : list A) : list A :=
  vec_set table (code c) f.
Definition set_entries {A} (f : A) (cs : list char) (table : list A) : list A :=
  fold_left (λ table c, set_entry f c table) cs table.

(** [(Spelling)[0]] for each of some kinds. *)
Definition first_char (k : TokenKind.t) : char := default "000" (head (spelling k)).
Definition first_chars (kinds : list TokenKind.t) : list char := first_char <$> kinds.

(** The bytes from [lo] to [hi]. *)
Definition chars_between (lo hi : Z) : list char :=
  ascii_of_nat <$> seq (Z.to_nat lo) (Z.to_nat (hi - lo + 1)).

Definition MakeOneCharTokenKindTable : list TokenKind.t :=
  fold_left (λ table k, set_entry k (first_char k) table)
    (kinds_of TokenKind.is_one_char_symbol) (replicate 256 TokenKind.Error).

Definition OneCharTokenKindTable : list TokenKind.t :=
  Eval vm_compute in MakeOneCharTokenKindTable.

(** The functions of the dispatch table. *)
Inductive DispatchFunction : Set :=
  | DispatchLexError | DispatchLexSymbolToken | DispatchLexKeywordOrIdentifier
  | DispatchLexHash | DispatchLexNumericLiteral | DispatchLexStringLiteral
  | DispatchLexOneCharSymbolToken | DispatchLexOpeningSymbolToken
  | DispatchLexClosingSymbolToken | DispatchLexHorizontalWhitespace
  | DispatchLexVerticalWhitespace | DispatchLexCR | DispatchLexCommentOrSlash.

(** [CARBON_ONE_CHAR_SYMBOL_TOKEN] without the grouping symbols. *)
Definition is_terminator_symbol (k : TokenKind.t) : bool :=
  TokenKind.is_one_char_symbol k && negb (TokenKind.is_grouping_symbol k).

Definition MakeDispatchTable : list DispatchFunction :=
  let table := replicate 256 DispatchLexError in
  let table := set_entries DispatchLexSymbolToken
                 (first_chars (kinds_of TokenKind.is_symbol)) table in
  let table := set_entries DispatchLexOneCharSymbolToken
                 (first_chars (kinds_of is_terminator_symbol)) table in
  let table := set_entries DispatchLexOpeningSymbolToken
                 (first_chars (kinds_of TokenKind.is_opening_symbol)) table in
  let table := set_entries DispatchLexClosingSymbolToken
                 (first_chars (kinds_of TokenKind.is_closing_symbol)) table in
  let table := set_entry DispatchLexCommentOrSlash "/" table in
  let table := set_entry DispatchLexKeywordOrIdentifier "_" table in
  let table := set_entry DispatchLexKeywordOrIdentifier "$" table in
  let table := set_entries DispatchLexKeywordOrIdentifier
                 (chars_between (code "a") (code "z")) table in
  let table := set_entries DispatchLexKeywordOrIdentifier
                 (chars_between (code "A") (code "Z")) table in
  let table := set_entries DispatchLexKeywordOrIdentifier (chars_between 0x80 0xFF) table in
  let table := set_entries DispatchLexNumericLiteral
                 (chars_between (code "0") (code "9")) table in
  let table := set_entry DispatchLexStringLiteral "039" table in
  let table := set_entry DispatchLexStringLiteral "034" table in
  let table := set_entry DispatchLexHash "#" table in
  let table := set_entry DispatchLexHorizontalWhitespace " " table in
  let table := set_entry DispatchLexHorizontalWhitespace "009" table in
  let table := set_entry DispatchLexVerticalWhitespace "010" table in
  set_entry DispatchLexCR "013" table.

Definition DispatchTable : list DispatchFunction := Eval vm_compute in MakeDispatchTable.

Definition dispatch_of (c : char) : DispatchFunction :=
  default DispatchLexError (DispatchTable !! Z.to_nat (code c)).
Definition one_char_kind (c : char) : TokenKind.t :=
  default TokenKind.Error (OneCharTokenKindTable !! Z.to_nat (code c)).

Section lexer.
Context {Ops : APInts} {Build : LexBuild} {Simd : X86Simd} {Utf : ConvertUTF}.

#[local] Abbreviation Lexing := (Action LexerState LexDiagnostic).
Implicit Types (source_text : StringRef.t) (position : Z).

(** * The loop *)

(** A dispatch function that must form a token. *)
Definition must_form (m : Lexing (bool * Z)) : Lexing Z :=
  '(result, position) ← m; check result ;; mret position.

(** What the table's entry for the byte at [position] does, up to the call of
    [DispatchNext]. *)
Definition Dispatch (f : DispatchFunction) source_text position : Lexing Z :=
  let with_kind (m : TokenKind.t → Lexing (bool * Z)) :=
    c ← lift_result (λ _, StringRef.at_ source_text position);
    must_form (m (one_char_kind c)) in
  match f with
  | DispatchLexError => must_form (LexError source_text position)
  | DispatchLexSymbolToken => must_form (LexSymbolToken source_text position)
  | DispatchLexKeywordOrIdentifier => must_form (LexKeywordOrIdentifier source_text position)
  | DispatchLexHash => must_form (LexHash source_text position)
  | DispatchLexNumericLiteral => must_form (LexNumericLiteral source_text position)
  | DispatchLexStringLiteral => must_form (LexStringLiteral source_text position)
  | DispatchLexOneCharSymbolToken =>
      with_kind (λ k, LexOneCharSymbolToken source_text k position)
  | DispatchLexOpeningSymbolToken =>
      with_kind (λ k, LexOpeningSymbolToken source_text k position)
  | DispatchLexClosingSymbolToken =>
      with_kind (λ k, LexClosingSymbolToken source_text k position)
  | DispatchLexHorizontalWhitespace => LexHorizontalWhitespace source_text position
  | DispatchLexVerticalWhitespace => LexVerticalWhitespace source_text
  | DispatchLexCR => LexCR source_text position
  | DispatchLexCommentOrSlash => LexCommentOrSlash source_text position
  end.

(** [DispatchNext], which the dispatch functions call in turn: a loop over the
    source. Every dispatch moves forward, so the length of the source bounds
    it. *)
Fixpoint DispatchNext (fuel : nat) source_text position : Lexing unit :=
  match fuel with
  | O => action_fail OutOfFuel
  | S fuel =>
      if position <? StringRef.size source_text then
        c ← lift_result (λ _, StringRef.at_ source_text position);
        position ← Dispatch (dispatch_of c) source_text position;
        DispatchNext fuel source_text position
      else
        rs ← gets dump_sem_ir_ranges;
        when (negb (bool_decide (length rs = 0%nat)))
          (EndDumpSemIRRangeIfIncomplete (StringRef.end_ source_text - 1)) ;;
        LexFileEnd source_text position
  end.

(** * The end of lexing *)

(** [TokenIndex::Max]. *)
Definition MaxTokens : Z := Z.shiftl 1 TokenIndexBits.

Definition Finalize (FixMismatchedBrackets : BracketFixer) (want_corrections : bool)
    : Lexing (option (list BracketCorrection)) :=
  mismatched ← gets has_mismatched_brackets;
  groups ← gets open_groups;
  corrections ←
    (if mismatched || negb (bool_decide (length groups = 0%nat)) then
       DiagnoseAndFixMismatchedBrackets FixMismatchedBrackets want_corrections
     else mret None);
  size ← gets (λ s, size (buffer s));
  when (MaxTokens <? size)
    (offset ← lift_result (λ s, GetByteOffset (buffer s) (MaxTokens - 1));
     LexEmit LexDiagnosticKind.TooManyTokens offset []) ;;
  mret corrections.

(** [Lexer::Lex], up to the call of [Finalize]: the tokens of the source. *)
Definition lex_source source_text : Lexing unit :=
  check (StringRef.size source_text <? 2 ^ 31 - 1) ;;
  MakeLines source_text ;;
  position ← LexFileStart source_text 0;
  DispatchNext (S (length (StringRef.chars source_text))) source_text position.

(** [Lexer::Lex], up to the setting of [has_errors_]. *)
Definition lex_body (FixMismatchedBrackets : BracketFixer) (want_corrections : bool)
    source_text : Lexing (option (list BracketCorrection)) :=
  lex_source source_text ;;
  Finalize FixMismatchedBrackets want_corrections.

(** [Lexer::Lex]: every diagnostic of the lexer is an error, and the consumer
    has seen one if there is any. *)
Definition Lex (FixMismatchedBrackets : BracketFixer) (want_corrections : bool)
    source_text (s : LexerState)
    : Result (option (list BracketCorrection) * LexerState * list LexDiagnostic) :=
  '(corrections, s, diagnostics) ← lex_body FixMismatchedBrackets want_corrections source_text s;
  let seen_error := negb (bool_decide (length diagnostics = 0%nat)) in
  mret (corrections,
        if seen_error then set_buffer (with_errors true) s else s, diagnostics).

End lexer.
