(* ===== verification/LexPieces.v ===== *)
(** What a lexed source is made of. First the rules for computations of the
    lexer that always return, and the line table [Lexer::MakeLines] builds, with
    how the line a position is on is found from the text before it. Then blanks,
    comments and the texts of the tokens, in order, and what it means for a
    token's record to spell a text, so that [TokenizedBuffer::GetTokenText]
    gives that text back. *)

From S2P Require Import Prelude TokenKinds Text APInts CanonicalStores IntStores.
From S2P Require Import LexDiagnostics NumericLiterals StringLiterals StringShape Tokens.
From S2P Require Import TokenText LexState LexComments LexTokens.
Import TokenizedBuffer.

(** * Computations that return

    [total m Q s]: run from [s], [m] returns, and [Q] holds of its value, the
    state after it and its diagnostics. *)
Section total.
Context {S : Type}.

Definition total {A} (m : Action S LexDiagnostic A)
    (Q : A → S → list LexDiagnostic → Prop) (s : S) : Prop :=
  ∃ a s' w, m s = Ok (a, s', w) ∧ Q a s' w.

Lemma total_ret {A} (a : A) (Q : A → S → list LexDiagnostic → Prop) s :
  Q a s [] → total (mret a) Q s.
Proof. intros H. by exists a, s, []. Qed.

Lemma total_bind {A B} (m : Action S LexDiagnostic A) (k : A → Action S LexDiagnostic B)
    (Q : B → S → list LexDiagnostic → Prop) s :
  total m (λ a s1 w1, total (k a) (λ b s2 w2, Q b s2 (w1 ++ w2)) s1) s →
  total (m ≫= k) Q s.
Proof.
  intros (a & s1 & w1 & E1 & b & s2 & w2 & E2 & H).
  exists b, s2, (w1 ++ w2). split; [by eapply bind_Ok|done].
Qed.

Lemma total_mono {A} (m : Action S LexDiagnostic A)
    (Q Q' : A → S → list LexDiagnostic → Prop) s :
  total m Q s → (∀ a s' w, Q a s' w → Q' a s' w) → total m Q' s.
Proof. intros (a & s' & w & E & H) HQ. exists a, s', w. auto. Qed.

Lemma total_gets {A} (f : S → A) (Q : A → S → list LexDiagnostic → Prop) s :
  Q (f s) s [] → total (gets f) Q s.
Proof. intros H. by eexists _, _, _. Qed.

Lemma total_modify f (Q : unit → S → list LexDiagnostic → Prop) s :
  Q tt (f s) [] → total (modify f) Q s.
Proof. intros H. by eexists _, _, _. Qed.

Lemma total_emit k loc args (Q : unit → S → list LexDiagnostic → Prop) s :
  (∀ d, Q tt s [d]) → total (LexEmit k loc args) Q s.
Proof. intros H. by eexists _, _, _. Qed.

Lemma total_check (b : bool) (Q : unit → S → list LexDiagnostic → Prop) s :
  b = true → Q tt s [] → total (check b) Q s.
Proof. intros -> H. by eexists _, _, _. Qed.

Lemma total_lift {A} (f : S → Result A) a (Q : A → S → list LexDiagnostic → Prop) s :
  f s = Ok a → Q a s [] → total (lift_result f) Q s.
Proof. intros E H. exists a, s, []. unfold lift_result. by rewrite E. Qed.

Lemma total_when (b : bool) (m : Action S LexDiagnostic unit)
    (Q : unit → S → list LexDiagnostic → Prop) s :
  (b = true → total m Q s) → (b = false → Q tt s []) → total (when b m) Q s.
Proof. unfold when. destruct b; intros H1 H2; [by apply H1|]. by apply total_ret, H2. Qed.

Lemma total_yields {A} (m : Action S LexDiagnostic A) (P : A → list LexDiagnostic → Prop)
    (Q : A → S → list LexDiagnostic → Prop) s :
  yields m P → (∀ a w, P a w → Q a s w) → total m Q s.
Proof. intros H HQ. destruct (H s) as (a & w & E & HP). exists a, s, w. auto. Qed.
End total.

(** One step of straight-line code. *)
Ltac total_step :=
  lazymatch goal with
  | |- total (mret _) _ _ => apply total_ret
  | |- total (_ ≫= _) _ _ => apply total_bind
  | |- total (gets _) _ _ => apply total_gets
  | |- total (modify _) _ _ => apply total_modify
  | |- total (LexEmit _ _ _) _ _ => apply total_emit; intros ?
  end.
Ltac total_steps := repeat (total_step; cbv beta).

(** * Lines of a text *)

(** The starts of the lines after the first, for a text that starts at [p]. *)
Fixpoint later_starts (p : Z) (cs : list char) : list Z :=
  match cs with
  | [] => []
  | c :: cs =>
      if IsVerticalWhitespace c then (p + 1) :: later_starts (p + 1) cs
      else later_starts (p + 1) cs
  end.

(** The start of the line a text that starts at [p] ends on, given that its
    first line starts at [first]. *)
Fixpoint last_start (first p : Z) (cs : list char) : Z :=
  match cs with
  | [] => first
  | c :: cs =>
      last_start (if IsVerticalWhitespace c then p + 1 else first) (p + 1) cs
  end.

(** The table: a text that does not end in a newline has an extra, empty line
    at its end. *)
Definition line_starts (cs : list char) : list Z :=
  0 :: later_starts 0 cs ++
  (if last_start 0 0 cs =? vec_size cs then [] else [vec_size cs]).

(** The number of the line after a text. *)
Definition line_of (before : list char) : Z := vec_size (later_starts 0 before).

Definition no_newline (cs : list char) : Prop :=
  Forall (λ c, IsVerticalWhitespace c = false) cs.

Lemma later_starts_app p cs cs' :
  later_starts p (cs ++ cs') = later_starts p cs ++ later_starts (p + vec_size cs) cs'.
Proof.
  revert p. induction cs as [|c cs IH]; intros p; cbn [app later_starts].
  { by rewrite Z.add_0_r. }
  rewrite IH. replace (p + 1 + vec_size cs) with (p + vec_size (c :: cs))
    by (unfold vec_size; cbn [length]; lia).
  by destruct (IsVerticalWhitespace c).
Qed.

Lemma last_start_app first p cs cs' :
  last_start first p (cs ++ cs') = last_start (last_start first p cs) (p + vec_size cs) cs'.
Proof.
  revert first p. induction cs as [|c cs IH]; intros first p; cbn [app last_start].
  { by rewrite Z.add_0_r. }
  rewrite IH. f_equal. unfold vec_size. cbn [length]. lia.
Qed.

Lemma later_starts_no_newline p cs : no_newline cs → later_starts p cs = [].
Proof.
  intros H. revert p. induction H as [|c cs Hc _ IH]; intros p; cbn; [done|].
  by rewrite Hc.
Qed.

Lemma last_start_no_newline first p cs : no_newline cs → last_start first p cs = first.
Proof.
  intros H. revert p. induction H as [|c cs Hc _ IH]; intros p; cbn; [done|].
  by rewrite Hc.
Qed.

Lemma last_start_last first p cs :
  last (first :: later_starts p cs) = Some (last_start first p cs).
Proof.
  revert first p. induction cs as [|c cs IH]; intros first p; cbn [later_starts last_start].
  { done. }
  destruct (IsVerticalWhitespace c); [|by apply IH].
  rewrite <- IH. done.
Qed.

Lemma last_start_bounds first p cs :
  first ≤ p → first ≤ last_start first p cs ≤ p + vec_size cs.
Proof.
  revert first p. induction cs as [|c cs IH]; intros first p Hp; cbn [last_start].
  { unfold vec_size. cbn. lia. }
  pose proof (IH (if IsVerticalWhitespace c then p + 1 else first) (p + 1)) as H.
  unfold vec_size in *. cbn [length]. destruct (IsVerticalWhitespace c); lia.
Qed.

(** Where the line after [before] starts. *)
Definition start_of_line (before : list char) : Z := last_start 0 0 before.

Lemma start_of_line_bounds before : 0 ≤ start_of_line before ≤ vec_size before.
Proof. apply (last_start_bounds 0 0 before). lia. Qed.

Lemma current_line_start before after :
  line_starts (before ++ after) !! Z.to_nat (line_of before) = Some (start_of_line before).
Proof.
  unfold line_starts, line_of, vec_size at 1. rewrite Nat2Z.id, later_starts_app.
  rewrite <- app_assoc, app_comm_cons. rewrite lookup_app_l by (cbn; lia).
  transitivity (last (0 :: later_starts 0 before)); [by rewrite last_lookup|].
  apply last_start_last.
Qed.

Lemma IsVerticalWhitespace_newline : IsVerticalWhitespace "010" = true.
Proof. reflexivity. Qed.

Lemma lookup_after {A} (x y : A) l l' : (x :: l ++ y :: l') !! S (length l) = Some y.
Proof. change (x :: l ++ y :: l') with ((x :: l) ++ y :: l'). by apply list_lookup_middle. Qed.

(** The next line, when the rest of this one is [body] and a newline follows. *)
Lemma next_line_start before body after :
  no_newline body →
  line_starts (before ++ body ++ "010"%char :: after) !! Z.to_nat (line_of before + 1) =
    Some (vec_size before + vec_size body + 1).
Proof.
  intros Hb. unfold line_starts, line_of. set (tail := if _ =? _ then _ else _).
  replace (Z.to_nat (vec_size (later_starts 0 before) + 1))
    with (S (length (later_starts 0 before))) by (unfold vec_size; lia).
  rewrite later_starts_app, later_starts_app, (later_starts_no_newline _ _ Hb).
  cbn [later_starts app]. rewrite IsVerticalWhitespace_newline, <- app_assoc, Z.add_0_l.
  cbn [app]. apply lookup_after.
Qed.

(** And when this is the last line, not empty. *)
Lemma last_line_start before body :
  no_newline body → body ≠ [] →
  line_starts (before ++ body) !! Z.to_nat (line_of before + 1) =
    Some (vec_size before + vec_size body).
Proof.
  intros Hb Hne. unfold line_starts, line_of.
  replace (Z.to_nat (vec_size (later_starts 0 before) + 1))
    with (S (length (later_starts 0 before))) by (unfold vec_size; lia).
  rewrite later_starts_app, (later_starts_no_newline _ _ Hb), app_nil_r.
  rewrite last_start_app, (last_start_no_newline _ _ _ Hb).
  pose proof (start_of_line_bounds before) as Hs. unfold start_of_line in Hs.
  rewrite vec_size_app. assert (0 < vec_size body).
  { destruct body; [done|]. unfold vec_size. cbn [length]. lia. }
  rewrite (proj2 (Z.eqb_neq _ _)) by lia.
  apply lookup_after.
Qed.

Lemma line_of_app before text :
  line_of (before ++ text) = line_of before + vec_size (later_starts (vec_size before) text).
Proof. unfold line_of. rewrite later_starts_app, vec_size_app. done. Qed.

Lemma line_of_same before text : no_newline text → line_of (before ++ text) = line_of before.
Proof.
  intros H. rewrite line_of_app, later_starts_no_newline by done. unfold vec_size. cbn. lia.
Qed.

Lemma start_of_line_same before text :
  no_newline text → start_of_line (before ++ text) = start_of_line before.
Proof.
  intros H. unfold start_of_line. by rewrite last_start_app, last_start_no_newline.
Qed.

Lemma line_of_newline before text :
  no_newline text → line_of (before ++ text ++ ["010"%char]) = line_of before + 1.
Proof.
  intros H. rewrite app_assoc, line_of_app, line_of_same by done. done.
Qed.

Lemma start_of_line_newline before :
  start_of_line (before ++ ["010"%char]) = vec_size before + 1.
Proof.
  unfold start_of_line. rewrite last_start_app. cbn [last_start].
  rewrite IsVerticalWhitespace_newline. lia.
Qed.

Lemma line_of_nonneg before : 0 ≤ line_of before.
Proof. apply vec_size_nonneg. Qed.

(** The table has a line after that of any position before the end. *)
Lemma line_starts_last cs : last (line_starts cs) = Some (vec_size cs).
Proof.
  unfold line_starts. destruct (Z.eqb_spec (last_start 0 0 cs) (vec_size cs)) as [E|].
  - rewrite app_nil_r, last_start_last. by f_equal.
  - by rewrite app_comm_cons, last_snoc.
Qed.

Lemma line_starts_size before after :
  line_of before < vec_size (line_starts (before ++ after)).
Proof.
  unfold line_starts, line_of, vec_size. cbn [length].
  rewrite later_starts_app, !length_app. lia.
Qed.

(** * [MakeLines] *)

Definition fresh_line (line_start : Z) : LineInfo := {| start := line_start; indent := 0 |}.

(** The starts of the lines a newline ends. *)
Fixpoint starts_before (first p : Z) (cs : list char) : list Z :=
  match cs with
  | [] => []
  | c :: cs =>
      if IsVerticalWhitespace c then first :: starts_before (p + 1) (p + 1) cs
      else starts_before first (p + 1) cs
  end.

Lemma starts_before_last first p cs :
  starts_before first p cs ++ [last_start first p cs] = first :: later_starts p cs.
Proof.
  revert first p. induction cs as [|c cs IH]; intros first p;
    cbn [starts_before last_start later_starts]; [done|].
  destruct (IsVerticalWhitespace c); [|apply IH]. cbn [app]. by rewrite IH.
Qed.

Lemma starts_before_size first p cs : vec_size (starts_before first p cs) ≤ vec_size cs.
Proof.
  revert first p. induction cs as [|c cs IH]; intros first p; cbn [starts_before]; [done|].
  rewrite vec_size_cons. destruct (IsVerticalWhitespace c).
  - rewrite vec_size_cons. specialize (IH (p + 1) (p + 1)). lia.
  - specialize (IH first (p + 1)). lia.
Qed.

Lemma starts_before_no_newline first p cs : no_newline cs → starts_before first p cs = [].
Proof.
  intros H. revert p. induction H as [|c cs Hc _ IH]; intros p; cbn; [done|]. by rewrite Hc.
Qed.

Lemma starts_before_split first p body c cs :
  no_newline body → IsVerticalWhitespace c = true →
  starts_before first p (body ++ c :: cs) =
    first :: starts_before (p + vec_size body + 1) (p + vec_size body + 1) cs ∧
  last_start first p (body ++ c :: cs) =
    last_start (p + vec_size body + 1) (p + vec_size body + 1) cs.
Proof.
  intros H Hc. revert p. induction H as [|d body Hd _ IH]; intros p; cbn [app starts_before last_start].
  { rewrite Hc. by rewrite Z.add_0_r. }
  rewrite Hd. destruct (IH (p + 1)) as [-> ->].
  replace (p + vec_size (d :: body)) with (p + 1 + vec_size body)
    by (unfold vec_size; cbn [length]; lia).
  done.
Qed.

Section make_lines.
Context {Ops : APInts}.
Implicit Types (s : LexerState).

Definition add_lines (starts : list Z) : LexerState → LexerState :=
  set_buffer (λ b, with_line_infos (line_infos b ++ (fresh_line <$> starts)) b).

Lemma add_lines_nil s : add_lines [] s = s.
Proof.
  destruct s as [b]. unfold add_lines, set_buffer, with_line_infos. cbn.
  f_equal. destruct b. cbn. by rewrite app_nil_r.
Qed.

Lemma add_lines_app xs ys s : add_lines ys (add_lines xs s) = add_lines (xs ++ ys) s.
Proof.
  unfold add_lines, set_buffer, with_line_infos. cbn. by rewrite fmap_app, app_assoc.
Qed.

Lemma add_lines_size xs s :
  vec_size (line_infos (buffer (add_lines xs s))) =
    vec_size (line_infos (buffer s)) + vec_size xs.
Proof. cbn. rewrite vec_size_app. unfold vec_size. by rewrite length_fmap. Qed.

Lemma AddLine_total line_start (Q : unit → LexerState → list LexDiagnostic → Prop) s :
  vec_size (line_infos (buffer s)) < 2 ^ 31 - 1 →
  Q tt (add_lines [line_start] s) [] → total (AddLine line_start) Q s.
Proof.
  intros Hs HQ. unfold AddLine. total_step. eapply total_lift.
  { unfold ValueStoreAdd. rewrite (proj2 (Z.ltb_lt _ _)) by exact Hs. reflexivity. }
  total_steps. exact HQ.
Qed.

Lemma make_lines_total fuel : ∀ before after (Q : Z → LexerState → list LexDiagnostic → Prop) s,
  (length after < fuel)%nat →
  vec_size (line_infos (buffer s)) + vec_size after < 2 ^ 31 - 1 →
  Q (last_start (vec_size before) (vec_size before) after)
    (add_lines (starts_before (vec_size before) (vec_size before) after) s) [] →
  total (make_lines fuel (StringRef.mk 0 (before ++ after)) (vec_size before)) Q s.
Proof.
  induction fuel as [|fuel IH]; intros before after Q s Hf Hs HQ; [lia|].
  cbn [make_lines StringRef.chars]. unfold vec_size at 1. rewrite Nat2Z.id, drop_app_length.
  pose proof (find_if_spec IsVerticalWhitespace after) as Hn.
  destruct (find_if IsVerticalWhitespace after) as [n|].
  - destruct Hn as (c & rest & E & Hc & Hb & Hn & Hlen).
    set (body := take (Z.to_nat n) after) in *.
    destruct (starts_before_split (vec_size before) (vec_size before) body c rest Hb Hc)
      as [E1 E2].
    rewrite E, E1, E2 in HQ. rewrite E in Hs, Hf.
    rewrite vec_size_app, vec_size_cons in Hs. rewrite length_app in Hf. cbn [length] in Hf.
    pose proof (vec_size_nonneg body). pose proof (vec_size_nonneg rest).
    pose proof (vec_size_nonneg (line_infos (buffer s))).
    total_step. apply AddLine_total; [lia|].
    replace (vec_size before + n + 1) with (vec_size (before ++ body ++ [c])).
    2: { rewrite !vec_size_app. unfold vec_size at 3. cbn [length]. lia. }
    replace (before ++ after) with ((before ++ body ++ [c]) ++ rest)
      by (rewrite E, <- !app_assoc; done).
    apply IH; [lia|rewrite add_lines_size; unfold vec_size at 2; cbn [length]; lia|].
    rewrite add_lines_app. replace (vec_size (before ++ body ++ [c]))
      with (vec_size before + vec_size body + 1); [exact HQ|].
    rewrite !vec_size_app. unfold vec_size at 5. cbn [length]. lia.
  - rewrite starts_before_no_newline, last_start_no_newline, add_lines_nil in HQ by done.
    by apply total_ret.
Qed.

(** [MakeLines] makes the table of the source. *)
Lemma MakeLines_total cs (Q : unit → LexerState → list LexDiagnostic → Prop) s :
  vec_size cs < 2 ^ 30 → line_infos (buffer s) = [] →
  Q tt (set_line_index 0 (add_lines (line_starts cs) s)) [] →
  total (MakeLines (StringRef.mk 0 cs)) Q s.
Proof.
  intros Hsize Hl HQ. unfold MakeLines, StringRef.empty.
  destruct cs as [|c cs]; cbn [StringRef.chars].
  { total_step. apply AddLine_total; [by rewrite Hl|]. total_steps. exact HQ. }
  set (text := c :: cs) in *. assert (vec_size (line_infos (buffer s)) = 0) as H0 by by rewrite Hl.
  assert (starts_before 0 0 text ++ [last_start 0 0 text] = 0 :: later_starts 0 text) as E
    by apply starts_before_last.
  assert (vec_size (starts_before 0 0 text) ≤ vec_size text) as Hn
    by apply starts_before_size.
  total_step. apply (make_lines_total _ [] text); [lia|rewrite H0; lia|].
  change (vec_size []) with 0. total_step.
  apply AddLine_total; [rewrite add_lines_size, H0; lia|].
  rewrite add_lines_app, E. total_step. unfold StringRef.size. cbn [StringRef.chars].
  unfold line_starts in HQ. apply total_when; rewrite negb_true_iff || rewrite negb_false_iff;
    intros Ez; rewrite Ez in HQ.
  - apply AddLine_total.
    { rewrite add_lines_size, H0, vec_size_cons.
      assert (vec_size (starts_before 0 0 text ++ [last_start 0 0 text]) =
        vec_size (0 :: later_starts 0 text)) as E' by by rewrite E.
      rewrite vec_size_app, !vec_size_cons in E'. change (vec_size (@nil Z)) with 0 in E'.
      lia. }
    rewrite add_lines_app. total_steps. exact HQ.
  - rewrite app_nil_r in HQ. total_steps. exact HQ.
Qed.
End make_lines.

(** * Pieces *)

Inductive piece :=
  | Blank (c : char)
  | Comment (text : list char)
  | Token (text : list char).

Definition piece_text (p : piece) : list char :=
  match p with Blank c => [c] | Comment text => text | Token text => text end.

Definition pieces_text (ps : list piece) : list char := mjoin (piece_text <$> ps).

(** The tokens of some pieces that start at [p], with where each one starts. *)
Fixpoint extents (p : Z) (ps : list piece) : list (Z * list char) :=
  match ps with
  | [] => []
  | q :: ps =>
      match q with Token text => [(p, text)] | _ => [] end ++
      extents (p + vec_size (piece_text q)) ps
  end.

Definition Newline : char := "010".

(** A token starts with a byte that is no blank. *)
Definition starts_token (text : list char) : Prop :=
  match text with [] => False | c :: _ => IsHorizontalWhitespace c = false end.

Lemma starts_token_ne text : starts_token text → text ≠ [].
Proof. by destruct text. Qed.
#[export] Hint Immediate starts_token_ne : core.

Lemma starts_token_app c rest text after :
  c :: rest = text ++ after → text ≠ [] → IsHorizontalWhitespace c = false → starts_token text.
Proof. destruct text as [|d text]; [done|]. by intros [= -> _] _ ?. Qed.

(** A blank is a space, a tab or a line ending; a comment runs from two slashes
    to the end of its line, with the newline if there is one. *)
Definition piece_ok (p : piece) : Prop :=
  match p with
  | Blank c => IsSpace c = true ∨ c = "013"%char
  | Comment text => ∃ body, no_newline body ∧
      (text = str "//" ++ body ∨ text = str "//" ++ body ++ [Newline])
  | Token text => starts_token text
  end.

(** A comment with its newline: any but one at the end of the source. *)
Definition piece_closed (p : piece) : Prop :=
  match p with Comment text => last text = Some Newline | _ => True end.

Lemma pieces_text_app ps qs : pieces_text (ps ++ qs) = pieces_text ps ++ pieces_text qs.
Proof. unfold pieces_text. by rewrite fmap_app, join_app. Qed.

Lemma pieces_text_snoc ps q : pieces_text (ps ++ [q]) = pieces_text ps ++ piece_text q.
Proof. rewrite pieces_text_app. unfold pieces_text at 2. cbn. by rewrite app_nil_r. Qed.

Lemma pieces_text_cons q ps : pieces_text (q :: ps) = piece_text q ++ pieces_text ps.
Proof. reflexivity. Qed.

Lemma extents_app p ps qs :
  extents p (ps ++ qs) = extents p ps ++ extents (p + vec_size (pieces_text ps)) qs.
Proof.
  revert p. induction ps as [|q ps IH]; intros p; cbn [app extents].
  { by rewrite Z.add_0_r. }
  rewrite IH, <- app_assoc. rewrite pieces_text_cons, vec_size_app.
  by rewrite Z.add_assoc.
Qed.

Lemma extents_snoc_token ps text :
  extents 0 (ps ++ [Token text]) = extents 0 ps ++ [(vec_size (pieces_text ps), text)].
Proof. by rewrite extents_app. Qed.

Lemma extents_snoc_other ps q :
  match q with Token _ => False | _ => True end → extents 0 (ps ++ [q]) = extents 0 ps.
Proof. intros H. rewrite extents_app. destruct q; [|..|done]; cbn; by rewrite app_nil_r. Qed.

(** Only the last piece may be a comment that is not closed. *)
Definition closed_but_last (ps : list piece) : Prop :=
  ∀ ps' p, ps = ps' ++ [p] → Forall piece_closed ps'.

Lemma closed_snoc ps p : Forall piece_closed ps → closed_but_last (ps ++ [p]).
Proof. by intros H ps' p' [<- _]%app_inj_tail. Qed.

Lemma closed_all ps : Forall piece_closed ps → closed_but_last ps.
Proof. by intros H ps' p' ->; apply Forall_app in H as [H _]. Qed.

(** Blanks for a run of white space. *)
Definition blanks (cs : list char) : list piece := Blank <$> cs.

Lemma blanks_text cs : pieces_text (blanks cs) = cs.
Proof.
  induction cs as [|c cs IH]; [done|]. change (blanks (c :: cs)) with (Blank c :: blanks cs).
  by rewrite pieces_text_cons, IH.
Qed.

Lemma blanks_extents p cs : extents p (blanks cs) = [].
Proof. revert p. induction cs as [|c cs IH]; intros p; cbn; [done|]. apply IH. Qed.

Lemma blanks_ok cs : Forall (λ c, IsSpace c = true) cs → Forall piece_ok (blanks cs).
Proof. intros H. apply Forall_fmap. eapply Forall_impl; [exact H|]. by left. Qed.

Lemma blanks_closed cs : Forall piece_closed (blanks cs).
Proof. apply Forall_fmap, Forall_true. done. Qed.

(** The tokens lie inside the text, each of at least a byte. *)
Lemma extents_bound p ps :
  Forall piece_ok ps →
  Forall (λ e, p ≤ e.1 ∧ 0 < vec_size e.2 ∧ e.1 + vec_size e.2 ≤ p + vec_size (pieces_text ps))
    (extents p ps).
Proof.
  intros H. revert p. induction H as [|q ps Hq _ IH]; intros p; cbn [extents]; [constructor|].
  rewrite pieces_text_cons, vec_size_app. pose proof (vec_size_nonneg (piece_text q)).
  pose proof (vec_size_nonneg (pieces_text ps)). apply Forall_app_2.
  - destruct q as [c|text|text]; [constructor..|]. constructor; [|constructor]. cbn in *.
    destruct text as [|c text]; [done|]. rewrite vec_size_cons in *.
    pose proof (vec_size_nonneg text). lia.
  - eapply Forall_impl; [apply IH|]. cbn. lia.
Qed.

(** In order, without overlap. *)
Lemma extents_sorted p ps i j e e' :
  Forall piece_ok ps → extents p ps !! i = Some e → extents p ps !! j = Some e' →
  (i < j)%nat → e.1 + vec_size e.2 ≤ e'.1.
Proof.
  intros H. revert p i j. induction H as [|q ps Hq Hps IH]; intros p i j Hi Hj Hij; [done|].
  cbn [extents] in *. pose proof (extents_bound (p + vec_size (piece_text q)) ps Hps) as Hb.
  destruct q as [c|text|text]; cbn [app] in *; [by eapply IH|by eapply IH|].
  destruct j as [|j]; [lia|]. destruct i as [|i].
  - injection Hi as <-. cbn in Hj. eapply Forall_lookup_1 in Hb; [|exact Hj]. cbn in *. lia.
  - cbn in Hi, Hj. eapply IH; [exact Hi|exact Hj|lia].
Qed.

(** * Comments of the buffer *)

(** The pieces that a recorded comment covers: blocks of comments on lines of
    their own, each line with its indentation, are recorded as one. *)
Definition in_note (p : piece) : Prop :=
  match p with Comment _ => True | Blank c => IsHorizontalWhitespace c = true | Token _ => False end.

Definition comment_block (g : list piece) : Prop :=
  ∃ text rest, g = Comment text :: rest ∧ Forall in_note rest.

Inductive block :=
  | Single (p : piece)
  | Note (trailing : bool) (g : list piece).

Definition block_pieces (b : block) : list piece :=
  match b with Single p => [p] | Note _ g => g end.

Definition block_ok (b : block) : Prop :=
  match b with
  | Single (Comment _) => False
  | Single _ => True
  | Note _ g => comment_block g
  end.

Definition blocks_pieces (bs : list block) : list piece := mjoin (block_pieces <$> bs).

Definition note_at (p : Z) (trailing : bool) (g : list piece) : CommentData :=
  {| comment_start := p; comment_length := vec_size (pieces_text g);
     comment_is_trailing := trailing |}.

(** The comments recorded for some blocks that start at [p]. *)
Fixpoint notes (p : Z) (bs : list block) : list CommentData :=
  match bs with
  | [] => []
  | b :: bs =>
      match b with Note trailing g => [note_at p trailing g] | Single _ => [] end ++
      notes (p + vec_size (pieces_text (block_pieces b))) bs
  end.

(** The comments of a buffer are those of its text. *)
Definition NotesOk (cs : list CommentData) (ps : list piece) : Prop :=
  ∃ bs, ps = blocks_pieces bs ∧ Forall block_ok bs ∧ cs = notes 0 bs.

Lemma blocks_pieces_app bs bs' : blocks_pieces (bs ++ bs') = blocks_pieces bs ++ blocks_pieces bs'.
Proof. unfold blocks_pieces. by rewrite fmap_app, join_app. Qed.

Lemma blocks_pieces_plain ps : blocks_pieces (Single <$> ps) = ps.
Proof.
  induction ps as [|p ps IH]; [done|].
  change (blocks_pieces (Single <$> p :: ps)) with (p :: blocks_pieces (Single <$> ps)). by rewrite IH.
Qed.

Lemma notes_app p bs bs' :
  notes p (bs ++ bs') = notes p bs ++ notes (p + vec_size (pieces_text (blocks_pieces bs))) bs'.
Proof.
  revert p. induction bs as [|b bs IH]; intros p; cbn [app notes].
  { change (vec_size (pieces_text (blocks_pieces []))) with 0. by rewrite Z.add_0_r. }
  rewrite IH, <- app_assoc. change (blocks_pieces (b :: bs)) with (block_pieces b ++ blocks_pieces bs).
  by rewrite pieces_text_app, vec_size_app, Z.add_assoc.
Qed.

Lemma notes_plain p ps : notes p (Single <$> ps) = [].
Proof. revert p. induction ps as [|q ps IH]; intros p; [done|]. apply IH. Qed.

(** Blocks without a recorded comment. *)
Lemma notes_nil p bs : notes p bs = [] → ∃ ps, bs = Single <$> ps.
Proof.
  revert p. induction bs as [|b bs IH]; intros p; [by exists []|]. cbn [notes].
  destruct b as [q|]; [|done]. intros [ps ->]%IH. by exists (q :: ps).
Qed.

(** The last recorded comment. *)
Lemma notes_snoc p bs cs c :
  notes p bs = cs ++ [c] → ∃ bs1 trailing g ps, bs = bs1 ++ Note trailing g :: (Single <$> ps) ∧
    cs = notes p bs1 ∧ c = note_at (p + vec_size (pieces_text (blocks_pieces bs1))) trailing g.
Proof.
  induction bs as [|b bs IH] using rev_ind; [by destruct cs|]. rewrite notes_app. cbn [notes].
  rewrite app_nil_r. destruct b as [q|trailing g].
  - rewrite app_nil_r. intros (bs1 & trailing & g & ps & -> & H1 & H2)%IH.
    exists bs1, trailing, g, (ps ++ [q]). split; [|done]. by rewrite fmap_app, <- app_assoc.
  - intros [<- <-]%app_inj_tail. by exists bs, trailing, g, [].
Qed.

Lemma NotesOk_app cs ps b :
  NotesOk cs ps → block_ok b →
  NotesOk (cs ++ match b with Note trailing g => [note_at (vec_size (pieces_text ps)) trailing g]
                 | Single _ => [] end) (ps ++ block_pieces b).
Proof.
  intros (bs & -> & Hbs & ->) Hb. exists (bs ++ [b]). split; [|split].
  - rewrite blocks_pieces_app. f_equal. unfold blocks_pieces. cbn. by rewrite app_nil_r.
  - by apply Forall_app_2; [|constructor].
  - rewrite notes_app. cbn [notes]. by rewrite app_nil_r.
Qed.

Lemma NotesOk_token cs ps text : NotesOk cs ps → NotesOk cs (ps ++ [Token text]).
Proof. intros H. pose proof (NotesOk_app cs ps (Single (Token text)) H I) as H'. by rewrite app_nil_r in H'. Qed.

Lemma NotesOk_blanks cs ps ws : NotesOk cs ps → NotesOk cs (ps ++ blanks ws).
Proof.
  revert ps. induction ws as [|c ws IH]; intros ps H; [by rewrite app_nil_r|].
  change (blanks (c :: ws)) with ([Blank c] ++ blanks ws). rewrite app_assoc. apply IH.
  pose proof (NotesOk_app cs ps (Single (Blank c)) H I) as H'. by rewrite app_nil_r in H'.
Qed.

(** A token can change its text. *)
Lemma NotesOk_replace cs ps text text' :
  NotesOk cs (ps ++ [Token text]) → NotesOk cs (ps ++ [Token text']).
Proof.
  intros (bs & E & Hbs & ->). destruct bs as [|b bs _] using rev_ind; [by destruct ps|].
  rewrite blocks_pieces_app in E. apply Forall_app in Hbs as [Hbs [Hb _]%Forall_cons].
  unfold blocks_pieces at 2 in E. cbn in E. rewrite app_nil_r in E. destruct b as [q|trailing g].
  - apply app_inj_tail in E as [-> _]. rewrite notes_app. cbn [notes]. rewrite !app_nil_r.
    apply NotesOk_token. by exists bs.
  - exfalso. destruct Hb as (t & rest & -> & Hin). cbn [block_pieces] in E.
    destruct rest as [|q rest _] using rev_ind; [by apply app_inj_tail in E as [_ E]|].
    rewrite app_comm_cons, app_assoc in E. apply app_inj_tail in E as [_ <-].
    apply Forall_app in Hin as [_ [Hin _]%Forall_cons]. done.
Qed.

(** A blank text has no token. *)
Lemma horizontal_inner ps :
  Forall piece_ok ps → Forall (λ c, IsHorizontalWhitespace c = true) (pieces_text ps) →
  Forall in_note ps.
Proof.
  induction 1 as [|q ps Hq _ IH]; [constructor|]. rewrite pieces_text_cons.
  intros [Ht Hps]%Forall_app. constructor; [|by apply IH].
  destruct q as [c|text|text]; cbn in *; [by apply Forall_cons in Ht as [Ht _]|done|].
  destruct text as [|c text]; [done|]. apply Forall_cons in Ht as [Ht _]. congruence.
Qed.

(** The last comment takes in a block after blanks. *)
Lemma NotesOk_coalesce cs c ps (before ws : list char) g :
  NotesOk (cs ++ [c]) ps → Forall piece_ok ps → pieces_text ps = before ++ ws →
  Forall (λ c, IsHorizontalWhitespace c = true) ws →
  comment_start c + comment_length c = vec_size before → comment_block g →
  NotesOk (cs ++ [{| comment_start := comment_start c; comment_is_trailing := false;
    comment_length := vec_size (pieces_text (ps ++ g)) - comment_start c |}]) (ps ++ g).
Proof.
  intros (bs & E & Hbs & En) Hok Ht Hws Hend (text & rest & -> & Hrest). symmetry in En.
  apply notes_snoc in En as (bs1 & trailing & g0 & qs & -> & -> & ->).
  rewrite blocks_pieces_app in E.
  change (blocks_pieces (Note trailing g0 :: (Single <$> qs))) with (g0 ++ blocks_pieces (Single <$> qs)) in E.
  rewrite blocks_pieces_plain in E. subst ps.
  rewrite !pieces_text_app, app_assoc in Ht. cbn [note_at comment_start comment_length] in *.
  apply app_inj_1 in Ht as [_ Hqs].
  2: { rewrite length_app. unfold vec_size in Hend. lia. }
  apply Forall_app in Hbs as [Hbs [(t0 & rest0 & -> & Hrest0) _]%Forall_cons].
  rewrite !Forall_app in Hok. destruct Hok as (_ & _ & Hok).
  assert (Forall in_note qs) as Hin by (apply horizontal_inner; [done|by rewrite Hqs]).
  exists (bs1 ++ [Note false ((Comment t0 :: rest0) ++ qs ++ Comment text :: rest)]).
  split; [|split].
  - rewrite blocks_pieces_app, <- !app_assoc. f_equal. unfold blocks_pieces. cbn.
    by rewrite app_nil_r.
  - apply Forall_app_2; [done|]. constructor; [|constructor]. eexists t0, _. split; [reflexivity|].
    repeat apply Forall_app_2; try done. by constructor.
  - rewrite notes_app. cbn [notes]. rewrite app_nil_r. unfold note_at. do 3 f_equal.
    rewrite <- app_assoc, pieces_text_app, vec_size_app, <- app_assoc. lia.
Qed.

(** Every recorded comment has its text. *)
Lemma notes_bound p bs :
  Forall block_ok bs → Forall piece_ok (blocks_pieces bs) →
  vec_size (notes p bs) ≤ vec_size (pieces_text (blocks_pieces bs)) ∧
  Forall (λ c, p ≤ comment_start c ∧
    comment_start c + 2 ≤ p + vec_size (pieces_text (blocks_pieces bs))) (notes p bs).
Proof.
  intros Hbs. revert p. induction Hbs as [|b bs Hb _ IH]; intros p Hok; [by split|].
  change (blocks_pieces (b :: bs)) with (block_pieces b ++ blocks_pieces bs) in *.
  apply Forall_app in Hok as [Hok Hok']. destruct (IH (p + vec_size (pieces_text (block_pieces b))) Hok')
    as [IH1 IH2]. rewrite pieces_text_app, vec_size_app. cbn [notes]. rewrite vec_size_app.
  pose proof (vec_size_nonneg (pieces_text (block_pieces b))).
  pose proof (vec_size_nonneg (pieces_text (blocks_pieces bs))).
  assert (match b with Note _ _ => 2 | Single _ => 0 end ≤ vec_size (pieces_text (block_pieces b))) as Hsz.
  { destruct b as [|trailing g]; [done|]. destruct Hb as (text & rest & -> & _).
    apply Forall_cons in Hok as [(body & _ & Ht) _]. cbn [block_pieces]. rewrite pieces_text_cons, vec_size_app.
    pose proof (vec_size_nonneg (pieces_text rest)).
    assert (2 ≤ vec_size (piece_text (Comment text))); [|lia]. cbn [piece_text].
    destruct Ht as [-> | ->]; rewrite vec_size_app; [pose proof (vec_size_nonneg body)|
      pose proof (vec_size_nonneg (body ++ [Newline]))]; change (vec_size (str "//")) with 2; lia. }
  split.
  - destruct b; [change (vec_size []) with 0|change (vec_size [_]) with 1]; lia.
  - apply Forall_app_2.
    + destruct b; [by apply Forall_nil|]. apply Forall_singleton. cbn [comment_start note_at]. lia.
    + eapply Forall_impl; [exact IH2|]. cbn. lia.
Qed.

Lemma NotesOk_bound cs ps :
  NotesOk cs ps → Forall piece_ok ps →
  vec_size cs ≤ vec_size (pieces_text ps) ∧
  Forall (λ c, 0 ≤ comment_start c ≤ vec_size (pieces_text ps)) cs.
Proof.
  intros (bs & -> & Hbs & ->) Hok. destruct (notes_bound 0 bs Hbs Hok) as [H1 H2]. split; [done|].
  eapply Forall_impl; [exact H2|]. cbn. lia.
Qed.

(** * Spelling *)

(** The source from a token's offset on. *)
Definition rest_at (cs : list char) (info : TokenInfo) : list char :=
  drop (Z.to_nat (byte_offset info)) cs.
Definition ref_at (cs : list char) (info : TokenInfo) : StringRef.t :=
  StringRef.mk (byte_offset info) (rest_at cs info).

(** The text at an identifier token reads as the raw spelling of [ident]. *)
Definition reads_raw (rest : list char) (ident : string) : Prop :=
  ∃ c rest', rest = str "r#" ++ c :: rest' ∧ head (str ident) = Some c.

(** The record [info] spells [text], in the source [cs] with the identifiers
    [ids]. *)
Inductive spells (cs : list char) (ids : list string) (info : TokenInfo)
    : list char → Prop :=
  | spells_fixed :
      TokenKind.fixed_spelling (kind info) ≠ ""%string →
      spells cs ids info (spelling (kind info))
  | spells_error text rest :
      kind info = TokenKind.Error → rest_at cs info = text ++ rest →
      token_payload info = vec_size text → spells cs ids info text
  | spells_number l :
      kind info = TokenKind.IntLiteral ∨ kind info = TokenKind.RealLiteral →
      NumericLiteral.Lex (ref_at cs info) (is_kind TokenKind.RealLiteral info) = Ok (Some l) →
      spells cs ids info (StringRef.chars (NumericLiteral.text_ l))
  | spells_quoted l :
      kind info = TokenKind.StringLiteral ∨ kind info = TokenKind.CharLiteral →
      StringLiteral.Lex (ref_at cs info) = Ok (Some l) →
      spells cs ids info (StringRef.chars (StringLiteral.text_ l))
  | spells_digits c digits rest :
      TokenKind.is_sized_type_literal (kind info) = true ∨
      kind info = TokenKind.DollarIntLiteral →
      rest_at cs info = c :: digits ++ rest →
      take_while IsDecimalDigit (digits ++ rest) = digits →
      spells cs ids info (c :: digits)
  | spells_boundary :
      kind info = TokenKind.FileStart ∨ kind info = TokenKind.FileEnd →
      spells cs ids info []
  | spells_plain ident :
      kind info = TokenKind.Identifier → vec_get ids (token_payload info) = Ok ident →
      ident ≠ ""%string → ¬ reads_raw (rest_at cs info) ident →
      spells cs ids info (str ident)
  | spells_raw ident rest :
      kind info = TokenKind.Identifier → vec_get ids (token_payload info) = Ok ident →
      ident ≠ ""%string → rest_at cs info = str "r#" ++ str ident ++ rest →
      spells cs ids info (str "r#" ++ str ident).

Lemma spells_more cs ids ids' info text :
  ids `prefix_of` ids' → spells cs ids info text → spells cs ids' info text.
Proof.
  intros [more ->] H. destruct H; [by constructor|by econstructor|by econstructor|
    by econstructor|by econstructor|by constructor| |].
  - apply spells_plain; [done|by apply vec_get_app_l|done|done].
  - eapply spells_raw; [done|by apply vec_get_app_l|done|done].
Qed.

(** * [GetTokenText] *)

Lemma str_to_string cs : str (to_string cs) = cs.
Proof. apply Stdlib.Strings.String.list_ascii_of_string_of_list_ascii. Qed.

Lemma str_length s : length (str s) = String.length s.
Proof.
  induction s as [|c s IH]; [done|]. change (str (String c s)) with (c :: str s).
  cbn [length String.length]. by rewrite IH.
Qed.

Lemma str_empty s : str s = [] ↔ s = ""%string.
Proof. by destruct s. Qed.

Lemma sized_kinds k :
  TokenKind.is_sized_type_literal k = true →
  k = TokenKind.IntTypeLiteral ∨ k = TokenKind.UnsignedIntTypeLiteral ∨
  k = TokenKind.FloatTypeLiteral.
Proof.
  unfold TokenKind.is_sized_type_literal. rewrite !orb_true_iff, !TokenKind.token_eqb_eq. tauto.
Qed.

Section text.
Context (b : TokenizedBuffer.t) (tok : Z) (info : TokenInfo) (cs : list char).
Hypothesis Hsource : source_text b = to_string cs.
Hypothesis Hsize : vec_size cs < 2 ^ 31.
Hypothesis Hinfo : vec_get (token_infos b) tok = Ok info.
Hypothesis Hoff : 0 ≤ byte_offset info ≤ vec_size cs.

Lemma source_chars : source b = StringRef.mk 0 cs.
Proof. unfold source. by rewrite Hsource, str_to_string. Qed.

Lemma at_token : StringRef.substr_from (source b) (byte_offset info) = ref_at cs info.
Proof.
  rewrite source_chars, StringRef.substr_from_in; [done|cbn; done|].
  unfold StringRef.size. cbn [StringRef.chars]. lia.
Qed.

Lemma substr_at_token n :
  0 ≤ n → byte_offset info + n ≤ vec_size cs →
  StringRef.chars (StringRef.substr (source b) (byte_offset info) n) =
    take (Z.to_nat n) (rest_at cs info).
Proof.
  intros Hn He. rewrite source_chars, StringRef.substr_all_in; [done|lia|lia|..];
    unfold StringRef.size; cbn [StringRef.chars]; lia.
Qed.

Lemma rest_at_size rest : rest_at cs info = rest → byte_offset info + vec_size rest = vec_size cs.
Proof.
  intros <-. unfold rest_at, vec_size in *. rewrite length_drop. lia.
Qed.

Lemma IsRawIdentifier_false ident :
  kind info = TokenKind.Identifier → vec_get (identifiers b) (token_payload info) = Ok ident →
  ident ≠ ""%string → ¬ reads_raw (rest_at cs info) ident →
  IsRawIdentifier b tok = Ok false.
Proof.
  intros Hk Hid Hne Hraw. unfold IsRawIdentifier. rewrite Hinfo.
  cbn [mbind Result_bind]. unfold is_kind. rewrite Hk, TokenKind.token_eqb_refl, at_token.
  cbn [negb]. destruct (_ && _) eqn:E; [|done].
  apply andb_true_iff in E as [E1 E2]. apply Z.ltb_lt in E1.
  unfold StringRef.size, ref_at in E1. cbn [StringRef.chars ref_at] in E1, E2.
  apply starts_with_spec in E2 as [rest E2]. unfold ref_at. unfold StringRef.at_.
  cbn [StringRef.chars]. rewrite E2 in E1 |- *.
  destruct rest as [|c rest]; [by vm_compute in E1|].
  change (vec_get (str "r#" ++ c :: rest) 2) with (@Ok char c). cbn [mbind Result_bind].
  unfold ident_id. rewrite Hk, TokenKind.token_eqb_refl. cbn [require mbind Result_bind mret Result_ret].
  rewrite Hid. cbn [mbind Result_bind]. destruct ident as [|d ident]; [done|].
  cbn [front mbind Result_bind mret Result_ret]. f_equal.
  destruct (char_eqb_spec c d) as [->|]; [|done]. destruct Hraw. exists d, rest. by split.
Qed.

Lemma IsRawIdentifier_true ident rest :
  kind info = TokenKind.Identifier → vec_get (identifiers b) (token_payload info) = Ok ident →
  ident ≠ ""%string → rest_at cs info = str "r#" ++ str ident ++ rest →
  IsRawIdentifier b tok = Ok true.
Proof.
  intros Hk Hid Hne E. unfold IsRawIdentifier. rewrite Hinfo.
  cbn [mbind Result_bind]. unfold is_kind. rewrite Hk, TokenKind.token_eqb_refl, at_token.
  cbn [negb]. unfold ref_at, StringRef.size, StringRef.at_. cbn [StringRef.chars]. rewrite E.
  destruct ident as [|d ident]; [done|].
  assert ((2 <? vec_size (str "r#" ++ str (String d ident) ++ rest)) = true) as ->.
  { apply Z.ltb_lt. rewrite !vec_size_app. unfold vec_size. cbn. lia. }
  assert (starts_with (str "r#") (str "r#" ++ str (String d ident) ++ rest) = true) as ->.
  { apply starts_with_spec. by eexists. }
  cbn [andb]. change (vec_get (str "r#" ++ str (String d ident) ++ rest) 2) with (@Ok char d).
  cbn [mbind Result_bind]. unfold ident_id. rewrite Hk, TokenKind.token_eqb_refl.
  cbn [require mbind Result_bind mret Result_ret]. rewrite Hid.
  cbn [mbind Result_bind front mret Result_ret]. by rewrite char_eqb_refl.
Qed.

Lemma introduced_digits_spec c digits rest :
  rest_at cs info = c :: digits ++ rest →
  take_while IsDecimalDigit (digits ++ rest) = digits →
  introduced_digits b (byte_offset info) = c :: digits.
Proof.
  intros E Ht. pose proof (rest_at_size _ E) as Hs. rewrite vec_size_cons, vec_size_app in Hs.
  pose proof (vec_size_nonneg digits). pose proof (vec_size_nonneg rest).
  unfold introduced_digits. rewrite source_chars.
  rewrite StringRef.substr_from_in
    by (unfold StringRef.size; cbn [StringRef.chars]; lia).
  cbn [StringRef.chars StringRef.begin].
  replace (drop (Z.to_nat (byte_offset info + 1)) cs) with (digits ++ rest).
  2: { replace (Z.to_nat (byte_offset info + 1)) with (Z.to_nat (byte_offset info) + 1)%nat by lia.
       rewrite <- drop_drop. unfold rest_at in E. by rewrite E. }
  rewrite Ht, StringRef.substr_all_in
    by (unfold StringRef.size; cbn [StringRef.chars]; lia).
  cbn [StringRef.chars]. replace (0 + (byte_offset info + 1) - 1) with (byte_offset info) by lia.
  unfold rest_at in E. rewrite E.
  replace (Z.to_nat (vec_size digits + 1)) with (S (length digits)) by (unfold vec_size; lia).
  cbn [take]. by rewrite take_app_length.
Qed.

(** [GetTokenText] gives back what a token spells. *)
Lemma GetTokenText_spells text :
  spells cs (identifiers b) info text → GetTokenText b tok = Ok text.
Proof.
  intros H. unfold GetTokenText. rewrite Hinfo. cbn [mbind Result_bind]. rewrite at_token.
  fold (spelling (kind info)).
  assert (∀ k, kind info = k → TokenKind.fixed_spelling k = ""%string →
    spelling (kind info) = []) as Hfix.
  { intros k -> E. unfold spelling. by rewrite E. }
  unfold is_kind in *. destruct H as [Hf|text rest Hk E Hp|l Hk E|l Hk E|c digits rest Hk E Ht
    |Hk|ident Hk Hid Hne Hr|ident rest Hk Hid Hne E].
  - rewrite bool_decide_false; [done|]. by rewrite <- str_empty in Hf.
  - rewrite (Hfix _ Hk) by done. rewrite bool_decide_true by done. rewrite Hk. cbn [negb].
    rewrite TokenKind.token_eqb_refl. unfold error_length, is_kind. rewrite Hk.
    rewrite TokenKind.token_eqb_refl. cbn [require mbind Result_bind mret Result_ret].
    pose proof (rest_at_size _ E) as Hs. rewrite vec_size_app in Hs.
    pose proof (vec_size_nonneg text). pose proof (vec_size_nonneg rest).
    rewrite Hp, substr_at_token by lia. rewrite E. unfold vec_size. by rewrite Nat2Z.id, take_app_length.
  - destruct Hk as [Hk|Hk]; rewrite (Hfix _ Hk) by done; rewrite bool_decide_true by done;
      unfold is_kind in E; rewrite Hk in E |- *;
      cbn [negb TokenKind.eqb TokenKind.AsInt Z.eqb Pos.eqb orb] in E |- *;
      rewrite E; done.
  - destruct Hk as [Hk|Hk]; rewrite (Hfix _ Hk) by done; rewrite bool_decide_true by done;
      rewrite Hk; cbn [negb TokenKind.eqb TokenKind.AsInt Z.eqb Pos.eqb orb];
      rewrite E; done.
  - pose proof (introduced_digits_spec _ _ _ E Ht) as Hd.
    destruct Hk as [[Hk|[Hk|Hk]]%sized_kinds|Hk]; rewrite (Hfix _ Hk) by done;
      rewrite bool_decide_true by done; rewrite Hk;
      cbn [negb TokenKind.eqb TokenKind.AsInt Z.eqb Pos.eqb orb
        TokenKind.is_sized_type_literal]; by rewrite Hd.
  - destruct Hk as [Hk|Hk]; rewrite (Hfix _ Hk) by done; rewrite bool_decide_true by done;
      rewrite Hk; done.
  - rewrite (Hfix _ Hk) by done. rewrite bool_decide_true by done.
    unfold identifier_text, is_kind, ident_id. rewrite (IsRawIdentifier_false ident) by done.
    rewrite Hk. cbn [negb TokenKind.eqb TokenKind.AsInt Z.eqb Pos.eqb orb
      TokenKind.is_sized_type_literal require mbind Result_bind mret Result_ret].
    by rewrite Hid.
  - rewrite (Hfix _ Hk) by done. rewrite bool_decide_true by done.
    unfold identifier_text, is_kind, ident_id. rewrite (IsRawIdentifier_true ident rest) by done.
    rewrite Hk. cbn [negb TokenKind.eqb TokenKind.AsInt Z.eqb Pos.eqb orb
      TokenKind.is_sized_type_literal require mbind Result_bind mret Result_ret].
    rewrite Hid. cbn [mbind Result_bind].
    pose proof (rest_at_size _ E) as Hs. rewrite !vec_size_app in Hs.
    pose proof (vec_size_nonneg rest). rewrite <- str_length.
    change (vec_size (str "r#")) with 2 in Hs. fold (vec_size (str ident)).
    rewrite substr_at_token by (unfold vec_size in *; lia). rewrite E.
    replace (Z.to_nat (vec_size (str ident) + 2)) with (length (str "r#" ++ str ident)).
    2: { rewrite length_app. unfold vec_size. cbn [length str]. change (length (str "r#")) with 2%nat. lia. }
    rewrite app_assoc, take_app_length.
    assert (starts_with (str "r#") (str "r#" ++ str ident) = true) as ->.
    { apply starts_with_spec. by eexists. }
    rewrite bool_decide_true by done. done.
Qed.
End text.
