(* ===== verification/LexInvariant.v ===== *)
(** The invariant of lexing: between two dispatches the source is split into the
    text already lexed, which the pieces found so far spell, and the rest. *)

From S2P Require Import Prelude TokenKinds Text APInts IntStores IntLaws LexDiagnostics.
From S2P Require Import StringShape Tokens TokenText LexState LexTokens LexPieces.
From Stdlib Require Import Sorting.Sorted.
Import TokenizedBuffer.

(** The sources the theorems are about: shorter than two megabytes, so that every
    index of a value store fits in a token's payload. *)
Definition MaxSource : Z := 2 ^ 21.

(** * The text *)

(** An [r] that the [#] after it is about to make a raw identifier. *)
Definition pending_raw (ids : list string) (info : TokenInfo) (text after : list char) : Prop :=
  kind info = TokenKind.Identifier ∧ vec_get ids (token_payload info) = Ok "r"%string ∧
  text = str "r" ∧ ∃ after', after = str "#r" ++ after'.

(** A record and the extent of its token, in a source of which [after] is left. *)
Definition spelled (cs : list char) (ids : list string) (after : list char)
    (info : TokenInfo) (e : Z * list char) : Prop :=
  byte_offset info = e.1 ∧
  TokenKind.IsOneOf (kind info) [TokenKind.FileStart; TokenKind.FileEnd] = false ∧
  (spells cs ids info e.2 ∨
   pending_raw ids info e.2 after ∧ e.1 + 1 + vec_size after = vec_size cs).

Definition is_start (info : TokenInfo) : Prop :=
  kind info = TokenKind.FileStart ∧ byte_offset info = 0.

Record TextOk (b : TokenizedBuffer.t) (leading : bool) (ps : list piece)
    (before after : list char) : Prop := {
  text_source : source_text b = to_string (before ++ after);
  text_no_recovery : post_lexing_recovery_tokens b = 0 ∧ recovery_tokens b = [];
  text_no_errors : has_errors b = false;
  text_pieces : pieces_text ps = before;
  text_ok : Forall piece_ok ps;
  text_closed : (after ≠ [] → Forall piece_closed ps) ∧ closed_but_last ps;
  text_start : ∃ info infos, token_infos b = info :: infos ∧ is_start info ∧
    Forall2 (spelled (before ++ after) (identifiers b) after) infos (extents 0 ps);
  text_last : leading = false → ∃ ps' text, ps = ps' ++ [Token text];
}.

(** A record whose token spells its text. *)
Definition settled (cs : list char) (ids : list string) (info : TokenInfo)
    (e : Z * list char) : Prop :=
  byte_offset info = e.1 ∧
  TokenKind.IsOneOf (kind info) [TokenKind.FileStart; TokenKind.FileEnd] = false ∧
  spells cs ids info e.2.

Definition Settled (b : TokenizedBuffer.t) (ps : list piece) (cs : list char) : Prop :=
  Forall2 (settled cs (identifiers b)) (tail (token_infos b)) (extents 0 ps).

Lemma spelled_settled cs ids after info e :
  (∀ after', after ≠ str "#r" ++ after') →
  spelled cs ids after info e → settled cs ids info e.
Proof.
  intros Hn (Ho & Hk & [H|((_ & _ & _ & after' & E) & _)]); [done|]. by destruct (Hn after').
Qed.

(** Whatever is left, unless it goes on a raw identifier. *)
Lemma TextOk_settled b leading ps before after :
  (∀ after', after ≠ str "#r" ++ after') → TextOk b leading ps before after →
  Settled b ps (before ++ after).
Proof.
  intros Hn H. destruct (text_start _ _ _ _ _ H) as (info & infos & E & _ & Hf).
  unfold Settled. rewrite E. cbn [tail]. eapply Forall2_impl; [exact Hf|].
  intros. by eapply spelled_settled.
Qed.

Lemma settled_move_all cs ids ids' after' infos es :
  ids `prefix_of` ids' → Forall2 (settled cs ids) infos es →
  Forall2 (spelled cs ids' after') infos es.
Proof.
  intros Hids H. eapply Forall2_impl; [exact H|]. intros info e (Ho & Hk & Hs).
  split; [done|]. split; [done|]. left. by eapply spells_more.
Qed.

Lemma spelled_move_all cs ids ids' after after' infos es :
  ids `prefix_of` ids' → (∀ r, after ≠ str "#r" ++ r) →
  Forall2 (spelled cs ids after) infos es → Forall2 (spelled cs ids' after') infos es.
Proof.
  intros Hids Hn H. eapply settled_move_all; [done|]. eapply Forall2_impl; [exact H|].
  intros. by eapply spelled_settled.
Qed.

(** The first byte left is not the [#] of a raw identifier. *)
Lemma not_raw c rest : c ≠ "#"%char → ∀ r, c :: rest ≠ str "#r" ++ r.
Proof. intros Hc r [= E _]. done. Qed.

Section text.
Context (b b' : TokenizedBuffer.t).
Implicit Types (ps : list piece) (before after text : list char).

(** What the methods change of the buffer besides its tokens. *)
Definition same_text : Prop :=
  source_text b' = source_text b ∧
  post_lexing_recovery_tokens b' = post_lexing_recovery_tokens b ∧
  recovery_tokens b' = recovery_tokens b ∧ has_errors b' = has_errors b ∧
  identifiers b `prefix_of` identifiers b'.

(** White space. *)
Lemma TextOk_blanks leading ps before cs after :
  same_text → token_infos b' = token_infos b → cs ≠ [] →
  Forall (λ c, IsSpace c = true ∨ c = "013"%char) cs →
  TextOk b leading ps before (cs ++ after) →
  TextOk b' true (ps ++ blanks cs) (before ++ cs) after.
Proof.
  intros (Es & Ep & Er & Ee & Hids) Et Hne Hcs [H1 H2 H3 H4 H5 H6 H7 H8].
  assert (∀ r, cs ++ after ≠ str "#r" ++ r) as Hn.
  { destruct cs as [|c cs]; [done|]. apply Forall_cons in Hcs as [Hc _].
    apply not_raw. intros ->. destruct Hc; done. }
  split.
  - by rewrite Es, H1, app_assoc.
  - by rewrite Ep, Er.
  - by rewrite Ee.
  - by rewrite pieces_text_app, H4, blanks_text.
  - apply Forall_app_2; [done|]. by apply Forall_fmap.
  - assert (Forall piece_closed (ps ++ blanks cs)) as Hc.
    { apply Forall_app_2; [|apply blanks_closed]. apply H6. by destruct cs. }
    split; [done|by apply closed_all].
  - destruct H7 as (info & infos & E & Hs & Hf). exists info, infos. rewrite Et.
    split; [done|]. split; [done|]. rewrite extents_app, blanks_extents, app_nil_r.
    rewrite <- app_assoc. by eapply spelled_move_all.
  - done.
Qed.

(** A comment; nothing follows one without a newline. *)
Lemma TextOk_comment leading ps before text after :
  same_text → token_infos b' = token_infos b → piece_ok (Comment text) →
  (after ≠ [] → piece_closed (Comment text)) →
  TextOk b leading ps before (text ++ after) →
  TextOk b' true (ps ++ [Comment text]) (before ++ text) after.
Proof.
  intros (Es & Ep & Er & Ee & Hids) Et Hok Hclosed [H1 H2 H3 H4 H5 H6 H7 H8].
  assert (∃ t, text = "/"%char :: t) as [t Ht].
  { destruct Hok as (body & _ & [-> | ->]); eexists; reflexivity. }
  split.
  - by rewrite Es, H1, app_assoc.
  - by rewrite Ep, Er.
  - by rewrite Ee.
  - by rewrite pieces_text_snoc, H4.
  - apply Forall_app_2; [done|]. by repeat constructor.
  - assert (Forall piece_closed ps) as Hc by (apply H6; by rewrite Ht).
    split; [|by apply closed_snoc]. intros Ha.
    apply Forall_app_2; [done|by repeat constructor; apply Hclosed].
  - destruct H7 as (info & infos & E & Hs & Hf). exists info, infos. rewrite Et.
    split; [done|]. split; [done|]. rewrite extents_snoc_other by done.
    rewrite <- app_assoc. eapply spelled_move_all; [done| |exact Hf].
    rewrite Ht. by apply not_raw.
  - done.
Qed.

(** A token. *)
Lemma TextOk_token leading ps before text after info :
  same_text → token_infos b' = token_infos b ++ [info] → starts_token text →
  Settled b ps (before ++ text ++ after) →
  spelled (before ++ text ++ after) (identifiers b') after info (vec_size before, text) →
  TextOk b leading ps before (text ++ after) →
  TextOk b' false (ps ++ [Token text]) (before ++ text) after.
Proof.
  intros (Es & Ep & Er & Ee & Hids) Et Hne Hset Hi [H1 H2 H3 H4 H5 H6 H7 H8]. split.
  - by rewrite Es, H1, app_assoc.
  - by rewrite Ep, Er.
  - by rewrite Ee.
  - by rewrite pieces_text_snoc, H4.
  - apply Forall_app_2; [done|]. by repeat constructor.
  - assert (Forall piece_closed ps) as Hc by (apply H6; by destruct text).
    split; [|by apply closed_snoc]. intros _. apply Forall_app_2; [done|by repeat constructor].
  - destruct H7 as (start & infos & E & Hs & Hf). exists start, (infos ++ [info]).
    rewrite Et, E. split; [done|]. split; [done|].
    rewrite extents_snoc_token, H4, <- app_assoc. apply Forall2_app; [|constructor; [exact Hi|constructor]].
    unfold Settled in Hset. rewrite E in Hset. by eapply settled_move_all.
  - intros _. by eexists _, _.
Qed.

(** The last token takes in the text after it. *)
Lemma TextOk_extend leading leading' ps before text more after start infos info info' :
  same_text → token_infos b = start :: infos ++ [info] →
  token_infos b' = start :: infos ++ [info'] →
  spelled (before ++ more ++ after) (identifiers b') after info'
    (vec_size before - vec_size text, text ++ more) →
  TextOk b leading (ps ++ [Token text]) before (more ++ after) → more ≠ [] →
  TextOk b' leading' (ps ++ [Token (text ++ more)]) (before ++ more) after.
Proof.
  intros (Es & Ep & Er & Ee & Hids) Et Et' Hi [H1 H2 H3 H4 H5 H6 H7 H8] Hmore. split.
  - by rewrite Es, H1, app_assoc.
  - by rewrite Ep, Er.
  - by rewrite Ee.
  - rewrite pieces_text_snoc in *. cbn [piece_text] in *. by rewrite app_assoc, H4.
  - apply Forall_app in H5 as [H5 H5']. apply Forall_app_2; [done|].
    apply Forall_cons in H5' as [H5' _]. constructor; [|done]. cbn in *. by destruct text.
  - destruct more as [|d more]; [done|]. pose proof (proj1 H6 ltac:(done)) as Hc.
    apply Forall_app in Hc as [Hc _]. split; [|by apply closed_snoc]. intros _.
    apply Forall_app_2; [done|]. by repeat constructor.
  - destruct H7 as (start' & infos' & E & Hs & Hf). exists start, (infos ++ [info']).
    rewrite Et in E. injection E as <- <-. split; [done|]. split; [done|].
    rewrite extents_snoc_token in Hf |- *. rewrite pieces_text_snoc in H4. cbn [piece_text] in H4.
    apply Forall2_app_inv_l in Hf as (es & es' & Hf & Hf' & E).
    apply Forall2_cons_inv_l in Hf' as (e & es'' & He & Hf' & ->).
    apply Forall2_nil_inv_l in Hf' as ->. apply app_inj_tail in E as [<- <-].
    rewrite <- H4, vec_size_app, Z.add_simpl_r in Hi. rewrite H4 in Hi.
    rewrite <- app_assoc. apply Forall2_app; [|by constructor].
    apply Forall_app in H5 as [H5 H5']. apply Forall_cons in H5' as [Hne _]. cbn in Hne.
    pose proof (extents_bound 0 ps H5) as Hbound. apply Forall2_same_length_lookup_2.
    { by eapply Forall2_length. }
    intros i x e Hx He'. eapply Forall2_lookup_lr in Hf; [|exact Hx|exact He'].
    eapply Forall_lookup_1 in Hbound; [|exact He']. destruct Hf as (Ho & Hk & Hsp).
    split; [done|]. split; [done|]. left. destruct Hsp as [Hsp|[_ Hsp]].
    { by eapply spells_more. }
    exfalso. rewrite <- H4, !vec_size_app in Hsp. destruct text as [|c text]; [done|].
    rewrite vec_size_cons in Hsp. pose proof (vec_size_nonneg text). lia.
  - intros _. by eexists _, _.
Qed.
End text.

(** * Lines *)

Definition horizontal (cs : list char) : Prop :=
  Forall (λ c, IsHorizontalWhitespace c = true) cs.

(** The indent of a line covers white space only. *)
Definition indent_ok (cs : list char) (info : LineInfo) : Prop :=
  0 ≤ start info ∧ 0 ≤ indent info ∧ start info + indent info ≤ vec_size cs ∧
  horizontal (take (Z.to_nat (indent info)) (drop (Z.to_nat (start info)) cs)).

(** The line table and the lexer's place in it. The place no longer matters at
    the end of the source. A token on the line lies after its indent. *)
Record LinesOk (lines : list LineInfo) (line : Z) (leading : bool)
    (before after : list char) : Prop := {
  lines_starts : start <$> lines = line_starts (before ++ after);
  lines_current : after ≠ [] → line = line_of before;
  lines_indent : ∃ info, vec_get lines line = Ok info ∧ indent_ok (before ++ after) info ∧
    (after ≠ [] → start info + indent info + (if leading then 0 else 1) ≤ vec_size before);
}.

Lemma horizontal_no_newline cs : horizontal cs → no_newline cs.
Proof.
  intros H. eapply Forall_impl; [exact H|]. intros c Hc. unfold IsHorizontalWhitespace in Hc.
  apply orb_true_iff in Hc. unfold IsVerticalWhitespace.
  destruct Hc as [->%char_eqb_eq | ->%char_eqb_eq]; reflexivity.
Qed.

Lemma LinesOk_same lines line leading leading' before text after :
  no_newline text → text ≠ [] → LinesOk lines line leading before (text ++ after) →
  LinesOk lines line leading' (before ++ text) after.
Proof.
  intros Hn Hne [H1 H2 H3]. assert (text ++ after ≠ []) as Hne' by (by destruct text).
  split.
  - by rewrite <- app_assoc.
  - intros _. rewrite line_of_same by done. auto.
  - destruct H3 as (info & Hi & Hok & Hb). exists info. rewrite <- app_assoc.
    split; [done|]. split; [done|]. intros _. specialize (Hb Hne').
    rewrite vec_size_app. destruct text as [|c text]; [done|]. rewrite vec_size_cons.
    pose proof (vec_size_nonneg text). destruct leading, leading'; lia.
Qed.

Lemma LinesOk_start lines line leading before after info :
  after ≠ [] → LinesOk lines line leading before after → vec_get lines line = Ok info →
  start info = start_of_line before.
Proof.
  intros Hne [H1 H2 _] [_ Hi]%vec_get_Ok. rewrite H2 in Hi by done.
  pose proof (current_line_start before after) as Hs. rewrite <- H1, list_lookup_fmap, Hi in Hs.
  by injection Hs.
Qed.

(** The table's line [k] starts where the source's does. *)
Lemma lines_get lines cs k st :
  start <$> lines = line_starts cs → 0 ≤ k → line_starts cs !! Z.to_nat k = Some st →
  ∃ info, vec_get lines k = Ok info ∧ start info = st.
Proof.
  intros E Hk H. rewrite <- E, list_lookup_fmap in H.
  destruct (lines !! Z.to_nat k) as [info|] eqn:Ei; [|done]. injection H as <-.
  exists info. split; [|done]. by apply vec_get_Ok.
Qed.

Lemma starts_set_indent lines k info n :
  vec_get lines k = Ok info →
  start <$> vec_set lines k {| start := start info; indent := n |} = start <$> lines.
Proof.
  intros [_ H]%vec_get_Ok. unfold vec_set. rewrite list_fmap_insert. cbn.
  apply list_insert_id. by rewrite list_lookup_fmap, H.
Qed.

(** * Groups *)

Definition opens (info : TokenInfo) : Prop := TokenKind.is_opening_symbol (kind info) = true.
Definition closes (info : TokenInfo) : Prop := TokenKind.is_closing_symbol (kind info) = true.

Implicit Types (ts : list TokenInfo) (groups : list Z).

(** As long as no bracket is mismatched: every opening symbol is still open, or
    holds the index of its match; every closing symbol is a match; matches
    nest, and do not enclose an open symbol only in part. *)
Record Matched ts groups : Prop := {
  matched_sorted : StronglySorted Z.lt groups;
  matched_opening i t : vec_get ts i = Ok t → opens t → i ∉ groups →
    i < token_payload t ∧
    ∃ u, vec_get ts (token_payload t) = Ok u ∧ kind u = TokenKind.closing_symbol (kind t);
  matched_closing j u : vec_get ts j = Ok u → closes u →
    ∃ i t, vec_get ts i = Ok t ∧ opens t ∧ (i ∉ groups) ∧ token_payload t = j;
  matched_nested i t i' t' : vec_get ts i = Ok t → opens t → i ∉ groups →
    vec_get ts i' = Ok t' → opens t' → i' ∉ groups →
    i < i' < token_payload t → token_payload t' < token_payload t;
  matched_crossing i t g : vec_get ts i = Ok t → opens t → i ∉ groups → g ∈ groups →
    i < g → token_payload t < g;
}.

(** Whether the brackets of a stream are matched, given the open symbols, innermost
    first. *)
Fixpoint balances (st ks : list TokenKind.t) : bool :=
  match ks with
  | [] => bool_decide (length st = 0%nat)
  | k :: ks =>
      if TokenKind.is_opening_symbol k then balances (k :: st) ks
      else if TokenKind.is_closing_symbol k then
        match st with
        | o :: st => TokenKind.eqb k (TokenKind.closing_symbol o) && balances st ks
        | [] => false
        end
      else balances st ks
  end.

Lemma balances_skip k ks rest :
  TokenKind.is_opening_symbol k = false → TokenKind.is_closing_symbol k = false → ∀ st,
  balances st (ks ++ k :: rest) = balances st (ks ++ rest).
Proof.
  intros Ho Hc. induction ks as [|k' ks IH]; intros st; cbn [app balances]; [by rewrite Ho, Hc|].
  destruct (TokenKind.is_opening_symbol k'); [done|]. destruct (TokenKind.is_closing_symbol k'); [|done].
  destruct st as [|o st]; [done|]. by rewrite IH.
Qed.

(** The open groups are those of the tokens; once one is mismatched, no
    continuation matches them all. *)
Definition tracks ts groups (mismatched : bool) : Prop :=
  if mismatched then ∀ rest, balances [] ((kind <$> ts) ++ rest) = false
  else ∃ st, Forall2 (λ g k, ∃ t, vec_get ts g = Ok t ∧ kind t = k) (reverse groups) st ∧
    ∀ rest, balances [] ((kind <$> ts) ++ rest) = balances st rest.

Record GroupsOk ts groups (mismatched : bool) : Prop := {
  groups_open : Forall (λ g, ∃ t, vec_get ts g = Ok t ∧ opens t) groups;
  groups_matched : mismatched = false → Matched ts groups;
  groups_track : tracks ts groups mismatched;
}.

Lemma opens_not_closes info : opens info → closes info → False.
Proof. unfold opens, closes. by destruct (kind info). Qed.

Lemma kinds_snoc ts info rest : (kind <$> ts ++ [info]) ++ rest = (kind <$> ts) ++ kind info :: rest.
Proof. by rewrite fmap_app, <- app_assoc. Qed.

Lemma plain_kind info :
  ¬ opens info → ¬ closes info →
  TokenKind.is_opening_symbol (kind info) = false ∧ TokenKind.is_closing_symbol (kind info) = false.
Proof. unfold opens, closes. by rewrite !not_true_iff_false. Qed.

Lemma group_kinds_mono ts info groups st :
  Forall2 (λ g k, ∃ t, vec_get ts g = Ok t ∧ kind t = k) groups st →
  Forall2 (λ g k, ∃ t, vec_get (ts ++ [info]) g = Ok t ∧ kind t = k) groups st.
Proof.
  intros H. eapply Forall2_impl; [exact H|]. cbn. intros g k (t & Hg & Ht). exists t.
  split; [by apply vec_get_app_l|done].
Qed.

Lemma tracks_other ts groups mm info :
  ¬ opens info → ¬ closes info → tracks ts groups mm → tracks (ts ++ [info]) groups mm.
Proof.
  intros Ho Hc. destruct (plain_kind _ Ho Hc) as [Ho' Hc']. destruct mm; cbn.
  - intros H rest. by rewrite kinds_snoc, balances_skip.
  - intros (st & Hst & H). exists st. split; [by apply group_kinds_mono|].
    intros rest. by rewrite kinds_snoc, balances_skip.
Qed.

Lemma tracks_drop ts groups mm info :
  ¬ opens info → ¬ closes info → Forall (λ g, ∃ t, vec_get ts g = Ok t ∧ opens t) groups →
  tracks (ts ++ [info]) groups mm → tracks ts groups mm.
Proof.
  intros Ho Hc Hg. destruct (plain_kind _ Ho Hc) as [Ho' Hc']. destruct mm; cbn.
  - intros H rest. specialize (H rest). by rewrite kinds_snoc, balances_skip in H.
  - intros (st & Hst & H). exists st. split.
    + apply Forall_reverse in Hg. revert Hst. clear H. revert st.
      induction Hg as [|g gs (t & Ht & _) _ IH]; intros st; [by intros ->%Forall2_nil_inv_l|].
      intros (k & st' & (t' & Ht' & <-) & Hst & ->)%Forall2_cons_inv_l. constructor; [|by apply IH].
      exists t. split; [done|]. apply (vec_get_app_l _ [info]) in Ht. rewrite Ht in Ht'. by injection Ht' as ->.
    + intros rest. specialize (H rest). by rewrite kinds_snoc, balances_skip in H.
Qed.

Lemma tracks_open ts groups mm info :
  opens info → tracks ts groups mm → tracks (ts ++ [info]) (groups ++ [vec_size ts]) mm.
Proof.
  intros Ho. destruct mm; cbn.
  - intros H rest. by rewrite kinds_snoc.
  - intros (st & Hst & H). exists (kind info :: st). split.
    + rewrite reverse_snoc. constructor; [|by apply group_kinds_mono]. exists info.
      split; [apply vec_get_app_last|done].
    + intros rest. rewrite kinds_snoc, H. cbn [balances]. unfold opens in Ho. by rewrite Ho.
Qed.

(** The closing symbol does not match the innermost open one, if there is one. *)
Lemma tracks_mismatch ts groups mm info gs :
  closes info → (∀ g, last groups = Some g → ∃ t, vec_get ts g = Ok t ∧ opens t ∧
    kind t ≠ TokenKind.opening_symbol (kind info)) →
  tracks ts groups mm → tracks (ts ++ [info]) gs true.
Proof.
  intros Hc Hl. pose proof (opens_not_closes info) as Hno. destruct mm; cbn.
  - intros H rest. by rewrite kinds_snoc.
  - intros (st & Hst & H) rest. rewrite kinds_snoc, H. cbn [balances]. unfold opens, closes in *.
    rewrite Hc. destruct (TokenKind.is_opening_symbol (kind info)); [by destruct Hno|].
    destruct st as [|o st]; [done|]. destruct groups as [|g groups _] using rev_ind.
    { by apply Forall2_nil_inv_l in Hst. }
    destruct (Hl g) as (t & Ht & Hot & Hk); [apply last_snoc|]. rewrite reverse_snoc in Hst.
    apply Forall2_cons in Hst as [(t' & Ht' & <-) _]. rewrite Ht in Ht'. injection Ht' as <-.
    apply andb_false_iff. left. destruct (TokenKind.token_eqb_spec (kind info) (TokenKind.closing_symbol (kind t)))
      as [E|]; [|done]. destruct Hk. rewrite E. by destruct (kind t).
Qed.

Lemma tracks_close ts groups g mm info t t' :
  vec_get ts g = Ok t → closes info → opens t → kind t = TokenKind.opening_symbol (kind info) →
  kind t' = kind t → tracks ts (groups ++ [g]) mm → tracks (vec_set (ts ++ [info]) g t') groups mm.
Proof.
  intros Hg Hc Ho Hk Hk'.
  assert (0 ≤ g < vec_size (ts ++ [info])) as Hr.
  { apply vec_get_lt in Hg. rewrite vec_size_app. change (vec_size [info]) with 1. lia. }
  assert (kind <$> vec_set (ts ++ [info]) g t' = kind <$> ts ++ [info]) as Ek.
  { unfold vec_set. rewrite list_fmap_insert, Hk'. apply list_insert_id. rewrite list_lookup_fmap.
    apply (vec_get_app_l _ [info]), vec_get_Ok in Hg as [_ ->]. done. }
  pose proof (opens_not_closes info) as Hno.
  destruct mm; cbn.
  - intros H rest. rewrite Ek. by rewrite kinds_snoc.
  - intros (st & Hst & H). rewrite reverse_snoc in Hst.
    apply Forall2_cons_inv_l in Hst as (k & st' & (t1 & Ht1 & <-) & Hst & ->). rewrite Hg in Ht1. injection Ht1 as <-.
    exists st'. split.
    + eapply Forall2_impl; [exact Hst|]. intros h k (x & Hx & Hkx). destruct (decide (g = h)) as [->|Hne].
      * exists t'. split; [apply (vec_get_set _ _ _ _ _ Hr); by left|]. rewrite Hg in Hx. injection Hx as <-. congruence.
      * exists x. split; [|done]. apply (vec_get_set _ _ _ _ _ Hr). right. split; [done|]. by apply vec_get_app_l.
    + intros rest. rewrite Ek, kinds_snoc, H. cbn [balances]. unfold opens, closes in *.
      rewrite Hc. destruct (TokenKind.is_opening_symbol (kind info)); [by destruct Hno|].
      rewrite Hk. replace (TokenKind.closing_symbol (TokenKind.opening_symbol (kind info))) with (kind info)
        by (by destruct (kind info)). by rewrite TokenKind.token_eqb_refl.
Qed.

Lemma Matched_other ts groups info :
  ¬ opens info → ¬ closes info → Matched ts groups → Matched (ts ++ [info]) groups.
Proof.
  intros Ho Hc [H1 H2 H3 H4 H5].
  assert (∀ i t, vec_get (ts ++ [info]) i = Ok t → opens t ∨ closes t → vec_get ts i = Ok t) as Hold.
  { intros i t [H|[_ ->]]%vec_get_snoc_inv; [done|]. tauto. }
  split; [done|..].
  - intros i t Hi Ht Hg. destruct (H2 i t) as (Hlt & u & Hu & Hk); [auto..|].
    split; [done|]. exists u. split; [by apply vec_get_app_l|done].
  - intros j u Hu Hcl. destruct (H3 j u) as (i & t & Hi & Ht & Hg & E); [auto..|].
    exists i, t. split; [by apply vec_get_app_l|done].
  - intros i t i' t' Hi Ht Hg Hi' Ht' Hg'. apply (H4 i t i' t'); auto.
  - intros i t g Hi Ht. apply (H5 i t g); auto.
Qed.

Lemma GroupsOk_other ts groups mm info :
  ¬ opens info → ¬ closes info → GroupsOk ts groups mm → GroupsOk (ts ++ [info]) groups mm.
Proof.
  intros Ho Hc [H1 H2 H3]. split.
  - eapply Forall_impl; [exact H1|]. intros g (t & Hg & Ht). exists t.
    split; [by apply vec_get_app_l|done].
  - intros E. apply Matched_other; auto.
  - by apply tracks_other.
Qed.

Lemma GroupsOk_below ts groups mm : GroupsOk ts groups mm → Forall (λ g, 0 ≤ g < vec_size ts) groups.
Proof.
  intros [H _ _]. eapply Forall_impl; [exact H|]. intros g (t & Hg & _).
  by eapply vec_get_lt.
Qed.

Lemma StronglySorted_snoc groups n :
  StronglySorted Z.lt groups → Forall (λ g, g < n) groups → StronglySorted Z.lt (groups ++ [n]).
Proof.
  induction 1 as [|g groups Hs IH Hg]; intros Hn; [by repeat constructor|].
  apply Forall_cons in Hn as [Hn Hn']. cbn [app]. constructor; [auto|].
  apply Forall_app_2; [done|by repeat constructor].
Qed.

Lemma GroupsOk_open_symbol ts groups mm info :
  opens info → GroupsOk ts groups mm → GroupsOk (ts ++ [info]) (groups ++ [vec_size ts]) mm.
Proof.
  intros Ho HG. pose proof (GroupsOk_below _ _ _ HG) as Hb. destruct HG as [H1 H2 H3].
  split; [| |by apply tracks_open].
  { apply Forall_app_2.
    - eapply Forall_impl; [exact H1|]. intros g (t & Hg & Ht). exists t.
      split; [by apply vec_get_app_l|done].
    - constructor; [|constructor]. exists info. split; [apply vec_get_app_last|done]. }
  intros E. specialize (H2 E) as [M1 M2 M3 M4 M5].
  assert (∀ i t, vec_get (ts ++ [info]) i = Ok t → i ∉ groups ++ [vec_size ts] →
    vec_get ts i = Ok t ∧ i ∉ groups) as Hold.
  { intros i t Hi Hn. rewrite elem_of_app, list_elem_of_singleton in Hn.
    apply vec_get_snoc_inv in Hi as [H|[-> _]]; [split; [done|]|]; tauto. }
  split.
  - apply StronglySorted_snoc; [done|]. eapply Forall_impl; [exact Hb|]. cbn. lia.
  - intros i t Hi Ht Hg. destruct (Hold _ _ Hi Hg) as [Hi' Hg'].
    destruct (M2 i t) as (Hlt & u & Hu & Hk); [done..|].
    split; [done|]. exists u. split; [by apply vec_get_app_l|done].
  - intros j u Hu Hcl. apply vec_get_snoc_inv in Hu as [Hu|[_ ->]].
    2: { by destruct (opens_not_closes info). }
    destruct (M3 j u) as (i & t & Hi & Ht & Hg & Et); [done..|]. exists i, t.
    split; [by apply vec_get_app_l|]. split; [done|]. split; [|done].
    rewrite elem_of_app, list_elem_of_singleton. intros [? | ->]; [done|].
    apply vec_get_lt in Hi. lia.
  - intros i t i' t' Hi Ht Hg Hi' Ht' Hg'. destruct (Hold _ _ Hi Hg), (Hold _ _ Hi' Hg').
    by apply (M4 i t i' t').
  - intros i t g Hi Ht Hg Hg' Hlt. destruct (Hold _ _ Hi Hg) as [Hi' Hn].
    apply elem_of_app in Hg' as [Hg'|Hg']; [by apply (M5 i t g)|].
    apply list_elem_of_singleton in Hg' as ->.
    destruct (M2 i t) as (_ & u & Hu & _); [done..|]. apply vec_get_lt in Hu. lia.
Qed.

(** A token that is no bracket can be changed for another. *)
Lemma GroupsOk_drop ts groups mm info :
  ¬ opens info → ¬ closes info → GroupsOk (ts ++ [info]) groups mm → GroupsOk ts groups mm.
Proof.
  intros Ho Hc [H1 H2 H3].
  assert (∀ i t, vec_get (ts ++ [info]) i = Ok t → opens t ∨ closes t → vec_get ts i = Ok t) as Hold.
  { intros i t [H|[_ ->]]%vec_get_snoc_inv; [done|]. tauto. }
  assert (Forall (λ g, ∃ t, vec_get ts g = Ok t ∧ opens t) groups) as Hopen.
  { eapply Forall_impl; [exact H1|]. intros g (t & Hg & Ht). exists t. auto. }
  split; [done| |by eapply tracks_drop].
  intros E. specialize (H2 E) as [M1 M2 M3 M4 M5].
  split; [done|..].
  - intros i t Hi Ht Hg. destruct (M2 i t) as (Hlt & u & Hu & Hk); [by apply vec_get_app_l|done..|].
    split; [done|]. exists u. split; [|done]. apply Hold; [done|]. right.
    unfold opens, closes in *. rewrite Hk. by destruct (kind t).
  - intros j u Hu Hcl. destruct (M3 j u) as (i & t & Hi & Ht & Hg & Et); [by apply vec_get_app_l|done|].
    exists i, t. split; [auto|done].
  - intros i t i' t' Hi Ht Hg Hi' Ht' Hg'.
    apply (M4 i t i' t'); auto using vec_get_app_l.
  - intros i t g Hi Ht. apply (M5 i t g); auto using vec_get_app_l.
Qed.

(** Once a bracket is mismatched only the open symbols matter. *)
Lemma GroupsOk_mismatch ts groups gs mm info :
  (∀ g, g ∈ gs → g ∈ groups) → closes info →
  (∀ g, last groups = Some g → ∃ t, vec_get ts g = Ok t ∧ opens t ∧
    kind t ≠ TokenKind.opening_symbol (kind info)) →
  GroupsOk ts groups mm → GroupsOk (ts ++ [info]) gs true.
Proof.
  intros Hg Hc Hl [H _ Htr]. split; [|done|by eapply tracks_mismatch]. apply Forall_forall. intros g Hin.
  rewrite Forall_forall in H. destruct (H g (Hg g Hin)) as (t & Ht & Ho).
  exists t. split; [by apply vec_get_app_l|done].
Qed.

(** The innermost open symbol meets its match. *)
Lemma GroupsOk_close_symbol ts groups g mm info t t' :
  vec_get ts g = Ok t → closes info → kind t = TokenKind.opening_symbol (kind info) →
  kind t' = kind t → token_payload t' = vec_size ts →
  GroupsOk ts (groups ++ [g]) mm →
  GroupsOk (vec_set (ts ++ [info]) g t') groups mm.
Proof.
  intros Hg Hc Hk Hk' Hp HG. pose proof (GroupsOk_below _ _ _ HG) as Hb. destruct HG as [H1 H2 H3].
  apply Forall_app in H1 as [H1 _]. apply Forall_app in Hb as [Hb _].
  pose proof (vec_get_lt _ _ _ Hg) as Hgb.
  assert (opens t') as Ho by (unfold opens, closes in *; rewrite Hk', Hk; by destruct (kind info)).
  assert (opens t) as Ho' by (unfold opens in *; by rewrite <- Hk').
  assert (0 ≤ g < vec_size (ts ++ [info])) as Hgr.
  { rewrite vec_size_app. unfold vec_size at 2. cbn [length]. lia. }
  assert (∀ i x, vec_get (vec_set (ts ++ [info]) g t') i = Ok x ↔
    g = i ∧ t' = x ∨ g ≠ i ∧ vec_get (ts ++ [info]) i = Ok x) as Hget
    by (intros; by apply vec_get_set).
  split; [| |by eapply tracks_close].
  { apply Forall_forall. intros h Hh. rewrite Forall_forall in H1.
    destruct (H1 h Hh) as (x & Hx & Hox). destruct (decide (g = h)) as [<-|Hne].
    - exists t'. split; [apply Hget; by left|done].
    - exists x. split; [apply Hget; right; split; [done|by apply vec_get_app_l]|done]. }
  intros E. specialize (H2 E) as [M1 M2 M3 M4 M5].
  assert (Forall (λ h, h < g) groups) as Hlt.
  { clear -M1. induction groups as [|h groups IH]; [done|]. cbn in M1.
    apply StronglySorted_inv in M1 as [M1 Hf]. constructor; [|auto].
    rewrite Forall_app, Forall_singleton in Hf. apply Hf. }
  assert (StronglySorted Z.lt groups) as Hs.
  { clear -M1. induction groups as [|h groups IH]; [constructor|]. cbn in M1.
    apply StronglySorted_inv in M1 as [M1 Hf]. constructor; [auto|].
    by apply Forall_app in Hf as [Hf _]. }
  assert (∀ i x, vec_get (vec_set (ts ++ [info]) g t') i = Ok x → opens x → i ≠ g → i ∉ groups →
    vec_get ts i = Ok x ∧ i ∉ groups ++ [g]) as Hold.
  { intros i x Hi Hx Hne Hn. apply Hget in Hi as [[<- _]|[_ Hi]]; [done|].
    apply vec_get_snoc_inv in Hi as [Hi|[_ ->]].
    - split; [done|]. rewrite elem_of_app, list_elem_of_singleton. tauto.
    - by destruct (opens_not_closes info). }
  assert (∀ i x, vec_get (vec_set (ts ++ [info]) g t') i = Ok x → opens x → i ∉ groups →
    i = g ∧ x = t' ∨ i ≠ g ∧ vec_get ts i = Ok x ∧ i ∉ groups ++ [g]) as Hcase.
  { intros i x Hi Hx Hn. destruct (decide (i = g)) as [->|Hne]; [|right; split; auto].
    left. apply Hget in Hi as [[_ <-]|[Hne _]]; done. }
  assert (∀ i x, vec_get ts i = Ok x → closes x →
    vec_get (vec_set (ts ++ [info]) g t') i = Ok x) as Hkeep.
  { intros i x Hi Hx. apply Hget. right. split; [|by apply vec_get_app_l].
    intros ->. rewrite Hg in Hi. injection Hi as ->. by destruct (opens_not_closes x). }
  split; [done|..].
  - intros i x Hi Hx Hn. destruct (Hcase i x Hi Hx Hn) as [[-> ->]|(Hne & Hi' & Hn')].
    + rewrite Hp. split; [lia|]. exists info. split.
      * apply Hget. right. split; [lia|]. apply vec_get_app_last.
      * rewrite Hk', Hk. unfold closes in Hc. by destruct (kind info).
    + destruct (M2 i x) as (Hi1 & u & Hu & Hku); [done..|]. split; [done|]. exists u.
      split; [|done]. apply Hkeep; [done|]. unfold closes, opens in *. rewrite Hku. by destruct (kind x).
  - intros j u Hu Hcl. apply Hget in Hu as [[_ <-]|[Hne Hu]].
    { by destruct (opens_not_closes t'). }
    apply vec_get_snoc_inv in Hu as [Hu|[-> ->]].
    + destruct (M3 j u) as (i & x & Hi & Hx & Hn & Ej); [done..|].
      rewrite elem_of_app, list_elem_of_singleton in Hn. exists i, x.
      split; [apply Hget; right; split; [|by apply vec_get_app_l]; intros ->; tauto|]. tauto.
    + exists g, t'. split; [apply Hget; by left|]. split; [done|]. split; [|done].
      intros Hin. rewrite Forall_forall in Hlt. specialize (Hlt g Hin). cbn in Hlt. lia.
  - intros i x i' x' Hi Hx Hn Hi' Hx' Hn' Hii.
    destruct (Hcase i' x' Hi' Hx' Hn') as [[-> ->]|(Hne' & Hi2' & Hn2')];
      destruct (Hcase i x Hi Hx Hn) as [[-> ->]|(Hne & Hi2 & Hn2)].
    + lia.
    + assert (token_payload x < g); [|lia]. eapply M5; [exact Hi2|done|done| |lia].
      rewrite elem_of_app, list_elem_of_singleton. by right.
    + rewrite Hp in *. destruct (M2 i' x') as (_ & u & Hu & _); [done..|].
      apply vec_get_lt in Hu. lia.
    + by apply (M4 i x i' x').
  - intros i x h Hi Hx Hn Hh Hih. destruct (Hcase i x Hi Hx Hn) as [[-> ->]|(Hne & Hi2 & Hn2)].
    + rewrite Forall_forall in Hlt. specialize (Hlt h Hh). cbn in Hlt. lia.
    + eapply M5; [exact Hi2|done|done| |done]. rewrite elem_of_app. by left.
Qed.

(** * The invariant *)

Section invariant.
Context {Ops : APInts} {Laws : APIntLaws Ops}.

(** Each store has room for one more value per byte left. *)
Record RoomOk (s : LexerState) (after : list char) : Prop := {
  room_ints : wf (ints s) ∧ vec_size (ints s) + vec_size after < MaxSource;
  room_reals : vec_size (reals s) + vec_size after < MaxSource;
  room_strings : vec_size (string_literal_values s) + vec_size after < MaxSource;
  room_identifiers : vec_size (identifiers (buffer s)) + vec_size after < MaxSource;
}.

Record Inv (s : LexerState) (ps : list piece) (before after : list char) : Prop := {
  inv_text : TextOk (buffer s) (leading_space s) ps before after;
  inv_lines : LinesOk (line_infos (buffer s)) (line_index s) (leading_space s) before after;
  inv_groups : GroupsOk (token_infos (buffer s)) (open_groups s) (has_mismatched_brackets s);
  inv_room : RoomOk s after;
  inv_notes : NotesOk (comments s) ps;
  inv_count : vec_size (token_infos (buffer s)) ≤ 1 + vec_size before;
  inv_size : vec_size (before ++ after) < MaxSource;
}.

Definition no_error_tokens (s : LexerState) : Prop :=
  Forall (λ info, kind info ≠ TokenKind.Error) (token_infos (buffer s)).

(** What a dispatch does: it takes some text, returns the position after it, and
    makes no error token without a diagnostic. *)
Definition Moved (s : LexerState) (before after : list char)
    (position : Z) (s' : LexerState) (w : list LexDiagnostic) : Prop :=
  ∃ taken after' ps', taken ≠ [] ∧ after = taken ++ after' ∧
    position = vec_size (before ++ taken) ∧ Inv s' ps' (before ++ taken) after' ∧
    (w = [] → no_error_tokens s → no_error_tokens s').

Lemma RoomOk_shrink s taken after :
  RoomOk s (taken ++ after) → RoomOk s after.
Proof.
  intros [[H1 H2] H3 H4 H5]. pose proof (vec_size_nonneg taken).
  rewrite vec_size_app in *. split; [split; [done|lia]|lia..].
Qed.
End invariant.
