(* ===== verification/LexSteps.v ===== *)
(** The methods that form a token keep the invariant: each takes some text, adds
    the token that spells it, and never fails a check. *)

From S2P Require Import Prelude TokenKinds Text APInts CanonicalStores IntStores IntLaws.
From S2P Require Import LexDiagnostics StringShape Tokens TokenText LexState LexComments.
From S2P Require Import LexTokens LexPieces LexInvariant.
Import TokenizedBuffer.

(** * The source around a position *)

Section views.
Context (before after : list char).
Hypothesis Hsize : vec_size (before ++ after) < MaxSource.

Definition here : StringRef.t := StringRef.mk 0 (before ++ after).

Lemma here_size : StringRef.size here = vec_size before + vec_size after.
Proof. unfold StringRef.size, here. cbn [StringRef.chars]. apply vec_size_app. Qed.

Lemma drop_here : drop (Z.to_nat (vec_size before)) (before ++ after) = after.
Proof. unfold vec_size. by rewrite Nat2Z.id, drop_app_length. Qed.

Lemma at_here n c : vec_get after n = Ok c → StringRef.at_ here (vec_size before + n) = Ok c.
Proof. apply vec_get_app_r. Qed.

Lemma at_first c rest : after = c :: rest → StringRef.at_ here (vec_size before) = Ok c.
Proof. intros E. rewrite <- (Z.add_0_r (vec_size before)). apply at_here. by rewrite E. Qed.

Lemma vec_size_lt : vec_size before < 2 ^ 31 ∧ vec_size after < 2 ^ 31.
Proof.
  pose proof Hsize as H. rewrite vec_size_app in H. unfold MaxSource in H.
  pose proof (vec_size_nonneg before). pose proof (vec_size_nonneg after). lia.
Qed.

Lemma substr_here :
  StringRef.substr_from here (vec_size before) = StringRef.mk (vec_size before) after.
Proof.
  pose proof vec_size_lt. pose proof (vec_size_nonneg before). pose proof (vec_size_nonneg after).
  rewrite StringRef.substr_from_in by (rewrite here_size; lia).
  unfold here. cbn [StringRef.begin StringRef.chars]. by rewrite drop_here.
Qed.

Lemma substr_here_n n :
  0 ≤ n ≤ vec_size after →
  StringRef.substr here (vec_size before) n =
    StringRef.mk (vec_size before) (take (Z.to_nat n) after).
Proof.
  intros Hn. pose proof vec_size_lt. pose proof (vec_size_nonneg before).
  rewrite StringRef.substr_all_in by (rewrite ?here_size; lia).
  unfold here. cbn [StringRef.begin StringRef.chars]. by rewrite drop_here.
Qed.

Lemma skip_here :
  SkipHorizontalWhitespace here (vec_size before) =
    vec_size (before ++ take_while IsHorizontalWhitespace after).
Proof.
  unfold SkipHorizontalWhitespace, here. cbn [StringRef.chars].
  by rewrite drop_here, vec_size_app.
Qed.
End views.

(** A view of the source after some more text. *)
Lemma here_app before text after : here before (text ++ after) = here (before ++ text) after.
Proof. unfold here. by rewrite app_assoc. Qed.

(** The source from a token that starts after [before]. *)
Lemma rest_at_here before after info :
  byte_offset info = vec_size before → rest_at (before ++ after) info = after.
Proof. intros E. unfold rest_at. rewrite E. apply drop_here. Qed.

Lemma ref_at_here before after info :
  byte_offset info = vec_size before →
  ref_at (before ++ after) info = StringRef.mk (vec_size before) after.
Proof. intros E. unfold ref_at. by rewrite (rest_at_here _ _ _ E), E. Qed.

(** [total_steps], with the result of a method that forms a token. *)
Ltac form_steps := total_steps; unfold formed; total_steps.

Section steps.
Context {Ops : APInts} {Laws : APIntLaws Ops} {Build : LexBuild}.
Implicit Types (s : LexerState) (ps : list piece) (before after text : list char).

(** * Adding a token *)

Definition with_token (info : TokenInfo) s : LexerState :=
  set_buffer (λ b, AddToken b info) (set_leading_space false s).

Lemma AddLexedToken_total info (Q : Z → LexerState → list LexDiagnostic → Prop) s :
  vec_size (token_infos (buffer s)) < MaxSource + 1 →
  Q (vec_size (token_infos (buffer s))) (with_token info s) [] → total (AddLexedToken info) Q s.
Proof.
  intros Hs HQ. unfold AddLexedToken. total_steps. eapply total_lift.
  { unfold ValueStoreAdd. rewrite (proj2 (Z.ltb_lt _ _)); [reflexivity|].
    unfold MaxSource in Hs. cbn. lia. }
  total_steps. exact HQ.
Qed.

Lemma LexTokenWithPayload_total k payload off
    (Q : Z → LexerState → list LexDiagnostic → Prop) s :
  vec_size (token_infos (buffer s)) < MaxSource + 1 →
  Q (vec_size (token_infos (buffer s)))
    (with_token (MakeTokenInfo k (leading_space s) payload off) s) [] →
  total (LexTokenWithPayload k payload off) Q s.
Proof.
  intros Hs HQ. unfold LexTokenWithPayload. total_steps. by apply AddLexedToken_total.
Qed.

Lemma LexToken_total k off (Q : Z → LexerState → list LexDiagnostic → Prop) s :
  TokenKind.IsOneOf k payload_kinds = false →
  vec_size (token_infos (buffer s)) < MaxSource + 1 →
  Q (vec_size (token_infos (buffer s)))
    (with_token (MakeTokenInfo k (leading_space s) unset_payload off) s) [] →
  total (LexToken k off) Q s.
Proof.
  intros Hk Hs HQ. unfold LexToken. total_step. apply total_check; [by rewrite Hk|].
  total_steps. by apply AddLexedToken_total.
Qed.

Lemma token_room s ps before c rest :
  Inv s ps before (c :: rest) → vec_size (token_infos (buffer s)) < MaxSource.
Proof.
  intros H. pose proof (inv_count _ _ _ _ H). pose proof (inv_size _ _ _ _ H) as Hs.
  rewrite vec_size_app, vec_size_cons in Hs. pose proof (vec_size_nonneg rest). lia.
Qed.

(** The invariant after a token on one line. *)
Lemma Inv_symbol s s' ps before text after info :
  Inv s ps before (text ++ after) → Settled (buffer s) ps (before ++ text ++ after) →
  same_text (buffer s) (buffer s') →
  token_infos (buffer s') = token_infos (buffer s) ++ [info] →
  leading_space s' = false → line_infos (buffer s') = line_infos (buffer s) →
  line_index s' = line_index s → comments s' = comments s →
  GroupsOk (token_infos (buffer s')) (open_groups s') (has_mismatched_brackets s') →
  RoomOk s' after → starts_token text → no_newline text →
  spelled (before ++ text ++ after) (identifiers (buffer s')) after info
    (vec_size before, text) →
  Inv s' (ps ++ [Token text]) (before ++ text) after.
Proof.
  intros [H1 H2 H3 H4 H5 H6 H7] Hset Hb Et El Eln Eli Ec Hg Hroom Hne Hnl Hsp. split.
  - rewrite El. by eapply TextOk_token.
  - rewrite Eln, Eli. eapply LinesOk_same; [done|by apply starts_token_ne|done].
  - done.
  - done.
  - rewrite Ec. by apply NotesOk_token.
  - rewrite Et, !vec_size_app. destruct text as [|c text]; [done|].
    rewrite !vec_size_cons. change (vec_size (@nil TokenInfo)) with 0.
    pose proof (vec_size_nonneg text). lia.
  - by rewrite <- app_assoc.
Qed.

(** And when it opens and closes nothing. *)
Lemma Inv_token s s' ps before text after info :
  Inv s ps before (text ++ after) → Settled (buffer s) ps (before ++ text ++ after) →
  same_text (buffer s) (buffer s') →
  token_infos (buffer s') = token_infos (buffer s) ++ [info] →
  leading_space s' = false → line_infos (buffer s') = line_infos (buffer s) →
  line_index s' = line_index s → open_groups s' = open_groups s →
  has_mismatched_brackets s' = has_mismatched_brackets s → comments s' = comments s →
  RoomOk s' after → starts_token text → no_newline text → ¬ opens info → ¬ closes info →
  spelled (before ++ text ++ after) (identifiers (buffer s')) after info
    (vec_size before, text) →
  Inv s' (ps ++ [Token text]) (before ++ text) after.
Proof.
  intros H Hset Hb Et El Eln Eli Eg Em Ec Hroom Hne Hnl Ho Hc Hsp. eapply Inv_symbol; try done.
  rewrite Et, Eg, Em. apply GroupsOk_other; [done|done|]. apply (inv_groups _ _ _ _ H).
Qed.

(** The payload of a token with a fixed spelling can change. *)
Lemma TextOk_set_payload (b b' : TokenizedBuffer.t) leading ps before after i t t' :
  same_text b b' → vec_get (token_infos b) i = Ok t →
  token_infos b' = vec_set (token_infos b) i t' →
  kind t' = kind t → byte_offset t' = byte_offset t →
  TokenKind.fixed_spelling (kind t) ≠ ""%string → identifiers b' = identifiers b →
  TextOk b leading ps before after → TextOk b' leading ps before after.
Proof.
  intros (Es & Ep & Er & Ee & _) Hi Et Ek Eo Hf Eids [H1 H2 H3 H4 H5 H6 H7 H8].
  split; [by rewrite Es|by rewrite Ep, Er|by rewrite Ee|done|done|done| |done].
  destruct H7 as (info & infos & E & Hs & Hsp). rewrite E in Hi. rewrite Et, E, Eids.
  apply vec_get_Ok in Hi as [Hi0 Hi]. unfold vec_set.
  destruct (Z.to_nat i) as [|n]; cbn [insert list_insert] in Hi |- *.
  - injection Hi as ->. exists t', infos. split; [done|]. split; [|done].
    destruct Hs. by split; congruence.
  - exists info, (<[n:=t']> infos). split; [done|]. split; [done|].
    apply Forall2_same_length_lookup_2.
    { rewrite length_insert. by eapply Forall2_length. }
    intros j x e Hx He. destruct (decide (j = n)) as [->|Hne].
    + rewrite list_lookup_insert_eq in Hx by by eapply lookup_lt_Some. injection Hx as <-.
      eapply Forall2_lookup_lr in Hsp as (Ho & Hk & Hsp); [|exact Hi|exact He].
      split; [congruence|]. rewrite Ek. split; [done|].
      destruct Hsp as [Hsp|[(Hk' & _) _]]; [|by rewrite Hk' in Hf].
      left. destruct Hsp as [_|?? Hk' _ _|? [Hk'|Hk'] _|? [Hk'|Hk'] _|???[Hk'|Hk'] _ _
        |[Hk'|Hk']|? Hk' _ _ _|?? Hk' _ _ _]; try by rewrite Hk' in Hf.
      * rewrite <- Ek. apply spells_fixed. by rewrite Ek.
      * exfalso. apply sized_kinds in Hk' as [Hk'|[Hk'|Hk']]; by rewrite Hk' in Hf.
    + rewrite list_lookup_insert_ne in Hx by done. by eapply Forall2_lookup_lr in Hsp.
Qed.

(** States that differ in the value stores and the whitespace flag only. *)
Record Same s0 s : Prop := {
  same_buffer : same_text (buffer s0) (buffer s);
  same_tokens : token_infos (buffer s) = token_infos (buffer s0);
  same_lines : line_infos (buffer s) = line_infos (buffer s0);
  same_line : line_index s = line_index s0;
  same_groups : open_groups s = open_groups s0;
  same_mismatched : has_mismatched_brackets s = has_mismatched_brackets s0;
  same_comments : comments s = comments s0;
}.

Lemma Same_refl s : Same s s.
Proof. by repeat split. Qed.

(** The state after a token, when nothing else changed but the stores. *)
Lemma Inv_with_token s0 s ps before text after k payload :
  Inv s0 ps before (text ++ after) → Settled (buffer s0) ps (before ++ text ++ after) →
  Same s0 s → RoomOk s after → starts_token text → no_newline text →
  TokenKind.is_grouping_symbol k = false →
  (let info := MakeTokenInfo k (leading_space s) payload (vec_size before) in
   spelled (before ++ text ++ after) (identifiers (buffer s)) after info
     (vec_size before, text)) →
  Inv (with_token (MakeTokenInfo k (leading_space s) payload (vec_size before)) s)
    (ps ++ [Token text]) (before ++ text) after.
Proof.
  intros H Hset [Hb Et Eln Eli Eg Em Ec] Hr Hne Hnl Hk Hsp. eapply Inv_token; try done.
  - cbn. by rewrite Et.
  - by destruct Hr.
  - unfold opens. cbn. by destruct k.
  - unfold closes. cbn. by destruct k.
Qed.

Lemma no_errors_with_token s s0 info :
  token_infos (buffer s) = token_infos (buffer s0) → kind info ≠ TokenKind.Error →
  no_error_tokens s0 → no_error_tokens (with_token info s).
Proof.
  intros E Hk H. unfold no_error_tokens in *. cbn. rewrite E.
  apply Forall_app_2; [done|by constructor].
Qed.

Lemma Moved_intro s before after text rest ps' position s' w :
  text ≠ [] → after = text ++ rest → position = vec_size (before ++ text) →
  Inv s' ps' (before ++ text) rest →
  (w = [] → no_error_tokens s → no_error_tokens s') →
  Moved s before after position s' w.
Proof. intros. by eexists _, _, _. Qed.

(** The result of a method that forms a token. *)
Definition Formed s before after (r : bool * Z) s' w : Prop :=
  r.1 = true ∧ Moved s before after r.2 s' w.

(** * Errors *)

Lemma payload_small n : 0 ≤ n < MaxSource → n mod 2 ^ PayloadBits = n.
Proof. intros Hn. apply Z.mod_small. unfold MaxSource, PayloadBits in *. lia. Qed.

Lemma error_char_no_newline cs : no_newline (take_while is_error_char cs).
Proof.
  eapply Forall_impl; [apply take_while_all|]. intros c Hc. cbn in Hc.
  destruct (IsVerticalWhitespace c) eqn:E; [|done].
  unfold IsVerticalWhitespace in E. apply char_eqb_eq in E as ->. by vm_compute in Hc.
Qed.

(** An error token over [text]. *)
Lemma error_token_total s0 s ps before text after
    (Q : Z → LexerState → list LexDiagnostic → Prop) :
  Inv s0 ps before (text ++ after) → Settled (buffer s0) ps (before ++ text ++ after) →
  Same s0 s → RoomOk s after → starts_token text → no_newline text →
  (∀ t s', Inv s' (ps ++ [Token text]) (before ++ text) after → Q t s' []) →
  total (LexTokenWithPayload TokenKind.Error (vec_size text) (vec_size before)) Q s.
Proof.
  intros H Hset Hsame Hr Hne Hnl HQ. pose proof (inv_size _ _ _ _ H) as Hs.
  assert (vec_size (token_infos (buffer s)) < MaxSource) as Hroom.
  { rewrite (same_tokens _ _ Hsame). destruct text as [|c text]; [done|]. by eapply token_room. }
  apply LexTokenWithPayload_total; [lia|]. apply HQ.
  apply (Inv_with_token s0); try done. cbn zeta. split; [done|]. split; [done|]. left.
  rewrite !vec_size_app in Hs. pose proof (vec_size_nonneg text).
  pose proof (vec_size_nonneg before). pose proof (vec_size_nonneg after).
  apply spells_error with after; [done| |].
  - by apply rest_at_here.
  - cbn. apply payload_small. lia.
Qed.

Lemma LexError_total s ps before c rest (Q : bool * Z → LexerState → list LexDiagnostic → Prop) :
  Inv s ps before (c :: rest) → Settled (buffer s) ps (before ++ c :: rest) →
  IsSpace c = false →
  (∀ r s' w, Formed s before (c :: rest) r s' w → Q r s' w) →
  total (LexError (here before (c :: rest)) (vec_size before)) Q s.
Proof.
  intros H Hset Hc HQ. pose proof (inv_size _ _ _ _ H) as Hs. unfold LexError.
  rewrite substr_here by done. cbn [StringRef.begin StringRef.chars].
  set (error_text := if StringRef.empty _ then _ else _).
  apply orb_false_iff in Hc as [Hh Hv].
  assert (∃ text after, c :: rest = text ++ after ∧ starts_token text ∧ no_newline text ∧
    error_text = StringRef.mk (vec_size before) text) as (text & after & E & Hne & Hnl & Ht).
  { subst error_text. unfold StringRef.empty. cbn [StringRef.chars].
    destruct (take_while is_error_char (c :: rest)) as [|d t] eqn:Et.
    - exists [c], rest. split; [done|]. split; [done|]. split; [by repeat constructor|].
      rewrite substr_here_n; [done|done|]. rewrite vec_size_cons.
      pose proof (vec_size_nonneg rest). lia.
    - exists (d :: t), (drop_while is_error_char (c :: rest)).
      split; [by rewrite <- Et, take_drop_while|].
      split; [by eapply (starts_token_app c rest _ (drop_while is_error_char (c :: rest)));
        [rewrite <- Et, take_drop_while|..]|].
      split; [|done]. rewrite <- Et. apply error_char_no_newline. }
  rewrite Ht. unfold StringRef.size. cbn [StringRef.chars StringRef.begin].
  rewrite E in H, Hset, HQ. total_step.
  eapply (error_token_total s s ps); try done;
    [by eapply RoomOk_shrink, inv_room|].
  intros t s' Hinv. total_steps. form_steps. apply HQ. split; [done|]. cbn [snd].
  eapply Moved_intro; [by apply starts_token_ne|done|by rewrite vec_size_app|exact Hinv|done].
Qed.

(** * Symbols *)

Lemma Inv_settled s ps before c rest :
  Inv s ps before (c :: rest) → c ≠ "#"%char → Settled (buffer s) ps (before ++ c :: rest).
Proof. intros H Hc. eapply TextOk_settled; [by apply not_raw|apply (inv_text _ _ _ _ H)]. Qed.

(** A kind whose token is its spelling, on one line. *)
Definition plain_spelling (k : TokenKind.t) : bool :=
  negb (TokenKind.eqb k TokenKind.Error) && negb (TokenKind.IsOneOf k payload_kinds) &&
  negb (TokenKind.fixed_spelling k =? "")%string &&
  negb (TokenKind.IsOneOf k [TokenKind.FileStart; TokenKind.FileEnd]) &&
  negb (existsb IsVerticalWhitespace (spelling k)) &&
  match spelling k with [] => false | c :: _ => negb (IsHorizontalWhitespace c) end.

Lemma no_newline_existsb cs : existsb IsVerticalWhitespace cs = false → no_newline cs.
Proof.
  induction cs as [|c cs IH]; cbn; [constructor|]. rewrite orb_false_iff. intros [Hc Hcs].
  constructor; [exact Hc|by apply IH].
Qed.

Record Plain (k : TokenKind.t) : Prop := {
  plain_error : k ≠ TokenKind.Error;
  plain_payload : TokenKind.IsOneOf k payload_kinds = false;
  plain_fixed : TokenKind.fixed_spelling k ≠ ""%string;
  plain_inside : TokenKind.IsOneOf k [TokenKind.FileStart; TokenKind.FileEnd] = false;
  plain_line : no_newline (spelling k);
  plain_start : starts_token (spelling k);
}.

Lemma plain_spec k : plain_spelling k = true → Plain k.
Proof.
  unfold plain_spelling. rewrite !andb_true_iff, !negb_true_iff.
  intros (((((H1 & H2) & H3) & H4) & H5) & H6).
  split; [|done| |done|by apply no_newline_existsb|
    unfold starts_token; destruct (spelling k); [done|by apply negb_true_iff]].
  - intros ->. by rewrite TokenKind.token_eqb_refl in H1.
  - by apply String.eqb_neq.
Qed.

Lemma spelling_ne k : Plain k → spelling k ≠ [].
Proof. intros H E. apply (plain_fixed _ H). by apply str_empty. Qed.

(** A token without a payload of its own, over its spelling. *)
Lemma plain_token_total s ps before after k (Q : Z → LexerState → list LexDiagnostic → Prop) :
  Inv s ps before (spelling k ++ after) →
  Settled (buffer s) ps (before ++ spelling k ++ after) →
  Plain k → TokenKind.is_grouping_symbol k = false →
  (∀ t s', Moved s before (spelling k ++ after) (vec_size (before ++ spelling k)) s' [] →
     Q t s' []) →
  total (LexToken k (vec_size before)) Q s.
Proof.
  intros H Hset Hk Hg HQ. pose proof (spelling_ne _ Hk) as Hne.
  assert (vec_size (token_infos (buffer s)) < MaxSource) as Hroom.
  { destruct (spelling k); [done|]. by eapply token_room. }
  apply LexToken_total; [by apply plain_payload|lia|]. apply HQ.
  eapply Moved_intro; [exact Hne|done|done| |].
  - apply (Inv_with_token s s ps); try done; [by eapply RoomOk_shrink, inv_room|
      by apply plain_start|by apply plain_line|].
    split; [done|]. split; [by apply plain_inside|]. left. apply spells_fixed. by apply plain_fixed.
  - intros _. apply no_errors_with_token; [done|]. by apply plain_error.
Qed.

(** Some kind is spelled by the byte [c] alone. *)
Definition has_symbol (kinds : list TokenKind.t) (c : char) : bool :=
  existsb (λ k, bool_decide (spelling k = [c])) kinds.

Lemma StartsWithSwitch_spec kinds c rest :
  has_symbol kinds c = true →
  ∃ k after, StartsWithSwitch kinds (c :: rest) = k ∧ k ∈ kinds ∧
    c :: rest = spelling k ++ after.
Proof.
  intros H. unfold StartsWithSwitch.
  destruct (List.find _ kinds) as [k|] eqn:E.
  - apply List.find_some in E as [Hin Hs]. apply starts_with_spec in Hs as [after Ha].
    exists k, after. split; [done|]. split; [by apply list_elem_of_In|done].
  - exfalso. apply existsb_exists in H as (k & Hin & Hk). apply bool_decide_eq_true in Hk.
    pose proof (List.find_none _ _ E k Hin) as Hn. cbn in Hn. rewrite Hk in Hn. cbn in Hn.
    by rewrite char_eqb_refl in Hn.
Qed.

Lemma multi_char_symbols_plain k :
  k ∈ multi_char_symbols → Plain k ∧ TokenKind.is_grouping_symbol k = false.
Proof.
  intros Hk%list_elem_of_In.
  assert (forallb (λ k, plain_spelling k && negb (TokenKind.is_grouping_symbol k))
    multi_char_symbols = true) as H by (vm_compute; reflexivity).
  rewrite forallb_forall in H. specialize (H k Hk). cbn in H.
  apply andb_true_iff in H as [H1 H2]. split; [by apply plain_spec|by apply negb_true_iff].
Qed.

Lemma symbol_switch c rest :
  has_symbol multi_char_symbols c = true →
  ∃ k after, StartsWithSwitch multi_char_symbols (c :: rest) = k ∧ Plain k ∧
    TokenKind.is_grouping_symbol k = false ∧ c :: rest = spelling k ++ after.
Proof.
  intros Hc. destruct (StartsWithSwitch_spec _ _ rest Hc) as (k & after & E & Hk & Ea).
  destruct (multi_char_symbols_plain _ Hk). by exists k, after.
Qed.

Lemma LexSymbolToken_total s ps before c rest
    (Q : bool * Z → LexerState → list LexDiagnostic → Prop) :
  Inv s ps before (c :: rest) → has_symbol multi_char_symbols c = true → c ≠ "#"%char →
  (∀ r s' w, Formed s before (c :: rest) r s' w → Q r s' w) →
  total (LexSymbolToken (here before (c :: rest)) (vec_size before)) Q s.
Proof.
  intros H Hc Hn HQ. pose proof (Inv_settled _ _ _ _ _ H Hn) as Hset.
  unfold LexSymbolToken. rewrite substr_here by apply (inv_size _ _ _ _ H).
  cbn [StringRef.chars]. destruct (symbol_switch _ rest Hc) as (k & after & -> & Hp & Hg & E).
  destruct (TokenKind.token_eqb_spec k TokenKind.Error) as [->|_]; [by destruct Hp|].
  rewrite E in H, Hset, HQ. total_step. eapply plain_token_total; try done.
  intros t s' Hm. form_steps. apply HQ. split; [done|]. cbn [snd].
  by rewrite <- vec_size_app.
Qed.

(** The symbols with a dispatch function of their own. *)
Lemma check_one_char_total s ps before c rest k
    (Q : unit → LexerState → list LexDiagnostic → Prop) :
  Inv s ps before (c :: rest) → spelling k = [c] → Q tt s [] →
  total (check_one_char (here before (c :: rest)) k (vec_size before)) Q s.
Proof.
  intros H Hk HQ. unfold check_one_char. rewrite Hk. total_step.
  apply total_check; [done|]. total_step.
  eapply total_lift; [by eapply at_first|]. total_step.
  eapply total_lift; [reflexivity|]. apply total_check; [apply char_eqb_refl|done].
Qed.

Lemma LexOneCharSymbolToken_total s ps before c rest k
    (Q : bool * Z → LexerState → list LexDiagnostic → Prop) :
  Inv s ps before (c :: rest) → spelling k = [c] → Plain k →
  TokenKind.is_grouping_symbol k = false → c ≠ "#"%char →
  (∀ r s' w, Formed s before (c :: rest) r s' w → Q r s' w) →
  total (LexOneCharSymbolToken (here before (c :: rest)) k (vec_size before)) Q s.
Proof.
  intros H Hk Hp Hg Hn HQ. pose proof (Inv_settled _ _ _ _ _ H Hn) as Hset.
  unfold LexOneCharSymbolToken. total_step. apply total_check.
  { destruct (TokenKind.token_eqb_spec k TokenKind.Error) as [->|]; [by destruct Hp|done]. }
  total_step. eapply check_one_char_total; [done..|]. total_step.
  change (c :: rest) with ([c] ++ rest) in H, Hset, HQ. rewrite <- Hk in H, Hset, HQ.
  eapply plain_token_total; try done. intros t s' Hm. form_steps. apply HQ.
  split; [done|]. cbn [snd]. rewrite Hk in Hm |- *. rewrite vec_size_app in Hm. exact Hm.
Qed.

(** * Groups *)

Lemma symbol_room s ps before c rest :
  Inv s ps before (c :: rest) → RoomOk s rest.
Proof. intros H. apply (RoomOk_shrink s [c]), (inv_room _ _ _ _ H). Qed.

Lemma LexOpeningSymbolToken_total s ps before c rest k
    (Q : bool * Z → LexerState → list LexDiagnostic → Prop) :
  Inv s ps before (c :: rest) → spelling k = [c] → Plain k →
  TokenKind.is_opening_symbol k = true → c ≠ "#"%char →
  (∀ r s' w, Formed s before (c :: rest) r s' w → Q r s' w) →
  total (LexOpeningSymbolToken (here before (c :: rest)) k (vec_size before)) Q s.
Proof.
  intros H Hk Hp Ho Hn HQ. pose proof (Inv_settled _ _ _ _ _ H Hn) as Hset.
  assert (starts_token [c]) as Hst by (rewrite <- Hk; by apply plain_start).
  unfold LexOpeningSymbolToken. total_step. apply total_check; [done|].
  total_step. eapply check_one_char_total; [done..|]. total_step.
  apply LexToken_total; [by apply plain_payload|pose proof (token_room _ _ _ _ _ H); lia|].
  form_steps. apply HQ. split; [done|]. cbn [snd].
  eapply (Moved_intro _ _ _ [c]); [done|done|by rewrite vec_size_app| |].
  - change (c :: rest) with ([c] ++ rest) in H, Hset.
    eapply (Inv_symbol s); [exact H|exact Hset|done..| | |done| |].
    + apply GroupsOk_open_symbol; [exact Ho|]. apply (inv_groups _ _ _ _ H).
    + by destruct (symbol_room _ _ _ _ _ H).
    + rewrite <- Hk. by apply plain_line.
    + split; [done|]. split; [by apply plain_inside|]. left. cbn [fst snd]. rewrite <- Hk.
      apply (spells_fixed _ _ (MakeTokenInfo k (leading_space s) unset_payload _)).
      by apply plain_fixed.
  - intros _. apply (no_errors_with_token s s); [done|]. by apply plain_error.
Qed.

(** What the three ways through [LexClosingSymbolToken] have in common: the
    token it adds, whatever its payload. *)
Lemma closing_spelled before c rest k leading payload ids :
  spelling k = [c] → Plain k →
  spelled (before ++ [c] ++ rest) ids rest (MakeTokenInfo k leading payload (vec_size before))
    (vec_size before, [c]).
Proof.
  intros Hk Hp. split; [done|]. split; [by apply plain_inside|]. left. cbn [fst snd].
  rewrite <- Hk. apply (spells_fixed _ _ (MakeTokenInfo k leading payload _)). by apply plain_fixed.
Qed.

Lemma LexClosingSymbolToken_total s ps before c rest k
    (Q : bool * Z → LexerState → list LexDiagnostic → Prop) :
  Inv s ps before (c :: rest) → spelling k = [c] → Plain k →
  TokenKind.is_closing_symbol k = true → c ≠ "#"%char →
  (∀ r s' w, Formed s before (c :: rest) r s' w → Q r s' w) →
  total (LexClosingSymbolToken (here before (c :: rest)) k (vec_size before)) Q s.
Proof.
  intros H Hk Hp Hc Hn HQ. pose proof (Inv_settled _ _ _ _ _ H Hn) as Hset.
  pose proof (token_room _ _ _ _ _ H) as Hroom. pose proof (inv_groups _ _ _ _ H) as HG.
  assert (no_newline [c]) as Hnl by (rewrite <- Hk; by apply plain_line).
  assert (starts_token [c]) as Hst by (rewrite <- Hk; by apply plain_start).
  assert (RoomOk s rest) as HR by by eapply symbol_room.
  assert (∀ s', Inv s' (ps ++ [Token [c]]) (before ++ [c]) rest →
    (no_error_tokens s → no_error_tokens s') →
    Q (true, vec_size before + 1) s' []) as Hdone.
  { intros s' Hinv Herr. apply HQ. split; [done|]. cbn [snd].
    eapply (Moved_intro _ _ _ [c]); [done|done|by rewrite vec_size_app|exact Hinv|done]. }
  change (c :: rest) with ([c] ++ rest) in H, Hset.
  unfold LexClosingSymbolToken. total_step. apply total_check; [done|].
  total_step. eapply check_one_char_total; [done..|]. total_steps.
  destruct (last (open_groups s)) as [g|] eqn:El.
  2: { total_steps. apply LexToken_total; [by apply plain_payload|cbn; lia|].
    form_steps. eapply Hdone.
    - eapply (Inv_symbol s); [exact H|exact Hset|done..| |by destruct HR|done|done|].
      + eapply GroupsOk_mismatch; [|exact Hc|by rewrite El|exact HG]. intros h Hh. exact Hh.
      + by apply closing_spelled.
    - apply (no_errors_with_token _ s); [done|]. by apply plain_error. }
  apply last_Some in El as [groups Eg]. rewrite Eg, take_init in *. total_steps.
  apply LexTokenWithPayload_total; [cbn; lia|]. cbn [buffer set_open_groups set_members leading_space].
  set (n := vec_size (token_infos (buffer s))).
  set (info := MakeTokenInfo k (leading_space s) g (vec_size before)).
  set (mid := with_token info (set_open_groups groups s)).
  pose proof (groups_open _ _ _ HG) as Hopen. apply Forall_app in Hopen as [_ Hopen].
  apply Forall_singleton in Hopen as (t & Ht & Hot).
  total_step. eapply (total_lift _ t); [by apply vec_get_app_l|].
  destruct (TokenKind.token_eqb_spec (kind t) (TokenKind.opening_symbol k)) as [Et|Et]; cbn [negb].
  - total_step. eapply total_lift.
    { unfold set_closing_token_index. unfold opens in Hot. rewrite Hot. reflexivity. }
    unfold SetTokenInfo. form_steps. set (t' := set_payload n t).
    assert (token_payload t' = n) as Hpl.
    { apply payload_small. unfold n. pose proof (vec_size_nonneg (token_infos (buffer s))). lia. }
    eapply Hdone.
    + pose proof H as [H1 H2 H3 H4 H5 H6 H7]. split.
      * eapply (TextOk_set_payload (buffer mid)); [done|by apply vec_get_app_l|done|done|done| |done|].
        { unfold opens in Hot. by destruct (kind t). }
        eapply (TextOk_token (buffer s)); [done|done|done|exact Hset|by apply closing_spelled|done].
      * by eapply LinesOk_same.
      * by eapply (GroupsOk_close_symbol _ _ _ _ _ t).
      * by destruct HR.
      * by apply NotesOk_token.
      * cbn. rewrite vec_set_size, !vec_size_app in *. change (vec_size [c]) with 1.
        change (vec_size [info]) with 1. lia.
      * by rewrite <- app_assoc.
    + intros Herr. unfold no_error_tokens in *. cbn. unfold vec_set. apply Forall_insert.
      { apply Forall_app_2; [done|]. constructor; [by apply plain_error|constructor]. }
      cbn. unfold opens in Hot. by destruct (kind t).
  - total_steps. eapply (total_lift _ info); [apply vec_get_app_last|]. total_step. eapply total_lift.
    { unfold set_opening_token_index, info. cbn [kind MakeTokenInfo]. rewrite Hc. reflexivity. }
    unfold SetTokenInfo. form_steps. set (info' := set_payload NoneToken info).
    eapply Hdone.
    + eapply (Inv_symbol s _ _ _ _ _ info'); [exact H|exact Hset|done|apply vec_set_last|done..| |
        by destruct HR|done|done|].
      * cbn. unfold n. rewrite vec_set_last. eapply GroupsOk_mismatch; [|exact Hc| |exact HG].
        { intros h Hh. apply elem_of_app. by left. }
        rewrite last_snoc. intros h [= <-]. by exists t.
      * by apply closing_spelled.
    + intros Herr. unfold no_error_tokens in *. cbn. unfold n. rewrite vec_set_last.
      apply Forall_app_2; [done|]. constructor; [by apply plain_error|constructor].
Qed.
End steps.
