(* ===== verification/LexWords.v ===== *)
(** Numbers and words in the lexer: [LexNumericLiteral] keeps the invariant, and
    lexing a literal again from its token finds the same text;
    [LexKeywordOrIdentifier] does, with the sized type literals and the [$]
    literals it tries first, and [LexHash], which makes an [r] before it a raw
    identifier. *)

From S2P Require Import Prelude TokenKinds Text APInts CanonicalStores IntStores IntLaws.
From S2P Require Import LexDiagnostics NumericLiterals NumericShape NumericValues.
From S2P Require Import StringShape Tokens Simd IdentifierScan TokenText LexState.
From S2P Require Import LexTokens LexPieces LexInvariant LexSteps.
Import TokenizedBuffer.

(** * Lexing a literal again *)

Section relex.
Import NumericLiteral.

Lemma seen_point_stays can_real rest : ∀ i st r st',
  lex_loop can_real i rest st = Ok (r, st') →
  seen_radix_point st = true → seen_radix_point st' = true.
Proof.
  induction rest as [|c rest IH]; intros i st r st'; cbn [lex_loop]; [by intros [= <- <-]|].
  destruct (_ || _ || _).
  { intros E Hs. eapply IH; [exact E|]. by destruct (_ && _). }
  destruct (_ && _ && _ && _). { intros E _. by eapply IH; [exact E|]. }
  destruct (_ && _ && _ && _); [|by intros [= <- <-]].
  destruct (negb (seen_plus_minus st)); [|done]. cbn [require mbind Result_bind].
  intros E Hs. by eapply IH; [exact E|].
Qed.

(** Without a radix point it does not matter whether one may be formed. *)
Lemma lex_loop_relex rest : ∀ i st r st',
  seen_radix_point st = false → seen_potential_exponent st = false →
  lex_loop true i rest st = Ok (r, st') → seen_radix_point st' = false →
  lex_loop false i rest st = Ok (r, st').
Proof.
  induction rest as [|c rest IH]; intros i st r st' Hp He; cbn [lex_loop]; [done|].
  rewrite Hp, He. destruct (_ || _ || _).
  { rewrite andb_false_r. cbn [andb]. by apply IH. }
  rewrite !andb_false_r, ?andb_true_r. cbn [andb negb].
  destruct (char_eqb c "." && _); [|done].
  intros E Hs. by rewrite (seen_point_stays _ _ _ _ _ _ E eq_refl) in Hs.
Qed.

Lemma lex_loop_no_newline can_real rest : ∀ i st r st',
  lex_loop can_real i rest st = Ok (r, st') →
  i ≤ r ∧ no_newline (take (Z.to_nat (r - i)) rest).
Proof.
  induction rest as [|c rest IH]; intros i st r st'; cbn [lex_loop].
  { intros [= <- <-]. split; [lia|]. rewrite take_nil. constructor. }
  assert (∀ st1, lex_loop can_real (i + 1) rest st1 = Ok (r, st') →
    IsVerticalWhitespace c = false →
    i ≤ r ∧ no_newline (take (Z.to_nat (r - i)) (c :: rest))) as Hstep.
  { intros st1 E Hc. destruct (IH _ _ _ _ E) as [Hi Hn]. split; [lia|].
    replace (Z.to_nat (r - i)) with (S (Z.to_nat (r - (i + 1)))) by lia.
    cbn [take]. by constructor. }
  assert (lex_loop can_real i [] st = Ok (r, st') →
    i ≤ r ∧ no_newline (take (Z.to_nat (r - i)) (c :: rest))) as Hdone.
  { intros [= <- <-]. split; [lia|]. rewrite Z.sub_diag. constructor. }
  destruct (IsVerticalWhitespace c) eqn:Hc.
  { unfold IsVerticalWhitespace in Hc. apply char_eqb_eq in Hc as ->. cbn. exact Hdone. }
  destruct (_ || _ || _); [intros E; by eapply Hstep|].
  destruct (_ && _ && _ && _); [intros E; by eapply Hstep|].
  destruct (_ && _ && _ && _); [|exact Hdone].
  destruct (negb (seen_plus_minus st)); [|done]. cbn [require mbind Result_bind].
  intros E. by eapply Hstep.
Qed.

Definition start_state : LexState :=
  {| seen_plus_minus := false; seen_radix_point := false; seen_potential_exponent := false;
     result_radix_point := 0; result_exponent := 0 |}.

(** What [Lex] returns, from the state its loop ends in. *)
Lemma Lex_result b c rest can_real :
  IsDecimalDigit c = true → vec_size (c :: rest) < 2 ^ 31 →
  ∃ more after st, rest = more ++ after ∧ let n := vec_size (c :: more) in
    lex_loop can_real 1 rest start_state = Ok (n, st) ∧ loop_inv (c :: more) st ∧
    Lex (StringRef.mk b (c :: rest)) can_real = Ok (Some
      {| text_ := StringRef.mk b (c :: more);
         radix_point_ := if seen_radix_point st then result_radix_point st else n;
         exponent_ := if seen_potential_exponent st then result_exponent st else n |}).
Proof.
  intros Hc Hsize.
  edestruct (lex_loop_shape can_real rest [c] start_state) as (more & after & st & Er & E & I & _).
  { split; cbn; done. }
  exists more, after, st. split; [done|]. cbn zeta. split; [exact E|]. split; [exact I|].
  unfold Lex. cbn [StringRef.chars].
  rewrite Hc. cbn [negb]. fold start_state.
  change (vec_size [c]) with 1 in E. rewrite E. cbv [mbind Result_bind mret Result_ret].
  do 3 f_equal. rewrite Er. pose proof (vec_size_nonneg (c :: more)).
  pose proof (vec_size_nonneg after). rewrite Er, vec_size_cons, vec_size_app in Hsize.
  rewrite StringRef.substr_all_in by (unfold StringRef.size; cbn [StringRef.chars app];
    rewrite ?vec_size_cons, ?vec_size_app in *; lia).
  cbn [StringRef.begin StringRef.chars]. change (Z.to_nat 0) with 0%nat. rewrite drop_0, Z.add_0_r.
  f_equal. change (c :: more ++ after) with ((c :: more) ++ after).
  unfold vec_size. rewrite Nat2Z.id. cbn [app]. by rewrite app_comm_cons, take_app_length.
Qed.

(** A byte that is a blank fails any test that no blank passes. *)
Lemma not_blank (P : char → bool) c :
  P " "%char = false → P "009"%char = false → P c = true → IsHorizontalWhitespace c = false.
Proof.
  intros H1 H2 Hc. destruct (IsHorizontalWhitespace c) eqn:E; [|done].
  apply orb_true_iff in E as [->%char_eqb_eq | ->%char_eqb_eq]; congruence.
Qed.

(** The literals of a text: a prefix of it, on one line. *)
Lemma Lex_digit b c rest can_real :
  IsDecimalDigit c = true → vec_size (c :: rest) < 2 ^ 31 →
  ∃ l text after, Lex (StringRef.mk b (c :: rest)) can_real = Ok (Some l) ∧
    text_ l = StringRef.mk b text ∧ c :: rest = text ++ after ∧ text ≠ [] ∧
    no_newline text.
Proof.
  intros Hc Hsize. destruct (Lex_result b c rest can_real Hc Hsize)
    as (more & after & st & Er & E & _ & El).
  eexists _, (c :: more), after. split; [exact El|]. split; [done|].
  split; [by rewrite Er|]. split; [done|].
  apply lex_loop_no_newline in E as [_ Hn]. rewrite vec_size_cons in Hn.
  replace (Z.to_nat (vec_size more + 1 - 1)) with (length more) in Hn by (unfold vec_size; lia).
  rewrite Er, take_app_length in Hn. constructor; [|done].
  destruct (IsVerticalWhitespace c) eqn:Ev; [|done].
  unfold IsVerticalWhitespace in Ev. apply char_eqb_eq in Ev as ->. by vm_compute in Hc.
Qed.

(** An integer is lexed again with no radix point allowed. *)
Lemma Lex_relex src can_real l :
  StringRef.size src < 2 ^ 31 → Lex src can_real = Ok (Some l) →
  radix_point_ l = StringRef.size (text_ l) → Lex src false = Ok (Some l).
Proof.
  intros Hsize Hl Hp. destruct can_real; [|done].
  destruct src as [b [|c rest]]; [done|].
  destruct (IsDecimalDigit c) eqn:Hc.
  2: { unfold Lex in Hl. cbn [StringRef.chars] in Hl. by rewrite Hc in Hl. }
  destruct (Lex_result b c rest true Hc Hsize) as (more & after & st & Er & E & I & El).
  rewrite El in Hl. injection Hl as <-. cbn [radix_point_ text_] in Hp.
  assert (seen_radix_point st = false) as Hs.
  { destruct (seen_radix_point st) eqn:Hs; [|done].
    destruct (inv_point _ _ I Hs) as [Hlt _]. unfold StringRef.size in Hp. cbn in Hp. lia. }
  pose proof (lex_loop_relex _ _ start_state _ _ eq_refl eq_refl E Hs) as E'. rewrite <- El.
  unfold Lex. cbn [StringRef.chars]. rewrite Hc. cbn [negb]. fold start_state. by rewrite E, E'.
Qed.

Lemma lex_loop_no_point rest : ∀ i st r st',
  seen_radix_point st = false → lex_loop false i rest st = Ok (r, st') →
  seen_radix_point st' = false.
Proof.
  induction rest as [|c rest IH]; intros i st r st' Hs; cbn [lex_loop];
    [by intros [= <- <-]|]. rewrite Hs, !andb_false_r. cbn [andb].
  destruct (_ || _ || _); [by apply IH|].
  destruct (_ && _ && _ && _); [|by intros [= <- <-]].
  destruct (negb (seen_plus_minus st)); [|done]. cbn [require mbind Result_bind]. by apply IH.
Qed.

(** A radix point is only found where one may be formed. *)
Lemma Lex_radix_point src l :
  StringRef.size src < 2 ^ 31 → Lex src false = Ok (Some l) →
  radix_point_ l = StringRef.size (text_ l).
Proof.
  intros Hsize Hl. destruct src as [b [|c rest]]; [done|].
  destruct (IsDecimalDigit c) eqn:Hc.
  2: { unfold Lex in Hl. cbn [StringRef.chars] in Hl. by rewrite Hc in Hl. }
  destruct (Lex_result b c rest false Hc Hsize) as (more & after & st & _ & E & _ & El).
  rewrite El in Hl. injection Hl as <-. cbn [radix_point_ text_].
  by rewrite (lex_loop_no_point _ _ start_state _ _ eq_refl E).
Qed.
End relex.

(** * [LexNumericLiteral] *)

Section numbers.
Context {Ops : APInts} {Laws : APIntLaws Ops} {Build : LexBuild}.
Implicit Types (s : LexerState) (ps : list piece) (before after text : list char).

Lemma add_int_total r (Q : Z → LexerState → list LexDiagnostic → Prop) s :
  wf (ints s) → request_ok r → vec_size (ints s) < MaxSource →
  (∀ p iv, wf iv → vec_size iv ≤ vec_size (ints s) + 1 →
    Q p (set_values iv (reals s) (string_literal_values s) s) []) →
  total (add_int (λ iv, run_add iv r)) Q s.
Proof.
  intros Hwf Hr Hs HQ. destruct (run_add_total _ r Hwf Hr Hs)
    as (id & iv & E & Hwf' & _ & _ & Hsz & Hid).
  unfold add_int. total_step. eapply total_lift; [exact E|]. total_steps.
  eapply total_lift; [apply IntId.AsTokenPayload_Ok; split; [reflexivity|exact Hid]|].
  by apply HQ.
Qed.

Lemma add_real_total r (Q : Z → LexerState → list LexDiagnostic → Prop) s :
  vec_size (reals s) < MaxSource →
  (∀ p, Q p (set_values (ints s) (reals s ++ [r]) (string_literal_values s) s) []) →
  total (add_real r) Q s.
Proof.
  intros Hs HQ. unfold add_real. total_step. eapply total_lift.
  { unfold ValueStoreAdd. rewrite (proj2 (Z.ltb_lt _ _)); [reflexivity|].
    unfold MaxSource in Hs. lia. }
  total_steps. apply HQ.
Qed.

(** The state after a token over [text], when only the value stores changed. *)
Lemma payload_token_total s0 s ps before text after k payload
    (Q : Z → LexerState → list LexDiagnostic → Prop) :
  Inv s0 ps before (text ++ after) → Settled (buffer s0) ps (before ++ text ++ after) →
  Same s0 s → RoomOk s after → starts_token text → no_newline text →
  TokenKind.is_grouping_symbol k = false → k ≠ TokenKind.Error →
  TokenKind.IsOneOf k [TokenKind.FileStart; TokenKind.FileEnd] = false →
  spells (before ++ text ++ after) (identifiers (buffer s))
    (MakeTokenInfo k (leading_space s) payload (vec_size before)) text →
  (∀ t s', (∀ w, Moved s0 before (text ++ after) (vec_size before + vec_size text) s' w) →
    Q t s' []) →
  total (LexTokenWithPayload k payload (vec_size before)) Q s.
Proof.
  intros H Hset Hsame Hr Hne Hnl Hk Herr Hfile Hsp HQ.
  apply LexTokenWithPayload_total.
  { rewrite (same_tokens _ _ Hsame). destruct text as [|c text]; [done|].
    pose proof (token_room _ _ _ _ _ H). lia. }
  apply HQ. intros w. eapply Moved_intro; [by apply starts_token_ne|done|by rewrite vec_size_app| |].
  - by apply (Inv_with_token s0); [..|split; [done|split; [done|by left]]].
  - intros _. apply no_errors_with_token; [apply (same_tokens _ _ Hsame)|done].
Qed.

Lemma CanFormRealLiteral_total s ps before after
    (Q : bool → LexerState → list LexDiagnostic → Prop) :
  Inv s ps before after → (∀ b, Q b s []) → total CanFormRealLiteral Q s.
Proof.
  intros H HQ. pose proof (inv_text _ _ _ _ H) as HT. unfold CanFormRealLiteral.
  total_steps. destruct (leading_space s); [by apply total_ret|]. unfold last_token, GetTokenInfo.
  total_steps. unfold tokens_end, size. rewrite (proj1 (text_no_recovery _ _ _ _ _ HT)).
  destruct (text_start _ _ _ _ _ HT) as (info & infos & E & _).
  assert (∃ t, vec_get (token_infos (buffer s)) (vec_size (token_infos (buffer s)) - 0 - 1) = Ok t)
    as [t Ht].
  { apply vec_get_in_range. rewrite E, vec_size_cons. pose proof (vec_size_nonneg infos). lia. }
  eapply total_lift; [exact Ht|]. total_steps. apply HQ.
Qed.

Lemma RoomOk_ints s iv before text :
  RoomOk s (before ++ text) → before ≠ [] → wf iv → vec_size iv ≤ vec_size (ints s) + 1 →
  RoomOk (set_values iv (reals s) (string_literal_values s) s) text.
Proof.
  intros [[H1 H2] H3 H4 H5] Hne Hwf Hiv. rewrite vec_size_app in *.
  destruct before as [|c before]; [done|]. rewrite vec_size_cons in *.
  pose proof (vec_size_nonneg before). split; cbn; [split; [done|lia]|lia..].
Qed.

Lemma RoomOk_reals s r before text :
  RoomOk s (before ++ text) → before ≠ [] →
  RoomOk (set_values (ints s) (reals s ++ [r]) (string_literal_values s) s) text.
Proof.
  intros [[H1 H2] H3 H4 H5] Hne. rewrite vec_size_app in *.
  destruct before as [|c before]; [done|]. rewrite vec_size_cons in *.
  pose proof (vec_size_nonneg before). split; cbn; [split; [done|lia]| |lia..].
  rewrite vec_size_app. change (vec_size [r]) with 1. lia.
Qed.

Lemma LexNumericLiteral_total s ps before c rest
    (Q : bool * Z → LexerState → list LexDiagnostic → Prop) :
  Inv s ps before (c :: rest) → IsDecimalDigit c = true →
  (∀ r s' w, Formed s before (c :: rest) r s' w → Q r s' w) →
  total (LexNumericLiteral (here before (c :: rest)) (vec_size before)) Q s.
Proof.
  intros H Hc HQ. pose proof (inv_size _ _ _ _ H) as Hs.
  assert (c ≠ "#"%char) as Hn by (intros ->; by vm_compute in Hc).
  pose proof (Inv_settled _ _ _ _ _ H Hn) as Hset.
  unfold LexNumericLiteral. total_step. eapply CanFormRealLiteral_total; [exact H|].
  intros can. total_step. rewrite substr_here by done.
  assert (vec_size (c :: rest) < 2 ^ 31) as Hsz by by eapply vec_size_lt.
  destruct (Lex_digit (vec_size before) c rest can Hc Hsz)
    as (l & text & after & El & Et & E & Hne & Hnl).
  assert (starts_token text) as Hst
    by (eapply starts_token_app; [exact E|exact Hne|by apply (not_blank IsDecimalDigit)]).
  eapply total_lift; [exact El|]. cbv beta iota. total_step. rewrite E in H, Hset, HQ.
  eapply total_yields.
  { exact (NumericValues.ComputeValue_denotes (StringRef.mk (vec_size before) (c :: rest)) can l Hsz El). }
  intros v w [Hv Hform]. rewrite Et. unfold StringRef.size. cbn [StringRef.chars].
  unfold NumericValues.value_form, StringRef.size in Hform. rewrite Et in Hform. cbn [StringRef.chars] in Hform.
  pose proof (inv_room _ _ _ _ H) as HR.
  assert (RoomOk s after) as HR' by by eapply RoomOk_shrink.
  assert (vec_size text + vec_size after < MaxSource) as Htext.
  { rewrite !vec_size_app in *. pose proof (inv_size _ _ _ _ H) as Hs'.
    rewrite !vec_size_app in Hs'. pose proof (vec_size_nonneg before). lia. }
  assert (0 < vec_size text) as Hpos.
  { destruct text; [done|]. rewrite vec_size_cons. pose proof (vec_size_nonneg text). lia. }
  assert (∀ k leading payload ids,
    NumericLiteral.Lex (StringRef.mk (vec_size before) (c :: rest))
      (TokenKind.eqb k TokenKind.RealLiteral) = Ok (Some l) →
    k = TokenKind.IntLiteral ∨ k = TokenKind.RealLiteral →
    spells (before ++ text ++ after) ids (MakeTokenInfo k leading payload (vec_size before)) text)
    as Hspell.
  { intros k leading payload ids El' Hor.
    replace text with (StringRef.chars (NumericLiteral.text_ l)) at 2 by by rewrite Et.
    apply spells_number; [done|]. by rewrite ref_at_here, <- E. }
  assert (Same s s) as Hrefl by apply Same_refl.
  assert (wf (ints s) ∧ vec_size (ints s) < MaxSource ∧ vec_size (reals s) < MaxSource)
    as (Hwf0 & Hints & Hreals).
  { destruct HR' as [[Hw0 H0] H1 _ _]. pose proof (vec_size_nonneg after). split; [done|]. lia. }
  set (src := StringRef.mk (vec_size before) (c :: rest)) in *.
  assert (∀ s', (∀ w, Moved s before (text ++ after) (vec_size before + vec_size text) s' w) →
    ∀ w, Q (true, vec_size before + vec_size text) s' w) as Hdone.
  { intros s' Hm w0. apply HQ. split; [done|]. apply Hm. }
  destruct Hv as [radix digits x w _ _ _|radix ? ? ? ? ? m e w _ _ _ _ _ _ _ _|w Hw].
  - total_steps. apply (add_int_total (RequestUnsigned x)); [done..|].
    intros p iv Hwf Hiv. cbv beta. total_steps.
    eapply (payload_token_total s); [done..|by eapply RoomOk_ints|done|done|done|done|done| |].
    { apply Hspell; [|by left]. apply (Lex_relex src can l Hsz El). by rewrite Et. }
    intros t s' Hm. form_steps. by apply Hdone.
  - total_steps. apply add_real_total; [done|]. intros p. cbv beta. total_steps.
    eapply (payload_token_total s); [done..| |done|done|done|done|done| |].
    { by eapply RoomOk_reals. }
    { apply Hspell; [|by right]. destruct can; [exact El|].
      destruct Hform. rewrite (Lex_radix_point src l Hsz El). by rewrite Et. }
    intros t s' Hm. form_steps. by apply Hdone.
  - total_steps. eapply (error_token_total s s ps); try done.
    intros t s' Hinv. form_steps. apply HQ. split; [done|]. cbn [snd].
    eapply Moved_intro; [exact Hne|done|by rewrite vec_size_app|exact Hinv|].
    intros Ew. by destruct w.
Qed.
End numbers.

(** * Words *)

Abbreviation is_id_byte := (table_at IsIdByteTable).

(** A whole word: no byte of an identifier follows it. *)
Record word_of (c : char) (tail after : list char) : Prop := {
  word_start : table_at IsIdStartByteTable c = true;
  word_tail : take_while is_id_byte (tail ++ after) = tail;
}.

Lemma word_of_scan c rest :
  table_at IsIdStartByteTable c = true →
  word_of c (take_while is_id_byte rest) (drop_while is_id_byte rest).
Proof. intros Hc. split; [done|]. by rewrite take_drop_while. Qed.

Lemma id_byte_no_newline c : is_id_byte c = true → IsVerticalWhitespace c = false.
Proof.
  intros H. destruct (IsVerticalWhitespace c) eqn:E; [|done].
  unfold IsVerticalWhitespace in E. apply char_eqb_eq in E as ->. by vm_compute in H.
Qed.

Lemma id_start_no_newline c :
  table_at IsIdStartByteTable c = true → IsVerticalWhitespace c = false.
Proof.
  intros H. destruct (IsVerticalWhitespace c) eqn:E; [|done].
  unfold IsVerticalWhitespace in E. apply char_eqb_eq in E as ->. by vm_compute in H.
Qed.

Lemma word_starts c tail after : word_of c tail after → starts_token (c :: tail).
Proof. intros H. by apply (not_blank (table_at IsIdStartByteTable)), (word_start _ _ _ H). Qed.

Lemma word_no_newline c tail after : word_of c tail after → no_newline (c :: tail).
Proof.
  intros [Hc Ht]. constructor; [by apply id_start_no_newline|].
  eapply Forall_impl; [|apply id_byte_no_newline]. rewrite <- Ht. apply take_while_all.
Qed.

Lemma take_while_app_inv p cs after :
  take_while p (cs ++ after) = cs →
  Forall (λ c, p c = true) cs ∧ take_while p after = [].
Proof.
  induction cs as [|c cs IH]; cbn [app take_while]; [done|].
  destruct (p c) eqn:Hc; [|done]. intros [= E]. destruct (IH E). auto.
Qed.

(** The digits of a word's suffix are all the digits there are. *)
Lemma word_digits c tail after :
  word_of c tail after → Forall (λ c, IsDecimalDigit c = true) tail →
  take_while IsDecimalDigit (tail ++ after) = tail.
Proof.
  intros [_ Ht] Hd. apply take_while_app_inv in Ht as [_ Ha].
  induction Hd as [|d tail Hd _ IH]; cbn [app take_while].
  - destruct after as [|a after]; [done|]. cbn [take_while] in *.
    destruct (IsDecimalDigit a) eqn:E; [|done].
    rewrite IsIdByteTable_spec in Ha. unfold IsAlnum in Ha. rewrite E, orb_true_r in Ha. done.
  - by rewrite Hd, IH.
Qed.

(** ** Decimal suffixes *)

Lemma digit_value d : IsDecimalDigit d = true → 0 ≤ code d - code "0" ≤ 9.
Proof.
  unfold IsDecimalDigit, in_range. rewrite andb_true_iff, !Z.leb_le.
  change (code "0") with 48. change (code "9") with 57. lia.
Qed.

Lemma suffix_digits_spec rest : ∀ v r,
  0 ≤ v → suffix_digits v rest = Some r →
  Forall (λ c, IsDecimalDigit c = true) rest ∧ v ≤ r < (v + 1) * 10 ^ vec_size rest.
Proof.
  induction rest as [|d rest IH]; intros v r Hv; cbn [suffix_digits].
  { intros [= <-]. split; [constructor|]. change (vec_size []) with 0. lia. }
  destruct (IsDecimalDigit d) eqn:Hd; [|done]. intros E. pose proof (digit_value d Hd) as Hb.
  destruct (IH (v * 10 + (code d - code "0")) r ltac:(lia) E) as [Hf Hr]. split; [by constructor|].
  rewrite vec_size_cons, Z.pow_add_r by (pose proof (vec_size_nonneg rest); lia).
  assert (0 < 10 ^ vec_size rest) by (apply Z.pow_pos_nonneg; [done|apply vec_size_nonneg]).
  nia.
Qed.

(** A suffix of at most [WidthDigitLimit] digits fits in 64 bits. *)
Lemma suffix_value d rest r :
  IsDecimalDigit d = true → vec_size (d :: rest) ≤ WidthDigitLimit →
  suffix_digits (code d - code "0") rest = Some r →
  Forall (λ c, IsDecimalDigit c = true) (d :: rest) ∧ 0 ≤ r < 2 ^ 63.
Proof.
  intros Hd Hs E. pose proof (digit_value d Hd).
  destruct (suffix_digits_spec rest (code d - code "0") r ltac:(lia) E) as [Hf Hr]. split; [by constructor|].
  rewrite vec_size_cons in Hs. unfold WidthDigitLimit in Hs.
  assert (10 ^ vec_size rest ≤ 10 ^ 17) by (apply Z.pow_le_mono_r; lia).
  assert ((code d - code "0" + 1) * 10 ^ vec_size rest ≤ 10 * 10 ^ 17)
    by (apply Z.mul_le_mono_nonneg; lia).
  change (10 * 10 ^ 17) with 1000000000000000000 in *.
  change (2 ^ 63) with 9223372036854775808. lia.
Qed.

Section words.
Context {Ops : APInts} {Laws : APIntLaws Ops} {Build : LexBuild}.
Implicit Types (s : LexerState) (ps : list piece) (before after text : list char).

(** A method on a word: it gives up without an effect, or takes the word. *)
Definition word_result s before after text
    (Q : bool → LexerState → list LexDiagnostic → Prop) : Prop :=
  Q false s [] ∧
  ∀ s' w, Moved s before (text ++ after) (vec_size before + vec_size text) s' w → Q true s' w.

(** ** Sized type literals *)

Lemma lex_width_total s ps before c digits after k v
    (Q : bool → LexerState → list LexDiagnostic → Prop) :
  Inv s ps before ((c :: digits) ++ after) →
  Settled (buffer s) ps (before ++ (c :: digits) ++ after) →
  word_of c digits after → Forall (λ c, IsDecimalDigit c = true) digits → 0 ≤ v < 2 ^ 63 →
  TokenKind.is_sized_type_literal k = true ∨ k = TokenKind.DollarIntLiteral →
  (∀ s' w, Moved s before ((c :: digits) ++ after)
    (vec_size before + vec_size (c :: digits)) s' w → Q true s' w) →
  total (lex_width k v (vec_size before)) Q s.
Proof.
  intros H Hset Hw Hd Hv Hk HQ. pose proof (inv_room _ _ _ _ H) as HR. unfold lex_width.
  total_step. apply total_check; [apply Z.leb_le; lia|].
  total_steps. apply (add_int_total (RequestInt v)); [apply HR|cbn; lia| |].
  { destruct HR as [[_ H0] _ _ _]. pose proof (vec_size_nonneg ((c :: digits) ++ after)). lia. }
  intros p iv Hwf Hiv. cbv beta. total_steps.
  eapply (payload_token_total s); [exact H|exact Hset|by repeat split|by eapply RoomOk_ints|
    by eapply word_starts|by eapply word_no_newline|..].
  1-3: by destruct Hk as [[-> | [-> | ->]]%sized_kinds | ->].
  - cbn [app]. apply spells_digits with after; [done| |by eapply word_digits].
    by apply rest_at_here.
  - intros t s' Hm. total_steps. apply HQ, Hm.
Qed.

(** A diagnostic, and an error token over the word. *)
Lemma error_word_total s ps before text after k loc args
    (Q : bool → LexerState → list LexDiagnostic → Prop) :
  Inv s ps before (text ++ after) → Settled (buffer s) ps (before ++ text ++ after) →
  starts_token text → no_newline text →
  (∀ s' w, Moved s before (text ++ after) (vec_size before + vec_size text) s' w → Q true s' w) →
  total (LexEmit k loc args ;; error_token (vec_size text) (vec_size before)) Q s.
Proof.
  intros H Hset Hne Hnl HQ. unfold error_token. total_steps.
  eapply (error_token_total s s ps); try done; [by eapply RoomOk_shrink, inv_room|].
  intros t s' Hinv. total_steps. apply HQ.
  eapply Moved_intro; [by apply starts_token_ne|done|by rewrite vec_size_app|exact Hinv|done].
Qed.

Lemma substr_1 b c d tail :
  vec_size (c :: d :: tail) < 2 ^ 31 →
  StringRef.substr_from (StringRef.mk b (c :: d :: tail)) 1 = StringRef.mk (b + 1) (d :: tail).
Proof.
  intros Hs. rewrite !vec_size_cons in Hs. pose proof (vec_size_nonneg tail).
  rewrite StringRef.substr_from_in
    by (unfold StringRef.size; cbn [StringRef.chars]; rewrite ?vec_size_cons; lia).
  done.
Qed.

Section word.
Context (s : LexerState) (ps : list piece) (before : list char) (c : char) (tail after : list char).
Hypothesis H : Inv s ps before ((c :: tail) ++ after).
Hypothesis Hset : Settled (buffer s) ps (before ++ (c :: tail) ++ after).
Hypothesis Hword : word_of c tail after.

Definition word : StringRef.t := StringRef.mk (vec_size before) (c :: tail).

Lemma word_size : vec_size (c :: tail) < 2 ^ 31.
Proof using H.
  pose proof (inv_size _ _ _ _ H) as Hs. rewrite !vec_size_app in Hs. unfold MaxSource in Hs.
  pose proof (vec_size_nonneg before). pose proof (vec_size_nonneg after). lia.
Qed.

Lemma LexWordAsTypeLiteralToken_total (Q : bool → LexerState → list LexDiagnostic → Prop) :
  word_result s before after (c :: tail) Q →
  total (LexWordAsTypeLiteralToken word (vec_size before)) Q s.
Proof using Laws H Hset Hword.
  intros [HF HT]. pose proof word_size as Hsz. unfold LexWordAsTypeLiteralToken, word.
  unfold StringRef.size. cbn [StringRef.chars].
  destruct tail as [|d tail'].
  { by apply total_ret. }
  rewrite (proj2 (Z.ltb_ge _ _)).
  2: { rewrite !vec_size_cons. pose proof (vec_size_nonneg tail'). lia. }
  total_step. eapply total_lift; [reflexivity|]. total_step. eapply total_lift; [reflexivity|].
  cbn zeta. rewrite substr_1 by done. cbn [StringRef.chars StringRef.begin].
  assert (∀ k, TokenKind.is_sized_type_literal k = true →
    total (if negb (in_range "1" "9" d) then NoMatch
      else if WidthDigitLimit <? vec_size (d :: tail') then
        if negb (forallb IsDecimalDigit (d :: tail')) then NoMatch
        else LexEmit LexDiagnosticKind.TooManyTypeBitWidthDigits (vec_size before + 1)
              [LexArgInt (vec_size (d :: tail')); LexArgInt WidthDigitLimit] ;;
            error_token (vec_size (c :: d :: tail')) (vec_size before)
      else match suffix_digits (code d - code "0") (drop 1 (d :: tail')) with
          | None => NoMatch
          | Some suffix_value => lex_width k suffix_value (vec_size before)
          end) Q s) as Hkind.
  { intros k Hk. destruct (in_range "1" "9" d) eqn:Hd; cbn [negb]; [|by apply total_ret].
    assert (IsDecimalDigit d = true) as Hdd.
    { unfold IsDecimalDigit, in_range in *. rewrite andb_true_iff, !Z.leb_le in *.
      change (code "0") with 48. change (code "1") with 49 in Hd. lia. }
    destruct (Z.ltb_spec WidthDigitLimit (vec_size (d :: tail'))) as [Hl|Hl].
    - destruct (negb _); [by apply total_ret|].
      eapply error_word_total; [exact H|exact Hset|by eapply word_starts|by eapply word_no_newline|done].
    - cbn [drop]. destruct (suffix_digits _ _) as [v|] eqn:Ev; [|by apply total_ret].
      destruct (suffix_value d tail' v Hdd Hl Ev) as [Hf Hv].
      eapply lex_width_total; [exact H|exact Hset|exact Hword|exact Hf|exact Hv|by left|done]. }
  destruct (char_eqb c "i"); [by apply Hkind|]. destruct (char_eqb c "u"); [by apply Hkind|].
  destruct (char_eqb c "f"); [by apply Hkind|]. by apply total_ret.
Qed.

(** ** [$] literals *)

Lemma lex_dollar_suffix_total (Q : bool → LexerState → list LexDiagnostic → Prop) :
  (∀ s' w, Moved s before ((c :: tail) ++ after)
    (vec_size before + vec_size (c :: tail)) s' w → Q true s' w) →
  total (lex_dollar_suffix word (vec_size before)) Q s.
Proof using Laws H Hset Hword.
  intros HT. pose proof word_size as Hsz. unfold lex_dollar_suffix, dollar_diagnostic, word.
  unfold StringRef.size. cbn [StringRef.chars].
  assert (∀ k args, total (LexEmit k (vec_size before + 1) args ;;
    error_token (vec_size (c :: tail)) (vec_size before)) Q s) as Herr.
  { intros k args. eapply error_word_total; [exact H|exact Hset|by eapply word_starts|by eapply word_no_newline|done]. }
  destruct tail as [|d tail']; [apply Herr|].
  rewrite (proj2 (Z.ltb_ge _ _)).
  2: { rewrite !vec_size_cons. pose proof (vec_size_nonneg tail'). lia. }
  total_step. eapply total_lift; [reflexivity|].
  destruct (_ && _); [apply Herr|]. destruct (IsDecimalDigit d) eqn:Hd; cbn [negb]; [|apply Herr].
  cbn zeta. rewrite substr_1 by done. cbn [StringRef.chars StringRef.begin].
  destruct (Z.ltb_spec WidthDigitLimit (vec_size (d :: tail'))) as [Hl|Hl].
  - destruct (negb _); apply Herr.
  - cbn [drop]. destruct (suffix_digits _ _) as [v|] eqn:Ev; [|apply Herr].
    destruct (suffix_value d tail' v Hd Hl Ev) as [Hf Hv].
    eapply lex_width_total; [exact H|exact Hset|exact Hword|exact Hf|exact Hv|by right|done].
Qed.
End word.

(** ** The token before *)

(** When the text ends in a token, its record is the last. *)
Lemma TextOk_last b leading ps text before after :
  TextOk b leading (ps ++ [Token text]) before after →
  ∃ start infos info, token_infos b = start :: infos ++ [info] ∧
    before = pieces_text ps ++ text ∧ text ≠ [] ∧
    spelled (before ++ after) (identifiers b) after info (vec_size before - vec_size text, text).
Proof.
  intros HT. destruct (text_start _ _ _ _ _ HT) as (start & infos & E & _ & Hf).
  pose proof (text_pieces _ _ _ _ _ HT) as Hp. rewrite pieces_text_snoc in Hp. cbn [piece_text] in Hp.
  rewrite extents_snoc_token in Hf. apply Forall2_app_inv_r in Hf as (infos' & l & _ & Hl & ->).
  apply Forall2_cons_inv_r in Hl as (info & l' & Hi & Hl & ->). apply Forall2_nil_inv_r in Hl as ->.
  exists start, infos', info. split; [done|]. split; [done|]. split.
  - pose proof (text_ok _ _ _ _ _ HT) as Hok. rewrite Forall_app, Forall_singleton in Hok. apply starts_token_ne, Hok.
  - rewrite <- Hp at 2. rewrite vec_size_app, Z.add_simpl_r. exact Hi.
Qed.

(** The last token takes in some text on its line. *)
Lemma Inv_extend s s' ps text before more after start infos info info' :
  Inv s (ps ++ [Token text]) before (more ++ after) →
  same_text (buffer s) (buffer s') → token_infos (buffer s) = start :: infos ++ [info] →
  token_infos (buffer s') = start :: infos ++ [info'] → more ≠ [] → no_newline more →
  ¬ opens info → ¬ closes info → ¬ opens info' → ¬ closes info' →
  line_infos (buffer s') = line_infos (buffer s) → line_index s' = line_index s →
  open_groups s' = open_groups s → has_mismatched_brackets s' = has_mismatched_brackets s →
  comments s' = comments s → RoomOk s' after →
  spelled (before ++ more ++ after) (identifiers (buffer s')) after info'
    (vec_size before - vec_size text, text ++ more) →
  Inv s' (ps ++ [Token (text ++ more)]) (before ++ more) after.
Proof.
  intros [H1 H2 H3 H4 H5 H6 H7] Hb Et Et' Hne Hnl Ho Hc Ho' Hc' El Eli Eg Em Ecm HR Hsp. split.
  - by eapply TextOk_extend.
  - rewrite El, Eli. by eapply LinesOk_same.
  - rewrite Eg, Em. rewrite Et, app_comm_cons in H3. rewrite Et', app_comm_cons.
    apply GroupsOk_other; [done|done|]. by apply (GroupsOk_drop _ _ _ info).
  - done.
  - rewrite Ecm. by eapply NotesOk_replace.
  - rewrite Et in H6. rewrite Et', !vec_size_cons, !vec_size_app in *.
    change (vec_size [info']) with 1. change (vec_size [info]) with 1 in H6.
    pose proof (vec_size_nonneg more). lia.
  - by rewrite <- app_assoc.
Qed.

(** [GetTokenText] at the last token. *)
Lemma last_token_text b before after info text k :
  source_text b = to_string (before ++ after) → vec_size (before ++ after) < MaxSource →
  vec_get (token_infos b) k = Ok info → vec_size text ≤ vec_size before →
  byte_offset info = vec_size before - vec_size text →
  spells (before ++ after) (identifiers b) info text → GetTokenText b k = Ok text.
Proof.
  intros Hsrc Hs Hk Hle Ho Hsp.
  apply (GetTokenText_spells b k info (before ++ after)); [done| |done| |done].
  - unfold MaxSource in Hs. lia.
  - rewrite Ho, vec_size_app. pose proof (vec_size_nonneg text). pose proof (vec_size_nonneg after). lia.
Qed.

Lemma word_not_grouping info :
  TokenKind.is_word (kind info) = true → ¬ opens info ∧ ¬ closes info.
Proof. unfold opens, closes. by destruct (kind info). Qed.

Lemma merge_with_previous_total s ps before c tail after prev
    (Q : bool → LexerState → list LexDiagnostic → Prop) :
  Inv s ps before ((c :: tail) ++ after) → word_of c tail after → c ≠ "#"%char →
  leading_space s = false →
  vec_get (token_infos (buffer s)) (size (buffer s) - 1) = Ok prev →
  TokenKind.is_word (kind prev) = true →
  (∀ s' w, Moved s before ((c :: tail) ++ after)
    (vec_size before + vec_size (c :: tail)) s' w → Q true s' w) →
  total (merge_with_previous (word before c tail) (size (buffer s) - 1) prev) Q s.
Proof.
  intros H Hword Hn Hlead Hprev Hk HQ. pose proof (inv_text _ _ _ _ H) as HT.
  destruct (text_last _ _ _ _ _ HT Hlead) as (ps' & text & ->).
  destruct (TextOk_last _ _ _ _ _ _ HT) as (start & infos & info & E & Eb & Hne & Hsp).
  apply spelled_settled in Hsp as (Ho & _ & Hspells); [|by apply not_raw]. cbn [fst snd] in *.
  unfold size in *. rewrite E, last_index, app_comm_cons in Hprev. rewrite vec_get_app_last in Hprev.
  injection Hprev as <-. rewrite E, last_index. pose proof (inv_size _ _ _ _ H) as Hs.
  assert (vec_get (token_infos (buffer s)) (vec_size (start :: infos)) = Ok info) as Hget.
  { rewrite E, app_comm_cons. apply vec_get_app_last. }
  assert (vec_size text ≤ vec_size before) as Hle.
  { rewrite Eb, vec_size_app. pose proof (vec_size_nonneg (pieces_text ps')). lia. }
  unfold merge_with_previous. total_steps. eapply total_lift.
  { eapply last_token_text; [by apply HT|exact Hs|exact Hget|exact Hle|exact Ho|exact Hspells]. }
  unfold SetTokenInfo. total_steps. apply HQ.
  set (more := c :: tail) in *. rewrite Hlead. cbn [word StringRef.size StringRef.chars] in *.
  assert (pieces_text ps' ++ text ++ more ++ after = before ++ more ++ after) as Ecs
    by (rewrite Eb, <- app_assoc; done).
  eapply (Moved_intro _ _ _ more after); [done|done|by rewrite vec_size_app| |done].
  destruct (word_not_grouping _ Hk). rewrite !vec_size_app in Hs.
  pose proof (vec_size_nonneg text). pose proof (vec_size_nonneg more). pose proof (vec_size_nonneg after).
  set (info' := MakeTokenInfo TokenKind.Error _ _ _).
  apply (Inv_extend s _ ps' text before more after start infos info info'); try done.
  - cbn. by rewrite E, app_comm_cons, vec_set_last.
  - by eapply word_no_newline.
  - by destruct (RoomOk_shrink _ _ _ (inv_room _ _ _ _ H)).
  - split; [exact Ho|]. split; [done|]. left. cbn [fst snd].
    apply spells_error with after; [done| |].
    + rewrite <- Ecs. unfold rest_at. change (byte_offset info') with (byte_offset info).
      rewrite Ho, Eb, vec_size_app, Z.add_simpl_r, <- (app_assoc text). unfold vec_size.
      by rewrite Nat2Z.id, drop_app_length.
    + cbn. rewrite vec_size_app. apply payload_small. unfold StringRef.size, word. cbn. lia.
Qed.

Lemma LexWordAsDollarIntLiteralToken_total s ps before c tail after
    (Q : bool → LexerState → list LexDiagnostic → Prop) :
  Inv s ps before ((c :: tail) ++ after) → word_of c tail after → c ≠ "#"%char →
  word_result s before after (c :: tail) Q →
  total (LexWordAsDollarIntLiteralToken (word before c tail) (vec_size before)) Q s.
Proof.
  intros H Hword Hn [HF HT]. pose proof (Inv_settled _ _ _ _ _ H Hn) as Hset.
  unfold LexWordAsDollarIntLiteralToken. destruct (negb (starts_with _ _)); [by apply total_ret|].
  total_steps. destruct (leading_space s) eqn:Hlead; cbn [negb].
  { by eapply lex_dollar_suffix_total. }
  pose proof (inv_text _ _ _ _ H) as HTx. unfold last_token, GetTokenInfo, tokens_end. total_steps.
  rewrite (proj1 (text_no_recovery _ _ _ _ _ HTx)), Z.sub_0_r.
  destruct (text_start _ _ _ _ _ HTx) as (start & infos & E & _).
  destruct (vec_get_in_range (token_infos (buffer s)) (size (buffer s) - 1)) as [prev Hprev].
  { unfold size. rewrite E, vec_size_cons. pose proof (vec_size_nonneg infos). lia. }
  eapply total_lift; [exact Hprev|]. destruct (TokenKind.is_word (kind prev)) eqn:Hw.
  - by eapply merge_with_previous_total.
  - by eapply lex_dollar_suffix_total.
Qed.

(** ** Keywords and identifiers *)

Lemma keyword_switch text k :
  CaseSwitch keywords text = k → k ≠ TokenKind.Error →
  spelling k = text ∧ Plain k ∧ TokenKind.is_grouping_symbol k = false.
Proof.
  unfold CaseSwitch. destruct (List.find _ keywords) as [k'|] eqn:E; cbn [default]; [|by intros <-].
  intros Ek _. change (k' = k) in Ek. subst k'. apply List.find_some in E as [Hin Hs]. apply bool_decide_eq_true in Hs.
  assert (forallb (λ k, plain_spelling k && negb (TokenKind.is_grouping_symbol k)) keywords = true)
    as H by (vm_compute; reflexivity).
  rewrite forallb_forall in H. specialize (H k Hin). cbn in H.
  apply andb_true_iff in H as [H1 H2]. split; [done|]. split; [by apply plain_spec|].
  by apply negb_true_iff.
Qed.

(** [AddIdentifier] keeps the ids there were, and returns that of the text. *)
Lemma find_identifier_get ids (text : string) i :
  find_identifier ids text = Some i → vec_get ids i = Ok text.
Proof.
  revert i. induction ids as [|x ids IH]; intros i; cbn [find_identifier]; [done|].
  destruct (String.eqb_spec x text) as [->|_]; [by intros [= <-]|].
  destruct (find_identifier ids text) as [j|]; cbn; [|done]. intros [= <-].
  specialize (IH j eq_refl). pose proof (vec_get_lt _ _ _ IH).
  apply (vec_get_app_r [x] ids) in IH. change (vec_size [x]) with 1 in IH. done.
Qed.

Lemma AddIdentifier_get ids (text : string) id ids' :
  AddIdentifier ids text = (id, ids') →
  ids `prefix_of` ids' ∧ vec_get ids' id = Ok text ∧ vec_size ids' ≤ vec_size ids + 1.
Proof.
  unfold AddIdentifier. destruct (find_identifier ids text) as [i|] eqn:E; intros [= <- <-].
  - split; [done|]. split; [by apply find_identifier_get|lia].
  - split; [by exists [text]|]. split; [apply vec_get_app_last|].
    rewrite vec_size_app. change (vec_size [text]) with 1. lia.
Qed.

Lemma add_identifier_total text (Q : Z → LexerState → list LexDiagnostic → Prop) s :
  (∀ id ids, identifiers (buffer s) `prefix_of` ids → vec_get ids id = Ok (to_string text) →
    vec_size ids ≤ vec_size (identifiers (buffer s)) + 1 →
    Q id (set_buffer (with_identifiers ids) s) []) →
  total (add_identifier text) Q s.
Proof.
  intros HQ. unfold add_identifier. total_steps.
  destruct (AddIdentifier (identifiers (buffer s)) (to_string text)) as [id ids] eqn:E.
  destruct (AddIdentifier_get _ _ _ _ E) as (Hp & Hg & Hsz). by apply HQ.
Qed.

Lemma RoomOk_identifiers s ids before text :
  RoomOk s (before ++ text) → before ≠ [] → vec_size ids ≤ vec_size (identifiers (buffer s)) + 1 →
  RoomOk (set_buffer (with_identifiers ids) s) text.
Proof.
  intros [[H1 H2] H3 H4 H5] Hne Hids. rewrite vec_size_app in *.
  destruct before as [|c before]; [done|]. rewrite vec_size_cons in *.
  pose proof (vec_size_nonneg before). split; cbn; [split; [done|lia]|lia..].
Qed.

(** An identifier reads as raw only where the [#] after it makes it so. *)
Lemma word_reads_raw c tail after ident :
  word_of c tail after → reads_raw (c :: tail ++ after) ident →
  str ident = c :: tail → c :: tail = str "r" ∧ ∃ after', after = str "#r" ++ after'.
Proof.
  intros [Hc Ht] (d & rest & E & Hd) Ei. rewrite Ei in Hd. injection Hd as <-.
  cbn in E. injection E as Ec E. subst c. destruct tail as [|a tail].
  - split; [done|]. exists rest. exact E.
  - cbn in E. injection E as -> _. cbn in Ht. by vm_compute in Ht.
Qed.

(** The record of an identifier over a word. *)
Lemma word_spelled before c tail after ids id leading :
  word_of c tail after → vec_get ids id = Ok (to_string (c :: tail)) →
  0 ≤ id < MaxSource →
  spelled (before ++ (c :: tail) ++ after) ids after
    (MakeTokenInfo TokenKind.Identifier leading id (vec_size before)) (vec_size before, c :: tail).
Proof.
  intros Hword Hid Hr. split; [done|]. split; [done|]. cbn [fst snd].
  set (info := MakeTokenInfo _ _ _ _).
  assert (token_payload info = id) as Hp by (by apply payload_small).
  assert (str (to_string (c :: tail)) = c :: tail) as Hstr by apply str_to_string.
  assert (to_string (c :: tail) ≠ ""%string) as Hne by (intros Hx; by rewrite <- str_empty, Hstr in Hx).
  assert (rest_at (before ++ (c :: tail) ++ after) info = c :: tail ++ after) as Hrest
    by by apply rest_at_here.
  destruct (decide (c :: tail = str "r" ∧ starts_with (str "#r") after = true)) as [[Er Ha]|Hno].
  - right. split; [|rewrite !vec_size_app, Er; change (vec_size (str "r")) with 1; lia].
    split; [done|]. rewrite Hp. split; [by rewrite Hid, Er|]. split; [done|].
    by apply starts_with_spec.
  - left. rewrite <- Hstr. apply spells_plain; [done|by rewrite Hp|done|].
    rewrite Hstr, Hrest. intros Hraw. destruct (word_reads_raw _ _ _ _ Hword Hraw Hstr) as [Er Ha].
    apply Hno. split; [done|]. by apply starts_with_spec.
Qed.

Lemma LexKeywordOrIdentifier_total {Simd : X86Simd} s ps before c rest
    (Q : bool * Z → LexerState → list LexDiagnostic → Prop) :
  Inv s ps before (c :: rest) → table_at IsIdStartByteTable c = true ∨ 0x7F < code c →
  (∀ r s' w, Formed s before (c :: rest) r s' w → Q r s' w) →
  total (LexKeywordOrIdentifier (here before (c :: rest)) (vec_size before)) Q s.
Proof.
  intros H Hc HQ.
  assert (c ≠ "#"%char) as Hn by (intros ->; destruct Hc as [Hc|Hc]; by vm_compute in Hc).
  pose proof (Inv_settled _ _ _ _ _ H Hn) as Hset. pose proof (inv_size _ _ _ _ H) as Hs.
  unfold LexKeywordOrIdentifier. total_step. eapply total_lift; [by eapply at_first|].
  destruct (Z.ltb_spec 0x7F (code c)) as [Hb|Hb].
  { eapply LexError_total; [exact H|exact Hset| |exact HQ]. unfold IsSpace.
    rewrite (not_blank (λ c, 0x7F <? code c)); [|done|done|by apply Z.ltb_lt].
    destruct (IsVerticalWhitespace c) eqn:E; [|done]. apply char_eqb_eq in E as ->. by vm_compute in Hb. }
  destruct Hc as [Hc|Hc]; [|lia]. total_step. apply total_check; [exact Hc|].
  total_step. rewrite substr_here by done.
  pose proof (vec_size_lt _ _ Hs) as [_ Hrest].
  eapply total_lift.
  { rewrite ScanForIdentifierPrefix_spec with (c := c) (rest := rest);
      [rewrite Hc; reflexivity| |done]. unfold StringRef.size. cbn [StringRef.chars]. lia. }
  pose proof (word_of_scan c rest Hc) as Hword. cbn [StringRef.begin].
  rewrite <- (take_drop_while is_id_byte rest) in H, Hset, HQ.
  generalize dependent (drop_while is_id_byte rest). intros after H HQ Hset Hword.
  generalize dependent (take_while is_id_byte rest). intros tail H HQ Hset Hword.
  change (c :: tail ++ after) with ((c :: tail) ++ after) in *.
  total_step. apply total_check; [done|]. total_step.
  fold (word before c tail). change (StringRef.size (word before c tail)) with (vec_size (c :: tail)).
  change (StringRef.chars (word before c tail)) with (c :: tail).
  assert (∀ s' w, Moved s before ((c :: tail) ++ after)
    (vec_size before + vec_size (c :: tail)) s' w →
    Q (true, vec_size before + vec_size (c :: tail)) s' w) as Hdone.
  { intros s' w Hm. by apply HQ. }
  eapply LexWordAsTypeLiteralToken_total; [exact H|exact Hset|exact Hword|].
  split; [|intros s' w Hm; total_steps; rewrite ?app_nil_r; by apply Hdone].
  total_step. eapply LexWordAsDollarIntLiteralToken_total; [exact H|exact Hword|exact Hn|].
  split; [|intros s' w Hm; total_steps; rewrite ?app_nil_r; by apply Hdone].
  destruct (TokenKind.token_eqb_spec (CaseSwitch keywords (c :: tail)) TokenKind.Error) as [_|Hk];
    cbn [negb].
  2: { destruct (keyword_switch (c :: tail) _ eq_refl Hk) as (Esp & Hp & Hg).
    set (k := CaseSwitch keywords (c :: tail)) in *. rewrite <- Esp in *.
    total_step. eapply plain_token_total; [exact H|exact Hset|exact Hp|exact Hg|].
    intros t s' Hm. form_steps. apply Hdone. by rewrite <- vec_size_app. }
  total_steps. apply add_identifier_total. intros id ids Hpre Hget Hids. cbv beta. total_steps.
  set (s1 := set_buffer (with_identifiers ids) s).
  apply LexTokenWithPayload_total; [cbn; pose proof (token_room _ _ _ _ _ H); lia|].
  form_steps. apply Hdone.
  pose proof (inv_room _ _ _ _ H) as HR.
  assert (RoomOk s1 after) as HR1 by by eapply RoomOk_identifiers.
  eapply (Moved_intro _ _ _ (c :: tail) after); [done|done|by rewrite vec_size_app| |].
  - apply (Inv_with_token s s1 ps); try done; [by eapply word_starts|by eapply word_no_newline|]. cbn zeta.
    apply word_spelled; [exact Hword|exact Hget|]. apply vec_get_lt in Hget as Hlt.
    pose proof (vec_size_nonneg after). destruct HR1. cbn in *. lia.
  - intros _. by apply no_errors_with_token.
Qed.

(** ** Raw identifiers *)

Lemma extents_end ps es off text :
  Forall piece_ok ps → extents 0 ps = es ++ [(off, text)] →
  vec_size (pieces_text ps) ≤ off + vec_size text → ∃ ps', ps = ps' ++ [Token text].
Proof.
  intros Hok E Hend. destruct ps as [|q ps _] using rev_ind; [by destruct es|].
  apply Forall_app in Hok as [Hok [Hq _]%Forall_cons].
  destruct q as [c|t|t]; [| |rewrite extents_snoc_token in E; apply app_inj_tail in E as [_ E];
    injection E as _ ->; by exists ps]; exfalso; rewrite extents_snoc_other in E by done;
    pose proof (extents_bound 0 ps Hok) as Hb; rewrite E in Hb;
    apply Forall_app in Hb as [_ [Hb _]%Forall_cons]; cbn [fst snd] in Hb;
    rewrite pieces_text_snoc, vec_size_app in Hend; cbn [piece_text] in Hend.
  - change (vec_size [c]) with 1 in Hend. lia.
  - destruct Hq as (body & _ & [-> | ->]); rewrite ?vec_size_app in Hend;
      change (vec_size (str "//")) with 2 in Hend; pose proof (vec_size_nonneg body);
      pose proof (vec_size_nonneg [Newline]); lia.
Qed.

(** The record before a [#], and its extent. *)
Lemma last_extent b leading ps before after start infos prev :
  TextOk b leading ps before after → token_infos b = start :: infos →
  vec_get (token_infos b) (size b - 1) = Ok prev → kind prev ≠ TokenKind.FileStart →
  ∃ infos' es off text, infos = infos' ++ [prev] ∧ extents 0 ps = es ++ [(off, text)] ∧
    Forall2 (spelled (before ++ after) (identifiers b) after) infos' es ∧
    spelled (before ++ after) (identifiers b) after prev (off, text).
Proof.
  intros HT E Hprev Hk. destruct (text_start _ _ _ _ _ HT) as (start' & infos0 & E' & [Hs _] & Hf).
  rewrite E in E'. injection E' as <- <-. unfold size in Hprev. rewrite E in Hprev.
  destruct infos as [|x infos' _] using rev_ind.
  { injection Hprev as <-. done. }
  rewrite last_index, app_comm_cons, vec_get_app_last in Hprev. injection Hprev as ->.
  apply Forall2_app_inv_l in Hf as (es & l & Hf & Hl & Ee).
  apply Forall2_cons_inv_l in Hl as ([off text] & l' & Hi & Hl & ->). apply Forall2_nil_inv_l in Hl as ->.
  by exists infos', es, off, text.
Qed.

(** Only the token right before a [#] can wait for it, and then it does. *)
Lemma pending_last s ps before rest i info e :
  Inv s ps before ("#"%char :: rest) →
  tail (token_infos (buffer s)) !! i = Some info → extents 0 ps !! i = Some e →
  pending_raw (identifiers (buffer s)) info e.2 ("#"%char :: rest) →
  e.1 + 1 + vec_size ("#"%char :: rest) = vec_size (before ++ "#"%char :: rest) →
  S i = length (extents 0 ps) ∧ e.1 = vec_size before - 1 ∧
  ∃ ps', ps = ps' ++ [Token (str "r")].
Proof.
  intros H Hi He (_ & _ & Et & _) Hend. pose proof (inv_text _ _ _ _ H) as HT.
  pose proof (text_ok _ _ _ _ _ HT) as Hok. pose proof (text_pieces _ _ _ _ _ HT) as Hp.
  rewrite vec_size_app in Hend. destruct e as [off text]. cbn [fst snd] in *. subst text.
  assert (S i = length (extents 0 ps)) as Hlen.
  { pose proof (lookup_lt_Some _ _ _ He).
    destruct (decide (S i < length (extents 0 ps))%nat) as [Hlt|]; [|lia]. exfalso.
    destruct (lookup_lt_is_Some_2 _ _ Hlt) as [e' He'].
    pose proof (extents_sorted _ _ _ _ _ _ Hok He He' ltac:(lia)) as Hsort.
    pose proof (extents_bound 0 ps Hok) as Hb. eapply Forall_lookup_1 in Hb; [|exact He'].
    rewrite Hp in Hb. cbn [fst snd] in *. change (vec_size (str "r")) with 1 in Hsort. lia. }
  split; [done|]. split; [lia|]. destruct (extents 0 ps) as [|x es _] eqn:Ee using rev_ind; [done|].
  rewrite length_app in Hlen. cbn [length] in Hlen.
  assert (i = length es) as -> by lia. rewrite list_lookup_middle in He by done. injection He as ->.
  eapply extents_end; [exact Hok|exact Ee|]. rewrite Hp. change (vec_size (str "r")) with 1. lia.
Qed.

Lemma spells_r cs ids info :
  kind info = TokenKind.Identifier → spells cs ids info (str "r") →
  vec_get ids (token_payload info) = Ok "r"%string.
Proof.
  intros Hk Hsp. remember (str "r") as text eqn:Et.
  destruct Hsp as [Hf|?? Hk' _ _|? [Hk'|Hk'] _|? [Hk'|Hk'] _|???[Hk'|Hk'] _ _|[Hk'|Hk']
    |ident _ Hid _ _|ident ? _ _ Hne _]; try (rewrite Hk in Hk'; done); try (by rewrite Hk in Hf).
  - destruct ident as [|a ident]; [done|]. change (str (String a ident)) with (a :: str ident) in Et.
    injection Et as -> Et. by apply str_empty in Et as ->.
  - by destruct ident.
Qed.

Lemma settled_unless_pending s ps before rest start infos prev :
  Inv s ps before ("#"%char :: rest) → token_infos (buffer s) = start :: infos →
  vec_get (token_infos (buffer s)) (size (buffer s) - 1) = Ok prev →
  ¬ (pending_raw (identifiers (buffer s)) prev (str "r") ("#"%char :: rest) ∧
     byte_offset prev = vec_size before - 1 ∧ ∃ ps', ps = ps' ++ [Token (str "r")]) →
  Settled (buffer s) ps (before ++ "#"%char :: rest).
Proof.
  intros H E Hprev Hno. pose proof (inv_text _ _ _ _ H) as HT.
  destruct (text_start _ _ _ _ _ HT) as (start' & infos' & E' & _ & Hf).
  rewrite E in E'. injection E' as <- <-. unfold Settled. rewrite E. cbn [tail].
  apply Forall2_same_length_lookup_2; [by eapply Forall2_length|]. intros i info e Hi He.
  pose proof (Forall2_lookup_lr _ _ _ _ _ _ Hf Hi He) as (Ho & Hk & [Hsp|[Hpend Hend]]); [done|].
  exfalso. apply Hno.
  destruct (pending_last s ps before rest i info e H) as (Hlen & Hoff & Hps);
    [by rewrite E|done..|].
  assert (info = prev) as <-.
  { unfold size in Hprev. rewrite E in Hprev. apply vec_get_Ok in Hprev as [_ Hprev].
    rewrite <- (Forall2_length _ _ _ Hf) in Hlen.
    replace (Z.to_nat (vec_size (start :: infos) - 1)) with (S i) in Hprev.
    2: { rewrite vec_size_cons. unfold vec_size. lia. }
    change ((start :: infos) !! S i) with (infos !! i) in Hprev. rewrite Hi in Hprev. by injection Hprev. }
  split; [|split; [congruence|done]]. destruct Hpend as (H1 & H2 & H3 & H4). done.
Qed.

(** Where the [#] after a token makes it a raw identifier. *)
Definition raw_follows s ps before rest prev : Prop :=
  ∃ ps' d rest', ps = ps' ++ [Token (str "r")] ∧ rest = d :: rest' ∧
    table_at IsIdStartByteTable d = true ∧ kind prev = TokenKind.Identifier ∧
    vec_get (identifiers (buffer s)) (token_payload prev) = Ok "r"%string ∧
    byte_offset prev = vec_size before - 1.

Lemma is_raw_introducer_spec s ps before rest start infos prev :
  Inv s ps before ("#"%char :: rest) → token_infos (buffer s) = start :: infos →
  vec_get (token_infos (buffer s)) (size (buffer s) - 1) = Ok prev →
  ∃ raw, is_raw_introducer (here before ("#"%char :: rest)) (vec_size before) prev = Ok raw ∧
    if raw : bool then raw_follows s ps before rest prev
    else Settled (buffer s) ps (before ++ "#"%char :: rest).
Proof.
  intros H E Hprev. pose proof (inv_text _ _ _ _ H) as HT. pose proof (text_pieces _ _ _ _ _ HT) as Hp.
  pose proof (settled_unless_pending _ _ _ _ _ _ _ H E Hprev) as Hset.
  unfold is_raw_introducer, is_kind.
  destruct (TokenKind.token_eqb_spec (kind prev) TokenKind.Identifier) as [Hk|Hk]; cbn [negb].
  2: { exists false. split; [done|]. apply Hset. intros ((Hk' & _) & _). done. }
  destruct (last_extent _ _ _ _ _ _ _ _ HT E Hprev) as (infos' & es & off & text & _ & Ee & _ & Hsp);
    [by rewrite Hk|].
  pose proof (text_ok _ _ _ _ _ HT) as Hok. pose proof (extents_bound 0 ps Hok) as Hb.
  rewrite Ee, Hp in Hb. apply Forall_app in Hb as [_ [Hb _]%Forall_cons]. cbn [fst snd] in Hb.
  destruct before as [|b0 before0 _] using rev_ind; [change (vec_size []) with 0 in Hb; lia|].
  rewrite vec_size_app in *. change (vec_size [b0]) with 1 in *. rewrite Z.add_simpl_r in *.
  assert (StringRef.at_ (here (before0 ++ [b0]) ("#"%char :: rest)) (vec_size before0) = Ok b0) as ->.
  { rewrite <- here_app. by eapply at_first. }
  cbn [mbind Result_bind]. destruct (char_eqb_spec b0 "r") as [->|Hb0]; cbn [negb].
  2: { exists false. split; [done|]. apply Hset. intros (_ & _ & ps' & Eps). rewrite Eps in Hp.
    rewrite pieces_text_snoc in Hp. by apply app_inj_tail in Hp as [_ <-]. }
  assert (StringRef.size (here (before0 ++ ["r"%char]) ("#"%char :: rest)) =
    vec_size before0 + 1 + (vec_size rest + 1)) as ->.
  { rewrite here_size, vec_size_app, (vec_size_cons "#"%char). done. }
  destruct (Z.eqb_spec (vec_size before0 + 1 + 1) (vec_size before0 + 1 + (vec_size rest + 1))) as [Er|Er].
  { exists false. split; [done|]. apply Hset. intros ((_ & _ & _ & a & Ea) & _). cbn in Ea.
    injection Ea as ->. rewrite vec_size_cons in Er. pose proof (vec_size_nonneg a). lia. }
  destruct rest as [|d rest']; [change (vec_size []) with 0 in Er; lia|].
  assert (StringRef.at_ (here (before0 ++ ["r"%char]) ("#"%char :: d :: rest'))
    (vec_size before0 + 1 + 1) = Ok d) as ->.
  { change (vec_size before0 + 1) with (vec_size before0 + vec_size ["r"%char]).
    rewrite <- vec_size_app. apply at_here. done. }
  cbn [mbind Result_bind]. eexists. split; [reflexivity|].
  destruct (table_at IsIdStartByteTable d) eqn:Hd; cbn [andb].
  2: { apply Hset. intros ((_ & _ & _ & a & Ea) & _). cbn in Ea. injection Ea as -> _.
    by vm_compute in Hd. }
  destruct (Z.eqb_spec (byte_offset prev) (vec_size before0)) as [Ho|Ho].
  2: { apply Hset. intros (_ & Ho' & _). done. }
  assert (off = vec_size before0) as Eoff by (destruct Hsp as (Ho' & _); cbn in Ho'; congruence).
  destruct (extents_end ps es off text Hok Ee) as [ps' ->].
  { rewrite Hp, vec_size_app. change (vec_size ["r"%char]) with 1. lia. }
  rewrite pieces_text_snoc in Hp. cbn [piece_text] in Hp.
  assert (text = str "r") as ->.
  { destruct text as [|t text _] using rev_ind; [change (vec_size []) with 0 in Hb; lia|].
    rewrite app_assoc in Hp. apply app_inj_tail in Hp as [_ ->].
    rewrite vec_size_app in Hb. change (vec_size ["r"%char]) with 1 in Hb.
    destruct text as [|t' text]; [done|]. rewrite vec_size_cons in Hb.
    pose proof (vec_size_nonneg text). lia. }
  exists ps', d, rest'. split; [done|]. split; [done|]. split; [done|]. split; [done|].
  split; [|rewrite vec_size_app; change (vec_size ["r"%char]) with 1; lia].
  destruct Hsp as (_ & _ & [Hsp|[(_ & Hid & _) _]]); [|done]. by eapply spells_r.
Qed.

Lemma lex_raw_identifier_total {Simd : X86Simd} s ps before rest start infos prev
    (Q : bool * Z → LexerState → list LexDiagnostic → Prop) :
  Inv s ps before ("#"%char :: rest) → token_infos (buffer s) = start :: infos →
  vec_get (token_infos (buffer s)) (size (buffer s) - 1) = Ok prev →
  raw_follows s ps before rest prev →
  (∀ r s' w, Formed s before ("#"%char :: rest) r s' w → Q r s' w) →
  total (lex_raw_identifier (here before ("#"%char :: rest)) (vec_size before)
    (size (buffer s) - 1) prev) Q s.
Proof.
  intros H E Hprev (ps' & d & rest' & -> & -> & Hd & Hk & Hr & Ho) HQ.
  pose proof (inv_size _ _ _ _ H) as Hs. pose proof (inv_text _ _ _ _ H) as HT.
  assert (vec_size ((before ++ ["#"%char]) ++ d :: rest') < MaxSource) as Hs' by by rewrite <- app_assoc.
  unfold lex_raw_identifier. total_step. eapply total_lift.
  { unfold ident_id. rewrite Hk. cbn [require mbind Result_bind mret Result_ret TokenKind.eqb
      TokenKind.AsInt Z.eqb Pos.eqb]. rewrite Hr. reflexivity. }
  total_step. apply total_check; [done|]. total_step. eapply total_lift.
  { change ("#"%char :: d :: rest') with (["#"%char] ++ d :: rest'). rewrite here_app.
    replace (vec_size before + 1) with (vec_size (before ++ ["#"%char])) by by rewrite vec_size_app.
    rewrite substr_here by done. apply (ScanForIdentifierPrefix_spec (StringRef.mk _ (d :: rest')) d rest');
      [|done]. apply vec_size_lt in Hs' as [_ Hlt]. unfold StringRef.size. cbn [StringRef.chars]. lia. }
  rewrite Hd. cbn [StringRef.begin]. set (ident := d :: take_while is_id_byte rest').
  set (after := drop_while is_id_byte rest').
  assert ("#"%char :: d :: rest' = ("#"%char :: ident) ++ after) as Erest.
  { cbn. unfold after. by rewrite take_drop_while. }
  pose proof (word_no_newline _ _ _ (word_of_scan d rest' Hd)) as Hnl. fold ident in Hnl.
  assert (ident ≠ []) as Hne by done. clear Hs'.
  clearbody ident after. rewrite Erest in H, Hs, HQ, HT. unfold StringRef.empty, StringRef.size.
  cbn [StringRef.chars]. total_step. apply total_check; [by destruct ident|].
  total_step. apply add_identifier_total. intros id ids Hpre Hget Hids. total_step.
  pose proof (inv_room _ _ _ _ H) as HR.
  assert (RoomOk (set_buffer (with_identifiers ids) s) after) as HR1 by by eapply RoomOk_identifiers.
  assert (0 ≤ id < MaxSource) as Hid.
  { apply vec_get_lt in Hget. pose proof (vec_size_nonneg after). destruct HR1. cbn in *. lia. }
  eapply total_lift.
  { unfold set_ident_id, is_kind. rewrite Hk, TokenKind.token_eqb_refl. reflexivity. }
  unfold SetTokenInfo. total_steps. apply HQ. split; [done|]. cbn [snd].
  destruct (TextOk_last _ _ _ _ _ _ HT) as (start' & infos' & info & E' & Eb & _ & _).
  unfold size in *. rewrite E', last_index, app_comm_cons in Hprev. rewrite vec_get_app_last in Hprev.
  injection Hprev as ->. rewrite E', last_index.
  eapply (Moved_intro _ _ _ ("#"%char :: ident) after); [done|done| | |].
  - rewrite vec_size_app, vec_size_cons. lia.
  - set (info' := set_payload id prev).
    assert (¬ opens prev ∧ ¬ closes prev) as [Hop Hcl] by (apply word_not_grouping; by rewrite Hk).
    apply (Inv_extend s _ ps' (str "r") before ("#"%char :: ident) after start' infos' prev info');
      try done; [|by constructor|by destruct HR1|].
    + cbn. by rewrite E', app_comm_cons, vec_set_last.
    + split; [exact Ho|]. split; [cbn [kind MakeTokenInfo info' set_payload]; by rewrite Hk|]. left. cbn [fst snd].
      assert (str (to_string ident) = ident) as Hstr by apply str_to_string.
      change (str "r" ++ "#"%char :: ident) with (str "r#" ++ ident). rewrite <- Hstr.
      apply spells_raw with after; [done| | |].
      * cbn. by rewrite payload_small.
      * intros Hx. by rewrite <- str_empty, Hstr in Hx.
      * rewrite Hstr. unfold rest_at. change (byte_offset info') with (byte_offset prev).
        rewrite Ho, Eb, vec_size_app. change (vec_size (str "r")) with 1.
        rewrite Z.add_simpl_r, <- !app_assoc. unfold vec_size.
        by rewrite Nat2Z.id, drop_app_length.
  - intros _ Herr. unfold no_error_tokens in *. cbn. rewrite E', app_comm_cons in *.
    rewrite vec_set_last. apply Forall_app in Herr as [Herr _]. apply Forall_app_2; [done|].
    constructor; [|constructor]. cbn. by rewrite Hk.
Qed.
End words.
