(* ===== verification/LexLayout.v ===== *)
(** White space, lines and comments in the lexer: moving to a line, skipping
    blanks, recording comments and the ranges the directives mark, and skipping
    whole blocks of comments keep the invariant. *)

From S2P Require Import Prelude TokenKinds Text APInts CanonicalStores IntStores.
From S2P Require Import LexDiagnostics StringShape Tokens Simd IdentifierScan TokenText.
From S2P Require Import LexState LexComments LexTokens LexPieces LexInvariant LexSteps.
Import TokenizedBuffer.

(** * Lines of the rest of a text *)

(** [first_line t line rest]: [line] is the first line of [t], with the newline
    that ends it if there is one. *)
Inductive first_line : list char → list char → list char → Prop :=
  | line_ended body rest :
      no_newline body → first_line (body ++ Newline :: rest) (body ++ [Newline]) rest
  | line_last body : no_newline body → body ≠ [] → first_line body body [].

Lemma first_line_app t line rest : first_line t line rest → t = line ++ rest ∧ line ≠ [].
Proof.
  intros [body rest' _|body _ Hne]; [|by rewrite app_nil_r].
  split; [by rewrite <- app_assoc|]. by destruct body.
Qed.

Lemma first_line_exists t : t ≠ [] → ∃ line rest, first_line t line rest.
Proof.
  intros Hne. pose proof (find_if_spec IsVerticalWhitespace t) as Hf.
  destruct (find_if IsVerticalWhitespace t) as [n|].
  - destruct Hf as (c & rest & E & Hc & Hb & _). unfold IsVerticalWhitespace in Hc.
    apply char_eqb_eq in Hc as ->. rewrite E. eexists _, _. by apply line_ended.
  - eexists _, _. by apply line_last.
Qed.

(** A line goes on. *)
Lemma first_line_more pre t line rest :
  no_newline pre → first_line t line rest → first_line (pre ++ t) (pre ++ line) rest.
Proof.
  intros Hp [body rest' Hb|body Hb Hne]; [rewrite !app_assoc|]; constructor;
    try (by apply Forall_app_2). by destruct pre.
Qed.

(** The next line of the table. *)
Lemma first_line_next lines before t line rest :
  start <$> lines = line_starts (before ++ t) → first_line t line rest →
  (∃ info, vec_get lines (line_of before + 1) = Ok info ∧ start info = vec_size (before ++ line)) ∧
  (rest ≠ [] → line_of (before ++ line) = line_of before + 1).
Proof.
  intros E H. pose proof (line_of_nonneg before). destruct H as [body rest Hb|body Hb Hne].
  - split; [|intros _; by apply line_of_newline]. eapply lines_get; [exact E|lia|].
    unfold Newline in *. rewrite next_line_start by done. f_equal.
    rewrite !vec_size_app. change (vec_size ["010"%char]) with 1. lia.
  - split; [|done]. eapply lines_get; [exact E|lia|].
    rewrite last_line_start by done. by rewrite vec_size_app.
Qed.

Section layout.
Context {Ops : APInts} {Laws : APIntLaws Ops} {Build : LexBuild}.
Implicit Types (s : LexerState) (ps : list piece) (before after text : list char).

Definition with_lines (lines : list LineInfo) s : LexerState :=
  set_buffer (with_line_infos lines) s.

Lemma set_indent_total line n info (Q : unit → LexerState → list LexDiagnostic → Prop) s :
  vec_get (line_infos (buffer s)) line = Ok info →
  Q tt (with_lines (vec_set (line_infos (buffer s)) line {| start := start info; indent := n |}) s)
    [] →
  total (set_indent line n) Q s.
Proof.
  intros Hi HQ. unfold set_indent, GetLineInfo. total_step. eapply total_lift; [exact Hi|].
  total_steps. exact HQ.
Qed.

(** ** [AdvanceToLine] *)

Lemma indent_ok_skip pre rest st :
  st = vec_size pre →
  indent_ok (pre ++ rest)
    {| start := st;
       indent := vec_size (pre ++ take_while IsHorizontalWhitespace rest) - vec_size pre |}.
Proof.
  intros ->. rewrite vec_size_app. replace (vec_size pre + _ - vec_size pre)
    with (vec_size (take_while IsHorizontalWhitespace rest)) by lia.
  pose proof (vec_size_nonneg pre). pose proof (vec_size_nonneg (take_while IsHorizontalWhitespace rest)).
  split; [done|]. split; [done|]. cbn [start indent]. split.
  - rewrite vec_size_app. pose proof (take_while_length IsHorizontalWhitespace rest).
    unfold vec_size. lia.
  - unfold vec_size at 2. rewrite Nat2Z.id, drop_app_length. unfold vec_size. rewrite Nat2Z.id.
    rewrite <- (take_drop_while IsHorizontalWhitespace rest) at 2. rewrite take_app_length.
    apply take_while_all.
Qed.

Lemma AdvanceToLine_total s pre rest k info (Q : Z → LexerState → list LexDiagnostic → Prop) :
  start <$> line_infos (buffer s) = line_starts (pre ++ rest) →
  vec_get (line_infos (buffer s)) k = Ok info → start info = vec_size pre →
  (rest ≠ [] → k = line_of pre) → line_index s ≤ k →
  (∀ lines, let ws := take_while IsHorizontalWhitespace rest in
    LinesOk lines k true (pre ++ ws) (drop_while IsHorizontalWhitespace rest) →
    Q (vec_size (pre ++ ws)) (with_lines lines (set_line_index k s)) []) →
  total (AdvanceToLine (here pre rest) k) Q s.
Proof.
  intros Hs Hk Hst Hcur Hle HQ. unfold AdvanceToLine, current_line_info, GetLineInfo.
  total_steps. apply total_check; [by apply Z.leb_le|]. total_steps.
  eapply total_lift; [exact Hk|]. total_step. rewrite Hst, skip_here.
  eapply set_indent_total; [exact Hk|]. total_steps. apply HQ. cbn zeta.
  set (ws := take_while _ rest). assert (rest = ws ++ drop_while IsHorizontalWhitespace rest) as Er
    by (unfold ws; by rewrite take_drop_while).
  assert (pre ++ rest = (pre ++ ws) ++ drop_while IsHorizontalWhitespace rest) as Ecs
    by (rewrite <- app_assoc, <- Er; done).
  split.
  - rewrite <- Ecs, <- Hs. by apply starts_set_indent.
  - intros Hne. rewrite line_of_same.
    + apply Hcur. intros ->. done.
    + apply horizontal_no_newline, take_while_all.
  - eexists. split; [apply vec_get_set; [by eapply vec_get_lt|by left]|]. cbn [start indent].
    rewrite <- Ecs. split; [by apply indent_ok_skip|]. intros _. lia.
Qed.

(** ** The parts of the invariant *)

(** States that differ in lines, notes and flags only. *)
Record Kept s0 s : Prop := {
  kept_source : source_text (buffer s) = source_text (buffer s0);
  kept_recovery : post_lexing_recovery_tokens (buffer s) = post_lexing_recovery_tokens (buffer s0) ∧
    recovery_tokens (buffer s) = recovery_tokens (buffer s0);
  kept_errors : has_errors (buffer s) = has_errors (buffer s0);
  kept_tokens : token_infos (buffer s) = token_infos (buffer s0);
  kept_identifiers : identifiers (buffer s) = identifiers (buffer s0);
  kept_groups : open_groups s = open_groups s0;
  kept_mismatched : has_mismatched_brackets s = has_mismatched_brackets s0;
  kept_ints : ints s = ints s0;
  kept_reals : reals s = reals s0;
  kept_strings : string_literal_values s = string_literal_values s0;
}.

Lemma Kept_text s0 s leading ps before after :
  Kept s0 s → TextOk (buffer s0) leading ps before after → TextOk (buffer s) leading ps before after.
Proof.
  intros K H. destruct H as [H1 H2 H3 H4 H5 H6 H7 H8], K as [K1 [K2 K3] K4 K5 K6].
  split; [congruence| |congruence|done|done|done| |done].
  - by rewrite K2, K3.
  - by rewrite K5, K6.
Qed.

Lemma Inv_layout s0 s ps ps' before cs after :
  Inv s0 ps before (cs ++ after) → Kept s0 s →
  TextOk (buffer s0) (leading_space s) ps' (before ++ cs) after →
  LinesOk (line_infos (buffer s)) (line_index s) (leading_space s) (before ++ cs) after →
  NotesOk (comments s) ps' → Inv s ps' (before ++ cs) after.
Proof.
  intros [H1 H2 H3 H4 H5 H6 H7] K HT HL HN. split.
  - by eapply Kept_text.
  - done.
  - by rewrite (kept_tokens _ _ K), (kept_groups _ _ K), (kept_mismatched _ _ K).
  - apply RoomOk_shrink in H4 as [R1 R2 R3 R4].
    split; [rewrite (kept_ints _ _ K)|rewrite (kept_reals _ _ K)|rewrite (kept_strings _ _ K)|
      rewrite (kept_identifiers _ _ K)]; done.
  - done.
  - rewrite (kept_tokens _ _ K), vec_size_app. pose proof (vec_size_nonneg cs). lia.
  - by rewrite <- app_assoc.
Qed.

Lemma Moved_layout s0 s before taken after ps' position w :
  taken ≠ [] → position = vec_size (before ++ taken) → Kept s0 s →
  Inv s ps' (before ++ taken) after → Moved s0 before (taken ++ after) position s w.
Proof.
  intros Hne -> K H. eapply Moved_intro; [exact Hne|done|done|exact H|].
  intros _ Herr. unfold no_error_tokens. by rewrite (kept_tokens _ _ K).
Qed.

(** White space that may be empty, in a buffer that stays. *)
Lemma TextOk_white b ps before cs after :
  Forall (λ c, IsSpace c = true ∨ c = "013"%char) cs →
  TextOk b true ps before (cs ++ after) → TextOk b true (ps ++ blanks cs) (before ++ cs) after.
Proof.
  intros Hcs H. destruct cs as [|c cs]; [by rewrite !app_nil_r|].
  by apply (TextOk_blanks b b true ps before (c :: cs) after).
Qed.

Lemma horizontal_space cs : horizontal cs → Forall (λ c, IsSpace c = true ∨ c = "013"%char) cs.
Proof.
  intros H. eapply Forall_impl; [exact H|]. intros c Hc. cbn in Hc. left.
  unfold IsSpace. by rewrite Hc.
Qed.

(** ** White space *)

Lemma LexHorizontalWhitespace_total s ps before c rest
    (Q : Z → LexerState → list LexDiagnostic → Prop) :
  Inv s ps before (c :: rest) → IsHorizontalWhitespace c = true →
  (∀ position s' w, Moved s before (c :: rest) position s' w → Q position s' w) →
  total (LexHorizontalWhitespace (here before (c :: rest)) (vec_size before)) Q s.
Proof.
  intros H Hc HQ. unfold LexHorizontalWhitespace, NoteWhitespace. total_step.
  eapply total_lift; [by eapply at_first|]. total_step. apply total_check; [done|].
  total_steps. rewrite skip_here. apply HQ.
  assert (horizontal (take_while IsHorizontalWhitespace (c :: rest))) as Hws by apply take_while_all.
  assert (take_while IsHorizontalWhitespace (c :: rest) ≠ []) as Hne by (cbn; by rewrite Hc).
  rewrite <- (take_drop_while IsHorizontalWhitespace (c :: rest)) in H |- * at 1.
  set (ws := take_while _ _) in *. set (after := drop_while _ _) in *.
  eapply Moved_layout; [exact Hne|done|done|].
  pose proof H as [H1 H2 H3 H4 H5 H6 H7]. eapply (Inv_layout s); [exact H|done| | |].
  - eapply (TextOk_blanks (buffer s)); [by repeat split|done|done| |exact H1].
    by apply horizontal_space.
  - eapply LinesOk_same; [by apply horizontal_no_newline|done|exact H2].
  - by apply NotesOk_blanks.
Qed.

(** The rest of a line that ends in a newline, up to the first byte of the next
    line that is no space. *)
Lemma LexVerticalWhitespace_total s ps before body rest
    (Q : Z → LexerState → list LexDiagnostic → Prop) :
  Inv s ps before (body ++ Newline :: rest) → no_newline body →
  Forall (λ c, IsSpace c = true ∨ c = "013"%char) body →
  (∀ position s' w, Moved s before (body ++ Newline :: rest) position s' w → Q position s' w) →
  total (LexVerticalWhitespace (here before (body ++ Newline :: rest))) Q s.
Proof.
  intros H Hb Hsp HQ. pose proof (inv_lines _ _ _ _ H) as [L1 L2 _].
  pose proof (line_ended body rest Hb) as Hline.
  destruct (first_line_next _ _ _ _ _ L1 Hline) as ((info & Hi & Hst) & Hnext).
  destruct (first_line_app _ _ _ Hline) as [Eline Hne].
  unfold LexVerticalWhitespace, NoteWhitespace, next_line. total_steps.
  cbn [line_index set_leading_space set_members].
  rewrite L2 by by destruct body. rewrite Eline, here_app in *.
  assert (line_index s ≤ line_of before + 1) as Hle.
  { rewrite L2; [lia|]. intros Ex. by apply app_nil in Ex as [? _]. }
  eapply AdvanceToLine_total; [by rewrite <- app_assoc|exact Hi|done| |exact Hle|].
  { intros Hr. by rewrite Hnext. }
  intros lines ws HL. apply HQ.
  rewrite <- (take_drop_while IsHorizontalWhitespace rest) at 1. fold ws. rewrite (app_assoc _ ws).
  rewrite <- (take_drop_while IsHorizontalWhitespace rest), app_assoc in H. fold ws in H.
  rewrite <- app_assoc in HL. rewrite <- (app_assoc before).
  assert ((body ++ [Newline]) ++ ws ≠ []) as Hne' by (by destruct body).
  eapply Moved_layout; [exact Hne'|done|by split|].
  eapply (Inv_layout s); [exact H|by split| |exact HL|].
  - eapply (TextOk_blanks (buffer s));
      [by repeat split|done|done| |apply (inv_text _ _ _ _ H)].
    repeat apply Forall_app_2; [done|by repeat constructor|].
    apply horizontal_space, take_while_all.
  - apply NotesOk_blanks, (inv_notes _ _ _ _ H).
Qed.

Lemma LexCR_total s ps before rest (Q : Z → LexerState → list LexDiagnostic → Prop) :
  Inv s ps before ("013"%char :: rest) →
  (∀ position s' w, Moved s before ("013"%char :: rest) position s' w → Q position s' w) →
  total (LexCR (here before ("013"%char :: rest)) (vec_size before)) Q s.
Proof.
  intros H HQ. unfold LexCR. total_step.
  set (next := match rest with d :: _ => d | [] => "000"%char end).
  assert (∀ Q0 : char → LexerState → list LexDiagnostic → Prop, Q0 next s [] →
    total (if vec_size before + 1 <? StringRef.size (here before ("013"%char :: rest))
      then lift_result (λ _, StringRef.at_ (here before ("013"%char :: rest)) (vec_size before + 1))
      else mret "000"%char) Q0 s) as Hnext.
  { intros Q0 HQ0. rewrite here_size, vec_size_cons. subst next. destruct rest as [|d rest].
    - change (vec_size []) with 0. rewrite Z.ltb_irrefl. by apply total_ret.
    - rewrite (proj2 (Z.ltb_lt _ _)) by (rewrite vec_size_cons; pose proof (vec_size_nonneg rest); lia).
      eapply total_lift; [by apply at_here|done]. }
  apply Hnext. clear Hnext. destruct (IsVerticalWhitespace next) eqn:Hv.
  - destruct rest as [|d rest]; [by vm_compute in Hv|]. subst next.
    unfold IsVerticalWhitespace in Hv. apply char_eqb_eq in Hv as ->.
    by apply (LexVerticalWhitespace_total s ps before ["013"%char] rest); [|repeat constructor|
      repeat constructor; right|].
  - total_step. assert (∀ Q0 : bool → LexerState → list LexDiagnostic → Prop,
      (∀ b, Q0 b s []) → total (if 0 <? vec_size before
        then lift_result (λ _, StringRef.at_ (here before ("013"%char :: rest)) (vec_size before - 1))
          ≫= λ c, mret (IsVerticalWhitespace c)
        else mret false) Q0 s) as Hlf.
    { intros Q0 HQ0. destruct (Z.ltb_spec 0 (vec_size before)) as [Hp|Hp]; [|by apply total_ret].
      destruct (vec_get_in_range before (vec_size before - 1)) as [c Hc]; [lia|].
      total_step. eapply total_lift; [by apply vec_get_app_l|]. by apply total_ret. }
    apply Hlf. clear Hlf. intros b. unfold NoteWhitespace. total_steps. apply HQ.
    change ("013"%char :: rest) with (["013"%char] ++ rest) in H |- *.
    eapply Moved_layout; [done|by rewrite vec_size_app|done|].
    pose proof H as [H1 H2 H3 H4 H5 H6 H7]. eapply (Inv_layout s); [exact H|done| | |].
    + eapply (TextOk_blanks (buffer s)); [by repeat split|done|done| |exact H1].
      by repeat constructor; right.
    + eapply LinesOk_same; [by repeat constructor|done|exact H2].
    + by apply NotesOk_blanks.
Qed.
End layout.

(** * Comparing the starts of lines with vector instructions *)

Section masks.
Context {Simd : X86Simd} {SimdLaws : X86SimdLaws Simd}.

Lemma PrefixMasks_lanes n :
  0 ≤ n ≤ 16 →
  ∃ mask, vec_get PrefixMasks n = Ok mask ∧
    lanes mask = replicate (Z.to_nat n) 255 ++ replicate (16 - Z.to_nat n) 0.
Proof.
  intros Hn. assert (∃ v, vec_get PrefixMasks n = Ok (m128i_cast v) ∧ 0 ≤ v < 2 ^ 128 ∧
    bytes_of 16 v = replicate (Z.to_nat n) 255 ++ replicate (16 - Z.to_nat n) 0) as (v & E & Hv & Eb).
  { assert (n = Z.of_nat (Z.to_nat n)) as -> by lia. assert (Z.to_nat n ≤ 16)%nat as Hm by lia.
    generalize dependent (Z.to_nat n). clear n Hn. intros n Hn. rewrite Nat2Z.id.
    do 17 (destruct n as [|n]; [eexists; split; [reflexivity|split; [done|vm_compute; reflexivity]]|]).
    lia. }
  eexists. split; [exact E|]. by rewrite m128i_cast_spec, Eb.
Qed.

Lemma land_255_lxor c d : Z.land 255 (Z.lxor (code c) (code d)) = 0 → c = d.
Proof.
  intros E. apply code_inj, Z.lxor_eq. rewrite <- E. change 255 with (Z.ones 8).
  rewrite Z.land_comm, Z.land_ones by done. symmetry. apply Z.mod_small.
  assert (Z.log2 (Z.lxor (code c) (code d)) < 8) as Hlog.
  { eapply Z.le_lt_trans; [apply Z.log2_lxor; apply code_range|].
    apply Z.max_lub_lt; (destruct (decide (code c = 0 ∨ code d = 0)); [|]).
    all: match goal with |- Z.log2 (code ?x) < 8 => pose proof (code_range x);
      destruct (decide (code x = 0)) as [->|]; [done|apply Z.log2_lt_pow2; lia] end. }
  assert (0 ≤ Z.lxor (code c) (code d)).
  { apply Z.lxor_nonneg. pose proof (code_range c). pose proof (code_range d). lia. }
  split; [done|]. destruct (decide (Z.lxor (code c) (code d) = 0)) as [->|]; [done|].
  apply Z.log2_lt_pow2 in Hlog; lia.
Qed.

Lemma masked_equal n m (a b : list char) :
  length a = length b →
  forallb (Z.eqb 0) (zip_with Z.land (replicate n 255 ++ replicate m 0)
    (zip_with Z.lxor (code <$> a) (code <$> b))) = true →
  length a = (n + m)%nat → take n a = take n b.
Proof.
  revert a b. induction n as [|n IH]; intros a b El H Hl; [done|].
  destruct a as [|c a], b as [|d b]; [done..|].
  cbn [replicate app fmap list_fmap zip_with forallb] in H. apply andb_true_iff in H as [Hc H].
  apply Z.eqb_eq in Hc. symmetry in Hc. apply land_255_lxor in Hc as ->.
  cbn [length] in El, Hl. injection El as El. cbn [take]. f_equal. apply IH; [done|done|lia].
Qed.

(** The test of the vector code on two blocks. *)
Lemma prefix_test n mask (a b : list char) :
  0 ≤ n ≤ 16 → vec_get PrefixMasks n = Ok mask → length a = 16%nat → length b = 16%nat →
  mm_test_all_zeros mask (mm_xor_si128 (mm_loadu_si128 (code <$> a)) (mm_loadu_si128 (code <$> b)))
    = true → take (Z.to_nat n) a = take (Z.to_nat n) b.
Proof.
  intros Hn E Ha Hb Ht. destruct (PrefixMasks_lanes n Hn) as (mask' & E' & Hl).
  rewrite E in E'. injection E' as <-.
  rewrite test_all_zeros_spec, xor_spec, Hl, !block_lanes in Ht by done.
  apply (masked_equal _ (16 - Z.to_nat n)); [by rewrite Ha, Hb|exact Ht|lia].
Qed.
End masks.

Section notes.
Context {Ops : APInts} {Laws : APIntLaws Ops} {Build : LexBuild}.
Implicit Types (s : LexerState) (ps : list piece) (before after text : list char).

(** * Recording *)

Lemma GetCommentCategory_total src p : 0 ≤ p → ∃ c, GetCommentCategory src p = Ok c.
Proof.
  intros Hp. unfold GetCommentCategory. destruct (Z.leb_spec (StringRef.size src) (p + 2)) as [|H].
  { by eexists. }
  destruct (vec_get_in_range (StringRef.chars src) (p + 2)) as [c Hc].
  { unfold StringRef.size in H. lia. }
  unfold StringRef.at_. rewrite Hc. by eexists.
Qed.

Lemma extends_comment_total src cs indent p :
  0 ≤ p → Forall (λ c, 0 ≤ comment_start c) cs → ∃ b, extends_comment src cs indent p = Ok b.
Proof.
  intros Hp Hcs. unfold extends_comment. destruct (last cs) as [c|] eqn:E; [|by eexists].
  destruct (_ && _); [|by eexists].
  assert (0 ≤ comment_start c) as Hc.
  { apply last_Some in E as [l ->]. by apply Forall_app in Hcs as [_ [Hc _]%Forall_cons]. }
  destruct (GetCommentCategory_total src _ Hc) as [a ->].
  destruct (GetCommentCategory_total src _ Hp) as [b ->]. by eexists.
Qed.

(** A comment is added to those of the text, or to the last of them when only
    the indentation of its line is between them. *)
Lemma AddComment_total indent trailing ps before g (Q : unit → LexerState → list LexDiagnostic → Prop) s :
  NotesOk (comments s) ps → Forall piece_ok ps → pieces_text ps = before → comment_block g →
  vec_size (pieces_text (ps ++ g)) < MaxSource →
  (trailing = false → ∃ before' ws, before = before' ++ ws ∧ horizontal ws ∧ vec_size ws = indent) →
  (∀ cs, NotesOk cs (ps ++ g) → Q tt (set_comments cs s) []) →
  total (AddComment indent (vec_size before) (vec_size (pieces_text (ps ++ g))) trailing) Q s.
Proof.
  intros HN Hok <- Hg Hs Hblank HQ. destruct (NotesOk_bound _ _ HN Hok) as [HB1 HB2].
  set (en := vec_size (pieces_text (ps ++ g))) in *. set (st := vec_size (pieces_text ps)) in *.
  assert (0 ≤ st ≤ en ∧ en - st = vec_size (pieces_text g)) as [Hse Hg'].
  { subst st en. rewrite pieces_text_app, vec_size_app. pose proof (vec_size_nonneg (pieces_text ps)).
    pose proof (vec_size_nonneg (pieces_text g)). lia. }
  assert (∀ p t, 0 ≤ p ≤ en → comment_data p en t = {| comment_start := p;
    comment_length := en - p; comment_is_trailing := t |}) as Hdata.
  { intros p t Hp. unfold comment_data. f_equal. unfold MaxSource in Hs. change (2 ^ 32) with 4294967296.
    change (2 ^ 31) with 2147483648. change (2 ^ 21) with 2097152 in Hs.
    rewrite (Z.mod_small (en - p)), Z.mod_small; lia. }
  unfold AddComment. total_step. apply total_check; [apply Z.leb_le; lia|]. total_steps.
  assert (ValueStoreAdd (comments s) (comment_data st en trailing) =
    Ok (vec_size (comments s), comments s ++ [comment_data st en trailing])) as Hadd.
  { unfold ValueStoreAdd. rewrite (proj2 (Z.ltb_lt _ _)); [done|]. unfold MaxSource in Hs. lia. }
  assert (NotesOk (comments s ++ [comment_data st en trailing]) (ps ++ g)) as Hnew.
  { rewrite Hdata, Hg' by lia. exact (NotesOk_app _ _ (Note trailing g) HN Hg). }
  assert (∃ b, (b = true → ∃ cs c, comments s = cs ++ [c] ∧ trailing = false ∧
      comment_start c + comment_length c + indent = st) ∧
    ∀ Q0 : bool → LexerState → list LexDiagnostic → Prop, Q0 b s [] →
    total (if trailing then mret false else lift_result (λ s0, extends_comment (source (buffer s0))
      (comments s) indent st)) Q0 s) as (extends & Hcond & Hext).
  { destruct trailing; [exists false; split; [done|]; intros; by apply total_ret|].
    destruct (extends_comment_total (source (buffer s)) (comments s) indent st) as [b Hb]; [lia| |].
    { eapply Forall_impl; [exact HB2|]. cbn. lia. }
    exists b. split; [|intros Q0 HQ0; by eapply total_lift]. intros ->. unfold extends_comment in Hb.
    destruct (last (comments s)) as [c|] eqn:El; [|done]. apply last_Some in El as [cs El].
    destruct (_ && _) eqn:Et; [|done]. apply andb_true_iff in Et as [_ Et%Z.eqb_eq]. by exists cs, c. }
  apply Hext. clear Hext. destruct (last (comments s)) as [l|] eqn:El.
  2: { total_step. eapply total_lift; [exact Hadd|]. total_steps. by apply HQ. }
  destruct extends; [|total_step; eapply total_lift; [exact Hadd|]; total_steps; by apply HQ].
  destruct (Hcond eq_refl) as (cs & c & Ec & Et & Hst). destruct (Hblank Et) as (before' & ws & Eb & Hws & Hw).
  rewrite Ec, last_snoc in El. injection El as <-. rewrite Ec in HB2, HN |- *.
  apply Forall_app in HB2 as [_ [HB2 _]%Forall_cons]. total_step. apply total_check; [apply Z.leb_le; lia|].
  total_steps. apply HQ. assert (vec_size (cs ++ [c]) - 1 = vec_size cs) as ->
    by (rewrite vec_size_app; change (vec_size [c]) with 1; lia).
  rewrite vec_set_last, Hdata by lia. subst en. eapply NotesOk_coalesce; try done.
  subst st. rewrite Eb, vec_size_app in Hst. lia.
Qed.

(** ** Dump ranges *)

Lemma EndDumpSemIRRange_total loc (Q : unit → LexerState → list LexDiagnostic → Prop) s :
  (∀ rs w, Q tt (set_dump_ranges rs s) w) → total (EndDumpSemIRRange loc) Q s.
Proof.
  intros HQ. assert (∀ w, Q tt s w) as Hs.
  { intros w. specialize (HQ (dump_sem_ir_ranges s) w). by destruct s. }
  unfold EndDumpSemIRRange. total_steps. destruct (last _); [|total_steps; apply Hs].
  destruct (range_incomplete _); total_steps; [apply HQ|apply Hs].
Qed.

Lemma EndDumpSemIRRangeIfIncomplete_total loc (Q : unit → LexerState → list LexDiagnostic → Prop) s :
  (∀ rs w, Q tt (set_dump_ranges rs s) w) → total (EndDumpSemIRRangeIfIncomplete loc) Q s.
Proof.
  intros HQ. assert (∀ w, Q tt s w) as Hs.
  { intros w. specialize (HQ (dump_sem_ir_ranges s) w). by destruct s. }
  unfold EndDumpSemIRRangeIfIncomplete. total_steps.
  destruct (negb _); [total_steps; apply Hs|]. total_steps.
  apply EndDumpSemIRRange_total. intros rs w. apply HQ.
Qed.

Lemma BeginDumpSemIRRange_total loc (Q : unit → LexerState → list LexDiagnostic → Prop) s :
  (∀ rs w, Q tt (set_dump_ranges rs s) w) → total (BeginDumpSemIRRange loc) Q s.
Proof.
  intros HQ. unfold BeginDumpSemIRRange. total_step.
  apply EndDumpSemIRRangeIfIncomplete_total. intros rs w. total_steps. apply HQ.
Qed.

(** * Blocks of comments *)

(** A position at the start of line [k] of the table. *)
Record at_line (lines : list LineInfo) (k : Z) before after : Prop := {
  line_table : start <$> lines = line_starts (before ++ after);
  line_here : ∃ info, vec_get lines k = Ok info ∧ start info = vec_size before;
  line_number : after ≠ [] → k = line_of before;
}.

(** What the lines of a block start with: white space and two slashes. *)
Definition block_prefix (prefix : list char) : Prop :=
  ∃ ws more, prefix = ws ++ str "//" ++ more ∧ horizontal ws.

(** A line that starts with two slashes is a comment. *)
Lemma first_line_comment more line rest :
  first_line (str "//" ++ more) line rest →
  piece_ok (Comment line) ∧ (rest ≠ [] → piece_closed (Comment line)).
Proof.
  intros H. remember (str "//" ++ more) as t eqn:Et. destruct H as [body rest Hb|body Hb _].
  - assert (∃ b, body = str "//" ++ b) as [b ->].
    { destruct body as [|c0 [|c1 b]]; [done..|]. injection Et as -> -> _. by exists b. }
    apply Forall_app in Hb as [_ Hb]. split.
    + exists b. split; [done|]. right. by rewrite <- app_assoc.
    + intros _. change (last ((str "//" ++ b) ++ [Newline]) = Some Newline). by rewrite last_snoc.
  - subst body. apply Forall_app in Hb as [_ Hb]. split; [|done]. exists more. split; [done|by left].
Qed.

(** Going down a line of the block. *)
Lemma block_line b ps lines k before prefix t :
  block_prefix prefix → at_line lines k before (prefix ++ t) →
  TextOk b true ps before (prefix ++ t) →
  ∃ text after g, prefix ++ t = text ++ after ∧ text ≠ [] ∧ k = line_of before ∧ Forall in_note g ∧
    TextOk b true (ps ++ g) (before ++ text) after ∧
    (∃ info, vec_get lines (k + 1) = Ok info ∧ start info = vec_size (before ++ text)) ∧
    (after ≠ [] → k + 1 = line_of (before ++ text)).
Proof.
  intros (ws & more & -> & Hws) [L1 L2 L3] HT. rewrite <- !app_assoc in *.
  assert (k = line_of before) as -> by (apply L3; by destruct ws).
  destruct (first_line_exists (str "//" ++ more ++ t)) as (line & rest & Hl); [done|].
  destruct (first_line_app _ _ _ Hl) as [El Hne].
  destruct (first_line_comment _ _ _ Hl) as [Hok Hclosed].
  pose proof (first_line_more ws _ _ _ (horizontal_no_newline _ Hws) Hl) as Hl'.
  destruct (first_line_next _ _ _ _ _ L1 Hl') as [Hnext Hnum].
  exists (ws ++ line), rest, (blanks ws ++ [Comment line]).
  split; [rewrite <- app_assoc; by f_equal|]. split; [by destruct ws|]. split; [done|].
  split; [apply Forall_app_2; [by apply Forall_fmap|by repeat constructor]|].
  split; [|split; [done|intros Hr; symmetry; by apply Hnum]].
  rewrite !app_assoc. eapply (TextOk_comment b); [by repeat split|done|exact Hok|exact Hclosed|].
  apply TextOk_white; [by apply horizontal_space|]. by rewrite <- El.
Qed.

Lemma skip_to_next_line_total indent k info (Q : Z * Z → LexerState → list LexDiagnostic → Prop) s :
  vec_get (line_infos (buffer s)) (k + 1) = Ok info →
  (∀ lines, start <$> lines = start <$> line_infos (buffer s) →
    vec_get lines (k + 1) = Ok {| start := start info; indent := indent |} →
    Q (k + 1, start info) (with_lines lines s) []) →
  total (skip_to_next_line indent k) Q s.
Proof.
  intros Hi HQ. unfold skip_to_next_line. total_step. eapply set_indent_total; [exact Hi|].
  unfold GetLineInfo. total_step.
  assert (vec_get (vec_set (line_infos (buffer s)) (k + 1) {| start := start info; indent := indent |})
    (k + 1) = Ok {| start := start info; indent := indent |}) as Hget.
  { apply vec_get_set; [by eapply vec_get_lt|by left]. }
  eapply total_lift; [exact Hget|]. total_steps. apply HQ; [by apply starts_set_indent|done].
Qed.

(** What skipping a block from line [k] at [p] gives: a later line of the same
    source, with the comments in between. *)
Definition block_result (b : TokenizedBuffer.t) (cs : list char) ps (k p : Z)
    (r : Z * Z) (lines : list LineInfo) : Prop :=
  ∃ g before after, before ++ after = cs ∧ r.2 = vec_size before ∧ k ≤ r.1 ∧
    at_line lines r.1 before after ∧ Forall in_note g ∧ TextOk b true (ps ++ g) before after ∧
    p ≤ vec_size before.

Section blocks.
Context (b : TokenizedBuffer.t) (cs : list char) (first prefix_size : Z).
Hypothesis Hfirst : 0 ≤ first.
Hypothesis Hprefix_size : 0 ≤ prefix_size.
Let prefix : list char := take (Z.to_nat prefix_size) (drop (Z.to_nat first) cs).
Hypothesis Hprefix : block_prefix prefix.

Lemma at_line_bound lines k before after :
  at_line lines k before after → 0 ≤ k < vec_size (line_starts (before ++ after)).
Proof using.
  intros [L1 (info & Hi & _) _]. apply vec_get_lt in Hi.
  rewrite <- L1. unfold vec_size in *. by rewrite length_fmap.
Qed.

Lemma drop_before before after :
  drop (Z.to_nat (vec_size before)) (before ++ after) = after.
Proof using. apply drop_here. Qed.

(** One line of the block, whichever way it was recognised. *)
Lemma skip_line_total indent ps before after k
    (Q : Z * Z → LexerState → list LexDiagnostic → Prop) s :
  before ++ after = cs → take (Z.to_nat prefix_size) after = prefix →
  at_line (line_infos (buffer s)) k before after → TextOk b true ps before after →
  (∀ lines g before' after', before' ++ after' = cs → at_line lines (k + 1) before' after' →
    Forall in_note g → TextOk b true (ps ++ g) before' after' → vec_size before ≤ vec_size before' →
    Q (k + 1, vec_size before') (with_lines lines s) []) →
  total (skip_to_next_line indent k) Q s.
Proof using Hprefix.
  intros Ecs Hp HL HT HQ. rewrite <- (take_drop (Z.to_nat prefix_size) after), Hp in HL, HT.
  destruct (block_line _ _ _ _ _ _ _ Hprefix HL HT)
    as (text & rest & g & E & Hne & Hk & Hg & HT' & (info & Hi & Hst) & Hnum).
  assert (after = text ++ rest) as Ea by (rewrite <- E, <- Hp; by rewrite take_drop).
  eapply skip_to_next_line_total; [exact Hi|]. intros lines Hl Hget. rewrite Hst.
  apply (HQ lines g (before ++ text) rest); [by rewrite <- app_assoc, <- Ea| |exact Hg|exact HT'|].
  2: { rewrite vec_size_app. pose proof (vec_size_nonneg text). lia. }
  split; [|eexists; split; [exact Hget|done]|done].
  rewrite Hl, (line_table _ _ _ _ HL), E. by rewrite <- app_assoc.
Qed.

Lemma block_result_more ps g k p p' r lines :
  Forall in_note g → p ≤ p' → block_result b cs (ps ++ g) (k + 1) p' r lines →
  block_result b cs ps k p r lines.
Proof using.
  intros Hg Hp (g' & x & y & Hxy & Hr & Hle & Hat & Hg' & Ht & Hpos). exists (g ++ g'), x, y.
  rewrite app_assoc. split_and!; try done; [lia|by apply Forall_app_2|lia].
Qed.

Lemma skip_block_total valid indent fuel : ∀ ps before after k s
    (Q : Z * Z → LexerState → list LexDiagnostic → Prop),
  before ++ after = cs → at_line (line_infos (buffer s)) k before after →
  TextOk b true ps before after → vec_size (line_starts cs) - k < Z.of_nat fuel →
  (∀ r lines, block_result b cs ps k (vec_size before) r lines → Q r (with_lines lines s) []) →
  total (skip_block fuel (StringRef.mk 0 cs) first prefix_size valid indent k (vec_size before)) Q s.
Proof using Hfirst Hprefix_size Hprefix.
  induction fuel as [|fuel IH]; intros ps before after k s Q Ecs HL HT Hf HQ.
  { pose proof (at_line_bound _ _ _ _ HL). rewrite Ecs in *. lia. }
  cbn [skip_block]. total_step.
  assert (drop (Z.to_nat (vec_size before)) cs = after) as Ea by (rewrite <- Ecs; apply drop_here).
  assert (Q (k, vec_size before) s []) as Hstop.
  { assert (s = with_lines (line_infos (buffer s)) s) as Es by (by destruct s as [[]]).
    rewrite Es at 1. apply HQ. exists [], before, after. by rewrite app_nil_r. }
  assert (∀ c, (c = true → take (Z.to_nat prefix_size) after = prefix) →
    total (if c : bool then '(line, position) ← skip_to_next_line indent k;
        skip_block fuel (StringRef.mk 0 cs) first prefix_size valid indent line position
      else mret (k, vec_size before)) Q s) as Hgo.
  { intros [] Hc; [|by apply total_ret]. total_step.
    eapply (skip_line_total _ ps); [done|by apply Hc|done|done|].
    intros lines g before' after' Ecs' HL' Hg HT' Hmono. cbv beta iota.
    eapply IH; [exact Ecs'|exact HL'|exact HT'|lia|].
    intros r lines' Hr. rewrite app_nil_l. by eapply HQ, block_result_more. }
  unfold continues_block, StringRef.size. cbn [StringRef.chars]. rewrite Ea. fold prefix.
  destruct (Z.ltb_spec (vec_size cs) (vec_size before + prefix_size)) as [Hlt|Hge].
  { eapply total_lift; [reflexivity|]. by apply Hgo. }
  case_bool_decide as Heq; cbn [negb]; [|eapply total_lift; [reflexivity|by apply Hgo]].
  symmetry in Heq. destruct valid; [eapply total_lift; [reflexivity|by apply Hgo]|].
  destruct (Z.eqb_spec (vec_size before + prefix_size) (vec_size cs)) as [|Hne].
  { eapply total_lift; [reflexivity|]. by apply Hgo. }
  pose proof (vec_size_nonneg before).
  destruct (vec_get_in_range cs (vec_size before + prefix_size)) as [c Hc]; [lia|].
  eapply total_lift; [unfold StringRef.at_; cbn [StringRef.chars]; rewrite Hc; reflexivity|].
  by apply Hgo.
Qed.

Context {Simd : X86Simd} {SimdLaws : X86SimdLaws Simd}.

Lemma load_16_length position :
  0 ≤ position → position + 16 < vec_size cs →
  length (take 16 (drop (Z.to_nat position) cs)) = 16%nat.
Proof using. intros Hp Hs. rewrite length_take, length_drop. unfold vec_size in Hs. lia. Qed.

Lemma simd_skip_block_total mask indent fuel : ∀ ps before after k s
    (Q : Z * Z → LexerState → list LexDiagnostic → Prop),
  vec_get PrefixMasks prefix_size = Ok mask → prefix_size ≤ 16 →
  before ++ after = cs → at_line (line_infos (buffer s)) k before after →
  TextOk b true ps before after → vec_size (line_starts cs) - k ≤ Z.of_nat fuel →
  first ≤ vec_size before → vec_size before + 16 < vec_size cs →
  (∀ r lines, block_result b cs ps k (vec_size before) r lines → Q r (with_lines lines s) []) →
  total (simd_skip_block fuel (StringRef.mk 0 cs) mask (load_16 (StringRef.mk 0 cs) first)
    indent k (vec_size before)) Q s.
Proof using Hfirst Hprefix_size Hprefix SimdLaws.
  induction fuel as [|fuel IH]; intros ps before after k s Q Hm Hp16 Ecs HL HT Hf Hfst Hsz HQ.
  { pose proof (at_line_bound _ _ _ _ HL). rewrite Ecs in *. lia. }
  cbn [simd_skip_block]. pose proof (vec_size_nonneg before).
  assert (drop (Z.to_nat (vec_size before)) cs = after) as Ea by (rewrite <- Ecs; apply drop_here).
  destruct (negb (mm_test_all_zeros _ _)) eqn:Et.
  { apply total_ret. assert (s = with_lines (line_infos (buffer s)) s) as Es by (by destruct s as [[]]).
    rewrite Es. apply HQ. exists [], before, after. by rewrite app_nil_r. }
  apply negb_false_iff in Et. unfold load_16 in Et. cbn [StringRef.chars] in Et.
  pose proof (prefix_test _ _ _ _ (conj Hprefix_size Hp16) Hm (load_16_length first Hfirst ltac:(lia))
    (load_16_length (vec_size before) ltac:(lia) Hsz) Et) as Heq.
  rewrite !take_take, !Nat.min_l, Ea in Heq by lia. total_step.
  eapply (skip_line_total _ ps); [done|by symmetry|done|done|].
  intros lines g before' after' Ecs' HL' Hg HT' Hmono. cbv beta iota.
  unfold StringRef.size. cbn [StringRef.chars].
  assert (∀ r lines', block_result b cs (ps ++ g) (k + 1) (vec_size before') r lines' →
    Q r (with_lines lines' s) ([] ++ [])) as Hres.
  { intros r lines' Hr. rewrite app_nil_l. by eapply HQ, block_result_more. }
  destruct (Z.ltb_spec (vec_size before' + 16) (vec_size cs)) as [Hlt|Hge].
  - eapply IH; [exact Hm|exact Hp16|exact Ecs'|exact HL'|exact HT'|lia|lia|exact Hlt|exact Hres].
  - apply total_ret. apply Hres. exists [], before', after'. by rewrite app_nil_r.
Qed.
End blocks.

(** * [LexComment] *)

(** Moving on after a comment. *)
Lemma finish_comment_total s s2 ps ps' before taken after k
    (Q : Z → LexerState → list LexDiagnostic → Prop) :
  Inv s ps before (taken ++ after) → taken ≠ [] → Kept s s2 → leading_space s2 = true →
  NotesOk (comments s2) ps' →
  at_line (line_infos (buffer s2)) k (before ++ taken) after →
  TextOk (buffer s) true ps' (before ++ taken) after → line_index s2 ≤ k →
  (∀ position s', (∀ w, Moved s before (taken ++ after) position s' w) → Q position s' []) →
  total (AdvanceToLine (here before (taken ++ after)) k) Q s2.
Proof.
  intros H Hne K Hlead HN [L1 (info & Hi & Hst) L3] HT Hle HQ. rewrite here_app.
  eapply AdvanceToLine_total; [exact L1|exact Hi|exact Hst|exact L3|exact Hle|].
  intros lines ws HL. apply HQ. intros w.
  assert (after = ws ++ drop_while IsHorizontalWhitespace after) as Ea
    by (unfold ws; by rewrite take_drop_while).
  assert (horizontal ws) as Hws by apply take_while_all.
  clearbody ws. set (rest := drop_while _ _) in *. rewrite Ea in H, HT |- *.
  rewrite (app_assoc taken ws rest) in H |- *. rewrite <- (app_assoc before taken ws) in HL |- *.
  eapply Moved_layout; [by destruct taken|done|by destruct K; split|].
  eapply (Inv_layout s); [exact H|by destruct K; split| | |].
  - cbn [leading_space with_lines set_buffer set_line_index set_members]. rewrite Hlead.
    rewrite app_assoc. apply TextOk_white; [by apply horizontal_space|exact HT].
  - cbn [line_infos buffer with_lines with_line_infos set_buffer line_index set_line_index
      set_members leading_space]. rewrite Hlead. exact HL.
  - by apply NotesOk_blanks.
Qed.

(** A comment on a line of its own has its indentation before it. *)
Lemma own_line_blank lines line leading before after info :
  LinesOk lines line leading before after → vec_get lines line = Ok info →
  vec_size before = start info + indent info →
  ∃ ws, before = take (Z.to_nat (start info)) before ++ ws ∧ horizontal ws ∧
    vec_size ws = indent info ∧ drop (Z.to_nat (start info)) (before ++ after) = ws ++ after.
Proof.
  intros HL Hi Hp. destruct (lines_indent _ _ _ _ _ HL) as (info' & Hi' & (H1 & H2 & H3 & H4) & _).
  rewrite Hi in Hi'. injection Hi' as <-. set (ws := drop (Z.to_nat (start info)) before).
  assert (length ws = Z.to_nat (indent info)) as Hlen.
  { unfold ws. rewrite length_drop. unfold vec_size in Hp. lia. }
  assert (drop (Z.to_nat (start info)) (before ++ after) = ws ++ after) as Ed.
  { rewrite drop_app_le; [done|]. unfold vec_size in Hp. lia. }
  exists ws. split; [symmetry; apply take_drop|]. rewrite Ed in H4. rewrite <- Hlen, take_app_length in H4.
  split; [done|]. split; [unfold vec_size; lia|done].
Qed.

(** What a comment on a line of its own is about: its prefix. *)
Lemma own_line_prefix lines line leading before more info n :
  LinesOk lines line leading before (str "//" ++ more) → vec_get lines line = Ok info →
  vec_size before = start info + indent info → 2 ≤ n ≤ 3 →
  block_prefix (take (Z.to_nat (indent info + n)) (drop (Z.to_nat (start info))
    (before ++ str "//" ++ more))).
Proof.
  intros HL Hi Hp Hn. destruct (own_line_blank _ _ _ _ _ _ HL Hi Hp) as (ws & _ & Hws & Hlen & ->).
  exists ws, (take (Z.to_nat (n - 2)) more). split; [|exact Hws].
  replace (Z.to_nat (indent info + n)) with (length ws + (2 + Z.to_nat (n - 2)))%nat
    by (unfold vec_size in Hlen; lia).
  rewrite take_app_add. f_equal.
Qed.

(** The next test of a chain of them. *)
Ltac split_if E :=
  lazymatch goal with |- total (if ?c then _ else _) _ _ => destruct c eqn:E end.

Section comment.
Context {Simd : X86Simd} {SimdLaws : X86SimdLaws Simd}.

(** A comment on a line of its own has white space before it. *)
Lemma own_line_leading s ps before c rest info :
  Inv s ps before (c :: rest) → vec_get (line_infos (buffer s)) (line_index s) = Ok info →
  vec_size before = start info + indent info → leading_space s = true.
Proof.
  intros H Hi Hp. destruct (lines_indent _ _ _ _ _ (inv_lines _ _ _ _ H)) as (info' & Hi' & _ & Hb).
  rewrite Hi in Hi'. injection Hi' as <-. specialize (Hb ltac:(done)).
  destruct (leading_space s); [done|]. lia.
Qed.

(** The first line of a comment: the lexer's next line starts after it. *)
Lemma comment_line s ps before more :
  Inv s ps before (str "//" ++ more) →
  ∃ line rest, str "//" ++ more = line ++ rest ∧ line ≠ [] ∧
    at_line (line_infos (buffer s)) (line_index s + 1) (before ++ line) rest ∧
    TextOk (buffer s) true (ps ++ [Comment line]) (before ++ line) rest.
Proof.
  intros H. pose proof (inv_lines _ _ _ _ H) as [L1 L2 _].
  destruct (first_line_exists (str "//" ++ more)) as (line & rest & Hl); [done|].
  destruct (first_line_app _ _ _ Hl) as [El Hne].
  destruct (first_line_comment _ _ _ Hl) as [Hok Hclosed].
  destruct (first_line_next _ _ _ _ _ L1 Hl) as [(info & Hi & Hst) Hnum].
  exists line, rest. split; [done|]. split; [done|]. rewrite L2 by done. split.
  - split; [by rewrite <- app_assoc, <- El|by exists info|]. intros Hr. by rewrite Hnum.
  - eapply (TextOk_comment (buffer s)); [by repeat split|done|exact Hok|exact Hclosed|].
    rewrite <- El. apply (inv_text _ _ _ _ H).
Qed.

Lemma SkipCommentBlock_total s cs before after ps info valid k
    (Q : Z * Z → LexerState → list LexDiagnostic → Prop) :
  before ++ after = cs → 0 ≤ start info ≤ vec_size before → 0 ≤ indent info →
  (∀ n, 2 ≤ n ≤ 3 → block_prefix (take (Z.to_nat (indent info + n)) (drop (Z.to_nat (start info)) cs))) →
  at_line (line_infos (buffer s)) k before after → TextOk (buffer s) true ps before after →
  1 ≤ k →
  (∀ r lines, block_result (buffer s) cs ps k (vec_size before) r lines → Q r (with_lines lines s) []) →
  total (SkipCommentBlock (StringRef.mk 0 cs) (indent info) (start info) valid k (vec_size before)) Q s.
Proof.
  intros Ecs Hst Hin Hpre HL HT Hk HQ. unfold SkipCommentBlock. total_steps.
  assert (vec_size (line_starts cs) = Z.of_nat (length (line_infos (buffer s)))) as Hlines.
  { rewrite <- Ecs, <- (line_table _ _ _ _ HL). unfold vec_size. by rewrite length_fmap. }
  destruct (_ && _ && _ && _) eqn:Et.
  - rewrite !andb_true_iff, Z.ltb_lt, Z.leb_le in Et. destruct Et as [[[_ ->] Hsz] Hmax].
    unfold MaxIndent in Hmax. unfold StringRef.size in Hsz. cbn [StringRef.chars] in Hsz.
    destruct (PrefixMasks_lanes (indent info + 3)) as (mask & Hm & _); [lia|].
    total_step. eapply total_lift; [exact Hm|].
    eapply (simd_skip_block_total (buffer s) cs (start info) (indent info + 3)); try done; try lia.
    by apply Hpre.
  - eapply (skip_block_total (buffer s) cs (start info)); try done; try lia.
    + destruct valid; lia.
    + apply Hpre. destruct valid; lia.
Qed.

(** The next line's start, from the line table. *)
Lemma next_line_total s before line rest
    (Q : LineInfo → LexerState → list LexDiagnostic → Prop) k :
  at_line (line_infos (buffer s)) k (before ++ line) rest →
  (∀ info, start info = vec_size (before ++ line) → Q info s []) → total (GetLineInfo k) Q s.
Proof.
  intros [_ (info & Hi & Hst) _] HQ. unfold GetLineInfo. eapply total_lift; [exact Hi|]. by apply HQ.
Qed.

(** The pieces of a comment are recorded. *)
Lemma record_comment_total s s1 ps before g taken after indent trailing
    (Q : unit → LexerState → list LexDiagnostic → Prop) :
  Inv s ps before (taken ++ after) → comments s1 = comments s → comment_block g →
  TextOk (buffer s) true (ps ++ g) (before ++ taken) after →
  (trailing = false → ∃ before' ws, before = before' ++ ws ∧ horizontal ws ∧ vec_size ws = indent) →
  (∀ cs, NotesOk cs (ps ++ g) → Q tt (set_comments cs s1) []) →
  total (AddComment indent (vec_size before) (vec_size (before ++ taken)) trailing) Q s1.
Proof.
  intros H Ec Hg HT Hblank HQ. rewrite <- (text_pieces _ _ _ _ _ HT).
  pose proof (inv_size _ _ _ _ H) as Hs. rewrite app_assoc, vec_size_app in Hs.
  pose proof (vec_size_nonneg after). apply AddComment_total; try done.
  - rewrite Ec. apply (inv_notes _ _ _ _ H).
  - apply (text_ok _ _ _ _ _ (inv_text _ _ _ _ H)).
  - apply (text_pieces _ _ _ _ _ (inv_text _ _ _ _ H)).
  - rewrite (text_pieces _ _ _ _ _ HT). lia.
Qed.

(** The blanks before a comment on a line of its own. *)
Lemma own_line_indent s ps before after info :
  Inv s ps before after → vec_get (line_infos (buffer s)) (line_index s) = Ok info →
  vec_size before = start info + indent info →
  ∃ before' ws, before = before' ++ ws ∧ horizontal ws ∧ vec_size ws = indent info.
Proof.
  intros H Hi Hp. destruct (own_line_blank _ _ _ _ _ _ (inv_lines _ _ _ _ H) Hi Hp)
    as (ws & E & Hws & Hw & _). by eexists _, ws.
Qed.

Lemma lex_comment_text_total s ps before more info valid
    (Q : Z → LexerState → list LexDiagnostic → Prop) :
  Inv s ps before (str "//" ++ more) →
  vec_get (line_infos (buffer s)) (line_index s) = Ok info →
  (∀ position s', (∀ w, Moved s before (str "//" ++ more) position s' w) → Q position s' []) →
  total (lex_comment_text (here before (str "//" ++ more)) info (vec_size before)
    (negb (vec_size before =? start info + indent info)) valid) Q s.
Proof.
  intros H Hi HQ. destruct (comment_line _ _ _ _ H) as (line & rest & E & Hne & HL & HT).
  pose proof (inv_size _ _ _ _ H) as Hs. pose proof (inv_lines _ _ _ _ H) as HLines.
  assert (vec_size before < MaxSource ∧ vec_size before ≤ vec_size (before ++ line)) as [Hb Hle].
  { rewrite vec_size_app in Hs. pose proof (vec_size_nonneg (str "//" ++ more)).
    rewrite vec_size_app. pose proof (vec_size_nonneg line). lia. }
  unfold lex_comment_text, next_line. total_steps.
  eapply next_line_total; [exact HL|]. intros next Hst. rewrite Hst.
  destruct (Z.eqb_spec (vec_size before) (start info + indent info)) as [Hp|Hp]; cbn [negb].
  - pose proof (own_line_leading _ _ _ _ _ _ H Hi Hp) as Hlead.
    assert (0 ≤ start info ∧ 0 ≤ indent info) as [Hst0 Hin0].
    { destruct (lines_indent _ _ _ _ _ HLines) as (info' & Hi' & (H1 & H2 & _) & _).
      rewrite Hi in Hi'. by injection Hi' as <-. }
    unfold here. total_step.
    eapply (SkipCommentBlock_total s (before ++ str "//" ++ more) (before ++ line) rest);
      [by rewrite <- app_assoc, E|lia|done|by intros n; eapply own_line_prefix|exact HL|exact HT| |].
    { rewrite (lines_current _ _ _ _ _ HLines) by done. pose proof (line_of_nonneg before). lia. }
    intros [k position] lines (g & before' & after' & Ecs & Ep & Hk & HL' & Hg & HT' & Hmono).
    cbn [fst snd] in *. subst position.
    assert (∃ taken, before' = before ++ taken ∧ taken ≠ []) as (taken & -> & Hne').
    { rewrite E, (app_assoc before) in Ecs. apply app_eq_inv in Ecs as [(x & -> & _)|(x & Ex & _)].
      - exists (line ++ x). rewrite <- app_assoc. split; [done|]. by destruct line.
      - rewrite Ex, vec_size_app in Hmono. destruct x as [|c x].
        + rewrite app_nil_r in Ex. exists line. by rewrite Ex.
        + rewrite vec_size_cons in Hmono. pose proof (vec_size_nonneg x). lia. }
    rewrite <- app_assoc in Ecs. apply app_inv_head in Ecs. rewrite <- Ecs in *.
    rewrite <- app_assoc in HT'. total_step.
    eapply (record_comment_total s); [exact H|done|by eexists _, g|exact HT'| |].
    { intros _. by eapply own_line_indent. }
    intros cs Hcs. fold (here before (taken ++ after')).
    eapply (finish_comment_total s); [exact H|done|by split|exact Hlead|exact Hcs|exact HL'|exact HT'| |].
    { cbn. lia. }
    intros position s' Hm. by apply HQ.
  - total_steps. eapply (record_comment_total s); [by rewrite <- E|done|by eexists _, []|exact HT|done|].
    intros cs Hcs. unfold NoteWhitespace. total_steps. rewrite E in H, HQ |- *.
    eapply (finish_comment_total s); [exact H|done|by split|done|exact Hcs|exact HL|exact HT|cbn; lia|].
    intros position s' Hm. by apply HQ.
Qed.

(** A directive, after its own effect. *)
Lemma add_directive_comment_line_total s ps before more info include rs
    (Q : Z → LexerState → list LexDiagnostic → Prop) :
  Inv s ps before (str "//" ++ more) →
  vec_get (line_infos (buffer s)) (line_index s) = Ok info →
  vec_size before = start info + indent info →
  (∀ position s', (∀ w, Moved s before (str "//" ++ more) position s' w) → Q position s' []) →
  total (add_directive_comment_line (here before (str "//" ++ more)) (indent info)
    (vec_size before)) Q (set_notes (comments s) include rs s).
Proof.
  intros H Hi Hp HQ. destruct (comment_line _ _ _ _ H) as (line & rest & E & Hne & HL & HT).
  pose proof (inv_size _ _ _ _ H) as Hs. pose proof (own_line_leading _ _ _ _ _ _ H Hi Hp) as Hlead.
  assert (vec_size before < MaxSource ∧ vec_size before ≤ vec_size (before ++ line)) as [Hb Hle].
  { rewrite vec_size_app in Hs. pose proof (vec_size_nonneg (str "//" ++ more)).
    rewrite vec_size_app. pose proof (vec_size_nonneg line). lia. }
  unfold add_directive_comment_line, next_line. total_steps.
  eapply next_line_total; [exact HL|]. intros next Hst. rewrite Hst. total_step.
  eapply (record_comment_total s); [by rewrite <- E|done|by eexists _, []|exact HT| |].
  { intros _. by eapply own_line_indent. }
  intros cs Hcs. rewrite E in H, HQ |- *.
  eapply (finish_comment_total s); [exact H|done|by split|exact Hlead|exact Hcs|exact HL|exact HT|
    cbn; lia|].
  intros position s' Hm. by apply HQ.
Qed.

Lemma LexComment_total s ps before more (Q : Z → LexerState → list LexDiagnostic → Prop) :
  Inv s ps before (str "//" ++ more) →
  (∀ position s' w, Moved s before (str "//" ++ more) position s' w → Q position s' w) →
  total (LexComment (here before (str "//" ++ more)) (vec_size before)) Q s.
Proof.
  intros H HQ. pose proof (inv_size _ _ _ _ H) as Hs.
  destruct (lines_indent _ _ _ _ _ (inv_lines _ _ _ _ H)) as (info & Hi & _ & _).
  unfold LexComment, current_line_info, GetLineInfo. rewrite substr_here by done.
  cbn [StringRef.begin StringRef.chars]. total_step.
  apply total_check; [by apply starts_with_spec; eexists|]. total_steps.
  eapply total_lift; [exact Hi|]. total_step.
  set (trailing := negb (vec_size before =? start info + indent info)).
  assert (∃ a, ∀ Q0 : bool → LexerState → list LexDiagnostic → Prop, Q0 a s [] →
    total (if vec_size before + 2 <? StringRef.size (here before (str "//" ++ more))
      then lift_result (λ _, StringRef.at_ (here before (str "//" ++ more)) (vec_size before + 2))
        ≫= λ c, mret (negb (IsSpace c)) else mret false) Q0 s) as [a Ha].
  { rewrite here_size, vec_size_app. change (vec_size (str "//")) with 2.
    destruct (Z.ltb_spec (vec_size before + 2) (vec_size before + (2 + vec_size more))) as [Hlt|Hge].
    2: { exists false. intros. by apply total_ret. }
    destruct (vec_get_in_range more 0) as [c Hc]; [lia|]. exists (negb (IsSpace c)).
    intros Q0 HQ0. total_step. eapply total_lift; [|by apply total_ret].
    apply at_here. change 2 with (vec_size (str "//") + 0). by apply vec_get_app_r. }
  apply Ha. clear Ha.
  assert (∀ valid w0, total (lex_comment_text (here before (str "//" ++ more)) info (vec_size before)
    trailing valid) (λ a s' w, Q a s' (w0 ++ w)) s) as Htext.
  { intros valid w0. eapply lex_comment_text_total; [exact H|exact Hi|].
    intros position s' Hm. by apply HQ. }
  assert (∀ include rs w0, trailing = false →
    total (add_directive_comment_line (here before (str "//" ++ more)) (indent info)
      (vec_size before)) (λ a s' w, Q a s' (w0 ++ w)) (set_notes (comments s) include rs s)) as Hdir.
  { intros include rs w0 Ht. apply negb_false_iff, Z.eqb_eq in Ht.
    eapply add_directive_comment_line_total; [exact H|exact Hi|exact Ht|].
    intros position s' Hm. by apply HQ. }
  assert (∀ name, negb trailing && starts_with (str name ++ ["010"%char]) (str "//" ++ more) = true →
    trailing = false) as Hdirective.
  { intros name [Ht _]%andb_true_iff. by apply negb_true_iff. }
  cbn zeta. destruct (negb a); [apply (Htext true [])|].
  split_if E1.
  { apply Hdirective in E1. total_steps. by apply (Hdir _ _ []). }
  split_if E2.
  { apply Hdirective in E2. total_step. apply BeginDumpSemIRRange_total. intros rs w. by apply Hdir. }
  split_if E3.
  { apply Hdirective in E3. total_step. apply EndDumpSemIRRange_total. intros rs w. by apply Hdir. }
  total_steps. apply (Htext false).
Qed.
End comment.
End notes.
