(* ===== verification/LexDispatch.v ===== *)
(** The lexer's loop: string and character literals, with the lines a block
    string spans; the dispatch on a [#] or a slash; and every entry of the
    dispatch table, which keeps the invariant and moves forward on the bytes it
    is for, so that the loop ends. *)

From S2P Require Import Prelude TokenKinds Text APInts CanonicalStores IntStores IntLaws.
From S2P Require Import LexDiagnostics StringLiterals Utf8 StringShape StringValues.
From S2P Require Import Tokens Simd IdentifierScan TokenText LexState LexComments.
From S2P Require Import LexTokens LexRecovery Lexer LexPieces LexInvariant LexSteps.
From S2P Require Import LexWords LexLayout.
Import TokenizedBuffer.

(** * The extent of a literal *)

Section extent.
Import StringLiteral.

Lemma not_newline_Forall cs : Newline ∉ cs → no_newline cs.
Proof.
  intros H. apply Forall_forall. intros c Hc. destruct (IsVerticalWhitespace c) eqn:E; [|done].
  unfold IsVerticalWhitespace in E. by apply char_eqb_eq in E as ->.
Qed.

Lemma scanned_line escape terminator needs body rest :
  no_newline escape → scanned false escape terminator needs body rest → no_newline body.
Proof.
  intros He H. remember false as multi eqn:Em.
  induction H as [rest|c needs body rest _ _ Hc _ IH|e needs body rest Hn _ IH]; [constructor| |];
    (assert (∀ c : char, (c = Newline → multi = true) → IsVerticalWhitespace c = false) as Hv;
     [intros d Hd; destruct (IsVerticalWhitespace d) eqn:E; [|done]; unfold IsVerticalWhitespace in E;
      apply char_eqb_eq in E; rewrite Hd in Em by done; done|]).
  - constructor; auto.
  - apply Forall_app_2; [done|]. constructor; auto.
Qed.

Lemma hashes_line h : no_newline (hashes h).
Proof. apply not_newline_Forall. unfold hashes. by intros [? _]%elem_of_replicate. Qed.

Lemma introducer_line k : no_newline (introducer_quotes k).
Proof. apply not_newline_Forall, quotes_line. Qed.

Lemma terminator_line k h : no_newline (terminator_of k h).
Proof. apply Forall_app_2; [apply introducer_line|apply hashes_line]. Qed.

(** The text of a literal: one line, or the lines of a block string. *)
Record literal_text (src : StringRef.t) (l : t) (text after : list char) : Prop := {
  literal_ref : text_ l = StringRef.mk (StringRef.begin src) text;
  literal_split : StringRef.chars src = text ++ after;
  literal_nonempty : text ≠ [];
  literal_line : IsMultiLine (kind_ l) = false ∨ has_invalid_introducer_ l = true → no_newline text;
  literal_end : IsMultiLine (kind_ l) = true → has_invalid_introducer_ l = false → after ≠ [] →
    ∃ pre q tl, text = pre ++ q :: tl ∧ IsHorizontalWhitespace q = false ∧ no_newline (q :: tl);
}.

Lemma Lex_text src l :
  StringRef.size src < 2 ^ 31 → Lex src = Ok (Some l) → ∃ text after, literal_text src l text after.
Proof.
  intros Hs El. pose proof (Lex_lexed_string src Hs) as H. rewrite El in H.
  destruct H as [after Hinv Ht Hk Hb Hne Hsrc Hline|h opening rest [Hq Hopen] Hsrc Hshape].
  - exists (StringRef.chars (text_ l)), after. split; [destruct (text_ l); cbn in *; congruence|done| | |].
    + intros E. apply Hne. destruct (text_ l); cbn in *; congruence.
    + intros _. by apply not_newline_Forall.
    + intros _. congruence.
  - pose proof (lit_begin _ _ _ _ _ _ _ Hshape) as Hb.
    assert (hashes h ++ opening ≠ []) as Hne.
    { destruct (hashes h); [|done]. destruct opening; [|done]. by destruct (kind_ l). }
    destruct (is_terminated_ l) eqn:Et.
    + destruct (lit_terminated _ _ _ _ _ _ _ Hshape Et) as (needs & body & after & -> & Hscan & _ & Htext & _).
      exists (StringRef.chars (text_ l)), after. rewrite Htext.
      split; [rewrite <- Htext; destruct (text_ l); cbn in *; congruence|by rewrite Hsrc, <- !app_assoc| | |].
      * destruct (hashes h ++ opening); [done|]. by intros [=].
      * intros [Hm|Hi]; [|by rewrite (lit_valid _ _ _ _ _ _ _ Hshape) in Hi].
        rewrite Hm in Hopen, Hscan. rewrite Hopen.
        apply Forall_app_2; [apply Forall_app_2; [apply hashes_line|apply introducer_line]|].
        apply Forall_app_2; [|apply terminator_line].
        eapply scanned_line; [|exact Hscan]. apply not_newline_Forall, escape_of_line.
      * intros _ _ _. destruct (terminator_head (kind_ l) h) as (q & more & Eq & Hq').
        exists ((hashes h ++ opening) ++ body), q, more.
        split; [by rewrite Eq, !app_assoc|]. split; [by destruct Hq' as [-> | ->]|].
        rewrite <- Eq. apply terminator_line.
    + destruct (lit_unterminated _ _ _ _ _ _ _ Hshape Et) as (body & after & -> & Htext & _ & Hend).
      exists (StringRef.chars (text_ l)), after. rewrite Htext.
      split; [rewrite <- Htext; destruct (text_ l); cbn in *; congruence|by rewrite Hsrc, <- !app_assoc| | |].
      * destruct (hashes h ++ opening); [done|]. by intros [=].
      * intros [Hm|Hi]; [|by rewrite (lit_valid _ _ _ _ _ _ _ Hshape) in Hi].
        rewrite Hm in Hopen, Hend. rewrite Hopen.
        apply Forall_app_2; [apply Forall_app_2; [apply hashes_line|apply introducer_line]|].
        by apply not_newline_Forall.
      * intros Hm. rewrite Hm in Hend. done.
Qed.
End extent.

(** * The lines a block string spans *)

Section spanned.
Context {Ops : APInts} {Laws : APIntLaws Ops} {Build : LexBuild}.
Implicit Types (s : LexerState) (ps : list piece) (before after text : list char).

Lemma set_line_index_same s : set_line_index (line_index s) s = s.
Proof. by destruct s. Qed.

Lemma advance_lines_total fuel : ∀ before text after s
    (Q : unit → LexerState → list LexDiagnostic → Prop),
  text ≠ [] → start <$> line_infos (buffer s) = line_starts (before ++ text ++ after) →
  line_index s = line_of before →
  vec_size (line_infos (buffer s)) - line_of before ≤ Z.of_nat fuel →
  (∀ k, line_of before ≤ k ≤ line_of (before ++ text) →
    (start_of_line (before ++ text) < vec_size (before ++ text) → k = line_of (before ++ text)) →
    Q tt (set_line_index k s) []) →
  total (advance_lines fuel (vec_size (before ++ text))) Q s.
Proof.
  induction fuel as [|fuel IH]; intros before text after s Q Hne Hs Hk Hf HQ.
  { pose proof (line_starts_size before (text ++ after)) as Hsz. rewrite <- Hs in Hsz.
    unfold vec_size in Hsz, Hf. rewrite length_fmap in Hsz. lia. }
  cbn [advance_lines]. unfold next_line, GetLineInfo. total_steps. rewrite Hk.
  assert (∀ w, (start_of_line (before ++ text) < vec_size (before ++ text) →
    line_of before = line_of (before ++ text)) → w = [] → Q tt s w) as Hstop.
  { intros w Hl ->. rewrite <- (set_line_index_same s), Hk. apply HQ; [|done].
    rewrite line_of_app. pose proof (vec_size_nonneg (later_starts (vec_size before) text)). lia. }
  pose proof (find_if_spec IsVerticalWhitespace text) as Hfind.
  destruct (find_if IsVerticalWhitespace text) as [n|].
  - destruct Hfind as (c & text' & E & Hc & Hb & _). unfold IsVerticalWhitespace in Hc.
    apply char_eqb_eq in Hc as ->. set (body := take (Z.to_nat n) text) in *.
    assert (before ++ text = (before ++ body ++ ["010"%char]) ++ text') as Ebt
      by (rewrite E, <- !app_assoc; done).
    assert (line_of (before ++ body ++ ["010"%char]) = line_of before + 1) as Hnext
      by by apply line_of_newline.
    destruct (lines_get _ _ (line_of before + 1) (vec_size before + vec_size body + 1) Hs)
      as (info & Hi & Hst).
    { pose proof (line_of_nonneg before). lia. }
    { rewrite E, <- app_assoc. cbn [app]. by apply next_line_start. }
    eapply total_lift; [exact Hi|]. rewrite Hst.
    assert (vec_size (before ++ body ++ ["010"%char]) = vec_size before + vec_size body + 1) as Hlen.
    { rewrite !vec_size_app. change (vec_size ["010"%char]) with 1. lia. }
    destruct text' as [|d text'].
    + rewrite app_nil_r in Ebt. rewrite Ebt, Hlen, Z.ltb_irrefl. apply total_ret, Hstop; [|done].
      intros Hlt. rewrite Ebt, app_assoc, start_of_line_newline in Hlt.
      rewrite (vec_size_app (before ++ body)) in Hlt. change (vec_size ["010"%char]) with 1 in Hlt. lia.
    + rewrite (proj2 (Z.ltb_lt _ _)).
      2: { rewrite Ebt, vec_size_app, Hlen, vec_size_cons. pose proof (vec_size_nonneg text'). lia. }
      total_steps. rewrite Ebt. apply (IH _ _ after); [done| |cbn; congruence|cbn; lia|].
      { cbn. rewrite Hs, app_assoc, Ebt. by rewrite <- app_assoc. }
      intros k Hk1 Hk2. rewrite <- Ebt in *. apply HQ; [lia|done].
  - assert (text ++ after ≠ []) as Hne' by (by destruct text).
    destruct (first_line_exists (text ++ after) Hne') as (line & rest & Hl).
    destruct (first_line_next _ _ _ _ _ Hs Hl) as [(info & Hi & Hst) _].
    eapply total_lift; [exact Hi|]. rewrite Hst, (proj2 (Z.ltb_ge _ _)).
    { apply total_ret, Hstop; [|done]. intros _. by rewrite line_of_same. }
    rewrite !vec_size_app. enough (vec_size text ≤ vec_size line) by lia.
    remember (text ++ after) as t eqn:Et. destruct Hl as [body rest Hb|body Hb _].
    + symmetry in Et. apply app_eq_inv in Et as [(x & Ex & Ex')|(x & -> & _)].
      * rewrite Ex, !vec_size_app. destruct x as [|c x].
        { change (vec_size []) with 0. pose proof (vec_size_nonneg [Newline]). lia. }
        injection Ex' as <- _. rewrite Ex in Hfind. apply Forall_app in Hfind as [_ [Hx _]%Forall_cons].
        done.
      * rewrite !vec_size_app. pose proof (vec_size_nonneg x). pose proof (vec_size_nonneg [Newline]). lia.
    + rewrite Et, vec_size_app. pose proof (vec_size_nonneg after). lia.
Qed.

Lemma set_indents_total n : ∀ line ind s (Q : unit → LexerState → list LexDiagnostic → Prop),
  0 ≤ line → line + Z.of_nat n ≤ vec_size (line_infos (buffer s)) →
  (∀ lines, start <$> lines = start <$> line_infos (buffer s) →
    (∀ j info, vec_get (line_infos (buffer s)) j = Ok info → vec_get lines j = Ok
      (if bool_decide (line ≤ j < line + Z.of_nat n) then {| start := start info; indent := ind |}
       else info)) →
    Q tt (with_lines lines s) []) →
  total (set_indents n line ind) Q s.
Proof.
  induction n as [|n IH]; intros line ind s Q Hl Hn HQ; cbn [set_indents].
  { apply total_ret. assert (s = with_lines (line_infos (buffer s)) s) as Es by (by destruct s as [[]]).
    rewrite Es. apply HQ; [done|]. intros j info Hj. by rewrite bool_decide_false by lia. }
  destruct (vec_get_in_range (line_infos (buffer s)) line) as [info Hi]; [lia|].
  total_step. eapply set_indent_total; [exact Hi|]. apply IH; [lia|cbn; rewrite vec_set_size; lia|].
  intros lines Hs Hget. cbn [app]. apply HQ.
  - rewrite Hs. cbn. by apply starts_set_indent.
  - intros j info' Hj. destruct (decide (line = j)) as [<-|Hne].
    + rewrite Hi in Hj. injection Hj as <-. rewrite bool_decide_true by lia.
      rewrite (Hget line {| start := start info; indent := ind |}).
      * by rewrite bool_decide_false by lia.
      * apply vec_get_set; [by eapply vec_get_lt|by left].
    + rewrite (Hget j info').
      * f_equal. destruct (decide (line + 1 ≤ j < line + 1 + Z.of_nat n)).
        -- by rewrite !bool_decide_true by lia.
        -- by rewrite !bool_decide_false by lia.
      * apply vec_get_set; [by eapply vec_get_lt|by right].
Qed.

Lemma later_starts_bound p cs : Forall (λ x, p < x ≤ p + vec_size cs) (later_starts p cs).
Proof.
  revert p. induction cs as [|c cs IH]; intros p; cbn [later_starts]; [constructor|].
  rewrite vec_size_cons. pose proof (vec_size_nonneg cs).
  assert (Forall (λ x, p < x ≤ p + (vec_size cs + 1)) (later_starts (p + 1) cs)) as H1.
  { eapply Forall_impl; [apply IH|]. cbn. lia. }
  destruct (IsVerticalWhitespace c); [|done]. constructor; [lia|done].
Qed.

Lemma line_starts_bound cs : Forall (λ x, 0 ≤ x ≤ vec_size cs) (line_starts cs).
Proof.
  pose proof (vec_size_nonneg cs). unfold line_starts. constructor; [lia|]. apply Forall_app_2.
  - eapply Forall_impl; [apply later_starts_bound|]. cbn. lia.
  - destruct (_ =? _); repeat constructor; lia.
Qed.

(** The white space from a position of the source on. *)
Definition white_from (cs : list char) (st : Z) : list char :=
  take_while IsHorizontalWhitespace (drop (Z.to_nat st) cs).

Lemma indent_ok_white cs st :
  0 ≤ st ≤ vec_size cs → indent_ok cs {| start := st; indent := vec_size (white_from cs st) |}.
Proof.
  intros Hst. assert (cs = take (Z.to_nat st) cs ++ drop (Z.to_nat st) cs) as Ecs by (by rewrite take_drop).
  assert (vec_size (take (Z.to_nat st) cs) = st) as Hlen.
  { unfold vec_size in *. rewrite length_take. lia. }
  pose proof (indent_ok_skip (take (Z.to_nat st) cs) (drop (Z.to_nat st) cs) st) as H.
  rewrite <- Ecs, vec_size_app, Hlen in H. fold (white_from cs st) in H.
  replace (st + vec_size (white_from cs st) - st) with (vec_size (white_from cs st)) in H by lia.
  by apply H.
Qed.

(** It stops at a byte that is no space. *)
Lemma white_from_stop pre q rest st :
  0 ≤ st ≤ vec_size pre → IsHorizontalWhitespace q = false →
  st + vec_size (white_from (pre ++ q :: rest) st) ≤ vec_size pre.
Proof.
  intros Hst Hq. unfold white_from. rewrite drop_app_le by (unfold vec_size in Hst; lia).
  assert (vec_size pre = st + vec_size (drop (Z.to_nat st) pre)) as ->.
  { unfold vec_size in *. rewrite length_drop. lia. }
  enough (vec_size (take_while IsHorizontalWhitespace (drop (Z.to_nat st) pre ++ q :: rest)) ≤
    vec_size (drop (Z.to_nat st) pre)) by lia.
  induction (drop (Z.to_nat st) pre) as [|c cs IH]; cbn [app take_while]; [by rewrite Hq|].
  destruct (IsHorizontalWhitespace c); [rewrite !vec_size_cons; lia|apply vec_size_nonneg].
Qed.

(** A block string that ends on its last line. *)
Definition ends_on_line text : Prop :=
  ∃ pre q tl, text = pre ++ q :: tl ∧ IsHorizontalWhitespace q = false ∧ no_newline (q :: tl).

Lemma update_spanned_lines_total s leading before text after
    (Q : unit → LexerState → list LexDiagnostic → Prop) :
  LinesOk (line_infos (buffer s)) (line_index s) leading before (text ++ after) → text ≠ [] →
  (after ≠ [] → ends_on_line text) →
  (∀ lines k, LinesOk lines k false (before ++ text) after →
    Q tt (with_lines lines (set_line_index k s)) []) →
  total (update_spanned_lines (here before (text ++ after)) (vec_size before + vec_size text)) Q s.
Proof.
  intros HL Hne Hend HQ. pose proof HL as [L1 L2 (info0 & Hi0 & Hok0 & Hb0)].
  specialize (L2 ltac:(by destruct text)). specialize (Hb0 ltac:(by destruct text)).
  unfold update_spanned_lines, next_line. total_steps. rewrite L2, <- vec_size_app.
  pose proof (line_of_nonneg before).
  eapply advance_lines_total; [done|exact L1|exact L2|unfold vec_size; lia|].
  intros k Hk Hcur. unfold current_line_info, GetLineInfo. total_steps.
  cbn [line_index set_line_index set_members].
  assert (0 ≤ k < vec_size (line_infos (buffer s))) as Hrange.
  { pose proof (line_starts_size (before ++ text) after) as Hsz.
    rewrite <- app_assoc, <- L1 in Hsz. unfold vec_size in *. rewrite length_fmap in Hsz. lia. }
  destruct (vec_get_in_range _ _ Hrange) as [info Hi]. eapply total_lift; [exact Hi|].
  unfold SkipHorizontalWhitespace. cbn [here StringRef.chars].
  fold (white_from (before ++ text ++ after) (start info)). total_steps.
  cbn [line_index set_line_index set_members].
  replace (start info + vec_size (white_from (before ++ text ++ after) (start info)) - start info)
    with (vec_size (white_from (before ++ text ++ after) (start info))) by lia.
  apply set_indents_total; [lia|cbn; lia|]. intros lines Hs Hget.
  rewrite ?app_nil_l. apply HQ. cbn in Hs, Hget.
  assert (0 ≤ start info ≤ vec_size (before ++ text ++ after)) as Hst.
  { apply vec_get_Ok in Hi as [_ Hi]. pose proof (line_starts_bound (before ++ text ++ after)) as Hbound.
    rewrite <- L1 in Hbound. eapply Forall_lookup_1 in Hbound; [exact Hbound|].
    by rewrite list_lookup_fmap, Hi. }
  assert (after ≠ [] → k = line_of (before ++ text) ∧
    start info + vec_size (white_from (before ++ text ++ after) (start info)) <
      vec_size (before ++ text)) as Hclosed.
  { intros Ha. destruct (Hend Ha) as (pre & q & tl & -> & Hq & Hline).
    pose proof (start_of_line_same (before ++ pre) (q :: tl) Hline) as Es.
    pose proof (start_of_line_bounds (before ++ pre)) as Hsb. rewrite <- app_assoc in Es.
    assert (vec_size (before ++ pre ++ q :: tl) = vec_size (before ++ pre) + vec_size (q :: tl)) as Esz
      by (by rewrite app_assoc, vec_size_app).
    rewrite vec_size_cons in Esz. pose proof (vec_size_nonneg tl).
    assert (k = line_of (before ++ pre ++ q :: tl)) as Ek by (apply Hcur; lia). split; [done|].
    assert (start info = start_of_line (before ++ pre)) as Est.
    { apply vec_get_Ok in Hi as [_ Hi]. pose proof (current_line_start (before ++ pre ++ q :: tl) after) as Hc.
      rewrite <- app_assoc, <- L1, list_lookup_fmap, <- Ek, Hi in Hc. injection Hc as ->. done. }
    pose proof (white_from_stop (before ++ pre) q (tl ++ after) (start info) ltac:(lia) Hq) as Hw.
    rewrite <- app_assoc in Hw. rewrite <- app_assoc. cbn [app] in *. lia. }
  split.
  - by rewrite Hs, L1, app_assoc.
  - intros Ha. by apply Hclosed.
  - exists (if bool_decide (line_of before + 1 ≤ k) then
        {| start := start info;
           indent := vec_size (white_from (before ++ text ++ after) (start info)) |} else info).
    split; [rewrite (Hget k info Hi); f_equal|].
    { destruct (decide (line_of before + 1 ≤ k)); [rewrite !bool_decide_true by lia; done|].
      rewrite !bool_decide_false by lia. done. }
    rewrite <- app_assoc. case_bool_decide as Hn; cbn [start indent].
    + split; [by apply indent_ok_white|]. intros Ha. destruct (Hclosed Ha). lia.
    + assert (k = line_index s) as Ek by lia. rewrite Ek, Hi0 in Hi. injection Hi as <-.
      split; [done|]. intros _. rewrite vec_size_app. destruct text as [|c text]; [done|].
      rewrite vec_size_cons. pose proof (vec_size_nonneg text). destruct leading; lia.
Qed.
End spanned.

(** * [LexStringLiteral] *)

Section quotes.
Context {Ops : APInts} {Laws : APIntLaws Ops} {Build : LexBuild}.
Context {Utf : ConvertUTF} {UtfLaws : ConvertUTFLaws Utf}.
Implicit Types (s : LexerState) (ps : list piece) (before after text : list char).

(** States that differ in the lines and the value stores, with the lexer on the
    line after [text]. *)
Record Spanned s0 s before text after : Prop := {
  spanned_text : same_text (buffer s0) (buffer s);
  spanned_tokens : token_infos (buffer s) = token_infos (buffer s0);
  spanned_groups : open_groups s = open_groups s0;
  spanned_mismatched : has_mismatched_brackets s = has_mismatched_brackets s0;
  spanned_comments : comments s = comments s0;
  spanned_lines :
    LinesOk (line_infos (buffer s)) (line_index s) false (before ++ text) after;
}.

Lemma literal_token_total s0 s ps before text after k payload
    (Q : Z → LexerState → list LexDiagnostic → Prop) :
  Inv s0 ps before (text ++ after) → Settled (buffer s0) ps (before ++ text ++ after) →
  Spanned s0 s before text after → RoomOk s after → starts_token text →
  TokenKind.is_grouping_symbol k = false →
  TokenKind.IsOneOf k [TokenKind.FileStart; TokenKind.FileEnd] = false →
  spells (before ++ text ++ after) (identifiers (buffer s))
    (MakeTokenInfo k (leading_space s) payload (vec_size before)) text →
  (∀ t s', (∀ w, (w = [] → k ≠ TokenKind.Error) →
    Moved s0 before (text ++ after) (vec_size before + vec_size text) s' w) → Q t s' []) →
  total (LexTokenWithPayload k payload (vec_size before)) Q s.
Proof.
  intros H Hset [S1 S2 S3 S4 S5 S6] HR Hne Hk Hf Hsp HQ. apply LexTokenWithPayload_total.
  { rewrite S2. destruct text as [|c text]; [done|]. pose proof (token_room _ _ _ _ _ H). lia. }
  set (info := MakeTokenInfo k (leading_space s) payload (vec_size before)) in *.
  apply HQ. intros w Hw. eapply Moved_intro; [by apply starts_token_ne|done|by rewrite vec_size_app| |].
  2: { intros Ew. apply no_errors_with_token; [exact S2|by apply Hw]. }
  pose proof H as [H1 H2 H3 H4 H5 H6 H7].
  assert (token_infos (buffer (with_token info s)) = token_infos (buffer s0) ++ [info]) as Et
    by (cbn; by rewrite S2).
  split.
  - eapply (TextOk_token (buffer s0) (buffer (with_token info s)));
      [exact S1|exact Et|exact Hne|exact Hset| |exact H1].
    split; [done|]. split; [exact Hf|]. by left.
  - exact S6.
  - rewrite Et. cbn [open_groups has_mismatched_brackets with_token set_buffer set_leading_space
      set_members]. rewrite S3, S4. apply GroupsOk_other; [..|exact H3].
    + unfold opens. cbn. by destruct k.
    + unfold closes. cbn. by destruct k.
  - by destruct HR.
  - cbn. rewrite S5. by apply NotesOk_token.
  - rewrite Et, !vec_size_app. change (vec_size [info]) with 1.
    destruct text as [|c text]; [done|]. rewrite vec_size_cons. pose proof (vec_size_nonneg text). lia.
  - by rewrite <- app_assoc.
Qed.

Lemma RoomOk_strings s ss before text :
  RoomOk s (before ++ text) → before ≠ [] →
  vec_size ss ≤ vec_size (string_literal_values s) + 1 →
  RoomOk (set_values (ints s) (reals s) ss s) text.
Proof.
  intros [[H1 H2] H3 H4 H5] Hne Hss. rewrite vec_size_app in *.
  destruct before as [|c before]; [done|]. rewrite vec_size_cons in *.
  pose proof (vec_size_nonneg before). split; cbn; [split; [done|lia]|lia..].
Qed.

Lemma add_string_total v (Q : Z → LexerState → list LexDiagnostic → Prop) s :
  vec_size (string_literal_values s) < MaxSource →
  (∀ p ss, vec_size ss ≤ vec_size (string_literal_values s) + 1 →
    Q p (set_values (ints s) (reals s) ss s) []) →
  total (add_string v) Q s.
Proof.
  intros Hs HQ. unfold add_string. total_step.
  assert (∃ r, CanonicalAdd (λ x y, bool_decide (x = y)) (string_literal_values s) v = Ok r ∧
    vec_size r.2 ≤ vec_size (string_literal_values s) + 1) as (r & Er & Hr).
  { unfold CanonicalAdd, ValueStoreAdd. destruct (FindKey _ _ v); [eexists; split; [done|cbn; lia]|].
    unfold MaxSource in Hs. rewrite (proj2 (Z.ltb_lt _ _)) by lia. eexists. split; [done|].
    cbn. rewrite vec_size_app. change (vec_size [v]) with 1. lia. }
  eapply total_lift; [exact Er|]. total_steps. by apply HQ.
Qed.

(** An error token over a literal. *)
Lemma error_literal_total s0 s ps before text after
    (Q : Z → LexerState → list LexDiagnostic → Prop) :
  Inv s0 ps before (text ++ after) → Settled (buffer s0) ps (before ++ text ++ after) →
  Spanned s0 s before text after → RoomOk s after → starts_token text →
  (∀ t s', (∀ w, w ≠ [] →
    Moved s0 before (text ++ after) (vec_size before + vec_size text) s' w) → Q t s' []) →
  total (LexTokenWithPayload TokenKind.Error (vec_size text) (vec_size before)) Q s.
Proof.
  intros H Hset HS HR Hne HQ. pose proof (inv_size _ _ _ _ H) as Hs.
  eapply literal_token_total; [exact H|exact Hset|exact HS|exact HR|exact Hne|done|done| |].
  - apply spells_error with after; [done|by apply rest_at_here|].
    cbn. apply payload_small. rewrite !vec_size_app in Hs. pose proof (vec_size_nonneg text).
    pose proof (vec_size_nonneg before). pose proof (vec_size_nonneg after). lia.
  - intros t s' Hm. apply HQ. intros w Hw. by apply Hm.
Qed.

Lemma LexStringLiteral_total s ps before c rest
    (Q : bool * Z → LexerState → list LexDiagnostic → Prop) :
  Inv s ps before (c :: rest) → Settled (buffer s) ps (before ++ c :: rest) →
  IsSpace c = false →
  (∀ r s' w, Formed s before (c :: rest) r s' w → Q r s' w) →
  total (LexStringLiteral (here before (c :: rest)) (vec_size before)) Q s.
Proof.
  intros H Hset Hc HQ. pose proof (inv_size _ _ _ _ H) as Hs.
  assert (vec_size (c :: rest) < 2 ^ 31) as Hsz by by eapply vec_size_lt.
  unfold LexStringLiteral. rewrite substr_here by done. total_step.
  set (src := StringRef.mk (vec_size before) (c :: rest)).
  pose proof (Lex_lexed_string src Hsz) as Hlex.
  destruct (StringLiteral.Lex src) as [[l|]|f] eqn:El; [| |done].
  2: { eapply total_lift; [reflexivity|]. by eapply LexError_total. }
  clear Hlex. eapply total_lift; [reflexivity|]. cbv beta iota.
  destruct (Lex_text src l Hsz El) as (text & after & [Href E Hne Hline Hend]).
  cbn [StringRef.chars StringRef.begin src] in E, Href. apply orb_false_iff in Hc as [Hh _].
  pose proof (starts_token_app _ _ _ _ E Hne Hh) as Hst. rewrite E in H, Hset, HQ, Hs |- *.
  rewrite Href. unfold StringRef.size. cbn [StringRef.chars StringRef.begin].
  pose proof (inv_room _ _ _ _ H) as HR.
  assert (RoomOk s after) as HR' by by eapply RoomOk_shrink.
  assert (no_newline text → Spanned s s before text after) as Hsame.
  { intros Hnl. split; try done. eapply LinesOk_same; [exact Hnl|exact Hne|apply (inv_lines _ _ _ _ H)]. }
  assert (∀ s1 k leading payload, k = TokenKind.StringLiteral ∨ k = TokenKind.CharLiteral →
    spells (before ++ text ++ after) (identifiers (buffer s1))
      (MakeTokenInfo k leading payload (vec_size before)) text) as Hspell.
  { intros s1 k leading payload Hk.
    replace text with (StringRef.chars (StringLiteral.text_ l)) at 2 by by rewrite Href.
    apply spells_quoted; [done|]. by rewrite ref_at_here, <- E. }
  case_bool_decide as Hchar.
  { rewrite Hchar in *. specialize (Hsame (Hline (or_introl eq_refl))).
    destruct (StringLiteral.is_terminated_ l) eqn:Ht; cbn [negb].
    2: { total_step. unfold DiagnoseUnterminatedString. total_steps.
      eapply (error_literal_total s s); [done..|]. intros t s' Hm. form_steps.
      apply HQ. split; [done|]. by apply Hm. }
    total_step. eapply total_yields.
    { exact (ComputeCharLiteralValue_ok src l Hsz El Ht Hchar). }
    intros [v|] w Hv; cbv beta iota.
    - total_step. eapply (literal_token_total s s); [done..|by apply Hspell; right|].
      intros t s' Hm. form_steps. apply HQ. split; [done|]. by apply Hm.
    - total_step. eapply (error_literal_total s s); [done..|]. intros t s' Hm. form_steps.
      apply HQ. split; [done|]. apply Hm. by destruct w. }
  destruct (StringLiteral.has_invalid_introducer_ l) eqn:Hinv.
  { specialize (Hsame (Hline (or_intror eq_refl))). total_steps.
    eapply (error_literal_total s s); [done..|]. intros t s' Hm. form_steps.
    apply HQ. split; [done|]. by apply Hm. }
  (* the state after the lines have been updated *)
  assert (∀ s1, Spanned s s1 before text after → RoomOk s1 (text ++ after) →
    total (if negb (StringLiteral.is_terminated_ l) then
        DiagnoseUnterminatedString l false ;;
        (token ← LexTokenWithPayload TokenKind.Error (vec_size text) (vec_size before);
         formed token (vec_size before + vec_size text))
      else
        value ← StringLiteral.ComputeStringValue l;
        string_id ← add_string value;
        token ← LexTokenWithPayload TokenKind.StringLiteral string_id (vec_size before);
        formed token (vec_size before + vec_size text)) Q s1) as Hrest.
  { intros s1 HS HR1. assert (RoomOk s1 after) as HR2 by (by eapply RoomOk_shrink).
    destruct (StringLiteral.is_terminated_ l) eqn:Ht; cbn [negb].
    2: { total_step. unfold DiagnoseUnterminatedString. total_steps.
      eapply (error_literal_total s s1); [done..|]. intros t s' Hm. form_steps.
      apply HQ. split; [done|]. by apply Hm. }
    total_step. eapply total_yields.
    { exact (ComputeStringValue_ok src l Hsz El Ht Hchar). }
    intros v w _. total_steps. apply add_string_total; [destruct HR2; pose proof (vec_size_nonneg after); lia|].
    intros p ss Hss. cbv beta. total_steps. set (s2 := set_values _ _ ss s1).
    eapply (literal_token_total s s2); [exact H|exact Hset|by destruct HS| |done|done|done|
      apply Hspell; by left|].
    - by eapply RoomOk_strings.
    - intros t s' Hm. form_steps. apply HQ. split; [done|]. by apply Hm. }
  total_step. apply total_when; intros Hk; [|apply Hrest; [|done]].
  - assert (StringLiteral.IsMultiLine (StringLiteral.kind_ l) = true) as Hm.
    { destruct (StringLiteral.kind_ l); [done| |done..]. by rewrite bool_decide_true in Hk. }
    eapply update_spanned_lines_total; [apply (inv_lines _ _ _ _ H)|exact Hne|by apply Hend|].
    intros lines k HL. apply Hrest; [by split|by destruct HR].
  - apply Hsame, Hline. left. destruct (StringLiteral.kind_ l); try done.
Qed.

(** * [LexHash] and [LexCommentOrSlash] *)

Context {Simd : X86Simd} {SimdLaws : X86SimdLaws Simd}.

Lemma LexHash_total s ps before rest (Q : bool * Z → LexerState → list LexDiagnostic → Prop) :
  Inv s ps before ("#"%char :: rest) →
  (∀ r s' w, Formed s before ("#"%char :: rest) r s' w → Q r s' w) →
  total (LexHash (here before ("#"%char :: rest)) (vec_size before)) Q s.
Proof.
  intros H HQ. pose proof (inv_text _ _ _ _ H) as HT. unfold LexHash, GetTokenInfo. total_steps.
  destruct (text_start _ _ _ _ _ HT) as (start & infos & E & _).
  destruct (vec_get_in_range (token_infos (buffer s)) (size (buffer s) - 1)) as [prev Hprev].
  { unfold size. rewrite E, vec_size_cons. pose proof (vec_size_nonneg infos). lia. }
  eapply total_lift; [exact Hprev|]. total_step.
  destruct (is_raw_introducer_spec _ _ _ _ _ _ _ H E Hprev) as (raw & Er & Hraw).
  eapply total_lift; [exact Er|]. destruct raw; cbn [negb].
  - eapply lex_raw_identifier_total; [exact H|exact E|exact Hprev|exact Hraw|exact HQ].
  - eapply LexStringLiteral_total; [exact H|exact Hraw|done|exact HQ].
Qed.

Lemma LexCommentOrSlash_total s ps before rest (Q : Z → LexerState → list LexDiagnostic → Prop) :
  Inv s ps before ("/"%char :: rest) →
  (∀ position s' w, Moved s before ("/"%char :: rest) position s' w → Q position s' w) →
  total (LexCommentOrSlash (here before ("/"%char :: rest)) (vec_size before)) Q s.
Proof.
  intros H HQ. unfold LexCommentOrSlash. total_step.
  eapply total_lift; [by eapply at_first|]. total_step. apply total_check; [done|]. total_step.
  set (next := match rest with d :: _ => d | [] => "000"%char end).
  assert (∀ Q0 : char → LexerState → list LexDiagnostic → Prop, Q0 next s [] →
    total (if vec_size before + 1 <? StringRef.size (here before ("/"%char :: rest))
      then lift_result (λ _, StringRef.at_ (here before ("/"%char :: rest)) (vec_size before + 1))
      else mret "000"%char) Q0 s) as Hnext.
  { intros Q0 HQ0. rewrite here_size, vec_size_cons. subst next. destruct rest as [|d rest].
    - change (vec_size []) with 0. rewrite Z.ltb_irrefl. by apply total_ret.
    - rewrite (proj2 (Z.ltb_lt _ _)) by (rewrite vec_size_cons; pose proof (vec_size_nonneg rest); lia).
      eapply total_lift; [by apply at_here|done]. }
  apply Hnext. clear Hnext. destruct (char_eqb_spec next "/") as [Hn|Hn].
  - destruct rest as [|d rest]; [by vm_compute in Hn|]. subst next. subst d.
    change ("/"%char :: "/"%char :: rest) with (str "//" ++ rest) in *.
    eapply LexComment_total; [exact H|]. intros position s' w Hm. by apply HQ.
  - total_step. eapply LexSymbolToken_total; [exact H|vm_compute; reflexivity|done|].
    intros [b position] s' w [Hb Hm]. cbn [fst snd] in *. subst b.
    total_step. apply total_check; [done|]. total_steps. rewrite ?app_nil_r. by apply HQ.
Qed.
End quotes.

(** * The dispatch table *)

(** What the entry for a byte needs of the byte. *)
Definition dispatches (f : DispatchFunction) (c : char) : bool :=
  let one_char (P : TokenKind.t → bool) :=
    let k := one_char_kind c in
    bool_decide (spelling k = [c]) && plain_spelling k && P k && negb (char_eqb c "#") in
  match f with
  | DispatchLexError => negb (IsSpace c) && negb (char_eqb c "#")
  | DispatchLexSymbolToken => negb (IsVerticalWhitespace c) && negb (char_eqb c "#")
  | DispatchLexKeywordOrIdentifier => table_at IsIdStartByteTable c || (0x7F <? code c)
  | DispatchLexHash => char_eqb c "#"
  | DispatchLexNumericLiteral => IsDecimalDigit c
  | DispatchLexStringLiteral => negb (IsSpace c) && negb (char_eqb c "#")
  | DispatchLexOneCharSymbolToken => one_char (λ k, negb (TokenKind.is_grouping_symbol k))
  | DispatchLexOpeningSymbolToken => one_char TokenKind.is_opening_symbol
  | DispatchLexClosingSymbolToken => one_char TokenKind.is_closing_symbol
  | DispatchLexHorizontalWhitespace => IsHorizontalWhitespace c
  | DispatchLexVerticalWhitespace => char_eqb c Newline
  | DispatchLexCR => char_eqb c "013"
  | DispatchLexCommentOrSlash => char_eqb c "/"
  end.

(** A byte that a symbol starts with is a symbol by itself. *)
Lemma dispatch_symbol c :
  dispatch_of c = DispatchLexSymbolToken → has_symbol multi_char_symbols c = true.
Proof.
  intros E. enough (match dispatch_of c with
    | DispatchLexSymbolToken => has_symbol multi_char_symbols c | _ => true end = true) as H
    by by rewrite E in H.
  clear E. revert c.
  apply (forall_chars (λ c, match dispatch_of c with
    | DispatchLexSymbolToken => has_symbol multi_char_symbols c | _ => true end)).
  vm_compute. reflexivity.
Qed.

Lemma dispatch_of_spec c : dispatches (dispatch_of c) c = true.
Proof. revert c. apply forall_chars. vm_compute. reflexivity. Qed.

Section dispatch.
Context {Ops : APInts} {Laws : APIntLaws Ops} {Build : LexBuild}.
Context {Utf : ConvertUTF} {UtfLaws : ConvertUTFLaws Utf}.
Context {Simd : X86Simd} {SimdLaws : X86SimdLaws Simd}.
Implicit Types (s : LexerState) (ps : list piece) (before after text : list char).

Lemma must_form_total m s before after (Q : Z → LexerState → list LexDiagnostic → Prop) :
  (∀ Q' : bool * Z → LexerState → list LexDiagnostic → Prop,
    (∀ r s' w, Formed s before after r s' w → Q' r s' w) → total m Q' s) →
  (∀ position s' w, Moved s before after position s' w → Q position s' w) →
  total (must_form m) Q s.
Proof.
  intros Hm HQ. unfold must_form. total_step. apply Hm. intros [b position] s' w [Hb H].
  cbn [fst snd] in *. subst b. total_step. apply total_check; [done|]. total_steps.
  rewrite ?app_nil_r. by apply HQ.
Qed.

(** Every dispatch takes some of the source. *)
Lemma Dispatch_total s ps before c rest (Q : Z → LexerState → list LexDiagnostic → Prop) :
  Inv s ps before (c :: rest) →
  (∀ position s' w, Moved s before (c :: rest) position s' w → Q position s' w) →
  total (Dispatch (dispatch_of c) (here before (c :: rest)) (vec_size before)) Q s.
Proof.
  intros H HQ. pose proof (dispatch_of_spec c) as Hc.
  assert (c ≠ "#"%char → Settled (buffer s) ps (before ++ c :: rest)) as Hset
    by (intros; by eapply Inv_settled).
  assert (∀ P, bool_decide (spelling (one_char_kind c) = [c]) && plain_spelling (one_char_kind c) &&
    P (one_char_kind c) && negb (char_eqb c "#") = true →
    spelling (one_char_kind c) = [c] ∧ Plain (one_char_kind c) ∧ P (one_char_kind c) = true ∧
    c ≠ "#"%char) as Hone.
  { intros P. rewrite !andb_true_iff, bool_decide_eq_true, negb_true_iff.
    intros (((H1 & H2) & H3) & H4). repeat split; try done; [by apply plain_spec..|].
    intros ->. by rewrite char_eqb_refl in H4. }
  assert (∀ P, negb P && negb (char_eqb c "#") = true → P = false ∧ c ≠ "#"%char) as Hnot.
  { intros P. rewrite andb_true_iff, !negb_true_iff. intros [H1 H2]. split; [done|].
    intros ->. by rewrite char_eqb_refl in H2. }
  pose proof (dispatch_symbol c) as Hsymbol.
  unfold Dispatch. destruct (dispatch_of c); cbn [dispatches] in Hc.
  - apply Hnot in Hc as [Hv Hn]. eapply must_form_total; [|exact HQ]. intros Q' HQ'.
    eapply LexError_total; [exact H|by apply Hset|exact Hv|exact HQ'].
  - apply Hnot in Hc as [_ Hn]. specialize (Hsymbol eq_refl). eapply must_form_total; [|exact HQ]. intros Q' HQ'.
    eapply LexSymbolToken_total; [exact H|exact Hsymbol|exact Hn|exact HQ'].
  - apply orb_true_iff in Hc. rewrite Z.ltb_lt in Hc. eapply must_form_total; [|exact HQ].
    intros Q' HQ'. eapply LexKeywordOrIdentifier_total; [exact H|exact Hc|exact HQ'].
  - apply char_eqb_eq in Hc as ->. eapply must_form_total; [|exact HQ]. intros Q' HQ'.
    eapply LexHash_total; [exact H|exact HQ'].
  - eapply must_form_total; [|exact HQ]. intros Q' HQ'.
    eapply LexNumericLiteral_total; [exact H|exact Hc|exact HQ'].
  - apply Hnot in Hc as [Hv Hn]. eapply must_form_total; [|exact HQ]. intros Q' HQ'.
    eapply LexStringLiteral_total; [exact H|by apply Hset|exact Hv|exact HQ'].
  - apply (Hone (λ k, negb (TokenKind.is_grouping_symbol k))) in Hc as (Hk & Hp & Hg & Hn).
    apply negb_true_iff in Hg. total_step.
    eapply total_lift; [by eapply at_first|]. eapply must_form_total; [|exact HQ].
    intros Q' HQ'. eapply LexOneCharSymbolToken_total; [exact H|exact Hk|exact Hp|exact Hg|exact Hn|exact HQ'].
  - apply Hone in Hc as (Hk & Hp & Hg & Hn). total_step.
    eapply total_lift; [by eapply at_first|]. eapply must_form_total; [|exact HQ].
    intros Q' HQ'. eapply LexOpeningSymbolToken_total; [exact H|exact Hk|exact Hp|exact Hg|exact Hn|exact HQ'].
  - apply Hone in Hc as (Hk & Hp & Hg & Hn). total_step.
    eapply total_lift; [by eapply at_first|]. eapply must_form_total; [|exact HQ].
    intros Q' HQ'. eapply LexClosingSymbolToken_total; [exact H|exact Hk|exact Hp|exact Hg|exact Hn|exact HQ'].
  - eapply LexHorizontalWhitespace_total; [exact H|exact Hc|exact HQ].
  - apply char_eqb_eq in Hc as ->.
    apply (LexVerticalWhitespace_total s ps before [] rest); [exact H|constructor|constructor|exact HQ].
  - apply char_eqb_eq in Hc as ->. eapply LexCR_total; [exact H|exact HQ].
  - apply char_eqb_eq in Hc as ->. eapply LexCommentOrSlash_total; [exact H|exact HQ].
Qed.

(** * The ends of the file *)

(** What lexing a whole source leaves: the pieces of the source, the tokens they
    are the texts of between the two boundary tokens, and the groups. *)
Record Done s ps (cs : list char) : Prop := {
  done_source : source_text (buffer s) = to_string cs;
  done_recovery : post_lexing_recovery_tokens (buffer s) = 0 ∧ recovery_tokens (buffer s) = [];
  done_errors : has_errors (buffer s) = false;
  done_pieces : pieces_text ps = cs;
  done_ok : Forall piece_ok ps;
  done_closed : closed_but_last ps;
  done_notes : NotesOk (comments s) ps;
  done_tokens : ∃ first infos last, token_infos (buffer s) = first :: infos ++ [last] ∧
    is_start first ∧ Forall2 (settled cs (identifiers (buffer s))) infos (extents 0 ps) ∧
    kind last = TokenKind.FileEnd ∧ 0 ≤ byte_offset last ≤ vec_size cs ∧
    vec_size cs - 1 ≤ byte_offset last;
  done_lines : start <$> line_infos (buffer s) = line_starts cs;
  done_groups : GroupsOk (token_infos (buffer s)) (open_groups s) (has_mismatched_brackets s);
  done_count : vec_size (token_infos (buffer s)) ≤ 2 + vec_size cs;
}.

Lemma app_nil_not_raw : ∀ r, ([] : list char) ≠ str "#r" ++ r.
Proof. by intros r. Qed.

(** The end of the file, from the invariant once nothing is left. *)
Lemma LexFileEnd_total s ps before (Q : unit → LexerState → list LexDiagnostic → Prop) :
  Inv s ps before [] →
  (∀ s', Done s' ps before → (no_error_tokens s → no_error_tokens s') → Q tt s' []) →
  total (LexFileEnd (here before []) (vec_size before)) Q s.
Proof.
  intros H HQ. pose proof H as [H1 H2 H3 H4 H5 H6 H7]. rewrite app_nil_r in H7.
  destruct (lines_indent _ _ _ _ _ H2) as (info & Hi & Hok & _). destruct Hok as (Hst0 & _).
  unfold LexFileEnd. total_step. apply total_check.
  { apply Z.eqb_eq. rewrite here_size. change (vec_size []) with 0. lia. }
  unfold current_line_info, GetLineInfo. total_steps. eapply total_lift; [exact Hi|]. total_steps.
  assert (∀ s1 position w, Kept s s1 → line_infos (buffer s1) = line_infos (buffer s) →
    comments s1 = comments s → 0 ≤ position ≤ vec_size before → vec_size before - 1 ≤ position → w = [] →
    total (NoteWhitespace ;; (_ ← LexToken TokenKind.FileEnd position; mret tt))
      (λ a s' w', Q a s' (w ++ w')) s1) as Hend.
  { intros s1 position w K Hln Hc Hp Hp' ->. unfold NoteWhitespace. total_steps.
    apply LexToken_total; [done|cbn; rewrite (kept_tokens _ _ K); lia|]. total_steps.
    set (last := MakeTokenInfo TokenKind.FileEnd _ _ _). apply HQ.
    - set (s' := with_token last _).
      assert (token_infos (buffer s') = token_infos (buffer s) ++ [last]) as Et
        by (cbn; by rewrite (kept_tokens _ _ K)).
      split.
      + cbn. rewrite (kept_source _ _ K), (text_source _ _ _ _ _ H1). by rewrite app_nil_r.
      + cbn. destruct (kept_recovery _ _ K) as [-> ->]. apply (text_no_recovery _ _ _ _ _ H1).
      + cbn. rewrite (kept_errors _ _ K). apply (text_no_errors _ _ _ _ _ H1).
      + apply (text_pieces _ _ _ _ _ H1).
      + apply (text_ok _ _ _ _ _ H1).
      + apply (text_closed _ _ _ _ _ H1).
      + cbn. by rewrite Hc.
      + pose proof (TextOk_settled _ _ _ _ _ app_nil_not_raw H1) as Hset.
        destruct (text_start _ _ _ _ _ H1) as (first & infos & E & Hs & _).
        exists first, infos, last. rewrite Et, E. unfold Settled in Hset. rewrite E, app_nil_r in Hset.
        split; [done|]. split; [done|]. split; [|by split].
        cbn. by rewrite (kept_identifiers _ _ K).
      + cbn. rewrite Hln. by rewrite (lines_starts _ _ _ _ _ H2), app_nil_r.
      + rewrite Et. cbn [open_groups has_mismatched_brackets s' with_token set_buffer
          set_leading_space set_members].
        rewrite (kept_groups _ _ K), (kept_mismatched _ _ K). apply GroupsOk_other; [..|exact H3];
          unfold opens, closes; done.
      + rewrite Et, vec_size_app. change (vec_size [last]) with 1. lia.
    - intros Herr. unfold no_error_tokens in *. cbn. rewrite (kept_tokens _ _ K).
      apply Forall_app_2; [done|by repeat constructor]. }
  destruct ((vec_size before =? start info) && negb (line_index s =? 0)) eqn:Et.
  - do 3 (total_step; cbv beta). apply (Hend (set_line_index (line_index s - 1) s) _ []); [by split|done|done| |lia|done].
    apply andb_true_iff in Et as [Et%Z.eqb_eq Hn]. split; [|lia].
    destruct before as [|c before]; [|rewrite vec_size_cons; pose proof (vec_size_nonneg before); lia].
    exfalso. apply negb_true_iff, Z.eqb_neq in Hn. apply Hn.
    pose proof (lines_starts _ _ _ _ _ H2) as Hs. rewrite app_nil_r in Hs.
    apply vec_get_lt in Hi. apply (f_equal length) in Hs. rewrite length_fmap in Hs.
    change (length (line_starts [])) with 1%nat in Hs. unfold vec_size in Hi. lia.
  - total_step. cbv beta. apply (Hend s _ []); [by split|done|done| |lia|done]. pose proof (vec_size_nonneg before). lia.
Qed.

(** * The loop *)

Lemma Inv_dump rs s ps before after : Inv s ps before after → Inv (set_dump_ranges rs s) ps before after.
Proof. intros [H1 H2 H3 [R1 R2 R3 R4] H5 H6 H7]. split; [exact H1|exact H2|exact H3|by split|exact H5|exact H6|exact H7]. Qed.

Lemma DispatchNext_total cs fuel : ∀ before after ps s
    (Q : unit → LexerState → list LexDiagnostic → Prop),
  before ++ after = cs → (length after < fuel)%nat → Inv s ps before after →
  (∀ s' ps' w, Done s' ps' cs → (w = [] → no_error_tokens s → no_error_tokens s') → Q tt s' w) →
  total (DispatchNext fuel (StringRef.mk 0 cs) (vec_size before)) Q s.
Proof.
  induction fuel as [|fuel IH]; intros before after ps s Q <- Hf H HQ; [lia|].
  cbn [DispatchNext]. fold (here before after). rewrite here_size.
  destruct after as [|c rest].
  - change (vec_size []) with 0. rewrite Z.add_0_r, Z.ltb_irrefl. total_steps.
    assert (∀ s1 w, Inv s1 ps before [] → no_error_tokens s1 = no_error_tokens s →
      total (LexFileEnd (here before []) (vec_size before)) (λ a s' w', Q a s' (w ++ w')) s1) as Hend.
    { intros s1 w H1 Herr. eapply LexFileEnd_total; [exact H1|]. intros s' HD Hs'.
      apply HQ with (ps' := ps); [by rewrite app_nil_r|]. intros _. by rewrite <- Herr. }
    apply total_when; intros _.
    + apply EndDumpSemIRRangeIfIncomplete_total. intros rs w. apply Hend; [by apply Inv_dump|done].
    + by apply (Hend s []).
  - rewrite (proj2 (Z.ltb_lt _ _)).
    2: { rewrite vec_size_cons. pose proof (vec_size_nonneg rest). lia. }
    total_step. eapply total_lift; [by eapply at_first|]. total_step.
    eapply Dispatch_total; [exact H|].
    intros position s' w (taken & after' & ps' & Hne & E & -> & H' & Herr).
    unfold here. eapply IH; [by rewrite <- app_assoc, <- E| |exact H'|].
    { apply (f_equal length) in E. rewrite length_app in E. cbn [length] in *.
      destruct taken; [done|]. cbn [length] in E. lia. }
    intros s2 ps2 w2 HD Herr2. rewrite app_nil_l. apply HQ with (ps' := ps2); [exact HD|].
    intros Ew Hs. apply app_nil in Ew as [-> ->]. auto.
Qed.

(** * The start *)

(** The value stores a lexer is given: well formed, with room for a value per
    byte of the source. *)
Record StoresOk (cs : list char) (ids : list string) (iv : IntStore.t) (rs : list Real)
    (ss : list (list char)) : Prop := {
  stores_wf : wf iv;
  stores_ints : vec_size iv + vec_size cs < MaxSource;
  stores_reals : vec_size rs + vec_size cs < MaxSource;
  stores_strings : vec_size ss + vec_size cs < MaxSource;
  stores_identifiers : vec_size ids + vec_size cs < MaxSource;
}.

Lemma lex_source_total cs ids iv rs ss (Q : unit → LexerState → list LexDiagnostic → Prop) :
  vec_size cs < MaxSource → StoresOk cs ids iv rs ss →
  (∀ s' ps w, Done s' ps cs → (w = [] → no_error_tokens s') → Q tt s' w) →
  total (lex_source (StringRef.mk 0 cs)) Q (MakeLexer (StringRef.mk 0 cs) ids iv rs ss).
Proof.
  intros Hs [W1 W2 W3 W4 W5] HQ. unfold MaxSource in Hs. unfold lex_source. total_step.
  apply total_check; [apply Z.ltb_lt; unfold StringRef.size; cbn [StringRef.chars]; lia|].
  total_step. apply MakeLines_total; [lia|done|].
  set (s0 := set_line_index 0 (add_lines (line_starts cs) _)).
  unfold LexFileStart. total_step. total_step. apply total_check; [done|]. total_step.
  apply LexToken_total; [done|reflexivity|]. unfold NoteWhitespace, current_line_info,
    GetLineInfo. total_steps.
  set (first := MakeTokenInfo TokenKind.FileStart _ _ _). set (s1 := set_leading_space true _).
  assert (line_infos (buffer s1) = fresh_line <$> line_starts cs) as El by done.
  assert (vec_get (line_infos (buffer s1)) 0 = Ok (fresh_line 0)) as Hi by (by rewrite El).
  eapply total_lift; [exact Hi|]. total_step. apply total_check; [done|].
  change (StringRef.mk 0 cs) with (here [] cs).
  eapply (AdvanceToLine_total s1 [] cs 0); [|exact Hi|done|done|done|].
  { rewrite El. cbn [app]. clear. induction (line_starts cs) as [|x l IH]; [done|]. cbn. by rewrite IH. }
  intros lines ws HL. cbn [app] in HL |- *.
  assert (cs = ws ++ drop_while IsHorizontalWhitespace cs) as Ecs by (unfold ws; by rewrite take_drop_while).
  set (rest := drop_while _ cs) in *. change (here [] cs) with (StringRef.mk 0 cs).
  assert (horizontal ws) as Hws by apply take_while_all.
  eapply (DispatchNext_total cs _ ws rest (blanks ws)); [by symmetry| | |].
  - cbn [StringRef.chars]. rewrite Ecs, length_app. lia.
  - pose proof (vec_size_nonneg ws). assert (vec_size cs = vec_size ws + vec_size rest) as Hlen
      by (rewrite Ecs at 1; apply vec_size_app). split.
    + split.
      * cbn. by rewrite <- Ecs.
      * done.
      * done.
      * apply blanks_text.
      * apply Forall_fmap. eapply Forall_impl; [by apply horizontal_space|]. done.
      * split; [intros _; apply blanks_closed|by apply closed_all, blanks_closed].
      * exists first, []. split; [done|]. split; [done|]. rewrite blanks_extents. constructor.
      * done.
    + exact HL.
    + split; [constructor| |by exists []; split; [constructor|]]. intros _. split; [constructor|..].
      * intros i t Hi' Ho. cbn in Hi'. apply vec_get_Ok in Hi' as [_ Hi'].
        apply list_lookup_singleton_Some in Hi' as [_ <-]. done.
      * intros i t Hi' Ho. cbn in Hi'. apply vec_get_Ok in Hi' as [_ Hi'].
        apply list_lookup_singleton_Some in Hi' as [_ <-]. done.
      * intros i t i' t' Hi' Ho. cbn in Hi'. apply vec_get_Ok in Hi' as [_ Hi'].
        apply list_lookup_singleton_Some in Hi' as [_ <-]. done.
      * intros i t g Hi' Ho. cbn in Hi'. apply vec_get_Ok in Hi' as [_ Hi'].
        apply list_lookup_singleton_Some in Hi' as [_ <-]. done.
    + split; cbn; [split; [done|lia]|lia..].
    + apply (NotesOk_blanks [] []). by exists [].
    + cbn. change (vec_size [first]) with 1. lia.
    + rewrite <- Ecs. unfold MaxSource. lia.
  - intros s' ps w HD Herr. cbn [app]. apply HQ with (ps := ps); [exact HD|]. intros Ew. apply Herr; [done|].
    by repeat constructor.
Qed.
End dispatch.
