(* ===== verification/RecoveryMerge.v ===== *)
(** Merging recovery tokens ([Lexer::ErrorRecoveryBuffer::Apply]): the order of
    the insertions, the merged stream, and the two maps from the token indices
    before to those after. *)

From Stdlib Require Import Sorting.Sorted.
From S2P Require Import Prelude TokenKinds CanonicalStores Tokens TokenText BracketTokens.
From S2P Require Import LexRecovery.
Import TokenizedBuffer.

Implicit Types (i j : Insertion) (l pending : list Insertion) (ts : list TokenInfo).

(** * The order of insertions *)

Definition insertion_before i j : Prop := insertion_lt i j = true.

(** [insertion_lt] compares these keys lexicographically. *)
Definition side_key i : Z := if is_after i then 0 else 1.
Definition closing_key i : Z := if insertion_is_closing i then 0 else 1.
Definition order_key i : Z := if is_after i then insertion_order i else - insertion_order i.

Lemma insertion_before_spec i j :
  insertion_before i j ↔
    target i < target j ∨ target i = target j ∧
      (side_key i < side_key j ∨ side_key i = side_key j ∧
        (closing_key i < closing_key j ∨ closing_key i = closing_key j ∧
          order_key i < order_key j)).
Proof.
  unfold insertion_before, insertion_lt, side_key, closing_key, order_key.
  destruct (Z.eqb_spec (target i) (target j)); cbn [negb]; [|rewrite Z.ltb_lt; lia].
  destruct (is_after i), (is_after j), (insertion_is_closing i), (insertion_is_closing j);
    cbn [Bool.eqb negb]; rewrite ?Z.ltb_lt; (split; [try done; lia|try done; lia]).
Qed.

#[export] Instance insertion_before_transitive : Transitive insertion_before.
Proof. intros i j k. rewrite !insertion_before_spec. lia. Qed.

Lemma insertion_before_irreflexive i : ¬ insertion_before i i.
Proof. rewrite insertion_before_spec. lia. Qed.

Lemma insertion_before_total i j :
  insertion_order i ≠ insertion_order j → insertion_before i j ∨ insertion_before j i.
Proof.
  intros H. rewrite !insertion_before_spec. unfold side_key, order_key.
  destruct (is_after i), (is_after j); lia.
Qed.

Lemma insertion_before_target i j : insertion_before i j → target i ≤ target j.
Proof. rewrite insertion_before_spec. lia. Qed.

Lemma insert_sorted_permutation i l : insert_sorted i l ≡ₚ i :: l.
Proof.
  induction l as [|j l IH]; cbn [insert_sorted]; [done|].
  destruct (insertion_lt i j); [done|]. rewrite IH. apply Permutation_swap.
Qed.

Lemma sort_insertions_permutation l : sort_insertions l ≡ₚ l.
Proof.
  induction l as [|i l IH]; [done|]. cbn. by rewrite insert_sorted_permutation, IH.
Qed.

Lemma sort_insertions_size l : vec_size (sort_insertions l) = vec_size l.
Proof. unfold vec_size. by rewrite sort_insertions_permutation. Qed.

Lemma insert_sorted_sorted i l :
  insertion_order i ∉ insertion_order <$> l →
  StronglySorted insertion_before l → StronglySorted insertion_before (insert_sorted i l).
Proof.
  induction l as [|j l IH]; cbn [insert_sorted fmap list_fmap]; intros Hn Hs.
  { by repeat constructor. }
  apply not_elem_of_cons in Hn as [Hij Hn]. apply StronglySorted_inv in Hs as [Hs Hj].
  destruct (insertion_lt i j) eqn:E.
  - constructor; [by constructor|]. constructor; [done|].
    eapply Forall_impl; [exact Hj|]. intros k Hk. by transitivity j.
  - constructor; [by apply IH|]. rewrite insert_sorted_permutation. constructor; [|done].
    destruct (insertion_before_total i j Hij) as [H|H]; [|done].
    unfold insertion_before in H. by rewrite E in H.
Qed.

Lemma sort_insertions_sorted l :
  NoDup (insertion_order <$> l) → StronglySorted insertion_before (sort_insertions l).
Proof.
  induction l as [|i l IH]; [constructor|]. cbn [fmap list_fmap].
  intros [Hn Hd]%NoDup_cons. apply insert_sorted_sorted; [|by apply IH].
  by rewrite sort_insertions_permutation.
Qed.

(** * The run of insertions at one place *)

Lemma span_sorted idx pending :
  StronglySorted insertion_before pending → Forall (λ i, idx ≤ target i) pending →
  span (λ i, target i =? idx) pending =
    (filter (λ i, target i = idx) pending, filter (λ i, target i ≠ idx) pending) ∧
  pending = filter (λ i, target i = idx) pending ++ filter (λ i, target i ≠ idx) pending.
Proof.
  induction pending as [|i pending IH]; [done|].
  intros [Hs Hi]%StronglySorted_inv [Hge Hf]%Forall_cons. cbn [span].
  destruct (Z.eqb_spec (target i) idx) as [E|E].
  - destruct (IH Hs Hf) as [IH1 IH2]. rewrite IH1.
    rewrite filter_cons_True, filter_cons_False by (try done; tauto). cbn [fst snd].
    split; [done|]. cbn [app]. by f_equal.
  - assert (Forall (λ j, target j ≠ idx) pending) as Hne.
    { eapply Forall_impl; [exact Hi|]. intros j Hj%insertion_before_target. lia. }
    rewrite filter_cons_False, filter_cons_True by done.
    by rewrite (filter_none (λ j, target j = idx)), (filter_every _ pending).
Qed.

(** * The merged stream *)

(** The tokens that take the place of one old token: the insertions at it, the
    first of which takes its leading space, and the token. *)
Fixpoint led (leading : bool) l : list TokenInfo :=
  match l with
  | [] => []
  | i :: l => WithLeadingSpace leading (insertion_info i) :: led false l
  end.
Definition placed l (info : TokenInfo) : list TokenInfo :=
  match l with
  | [] => [info]
  | _ => led (has_leading_space info) l ++ [WithLeadingSpace false info]
  end.

(** The stream of the old tokens from index [idx] with [pending] merged in. *)
Fixpoint merged_tokens idx ts pending : list TokenInfo :=
  match ts with
  | [] => []
  | info :: ts =>
      placed (filter (λ i, target i = idx) pending) info ++ merged_tokens (idx + 1) ts pending
  end.

Lemma led_length b l : length (led b l) = length l.
Proof. revert b. induction l as [|i l IH]; intros b; cbn; [done|]. by rewrite IH. Qed.

Lemma placed_length l info : length (placed l info) = S (length l).
Proof.
  destruct l as [|i l]; [done|]. cbn [placed]. rewrite length_app, led_length. cbn. lia.
Qed.

(** Insertions elsewhere do not matter. *)
Lemma merged_tokens_skip idx ts pending here :
  Forall (λ i, target i < idx) here →
  merged_tokens idx ts (here ++ pending) = merged_tokens idx ts pending.
Proof.
  revert idx. induction ts as [|info ts IH]; intros idx H; [done|]. cbn [merged_tokens].
  rewrite filter_app, (filter_none _ here), IH; [done|..].
  - eapply Forall_impl; [exact H|]. cbn. lia.
  - eapply Forall_impl; [exact H|]. cbn. lia.
Qed.

(** * The loops of [Apply] *)

(** The members of a buffer the merge leaves alone. *)
Definition same_source (b b' : TokenizedBuffer.t) : Prop :=
  line_infos b' = line_infos b ∧ has_errors b' = has_errors b ∧
  post_lexing_recovery_tokens b' = post_lexing_recovery_tokens b ∧
  source_text b' = source_text b ∧ identifiers b' = identifiers b.

#[export] Instance same_source_preorder : PreOrder same_source.
Proof.
  split; [done|]. intros b1 b2 b3 (A1 & A2 & A3 & A4 & A5) (B1 & B2 & B3 & B4 & B5).
  repeat split; by etransitivity.
Qed.

(** A sequence of [v[key(a)] = value(a);]. *)
Definition set_all {A B} (key : A → Z) (value : A → B) (vs : list B) (xs : list A) : list B :=
  foldl (λ vs a, vec_set vs (key a) (value a)) vs xs.

Section set_all.
Context {A B : Type} (key : A → Z) (value : A → B).
Implicit Types (vs : list B) (xs : list A).

Lemma set_all_cons vs a xs :
  set_all key value vs (a :: xs) = set_all key value (vec_set vs (key a) (value a)) xs.
Proof. done. Qed.

Lemma set_all_app vs xs ys : set_all key value vs (xs ++ ys) = set_all key value (set_all key value vs xs) ys.
Proof. apply foldl_app. Qed.

Lemma set_all_size vs xs : vec_size (set_all key value vs xs) = vec_size vs.
Proof.
  revert vs. induction xs as [|a xs IH]; intros vs; [done|].
  rewrite set_all_cons, IH. apply vec_set_size.
Qed.

Lemma set_all_other vs xs k :
  0 ≤ k → Forall (λ a, 0 ≤ key a) xs → k ∉ key <$> xs →
  vec_get (set_all key value vs xs) k = vec_get vs k.
Proof.
  revert vs. induction xs as [|a xs IH]; intros vs Hk Hf Hn; [done|].
  apply Forall_cons in Hf as [Ha Hf]. cbn in Hn. apply not_elem_of_cons in Hn as [Hka Hn].
  rewrite set_all_cons, IH by done. unfold vec_get, vec_set.
  destruct (0 <=? k) eqn:E; [|done]. rewrite list_lookup_insert_ne by lia. done.
Qed.

Lemma set_all_get vs xs a :
  NoDup (key <$> xs) → Forall (λ a, 0 ≤ key a < vec_size vs) xs → a ∈ xs →
  vec_get (set_all key value vs xs) (key a) = Ok (value a).
Proof.
  revert vs. induction xs as [|x xs IH]; intros vs Hd Hf Ha; [by apply elem_of_nil in Ha|].
  apply NoDup_cons in Hd as [Hx Hd]. apply Forall_cons in Hf as [Hr Hf].
  rewrite set_all_cons.
  apply elem_of_cons in Ha as [->|Ha].
  - rewrite set_all_other; [|lia| |done].
    + apply vec_get_Ok. split; [lia|]. unfold vec_set, vec_size in *.
      by rewrite list_lookup_insert_eq by lia.
    + eapply Forall_impl; [exact Hf|]. cbn. lia.
  - apply IH; [done| |done]. by rewrite vec_set_size.
Qed.

Lemma set_all_const vs v xs a :
  (∀ a, value a = v) → Forall (λ a, 0 ≤ key a < vec_size vs) xs → a ∈ xs →
  vec_get (set_all key value vs xs) (key a) = Ok v.
Proof.
  intros Hv. revert vs a. induction xs as [|x xs IH]; intros vs a Hf Ha; [by apply elem_of_nil in Ha|].
  apply Forall_cons in Hf as [Hr Hf]. rewrite set_all_cons.
  assert (Forall (λ a, 0 ≤ key a < vec_size (vec_set vs (key x) (value x))) xs) as Hf'.
  { by rewrite vec_set_size. }
  destruct (decide (key a ∈ key <$> xs)) as [(a' & -> & Ha')%list_elem_of_fmap|Hn]; [by apply IH|].
  apply elem_of_cons in Ha as [->|Ha]; [|by destruct Hn; apply list_elem_of_fmap_2].
  rewrite set_all_other; [|lia|by eapply Forall_impl; [exact Hf|]; cbn; lia|done].
  apply vec_get_set; [done|]. left. by rewrite Hv.
Qed.
End set_all.

(** A run of the loops that adds [infos]: [ins] are the insertions made, with
    their new indices, and [old] the old indices moved, with theirs. *)
Record grown (m m' : Merge) (infos : list TokenInfo) (ins : list (Insertion * Z))
    (old : list (Z * Z)) : Prop := {
  grown_infos : token_infos (merged m') = token_infos (merged m) ++ infos;
  grown_source : same_source (merged m) (merged m');
  grown_inserted : inserted_at m' = set_all (insertion_order ∘ fst) snd (inserted_at m) ins;
  grown_moved : moved_to m' = set_all fst snd (moved_to m) old;
  grown_recovery : recovery_tokens (merged m') =
    set_all snd (λ _, true) (recovery_tokens (merged m)) ins;
}.

Lemma grown_refl m : grown m m [] [] [].
Proof. split; try done. by rewrite app_nil_r. Qed.

Lemma grown_trans m1 m2 m3 t1 t2 n1 n2 o1 o2 :
  grown m1 m2 t1 n1 o1 → grown m2 m3 t2 n2 o2 → grown m1 m3 (t1 ++ t2) (n1 ++ n2) (o1 ++ o2).
Proof.
  intros [A1 A2 A3 A4 A5] [B1 B2 B3 B4 B5]. split.
  - by rewrite B1, A1, app_assoc.
  - by transitivity (merged m2).
  - by rewrite B3, A3, set_all_app.
  - by rewrite B4, A4, set_all_app.
  - by rewrite B5, A5, set_all_app.
Qed.

(** Consecutive indices for a run of insertions. *)
Fixpoint slots (n : Z) l : list (Insertion * Z) :=
  match l with [] => [] | i :: l => (i, n) :: slots (n + 1) l end.

Definition merge_size (m : Merge) : Z := vec_size (token_infos (merged m)).

Lemma grown_size m m' infos ins old :
  grown m m' infos ins old → merge_size m' = merge_size m + vec_size infos.
Proof. intros H. unfold merge_size. by rewrite (grown_infos _ _ _ _ _ H), vec_size_app. Qed.

(** [ValueStore::Add] below its bound. *)
Lemma ValueStoreAdd_room {V} (values : list V) v :
  vec_size values < 2 ^ 31 - 1 → ValueStoreAdd values v = Ok (vec_size values, values ++ [v]).
Proof. intros H. unfold ValueStoreAdd. by rewrite (proj2 (Z.ltb_lt _ _) H). Qed.

Lemma add_run_grown l leading m :
  merge_size m + vec_size l < 2 ^ 31 - 1 →
  ∃ m', add_run l leading m = Ok m' ∧ grown m m' (led leading l) (slots (merge_size m) l) [].
Proof.
  revert leading m. induction l as [|i l IH]; intros leading m H.
  { exists m. split; [done|apply grown_refl]. }
  pose proof (vec_size_nonneg l). rewrite vec_size_cons in H. cbn [add_run].
  rewrite ValueStoreAdd_room by (unfold merge_size in H; lia). cbn [mbind Result_bind fst snd].
  match goal with |- context [add_run l false ?x] => set (m1 := x) end.
  assert (merge_size m1 = merge_size m + 1) as E.
  { unfold merge_size, m1. cbn. by rewrite vec_size_app. }
  destruct (IH false m1) as (m' & Em & HG); [rewrite E; lia|]. exists m'. split; [exact Em|].
  rewrite E in HG. cbn [led slots].
  apply (grown_trans m m1 m' [_] _ [_] _ [] []); [|exact HG]. by split.
Qed.

Lemma move_token_grown old_idx info m :
  merge_size m < 2 ^ 31 - 1 →
  ∃ m', move_token old_idx info m = Ok m' ∧ grown m m' [info] [] [(old_idx, merge_size m)].
Proof.
  intros H. unfold move_token. rewrite ValueStoreAdd_room by done. eexists. split; [reflexivity|].
  by split.
Qed.

(** The insertions and the old tokens, with their new indices. *)
Fixpoint inserted_slots (n idx : Z) ts pending : list (Insertion * Z) :=
  match ts with
  | [] => []
  | _ :: ts =>
      let here := filter (λ i, target i = idx) pending in
      slots n here ++ inserted_slots (n + vec_size here + 1) (idx + 1) ts pending
  end.
Fixpoint moved_slots (n idx : Z) ts pending : list (Z * Z) :=
  match ts with
  | [] => []
  | _ :: ts =>
      let here := filter (λ i, target i = idx) pending in
      (idx, n + vec_size here) :: moved_slots (n + vec_size here + 1) (idx + 1) ts pending
  end.

Lemma slots_skip_filter idx here pending :
  Forall (λ i, target i < idx) here →
  filter (λ i, target i = idx) (here ++ pending) = filter (λ i, target i = idx) pending.
Proof.
  intros H. rewrite filter_app, (filter_none _ here); [done|].
  eapply Forall_impl; [exact H|]. cbn. lia.
Qed.

Lemma inserted_slots_skip n idx ts pending here :
  Forall (λ i, target i < idx) here →
  inserted_slots n idx ts (here ++ pending) = inserted_slots n idx ts pending.
Proof.
  revert n idx. induction ts as [|info ts IH]; intros n idx H; [done|]. cbn [inserted_slots].
  rewrite slots_skip_filter, IH; [done| |done]. eapply Forall_impl; [exact H|]. cbn. lia.
Qed.

Lemma moved_slots_skip n idx ts pending here :
  Forall (λ i, target i < idx) here →
  moved_slots n idx ts (here ++ pending) = moved_slots n idx ts pending.
Proof.
  revert n idx. induction ts as [|info ts IH]; intros n idx H; [done|]. cbn [moved_slots].
  rewrite slots_skip_filter, IH; [done| |done]. eapply Forall_impl; [exact H|]. cbn. lia.
Qed.

Lemma sorted_app_r {A} (R : A → A → Prop) (xs ys : list A) :
  StronglySorted R (xs ++ ys) → StronglySorted R ys.
Proof. induction xs as [|x xs IH]; [done|]. intros [H _]%StronglySorted_inv. auto. Qed.

(** What the outer loop does at one old token. *)
Lemma place_grown here idx info m :
  merge_size m + vec_size here + 1 < 2 ^ 31 - 1 →
  ∃ m', match here with
      | [] => move_token idx info m
      | i :: l => m ← add_run (i :: l) (has_leading_space info) m;
                  move_token idx (WithLeadingSpace false info) m
      end = Ok m' ∧
    grown m m' (placed here info) (slots (merge_size m) here) [(idx, merge_size m + vec_size here)].
Proof.
  intros H. destruct here as [|i l].
  - change (vec_size []) with 0 in *. rewrite Z.add_0_r. apply move_token_grown. lia.
  - destruct (add_run_grown (i :: l) (has_leading_space info) m) as (m2 & E & G2); [lia|].
    rewrite E. cbn [mbind Result_bind]. pose proof (grown_size _ _ _ _ _ G2) as Sz.
    unfold vec_size in Sz. rewrite led_length in Sz. fold (vec_size (i :: l)) in Sz.
    destruct (move_token_grown idx (WithLeadingSpace false info) m2) as (m1 & E' & G1); [lia|].
    exists m1. split; [exact E'|]. rewrite Sz in G1.
    pose proof (grown_trans _ _ _ _ _ _ _ _ _ G2 G1) as G. by rewrite app_nil_r in G.
Qed.

Lemma merge_tokens_grown ts : ∀ idx pending m,
  StronglySorted insertion_before pending →
  Forall (λ i, idx ≤ target i < idx + vec_size ts) pending →
  merge_size m + vec_size ts + vec_size pending < 2 ^ 31 - 1 →
  ∃ m', merge_tokens ts idx pending m = Ok m' ∧
    grown m m' (merged_tokens idx ts pending) (inserted_slots (merge_size m) idx ts pending)
      (moved_slots (merge_size m) idx ts pending).
Proof.
  induction ts as [|info ts IH]; intros idx pending m Hs Hr Hm; cbn [merge_tokens].
  { exists m. split; [done|apply grown_refl]. }
  destruct (span_sorted idx pending Hs) as [E1 E2].
  { eapply Forall_impl; [exact Hr|]. cbn. lia. }
  rewrite E1. cbn [fst snd]. rewrite vec_size_cons in Hr, Hm.
  cbn [merged_tokens inserted_slots moved_slots].
  set (here := filter (λ i, target i = idx) pending) in *.
  set (later := filter (λ i, target i ≠ idx) pending) in *.
  assert (vec_size pending = vec_size here + vec_size later) as Ep.
  { rewrite E2. apply vec_size_app. }
  pose proof (vec_size_nonneg here). pose proof (vec_size_nonneg later).
  pose proof (vec_size_nonneg ts).
  destruct (place_grown here idx info m) as (m1 & Em1 & G1); [lia|].
  rewrite Em1. cbn [mbind Result_bind]. pose proof (grown_size _ _ _ _ _ G1) as Sz.
  unfold vec_size in Sz. rewrite placed_length in Sz.
  assert (merge_size m1 = merge_size m + vec_size here + 1) as Sz' by (unfold vec_size; lia).
  assert (StronglySorted insertion_before later) as Hsl.
  { rewrite E2 in Hs. clear -Hs. induction here as [|i here IH]; [done|].
    cbn in Hs. apply StronglySorted_inv in Hs as [Hs _]. auto. }
  assert (Forall (λ i, idx + 1 ≤ target i < idx + 1 + vec_size ts) later) as Hrl.
  { apply Forall_forall. intros i Hi. unfold later in Hi.
    apply list_elem_of_filter in Hi as [Hne Hi]. rewrite Forall_forall in Hr.
    specialize (Hr i Hi). lia. }
  destruct (IH (idx + 1) later m1 Hsl Hrl) as (m' & Em & G); [lia|].
  exists m'. split; [exact Em|]. rewrite Sz' in G.
  assert (Forall (λ i, target i < idx + 1) here) as Hh.
  { apply Forall_forall. intros i Hi. unfold here in Hi.
    apply list_elem_of_filter in Hi as [-> _]. lia. }
  rewrite <- (merged_tokens_skip (idx + 1) ts later here Hh) in G.
  rewrite <- (inserted_slots_skip _ (idx + 1) ts later here Hh) in G.
  rewrite <- (moved_slots_skip _ (idx + 1) ts later here Hh) in G.
  rewrite <- E2 in G. by apply (grown_trans _ _ _ _ _ _ _ [_] _ G1 G).
Qed.

(** * Where tokens go *)

(** The insertions of [pending] from the target [lo] to the target [hi]. *)
Definition between (lo hi : Z) pending : list Insertion :=
  filter (λ i, lo ≤ target i ≤ hi) pending.

Lemma between_one idx pending : between idx idx pending = filter (λ i, target i = idx) pending.
Proof. apply list_filter_iff. intros i. lia. Qed.

Lemma between_split lo hi pending :
  lo ≤ hi → vec_size (between lo hi pending) =
    vec_size (filter (λ i, target i = lo) pending) + vec_size (between (lo + 1) hi pending).
Proof.
  intros H. unfold between. induction pending as [|i pending IH]; [done|].
  rewrite !filter_cons. repeat case_decide; rewrite ?vec_size_cons; lia.
Qed.

Lemma moved_slots_spec ts pending : ∀ n idx (x p : Z),
  (x, p) ∈ moved_slots n idx ts pending ↔
  idx ≤ x < idx + vec_size ts ∧ p = n + (x - idx) + vec_size (between idx x pending).
Proof.
  induction ts as [|info ts IH]; intros n idx x p; cbn [moved_slots].
  { rewrite elem_of_nil. change (vec_size []) with 0. lia. }
  rewrite elem_of_cons, IH, vec_size_cons. pose proof (vec_size_nonneg ts).
  destruct (decide (x = idx)) as [->|Hne].
  - rewrite between_one. split; [intros [[= ->]|?]; lia|]. intros [_ ->]. left. f_equal. lia.
  - split.
    + intros [[= -> ->]|[Hr ->]]; [done|]. rewrite (between_split idx x) by lia. lia.
    + intros [Hr ->]. right. rewrite (between_split idx x) by lia. lia.
Qed.

Lemma moved_slots_keys ts pending : ∀ n idx,
  fst <$> moved_slots n idx ts pending = seqZ idx (vec_size ts).
Proof.
  induction ts as [|info ts IH]; intros n idx; [done|]. cbn [moved_slots fmap list_fmap fst].
  rewrite vec_size_cons, seqZ_cons by (pose proof (vec_size_nonneg ts); lia).
  f_equal. fold (fmap (M := list) (@fst Z Z)). rewrite IH. f_equal; lia.
Qed.

(** The index of the [k]-th of the insertions, from the target [idx] on. *)
Definition insertion_slot (n idx : Z) (k : nat) i : Insertion * Z :=
  (i, n + Z.of_nat k + (target i - idx)).

Lemma slots_imap l : ∀ n idx,
  Forall (λ i, target i = idx) l → slots n l = imap (insertion_slot n idx) l.
Proof.
  induction l as [|i l IH]; intros n idx H; [done|]. apply Forall_cons in H as [Hi H].
  cbn [slots imap]. f_equal; [unfold insertion_slot; f_equal; lia|].
  rewrite (IH (n + 1) idx H). apply imap_ext. intros k j _. unfold insertion_slot. cbn. f_equal. lia.
Qed.

Lemma inserted_slots_imap ts : ∀ n idx pending,
  StronglySorted insertion_before pending →
  Forall (λ i, idx ≤ target i < idx + vec_size ts) pending →
  inserted_slots n idx ts pending = imap (insertion_slot n idx) pending.
Proof.
  induction ts as [|info ts IH]; intros n idx pending Hs Hr.
  { destruct pending as [|i pending]; [done|]. apply Forall_cons in Hr as [Hr _].
    change (vec_size []) with 0 in Hr. lia. }
  destruct (span_sorted idx pending Hs) as [_ E2].
  { eapply Forall_impl; [exact Hr|]. cbn. lia. }
  cbn [inserted_slots]. set (here := filter (λ i, target i = idx) pending) in *.
  set (later := filter (λ i, target i ≠ idx) pending) in *.
  assert (Forall (λ i, target i = idx) here) as Hh.
  { apply Forall_forall. intros i [Hi _]%list_elem_of_filter. done. }
  assert (Forall (λ i, idx + 1 ≤ target i < idx + 1 + vec_size ts) later) as Hrl.
  { apply Forall_forall. intros i Hi. unfold later in Hi.
    apply list_elem_of_filter in Hi as [Hne Hi]. rewrite Forall_forall in Hr.
    specialize (Hr i Hi). rewrite vec_size_cons in Hr. lia. }
  rewrite E2 at 1. rewrite inserted_slots_skip by (eapply Forall_impl; [exact Hh|]; cbn; lia).
  rewrite IH; [|by eapply sorted_app_r; rewrite <- E2|done].
  rewrite (slots_imap here n idx Hh). rewrite E2 at 1. rewrite imap_app. f_equal.
  apply imap_ext. intros k j _. unfold insertion_slot, vec_size. cbn. f_equal. lia.
Qed.

Lemma slots_bound l : ∀ n, Forall (λ s, n ≤ s.2 < n + vec_size l) (slots n l).
Proof.
  induction l as [|i l IH]; intros n; [constructor|]. pose proof (vec_size_nonneg l).
  cbn [slots]. rewrite vec_size_cons. constructor; [cbn; lia|].
  eapply Forall_impl; [apply IH|]. cbn. lia.
Qed.

Lemma inserted_slots_bound ts pending : ∀ n idx,
  Forall (λ s, n ≤ s.2) (inserted_slots n idx ts pending).
Proof.
  induction ts as [|info ts IH]; intros n idx; [constructor|]. cbn [inserted_slots].
  set (here := filter _ pending). pose proof (vec_size_nonneg here). apply Forall_app_2.
  - eapply Forall_impl; [apply slots_bound|]. cbn. lia.
  - eapply Forall_impl; [apply IH|]. cbn. lia.
Qed.

Lemma moved_slots_bound ts pending : ∀ n idx,
  Forall (λ s, n ≤ s.2) (moved_slots n idx ts pending).
Proof.
  induction ts as [|info ts IH]; intros n idx; [constructor|]. cbn [moved_slots].
  set (here := filter _ pending). pose proof (vec_size_nonneg here).
  constructor; [cbn; lia|]. eapply Forall_impl; [apply IH|]. cbn. lia.
Qed.

(** No index is both that of an insertion and of an old token. *)
Lemma slots_disjoint ts pending : ∀ n idx i (x p : Z),
  (i, p) ∈ inserted_slots n idx ts pending → (x, p) ∈ moved_slots n idx ts pending → False.
Proof.
  induction ts as [|info ts IH]; intros n idx i x p; cbn [inserted_slots moved_slots].
  { by intros H%elem_of_nil. }
  set (here := filter _ pending). rewrite elem_of_app, elem_of_cons.
  pose proof (slots_bound here n) as B1.
  pose proof (inserted_slots_bound ts pending (n + vec_size here + 1) (idx + 1)) as B2.
  pose proof (moved_slots_bound ts pending (n + vec_size here + 1) (idx + 1)) as B3.
  rewrite Forall_forall in B1, B2. rewrite Forall_forall in B3.
  intros [Hi|Hi] [[= -> ->]|Hx].
  - apply B1 in Hi. cbn in Hi. lia.
  - apply B1 in Hi. apply B3 in Hx. cbn in Hi, Hx. lia.
  - apply B2 in Hi. cbn in Hi. lia.
  - by eapply IH.
Qed.

(** ** The tokens at these indices *)

(** But for the leading space. *)
Definition same_token (info info' : TokenInfo) : Prop :=
  WithLeadingSpace false info' = WithLeadingSpace false info.

Lemma same_token_kind info info' : same_token info info' → kind info' = kind info.
Proof. by intros [= H _ _]. Qed.

Lemma led_slots l : ∀ n leading i p, (i, p) ∈ slots n l →
  ∃ info', vec_get (led leading l) (p - n) = Ok info' ∧ same_token (insertion_info i) info'.
Proof.
  induction l as [|j l IH]; intros n leading i p; cbn [slots led]; [by intros H%elem_of_nil|].
  intros [[= -> ->]|Hi]%elem_of_cons.
  - eexists. rewrite Z.sub_diag. split; [reflexivity|done].
  - destruct (IH (n + 1) false i p Hi) as (info' & Hg & Hs). exists info'. split; [|done].
    replace (p - n) with (vec_size [WithLeadingSpace leading (insertion_info j)] + (p - (n + 1)))
      by (rewrite vec_size_one; lia).
    by apply (vec_get_app_r [_]).
Qed.

Lemma placed_insertion l n info i p : (i, p) ∈ slots n l →
  ∃ info', vec_get (placed l info) (p - n) = Ok info' ∧ same_token (insertion_info i) info'.
Proof.
  destruct l as [|j l]; [by intros H%elem_of_nil|]. intros H.
  destruct (led_slots _ _ (has_leading_space info) _ _ H) as (info' & Hg & Hs).
  exists info'. split; [by apply vec_get_app_l|done].
Qed.

Lemma placed_old l info :
  ∃ info', vec_get (placed l info) (vec_size l) = Ok info' ∧ same_token info info'.
Proof.
  destruct l as [|j l]; [by exists info|]. exists (WithLeadingSpace false info). split; [|done].
  cbn [placed]. replace (vec_size (j :: l)) with (vec_size (led (has_leading_space info) (j :: l)))
    by (unfold vec_size; by rewrite led_length).
  apply vec_get_app_last.
Qed.

Lemma merged_inserted ts pending : ∀ n idx i p,
  (i, p) ∈ inserted_slots n idx ts pending →
  ∃ info', vec_get (merged_tokens idx ts pending) (p - n) = Ok info' ∧
    same_token (insertion_info i) info'.
Proof.
  induction ts as [|info ts IH]; intros n idx i p; cbn [inserted_slots merged_tokens].
  { by intros H%elem_of_nil. }
  set (here := filter _ pending). intros [Hi|Hi]%elem_of_app.
  - destruct (placed_insertion _ _ info _ _ Hi) as (info' & Hg & Hs). exists info'.
    split; [by apply vec_get_app_l|done].
  - destruct (IH _ _ _ _ Hi) as (info' & Hg & Hs). exists info'. split; [|done].
    replace (p - n) with (vec_size (placed here info) + (p - (n + vec_size here + 1)))
      by (unfold vec_size; rewrite placed_length; lia).
    by apply vec_get_app_r.
Qed.

Lemma merged_moved ts pending : ∀ n idx (x p : Z) info,
  (x, p) ∈ moved_slots n idx ts pending → vec_get ts (x - idx) = Ok info →
  ∃ info', vec_get (merged_tokens idx ts pending) (p - n) = Ok info' ∧ same_token info info'.
Proof.
  induction ts as [|old ts IH]; intros n idx x p info; cbn [moved_slots merged_tokens].
  { by intros H%elem_of_nil. }
  set (here := filter _ pending). intros [[= -> ->]|Hx]%elem_of_cons Hg.
  - rewrite Z.sub_diag in Hg. injection Hg as ->.
    destruct (placed_old here info) as (info' & Hg' & Hs). exists info'. split; [|done].
    replace (n + vec_size here - n) with (vec_size here) by lia. by apply vec_get_app_l.
  - destruct (proj1 (moved_slots_spec _ _ _ _ _ _) Hx) as [Hr _].
    destruct (IH _ _ x p info Hx) as (info' & Hg' & Hs).
    { apply vec_get_Ok in Hg as [_ Hg]. apply vec_get_Ok. split; [lia|].
      replace (Z.to_nat (x - idx)) with (S (Z.to_nat (x - (idx + 1)))) in Hg by lia. done. }
    exists info'. split; [|done].
    replace (p - n) with (vec_size (placed here old) + (p - (n + vec_size here + 1)))
      by (unfold vec_size; rewrite placed_length; lia).
    by apply vec_get_app_r.
Qed.

Lemma between_all lo hi l :
  Forall (λ i, lo ≤ target i ≤ hi) l → between lo hi l = l.
Proof. apply filter_every. Qed.

(** The merged stream has room for every insertion at its tokens. *)
Lemma merged_tokens_count ts pending : ∀ idx,
  vec_size (merged_tokens idx ts pending) =
    vec_size ts + vec_size (between idx (idx + vec_size ts - 1) pending).
Proof.
  induction ts as [|info ts IH]; intros idx; cbn [merged_tokens].
  { unfold between. rewrite filter_none; [done|]. apply Forall_forall. intros i _.
    change (vec_size (@nil TokenInfo)) with 0. lia. }
  pose proof (vec_size_nonneg ts). rewrite vec_size_app, IH, vec_size_cons.
  rewrite (between_split idx) by lia. unfold vec_size at 1. rewrite placed_length.
  unfold between, vec_size. rewrite Nat2Z.inj_succ.
  replace (idx + 1 + Z.of_nat (length ts) - 1) with (idx + (Z.of_nat (length ts) + 1) - 1) by lia.
  lia.
Qed.

Lemma merged_tokens_size ts pending :
  Forall (λ i, 0 ≤ target i < vec_size ts) pending →
  vec_size (merged_tokens 0 ts pending) = vec_size ts + vec_size pending.
Proof.
  intros H. rewrite merged_tokens_count, between_all; [done|].
  eapply Forall_impl; [exact H|]. cbn. lia.
Qed.

(** * [Apply] *)

(** What [AddInsertion] and its callers see to: the insertions are numbered in
    the order of the requests, each goes before some token, the stream has room,
    and no token has been inserted before. *)
Record requests_ok (b : TokenizedBuffer.t) (fixes : ErrorRecoveryBuffer) : Prop := {
  requests_numbered :
    insertion_order <$> insertions fixes = seqZ 0 (vec_size (insertions fixes));
  requests_target : Forall (λ i, 0 ≤ target i < size b) (insertions fixes);
  requests_room : size b + vec_size (insertions fixes) < 2 ^ 31 - 1;
  requests_fresh : recovery_tokens b = [];
}.

Lemma requests_sorted b fixes :
  requests_ok b fixes → StronglySorted insertion_before (sort_insertions (insertions fixes)).
Proof.
  intros H. apply sort_insertions_sorted. rewrite (requests_numbered _ _ H). apply NoDup_seqZ.
Qed.

(** [Apply] in terms of the merged stream. *)
Lemma Apply_merged fixes b :
  requests_ok b fixes →
  let sorted := sort_insertions (insertions fixes) in
  let ins := imap (insertion_slot 0 0) sorted in
  let old := moved_slots 0 0 (token_infos b) sorted in
  ∃ b', Apply fixes b =
      Ok ({| insertions := sorted; any_error_tokens := any_error_tokens fixes;
             inserted_token_index :=
               set_all (insertion_order ∘ fst) snd (replicate (length sorted) NoneToken) ins;
             new_token_index :=
               set_all fst snd (replicate (length (token_infos b)) NoneToken) old |}, b') ∧
    token_infos b' = merged_tokens 0 (token_infos b) sorted ∧ same_source b b' ∧
    recovery_tokens b' = set_all snd (λ _, true)
      (replicate (length (token_infos b) + length sorted) false) ins.
Proof.
  intros H sorted ins old. unfold Apply. fold sorted.
  assert (Forall (λ i, 0 ≤ target i < 0 + size b) sorted) as Hr.
  { unfold sorted. rewrite sort_insertions_permutation. apply (requests_target _ _ H). }
  assert (vec_size sorted = vec_size (insertions fixes)) as Es.
  { apply sort_insertions_size. }
  match goal with |- context [merge_tokens _ _ _ ?x] => set (m0 := x) end.
  destruct (merge_tokens_grown (token_infos b) 0 sorted m0) as (m & Em & [G1 G2 G3 G4 G5]);
    [by eapply requests_sorted|done|..].
  { change (merge_size m0) with 0. pose proof (requests_room _ _ H) as Hm. unfold size in Hm. lia. }
  rewrite Em. cbn [mbind Result_bind mret Result_ret]. change (merge_size m0) with 0 in *.
  assert (inserted_slots 0 0 (token_infos b) sorted = ins) as Ei.
  { apply inserted_slots_imap; [by eapply requests_sorted|done]. }
  rewrite Ei in G3, G5. fold old in G4. cbn in G1, G3, G4, G5.
  exists (merged m). split; [by rewrite G3, G4|]. split; [exact G1|]. split; [exact G2|].
  rewrite G5, (requests_fresh _ _ H). unfold resize. cbn [app].
  by rewrite take_ge by (rewrite length_replicate; lia).
Qed.

Lemma IsRecoveryToken_get b' x r :
  vec_get (recovery_tokens b') x = Ok r → IsRecoveryToken b' x = Ok r.
Proof.
  unfold IsRecoveryToken. intros H. destruct (recovery_tokens b'); [|done].
  apply vec_get_lt in H. unfold vec_size in H. cbn in H. lia.
Qed.

Lemma Apply_insertions fixes b fixes' b' :
  Apply fixes b = Ok (fixes', b') → vec_size (insertions fixes') = vec_size (insertions fixes).
Proof. intros (m & _ & [= <- _])%result_bind_Ok. apply sort_insertions_size. Qed.

Section apply.
Context (fixes : ErrorRecoveryBuffer) (b : TokenizedBuffer.t).
Hypothesis Hok : requests_ok b fixes.
#[local] Abbreviation sorted := (sort_insertions (insertions fixes)).
#[local] Abbreviation inserted := (imap (insertion_slot 0 0) sorted).
#[local] Abbreviation moved := (moved_slots 0 0 (token_infos b) sorted).

Lemma inserted_as_slots : inserted = inserted_slots 0 0 (token_infos b) sorted.
Proof using Hok.
  symmetry. apply inserted_slots_imap; [by eapply requests_sorted|].
  rewrite sort_insertions_permutation. apply (requests_target _ _ Hok).
Qed.

Lemma inserted_orders : (insertion_order ∘ fst) <$> inserted ≡ₚ seqZ 0 (vec_size sorted).
Proof using Hok.
  assert ((insertion_order ∘ fst) <$> inserted = insertion_order <$> sorted) as ->.
  { apply list_eq. intros k. rewrite !list_lookup_fmap, list_lookup_imap.
    by destruct (sorted !! k). }
  rewrite sort_insertions_size. by rewrite sort_insertions_permutation, (requests_numbered _ _ Hok).
Qed.

Lemma sorted_target k i : sorted !! k = Some i → 0 ≤ target i < size b.
Proof using Hok.
  intros H. pose proof (requests_target _ _ Hok) as Hr. rewrite Forall_forall in Hr. apply Hr.
  rewrite <- sort_insertions_permutation. by eapply list_elem_of_lookup_2.
Qed.

Lemma inserted_elem k i :
  sorted !! k = Some i → (i, target i + Z.of_nat k) ∈ inserted.
Proof using Hok.
  intros H. apply (list_elem_of_lookup_2 _ k). rewrite list_lookup_imap, H. cbn.
  unfold insertion_slot. do 2 f_equal. lia.
Qed.

Lemma inserted_get k i :
  sorted !! k = Some i →
  vec_get (set_all (insertion_order ∘ fst) snd (replicate (length sorted) NoneToken) inserted)
    (insertion_order i) = Ok (target i + Z.of_nat k).
Proof using Hok.
  intros H. apply inserted_elem in H.
  apply (set_all_get (insertion_order ∘ fst) snd (replicate (length sorted) NoneToken)) in H;
    [exact H|..].
  - rewrite inserted_orders. apply NoDup_seqZ.
  - assert (Forall (λ o, 0 ≤ o < vec_size sorted) ((insertion_order ∘ fst) <$> inserted)) as Hf.
    { rewrite inserted_orders. apply Forall_forall. intros o Ho%elem_of_seqZ. lia. }
    rewrite Forall_fmap in Hf. eapply Forall_impl; [exact Hf|]. intros [j p] Hj. cbn in *.
    unfold vec_size in *. by rewrite length_replicate.
Qed.

Lemma moved_get (x p : Z) :
  (x, p) ∈ moved →
  vec_get (set_all fst snd (replicate (length (token_infos b)) NoneToken) moved) x = Ok p.
Proof using Hok.
  intros H. apply (set_all_get fst snd _ _ (x, p)); [| |exact H].
  - rewrite moved_slots_keys. apply NoDup_seqZ.
  - apply Forall_forall. intros [y q] [Hy _]%moved_slots_spec. cbn in *.
    unfold vec_size in *. rewrite length_replicate. lia.
Qed.

Lemma inserted_bound : Forall (λ s, 0 ≤ s.2 < size b + vec_size sorted) inserted.
Proof using Hok.
  apply Forall_lookup. intros k [j p] H. rewrite list_lookup_imap in H.
  destruct (sorted !! k) as [i|] eqn:E; [|done]. cbn in H. injection H as <- <-.
  pose proof (sorted_target _ _ E). apply lookup_lt_Some in E. unfold vec_size. cbn. lia.
Qed.

(** The new indices, through the members [Apply] leaves. *)
Context (b' : TokenizedBuffer.t).
Hypothesis Hrecovery : recovery_tokens b' = set_all snd (λ _, true)
  (replicate (length (token_infos b) + length sorted) false) inserted.

Lemma recovery_bound : Forall (λ s : Insertion * Z,
  0 ≤ s.2 < vec_size (replicate (length (token_infos b) + length sorted) false)) inserted.
Proof using Hok.
  eapply Forall_impl; [apply inserted_bound|]. cbn. intros s. unfold size, vec_size.
  rewrite length_replicate. lia.
Qed.

Lemma inserted_recovery i p : (i, p) ∈ inserted → IsRecoveryToken b' p = Ok true.
Proof using Hok Hrecovery.
  intros H. apply IsRecoveryToken_get. rewrite Hrecovery.
  apply (set_all_const snd (λ _, true) _ true _ (i, p)); [done|apply recovery_bound|done].
Qed.

Lemma moved_not_recovery x p : (x, p) ∈ moved → IsRecoveryToken b' p = Ok false.
Proof using Hok Hrecovery.
  intros H. apply IsRecoveryToken_get. rewrite Hrecovery.
  pose proof (moved_slots_bound (token_infos b) sorted 0 0) as Hb. rewrite Forall_forall in Hb.
  pose proof (Hb _ H) as Hp. cbn in Hp. rewrite set_all_other; [|done|..].
  - apply moved_slots_spec in H as [Hx ->]. apply vec_get_Ok. split; [done|].
    apply lookup_replicate. split; [done|].
    assert (length (between 0 x sorted) ≤ length sorted)%nat by apply length_filter.
    unfold vec_size in *. lia.
  - eapply Forall_impl; [apply inserted_bound|]. cbn. lia.
  - intros ([i q] & E & Hi)%list_elem_of_fmap. cbn in E. subst q.
    rewrite inserted_as_slots in Hi. by eapply slots_disjoint.
Qed.
End apply.

Lemma moved_new_index fixes b (x p : Z) inserted :
  requests_ok b fixes →
  (x, p) ∈ moved_slots 0 0 (token_infos b) (sort_insertions (insertions fixes)) →
  GetNewTokenIndex
    {| insertions := sort_insertions (insertions fixes);
       any_error_tokens := any_error_tokens fixes; inserted_token_index := inserted;
       new_token_index := set_all fst snd (replicate (length (token_infos b)) NoneToken)
         (moved_slots 0 0 (token_infos b) (sort_insertions (insertions fixes))) |} x = Ok p.
Proof.
  intros Hok H. pose proof (moved_get fixes b Hok x p H) as Hg. unfold GetNewTokenIndex. cbn.
  destruct (sort_insertions (insertions fixes)) as [|i l] eqn:E.
  - apply moved_slots_spec in H as [_ ->]. change (vec_size (between 0 x [])) with 0.
    unfold mret, Result_ret. f_equal. lia.
  - rewrite bool_decide_false; [by rewrite Hg|]. intros Hn. rewrite Hn in Hg.
    apply vec_get_lt in Hg. change (vec_size []) with 0 in Hg. lia.
Qed.

(** C12. Merging keeps every token and puts every insertion where it was asked
    for. The insertions are taken in the order of [operator<]; the merged stream
    is, for each old token in order, the insertions before it and the token, the
    leading space of the token going to the first of them. An old token moves
    past the insertions at its index or before; the [k]-th insertion is at its
    target plus [k]. [GetNewTokenIndex] and [GetInsertedTokenIndex] give these
    indices, and exactly the insertions are recovery tokens. *)
Theorem apply_merges_insertions fixes b :
  requests_ok b fixes →
  ∃ fixes' b', Apply fixes b = Ok (fixes', b') ∧
    insertions fixes' ≡ₚ insertions fixes ∧
    StronglySorted insertion_before (insertions fixes') ∧
    token_infos b' = merged_tokens 0 (token_infos b) (insertions fixes') ∧
    same_source b b' ∧
    (∀ x info, vec_get (token_infos b) x = Ok info →
      let y := x + vec_size (between 0 x (insertions fixes)) in
      GetNewTokenIndex fixes' x = Ok y ∧ IsRecoveryToken b' y = Ok false ∧
      ∃ info', vec_get (token_infos b') y = Ok info' ∧ same_token info info') ∧
    (∀ k i, insertions fixes' !! k = Some i →
      let y := target i + Z.of_nat k in
      GetInsertedTokenIndex fixes' (insertion_order i) = Ok y ∧ IsRecoveryToken b' y = Ok true ∧
      ∃ info', vec_get (token_infos b') y = Ok info' ∧ same_token (insertion_info i) info').
Proof.
  intros Hok. destruct (Apply_merged fixes b Hok) as (b' & E & Ei & Hsrc & Er).
  eexists _, b'. split; [exact E|]. cbn [insertions].
  split; [apply sort_insertions_permutation|]. split; [by eapply requests_sorted|].
  split; [exact Ei|]. split; [exact Hsrc|]. split.
  - intros x info Hx. set (y := x + vec_size (between 0 x (insertions fixes))). pose proof (vec_get_lt _ _ _ Hx) as Hr.
    assert ((x, y) ∈ moved_slots 0 0 (token_infos b) (sort_insertions (insertions fixes))) as Hm.
    { apply moved_slots_spec. split; [lia|]. unfold y, between, vec_size.
      rewrite sort_insertions_permutation. lia. }
    split; [by apply moved_new_index|]. split; [by apply (moved_not_recovery fixes b Hok b' Er x)|].
    rewrite Ei. replace y with (y - 0) by lia. apply (merged_moved _ _ _ _ x); [done|].
    by rewrite Z.sub_0_r.
  - intros k i Hk. set (y := target i + Z.of_nat k). pose proof (inserted_elem fixes b Hok k i Hk) as Hin.
    split; [by apply (inserted_get fixes b Hok k)|].
    split; [by apply (inserted_recovery fixes b Hok b' Er i)|].
    rewrite Ei. replace y with (y - 0) by lia. apply (merged_inserted _ _ _ _ i).
    by rewrite <- inserted_as_slots.
Qed.

(** [(x] and the end of the file, with a parenthesis asked for after the
    identifier, and a pair before it. *)
Definition sample_recovery : TokenizedBuffer.t :=
  {| token_infos := [MakeTokenInfo TokenKind.FileStart false 0 0;
                     MakeTokenInfo TokenKind.OpenParen true 0 0;
                     MakeTokenInfo TokenKind.Identifier true 0 2;
                     MakeTokenInfo TokenKind.FileEnd true 0 3];
     line_infos := [{| start := 0; indent := 0 |}]; has_errors := true;
     expected_max_parse_tree_size := 4; post_lexing_recovery_tokens := 0;
     recovery_tokens := []; source_text := "( x"; identifiers := ["x"%string] |}.

Definition sample_insertion (anchor order : Z) (is_after : bool) (k : TokenKind.t) : Insertion :=
  {| anchor := anchor; is_after := is_after; insertion_order := order;
     insertion_info := MakeTokenInfo k true 0 3 |}.

Definition sample_fixes : ErrorRecoveryBuffer :=
  {| insertions := [sample_insertion 2 0 true TokenKind.CloseParen;
                    sample_insertion 2 1 false TokenKind.OpenParen;
                    sample_insertion 1 2 true TokenKind.CloseParen];
     any_error_tokens := false; inserted_token_index := []; new_token_index := [] |}.

Lemma apply_merges_insertions_witness :
  ∃ fixes' b', Apply sample_fixes sample_recovery = Ok (fixes', b') ∧
    (kind <$> token_infos b') =
      [TokenKind.FileStart; TokenKind.OpenParen; TokenKind.CloseParen; TokenKind.OpenParen;
       TokenKind.Identifier; TokenKind.CloseParen; TokenKind.FileEnd] ∧
    GetNewTokenIndex fixes' 2 = Ok 4 ∧ IsRecoveryToken b' 4 = Ok false.
Proof.
  destruct (apply_merges_insertions sample_fixes sample_recovery) as
    (fixes' & b' & E & _ & _ & Ei & _ & Hold & _).
  - split; [reflexivity| |reflexivity|reflexivity]. repeat (constructor; [vm_compute; split; congruence|]).
    constructor.
  - destruct (Hold 2 _ eq_refl) as (H1 & H2 & _). exists fixes', b'. split; [exact E|].
    split; [|by split]. vm_compute in E. injection E as _ <-. reflexivity.
Defined.
