(* ===== verification/RecoveryLinks.v ===== *)
(** Cross references after recovery
    ([Lexer::ErrorRecoveryBuffer::FixTokenCrossReferences]): on a stream whose
    brackets balance, every bracket is linked to its partner and nothing else
    changes. *)

From S2P Require Import Prelude TokenKinds Tokens TokenText LexState LexRecovery.
From S2P Require Import LexInvariant Lexed RecoveryMerge.
Import TokenizedBuffer.

Implicit Types (ts : list TokenInfo) (groups : list Z) (k : TokenKind.t).

(** * Balanced streams *)

Inductive balanced : list TokenKind.t → Prop :=
  | balanced_nil : balanced []
  | balanced_other k ks :
      TokenKind.is_opening_symbol k = false → TokenKind.is_closing_symbol k = false →
      balanced ks → balanced (k :: ks)
  | balanced_group k inner ks :
      TokenKind.is_opening_symbol k = true → balanced inner → balanced ks →
      balanced (k :: inner ++ TokenKind.closing_symbol k :: ks).

(** [balances] decides the same with a stack of the open symbols. *)
Lemma closing_of_opening k :
  TokenKind.is_opening_symbol k = true →
  TokenKind.is_opening_symbol (TokenKind.closing_symbol k) = false ∧
  TokenKind.is_closing_symbol (TokenKind.closing_symbol k) = true ∧
  TokenKind.opening_symbol (TokenKind.closing_symbol k) = k.
Proof. by destruct k. Qed.

Lemma balanced_balances ks : balanced ks → ∀ st rest, balances st (ks ++ rest) = balances st rest.
Proof.
  induction 1 as [|k ks Ho Hc _ IH|k inner ks Ho _ IH1 _ IH2]; intros st rest; [done|..].
  - cbn [app balances]. by rewrite Ho, Hc, IH.
  - cbn [app balances]. rewrite Ho, <- app_assoc, IH1. cbn [app balances].
    destruct (closing_of_opening k Ho) as (-> & -> & _).
    by rewrite TokenKind.token_eqb_refl, IH2.
Qed.

(** * One link *)

(** Tokens that differ at most in the payload of a bracket. *)
Definition relinked_token (t t' : TokenInfo) : Prop :=
  kind t' = kind t ∧ has_leading_space t' = has_leading_space t ∧
  byte_offset t' = byte_offset t ∧ (¬ opens t → ¬ closes t → t' = t).

#[export] Instance relinked_token_preorder : PreOrder relinked_token.
Proof.
  split; [done|]. intros t1 t2 t3 (A1 & A2 & A3 & A4) (B1 & B2 & B3 & B4).
  unfold relinked_token, opens, closes in *. rewrite B1, B2, B3, A1, A2, A3.
  split_and!; [done..|]. intros Ho Hc. rewrite B4; [by apply A4|by rewrite A1..].
Qed.

Definition relinked (b b' : TokenizedBuffer.t) : Prop :=
  Forall2 relinked_token (token_infos b) (token_infos b') ∧ same_source b b' ∧
  recovery_tokens b' = recovery_tokens b ∧
  expected_max_parse_tree_size b' = expected_max_parse_tree_size b.

#[export] Instance relinked_preorder : PreOrder relinked.
Proof.
  split.
  - intros b. split_and!; [|done..]. apply Forall2_same_length_lookup_2; [done|].
    intros i t t' E E'. rewrite E in E'. by injection E' as <-.
  - intros b1 b2 b3 (A1 & A2 & A3 & A4) (B1 & B2 & B3 & B4). split_and!.
    + eapply (transitivity (R := Forall2 relinked_token)); done.
    + by transitivity b2.
    + by rewrite B3.
    + by rewrite B4.
Qed.

Lemma relinked_set b i t t' :
  vec_get (token_infos b) i = Ok t → relinked_token t t' →
  relinked b (with_token_infos (vec_set (token_infos b) i t') b).
Proof.
  intros [_ Hi]%vec_get_Ok Ht. split_and!; [|done..]. cbn. unfold vec_set.
  rewrite <- (list_insert_id _ _ _ Hi) at 1. apply Forall2_insert; [|done].
  by apply (reflexivity (R := Forall2 relinked_token)).
Qed.

Lemma set_payload_relinked n t : opens t ∨ closes t → relinked_token t (set_payload n t).
Proof. intros H. split_and!; [done..|]. tauto. Qed.

(** * The loop *)

(** The closing symbol that an opening symbol is linked to is linked back. *)
Definition linked_back ts groups : Prop :=
  ∀ i t, vec_get ts i = Ok t → opens t → i ∉ groups →
    ∃ u, vec_get ts (token_payload t) = Ok u ∧ closes u ∧ token_payload u = i.

Lemma linked_back_snoc ts groups groups' info :
  ¬ opens info ∧ groups' = groups ∨ opens info ∧ groups' = groups ++ [vec_size ts] →
  linked_back ts groups → linked_back (ts ++ [info]) groups'.
Proof.
  intros Hc H i t Hi Ho Hn. apply vec_get_snoc_inv in Hi as [Hi|[-> ->]].
  - destruct (H i t Hi Ho) as (u & Hu & Hp).
    + destruct Hc as [[_ ->]|[_ ->]]; [done|]. intros Hin. apply Hn, elem_of_app. by left.
    + exists u. split; [by apply vec_get_app_l|done].
  - destruct Hc as [[Hc _]|[_ ->]]; [done|]. destruct Hn. apply elem_of_app. right.
    by apply list_elem_of_singleton.
Qed.

(** The closing symbol at the end of [ts] and its opening symbol at [g]. *)
Lemma linked_back_close ts groups g t t' info :
  vec_get ts g = Ok t → opens t → closes info → token_payload t' = vec_size ts →
  token_payload info = g → linked_back ts (groups ++ [g]) → linked_back (vec_set (ts ++ [info]) g t') groups.
Proof.
  intros Hg Hot Hc Hp Hpi H i x Hi Ho Hn. pose proof (vec_get_lt _ _ _ Hg) as Hr.
  assert (0 ≤ g < vec_size (ts ++ [info])) as Hr'.
  { rewrite vec_size_app, vec_size_one. lia. }
  apply (vec_get_set _ _ _ _ _ Hr') in Hi as [[<- <-]|[Hne Hi]].
  - exists info. split; [|by split]. apply (vec_get_set _ _ _ _ _ Hr'). right. rewrite Hp.
    split; [lia|]. apply vec_get_app_last.
  - apply vec_get_snoc_inv in Hi as [Hi|[_ ->]]; [|by destruct (opens_not_closes info)].
    destruct (H i x Hi Ho) as (u & Hu & Hpu).
    { rewrite elem_of_app, list_elem_of_singleton. naive_solver. }
    exists u. split; [|done]. apply (vec_get_set _ _ _ _ _ Hr'). right.
    split; [|by apply vec_get_app_l]. intros E. rewrite <- E, Hg in Hu. injection Hu as <-.
    destruct Hpu. by destruct (opens_not_closes t).
Qed.

(** The open groups are those of the tokens so far, whose kinds are [st]. *)
Record links ts groups (st : list TokenKind.t) : Prop := {
  links_groups : GroupsOk ts groups false;
  links_back : linked_back ts groups;
  links_kinds : Forall2 (λ g k, ∃ t, vec_get ts g = Ok t ∧ kind t = k) (reverse groups) st;
}.

Lemma links_mono ts info groups st :
  Forall2 (λ g k, ∃ t, vec_get ts g = Ok t ∧ kind t = k) (reverse groups) st →
  Forall2 (λ g k, ∃ t, vec_get (ts ++ [info]) g = Ok t ∧ kind t = k) (reverse groups) st.
Proof.
  intros H. eapply Forall2_impl; [exact H|]. cbn. intros g k (t & Hg & Ht). exists t.
  split; [by apply vec_get_app_l|done].
Qed.

Lemma links_other ts groups st info :
  ¬ opens info → ¬ closes info → links ts groups st → links (ts ++ [info]) groups st.
Proof.
  intros Ho Hc [H1 H2 H3]. split; [by apply GroupsOk_other| |by apply links_mono].
  apply (linked_back_snoc _ groups); [by left|done].
Qed.

Lemma links_open ts groups st info :
  opens info → links ts groups st →
  links (ts ++ [info]) (groups ++ [vec_size ts]) (kind info :: st).
Proof.
  intros Ho [H1 H2 H3]. split; [by apply GroupsOk_open_symbol| |].
  - apply (linked_back_snoc _ groups); [by right|done].
  - rewrite reverse_snoc. constructor; [|by apply links_mono]. exists info.
    split; [apply vec_get_app_last|done].
Qed.

Lemma links_close ts groups g st k t t' info :
  vec_get ts g = Ok t → closes info → kind t = TokenKind.opening_symbol (kind info) →
  kind t' = kind t → token_payload t' = vec_size ts → token_payload info = g →
  links ts (groups ++ [g]) (k :: st) → links (vec_set (ts ++ [info]) g t') groups st.
Proof.
  intros Hg Hc Hk Hk' Hp Hpi [H1 H2 H3].
  assert (opens t) as Ho by (unfold opens, closes in *; rewrite Hk; by destruct (kind info)).
  split; [by eapply GroupsOk_close_symbol|by eapply linked_back_close|].
  rewrite reverse_snoc in H3. apply Forall2_cons in H3 as [_ H3].
  eapply Forall2_impl; [by apply (links_mono ts info)|]. cbn. intros h k' (x & Hx & Hkx).
  assert (0 ≤ g < vec_size (ts ++ [info])) as Hr.
  { apply vec_get_lt in Hg. rewrite vec_size_app, vec_size_one. lia. }
  destruct (decide (g = h)) as [->|Hne].
  - exists t'. split; [apply (vec_get_set _ _ _ _ _ Hr); by left|].
    rewrite Hk'. apply (vec_get_app_l _ [info]) in Hg. rewrite Hx in Hg. by injection Hg as ->.
  - exists x. split; [apply (vec_get_set _ _ _ _ _ Hr); by right|done].
Qed.

(** A prefix one token longer. *)
Lemma take_vec_succ {A} (l : list A) n x :
  vec_get l n = Ok x → take (S (Z.to_nat n)) l = take (Z.to_nat n) l ++ [x].
Proof. intros [_ H]%vec_get_Ok. by apply take_S_r. Qed.

Lemma drop_vec {A} (l : list A) n x :
  vec_get l n = Ok x → drop (Z.to_nat n) l = x :: drop (S (Z.to_nat n)) l.
Proof. intros [_ H]%vec_get_Ok. by rewrite (drop_S _ _ _ H). Qed.

(** The opening symbol of the innermost group is in the prefix. *)
Lemma take_vec_get {A} (l : list A) n i x :
  vec_get (take n l) i = Ok x → vec_get l i = Ok x.
Proof. rewrite <- (take_drop n l) at 2. apply vec_get_app_l. Qed.

Lemma links_last ts groups o st :
  links ts groups (o :: st) →
  ∃ gs g t, groups = gs ++ [g] ∧ vec_get ts g = Ok t ∧ kind t = o.
Proof.
  intros [_ _ H]. destruct groups as [|g gs _] using rev_ind; [by apply Forall2_length in H|].
  rewrite reverse_snoc in H. apply Forall2_cons in H as [(t & Ht & Hk) _]. by exists gs, g, t.
Qed.

Lemma links_opening ts groups o st :
  links ts groups (o :: st) → TokenKind.is_opening_symbol o = true.
Proof.
  intros H. destruct (links_last _ _ _ _ H) as (gs & g & t & -> & Hg & <-).
  pose proof (groups_open _ _ _ (links_groups _ _ _ H)) as Hf.
  apply Forall_app in Hf as [_ Hf]. apply Forall_cons in Hf as [(t' & Ht' & Ho) _].
  rewrite Hg in Ht'. by injection Ht' as <-.
Qed.

(** The prefix after both ends of a group are set. *)
Lemma close_prefix ts g tok t' info info' :
  vec_get ts tok = Ok info → 0 ≤ g < tok →
  take (S (Z.to_nat tok)) (vec_set (vec_set ts g t') tok info') =
    vec_set (take (Z.to_nat tok) ts ++ [info']) g t'.
Proof.
  intros Hi Hg. unfold vec_set.
  assert (<[Z.to_nat tok:=info']> (<[Z.to_nat g:=t']> ts) !! Z.to_nat tok = Some info') as E.
  { apply list_lookup_insert_eq. rewrite length_insert. apply vec_get_lt in Hi.
    unfold vec_size in Hi. lia. }
  rewrite (take_S_r _ _ _ E), take_insert_ge by lia.
  rewrite take_insert_lt by lia. apply vec_get_lt in Hi. unfold vec_size in Hi.
  rewrite insert_app_l by (rewrite length_take; lia). done.
Qed.

Lemma fix_references_links n : ∀ b tok groups st,
  vec_size (token_infos b) = tok + Z.of_nat n → 0 ≤ tok → vec_size (token_infos b) ≤ 2 ^ PayloadBits →
  links (take (Z.to_nat tok) (token_infos b)) groups st →
  balances st (kind <$> drop (Z.to_nat tok) (token_infos b)) = true →
  ∃ b', fix_references b n tok groups = Ok b' ∧ relinked b b' ∧ links (token_infos b') [] [].
Proof.
  induction n as [|n IH]; intros b tok groups st Hsz Htok Hmax HL HB; cbn [fix_references].
  { rewrite drop_ge in HB by (unfold vec_size in Hsz; lia). cbn in HB.
    rewrite take_ge in HL by (unfold vec_size in Hsz; lia).
    apply bool_decide_eq_true in HB. destruct st; [|done].
    exists b. split; [done|]. split; [done|]. pose proof (links_kinds _ _ _ HL) as Hk.
    apply Forall2_length in Hk. rewrite length_reverse in Hk. by destruct groups. }
  destruct (vec_get_in_range (token_infos b) tok) as [info Hi]; [lia|].
  assert (Z.to_nat (tok + 1) = S (Z.to_nat tok)) as Etok by lia.
  assert (vec_size (take (Z.to_nat tok) (token_infos b)) = tok) as Epre.
  { unfold vec_size in *. rewrite length_take. lia. }
  rewrite (drop_vec _ _ _ Hi) in HB. cbn [fmap list_fmap balances] in HB.
  unfold GetKind. rewrite Hi. cbn [mbind Result_bind mret Result_ret].
  destruct (TokenKind.is_opening_symbol (kind info)) eqn:Ho;
    [|destruct (TokenKind.is_closing_symbol (kind info)) eqn:Hc].
  - apply (IH b (tok + 1) _ (kind info :: st)); [lia|lia|done| |by rewrite Etok].
    rewrite Etok, (take_vec_succ _ _ _ Hi).
    pose proof (links_open _ _ _ info Ho HL) as HL'. by rewrite Epre in HL'.
  - destruct st as [|o st]; [done|]. apply andb_true_iff in HB as [HE HB].
    apply TokenKind.token_eqb_eq in HE.
    destruct (links_last _ _ _ _ HL) as (gs & g & t & -> & Hg & Hkt). rewrite last_snoc.
    pose proof (take_vec_get _ _ _ _ Hg) as Hg'. rewrite Hg'. cbn [mbind Result_bind].
    assert (opens t) as Hot by (unfold opens; by rewrite Hkt, (links_opening _ _ _ _ HL)).
    rewrite Hkt, <- HE, TokenKind.token_eqb_refl. cbn [require mbind Result_bind].
    unfold set_closing_token_index, set_opening_token_index.
    unfold opens in Hot. rewrite Hot, Hc. cbn [require mbind Result_bind mret Result_ret].
    rewrite take_init. set (t' := set_payload tok t). set (info' := set_payload g info).
    pose proof (vec_get_lt _ _ _ Hg) as Hgr. rewrite Epre in Hgr.
    set (b1 := with_token_infos (vec_set (token_infos b) g t') b).
    assert (vec_get (token_infos b1) tok = Ok info) as Hi1.
    { apply vec_get_set; [lia|]. right. split; [lia|done]. }
    assert (relinked b b1) as R1.
    { apply (relinked_set _ _ t); [done|]. apply set_payload_relinked. by left. }
    assert (relinked b1 (with_token_infos (vec_set (token_infos b1) tok info') b1)) as R2.
    { apply (relinked_set _ _ info); [done|]. apply set_payload_relinked. by right. }
    set (b2 := with_token_infos (vec_set (token_infos b1) tok info') b1) in *.
    change (with_token_infos (vec_set (vec_set (token_infos b) g t') tok info') b) with b2.
    destruct (IH b2 (tok + 1) gs st) as (b' & E & R & HL').
    + cbn. rewrite !vec_set_size. lia.
    + lia.
    + cbn. by rewrite !vec_set_size.
    + cbn. rewrite Etok, (close_prefix _ _ _ _ _ _ Hi) by lia.
      apply (links_close _ _ _ _ o t); try done.
      * change (kind info') with (kind info). rewrite HE, Hkt. symmetry. by apply closing_of_opening; rewrite <- Hkt.
      * rewrite Epre. cbn. apply Z.mod_small. lia.
      * cbn. apply Z.mod_small. lia.
    + cbn. unfold vec_set. rewrite Etok, !drop_insert_lt by lia. done.
    + exists b'. split; [exact E|]. split; [|done]. by do 2 (etransitivity; [eassumption|]).
  - apply (IH b (tok + 1) groups st); [lia|lia|done| |by rewrite Etok].
    rewrite Etok, (take_vec_succ _ _ _ Hi). apply links_other; [| |done]; unfold opens, closes.
    + by rewrite Ho.
    + by rewrite Hc.
Qed.

Lemma links_nil : links [] [] [].
Proof.
  assert (∀ i t, vec_get ([] : list TokenInfo) i = Ok t → False) as Hn.
  { intros i t Hi%vec_get_lt. change (vec_size []) with 0 in Hi. lia. }
  split; [|by intros i t ?%Hn|constructor]. split; [constructor| |by exists []; split; [constructor|]]. intros _.
  split; [constructor|..]; intros; exfalso; eauto.
Qed.

Lemma FixTokenCrossReferences_links b :
  balanced (kind <$> token_infos b) → size b ≤ 2 ^ PayloadBits →
  post_lexing_recovery_tokens b = 0 →
  ∃ b', FixTokenCrossReferences b = Ok b' ∧ relinked b b' ∧ links (token_infos b') [] [].
Proof.
  intros HB Hs Hr. unfold FixTokenCrossReferences, tokens_end. rewrite Hr, Z.sub_0_r.
  apply (fix_references_links _ b 0 [] []); [unfold size, vec_size; lia|lia|exact Hs|apply links_nil|].
  change (drop (Z.to_nat 0) (token_infos b)) with (token_infos b).
  pose proof (balanced_balances _ HB [] []) as E. rewrite app_nil_r in E. by rewrite E.
Qed.

(** * What a linked buffer answers *)

Lemma GetMatchedClosingToken_payload b i t :
  vec_get (token_infos b) i = Ok t → opens t → GetMatchedClosingToken b i = Ok (token_payload t).
Proof.
  intros Hi Ho. unfold GetMatchedClosingToken, closing_token_index. rewrite Hi.
  cbn [mbind Result_bind]. unfold opens in Ho. by rewrite Ho.
Qed.

Lemma GetMatchedOpeningToken_payload b i t :
  vec_get (token_infos b) i = Ok t → closes t → GetMatchedOpeningToken b i = Ok (token_payload t).
Proof.
  intros Hi Ho. unfold GetMatchedOpeningToken, opening_token_index. rewrite Hi.
  cbn [mbind Result_bind]. unfold closes in Ho. by rewrite Ho.
Qed.

Lemma GetMatchedClosingToken_inv b i j :
  GetMatchedClosingToken b i = Ok j →
  ∃ t, vec_get (token_infos b) i = Ok t ∧ opens t ∧ token_payload t = j.
Proof.
  intros Hj. pose proof Hj as (t & Hi & Hj')%result_bind_Ok. exists t. split; [done|].
  assert (opens t) as Ho.
  { apply result_bind_Ok in Hj' as ([] & Hr & _). by apply require_Ok in Hr. }
  split; [done|]. rewrite (GetMatchedClosingToken_payload _ _ _ Hi Ho) in Hj. by injection Hj.
Qed.

(** A delimited stream with matched groups is all the parser asks for. *)
Lemma Matched_lexed b :
  Matched (token_infos b) [] → post_lexing_recovery_tokens b = 0 → 2 ≤ size b →
  GetKind b 0 = Ok TokenKind.FileStart → GetKind b (size b - 1) = Ok TokenKind.FileEnd →
  (∀ i k, GetKind b i = Ok k → 0 < i → i ≠ size b - 1 →
    k ≠ TokenKind.FileStart ∧ k ≠ TokenKind.FileEnd) →
  (∃ l ls, line_infos b = l :: ls ∧ start l ≤ 0) →
  Forall (λ t, 0 ≤ byte_offset t) (token_infos b) → Lexed b.
Proof.
  intros HG Hpost Hsz K1 K2 K3 Hl Hoff.
  assert (tokens_end b = size b) as Eend by (unfold tokens_end; lia).
  split; rewrite ?Eend; [lia|done|done|done| | | |done|done].
  - intros i k Hk Hop. pose proof Hk as (t & Hi & [= <-])%result_bind_Ok.
    destruct (matched_opening _ _ HG i t Hi Hop (not_elem_of_nil _)) as (Hlt & u & Hu & Hku).
    exists (token_payload t). split; [by apply GetMatchedClosingToken_payload|].
    assert (GetKind b (token_payload t) = Ok (TokenKind.closing_symbol (kind t))) as HK.
    { unfold GetKind. rewrite Hu. cbn. by rewrite Hku. }
    split; [|done]. split; [done|].
    pose proof (vec_get_lt _ _ _ Hu) as Hr. fold (size b) in Hr.
    destruct (decide (token_payload t = size b - 1)) as [E|]; [|lia]. exfalso.
    rewrite E, K2 in HK. injection HK as HK. unfold opens in Hop. by destruct (kind t).
  - intros j (k & Hk & Hc). pose proof Hk as (u & Hu & [= <-])%result_bind_Ok.
    destruct (matched_closing _ _ HG j u Hu Hc) as (i & t & Hi & Hop & _ & Ej).
    exists i. split; [|rewrite <- Ej; by apply GetMatchedClosingToken_payload].
    exists (kind t). split; [|exact Hop]. unfold GetKind. by rewrite Hi.
  - intros i j i' j' (t & Hi & Hop & <-)%GetMatchedClosingToken_inv
      (t' & Hi' & Hop' & <-)%GetMatchedClosingToken_inv Hii.
    by apply (matched_nested _ _ HG i t i' t' Hi Hop (not_elem_of_nil _) Hi' Hop' (not_elem_of_nil _)).
Qed.

(** C13. On a stream whose brackets balance, the cross references of recovery
    link every bracket to its partner, in both directions, so that groups nest;
    no check on the way fails; and nothing but the payloads of brackets
    changes. *)
Theorem cross_references_match b :
  balanced (kind <$> token_infos b) → size b ≤ 2 ^ PayloadBits →
  post_lexing_recovery_tokens b = 0 →
  ∃ b', FixTokenCrossReferences b = Ok b' ∧ relinked b b' ∧
    (∀ i k, GetKind b i = Ok k → TokenKind.is_opening_symbol k = true →
      ∃ j, GetMatchedClosingToken b' i = Ok j ∧ i < j ∧
        GetKind b' j = Ok (TokenKind.closing_symbol k) ∧ GetMatchedOpeningToken b' j = Ok i) ∧
    (∀ j k, GetKind b j = Ok k → TokenKind.is_closing_symbol k = true →
      ∃ i, GetMatchedClosingToken b' i = Ok j) ∧
    (∀ i j i' j', GetMatchedClosingToken b' i = Ok j → GetMatchedClosingToken b' i' = Ok j' →
      i < i' < j → j' < j).
Proof.
  intros HB Hs Hr. destruct (FixTokenCrossReferences_links b HB Hs Hr) as (b' & E & R & HL).
  pose proof (groups_matched _ _ _ (links_groups _ _ _ HL) eq_refl) as HM.
  exists b'. split; [exact E|]. split; [exact R|].
  assert (∀ i k, GetKind b i = Ok k → ∃ t, vec_get (token_infos b') i = Ok t ∧ kind t = k) as Hk.
  { intros i k (t & [H0 Ht]%vec_get_Ok & [= <-])%result_bind_Ok. destruct R as (R & _).
    destruct (Forall2_lookup_l _ _ _ _ _ R Ht) as (t' & Ht' & (Ek & _)). exists t'.
    split; [by apply vec_get_Ok|done]. }
  split_and!.
  - intros i k Hi Ho. destruct (Hk i k Hi) as (t & Ht & Ek).
    assert (opens t) as Hot by (unfold opens; by rewrite Ek).
    destruct (matched_opening _ _ HM i t Ht Hot (not_elem_of_nil _)) as (Hlt & u & Hu & Hku).
    destruct (links_back _ _ _ HL i t Ht Hot (not_elem_of_nil _)) as (u' & Hu' & Hc & Hp).
    rewrite Hu in Hu'. injection Hu' as <-. exists (token_payload t).
    split; [by apply GetMatchedClosingToken_payload|]. split; [done|]. split.
    + unfold GetKind. rewrite Hu. cbn. by rewrite Hku, Ek.
    + rewrite (GetMatchedOpeningToken_payload _ _ u Hu Hc). by rewrite Hp.
  - intros j k Hj Hc. destruct (Hk j k Hj) as (u & Hu & Ek).
    destruct (matched_closing _ _ HM j u Hu) as (i & t & Hi & Ho & _ & <-).
    { unfold closes. by rewrite Ek. }
    exists i. by apply GetMatchedClosingToken_payload.
  - intros i j i' j' (t & Hi & Ho & <-)%GetMatchedClosingToken_inv
      (t' & Hi' & Ho' & <-)%GetMatchedClosingToken_inv.
    by apply (matched_nested _ _ HM i t i' t' Hi Ho (not_elem_of_nil _) Hi' Ho' (not_elem_of_nil _)).
Qed.

(** [( \[ )]: the buffer before its links are set. *)
Definition sample_unlinked : TokenizedBuffer.t :=
  {| token_infos := (λ k, MakeTokenInfo k true 77 0) <$>
       [TokenKind.FileStart; TokenKind.OpenParen; TokenKind.OpenSquareBracket;
        TokenKind.CloseSquareBracket; TokenKind.CloseParen; TokenKind.FileEnd];
     line_infos := []; has_errors := true; expected_max_parse_tree_size := 0;
     post_lexing_recovery_tokens := 0; recovery_tokens := []; source_text := "";
     identifiers := [] |}.

Lemma cross_references_match_witness :
  ∃ b', FixTokenCrossReferences sample_unlinked = Ok b' ∧
    (∃ j, GetMatchedClosingToken b' 1 = Ok j ∧ 1 < j ∧
      GetKind b' j = Ok TokenKind.CloseParen ∧ GetMatchedOpeningToken b' j = Ok 1) ∧
    (token_payload <$> token_infos b') = [77; 4; 3; 2; 1; 77].
Proof.
  destruct (cross_references_match sample_unlinked) as (b' & E & _ & H & _).
  - apply balanced_other; [done..|].
    apply (balanced_group TokenKind.OpenParen [TokenKind.OpenSquareBracket; TokenKind.CloseSquareBracket]);
      [done| |apply balanced_other; [done..|constructor]].
    apply (balanced_group TokenKind.OpenSquareBracket []); [done|constructor..].
  - vm_compute. discriminate.
  - reflexivity.
  - exists b'. split; [exact E|]. split; [by apply (H 1 TokenKind.OpenParen)|].
    vm_compute in E. by injection E as <-.
Defined.
