(* ===== verification/RecoveryTotal.v ===== *)
(** Bracket recovery never fails a check: reading the tokens, asking for the
    fixes of a list of corrections, and translating the corrections. *)

From S2P Require Import Prelude TokenKinds Text Tokens TokenText LexState BracketTokens.
From S2P Require Import LexDiagnostics LexRecovery LexPieces RecoveryMerge.
Import TokenizedBuffer.

Implicit Types (b : TokenizedBuffer.t) (tok : Z) (c : BracketCorrection).

(** * Reading a buffer *)

(** A token reads the same in a buffer of the same source. *)
Lemma GetTokenText_same b b' tok :
  vec_get (token_infos b') tok = vec_get (token_infos b) tok →
  source_text b' = source_text b → identifiers b' = identifiers b →
  GetTokenText b' tok = GetTokenText b tok.
Proof.
  intros Ei Es Eid. unfold GetTokenText, identifier_text, IsRawIdentifier, introduced_digits, source.
  by rewrite Ei, Es, Eid.
Qed.

Lemma partition_point_bound offset lines :
  0 ≤ partition_point lines offset ≤ vec_size lines ∧
  ∀ i info, vec_get lines i = Ok info → i < partition_point lines offset → start info ≤ offset.
Proof.
  induction lines as [|l lines [IH1 IH2]]; cbn [partition_point].
  { split; [done|]. intros i info Hi%vec_get_lt. lia. }
  rewrite vec_size_cons. destruct (Z.leb_spec (start l) offset).
  - split; [lia|]. intros i info [H0 Hi]%vec_get_Ok Hp.
    destruct (Z.to_nat i) as [|n] eqn:E; [by injection Hi as <-|].
    apply (IH2 (i - 1)); [|lia]. apply vec_get_Ok. split; [lia|].
    by replace (Z.to_nat (i - 1)) with n by lia.
  - split; [lia|]. intros i info Hi%vec_get_lt. lia.
Qed.

(** What recovery needs of a buffer: every token has a text and a line. *)
Record readable b : Prop := {
  readable_line : ∃ l ls, line_infos b = l :: ls ∧ start l ≤ 0;
  readable_offsets : Forall (λ t, 0 ≤ byte_offset t) (token_infos b);
  readable_text tok : 0 ≤ tok < size b → ∃ text, GetTokenText b tok = Ok text;
}.

Lemma FindLineIndex_readable b offset :
  readable b → 0 ≤ offset →
  succeeds (FindLineIndex b offset) (λ line, 0 ≤ line < vec_size (line_infos b)).
Proof.
  intros H Ho. destruct (readable_line _ H) as (l & ls & El & Hl). unfold FindLineIndex.
  destruct (partition_point_bound offset (line_infos b)) as [Hb Hs].
  assert (1 ≤ partition_point (line_infos b) offset) as H1.
  { rewrite El. cbn [partition_point]. rewrite (proj2 (Z.leb_le _ _)) by lia.
    pose proof (proj1 (partition_point_bound offset ls)). lia. }
  apply succeeds_bind, succeeds_require; [apply Z.ltb_lt; lia|].
  apply succeeds_bind, succeeds_get; [lia|]. intros info _.
  set (line := if _ : bool then _ else _).
  assert (0 ≤ line < partition_point (line_infos b) offset) as Hline.
  { unfold line. destruct (negb _ && _) eqn:E; [|lia].
    apply andb_true_iff in E as [E _]. apply negb_true_iff, Z.eqb_neq in E. lia. }
  apply succeeds_bind, succeeds_get; [lia|]. intros info' Hi.
  apply succeeds_bind, succeeds_require; [apply Z.leb_le; apply (Hs line); [done|lia]|].
  apply succeeds_ret. lia.
Qed.

Section reading.
Context (b : TokenizedBuffer.t).
Hypothesis Hb : readable b.

Lemma GetKind_readable tok (P : TokenKind.t → Prop) :
  0 ≤ tok < size b → (∀ k, GetKind b tok = Ok k → P k) → succeeds (GetKind b tok) P.
Proof using.
  intros [info Hi]%vec_get_in_range H. unfold GetKind in *. rewrite Hi in *. exists (kind info).
  split; [done|]. by apply H.
Qed.

Lemma GetByteOffset_total tok :
  0 ≤ tok < size b → succeeds (GetByteOffset b tok) (λ offset, 0 ≤ offset).
Proof using Hb.
  intros Hr. apply succeeds_bind, succeeds_get; [done|]. intros info [_ Hi]%vec_get_Ok.
  apply succeeds_ret. pose proof (readable_offsets _ Hb) as Ho. by eapply Forall_lookup_1 in Ho.
Qed.

Lemma GetLine_readable tok :
  0 ≤ tok < size b → succeeds (GetLine b tok) (λ line, 0 ≤ line < vec_size (line_infos b)).
Proof using Hb.
  intros Hr. apply succeeds_bind, succeeds_get; [done|]. intros info [_ Hi]%vec_get_Ok.
  apply FindLineIndex_readable; [done|]. pose proof (readable_offsets _ Hb) as Ho.
  by eapply Forall_lookup_1 in Ho.
Qed.

Lemma GetIndentColumnNumber_total line :
  0 ≤ line < vec_size (line_infos b) → succeeds (GetIndentColumnNumber b line) (λ _, True).
Proof using. intros Hr. apply succeeds_bind, succeeds_get; [done|]. intros. by apply succeeds_ret. Qed.

Lemma GetTokenText_total tok : 0 ≤ tok < size b → succeeds (GetTokenText b tok) (λ _, True).
Proof using Hb. intros [text E]%(readable_text _ Hb). by exists text. Qed.

Lemma HasLeadingWhitespace_total tok :
  0 ≤ tok < size b → succeeds (HasLeadingWhitespace b tok) (λ _, True).
Proof using. intros Hr. apply succeeds_bind, succeeds_get; [done|]. intros. by apply succeeds_ret. Qed.

Lemma TokenEndPosition_total tok :
  0 ≤ tok < size b → succeeds (TokenEndPosition b tok) (λ p, 0 ≤ p).
Proof using Hb.
  intros Hr. eapply succeeds_then; [by apply GetByteOffset_total|]. intros p Hp. cbv beta in Hp.
  eapply succeeds_then; [by apply GetTokenText_total|]. intros text _.
  apply succeeds_ret. pose proof (vec_size_nonneg text). lia.
Qed.

(** ** The tokens of a repair *)

Lemma KindBeforeEnd_total tok :
  0 ≤ tok → tokens_end b ≤ size b → succeeds (KindBeforeEnd b tok) (λ _, True).
Proof using.
  intros H0 He. unfold KindBeforeEnd. destruct (Z.ltb_spec tok (tokens_end b)).
  - apply succeeds_bind, GetKind_readable; [lia|]. intros. by apply succeeds_ret.
  - by apply succeeds_ret.
Qed.

Lemma DescribeBracketToken_total tok k bk paren line wide :
  tokens_end b ≤ size b → 0 ≤ tok < size b → 0 ≤ line < vec_size (line_infos b) →
  succeeds (DescribeBracketToken b tok k bk paren line wide) (λ _, True).
Proof using Hb.
  intros He Hr Hl. unfold DescribeBracketToken.
  eapply succeeds_then; [apply KindBeforeEnd_total; lia|]. intros next _.
  apply (succeeds_then _ _ (λ _, True)).
  { destruct (TokenKind.eqb k TokenKind.FileEnd); [by apply succeeds_ret|].
    by apply GetIndentColumnNumber_total. }
  intros indent _. apply (succeeds_then _ _ (λ _, True)).
  { destruct (Z.ltb_spec (tok + 1) (tokens_end b)); [|by apply succeeds_ret].
    eapply succeeds_then; [apply GetLine_readable; lia|]. intros. by apply succeeds_ret. }
  intros eol _. apply (succeeds_then _ _ (λ _, True)).
  { destruct (negb _); [by apply succeeds_ret|]. destruct (_ || _); [by apply succeeds_ret|].
    destruct (kind_is _ _); [|by apply succeeds_ret].
    eapply succeeds_then; [apply KindBeforeEnd_total; lia|]. intros. by apply succeeds_ret. }
  intros struct _. eapply succeeds_then; [by apply HasLeadingWhitespace_total|].
  intros. by apply succeeds_ret.
Qed.

Lemma collect_bracket_tokens_total n : ∀ tok prev_end prev_line,
  tokens_end b ≤ size b → 0 ≤ tok → tok + Z.of_nat n ≤ size b →
  succeeds (collect_bracket_tokens b n tok prev_end prev_line) (λ _, True).
Proof using Hb.
  induction n as [|n IH]; intros tok prev_end prev_line He H0 Hn; cbn [collect_bracket_tokens].
  { by apply succeeds_ret. }
  eapply succeeds_then; [apply (GetKind_readable tok (λ _, True)); [lia|done]|]. intros k _.
  eapply succeeds_then; [apply GetByteOffset_total; lia|]. intros offset _.
  eapply succeeds_then; [apply GetLine_readable; lia|]. intros line Hl. cbv beta in Hl.
  eapply succeeds_then; [apply GetTokenText_total; lia|]. intros text _.
  destruct (ClassifyBracketToken k) as [[bk paren]|]; [|apply IH; lia].
  eapply succeeds_then; [by apply DescribeBracketToken_total; [done|lia|]|]. intros t _.
  eapply succeeds_then; [apply IH; lia|]. intros ts _. by apply succeeds_ret.
Qed.

Lemma CollectMismatchedBracketTokens_total :
  0 ≤ tokens_end b ≤ size b → succeeds (CollectMismatchedBracketTokens b) (λ _, True).
Proof using Hb. intros He. apply collect_bracket_tokens_total; lia. Qed.
End reading.

(** * What corrections ask for *)

(** The token a correction makes an error of; otherwise it inserts one. *)
Definition replaced_token c : option Z :=
  if bool_decide (fix_action c = ReplaceWithError) then Some (fix_token_index c)
  else if is_tied c then Some (diagnostic_token_index c)
  else None.

Definition replaces c : bool := match replaced_token c with Some _ => true | None => false end.

(** The insertion a correction asks for; only the kind of its token matters. *)
Definition asked_insertion (order : Z) c : Insertion :=
  {| anchor := fix_token_index c;
     is_after := negb (bool_decide (fix_action c = InsertBefore));
     insertion_order := order;
     insertion_info := MakeTokenInfo (fix_token_kind c) false 0 0 |}.

Fixpoint asked (order : Z) (cs : list BracketCorrection) : list Insertion :=
  match cs with
  | [] => []
  | c :: cs =>
      if replaces c then asked order cs else asked_insertion order c :: asked (order + 1) cs
  end.

(** The kinds of the tokens once the errors are made. *)
Definition with_error (kinds : list TokenKind.t) c : list TokenKind.t :=
  match replaced_token c with
  | Some tok => vec_set kinds tok TokenKind.Error
  | None => kinds
  end.
Definition with_errors_of (kinds : list TokenKind.t) (cs : list BracketCorrection)
    : list TokenKind.t := foldl with_error kinds cs.

(** The indices a correction for a stream of [n] tokens may have. *)
Record in_stream (n : Z) c : Prop := {
  in_stream_diagnostic : 0 ≤ diagnostic_token_index c < n;
  in_stream_fix : 0 ≤ fix_token_index c < n;
  in_stream_before : fix_action c = InsertBefore → 0 < fix_token_index c;
  in_stream_after : fix_action c = InsertAfter → fix_token_index c < n - 1;
}.

Lemma asked_target n order c :
  in_stream n c → replaces c = false → 1 ≤ target (asked_insertion order c) < n.
Proof.
  intros [Hd Hf Hb Ha] Hr. unfold target. cbn [asked_insertion is_after anchor].
  unfold replaces, replaced_token in Hr. destruct (fix_action c); [| |done].
  - change (bool_decide (InsertBefore = InsertBefore)) with true. specialize (Hb eq_refl). cbn. lia.
  - change (bool_decide (InsertAfter = InsertBefore)) with false. specialize (Ha eq_refl). cbn. lia.
Qed.

(** Insertions that go to the same place, of tokens of the same kind. *)
Definition same_request (i j : Insertion) : Prop :=
  anchor i = anchor j ∧ is_after i = is_after j ∧ insertion_order i = insertion_order j ∧
  kind (insertion_info i) = kind (insertion_info j).

Lemma asked_numbered cs : ∀ order,
  insertion_order <$> asked order cs = seqZ order (vec_size (asked order cs)).
Proof.
  induction cs as [|c cs IH]; intros order; cbn [asked]; [done|].
  destruct (replaces c); [apply IH|]. cbn [fmap list_fmap]. rewrite vec_size_cons.
  pose proof (vec_size_nonneg (asked (order + 1) cs)).
  rewrite seqZ_cons by lia. cbn. f_equal. fold (fmap (M := list) insertion_order).
  rewrite IH. f_equal; lia.
Qed.

(** * Asking for them *)

(** A buffer with some tokens made errors. *)
Record errors_made b b' (cs : list BracketCorrection) : Prop := {
  errors_source : same_source b b';
  errors_recovery : recovery_tokens b' = recovery_tokens b;
  errors_kinds : (kind <$> token_infos b') = with_errors_of (kind <$> token_infos b) cs;
}.

Lemma with_error_size kinds c : vec_size (with_error kinds c) = vec_size kinds.
Proof. unfold with_error. destruct (replaced_token c); [apply vec_set_size|done]. Qed.

Lemma with_errors_of_size cs : ∀ kinds, vec_size (with_errors_of kinds cs) = vec_size kinds.
Proof.
  induction cs as [|c cs IH]; intros kinds; [done|]. cbn. etransitivity; [apply IH|].
  apply with_error_size.
Qed.

Lemma kinds_size b : vec_size (kind <$> token_infos b) = size b.
Proof. unfold size, vec_size. by rewrite length_fmap. Qed.

Lemma errors_made_size b b' cs : errors_made b b' cs → size b' = size b.
Proof. intros H. by rewrite <- !kinds_size, (errors_kinds _ _ _ H), with_errors_of_size. Qed.

Lemma errors_made_nil b : errors_made b b [].
Proof. by split. Qed.

Lemma errors_made_cons b1 b2 b3 c cs :
  errors_made b1 b2 [c] → errors_made b2 b3 cs → errors_made b1 b3 (c :: cs).
Proof.
  intros [A1 A2 A3] [B1 B2 B3]. split.
  - by transitivity b2.
  - by rewrite B2.
  - rewrite B3, A3. done.
Qed.

(** Making an error of one token. *)
Lemma replace_with_error_total b tok fixes :
  readable b → 0 ≤ tok < size b →
  ∃ info (text : list char), let b' := with_token_infos (vec_set (token_infos b) tok
      (AsError (vec_size text) info)) b in
    vec_get (token_infos b) tok = Ok info ∧
    replace_with_error fixes b tok =
      Ok ({| insertions := insertions fixes; any_error_tokens := true;
             inserted_token_index := inserted_token_index fixes;
             new_token_index := new_token_index fixes |}, b') ∧
    readable b' ∧ (kind <$> token_infos b') =
      vec_set (kind <$> token_infos b) tok TokenKind.Error.
Proof.
  intros Hb Hr. destruct (vec_get_in_range _ _ Hr) as [info Hi].
  destruct (readable_text _ Hb _ Hr) as [text Et]. exists info, text. split; [done|].
  split; [unfold replace_with_error; by rewrite Hi, Et|].
  split; [|cbn; unfold vec_set; by rewrite list_fmap_insert].
  pose proof (readable_offsets _ Hb) as Ho. split.
  - apply (readable_line _ Hb).
  - cbn. unfold vec_set. apply Forall_insert; [done|]. apply vec_get_Ok in Hi as [_ Hi].
    exact (Forall_lookup_1 _ _ _ _ Ho Hi).
  - intros tok' Hr'. unfold size in Hr'. cbn in Hr'. rewrite vec_set_size in Hr'.
    destruct (decide (tok = tok')) as [<-|Hne].
    + eexists. unfold GetTokenText. cbn [with_token_infos token_infos].
      rewrite (proj2 (vec_get_set _ _ _ _ _ Hr) (or_introl (conj eq_refl eq_refl))). done.
    + destruct (readable_text _ Hb _ Hr') as [text' Et']. exists text'. rewrite <- Et'.
      apply GetTokenText_same; [|done|done].
      destruct (vec_get_in_range _ _ Hr') as [info' Hi']. rewrite Hi'.
      apply vec_get_set; [done|]. by right.
Qed.

Lemma BracketInsertionPosition_total b c :
  readable b → in_stream (size b) c → succeeds (BracketInsertionPosition b c) (λ _, True).
Proof.
  intros Hb [Hd Hf Hbefore _]. unfold BracketInsertionPosition.
  set (after := if bool_decide (fix_action c = InsertAfter) then _ else _).
  assert (after = NoneToken ∨ 0 ≤ after < size b) as Ha.
  { unfold after. destruct (bool_decide _); [by right|]. change NoneToken with (-1). lia. }
  destruct (Z.eqb_spec after NoneToken) as [_|Hne].
  { eapply succeeds_mono; [by apply GetByteOffset_total|done]. }
  destruct Ha as [?|Ha]; [done|].
  eapply succeeds_then; [by apply TokenEndPosition_total|]. intros p _.
  destruct (TokenKind.eqb _ _).
  - destruct (_ !! _) as [newline|]; [|by apply succeeds_ret].
    destruct (IsVerticalWhitespace newline); [|by apply succeeds_ret].
    eapply succeeds_then; [by apply GetLine_readable|]. intros line Hl. cbv beta in Hl.
    eapply succeeds_then; [by apply GetIndentColumnNumber_total|]. intros indent _.
    by apply succeeds_ret.
  - destruct (TokenKind.is_opening_symbol _); by apply succeeds_ret.
Qed.

Section requests.
Context {Build : LexBuild}.

(** One insertion more, at a token of the stream. *)
Definition inserted fixes (i : Insertion) : ErrorRecoveryBuffer :=
  {| insertions := insertions fixes ++ [i]; any_error_tokens := any_error_tokens fixes;
     inserted_token_index := inserted_token_index fixes;
     new_token_index := new_token_index fixes |}.

Lemma AddInsertion_total fixes b c :
  readable b → in_stream (size b) c → replaces c = false →
  succeeds (AddInsertion fixes b (fix_token_index c) (fix_token_kind c)
      (negb (bool_decide (fix_action c = InsertBefore))))
    (λ r, ∃ i, r = (vec_size (insertions fixes), inserted fixes i) ∧
      same_request i (asked_insertion (vec_size (insertions fixes)) c) ∧
      0 ≤ byte_offset (insertion_info i)).
Proof.
  intros Hb [Hd Hf Hbefore Hafter] Hr. unfold AddInsertion.
  apply succeeds_bind, succeeds_require; [apply Z.leb_le; lia|].
  apply succeeds_bind, succeeds_require; [apply Z.ltb_lt; lia|].
  assert (fix_action c = InsertBefore ∨ fix_action c = InsertAfter) as Ha.
  { unfold replaces, replaced_token in Hr. destruct (fix_action c); [by left|by right|done]. }
  set (is_after := negb (bool_decide (fix_action c = InsertBefore))).
  assert (is_after = true ∨ 0 < fix_token_index c) as Hcase.
  { destruct Ha as [Ea|Ea]; [right; by apply Hbefore|left].
    unfold is_after. rewrite bool_decide_false; [done|]. by rewrite Ea. }
  apply succeeds_bind, succeeds_require.
  { destruct is_after; [done|]. destruct Hcase as [?|Hc]; [done|]. by apply Z.ltb_lt. }
  apply (succeeds_then _ _ (λ r : bool * Z, 0 ≤ r.2)).
  { destruct is_after; cbn [negb].
    - eapply succeeds_then; [by apply TokenEndPosition_total|]. intros offset Ho. cbv beta in Ho.
      apply (succeeds_then _ _ (λ _, True)); [|intros; by apply succeeds_ret].
      destruct (Z.ltb_spec (fix_token_index c + 1) (size b)); [|by apply succeeds_ret].
      apply HasLeadingWhitespace_total. lia.
    - eapply succeeds_then; [by apply HasLeadingWhitespace_total|]. intros leading _.
      destruct Hcase as [?|Hc]; [done|].
      eapply succeeds_then; [apply TokenEndPosition_total; [done|lia]|]. intros offset Ho.
      by apply succeeds_ret. }
  intros [leading offset] Ho. apply succeeds_ret. eexists. split; [reflexivity|].
  split; [|exact Ho]. by split_and!.
Qed.

Context {Ops : APInts.APInts}.
Implicit Types (s : LexerState) (w : list LexDiagnostic).

(** The recovery buffer once [cs] have been asked for, from [fixes]. *)
Record asked_for fixes fixes' (cs : list BracketCorrection) : Prop := {
  asked_insertions : ∃ new, insertions fixes' = insertions fixes ++ new ∧
    Forall2 same_request new (asked (vec_size (insertions fixes)) cs) ∧
    Forall (λ i, 0 ≤ byte_offset (insertion_info i)) new;
  asked_errors : any_error_tokens fixes' = any_error_tokens fixes || existsb replaces cs;
}.

Lemma asked_for_nil fixes : asked_for fixes fixes [].
Proof. split; [exists []; by rewrite app_nil_r|by rewrite orb_false_r]. Qed.

(** An id that [GetInsertedTokenIndex] or its absence. *)
Definition id_of fixes (id : Z) : Prop := id = -1 ∨ 0 ≤ id < vec_size (insertions fixes).

Lemma request_fix_total fixes c s
    (Q : ErrorRecoveryBuffer * Z * option Z → LexerState → list LexDiagnostic → Prop) :
  readable (buffer s) → in_stream (size (buffer s)) c →
  (∀ fixes' id note s', readable (buffer s') → errors_made (buffer s) (buffer s') [c] →
    asked_for fixes fixes' [c] → id_of fixes' id → Q (fixes', id, note) s' []) →
  total (request_fix fixes c) Q s.
Proof.
  intros Hb Hc HQ.
  assert (∀ tok, replaced_token c = Some tok → 0 ≤ tok < size (buffer s) →
    total (r ← lift_result (λ s, replace_with_error fixes (buffer s) tok);
           modify (set_buffer (λ _, r.2)) ;; mret (r.1, -1, None)) Q s) as Hreplace.
  { intros tok Et Hr. destruct (replace_with_error_total _ _ fixes Hb Hr) as (info & text & Hi & E & Hb' & Ek).
    total_step. eapply total_lift; [exact E|]. total_steps. apply HQ; [exact Hb'| | |by left].
    - split; [done|done|]. cbn [with_errors_of foldl with_error]. unfold with_error. by rewrite Et.
    - split; cbn [insertions any_error_tokens asked existsb]; unfold replaces; rewrite Et.
      + exists []. by rewrite app_nil_r.
      + by rewrite orb_true_r. }
  unfold request_fix. destruct (bool_decide _) eqn:Ea.
  { apply Hreplace; [|apply Hc]. unfold replaced_token. by rewrite Ea. }
  destruct (is_tied c) eqn:Et.
  { apply Hreplace; [|apply Hc]. unfold replaced_token. by rewrite Ea, Et. }
  assert (replaced_token c = None) as Er by (unfold replaced_token; by rewrite Ea, Et).
  destruct (BracketInsertionPosition_total _ _ Hb Hc) as (pos & Ep & _).
  destruct (AddInsertion_total fixes _ _ Hb Hc) as (r & Ei & i & -> & Hsame & Ho).
  { unfold replaces. by rewrite Er. }
  total_step. eapply total_lift; [exact Ep|]. total_steps. eapply total_lift; [exact Ei|].
  total_steps. apply HQ; [done| | |].
  - split; [done|done|]. cbn [with_errors_of foldl with_error]. unfold with_error. by rewrite Er.
  - split; cbn [inserted insertions any_error_tokens asked existsb]; unfold replaces; rewrite Er.
    + exists [i]. split; [done|]. split; [by constructor|by constructor].
    + by rewrite orb_false_r.
  - right. unfold inserted. cbn [insertions fst snd]. rewrite vec_size_app, vec_size_one.
    pose proof (vec_size_nonneg (insertions fixes)). lia.
Qed.

Lemma asked_app cs cs' : ∀ order,
  asked order (cs ++ cs') = asked order cs ++ asked (order + vec_size (asked order cs)) cs'.
Proof.
  induction cs as [|c cs IH]; intros order; cbn [app asked].
  { change (vec_size []) with 0. by rewrite Z.add_0_r. }
  destruct (replaces c); [apply IH|]. cbn [app]. rewrite IH, vec_size_cons. do 3 f_equal. lia.
Qed.

Lemma asked_for_size fixes fixes' cs :
  asked_for fixes fixes' cs →
  vec_size (insertions fixes') =
    vec_size (insertions fixes) + vec_size (asked (vec_size (insertions fixes)) cs).
Proof.
  intros [(new & -> & H & _) _]. rewrite vec_size_app. apply Forall2_length in H.
  unfold vec_size in *. lia.
Qed.

Lemma asked_for_cons fixes1 fixes2 fixes3 c cs :
  asked_for fixes1 fixes2 [c] → asked_for fixes2 fixes3 cs → asked_for fixes1 fixes3 (c :: cs).
Proof.
  intros H12 H23. pose proof (asked_for_size _ _ _ H12) as Sz.
  destruct H12 as [(n1 & E1 & S1 & O1) A1], H23 as [(n2 & E2 & S2 & O2) A2]. split.
  - exists (n1 ++ n2). rewrite E2, E1, app_assoc. split; [done|].
    split; [|by apply Forall_app_2]. change (c :: cs) with ([c] ++ cs).
    rewrite asked_app. apply Forall2_app; [done|]. by rewrite <- Sz.
  - rewrite A2, A1. cbn [existsb]. by rewrite orb_false_r, orb_assoc.
Qed.

Lemma id_of_asked fixes fixes' cs id : asked_for fixes fixes' cs → id_of fixes id → id_of fixes' id.
Proof.
  intros H [->|Hr]; [by left|right]. rewrite (asked_for_size _ _ _ H).
  pose proof (vec_size_nonneg (asked (vec_size (insertions fixes)) cs)). lia.
Qed.

Lemma request_fixes_total cs : ∀ fixes ids s
    (Q : ErrorRecoveryBuffer * list Z → LexerState → list LexDiagnostic → Prop),
  readable (buffer s) → Forall (in_stream (size (buffer s))) cs → Forall (id_of fixes) ids →
  (∀ fixes' ids' s' w, readable (buffer s') → errors_made (buffer s) (buffer s') cs →
    asked_for fixes fixes' cs → Forall (id_of fixes') ids' →
    length ids' = (length ids + length cs)%nat → length w = length cs → Q (fixes', ids') s' w) →
  total (request_fixes fixes cs ids) Q s.
Proof.
  induction cs as [|c cs IH]; intros fixes ids s Q Hb Hcs Hids HQ; cbn [request_fixes].
  { total_step. apply HQ; [done|apply errors_made_nil|apply asked_for_nil|done|cbn; lia|done]. }
  apply Forall_cons in Hcs as [Hc Hcs].
  destruct (GetByteOffset_total _ Hb _ (in_stream_diagnostic _ _ Hc)) as (loc & El & _).
  total_step. eapply total_lift; [exact El|]. total_step.
  apply request_fix_total; [done|done|]. intros fixes1 id note s1 Hb1 He1 Ha1 Hid.
  cbv beta iota. total_step. unfold emit_correction. eexists _, _, _. split; [reflexivity|].
  apply IH; [done| |..].
  - by rewrite (errors_made_size _ _ _ He1).
  - apply Forall_app_2; [|by constructor]. eapply Forall_impl; [exact Hids|].
    intros id'. by eapply id_of_asked.
  - intros fixes' ids' s' w Hb' He Ha Hids' Hl Hw. cbn [app]. apply HQ; [done|..].
    + by eapply errors_made_cons.
    + by eapply asked_for_cons.
    + done.
    + rewrite Hl, length_app. cbn. lia.
    + cbn. by rewrite Hw.
Qed.
End requests.
