(* ===== verification/Precedence.v ===== *)
(** Operator precedence: [Parse::PrecedenceGroup] of
    [toolchain/parse/precedence.{h,cpp}]. The priority table is computed here
    the way the [constexpr] constructor of [OperatorPriorityTable] computes
    it, and its order-theoretic properties are proved over all levels. *)

From S2P Require Import Prelude TokenKinds.

(** [OperatorPriority]. *)
Inductive OperatorPriority : Set := LeftFirst | Ambiguous | RightFirst.

(** [Associativity], and the [static_cast] between the two enumerations. *)
Inductive Associativity : Set := LeftToRight | NoAssociativity | RightToLeft.

#[export] Instance OperatorPriority_eq_dec : EqDecision OperatorPriority.
Proof. solve_decision. Defined.

Module PrecedenceLevel.

(** [PrecedenceGroup::PrecedenceLevel]. *)
Inductive t : Set :=
  | Highest | TermPrefix | IncrementDecrement | NumericPrefix | Modulo
  | Multiplicative | Additive | BitwisePrefix | BitwiseAnd | BitwiseOr
  | BitwiseXor | BitShift | TypePrefix | TypePostfix | Where | As
  | LogicalPrefix | Relational | LogicalAnd | LogicalOr | If | Ref
  | Assignment | Lowest.

Definition AsInt (l : t) : Z :=
  match l with
  | Highest => 0 | TermPrefix => 1 | IncrementDecrement => 2
  | NumericPrefix => 3 | Modulo => 4 | Multiplicative => 5 | Additive => 6
  | BitwisePrefix => 7 | BitwiseAnd => 8 | BitwiseOr => 9 | BitwiseXor => 10
  | BitShift => 11 | TypePrefix => 12 | TypePostfix => 13 | Where => 14
  | As => 15 | LogicalPrefix => 16 | Relational => 17 | LogicalAnd => 18
  | LogicalOr => 19 | If => 20 | Ref => 21 | Assignment => 22 | Lowest => 23
  end.

(** All levels in order; there are [NumPrecedenceLevels] of them. *)
Definition all : list t := [
  Highest; TermPrefix; IncrementDecrement; NumericPrefix; Modulo;
  Multiplicative; Additive; BitwisePrefix; BitwiseAnd; BitwiseOr; BitwiseXor;
  BitShift; TypePrefix; TypePostfix; Where; As; LogicalPrefix; Relational;
  LogicalAnd; LogicalOr; If; Ref; Assignment; Lowest].

Definition of_int (i : Z) : option t := all !! Z.to_nat i.

Lemma level_of_int_AsInt l : of_int (AsInt l) = Some l.
Proof. destruct l; reflexivity. Qed.

#[global] Instance eq_dec : EqDecision t := enum_eq_dec AsInt of_int level_of_int_AsInt.

Definition eqb (a b : t) : bool := AsInt a =? AsInt b.

Lemma level_elem_of_all l : l ∈ all.
Proof. eapply list_elem_of_lookup_2. apply (level_of_int_AsInt l). Qed.

End PrecedenceLevel.

Module PrecedenceGroup.
Import PrecedenceLevel.

Implicit Types (a b c : PrecedenceLevel.t).

(** * The table

    [table[higher][lower]] as rows of cells; an entry not yet written is
    [Ambiguous], the zero the constructor value-initialises to. *)
Definition Table : Type := list (list OperatorPriority).

Definition get (tbl : Table) a b : OperatorPriority :=
  nth (Z.to_nat (AsInt b)) (nth (Z.to_nat (AsInt a)) tbl []) Ambiguous.

Definition set (tbl : Table) a b (p : OperatorPriority) : Table :=
  alter (λ row, <[Z.to_nat (AsInt b) := p]> row) (Z.to_nat (AsInt a)) tbl.

Definition empty_table : Table :=
  replicate (length all) (replicate (length all) Ambiguous).

(** [MarkHigherThan]. *)
Definition MarkHigherThan (higher_group lower_group : list t) (tbl : Table) : Table :=
  foldl (λ tbl higher,
    foldl (λ tbl lower, set tbl higher lower LeftFirst) tbl lower_group)
    tbl higher_group.

Definition is_left (p : OperatorPriority) : bool := bool_decide (p = LeftFirst).

(** One pass of the [do]-loop of [MakeTransitivelyClosed]; the flag is
    [changed]. *)
Definition closure_pass (tbl : Table) : bool * Table :=
  foldl (λ st a,
    foldl (λ st b,
      if is_left (get st.2 a b) then
        foldl (λ st c,
          if is_left (get st.2 b c) && negb (is_left (get st.2 a c))
          then (true, set st.2 a c LeftFirst) else st) st all
      else st) st all)
    (false, tbl) all.

(** [MakeTransitivelyClosed]: passes until one changes nothing. *)
Fixpoint MakeTransitivelyClosed (fuel : nat) (tbl : Table) : option Table :=
  match fuel with
  | O => None
  | S fuel' =>
      let '(changed, tbl') := closure_pass tbl in
      if changed then MakeTransitivelyClosed fuel' tbl' else Some tbl'
  end.

(** [MakeSymmetric]; [None] when the [CARBON_CHECK] for inconsistent entries
    fails. *)
Definition MakeSymmetric (tbl : Table) : option Table :=
  foldl (λ st a,
    foldl (λ st b,
      tbl ← st;
      if is_left (get tbl a b) then
        if is_left (get tbl b a) then None else Some (set tbl b a RightFirst)
      else Some tbl) st all)
    (Some tbl) all.

(** [AddAssociativityRules]. *)
Definition AddAssociativityRules (tbl : Table) : Table :=
  let tbl := foldl (λ tbl l, set tbl l l RightFirst) tbl [TermPrefix; If] in
  let tbl := foldl (λ tbl l, set tbl l l LeftFirst) tbl [TypePostfix] in
  foldl (λ tbl l, set tbl l l LeftFirst) tbl
    [Multiplicative; Additive; BitwiseAnd; BitwiseOr; BitwiseXor; LogicalAnd;
     LogicalOr].

(** [ConsistencyCheck]. *)
Definition ConsistencyCheck (tbl : Table) : bool :=
  forallb (λ level,
    (bool_decide (level = Highest) ||
       (bool_decide (get tbl Highest level = LeftFirst) &&
        bool_decide (get tbl level Highest = RightFirst))) &&
    (bool_decide (level = Lowest) ||
       (bool_decide (get tbl Lowest level = RightFirst) &&
        bool_decide (get tbl level Lowest = LeftFirst)))) all.

(** The [MarkHigherThan] calls of the [OperatorPriorityTable] constructor. *)
Definition marked_table : Table :=
  let t0 := MarkHigherThan [Highest] [TermPrefix; LogicalPrefix] empty_table in
  let t1 := MarkHigherThan [TermPrefix]
              [NumericPrefix; BitwisePrefix; IncrementDecrement] t0 in
  let t2 := MarkHigherThan [NumericPrefix; BitwisePrefix; TypePostfix]
              [As; Multiplicative; Modulo; BitwiseAnd; BitwiseOr; BitwiseXor;
               BitShift] t1 in
  let t3 := MarkHigherThan [Multiplicative] [Additive] t2 in
  let t4 := MarkHigherThan
              [Additive; Modulo; BitwiseAnd; BitwiseOr; BitwiseXor; BitShift]
              [Relational; Where] t3 in
  let t5 := MarkHigherThan [Relational; LogicalPrefix] [LogicalAnd; LogicalOr] t4 in
  let t6 := MarkHigherThan [As; LogicalAnd; LogicalOr; Where] [Ref] t5 in
  let t7 := MarkHigherThan [Ref] [If] t6 in
  let t8 := MarkHigherThan [If] [Assignment] t7 in
  let t9 := MarkHigherThan [Assignment; IncrementDecrement] [Lowest] t8 in
  let t10 := MarkHigherThan [Highest] [TypePrefix] t9 in
  MarkHigherThan [TypePrefix] [TypePostfix] t10.

(** The whole constructor; [None] when it would not terminate within the fuel
    or a [CARBON_CHECK] would fail. *)
Definition OperatorPriorityTable : option Table :=
  tbl ← MakeTransitivelyClosed 24 marked_table;
  tbl ← MakeSymmetric tbl;
  let tbl := AddAssociativityRules tbl in
  if ConsistencyCheck tbl then Some tbl else None.

(** The [static constexpr] table, evaluated once. *)
Definition Lookup : Table :=
  Eval vm_compute in default [] OperatorPriorityTable.

(** [PrecedenceGroup::GetPriority]. *)
Definition GetPriority a b : OperatorPriority := get Lookup a b.

(** [PrecedenceGroup::GetAssociativity]. *)
Definition GetAssociativity a : Associativity :=
  match GetPriority a a with
  | LeftFirst => LeftToRight
  | Ambiguous => NoAssociativity
  | RightFirst => RightToLeft
  end.

(** * The factory functions *)

Definition ForPostfixExpr : t := Highest.
Definition ForTopLevelExpr : t := If.
Definition ForExprStatement : t := Lowest.
Definition ForType : t := ForTopLevelExpr.
Definition ForImplAs : t := As.
Definition ForRequirements : t := Where.
Definition ForTopLevelPattern : t := Relational.

(** [PrecedenceGroup::ForLeading]. *)
Definition ForLeading (kind : TokenKind.t) : option t :=
  match kind with
  | TokenKind.Star | TokenKind.Amp | TokenKind.Expand => Some TermPrefix
  | TokenKind.Not => Some LogicalPrefix
  | TokenKind.Minus => Some NumericPrefix
  | TokenKind.MinusMinus | TokenKind.PlusPlus => Some IncrementDecrement
  | TokenKind.Caret => Some BitwisePrefix
  | TokenKind.If => Some If
  | TokenKind.Ref => Some Ref
  | TokenKind.Const | TokenKind.Partial => Some TypePrefix
  | _ => None
  end.

(** [PrecedenceGroup::Trailing]. *)
Record Trailing := { level : t; is_binary : bool }.

Definition binary (l : t) : option Trailing := Some {| level := l; is_binary := true |}.
Definition postfix (l : t) : option Trailing := Some {| level := l; is_binary := false |}.

(** [PrecedenceGroup::ForTrailing]. *)
Definition ForTrailing (kind : TokenKind.t) (infix : bool) : option Trailing :=
  match kind with
  | TokenKind.Equal | TokenKind.PlusEqual | TokenKind.MinusEqual
  | TokenKind.StarEqual | TokenKind.SlashEqual | TokenKind.PercentEqual
  | TokenKind.AmpEqual | TokenKind.PipeEqual | TokenKind.CaretEqual
  | TokenKind.GreaterGreaterEqual | TokenKind.LessLessEqual => binary Assignment
  | TokenKind.And => binary LogicalAnd
  | TokenKind.Or => binary LogicalOr
  | TokenKind.Amp => binary BitwiseAnd
  | TokenKind.Pipe => binary BitwiseOr
  | TokenKind.Caret => binary BitwiseXor
  | TokenKind.GreaterGreater | TokenKind.LessLess => binary BitShift
  | TokenKind.EqualEqual | TokenKind.ExclaimEqual | TokenKind.Less
  | TokenKind.LessEqual | TokenKind.Greater | TokenKind.GreaterEqual
  | TokenKind.LessEqualGreater => binary Relational
  | TokenKind.Plus | TokenKind.Minus => binary Additive
  | TokenKind.Slash => binary Multiplicative
  | TokenKind.Percent => binary Modulo
  | TokenKind.Star => if infix then binary Multiplicative else postfix TypePostfix
  | TokenKind.As => binary As
  | TokenKind.Where => binary Where
  | _ => None
  end.

(** * Properties *)

Lemma forallb_all (P : t → bool) : forallb P all = true → ∀ a, P a = true.
Proof.
  intros H a. rewrite forallb_forall in H. apply H, list_elem_of_In, level_elem_of_all.
Qed.

(** Decides a universally quantified boolean statement about levels. *)
Ltac over_levels :=
  repeat match goal with
  | |- ∀ a : PrecedenceLevel.t, _ => apply forallb_all
  end; vm_compute; reflexivity.

Lemma Lookup_eq : OperatorPriorityTable = Some Lookup.
Proof. vm_compute. reflexivity. Qed.

End PrecedenceGroup.
