(* ===== verification/PrecedenceLaws.v ===== *)
(** What the operator precedence table means: the constructor's closure loop
    terminates with the transitive closure of the relation it starts from, its
    symmetric completion fails exactly on a cycle, and so [GetPriority] is the
    strict partial order generated by the rules the constructor states. *)

From S2P Require Import Prelude TokenKinds Precedence.
From stdpp Require Import relations.
Import PrecedenceLevel PrecedenceGroup.

Implicit Types (a b c : PrecedenceLevel.t) (tbl : Table).
#[local] Open Scope Z_scope.

(** * Tables *)

(** [OperatorPriority table[NumPrecedenceLevels][NumPrecedenceLevels]]. *)
Definition square tbl : Prop :=
  length tbl = length all ∧ Forall (λ row, length row = length all) tbl.

(** [a] is marked as binding more tightly than [b]. *)
Definition left_of tbl a b : Prop := get tbl a b = LeftFirst.

#[export] Instance left_of_dec tbl a b : Decision (left_of tbl a b).
Proof. unfold left_of. apply _. Defined.

Lemma is_left_spec tbl a b : is_left (get tbl a b) = true ↔ left_of tbl a b.
Proof. apply bool_decide_eq_true. Qed.

Lemma AsInt_lt a : (Z.to_nat (AsInt a) < length all)%nat.
Proof. destruct a; cbn; lia. Qed.

Lemma AsInt_nat_inj a b : Z.to_nat (AsInt a) = Z.to_nat (AsInt b) → a = b.
Proof.
  intros H. apply (enum_inj AsInt of_int level_of_int_AsInt).
  assert (∀ l : PrecedenceLevel.t, 0 ≤ AsInt l) as Hp by (intros []; cbn; lia).
  pose proof (Hp a). pose proof (Hp b). lia.
Qed.

Lemma square_set tbl a b p : square tbl → square (set tbl a b p).
Proof.
  intros [Hl Hr]. unfold set, square, Table. rewrite length_alter. split; [done|].
  apply Forall_alter; [done|]. intros row Hrow _.
  rewrite length_insert. by eapply Forall_lookup_1 in Hr.
Qed.

Lemma get_set tbl a b p a' b' :
  square tbl →
  get (set tbl a b p) a' b' = if decide (a' = a ∧ b' = b) then p else get tbl a' b'.
Proof.
  intros [Hl Hr]. unfold get, set, Table in *. rewrite !nth_lookup.
  pose proof (AsInt_lt a) as La. pose proof (AsInt_lt b) as Lb.
  destruct (lookup_lt_is_Some_2 tbl (Z.to_nat (AsInt a))) as [row Hrow]; [lia|].
  assert (length row = length all) as Hlen by by eapply Forall_lookup_1 in Hr.
  destruct (decide (a' = a)) as [->|Ha].
  - rewrite list_lookup_alter_eq, Hrow. cbn.
    destruct (decide (b' = b)) as [->|Hb].
    + rewrite list_lookup_insert_eq, decide_True by (done || lia). done.
    + rewrite list_lookup_insert_ne, decide_False by naive_solver auto using AsInt_nat_inj. done.
  - rewrite list_lookup_alter_ne, decide_False; [done|naive_solver|].
    intros H%AsInt_nat_inj. by symmetry in H.
Qed.

Lemma left_of_set tbl a b a' b' :
  square tbl →
  left_of (set tbl a b LeftFirst) a' b' ↔ (a' = a ∧ b' = b) ∨ left_of tbl a' b'.
Proof. intros H. unfold left_of. rewrite get_set by done. case_decide; naive_solver. Qed.

(** * Folds *)

Lemma foldl_inv {A B} (P : A → Prop) (f : A → B → A) l st :
  (∀ st x, x ∈ l → P st → P (f st x)) → P st → P (foldl f st l).
Proof.
  revert st. induction l as [|x l IH]; intros st Hf Hst; cbn; [done|].
  apply IH; [|apply Hf; [left|done]]. intros. apply Hf; [by right|done].
Qed.

(** A fold that never clears its flag and changes nothing without setting it. *)
Lemma foldl_unchanged {A B} (f : bool * A → B → bool * A) l st :
  (∀ st x, (f st x).1 = false → f st x = st) →
  (foldl f st l).1 = false → foldl f st l = st ∧ ∀ x, x ∈ l → f st x = st.
Proof.
  intros Hf. revert st. induction l as [|x l IH]; intros st H; cbn in *.
  { split; [done|]. intros x Hx. inversion Hx. }
  destruct (IH _ H) as [E Hl]. rewrite E in H |- *.
  apply Hf in H as Hx. rewrite Hx in *. split; [done|].
  intros y [->|Hy]%elem_of_cons; auto.
Qed.

Lemma foldl_nested {A B C} (f : A → B → C → A) l1 l2 st :
  foldl (λ st x, foldl (λ st y, f st x y) st l2) st l1 =
  foldl (λ st p, f st p.1 p.2) st (list_prod l1 l2).
Proof.
  revert st. induction l1 as [|x l1 IH]; intros st; cbn; [done|].
  rewrite foldl_app, IH. f_equal. clear. revert st.
  induction l2 as [|y l2 IH]; intros st; cbn; [done|]. apply IH.
Qed.

(** Counting the elements of a list with a property. *)
Definition count {A} (P : A → bool) (l : list A) : nat := length (List.filter P l).

Lemma count_le {A} (P Q : A → bool) l :
  (∀ x, Q x = true → P x = true) → (count Q l ≤ count P l)%nat.
Proof.
  intros H. unfold count. induction l as [|x l IH]; cbn; [done|].
  specialize (H x). destruct (Q x), (P x); cbn; lia.
Qed.

Lemma count_lt {A} (P Q : A → bool) l x :
  (∀ x, Q x = true → P x = true) → x ∈ l → P x = true → Q x = false →
  (count Q l < count P l)%nat.
Proof.
  intros H Hx HP HQ. induction l as [|y l IH]; [by inversion Hx|].
  apply elem_of_cons in Hx as [<-|Hx].
  - pose proof (count_le P Q l H) as Hle. unfold count in *. cbn. rewrite HP, HQ. cbn. lia.
  - specialize (IH Hx). unfold count in *. cbn. specialize (H y).
    destruct (Q y), (P y); cbn; lia.
Qed.

(** * [MakeTransitivelyClosed] *)

(** The entries of a table. *)
Definition pairs : list (PrecedenceLevel.t * PrecedenceLevel.t) := list_prod all all.

Lemma elem_of_pairs p : p ∈ pairs.
Proof.
  destruct p as [a b]. apply list_elem_of_In, in_prod;
    apply list_elem_of_In, level_elem_of_all.
Qed.

(** The entries still to be marked. *)
Definition unmarked tbl : nat := count (λ p, negb (is_left (get tbl p.1 p.2))) pairs.

Lemma unmarked_bound tbl : (unmarked tbl ≤ 576)%nat.
Proof.
  unfold unmarked, count. etransitivity; [apply List.filter_length_le|]. reflexivity.
Qed.

Lemma unmarked_set tbl a b :
  square tbl → ¬ left_of tbl a b → (unmarked (set tbl a b LeftFirst) < unmarked tbl)%nat.
Proof.
  intros Hs Hn. apply (count_lt _ _ _ (a, b)); [|apply elem_of_pairs|..]; cbv beta; cbn [fst snd].
  - intros [x y]; cbn [fst snd]. rewrite !negb_true_iff, <- !not_true_iff_false, !is_left_spec.
    rewrite left_of_set by done. naive_solver.
  - by rewrite negb_true_iff, <- not_true_iff_false, is_left_spec.
  - rewrite negb_false_iff. apply is_left_spec, left_of_set; auto.
Qed.

(** What the loop has made of [tbl0]: more marks, all of them implied. *)
Record closing tbl0 (st : bool * Table) : Prop := {
  closing_square : square st.2;
  closing_more : ∀ a b, left_of tbl0 a b → left_of st.2 a b;
  closing_implied : ∀ a b, left_of st.2 a b → tc (left_of tbl0) a b;
  closing_progress : (unmarked st.2 + Nat.b2n st.1 ≤ unmarked tbl0)%nat;
}.

#[local] Opaque PrecedenceLevel.all pairs.

(** The bodies of the three nested loops. *)
Definition mark_via a b (st : bool * Table) c : bool * Table :=
  if is_left (get st.2 b c) && negb (is_left (get st.2 a c))
  then (true, set st.2 a c LeftFirst) else st.
Definition mark_from a (st : bool * Table) b : bool * Table :=
  if is_left (get st.2 a b) then foldl (mark_via a b) st all else st.
Definition mark_all (st : bool * Table) a : bool * Table := foldl (mark_from a) st all.

Lemma closure_pass_folds tbl : closure_pass tbl = foldl mark_all (false, tbl) all.
Proof. unfold closure_pass, mark_all, mark_from, mark_via. reflexivity. Qed.

Lemma closure_pass_closing tbl : square tbl → closing tbl (closure_pass tbl).
Proof.
  intros Hs. rewrite closure_pass_folds.
  apply (foldl_inv (closing tbl)); [|split; cbn [fst snd Nat.b2n]; auto using tc_once; lia].
  intros st a _ Ha. apply (foldl_inv (closing tbl)); [|assumption]. intros st1 b _ Hb. unfold mark_from.
  destruct (is_left (get st1.2 a b)) eqn:Eab; [|done].
  apply is_left_spec, (closing_implied _ _ Hb) in Eab.
  apply (foldl_inv (closing tbl)); [|assumption]. intros st2 c _ Hc. unfold mark_via.
  destruct (is_left (get st2.2 b c)) eqn:Ebc; [|done].
  destruct (is_left (get st2.2 a c)) eqn:Eac; [done|]. cbn [andb negb].
  apply is_left_spec, (closing_implied _ _ Hc) in Ebc.
  assert (¬ left_of st2.2 a c) as Hn by (rewrite <- is_left_spec; by rewrite Eac).
  destruct Hc as [Hsq Hmore Himp Hprog]. split; cbn [fst snd].
  - by apply square_set.
  - intros x y Hxy. apply left_of_set; auto.
  - intros x y [[-> ->]|Hxy]%left_of_set; [by etransitivity|auto|done].
  - pose proof (unmarked_set _ _ _ Hsq Hn).
    destruct st2 as [[] t]; cbn [fst snd Nat.b2n] in *; lia.
Qed.

Lemma mark_via_unchanged a b st c : (mark_via a b st c).1 = false → mark_via a b st c = st.
Proof. unfold mark_via. by destruct (_ && _). Qed.

Lemma mark_from_unchanged a st b : (mark_from a st b).1 = false → mark_from a st b = st.
Proof.
  unfold mark_from. destruct (is_left _); [|done]. intros H.
  apply foldl_unchanged; [|done]. intros. by apply mark_via_unchanged.
Qed.

Lemma mark_all_unchanged st a : (mark_all st a).1 = false → mark_all st a = st.
Proof. intros H. apply foldl_unchanged; [|done]. intros. by apply mark_from_unchanged. Qed.

Lemma closure_pass_stable tbl tbl' :
  closure_pass tbl = (false, tbl') → tbl' = tbl ∧ Transitive (left_of tbl).
Proof.
  rewrite closure_pass_folds. intros E.
  destruct (foldl_unchanged mark_all all (false, tbl) mark_all_unchanged) as [E1 Ha];
    [by rewrite E|].
  rewrite E1 in E. injection E as <-. split; [done|].
  intros a b c Hab%is_left_spec Hbc%is_left_spec. apply is_left_spec.
  destruct (foldl_unchanged (mark_from a) all (false, tbl) (mark_from_unchanged a))
    as [_ Hb]; [by fold (mark_all (false, tbl) a); rewrite (Ha a (level_elem_of_all a))|].
  specialize (Hb b (level_elem_of_all b)). unfold mark_from in Hb. cbn [fst snd] in Hb.
  rewrite Hab in Hb.
  destruct (foldl_unchanged (mark_via a b) all (false, tbl) (mark_via_unchanged a b))
    as [_ Hc]; [by rewrite Hb|].
  specialize (Hc c (level_elem_of_all c)). unfold mark_via in Hc. cbn [fst snd] in Hc.
  rewrite Hbc in Hc. by destruct (is_left (get tbl a c)).
Qed.

Lemma MakeTransitivelyClosed_closes fuel tbl :
  square tbl → (unmarked tbl < fuel)%nat →
  ∃ tbl', MakeTransitivelyClosed fuel tbl = Some tbl' ∧ square tbl' ∧
    (∀ a b, left_of tbl a b → left_of tbl' a b) ∧
    (∀ a b, left_of tbl' a b → tc (left_of tbl) a b) ∧ Transitive (left_of tbl').
Proof.
  revert tbl. induction fuel as [|fuel IH]; intros tbl Hs Hf; [lia|]. cbn.
  pose proof (closure_pass_closing tbl Hs) as Hc.
  destruct (closure_pass tbl) as [[] t] eqn:E; destruct Hc as [Hsq Hmore Himp Hprog]; cbn [fst snd Nat.b2n] in *.
  - destruct (IH t Hsq) as (t' & Ht & Hsq' & Hmore' & Himp' & Htr); [lia|].
    exists t'. repeat split; auto; try apply Hsq'. intros a b Hab%Himp'.
    induction Hab as [x y|x y z Hxy _ IHt]; [auto|]. etransitivity; [by apply Himp|done].
  - apply closure_pass_stable in E as [-> Htr]. exists tbl. auto using tc_once.
Qed.

(** C27. The [do]-loop of [MakeTransitivelyClosed] ends on every table within
    577 passes, and the table it leaves marks exactly the transitive closure
    of the relation marked in the table it was given. *)
Theorem closure_loop_computes_tc tbl :
  square tbl →
  ∃ tbl', MakeTransitivelyClosed 577 tbl = Some tbl' ∧
    ∀ a b, left_of tbl' a b ↔ tc (left_of tbl) a b.
Proof.
  intros Hs. pose proof (unmarked_bound tbl).
  destruct (MakeTransitivelyClosed_closes 577 tbl Hs) as (t & Ht & _ & Hmore & Himp & Htr);
    [lia|].
  exists t. split; [done|]. intros a b. split; [apply Himp|].
  induction 1 as [x y|x y z Hxy _ IH]; [auto|]. etransitivity; [by apply Hmore|done].
Qed.

Lemma closure_loop_computes_tc_witness :
  ∃ tbl', MakeTransitivelyClosed 577 marked_table = Some tbl' ∧
    ∀ a b, left_of tbl' a b ↔ tc (left_of marked_table) a b.
Proof.
  apply (closure_loop_computes_tc marked_table). split; [reflexivity|].
  repeat constructor.
Defined.

(** * [MakeSymmetric] *)

(** The body of its two nested loops, on the pair of indices. *)
Definition mirror_entry (st : option Table) (p : PrecedenceLevel.t * PrecedenceLevel.t)
    : option Table :=
  tbl ← st;
  if is_left (get tbl p.1 p.2) then
    if is_left (get tbl p.2 p.1) then None else Some (set tbl p.2 p.1 RightFirst)
  else Some tbl.

Lemma MakeSymmetric_folds tbl : MakeSymmetric tbl = foldl mirror_entry (Some tbl) pairs.
Proof.
  unfold MakeSymmetric, mirror_entry. rewrite foldl_nested.
  with_strategy transparent [pairs] unfold pairs. done.
Qed.

(** The entry of the mirrored table once the pairs [done_] have been visited. *)
Definition mirrored tbl (done_ : list (PrecedenceLevel.t * PrecedenceLevel.t)) x y
    : OperatorPriority :=
  if is_left (get tbl x y) then LeftFirst
  else if bool_decide ((y, x) ∈ done_) && is_left (get tbl y x) then RightFirst
  else get tbl x y.

Lemma mirrored_left tbl done_ x y :
  mirrored tbl done_ x y = LeftFirst ↔ left_of tbl x y.
Proof.
  unfold mirrored. rewrite <- is_left_spec. destruct (is_left (get tbl x y)) eqn:E; [done|].
  destruct (_ && _); [done|]. split; [|done].
  intros H%is_left_spec. congruence.
Qed.

Lemma mirrored_app tbl done_ p x y :
  mirrored tbl (done_ ++ [p]) x y =
  if bool_decide (p = (y, x)) && is_left (get tbl y x) && negb (is_left (get tbl x y))
  then RightFirst else mirrored tbl done_ x y.
Proof.
  unfold mirrored. destruct (is_left (get tbl x y)); [by rewrite andb_false_r|].
  rewrite (bool_decide_ext ((y, x) ∈ done_ ++ [p]) ((y, x) ∈ done_ ∨ p = (y, x)))
    by set_solver.
  rewrite bool_decide_or. destruct (bool_decide (p = _)), (bool_decide (_ ∈ _)), (is_left _); done.
Qed.

(** Mirroring the pairs [todo] after [done_] fails exactly when one of them is
    marked both ways. *)
Lemma mirror_entries tbl t todo done_ :
  square t → (∀ x y, get t x y = mirrored tbl done_ x y) →
  match foldl mirror_entry (Some t) todo with
  | Some t' => (∀ x y, get t' x y = mirrored tbl (done_ ++ todo) x y) ∧
      ∀ x y, (x, y) ∈ todo → ¬ (left_of tbl x y ∧ left_of tbl y x)
  | None => ∃ x y, left_of tbl x y ∧ left_of tbl y x
  end.
Proof.
  revert t done_. induction todo as [|[a b] todo IH]; intros t done_ Hs Ht; cbn [foldl].
  { rewrite app_nil_r. split; [done|]. intros x y H. inversion H. }
  assert (∀ x y, is_left (get t x y) = true ↔ left_of tbl x y) as Hl.
  { intros x y. rewrite is_left_spec. unfold left_of at 1. rewrite Ht. apply mirrored_left. }
  assert (∀ t2, square t2 → (∀ x y, get t2 x y = mirrored tbl (done_ ++ [(a, b)]) x y) →
    ¬ (left_of tbl a b ∧ left_of tbl b a) →
    match foldl mirror_entry (Some t2) todo with
    | Some t' => (∀ x y, get t' x y = mirrored tbl (done_ ++ (a, b) :: todo) x y) ∧
        ∀ x y, (x, y) ∈ (a, b) :: todo → ¬ (left_of tbl x y ∧ left_of tbl y x)
    | None => ∃ x y, left_of tbl x y ∧ left_of tbl y x
    end) as Hnext.
  { intros t2 Hs2 Ht2 Hab. specialize (IH t2 _ Hs2 Ht2). rewrite <- app_assoc in IH.
    destruct (foldl mirror_entry (Some t2) todo) as [t'|]; [|done].
    destruct IH as [H1 H2]. split; [done|]. intros x y [[= -> ->]|Hxy]%elem_of_cons; auto. }
  unfold mirror_entry at 2. cbn [mbind option_bind fst snd].
  destruct (is_left (get t a b)) eqn:Eab; [destruct (is_left (get t b a)) eqn:Eba|].
  - assert (foldl mirror_entry None todo = None) as ->.
    { clear. induction todo; [done|]. apply IHtodo. }
    exists a, b. split; by apply Hl.
  - apply Hl in Eab. assert (¬ left_of tbl b a) as Hba by (rewrite <- Hl; congruence).
    apply Hnext; [by apply square_set| |naive_solver].
    intros x y. rewrite get_set, mirrored_app, Ht by done.
    case_decide as Hd; [destruct Hd as [-> ->]|].
    + apply is_left_spec in Eab. rewrite bool_decide_true, Eab by done.
      rewrite <- is_left_spec in Hba. by destruct (is_left (get tbl b a)).
    + rewrite bool_decide_false by naive_solver. done.
  - assert (¬ left_of tbl a b) as Hab by (rewrite <- Hl; congruence).
    apply Hnext; [done| |naive_solver].
    intros x y. rewrite mirrored_app, Ht. rewrite <- is_left_spec in Hab.
    case_bool_decide as Hd; [|done]. injection Hd as <- <-.
    by destruct (is_left (get tbl a b)).
Qed.

(** C28. [MakeSymmetric] fails its [CARBON_CHECK] exactly when two levels are
    each marked above the other; otherwise it keeps every mark, mirrors it as
    [RightFirst] and leaves the other entries alone. *)
Theorem make_symmetric_mirrors tbl :
  square tbl →
  match MakeSymmetric tbl with
  | Some t' => ∀ a b,
      get t' a b = if decide (left_of tbl a b) then LeftFirst
                   else if decide (left_of tbl b a) then RightFirst else get tbl a b
  | None => ∃ a b, left_of tbl a b ∧ left_of tbl b a
  end ∧
  (is_Some (MakeSymmetric tbl) ↔ ∀ a b, ¬ (left_of tbl a b ∧ left_of tbl b a)).
Proof.
  intros Hs. rewrite MakeSymmetric_folds.
  pose proof (mirror_entries tbl tbl pairs [] Hs) as H.
  destruct (foldl mirror_entry (Some tbl) pairs) as [t'|].
  - destruct H as [H1 H2].
    { intros x y. unfold mirrored. rewrite bool_decide_false by set_solver. cbn.
      destruct (is_left (get tbl x y)) eqn:E; [by apply is_left_spec in E|done]. }
    split.
    + intros a b. rewrite H1. unfold mirrored. cbn [app].
      rewrite bool_decide_true by apply elem_of_pairs. cbn [andb].
      unfold is_left, left_of. repeat case_decide; try done.
      all: rewrite ?bool_decide_true, ?bool_decide_false by done; done.
    + split; [intros _ a b; apply H2, elem_of_pairs|done].
  - destruct H as (a & b & Hab).
    { intros x y. unfold mirrored. rewrite bool_decide_false by set_solver. cbn.
      destruct (is_left (get tbl x y)) eqn:E; [by apply is_left_spec in E|done]. }
    split; [eauto|]. split; [by intros []|]. intros Hn. by destruct (Hn a b).
Qed.

Lemma make_symmetric_mirrors_witness :
  match MakeSymmetric marked_table with
  | Some t' => ∀ a b,
      get t' a b = if decide (left_of marked_table a b) then LeftFirst
                   else if decide (left_of marked_table b a) then RightFirst
                   else get marked_table a b
  | None => ∃ a b, left_of marked_table a b ∧ left_of marked_table b a
  end ∧
  (is_Some (MakeSymmetric marked_table) ↔
     ∀ a b, ¬ (left_of marked_table a b ∧ left_of marked_table b a)).
Proof.
  apply (make_symmetric_mirrors marked_table). split; [reflexivity|]. repeat constructor.
Defined.

(** * The order the parser uses *)

(** The rules of the [OperatorPriorityTable] constructor: every operator of
    the first group binds more tightly than every one of the second. *)
Definition rules : list (list PrecedenceLevel.t * list PrecedenceLevel.t) := [
  ([Highest], [TermPrefix; LogicalPrefix]);
  ([TermPrefix], [NumericPrefix; BitwisePrefix; IncrementDecrement]);
  ([NumericPrefix; BitwisePrefix; TypePostfix],
     [As; Multiplicative; Modulo; BitwiseAnd; BitwiseOr; BitwiseXor; BitShift]);
  ([Multiplicative], [Additive]);
  ([Additive; Modulo; BitwiseAnd; BitwiseOr; BitwiseXor; BitShift], [Relational; Where]);
  ([Relational; LogicalPrefix], [LogicalAnd; LogicalOr]);
  ([As; LogicalAnd; LogicalOr; Where], [Ref]);
  ([Ref], [If]);
  ([If], [Assignment]);
  ([Assignment; IncrementDecrement], [Lowest]);
  ([Highest], [TypePrefix]);
  ([TypePrefix], [TypePostfix])].

Definition stated_above a b : Prop := Exists (λ r, a ∈ r.1 ∧ b ∈ r.2) rules.

#[export] Instance stated_above_dec a b : Decision (stated_above a b).
Proof. unfold stated_above. apply _. Defined.

(** The reflexive-free order the rules generate. *)
Definition binds_tighter : relation PrecedenceLevel.t := tc stated_above.

Definition closed_table : Table :=
  Eval vm_compute in default [] (MakeTransitivelyClosed 577 marked_table).

Lemma marked_table_stated a b : left_of marked_table a b ↔ stated_above a b.
Proof.
  enough (bool_decide (left_of marked_table a b) = bool_decide (stated_above a b)) as H.
  { by rewrite <- (bool_decide_eq_true (left_of _ _ _)), H, bool_decide_eq_true. }
  apply (bool_decide_eq_true_1 _).
  revert b. apply forallb_all. revert a. apply forallb_all. vm_compute. reflexivity.
Qed.

Lemma closed_table_tighter a b : left_of closed_table a b ↔ binds_tighter a b.
Proof.
  assert (square marked_table) as Hs by (split; [reflexivity|repeat constructor]).
  destruct (MakeTransitivelyClosed_closes 577 marked_table Hs) as (t & Ht & _ & Hmore & Himp & Htr).
  { pose proof (unmarked_bound marked_table). lia. }
  assert (t = closed_table) as ->.
  { apply (inj Some). rewrite <- Ht. vm_compute. reflexivity. }
  assert (∀ x y, tc (left_of marked_table) x y ↔ binds_tighter x y) as Htc.
  { intros x y. split; apply (tc_congruence id); intros; by apply marked_table_stated. }
  rewrite <- Htc. split; [apply Himp|].
  induction 1 as [x y|x y z Hxy _ IH]; [auto|]. etransitivity; [by apply Hmore|done].
Qed.

(** [GetPriority] off the diagonal, by inspection of the two tables. *)
Lemma GetPriority_closed a b :
  a ≠ b →
  GetPriority a b = if decide (left_of closed_table a b) then LeftFirst
                    else if decide (left_of closed_table b a) then RightFirst
                    else Ambiguous.
Proof.
  intros Hne.
  enough (bool_decide (a = b) || bool_decide (GetPriority a b =
    if decide (left_of closed_table a b) then LeftFirst
    else if decide (left_of closed_table b a) then RightFirst else Ambiguous) = true) as H.
  { rewrite bool_decide_false in H by done. by apply bool_decide_eq_true in H. }
  clear Hne. revert b. apply forallb_all. revert a. apply forallb_all.
  vm_compute. reflexivity.
Qed.

Lemma binds_tighter_irreflexive a : ¬ binds_tighter a a.
Proof.
  rewrite <- closed_table_tighter. rewrite <- is_left_spec.
  enough (negb (is_left (get closed_table a a)) = true) as ->%negb_true_iff by done.
  revert a. apply forallb_all. vm_compute. reflexivity.
Qed.

(** C26. Between two different levels [GetPriority] is the strict partial
    order the constructor's rules generate: it says [LeftFirst] exactly when
    the left level follows from the rules to bind more tightly, [RightFirst]
    exactly when the right one does, and [Ambiguous] when neither does. *)
Theorem get_priority_is_generated_order a b :
  a ≠ b →
  (GetPriority a b = LeftFirst ↔ binds_tighter a b) ∧
  (GetPriority a b = RightFirst ↔ binds_tighter b a) ∧
  (GetPriority a b = Ambiguous ↔ ¬ binds_tighter a b ∧ ¬ binds_tighter b a) ∧
  ¬ (binds_tighter a b ∧ binds_tighter b a).
Proof.
  intros Hne.
  assert (¬ (binds_tighter a b ∧ binds_tighter b a)) as Hasym.
  { intros [H1 H2]. apply (binds_tighter_irreflexive a). by etransitivity. }
  rewrite GetPriority_closed by done. rewrite <- !closed_table_tighter in *.
  repeat case_decide; naive_solver.
Qed.

Lemma get_priority_is_generated_order_witness :
  (GetPriority Multiplicative As = LeftFirst ↔ binds_tighter Multiplicative As) ∧
  (GetPriority Multiplicative As = RightFirst ↔ binds_tighter As Multiplicative) ∧
  (GetPriority Multiplicative As = Ambiguous ↔
     ¬ binds_tighter Multiplicative As ∧ ¬ binds_tighter As Multiplicative) ∧
  ¬ (binds_tighter Multiplicative As ∧ binds_tighter As Multiplicative).
Proof. apply (get_priority_is_generated_order Multiplicative As). discriminate. Defined.
