(* ===== verification/ParseTree.v ===== *)
(** The parse tree: [Parse::Tree] of [toolchain/parse/tree.{h,cpp}], a vector
    of nodes in postorder with the packaging data the parser records beside
    it, [Tree::Verify], and the subtree sizes [TreeAndSubtrees] rebuilds from
    the node kinds ([toolchain/parse/tree_and_subtrees.cpp]). *)

From S2P Require Import Prelude TokenKinds NodeKinds Tokens.

Module NodeImpl.

(** [Tree::NodeImpl]. *)
Record t := { kind : NodeKind.t; has_error : bool; token : Z }.

(** Its constructor, with the [CARBON_DCHECK] on the token; the index is
    stored in a bit-field of [TokenIndex::Bits] bits. *)
Definition make (k : NodeKind.t) (err : bool) (tok : Z) : Result t :=
  require (0 <=? tok) ;;
  mret {| kind := k; has_error := err;
          token := tok mod 2 ^ TokenizedBuffer.TokenIndexBits |}.

Lemma make_fields k e t i :
  make k e t = Ok i → kind i = k ∧ has_error i = e.
Proof. unfold make, require. destruct (0 <=? t); [|done]. by intros [= <-]. Qed.

End NodeImpl.

Module Tree.

(** The ids [Tree] stores beside node indices: the [None] value is [-1]. *)
Definition NoneId : Z := -1.

(** [PackageNameId]: an identifier, or one of the two special names. *)
Inductive PackageNameId : Set :=
  | NoPackage
  | ForIdentifier (id : Z)
  | Core
  | Cpp.

(** [Tree::PackagingNames]. *)
Record PackagingNames := {
  node_id : Z;
  package_id : PackageNameId;
  library_id : Z;
  inline_body_id : Z;
  is_export : bool;
}.

(** [Tree::PackagingDecl]. *)
Record PackagingDecl := { names : PackagingNames; is_impl : bool }.

(** [DeferredDefinition]. *)
Record DeferredDefinition := {
  start_id : Z;
  definition_id : Z;
  next_definition_index : Z;
}.

(** [Tree]'s members. *)
Record t := {
  node_impls : list NodeImpl.t;
  packaging_decl : option PackagingDecl;
  imports : list PackagingNames;
  deferred_definitions : list DeferredDefinition;
}.

Definition empty : t :=
  {| node_impls := []; packaging_decl := None; imports := [];
     deferred_definitions := [] |}.

Definition set_node_impls (l : list NodeImpl.t) (tr : t) : t :=
  {| node_impls := l; packaging_decl := packaging_decl tr;
     imports := imports tr; deferred_definitions := deferred_definitions tr |}.
Definition set_packaging_decl (d : option PackagingDecl) (tr : t) : t :=
  {| node_impls := node_impls tr; packaging_decl := d;
     imports := imports tr; deferred_definitions := deferred_definitions tr |}.
Definition set_imports (l : list PackagingNames) (tr : t) : t :=
  {| node_impls := node_impls tr; packaging_decl := packaging_decl tr;
     imports := l; deferred_definitions := deferred_definitions tr |}.
Definition set_deferred_definitions (l : list DeferredDefinition) (tr : t) : t :=
  {| node_impls := node_impls tr; packaging_decl := packaging_decl tr;
     imports := imports tr; deferred_definitions := l |}.

(** [Tree::size], [node_kind], [node_has_error], [node_token]. *)
Definition size (tr : t) : Z := vec_size (node_impls tr).
Definition node_kind (tr : t) (n : Z) : Result NodeKind.t :=
  i ← vec_get (node_impls tr) n; mret (NodeImpl.kind i).
Definition node_has_error (tr : t) (n : Z) : Result bool :=
  i ← vec_get (node_impls tr) n; mret (NodeImpl.has_error i).
Definition node_token (tr : t) (n : Z) : Result Z :=
  i ← vec_get (node_impls tr) n; mret (NodeImpl.token i).

(** What [Tree::Verify] can report. *)
Inductive VerifyError : Set :=
  | NodeHasErrors (n : Z)
  | PlaceholderNode (n : Z)
  | TooManyNodes
  | TooFewNodes.

(** The loop of [Tree::Verify] over the nodes, from node [n] on. *)
Fixpoint VerifyNodes (has_errors : bool) (n : Z) (nodes : list NodeImpl.t)
    : option VerifyError :=
  match nodes with
  | [] => None
  | i :: nodes' =>
      if NodeImpl.has_error i && negb has_errors then Some (NodeHasErrors n)
      else if NodeKind.eqb (NodeImpl.kind i) NodeKind.Placeholder then
        Some (PlaceholderNode n)
      else VerifyNodes has_errors (n + 1) nodes'
  end.

(** [Tree::Verify], in a build without the debug-only extraction checks;
    [None] is [Success()]. *)
Definition Verify (b : TokenizedBuffer.t) (has_errors : bool) (tr : t)
    : option VerifyError :=
  match VerifyNodes has_errors 0 (node_impls tr) with
  | Some e => Some e
  | None =>
      if negb has_errors && (TokenizedBuffer.expected_max_parse_tree_size b <? size tr)
      then Some TooManyNodes
      else if negb has_errors && (size tr <? TokenizedBuffer.size b)
      then Some TooFewNodes
      else None
  end.

Lemma VerifyNodes_None e n nodes :
  VerifyNodes e n nodes = None ↔
  Forall (λ i, (NodeImpl.has_error i = true → e = true) ∧
               NodeImpl.kind i ≠ NodeKind.Placeholder) nodes.
Proof.
  revert n. induction nodes as [|i nodes IH]; intros n; cbn [VerifyNodes].
  { split; [constructor|done]. }
  rewrite Forall_cons, <- (IH (n + 1)).
  destruct (NodeKind.node_kind_eqb_spec (NodeImpl.kind i) NodeKind.Placeholder),
    (NodeImpl.has_error i), e; cbn; naive_solver.
Qed.

(** * Subtree sizes

    The loop of the [TreeAndSubtrees] constructor. The stack holds the nodes
    not yet used as children, innermost first, with their subtree sizes. *)
Record Root := { root_node : Z; root_kind : NodeKind.t; root_size : Z }.

(** The branch for a kind with a fixed child count: pops [count] children and
    checks the bracket on the last. *)
Fixpoint pop_children (count : nat) (bracket : option NodeKind.t)
    (stack : list Root) (sz : Z) : Result (Z * list Root) :=
  match count with
  | O => Ok (sz, stack)
  | S count' =>
      match stack with
      | [] => Err CheckFailed
      | child :: stack' =>
          require (match count', bracket with
                   | O, Some b => NodeKind.eqb b (root_kind child)
                   | _, _ => true
                   end) ;;
          pop_children count' bracket stack' (sz + root_size child)
      end
  end.

(** The branch for a bracketed kind: pops children up to the bracket. *)
Fixpoint pop_to_bracket (b : NodeKind.t) (stack : list Root) (sz : Z)
    : Result (Z * list Root) :=
  match stack with
  | [] => Err CheckFailed
  | child :: stack' =>
      if NodeKind.eqb b (root_kind child) then Ok (sz + root_size child, stack')
      else pop_to_bracket b stack' (sz + root_size child)
  end.

Definition add_root (n : Z) (k : NodeKind.t) (stack : list Root) : Result (list Root) :=
  '(sz, stack') ←
    match NodeKind.child_count k with
    | Some c => pop_children (Z.to_nat c) (NodeKind.bracket k) stack 1
    | None =>
        match NodeKind.bracket k with
        | Some b => pop_to_bracket b stack 1
        | None => Err CheckFailed
        end
    end;
  mret ({| root_node := n; root_kind := k; root_size := sz |} :: stack').

Fixpoint build_roots (n : Z) (nodes : list NodeImpl.t) (stack : list Root)
    : Result (list Root) :=
  match nodes with
  | [] => Ok stack
  | i :: nodes' =>
      stack' ← add_root n (NodeImpl.kind i) stack; build_roots (n + 1) nodes' stack'
  end.

(** The final check that the roots tile the tree: [n - size == prev_index]
    from the first root on. *)
Fixpoint roots_tile (prev : Z) (roots : list Root) : bool :=
  match roots with
  | [] => true
  | r :: roots' =>
      (root_node r - root_size r =? prev) && roots_tile (root_node r) roots'
  end.

(** The roots of the tree, or the failed [CARBON_CHECK] of the constructor. *)
Definition TreeAndSubtrees (tr : t) : Result (list Root) :=
  stack ← build_roots 0 (node_impls tr) [];
  match stack with
  | [] => Err OutOfRange
  | top :: _ =>
      require (root_node top =? size tr - 1) ;;
      require (roots_tile (-1) (rev stack)) ;;
      mret (rev stack)
  end.

(** ** The roots always tile

    Whatever the node kinds, if every node finds its children then the roots
    of the constructor's stack partition the postorder: the two final checks
    cannot fail on a nonempty tree. *)

(** [tiled prev l stack]: the roots of [stack] (innermost first) cover
    exactly the nodes between [prev] and [last]. *)
Fixpoint tiled (last : Z) (stack : list Root) : Prop :=
  match stack with
  | [] => last = -1
  | r :: stack' =>
      root_node r = last ∧ 1 ≤ root_size r ∧ tiled (last - root_size r) stack'
  end.

Lemma pop_children_tiled count br stack sz sz' stack' last :
  pop_children count br stack sz = Ok (sz', stack') →
  tiled last stack → sz ≤ sz' ∧ tiled (last - (sz' - sz)) stack'.
Proof.
  revert stack sz last. induction count as [|count IH]; intros stack sz last; cbn.
  { intros [= <- <-] Ht. split; [lia|]. by replace (last - (sz - sz)) with last by lia. }
  destruct stack as [|child stack]; [done|].
  rewrite result_bind_Ok. intros ([] & _ & Hpop) (Hn & Hs & Ht).
  destruct (IH _ _ _ Hpop Ht) as [Hle Ht']. split; [lia|].
  by replace (last - (sz' - sz)) with
    (last - root_size child - (sz' - (sz + root_size child))) by lia.
Qed.

Lemma pop_to_bracket_tiled b stack sz sz' stack' last :
  pop_to_bracket b stack sz = Ok (sz', stack') →
  tiled last stack → sz ≤ sz' ∧ tiled (last - (sz' - sz)) stack'.
Proof.
  revert sz last. induction stack as [|child stack IH]; intros sz last; cbn; [done|].
  destruct (NodeKind.eqb b (root_kind child)).
  - intros [= <- <-] (Hn & Hs & Ht). split; [lia|].
    by replace (last - (sz + root_size child - sz)) with (last - root_size child) by lia.
  - intros Hpop (Hn & Hs & Ht). destruct (IH _ _ Hpop Ht) as [Hle Ht'].
    split; [lia|]. by replace (last - (sz' - sz)) with
      (last - root_size child - (sz' - (sz + root_size child))) by lia.
Qed.

Lemma add_root_tiled n k stack stack' :
  add_root n k stack = Ok stack' → tiled (n - 1) stack → tiled n stack'.
Proof.
  unfold add_root. intros H Ht.
  apply result_bind_Ok in H as ([sz s'] & Hpop & H). injection H as <-. cbn.
  assert (1 ≤ sz ∧ tiled (n - 1 - (sz - 1)) s') as [Hle Ht'].
  { destruct (NodeKind.child_count k); [by eapply pop_children_tiled|].
    destruct (NodeKind.bracket k); [by eapply pop_to_bracket_tiled|done]. }
  split; [done|]. split; [done|].
  by replace (n - sz) with (n - 1 - (sz - 1)) by lia.
Qed.

Lemma build_roots_tiled n nodes stack stack' :
  build_roots n nodes stack = Ok stack' → tiled (n - 1) stack →
  tiled (n - 1 + vec_size nodes) stack'.
Proof.
  revert n stack. induction nodes as [|i nodes IH]; intros n stack; cbn [build_roots].
  { intros [= <-] Ht. unfold vec_size. cbn [length Z.of_nat]. by rewrite Z.add_0_r. }
  intros (s1 & H1 & H2)%result_bind_Ok Ht.
  apply add_root_tiled in H1; [|done].
  apply IH in H2; [|by replace (n + 1 - 1) with n by lia].
  unfold vec_size in *. cbn [length] in *. rewrite Nat2Z.inj_succ.
  by replace (n - 1 + Z.succ (Z.of_nat (length nodes)))
    with (n + 1 - 1 + Z.of_nat (length nodes)) by lia.
Qed.

Lemma tiled_roots_tile stack last :
  tiled last stack → roots_tile (-1) (rev stack) = true.
Proof.
  enough (∀ prev rest, tiled last stack → roots_tile last rest = true →
    prev = -1 → roots_tile prev (rev stack ++ rest) = true) as H.
  { intros Ht. specialize (H (-1) [] Ht eq_refl eq_refl).
    by rewrite app_nil_r in H. }
  intros prev rest Ht Hr ->. revert last rest Ht Hr.
  induction stack as [|r stack IH]; intros last rest; cbn [tiled rev].
  { by intros ->. }
  intros (Hn & Hs & Ht) Hr. rewrite <- app_assoc. cbn.
  apply (IH (last - root_size r)); [done|]. cbn.
  rewrite Hn, Z.eqb_refl. done.
Qed.

End Tree.
