(* ===== verification/Diagnostics.v ===== *)
(** The diagnostics the parser emits: one constructor per
    [CARBON_DIAGNOSTIC(Kind, Level, ...)] under [toolchain/parse/], with the
    arguments and notes of an [Emit]. Rendering them is not modelled. *)

From S2P Require Import Prelude TokenKinds.

Module DiagnosticKind.

Inductive t : Set :=
  | AnonymousBindingInStructPattern | BinaryOperatorRequiresWhitespace
  | ExpectedAfterBase | ExpectedAliasInitializer | ExpectedArrayComma
  | ExpectedAssociatedConstantColon | ExpectedAssociatedConstantIdentifier
  | ExpectedBindingName | ExpectedBindingPattern | ExpectedBuiltinName
  | ExpectedCategoryModifier | ExpectedChoiceAlternativeName
  | ExpectedChoiceDefinition | ExpectedCloseAfterUnderscore
  | ExpectedCloseSymbol | ExpectedCodeBlock | ExpectedCppAfterInline
  | ExpectedCurlyBraceAfter | ExpectedDeclName | ExpectedDeclNameAfterPeriod
  | ExpectedDeclSemi | ExpectedDeclSemiOrDefinition | ExpectedElseAfterIf
  | ExpectedExpr | ExpectedExprSemi
  | ExpectedGenericBindingPatternAfterTemplate | ExpectedIdentifierAfterEach
  | ExpectedIdentifierAfterEachInBinding | ExpectedIdentifierAfterImport
  | ExpectedIdentifierAfterPackage | ExpectedIdentifierAfterPeriodOrArrow
  | ExpectedIdentifierForFriend | ExpectedIdentifierOrSelfAfterPeriod
  | ExpectedIn | ExpectedInNotColon | ExpectedLambdaBody
  | ExpectedLambdaBodyAfterReturnType | ExpectedLibraryName
  | ExpectedLibraryNameOrDefault | ExpectedMatchCaseArrow
  | ExpectedMatchCaseBlock | ExpectedMatchCaseGuardCloseParen
  | ExpectedMatchCaseGuardOpenParen | ExpectedMatchCases
  | ExpectedMatchCasesBlock | ExpectedObserveOperator | ExpectedParenAfter
  | ExpectedPattern | ExpectedPatternConditionInitializer
  | ExpectedPeriodAfterPackage | ExpectedRequirementOperator
  | ExpectedRuntimeBindingPatternAfterRef | ExpectedStatementSemi
  | ExpectedStringAfterInline | ExpectedStringAfterInlineCpp
  | ExpectedStructLiteralField | ExpectedStructPatternDesignatedField
  | ExpectedThenAfterIf | ExpectedVarAfterReturned | ExportFromImpl
  | ExportImportPackage | FirstDecl | FirstNonCommentLine
  | ImplExpectedAfterForall | ImplExpectedAs | ImportTooLate
  | LetElseUnparenthesizedIfExpr | MissingLibraryKeyword
  | ModifierNotAllowedOnOperator | NestedStructPatternStructPatternShortField
  | NestedTuplePatternInStructPatternShortField | NestedUnused | NestedVar
  | NonRegularBindingInVarDecl | OperatorRequiresParentheses | PackageTooLate
  | PhaseKeywordInAssociatedConstant | RedundantGenericModifier
  | RedundantRuntimeModifier | RefInsideVar | RequireExpectedImpls
  | RequirementEqualAfterNonDesignator | StatementOperatorAsSubExpr
  | UnaryOperatorHasWhitespace | UnaryOperatorRequiresParentheses
  | UnaryOperatorRequiresWhitespace | UnexpectedTokenAfterListElement
  | UnexpectedTokenInCompoundMemberAccess | UnexpectedTokenInMatchCasesBlock
  | UnreachableMatchCase | UnrecognizedDecl | UnusedAfterBindingModifier.

End DiagnosticKind.

(** [Diagnostics::Level]. *)
Inductive Level : Set := LevelNote | LevelError.

(** The level each kind is declared with. *)
Definition DiagnosticLevel (k : DiagnosticKind.t) : Level :=
  match k with
  | DiagnosticKind.FirstDecl | DiagnosticKind.FirstNonCommentLine => LevelNote
  | _ => LevelError
  end.

(** A format argument: a token kind, a [BoolAsSelect] or an [IntAsSelect]. *)
Inductive DiagnosticArg : Set :=
  | ArgTokenKind (k : TokenKind.t)
  | ArgBool (b : bool)
  | ArgInt (i : Z).

Record Diagnostic := {
  diag_kind : DiagnosticKind.t;
  diag_loc : Z;
  diag_args : list DiagnosticArg;
  diag_notes : list (DiagnosticKind.t * Z);
}.

(** [ErrorTrackingConsumer::seen_error] over everything emitted. *)
Definition seen_error (ds : list Diagnostic) : bool :=
  existsb (λ d, match DiagnosticLevel (diag_kind d) with
                | LevelError => true | LevelNote => false end) ds.
