(* ===== verification/Context.v ===== *)
(** The parser's context: [Parse::Context] of
    [toolchain/parse/context.{h,cpp}], its state stack and cursor, and every
    operation the handlers are built from, in the source's order. *)

From S2P Require Import Prelude TokenKinds StateKinds NodeKinds Tokens Precedence.
From S2P Require Import ParseTree Diagnostics.

(** [BindingContext]. *)
Inductive BindingContext : Set :=
  | ExplicitParam | DeducedParam | CompileTimeEntityParam.

(** [Context::OperatorFixity], [Context::ListTokenKind] and
    [Context::PackagingState]. *)
Inductive OperatorFixity : Set := Prefix | Infix | Postfix.
Inductive ListTokenKind : Set := Comma | Close | CommaClose.
Inductive PackagingState : Set :=
  | FileStart | InImports | AfterNonPackagingDecl | InImportsAfterNonPackagingDecl.

#[export] Instance BindingContext_eq_dec : EqDecision BindingContext.
Proof. solve_decision. Defined.
#[export] Instance OperatorFixity_eq_dec : EqDecision OperatorFixity.
Proof. solve_decision. Defined.
#[export] Instance ListTokenKind_eq_dec : EqDecision ListTokenKind.
Proof. solve_decision. Defined.
#[export] Instance PackagingState_eq_dec : EqDecision PackagingState.
Proof. solve_decision. Defined.

Module State.

(** [Context::State]. *)
Record t := mk {
  kind : StateKind.t;
  has_error : bool;
  in_var_pattern : bool;
  in_unused_pattern : bool;
  in_field_shorthand_pattern : bool;
  binding_context : BindingContext;
  ambient_precedence : PrecedenceLevel.t;
  lhs_precedence : PrecedenceLevel.t;
  token : Z;
  subtree_start : Z;
}.

Definition set_kind (k : StateKind.t) (s : t) : t :=
  mk k (has_error s) (in_var_pattern s) (in_unused_pattern s)
     (in_field_shorthand_pattern s) (binding_context s) (ambient_precedence s)
     (lhs_precedence s) (token s) (subtree_start s).
Definition set_has_error (e : bool) (s : t) : t :=
  mk (kind s) e (in_var_pattern s) (in_unused_pattern s)
     (in_field_shorthand_pattern s) (binding_context s) (ambient_precedence s)
     (lhs_precedence s) (token s) (subtree_start s).
Definition set_in_field_shorthand_pattern (e : bool) (s : t) : t :=
  mk (kind s) (has_error s) (in_var_pattern s) (in_unused_pattern s) e
     (binding_context s) (ambient_precedence s) (lhs_precedence s) (token s)
     (subtree_start s).
Definition set_in_var_pattern (e : bool) (s : t) : t :=
  mk (kind s) (has_error s) e (in_unused_pattern s)
     (in_field_shorthand_pattern s) (binding_context s) (ambient_precedence s)
     (lhs_precedence s) (token s) (subtree_start s).
Definition set_lhs_precedence (p : PrecedenceLevel.t) (s : t) : t :=
  mk (kind s) (has_error s) (in_var_pattern s) (in_unused_pattern s)
     (in_field_shorthand_pattern s) (binding_context s) (ambient_precedence s)
     p (token s) (subtree_start s).
Definition set_ambient_precedence (p : PrecedenceLevel.t) (s : t) : t :=
  mk (kind s) (has_error s) (in_var_pattern s) (in_unused_pattern s)
     (in_field_shorthand_pattern s) (binding_context s) p (lhs_precedence s)
     (token s) (subtree_start s).
Definition set_token (tok : Z) (s : t) : t :=
  mk (kind s) (has_error s) (in_var_pattern s) (in_unused_pattern s)
     (in_field_shorthand_pattern s) (binding_context s) (ambient_precedence s)
     (lhs_precedence s) tok (subtree_start s).

(** A state with the members' default initialisers. *)
Definition default (k : StateKind.t) (tok start : Z) : t :=
  mk k false false false false ExplicitParam PrecedenceGroup.ForTopLevelExpr
     PrecedenceGroup.ForTopLevelExpr tok start.

End State.

(** [Context]'s members. [end_] is the index of the [FileEnd] token, fixed by
    the constructor; the top of [state_stack_] is the head of the list. The
    emitter's output is the log of the monad. *)
Record Context := mkContext {
  tokens_ : TokenizedBuffer.t;
  tree_ : Tree.t;
  position_ : Z;
  end_ : Z;
  state_stack_ : list State.t;
  deferred_definition_stack_ : list Z;
  packaging_state_ : PackagingState;
  first_non_packaging_token_ : Z;
}.

Definition set_tokens v (c : Context) : Context :=
  mkContext v (tree_ c) (position_ c) (end_ c) (state_stack_ c)
    (deferred_definition_stack_ c) (packaging_state_ c) (first_non_packaging_token_ c).
Definition set_tree v (c : Context) : Context :=
  mkContext (tokens_ c) v (position_ c) (end_ c) (state_stack_ c)
    (deferred_definition_stack_ c) (packaging_state_ c) (first_non_packaging_token_ c).
Definition set_position v (c : Context) : Context :=
  mkContext (tokens_ c) (tree_ c) v (end_ c) (state_stack_ c)
    (deferred_definition_stack_ c) (packaging_state_ c) (first_non_packaging_token_ c).
Definition set_state_stack v (c : Context) : Context :=
  mkContext (tokens_ c) (tree_ c) (position_ c) (end_ c) v
    (deferred_definition_stack_ c) (packaging_state_ c) (first_non_packaging_token_ c).
Definition set_deferred_definition_stack v (c : Context) : Context :=
  mkContext (tokens_ c) (tree_ c) (position_ c) (end_ c) (state_stack_ c)
    v (packaging_state_ c) (first_non_packaging_token_ c).
Definition set_packaging_state_ v (c : Context) : Context :=
  mkContext (tokens_ c) (tree_ c) (position_ c) (end_ c) (state_stack_ c)
    (deferred_definition_stack_ c) v (first_non_packaging_token_ c).
Definition set_first_non_packaging_token_ v (c : Context) : Context :=
  mkContext (tokens_ c) (tree_ c) (position_ c) (end_ c) (state_stack_ c)
    (deferred_definition_stack_ c) (packaging_state_ c) v.

Definition M : Type → Type := Action Context Diagnostic.

(** The constructor, on an empty tree. *)
Definition initial (b : TokenizedBuffer.t) : Result Context :=
  require (negb (TokenizedBuffer.tokens_end b =? 0)) ;;
  let end_ := TokenizedBuffer.tokens_end b - 1 in
  k ← TokenizedBuffer.GetKind b end_;
  require (TokenKind.eqb k TokenKind.FileEnd) ;;
  mret (mkContext b Tree.empty 0 end_ [] [] FileStart TokenizedBuffer.NoneToken).

(** * Reading the context *)

Definition position : M Z := gets position_.
Definition at_end : M bool := gets (λ c, position_ c =? end_ c).
Definition tree_size : M Z := gets (λ c, Tree.size (tree_ c)).
Definition tree : M Tree.t := gets tree_.
Definition state_stack : M (list State.t) := gets state_stack_.
Definition packaging_state : M PackagingState := gets packaging_state_.
Definition first_non_packaging_token : M Z := gets first_non_packaging_token_.

(** Queries of the token buffer. *)
Definition tokens {A} (q : TokenizedBuffer.t → Result A) : M A :=
  lift_result (λ c, q (tokens_ c)).
Definition GetKind (t : Z) : M TokenKind.t := tokens (λ b, TokenizedBuffer.GetKind b t).
Definition GetLine (t : Z) : M Z := tokens (λ b, TokenizedBuffer.GetLine b t).
Definition GetMatchedClosingToken (t : Z) : M Z :=
  tokens (λ b, TokenizedBuffer.GetMatchedClosingToken b t).

(** Queries of the tree. *)
Definition node_kind (n : Z) : M NodeKind.t :=
  lift_result (λ c, Tree.node_kind (tree_ c) n).
Definition node_has_error (n : Z) : M bool :=
  lift_result (λ c, Tree.node_has_error (tree_ c) n).
Definition node_token (n : Z) : M Z :=
  lift_result (λ c, Tree.node_token (tree_ c) n).

(** * Diagnostics *)

Definition Emit (k : DiagnosticKind.t) (loc : Z) (args : list DiagnosticArg) : M unit :=
  tell {| diag_kind := k; diag_loc := loc; diag_args := args; diag_notes := [] |}.

(** [emitter().Build(...).Note(...).Emit()]. *)
Definition EmitWithNote (k : DiagnosticKind.t) (loc : Z) (args : list DiagnosticArg)
    (note : DiagnosticKind.t) (note_loc : Z) : M unit :=
  tell {| diag_kind := k; diag_loc := loc; diag_args := args;
          diag_notes := [(note, note_loc)] |}.

(** Emits at the current position. *)
Definition EmitHere (k : DiagnosticKind.t) (args : list DiagnosticArg) : M unit :=
  p ← position; Emit k p args.

(** * Nodes *)

Definition is_invalid_kind (k : NodeKind.t) : bool :=
  NodeKind.eqb k NodeKind.InvalidParse || NodeKind.eqb k NodeKind.InvalidParseStart ||
  NodeKind.eqb k NodeKind.InvalidParseSubtree.

Definition push_node (i : NodeImpl.t) (c : Context) : Context :=
  set_tree (Tree.set_node_impls (Tree.node_impls (tree_ c) ++ [i]) (tree_ c)) c.

(** [Context::AddNode]. *)
Definition AddNode (k : NodeKind.t) (t : Z) (has_error : bool) : M unit :=
  check (has_error || negb (is_invalid_kind k)) ;;
  i ← lift_result (λ _, NodeImpl.make k has_error t);
  modify (push_node i).

(** [Context::AddNode<Kind>], which returns the node's id. *)
Definition AddNodeId (k : NodeKind.t) (t : Z) (has_error : bool) : M Z :=
  AddNode k t has_error ;; n ← tree_size; mret (n - 1).

(** [Context::AddLeafNode] without and with its [has_error] argument. *)
Definition AddLeafNode (k : NodeKind.t) (t : Z) : M unit := AddNode k t false.
Definition AddLeafNodeWithError (k : NodeKind.t) (t : Z) (has_error : bool) : M unit :=
  AddNode k t has_error.

(** [Context::AddInvalidParse]. *)
Definition AddInvalidParse (t : Z) : M unit := AddNode NodeKind.InvalidParse t true.

Definition set_node (n : Z) (i : NodeImpl.t) (c : Context) : Context :=
  set_tree (Tree.set_node_impls (vec_set (Tree.node_impls (tree_ c)) n i) (tree_ c)) c.

(** [Context::ReplacePlaceholderNode]. *)
Definition ReplacePlaceholderNode (n : Z) (k : NodeKind.t) (t : Z) (has_error : bool)
    : M unit :=
  check (negb (NodeKind.eqb k NodeKind.InvalidParse) &&
         negb (NodeKind.eqb k NodeKind.InvalidParseSubtree)) ;;
  sz ← tree_size;
  check ((0 <=? n) && (n <? sz)) ;;
  old ← node_kind n;
  check (NodeKind.eqb old NodeKind.Placeholder) ;;
  i ← lift_result (λ _, NodeImpl.make k has_error t);
  modify (set_node n i).

(** [Context::ReplaceIntroducerNode]. *)
Definition ReplaceIntroducerNode (n : Z) (old_kind new_kind : NodeKind.t) : M unit :=
  sz ← tree_size;
  check ((0 <=? n) && (n <? sz)) ;;
  old ← node_kind n;
  check (NodeKind.eqb old old_kind) ;;
  e ← node_has_error n;
  t ← node_token n;
  i ← lift_result (λ _, NodeImpl.make new_kind e t);
  modify (set_node n i).

(** * The cursor *)

(** [Context::Consume] and [Context::ConsumeAndDiscard]. *)
Definition Consume : M Z :=
  p ← position; modify (set_position (p + 1)) ;; mret p.
Definition ConsumeAndDiscard : M unit :=
  p ← position; modify (set_position (p + 1)).

(** [Context::PositionKind] and [Context::PositionIs], with their lookahead. *)
Definition PositionKindAhead (lookahead : Z) : M TokenKind.t :=
  p ← position; GetKind (p + lookahead).
Definition PositionKind : M TokenKind.t := PositionKindAhead 0.
Definition PositionIsAhead (k : TokenKind.t) (lookahead : Z) : M bool :=
  k' ← PositionKindAhead lookahead; mret (TokenKind.eqb k' k).
Definition PositionIs (k : TokenKind.t) : M bool := PositionIsAhead k 0.

(** [Context::ConsumeIf]. *)
Definition ConsumeIf (k : TokenKind.t) : M (option Z) :=
  b ← PositionIs k; if (b : bool) then t ← Consume; mret (Some t) else mret None.

(** [Context::ConsumeChecked]. *)
Definition ConsumeChecked (k : TokenKind.t) : M Z :=
  b ← PositionIs k; check b ;; Consume.

(** [Context::ConsumeAndAddLeafNodeIf]. *)
Definition ConsumeAndAddLeafNodeIf (tk : TokenKind.t) (nk : NodeKind.t) : M bool :=
  t ← ConsumeIf tk;
  match t with
  | Some t => AddLeafNode nk t ;; mret true
  | None => mret false
  end.

(** [Context::ConsumeAndAddOpenCurlyBrace] and [ConsumeAndAddOpenParen]. *)
Definition ConsumeAndAddOpen (open : TokenKind.t) (diag : DiagnosticKind.t)
    (default_token : Z) (start_kind : NodeKind.t) : M (option Z) :=
  t ← ConsumeIf open;
  match t with
  | Some open_token => AddLeafNode start_kind open_token ;; mret (Some open_token)
  | None =>
      k ← GetKind default_token;
      EmitHere diag [ArgTokenKind k] ;;
      AddLeafNodeWithError start_kind default_token true ;;
      mret None
  end.
Definition ConsumeAndAddOpenCurlyBrace (default_token : Z) (start_kind : NodeKind.t)
    : M (option Z) :=
  ConsumeAndAddOpen TokenKind.OpenCurlyBrace DiagnosticKind.ExpectedCurlyBraceAfter
    default_token start_kind.
Definition ConsumeAndAddOpenParen (default_token : Z) (start_kind : NodeKind.t)
    : M (option Z) :=
  ConsumeAndAddOpen TokenKind.OpenParen DiagnosticKind.ExpectedParenAfter
    default_token start_kind.

(** [Context::SkipTo]. *)
Definition SkipTo (t : Z) : M unit :=
  p ← position;
  check (p <=? t) ;;
  modify (set_position t) ;;
  e ← at_end;
  check (negb e).

(** [Context::ConsumeAndAddCloseSymbol]. *)
Definition ConsumeAndAddCloseSymbol (state : State.t) (close_kind : NodeKind.t) : M unit :=
  open_token_kind ← GetKind (State.token state);
  if negb (TokenKind.is_opening_symbol open_token_kind) then
    AddNode close_kind (State.token state) true
  else
    let closing := TokenKind.closing_symbol open_token_kind in
    t ← ConsumeIf closing;
    match t with
    | Some close_token => AddNode close_kind close_token (State.has_error state)
    | None =>
        EmitHere DiagnosticKind.ExpectedCloseSymbol [ArgTokenKind closing] ;;
        t ← GetMatchedClosingToken (State.token state);
        SkipTo t ;;
        t ← Consume;
        AddNode close_kind t true
    end.

(** * Scanning ahead *)

(** The loop of [Context::FindNextOf] from [new_position]. *)
Fixpoint find_next_of (fuel : nat) (b : TokenizedBuffer.t)
    (desired : list TokenKind.t) (new_position : Z) : Result (option Z) :=
  match fuel with
  | O => Err OutOfFuel
  | S fuel' =>
      k ← TokenizedBuffer.GetKind b new_position;
      if TokenKind.IsOneOf k desired then mret (Some new_position)
      else if TokenKind.is_closing_symbol k || TokenKind.eqb k TokenKind.FileEnd
      then mret None
      else if TokenKind.is_opening_symbol k then
        close ← TokenizedBuffer.GetMatchedClosingToken b new_position;
        find_next_of fuel' b desired (close + 1)
      else find_next_of fuel' b desired (new_position + 1)
  end.

(** One step per remaining token. *)
Definition scan_fuel (b : TokenizedBuffer.t) : nat :=
  S (length (TokenizedBuffer.token_infos b)).

Definition FindNextOf (desired : list TokenKind.t) : M (option Z) :=
  lift_result (λ c,
    find_next_of (scan_fuel (tokens_ c)) (tokens_ c) desired (position_ c)).

(** [Context::SkipMatchingGroup]. *)
Definition SkipMatchingGroup : M bool :=
  k ← PositionKind;
  if negb (TokenKind.is_opening_symbol k) then mret false
  else
    p ← position;
    t ← GetMatchedClosingToken p;
    SkipTo t ;;
    ConsumeAndDiscard ;;
    mret true.

(** The lambda [keep_scanning] of [SkipPastLikelyEnd]. *)
Definition keep_scanning (root_line_indent t : Z) : M bool :=
  line ← GetLine t;
  indent ← tokens (λ b, TokenizedBuffer.GetIndentColumnNumber b line);
  column ← tokens (λ b, TokenizedBuffer.GetColumnNumber b t);
  mret ((indent <? column) || (root_line_indent <? indent)).

(** The condition of the [do]-loop, then the next iteration or the result. *)
Definition skip_continue (root_line_indent : Z) (next : M Z) : M Z :=
  e ← at_end;
  if (e : bool) then p ← position; mret (p - 1)
  else
    p ← position;
    go ← keep_scanning root_line_indent p;
    if (go : bool) then next else mret (p - 1).

(** The [do]-loop of [Context::SkipPastLikelyEnd]. *)
Fixpoint skip_loop (fuel : nat) (root_line_indent : Z) : M Z :=
  match fuel with
  | O => action_fail OutOfFuel
  | S fuel' =>
      close ← PositionIs TokenKind.CloseCurlyBrace;
      if (close : bool) then p ← position; mret (p - 1)
      else
        semi ← ConsumeIf TokenKind.Semi;
        match semi with
        | Some semi => mret semi
        | None =>
            skipped ← SkipMatchingGroup;
            (if (skipped : bool) then mret tt else ConsumeAndDiscard) ;;
            skip_continue root_line_indent (skip_loop fuel' root_line_indent)
        end
  end.

(** [Context::SkipPastLikelyEnd]. *)
Definition SkipPastLikelyEnd (skip_root : Z) : M Z :=
  e ← at_end;
  if (e : bool) then p ← position; mret (p - 1)
  else
    line ← GetLine skip_root;
    root_line_indent ← tokens (λ b, TokenizedBuffer.GetIndentColumnNumber b line);
    fuel ← gets (λ c, scan_fuel (tokens_ c));
    skip_loop fuel root_line_indent.

(** * Operator fixity *)

(** The three operand classifications. *)
Definition IsAssumedStartOfOperand (k : TokenKind.t) : bool :=
  TokenKind.IsOneOf k
    [TokenKind.OpenParen; TokenKind.Identifier; TokenKind.IntLiteral;
     TokenKind.RealLiteral; TokenKind.StringLiteral].
Definition IsAssumedEndOfOperand (k : TokenKind.t) : bool :=
  TokenKind.IsOneOf k
    [TokenKind.CloseParen; TokenKind.CloseCurlyBrace; TokenKind.CloseSquareBracket;
     TokenKind.Identifier; TokenKind.IntLiteral; TokenKind.RealLiteral;
     TokenKind.StringLiteral].
Definition IsPossibleStartOfOperand (k : TokenKind.t) : bool :=
  negb (TokenKind.IsOneOf k
    [TokenKind.CloseParen; TokenKind.CloseCurlyBrace; TokenKind.CloseSquareBracket;
     TokenKind.Comma; TokenKind.Semi; TokenKind.Colon]).

Definition HasLeadingWhitespace (t : Z) : M bool :=
  tokens (λ b, TokenizedBuffer.HasLeadingWhitespace b t).
Definition HasTrailingWhitespace (t : Z) : M bool :=
  tokens (λ b, TokenizedBuffer.HasTrailingWhitespace b t).

(** [Context::IsLexicallyValidInfixOperator]. *)
Definition IsLexicallyValidInfixOperator : M bool :=
  e ← at_end;
  check (negb e) ;;
  p ← position;
  leading_space ← HasLeadingWhitespace p;
  trailing_space ← HasTrailingWhitespace p;
  if leading_space && trailing_space then mret true
  else if leading_space || trailing_space then mret false
  else if p =? 0 then mret false
  else
    before ← GetKind (p - 1);
    if negb (IsAssumedEndOfOperand before) then mret false
    else
      after ← GetKind (p + 1);
      mret (IsAssumedStartOfOperand after).

(** [Context::IsTrailingOperatorInfix]. *)
Definition IsTrailingOperatorInfix : M bool :=
  e ← at_end;
  if (e : bool) then mret false
  else
    p ← position;
    valid ← IsLexicallyValidInfixOperator;
    possible ←
      (if (valid : bool) then
         k ← GetKind (p + 1); mret (IsPossibleStartOfOperand k)
       else mret false);
    if (possible : bool) then mret true
    else
      leading_space ← HasLeadingWhitespace p;
      if negb leading_space then mret false
      else k ← GetKind (p + 1); mret (IsAssumedStartOfOperand k).

(** [Context::DiagnoseOperatorFixity]. *)
Definition DiagnoseOperatorFixity (fixity : OperatorFixity) : M unit :=
  k ← PositionKind;
  if negb (TokenKind.is_symbol k) then mret tt
  else
    p ← position;
    if bool_decide (fixity = Infix) then
      valid ← IsLexicallyValidInfixOperator;
      if negb valid then
        leading_space ← HasLeadingWhitespace p;
        pos ← (if (leading_space : bool) then mret 1
               else trailing_space ← HasTrailingWhitespace p;
                    mret (if (trailing_space : bool) then -1 else 0));
        Emit DiagnosticKind.BinaryOperatorRequiresWhitespace p [ArgInt pos]
      else mret tt
    else
      let prefix := bool_decide (fixity = Prefix) in
      space ← (if (prefix : bool) then HasTrailingWhitespace p else HasLeadingWhitespace p);
      if (space : bool) then
        Emit DiagnosticKind.UnaryOperatorHasWhitespace p [ArgBool prefix]
      else
        valid ← IsLexicallyValidInfixOperator;
        if (valid : bool) then
          Emit DiagnosticKind.UnaryOperatorRequiresWhitespace p [ArgBool prefix]
        else mret tt.

(** * The state stack *)

(** [Context::PopState] and [Context::PopAndDiscardState]. *)
Definition PopState : M State.t :=
  λ c, match state_stack_ c with
       | s :: rest => Ok (s, set_state_stack rest c, [])
       | [] => Err EmptyStack
       end.
Definition PopAndDiscardState : M unit := PopState ;; mret tt.

(** The stack bound [PushState] checks. *)
Definition MaxStateStack : Z := 2 ^ 20.

(** [Context::PushState(State)]. *)
Definition PushStateVal (s : State.t) : M unit :=
  modify (λ c, set_state_stack (s :: state_stack_ c) c) ;;
  stack ← state_stack;
  check (vec_size stack <? MaxStateStack).

(** [Context::PushState(State, StateKind)]. *)
Definition PushStateAs (s : State.t) (k : StateKind.t) : M unit :=
  PushStateVal (State.set_kind k s).

(** [Context::PushState(StateKind, TokenIndex)] and the overloads with a
    binding context and with the current position. *)
Definition PushStateAt (k : StateKind.t) (t : Z) : M unit :=
  start ← tree_size; PushStateVal (State.default k t start).
Definition PushStateIn (k : StateKind.t) (t : Z) (bc : BindingContext) : M unit :=
  start ← tree_size;
  PushStateVal (State.mk k false false false false bc PrecedenceGroup.ForTopLevelExpr
                  PrecedenceGroup.ForTopLevelExpr t start).
Definition PushState (k : StateKind.t) : M unit :=
  p ← position; PushStateAt k p.

(** [Context::PushStateForExpr], [PushStateForExprLoop],
    [PushStateForPattern]. *)
Definition PushStateForExpr (ambient : PrecedenceLevel.t) : M unit :=
  p ← position; start ← tree_size;
  PushStateVal (State.mk StateKind.Expr false false false false ExplicitParam
                  ambient PrecedenceGroup.ForTopLevelExpr p start).
Definition PushStateForExprLoop (k : StateKind.t) (ambient lhs : PrecedenceLevel.t) : M unit :=
  p ← position; start ← tree_size;
  PushStateVal (State.mk k false false false false ExplicitParam ambient lhs p start).
Definition PushStateForPattern (k : StateKind.t)
    (in_var_pattern in_unused_pattern in_field_shorthand_pattern : bool)
    (bc : BindingContext) (precedence : PrecedenceLevel.t) : M unit :=
  p ← position; start ← tree_size;
  PushStateVal (State.mk k false in_var_pattern in_unused_pattern
                  in_field_shorthand_pattern bc precedence
                  PrecedenceGroup.ForTopLevelExpr p start).

(** Updates [state_stack_.back()]. *)
Definition modify_top (f : State.t → State.t) : M unit :=
  λ c, match state_stack_ c with
       | s :: rest => Ok (tt, set_state_stack (f s :: rest) c, [])
       | [] => Err EmptyStack
       end.

(** [Context::ReturnErrorOnState]. *)
Definition ReturnErrorOnState : M unit := modify_top (State.set_has_error true).

(** * Lists and declarations *)

(** [Context::ConsumeListToken]. *)
Definition ConsumeListToken (comma_kind : NodeKind.t) (close_kind : TokenKind.t)
    (already_has_error : bool) : M ListTokenKind :=
  is_comma ← PositionIs TokenKind.Comma;
  is_close ← PositionIs close_kind;
  (if negb is_comma && negb is_close then
     when (negb already_has_error)
       (EmitHere DiagnosticKind.UnexpectedTokenAfterListElement
          [ArgTokenKind close_kind] ;;
        ReturnErrorOnState) ;;
     end_of_element ← FindNextOf [TokenKind.Comma; close_kind];
     match end_of_element with
     | Some t => SkipTo t
     | None => action_fail CheckFailed
     end
   else mret tt) ;;
  is_close ← PositionIs close_kind;
  if (is_close : bool) then mret Close
  else
    t ← Consume;
    AddLeafNodeWithError comma_kind t (NodeKind.eqb comma_kind NodeKind.InvalidParse) ;;
    is_close ← PositionIs close_kind;
    mret (if (is_close : bool) then CommaClose else Comma).

(** [Context::RecoverFromDeclError]. *)
Definition RecoverFromDeclError (state : State.t) (nk : NodeKind.t)
    (skip_past_likely_end : bool) : M unit :=
  t ← (if skip_past_likely_end then SkipPastLikelyEnd (State.token state)
       else mret (State.token state));
  AddNode nk t true.

(** [Context::DiagnoseExpectedDeclSemi] and
    [Context::DiagnoseExpectedDeclSemiOrDefinition]. *)
Definition DiagnoseExpectedDeclSemi (expected_kind : TokenKind.t) : M unit :=
  EmitHere DiagnosticKind.ExpectedDeclSemi [ArgTokenKind expected_kind].
Definition DiagnoseExpectedDeclSemiOrDefinition (expected_kind : TokenKind.t) : M unit :=
  EmitHere DiagnosticKind.ExpectedDeclSemiOrDefinition [ArgTokenKind expected_kind].

(** [Context::AddNodeExpectingDeclSemi]. *)
Definition AddNodeExpectingDeclSemi (state : State.t) (nk : NodeKind.t)
    (decl_kind : TokenKind.t) (is_def_allowed : bool) : M unit :=
  if State.has_error state then RecoverFromDeclError state nk true
  else
    semi ← ConsumeIf TokenKind.Semi;
    match semi with
    | Some semi => AddNode nk semi false
    | None =>
        (if is_def_allowed then DiagnoseExpectedDeclSemiOrDefinition decl_kind
         else DiagnoseExpectedDeclSemi decl_kind) ;;
        RecoverFromDeclError state nk true
    end.

(** [Context::ParseLibraryName]; [None] is [std::nullopt] and [Some NoneId]
    the id of [default]. *)
Definition ParseLibraryName (accept_default : bool) : M (option Z) :=
  library_name_token ← ConsumeIf TokenKind.StringLiteral;
  match library_name_token with
  | Some t =>
      AddLeafNode NodeKind.LibraryName t ;;
      id ← tokens (λ b, TokenizedBuffer.GetStringLiteralValue b t);
      mret (Some id)
  | None =>
      default_token ←
        (if accept_default then ConsumeIf TokenKind.Default else mret None);
      match default_token with
      | Some t => AddLeafNode NodeKind.DefaultLibrary t ;; mret (Some Tree.NoneId)
      | None =>
          EmitHere (if accept_default then DiagnosticKind.ExpectedLibraryNameOrDefault
                    else DiagnosticKind.ExpectedLibraryName) [] ;;
          mret None
      end
  end.

(** [Context::ParseLibrarySpecifier]. *)
Definition ParseLibrarySpecifier (accept_default : bool) : M (option Z) :=
  library_token ← ConsumeChecked TokenKind.Library;
  library_id ← ParseLibraryName accept_default;
  when (negb (is_some library_id))
    (p ← position; AddLeafNodeWithError NodeKind.LibraryName p true) ;;
  AddNode NodeKind.LibrarySpecifier library_token false ;;
  mret library_id.

(** [Context::set_packaging_decl], [AddImport], [set_packaging_state] and
    [set_first_non_packaging_token]. *)
Definition set_packaging_decl (names : Tree.PackagingNames) (is_impl : bool) : M unit :=
  tr ← tree;
  check (negb (is_some (Tree.packaging_decl tr))) ;;
  modify (set_tree (Tree.set_packaging_decl
    (Some {| Tree.names := names; Tree.is_impl := is_impl |}) tr)).
Definition AddImport (package : Tree.PackagingNames) : M unit :=
  tr ← tree; modify (set_tree (Tree.set_imports (Tree.imports tr ++ [package]) tr)).
Definition set_packaging_state (s : PackagingState) : M unit :=
  modify (set_packaging_state_ s).
Definition set_first_non_packaging_token (t : Z) : M unit :=
  old ← first_non_packaging_token;
  check (old =? TokenizedBuffer.NoneToken) ;;
  modify (set_first_non_packaging_token_ t).

(** * Deferred definitions *)

(** [ParsingInDeferredDefinitionScope]. *)
Definition is_deferred_scope_loop (k : StateKind.t) : bool :=
  match k with
  | StateKind.DeclScopeLoopAsClass | StateKind.DeclScopeLoopAsInterface
  | StateKind.DeclScopeLoopAsRegular | StateKind.DeclScopeLoopAsUnion => true
  | _ => false
  end.
Definition is_deferred_definition_finish (k : StateKind.t) : bool :=
  match k with
  | StateKind.DeclDefinitionFinishAsClass | StateKind.DeclDefinitionFinishAsImpl
  | StateKind.DeclDefinitionFinishAsInterface
  | StateKind.DeclDefinitionFinishAsNamedConstraint
  | StateKind.DeclDefinitionFinishAsUnion => true
  | _ => false
  end.
Definition ParsingInDeferredDefinitionScope : M bool :=
  stack ← state_stack;
  mret match stack with
       | back :: below :: _ =>
           is_deferred_scope_loop (State.kind back) &&
           is_deferred_definition_finish (State.kind below)
       | _ => false
       end.

(** [Context::AddFunctionDefinitionStart]. *)
Definition AddFunctionDefinitionStart (t : Z) (has_error : bool) : M unit :=
  start_id ← AddNodeId NodeKind.FunctionDefinitionStart t has_error;
  deferred ← ParsingInDeferredDefinitionScope;
  when deferred
    (tr ← tree;
     let defs := Tree.deferred_definitions tr in
     modify (set_tree (Tree.set_deferred_definitions
       (defs ++ [{| Tree.start_id := start_id; Tree.definition_id := Tree.NoneId;
                    Tree.next_definition_index := Tree.NoneId |}]) tr)) ;;
     modify (λ c, set_deferred_definition_stack
       (vec_size defs :: deferred_definition_stack_ c) c)).

(** [deferred_definition_stack_.pop_back_val()]. *)
Definition PopDeferredDefinition : M Z :=
  λ c, match deferred_definition_stack_ c with
       | i :: rest => Ok (i, set_deferred_definition_stack rest c, [])
       | [] => Err EmptyStack
       end.

(** The tail shared by the two functions below: completes the innermost
    deferred definition. *)
Definition finish_deferred_definition (definition_id : Z) : M unit :=
  deferred ← ParsingInDeferredDefinitionScope;
  when deferred
    (definition_index ← PopDeferredDefinition;
     tr ← tree;
     let defs := Tree.deferred_definitions tr in
     d ← lift_result (λ _, vec_get defs definition_index);
     modify (set_tree (Tree.set_deferred_definitions
       (vec_set defs definition_index
          {| Tree.start_id := Tree.start_id d; Tree.definition_id := definition_id;
             Tree.next_definition_index := vec_size defs |}) tr))).

(** [Context::AddFunctionDefinition] and [AddFunctionTerseDefinition]. *)
Definition AddFunctionDefinition (t : Z) (has_error : bool) : M unit :=
  definition_id ← AddNodeId NodeKind.FunctionDefinition t has_error;
  finish_deferred_definition definition_id.
Definition AddFunctionTerseDefinition (t : Z) (has_error : bool) : M unit :=
  definition_id ← AddNodeId NodeKind.FunctionTerseDefinition t has_error;
  finish_deferred_definition definition_id.

(** [tokens().AddPostLexingRecoveryTokenAsIdentifier(token)]. *)
Definition AddPostLexingRecoveryTokenAsIdentifier (t : Z) : M Z :=
  r ← tokens (λ b, TokenizedBuffer.AddPostLexingRecoveryTokenAsIdentifier b t);
  modify (set_tokens r.2) ;;
  mret r.1.
