(* ===== verification/Nesting.v ===== *)
(** How the parser's state stack fits the token stream: the invariant and the
    measure of the state loop. Some states wait for the end of a bracketed
    group, and the states above them stop at it; some states are pushed to
    handle the very token the cursor is on. The measure counts the tokens left,
    the work that every state on the stack stands for, and a surplus for the
    first state from the top that cannot finish without consuming a token. *)

From S2P Require Import Prelude TokenKinds StateKinds Tokens Lexed Context.

(** What the invariant sees of a state: its kind and its token. *)
Definition Frame : Type := StateKind.t * Z.
Definition frame_of (s : State.t) : Frame := (State.kind s, State.token s).

(** * Groups *)

(** What the finish state of a block that may lack its braces awaits. *)
Definition closing_brace (k : TokenKind.t) : option TokenKind.t :=
  match k with
  | TokenKind.OpenCurlyBrace => Some TokenKind.CloseCurlyBrace
  | _ => None
  end.

(** The closing symbol the handler of a state consumes without looking, or
    after a check that must not fail. *)
Definition awaits b (f : Frame) : option TokenKind.t :=
  match f.1 with
  | StateKind.ParenExprFinish | StateKind.TupleLiteralFinish
  | StateKind.CallExprFinish | StateKind.PatternListFinishAsParen
  | StateKind.PatternListFinishAsTuple | StateKind.PatternListFinishAsExplicit =>
      Some TokenKind.CloseParen
  | StateKind.PatternListFinishAsImplicit => Some TokenKind.CloseSquareBracket
  | StateKind.PatternListFinishAsStruct | StateKind.BraceExprFinishAsType
  | StateKind.BraceExprFinishAsValue | StateKind.BraceExprFinishAsUnknown
  | StateKind.FunctionDefinitionFinish | StateKind.MatchHandlerFinish
  | StateKind.MatchStatementFinish | StateKind.ChoiceDefinitionFinish
  | StateKind.DeclDefinitionFinishAsClass | StateKind.DeclDefinitionFinishAsImpl
  | StateKind.DeclDefinitionFinishAsInterface
  | StateKind.DeclDefinitionFinishAsNamedConstraint
  | StateKind.DeclDefinitionFinishAsUnion => Some TokenKind.CloseCurlyBrace
  | StateKind.CodeBlockFinish | StateKind.MatchFirstFinish =>
      closing_brace (kind_at b f.2)
  | _ => None
  end.

(** The symbol a state leaves the cursor at when it is done. [FileEnd] stands
    for a close brace or the end of the file. *)
Definition stops_at (k : StateKind.t) : option TokenKind.t :=
  match k with
  | StateKind.TupleLiteralElementFinish | StateKind.ExprAfterOpenParenFinish
  | StateKind.PatternListElementAsTuple | StateKind.PatternListElementFinishAsTuple
  | StateKind.PatternListElementAsExplicit
  | StateKind.PatternListElementFinishAsExplicit => Some TokenKind.CloseParen
  | StateKind.PatternListElementAsImplicit
  | StateKind.PatternListElementFinishAsImplicit => Some TokenKind.CloseSquareBracket
  | StateKind.PatternListElementAsStruct | StateKind.PatternListElementFinishAsStruct
  | StateKind.BraceExprParamAsType | StateKind.BraceExprParamAsValue
  | StateKind.BraceExprParamAsUnknown | StateKind.BraceExprParamAfterDesignatorAsType
  | StateKind.BraceExprParamAfterDesignatorAsValue
  | StateKind.BraceExprParamAfterDesignatorAsUnknown
  | StateKind.BraceExprParamFinishAsType | StateKind.BraceExprParamFinishAsValue
  | StateKind.BraceExprParamFinishAsUnknown
  | StateKind.StatementScopeLoop | StateKind.MatchCaseLoop
  | StateKind.MatchCaseLoopAfterDefault | StateKind.ChoiceAlternative
  | StateKind.ChoiceAlternativeFinish => Some TokenKind.CloseCurlyBrace
  | StateKind.DeclScopeLoopAsClass | StateKind.DeclScopeLoopAsInterface
  | StateKind.DeclScopeLoopAsRegular | StateKind.DeclScopeLoopAsUnion =>
      Some TokenKind.FileEnd
  | _ => None
  end.

(** The state some states are pushed right above, and rely on. *)
Definition rests_on (k : StateKind.t) : option StateKind.t :=
  match k with
  | StateKind.IfExprFinishCondition | StateKind.IfExprFinishThen
  | StateKind.IfExprFinishElse => Some StateKind.IfExprFinish
  | StateKind.ExprAfterOpenParenFinish => Some StateKind.ParenExprFinish
  | StateKind.BraceExprParamAsUnknown | StateKind.BraceExprParamAfterDesignatorAsUnknown
  | StateKind.BraceExprParamFinishAsUnknown => Some StateKind.BraceExprFinishAsUnknown
  | _ => None
  end.

Definition supports (under : option StateKind.t) (k : StateKind.t) : Prop :=
  match under with Some u => k = u | None => True end.

(** A state that stops at [stop] can be above one that awaits [close]. *)
Definition meets (stop close : option TokenKind.t) : bool :=
  match stop, close with
  | None, None => true
  | Some s, Some c =>
      TokenKind.eqb s c ||
      (TokenKind.eqb s TokenKind.FileEnd && TokenKind.eqb c TokenKind.CloseCurlyBrace)
  | _, _ => false
  end.

(** The braces open below a state that awaits [close]. *)
Definition below (close : option TokenKind.t) (open : list Z) : list Z :=
  match close with Some TokenKind.CloseCurlyBrace => tail open | _ => open end.

Definition in_braces (close : option TokenKind.t) (open : list Z) : Prop :=
  match close with Some TokenKind.CloseCurlyBrace => open ≠ [] | _ => True end.

(** * Tokens *)

(** The states pushed to consume the token the cursor is on, which is their
    own token. *)
Definition consumes (k : StateKind.t) : option TokenKind.t :=
  match k with
  | StateKind.StatementIf => Some TokenKind.If
  | StateKind.StatementWhile => Some TokenKind.While
  | StateKind.StatementReturn => Some TokenKind.Return
  | StateKind.VarAsReturned => Some TokenKind.Returned
  | StateKind.MatchIntroducer => Some TokenKind.Match
  | StateKind.MatchCaseIntroducer => Some TokenKind.Case
  | StateKind.MatchDefaultIntroducer => Some TokenKind.Default
  | StateKind.LambdaIntroducer => Some TokenKind.Fn
  | StateKind.ArrayExpr => Some TokenKind.Array
  | StateKind.FormLiteral => Some TokenKind.Form
  | StateKind.TypeOfExpr => Some TokenKind.TypeOf
  | StateKind.ParenExpr | StateKind.OnlyParenExpr | StateKind.CallExpr
  | StateKind.PatternListAsTuple | StateKind.PatternListAsExplicit =>
      Some TokenKind.OpenParen
  | StateKind.IndexExpr | StateKind.PatternListAsImplicit =>
      Some TokenKind.OpenSquareBracket
  | StateKind.BraceExpr | StateKind.PatternListAsStruct => Some TokenKind.OpenCurlyBrace
  | StateKind.PeriodAsExpr | StateKind.PeriodAsStruct
  | StateKind.MatchCaseAlternativePattern => Some TokenKind.Period
  | StateKind.ArrowExpr => Some TokenKind.MinusGreater
  | StateKind.VariablePattern => Some TokenKind.Var
  | StateKind.UnusedPattern => Some TokenKind.Unused
  | _ => None
  end.

(** The states that are handled right after they are pushed. *)
Definition only_on_top b (f : Frame) : bool :=
  match consumes f.1, f.1 with
  | Some _, _ => true
  | None, (StateKind.StructPatternUnderscore | StateKind.MatchFirst
           | StateKind.ChoiceAlternative | StateKind.DeclAsClass
           | StateKind.DeclAsInterface | StateKind.DeclAsRegular
           | StateKind.DeclAsUnion) => true
  | None, StateKind.MatchFirstFinish => negb (is_some (awaits b f))
  | None, _ => false
  end.

(** What the cursor is at when the state is on top. *)
Definition ready b (p : Z) (f : Frame) : Prop :=
  match consumes f.1, f.1 with
  | Some k, _ => kind_at b p = k ∧ f.2 = p
  | None, StateKind.StructPatternUnderscore => kind_at b p = TokenKind.Underscore
  | None, (StateKind.DeclAsClass | StateKind.DeclAsInterface | StateKind.DeclAsRegular
           | StateKind.DeclAsUnion) => f.2 = p
  | None, StateKind.MatchFirst =>
      kind_at b (p - 1) = TokenKind.MatchFirst ∧ kind_at b f.2 ≠ TokenKind.OpenCurlyBrace
  | None, StateKind.ChoiceAlternative => kind_at b p ≠ TokenKind.CloseCurlyBrace
  | None, StateKind.MatchFirstFinish =>
      awaits b f = None → kind_at b p ≠ TokenKind.CloseCurlyBrace
  | None, _ => True
  end.

(** The states that close the group of their own token, if it opens one. *)
Definition closes_own_group (k : StateKind.t) : bool :=
  match k with
  | StateKind.IndexExprFinish | StateKind.ArrayExprComma | StateKind.ArrayExprFinish
  | StateKind.FormLiteralFinish | StateKind.TypeOfExprFinish
  | StateKind.OnlyParenExprFinish
  | StateKind.ParenConditionAsIf | StateKind.ParenConditionAsWhile
  | StateKind.ParenConditionAsMatch | StateKind.ParenConditionFinishAsIf
  | StateKind.ParenConditionFinishAsWhile | StateKind.ParenConditionFinishAsMatch
  | StateKind.StatementForHeader | StateKind.StatementForHeaderIn
  | StateKind.StatementForHeaderFinish => true
  | _ => false
  end.

Definition own_group b (open : list Z) (f : Frame) : Prop :=
  if closes_own_group f.1 then
    kind_at b f.2 ≠ TokenKind.OpenCurlyBrace ∧
    (TokenKind.is_opening_symbol (kind_at b f.2) = true → braces b f.2 = open)
  else True.

Definition in_stream b (t : Z) : Prop := 0 ≤ t < TokenizedBuffer.tokens_end b.

(** * The invariant *)

(** The states below one that stops at [stop] and rests on [under]. *)
Fixpoint nest b (stop : option TokenKind.t) (under : option StateKind.t)
    (st : list Frame) (open : list Z) : Prop :=
  match st with
  | [] => stop = Some TokenKind.FileEnd ∧ under = None ∧ open = []
  | f :: st =>
      (meets stop (awaits b f) = true ∧ supports under f.1) ∧ only_on_top b f = false ∧
      in_braces (awaits b f) open ∧ own_group b (below (awaits b f) open) f ∧
      in_stream b f.2 ∧
      nest b (stops_at f.1) (rests_on f.1) st (below (awaits b f) open)
  end.

(** The whole stack, with the cursor at [p]. *)
Definition nested b (p : Z) (st : list Frame) : Prop :=
  match st with
  | [] => True
  | f :: st =>
      (∀ k, awaits b f = Some k → kind_at b p = k) ∧ ready b p f ∧
      in_braces (awaits b f) (braces b p) ∧
      own_group b (below (awaits b f) (braces b p)) f ∧
      in_stream b f.2 ∧
      nest b (stops_at f.1) (rests_on f.1) st (below (awaits b f) (braces b p))
  end.

(** * Errors *)

(** The declaration states run before any other state can give them an error,
    so a [match_first] with a [{] enters its group. *)
Definition starts_fresh (k : StateKind.t) : bool :=
  match k with
  | StateKind.DeclAsClass | StateKind.DeclAsInterface | StateKind.DeclAsRegular
  | StateKind.DeclAsUnion | StateKind.MatchFirst => true
  | _ => false
  end.

Definition fresh_top (c : Context) : Prop :=
  match state_stack_ c with
  | [] => True
  | s :: _ => starts_fresh (State.kind s) = true → State.has_error s = false
  end.

(** * The measure *)

(** A token that recovery skips: neither a close brace nor the end. *)
Definition ordinary (k : TokenKind.t) : bool :=
  negb (TokenKind.eqb k TokenKind.CloseCurlyBrace || TokenKind.eqb k TokenKind.FileEnd).

(** The tokens that continue a postfix expression. *)
Definition continues_postfix (k : TokenKind.t) : bool :=
  TokenKind.IsOneOf k
    [TokenKind.Period; TokenKind.MinusGreater; TokenKind.OpenParen;
     TokenKind.OpenSquareBracket; TokenKind.Question].

(** With the cursor at a token of kind [k], the state is done only after the
    cursor has moved. *)
Definition must_consume (s : StateKind.t) (k : TokenKind.t) : bool :=
  is_some (consumes s) ||
  match s with
  | StateKind.Statement | StateKind.ExprStatementFinish | StateKind.StatementScopeLoop
  | StateKind.DeclAsClass | StateKind.DeclAsInterface | StateKind.DeclAsRegular
  | StateKind.DeclAsUnion | StateKind.DeclScopeLoopAsClass
  | StateKind.DeclScopeLoopAsInterface | StateKind.DeclScopeLoopAsRegular
  | StateKind.DeclScopeLoopAsUnion | StateKind.MatchCaseLoop
  | StateKind.MatchCaseLoopAfterDefault | StateKind.ChoiceAlternative => ordinary k
  | StateKind.ExprInPostfixLoop => continues_postfix k
  | _ => false
  end.

(** The iterations a state may take before the cursor moves, counted without
    those of a loop. *)
Definition work (k : StateKind.t) : Z :=
  match k with
  | StateKind.Expr => 5
  | StateKind.ExprInPostfix => 3
  | StateKind.Statement => 7
  | StateKind.CodeBlock => 9
  | StateKind.Pattern => 7
  | StateKind.StructPatternUnderscore => 3
  | StateKind.BindingPattern => 2
  | StateKind.StatementIfConditionFinish | StateKind.StatementWhileConditionFinish => 11
  | StateKind.StatementForHeader => 24
  | StateKind.StatementForHeaderIn => 16
  | StateKind.StatementForHeaderFinish => 10
  | StateKind.ParenConditionAsIf | StateKind.ParenConditionAsWhile
  | StateKind.ParenConditionAsMatch => 9
  | StateKind.ExprLoopForInfixOperator | StateKind.ExprLoopForPrefixOperator
  | StateKind.ExprLoopForShortCircuitOperatorAsAnd
  | StateKind.ExprLoopForShortCircuitOperatorAsOr => 2
  | StateKind.RequirementBegin => 7
  | StateKind.LambdaAfterIntroducer => 15
  | StateKind.LambdaAfterImplicitParams => 13
  | StateKind.LambdaAfterParams => 11
  | StateKind.LambdaBody => 11
  | StateKind.PatternListElementAsTuple | StateKind.PatternListElementAsStruct
  | StateKind.PatternListElementAsExplicit | StateKind.PatternListElementAsImplicit => 11
  | StateKind.StructPatternFieldAfterDesignator => 2
  | StateKind.BraceExprParamAsType | StateKind.BraceExprParamAsValue
  | StateKind.BraceExprParamAsUnknown => 4
  | StateKind.BraceExprParamAfterDesignatorAsType
  | StateKind.BraceExprParamAfterDesignatorAsValue
  | StateKind.BraceExprParamAfterDesignatorAsUnknown => 2
  | StateKind.ArrayExprComma => 7
  | StateKind.PrimitiveForm => 7
  | StateKind.TupleLiteralElement => 6
  | StateKind.DeclNameAndParamsAfterImplicit => 3
  | StateKind.FunctionIntroducer => 4
  | StateKind.FunctionAfterParams => 2
  | StateKind.TypeAfterIntroducerAsClass | StateKind.TypeAfterIntroducerAsInterface
  | StateKind.TypeAfterIntroducerAsNamedConstraint
  | StateKind.TypeAfterIntroducerAsUnion => 3
  | StateKind.Let | StateKind.VarAsRegular => 10
  | StateKind.ImplAfterIntroducer | StateKind.RequireAfterIntroducer
  | StateKind.ObserveAfterIntroducer | StateKind.AdaptAfterIntroducer
  | StateKind.BaseAfterIntroducer => 8
  | StateKind.ImplAfterForall => 7
  | StateKind.Alias | StateKind.Namespace | StateKind.ExportName
  | StateKind.ChoiceIntroducer => 3
  | StateKind.FriendDecl => 8
  | StateKind.ObserveFinishOperator => 2
  | StateKind.ChoiceAlternativeFinish | StateKind.MatchCaseAfterPattern => 2
  | StateKind.MatchFirst => 3
  | _ => 1
  end.

(** The surplus of a loop that is about to start an element. *)
Definition surplus (k : StateKind.t) : Z :=
  match k with
  | StateKind.StatementScopeLoop | StateKind.MatchCaseLoop
  | StateKind.DeclScopeLoopAsClass | StateKind.DeclScopeLoopAsInterface
  | StateKind.DeclScopeLoopAsRegular | StateKind.DeclScopeLoopAsUnion => 8
  | StateKind.ExprInPostfixLoop => 2
  | _ => 0
  end.

Fixpoint total_work (st : list Frame) : Z :=
  match st with [] => 0 | f :: st => work f.1 + total_work st end.

(** The surplus of the first state that must consume. *)
Fixpoint first_surplus (k : TokenKind.t) (st : list Frame) : Z :=
  match st with
  | [] => 0
  | f :: st => if must_consume f.1 k then surplus f.1 else first_surplus k st
  end.

(** More than a token can add to the work. *)
Definition token_work : Z := 48.

Definition measure b (p : Z) (st : list Frame) : Z :=
  token_work * (TokenizedBuffer.tokens_end b - 1 - p) + total_work st +
  first_surplus (kind_at b p) st.
