(* ===== verification/HandleExpr.v ===== *)
(** Expression states: [toolchain/parse/handle_expr.cpp] and the files of the
    expression forms it dispatches to ([handle_paren_expr.cpp],
    [handle_brace_expr.cpp], [handle_index_expr.cpp], [handle_array_expr.cpp],
    [handle_form_literal.cpp], [handle_typeof_expr.cpp], [handle_period.cpp],
    [handle_lambda.cpp], [handle_requirement.cpp]). *)

From S2P Require Import Prelude TokenKinds StateKinds NodeKinds Tokens Precedence.
From S2P Require Import ParseTree Diagnostics Context.

(** * Operators *)

(** The [CARBON_PARSE_NODE_KIND_*_OPERATOR] expansions used as [case] labels
    below. *)
Definition prefix_operator_node (k : TokenKind.t) : option NodeKind.t :=
  match k with
  | TokenKind.Amp => Some NodeKind.PrefixOperatorAmp
  | TokenKind.Caret => Some NodeKind.PrefixOperatorCaret
  | TokenKind.Const => Some NodeKind.PrefixOperatorConst
  | TokenKind.Expand => Some NodeKind.PrefixOperatorExpand
  | TokenKind.Not => Some NodeKind.PrefixOperatorNot
  | TokenKind.Minus => Some NodeKind.PrefixOperatorMinus
  | TokenKind.MinusMinus => Some NodeKind.PrefixOperatorMinusMinus
  | TokenKind.Partial => Some NodeKind.PrefixOperatorPartial
  | TokenKind.PlusPlus => Some NodeKind.PrefixOperatorPlusPlus
  | TokenKind.Ref => Some NodeKind.PrefixOperatorRef
  | TokenKind.Star => Some NodeKind.PrefixOperatorStar
  | _ => None
  end.

Definition infix_operator_node (k : TokenKind.t) : option NodeKind.t :=
  match k with
  | TokenKind.Amp => Some NodeKind.InfixOperatorAmp
  | TokenKind.AmpEqual => Some NodeKind.InfixOperatorAmpEqual
  | TokenKind.As => Some NodeKind.InfixOperatorAs
  | TokenKind.Caret => Some NodeKind.InfixOperatorCaret
  | TokenKind.CaretEqual => Some NodeKind.InfixOperatorCaretEqual
  | TokenKind.Equal => Some NodeKind.InfixOperatorEqual
  | TokenKind.EqualEqual => Some NodeKind.InfixOperatorEqualEqual
  | TokenKind.ExclaimEqual => Some NodeKind.InfixOperatorExclaimEqual
  | TokenKind.Greater => Some NodeKind.InfixOperatorGreater
  | TokenKind.GreaterEqual => Some NodeKind.InfixOperatorGreaterEqual
  | TokenKind.GreaterGreater => Some NodeKind.InfixOperatorGreaterGreater
  | TokenKind.GreaterGreaterEqual => Some NodeKind.InfixOperatorGreaterGreaterEqual
  | TokenKind.Less => Some NodeKind.InfixOperatorLess
  | TokenKind.LessEqual => Some NodeKind.InfixOperatorLessEqual
  | TokenKind.LessEqualGreater => Some NodeKind.InfixOperatorLessEqualGreater
  | TokenKind.LessLess => Some NodeKind.InfixOperatorLessLess
  | TokenKind.LessLessEqual => Some NodeKind.InfixOperatorLessLessEqual
  | TokenKind.Minus => Some NodeKind.InfixOperatorMinus
  | TokenKind.MinusEqual => Some NodeKind.InfixOperatorMinusEqual
  | TokenKind.Percent => Some NodeKind.InfixOperatorPercent
  | TokenKind.PercentEqual => Some NodeKind.InfixOperatorPercentEqual
  | TokenKind.Pipe => Some NodeKind.InfixOperatorPipe
  | TokenKind.PipeEqual => Some NodeKind.InfixOperatorPipeEqual
  | TokenKind.Plus => Some NodeKind.InfixOperatorPlus
  | TokenKind.PlusEqual => Some NodeKind.InfixOperatorPlusEqual
  | TokenKind.Slash => Some NodeKind.InfixOperatorSlash
  | TokenKind.SlashEqual => Some NodeKind.InfixOperatorSlashEqual
  | TokenKind.Star => Some NodeKind.InfixOperatorStar
  | TokenKind.StarEqual => Some NodeKind.InfixOperatorStarEqual
  | _ => None
  end.

Definition postfix_operator_node (k : TokenKind.t) : option NodeKind.t :=
  match k with
  | TokenKind.Question => Some NodeKind.PostfixOperatorQuestion
  | TokenKind.Star => Some NodeKind.PostfixOperatorStar
  | _ => None
  end.

(** [handle_expr.cpp]. *)
Definition DiagnoseStatementOperatorAsSubExpr : M unit :=
  k ← PositionKind;
  EmitHere DiagnosticKind.StatementOperatorAsSubExpr [ArgTokenKind k].

Definition priority_is (a b : PrecedenceLevel.t) (p : OperatorPriority) : bool :=
  bool_decide (PrecedenceGroup.GetPriority a b = p).

Definition HandleExpr : M unit :=
  state ← PopState;
  k ← PositionKind;
  match PrecedenceGroup.ForLeading k with
  | Some operator_precedence =>
      (if negb (priority_is (State.ambient_precedence state) operator_precedence RightFirst)
       then
         if priority_is PrecedenceGroup.ForTopLevelExpr operator_precedence RightFirst
         then EmitHere DiagnosticKind.UnaryOperatorRequiresParentheses [ArgTokenKind k]
         else DiagnoseStatementOperatorAsSubExpr
       else DiagnoseOperatorFixity Prefix) ;;
      (if! PositionIs TokenKind.If then
         PushState StateKind.IfExprFinish ;;
         PushState StateKind.IfExprFinishCondition
       else
         PushStateForExprLoop StateKind.ExprLoopForPrefixOperator
           (State.ambient_precedence state) operator_precedence) ;;
      ConsumeAndDiscard ;;
      PushStateForExpr operator_precedence
  | None =>
      PushStateForExprLoop StateKind.ExprLoop (State.ambient_precedence state)
        PrecedenceGroup.ForPostfixExpr ;;
      PushState StateKind.ExprInPostfix
  end.

(** The arms of [HandleExprInPostfix] of the form [AddLeafNode(kind,
    Consume()); PushState(state)]. *)
Definition primary_leaf (k : TokenKind.t) : option NodeKind.t :=
  match k with
  | TokenKind.Identifier => Some NodeKind.IdentifierNameExpr
  | TokenKind.False_ => Some NodeKind.BoolLiteralFalse
  | TokenKind.True_ => Some NodeKind.BoolLiteralTrue
  | TokenKind.CharLiteral => Some NodeKind.CharLiteral
  | TokenKind.IntLiteral => Some NodeKind.IntLiteral
  | TokenKind.RealLiteral => Some NodeKind.RealLiteral
  | TokenKind.StringLiteral => Some NodeKind.StringLiteral
  | TokenKind.Bool => Some NodeKind.BoolTypeLiteral
  | TokenKind.Char => Some NodeKind.CharTypeLiteral
  | TokenKind.IntTypeLiteral => Some NodeKind.IntTypeLiteral
  | TokenKind.UnsignedIntTypeLiteral => Some NodeKind.UnsignedIntTypeLiteral
  | TokenKind.FloatTypeLiteral => Some NodeKind.FloatTypeLiteral
  | TokenKind.DollarIntLiteral => Some NodeKind.PositionalParamExpr
  | TokenKind.Str => Some NodeKind.StringTypeLiteral
  | TokenKind.Type_ => Some NodeKind.TypeTypeLiteral
  | TokenKind.Auto => Some NodeKind.AutoTypeLiteral
  | TokenKind.Core => Some NodeKind.CoreNameExpr
  | TokenKind.Cpp => Some NodeKind.CppNameExpr
  | TokenKind.SelfValueIdentifier => Some NodeKind.SelfValueNameExpr
  | TokenKind.SelfTypeIdentifier => Some NodeKind.SelfTypeNameExpr
  | _ => None
  end.

(** Its arms of the form [PushState(state); PushState(kind)]. *)
Definition primary_substate (k : TokenKind.t) : option StateKind.t :=
  match k with
  | TokenKind.Fn => Some StateKind.LambdaIntroducer
  | TokenKind.OpenCurlyBrace => Some StateKind.BraceExpr
  | TokenKind.OpenParen => Some StateKind.ParenExpr
  | TokenKind.Array => Some StateKind.ArrayExpr
  | TokenKind.Form => Some StateKind.FormLiteral
  | TokenKind.TypeOf => Some StateKind.TypeOfExpr
  | _ => None
  end.

(** The [case Each] arm. *)
Definition HandleEachName (state : State.t) : M unit :=
  each_token ← Consume;
  state ←
    (if! ConsumeAndAddLeafNodeIf TokenKind.Identifier
           NodeKind.IdentifierNameNotBeforeSignature
     then mret state
     else
       EmitHere DiagnosticKind.ExpectedIdentifierAfterEach [] ;;
       p ← position;
       AddInvalidParse p ;;
       ReturnErrorOnState ;;
       mret (State.set_has_error true state));
  AddNode NodeKind.EachNameExpr each_token (State.has_error state) ;;
  PushStateVal state.

(** The [case Package] arm. *)
Definition HandlePackageExpr (state : State.t) : M unit :=
  t ← Consume;
  AddLeafNode NodeKind.PackageExpr t ;;
  state ←
    (if! PositionIs TokenKind.Period then mret state
     else
       EmitHere DiagnosticKind.ExpectedPeriodAfterPackage [] ;;
       mret (State.set_has_error true state));
  PushStateVal state.

(** The [case Period] arm. *)
Definition HandleDesignator (state : State.t) : M unit :=
  period ← Consume;
  state ←
    (if! ConsumeAndAddLeafNodeIf TokenKind.Identifier
           NodeKind.IdentifierNameNotBeforeSignature
     then mret state
     else if! ConsumeAndAddLeafNodeIf TokenKind.SelfTypeIdentifier NodeKind.SelfTypeName
     then mret state
     else
       EmitHere DiagnosticKind.ExpectedIdentifierOrSelfAfterPeriod [] ;;
       k ← PositionKind;
       (if TokenKind.is_keyword k then
          t ← Consume;
          AddLeafNodeWithError NodeKind.IdentifierNameNotBeforeSignature t true
        else if! PositionIs TokenKind.IntLiteral then
          t ← Consume; AddInvalidParse t
        else
          p ← position;
          AddInvalidParse p ;;
          ReturnErrorOnState) ;;
       mret (State.set_has_error true state));
  AddNode NodeKind.DesignatorExpr period (State.has_error state) ;;
  PushStateVal state.

(** The [default] arm; the state stack's top two kinds tell a pattern from an
    expression. *)
Definition top_kinds (stack : list State.t) : list StateKind.t :=
  rev (State.kind <$> take 2 stack).

Definition HandleMissingExpr (token_kind : TokenKind.t) : M unit :=
  when (negb (TokenKind.eqb token_kind TokenKind.Error))
    (stack ← state_stack;
     let in_pattern :=
       bool_decide (top_kinds stack = [StateKind.ExprPattern; StateKind.ExprLoop]) in
     EmitHere (if in_pattern then DiagnosticKind.ExpectedPattern
               else DiagnosticKind.ExpectedExpr) []) ;;
  p ← position;
  AddInvalidParse p ;;
  ReturnErrorOnState.

(** The arms that do not only add a leaf or push a state. *)
Definition HandleOtherPrimary (state : State.t) (token_kind : TokenKind.t) : M unit :=
  match token_kind with
  | TokenKind.Each => HandleEachName state
  | TokenKind.Package => HandlePackageExpr state
  | TokenKind.Period => HandleDesignator state
  | _ => HandleMissingExpr token_kind
  end.

Definition HandleExprInPostfix : M unit :=
  state ← PopState;
  let state := State.set_kind StateKind.ExprInPostfixLoop state in
  token_kind ← PositionKind;
  match primary_leaf token_kind, primary_substate token_kind with
  | Some nk, _ => t ← Consume; AddLeafNode nk t ;; PushStateVal state
  | None, Some sk => PushStateVal state ;; PushState sk
  | None, None => HandleOtherPrimary state token_kind
  end.

Definition HandleExprInPostfixLoop : M unit :=
  state ← PopState;
  p ← position;
  let state := State.set_token p state in
  k ← PositionKind;
  match k with
  | TokenKind.Period => PushStateVal state ;; PushStateAs state StateKind.PeriodAsExpr
  | TokenKind.MinusGreater => PushStateVal state ;; PushStateAs state StateKind.ArrowExpr
  | TokenKind.OpenParen => PushStateVal state ;; PushStateAs state StateKind.CallExpr
  | TokenKind.OpenSquareBracket => PushStateVal state ;; PushStateAs state StateKind.IndexExpr
  | TokenKind.Question =>
      t ← Consume;
      AddNode NodeKind.PostfixOperatorQuestion t (State.has_error state) ;;
      PushStateVal (State.set_has_error false state)
  | _ => when (State.has_error state) ReturnErrorOnState
  end.

(** The trailing operator [HandleExprLoop] finds, looking past [unsafe], with
    the operator's token kind. *)
Definition find_trailing_operator : M (option (TokenKind.t * PrecedenceGroup.Trailing)) :=
  operator_kind ← PositionKind;
  infix ← IsTrailingOperatorInfix;
  match PrecedenceGroup.ForTrailing operator_kind infix with
  | Some op => mret (Some (operator_kind, op))
  | None =>
      if! PositionIs TokenKind.Unsafe then
        operator_kind ← PositionKindAhead 1;
        infix ← IsTrailingOperatorInfix;
        mret ((λ op, (operator_kind, op)) <$> PrecedenceGroup.ForTrailing operator_kind infix)
      else mret None
  end.

(** The disambiguation checks of [HandleExprLoop]; returns the state with its
    error flag updated. *)
Definition check_operator_precedence (state : State.t) (op : PrecedenceGroup.Trailing)
    : M State.t :=
  let operator_precedence := PrecedenceGroup.level op in
  if negb (priority_is (State.lhs_precedence state) operator_precedence LeftFirst) then
    (if priority_is PrecedenceGroup.ForTopLevelExpr operator_precedence RightFirst
     then EmitHere DiagnosticKind.OperatorRequiresParentheses []
     else DiagnoseStatementOperatorAsSubExpr) ;;
    mret (State.set_has_error true state)
  else
    DiagnoseOperatorFixity (if PrecedenceGroup.is_binary op then Infix else Postfix) ;;
    mret state.

(** The [unsafe] modifier of [HandleExprLoop]. *)
Definition handle_operator_modifier (state : State.t) : M State.t :=
  if! PositionIs TokenKind.Unsafe then
    if! PositionIsAhead TokenKind.As 1 then
      t ← Consume;
      AddNode NodeKind.UnsafeModifier t (State.has_error state) ;;
      mret state
    else
      k ← PositionKind;
      k' ← PositionKindAhead 1;
      EmitHere DiagnosticKind.ModifierNotAllowedOnOperator
        [ArgTokenKind k; ArgTokenKind k'] ;;
      Consume ;;
      mret (State.set_has_error true state)
  else mret state.

(** The last part of [HandleExprLoop], once the operator is consumed. *)
Definition apply_trailing_operator (state : State.t) (operator_kind : TokenKind.t)
    (op : PrecedenceGroup.Trailing) : M unit :=
  let operator_precedence := PrecedenceGroup.level op in
  if PrecedenceGroup.is_binary op then
    match operator_kind with
    | TokenKind.And =>
        AddNode NodeKind.ShortCircuitOperandAnd (State.token state) (State.has_error state) ;;
        PushStateAs state StateKind.ExprLoopForShortCircuitOperatorAsAnd ;;
        PushStateForExpr operator_precedence
    | TokenKind.Or =>
        AddNode NodeKind.ShortCircuitOperandOr (State.token state) (State.has_error state) ;;
        PushStateAs state StateKind.ExprLoopForShortCircuitOperatorAsOr ;;
        PushStateForExpr operator_precedence
    | TokenKind.Where =>
        AddNode NodeKind.WhereOperand (State.token state) (State.has_error state) ;;
        PushStateAs state StateKind.WhereFinish ;;
        PushState StateKind.RequirementBegin
    | _ =>
        PushStateAs state StateKind.ExprLoopForInfixOperator ;;
        PushStateForExpr operator_precedence
    end
  else
    match postfix_operator_node operator_kind with
    | Some nk =>
        AddNode nk (State.token state) (State.has_error state) ;;
        PushStateVal (State.set_has_error false state)
    | None => action_fail FatalError
    end.

Definition HandleExprLoop : M unit :=
  state ← PopState;
  trailing_operator ← find_trailing_operator;
  match trailing_operator with
  | None => when (State.has_error state) ReturnErrorOnState
  | Some (operator_kind, op) =>
      if negb (priority_is (State.ambient_precedence state)
                 (PrecedenceGroup.level op) RightFirst) then
        when (State.has_error state) ReturnErrorOnState
      else
        state ← check_operator_precedence state op;
        state ← handle_operator_modifier state;
        t ← Consume;
        let state := State.set_lhs_precedence (PrecedenceGroup.level op)
                       (State.set_token t state) in
        apply_trailing_operator state operator_kind op
  end.

Definition HandleExprLoopForOperator (state : State.t) (nk : NodeKind.t) : M unit :=
  AddNode nk (State.token state) (State.has_error state) ;;
  PushStateAs (State.set_has_error false state) StateKind.ExprLoop.

Definition HandleExprLoopForInfixOperator : M unit :=
  state ← PopState;
  token_kind ← GetKind (State.token state);
  match infix_operator_node token_kind with
  | Some nk => HandleExprLoopForOperator state nk
  | None => action_fail FatalError
  end.

Definition HandleExprLoopForPrefixOperator : M unit :=
  state ← PopState;
  token_kind ← GetKind (State.token state);
  match prefix_operator_node token_kind with
  | Some nk => HandleExprLoopForOperator state nk
  | None => action_fail FatalError
  end.

Definition HandleExprLoopForShortCircuitOperatorAsAnd : M unit :=
  state ← PopState; HandleExprLoopForOperator state NodeKind.ShortCircuitOperatorAnd.
Definition HandleExprLoopForShortCircuitOperatorAsOr : M unit :=
  state ← PopState; HandleExprLoopForOperator state NodeKind.ShortCircuitOperatorOr.

Definition HandleExprStatementFinish : M unit :=
  state ← PopState;
  if? semi := ConsumeIf TokenKind.Semi then
    AddNode NodeKind.ExprStatement semi (State.has_error state)
  else
    when (negb (State.has_error state)) (EmitHere DiagnosticKind.ExpectedExprSemi []) ;;
    t ← SkipPastLikelyEnd (State.token state);
    AddNode NodeKind.ExprStatement t true.
