(* ===== verification/HandleExprForms.v ===== *)
(** The expression forms: parentheses and tuples ([handle_paren_expr.cpp]),
    braces ([handle_brace_expr.cpp]), indexing ([handle_index_expr.cpp]),
    [array(...)] ([handle_array_expr.cpp]), [form(...)]
    ([handle_form_literal.cpp]), [typeof(...)] ([handle_typeof_expr.cpp]),
    member access ([handle_period.cpp]), lambdas ([handle_lambda.cpp]) and the
    requirements of a [where] ([handle_requirement.cpp]). *)

From S2P Require Import Prelude TokenKinds StateKinds NodeKinds Tokens Precedence.
From S2P Require Import ParseTree Diagnostics Context.

(** * [handle_paren_expr.cpp] *)

Definition HandleOnlyParenExpr : M unit :=
  state ← PopState;
  open_paren ← ConsumeChecked TokenKind.OpenParen;
  AddLeafNode NodeKind.ParenExprStart open_paren ;;
  PushStateAs (State.set_token open_paren state) StateKind.OnlyParenExprFinish ;;
  PushState StateKind.Expr.

Definition FinishParenExpr (state : State.t) : M unit :=
  t ← Consume; AddNode NodeKind.ParenExpr t (State.has_error state).

Definition HandleOnlyParenExprFinish : M unit :=
  state ← PopState;
  state ←
    (if! PositionIs TokenKind.CloseParen then mret state
     else
       when (negb (State.has_error state))
         (EmitHere DiagnosticKind.UnexpectedTokenInCompoundMemberAccess []) ;;
       t ← GetMatchedClosingToken (State.token state);
       SkipTo t ;;
       mret (State.set_has_error true state));
  FinishParenExpr state.

Definition HandleParenExpr : M unit :=
  state ← PopState;
  t ← ConsumeChecked TokenKind.OpenParen;
  AddLeafNode NodeKind.Placeholder t ;;
  if! PositionIs TokenKind.CloseParen then
    PushStateAs state StateKind.TupleLiteralFinish
  else if! PositionIs TokenKind.PeriodPeriodPeriod then
    PushStateAs state StateKind.TupleLiteralFinish ;;
    PushState StateKind.TupleLiteralElementFinish ;;
    PushState StateKind.TupleLiteralElement
  else
    PushStateAs state StateKind.ParenExprFinish ;;
    PushState StateKind.ExprAfterOpenParenFinish ;;
    PushState StateKind.Expr.

Definition HandleExprAfterOpenParenFinish : M unit :=
  state ← PopState;
  list_token_kind ←
    ConsumeListToken NodeKind.TupleLiteralComma TokenKind.CloseParen (State.has_error state);
  if bool_decide (list_token_kind = Close) then mret tt
  else
    finish_state ← PopState;
    check (StateKind.eqb (State.kind finish_state) StateKind.ParenExprFinish) ;;
    PushStateAs finish_state StateKind.TupleLiteralFinish ;;
    when (negb (bool_decide (list_token_kind = CommaClose)))
      (PushState StateKind.TupleLiteralElementFinish ;;
       PushState StateKind.TupleLiteralElement).

Definition HandleTupleLiteralElementFinish : M unit :=
  state ← PopState;
  when (State.has_error state) ReturnErrorOnState ;;
  list_token_kind ←
    ConsumeListToken NodeKind.TupleLiteralComma TokenKind.CloseParen (State.has_error state);
  when (bool_decide (list_token_kind = Comma))
    (PushState StateKind.TupleLiteralElementFinish ;;
     PushState StateKind.TupleLiteralElement).

Definition HandleTupleLiteralElement : M unit :=
  PopState ;;
  (if! PositionIs TokenKind.PeriodPeriodPeriod then
     PushState StateKind.PackExpansionExprFinish ;;
     t ← Consume;
     AddLeafNode NodeKind.PackExpansionStart t
   else mret tt) ;;
  PushState StateKind.Expr.

Definition HandlePackExpansionExprFinish : M unit :=
  state ← PopState;
  AddNode NodeKind.PackExpansionExpr (State.token state) (State.has_error state) ;;
  when (State.has_error state) ReturnErrorOnState.

Definition HandleParenExprFinish : M unit :=
  state ← PopState;
  ReplacePlaceholderNode (State.subtree_start state) NodeKind.ParenExprStart
    (State.token state) false ;;
  FinishParenExpr state.

Definition HandleTupleLiteralFinish : M unit :=
  state ← PopState;
  ReplacePlaceholderNode (State.subtree_start state) NodeKind.TupleLiteralStart
    (State.token state) false ;;
  t ← Consume;
  AddNode NodeKind.TupleLiteral t (State.has_error state).

Definition HandleCallExpr : M unit :=
  state ← PopState;
  PushStateAs state StateKind.CallExprFinish ;;
  t ← Consume;
  AddNode NodeKind.CallExprStart t (State.has_error state) ;;
  if! PositionIs TokenKind.CloseParen then mret tt
  else
    PushState StateKind.TupleLiteralElementFinish ;;
    PushState StateKind.TupleLiteralElement.

Definition HandleCallExprFinish : M unit :=
  state ← PopState;
  t ← Consume;
  AddNode NodeKind.CallExpr t (State.has_error state).

(** * [handle_brace_expr.cpp] *)

Definition HandleBraceExpr : M unit :=
  state ← PopState;
  PushStateAs state StateKind.BraceExprFinishAsUnknown ;;
  opened ← ConsumeAndAddLeafNodeIf TokenKind.OpenCurlyBrace NodeKind.Placeholder;
  check opened ;;
  if! PositionIs TokenKind.CloseCurlyBrace then mret tt
  else PushState StateKind.BraceExprParamAsUnknown.

Definition HandleBraceExprParamError (state : State.t)
    (param_finish_state_kind : StateKind.t) : M unit :=
  mode ← match param_finish_state_kind with
         | StateKind.BraceExprParamFinishAsType => mret 0
         | StateKind.BraceExprParamFinishAsValue => mret 1
         | StateKind.BraceExprParamFinishAsUnknown => mret 2
         | _ => action_fail FatalError
         end;
  EmitHere DiagnosticKind.ExpectedStructLiteralField [ArgInt mode] ;;
  PushStateAs (State.set_has_error true state) param_finish_state_kind.

Definition HandleBraceExprParam (after_designator_kind param_finish_kind : StateKind.t)
    : M unit :=
  state ← PopState;
  if! PositionIs TokenKind.Period then
    PushStateAs state after_designator_kind ;;
    PushState StateKind.PeriodAsStruct
  else HandleBraceExprParamError state param_finish_kind.

Definition HandleBraceExprParamAsType : M unit :=
  HandleBraceExprParam StateKind.BraceExprParamAfterDesignatorAsType
    StateKind.BraceExprParamFinishAsType.
Definition HandleBraceExprParamAsValue : M unit :=
  HandleBraceExprParam StateKind.BraceExprParamAfterDesignatorAsValue
    StateKind.BraceExprParamFinishAsValue.
Definition HandleBraceExprParamAsUnknown : M unit :=
  HandleBraceExprParam StateKind.BraceExprParamAfterDesignatorAsUnknown
    StateKind.BraceExprParamFinishAsUnknown.

(** The recovery at the start of [HandleBraceExprParamAfterDesignator];
    [false] when the handler is done. *)
Definition recover_after_designator (state : State.t) (param_finish_kind : StateKind.t)
    : M bool :=
  recovery_pos ← FindNextOf [TokenKind.Equal; TokenKind.Colon; TokenKind.Comma];
  match recovery_pos with
  | None => PushStateAs state param_finish_kind ;; mret false
  | Some t =>
      k ← GetKind t;
      if TokenKind.eqb k TokenKind.Comma then
        PushStateAs state param_finish_kind ;; mret false
      else SkipTo t ;; mret true
  end.

(** Its middle part: settles the enclosing literal on its first element and
    returns the updated [param_finish_kind]. *)
Definition update_brace_finish (is_type : bool) (param_finish_kind : StateKind.t)
    : M StateKind.t :=
  if StateKind.eqb param_finish_kind StateKind.BraceExprParamFinishAsUnknown then
    finish_state ← PopState;
    check (StateKind.eqb (State.kind finish_state) StateKind.BraceExprFinishAsUnknown) ;;
    PushStateAs finish_state
      (if is_type then StateKind.BraceExprFinishAsType
       else StateKind.BraceExprFinishAsValue) ;;
    mret (if is_type then StateKind.BraceExprParamFinishAsType
          else StateKind.BraceExprParamFinishAsValue)
  else mret param_finish_kind.

Definition finish_after_designator (state : State.t) (is_type : bool)
    (param_finish_kind : StateKind.t) : M unit :=
  param_finish_kind ← update_brace_finish is_type param_finish_kind;
  let want_param_finish_kind :=
    if is_type then StateKind.BraceExprParamFinishAsType
    else StateKind.BraceExprParamFinishAsValue in
  if negb (StateKind.eqb param_finish_kind want_param_finish_kind) then
    HandleBraceExprParamError state param_finish_kind
  else
    t ← Consume;
    PushStateAs (State.set_token t state) param_finish_kind ;;
    PushState StateKind.Expr.

Definition HandleBraceExprParamAfterDesignator (param_finish_kind : StateKind.t) : M unit :=
  state ← PopState;
  if! (if State.has_error state then recover_after_designator state param_finish_kind
       else mret true)
  then
    if! PositionIs TokenKind.Colon then finish_after_designator state true param_finish_kind
    else if! PositionIs TokenKind.Equal then
      finish_after_designator state false param_finish_kind
    else HandleBraceExprParamError state param_finish_kind
  else mret tt.

Definition HandleBraceExprParamAfterDesignatorAsType : M unit :=
  HandleBraceExprParamAfterDesignator StateKind.BraceExprParamFinishAsType.
Definition HandleBraceExprParamAfterDesignatorAsValue : M unit :=
  HandleBraceExprParamAfterDesignator StateKind.BraceExprParamFinishAsValue.
Definition HandleBraceExprParamAfterDesignatorAsUnknown : M unit :=
  HandleBraceExprParamAfterDesignator StateKind.BraceExprParamFinishAsUnknown.

Definition HandleBraceExprParamFinish (field_kind comma_kind : NodeKind.t)
    (param_state : StateKind.t) : M unit :=
  state ← PopState;
  (if State.has_error state then
     AddLeafNodeWithError NodeKind.InvalidParse (State.token state) true ;;
     ReturnErrorOnState
   else AddNode field_kind (State.token state) false) ;;
  list_token_kind ←
    ConsumeListToken comma_kind TokenKind.CloseCurlyBrace (State.has_error state);
  when (bool_decide (list_token_kind = Comma)) (PushState param_state).

Definition HandleBraceExprParamFinishAsType : M unit :=
  HandleBraceExprParamFinish NodeKind.StructTypeLiteralField
    NodeKind.StructTypeLiteralComma StateKind.BraceExprParamAsType.
Definition HandleBraceExprParamFinishAsValue : M unit :=
  HandleBraceExprParamFinish NodeKind.StructLiteralField NodeKind.StructLiteralComma
    StateKind.BraceExprParamAsValue.
Definition HandleBraceExprParamFinishAsUnknown : M unit :=
  HandleBraceExprParamFinish NodeKind.InvalidParse NodeKind.InvalidParse
    StateKind.BraceExprParamAsUnknown.

Definition HandleBraceExprFinish (start_kind end_kind : NodeKind.t) : M unit :=
  state ← PopState;
  ReplacePlaceholderNode (State.subtree_start state) start_kind (State.token state) false ;;
  t ← Consume;
  AddNode end_kind t (State.has_error state).

Definition HandleBraceExprFinishAsType : M unit :=
  HandleBraceExprFinish NodeKind.StructTypeLiteralStart NodeKind.StructTypeLiteral.
Definition HandleBraceExprFinishAsValue : M unit :=
  HandleBraceExprFinish NodeKind.StructLiteralStart NodeKind.StructLiteral.
Definition HandleBraceExprFinishAsUnknown : M unit := HandleBraceExprFinishAsValue.

(** * [handle_index_expr.cpp] *)

Definition HandleIndexExpr : M unit :=
  state ← PopState;
  PushStateAs state StateKind.IndexExprFinish ;;
  t ← ConsumeChecked TokenKind.OpenSquareBracket;
  AddNode NodeKind.IndexExprStart t (State.has_error state) ;;
  PushState StateKind.Expr.

Definition HandleIndexExprFinish : M unit :=
  state ← PopState; ConsumeAndAddCloseSymbol state NodeKind.IndexExpr.

(** * [handle_array_expr.cpp] *)

(** [if (auto open = ...) state.token = *open; else state.has_error = true;] *)
Definition note_open (open : option Z) (state : State.t) : State.t :=
  match open with
  | Some t => State.set_token t state
  | None => State.set_has_error true state
  end.

Definition HandleArrayExpr : M unit :=
  state ← PopState;
  array_token ← ConsumeChecked TokenKind.Array;
  AddLeafNodeWithError NodeKind.ArrayExprKeyword array_token (State.has_error state) ;;
  open_paren ← ConsumeAndAddOpenParen array_token NodeKind.ArrayExprOpenParen;
  PushStateAs (note_open open_paren state) StateKind.ArrayExprComma ;;
  PushState StateKind.Expr.

Definition HandleArrayExprComma : M unit :=
  state ← PopState;
  state ←
    (if! ConsumeAndAddLeafNodeIf TokenKind.Comma NodeKind.ArrayExprComma then mret state
     else
       p ← position;
       AddLeafNodeWithError NodeKind.ArrayExprComma p true ;;
       EmitHere DiagnosticKind.ExpectedArrayComma [] ;;
       mret (State.set_has_error true state));
  PushStateAs state StateKind.ArrayExprFinish ;;
  PushState StateKind.Expr.

Definition HandleArrayExprFinish : M unit :=
  state ← PopState; ConsumeAndAddCloseSymbol state NodeKind.ArrayExpr.

(** * [handle_form_literal.cpp] *)

Definition HandleFormLiteral : M unit :=
  state ← PopState;
  keyword ← ConsumeChecked TokenKind.Form;
  AddLeafNode NodeKind.FormLiteralKeyword keyword ;;
  paren ← ConsumeAndAddOpenParen keyword NodeKind.FormLiteralOpenParen;
  let state := note_open paren state in
  PushStateAs state StateKind.FormLiteralFinish ;;
  if State.has_error state then AddInvalidParse keyword
  else PushStateAt StateKind.PrimitiveForm keyword.

Definition HandlePrimitiveForm : M unit :=
  state ← PopState;
  k ← PositionKind;
  state ←
    (if TokenKind.IsOneOf k [TokenKind.Ref; TokenKind.Var; TokenKind.Val] then
       t ← Consume; mret (State.set_token t state)
     else
       EmitHere DiagnosticKind.ExpectedCategoryModifier [] ;;
       mret (State.set_has_error true state));
  PushStateAs state StateKind.PrimitiveFormFinish ;;
  PushState StateKind.Expr.

Definition HandlePrimitiveFormFinish : M unit :=
  state ← PopState;
  k ← GetKind (State.token state);
  nk ← match k with
       | TokenKind.Ref => mret NodeKind.RefPrimitiveForm
       | TokenKind.Var => mret NodeKind.VarPrimitiveForm
       | TokenKind.Val => mret NodeKind.ValPrimitiveForm
       | _ => check (State.has_error state) ;; mret NodeKind.ValPrimitiveForm
       end;
  AddNode nk (State.token state) (State.has_error state).

Definition HandleFormLiteralFinish : M unit :=
  state ← PopState; ConsumeAndAddCloseSymbol state NodeKind.FormLiteral.

(** * [handle_typeof_expr.cpp] *)

Definition HandleTypeOfExpr : M unit :=
  state ← PopState;
  keyword ← ConsumeChecked TokenKind.TypeOf;
  AddLeafNode NodeKind.TypeOfExprKeyword keyword ;;
  open_paren ← ConsumeAndAddOpenParen keyword NodeKind.TypeOfExprOpenParen;
  PushStateAs (note_open open_paren state) StateKind.TypeOfExprFinish ;;
  PushState StateKind.Expr.

Definition HandleTypeOfExprFinish : M unit :=
  state ← PopState; ConsumeAndAddCloseSymbol state NodeKind.TypeOfExpr.

(** * [handle_period.cpp] *)

(** The [else] branch of [HandlePeriodOrArrow]: no name follows. *)
Definition recover_member_name (is_arrow : bool) : M unit :=
  k ← PositionKind;
  let recover_as_raw := TokenKind.is_word k in
  EmitHere DiagnosticKind.ExpectedIdentifierAfterPeriodOrArrow
    [ArgBool is_arrow; ArgBool recover_as_raw] ;;
  if recover_as_raw then
    t ← Consume;
    word_as_identifier ← AddPostLexingRecoveryTokenAsIdentifier t;
    AddLeafNode NodeKind.IdentifierNameNotBeforeSignature word_as_identifier
  else
    p ← position;
    AddLeafNodeWithError NodeKind.IdentifierNameNotBeforeSignature p true ;;
    ReturnErrorOnState.

Definition HandlePeriodOrArrow (nk : NodeKind.t) (paren_state_kind : StateKind.t)
    (is_arrow : bool) : M unit :=
  state ← PopState;
  dot ← ConsumeChecked (if is_arrow then TokenKind.MinusGreater else TokenKind.Period);
  let finish := AddNode nk dot (State.has_error state) in
  if! ConsumeAndAddLeafNodeIf TokenKind.Identifier NodeKind.IdentifierNameNotBeforeSignature
  then finish
  else if! ConsumeAndAddLeafNodeIf TokenKind.Base NodeKind.BaseName then finish
  else if! (if negb (NodeKind.eqb nk NodeKind.StructFieldDesignator)
            then ConsumeAndAddLeafNodeIf TokenKind.IntLiteral NodeKind.IntLiteral
            else mret false)
  then finish
  else if! (if negb (StateKind.eqb paren_state_kind StateKind.Invalid)
            then PositionIs TokenKind.OpenParen
            else mret false)
  then
    PushStateAs state paren_state_kind ;;
    PushState StateKind.OnlyParenExpr
  else
    recover_member_name is_arrow ;; finish.

Definition HandlePeriodAsExpr : M unit :=
  HandlePeriodOrArrow NodeKind.MemberAccessExpr StateKind.CompoundMemberAccess false.
Definition HandlePeriodAsStruct : M unit :=
  HandlePeriodOrArrow NodeKind.StructFieldDesignator StateKind.Invalid false.
Definition HandleArrowExpr : M unit :=
  HandlePeriodOrArrow NodeKind.PointerMemberAccessExpr
    StateKind.CompoundPointerMemberAccess true.

Definition HandleCompoundMemberAccess : M unit :=
  state ← PopState;
  AddNode NodeKind.MemberAccessExpr (State.token state) (State.has_error state).
Definition HandleCompoundPointerMemberAccess : M unit :=
  state ← PopState;
  AddNode NodeKind.PointerMemberAccessExpr (State.token state) (State.has_error state).

(** * [handle_lambda.cpp] *)

Definition HandleLambdaIntroducer : M unit :=
  state ← PopState;
  t ← Consume;
  AddLeafNode NodeKind.LambdaIntroducer t ;;
  PushStateAs state StateKind.LambdaAfterIntroducer.

Definition HandleLambdaAfterIntroducer : M unit :=
  state ← PopState;
  if! PositionIs TokenKind.OpenSquareBracket then
    PushStateAs state StateKind.LambdaAfterImplicitParams ;;
    PushState StateKind.PatternListAsImplicit
  else if! PositionIs TokenKind.OpenParen then
    PushStateAs state StateKind.LambdaAfterParams ;;
    PushState StateKind.PatternListAsExplicit
  else PushStateAs state StateKind.LambdaAfterParams.

Definition HandleLambdaAfterImplicitParams : M unit :=
  state ← PopState;
  if! PositionIs TokenKind.OpenParen then
    PushStateAs state StateKind.LambdaAfterParams ;;
    PushState StateKind.PatternListAsExplicit
  else PushStateAs state StateKind.LambdaAfterParams.

(** The body, which [HandleLambdaAfterParams] and [HandleLambdaBody] parse
    alike; they differ in the diagnostic for a missing one. *)
Definition lambda_body (state : State.t) (missing : DiagnosticKind.t) : M unit :=
  if! PositionIs TokenKind.EqualGreater then
    t ← Consume;
    AddLeafNode NodeKind.TerseBodyArrow t ;;
    PushStateAs state StateKind.LambdaBodyFinish ;;
    PushStateForExpr PrecedenceGroup.ForTopLevelExpr
  else if! PositionIs TokenKind.OpenCurlyBrace then
    PushStateAs state StateKind.LambdaBodyFinish ;;
    PushState StateKind.CodeBlock
  else
    EmitHere missing [] ;;
    p ← position;
    AddLeafNodeWithError NodeKind.InvalidParse p true ;;
    PushStateAs (State.set_has_error true state) StateKind.LambdaBodyFinish.

Definition HandleLambdaAfterParams : M unit :=
  state ← PopState;
  if! PositionIs TokenKind.MinusGreater then
    PushStateAs state StateKind.LambdaBody ;;
    PushState StateKind.FunctionReturnTypeFinish ;;
    ConsumeAndDiscard ;;
    PushStateForExpr PrecedenceGroup.ForType
  else lambda_body state DiagnosticKind.ExpectedLambdaBody.

Definition HandleLambdaBody : M unit :=
  state ← PopState; lambda_body state DiagnosticKind.ExpectedLambdaBodyAfterReturnType.

Definition HandleLambdaBodyFinish : M unit :=
  state ← PopState; AddNode NodeKind.Lambda (State.token state) (State.has_error state).

(** * [handle_requirement.cpp] *)

(** The lookahead of [HandleRequirementBegin], left to right. *)
Definition at_designator_equal : M bool :=
  if! PositionIs TokenKind.Period then
    if! PositionIsAhead TokenKind.Identifier 1 then PositionIsAhead TokenKind.Equal 2
    else mret false
  else mret false.

Definition HandleRequirementBegin : M unit :=
  state ← PopState;
  (if! at_designator_equal then
     period ← Consume;
     name ← Consume;
     AddNode NodeKind.IdentifierNameNotBeforeSignature name false ;;
     AddNode NodeKind.DesignatorExpr period false ;;
     t ← Consume;
     PushStateAs (State.set_token t state) StateKind.RequirementOperatorFinish
   else PushState StateKind.RequirementOperator) ;;
  PushStateForExpr PrecedenceGroup.ForRequirements.

Definition HandleRequirementOperator : M unit :=
  state ← PopState;
  k ← PositionKind;
  let reject diag :=
    when (negb (State.has_error state)) (EmitHere diag []) ;; ReturnErrorOnState in
  match k with
  | TokenKind.Impls | TokenKind.EqualEqual =>
      t ← Consume;
      PushStateAs (State.set_token t state) StateKind.RequirementOperatorFinish ;;
      PushStateForExpr PrecedenceGroup.ForRequirements
  | TokenKind.Equal => reject DiagnosticKind.RequirementEqualAfterNonDesignator
  | _ => reject DiagnosticKind.ExpectedRequirementOperator
  end.

Definition HandleRequirementOperatorFinish : M unit :=
  state ← PopState;
  k ← GetKind (State.token state);
  nk ← match k with
       | TokenKind.Impls => mret NodeKind.RequirementImpls
       | TokenKind.Equal => mret NodeKind.RequirementEqual
       | TokenKind.EqualEqual => mret NodeKind.RequirementEqualEqual
       | _ => action_fail FatalError
       end;
  AddNode nk (State.token state) (State.has_error state) ;;
  when (State.has_error state) ReturnErrorOnState ;;
  if? t := ConsumeIf TokenKind.And then
    AddNode NodeKind.RequirementAnd t false ;;
    PushState StateKind.RequirementBegin
  else mret tt.

Definition HandleWhereFinish : M unit :=
  state ← PopState;
  when (State.has_error state) ReturnErrorOnState ;;
  AddNode NodeKind.WhereExpr (State.token state) (State.has_error state).
