(* ===== verification/HandlePattern.v ===== *)
(** Pattern states and the declarations that bind one pattern:
    [handle_pattern.cpp], [handle_binding_pattern.cpp],
    [handle_pattern_list.cpp], [handle_unused.cpp], [handle_let.cpp],
    [handle_var.cpp], and [handle_if_expr.cpp], whose [else] can belong to a
    [let]. *)

From S2P Require Import Prelude TokenKinds StateKinds NodeKinds Tokens Precedence.
From S2P Require Import ParseTree Diagnostics Context.

(** * [handle_pattern.cpp] *)

(** [PushStateForPattern] with every flag taken from [state]. *)
Definition PushStateForPatternLike (k : StateKind.t) (state : State.t) : M unit :=
  PushStateForPattern k (State.in_var_pattern state) (State.in_unused_pattern state)
    (State.in_field_shorthand_pattern state) (State.binding_context state)
    (State.ambient_precedence state).

(** The arms of [HandlePattern] selected by the token kind alone. *)
Definition pattern_introducer_state (k : TokenKind.t) : option StateKind.t :=
  match k with
  | TokenKind.OpenParen => Some StateKind.PatternListAsTuple
  | TokenKind.OpenCurlyBrace => Some StateKind.PatternListAsStruct
  | TokenKind.Var => Some StateKind.VariablePattern
  | TokenKind.Unused => Some StateKind.UnusedPattern
  | TokenKind.Template | TokenKind.Generic | TokenKind.Runtime | TokenKind.Ref
  | TokenKind.Each | TokenKind.SelfValueIdentifier => Some StateKind.BindingPattern
  | _ => None
  end.

(** [PositionKind().is_word() && PositionKind(NextToken).is_binding_pattern_operator()]. *)
Definition at_word_before_binding_operator : M bool :=
  k ← PositionKind;
  if TokenKind.is_word k then
    next ← PositionKindAhead 1;
    mret (TokenKind.is_binding_pattern_operator next)
  else mret false.

Definition HandlePattern : M unit :=
  state ← PopState;
  k ← PositionKind;
  match pattern_introducer_state k with
  | Some sk => PushStateForPatternLike sk state
  | None =>
      binding ← at_word_before_binding_operator;
      if binding || State.in_field_shorthand_pattern state then
        PushStateForPatternLike StateKind.BindingPattern state
      else
        PushStateForPatternLike StateKind.ExprPattern state ;;
        PushStateForExpr (State.ambient_precedence state)
  end.

(** [PositionIs(first) && PositionIs(second, NextToken)]. *)
Definition PositionIsPair (first second : TokenKind.t) : M bool :=
  if! PositionIs first then PositionIsAhead second 1 else mret false.

Definition PushRootPattern (in_var_pattern : bool) : M unit :=
  in_var_pattern ←
    (if! (if in_var_pattern then mret false
          else PositionIsPair TokenKind.Var TokenKind.Period)
     then
       var_token ← Consume;
       PushStateAt StateKind.FinishVariablePattern var_token ;;
       mret true
     else mret in_var_pattern);
  if! PositionIsPair TokenKind.Period TokenKind.Identifier then
    PushStateForPattern StateKind.MatchCaseAlternativePattern in_var_pattern false false
      ExplicitParam PrecedenceGroup.ForTopLevelPattern
  else
    PushStateForPattern StateKind.Pattern in_var_pattern false false ExplicitParam
      PrecedenceGroup.ForTopLevelPattern.

Definition HandleExprPattern : M unit :=
  state ← PopState;
  k ← PositionKind;
  state ←
    (if TokenKind.is_binding_pattern_operator k then
       state ←
         (if State.has_error state then mret state
          else
            EmitHere DiagnosticKind.ExpectedBindingName [ArgTokenKind k] ;;
            mret (State.set_has_error true state));
       Consume ;;
       mret state
     else mret state);
  when (State.has_error state) ReturnErrorOnState.

(** * [handle_binding_pattern.cpp] *)

(** [ResolveBindingPhase]; returns [resolved_generic] and
    [redundant_modifier]. *)
Definition ResolveBindingPhase (state : State.t) (is_form : bool)
    (template_token generic_token runtime_token : option Z) : M (bool * bool) :=
  let in_explicit := bool_decide (State.binding_context state = ExplicitParam) in
  let resolved_generic :=
    if is_some template_token || is_some generic_token then true
    else if is_some runtime_token then false
    else negb in_explicit in
  if is_form || State.has_error state then mret (resolved_generic, false)
  else
    match generic_token, runtime_token with
    | Some g, _ =>
        if negb in_explicit then
          Emit DiagnosticKind.RedundantGenericModifier g [] ;; mret (resolved_generic, true)
        else
          match runtime_token with
          | Some r => Emit DiagnosticKind.RedundantRuntimeModifier r [] ;;
                      mret (resolved_generic, true)
          | None => mret (resolved_generic, false)
          end
    | None, Some r =>
        if in_explicit then
          Emit DiagnosticKind.RedundantRuntimeModifier r [] ;; mret (resolved_generic, true)
        else mret (resolved_generic, false)
    | None, None => mret (resolved_generic, false)
    end.

(** The lambda [on_error] of [HandleBindingPattern]; returns the updated
    state. *)
Definition binding_on_error (state : State.t) (expected_name recover_as_raw : bool)
    : M State.t :=
  if State.has_error state then mret state
  else
    EmitHere DiagnosticKind.ExpectedBindingPattern
      [ArgBool expected_name; ArgBool recover_as_raw] ;;
    mret (State.set_has_error (negb recover_as_raw) state).

(** The tokens [HandleBindingPattern] consumes before the name. *)
Record BindingModifiers := {
  template_token : option Z;
  generic_token : option Z;
  runtime_token : option Z;
  ref_token : option Z;
  misordered_unused_token : option Z;
  misordered_unused_modifier : TokenKind.t;
  each_token : option Z;
}.

(** Its first part: phase keywords, [ref], a misordered [unused] and [each]. *)
Definition parse_binding_modifiers (state : State.t) : M (State.t * BindingModifiers) :=
  template_token ← ConsumeIf TokenKind.Template;
  generic_token ← ConsumeIf TokenKind.Generic;
  runtime_token ← ConsumeIf TokenKind.Runtime;
  ref_token ← ConsumeIf TokenKind.Ref;
  state ←
    match ref_token with
    | Some r =>
        if State.in_var_pattern state then
          Emit DiagnosticKind.RefInsideVar r [] ;; mret (State.set_has_error true state)
        else mret state
    | None => mret state
    end;
  let modified := is_some template_token || is_some generic_token ||
                  is_some runtime_token || is_some ref_token in
  misordered ←
    (if! (if modified then PositionIs TokenKind.Unused else mret false) then
       PushState StateKind.FinishUnusedPattern ;;
       t ← ConsumeChecked TokenKind.Unused;
       mret (Some t)
     else mret None);
  each_token ← ConsumeIf TokenKind.Each;
  mret (state,
    {| template_token := template_token; generic_token := generic_token;
       runtime_token := runtime_token; ref_token := ref_token;
       misordered_unused_token := misordered;
       misordered_unused_modifier :=
         if is_some misordered then
           if is_some template_token then TokenKind.Template
           else if is_some generic_token then TokenKind.Generic
           else if is_some runtime_token then TokenKind.Runtime
           else TokenKind.Ref
         else TokenKind.Unused;
       each_token := each_token |}).

(** Its second part: the name. Returns the state, [self_token] and
    [has_identifier_name]. *)
Definition parse_binding_name (state : State.t) : M (State.t * option Z * bool) :=
  if? identifier := ConsumeIf TokenKind.Identifier then
    AddLeafNode NodeKind.IdentifierNameNotBeforeSignature identifier ;;
    mret (state, None, true)
  else if? self := ConsumeIf TokenKind.SelfValueIdentifier then
    AddLeafNode NodeKind.SelfValueName self ;;
    mret (state, Some self, false)
  else if? underscore := ConsumeIf TokenKind.Underscore then
    state ←
      (if State.in_field_shorthand_pattern state then
         EmitHere DiagnosticKind.AnonymousBindingInStructPattern [] ;;
         mret (State.set_has_error true state)
       else mret state);
    AddLeafNode NodeKind.UnderscoreName underscore ;;
    mret (state, None, false)
  else if! at_word_before_binding_operator then
    t ← Consume;
    word_as_identifier ← AddPostLexingRecoveryTokenAsIdentifier t;
    AddLeafNode NodeKind.IdentifierNameNotBeforeSignature word_as_identifier ;;
    state ← binding_on_error state true true;
    mret (state, None, false)
  else
    p ← position;
    AddLeafNodeWithError NodeKind.IdentifierNameNotBeforeSignature p true ;;
    state ← binding_on_error state true false;
    mret (state, None, false).

(** Its third part: the [each] wrapper. *)
Definition wrap_each_name (state : State.t) (each_token : option Z)
    (has_identifier_name : bool) : M State.t :=
  match each_token with
  | Some each =>
      state ←
        (if negb has_identifier_name && negb (State.has_error state) then
           Emit DiagnosticKind.ExpectedIdentifierAfterEachInBinding each [] ;;
           mret (State.set_has_error true state)
         else mret state);
      AddNode NodeKind.EachBindingName each (State.has_error state) ;;
      mret state
  | None => mret state
  end.

(** The branch without a binding operator. *)
Definition finish_untyped_binding (state : State.t) (m : BindingModifiers)
    (self_token : option Z) : M unit :=
  let phased := is_some (template_token m) || is_some (generic_token m) ||
                is_some (runtime_token m) in
  match self_token, phased with
  | Some self, false =>
      match ref_token m with
      | Some r => AddNode NodeKind.RefBindingName r (State.has_error state)
      | None => mret tt
      end ;;
      AddNode NodeKind.SelfBindingPattern self (State.has_error state) ;;
      when (State.has_error state) ReturnErrorOnState
  | _, _ =>
      state ← binding_on_error state false false;
      p ← position;
      AddInvalidParse p ;;
      AddInvalidParse p ;;
      PushStateAs state StateKind.BindingPatternFinishAsRegular
  end.

(** A modifier that wraps the name with [nk] where it is [allowed], and is
    diagnosed otherwise. *)
Definition wrap_or_diagnose (state : State.t) (modifier : option Z) (allowed : bool)
    (nk : NodeKind.t) (diag : DiagnosticKind.t) : M State.t :=
  match modifier with
  | Some t =>
      if allowed then AddNode nk t (State.has_error state) ;; mret state
      else
        when (negb (State.has_error state)) (Emit diag t []) ;;
        mret (State.set_has_error true state)
  | None => mret state
  end.

(** The branch with a binding operator. *)
Definition finish_typed_binding (state : State.t) (m : BindingModifiers)
    (self_token : option Z) (token_kind : TokenKind.t) : M unit :=
  let is_form := TokenKind.eqb token_kind TokenKind.ColonQuestion in
  phase ← ResolveBindingPhase state is_form (template_token m) (generic_token m)
            (runtime_token m);
  let resolved_generic := if is_some self_token then false else phase.1 in
  let redundant_modifier : bool := phase.2 in
  state ← wrap_or_diagnose state (template_token m) (negb (is_form || negb resolved_generic))
            NodeKind.TemplateBindingName
            DiagnosticKind.ExpectedGenericBindingPatternAfterTemplate;
  state ← wrap_or_diagnose state (ref_token m) (negb (is_form || resolved_generic))
            NodeKind.RefBindingName DiagnosticKind.ExpectedRuntimeBindingPatternAfterRef;
  match runtime_token m with
  | Some r =>
      when (negb is_form && negb resolved_generic)
        (AddNode NodeKind.RuntimeBindingName r (State.has_error state))
  | None => mret tt
  end ;;
  state ←
    match misordered_unused_token m with
    | Some u =>
        if negb redundant_modifier && negb (State.has_error state) then
          Emit DiagnosticKind.UnusedAfterBindingModifier u
            [ArgTokenKind (misordered_unused_modifier m)] ;;
          mret (State.set_has_error true state)
        else mret state
    | None => mret state
    end;
  let state := State.set_kind
    (if is_form then StateKind.BindingPatternFinishAsForm
     else if resolved_generic then StateKind.BindingPatternFinishAsGeneric
     else StateKind.BindingPatternFinishAsRegular) state in
  t ← Consume;
  let state := State.set_token t state in
  AddLeafNodeWithError
    (if negb is_form && resolved_generic then NodeKind.CompileTimeBindingPatternTypeStart
     else NodeKind.BindingPatternTypeStart)
    (State.token state) (State.has_error state) ;;
  PushStateVal state ;;
  PushStateForExpr PrecedenceGroup.ForType.

Definition HandleBindingPattern : M unit :=
  state ← PopState;
  r ← parse_binding_modifiers state;
  let m := r.2 in
  r ← parse_binding_name r.1;
  let self_token := r.1.2 in
  state ← wrap_each_name r.1.1 (each_token m) r.2;
  token_kind ← PositionKind;
  if negb (TokenKind.is_binding_pattern_operator token_kind) then
    finish_untyped_binding state m self_token
  else finish_typed_binding state m self_token token_kind.

Definition HandleBindingPatternFinish (finish_kind : StateKind.t) : M unit :=
  state ← PopState;
  r ←
    (if State.in_var_pattern state then
       if negb (StateKind.eqb finish_kind StateKind.BindingPatternFinishAsRegular) then
         EmitHere DiagnosticKind.NonRegularBindingInVarDecl
           [ArgBool (StateKind.eqb finish_kind StateKind.BindingPatternFinishAsGeneric)] ;;
         mret (NodeKind.VarBindingPattern, State.set_has_error true state)
       else mret (NodeKind.VarBindingPattern, state)
     else
       match finish_kind with
       | StateKind.BindingPatternFinishAsGeneric =>
           mret (NodeKind.CompileTimeBindingPattern, state)
       | StateKind.BindingPatternFinishAsRegular => mret (NodeKind.LetBindingPattern, state)
       | StateKind.BindingPatternFinishAsForm => mret (NodeKind.FormBindingPattern, state)
       | _ => action_fail FatalError
       end);
  let state : State.t := r.2 in
  AddNode r.1 (State.token state) (State.has_error state) ;;
  when (State.has_error state) ReturnErrorOnState.

Definition HandleBindingPatternFinishAsGeneric : M unit :=
  HandleBindingPatternFinish StateKind.BindingPatternFinishAsGeneric.
Definition HandleBindingPatternFinishAsRegular : M unit :=
  HandleBindingPatternFinish StateKind.BindingPatternFinishAsRegular.
Definition HandleBindingPatternFinishAsForm : M unit :=
  HandleBindingPatternFinish StateKind.BindingPatternFinishAsForm.

(** * [handle_unused.cpp] *)

(** [state.has_error] is set after [NestedUnused] but the finish state pushed
    next is a fresh one. *)
Definition HandleUnusedPattern : M unit :=
  state ← PopState;
  when (State.in_unused_pattern state) (EmitHere DiagnosticKind.NestedUnused []) ;;
  PushState StateKind.FinishUnusedPattern ;;
  ConsumeChecked TokenKind.Unused ;;
  PushStateForPattern StateKind.Pattern (State.in_var_pattern state) true
    (State.in_field_shorthand_pattern state) (State.binding_context state)
    (State.ambient_precedence state).

Definition HandleFinishUnusedPattern : M unit :=
  state ← PopState;
  AddNode NodeKind.UnusedPattern (State.token state) (State.has_error state) ;;
  when (State.has_error state) ReturnErrorOnState.
