(* ===== verification/HandlePatternList.v ===== *)
(** Pattern lists, parameter lists and struct patterns:
    [handle_pattern_list.cpp]. *)

From S2P Require Import Prelude TokenKinds StateKinds NodeKinds Tokens Precedence.
From S2P Require Import ParseTree Diagnostics Context HandlePattern.

Definition HandlePatternListElement (pattern_state finish_state_kind : StateKind.t)
    (allow_pack_expansion : bool) : M unit :=
  state ← PopState;
  PushStateForPatternLike finish_state_kind state ;;
  when (negb (StateKind.eqb pattern_state StateKind.StructPatternFieldAfterDesignator))
    (PushStateForPatternLike StateKind.PatternListElementCheckForDefaultValue state) ;;
  (if! (if allow_pack_expansion then PositionIs TokenKind.PeriodPeriodPeriod
        else mret false)
   then
     PushState StateKind.PackExpansionPatternFinish ;;
     t ← Consume;
     AddLeafNode NodeKind.PackExpansionStart t
   else mret tt) ;;
  PushStateForPatternLike pattern_state state.

Definition HandlePatternListElementAsTuple : M unit :=
  HandlePatternListElement StateKind.Pattern StateKind.PatternListElementFinishAsTuple true.
Definition HandlePatternListElementAsExplicit : M unit :=
  HandlePatternListElement StateKind.Pattern StateKind.PatternListElementFinishAsExplicit
    true.
Definition HandlePatternListElementAsImplicit : M unit :=
  HandlePatternListElement StateKind.Pattern StateKind.PatternListElementFinishAsImplicit
    true.
Definition HandlePatternListElementAsStruct : M unit :=
  k ← PositionKind;
  match k with
  | TokenKind.Period =>
      HandlePatternListElement StateKind.StructPatternFieldAfterDesignator
        StateKind.PatternListElementFinishAsStruct false ;;
      PushState StateKind.PeriodAsStruct
  | TokenKind.Underscore =>
      modify_top (State.set_in_field_shorthand_pattern true) ;;
      HandlePatternListElement StateKind.StructPatternUnderscore
        StateKind.PatternListElementFinishAsStruct false
  | _ =>
      modify_top (State.set_in_field_shorthand_pattern true) ;;
      HandlePatternListElement StateKind.Pattern
        StateKind.PatternListElementFinishAsStruct false
  end.

Definition HandlePackExpansionPatternFinish : M unit :=
  state ← PopState;
  AddNode NodeKind.PackExpansionPattern (State.token state) (State.has_error state) ;;
  when (State.has_error state) ReturnErrorOnState.

Definition HandleStructPatternDesignatedFieldFinish : M unit :=
  state ← PopState;
  AddNode NodeKind.StructPatternDesignatedField (State.token state) (State.has_error state).

(** The lambda [skip_to_recovery_position]; dereferencing an empty
    [recovery_pos] is a failed check. *)
Definition skip_to_recovery_position (add_invalid_parse : bool) : M unit :=
  recovery_pos ←
    FindNextOf [TokenKind.Equal; TokenKind.Comma; TokenKind.CloseCurlyBrace];
  match recovery_pos with
  | None => action_fail CheckFailed
  | Some t =>
      when add_invalid_parse
        (k ← GetKind t;
         when (negb (TokenKind.eqb k TokenKind.Equal)) (p ← position; AddInvalidParse p)) ;;
      SkipTo t
  end.

(** The part of [HandleStructPatternFieldAfterDesignator] without an [=];
    returns the state and whether the field ends here. *)
Definition recover_designated_field (state : State.t) : M (State.t * bool) :=
  state ←
    (if State.has_error state then mret state
     else
       EmitHere DiagnosticKind.ExpectedStructPatternDesignatedField [] ;;
       mret (State.set_has_error true state));
  skip_to_recovery_position true ;;
  ended ← (if! PositionIs TokenKind.Comma then mret true
           else PositionIs TokenKind.CloseCurlyBrace);
  mret (state, ended).

Definition HandleStructPatternFieldAfterDesignator : M unit :=
  state ← PopState;
  when (State.has_error state) (skip_to_recovery_position false) ;;
  r ← (if! PositionIs TokenKind.Equal then mret (state, false)
       else recover_designated_field state);
  let state : State.t := r.1 in
  if (r.2 : bool) then PushStateAs state StateKind.StructPatternDesignatedFieldFinish
  else
    t ← ConsumeChecked TokenKind.Equal;
    let state := State.set_token t state in
    PushStateAs state StateKind.StructPatternDesignatedFieldFinish ;;
    PushStateForPatternLike StateKind.Pattern state.

Definition HandleStructPatternUnderscore : M unit :=
  state ← PopState;
  next ← PositionKindAhead 1;
  if TokenKind.is_binding_pattern_operator next then
    PushStateForPatternLike StateKind.BindingPattern state
  else
    underscore ← ConsumeChecked TokenKind.Underscore;
    is_last ← PositionIs TokenKind.CloseCurlyBrace;
    state ←
      (if negb is_last then
         k ← PositionKind;
         EmitHere DiagnosticKind.ExpectedCloseAfterUnderscore [ArgTokenKind k] ;;
         mret (State.set_has_error true state)
       else mret state);
    AddNode NodeKind.UnderscoreName underscore (State.has_error state) ;;
    when (State.has_error state) ReturnErrorOnState.

Definition HandlePatternListElementCheckForDefaultValue : M unit :=
  state ← PopState;
  when (State.has_error state) ReturnErrorOnState ;;
  if? equals_token := ConsumeIf TokenKind.Equal then
    AddLeafNode NodeKind.DefaultValueExprStart equals_token ;;
    PushStateVal (State.set_kind StateKind.PatternListElementFinishDefaultValue
                    (State.set_token equals_token state)) ;;
    if? underscore := ConsumeIf TokenKind.Underscore then
      AddLeafNode NodeKind.DefaultValueUnspecified underscore
    else PushStateForExpr (State.ambient_precedence state)
  else mret tt.

Definition HandlePatternListElementFinishDefaultValue : M unit :=
  state ← PopState;
  when (State.has_error state) ReturnErrorOnState ;;
  AddNode NodeKind.DefaultValuePattern (State.token state) (State.has_error state).

(** A comma makes the enclosing parenthesised pattern a tuple pattern. *)
Definition convert_paren_to_tuple : M unit :=
  parent_state ← PopState;
  check (StateKind.eqb (State.kind parent_state) StateKind.PatternListFinishAsTuple ||
         StateKind.eqb (State.kind parent_state) StateKind.PatternListFinishAsParen) ;;
  PushStateAs parent_state StateKind.PatternListFinishAsTuple.

Definition HandlePatternListElementFinish (close_token : TokenKind.t)
    (param_state_kind : StateKind.t) : M unit :=
  state ← PopState;
  when (State.has_error state) ReturnErrorOnState ;;
  list_token_kind ←
    ConsumeListToken NodeKind.PatternListComma close_token (State.has_error state);
  when (negb (bool_decide (list_token_kind = Close)) &&
        StateKind.eqb param_state_kind StateKind.PatternListElementAsTuple)
    convert_paren_to_tuple ;;
  when (bool_decide (list_token_kind = Comma))
    (PushStateForPattern param_state_kind (State.in_var_pattern state)
       (State.in_unused_pattern state) false (State.binding_context state)
       (State.ambient_precedence state)).

Definition HandlePatternListElementFinishAsTuple : M unit :=
  HandlePatternListElementFinish TokenKind.CloseParen StateKind.PatternListElementAsTuple.
Definition HandlePatternListElementFinishAsStruct : M unit :=
  HandlePatternListElementFinish TokenKind.CloseCurlyBrace
    StateKind.PatternListElementAsStruct.
Definition HandlePatternListElementFinishAsExplicit : M unit :=
  HandlePatternListElementFinish TokenKind.CloseParen
    StateKind.PatternListElementAsExplicit.
Definition HandlePatternListElementFinishAsImplicit : M unit :=
  HandlePatternListElementFinish TokenKind.CloseSquareBracket
    StateKind.PatternListElementAsImplicit.

(** The diagnostic for a nested tuple or struct pattern in a shorthand
    field. *)
Definition nested_in_shorthand_diagnostic (node_kind : NodeKind.t)
    : option DiagnosticKind.t :=
  match node_kind with
  | NodeKind.TuplePatternStart =>
      Some DiagnosticKind.NestedTuplePatternInStructPatternShortField
  | NodeKind.StructPatternStart =>
      Some DiagnosticKind.NestedStructPatternStructPatternShortField
  | _ => None
  end.

Definition HandlePatternList (node_kind : NodeKind.t)
    (open_token_kind close_token_kind : TokenKind.t)
    (param_state finish_state_empty finish_state_nonempty : StateKind.t) : M unit :=
  state ← PopState;
  when (State.in_field_shorthand_pattern state)
    match nested_in_shorthand_diagnostic node_kind with
    | Some d => EmitHere d [] ;; ReturnErrorOnState
    | None => mret tt
    end ;;
  open_token ← ConsumeChecked open_token_kind;
  empty ← PositionIs close_token_kind;
  PushStateForPatternLike
    (if (empty : bool) then finish_state_empty else finish_state_nonempty) state ;;
  AddLeafNode node_kind open_token ;;
  when (negb empty)
    (PushStateForPattern param_state (State.in_var_pattern state)
       (State.in_unused_pattern state) (State.in_field_shorthand_pattern state)
       (State.binding_context state) PrecedenceGroup.ForTopLevelExpr).

Definition HandlePatternListAsTuple : M unit :=
  HandlePatternList NodeKind.TuplePatternStart TokenKind.OpenParen TokenKind.CloseParen
    StateKind.PatternListElementAsTuple StateKind.PatternListFinishAsTuple
    StateKind.PatternListFinishAsParen.
Definition HandlePatternListAsStruct : M unit :=
  HandlePatternList NodeKind.StructPatternStart TokenKind.OpenCurlyBrace
    TokenKind.CloseCurlyBrace StateKind.PatternListElementAsStruct
    StateKind.PatternListFinishAsStruct StateKind.PatternListFinishAsStruct.
Definition HandlePatternListAsExplicit : M unit :=
  HandlePatternList NodeKind.ExplicitParamListStart TokenKind.OpenParen
    TokenKind.CloseParen StateKind.PatternListElementAsExplicit
    StateKind.PatternListFinishAsExplicit StateKind.PatternListFinishAsExplicit.
Definition HandlePatternListAsImplicit : M unit :=
  HandlePatternList NodeKind.ImplicitParamListStart TokenKind.OpenSquareBracket
    TokenKind.CloseSquareBracket StateKind.PatternListElementAsImplicit
    StateKind.PatternListFinishAsImplicit StateKind.PatternListFinishAsImplicit.

Definition HandlePatternListFinish (node_kind : NodeKind.t) (token_kind : TokenKind.t)
    : M unit :=
  state ← PopState;
  t ← ConsumeChecked token_kind;
  AddNode node_kind t (State.has_error state).

Definition HandlePatternListFinishAsParen : M unit :=
  HandlePatternListFinish NodeKind.ParenPattern TokenKind.CloseParen.
Definition HandlePatternListFinishAsTuple : M unit :=
  HandlePatternListFinish NodeKind.TuplePattern TokenKind.CloseParen.
Definition HandlePatternListFinishAsStruct : M unit :=
  HandlePatternListFinish NodeKind.StructPattern TokenKind.CloseCurlyBrace.
Definition HandlePatternListFinishAsExplicit : M unit :=
  HandlePatternListFinish NodeKind.ExplicitParamList TokenKind.CloseParen.
Definition HandlePatternListFinishAsImplicit : M unit :=
  HandlePatternListFinish NodeKind.ImplicitParamList TokenKind.CloseSquareBracket.
