(* ===== verification/HandleLetVar.v ===== *)
(** [let], [var] and [let]-[else] declarations, and [if] expressions, whose
    [else] can belong to a [let]: [handle_let.cpp], [handle_var.cpp] and
    [handle_if_expr.cpp]. *)

From S2P Require Import Prelude TokenKinds StateKinds NodeKinds Tokens Precedence.
From S2P Require Import ParseTree Diagnostics Context HandlePattern.

(** * [handle_let.cpp] *)

Definition HandleLet : M unit :=
  state ← PopState;
  PushStateAs state StateKind.LetFinishAsRegular ;;
  PushStateAs state StateKind.LetAfterPatternAsRegular ;;
  PushRootPattern false.

(** The diagnostic for an associated constant without a name. *)
Definition missing_constant_name (k : TokenKind.t) : DiagnosticKind.t :=
  if TokenKind.IsOneOf k [TokenKind.Generic; TokenKind.Runtime; TokenKind.Template]
  then DiagnosticKind.PhaseKeywordInAssociatedConstant
  else DiagnosticKind.ExpectedAssociatedConstantIdentifier.

Definition HandleAssociatedConstant : M unit :=
  state ← PopState;
  identifier ← ConsumeIf TokenKind.Identifier;
  when (negb (is_some identifier))
    (k ← PositionKind; EmitHere (missing_constant_name k) []) ;;
  colon ← ConsumeIf TokenKind.Colon;
  when (is_some identifier && negb (is_some colon))
    (EmitHere DiagnosticKind.ExpectedAssociatedConstantColon []) ;;
  match identifier, colon with
  | Some identifier, Some colon =>
      AddLeafNode NodeKind.IdentifierNameNotBeforeSignature identifier ;;
      let state := State.set_token colon state in
      PushStateAs state StateKind.LetFinishAsAssociatedConstant ;;
      PushStateAs state StateKind.LetAfterPatternAsAssociatedConstant ;;
      PushState StateKind.Expr
  | _, _ =>
      p ← position;
      end_token ← SkipPastLikelyEnd (p - 1);
      AddNode NodeKind.AssociatedConstantDecl end_token true
  end.

(** After a pattern in error, both [let] and [var] look for [=] or [;]. *)
Definition skip_to_initializer : M unit :=
  if? after_pattern := FindNextOf [TokenKind.Equal; TokenKind.Semi] then
    SkipTo after_pattern
  else mret tt.

Definition HandleLetAfterPattern (init_kind : NodeKind.t) : M unit :=
  state ← PopState;
  when (State.has_error state) skip_to_initializer ;;
  if? equals := ConsumeIf TokenKind.Equal then
    AddLeafNode init_kind equals ;;
    PushState StateKind.Expr
  else mret tt.

Definition HandleLetAfterPatternAsRegular : M unit :=
  HandleLetAfterPattern NodeKind.LetInitializer.
Definition HandleLetAfterPatternAsAssociatedConstant : M unit :=
  state ← PopState;
  AddNode NodeKind.AssociatedConstantNameAndType (State.token state)
    (State.has_error state) ;;
  PushStateVal state ;;
  HandleLetAfterPattern NodeKind.AssociatedConstantInitializer.

(** The end of a [let] or [var]: [;], or recovery to the declaration's end. *)
Definition finish_at_semi (state : State.t) (node_kind : NodeKind.t)
    (decl_kind : TokenKind.t) : M unit :=
  if! PositionIs TokenKind.Semi then
    end_token ← Consume;
    AddNode node_kind end_token (State.has_error state)
  else
    DiagnoseExpectedDeclSemi decl_kind ;;
    end_token ← SkipPastLikelyEnd (State.token state);
    AddNode node_kind end_token true.

Definition HandleLetFinish (node_kind : NodeKind.t) : M unit :=
  state ← PopState; finish_at_semi state node_kind TokenKind.Let.

Definition DiagnoseLetElseUnparenthesizedIfExpr : M unit :=
  EmitHere DiagnosticKind.LetElseUnparenthesizedIfExpr [].

Definition StartLetElse (state : State.t) (introducer_kind : NodeKind.t) : M unit :=
  size ← tree_size;
  let last := size - 1 in
  last_kind ← node_kind last;
  state ←
    (if! (if NodeKind.eqb last_kind NodeKind.IfExprElse then
            e ← node_has_error last; mret (negb e)
          else mret false)
     then
       DiagnoseLetElseUnparenthesizedIfExpr ;; mret (State.set_has_error true state)
     else mret state);
  ReplaceIntroducerNode (State.subtree_start state) introducer_kind
    NodeKind.LetElseIntroducer ;;
  t ← ConsumeChecked TokenKind.Else;
  AddLeafNode NodeKind.LetElse t ;;
  PushStateAs state StateKind.LetElseFinish ;;
  PushState StateKind.CodeBlock.

Definition HandleLetElseFinish : M unit :=
  state ← PopState;
  t ← node_token (State.subtree_start state);
  AddNode NodeKind.LetElseDecl t (State.has_error state).

Definition HandleLetFinishAsRegular : M unit :=
  if! PositionIs TokenKind.Else then
    state ← PopState; StartLetElse state NodeKind.LetIntroducer
  else HandleLetFinish NodeKind.LetDecl.

Definition HandleLetFinishAsAssociatedConstant : M unit :=
  HandleLetFinish NodeKind.AssociatedConstantDecl.

(** * [handle_var.cpp] *)

(** [HandleVar]; [returned_token] is [None] for [TokenIndex::None]. *)
Definition HandleVar (finish_state_kind : StateKind.t) (returned_token : option Z)
    : M unit :=
  state ← PopState;
  PushStateAs state finish_state_kind ;;
  p ← position;
  PushStateAs (State.set_token (p - 1) state) StateKind.VarAfterPattern ;;
  match returned_token with
  | Some t => AddLeafNode NodeKind.ReturnedModifier t
  | None => mret tt
  end ;;
  PushRootPattern true.

Definition HandleVarAsRegular : M unit := HandleVar StateKind.VarFinish None.

Definition HandleVarAsReturned : M unit :=
  returned_token ← Consume;
  if! PositionIs TokenKind.Var then
    t ← Consume;
    AddLeafNode NodeKind.VariableIntroducer t ;;
    HandleVar StateKind.VarFinish (Some returned_token)
  else
    EmitHere DiagnosticKind.ExpectedVarAfterReturned [] ;;
    t ← SkipPastLikelyEnd returned_token;
    AddLeafNodeWithError NodeKind.EmptyDecl t true ;;
    PopAndDiscardState.

Definition HandleVarAfterPattern : M unit :=
  state ← PopState;
  when (State.has_error state) skip_to_initializer ;;
  AddNode NodeKind.VariablePattern (State.token state) (State.has_error state) ;;
  if! PositionIs TokenKind.Equal then
    t ← ConsumeChecked TokenKind.Equal;
    AddLeafNode NodeKind.VariableInitializer t ;;
    PushState StateKind.Expr
  else mret tt.

Definition HandleVarFinish : M unit :=
  state ← PopState;
  if! PositionIs TokenKind.Else then StartLetElse state NodeKind.VariableIntroducer
  else finish_at_semi state NodeKind.VariableDecl TokenKind.Var.

Definition HandleVariablePattern : M unit :=
  state ← PopState;
  state ←
    (if State.in_var_pattern state then
       EmitHere DiagnosticKind.NestedVar [] ;; mret (State.set_has_error true state)
     else mret state);
  PushStateVal (State.set_kind StateKind.FinishVariablePattern state) ;;
  ConsumeChecked TokenKind.Var ;;
  PushStateForPattern StateKind.Pattern true (State.in_unused_pattern state)
    (State.in_field_shorthand_pattern state) ExplicitParam
    (State.ambient_precedence state).

Definition HandleFinishVariablePattern : M unit :=
  state ← PopState;
  AddNode NodeKind.VariablePattern (State.token state) (State.has_error state) ;;
  when (State.has_error state) ReturnErrorOnState.

(** * [handle_if_expr.cpp] *)

(** [*PrecedenceGroup::ForLeading(Lex::TokenKind::If)]. *)
Definition if_operand_precedence : Result PrecedenceLevel.t :=
  match PrecedenceGroup.ForLeading TokenKind.If with
  | Some p => Ok p
  | None => Err CheckFailed
  end.

Definition PushStateForIfOperand : M unit :=
  p ← lift_result (λ _, if_operand_precedence); PushStateForExpr p.

(** Adds [n] invalid nodes at the current position and marks the enclosing
    state. *)
Fixpoint add_invalid_nodes (n : nat) : M unit :=
  match n with
  | O => ReturnErrorOnState
  | S n => p ← position; AddInvalidParse p ;; add_invalid_nodes n
  end.

Definition HandleIfExprFinishCondition : M unit :=
  state ← PopState;
  AddNode NodeKind.IfExprIf (State.token state) (State.has_error state) ;;
  if! PositionIs TokenKind.Then then
    PushState StateKind.IfExprFinishThen ;;
    ConsumeChecked TokenKind.Then ;;
    PushStateForIfOperand
  else
    when (negb (State.has_error state)) (EmitHere DiagnosticKind.ExpectedThenAfterIf []) ;;
    add_invalid_nodes 2.

(** [is_let_initializer]: the [if] is the whole initializer of a [let] or
    [var]. *)
Definition is_let_initializer (stack : list State.t) : bool :=
  match State.kind <$> stack with
  | StateKind.IfExprFinish :: StateKind.LetFinishAsRegular :: _
  | StateKind.IfExprFinish :: StateKind.VarFinish :: _ => true
  | _ => false
  end.

(** The [let]-[else] ambiguity of [HandleIfExprFinishThen]. *)
Definition at_let_else_block : M bool :=
  if! PositionIsPair TokenKind.Else TokenKind.OpenCurlyBrace then
    after_brace ← PositionKindAhead 2;
    stack ← state_stack;
    mret (is_let_initializer stack &&
          negb (TokenKind.IsOneOf after_brace
                  [TokenKind.Period; TokenKind.CloseCurlyBrace]))
  else mret false.

Definition HandleIfExprFinishThen : M unit :=
  state ← PopState;
  AddNode NodeKind.IfExprThen (State.token state) (State.has_error state) ;;
  if! at_let_else_block then
    DiagnoseLetElseUnparenthesizedIfExpr ;; add_invalid_nodes 1
  else if! PositionIs TokenKind.Else then
    PushState StateKind.IfExprFinishElse ;;
    ConsumeChecked TokenKind.Else ;;
    PushStateForIfOperand
  else
    when (negb (State.has_error state)) (EmitHere DiagnosticKind.ExpectedElseAfterIf []) ;;
    add_invalid_nodes 1.

Definition HandleIfExprFinishElse : M unit :=
  else_state ← PopState;
  if_state ← PopState;
  PushStateVal
    (State.set_has_error (State.has_error if_state || State.has_error else_state)
       (State.set_token (State.token else_state) if_state)).

Definition HandleIfExprFinish : M unit :=
  state ← PopState;
  AddNode NodeKind.IfExprElse (State.token state) (State.has_error state).
