(* ===== verification/HandleDeclScope.v ===== *)
(** Declaration scopes: the introducer table, modifiers and the scope loop of
    [handle_decl_scope_loop.cpp]. *)

From S2P Require Import Prelude TokenKinds StateKinds NodeKinds Tokens Precedence.
From S2P Require Import ParseTree Diagnostics Context.

Definition FinishAndSkipInvalidDecl (subtree_start : Z) : M unit :=
  cursor ← position;
  ReplacePlaceholderNode subtree_start NodeKind.InvalidParseStart cursor true ;;
  t ← SkipPastLikelyEnd cursor;
  AddNode NodeKind.InvalidParseSubtree t true.

Definition HandleUnrecognizedDecl (subtree_start : Z) : M unit :=
  EmitHere DiagnosticKind.UnrecognizedDecl [] ;;
  FinishAndSkipInvalidDecl subtree_start.

Definition ApplyIntroducer (state : State.t) (introducer_kind : NodeKind.t)
    (next_state_kind : StateKind.t) : M unit :=
  t ← Consume;
  ReplacePlaceholderNode (State.subtree_start state) introducer_kind t false ;;
  PushStateAs state next_state_kind.

(** * The introducer table *)

Inductive DeclContextKind : Set :=
  | RegularContext | ClassContext | InterfaceContext | UnionContext.

Inductive DeclIntroducerKind : Set :=
  | Unrecognized | PackagingDecl | NonPackagingDecl.

#[export] Instance DeclContextKind_eq_dec : EqDecision DeclContextKind.
Proof. solve_decision. Defined.
#[export] Instance DeclIntroducerKind_eq_dec : EqDecision DeclIntroducerKind.
Proof. solve_decision. Defined.

Module DeclIntroducerInfo.

Record t := make {
  introducer_kind : DeclIntroducerKind;
  node_kind : NodeKind.t;
  state_kind : StateKind.t;
}.

End DeclIntroducerInfo.

(** One assignment to an entry of the table; [None] for the context assigns
    the entry in every context. *)
Record IntroducerEntry := {
  entry_token : TokenKind.t;
  entry_context : option DeclContextKind;
  entry_info : DeclIntroducerInfo.t;
}.

Definition unrecognized : DeclIntroducerInfo.t :=
  DeclIntroducerInfo.make Unrecognized NodeKind.InvalidParse StateKind.Invalid.

(** The lambdas [set], [set_contextual], [set_packaging] and [unset]. *)
Definition set (tk : TokenKind.t) (nk : NodeKind.t) (sk : StateKind.t) : IntroducerEntry :=
  {| entry_token := tk; entry_context := None;
     entry_info := DeclIntroducerInfo.make NonPackagingDecl nk sk |}.
Definition set_contextual (tk : TokenKind.t) (c : DeclContextKind) (nk : NodeKind.t)
    (sk : StateKind.t) : IntroducerEntry :=
  {| entry_token := tk; entry_context := Some c;
     entry_info := DeclIntroducerInfo.make NonPackagingDecl nk sk |}.
Definition set_packaging (tk : TokenKind.t) (nk : NodeKind.t) (sk : StateKind.t)
    : IntroducerEntry :=
  {| entry_token := tk; entry_context := None;
     entry_info := DeclIntroducerInfo.make PackagingDecl nk sk |}.
Definition unset (tk : TokenKind.t) (c : DeclContextKind) : IntroducerEntry :=
  {| entry_token := tk; entry_context := Some c; entry_info := unrecognized |}.

(** The assignments, in the source's order. *)
Definition introducer_entries : list IntroducerEntry :=
  [set TokenKind.Adapt NodeKind.AdaptIntroducer StateKind.AdaptAfterIntroducer;
   set TokenKind.Alias NodeKind.AliasIntroducer StateKind.Alias;
   set TokenKind.Base NodeKind.BaseIntroducer StateKind.BaseAfterIntroducer;
   set TokenKind.Choice NodeKind.ChoiceIntroducer StateKind.ChoiceIntroducer;
   set TokenKind.Class NodeKind.ClassIntroducer StateKind.TypeAfterIntroducerAsClass;
   set TokenKind.Constraint NodeKind.NamedConstraintIntroducer
     StateKind.TypeAfterIntroducerAsNamedConstraint;
   set TokenKind.Export NodeKind.ExportIntroducer StateKind.ExportName;
   set TokenKind.Friend NodeKind.FriendIntroducer StateKind.FriendDecl;
   set TokenKind.Fn NodeKind.FunctionIntroducer StateKind.FunctionIntroducer;
   set TokenKind.Impl NodeKind.ImplIntroducer StateKind.ImplAfterIntroducer;
   set TokenKind.Interface NodeKind.InterfaceIntroducer
     StateKind.TypeAfterIntroducerAsInterface;
   set TokenKind.MatchFirst NodeKind.MatchFirstIntroducer StateKind.MatchFirst;
   set TokenKind.Namespace NodeKind.NamespaceStart StateKind.Namespace;
   set TokenKind.Observe NodeKind.ObserveIntroducer StateKind.ObserveAfterIntroducer;
   set TokenKind.Require NodeKind.RequireIntroducer StateKind.RequireAfterIntroducer;
   set TokenKind.Union NodeKind.UnionIntroducer StateKind.TypeAfterIntroducerAsUnion;
   set_contextual TokenKind.Let RegularContext NodeKind.LetIntroducer StateKind.Let;
   set_contextual TokenKind.Let ClassContext NodeKind.LetIntroducer StateKind.Let;
   set_contextual TokenKind.Let InterfaceContext NodeKind.AssociatedConstantIntroducer
     StateKind.AssociatedConstant;
   set_contextual TokenKind.Var RegularContext NodeKind.VariableIntroducer
     StateKind.VarAsRegular;
   set_contextual TokenKind.Var ClassContext NodeKind.VariableIntroducer
     StateKind.VarAsRegular;
   set_contextual TokenKind.Let UnionContext NodeKind.LetIntroducer StateKind.Let;
   set_contextual TokenKind.Var UnionContext NodeKind.VariableIntroducer
     StateKind.VarAsRegular;
   unset TokenKind.Adapt UnionContext;
   unset TokenKind.Base UnionContext;
   unset TokenKind.Choice UnionContext;
   unset TokenKind.Class UnionContext;
   unset TokenKind.Constraint UnionContext;
   unset TokenKind.Interface UnionContext;
   unset TokenKind.Union UnionContext;
   set TokenKind.Inline NodeKind.InlineIntroducer StateKind.InlineDeclAfterIntroducer;
   set_packaging TokenKind.Package NodeKind.PackageIntroducer StateKind.Package;
   set_packaging TokenKind.Library NodeKind.LibraryIntroducer StateKind.Library;
   set_packaging TokenKind.Import NodeKind.ImportIntroducer StateKind.Import].

Definition entry_applies (tk : TokenKind.t) (c : DeclContextKind) (e : IntroducerEntry)
    : bool :=
  TokenKind.eqb tk (entry_token e) &&
  match entry_context e with
  | None => true
  | Some c' => bool_decide (c' = c)
  end.

(** [DeclIntroducers[tk][c]]: the last assignment to the entry, over a table
    of unrecognized entries. *)
Definition DeclIntroducers (tk : TokenKind.t) (c : DeclContextKind)
    : DeclIntroducerInfo.t :=
  fold_left (λ info e, if entry_applies tk c e then entry_info e else info)
    introducer_entries unrecognized.

(** * Declarations *)

(** The [NonPackagingDecl] case of [TryHandleAsDecl]. *)
Definition note_non_packaging_decl : M unit :=
  ps ← packaging_state;
  when (negb (bool_decide (ps = AfterNonPackagingDecl)))
    (first ← first_non_packaging_token;
     when (first =? TokenizedBuffer.NoneToken)
       (p ← position; set_first_non_packaging_token p) ;;
     set_packaging_state AfterNonPackagingDecl).

Definition TryHandleAsDecl (state : State.t) (saw_modifier : bool)
    (decl_context_kind : DeclContextKind) : M bool :=
  k ← PositionKind;
  let info := DeclIntroducers k decl_context_kind in
  let introduce :=
    ApplyIntroducer state (DeclIntroducerInfo.node_kind info)
      (DeclIntroducerInfo.state_kind info) ;; mret true in
  match DeclIntroducerInfo.introducer_kind info with
  | Unrecognized =>
      if? loc := (if saw_modifier then mret None else ConsumeIf TokenKind.Semi) then
        ReplacePlaceholderNode (State.subtree_start state) NodeKind.EmptyDecl loc false ;;
        mret true
      else mret false
  | PackagingDecl => introduce
  | NonPackagingDecl => note_non_packaging_decl ;; introduce
  end.

(** The [CARBON_PARSE_NODE_KIND_TOKEN_MODIFIER] expansions. *)
Definition token_modifier (k : TokenKind.t) : option NodeKind.t :=
  match k with
  | TokenKind.Abstract => Some NodeKind.AbstractModifier
  | TokenKind.Base => Some NodeKind.BaseModifier
  | TokenKind.Default => Some NodeKind.DefaultModifier
  | TokenKind.Eval => Some NodeKind.EvalModifier
  | TokenKind.Export => Some NodeKind.ExportModifier
  | TokenKind.Extend => Some NodeKind.ExtendModifier
  | TokenKind.Final => Some NodeKind.FinalModifier
  | TokenKind.Impl => Some NodeKind.ImplModifier
  | TokenKind.MustEval => Some NodeKind.MustEvalModifier
  | TokenKind.Overload => Some NodeKind.OverloadModifier
  | TokenKind.Override => Some NodeKind.OverrideModifier
  | TokenKind.Private => Some NodeKind.PrivateModifier
  | TokenKind.Protected => Some NodeKind.ProtectedModifier
  | TokenKind.Static => Some NodeKind.StaticModifier
  | TokenKind.Template => Some NodeKind.TemplateModifier
  | TokenKind.Virtual => Some NodeKind.VirtualModifier
  | _ => None
  end.

Definition is_token_modifier (k : TokenKind.t) : bool :=
  match token_modifier k with Some _ => true | None => false end.

(** The tokens after which an ambiguous token is a modifier. *)
Definition follows_modifier (k : TokenKind.t) : bool :=
  is_token_modifier k ||
  TokenKind.IsOneOf k
    [TokenKind.Adapt; TokenKind.Alias; TokenKind.Class; TokenKind.Constraint;
     TokenKind.Extern; TokenKind.Fn; TokenKind.Import; TokenKind.Inline;
     TokenKind.Interface; TokenKind.Let; TokenKind.Library; TokenKind.Namespace;
     TokenKind.Require; TokenKind.Union; TokenKind.Var].

Definition ResolveAmbiguousTokenAsDeclaration (position_kind : TokenKind.t) : M bool :=
  if TokenKind.IsOneOf position_kind
       [TokenKind.Base; TokenKind.Export; TokenKind.Extend; TokenKind.Impl]
  then
    next ← PositionKindAhead 1;
    if follows_modifier next then mret false
    else if TokenKind.eqb next TokenKind.Package then
      after ← PositionKindAhead 2;
      mret (TokenKind.eqb after TokenKind.Period)
    else mret true
  else mret false.

(** The [Extern] case of [TryHandleAsModifier]. *)
Definition HandleExternModifier : M unit :=
  extern_token ← Consume;
  if! PositionIs TokenKind.Library then
    ParseLibrarySpecifier true ;;
    AddNode NodeKind.ExternModifierWithLibrary extern_token false
  else AddLeafNode NodeKind.ExternModifier extern_token.

Definition TryHandleAsModifier : M bool :=
  position_kind ← PositionKind;
  if! ResolveAmbiguousTokenAsDeclaration position_kind then mret false
  else
    match token_modifier position_kind with
    | Some nk => t ← Consume; AddLeafNode nk t ;; mret true
    | None =>
        if TokenKind.eqb position_kind TokenKind.Extern then
          HandleExternModifier ;; mret true
        else mret false
    end.

(** [while (TryHandleAsModifier(context)) saw_modifier = true;]. *)
Fixpoint modifier_loop (fuel : nat) (saw_modifier : bool) : M bool :=
  match fuel with
  | O => action_fail OutOfFuel
  | S fuel' =>
      if! TryHandleAsModifier then modifier_loop fuel' true else mret saw_modifier
  end.

Definition HandleDecl (decl_context_kind : DeclContextKind) : M unit :=
  state ← PopState;
  p ← position;
  AddLeafNode NodeKind.Placeholder p ;;
  fuel ← gets (λ c, scan_fuel (tokens_ c));
  saw_modifier ← modifier_loop fuel false;
  if! TryHandleAsDecl state saw_modifier decl_context_kind then mret tt
  else HandleUnrecognizedDecl (State.subtree_start state).

Definition HandleDeclAsClass : M unit := HandleDecl ClassContext.
Definition HandleDeclAsInterface : M unit := HandleDecl InterfaceContext.
Definition HandleDeclAsRegular : M unit := HandleDecl RegularContext.
Definition HandleDeclAsUnion : M unit := HandleDecl UnionContext.

Definition HandleDeclScopeLoop (decl_state_kind : StateKind.t) : M unit :=
  if! (if! PositionIs TokenKind.CloseCurlyBrace then mret true
       else PositionIs TokenKind.FileEnd)
  then PopAndDiscardState
  else PushState decl_state_kind.

Definition HandleDeclScopeLoopAsClass : M unit :=
  HandleDeclScopeLoop StateKind.DeclAsClass.
Definition HandleDeclScopeLoopAsInterface : M unit :=
  HandleDeclScopeLoop StateKind.DeclAsInterface.
Definition HandleDeclScopeLoopAsRegular : M unit :=
  HandleDeclScopeLoop StateKind.DeclAsRegular.
Definition HandleDeclScopeLoopAsUnion : M unit :=
  HandleDeclScopeLoop StateKind.DeclAsUnion.
