(* ===== verification/HandleDecl.v ===== *)
(** Declarations with a name, parameters and a definition:
    [handle_decl_definition.cpp], [handle_decl_name_and_params.cpp],
    [handle_function.cpp] and [handle_type.cpp]. *)

From S2P Require Import Prelude TokenKinds StateKinds NodeKinds Tokens Precedence.
From S2P Require Import ParseTree Diagnostics Context.

(** * [handle_decl_definition.cpp] *)

(** The scope loop for the body of a declaration. *)
Definition scope_loop_state (decl_kind : NodeKind.t) : StateKind.t :=
  match decl_kind with
  | NodeKind.ClassDecl => StateKind.DeclScopeLoopAsClass
  | NodeKind.InterfaceDecl => StateKind.DeclScopeLoopAsInterface
  | NodeKind.UnionDecl => StateKind.DeclScopeLoopAsUnion
  | _ => StateKind.DeclScopeLoopAsRegular
  end.

Definition HandleDeclOrDefinition (decl_kind definition_start_kind : NodeKind.t)
    (definition_finish_state : StateKind.t) : M unit :=
  state ← PopState;
  if! (if State.has_error state then mret true
       else open ← PositionIs TokenKind.OpenCurlyBrace; mret (negb open))
  then
    k ← GetKind (State.token state);
    AddNodeExpectingDeclSemi state decl_kind k true
  else
    PushStateAs state definition_finish_state ;;
    PushState (scope_loop_state decl_kind) ;;
    t ← Consume;
    AddNode definition_start_kind t (State.has_error state).

Definition HandleDeclOrDefinitionAsClass : M unit :=
  HandleDeclOrDefinition NodeKind.ClassDecl NodeKind.ClassDefinitionStart
    StateKind.DeclDefinitionFinishAsClass.
Definition HandleDeclOrDefinitionAsImpl : M unit :=
  HandleDeclOrDefinition NodeKind.ImplDecl NodeKind.ImplDefinitionStart
    StateKind.DeclDefinitionFinishAsImpl.
Definition HandleDeclOrDefinitionAsInterface : M unit :=
  HandleDeclOrDefinition NodeKind.InterfaceDecl NodeKind.InterfaceDefinitionStart
    StateKind.DeclDefinitionFinishAsInterface.
Definition HandleDeclOrDefinitionAsNamedConstraint : M unit :=
  HandleDeclOrDefinition NodeKind.NamedConstraintDecl
    NodeKind.NamedConstraintDefinitionStart
    StateKind.DeclDefinitionFinishAsNamedConstraint.
Definition HandleDeclOrDefinitionAsUnion : M unit :=
  HandleDeclOrDefinition NodeKind.UnionDecl NodeKind.UnionDefinitionStart
    StateKind.DeclDefinitionFinishAsUnion.

Definition HandleDeclDefinitionFinish (definition_kind : NodeKind.t) : M unit :=
  state ← PopState;
  t ← Consume;
  AddNode definition_kind t (State.has_error state).

Definition HandleDeclDefinitionFinishAsClass : M unit :=
  HandleDeclDefinitionFinish NodeKind.ClassDefinition.
Definition HandleDeclDefinitionFinishAsImpl : M unit :=
  HandleDeclDefinitionFinish NodeKind.ImplDefinition.
Definition HandleDeclDefinitionFinishAsInterface : M unit :=
  HandleDeclDefinitionFinish NodeKind.InterfaceDefinition.
Definition HandleDeclDefinitionFinishAsNamedConstraint : M unit :=
  HandleDeclDefinitionFinish NodeKind.NamedConstraintDefinition.
Definition HandleDeclDefinitionFinishAsUnion : M unit :=
  HandleDeclDefinitionFinish NodeKind.UnionDefinition.

(** * [handle_decl_name_and_params.cpp] *)

Definition ExplicitParamListContext (decl_context : BindingContext) : M BindingContext :=
  if bool_decide (decl_context = CompileTimeEntityParam) then mret decl_context
  else
    open_paren ← position;
    close_paren ← GetMatchedClosingToken open_paren;
    after_close ← GetKind (close_paren + 1);
    mret (if TokenKind.eqb after_close TokenKind.Period then CompileTimeEntityParam
          else decl_context).

(** Pushes the state for an explicit parameter list at the position. *)
Definition push_explicit_params (decl_context : BindingContext) : M unit :=
  p ← position;
  bc ← ExplicitParamListContext decl_context;
  PushStateIn StateKind.PatternListAsExplicit p bc.

Definition HandleName (state : State.t) (name_token : Z)
    (not_before_params_kind not_before_params_qualifier_kind before_params_kind
       : NodeKind.t) : M unit :=
  k ← PositionKind;
  match k with
  | TokenKind.Period =>
      AddLeafNode not_before_params_kind name_token ;;
      t ← ConsumeChecked TokenKind.Period;
      AddNode not_before_params_qualifier_kind t (State.has_error state) ;;
      p ← position;
      PushStateIn StateKind.DeclNameAndParams p (State.binding_context state)
  | TokenKind.OpenSquareBracket =>
      AddLeafNode before_params_kind name_token ;;
      PushStateVal (State.set_kind StateKind.DeclNameAndParamsAfterImplicit state) ;;
      p ← position;
      PushStateIn StateKind.PatternListAsImplicit p DeducedParam
  | TokenKind.OpenParen =>
      AddLeafNode before_params_kind name_token ;;
      PushStateVal (State.set_kind StateKind.DeclNameAndParamsAfterParams state) ;;
      push_explicit_params (State.binding_context state)
  | TokenKind.MinusGreater | TokenKind.MinusGreaterQuestion =>
      AddLeafNode before_params_kind name_token
  | _ => AddLeafNode not_before_params_kind name_token
  end.

(** The diagnostic of [HandleDeclNameAndParams] for a missing name. *)
Definition diagnose_missing_name (state : State.t) : M unit :=
  p ← position;
  k ← GetKind p;
  let t := if TokenKind.eqb k TokenKind.FileEnd then State.token state else p in
  if State.token state =? p then Emit DiagnosticKind.ExpectedDeclNameAfterPeriod t []
  else
    k ← GetKind (State.token state);
    Emit DiagnosticKind.ExpectedDeclName t [ArgTokenKind k].

Definition HandleDeclNameAndParams : M unit :=
  state ← PopState;
  if? identifier := ConsumeIf TokenKind.Identifier then
    HandleName state identifier NodeKind.IdentifierNameNotBeforeSignature
      NodeKind.IdentifierNameQualifierWithoutParams
      NodeKind.IdentifierNameMaybeBeforeSignature
  else
    diagnose_missing_name state ;;
    ReturnErrorOnState ;;
    p ← position;
    AddInvalidParse p.

Definition HandleDeclNameAndParamsAfterImplicit : M unit :=
  state ← PopState;
  PushStateVal (State.set_kind StateKind.DeclNameAndParamsAfterParams state) ;;
  if! PositionIs TokenKind.OpenParen then push_explicit_params (State.binding_context state)
  else mret tt.

Definition HandleDeclNameAndParamsAfterParams : M unit :=
  state ← PopState;
  if? period := ConsumeIf TokenKind.Period then
    k ← node_kind (State.subtree_start state);
    check (NodeKind.eqb k NodeKind.IdentifierNameMaybeBeforeSignature) ;;
    AddNode NodeKind.IdentifierNameQualifierWithParams period (State.has_error state) ;;
    p ← position;
    PushStateIn StateKind.DeclNameAndParams p (State.binding_context state)
  else mret tt.

(** * [handle_function.cpp] *)

Definition HandleFunctionIntroducer : M unit :=
  state ← PopState;
  PushStateAs state StateKind.FunctionAfterParams ;;
  PushStateAt StateKind.DeclNameAndParams (State.token state).

Definition HandleFunctionAfterParams : M unit :=
  state ← PopState;
  PushStateAs state StateKind.FunctionSignatureFinish ;;
  if! PositionIs TokenKind.MinusGreater then
    PushState StateKind.FunctionReturnTypeFinish ;;
    ConsumeAndDiscard ;;
    PushStateForExpr PrecedenceGroup.ForType
  else if! PositionIs TokenKind.MinusGreaterQuestion then
    PushState StateKind.FunctionReturnFormFinish ;;
    ConsumeAndDiscard ;;
    PushStateForExpr PrecedenceGroup.ForType
  else mret tt.

Definition HandleFunctionReturnTypeFinish : M unit :=
  state ← PopState;
  AddNode NodeKind.ReturnType (State.token state) (State.has_error state).
Definition HandleFunctionReturnFormFinish : M unit :=
  state ← PopState;
  AddNode NodeKind.ReturnForm (State.token state) (State.has_error state).

(** The [Equal] case of [HandleFunctionSignatureFinish]. *)
Definition HandleBuiltinFunction (state : State.t) : M unit :=
  t ← Consume;
  AddNode NodeKind.BuiltinFunctionDefinitionStart t (State.has_error state) ;;
  state ←
    (if! ConsumeAndAddLeafNodeIf TokenKind.StringLiteral NodeKind.BuiltinName
     then mret state
     else
       EmitHere DiagnosticKind.ExpectedBuiltinName [] ;;
       mret (State.set_has_error true state));
  semi ← ConsumeIf TokenKind.Semi;
  match semi, State.has_error state with
  | Some semi, false => AddNode NodeKind.BuiltinFunctionDefinition semi false
  | None, false =>
      k ← GetKind (State.token state);
      DiagnoseExpectedDeclSemi k ;;
      RecoverFromDeclError (State.set_has_error true state)
        NodeKind.BuiltinFunctionDefinition true
  | _, true => RecoverFromDeclError state NodeKind.BuiltinFunctionDefinition true
  end.

(** Its [default] case. *)
Definition HandleMissingFunctionBody (state : State.t) : M unit :=
  when (negb (State.has_error state))
    (DiagnoseExpectedDeclSemiOrDefinition TokenKind.Fn) ;;
  p ← position;
  position_line ← GetLine p;
  introducer_line ← GetLine (State.token state);
  RecoverFromDeclError state NodeKind.FunctionDecl (position_line =? introducer_line).

Definition HandleFunctionSignatureFinish : M unit :=
  state ← PopState;
  k ← PositionKind;
  match k with
  | TokenKind.Semi =>
      t ← Consume; AddNode NodeKind.FunctionDecl t (State.has_error state)
  | TokenKind.OpenCurlyBrace =>
      t ← Consume;
      AddFunctionDefinitionStart t (State.has_error state) ;;
      PushStateAs (State.set_has_error false state) StateKind.FunctionDefinitionFinish ;;
      PushState StateKind.StatementScopeLoop
  | TokenKind.EqualGreater =>
      t ← Consume;
      AddFunctionDefinitionStart t (State.has_error state) ;;
      p ← position;
      AddLeafNode NodeKind.TerseBodyArrow (p - 1) ;;
      PushStateAs state StateKind.FunctionTerseBodyFinish ;;
      PushStateForExpr PrecedenceGroup.ForTopLevelExpr
  | TokenKind.Equal => HandleBuiltinFunction state
  | _ => HandleMissingFunctionBody state
  end.

Definition HandleFunctionDefinitionFinish : M unit :=
  state ← PopState;
  t ← Consume;
  AddFunctionDefinition t (State.has_error state).

Definition HandleFunctionTerseBodyFinish : M unit :=
  state ← PopState;
  semi ← ConsumeIf TokenKind.Semi;
  match semi with
  | Some semi => AddFunctionTerseDefinition semi (State.has_error state)
  | None =>
      when (negb (State.has_error state)) (DiagnoseExpectedDeclSemi TokenKind.Fn) ;;
      p ← position;
      AddFunctionTerseDefinition (p - 1) true
  end.

(** * [handle_type.cpp] *)

Definition HandleTypeAfterIntroducer (after_params_state_kind : StateKind.t) : M unit :=
  state ← PopState;
  PushStateAs state after_params_state_kind ;;
  PushStateIn StateKind.DeclNameAndParams (State.token state) CompileTimeEntityParam.

Definition HandleTypeAfterIntroducerAsClass : M unit :=
  HandleTypeAfterIntroducer StateKind.DeclOrDefinitionAsClass.
Definition HandleTypeAfterIntroducerAsInterface : M unit :=
  HandleTypeAfterIntroducer StateKind.DeclOrDefinitionAsInterface.
Definition HandleTypeAfterIntroducerAsNamedConstraint : M unit :=
  HandleTypeAfterIntroducer StateKind.DeclOrDefinitionAsNamedConstraint.
Definition HandleTypeAfterIntroducerAsUnion : M unit :=
  HandleTypeAfterIntroducer StateKind.DeclOrDefinitionAsUnion.
