(* ===== verification/HandleDeclForms.v ===== *)
(** The smaller declarations: [handle_impl.cpp], [handle_require.cpp],
    [handle_adapt.cpp], [handle_base.cpp], [handle_alias.cpp],
    [handle_friend.cpp], [handle_choice.cpp], [handle_namespace.cpp],
    [handle_match_first.cpp], [handle_observe.cpp] and
    [handle_inline_decl.cpp]. *)

From S2P Require Import Prelude TokenKinds StateKinds NodeKinds Tokens Precedence.
From S2P Require Import ParseTree Diagnostics Context.

(** * [handle_impl.cpp] *)

Definition ExpectAsOrTypeExpression : M unit :=
  if! PositionIs TokenKind.As then
    t ← Consume;
    AddLeafNode NodeKind.ImplDefaultSelfAs t ;;
    PushState StateKind.Expr
  else
    PushState StateKind.ImplBeforeAs ;;
    PushStateForExpr PrecedenceGroup.ForImplAs.

Definition HandleImplAfterIntroducer : M unit :=
  state ← PopState;
  PushStateVal (State.set_kind StateKind.DeclOrDefinitionAsImpl state) ;;
  if! PositionIs TokenKind.Forall then
    PushState StateKind.ImplAfterForall ;;
    t ← Consume;
    AddLeafNode NodeKind.Forall t ;;
    if! PositionIs TokenKind.OpenSquareBracket then
      p ← position;
      PushStateIn StateKind.PatternListAsImplicit p DeducedParam
    else
      EmitHere DiagnosticKind.ImplExpectedAfterForall [] ;;
      ReturnErrorOnState ;;
      p ← position;
      AddInvalidParse p
  else ExpectAsOrTypeExpression.

Definition HandleImplAfterForall : M unit :=
  state ← PopState;
  when (State.has_error state) ReturnErrorOnState ;;
  ExpectAsOrTypeExpression.

(** [impl T as] and [require T impls] share their shape: after the type, the
    keyword or a diagnosed error. *)
Definition expect_keyword_after_type (keyword : TokenKind.t) (nk : NodeKind.t)
    (missing : DiagnosticKind.t) : M unit :=
  state ← PopState;
  if? t := ConsumeIf keyword then
    AddNode nk t (State.has_error state) ;;
    PushState StateKind.Expr
  else
    when (negb (State.has_error state)) (EmitHere missing []) ;;
    ReturnErrorOnState.

Definition HandleImplBeforeAs : M unit :=
  expect_keyword_after_type TokenKind.As NodeKind.ImplTypeAs DiagnosticKind.ImplExpectedAs.

(** * [handle_require.cpp] *)

Definition HandleRequireAfterIntroducer : M unit :=
  state ← PopState;
  PushStateVal (State.set_kind StateKind.RequireDecl state) ;;
  if! PositionIs TokenKind.Impls then
    t ← Consume;
    AddLeafNode NodeKind.RequireDefaultSelfImpls t ;;
    PushState StateKind.Expr
  else
    PushState StateKind.RequireBeforeImpls ;;
    PushStateForExpr PrecedenceGroup.ForRequirements.

Definition HandleRequireBeforeImpls : M unit :=
  expect_keyword_after_type TokenKind.Impls NodeKind.RequireTypeImpls
    DiagnosticKind.RequireExpectedImpls.

Definition HandleRequireDecl : M unit :=
  state ← PopState;
  AddNodeExpectingDeclSemi state NodeKind.RequireDecl TokenKind.Require false.

(** * [handle_adapt.cpp] *)

Definition HandleAdaptAfterIntroducer : M unit :=
  state ← PopState;
  PushStateVal (State.set_kind StateKind.AdaptDecl state) ;;
  PushState StateKind.Expr.

Definition HandleAdaptDecl : M unit :=
  state ← PopState;
  AddNodeExpectingDeclSemi state NodeKind.AdaptDecl TokenKind.Adapt false.

(** * [handle_base.cpp] *)

Definition push_base_decl (state : State.t) : M unit :=
  PushStateVal (State.set_kind StateKind.BaseDecl state) ;;
  PushState StateKind.Expr.

Definition HandleBaseAfterIntroducer : M unit :=
  state ← PopState;
  if! ConsumeAndAddLeafNodeIf TokenKind.Colon NodeKind.BaseColon then push_base_decl state
  else
    EmitHere DiagnosticKind.ExpectedAfterBase [] ;;
    p ← position;
    let base_token := p - 1 in
    previous ← GetKind (base_token - 1);
    if negb (TokenKind.eqb previous TokenKind.Extend) then
      RecoverFromDeclError state NodeKind.BaseDecl true
    else
      p ← position;
      AddLeafNodeWithError NodeKind.BaseColon p true ;;
      push_base_decl (State.set_has_error true state).

Definition HandleBaseDecl : M unit :=
  state ← PopState;
  AddNodeExpectingDeclSemi state NodeKind.BaseDecl TokenKind.Base false.

(** * [handle_alias.cpp] *)

Definition HandleAlias : M unit :=
  state ← PopState;
  PushStateAs state StateKind.AliasAfterName ;;
  PushStateIn StateKind.DeclNameAndParams (State.token state) CompileTimeEntityParam.

Definition HandleAliasAfterName : M unit :=
  state ← PopState;
  if State.has_error state then RecoverFromDeclError state NodeKind.Alias true
  else if? equal := ConsumeIf TokenKind.Equal then
    AddLeafNode NodeKind.AliasInitializer equal ;;
    PushStateAs state StateKind.AliasFinish ;;
    PushState StateKind.Expr
  else
    EmitHere DiagnosticKind.ExpectedAliasInitializer [] ;;
    RecoverFromDeclError state NodeKind.Alias true.

Definition HandleAliasFinish : M unit :=
  state ← PopState;
  AddNodeExpectingDeclSemi state NodeKind.Alias TokenKind.Alias false.

(** * [handle_friend.cpp] *)

Definition HandleFriendDecl : M unit :=
  state ← PopState;
  if State.has_error state then RecoverFromDeclError state NodeKind.FriendDecl true
  else if! ConsumeAndAddLeafNodeIf TokenKind.Identifier NodeKind.IdentifierNameExpr then
    AddNodeExpectingDeclSemi state NodeKind.FriendDecl TokenKind.Friend false
  else
    EmitHere DiagnosticKind.ExpectedIdentifierForFriend [] ;;
    RecoverFromDeclError (State.set_has_error true state) NodeKind.FriendDecl true.

(** * [handle_choice.cpp] *)

Definition HandleChoiceIntroducer : M unit :=
  state ← PopState;
  PushStateAs state StateKind.ChoiceDefinitionStart ;;
  PushStateIn StateKind.DeclNameAndParams (State.token state) CompileTimeEntityParam.

(** [SkipPastLikelyEnd] from the current position, whose result is dropped. *)
Definition SkipFromHere : M unit :=
  p ← position; SkipPastLikelyEnd p ;; mret tt.

(** Adds nodes of the given kinds, all in error at the current position. *)
Fixpoint add_error_nodes (kinds : list NodeKind.t) : M unit :=
  match kinds with
  | [] => mret tt
  | k :: kinds => p ← position; AddNode k p true ;; add_error_nodes kinds
  end.

Definition HandleChoiceDefinitionStart : M unit :=
  state ← PopState;
  if! PositionIs TokenKind.OpenCurlyBrace then
    t ← Consume;
    AddNode NodeKind.ChoiceDefinitionStart t (State.has_error state) ;;
    PushStateVal (State.set_kind StateKind.ChoiceDefinitionFinish
                    (State.set_has_error false state)) ;;
    if! PositionIs TokenKind.CloseCurlyBrace then mret tt
    else PushState StateKind.ChoiceAlternative
  else
    when (negb (State.has_error state))
      (EmitHere DiagnosticKind.ExpectedChoiceDefinition []) ;;
    add_error_nodes [NodeKind.ChoiceDefinitionStart; NodeKind.ChoiceDefinition] ;;
    SkipFromHere.

Definition HandleChoiceAlternative : M unit :=
  state ← PopState;
  PushState StateKind.ChoiceAlternativeFinish ;;
  if? t := ConsumeIf TokenKind.Identifier then
    if! PositionIs TokenKind.OpenParen then
      AddLeafNode NodeKind.IdentifierNameMaybeBeforeSignature t ;;
      PushState StateKind.PatternListAsExplicit
    else AddLeafNode NodeKind.IdentifierNameNotBeforeSignature t
  else
    when (negb (State.has_error state))
      (EmitHere DiagnosticKind.ExpectedChoiceAlternativeName []) ;;
    SkipFromHere ;;
    ReturnErrorOnState.

Definition HandleChoiceAlternativeFinish : M unit :=
  state ← PopState;
  if State.has_error state then
    ReturnErrorOnState ;;
    if! PositionIs TokenKind.CloseCurlyBrace then mret tt
    else PushState StateKind.ChoiceAlternative
  else
    list_token_kind ←
      ConsumeListToken NodeKind.ChoiceAlternativeListComma TokenKind.CloseCurlyBrace
        (State.has_error state);
    when (bool_decide (list_token_kind = Comma)) (PushState StateKind.ChoiceAlternative).

Definition HandleChoiceDefinitionFinish : M unit :=
  state ← PopState;
  t ← ConsumeChecked TokenKind.CloseCurlyBrace;
  AddNode NodeKind.ChoiceDefinition t (State.has_error state).

(** * [handle_namespace.cpp] *)

Definition HandleNamespace : M unit :=
  state ← PopState;
  PushStateAs state StateKind.NamespaceFinish ;;
  PushStateIn StateKind.DeclNameAndParams (State.token state) CompileTimeEntityParam.

Definition HandleNamespaceFinish : M unit :=
  state ← PopState;
  AddNodeExpectingDeclSemi state NodeKind.Namespace TokenKind.Namespace false.

(** * [handle_match_first.cpp] *)

Definition HandleMatchFirst : M unit :=
  state ← PopState;
  open_curly ← ConsumeAndAddOpenCurlyBrace (State.token state)
                 NodeKind.MatchFirstDefinitionStart;
  let state := match open_curly with
               | Some t => State.set_token t state
               | None => State.set_has_error true state
               end in
  PushStateAs state StateKind.MatchFirstFinish ;;
  when (negb (State.has_error state)) (PushState StateKind.DeclScopeLoopAsRegular).

Definition HandleMatchFirstFinish : M unit :=
  state ← PopState;
  if? closing_token := ConsumeIf TokenKind.CloseCurlyBrace then
    AddNode NodeKind.MatchFirst closing_token (State.has_error state)
  else AddNode NodeKind.MatchFirst (State.token state) (State.has_error state).

(** * [handle_observe.cpp] *)

Definition HandleObserveAfterIntroducer : M unit :=
  state ← PopState;
  PushStateAs state StateKind.ObserveOperator ;;
  PushStateForExpr PrecedenceGroup.ForRequirements.

Definition HandleObserveOperator : M unit :=
  state ← PopState;
  k ← PositionKind;
  match k with
  | TokenKind.EqualEqual =>
      t ← Consume;
      PushStateAs (State.set_token t state) StateKind.ObserveFinishOperator ;;
      PushStateForExpr PrecedenceGroup.ForRequirements
  | TokenKind.Impls =>
      t ← Consume;
      PushStateAs (State.set_token t state) StateKind.ObserveFinishOperator ;;
      PushState StateKind.Expr
  | _ =>
      when (negb (State.has_error state))
        (EmitHere DiagnosticKind.ExpectedObserveOperator []) ;;
      RecoverFromDeclError state NodeKind.ObserveDecl true
  end.

Definition HandleObserveFinishOperator : M unit :=
  state ← PopState;
  token_kind ← GetKind (State.token state);
  AddNode (if TokenKind.eqb token_kind TokenKind.EqualEqual then NodeKind.ObserveEqualEqual
           else NodeKind.ObserveImpls)
    (State.token state) (State.has_error state) ;;
  if! PositionIs TokenKind.Semi then PushStateAs state StateKind.ObserveDecl
  else PushStateAs state StateKind.ObserveOperator.

Definition HandleObserveDecl : M unit :=
  state ← PopState;
  AddNodeExpectingDeclSemi state NodeKind.ObserveDecl TokenKind.Observe false.

(** * [handle_inline_decl.cpp] *)

Definition recover_inline_decl (state : State.t) (missing : DiagnosticKind.t) : M unit :=
  EmitHere missing [] ;;
  t ← SkipPastLikelyEnd (State.token state);
  AddNode NodeKind.InlineCppDecl t true.

Definition HandleInlineDeclAfterIntroducer : M unit :=
  state ← PopState;
  if? cpp_token := ConsumeIf TokenKind.Cpp then
    AddLeafNode NodeKind.CppNameExpr cpp_token ;;
    if? str := ConsumeIf TokenKind.StringLiteral then
      AddLeafNode NodeKind.InlineImportBody str ;;
      AddNodeExpectingDeclSemi state NodeKind.InlineCppDecl TokenKind.Inline false
    else recover_inline_decl state DiagnosticKind.ExpectedStringAfterInlineCpp
  else recover_inline_decl state DiagnosticKind.ExpectedCppAfterInline.
