(* ===== verification/HandlePackaging.v ===== *)
(** [package], [library], [import] and [export] declarations:
    [handle_import_and_package.cpp]. *)

From S2P Require Import Prelude TokenKinds StateKinds NodeKinds Tokens Precedence.
From S2P Require Import ParseTree Diagnostics Context.

(** [OnParseError], which every [on_parse_error] lambda runs. *)
Definition OnParseError (state : State.t) (declaration : NodeKind.t) : M unit :=
  t ← SkipPastLikelyEnd (State.token state);
  AddNode declaration t true.

(** The loop of [HasModifier], from token [it]. *)
Fixpoint has_modifier (fuel : nat) (b : TokenizedBuffer.t) (modifier : TokenKind.t)
    (it stop : Z) : Result bool :=
  match fuel with
  | O => Err OutOfFuel
  | S fuel' =>
      if it =? stop then mret false
      else
        k ← TokenizedBuffer.GetKind b it;
        if TokenKind.eqb k modifier then mret true
        else has_modifier fuel' b modifier (it + 1) stop
  end.

Definition HasModifier (state : State.t) (modifier : TokenKind.t) : M bool :=
  lift_result (λ c,
    has_modifier (scan_fuel (tokens_ c)) (tokens_ c) modifier (State.token state)
      (position_ c)).

Definition set_package_id (id : Tree.PackageNameId) (names : Tree.PackagingNames)
    : Tree.PackagingNames :=
  {| Tree.node_id := Tree.node_id names; Tree.package_id := id;
     Tree.library_id := Tree.library_id names;
     Tree.inline_body_id := Tree.inline_body_id names;
     Tree.is_export := Tree.is_export names |}.
Definition set_library_id (id : Z) (names : Tree.PackagingNames) : Tree.PackagingNames :=
  {| Tree.node_id := Tree.node_id names; Tree.package_id := Tree.package_id names;
     Tree.library_id := id; Tree.inline_body_id := Tree.inline_body_id names;
     Tree.is_export := Tree.is_export names |}.
Definition set_inline_body_id (id : Z) (names : Tree.PackagingNames)
    : Tree.PackagingNames :=
  {| Tree.node_id := Tree.node_id names; Tree.package_id := Tree.package_id names;
     Tree.library_id := Tree.library_id names; Tree.inline_body_id := id;
     Tree.is_export := Tree.is_export names |}.
Definition set_is_export (e : bool) (names : Tree.PackagingNames) : Tree.PackagingNames :=
  {| Tree.node_id := Tree.node_id names; Tree.package_id := Tree.package_id names;
     Tree.library_id := Tree.library_id names;
     Tree.inline_body_id := Tree.inline_body_id names; Tree.is_export := e |}.
Definition set_node_id (id : Z) (names : Tree.PackagingNames) : Tree.PackagingNames :=
  {| Tree.node_id := id; Tree.package_id := Tree.package_id names;
     Tree.library_id := Tree.library_id names;
     Tree.inline_body_id := Tree.inline_body_id names;
     Tree.is_export := Tree.is_export names |}.

(** [PackagingNames names = {.is_export = is_export};]. *)
Definition initial_names (is_export : bool) : Tree.PackagingNames :=
  {| Tree.node_id := Tree.NoneId; Tree.package_id := Tree.NoPackage;
     Tree.library_id := Tree.NoneId; Tree.inline_body_id := Tree.NoneId;
     Tree.is_export := is_export |}.

(** The package name of [HandleDeclContent]: [None] when it is missing. *)
Definition parse_package_name : M (option Tree.PackageNameId) :=
  if? ident := ConsumeIf TokenKind.Identifier then
    id ← tokens (λ b, TokenizedBuffer.GetIdentifier b ident);
    AddLeafNode NodeKind.IdentifierPackageName ident ;;
    mret (Some (Tree.ForIdentifier id))
  else if? core := ConsumeIf TokenKind.Core then
    AddLeafNode NodeKind.CorePackageName core ;; mret (Some Tree.Core)
  else if? cpp := ConsumeIf TokenKind.Cpp then
    AddLeafNode NodeKind.CppPackageName cpp ;; mret (Some Tree.Cpp)
  else mret None.

(** The first part of [HandleDeclContent]; [None] after [on_parse_error]. *)
Definition parse_package_part (DeclKind : NodeKind.t) (state : State.t)
    (names : Tree.PackagingNames) (on_parse_error : M unit)
    : M (option (State.t * Tree.PackagingNames)) :=
  if! (if NodeKind.eqb DeclKind NodeKind.LibraryDecl then mret true
       else if NodeKind.eqb DeclKind NodeKind.ImportDecl
       then PositionIs TokenKind.Library
       else mret false)
  then mret (Some (state, names))
  else
    package_name_position ← position;
    if? package_id := parse_package_name then
      let names := set_package_id package_id names in
      if Tree.is_export names then
        Emit DiagnosticKind.ExportImportPackage package_name_position [] ;;
        mret (Some (State.set_has_error true state, set_is_export false names))
      else mret (Some (state, names))
    else
      Emit (if NodeKind.eqb DeclKind NodeKind.PackageDecl
            then DiagnosticKind.ExpectedIdentifierAfterPackage
            else DiagnosticKind.ExpectedIdentifierAfterImport)
        package_name_position [] ;;
      on_parse_error ;;
      mret None.

(** The [inline] body of an [import]. *)
Definition parse_inline_body (names : Tree.PackagingNames) (on_parse_error : M unit)
    : M (option Tree.PackagingNames) :=
  inline_token ← ConsumeChecked TokenKind.Inline;
  body_position ← position;
  inline_body_token ← ConsumeIf TokenKind.StringLiteral;
  let missing := negb (is_some inline_body_token) in
  id ← AddNodeId NodeKind.InlineImportBody body_position missing;
  AddNode NodeKind.InlineImportSpecifier inline_token false ;;
  if missing then
    Emit DiagnosticKind.ExpectedStringAfterInline body_position [] ;;
    on_parse_error ;;
    mret None
  else mret (Some (set_inline_body_id id names)).

(** The library part of [HandleDeclContent]; [None] after [on_parse_error]. *)
Definition parse_library_part (DeclKind : NodeKind.t) (names : Tree.PackagingNames)
    (on_parse_error : M unit) : M (option Tree.PackagingNames) :=
  let accept_default :=
    match Tree.package_id names with Tree.NoPackage => true | _ => false end in
  let with_library (parse : M (option Z)) :=
    if? library_id := parse then mret (Some (set_library_id library_id names))
    else on_parse_error ;; mret None in
  if NodeKind.eqb DeclKind NodeKind.LibraryDecl then
    with_library (ParseLibraryName accept_default)
  else
    next_kind ← PositionKind;
    if TokenKind.eqb next_kind TokenKind.Library then
      with_library (ParseLibrarySpecifier accept_default)
    else if NodeKind.eqb DeclKind NodeKind.ImportDecl &&
            TokenKind.eqb next_kind TokenKind.Inline
    then parse_inline_body names on_parse_error
    else if TokenKind.eqb next_kind TokenKind.StringLiteral ||
            (accept_default && TokenKind.eqb next_kind TokenKind.Default)
    then
      EmitHere DiagnosticKind.MissingLibraryKeyword [] ;;
      on_parse_error ;;
      mret None
    else mret (Some names).

(** The end of [HandleDeclContent], from the [;] on. *)
Definition finish_packaging_decl (DeclKind : NodeKind.t) (state : State.t)
    (names : Tree.PackagingNames) (is_impl : bool) (on_parse_error : M unit) : M unit :=
  if? semi := ConsumeIf TokenKind.Semi then
    id ← AddNodeId DeclKind semi (State.has_error state);
    let names := set_node_id id names in
    if NodeKind.eqb DeclKind NodeKind.ImportDecl then AddImport names
    else set_packaging_decl names is_impl
  else
    k ← GetKind (State.token state);
    DiagnoseExpectedDeclSemi k ;;
    on_parse_error.

Definition HandleDeclContent (DeclKind : NodeKind.t) (state : State.t)
    (is_export is_impl : bool) (on_parse_error : M unit) : M unit :=
  r ← parse_package_part DeclKind state (initial_names is_export) on_parse_error;
  match r with
  | None => mret tt
  | Some (state, names) =>
      if? names := parse_library_part DeclKind names on_parse_error then
        finish_packaging_decl DeclKind state names is_impl on_parse_error
      else mret tt
  end.

Definition VerifyInImports (intro_token : Z) : M bool :=
  ps ← packaging_state;
  match ps with
  | FileStart => set_packaging_state InImports ;; mret true
  | InImports => mret true
  | AfterNonPackagingDecl =>
      set_packaging_state InImportsAfterNonPackagingDecl ;;
      first ← first_non_packaging_token;
      EmitWithNote DiagnosticKind.ImportTooLate intro_token []
        DiagnosticKind.FirstDecl first ;;
      mret false
  | InImportsAfterNonPackagingDecl => mret false
  end.

(** [RestrictExportToApi]; returns the updated state. *)
Definition RestrictExportToApi (state : State.t) : M State.t :=
  tr ← tree;
  let is_api :=
    match Tree.packaging_decl tr with
    | Some d => negb (Tree.is_impl d)
    | None => false
    end in
  if is_api then mret state
  else
    Emit DiagnosticKind.ExportFromImpl (State.token state) [] ;;
    mret (State.set_has_error true state).

Definition HandleImport : M unit :=
  state ← PopState;
  if! VerifyInImports (State.token state) then
    is_export ← HasModifier state TokenKind.Export;
    state ← (if (is_export : bool) then RestrictExportToApi state else mret state);
    HandleDeclContent NodeKind.ImportDecl state is_export false
      (OnParseError state NodeKind.ImportDecl)
  else OnParseError state NodeKind.ImportDecl.

Definition HandleExportName : M unit :=
  state ← PopState;
  state ← RestrictExportToApi state;
  PushStateAs state StateKind.ExportNameFinish ;;
  PushStateIn StateKind.DeclNameAndParams (State.token state) CompileTimeEntityParam.

Definition HandleExportNameFinish : M unit :=
  state ← PopState;
  AddNodeExpectingDeclSemi state NodeKind.ExportDecl TokenKind.Export false.

Definition HandlePackageAndLibraryDecls (DeclKind : NodeKind.t)
    (intro_token_kind : TokenKind.t) : M unit :=
  state ← PopState;
  is_impl ← HasModifier state TokenKind.Impl;
  let on_parse_error := OnParseError state DeclKind in
  if negb (State.token state =? TokenizedBuffer.FirstNonCommentToken) then
    EmitWithNote DiagnosticKind.PackageTooLate (State.token state)
      [ArgTokenKind intro_token_kind]
      DiagnosticKind.FirstNonCommentLine TokenizedBuffer.FirstNonCommentToken ;;
    on_parse_error
  else
    set_packaging_state InImports ;;
    HandleDeclContent DeclKind state false is_impl on_parse_error.

Definition HandlePackage : M unit :=
  HandlePackageAndLibraryDecls NodeKind.PackageDecl TokenKind.Package.
Definition HandleLibrary : M unit :=
  HandlePackageAndLibraryDecls NodeKind.LibraryDecl TokenKind.Library.
