(* ===== verification/HandleStatement.v ===== *)
(** Statements: [handle_statement.cpp], [handle_code_block.cpp] and
    [handle_paren_condition.cpp]. *)

From S2P Require Import Prelude TokenKinds StateKinds NodeKinds Tokens Precedence.
From S2P Require Import ParseTree Diagnostics Context HandlePattern HandleDeclScope.

(** * [handle_statement.cpp] *)

(** The statement keywords [HandleStatement] hands to a state of their own. *)
Definition statement_state (k : TokenKind.t) : option StateKind.t :=
  match k with
  | TokenKind.If => Some StateKind.StatementIf
  | TokenKind.Return => Some StateKind.StatementReturn
  | TokenKind.Returned => Some StateKind.VarAsReturned
  | TokenKind.While => Some StateKind.StatementWhile
  | TokenKind.Match => Some StateKind.MatchIntroducer
  | _ => None
  end.

(** The tokens that begin a declaration statement. *)
Definition begins_declaration (k : TokenKind.t) : bool :=
  is_token_modifier k ||
  TokenKind.IsOneOf k
    [TokenKind.Adapt; TokenKind.Alias; TokenKind.Choice; TokenKind.Class;
     TokenKind.Constraint; TokenKind.Fn; TokenKind.Import; TokenKind.Interface;
     TokenKind.Let; TokenKind.Library; TokenKind.MatchFirst; TokenKind.Namespace;
     TokenKind.Observe; TokenKind.Union; TokenKind.Var].

(** The arms of [HandleStatement] that only push states. *)
Definition HandleOtherStatement (k : TokenKind.t) : M unit :=
  match statement_state k with
  | Some sk => PushState sk
  | None =>
      if begins_declaration k then PushState StateKind.DeclAsRegular
      else
        PushState StateKind.ExprStatementFinish ;;
        PushStateForExpr PrecedenceGroup.ForExprStatement
  end.

Definition HandleStatement : M unit :=
  PopAndDiscardState ;;
  k ← PositionKind;
  match k with
  | TokenKind.Break =>
      PushState StateKind.StatementBreakFinish ;;
      t ← Consume;
      AddLeafNode NodeKind.BreakStatementStart t
  | TokenKind.Continue =>
      PushState StateKind.StatementContinueFinish ;;
      t ← Consume;
      AddLeafNode NodeKind.ContinueStatementStart t
  | TokenKind.For =>
      PushState StateKind.StatementForFinish ;;
      PushState StateKind.StatementForHeader ;;
      ConsumeAndDiscard
  | TokenKind.PeriodPeriodPeriod =>
      PushState StateKind.StatementPackExpansionFinish ;;
      t ← Consume;
      AddLeafNode NodeKind.PackExpansionStart t ;;
      PushState StateKind.Statement
  | _ => HandleOtherStatement k
  end.

Definition HandleStatementKeywordFinish (nk : NodeKind.t) : M unit :=
  state ← PopState;
  if? semi := ConsumeIf TokenKind.Semi then AddNode nk semi (State.has_error state)
  else
    k ← GetKind (State.token state);
    EmitHere DiagnosticKind.ExpectedStatementSemi [ArgTokenKind k] ;;
    semi ← SkipPastLikelyEnd (State.token state);
    AddNode nk semi true.

Definition HandleStatementBreakFinish : M unit :=
  HandleStatementKeywordFinish NodeKind.BreakStatement.
Definition HandleStatementContinueFinish : M unit :=
  HandleStatementKeywordFinish NodeKind.ContinueStatement.

(** [if (open_paren) state.token = *open_paren;]. *)
Definition use_open_paren (open_paren : option Z) (state : State.t) : State.t :=
  match open_paren with Some t => State.set_token t state | None => state end.

Definition HandleStatementForHeader : M unit :=
  state ← PopState;
  open_paren ← ConsumeAndAddOpenParen (State.token state) NodeKind.ForHeaderStart;
  PushStateVal (State.set_kind StateKind.StatementForHeaderIn
                  (use_open_paren open_paren state)) ;;
  PushStateForPattern StateKind.Pattern false false false ExplicitParam
    PrecedenceGroup.ForTopLevelPattern.

(** The [in] of a [for] header: the state, with its error flag updated, and
    the token of the [ForIn] node. *)
Definition parse_for_in (state : State.t) : M (State.t * Z) :=
  if! PositionIs TokenKind.In then
    t ← Consume; mret (state, t)
  else if! PositionIs TokenKind.Colon then
    EmitHere DiagnosticKind.ExpectedInNotColon [] ;;
    t ← Consume;
    mret (State.set_has_error true state, t)
  else if State.has_error state then mret (state, State.token state)
  else
    EmitHere DiagnosticKind.ExpectedIn [] ;;
    mret (State.set_has_error true state, State.token state).

Definition HandleStatementForHeaderIn : M unit :=
  state ← PopState;
  r ← parse_for_in state;
  let state : State.t := r.1 in
  AddNode NodeKind.ForIn r.2 (State.has_error state) ;;
  PushStateAs state StateKind.StatementForHeaderFinish ;;
  if! (if State.has_error state then
         k ← GetKind (State.token state);
         mret (TokenKind.is_opening_symbol k)
       else mret false)
  then t ← GetMatchedClosingToken (State.token state); SkipTo t
  else PushState StateKind.Expr.

Definition HandleStatementForHeaderFinish : M unit :=
  state ← PopState;
  ConsumeAndAddCloseSymbol state NodeKind.ForHeader ;;
  PushState StateKind.CodeBlock.

Definition HandleStatementForFinish : M unit :=
  state ← PopState;
  AddNode NodeKind.ForStatement (State.token state) (State.has_error state).

Definition HandleStatementIf : M unit :=
  PopAndDiscardState ;;
  PushState StateKind.StatementIfConditionFinish ;;
  PushState StateKind.ParenConditionAsIf ;;
  ConsumeAndDiscard.

Definition HandleStatementIfConditionFinish : M unit :=
  state ← PopState;
  PushStateAs state StateKind.StatementIfThenBlockFinish ;;
  PushState StateKind.CodeBlock.

Definition HandleStatementIfThenBlockFinish : M unit :=
  state ← PopState;
  if! ConsumeAndAddLeafNodeIf TokenKind.Else NodeKind.IfStatementElse then
    PushStateAs state StateKind.StatementIfElseBlockFinish ;;
    at_if ← PositionIs TokenKind.If;
    PushState (if (at_if : bool) then StateKind.StatementIf else StateKind.CodeBlock)
  else AddNode NodeKind.IfStatement (State.token state) (State.has_error state).

Definition HandleStatementIfElseBlockFinish : M unit :=
  state ← PopState;
  AddNode NodeKind.IfStatement (State.token state) (State.has_error state).

Definition HandleStatementReturn : M unit :=
  state ← PopState;
  PushStateAs state StateKind.StatementReturnFinish ;;
  t ← Consume;
  AddLeafNode NodeKind.ReturnStatementStart t ;;
  if? var_token := ConsumeIf TokenKind.Var then
    AddLeafNode NodeKind.ReturnVarModifier var_token
  else if! PositionIs TokenKind.Semi then mret tt
  else PushState StateKind.Expr.

Definition HandleStatementReturnFinish : M unit :=
  HandleStatementKeywordFinish NodeKind.ReturnStatement.

Definition HandleStatementPackExpansionFinish : M unit :=
  state ← PopState;
  AddNode NodeKind.PackExpansionStatement (State.token state) (State.has_error state).

Definition HandleStatementScopeLoop : M unit :=
  token_kind ← PositionKind;
  if TokenKind.eqb token_kind TokenKind.CloseCurlyBrace then
    state ← PopState;
    when (State.has_error state) ReturnErrorOnState
  else PushState StateKind.Statement.

Definition HandleStatementWhile : M unit :=
  PopAndDiscardState ;;
  PushState StateKind.StatementWhileConditionFinish ;;
  PushState StateKind.ParenConditionAsWhile ;;
  ConsumeAndDiscard.

Definition HandleStatementWhileConditionFinish : M unit :=
  state ← PopState;
  PushStateAs state StateKind.StatementWhileBlockFinish ;;
  PushState StateKind.CodeBlock.

Definition HandleStatementWhileBlockFinish : M unit :=
  state ← PopState;
  AddNode NodeKind.WhileStatement (State.token state) (State.has_error state).

(** * [handle_code_block.cpp] *)

Definition HandleCodeBlock : M unit :=
  PopAndDiscardState ;;
  PushState StateKind.CodeBlockFinish ;;
  if! ConsumeAndAddLeafNodeIf TokenKind.OpenCurlyBrace NodeKind.CodeBlockStart then
    PushState StateKind.StatementScopeLoop
  else
    p ← position;
    AddLeafNodeWithError NodeKind.CodeBlockStart p true ;;
    EmitHere DiagnosticKind.ExpectedCodeBlock [] ;;
    PushState StateKind.Statement.

Definition HandleCodeBlockFinish : M unit :=
  state ← PopState;
  k ← GetKind (State.token state);
  if TokenKind.eqb k TokenKind.OpenCurlyBrace then
    t ← Consume;
    AddNode NodeKind.CodeBlock t (State.has_error state)
  else AddNode NodeKind.CodeBlock (State.token state) true.

(** * [handle_paren_condition.cpp] *)

Definition HandleParenCondition (start_kind : NodeKind.t) (finish_state_kind : StateKind.t)
    : M unit :=
  state ← PopState;
  open_paren ← ConsumeAndAddOpenParen (State.token state) start_kind;
  PushStateAs (use_open_paren open_paren state) finish_state_kind ;;
  if! (if is_some open_paren then mret false else PositionIs TokenKind.OpenCurlyBrace)
  then p ← position; AddInvalidParse p
  else if! (if NodeKind.eqb start_kind NodeKind.MatchConditionStart then mret false
            else if! PositionIs TokenKind.Let then mret true
            else PositionIs TokenKind.Var)
  then
    introducer ← Consume;
    AddLeafNode NodeKind.PatternConditionIntroducer introducer ;;
    PushStateAt StateKind.PatternConditionAfterPattern introducer ;;
    k ← GetKind introducer;
    PushRootPattern (TokenKind.eqb k TokenKind.Var)
  else PushState StateKind.Expr.

Definition HandlePatternConditionAfterPattern : M unit :=
  state ← PopState;
  k ← GetKind (State.token state);
  when (TokenKind.eqb k TokenKind.Var)
    (AddNode NodeKind.VariablePattern (State.token state) (State.has_error state)) ;;
  when (State.has_error state)
    (if? next := FindNextOf [TokenKind.Equal; TokenKind.CloseParen] then SkipTo next
     else mret tt) ;;
  if? equals := ConsumeIf TokenKind.Equal then
    AddLeafNode NodeKind.PatternConditionInitializer equals ;;
    PushState StateKind.Expr
  else
    EmitHere DiagnosticKind.ExpectedPatternConditionInitializer [] ;;
    p ← position;
    AddLeafNodeWithError NodeKind.PatternConditionInitializer p true ;;
    AddInvalidParse p ;;
    ReturnErrorOnState.

Definition HandleParenConditionAsIf : M unit :=
  HandleParenCondition NodeKind.IfConditionStart StateKind.ParenConditionFinishAsIf.
Definition HandleParenConditionAsWhile : M unit :=
  HandleParenCondition NodeKind.WhileConditionStart StateKind.ParenConditionFinishAsWhile.
Definition HandleParenConditionAsMatch : M unit :=
  HandleParenCondition NodeKind.MatchConditionStart StateKind.ParenConditionFinishAsMatch.

Definition HandleParenConditionFinishAsIf : M unit :=
  state ← PopState; ConsumeAndAddCloseSymbol state NodeKind.IfCondition.
Definition HandleParenConditionFinishAsWhile : M unit :=
  state ← PopState; ConsumeAndAddCloseSymbol state NodeKind.WhileCondition.
Definition HandleParenConditionFinishAsMatch : M unit :=
  state ← PopState; ConsumeAndAddCloseSymbol state NodeKind.MatchCondition.
