(* ===== verification/HandleMatch.v ===== *)
(** [match] statements: [handle_match.cpp]. *)

From S2P Require Import Prelude TokenKinds StateKinds NodeKinds Tokens Precedence.
From S2P Require Import ParseTree Diagnostics Context HandlePattern HandleDeclForms.

(** Error recovery shared by the handlers: a diagnostic unless one was already
    given, the missing nodes, and a skip past the construct. *)
Definition recover_match (has_error : bool) (missing : DiagnosticKind.t)
    (kinds : list NodeKind.t) : M unit :=
  when (negb has_error) (EmitHere missing []) ;;
  add_error_nodes kinds ;;
  SkipFromHere.

Definition HandleMatchHandlerStart (label_kind : NodeKind.t) : M unit :=
  state ← PopState;
  if! PositionIs TokenKind.EqualGreater then
    t ← Consume;
    AddLeafNode label_kind t ;;
    if! PositionIs TokenKind.OpenCurlyBrace then
      t ← Consume;
      AddNode NodeKind.MatchHandlerStart t (State.has_error state) ;;
      PushStateAs state StateKind.MatchHandlerFinish ;;
      PushState StateKind.StatementScopeLoop
    else
      recover_match (State.has_error state) DiagnosticKind.ExpectedMatchCaseBlock
        [NodeKind.MatchHandlerStart; NodeKind.MatchHandler]
  else
    recover_match (State.has_error state) DiagnosticKind.ExpectedMatchCaseArrow
      [label_kind; NodeKind.MatchHandlerStart; NodeKind.MatchHandler].

Definition EmitUnexpectedTokenAndRecover : M unit :=
  k ← PositionKind;
  EmitHere DiagnosticKind.UnexpectedTokenInMatchCasesBlock [ArgTokenKind k] ;;
  ReturnErrorOnState ;;
  SkipFromHere.

Definition HandleMatchIntroducer : M unit :=
  state ← PopState;
  p ← position;
  AddLeafNode NodeKind.Placeholder p ;;
  PushStateAs state StateKind.MatchConditionFinish ;;
  PushState StateKind.ParenConditionAsMatch ;;
  ConsumeAndDiscard.

Definition HandleMatchConditionFinish : M unit :=
  state ← PopState;
  ReplacePlaceholderNode (State.subtree_start state) NodeKind.MatchIntroducer
    (State.token state) false ;;
  if! PositionIs TokenKind.OpenCurlyBrace then
    t ← Consume;
    AddNode NodeKind.MatchStatementStart t (State.has_error state) ;;
    empty ← PositionIs TokenKind.CloseCurlyBrace;
    when empty (EmitHere DiagnosticKind.ExpectedMatchCases []) ;;
    PushStateAs (State.set_has_error empty state) StateKind.MatchStatementFinish ;;
    PushState StateKind.MatchCaseLoop
  else
    recover_match (State.has_error state) DiagnosticKind.ExpectedMatchCasesBlock
      [NodeKind.MatchStatementStart; NodeKind.MatchStatement].

Definition HandleMatchCaseLoop : M unit :=
  PopAndDiscardState ;;
  if! PositionIs TokenKind.Case then
    PushState StateKind.MatchCaseLoop ;;
    PushState StateKind.MatchCaseIntroducer
  else if! PositionIs TokenKind.Default then
    next ← PositionKindAhead 1;
    PushState (if TokenKind.eqb next TokenKind.If then StateKind.MatchCaseLoop
               else StateKind.MatchCaseLoopAfterDefault) ;;
    PushState StateKind.MatchDefaultIntroducer
  else if! PositionIs TokenKind.CloseCurlyBrace then mret tt
  else
    EmitUnexpectedTokenAndRecover ;;
    PushState StateKind.MatchCaseLoop.

Definition HandleMatchCaseLoopAfterDefault : M unit :=
  PopAndDiscardState ;;
  kind ← PositionKind;
  if TokenKind.IsOneOf kind [TokenKind.Case; TokenKind.Default] then
    EmitHere DiagnosticKind.UnreachableMatchCase [ArgTokenKind kind] ;;
    ReturnErrorOnState ;;
    PushState StateKind.MatchCaseLoopAfterDefault ;;
    SkipFromHere
  else
    when (negb (TokenKind.eqb kind TokenKind.CloseCurlyBrace))
      (EmitUnexpectedTokenAndRecover ;;
       PushState StateKind.MatchCaseLoopAfterDefault).

Definition HandleMatchCaseIntroducer : M unit :=
  state ← PopState;
  t ← Consume;
  AddLeafNode NodeKind.MatchCaseIntroducer t ;;
  PushStateAs state StateKind.MatchCaseAfterPattern ;;
  PushRootPattern false.

(** The end of an alternative pattern. *)
Definition finish_alternative_pattern (state : State.t) : M unit :=
  AddNode NodeKind.AlternativePattern (State.token state) (State.has_error state) ;;
  when (State.has_error state) ReturnErrorOnState.

Definition HandleMatchCaseAlternativePattern : M unit :=
  state ← PopState;
  t ← ConsumeChecked TokenKind.Period;
  AddLeafNode NodeKind.AlternativePatternStart t ;;
  t ← ConsumeChecked TokenKind.Identifier;
  AddLeafNode NodeKind.IdentifierNameNotBeforeSignature t ;;
  if! PositionIs TokenKind.OpenParen then
    PushStateAs state StateKind.MatchCaseAlternativePatternFinish ;;
    PushStateForPatternLike StateKind.PatternListAsTuple state
  else finish_alternative_pattern state.

Definition HandleMatchCaseAlternativePatternFinish : M unit :=
  state ← PopState; finish_alternative_pattern state.

Definition HandleMatchGuard (has_error : bool) (label_kind : NodeKind.t) : M unit :=
  PushState StateKind.MatchCaseGuardFinish ;;
  t ← Consume;
  AddLeafNode NodeKind.MatchCaseGuardIntroducer t ;;
  if? open_paren := ConsumeIf TokenKind.OpenParen then
    AddLeafNode NodeKind.MatchCaseGuardStart open_paren ;;
    PushState StateKind.Expr
  else
    when (negb has_error) (EmitHere DiagnosticKind.ExpectedMatchCaseGuardOpenParen []) ;;
    p ← position;
    AddLeafNodeWithError NodeKind.MatchCaseGuardStart p true ;;
    AddInvalidParse p ;;
    PopAndDiscardState ;;
    AddNode NodeKind.MatchCaseGuard p true ;;
    PopAndDiscardState ;;
    add_error_nodes [label_kind; NodeKind.MatchHandlerStart; NodeKind.MatchHandler] ;;
    SkipFromHere.

Definition HandleMatchCaseAfterPattern : M unit :=
  state ← PopState;
  if State.has_error state then
    add_error_nodes [NodeKind.MatchCase; NodeKind.MatchHandlerStart;
                     NodeKind.MatchHandler] ;;
    SkipFromHere
  else
    PushStateAs state StateKind.MatchCaseStart ;;
    if! PositionIs TokenKind.If then
      HandleMatchGuard (State.has_error state) NodeKind.MatchCase
    else mret tt.

Definition HandleMatchCaseGuardFinish : M unit :=
  state ← PopState;
  if? close_paren := ConsumeIf TokenKind.CloseParen then
    AddNode NodeKind.MatchCaseGuard close_paren (State.has_error state)
  else
    when (negb (State.has_error state))
      (EmitHere DiagnosticKind.ExpectedMatchCaseGuardCloseParen []) ;;
    add_error_nodes [NodeKind.MatchCaseGuard] ;;
    ReturnErrorOnState ;;
    SkipFromHere.

Definition HandleMatchCaseStart : M unit := HandleMatchHandlerStart NodeKind.MatchCase.

Definition HandleMatchDefaultIntroducer : M unit :=
  t ← Consume;
  AddLeafNode NodeKind.MatchDefaultIntroducer t ;;
  if! PositionIs TokenKind.If then
    state ← PopState;
    PushStateAs state StateKind.MatchGuardedDefaultStart ;;
    HandleMatchGuard (State.has_error state) NodeKind.MatchGuardedDefault
  else HandleMatchHandlerStart NodeKind.MatchDefault.

Definition HandleMatchGuardedDefaultStart : M unit :=
  HandleMatchHandlerStart NodeKind.MatchGuardedDefault.

Definition HandleMatchHandlerFinish : M unit :=
  state ← PopState;
  t ← ConsumeChecked TokenKind.CloseCurlyBrace;
  AddNode NodeKind.MatchHandler t (State.has_error state).

Definition HandleMatchStatementFinish : M unit :=
  state ← PopState;
  t ← ConsumeChecked TokenKind.CloseCurlyBrace;
  AddNode NodeKind.MatchStatement t (State.has_error state).
