(* ===== verification/Parse.v ===== *)
(** The parser's driver: [Parse] of [toolchain/parse/parse.cpp]. The state
    loop is the step relation of the parser; [Parse] runs it with fuel, and its
    result is the tree with its [has_errors] flag and the diagnostics. *)

From S2P Require Import Prelude TokenKinds StateKinds NodeKinds Tokens Precedence.
From S2P Require Import ParseTree Diagnostics Context HandleExpr HandleExprForms.
From S2P Require Import HandlePattern HandlePatternList HandleLetVar HandleDeclScope.
From S2P Require Import HandleDecl HandleDeclForms HandlePackaging HandleStatement.
From S2P Require Import HandleMatch.

(** [HandleInvalid]. *)
Definition HandleInvalid : M unit := PopState ;; action_fail FatalError.

(** The [switch] of the state loop. *)
Definition Handle (k : StateKind.t) : M unit :=
  match k with
  | StateKind.Invalid => HandleInvalid
  | StateKind.IndexExpr => HandleIndexExpr
  | StateKind.IndexExprFinish => HandleIndexExprFinish
  | StateKind.ArrayExpr => HandleArrayExpr
  | StateKind.ArrayExprComma => HandleArrayExprComma
  | StateKind.ArrayExprFinish => HandleArrayExprFinish
  | StateKind.FormLiteral => HandleFormLiteral
  | StateKind.PrimitiveForm => HandlePrimitiveForm
  | StateKind.PrimitiveFormFinish => HandlePrimitiveFormFinish
  | StateKind.FormLiteralFinish => HandleFormLiteralFinish
  | StateKind.TypeOfExpr => HandleTypeOfExpr
  | StateKind.TypeOfExprFinish => HandleTypeOfExprFinish
  | StateKind.BraceExpr => HandleBraceExpr
  | StateKind.BraceExprParamAsType => HandleBraceExprParamAsType
  | StateKind.BraceExprParamAsValue => HandleBraceExprParamAsValue
  | StateKind.BraceExprParamAsUnknown => HandleBraceExprParamAsUnknown
  | StateKind.BraceExprParamAfterDesignatorAsType => HandleBraceExprParamAfterDesignatorAsType
  | StateKind.BraceExprParamAfterDesignatorAsValue => HandleBraceExprParamAfterDesignatorAsValue
  | StateKind.BraceExprParamAfterDesignatorAsUnknown => HandleBraceExprParamAfterDesignatorAsUnknown
  | StateKind.BraceExprParamFinishAsType => HandleBraceExprParamFinishAsType
  | StateKind.BraceExprParamFinishAsValue => HandleBraceExprParamFinishAsValue
  | StateKind.BraceExprParamFinishAsUnknown => HandleBraceExprParamFinishAsUnknown
  | StateKind.BraceExprFinishAsType => HandleBraceExprFinishAsType
  | StateKind.BraceExprFinishAsValue => HandleBraceExprFinishAsValue
  | StateKind.BraceExprFinishAsUnknown => HandleBraceExprFinishAsUnknown
  | StateKind.CallExpr => HandleCallExpr
  | StateKind.CallExprFinish => HandleCallExprFinish
  | StateKind.CodeBlock => HandleCodeBlock
  | StateKind.CodeBlockFinish => HandleCodeBlockFinish
  | StateKind.DeclNameAndParams => HandleDeclNameAndParams
  | StateKind.DeclNameAndParamsAfterImplicit => HandleDeclNameAndParamsAfterImplicit
  | StateKind.DeclNameAndParamsAfterParams => HandleDeclNameAndParamsAfterParams
  | StateKind.DeclAsClass => HandleDeclAsClass
  | StateKind.DeclAsInterface => HandleDeclAsInterface
  | StateKind.DeclAsRegular => HandleDeclAsRegular
  | StateKind.DeclAsUnion => HandleDeclAsUnion
  | StateKind.DeclScopeLoopAsClass => HandleDeclScopeLoopAsClass
  | StateKind.DeclScopeLoopAsInterface => HandleDeclScopeLoopAsInterface
  | StateKind.DeclScopeLoopAsRegular => HandleDeclScopeLoopAsRegular
  | StateKind.DeclScopeLoopAsUnion => HandleDeclScopeLoopAsUnion
  | StateKind.InlineDeclAfterIntroducer => HandleInlineDeclAfterIntroducer
  | StateKind.PeriodAsExpr => HandlePeriodAsExpr
  | StateKind.PeriodAsStruct => HandlePeriodAsStruct
  | StateKind.CompoundMemberAccess => HandleCompoundMemberAccess
  | StateKind.CompoundPointerMemberAccess => HandleCompoundPointerMemberAccess
  | StateKind.ArrowExpr => HandleArrowExpr
  | StateKind.Expr => HandleExpr
  | StateKind.ExprInPostfix => HandleExprInPostfix
  | StateKind.ExprInPostfixLoop => HandleExprInPostfixLoop
  | StateKind.ExprLoop => HandleExprLoop
  | StateKind.ExprLoopForInfixOperator => HandleExprLoopForInfixOperator
  | StateKind.ExprLoopForPrefixOperator => HandleExprLoopForPrefixOperator
  | StateKind.ExprLoopForShortCircuitOperatorAsAnd => HandleExprLoopForShortCircuitOperatorAsAnd
  | StateKind.ExprLoopForShortCircuitOperatorAsOr => HandleExprLoopForShortCircuitOperatorAsOr
  | StateKind.IfExprFinishCondition => HandleIfExprFinishCondition
  | StateKind.IfExprFinishThen => HandleIfExprFinishThen
  | StateKind.IfExprFinishElse => HandleIfExprFinishElse
  | StateKind.IfExprFinish => HandleIfExprFinish
  | StateKind.RequirementBegin => HandleRequirementBegin
  | StateKind.RequirementOperator => HandleRequirementOperator
  | StateKind.RequirementOperatorFinish => HandleRequirementOperatorFinish
  | StateKind.WhereFinish => HandleWhereFinish
  | StateKind.ExprStatementFinish => HandleExprStatementFinish
  | StateKind.FriendDecl => HandleFriendDecl
  | StateKind.FunctionIntroducer => HandleFunctionIntroducer
  | StateKind.LambdaIntroducer => HandleLambdaIntroducer
  | StateKind.LambdaAfterIntroducer => HandleLambdaAfterIntroducer
  | StateKind.LambdaAfterImplicitParams => HandleLambdaAfterImplicitParams
  | StateKind.LambdaAfterParams => HandleLambdaAfterParams
  | StateKind.LambdaBody => HandleLambdaBody
  | StateKind.LambdaBodyFinish => HandleLambdaBodyFinish
  | StateKind.FunctionAfterParams => HandleFunctionAfterParams
  | StateKind.FunctionReturnTypeFinish => HandleFunctionReturnTypeFinish
  | StateKind.FunctionReturnFormFinish => HandleFunctionReturnFormFinish
  | StateKind.FunctionSignatureFinish => HandleFunctionSignatureFinish
  | StateKind.FunctionDefinitionFinish => HandleFunctionDefinitionFinish
  | StateKind.FunctionTerseBodyFinish => HandleFunctionTerseBodyFinish
  | StateKind.ExportName => HandleExportName
  | StateKind.ExportNameFinish => HandleExportNameFinish
  | StateKind.Import => HandleImport
  | StateKind.Library => HandleLibrary
  | StateKind.MatchFirst => HandleMatchFirst
  | StateKind.MatchFirstFinish => HandleMatchFirstFinish
  | StateKind.Namespace => HandleNamespace
  | StateKind.NamespaceFinish => HandleNamespaceFinish
  | StateKind.Package => HandlePackage
  | StateKind.Alias => HandleAlias
  | StateKind.AliasAfterName => HandleAliasAfterName
  | StateKind.AliasFinish => HandleAliasFinish
  | StateKind.PatternListElementAsTuple => HandlePatternListElementAsTuple
  | StateKind.PatternListElementAsStruct => HandlePatternListElementAsStruct
  | StateKind.PatternListElementAsExplicit => HandlePatternListElementAsExplicit
  | StateKind.PatternListElementAsImplicit => HandlePatternListElementAsImplicit
  | StateKind.PackExpansionPatternFinish => HandlePackExpansionPatternFinish
  | StateKind.PatternListElementCheckForDefaultValue => HandlePatternListElementCheckForDefaultValue
  | StateKind.PatternListElementFinishDefaultValue => HandlePatternListElementFinishDefaultValue
  | StateKind.PatternListElementFinishAsTuple => HandlePatternListElementFinishAsTuple
  | StateKind.PatternListElementFinishAsStruct => HandlePatternListElementFinishAsStruct
  | StateKind.PatternListElementFinishAsExplicit => HandlePatternListElementFinishAsExplicit
  | StateKind.PatternListElementFinishAsImplicit => HandlePatternListElementFinishAsImplicit
  | StateKind.PatternListAsTuple => HandlePatternListAsTuple
  | StateKind.PatternListAsStruct => HandlePatternListAsStruct
  | StateKind.PatternListAsExplicit => HandlePatternListAsExplicit
  | StateKind.PatternListAsImplicit => HandlePatternListAsImplicit
  | StateKind.PatternListFinishAsParen => HandlePatternListFinishAsParen
  | StateKind.PatternListFinishAsTuple => HandlePatternListFinishAsTuple
  | StateKind.PatternListFinishAsStruct => HandlePatternListFinishAsStruct
  | StateKind.PatternListFinishAsExplicit => HandlePatternListFinishAsExplicit
  | StateKind.PatternListFinishAsImplicit => HandlePatternListFinishAsImplicit
  | StateKind.StructPatternDesignatedFieldFinish => HandleStructPatternDesignatedFieldFinish
  | StateKind.StructPatternFieldAfterDesignator => HandleStructPatternFieldAfterDesignator
  | StateKind.StructPatternUnderscore => HandleStructPatternUnderscore
  | StateKind.ParenConditionAsIf => HandleParenConditionAsIf
  | StateKind.ParenConditionAsWhile => HandleParenConditionAsWhile
  | StateKind.ParenConditionAsMatch => HandleParenConditionAsMatch
  | StateKind.ParenConditionFinishAsIf => HandleParenConditionFinishAsIf
  | StateKind.ParenConditionFinishAsWhile => HandleParenConditionFinishAsWhile
  | StateKind.ParenConditionFinishAsMatch => HandleParenConditionFinishAsMatch
  | StateKind.PatternConditionAfterPattern => HandlePatternConditionAfterPattern
  | StateKind.OnlyParenExpr => HandleOnlyParenExpr
  | StateKind.OnlyParenExprFinish => HandleOnlyParenExprFinish
  | StateKind.ParenExpr => HandleParenExpr
  | StateKind.TupleLiteralFinish => HandleTupleLiteralFinish
  | StateKind.ExprAfterOpenParenFinish => HandleExprAfterOpenParenFinish
  | StateKind.TupleLiteralElementFinish => HandleTupleLiteralElementFinish
  | StateKind.TupleLiteralElement => HandleTupleLiteralElement
  | StateKind.PackExpansionExprFinish => HandlePackExpansionExprFinish
  | StateKind.ParenExprFinish => HandleParenExprFinish
  | StateKind.Pattern => HandlePattern
  | StateKind.ExprPattern => HandleExprPattern
  | StateKind.BindingPattern => HandleBindingPattern
  | StateKind.BindingPatternFinishAsGeneric => HandleBindingPatternFinishAsGeneric
  | StateKind.BindingPatternFinishAsRegular => HandleBindingPatternFinishAsRegular
  | StateKind.BindingPatternFinishAsForm => HandleBindingPatternFinishAsForm
  | StateKind.VariablePattern => HandleVariablePattern
  | StateKind.FinishVariablePattern => HandleFinishVariablePattern
  | StateKind.UnusedPattern => HandleUnusedPattern
  | StateKind.FinishUnusedPattern => HandleFinishUnusedPattern
  | StateKind.Statement => HandleStatement
  | StateKind.StatementBreakFinish => HandleStatementBreakFinish
  | StateKind.StatementContinueFinish => HandleStatementContinueFinish
  | StateKind.StatementForHeader => HandleStatementForHeader
  | StateKind.StatementForHeaderIn => HandleStatementForHeaderIn
  | StateKind.StatementForHeaderFinish => HandleStatementForHeaderFinish
  | StateKind.StatementForFinish => HandleStatementForFinish
  | StateKind.StatementIf => HandleStatementIf
  | StateKind.StatementIfConditionFinish => HandleStatementIfConditionFinish
  | StateKind.StatementIfThenBlockFinish => HandleStatementIfThenBlockFinish
  | StateKind.StatementIfElseBlockFinish => HandleStatementIfElseBlockFinish
  | StateKind.StatementReturn => HandleStatementReturn
  | StateKind.StatementReturnFinish => HandleStatementReturnFinish
  | StateKind.StatementPackExpansionFinish => HandleStatementPackExpansionFinish
  | StateKind.StatementScopeLoop => HandleStatementScopeLoop
  | StateKind.StatementWhile => HandleStatementWhile
  | StateKind.StatementWhileConditionFinish => HandleStatementWhileConditionFinish
  | StateKind.StatementWhileBlockFinish => HandleStatementWhileBlockFinish
  | StateKind.DeclDefinitionFinishAsClass => HandleDeclDefinitionFinishAsClass
  | StateKind.DeclDefinitionFinishAsImpl => HandleDeclDefinitionFinishAsImpl
  | StateKind.DeclDefinitionFinishAsInterface => HandleDeclDefinitionFinishAsInterface
  | StateKind.DeclDefinitionFinishAsNamedConstraint => HandleDeclDefinitionFinishAsNamedConstraint
  | StateKind.DeclDefinitionFinishAsUnion => HandleDeclDefinitionFinishAsUnion
  | StateKind.TypeAfterIntroducerAsClass => HandleTypeAfterIntroducerAsClass
  | StateKind.TypeAfterIntroducerAsInterface => HandleTypeAfterIntroducerAsInterface
  | StateKind.TypeAfterIntroducerAsNamedConstraint => HandleTypeAfterIntroducerAsNamedConstraint
  | StateKind.TypeAfterIntroducerAsUnion => HandleTypeAfterIntroducerAsUnion
  | StateKind.DeclOrDefinitionAsClass => HandleDeclOrDefinitionAsClass
  | StateKind.DeclOrDefinitionAsImpl => HandleDeclOrDefinitionAsImpl
  | StateKind.DeclOrDefinitionAsInterface => HandleDeclOrDefinitionAsInterface
  | StateKind.DeclOrDefinitionAsNamedConstraint => HandleDeclOrDefinitionAsNamedConstraint
  | StateKind.DeclOrDefinitionAsUnion => HandleDeclOrDefinitionAsUnion
  | StateKind.AdaptAfterIntroducer => HandleAdaptAfterIntroducer
  | StateKind.AdaptDecl => HandleAdaptDecl
  | StateKind.BaseAfterIntroducer => HandleBaseAfterIntroducer
  | StateKind.BaseDecl => HandleBaseDecl
  | StateKind.ImplAfterIntroducer => HandleImplAfterIntroducer
  | StateKind.ImplAfterForall => HandleImplAfterForall
  | StateKind.ImplBeforeAs => HandleImplBeforeAs
  | StateKind.RequireAfterIntroducer => HandleRequireAfterIntroducer
  | StateKind.RequireBeforeImpls => HandleRequireBeforeImpls
  | StateKind.RequireDecl => HandleRequireDecl
  | StateKind.ObserveAfterIntroducer => HandleObserveAfterIntroducer
  | StateKind.ObserveOperator => HandleObserveOperator
  | StateKind.ObserveFinishOperator => HandleObserveFinishOperator
  | StateKind.ObserveDecl => HandleObserveDecl
  | StateKind.VarAsRegular => HandleVarAsRegular
  | StateKind.VarAsReturned => HandleVarAsReturned
  | StateKind.VarAfterPattern => HandleVarAfterPattern
  | StateKind.VarFinish => HandleVarFinish
  | StateKind.Let => HandleLet
  | StateKind.LetAfterPatternAsRegular => HandleLetAfterPatternAsRegular
  | StateKind.LetAfterPatternAsAssociatedConstant => HandleLetAfterPatternAsAssociatedConstant
  | StateKind.LetFinishAsRegular => HandleLetFinishAsRegular
  | StateKind.LetFinishAsAssociatedConstant => HandleLetFinishAsAssociatedConstant
  | StateKind.LetElseFinish => HandleLetElseFinish
  | StateKind.AssociatedConstant => HandleAssociatedConstant
  | StateKind.ChoiceIntroducer => HandleChoiceIntroducer
  | StateKind.ChoiceDefinitionStart => HandleChoiceDefinitionStart
  | StateKind.ChoiceAlternative => HandleChoiceAlternative
  | StateKind.ChoiceAlternativeFinish => HandleChoiceAlternativeFinish
  | StateKind.ChoiceDefinitionFinish => HandleChoiceDefinitionFinish
  | StateKind.MatchIntroducer => HandleMatchIntroducer
  | StateKind.MatchConditionFinish => HandleMatchConditionFinish
  | StateKind.MatchCaseLoop => HandleMatchCaseLoop
  | StateKind.MatchCaseIntroducer => HandleMatchCaseIntroducer
  | StateKind.MatchCaseAlternativePattern => HandleMatchCaseAlternativePattern
  | StateKind.MatchCaseAlternativePatternFinish => HandleMatchCaseAlternativePatternFinish
  | StateKind.MatchCaseAfterPattern => HandleMatchCaseAfterPattern
  | StateKind.MatchCaseGuardFinish => HandleMatchCaseGuardFinish
  | StateKind.MatchCaseStart => HandleMatchCaseStart
  | StateKind.MatchDefaultIntroducer => HandleMatchDefaultIntroducer
  | StateKind.MatchGuardedDefaultStart => HandleMatchGuardedDefaultStart
  | StateKind.MatchHandlerFinish => HandleMatchHandlerFinish
  | StateKind.MatchCaseLoopAfterDefault => HandleMatchCaseLoopAfterDefault
  | StateKind.MatchStatementFinish => HandleMatchStatementFinish
  end.

(** One iteration of the state loop: the handler of the top state. *)
Definition iteration : M unit :=
  stack ← state_stack;
  match stack with
  | s :: _ => Handle (State.kind s)
  | [] => action_fail EmptyStack
  end.

(** [while (!context.state_stack().empty())]. *)
Fixpoint state_loop (fuel : nat) : M unit :=
  match fuel with
  | O => action_fail OutOfFuel
  | S fuel' =>
      stack ← state_stack;
      match stack with
      | [] => mret tt
      | s :: _ => Handle (State.kind s) ;; state_loop fuel'
      end
  end.

(** What [Parse] does before and after the loop. *)
Definition parse_start : M unit :=
  t ← ConsumeChecked TokenKind.FileStart;
  AddLeafNode NodeKind.FileStart t ;;
  PushState StateKind.DeclScopeLoopAsRegular.
Definition parse_finish : M unit :=
  p ← position; AddLeafNode NodeKind.FileEnd p.

Definition parse_body (fuel : nat) : M unit :=
  parse_start ;; state_loop fuel ;; parse_finish.

(** What a parse produces: the tree, its [has_errors] flag, the buffer with
    any recovery tokens added, and the diagnostics in emission order. *)
Record ParseResult := {
  parsed_tree : Tree.t;
  parsed_has_errors : bool;
  parsed_tokens : TokenizedBuffer.t;
  parsed_diagnostics : list Diagnostic;
}.

(** [Parse]; a tree that fails [Tree::Verify] is a [CARBON_FATAL]. *)
Definition Parse (fuel : nat) (b : TokenizedBuffer.t) : Result ParseResult :=
  c ← initial b;
  match parse_body fuel c with
  | Err f => Err f
  | Ok (_, c', diags) =>
      let has_errors := TokenizedBuffer.has_errors (tokens_ c') || seen_error diags in
      match Tree.Verify (tokens_ c') has_errors (tree_ c') with
      | None => mret {| parsed_tree := tree_ c'; parsed_has_errors := has_errors;
                        parsed_tokens := tokens_ c'; parsed_diagnostics := diags |}
      | Some _ => Err FatalError
      end
  end.

(** * The parser as a transition system *)

(** [step c c' w]: one iteration from [c], which emits [w]. *)
Inductive step : Context → Context → list Diagnostic → Prop :=
  | step_handle s rest c c' w :
      state_stack_ c = s :: rest →
      Handle (State.kind s) c = Ok (tt, c', w) →
      step c c' w.

Inductive steps : Context → Context → list Diagnostic → Prop :=
  | steps_refl c : steps c c []
  | steps_step c1 c2 c3 w1 w2 : step c1 c2 w1 → steps c2 c3 w2 → steps c1 c3 (w1 ++ w2).

(** The contexts the loop can be in while parsing [b], with what was emitted
    on the way. *)
Definition reachable (b : TokenizedBuffer.t) (c : Context) (w : list Diagnostic) : Prop :=
  ∃ c0 c1 w0 w1, initial b = Ok c0 ∧ parse_start c0 = Ok (tt, c1, w0) ∧
    steps c1 c w1 ∧ w = w0 ++ w1.
