(* ===== verification/Samples.v ===== *)
(** Concrete token streams: a builder for small well-bracketed buffers, which
    the witnesses of the development run the parser on. A stream is given by
    its lines; every token is two bytes wide, and a token is preceded by a
    space when its flag says so or when it starts a line. *)

From S2P Require Import Prelude TokenKinds StateKinds NodeKinds Tokens Precedence.
From S2P Require Import ParseTree Diagnostics Context Parse.

Record SampleLine := { sample_indent : Z; sample_tokens : list (TokenKind.t * bool) }.

(** One line, [l 2 [TokenKind.Fn; ...]]: indented by 2, a space before every
    token. *)
Definition spaced (indent : Z) (ks : list TokenKind.t) : SampleLine :=
  {| sample_indent := indent; sample_tokens := (λ k, (k, true)) <$> ks |}.

(** The same with no spaces after the first token. *)
Definition tight (indent : Z) (ks : list TokenKind.t) : SampleLine :=
  {| sample_indent := indent;
     sample_tokens := imap (λ i k, (k, bool_decide (i = O))) ks |}.

(** The tokens of one line from byte [offset] on, and the next offset. *)
Fixpoint line_tokens (offset : Z) (ts : list (TokenKind.t * bool))
    : list TokenizedBuffer.TokenInfo * Z :=
  match ts with
  | [] => ([], offset)
  | (k, space) :: ts =>
      let here := offset + (if space then 1 else 0) in
      let r := line_tokens (here + 2) ts in
      (TokenizedBuffer.MakeTokenInfo k space 0 here :: r.1, r.2)
  end.

(** Every line with its tokens, from byte [offset] on. *)
Fixpoint layout (offset : Z) (ls : list SampleLine)
    : list TokenizedBuffer.TokenInfo * list TokenizedBuffer.LineInfo * Z :=
  match ls with
  | [] => ([], [], offset)
  | l :: ls =>
      let r := line_tokens (offset + sample_indent l - 1) (sample_tokens l) in
      let r' := layout (r.2 + 1) ls in
      (r.1 ++ r'.1.1,
       {| TokenizedBuffer.start := offset; TokenizedBuffer.indent := sample_indent l |}
         :: r'.1.2, r'.2)
  end.

(** The closing token for each opening one, from token [i] on: [opens] are the
    open brackets. *)
Fixpoint matching (i : Z) (opens : list Z) (ts : list TokenizedBuffer.TokenInfo)
    : list (Z * Z) :=
  match ts with
  | [] => []
  | t :: ts =>
      let k := TokenizedBuffer.kind t in
      if TokenKind.is_opening_symbol k then matching (i + 1) (i :: opens) ts
      else if TokenKind.is_closing_symbol k then
        match opens with
        | o :: opens => (o, i) :: (i, o) :: matching (i + 1) opens ts
        | [] => matching (i + 1) [] ts
        end
      else matching (i + 1) opens ts
  end.

Definition find_match (i : Z) (pairs : list (Z * Z)) : Z :=
  match filter (λ p, p.1 = i) pairs with p :: _ => p.2 | [] => 0 end.

(** Appends the tokens with [AddToken], their payloads set to the matching
    bracket. *)
Definition sample (ls : list SampleLine) : TokenizedBuffer.t :=
  let r := layout 1 ls in
  let infos :=
    TokenizedBuffer.MakeTokenInfo TokenKind.FileStart false 0 0 :: r.1.1 ++
    [TokenizedBuffer.MakeTokenInfo TokenKind.FileEnd true 0 r.2] in
  let pairs := matching 0 [] infos in
  fold_left TokenizedBuffer.AddToken
    (imap (λ i t,
       TokenizedBuffer.MakeTokenInfo (TokenizedBuffer.kind t)
         (TokenizedBuffer.has_leading_space t) (find_match (Z.of_nat i) pairs)
         (TokenizedBuffer.byte_offset t)) infos)
    {| TokenizedBuffer.token_infos := [];
       TokenizedBuffer.line_infos :=
         {| TokenizedBuffer.start := 0; TokenizedBuffer.indent := 0 |} :: r.1.2 ++
         [{| TokenizedBuffer.start := r.2; TokenizedBuffer.indent := 0 |}];
       TokenizedBuffer.has_errors := false;
       TokenizedBuffer.expected_max_parse_tree_size := 0;
       TokenizedBuffer.post_lexing_recovery_tokens := 0;
       TokenizedBuffer.recovery_tokens := [];
       TokenizedBuffer.source_text := String.string_of_list_ascii (replicate (Z.to_nat (r.2 + 1)) Ascii.zero);
       TokenizedBuffer.identifiers := ["x"%string] |}.

(** [fn F(x: i32) { return x; }], on three lines. *)
Definition sample_function : TokenizedBuffer.t :=
  sample
    [tight 0 [TokenKind.Fn; TokenKind.Identifier; TokenKind.OpenParen;
              TokenKind.Identifier; TokenKind.Colon; TokenKind.IntTypeLiteral;
              TokenKind.CloseParen; TokenKind.OpenCurlyBrace];
     spaced 2 [TokenKind.Return; TokenKind.Identifier; TokenKind.Semi];
     tight 0 [TokenKind.CloseCurlyBrace]].

(** [fn F(x i32);], which lacks the colon. *)
Definition sample_bad_function : TokenizedBuffer.t :=
  sample
    [tight 0 [TokenKind.Fn; TokenKind.Identifier; TokenKind.OpenParen;
              TokenKind.Identifier; TokenKind.IntTypeLiteral; TokenKind.CloseParen;
              TokenKind.Semi]].

(** [let x: auto = (x);]. *)
Definition sample_paren : TokenizedBuffer.t :=
  sample
    [spaced 0 [TokenKind.Let; TokenKind.Identifier; TokenKind.Colon; TokenKind.Auto;
               TokenKind.Equal; TokenKind.OpenParen; TokenKind.Identifier;
               TokenKind.CloseParen; TokenKind.Semi]].

(** * Running the parser on them *)

(** The context the parser starts in. *)
Definition initial_of (b : TokenizedBuffer.t) : Context :=
  match initial b with
  | Ok c => c
  | Err _ => mkContext b Tree.empty 0 0 [] [] FileStart TokenizedBuffer.NoneToken
  end.

(** The context at the end of a parse, and everything emitted. *)
Definition final_of (fuel : nat) (b : TokenizedBuffer.t) : Context * list Diagnostic :=
  match parse_body fuel (initial_of b) with
  | Ok (_, c, w) => (c, w)
  | Err _ => (initial_of b, [])
  end.
