(* ===== verification/Grouping.v ===== *)
(** The precedence table seen through the parser: the tree of
    [a op1 b op2 c], for every pair of infix operators. *)

From S2P Require Import Prelude TokenKinds StateKinds NodeKinds Tokens Precedence.
From S2P Require Import ParseTree Diagnostics Context HandleExpr Parse Samples.

(** The nodes an infix operator adds: those right after its left operand and
    the one after both operands. *)
Definition operator_nodes (k : TokenKind.t) : option (list NodeKind.t * NodeKind.t) :=
  match k with
  | TokenKind.And =>
      Some ([NodeKind.ShortCircuitOperandAnd], NodeKind.ShortCircuitOperatorAnd)
  | TokenKind.Or =>
      Some ([NodeKind.ShortCircuitOperandOr], NodeKind.ShortCircuitOperatorOr)
  | _ => (λ n, ([], n)) <$> infix_operator_node k
  end.

(** An operator that can be used between subexpressions, with its level and
    its nodes. *)
Definition infix_operator (k : TokenKind.t)
    : option (PrecedenceLevel.t * (list NodeKind.t * NodeKind.t)) :=
  match PrecedenceGroup.ForTrailing k true, operator_nodes k with
  | Some op, Some nodes =>
      let l := PrecedenceGroup.level op in
      if PrecedenceGroup.is_binary op &&
         bool_decide (PrecedenceGroup.GetPriority PrecedenceGroup.ForTopLevelExpr l = RightFirst)
      then Some (l, nodes) else None
  | _, _ => None
  end.

(** [let x: auto = a op1 b op2 c;]. *)
Definition two_operators (op1 op2 : TokenKind.t) : TokenizedBuffer.t :=
  sample
    [spaced 0 [TokenKind.Let; TokenKind.Identifier; TokenKind.Colon; TokenKind.Auto;
               TokenKind.Equal; TokenKind.Identifier; op1; TokenKind.Identifier; op2;
               TokenKind.Identifier; TokenKind.Semi]].

(** The tree's node kinds in postorder and the diagnostics' kinds. *)
Definition outcome (fuel : nat) (b : TokenizedBuffer.t)
    : option (list NodeKind.t * list DiagnosticKind.t) :=
  match Parse fuel b with
  | Ok r => Some (NodeImpl.kind <$> Tree.node_impls (parsed_tree r),
                  diag_kind <$> parsed_diagnostics r)
  | Err _ => None
  end.

(** [(a op1 b) op2 c] and [a op1 (b op2 c)]. *)
Definition left_grouped (n1 n2 : list NodeKind.t * NodeKind.t) : list NodeKind.t :=
  let x := [NodeKind.IdentifierNameExpr] in
  (x ++ n1.1 ++ x ++ [n1.2]) ++ n2.1 ++ x ++ [n2.2].
Definition right_grouped (n1 n2 : list NodeKind.t * NodeKind.t) : list NodeKind.t :=
  let x := [NodeKind.IdentifierNameExpr] in
  x ++ n1.1 ++ (x ++ n2.1 ++ x ++ [n2.2]) ++ [n1.2].

(** What the table's verdict on the two levels makes of the declaration. *)
Definition grouped (p : OperatorPriority) (n1 n2 : list NodeKind.t * NodeKind.t)
    : list NodeKind.t * list DiagnosticKind.t :=
  let declare expr :=
    [NodeKind.FileStart; NodeKind.LetIntroducer; NodeKind.IdentifierNameNotBeforeSignature;
     NodeKind.BindingPatternTypeStart; NodeKind.AutoTypeLiteral; NodeKind.LetBindingPattern;
     NodeKind.LetInitializer] ++ expr ++ [NodeKind.LetDecl; NodeKind.FileEnd] in
  match p with
  | LeftFirst => (declare (left_grouped n1 n2), [])
  | RightFirst => (declare (right_grouped n1 n2), [])
  | Ambiguous => (declare (left_grouped n1 n2), [DiagnosticKind.OperatorRequiresParentheses])
  end.

(** Compares an outcome with a [grouped] one. *)
Definition diagnostics_match (w w' : list DiagnosticKind.t) : bool :=
  match w, w' with
  | [], [] => true
  | [DiagnosticKind.OperatorRequiresParentheses],
    [DiagnosticKind.OperatorRequiresParentheses] => true
  | _, _ => false
  end.

Lemma diagnostics_match_eq w w' : diagnostics_match w w' = true → w = w'.
Proof.
  destruct w as [|x [|]], w' as [|y [|]]; try done;
    destruct x; try done; by destruct y.
Qed.

Definition pair_is_grouped (op1 op2 : TokenKind.t) : bool :=
  match infix_operator op1, infix_operator op2 with
  | Some (l1, n1), Some (l2, n2) =>
      let g := grouped (PrecedenceGroup.GetPriority l1 l2) n1 n2 in
      match outcome 60 (two_operators op1 op2) with
      | Some (nodes, w) => bool_decide (nodes = g.1) && diagnostics_match w g.2
      | None => false
      end
  | _, _ => true
  end.

Lemma every_pair_grouped :
  forallb (λ op1, forallb (pair_is_grouped op1) TokenKind.all) TokenKind.all = true.
Proof. vm_compute. reflexivity. Qed.


