(* ===== verification/Runs.v ===== *)
(** The state loop as a transition system: [state_loop] with enough fuel does
    exactly what some number of [step]s does, more fuel changes nothing, and
    [iterate] names the context after a given number of iterations. *)

From S2P Require Import Prelude TokenKinds StateKinds NodeKinds Tokens Precedence.
From S2P Require Import ParseTree Diagnostics Context Parse Samples.

(** * Iterations *)

(** [n] iterations of the loop. *)
Fixpoint iterate (n : nat) : M unit :=
  match n with O => mret tt | S n => iteration ;; iterate n end.

Lemma steps_app c1 c2 c3 w1 w2 : steps c1 c2 w1 → steps c2 c3 w2 → steps c1 c3 (w1 ++ w2).
Proof.
  induction 1 as [c|c1 c2 c' w w' Hs _ IH]; [done|]. intros H.
  rewrite <- (assoc_L (++)). eapply steps_step; [done|by apply IH].
Qed.

Lemma iteration_step c c' w : iteration c = Ok (tt, c', w) ↔ step c c' w.
Proof.
  unfold iteration, state_stack. run_action. destruct (state_stack_ c) as [|s rest] eqn:E.
  - split; [done|]. intros H. inversion H; congruence.
  - split.
    + intros H. destruct (Handle (State.kind s) c) as [[[[] c1] w1]|] eqn:Eh; [|done].
      injection H as <- <-. by eapply step_handle.
    + intros H. inversion H as [s' rest' ??? E' Eh]; subst.
      rewrite E in E'. injection E' as <- <-. by rewrite Eh.
Qed.

Lemma step_stack c c' w : step c c' w → ∃ s rest, state_stack_ c = s :: rest.
Proof. intros [s rest ??? E _]. by exists s, rest. Qed.

Lemma iterate_steps n c c' w : iterate n c = Ok (tt, c', w) → steps c c' w.
Proof.
  revert c w. induction n as [|n IH]; intros c w; cbn [iterate]; run_action.
  { intros [= <- <-]. constructor. }
  destruct (iteration c) as [[[[] c1] w1]|] eqn:E1; [|done].
  destruct (iterate n c1) as [[[[] c2] w2]|] eqn:E2; [|done].
  intros [= <- <-]. apply iteration_step in E1. eapply steps_step; eauto.
Qed.

(** * The loop *)

(** One unfolding of the loop, as an equation. *)
Lemma state_loop_S fuel c :
  state_loop (S fuel) c =
  match state_stack_ c with
  | [] => Ok (tt, c, [])
  | _ :: _ =>
      match iteration c with
      | Err f => Err f
      | Ok (_, c1, w1) =>
          match state_loop fuel c1 with
          | Err f => Err f
          | Ok (u, c2, w2) => Ok (u, c2, w1 ++ w2)
          end
      end
  end.
Proof.
  cbn [state_loop]. unfold iteration, state_stack. run_action.
  destruct (state_stack_ c) as [|s rest]; [done|].
  destruct (Handle (State.kind s) c) as [[[[] c1] w1]|]; [|done].
  cbn. by destruct (state_loop fuel c1) as [[[[] c2] w2]|].
Qed.

Lemma state_loop_sound fuel c c' w :
  state_loop fuel c = Ok (tt, c', w) → steps c c' w ∧ state_stack_ c' = [].
Proof.
  revert c w. induction fuel as [|fuel IH]; intros c w; [done|].
  rewrite state_loop_S. destruct (state_stack_ c) as [|s rest] eqn:E.
  { intros [= <- <-]. split; [constructor|done]. }
  destruct (iteration c) as [[[[] c1] w1]|] eqn:E1; [|done].
  destruct (state_loop fuel c1) as [[[[] c2] w2]|] eqn:E2; [|done].
  intros [= <- <-]. apply iteration_step in E1. apply IH in E2 as [? ?].
  split; [by eapply steps_step|done].
Qed.

Lemma state_loop_complete c c' w :
  steps c c' w → state_stack_ c' = [] → ∃ fuel, state_loop fuel c = Ok (tt, c', w).
Proof.
  induction 1 as [c|c1 c2 c3 w1 w2 Hs _ IH]; intros E.
  { exists 1%nat. by rewrite state_loop_S, E. }
  destruct (IH E) as [fuel IHf]. exists (S fuel). rewrite state_loop_S.
  destruct (step_stack _ _ _ Hs) as (s & rest & ->).
  apply iteration_step in Hs. by rewrite Hs, IHf.
Qed.

(** A result that is not [OutOfFuel] is the same with more fuel. *)
Lemma state_loop_more fuel fuel' c :
  (fuel ≤ fuel')%nat → state_loop fuel c ≠ Err OutOfFuel →
  state_loop fuel' c = state_loop fuel c.
Proof.
  revert fuel' c. induction fuel as [|fuel IH]; intros fuel' c Hle; [done|].
  destruct fuel' as [|fuel']; [lia|]. rewrite !state_loop_S.
  destruct (state_stack_ c); [done|].
  destruct (iteration c) as [[[[] c1] w1]|]; [|done].
  intros Hf. rewrite (IH fuel' c1); [done|lia|]. intros E. by rewrite E in Hf.
Qed.

Lemma parse_body_more fuel fuel' c :
  (fuel ≤ fuel')%nat → parse_body fuel c ≠ Err OutOfFuel →
  parse_body fuel' c = parse_body fuel c.
Proof.
  unfold parse_body. run_action. intros Hle.
  destruct (parse_start c) as [[[[] c1] w1]|]; [|done]. cbn. intros Hf.
  rewrite (state_loop_more fuel fuel' c1); [done|done|].
  intros E. by rewrite E in Hf.
Qed.


(** The fuel is not an input of the parser: a parse that returns, or that
    stops at a failed check, gives the same result with any larger fuel. *)
Theorem parse_fuel_irrelevant fuel fuel' b :
  (fuel ≤ fuel')%nat → Parse fuel b ≠ Err OutOfFuel → Parse fuel' b = Parse fuel b.
Proof.
  intros Hle. unfold Parse, mbind, Result_bind. destruct (initial b) as [c|]; [|done].
  intros Hf. rewrite (parse_body_more fuel fuel' c Hle); [done|].
  intros E. by rewrite E in Hf.
Qed.

Lemma parse_fuel_irrelevant_witness :
  Parse 1000 sample_function = Parse 200 sample_function.
Proof. apply parse_fuel_irrelevant; [lia|]. vm_compute. discriminate. Defined.

(** * Reachable contexts *)

(** The context after [n] iterations of a parse of [b], with what was
    emitted. *)
Definition context_after (n : nat) (b : TokenizedBuffer.t) : Context * list Diagnostic :=
  match (parse_start ;; iterate n) (initial_of b) with
  | Ok (_, c, w) => (c, w)
  | Err _ => (initial_of b, [])
  end.

Lemma context_after_reachable n b :
  match initial b, (parse_start ;; iterate n) (initial_of b) with
  | Ok _, Ok _ => true | _, _ => false end = true →
  reachable b (context_after n b).1 (context_after n b).2.
Proof.
  unfold context_after, initial_of. destruct (initial b) as [c|] eqn:Ei; [|done].
  run_action. destruct (parse_start c) as [[[[] c1] w1]|] eqn:Es; [|done]. cbn.
  destruct (iterate n c1) as [[[[] c2] w2]|] eqn:En; [|done]. intros _.
  exists c, c1, w1, w2. split_and!; [done..| |done]. by eapply iterate_steps.
Qed.
