(* ===== verification/Scanning.v ===== *)
(** The parser's scans over the token stream, on a well-formed buffer:
    [FindNextOf], [SkipMatchingGroup], [SkipPastLikelyEnd] and
    [ConsumeAndAddCloseSymbol] always return, where they stop, and what they
    leave unchanged. *)

From S2P Require Import Prelude TokenKinds StateKinds NodeKinds Tokens Lexed Precedence.
From S2P Require Import ParseTree Diagnostics Context Parse Samples Runs.

(** The cursor is on a token of the stream, after [FileStart]. *)
Record on_stream (c : Context) : Prop := {
  on_stream_end : end_ c = TokenizedBuffer.tokens_end (tokens_ c) - 1;
  on_stream_position : 0 < position_ c ≤ end_ c;
}.

Definition on_stream_b (c : Context) : bool :=
  (end_ c =? TokenizedBuffer.tokens_end (tokens_ c) - 1) &&
  (0 <? position_ c) && (position_ c <=? end_ c).

Lemma on_stream_check c : on_stream_b c = true → on_stream c.
Proof.
  unfold on_stream_b. rewrite !andb_true_iff, Z.eqb_eq, Z.ltb_lt, Z.leb_le.
  intros [[? ?] ?]. by split.
Qed.

(** The start of a parse of [b] with the cursor moved to token [p]. *)
Definition at_token (p : Z) (b : TokenizedBuffer.t) : Context :=
  set_position p (initial_of b).

Lemma set_position_same c : set_position (position_ c) c = c.
Proof. by destruct c. Qed.

(** * [FindNextOf] *)

(** No token of [desired] at [p]'s level before [t]. *)
Definition none_before b (desired : list TokenKind.t) (p t : Z) : Prop :=
  ∀ u k, same_level b p u → same_level b u t → u ≠ t →
    TokenizedBuffer.GetKind b u = Ok k → k ∉ desired.

Definition none_at_level b (desired : list TokenKind.t) (p : Z) : Prop :=
  ∀ u k, same_level b p u → TokenizedBuffer.GetKind b u = Ok k → k ∉ desired.

Definition found b (desired : list TokenKind.t) (p : Z) (r : option Z) : Prop :=
  match r with
  | Some t => same_level b p t ∧ t < TokenizedBuffer.tokens_end b ∧
      (∃ k, TokenizedBuffer.GetKind b t = Ok k ∧ k ∈ desired) ∧ none_before b desired p t
  | None => none_at_level b desired p
  end.

Lemma level_step_det b p q q' : level_step b p q → level_step b p q' → q = q'.
Proof.
  intros [i k Hk Ho _ _|i j E] H; inversion H as [i' k' Hk' Ho' ? ?|i' j' E']; subst;
    [done| | |by replace j' with j by congruence].
  - destruct (GetMatchedClosingToken_opening _ _ _ E') as (k'' & Hk'' & ?). congruence.
  - destruct (GetMatchedClosingToken_opening _ _ _ E) as (k'' & Hk'' & ?). congruence.
Qed.

Lemma same_level_inv b p q u : level_step b p q → same_level b p u → u = p ∨ same_level b q u.
Proof.
  intros Hs H. inversion H as [|? y ? Hy Hu]; subst; [by left|].
  right. by rewrite (level_step_det _ _ _ _ Hs Hy).
Qed.

(** The scan passes a token that is not wanted. *)
Lemma found_step b desired p q k r :
  Lexed b → TokenizedBuffer.GetKind b p = Ok k → k ∉ desired → level_step b p q →
  found b desired q r → found b desired p r.
Proof.
  intros HL Hk Hd Hs. destruct r as [t|]; cbn.
  - intros (Ht & Hlt & Hin & Hb). split_and!; [by eapply rtc_l|done|done|].
    intros u k' Hu Hut Hne Hk'. destruct (same_level_inv _ _ _ _ Hs Hu) as [->|Hqu]; [congruence|].
    by eapply Hb.
  - intros Hn u k' Hu Hk'. destruct (same_level_inv _ _ _ _ Hs Hu) as [->|Hqu]; [congruence|].
    by eapply Hn.
Qed.

Lemma find_next_of_found b desired fuel p :
  Lexed b → 0 ≤ p < TokenizedBuffer.tokens_end b →
  (Z.to_nat (TokenizedBuffer.tokens_end b - p) ≤ fuel)%nat →
  ∃ r, find_next_of fuel b desired p = Ok r ∧ found b desired p r.
Proof.
  intros HL. revert p. induction fuel as [|fuel IH]; intros p Hp Hf; [lia|].
  pose proof lexed_nonempty as Hsz.
  destruct (GetKind_total (b := b) p) as [k Hk]; [lia|].
  cbn [find_next_of]. rewrite Hk. cbn.
  destruct (TokenKind.IsOneOf k desired) eqn:Hd.
  { exists (Some p). split; [done|]. apply TokenKind.IsOneOf_elem in Hd. cbn.
    split_and!; [reflexivity|lia|by exists k|].
    intros u k' Hu Hup Hne. pose proof (same_level_le _ _ Hu).
    pose proof (same_level_le _ _ Hup). lia. }
  assert (k ∉ desired) as Hnd by (rewrite <- TokenKind.IsOneOf_elem; congruence).
  assert (∀ q, level_step b p q → q < TokenizedBuffer.tokens_end b →
    ∃ r, find_next_of fuel b desired q = Ok r ∧ found b desired p r) as Hgo.
  { intros q Hs Hq. pose proof (level_step_lt _ _ Hs).
    destruct (IH q) as (r & Hr & Hfr); [lia|lia|]. exists r. split; [done|].
    by eapply found_step. }
  destruct (TokenKind.is_closing_symbol k || TokenKind.eqb k TokenKind.FileEnd) eqn:Hstop.
  { exists None. split; [done|]. intros u k' Hu Hk'.
    destruct Hu as [|? q ? Hs _]; [congruence|]. exfalso.
    apply orb_true_iff in Hstop. destruct Hs as [i k0 Hk0 Ho Hc He|i j E].
    - assert (k0 = k) as -> by congruence.
      destruct (TokenKind.token_eqb_spec k TokenKind.FileEnd); naive_solver congruence.
    - destruct (GetMatchedClosingToken_opening _ _ _ E) as (k0 & Hk0 & Ho).
      assert (k0 = k) as -> by congruence. by destruct k, Hstop. }
  apply orb_false_iff in Hstop as [Hc He].
  assert (k ≠ TokenKind.FileEnd) as He' by by intros ->.
  destruct (TokenKind.is_opening_symbol k) eqn:Ho.
  - destruct (lexed_match p k Hk Ho) as (j & Hj & Hpj & _). rewrite Hj. cbn.
    apply Hgo; [by constructor|lia].
  - apply Hgo; [by econstructor|].
    assert (p ≠ TokenizedBuffer.tokens_end b - 1); [|lia].
    intros ->. pose proof lexed_end. congruence.
Qed.

Lemma run_FindNextOf desired c :
  Lexed (tokens_ c) → on_stream c →
  ∃ r, FindNextOf desired c = Ok (r, c, []) ∧ found (tokens_ c) desired (position_ c) r.
Proof.
  intros HL [He Hp]. pose proof lexed_nonempty as Hsz.
  destruct (find_next_of_found (tokens_ c) desired (scan_fuel (tokens_ c)) (position_ c))
    as (r & Hr & Hf); [done|lia| |].
  { unfold scan_fuel, TokenizedBuffer.size, vec_size in *. lia. }
  exists r. split; [|done]. unfold FindNextOf, lift_result. by rewrite Hr.
Qed.

(** C29. [FindNextOf] always returns, changes nothing, and finds the first
    wanted token at the cursor's bracketing level, looking into no group and
    not past the end of the enclosing one; it returns nothing only when that
    level has no wanted token left. *)
Theorem FindNextOf_finds_first desired c :
  Lexed (tokens_ c) → on_stream c →
  ∃ r, FindNextOf desired c = Ok (r, c, []) ∧ found (tokens_ c) desired (position_ c) r.
Proof. apply run_FindNextOf. Qed.

Lemma FindNextOf_finds_first_witness :
  ∃ r, FindNextOf [TokenKind.OpenCurlyBrace] (at_token 2 sample_function) =
         Ok (r, at_token 2 sample_function, []) ∧
    found (tokens_ (at_token 2 sample_function)) [TokenKind.OpenCurlyBrace]
      (position_ (at_token 2 sample_function)) r.
Proof.
  apply FindNextOf_finds_first.
  - apply lexed_check_sound. vm_compute. reflexivity.
  - apply on_stream_check. vm_compute. reflexivity.
Defined.

(** * Reading and moving the cursor *)

(** Runs the silent first part of a bind, proved by [tac]. *)
Tactic Notation "silent" tactic3(tac) :=
  etransitivity; [eapply bind_silent; tac|]; cbv beta.

Lemma token_eqb_false k k' : k ≠ k' → TokenKind.eqb k k' = false.
Proof. by destruct (TokenKind.token_eqb_spec k k'). Qed.

Section reading.
Context (c : Context) {HL : Lexed (tokens_ c)} (Hc : on_stream c).

Lemma position_kind : ∃ k, TokenizedBuffer.GetKind (tokens_ c) (position_ c) = Ok k.
Proof. pose proof lexed_nonempty. destruct Hc. apply GetKind_total. lia. Qed.

Lemma run_PositionKind k :
  TokenizedBuffer.GetKind (tokens_ c) (position_ c) = Ok k → PositionKind c = Ok (k, c, []).
Proof.
  intros Hk. unfold PositionKind, PositionKindAhead, position, GetKind, tokens.
  silent done. unfold lift_result. by rewrite Z.add_0_r, Hk.
Qed.

Lemma run_PositionIs k k' :
  TokenizedBuffer.GetKind (tokens_ c) (position_ c) = Ok k →
  PositionIs k' c = Ok (TokenKind.eqb k k', c, []).
Proof.
  intros Hk. unfold PositionIs, PositionIsAhead.
  silent (by apply run_PositionKind). done.
Qed.

Lemma run_ConsumeIf k k' :
  TokenizedBuffer.GetKind (tokens_ c) (position_ c) = Ok k →
  ConsumeIf k' c =
    if TokenKind.eqb k k' then Ok (Some (position_ c), set_position (position_ c + 1) c, [])
    else Ok (None, c, []).
Proof.
  intros Hk. unfold ConsumeIf. silent (by apply run_PositionIs).
  by destruct (TokenKind.eqb k k').
Qed.

Lemma run_ConsumeIf_hit k :
  TokenizedBuffer.GetKind (tokens_ c) (position_ c) = Ok k →
  ConsumeIf k c = Ok (Some (position_ c), set_position (position_ c + 1) c, []).
Proof. intros Hk. by rewrite (run_ConsumeIf k), TokenKind.token_eqb_refl. Qed.

Lemma run_ConsumeIf_miss k k' :
  TokenizedBuffer.GetKind (tokens_ c) (position_ c) = Ok k → k ≠ k' →
  ConsumeIf k' c = Ok (None, c, []).
Proof. intros Hk Hne. by rewrite (run_ConsumeIf k), (token_eqb_false k k'). Qed.

Lemma run_SkipTo t :
  position_ c ≤ t → t ≠ end_ c → SkipTo t c = Ok (tt, set_position t c, []).
Proof.
  intros Hle Hne. unfold SkipTo, position, at_end.
  silent done.
  rewrite (proj2 (Z.leb_le (position_ c) t)) by done. cbn [check].
  do 3 silent done. cbn.
  by rewrite (proj2 (Z.eqb_neq t (end_ c)) Hne).
Qed.

Lemma opening_match k :
  TokenizedBuffer.GetKind (tokens_ c) (position_ c) = Ok k →
  TokenKind.is_opening_symbol k = true →
  ∃ j, TokenizedBuffer.GetMatchedClosingToken (tokens_ c) (position_ c) = Ok j ∧
    position_ c < j < end_ c.
Proof.
  intros Hk Ho. destruct (lexed_match _ _ Hk Ho) as (j & Hj & Hr & _).
  exists j. split; [done|]. destruct Hc. lia.
Qed.

(** [SkipMatchingGroup] moves past the group at the cursor, if there is one. *)
Lemma run_SkipMatchingGroup k :
  TokenizedBuffer.GetKind (tokens_ c) (position_ c) = Ok k →
  ∃ p, SkipMatchingGroup c = Ok (TokenKind.is_opening_symbol k, set_position p c, []) ∧
    (if TokenKind.is_opening_symbol k
     then level_step (tokens_ c) (position_ c) p ∧ p ≤ end_ c else p = position_ c).
Proof.
  intros Hk. destruct (TokenKind.is_opening_symbol k) eqn:Ho.
  - destruct (opening_match k Hk Ho) as (j & Hj & Hr).
    exists (j + 1). split; [|split; [by constructor|lia]].
    unfold SkipMatchingGroup. silent (by apply run_PositionKind). rewrite Ho. cbn [negb].
    unfold position, GetMatchedClosingToken, tokens. silent done.
    silent (unfold lift_result; by rewrite Hj).
    silent (apply run_SkipTo; lia). done.
  - exists (position_ c). split; [|done].
    unfold SkipMatchingGroup. silent (by apply run_PositionKind). rewrite Ho.
    by rewrite set_position_same.
Qed.
End reading.

(** * [SkipPastLikelyEnd] *)

(** Token [p] starts a line that is not indented more than [root_indent]. *)
Definition starts_outer_line b (root_indent p : Z) : Prop :=
  ∃ line indent column, TokenizedBuffer.GetLine b p = Ok line ∧
    TokenizedBuffer.GetIndentColumnNumber b line = Ok indent ∧
    TokenizedBuffer.GetColumnNumber b p = Ok column ∧
    column ≤ indent ∧ indent ≤ root_indent.

(** Where the scan may stop: the documented strategy of the function. *)
Definition likely_end b (root_indent p : Z) : Prop :=
  p = TokenizedBuffer.tokens_end b - 1 ∨
  TokenizedBuffer.GetKind b p = Ok TokenKind.CloseCurlyBrace ∨
  TokenizedBuffer.GetKind b (p - 1) = Ok TokenKind.Semi ∨
  starts_outer_line b root_indent p.

(** [p] is a place to stop for a scan that starts at the cursor of [c], which
    passes over whole groups and over tokens that close no brace. *)
Definition skip_stop (root_indent : Z) (c : Context) (p : Z) : Prop :=
  position_ c ≤ p ≤ end_ c ∧ likely_end (tokens_ c) root_indent p ∧
  rtc (skip_step (tokens_ c)) (position_ c) p ∧
  (p = position_ c →
     TokenizedBuffer.GetKind (tokens_ c) p = Ok TokenKind.CloseCurlyBrace).

Lemma on_stream_set_position c p :
  on_stream c → position_ c ≤ p ≤ end_ c → on_stream (set_position p c).
Proof. intros [? ?] ?. split; cbn; [done|lia]. Qed.

Section skipping.
Context (root_indent : Z).

Lemma run_keep_scanning c t :
  Lexed (tokens_ c) → 0 ≤ t < TokenizedBuffer.size (tokens_ c) →
  ∃ go, keep_scanning root_indent t c = Ok (go, c, []) ∧
    (go = false → starts_outer_line (tokens_ c) root_indent t).
Proof.
  intros HL Ht. destruct (GetLine_total t Ht) as (line & indent & column & El & Ei & Ec).
  exists ((indent <? column) || (root_indent <? indent)). split.
  - unfold keep_scanning, GetLine, tokens, lift_result.
    silent (cbn; by rewrite El). silent (cbn; by rewrite Ei). by silent (cbn; by rewrite Ec).
  - intros [H1%Z.ltb_ge H2%Z.ltb_ge]%orb_false_elim. by exists line, indent, column.
Qed.

(** The test of the [do]-loop, after a step from [c] to [p]. *)
Lemma run_skip_continue c p next :
  Lexed (tokens_ c) → on_stream c → position_ c < p ≤ end_ c →
  skip_step (tokens_ c) (position_ c) p →
  (p < end_ c → ∃ q, next (set_position p c) = Ok (q - 1, set_position q c, []) ∧
     skip_stop root_indent (set_position p c) q) →
  ∃ q, skip_continue root_indent next (set_position p c) =
         Ok (q - 1, set_position q c, []) ∧ skip_stop root_indent c q.
Proof.
  intros HL [He Hp0] Hp Hstep Hnext. pose proof lexed_nonempty as Hsz.
  unfold skip_continue, at_end, position. destruct (Z.eq_dec p (end_ c)) as [Hpe|Hpe].
  { exists p. split; [|split_and!; [lia|lia|left; lia|by apply rtc_once|lia]].
    silent done. cbn. by rewrite (proj2 (Z.eqb_eq _ _) Hpe). }
  destruct (run_keep_scanning (set_position p c) p HL) as (go & Hgo & Hline); [cbn; lia|].
  destruct go.
  - destruct Hnext as (q & Hq & Hr & Hl & Hs & Hb); [lia|]. exists q. cbn in Hr.
    split; [|split_and!; [lia|lia|done|by eapply rtc_l|lia]].
    silent done. cbn. rewrite (proj2 (Z.eqb_neq _ _) Hpe). silent done.
    silent (exact Hgo). done.
  - exists p.
    split; [|split_and!; [lia|lia|by do 3 right; apply Hline|by apply rtc_once|lia]].
    silent done. cbn. rewrite (proj2 (Z.eqb_neq _ _) Hpe). silent done.
    silent (exact Hgo). done.
Qed.

Lemma run_skip_loop fuel c :
  Lexed (tokens_ c) → on_stream c → position_ c < end_ c →
  (Z.to_nat (end_ c - position_ c) ≤ fuel)%nat →
  ∃ p, skip_loop fuel root_indent c = Ok (p - 1, set_position p c, []) ∧
    skip_stop root_indent c p.
Proof.
  revert c. induction fuel as [|fuel IH]; intros c HL Hc Hlt Hf; [lia|].
  destruct (position_kind c Hc) as [k Hk]. cbn [skip_loop].
  destruct (TokenKind.token_eqb_spec k TokenKind.CloseCurlyBrace) as [->|Hcurly].
  { exists (position_ c). split.
    - silent (by apply run_PositionIs). cbn. by rewrite set_position_same.
    - split; [lia|]. by split_and!; [right; left|reflexivity|]. }
  destruct (TokenKind.token_eqb_spec k TokenKind.Semi) as [->|Hsemi].
  { exists (position_ c + 1). split.
    - silent (by apply run_PositionIs). cbn. silent (by apply run_ConsumeIf_hit). cbn.
      by rewrite Z.add_simpl_r.
    - split; [lia|]. split_and!; [|by apply rtc_once; econstructor|lia].
      right; right; left. by rewrite Z.add_simpl_r. }
  assert (∃ p, position_ c < p ≤ end_ c ∧ skip_step (tokens_ c) (position_ c) p ∧
    skip_loop (S fuel) root_indent c =
      skip_continue root_indent (skip_loop fuel root_indent) (set_position p c))
    as (p & Hp & Hstep & Hrun).
  { destruct (run_SkipMatchingGroup c Hc k Hk) as (p & Hrun & Hp).
    assert (∀ q, (if TokenKind.is_opening_symbol k then mret tt else ConsumeAndDiscard)
        (set_position p c) = Ok (tt, set_position q c, []) →
      skip_loop (S fuel) root_indent c =
        skip_continue root_indent (skip_loop fuel root_indent) (set_position q c)) as Heq.
    { intros q Hq. cbn [skip_loop]. silent (by apply run_PositionIs).
      rewrite (token_eqb_false _ _ Hcurly).
      silent (by eapply run_ConsumeIf_miss).
      silent (exact Hrun). by silent (exact Hq). }
    destruct (TokenKind.is_opening_symbol k) eqn:Ho.
    - destruct Hp as [Hs Hp]. exists p. pose proof (level_step_lt _ _ Hs).
      split; [lia|]. split; [|by apply Heq].
      destruct Hs as [i k' Hk' Ho' _ _|i j Hj]; [congruence|by constructor].
    - subst p. exists (position_ c + 1). split; [lia|]. split; [by econstructor|].
      by apply Heq. }
  change (∃ p, skip_loop (S fuel) root_indent c = Ok (p - 1, set_position p c, []) ∧
    skip_stop root_indent c p). rewrite Hrun. clear Hrun.
  apply run_skip_continue; [done|done|done|done|]. intros Hpe.
  apply (IH (set_position p c)); cbn; [done| |done|lia].
  apply on_stream_set_position; [done|lia].
Qed.
End skipping.

Lemma run_SkipPastLikelyEnd skip_root c :
  Lexed (tokens_ c) → on_stream c →
  0 ≤ skip_root < TokenizedBuffer.size (tokens_ c) →
  ∃ p line root_indent,
    SkipPastLikelyEnd skip_root c = Ok (p - 1, set_position p c, []) ∧
    TokenizedBuffer.GetLine (tokens_ c) skip_root = Ok line ∧
    TokenizedBuffer.GetIndentColumnNumber (tokens_ c) line = Ok root_indent ∧
    (if position_ c =? end_ c then p = end_ c else skip_stop root_indent c p).
Proof.
  intros HL Hc Hroot. destruct (GetLine_total _ Hroot) as (line & indent & _ & El & Ei & _).
  pose proof lexed_nonempty as Hsz. pose proof Hc as [He Hp]. unfold SkipPastLikelyEnd.
  destruct (Z.eqb_spec (position_ c) (end_ c)) as [Hend|Hend].
  { exists (end_ c), line, indent. split_and!; [|done..].
    silent done. rewrite (proj2 (Z.eqb_eq _ _) Hend). silent done.
    rewrite <- Hend. by rewrite set_position_same. }
  destruct (run_skip_loop indent (scan_fuel (tokens_ c)) c) as (p & Hrun & Hs);
    [done|done|lia| |].
  { unfold scan_fuel, TokenizedBuffer.size, vec_size in *. lia. }
  exists p, line, indent. split_and!; [|done..].
  silent done. rewrite (proj2 (Z.eqb_neq _ _) Hend).
  unfold GetLine, tokens, lift_result. silent (cbn; by rewrite El).
  silent (cbn; by rewrite Ei). by silent done.
Qed.

(** C30. [SkipPastLikelyEnd] always returns the last token it consumed, moves
    only the cursor and only forward, emits nothing, and stops where its
    contract says: at the end of the file, at a close brace, past a semicolon,
    or at a line indented no more than its root's. It makes progress unless it
    starts at the end of the file or at a close brace. *)
Theorem SkipPastLikelyEnd_stops skip_root c :
  Lexed (tokens_ c) → on_stream c →
  0 ≤ skip_root < TokenizedBuffer.size (tokens_ c) →
  ∃ p line root_indent,
    SkipPastLikelyEnd skip_root c = Ok (p - 1, set_position p c, []) ∧
    TokenizedBuffer.GetLine (tokens_ c) skip_root = Ok line ∧
    TokenizedBuffer.GetIndentColumnNumber (tokens_ c) line = Ok root_indent ∧
    (if position_ c =? end_ c then p = end_ c else skip_stop root_indent c p).
Proof. apply run_SkipPastLikelyEnd. Qed.

Lemma SkipPastLikelyEnd_stops_witness :
  ∃ p line root_indent,
    SkipPastLikelyEnd 1 (at_token 3 sample_bad_function) =
      Ok (p - 1, set_position p (at_token 3 sample_bad_function), []) ∧
    TokenizedBuffer.GetLine (tokens_ (at_token 3 sample_bad_function)) 1 = Ok line ∧
    TokenizedBuffer.GetIndentColumnNumber (tokens_ (at_token 3 sample_bad_function)) line =
      Ok root_indent ∧
    (if position_ (at_token 3 sample_bad_function) =? end_ (at_token 3 sample_bad_function)
     then p = end_ (at_token 3 sample_bad_function)
     else skip_stop root_indent (at_token 3 sample_bad_function) p).
Proof.
  apply SkipPastLikelyEnd_stops.
  - apply lexed_check_sound. vm_compute. reflexivity.
  - apply on_stream_check. vm_compute. reflexivity.
  - vm_compute. split; [discriminate|reflexivity].
Defined.

(** * [ConsumeAndAddCloseSymbol] *)

Lemma run_AddNode c k t e :
  0 ≤ t → (e = false → is_invalid_kind k = false) →
  AddNode k t e c =
    Ok (tt, push_node {| NodeImpl.kind := k; NodeImpl.has_error := e;
                         NodeImpl.token := t mod 2 ^ TokenizedBuffer.TokenIndexBits |} c, []).
Proof.
  intros Ht He. unfold AddNode.
  assert (e || negb (is_invalid_kind k) = true) as -> by (destruct e; [done|by rewrite He]).
  silent done. unfold lift_result, NodeImpl.make, require.
  rewrite (proj2 (Z.leb_le 0 t) Ht). by silent done.
Qed.

(** The run of [ConsumeAndAddCloseSymbol] with the cursor at [p] inside the
    group closed by [j]. *)
Definition close_symbol_result (state : State.t) (close_kind : NodeKind.t) (closing : TokenKind.t)
    (j : Z) (c : Context) : Result (unit * Context * list Diagnostic) :=
  let at_close := position_ c =? j in
  Ok (tt,
      push_node {| NodeImpl.kind := close_kind;
                   NodeImpl.has_error := if at_close then State.has_error state else true;
                   NodeImpl.token := j mod 2 ^ TokenizedBuffer.TokenIndexBits |}
        (set_position (j + 1) c),
      if at_close then []
      else [{| diag_kind := DiagnosticKind.ExpectedCloseSymbol; diag_loc := position_ c;
               diag_args := [ArgTokenKind closing]; diag_notes := [] |}]).

(** C31. With the cursor anywhere at the level of a group's contents,
    [ConsumeAndAddCloseSymbol] adds one node for the group's own closing
    symbol and leaves the cursor just past it. It is silent and keeps the
    state's error flag when the cursor is at the symbol already; otherwise it
    emits one diagnostic, skips to the symbol and marks the node. *)
Theorem close_symbol_ends_group state close_kind c j k :
  Lexed (tokens_ c) → end_ c = TokenizedBuffer.tokens_end (tokens_ c) - 1 →
  TokenizedBuffer.GetKind (tokens_ c) (State.token state) = Ok k →
  TokenizedBuffer.GetMatchedClosingToken (tokens_ c) (State.token state) = Ok j →
  same_level (tokens_ c) (State.token state + 1) (position_ c) →
  is_invalid_kind close_kind = false →
  ConsumeAndAddCloseSymbol state close_kind c =
    close_symbol_result state close_kind (TokenKind.closing_symbol k) j c.
Proof.
  intros HL He Hk Hj Hlevel Hkind. unfold close_symbol_result.
  destruct (GetMatchedClosingToken_opening _ _ _ Hj) as (k' & Hk' & Ho).
  assert (k' = k) as -> by congruence. clear Hk'.
  destruct (lexed_match _ _ Hk Ho) as (j' & Hj' & Hr & Hkj).
  assert (j' = j) as -> by congruence. clear Hj'.
  pose proof (match_bounds _ _ Hj) as (Hpos & _ & _).
  pose proof (same_level_le _ _ Hlevel) as Hge.
  pose proof (same_level_in_group _ _ _ Hj Hlevel) as Hle.
  assert (on_stream c) as Hc by (split; [done|lia]).
  unfold ConsumeAndAddCloseSymbol, GetKind, tokens, lift_result.
  silent (by rewrite Hk). rewrite Ho. cbn [negb]. destruct (Z.eqb_spec (position_ c) j) as [Hpj|Hpj].
  - silent (apply run_ConsumeIf_hit; by rewrite Hpj).
    etransitivity; [apply run_AddNode; [lia|done]|by rewrite Hpj].
  - destruct (position_kind c Hc) as [kp Hkp].
    assert (kp ≠ TokenKind.closing_symbol k) as Hne.
    { intros ->. apply Hpj. eapply same_level_closing; [done|done|].
      exists (TokenKind.closing_symbol k). split; [done|]. by destruct k. }
    silent (by eapply run_ConsumeIf_miss).
    etransitivity; [eapply bind_Ok; [done|]|reflexivity].
    unfold GetMatchedClosingToken, tokens, lift_result. silent (by rewrite Hj).
    silent (apply run_SkipTo; lia). silent done.
    apply run_AddNode; [cbn; lia|done].
Qed.

(** In [fn F(x i32);] the list of parameters is left at [i32]. *)
Lemma close_symbol_ends_group_witness :
  ConsumeAndAddCloseSymbol (State.default StateKind.PatternListFinishAsExplicit 3 0)
    NodeKind.ExplicitParamList (at_token 5 sample_bad_function) =
  close_symbol_result (State.default StateKind.PatternListFinishAsExplicit 3 0)
    NodeKind.ExplicitParamList (TokenKind.closing_symbol TokenKind.OpenParen) 6
    (at_token 5 sample_bad_function).
Proof.
  apply close_symbol_ends_group.
  - apply lexed_check_sound. vm_compute. reflexivity.
  - vm_compute. reflexivity.
  - vm_compute. reflexivity.
  - vm_compute. reflexivity.
  - apply rtc_once. change (5) with (4 + 1).
    apply (level_token _ _ TokenKind.Identifier); [vm_compute; reflexivity..|].
    discriminate.
  - vm_compute. reflexivity.
Defined.
