(* ===== verification/Descent.v ===== *)
(** The logic of the termination proof: [lands m Q c], every run of [m] ends,
    and if it returns it does so with [Q]; the assertion [At], where the cursor
    and the stack are; and the rules of every operation of the context that
    moves the cursor or changes the stack. Then what every handler has to show
    for the state loop to end, [down]: the invariant of [Nesting] again, with a
    smaller measure; with the rules of the operations the handlers share, the
    laws of the invariant and the tactics that run a handler symbolically and
    close what is left. *)

From S2P Require Import Prelude TokenKinds StateKinds NodeKinds Tokens Lexed Precedence.
From S2P Require Import ParseTree Diagnostics Context Nesting HandleExprForms HandleDecl.
From S2P Require Import HandleStatement Parse Scanning.

(** * Runs that end *)

Definition ends (f : Failure) : Prop := f ≠ OutOfFuel.

Definition lands {A} (m : M A) (Q : A → Context → Prop) (c : Context) : Prop :=
  wp ends m (λ a c' _, Q a c') c.

Lemma lands_ret {A} (a : A) (Q : A → Context → Prop) c : Q a c → lands (mret a) Q c.
Proof. done. Qed.

Lemma lands_bind {A B} (m : M A) (k : A → M B) Q c :
  lands m (λ a, lands (k a) Q) c → lands (m ≫= k) Q c.
Proof.
  intros H. apply wp_bind. eapply wp_mono; [exact H|]. intros a c1 w1 Hk.
  unfold lands, wp in *. by destruct (k a c1) as [[[b c2] w2]|f].
Qed.

Lemma lands_mono {A} (m : M A) (Q Q' : A → Context → Prop) c :
  lands m Q c → (∀ a c', Q a c' → Q' a c') → lands m Q' c.
Proof. intros H HQ. eapply wp_mono; [exact H|]. simpl. auto. Qed.

Lemma lands_fail {A} f (Q : A → Context → Prop) c : ends f → lands (action_fail f) Q c.
Proof. done. Qed.

Lemma lands_check b (Q : unit → Context → Prop) c :
  (b = true → Q tt c) → lands (check b) Q c.
Proof. unfold check. destruct b; [|done]. intros H. by apply H. Qed.

Lemma lands_gets {A} (f : Context → A) (Q : A → Context → Prop) c :
  Q (f c) c → lands (gets f) Q c.
Proof. done. Qed.

Lemma lands_modify f (Q : unit → Context → Prop) c : Q tt (f c) → lands (modify f) Q c.
Proof. done. Qed.

Lemma lands_tell d (Q : unit → Context → Prop) c : Q tt c → lands (tell d) Q c.
Proof. done. Qed.

Lemma lands_run {A} (m : M A) (Q : A → Context → Prop) c a c' w :
  m c = Ok (a, c', w) → Q a c' → lands m Q c.
Proof. intros H HQ. unfold lands, wp. by rewrite H. Qed.

(** Queries that read vectors and check; none of them loops. *)
Class Ends {A} (r : Result A) : Prop := result_ends : r ≠ Err OutOfFuel.

#[export] Instance ends_ok {A} (a : A) : Ends (Ok a).
Proof. done. Qed.
#[export] Instance ends_ret {A} (a : A) : Ends (mret a : Result A).
Proof. done. Qed.
#[export] Instance ends_check_failed {A} : Ends (Err CheckFailed : Result A).
Proof. done. Qed.
#[export] Instance ends_fatal {A} : Ends (Err FatalError : Result A).
Proof. done. Qed.
#[export] Instance ends_range {A} : Ends (Err OutOfRange : Result A).
Proof. done. Qed.
#[export] Instance ends_require b : Ends (require b).
Proof. by destruct b. Qed.
#[export] Instance ends_vec_get {A} (v : list A) i : Ends (vec_get v i).
Proof. unfold Ends, vec_get. destruct (0 <=? i); [|done]. by destruct (v !! _). Qed.
#[export] Instance ends_bind {A B} (m : Result A) (k : A → Result B) :
  Ends m → (∀ a, Ends (k a)) → Ends (m ≫= k).
Proof. unfold Ends. destruct m as [a|f]; cbn; [auto|]. intros Hm _ [= ->]. done. Qed.

Ltac ends_auto :=
  repeat (intros;
    lazymatch goal with
    | |- Ends (mbind _ _) => apply ends_bind
    | |- Ends (let '_ := ?x in _) => destruct x
    | |- Ends (match ?x with _ => _ end) => destruct x
    | |- Ends _ => apply _
    end).

#[export] Instance ends_GetKind b t : Ends (TokenizedBuffer.GetKind b t).
Proof. unfold TokenizedBuffer.GetKind. ends_auto. Qed.
#[export] Instance ends_FindLineIndex b t : Ends (TokenizedBuffer.FindLineIndex b t).
Proof. unfold TokenizedBuffer.FindLineIndex. ends_auto. Qed.
#[export] Instance ends_GetLine b t : Ends (TokenizedBuffer.GetLine b t).
Proof. unfold TokenizedBuffer.GetLine. ends_auto. Qed.
#[export] Instance ends_match b t : Ends (TokenizedBuffer.GetMatchedClosingToken b t).
Proof.
  unfold TokenizedBuffer.GetMatchedClosingToken, TokenizedBuffer.closing_token_index.
  ends_auto.
Qed.
#[export] Instance ends_leading b t : Ends (TokenizedBuffer.HasLeadingWhitespace b t).
Proof. unfold TokenizedBuffer.HasLeadingWhitespace. ends_auto. Qed.
#[export] Instance ends_trailing b t : Ends (TokenizedBuffer.HasTrailingWhitespace b t).
Proof. unfold TokenizedBuffer.HasTrailingWhitespace. ends_auto. Qed.
#[export] Instance ends_GetIdentifier b t : Ends (TokenizedBuffer.GetIdentifier b t).
Proof. unfold TokenizedBuffer.GetIdentifier, TokenizedBuffer.ident_id. ends_auto. Qed.
#[export] Instance ends_string b t : Ends (TokenizedBuffer.GetStringLiteralValue b t).
Proof.
  unfold TokenizedBuffer.GetStringLiteralValue, TokenizedBuffer.string_literal_id.
  ends_auto.
Qed.
#[export] Instance ends_GetWordText b t : Ends (TokenizedBuffer.GetWordText b t).
Proof. unfold TokenizedBuffer.GetWordText. ends_auto. Qed.
#[export] Instance ends_recovery b t :
  Ends (TokenizedBuffer.AddPostLexingRecoveryTokenAsIdentifier b t).
Proof.
  unfold TokenizedBuffer.AddPostLexingRecoveryTokenAsIdentifier,
    TokenizedBuffer.AsErrorRecoveryIdentifier. ends_auto.
Qed.
#[export] Instance ends_make k e t : Ends (NodeImpl.make k e t).
Proof. unfold NodeImpl.make. ends_auto. Qed.
#[export] Instance ends_node_kind tr n : Ends (Tree.node_kind tr n).
Proof. unfold Tree.node_kind. ends_auto. Qed.
#[export] Instance ends_node_has_error tr n : Ends (Tree.node_has_error tr n).
Proof. unfold Tree.node_has_error. ends_auto. Qed.
#[export] Instance ends_node_token tr n : Ends (Tree.node_token tr n).
Proof. unfold Tree.node_token. ends_auto. Qed.

Lemma lands_lift_result {A} (f : Context → Result A) (Q : A → Context → Prop) c :
  Ends (f c) → (∀ a, f c = Ok a → Q a c) → lands (lift_result f) Q c.
Proof.
  intros Hf H. unfold lands, wp, lift_result. unfold Ends in Hf.
  destruct (f c) as [a|e]; [by apply H|]. by intros ->.
Qed.

(** * Where the parser is *)

Section steering.
Context (b : TokenizedBuffer.t) `{!Lexed b}.

Record At (p : Z) (st : list Frame) (c : Context) : Prop := {
  at_lexed : Lexed (tokens_ c);
  at_extends : TokenizedBuffer.extends b (tokens_ c);
  at_position : position_ c = p;
  at_end_ : end_ c = TokenizedBuffer.tokens_end b - 1;
  at_range : 0 < p < TokenizedBuffer.tokens_end b;
  at_stack : frame_of <$> state_stack_ c = st;
}.

(** [At] looks at the tokens, the cursor and the stack only. *)
Lemma at_same p st c c' :
  tokens_ c' = tokens_ c → position_ c' = position_ c → end_ c' = end_ c →
  state_stack_ c' = state_stack_ c → At p st c → At p st c'.
Proof using Type. intros Ht Hp He Hs []. split; by rewrite ?Ht, ?Hp, ?He, ?Hs. Qed.

Lemma at_tokens_end p st c :
  At p st c → TokenizedBuffer.tokens_end (tokens_ c) = TokenizedBuffer.tokens_end b.
Proof using Type. intros []. by destruct at_extends0 as (? & _ & _ & _ & _ & ? & _). Qed.

Lemma at_on_stream p st c : At p st c → on_stream c.
Proof using Type.
  intros H. pose proof (at_tokens_end _ _ _ H). destruct H. split; [congruence|lia].
Qed.

Lemma kind_at_in_range t :
  0 ≤ t < TokenizedBuffer.tokens_end b → TokenizedBuffer.GetKind b t = Ok (kind_at b t).
Proof using Lexed0.
  intros Ht. pose proof lexed_nonempty. unfold kind_at.
  destruct (GetKind_total (b := b) t) as [k Hk]; [lia|]. by rewrite Hk.
Qed.

Lemma at_kind p st c t :
  At p st c → 0 ≤ t < TokenizedBuffer.tokens_end b →
  TokenizedBuffer.GetKind (tokens_ c) t = Ok (kind_at b t).
Proof using Lexed0.
  intros [] Ht. eapply TokenizedBuffer.extends_GetKind; [done|]. by apply kind_at_in_range.
Qed.

Lemma at_position_kind p st c :
  At p st c → TokenizedBuffer.GetKind (tokens_ c) (position_ c) = Ok (kind_at b p).
Proof using Lexed0.
  intros Hc. rewrite (at_position _ _ _ Hc). eapply at_kind; [done|]. destruct Hc. lia.
Qed.

Lemma extends_match b' t :
  TokenizedBuffer.extends b b' → 0 ≤ t < TokenizedBuffer.tokens_end b →
  TokenizedBuffer.GetMatchedClosingToken b' t = TokenizedBuffer.GetMatchedClosingToken b t.
Proof using Lexed0.
  intros (more & E & _) Ht. pose proof lexed_nonempty.
  unfold TokenizedBuffer.GetMatchedClosingToken. rewrite E.
  destruct (vec_get_in_range (TokenizedBuffer.token_infos b) t) as [i Hi].
  { unfold TokenizedBuffer.size in *. lia. }
  by rewrite (vec_get_app_l _ _ _ _ Hi), Hi.
Qed.

Lemma at_braces p st c t :
  At p st c → 0 ≤ t < TokenizedBuffer.tokens_end b → braces (tokens_ c) t = braces b t.
Proof using Lexed0.
  intros Hc Ht. unfold braces. remember (Z.to_nat t) as n eqn:Hn.
  assert (Z.of_nat n < TokenizedBuffer.tokens_end b) as Hlt by lia. clear Hn Ht t.
  induction n as [|n IH]; [done|]. cbn [braces_before]. rewrite IH by lia. f_equal.
  apply kind_at_Ok, (at_kind _ _ _ _ Hc). lia.
Qed.

Lemma at_set_position p q st c :
  At p st c → 0 < q < TokenizedBuffer.tokens_end b → At q st (set_position q c).
Proof using Type. intros [] ?. by split. Qed.

(** The end of the file is its only [FileEnd]. *)
Lemma file_end_at p :
  0 < p < TokenizedBuffer.tokens_end b → kind_at b p = TokenKind.FileEnd →
  p = TokenizedBuffer.tokens_end b - 1.
Proof using Lexed0.
  intros Hp Hk. destruct (decide (p = TokenizedBuffer.tokens_end b - 1)); [done|].
  exfalso. eapply (lexed_inside p); [apply kind_at_in_range; lia|lia|done|done].
Qed.

Lemma not_end p :
  0 < p < TokenizedBuffer.tokens_end b → kind_at b p ≠ TokenKind.FileEnd →
  p + 1 < TokenizedBuffer.tokens_end b.
Proof using Lexed0.
  intros Hp Hk. destruct (decide (p = TokenizedBuffer.tokens_end b - 1)) as [->|]; [|lia].
  destruct Hk. apply kind_at_Ok, lexed_end.
Qed.

(** ** Operations that leave the cursor and the stack *)

Definition Steady {A} (m : M A) : Prop :=
  ∀ p st c, At p st c → lands m (λ _, At p st) c.

Lemma still_ret {A} (a : A) : Steady (mret a).
Proof using Type. by intros p st c Hc. Qed.
Lemma still_bind {A B} (m : M A) (k : A → M B) :
  Steady m → (∀ a, Steady (k a)) → Steady (m ≫= k).
Proof using Type.
  intros Hm Hk p st c Hc. apply lands_bind. eapply lands_mono; [by apply Hm|].
  intros a c' Hc'. by apply Hk.
Qed.
Lemma still_gets {A} (f : Context → A) : Steady (gets f).
Proof using Type. by intros p st c Hc. Qed.
Lemma still_tell d : Steady (tell d).
Proof using Type. by intros p st c Hc. Qed.
Lemma still_check x : Steady (check x).
Proof using Type. intros p st c Hc. by apply lands_check. Qed.
Lemma still_fail {A} f : ends f → Steady (action_fail f : M A).
Proof using Type. by intros Hf p st c Hc. Qed.
Lemma still_lift_result {A} (f : Context → Result A) :
  (∀ c, Ends (f c)) → Steady (lift_result f).
Proof using Type. intros Hf p st c Hc. by apply lands_lift_result. Qed.
Lemma still_modify f :
  (∀ c, tokens_ (f c) = tokens_ c ∧ position_ (f c) = position_ c ∧
        end_ (f c) = end_ c ∧ state_stack_ (f c) = state_stack_ c) →
  Steady (modify f).
Proof using Type.
  intros Hf p st c Hc. apply lands_modify. destruct (Hf c) as (? & ? & ? & ?).
  by eapply at_same.
Qed.
Lemma still_modify_top f :
  (∀ s, frame_of (f s) = frame_of s) → Steady (modify_top f).
Proof using Type.
  intros Hf p st c []. unfold lands, wp, modify_top.
  destruct (state_stack_ c) as [|s rest] eqn:E; [done|].
  split; cbn; [done..|]. by rewrite Hf.
Qed.
Lemma still_PopDeferredDefinition : Steady PopDeferredDefinition.
Proof using Type.
  intros p st c Hc. unfold lands, wp, PopDeferredDefinition.
  destruct (deferred_definition_stack_ c); [done|]. by eapply at_same; [..|exact Hc].
Qed.
Lemma still_recovery t : Steady (AddPostLexingRecoveryTokenAsIdentifier t).
Proof using Type.
  intros p st c Hc. unfold AddPostLexingRecoveryTokenAsIdentifier, tokens.
  apply lands_bind, lands_lift_result; [apply _|]. intros [t' b'] E.
  apply lands_bind, lands_modify, lands_ret. destruct Hc. cbn. split; cbn; try done.
  - by eapply AddPostLexingRecoveryTokenAsIdentifier_lexed.
  - etrans; [done|]. by eapply TokenizedBuffer.AddPostLexingRecoveryTokenAsIdentifier_extends.
Qed.

Lemma lands_steady {A} (m : M A) p st c (Q : A → Context → Prop) :
  At p st c → Steady m → (∀ a c', At p st c' → Q a c') → lands m Q c.
Proof using Type. intros Hc Hm HQ. eapply lands_mono; [by apply Hm|]. auto. Qed.

(** ** Reading *)

Lemma lands_position p st c (Q : Z → Context → Prop) :
  At p st c → Q p c → lands position Q c.
Proof using Type. intros Hc HQ. apply lands_gets. by rewrite (at_position _ _ _ Hc). Qed.

Lemma lands_at_end p st c (Q : bool → Context → Prop) :
  At p st c → Q (p =? TokenizedBuffer.tokens_end b - 1) c → lands at_end Q c.
Proof using Type. intros [] HQ. apply lands_gets. by rewrite at_position0, at_end_0. Qed.

(** A token outside the stream may have any kind. *)
Lemma lands_GetKind t p st c (Q : TokenKind.t → Context → Prop) :
  At p st c →
  (∀ k, (0 ≤ t < TokenizedBuffer.tokens_end b → k = kind_at b t) → Q k c) →
  lands (GetKind t) Q c.
Proof using Lexed0.
  intros Hc HQ. apply lands_lift_result; [apply _|]. intros k Hk. apply HQ.
  intros Ht. rewrite (at_kind _ _ _ _ Hc Ht) in Hk. congruence.
Qed.

Lemma lands_GetMatchedClosingToken t p st c (Q : Z → Context → Prop) :
  At p st c → in_stream b t →
  (∀ j, TokenizedBuffer.GetMatchedClosingToken b t = Ok j → Q j c) →
  lands (GetMatchedClosingToken t) Q c.
Proof using Lexed0.
  intros Hc Ht HQ. apply lands_lift_result; [apply _|]. intros j.
  rewrite (extends_match _ _ (at_extends _ _ _ Hc) Ht). apply HQ.
Qed.

Lemma lands_PositionKind p st c (Q : TokenKind.t → Context → Prop) :
  At p st c → Q (kind_at b p) c → lands PositionKind Q c.
Proof using Lexed0.
  intros Hc HQ. unfold PositionKind, PositionKindAhead. apply lands_bind.
  eapply lands_position; [done|]. eapply lands_GetKind; [done|].
  intros k Hk. rewrite Z.add_0_r in Hk. destruct Hc. by rewrite Hk by lia.
Qed.

Lemma lands_PositionKindAhead n p st c (Q : TokenKind.t → Context → Prop) :
  At p st c →
  (∀ k, (0 ≤ p + n < TokenizedBuffer.tokens_end b → k = kind_at b (p + n)) → Q k c) →
  lands (PositionKindAhead n) Q c.
Proof using Lexed0.
  intros Hc HQ. unfold PositionKindAhead. apply lands_bind.
  eapply lands_position; [done|]. by eapply lands_GetKind.
Qed.

Lemma lands_PositionIs k p st c (Q : bool → Context → Prop) :
  At p st c →
  (kind_at b p = k → Q true c) → (kind_at b p ≠ k → Q false c) →
  lands (PositionIs k) Q c.
Proof using Lexed0.
  intros Hc Ht Hf. unfold PositionIs, PositionIsAhead. apply lands_bind.
  eapply lands_PositionKind; [done|]. apply lands_ret.
  destruct (TokenKind.token_eqb_spec (kind_at b p) k); auto.
Qed.

Lemma lands_PositionIsAhead k n p st c (Q : bool → Context → Prop) :
  At p st c →
  (∀ x : bool, (0 ≤ p + n < TokenizedBuffer.tokens_end b → x = TokenKind.eqb (kind_at b (p + n)) k) →
     Q x c) →
  lands (PositionIsAhead k n) Q c.
Proof using Lexed0.
  intros Hc HQ. unfold PositionIsAhead. apply lands_bind.
  eapply lands_PositionKindAhead; [done|]. intros k' Hk. apply lands_ret, HQ.
  intros H. by rewrite (Hk H).
Qed.

(** ** Moving the cursor *)

Lemma at_advance p st c :
  At p st c → kind_at b p ≠ TokenKind.FileEnd → At (p + 1) st (set_position (p + 1) c).
Proof using Lexed0.
  intros Hc Hk. eapply at_set_position; [done|]. destruct Hc.
  pose proof (not_end _ at_range0 Hk). lia.
Qed.

Lemma lands_Consume p st c (Q : Z → Context → Prop) :
  At p st c → kind_at b p ≠ TokenKind.FileEnd →
  (∀ c', At (p + 1) st c' → Q p c') → lands Consume Q c.
Proof using Lexed0.
  intros Hc Hk HQ. unfold Consume. apply lands_bind. eapply lands_position; [done|].
  apply lands_bind, lands_modify, lands_ret, HQ. by apply at_advance.
Qed.

Lemma lands_ConsumeAndDiscard p st c (Q : unit → Context → Prop) :
  At p st c → kind_at b p ≠ TokenKind.FileEnd →
  (∀ c', At (p + 1) st c' → Q tt c') → lands ConsumeAndDiscard Q c.
Proof using Lexed0.
  intros Hc Hk HQ. unfold ConsumeAndDiscard. apply lands_bind.
  eapply lands_position; [done|]. apply lands_modify, HQ. by apply at_advance.
Qed.

Lemma lands_ConsumeIf k p st c (Q : option Z → Context → Prop) :
  At p st c → k ≠ TokenKind.FileEnd →
  (∀ c', kind_at b p = k → At (p + 1) st c' → Q (Some p) c') →
  (kind_at b p ≠ k → Q None c) →
  lands (ConsumeIf k) Q c.
Proof using Lexed0.
  intros Hc Hk Hs Hn. unfold ConsumeIf. apply lands_bind.
  eapply lands_PositionIs; [done|intros H|intros H; by apply Hn].
  apply lands_bind. eapply lands_Consume; [done|congruence|].
  intros c' Hc'. by apply Hs.
Qed.

Lemma lands_ConsumeChecked k p st c (Q : Z → Context → Prop) :
  At p st c → k ≠ TokenKind.FileEnd →
  (∀ c', kind_at b p = k → At (p + 1) st c' → Q p c') →
  lands (ConsumeChecked k) Q c.
Proof using Lexed0.
  intros Hc Hk HQ. unfold ConsumeChecked. apply lands_bind.
  eapply lands_PositionIs; [done|intros H|done].
  eapply lands_Consume; [done|congruence|]. auto.
Qed.

Lemma lands_SkipTo t p st c (Q : unit → Context → Prop) :
  At p st c → t < TokenizedBuffer.tokens_end b →
  (∀ c', p ≤ t → t + 1 < TokenizedBuffer.tokens_end b → At t st c' → Q tt c') →
  lands (SkipTo t) Q c.
Proof using Type.
  intros Hc Ht HQ. unfold SkipTo. apply lands_bind. eapply lands_position; [done|].
  apply lands_bind, lands_check. intros Hle%Z.leb_le.
  apply lands_bind, lands_modify.
  assert (At t st (set_position t c)) as Hc'.
  { eapply at_set_position; [done|]. destruct Hc. lia. }
  apply lands_bind. eapply lands_at_end; [done|]. apply lands_check.
  intros Hne%negb_true_iff%Z.eqb_neq. apply HQ; [done|lia|done].
Qed.

(** What [FindNextOf] finds is at the cursor's brace level. *)
Lemma lands_FindNextOf desired p st c (Q : option Z → Context → Prop) :
  At p st c →
  (∀ r, match r with
        | Some t => p ≤ t < TokenizedBuffer.tokens_end b ∧ braces b t = braces b p ∧
                    kind_at b t ∈ desired
        | None => True
        end → Q r c) →
  lands (FindNextOf desired) Q c.
Proof using Lexed0.
  intros Hc HQ. pose proof (at_lexed _ _ _ Hc) as HL.
  destruct (run_FindNextOf desired c HL (at_on_stream _ _ _ Hc)) as (r & Hr & Hf).
  eapply lands_run; [exact Hr|]. apply HQ. destruct r as [t|]; [|done].
  destruct Hf as (Hl & Ht & (k & Hk & Hin) & _). rewrite (at_position _ _ _ Hc) in Hl.
  rewrite (at_tokens_end _ _ _ Hc) in Ht.
  pose proof (same_level_le _ _ Hl) as Hle. pose proof (at_range _ _ _ Hc) as Hp.
  split; [lia|]. split.
  - rewrite <- (at_braces _ _ _ _ Hc), <- (at_braces _ _ _ _ Hc) by lia.
    by apply same_level_braces; [lia|].
  - rewrite (at_kind _ _ _ _ Hc) in Hk by lia. by injection Hk as ->.
Qed.

(** [SkipPastLikelyEnd] stays in its brace group, and moves on unless it is at
    the end of it. *)
Lemma lands_SkipPastLikelyEnd root p st c (Q : Z → Context → Prop) :
  At p st c → in_stream b root →
  (∀ t q c', p ≤ q → braces b q = braces b p →
     (q = p → ordinary (kind_at b p) = false) → in_stream b t → At q st c' → Q t c') →
  lands (SkipPastLikelyEnd root) Q c.
Proof using Lexed0.
  intros Hc Hroot HQ. pose proof (at_lexed _ _ _ Hc) as HL.
  pose proof (at_on_stream _ _ _ Hc) as Hs. pose proof (at_tokens_end _ _ _ Hc) as He.
  pose proof (lexed_nonempty (b := tokens_ c)) as Hsz. pose proof (at_range _ _ _ Hc) as Hp.
  destruct (run_SkipPastLikelyEnd root c HL Hs) as (q & line & indent & Hrun & _ & _ & Hq).
  { unfold in_stream in Hroot. lia. }
  rewrite (at_position _ _ _ Hc), (at_end_ _ _ _ Hc) in Hq.
  eapply lands_run; [exact Hrun|].
  destruct (Z.eqb_spec p (TokenizedBuffer.tokens_end b - 1)) as [Hpe|Hpe].
  - assert (q = p) as -> by lia. apply (HQ _ p); [lia|done| |unfold in_stream; lia|].
    + intros _. rewrite Hpe. by rewrite (kind_at_Ok _ _ _ lexed_end).
    + eapply at_set_position; [done|lia].
  - destruct Hq as (Hr & _ & Hsteps & Hclose).
    rewrite (at_position _ _ _ Hc), (at_end_ _ _ _ Hc) in Hr.
    rewrite (at_position _ _ _ Hc) in Hsteps, Hclose.
    apply (HQ _ q); [lia| | |unfold in_stream; lia|eapply at_set_position; [done|lia]].
    + rewrite <- (at_braces _ _ _ _ Hc), <- (at_braces _ _ _ _ Hc) by lia.
      by apply skip_steps_braces; [lia|].
    + intros ->. specialize (Hclose eq_refl).
      rewrite (at_kind _ _ _ _ Hc) in Hclose by lia. by injection Hclose as ->.
Qed.

(** ** The stack *)

Lemma lands_PopState k t p st c (Q : State.t → Context → Prop) :
  At p ((k, t) :: st) c →
  (∀ s c', State.kind s = k → State.token s = t →
     (fresh_top c → starts_fresh k = true → State.has_error s = false) →
     At p st c' → Q s c') →
  lands PopState Q c.
Proof using Type.
  intros [] HQ. unfold lands, wp, PopState, fresh_top in *.
  destruct (state_stack_ c) as [|s rest]; [done|].
  cbn in at_stack0. injection at_stack0 as H1 H2 H3.
  by apply HQ; [done|done|rewrite <- H1; auto|split].
Qed.

(** Only the state on top can be one that starts fresh. *)
Lemma fresh_other p k t st c : At p ((k, t) :: st) c → starts_fresh k = false → fresh_top c.
Proof using Type.
  intros [] Hk. unfold fresh_top. destruct (state_stack_ c) as [|s rest]; [done|].
  cbn in at_stack0. injection at_stack0 as -> _ _. by rewrite Hk.
Qed.

Lemma fresh_below p st c stop under open :
  At p st c → nest b stop under st open → fresh_top c.
Proof using Type.
  destruct st as [|[k t] st]; intros Hc Hn.
  { destruct Hc. unfold fresh_top. by destruct (state_stack_ c). }
  eapply fresh_other; [done|]. destruct Hn as (_ & Hn & _). by destruct k.
Qed.

(** A state of which nothing is known. *)
Lemma lands_PopState_any p st c (Q : State.t → Context → Prop) :
  At p st c →
  (∀ s st' c', st = (State.kind s, State.token s) :: st' → At p st' c' → Q s c') →
  lands PopState Q c.
Proof using Type.
  intros [] HQ. unfold lands, wp, PopState.
  destruct (state_stack_ c) as [|s rest]; [done|].
  eapply HQ; [by rewrite <- at_stack0|by split].
Qed.

Lemma lands_PushStateVal s p st c (Q : unit → Context → Prop) :
  At p st c →
  (∀ c', At p ((State.kind s, State.token s) :: st) c' →
     (State.has_error s = false → fresh_top c') → Q tt c') →
  lands (PushStateVal s) Q c.
Proof using Type.
  intros [] HQ. unfold PushStateVal.
  apply lands_bind, lands_modify, lands_bind, lands_gets, lands_check.
  intros _. apply HQ; [split; [done..|]; cbn; by rewrite at_stack0|by intros ? ?].
Qed.
End steering.

Arguments kind_at : simpl never.
Arguments braces : simpl never.
Arguments in_stream : simpl never.
Arguments closing_brace : simpl nomatch.
Arguments ordinary : simpl never.
Arguments continues_postfix : simpl never.
Arguments Z.add : simpl never.
Arguments Z.sub : simpl never.
Arguments Z.mul : simpl never.

(** * Operations that leave the cursor and the stack *)

Create HintDb steady.
#[export] Hint Resolve still_ret still_gets still_tell still_check
  still_PopDeferredDefinition still_recovery : steady.
#[export] Hint Extern 1 (Steady _ (action_fail _)) => by apply still_fail : steady.
#[export] Hint Extern 1 (Steady _ (modify_top _)) =>
  by apply still_modify_top; intros : steady.
#[export] Hint Extern 1 (Steady _ (modify _)) => by apply still_modify; intros : steady.
#[export] Hint Extern 1 (Steady _ (lift_result _)) =>
  apply still_lift_result; intros; cbv beta; ends_auto : steady.

(** Goes through an operation with [still_bind]. *)
Ltac action_head m := lazymatch m with ?f _ => action_head f | _ => m end.

Ltac still_step :=
  lazymatch goal with
  | |- ∀ _, _ => intros ?
  | |- Steady _ (mbind _ _) => apply still_bind
  | |- Steady _ (when ?x _) => unfold when
  | |- Steady _ (match ?x with _ => _ end) => destruct x
  | |- Steady _ ?m =>
      first [ solve [eauto 2 with steady] | let h := action_head m in progress unfold h ]
  end.
Ltac solve_steady := intros; repeat still_step.

Section shared.
Context (b : TokenizedBuffer.t) `{!Lexed b}.

Lemma still_AddNode k t e : Steady b (AddNode k t e).
Proof using Type. solve_steady. Qed.
Lemma still_node_kind n : Steady b (node_kind n).
Proof using Type. solve_steady. Qed.
Lemma still_node_has_error n : Steady b (node_has_error n).
Proof using Type. solve_steady. Qed.
Lemma still_node_token n : Steady b (node_token n).
Proof using Type. solve_steady. Qed.
Lemma still_ReplacePlaceholderNode n k t e : Steady b (ReplacePlaceholderNode n k t e).
Proof using Type. solve_steady. Qed.
Lemma still_ReplaceIntroducerNode n k k' : Steady b (ReplaceIntroducerNode n k k').
Proof using Type. solve_steady. Qed.
Lemma still_EmitHere k l : Steady b (EmitHere k l).
Proof using Type. solve_steady. Qed.
Lemma still_GetKind t : Steady b (GetKind t).
Proof using Type. solve_steady. Qed.
Lemma still_PositionKind : Steady b PositionKind.
Proof using Type. solve_steady. Qed.
Lemma still_IsTrailingOperatorInfix : Steady b IsTrailingOperatorInfix.
Proof using Type. solve_steady. Qed.
Lemma still_DiagnoseOperatorFixity f : Steady b (DiagnoseOperatorFixity f).
Proof using Type. solve_steady. Qed.
Lemma still_set_packaging_decl n i : Steady b (set_packaging_decl n i).
Proof using Type. solve_steady. Qed.
Lemma still_AddFunctionDefinitionStart t e : Steady b (AddFunctionDefinitionStart t e).
Proof using Type. solve_steady. Qed.
Lemma still_AddFunctionDefinition t e : Steady b (AddFunctionDefinition t e).
Proof using Type. solve_steady. Qed.
Lemma still_AddFunctionTerseDefinition t e : Steady b (AddFunctionTerseDefinition t e).
Proof using Type. solve_steady. Qed.
End shared.
#[export] Hint Resolve still_AddNode still_node_kind still_node_has_error
  still_node_token still_ReplacePlaceholderNode still_ReplaceIntroducerNode
  still_EmitHere still_GetKind still_PositionKind still_IsTrailingOperatorInfix
  still_DiagnoseOperatorFixity still_set_packaging_decl
  still_AddFunctionDefinitionStart still_AddFunctionDefinition
  still_AddFunctionTerseDefinition : steady.

(** * Laws of the invariant and the measure *)

Section laws.
Context (b : TokenizedBuffer.t) `{!Lexed b}.

(** A token that is neither the end of the file nor a brace. *)
Definition plain_token (k : TokenKind.t) : bool :=
  negb (TokenKind.IsOneOf k
    [TokenKind.FileEnd; TokenKind.OpenCurlyBrace; TokenKind.CloseCurlyBrace]).

Lemma plain_braces p k :
  0 < p → kind_at b p = k → plain_token k = true → braces b (p + 1) = braces b p.
Proof using Type.
  intros Hp <- Hk. rewrite braces_succ by lia.
  apply brace_step_plain; intros E; by rewrite E in Hk.
Qed.

(** A state that is done where it should stop uncovers the ones below. *)
Lemma nest_resume stop under st p open :
  nest b stop under st open → open = braces b p → 0 < p < TokenizedBuffer.tokens_end b →
  match stop with
  | None => True
  | Some TokenKind.FileEnd =>
      kind_at b p = TokenKind.CloseCurlyBrace ∨ kind_at b p = TokenKind.FileEnd
  | Some k => kind_at b p = k
  end →
  nested b p st.
Proof using Lexed0.
  destruct st as [|f st]; [done|].
  intros ([Hm _] & Ho & Hb & Hg & Ht & Hn) -> Hp Hs. split_and!; try done.
  - intros k Hk. rewrite Hk in Hm, Hb. destruct stop as [s|]; [|done]. cbn in Hm.
    apply orb_prop in Hm as [Hm|Hm].
    + apply TokenKind.token_eqb_eq in Hm as ->.
      destruct k; try exact Hs. unfold awaits in Hk. exfalso.
      destruct f as [[] t]; cbn in Hk; try discriminate; by destruct (kind_at b t).
    + apply andb_prop in Hm as [->%TokenKind.token_eqb_eq ->%TokenKind.token_eqb_eq].
      destruct Hs as [Hs|Hs]; [done|]. destruct Hb.
      rewrite (file_end_at b p Hp Hs). apply braces_at_end.
  - unfold ready, only_on_top in *. destruct (consumes f.1); [done|].
    destruct f.1; try done. intros Ha. by rewrite Ha in Ho.
Qed.

Lemma first_surplus_bounds k st : 0 ≤ first_surplus k st ≤ 8.
Proof using Type.
  induction st as [|[s t] st IH]; cbn; [lia|].
  destruct (must_consume s k); [|done]. destruct s; cbn; lia.
Qed.

Lemma measure_moved p q st st' :
  p < q → total_work st' < total_work st + 40 → measure b q st' < measure b p st.
Proof using Type.
  intros Hq Hw. unfold measure, token_work.
  pose proof (first_surplus_bounds (kind_at b q) st').
  pose proof (first_surplus_bounds (kind_at b p) st). lia.
Qed.

Lemma measure_stayed p st st' :
  total_work st' + first_surplus (kind_at b p) st' <
  total_work st + first_surplus (kind_at b p) st → measure b p st' < measure b p st.
Proof using Type. unfold measure. lia. Qed.

(** A loop in braces does not meet the end of the file. *)
Lemma nest_not_end under st p :
  nest b (Some TokenKind.CloseCurlyBrace) under st (braces b p) →
  0 < p < TokenizedBuffer.tokens_end b → kind_at b p ≠ TokenKind.FileEnd.
Proof using Lexed0.
  destruct st as [|f st]; [by intros []|]. intros ([Hm _] & _ & Hb & _) Hp Hk.
  rewrite (file_end_at b p Hp Hk), braces_at_end in Hb.
  destruct (awaits b f) as [k|]; [|done]. unfold meets in Hm.
  apply orb_prop in Hm as [<-%TokenKind.token_eqb_eq|Hm]; [done|].
  by apply andb_prop in Hm as [Hm _].
Qed.

Lemma ordinary_false k :
  ordinary k = false → k = TokenKind.CloseCurlyBrace ∨ k = TokenKind.FileEnd.
Proof using Type. destruct k; vm_compute; auto; discriminate. Qed.

Lemma closing_brace_none k : k ≠ TokenKind.OpenCurlyBrace → closing_brace k = None.
Proof using Type. by destruct k. Qed.

(** The next iteration starts from a smaller measure. *)
Definition down (p : Z) (st : list Frame) (c : Context) : Prop :=
  ∃ q st', (At b q st' c ∧ fresh_top c) ∧ nested b q st' ∧
    measure b q st' < measure b p st.

Definition settles (k : StateKind.t) (m : M unit) : Prop :=
  ∀ p t st c, At b p ((k, t) :: st) c → fresh_top c → nested b p ((k, t) :: st) →
    lands m (λ _, down p ((k, t) :: st)) c.
End laws.

(** * Running a handler *)

Ltac land_simpl :=
  cbn [State.has_error State.kind State.token State.subtree_start State.set_kind
       State.set_token State.set_has_error State.set_lhs_precedence
       State.set_in_field_shorthand_pattern State.in_var_pattern
       State.set_in_var_pattern State.set_ambient_precedence
       State.in_unused_pattern State.in_field_shorthand_pattern State.binding_context
       State.ambient_precedence State.lhs_precedence State.default
       fst snd when is_some negb andb orb note_open use_open_paren
       scope_loop_state].

Ltac land_popped :=
  let Hc := fresh "Hc" in let Hf := fresh "Hf" in
  intros [] ? ? ? Hf Hc; land_simpl; cbn [State.kind State.token] in *|-; subst;
  cbn [State.has_error] in Hf;
  first [ specialize (Hf ltac:(eassumption) eq_refl); subst | clear Hf ].

(** The popped state of which nothing is known. *)
Ltac land_popped_any :=
  let Hc := fresh "Hc" in
  intros [] ? ? ? Hc; land_simpl; cbn [State.kind State.token] in *|-; subst.

Ltac land_hook := fail.

(** Applies a rule at the current context. *)
Tactic Notation "land_rule" uconstr(L) :=
  lazymatch goal with
  | H : At ?b _ _ ?c, HL : Lexed ?b |- lands _ _ ?c =>
      first [eapply (L b HL); [exact H|..] | eapply (L b); [exact H|..]]
  end.

Ltac land_step :=
  land_simpl;
  lazymatch goal with
  | |- ∀ _, _ => intros ?
  | |- lands (mret _) _ _ => apply lands_ret
  | |- lands (action_fail _) _ _ => apply lands_fail; discriminate
  | |- lands (mbind _ _) _ _ => apply lands_bind
  | |- lands (tell _) _ _ => apply lands_tell
  | |- lands (gets _) _ _ => apply lands_gets
  | |- lands (check _) _ _ =>
      apply lands_check; let H := fresh "Hk" in intros H; land_learn H
  | |- lands (when _ _) _ _ => unfold when
  | |- lands position _ _ => land_rule lands_position
  | |- lands tree_size _ _ => apply lands_gets
  | |- lands at_end _ _ => land_rule lands_at_end
  | |- lands PositionKind _ _ => land_rule lands_PositionKind; try land_known
  | |- lands (GetKind _) _ _ =>
      land_rule lands_GetKind; let H := fresh "Hk" in intros ? H;
      try (specialize (H ltac:(land_token)); subst; try land_known)
  | |- lands (PositionKindAhead _) _ _ =>
      land_rule lands_PositionKindAhead; [intros ? ?]
  | |- lands (PositionIs _) _ _ =>
      land_rule lands_PositionIs; [let H := fresh "Hk" in intros H..]
  | |- lands (PositionIsAhead _ _) _ _ =>
      land_rule lands_PositionIsAhead; [intros ? ?]
  | |- lands Consume _ _ =>
      land_rule lands_Consume; [land_kind|let Hc := fresh "Hc" in intros ? Hc]
  | |- lands ConsumeAndDiscard _ _ =>
      land_rule lands_ConsumeAndDiscard; [land_kind|let Hc := fresh "Hc" in intros ? Hc]
  | |- lands (ConsumeIf _) _ _ =>
      land_rule lands_ConsumeIf;
        [discriminate
        |let H := fresh "Hk" in let Hc := fresh "Hc" in intros ? H Hc
        |let H := fresh "Hk" in intros H]
  | |- lands (ConsumeChecked _) _ _ =>
      land_rule lands_ConsumeChecked;
        [discriminate
        |let H := fresh "Hk" in let Hc := fresh "Hc" in intros ? H Hc]
  | |- lands (SkipPastLikelyEnd _) _ _ =>
      land_rule lands_SkipPastLikelyEnd; [land_token|];
        let Hc := fresh "Hc" in intros ? ? ? ? ? ? ? Hc
  | |- lands (FindNextOf _) _ _ =>
      land_rule lands_FindNextOf; intros [?|]; [intros (? & ? & ?)|intros _]
  | |- lands (SkipTo _) _ _ =>
      land_rule lands_SkipTo; [lia|let Hc := fresh "Hc" in intros ? ? ? Hc]
  | |- lands PopState _ _ =>
      first [ land_rule lands_PopState; [land_popped]
            | land_rule lands_PopState_any; [land_popped_any] ]
  | |- lands (PushStateVal _) _ _ =>
      land_split_kind; land_rule lands_PushStateVal;
        land_simpl; let Hc := fresh "Hc" in let Hf := fresh "Hf" in intros ? Hc Hf;
        try specialize (Hf eq_refl)
  | |- lands (match bool_decide _ with _ => _ end) _ _ =>
      first [ rewrite bool_decide_true by done | rewrite bool_decide_false by done
            | case_bool_decide ]
  | |- lands (match negb (TokenKind.eqb ?k ?k') with _ => _ end) _ _ =>
      destruct (TokenKind.token_eqb_spec k k')
  | |- lands (match TokenKind.eqb ?k ?k' with _ => _ end) _ _ =>
      destruct (TokenKind.token_eqb_spec k k')
  | |- lands (match ?x with _ => _ end) _ _ =>
      first [is_var x; destruct x | destruct x eqn:?; try discriminate]
  | |- lands ?m _ _ =>
      first
        [ land_hook
        | land_rule lands_steady;
            [solve [eauto 2 with steady]|
             let a := fresh in let Hc := fresh "Hc" in intros a ? Hc;
             lazymatch type of a with unit => destruct a | _ => idtac end]
        | let h := action_head m in progress unfold h ]
  end
(** What the check of a popped state's kind says. *)
with land_learn H :=
  try first
    [ apply StateKind.state_kind_eqb_eq in H; subst
    | apply orb_prop in H; destruct H as [H|H];
      apply StateKind.state_kind_eqb_eq in H; subst ]
(** Branches on a choice between two kinds to push. *)
with land_split_kind :=
  repeat match goal with
  | |- lands (PushStateVal ?s) _ _ =>
      match s with
      | context [if ?x then ?a else _] =>
          match type of a with StateKind.t => destruct x end
      end
  end
(** A kind that is known. *)
with land_known :=
  match goal with
  | H : kind_at ?b ?p = _ |- context [kind_at ?b ?p] => rewrite H
  end
(** The token at the cursor is not the end of the file. *)
with land_kind :=
  match goal with
  | H : kind_at ?b ?p = _ |- kind_at ?b ?p ≠ _ => rewrite H; discriminate
  | H : kind_at ?b ?p = TokenKind.closing_symbol (kind_at ?b ?t) |- kind_at ?b ?p ≠ _ =>
      rewrite H; by destruct (kind_at b t)
  | _ => congruence
  | _ => let E := fresh in intros E; rewrite ?E in *; discriminate
  end
(** A token is in the stream. *)
with land_token :=
  repeat match goal with
  | H : At _ _ _ _ |- _ => apply at_range in H
  end; unfold in_stream in *; lia.

(** * Closing a handler *)

(** Rewrites with what is known of the tokens. *)
Ltac known_kinds :=
  repeat match goal with
  | H : kind_at ?b ?p = _ |- context [kind_at ?b ?p] => rewrite H
  | H : ?k ≠ TokenKind.OpenCurlyBrace |- context [closing_brace ?k] =>
      rewrite (closing_brace_none k H)
  end.

(** Computes the invariant on concrete states. *)
Ltac nest_simpl :=
  repeat (known_kinds;
    progress cbn [nested nest awaits closing_brace stops_at rests_on supports meets ready consumes
       only_on_top below in_braces own_group closes_own_group fst snd is_some negb
       TokenKind.eqb orb andb]).
Ltac nest_simpl_in H :=
  cbn [nested nest awaits stops_at rests_on supports meets ready consumes only_on_top below in_braces
       own_group closes_own_group fst snd is_some negb TokenKind.eqb orb andb] in H.

(** Opens a goal [settles]. *)
Ltac start_settles :=
  let Hn := fresh "Hn" in
  let Hfr := fresh "Hfr" in
  intros ? ? ? ? Hc Hfr Hn; nest_simpl_in Hn;
  destruct Hn as (Hk & Hr & Hb & Ho & Ht & Hn);
  try (specialize (Hk _ eq_refl));
  try match type of Hr with
      | _ ∧ ?t = _ => destruct Hr as [Hr ->]
      | ?t = ?p => subst t
      end;
  try lazymatch type of Ho with _ ∧ _ => destruct Ho as [Ho Hg] end;
  try (let He := fresh "He" in
       pose proof (nest_not_end _ _ _ _ Hn (at_range _ _ _ _ Hc)) as He).

Ltac ranges :=
  repeat match goal with
  | H : At _ ?p _ _ |- _ =>
      lazymatch goal with
      | _ : 0 < p < _ |- _ => fail
      | _ => pose proof (at_range _ _ _ _ H)
      end
  end.

(** Braces at a position past the start. *)
Ltac solve_braces :=
  repeat first
    [ reflexivity | assumption
    | match goal with
      | H : braces ?b ?p = _ |- context [braces ?b ?p] => rewrite H
      | H : _ = true → braces ?b ?p = _ |- context [braces ?b ?p] =>
          rewrite H by (reflexivity || assumption)
      end
    | rewrite braces_succ by lia
    | progress (known_kinds; cbn [brace_step tail])
    | rewrite brace_step_plain by (congruence || land_kind) ].

Ltac solve_nest :=
  match goal with
  | H : nest _ _ _ ?st _ |- nest _ _ _ ?st _ =>
      eapply eq_ind_r; [exact H|]; solve_braces
  end.

Ltac solve_nested_part :=
  first
    [ done | discriminate | lia | congruence
    | solve_nest
    | match goal with
      | |- in_stream _ _ => unfold in_stream in *; lia
      | |- braces _ _ = _ => solve_braces
      | |- braces _ _ ≠ [] =>
          let E := fresh in intros E; revert E; solve_braces; discriminate
      end
    | known_kinds; done ].

Ltac solve_nested :=
  first
    [ match goal with
      | H : nest _ _ _ ?st _ |- nested _ _ ?st =>
          apply (nest_resume _ _ _ _ _ _ H); [symmetry; solve_braces|lia|];
          first [done | assumption | congruence | by left | by right]
      end
    | nest_simpl; split_and!; intros; simplify_eq;
      solve_nested_part ].

Ltac known_ordinary :=
  repeat match goal with
  | |- context [ordinary ?k] =>
      lazymatch k with
      | kind_at _ _ => fail
      | _ => let v := eval vm_compute in (ordinary k) in change (ordinary k) with v
      end
  | |- context [continues_postfix ?k] =>
      lazymatch k with
      | kind_at _ _ => fail
      | _ => let v := eval vm_compute in (continues_postfix k) in
             change (continues_postfix k) with v
      end
  end.

Ltac solve_measure_stayed :=
  apply measure_stayed; cbn [total_work work fst first_surplus must_consume consumes
    surplus is_some orb]; known_kinds; known_ordinary; cbv iota;
  repeat match goal with
  | |- context [if ordinary ?k then _ else _] =>
      let E := fresh in destruct (ordinary k) eqn:E;
      [|apply ordinary_false in E as [E|E];
        first [congruence | rewrite E in *; discriminate | idtac]]
  | |- context [if ?x then _ else _] => destruct x eqn:?; try congruence
  end;
  repeat match goal with
  | |- context [first_surplus ?k ?st] =>
      lazymatch goal with
      | _ : 0 ≤ first_surplus k st ≤ 8 |- _ => fail
      | _ => pose proof (first_surplus_bounds k st)
      end
  end; lia.

Ltac solve_measure_moved := apply measure_moved; [lia|cbn [total_work work fst]; lia].

Ltac solve_measure :=
  first
    [ solve_measure_moved
    | solve_measure_stayed
    | lazymatch goal with
      | |- measure _ ?q _ < measure _ ?p _ =>
          destruct (Z.eq_dec q p) as [->|?];
            [repeat match goal with H : p = p → _ |- _ => specialize (H eq_refl) end;
             solve_measure_stayed
            |solve_measure_moved]
      end ].

(** Unfolds the invariant of states below the top that were uncovered. *)
Ltac uncover :=
  repeat match goal with
  | H : nest _ _ _ ((?k, _) :: _) _ |- _ =>
      let Hs := fresh in
      cbn [nest supports fst snd rests_on] in H;
      destruct H as ([? Hs] & ? & ? & ? & ? & H); try subst k;
      repeat match goal with
      | H : ?P |- _ =>
          lazymatch P with
          | context [awaits _ (_, _)] => nest_simpl_in H
          end
      end;
      repeat match goal with
      | H : own_group _ _ _ |- _ => nest_simpl_in H; try destruct H as [? ?]
      end
  end.

(** The state on top is not one that starts fresh, or it has just been pushed. *)
Ltac solve_fresh :=
  first
    [ match goal with
      | H : At _ _ _ ?c |- fresh_top ?c => apply (fresh_other _ _ _ _ _ _ H); reflexivity
      | H : At _ _ ?st ?c, Hn : nest _ _ _ ?st _ |- fresh_top ?c =>
          exact (fresh_below _ _ _ _ _ _ _ H Hn)
      end
    | assumption ].

Ltac solve_down :=
  ranges; uncover; eexists _, _; split;
    [split; [eassumption|solve_fresh]|split; [solve_nested|solve_measure]].

Ltac solve_settles :=
  start_settles; repeat land_step; try solve_down.

(** * Operations the handlers share *)

Section operations.
Context (b : TokenizedBuffer.t) `{!Lexed b}.

(** The end of a group that is not of braces. *)
Lemma group_end t j open :
  TokenizedBuffer.GetMatchedClosingToken b t = Ok j →
  kind_at b t ≠ TokenKind.OpenCurlyBrace →
  (TokenKind.is_opening_symbol (kind_at b t) = true → braces b t = open) →
  t < j ∧ j + 1 < TokenizedBuffer.tokens_end b ∧
  kind_at b j = TokenKind.closing_symbol (kind_at b t) ∧
  braces b j = open ∧ braces b (j + 1) = open.
Proof using Lexed0.
  intros Hj Ho Hb. destruct (match_bounds _ _ Hj) as (? & ? & _).
  destruct (GetMatchedClosingToken_opening _ _ _ Hj) as (k & Hk & Hopen).
  destruct (lexed_match _ _ Hk Hopen) as (j' & Ej' & _ & Hkj).
  assert (j' = j) as -> by congruence.
  rewrite (kind_at_Ok _ _ _ Hk) in *. destruct (group_braces _ _ Hj) as [Hb1 Hb2].
  rewrite Hb2, Hb1, (kind_at_Ok _ _ _ Hk), (kind_at_Ok _ _ _ Hkj), <- (Hb Hopen).
  split_and!; [lia|lia|done| |done]. apply brace_step_plain; [done|]. by intros ->.
Qed.

(** The group the state opened is closed, or nothing happens. *)
Lemma lands_ConsumeAndAddCloseSymbol s ck p st c (Q : unit → Context → Prop) :
  At b p st c → in_stream b (State.token s) →
  kind_at b (State.token s) ≠ TokenKind.OpenCurlyBrace ∧
  (TokenKind.is_opening_symbol (kind_at b (State.token s)) = true →
     braces b (State.token s) = braces b p) →
  (∀ q c', p ≤ q → braces b q = braces b p → At b q st c' → Q tt c') →
  lands (ConsumeAndAddCloseSymbol s ck) Q c.
Proof using Lexed0.
  intros Hc Ht [Ho Hb] HQ. unfold ConsumeAndAddCloseSymbol. apply lands_bind.
  land_rule lands_GetKind. intros k Hk. rewrite (Hk Ht). clear k Hk.
  destruct (TokenKind.is_opening_symbol (kind_at b (State.token s))) eqn:Hopen; cbn [negb].
  2: { repeat land_step. by apply (HQ p). }
  specialize (Hb eq_refl). pose proof (at_range _ _ _ _ Hc) as Hp.
  apply lands_bind. land_rule lands_ConsumeIf; [by destruct (kind_at b (State.token s))| |].
  - intros c' Hk Hc'. repeat land_step. apply (HQ (p + 1)); [lia| |done].
    rewrite braces_succ, Hk by lia.
    apply brace_step_plain; by destruct (kind_at b (State.token s)).
  - intros Hk. apply lands_bind. land_step. apply lands_bind.
    land_rule lands_GetMatchedClosingToken; [done|]. intros j Hj.
    destruct (group_end (State.token s) j _ Hj Ho (λ _, Hb)) as (? & ? & Hkj & _ & Hbj).
    apply lands_bind. land_rule lands_SkipTo; [lia|]. intros c2 Hpj Hj' Hc2.
    apply lands_bind. land_rule lands_Consume.
    { rewrite Hkj. by destruct (kind_at b (State.token s)). }
    intros c3 Hc3. repeat land_step. by apply (HQ (j + 1)); [lia|..].
Qed.

(** The end of a list element. *)
Lemma lands_ConsumeListToken ck close e p st c (Q : ListTokenKind → Context → Prop) :
  At b p st c → TokenKind.is_closing_symbol close = true →
  (∀ r q c',
     match r with
     | Close => p ≤ q ∧ kind_at b q = close
     | CommaClose => p < q ∧ kind_at b q = close
     | Comma => p < q ∧ kind_at b q ≠ close
     end → braces b q = braces b p → At b q st c' → Q r c') →
  lands (ConsumeListToken ck close e) Q c.
Proof using Lexed0.
  intros Hc Hclose HQ.
  assert (∀ q c', p ≤ q → braces b q = braces b p → At b q st c' →
    kind_at b q = TokenKind.Comma ∨ kind_at b q = close →
    lands (if! PositionIs close then mret Close
           else
             t ← Consume;
             AddLeafNodeWithError ck t (NodeKind.eqb ck NodeKind.InvalidParse) ;;
             is_close ← PositionIs close;
             mret (if (is_close : bool) then CommaClose else Comma)) Q c') as Hend.
  { intros q c' Hpq Hb Hc' Hkq. apply lands_bind. land_rule lands_PositionIs; intros Hq.
    { apply lands_ret. by eapply (HQ _ q). }
    assert (kind_at b q = TokenKind.Comma) as Hkc by tauto.
    pose proof (at_range _ _ _ _ Hc').
    assert (braces b (q + 1) = braces b p) by (rewrite braces_succ by lia; by rewrite Hkc).
    repeat land_step; (eapply (HQ _ (q + 1)); [split; [lia|done]|done|done]). }
  unfold ConsumeListToken. apply lands_bind. land_rule lands_PositionIs; intros Hcomma;
    apply lands_bind; land_rule lands_PositionIs; intros Hk; apply lands_bind.
  1, 2, 3: apply lands_ret; apply (Hend p); auto with lia.
  cbn [negb andb]. apply lands_bind. eapply lands_mono.
  { instantiate (1 := λ _, At b p st).
    unfold when. destruct e; cbn [negb]; repeat land_step; done. }
  intros ? c1 Hc1. cbv beta in Hc1. apply lands_bind. land_rule lands_FindNextOf.
  intros [t|] Hf; [|done]. destruct Hf as (Hpt & Hb & Hin).
  land_rule lands_SkipTo; [lia|]. intros c2 _ _ Hc2. apply (Hend t); [lia|done|done|].
  apply elem_of_cons in Hin as [Hin|Hin%list_elem_of_singleton]; auto.
Qed.
End operations.

Ltac own_group_holds := by split.

Ltac land_hook ::=
  lazymatch goal with
  | |- lands (ConsumeAndAddCloseSymbol _ _) _ _ =>
      land_rule lands_ConsumeAndAddCloseSymbol;
        [land_simpl; land_token|land_simpl; own_group_holds
        |let Hc := fresh "Hc" in intros ? ? ? ? Hc]
  | |- lands (ConsumeListToken _ _ _) _ _ =>
      land_rule lands_ConsumeListToken;
        [reflexivity|let Hc := fresh "Hc" in intros [] ? ? [? ?] ? Hc]
  | |- lands (GetMatchedClosingToken _) _ _ =>
      land_rule lands_GetMatchedClosingToken; [land_token|];
        let j := fresh "j" in let Hj := fresh "Hj" in intros j Hj;
        try match goal with
        | Ho : kind_at ?b ?t ≠ _, Hg : _ → braces ?b ?t = _ |- _ =>
            first [ pose proof (group_end _ _ _ _ Hj Ho Hg) as (? & ? & ? & ? & ?)
                  | pose proof (group_end _ _ _ _ Hj Ho (λ _, Hg eq_refl))
                      as (? & ? & ? & ? & ?) ]
        end
  end.

(** Every state of a list is handled as it should. *)
Definition all_settle b (ks : list StateKind.t) (handle : StateKind.t → M unit) : Prop :=
  Forall (λ k, settles b k (handle k)) ks.

Ltac solve_all_settle :=
  repeat first [apply Forall_nil_2 | apply Forall_cons_2; [cbn [Handle]; solve_settles|]].
