(* ===== verification/DescentHandlers.v ===== *)
(** The states of the parser end: their handlers keep the invariant and decrease
    the measure. First the expression states, those of [handle_expr.cpp] and of
    the expression forms; then the declaration states, with the modifier loop
    and the introducer table of a scope, where a [match_first] ends when it is
    not followed by the close brace of an enclosing group, and the packaging
    directives, which only move forward in their brace group; then the pattern
    states and the statement states. *)

From S2P Require Import Prelude TokenKinds StateKinds NodeKinds Tokens Lexed Precedence.
From S2P Require Import ParseTree Diagnostics Context Nesting HandleExpr HandleExprForms.
From S2P Require Import HandlePattern HandlePatternList HandleLetVar HandleDeclScope.
From S2P Require Import HandleDecl HandleDeclForms HandlePackaging HandleStatement.
From S2P Require Import HandleMatch Parse Descent.

Section expressions.
Context (b : TokenizedBuffer.t) `{!Lexed b}.

(** Starting an operand: the token selects a leaf or the state of a form. *)
Lemma settles_ExprInPostfix : settles b StateKind.ExprInPostfix HandleExprInPostfix.
Proof using Lexed0.
  start_settles. unfold HandleExprInPostfix. repeat land_step; try solve_down.
  match goal with H : primary_substate (kind_at b p) = Some _ |- _ =>
    destruct (kind_at b p) eqn:Hkp; try discriminate H; injection H as <- end;
    solve_down.
Qed.

(** ** Operators *)

Lemma trailing_plain k infix op :
  PrecedenceGroup.ForTrailing k infix = Some op → plain_token k = true ∧ k ≠ TokenKind.Unsafe.
Proof using Type. by destruct k, infix. Qed.

Lemma consume_plain p st c (Q : Z → Context → Prop) :
  At b p st c → plain_token (kind_at b p) = true →
  (∀ c', braces b (p + 1) = braces b p → At b (p + 1) st c' → Q p c') →
  lands Consume Q c.
Proof using Lexed0.
  intros Hc Hk HQ. land_rule lands_Consume.
  { intros E. by rewrite E in Hk. }
  intros c' Hc'. apply HQ; [|done]. pose proof (at_range _ _ _ _ Hc).
  by eapply plain_braces; [lia|..].
Qed.

(** The operator is at the cursor, or past [unsafe]. *)
Definition operator_at (p : Z) (k : TokenKind.t) : Prop :=
  plain_token k = true ∧
  (kind_at b p = k ∧ k ≠ TokenKind.Unsafe ∨
   kind_at b p = TokenKind.Unsafe ∧ kind_at b (p + 1) = k).

Lemma lands_find_trailing_operator p st c Q :
  At b p st c →
  (∀ r c', match r with Some (k, _) => operator_at p k | None => True end →
     At b p st c' → Q r c') →
  lands find_trailing_operator Q c.
Proof using Lexed0.
  intros Hc HQ. unfold find_trailing_operator.
  repeat land_step; apply HQ; try done.
  - match goal with H : PrecedenceGroup.ForTrailing _ _ = Some _ |- _ =>
      apply trailing_plain in H as [? ?] end.
    split; auto.
  - match goal with |- context [PrecedenceGroup.ForTrailing ?k ?i] =>
      destruct (PrecedenceGroup.ForTrailing k i) as [op|] eqn:E' end; [|done].
    apply trailing_plain in E' as [? ?]. split; [done|]. right. split; [done|].
    match goal with H : _ → _ = kind_at b (p + 1) |- _ => symmetry; apply H end.
    pose proof (at_range _ _ _ _ Hc). assert (kind_at b p ≠ TokenKind.FileEnd) by congruence.
    pose proof (not_end b p ltac:(done) ltac:(done)). lia.
Qed.

Lemma lands_handle_operator_modifier p st c s k Q :
  At b p st c → operator_at p k →
  (∀ s' q c', p ≤ q → braces b q = braces b p → plain_token (kind_at b q) = true →
     State.kind s' = State.kind s → At b q st c' → Q s' c') →
  lands (handle_operator_modifier s) Q c.
Proof using Lexed0.
  intros Hc [Hk Hop] HQ. unfold handle_operator_modifier. pose proof (at_range _ _ _ _ Hc).
  assert (kind_at b p = TokenKind.Unsafe →
    braces b (p + 1) = braces b p ∧ plain_token (kind_at b (p + 1)) = true) as Hu.
  { intros E. split; [rewrite braces_succ, E by lia; done|]. destruct Hop as [[]|[_ ->]]; congruence. }
  repeat land_step; try (destruct Hu; [done|]; eapply (HQ _ (p + 1)); try done; lia).
  eapply (HQ _ p); [lia|done| |done|done]. destruct Hop as [[-> _]|[]]; congruence.
Qed.

Lemma lands_check_operator_precedence p st c s op Q :
  At b p st c → (∀ s' c', State.kind s' = State.kind s → At b p st c' → Q s' c') →
  lands (check_operator_precedence s op) Q c.
Proof using Lexed0.
  intros Hc HQ. unfold check_operator_precedence. repeat land_step; by apply HQ.
Qed.

Lemma settles_ExprLoop : settles b StateKind.ExprLoop HandleExprLoop.
Proof using Lexed0.
  start_settles. unfold HandleExprLoop. do 2 land_step. apply lands_bind.
  eapply lands_find_trailing_operator; [done|]. intros [[k op]|] c2 Hop Hc2.
  2: { repeat land_step; solve_down. }
  land_step; [repeat land_step; solve_down|].
  apply lands_bind. eapply lands_check_operator_precedence; [done|]. intros s2 c3 Hs2 Hc3.
  apply lands_bind. eapply lands_handle_operator_modifier; [done|done|].
  intros s3 q c4 Hpq Hb4 Hplain Hs3 Hc4. apply lands_bind.
  eapply consume_plain; [done|done|]. intros c5 Hb5 Hc5.
  rewrite Hs2 in Hs3. destruct s3; cbn in Hs3; subst. clear s2 Hs2.
  unfold apply_trailing_operator. repeat land_step; solve_down.
Qed.

(** ** The other states *)

(** What is left of [handle_expr.cpp]. *)
Lemma settle_expressions :
  all_settle b
    [StateKind.Expr; StateKind.ExprInPostfixLoop;
     StateKind.ExprLoopForInfixOperator; StateKind.ExprLoopForPrefixOperator;
     StateKind.ExprLoopForShortCircuitOperatorAsAnd;
     StateKind.ExprLoopForShortCircuitOperatorAsOr; StateKind.ExprStatementFinish] Handle.
Proof using Lexed0. solve_all_settle. Qed.
End expressions.

Section forms.
Context (b : TokenizedBuffer.t) `{!Lexed b}.

(** The lookahead of [.name =] is inside the stream. *)
Lemma lands_at_designator_equal p st c (Q : bool → Context → Prop) :
  At b p st c →
  (kind_at b p = TokenKind.Period → kind_at b (p + 1) = TokenKind.Identifier →
     kind_at b (p + 1 + 1) = TokenKind.Equal → Q true c) →
  Q false c → lands at_designator_equal Q c.
Proof using Lexed0.
  intros Hc Ht Hf. pose proof (at_range _ _ _ _ Hc) as Hp.
  unfold at_designator_equal. repeat land_step; [|done..].
  assert (p + 1 < TokenizedBuffer.tokens_end b) by (apply not_end; [done|done|congruence]).
  specialize (H ltac:(lia)). symmetry in H. apply TokenKind.token_eqb_eq in H.
  assert (p + 1 + 1 < TokenizedBuffer.tokens_end b)
    by (apply not_end; [done|lia|congruence]).
  match goal with |- Q ?x _ => destruct x; [|done] end. apply Ht; [done..|].
  apply TokenKind.token_eqb_eq. rewrite <- Z.add_assoc. symmetry. apply H0. lia.
Qed.

Lemma settles_RequirementBegin : settles b StateKind.RequirementBegin HandleRequirementBegin.
Proof using Lexed0.
  start_settles. unfold HandleRequirementBegin. do 4 land_step.
  eapply lands_at_designator_equal; [done|intros ? ? ?|]; repeat land_step; solve_down.
Qed.

(** Index, array, form and [type_of] expressions. *)
Lemma settle_brackets :
  all_settle b
    [StateKind.IndexExpr; StateKind.IndexExprFinish; StateKind.ArrayExpr;
     StateKind.ArrayExprComma; StateKind.ArrayExprFinish; StateKind.FormLiteral;
     StateKind.PrimitiveForm; StateKind.PrimitiveFormFinish;
     StateKind.FormLiteralFinish; StateKind.TypeOfExpr; StateKind.TypeOfExprFinish] Handle.
Proof using Lexed0. solve_all_settle. Qed.

(** Braced expressions. *)
Lemma settle_braces :
  all_settle b
    [StateKind.BraceExpr; StateKind.BraceExprParamAsType;
     StateKind.BraceExprParamAsValue; StateKind.BraceExprParamAsUnknown;
     StateKind.BraceExprParamAfterDesignatorAsType;
     StateKind.BraceExprParamAfterDesignatorAsValue;
     StateKind.BraceExprParamAfterDesignatorAsUnknown;
     StateKind.BraceExprParamFinishAsType; StateKind.BraceExprParamFinishAsValue;
     StateKind.BraceExprParamFinishAsUnknown; StateKind.BraceExprFinishAsType;
     StateKind.BraceExprFinishAsValue; StateKind.BraceExprFinishAsUnknown] Handle.
Proof using Lexed0. solve_all_settle. Qed.

(** Calls, member access, arrows and requirements. *)
Lemma settle_suffixes :
  all_settle b
    [StateKind.CallExpr; StateKind.CallExprFinish; StateKind.PeriodAsExpr;
     StateKind.PeriodAsStruct; StateKind.CompoundMemberAccess;
     StateKind.CompoundPointerMemberAccess; StateKind.ArrowExpr;
     StateKind.RequirementOperator; StateKind.RequirementOperatorFinish;
     StateKind.WhereFinish] Handle.
Proof using Lexed0. solve_all_settle. Qed.

(** Lambdas. *)
Lemma settle_lambdas :
  all_settle b
    [StateKind.LambdaIntroducer; StateKind.LambdaAfterIntroducer;
     StateKind.LambdaAfterImplicitParams; StateKind.LambdaAfterParams;
     StateKind.LambdaBody; StateKind.LambdaBodyFinish] Handle.
Proof using Lexed0. solve_all_settle. Qed.

(** Parentheses and tuples. *)
Lemma settle_parens :
  all_settle b
    [StateKind.OnlyParenExpr; StateKind.OnlyParenExprFinish; StateKind.ParenExpr;
     StateKind.TupleLiteralFinish; StateKind.ExprAfterOpenParenFinish;
     StateKind.TupleLiteralElementFinish; StateKind.TupleLiteralElement;
     StateKind.PackExpansionExprFinish; StateKind.ParenExprFinish] Handle.
Proof using Lexed0. solve_all_settle. Qed.

End forms.

(** * States that can be above any others *)

(** A state that is not part of a group and starts no loop. *)
Record plain_state (s : StateKind.t) : Prop := {
  plain_awaits b t : awaits b (s, t) = None;
  plain_stops : stops_at s = None;
  plain_rests : rests_on s = None;
  plain_ready b p t : ready b p (s, t);
  plain_group : closes_own_group s = false;
  plain_work : work s < 40;
}.

(** What the introducer table gives for a token. *)
Definition introduces (k : TokenKind.t) (s : StateKind.t) : Prop :=
  TokenKind.IsOneOf k
    [TokenKind.FileEnd; TokenKind.OpenCurlyBrace; TokenKind.CloseCurlyBrace] = false ∧
  (plain_state s ∨ k = TokenKind.MatchFirst ∧ s = StateKind.MatchFirst).

Lemma DeclIntroducers_introduces k d :
  DeclIntroducerInfo.introducer_kind (DeclIntroducers k d) = Unrecognized ∨
  introduces k (DeclIntroducerInfo.state_kind (DeclIntroducers k d)).
Proof.
  destruct k, d; first
    [ by left
    | right; split; [done|]; first [by right | left; by split] ].
Qed.

Section scope.
Context (b : TokenizedBuffer.t) `{!Lexed b}.

Lemma nested_plain s t p st :
  plain_state s → in_stream b t → nest b None None st (braces b p) →
  nested b p ((s, t) :: st).
Proof using Type.
  intros [] Ht Hn. cbn [nested fst snd].
  rewrite plain_awaits0, plain_stops0, plain_rests0. unfold own_group. cbn [fst].
  by rewrite plain_group0.
Qed.

Lemma nested_match_first t p st :
  kind_at b (p - 1) = TokenKind.MatchFirst → kind_at b t ≠ TokenKind.OpenCurlyBrace →
  in_stream b t → nest b None None st (braces b p) → nested b p ((StateKind.MatchFirst, t) :: st).
Proof using Type. intros Hk Ho Ht Hn. by nest_simpl. Qed.

(** ** Modifiers *)

Lemma still_ResolveAmbiguousTokenAsDeclaration k :
  Steady b (ResolveAmbiguousTokenAsDeclaration k).
Proof using Lexed0. solve_steady. Qed.

Lemma lands_TryHandleAsModifier p st c (Q : bool → Context → Prop) :
  At b p st c →
  (∀ x q c', (if x : bool then p < q ∧ kind_at b p ≠ TokenKind.OpenCurlyBrace else p = q) →
     braces b q = braces b p → At b q st c' → Q x c') →
  lands TryHandleAsModifier Q c.
Proof using Lexed0.
  intros Hc HQ. unfold TryHandleAsModifier. do 2 land_step. apply lands_bind.
  eapply lands_steady; [done|apply still_ResolveAmbiguousTokenAsDeclaration|].
  pose proof (at_range _ _ _ _ Hc).
  assert (is_some (token_modifier (kind_at b p)) = true →
    braces b (p + 1) = braces b p ∧ kind_at b p ≠ TokenKind.OpenCurlyBrace) as Hm.
  { intros Hm. assert (kind_at b p ≠ TokenKind.OpenCurlyBrace) by (intros E; by rewrite E in Hm).
    split; [|done]. rewrite braces_succ by lia.
    apply brace_step_plain; [done|]. intros E; by rewrite E in Hm. }
  repeat land_step; (eapply HQ; [..|eassumption];
    [first [done | split; [lia|first [congruence | by apply Hm]]]
    |first [done | by apply Hm | solve_braces]]).
Qed.

Lemma lands_modifier_loop fuel saw p st c (Q : bool → Context → Prop) :
  At b p st c → TokenizedBuffer.tokens_end b - p < Z.of_nat fuel →
  (∀ x q c', p ≤ q → q = p ∨ kind_at b p ≠ TokenKind.OpenCurlyBrace →
     braces b q = braces b p → At b q st c' → Q x c') →
  lands (modifier_loop fuel saw) Q c.
Proof using Lexed0.
  revert saw p c. induction fuel as [|fuel IH]; intros saw p c Hc Hf HQ.
  { pose proof (at_range _ _ _ _ Hc). lia. }
  cbn [modifier_loop]. apply lands_bind. eapply lands_TryHandleAsModifier; [done|].
  intros [] q c' Hq Hb Hc'; [|apply lands_ret; apply (HQ _ q); auto with lia].
  destruct Hq as [Hq Ho]. apply (IH _ q); [done|lia|]. intros x q' c2 Hq' _ Hb' Hc2.
  apply (HQ _ q'); [lia|by right|congruence|done].
Qed.

(** ** Declarations *)

Lemma lands_TryHandleAsDecl p st c s saw d (Q : bool → Context → Prop) :
  At b p st c →
  (At b p st c → Q false c) →
  (∀ c', braces b (p + 1) = braces b p → At b (p + 1) st c' → Q true c') →
  (∀ k c', plain_state k ∨ kind_at b p = TokenKind.MatchFirst ∧ k = StateKind.MatchFirst →
     braces b (p + 1) = braces b p →
     At b (p + 1) ((k, State.token s) :: st) c' →
     (State.has_error s = false → fresh_top c') → Q true c') →
  lands (TryHandleAsDecl s saw d) Q c.
Proof using Lexed0.
  intros Hc Hf Hsemi Hd. unfold TryHandleAsDecl. do 2 land_step.
  pose proof (DeclIntroducers_introduces (kind_at b p) d) as Hi.
  set (info := DeclIntroducers _ _) in *. clearbody info. pose proof (at_range _ _ _ _ Hc).
  destruct (DeclIntroducerInfo.introducer_kind info).
  { repeat land_step; [by apply Hf|eapply Hsemi; [solve_braces|done]|by apply Hf]. }
  all: destruct Hi as [|[Hk Hi]]; [done|].
  all: assert (braces b (p + 1) = braces b p)
    by (rewrite braces_succ by lia; apply brace_step_plain; intros E; by rewrite E in Hk).
  all: unfold ApplyIntroducer; repeat land_step; (eapply Hd; [|done|done|]);
    destruct Hi as [|[? ?]]; auto.
Qed.

Lemma scan_fuel_enough p st c :
  At b p st c → TokenizedBuffer.tokens_end b - p < Z.of_nat (scan_fuel (tokens_ c)).
Proof using Lexed0.
  intros Hc. rewrite <- (at_tokens_end _ _ _ _ Hc). pose proof (at_range _ _ _ _ Hc).
  pose proof (lexed_nonempty (b := tokens_ c) (Lexed := at_lexed _ _ _ _ Hc)).
  unfold scan_fuel, TokenizedBuffer.size, vec_size in *. lia.
Qed.

Lemma work_pos k : 0 < work k.
Proof using Type. by destruct k. Qed.

(** An introducer is consumed and its state pushed. *)
Lemma down_introduced p q st c f k t :
  At b (q + 1) ((k, t) :: st) c → fresh_top c → p ≤ q → braces b (q + 1) = braces b p →
  nest b None None st (braces b p) → in_stream b t →
  q = t ∨ kind_at b t ≠ TokenKind.OpenCurlyBrace →
  plain_state k ∨ kind_at b q = TokenKind.MatchFirst ∧ k = StateKind.MatchFirst →
  down b p (f :: st) c.
Proof using Lexed0.
  intros Hc Hf Hq Hb Hn Ht Ho Hk. rewrite <- Hb in Hn. pose proof (work_pos f.1).
  exists (q + 1), ((k, t) :: st). split; [done|].
  destruct Hk as [Hk|[Hk ->]]; (split; [|apply measure_moved; [lia|]]).
  - by apply nested_plain.
  - destruct Hk. cbn [total_work fst]. lia.
  - apply nested_match_first; [|destruct Ho; congruence|done..].
    by replace (q + 1 - 1) with q by lia.
  - cbn [total_work work fst]. lia.
Qed.

Lemma settles_Decl :
  Forall (λ k, ∀ d, settles b k (HandleDecl d))
    [StateKind.DeclAsClass; StateKind.DeclAsInterface; StateKind.DeclAsRegular;
     StateKind.DeclAsUnion].
Proof using Lexed0.
  repeat constructor; intros d; start_settles; unfold HandleDecl; do 9 land_step.
  all: match goal with H : At b _ _ ?c |- lands (modifier_loop _ _) _ ?c =>
    eapply lands_modifier_loop; [done|by apply (scan_fuel_enough _ _ _ H)|] end.
  all: intros saw q c2 Hq Hot Hbq Hc2; apply lands_bind;
    eapply lands_TryHandleAsDecl; [done|intros _|intros ? Hb2 ?|intros k ? Hi Hb2 ? Hft].
  all: repeat land_step; try solve_down.
  all: try (destruct (Z.eq_dec q p) as [->|?]; solve_down).
  all: by eapply down_introduced; [eassumption|by apply Hft|done|by rewrite Hb2, Hbq|..].
Qed.

(** ** [match_first] *)

Lemma settles_MatchFirst :
  (∀ i, kind_at b i = TokenKind.MatchFirst → kind_at b (i + 1) ≠ TokenKind.CloseCurlyBrace) →
  settles b StateKind.MatchFirst HandleMatchFirst.
Proof using Lexed0.
  intros Hmf. start_settles. destruct Hr as [Hr Hot]. apply Hmf in Hr.
  assert (kind_at b p ≠ TokenKind.CloseCurlyBrace) by (by replace (p - 1 + 1) with p in Hr by lia).
  unfold HandleMatchFirst. repeat land_step; solve_down.
Qed.

Lemma settles_MatchFirstFinish : settles b StateKind.MatchFirstFinish HandleMatchFirstFinish.
Proof using Lexed0.
  start_settles. unfold HandleMatchFirstFinish.
  destruct (TokenKind.token_eqb_spec (kind_at b t) TokenKind.OpenCurlyBrace) as [Ek|Ek].
  - rewrite Ek in *. cbn in *. specialize (Hk _ eq_refl). repeat land_step; solve_down.
  - rewrite closing_brace_none in * by done. cbn in *. specialize (Hr eq_refl). repeat land_step; solve_down.
Qed.

(** The loops of declaration scopes. *)
Lemma settle_scopes :
  all_settle b
    [StateKind.DeclScopeLoopAsClass; StateKind.DeclScopeLoopAsInterface;
     StateKind.DeclScopeLoopAsRegular; StateKind.DeclScopeLoopAsUnion] Handle.
Proof using Lexed0. solve_all_settle. Qed.

(** Names, parameters and functions. *)
Lemma settle_functions :
  all_settle b
    [StateKind.DeclNameAndParams; StateKind.DeclNameAndParamsAfterImplicit;
     StateKind.DeclNameAndParamsAfterParams; StateKind.FunctionIntroducer;
     StateKind.FunctionAfterParams; StateKind.FunctionReturnTypeFinish;
     StateKind.FunctionReturnFormFinish; StateKind.FunctionSignatureFinish;
     StateKind.FunctionDefinitionFinish; StateKind.FunctionTerseBodyFinish] Handle.
Proof using Lexed0. solve_all_settle. Qed.

(** Type declarations and definitions. *)
Lemma settle_types :
  all_settle b
    [StateKind.DeclDefinitionFinishAsClass; StateKind.DeclDefinitionFinishAsImpl;
     StateKind.DeclDefinitionFinishAsInterface;
     StateKind.DeclDefinitionFinishAsNamedConstraint;
     StateKind.DeclDefinitionFinishAsUnion; StateKind.TypeAfterIntroducerAsClass;
     StateKind.TypeAfterIntroducerAsInterface;
     StateKind.TypeAfterIntroducerAsNamedConstraint;
     StateKind.TypeAfterIntroducerAsUnion; StateKind.DeclOrDefinitionAsClass;
     StateKind.DeclOrDefinitionAsImpl; StateKind.DeclOrDefinitionAsInterface;
     StateKind.DeclOrDefinitionAsNamedConstraint; StateKind.DeclOrDefinitionAsUnion] Handle.
Proof using Lexed0. solve_all_settle. Qed.

(** [inline], [friend], [namespace] and [alias]. *)
Lemma settle_simple_decls :
  all_settle b
    [StateKind.InlineDeclAfterIntroducer; StateKind.FriendDecl; StateKind.Namespace;
     StateKind.NamespaceFinish; StateKind.Alias; StateKind.AliasAfterName;
     StateKind.AliasFinish] Handle.
Proof using Lexed0. solve_all_settle. Qed.

(** [adapt], [base], [impl], [require] and [observe]. *)
Lemma settle_impls :
  all_settle b
    [StateKind.AdaptAfterIntroducer; StateKind.AdaptDecl;
     StateKind.BaseAfterIntroducer; StateKind.BaseDecl;
     StateKind.ImplAfterIntroducer; StateKind.ImplAfterForall;
     StateKind.ImplBeforeAs; StateKind.RequireAfterIntroducer;
     StateKind.RequireBeforeImpls; StateKind.RequireDecl;
     StateKind.ObserveAfterIntroducer; StateKind.ObserveOperator;
     StateKind.ObserveFinishOperator; StateKind.ObserveDecl] Handle.
Proof using Lexed0. solve_all_settle. Qed.

(** [choice]. *)
Lemma settle_choices :
  all_settle b
    [StateKind.ChoiceIntroducer; StateKind.ChoiceDefinitionStart;
     StateKind.ChoiceAlternative; StateKind.ChoiceAlternativeFinish;
     StateKind.ChoiceDefinitionFinish] Handle.
Proof using Lexed0. solve_all_settle. Qed.
End scope.

Section packaging.
Context (b : TokenizedBuffer.t) `{!Lexed b}.

(** * Operations that only move forward *)

Definition Forward {A} (m : M A) : Prop :=
  ∀ p st c, At b p st c →
    lands m (λ _ c', ∃ q, p ≤ q ∧ braces b q = braces b p ∧ At b q st c') c.

Lemma forward_steady {A} (m : M A) : Steady b m → Forward m.
Proof using Type.
  intros Hm p st c Hc. eapply lands_mono; [by apply Hm|]. intros ? c' Hc'. exists p. by split_and!.
Qed.

Lemma forward_bind {A B} (m : M A) (k : A → M B) :
  Forward m → (∀ a, Forward (k a)) → Forward (m ≫= k).
Proof using Type.
  intros Hm Hk p st c Hc. apply lands_bind. eapply lands_mono; [by apply Hm|].
  intros a c1 (q & Hq & Hb & Hc1). eapply lands_mono; [by apply Hk|].
  intros ? c2 (q2 & Hq2 & Hb2 & Hc2). exists q2. split_and!; [lia|congruence|done].
Qed.

Lemma forward_ConsumeIf k : plain_token k = true → Forward (ConsumeIf k).
Proof using Lexed0.
  intros Hk p st c Hc. pose proof (at_range _ _ _ _ Hc).
  land_rule lands_ConsumeIf; [intros ->; discriminate|..].
  - intros c' Hp Hc'. exists (p + 1). split_and!; [lia|by eapply (plain_braces b); [lia|..]|done].
  - intros _. exists p. by split_and!.
Qed.

Lemma forward_ConsumeChecked k : plain_token k = true → Forward (ConsumeChecked k).
Proof using Lexed0.
  intros Hk p st c Hc. pose proof (at_range _ _ _ _ Hc).
  land_rule lands_ConsumeChecked; [intros ->; discriminate|]. intros c' Hp Hc'.
  exists (p + 1). split_and!; [lia|by eapply (plain_braces b); [lia|..]|done].
Qed.

Lemma forward_OnParseError s d :
  in_stream b (State.token s) → Forward (OnParseError s d).
Proof using Lexed0.
  intros Ht p st c Hc. unfold OnParseError. apply lands_bind.
  land_rule lands_SkipPastLikelyEnd; [done|]. intros t q c' Hq Hb _ _ Hc'.
  eapply lands_steady; [done|eauto 2 with steady|]. intros ? c2 Hc2. exists q. by split_and!.
Qed.

Lemma GetKind_in_range b' i k :
  TokenizedBuffer.GetKind b' i = Ok k → 0 ≤ i < TokenizedBuffer.size b'.
Proof using Type.
  unfold TokenizedBuffer.GetKind, TokenizedBuffer.size, vec_size, vec_get.
  destruct (Z.leb_spec 0 i); [|done].
  destruct (TokenizedBuffer.token_infos b' !! Z.to_nat i) eqn:E; [|done].
  apply lookup_lt_Some in E. lia.
Qed.

(** The scan for a modifier leaves the token table before its fuel. *)
Lemma has_modifier_ends fuel b' m it stop :
  it < 0 ∧ fuel ≠ 0%nat ∨ TokenizedBuffer.size b' - it < Z.of_nat fuel →
  it ≤ TokenizedBuffer.size b' ∨ fuel ≠ 0%nat →
  Ends (has_modifier fuel b' m it stop).
Proof using Type.
  revert it. induction fuel as [|fuel IH]; intros it Hf Hi; [lia|]. cbn [has_modifier].
  destruct (it =? stop); [apply _|].
  destruct (TokenizedBuffer.GetKind b' it) as [k|f] eqn:Hk.
  2: { cbn. pose proof (ends_GetKind b' it). unfold Ends in *. congruence. }
  cbn. destruct (TokenKind.eqb k m); [apply _|].
  assert (0 ≤ it < TokenizedBuffer.size b') by (by eapply GetKind_in_range).
  apply IH; lia.
Qed.

Lemma still_HasModifier s m : Steady b (HasModifier s m).
Proof using Type.
  apply still_lift_result. intros c. apply has_modifier_ends; unfold scan_fuel; [|by right].
  unfold TokenizedBuffer.size, vec_size. lia.
Qed.

Create HintDb forward.
Hint Extern 1 (Forward (ConsumeIf _)) => by apply forward_ConsumeIf : forward.
Hint Extern 1 (Forward (ConsumeChecked _)) => by apply forward_ConsumeChecked : forward.
Hint Extern 1 (Forward _) => assumption : forward.
Hint Extern 2 (Forward _) => apply forward_steady; solve [eauto 2 with steady] : forward.
Local Hint Resolve still_HasModifier : steady.

Ltac forward_step :=
  lazymatch goal with
  | |- ∀ _, _ => intros ?
  | |- Forward (mbind _ _) => apply forward_bind
  | |- Forward (when ?x _) => unfold when
  | |- Forward (match ?x with _ => _ end) => destruct x
  | |- Forward (HandleDeclContent _ _ _ _ _) => fail
  | |- Forward ?m =>
      first [ solve [eauto 2 with forward] | let h := action_head m in progress unfold h ]
  end.
Ltac solve_forward := intros; repeat forward_step.

(** * The directives *)

Hint Extern 1 (Forward (OnParseError _ _)) =>
  apply forward_OnParseError; assumption : forward.

Lemma forward_HandleDeclContent d s e i (err : M unit) :
  Forward err → Forward (HandleDeclContent d s e i err).
Proof using Lexed0. intros He. unfold HandleDeclContent. solve_forward. Qed.

(** A handler that only moves forward once its state is popped. *)
Lemma settles_forward k (body : State.t → M unit) :
  plain_state k → starts_fresh k = false → (∀ t, must_consume k t = false) →
  (∀ s, in_stream b (State.token s) → Forward (body s)) →
  settles b k (PopState ≫= body).
Proof using Lexed0.
  intros Hpl Hfr Hm Hf p t st c Hc _ Hn. cbn [nested fst snd] in Hn.
  rewrite (plain_awaits _ Hpl), (plain_stops _ Hpl), (plain_rests _ Hpl) in Hn.
  destruct Hn as (_ & _ & _ & _ & Ht & Hn). apply lands_bind.
  eapply lands_PopState; [done|]. intros s c1 _ <- _ Hc1.
  eapply lands_mono; [by apply Hf|]. intros [] c2 (q & Hq & Hb & Hc2).
  exists q, st. split; [split; [done|by eapply fresh_below]|]. pose proof (work_pos k).
  split.
  - eapply (nest_resume _ _ _ _ _ _ Hn); [done|by eapply at_range|done].
  - destruct (Z.eq_dec q p) as [->|?].
    + apply measure_stayed. cbn [total_work first_surplus fst]. rewrite Hm. lia.
    + apply measure_moved; [lia|]. cbn [total_work fst]. lia.
Qed.

Lemma forward_RestrictExportToApi x s (k : State.t → M unit) :
  (∀ s', State.token s' = State.token s → Forward (k s')) →
  Forward ((if x : bool then RestrictExportToApi s else mret s) ≫= k).
Proof using Lexed0.
  intros Hk p st c Hc. apply lands_bind. unfold RestrictExportToApi.
  repeat land_step; by apply Hk.
Qed.

Lemma forward_Import s :
  in_stream b (State.token s) →
  Forward (
    if! VerifyInImports (State.token s) then
      is_export ← HasModifier s TokenKind.Export;
      state ← (if (is_export : bool) then RestrictExportToApi s else mret s);
      HandleDeclContent NodeKind.ImportDecl state is_export false
        (OnParseError state NodeKind.ImportDecl)
    else OnParseError s NodeKind.ImportDecl).
Proof using Lexed0.
  intros Hs. apply forward_bind; [solve_forward|]. intros [|]; [|solve_forward].
  apply forward_bind; [solve_forward|]. intros e. apply forward_RestrictExportToApi.
  intros s' Hs'. rewrite <- Hs' in Hs. apply forward_HandleDeclContent. solve_forward.
Qed.

Lemma settle_packaging :
  all_settle b [StateKind.Import; StateKind.Library; StateKind.Package] Handle.
Proof using Lexed0.
  repeat first [apply Forall_nil_2 | apply Forall_cons_2]; cbn [Handle];
    unfold HandleImport, HandleLibrary, HandlePackage, HandlePackageAndLibraryDecls.
  all: apply settles_forward; [by split|done|done|]; intros s Hs.
  1: by apply forward_Import.
  all: solve_forward; apply forward_HandleDeclContent; solve_forward.
Qed.

Lemma settle_exports :
  all_settle b
    [StateKind.ExportName; StateKind.ExportNameFinish] Handle.
Proof using Lexed0. solve_all_settle. Qed.
End packaging.

Section patterns.
Context (b : TokenizedBuffer.t) `{!Lexed b}.

(** ** The start of a pattern *)

Lemma settles_Pattern : settles b StateKind.Pattern HandlePattern.
Proof using Lexed0.
  start_settles. unfold HandlePattern. repeat land_step; try solve_down.
  match goal with H : pattern_introducer_state (kind_at b p) = Some _ |- _ =>
    destruct (kind_at b p) eqn:Hkp; try discriminate H; injection H as <- end;
    solve_down.
Qed.

(** ** Binding patterns *)

(** Consuming an optional token that is not a brace. *)
Lemma lands_ConsumeIf_plain k p st c (Q : option Z → Context → Prop) :
  At b p st c → k ≠ TokenKind.FileEnd → k ≠ TokenKind.OpenCurlyBrace →
  k ≠ TokenKind.CloseCurlyBrace →
  (∀ r q c', p ≤ q → braces b q = braces b p → At b q st c' → Q r c') →
  lands (ConsumeIf k) Q c.
Proof using Lexed0.
  intros Hc H1 H2 H3 HQ. eapply lands_ConsumeIf; [done..| |].
  - intros c' Hk Hc'. pose proof (at_range _ _ _ _ Hc).
    apply (HQ _ (p + 1)); [lia| |done]. rewrite braces_succ by lia.
    by apply brace_step_plain; rewrite Hk.
  - intros _. by apply (HQ _ p).
Qed.

(** Goes past an optional token. *)
Ltac plain_token r q :=
  apply lands_bind; eapply lands_ConsumeIf_plain; [done..|];
  let Hq := fresh "Hq" in let Hb := fresh "Hb" in let Hc := fresh "Hc" in
  intros r q ? Hq Hb Hc; cbv beta.

(** The stack after the modifiers of a binding: a misplaced [unused] leaves its
    finish state. *)
Definition after_modifiers b (p q : Z) (st st' : list Frame) : Prop :=
  st' = st ∨ p < q ∧ ∃ t, in_stream b t ∧ st' = (StateKind.FinishUnusedPattern, t) :: st.

Lemma lands_binding_on_error p st c s x y (Q : State.t → Context → Prop) :
  At b p st c →
  (∀ s' c', State.token s' = State.token s → At b p st c' → Q s' c') →
  lands (binding_on_error s x y) Q c.
Proof using Lexed0.
  intros Hc HQ. unfold binding_on_error. repeat land_step; by apply HQ.
Qed.

Lemma lands_parse_binding_name p st c s (Q : State.t * option Z * bool → Context → Prop) :
  At b p st c →
  (∀ r q c', p ≤ q → braces b q = braces b p → State.token r.1.1 = State.token s →
     At b q st c' → Q r c') →
  lands (parse_binding_name s) Q c.
Proof using Lexed0.
  intros Hc HQ. unfold parse_binding_name.
  plain_token r q. destruct r as [identifier|].
  { repeat land_step; eapply HQ; [..|done]; done. }
  plain_token r q2. destruct r as [self|].
  { repeat land_step; eapply HQ; [..|done]; [lia|congruence|done]. }
  plain_token r q3. destruct r as [underscore|].
  { repeat land_step; (eapply HQ; [..|done]; [lia|congruence|done]). }
  assert (p ≤ q3 ∧ braces b q3 = braces b p) as [Hq3 Hb3] by (split; [lia|congruence]).
  assert (TokenKind.is_word (kind_at b q3) = true → braces b (q3 + 1) = braces b p) as Hw.
  { intros Hw. pose proof (at_range _ _ _ _ Hc2). rewrite <- Hb3, braces_succ by lia.
    apply brace_step_plain; intros E; by rewrite E in Hw. }
  unfold at_word_before_binding_operator, binding_on_error.
  repeat land_step; (eapply HQ; [..|done]; [lia|auto|done]).
Qed.

Lemma lands_parse_binding_modifiers p st c s (Q : State.t * BindingModifiers → Context → Prop) :
  At b p st c →
  (∀ r q st' c', p ≤ q → braces b q = braces b p → State.token r.1 = State.token s →
     after_modifiers b p q st st' → At b q st' c' → Q r c') →
  lands (parse_binding_modifiers s) Q c.
Proof using Lexed0.
  intros Hc HQ. unfold parse_binding_modifiers.
  plain_token r1 q1. plain_token r2 q2. plain_token r3 q3. plain_token r4 q4.
  apply lands_bind.
  eapply (lands_mono _ (λ s' c', State.token s' = State.token s ∧ At b q4 st c')).
  { repeat land_step; done. }
  intros s1 c1 [Hs1 Hc']. apply lands_bind.
  eapply (lands_mono _ (λ _ c', ∃ q st', q4 ≤ q ∧ braces b q = braces b q4 ∧
    after_modifiers b q4 q st st' ∧ At b q st' c')).
  { pose proof (at_range _ _ _ _ Hc').
    repeat land_step; try (exists q4, st; split_and!; [lia|done|by left|done]).
    eexists (q4 + 1), _. split_and!; [lia| |right; split; [lia|]|done].
    - rewrite braces_succ, Hk by lia. done.
    - eexists; split; [|done]. unfold in_stream. lia. }
  intros ? c2 (q & st' & Hq' & Hb' & Ha & Hc2'). cbv beta. plain_token each q'.
  apply lands_ret. eapply (HQ _ q' st'); [lia|congruence|done| |done].
  destruct Ha as [->|[? Ha]]; [by left|]. right. split; [lia|done].
Qed.

Lemma lands_wrap_each_name p st c s each named (Q : State.t → Context → Prop) :
  At b p st c →
  (∀ s' c', State.token s' = State.token s → At b p st c' → Q s' c') →
  lands (wrap_each_name s each named) Q c.
Proof using Lexed0.
  intros Hc HQ. unfold wrap_each_name. repeat land_step; by apply HQ.
Qed.

Lemma lands_wrap_or_diagnose p st c s m allowed nk d (Q : State.t → Context → Prop) :
  At b p st c →
  (∀ s' c', State.token s' = State.token s → At b p st c' → Q s' c') →
  lands (wrap_or_diagnose s m allowed nk d) Q c.
Proof using Lexed0.
  intros Hc HQ. unfold wrap_or_diagnose. repeat land_step; by apply HQ.
Qed.

Lemma lands_finish_untyped_binding p st c s m self (Q : unit → Context → Prop) :
  At b p st c →
  (∀ st' c', st' = st ∨ st' = (StateKind.BindingPatternFinishAsRegular, State.token s) :: st →
     At b p st' c' → Q tt c') →
  lands (finish_untyped_binding s m self) Q c.
Proof using Lexed0.
  intros Hc HQ. unfold finish_untyped_binding. destruct self as [self|]; cbv zeta.
  1: destruct (is_some (template_token m) || _ || _).
  2: { repeat land_step; (eapply HQ; [by left|done]). }
  all: apply lands_bind; eapply lands_binding_on_error; [done|]; intros s' c' Hs Hc';
    repeat land_step; (eapply HQ; [right|done]); cbn; by rewrite Hs.
Qed.

(** The state that finishes a binding with a type. *)
Definition typed_finish (k : StateKind.t) : Prop :=
  k = StateKind.BindingPatternFinishAsForm ∨ k = StateKind.BindingPatternFinishAsGeneric ∨
  k = StateKind.BindingPatternFinishAsRegular.

Lemma still_ResolveBindingPhase s f t g r : Steady b (ResolveBindingPhase s f t g r).
Proof using Type. solve_steady. Qed.

Lemma lands_finish_typed_binding p st c s m self (Q : unit → Context → Prop) :
  At b p st c → TokenKind.is_binding_pattern_operator (kind_at b p) = true →
  (∀ k t c', typed_finish k → braces b (p + 1) = braces b p → in_stream b t →
     At b (p + 1) ((StateKind.Expr, t) :: (k, p) :: st) c' → Q tt c') →
  lands (finish_typed_binding s m self (kind_at b p)) Q c.
Proof using Lexed0.
  intros Hc Hk HQ. unfold finish_typed_binding. apply lands_bind.
  eapply lands_steady; [done|apply still_ResolveBindingPhase|]. intros ph c1 Hc1.
  apply lands_bind. eapply lands_wrap_or_diagnose; [done|]. intros s2 c2 _ Hc2.
  apply lands_bind. eapply lands_wrap_or_diagnose; [done|]. intros s3 c3 _ Hc3.
  apply lands_bind. eapply lands_steady; [done|solve_steady|]. intros _ c4 Hc4.
  apply lands_bind. eapply lands_steady; [done|solve_steady|]. intros s5 c5 Hc5.
  set (k := if _ : bool then _ else _).
  assert (typed_finish k) as Hf.
  { unfold k, typed_finish. repeat case_match; auto. }
  clearbody k. cbv zeta.
  assert (braces b (p + 1) = braces b p).
  { pose proof (at_range _ _ _ _ Hc). rewrite braces_succ by lia.
    apply brace_step_plain; intros E; by rewrite E in Hk. }
  repeat land_step; (eapply HQ; [done|done| |done]); unfold in_stream;
    match goal with H : At _ (p + 1) _ _ |- _ => pose proof (at_range _ _ _ _ H) end; lia.
Qed.

Lemma settles_BindingPattern : settles b StateKind.BindingPattern HandleBindingPattern.
Proof using Lexed0.
  start_settles. unfold HandleBindingPattern. do 3 land_step.
  eapply lands_parse_binding_modifiers; [done|]. intros [s m] q st1 c1 Hq Hbq Hs Ha Hc1.
  cbn [fst snd State.token] in *. apply lands_bind.
  eapply lands_parse_binding_name; [done|]. intros [[s2 self] named] q2 c2 Hq2 Hb2 Hs2 Hc2.
  cbn [fst snd] in *. apply lands_bind.
  eapply lands_wrap_each_name; [done|]. intros s3 c3 Hs3 Hc3.
  assert (State.token s3 = t) as Hs3t by congruence. clear Hs Hs2 Hs3.
  do 2 land_step.
  destruct (TokenKind.is_binding_pattern_operator (kind_at b q2)) eqn:Hop; cbn [negb].
  - eapply lands_finish_typed_binding; [done|done|]. intros k t' c4 Hf Hb4 Ht' Hc4.
    destruct Ha as [->|(? & tu & ? & ->)], Hf as [->|[->| ->]]; solve_down.
  - eapply lands_finish_untyped_binding; [done|]. rewrite Hs3t. intros st' c4 Hst Hc4.
    destruct Ha as [->|(? & tu & ? & ->)], Hst as [->| ->]; solve_down.
Qed.

(** What is left of [handle_pattern.cpp] and [handle_binding_pattern.cpp]. *)
Lemma settle_patterns :
  all_settle b
    [StateKind.ExprPattern; StateKind.BindingPatternFinishAsGeneric;
     StateKind.BindingPatternFinishAsRegular; StateKind.BindingPatternFinishAsForm;
     StateKind.UnusedPattern; StateKind.FinishUnusedPattern] Handle.
Proof using Lexed0. solve_all_settle. Qed.

(** The elements of a pattern list. *)
Lemma settle_pattern_elements :
  all_settle b
    [StateKind.PatternListElementAsTuple; StateKind.PatternListElementAsStruct;
     StateKind.PatternListElementAsExplicit; StateKind.PatternListElementAsImplicit;
     StateKind.PackExpansionPatternFinish;
     StateKind.PatternListElementCheckForDefaultValue;
     StateKind.PatternListElementFinishDefaultValue;
     StateKind.PatternListElementFinishAsTuple;
     StateKind.PatternListElementFinishAsStruct;
     StateKind.PatternListElementFinishAsExplicit;
     StateKind.PatternListElementFinishAsImplicit] Handle.
Proof using Lexed0. solve_all_settle. Qed.

(** Pattern lists and the fields of a struct pattern. *)
Lemma settle_pattern_lists :
  all_settle b
    [StateKind.PatternListAsTuple; StateKind.PatternListAsStruct;
     StateKind.PatternListAsExplicit; StateKind.PatternListAsImplicit;
     StateKind.PatternListFinishAsParen; StateKind.PatternListFinishAsTuple;
     StateKind.PatternListFinishAsStruct; StateKind.PatternListFinishAsExplicit;
     StateKind.PatternListFinishAsImplicit;
     StateKind.StructPatternDesignatedFieldFinish;
     StateKind.StructPatternFieldAfterDesignator; StateKind.StructPatternUnderscore] Handle.
Proof using Lexed0. solve_all_settle. Qed.

(** [let], [var] and [if] expressions. *)
Lemma settle_let_var :
  all_settle b
    [StateKind.IfExprFinishCondition; StateKind.IfExprFinishThen;
     StateKind.IfExprFinishElse; StateKind.IfExprFinish; StateKind.VariablePattern;
     StateKind.FinishVariablePattern; StateKind.VarAsRegular;
     StateKind.VarAsReturned; StateKind.VarAfterPattern; StateKind.VarFinish;
     StateKind.Let; StateKind.LetAfterPatternAsRegular;
     StateKind.LetAfterPatternAsAssociatedConstant; StateKind.LetFinishAsRegular;
     StateKind.LetFinishAsAssociatedConstant; StateKind.LetElseFinish;
     StateKind.AssociatedConstant] Handle.
Proof using Lexed0. solve_all_settle. Qed.
End patterns.

Section statements.
Context (b : TokenizedBuffer.t) `{!Lexed b}.

Lemma statement_arms {A} (k : TokenKind.t) :
  k = TokenKind.Break ∨ k = TokenKind.Continue ∨ k = TokenKind.For ∨
  k = TokenKind.PeriodPeriodPeriod ∨
  ∀ break continue for_ pack other : A,
    match k with
    | TokenKind.Break => break
    | TokenKind.Continue => continue
    | TokenKind.For => for_
    | TokenKind.PeriodPeriodPeriod => pack
    | _ => other
    end = other.
Proof using Type. destruct k; auto 6. Qed.

(** The keyword statements are handed to states that consume the keyword. *)
Lemma settles_Statement : settles b StateKind.Statement HandleStatement.
Proof using Lexed0.
  start_settles. unfold HandleStatement. do 7 land_step.
  destruct (statement_arms (A := M unit) (kind_at b p)) as [Hkp|[Hkp|[Hkp|[Hkp|Hkp]]]].
  1, 2, 3, 4: rewrite Hkp; repeat land_step; solve_down.
  rewrite Hkp. unfold HandleOtherStatement. repeat land_step; try solve_down.
  match goal with H : statement_state (kind_at b p) = Some _ |- _ =>
    destruct (kind_at b p) eqn:Hkp'; try discriminate H; injection H as <- end;
    solve_down.
Qed.

Lemma settles_CodeBlockFinish : settles b StateKind.CodeBlockFinish HandleCodeBlockFinish.
Proof using Lexed0.
  start_settles. unfold HandleCodeBlockFinish.
  destruct (TokenKind.token_eqb_spec (kind_at b t) TokenKind.OpenCurlyBrace) as [Ek|Ek].
  - rewrite Ek in *. cbn in *. specialize (Hk _ eq_refl). repeat land_step; solve_down.
  - rewrite closing_brace_none in * by done. cbn in *. repeat land_step; solve_down.
Qed.

(** Blocks and conditions. *)
Lemma settle_conditions :
  all_settle b
    [StateKind.CodeBlock; StateKind.ParenConditionAsIf;
     StateKind.ParenConditionAsWhile; StateKind.ParenConditionAsMatch;
     StateKind.ParenConditionFinishAsIf; StateKind.ParenConditionFinishAsWhile;
     StateKind.ParenConditionFinishAsMatch; StateKind.PatternConditionAfterPattern] Handle.
Proof using Lexed0. solve_all_settle. Qed.

(** The other statements. *)
Lemma settle_statements :
  all_settle b
    [StateKind.StatementBreakFinish; StateKind.StatementContinueFinish;
     StateKind.StatementForHeader; StateKind.StatementForHeaderIn;
     StateKind.StatementForHeaderFinish; StateKind.StatementForFinish;
     StateKind.StatementIf; StateKind.StatementIfConditionFinish;
     StateKind.StatementIfThenBlockFinish; StateKind.StatementIfElseBlockFinish;
     StateKind.StatementReturn; StateKind.StatementReturnFinish;
     StateKind.StatementPackExpansionFinish; StateKind.StatementScopeLoop;
     StateKind.StatementWhile; StateKind.StatementWhileConditionFinish;
     StateKind.StatementWhileBlockFinish] Handle.
Proof using Lexed0. solve_all_settle. Qed.

(** [match] statements. *)
Lemma settle_match :
  all_settle b
    [StateKind.MatchIntroducer; StateKind.MatchConditionFinish;
     StateKind.MatchCaseLoop; StateKind.MatchCaseIntroducer;
     StateKind.MatchCaseAlternativePattern;
     StateKind.MatchCaseAlternativePatternFinish; StateKind.MatchCaseAfterPattern;
     StateKind.MatchCaseGuardFinish; StateKind.MatchCaseStart;
     StateKind.MatchDefaultIntroducer; StateKind.MatchGuardedDefaultStart;
     StateKind.MatchHandlerFinish; StateKind.MatchCaseLoopAfterDefault;
     StateKind.MatchStatementFinish] Handle.
Proof using Lexed0. solve_all_settle. Qed.
End statements.
