(* ===== verification/Termination.v ===== *)
(** The parser ends. Every handler makes the measure of [Nesting] smaller, so
    the state loop runs at most a number of iterations that is linear in the
    tokens, on every token stream the lexer can make in which no [match_first]
    is directly followed by a close brace.

    On one that has such a [match_first], the loop may run forever: with no [{]
    right before the [}] of a function body it consumes that [}], the statements
    of the body then have no end, and at the end of the file their loop comes
    back to where it was every six iterations. In a class, the class definition
    fails to find its [}]. *)

From S2P Require Import Prelude TokenKinds StateKinds NodeKinds Tokens Lexed Precedence.
From S2P Require Import ParseTree Diagnostics Context Nesting HandleDeclScope Parse.
From S2P Require Import Samples Runs Descent DescentHandlers.

(** * The hypothesis *)

(** Some [match_first] is directly followed by a close brace. *)
Fixpoint has_bare_match_first (ks : list TokenKind.t) : bool :=
  match ks with
  | TokenKind.MatchFirst :: (TokenKind.CloseCurlyBrace :: _) => true
  | _ :: ks => has_bare_match_first ks
  | [] => false
  end.

Definition bare_match_first (b : TokenizedBuffer.t) : bool :=
  has_bare_match_first (TokenizedBuffer.kind <$> TokenizedBuffer.token_infos b).

(** * The state loop *)

Section termination.
Context (b : TokenizedBuffer.t) `{!Lexed b}.

Lemma settles_Invalid : settles b StateKind.Invalid HandleInvalid.
Proof using Lexed0. start_settles. unfold HandleInvalid. repeat land_step. Qed.

(** Takes the state from the list it is in. *)
Lemma all_settle_elem ks handle k :
  all_settle b ks handle → bool_decide (k ∈ ks) = true → settles b k (handle k).
Proof using Type.
  intros H Hk%bool_decide_eq_true. by eapply Forall_forall in H.
Qed.

Lemma handlers_settle :
  (∀ i, kind_at b i = TokenKind.MatchFirst → kind_at b (i + 1) ≠ TokenKind.CloseCurlyBrace) →
  ∀ k, settles b k (Handle k).
Proof using Lexed0.
  intros Hmf k.
  pose proof (settle_expressions b) as H0.
  pose proof (settle_brackets b) as H1.
  pose proof (settle_braces b) as H2.
  pose proof (settle_suffixes b) as H3.
  pose proof (settle_lambdas b) as H4.
  pose proof (settle_parens b) as H5.
  pose proof (settle_patterns b) as H6.
  pose proof (settle_pattern_elements b) as H7.
  pose proof (settle_pattern_lists b) as H8.
  pose proof (settle_let_var b) as H9.
  pose proof (settle_scopes b) as H10.
  pose proof (settle_functions b) as H11.
  pose proof (settle_types b) as H12.
  pose proof (settle_simple_decls b) as H13.
  pose proof (settle_impls b) as H14.
  pose proof (settle_choices b) as H15.
  pose proof (settle_packaging b) as H16.
  pose proof (settle_exports b) as H17.
  pose proof (settle_conditions b) as H18.
  pose proof (settle_statements b) as H19.
  pose proof (settle_match b) as H20.
  destruct (proj1 (Forall_cons _ _ _) (settles_Decl b)) as [? Hd].
  destruct (proj1 (Forall_cons _ _ _) Hd) as [? Hd'].
  destruct (proj1 (Forall_cons _ _ _) Hd') as [? [? _]%Forall_cons].
  destruct k; first
    [ match goal with H : all_settle b _ _ |- _ =>
        apply (all_settle_elem _ _ _ H); vm_compute; reflexivity end
    | match goal with H : ∀ d, settles b _ (HandleDecl d) |- _ => apply H end
    | apply settles_Invalid | apply (settles_ExprInPostfix b) | apply (settles_ExprLoop b)
    | apply (settles_RequirementBegin b) | apply (settles_Pattern b)
    | apply (settles_BindingPattern b) | apply (settles_MatchFirst b Hmf)
    | apply (settles_MatchFirstFinish b) | apply (settles_Statement b)
    | apply (settles_CodeBlockFinish b) ].
Qed.

Lemma measure_nonneg p st c : At b p st c → 0 ≤ measure b p st.
Proof using Type.
  intros Hc. pose proof (at_range _ _ _ _ Hc).
  pose proof (first_surplus_bounds (kind_at b p) st).
  assert (∀ st, 0 ≤ total_work st).
  { clear. induction st as [|f st IH]; cbn; [done|]. pose proof (work_pos f.1). lia. }
  specialize (H1 st). unfold measure, token_work. lia.
Qed.

(** Fuel for the measure is enough for the loop. *)
Lemma state_loop_lands fuel p st c :
  (∀ k, settles b k (Handle k)) →
  At b p st c → fresh_top c → nested b p st → measure b p st < Z.of_nat fuel →
  lands (state_loop fuel) (λ _ c', ∃ q, At b q [] c') c.
Proof using Type.
  intros Hs. revert p st c. induction fuel as [|fuel IH]; intros p st c Hc Hf Hn Hm.
  { pose proof (measure_nonneg _ _ _ Hc). lia. }
  cbn [state_loop]. apply lands_bind, lands_gets.
  pose proof (at_stack _ _ _ _ Hc) as Hst. destruct (state_stack_ c) as [|s rest] eqn:E.
  { apply lands_ret. exists p. by rewrite <- Hst in Hc. }
  assert (st = (State.kind s, State.token s) :: (frame_of <$> rest)) as -> by done.
  apply lands_bind.
  eapply lands_mono; [by eapply Hs|]. intros [] c' (q & st' & [Hc' Hf'] & Hn' & Hm').
  eapply IH; [done..|lia].
Qed.
End termination.

(** * The parser *)

Lemma has_bare_match_first_lookup ks n :
  has_bare_match_first ks = false → ks !! n = Some TokenKind.MatchFirst →
  ks !! S n ≠ Some TokenKind.CloseCurlyBrace.
Proof.
  revert n. induction ks as [|k ks IH]; intros n Hb Hn; [done|].
  assert (has_bare_match_first ks = false) as Hb'.
  { destruct k, ks as [|[]]; try done; exact Hb. }
  destruct n as [|n]; cbn in Hn |- *; [|by apply IH].
  injection Hn as ->. destruct ks as [|k ks]; [done|]. by intros [= ->].
Qed.

Lemma kind_at_lookup b i :
  kind_at b i ≠ TokenKind.FileEnd →
  0 ≤ i ∧
  (TokenizedBuffer.kind <$> TokenizedBuffer.token_infos b) !! Z.to_nat i = Some (kind_at b i).
Proof.
  unfold kind_at, TokenizedBuffer.GetKind, vec_get.
  destruct (Z.leb_spec 0 i); [|done]. rewrite list_lookup_fmap.
  by destruct (TokenizedBuffer.token_infos b !! Z.to_nat i).
Qed.

Lemma bare_match_first_kind_at b :
  bare_match_first b = false →
  ∀ i, kind_at b i = TokenKind.MatchFirst → kind_at b (i + 1) ≠ TokenKind.CloseCurlyBrace.
Proof.
  intros Hb i Hi Hc. destruct (kind_at_lookup b i) as [Hr Hl]; [by rewrite Hi|].
  destruct (kind_at_lookup b (i + 1)) as [_ Hl']; [by rewrite Hc|].
  rewrite Hi in Hl. rewrite Hc, (Z2Nat.inj_add i 1), Nat.add_1_r in Hl' by lia.
  by eapply has_bare_match_first_lookup.
Qed.

(** What the first three lines of [Parse] leave. *)
Lemma lands_parse_start b c :
  Lexed b → initial b = Ok c →
  lands parse_start
    (λ _ c', At b 1 [(StateKind.DeclScopeLoopAsRegular, 1)] c' ∧ fresh_top c') c.
Proof.
  intros HL Hi. pose proof (lexed_nonempty (b := b)) as Hn.
  unfold initial in Hi. destruct (require _); [|done]. cbn in Hi.
  destruct (TokenizedBuffer.GetKind b _); [|done]. cbn in Hi.
  destruct (require _); [|done]. injection Hi as <-.
  unfold parse_start, ConsumeChecked, PositionIs, PositionIsAhead, PositionKind,
    PositionKindAhead, position, GetKind, tokens.
  repeat lazymatch goal with
  | |- lands (mbind _ _) _ _ => apply lands_bind
  | |- lands (gets _) _ _ => apply lands_gets
  end.
  apply lands_lift_result; [apply _|].
  intros k Hk. cbn in Hk. rewrite lexed_start in Hk. injection Hk as <-.
  apply lands_ret, lands_bind, lands_check. intros _. unfold Consume, position.
  apply lands_bind, lands_gets, lands_bind, lands_modify, lands_ret.
  set (c1 := set_position _ _).
  assert (At b 1 [] c1) as Hc by (split; cbn; [done|done|done|done|lia|done]).
  clearbody c1. repeat land_step. done.
Qed.

(** The iterations that are always enough. *)
Definition iteration_bound (b : TokenizedBuffer.t) : nat :=
  Z.to_nat (token_work * TokenizedBuffer.tokens_end b).

Lemma initial_measure b :
  measure b 1 [(StateKind.DeclScopeLoopAsRegular, 1)] < Z.of_nat (iteration_bound b).
Proof.
  pose proof (first_surplus_bounds (kind_at b 1) [(StateKind.DeclScopeLoopAsRegular, 1)]).
  unfold measure, iteration_bound, token_work. cbn [total_work work fst]. lia.
Qed.

Lemma initial_nested b :
  Lexed b → nested b 1 [(StateKind.DeclScopeLoopAsRegular, 1)].
Proof.
  intros HL. pose proof (lexed_nonempty (b := b)). nest_simpl. split_and!; try done.
  - unfold in_stream. lia.
  - change 1 with (0 + 1). rewrite braces_succ by lia. by rewrite (kind_at_Ok _ _ _ lexed_start).
Qed.

Lemma parse_body_ends b c :
  Lexed b → bare_match_first b = false → initial b = Ok c →
  parse_body (iteration_bound b) c ≠ Err OutOfFuel.
Proof.
  intros HL Hmf Hi. pose proof (bare_match_first_kind_at b Hmf) as Hk.
  enough (lands (parse_body (iteration_bound b)) (λ _ _, True) c) as H.
  { intros E. unfold lands, wp in H. by rewrite E in H. }
  unfold parse_body. apply lands_bind. eapply lands_mono; [by eapply lands_parse_start|].
  intros ? c1 [Hc1 Hf1]. apply lands_bind. eapply lands_mono.
  { eapply (state_loop_lands b); [by apply handlers_settle|done|done|..].
    - by apply initial_nested.
    - apply initial_measure. }
  intros ? c2 (q & Hc2). repeat land_step. done.
Qed.

#[export] Instance ends_initial b : Ends (initial b).
Proof. unfold initial. ends_auto. Qed.

(** * Reachable contexts *)

(** The invariant and the measure of a context. *)
Definition fits b (m : Z) (c : Context) : Prop :=
  ∃ p st, At b p st c ∧ fresh_top c ∧ nested b p st ∧ measure b p st = m.

Section reachable.
Context (b : TokenizedBuffer.t) `{!Lexed b} (Hs : ∀ k, settles b k (Handle k)).

Lemma fits_handle m s rest c :
  fits b m c → state_stack_ c = s :: rest →
  lands (Handle (State.kind s)) (λ _ c', ∃ m', m' < m ∧ fits b m' c') c.
Proof using Hs.
  intros (p & st & Hc & Hf & Hn & Hm) E. pose proof (at_stack _ _ _ _ Hc) as Hst.
  rewrite E in Hst. assert (st = (State.kind s, State.token s) :: (frame_of <$> rest)) as -> by done.
  eapply lands_mono; [by eapply Hs|]. intros [] c' (q & st' & [Hc' Hf'] & Hn' & Hm').
  eexists. split; [|by exists q, st']. lia.
Qed.

Lemma fits_nonneg m c : fits b m c → 0 ≤ m.
Proof using Type. intros (p & st & Hc & _ & _ & <-). by eapply measure_nonneg. Qed.

Lemma fits_steps m c c' w : fits b m c → steps c c' w → ∃ m', fits b m' c'.
Proof using Hs.
  intros Hm H. revert m Hm. induction H as [c|c1 c2 c3 w1 w2 Hstep _ IH]; intros m Hm.
  { by exists m. }
  destruct Hstep as [s rest c c' w E Hh].
  pose proof (fits_handle _ _ _ _ Hm E) as Hl. unfold lands, wp in Hl. rewrite Hh in Hl.
  destruct Hl as (m' & _ & Hm'). by eapply IH.
Qed.

Lemma reachable_fits c w : reachable b c w → ∃ m, fits b m c.
Proof using All.
  intros (c0 & c1 & w0 & w1 & Hi & Hp & Hst & _).
  pose proof (lands_parse_start b c0 Lexed0 Hi) as Hl. unfold lands, wp in Hl.
  rewrite Hp in Hl. destruct Hl as [Hc Hf]. eapply fits_steps; [|done].
  exists 1, [(StateKind.DeclScopeLoopAsRegular, 1)]. split_and!; [done..|by apply initial_nested|done].
Qed.

(** The end of the loop: the stack is empty, or a check of a handler fails. *)
Lemma fits_finishes m c :
  fits b m c → ∃ c' w', steps c c' w' ∧
    (state_stack_ c' = [] ∨ ∃ f, iteration c' = Err f ∧ f ≠ OutOfFuel).
Proof using Hs.
  intros Hm. pose proof (fits_nonneg _ _ Hm) as H0. revert c Hm.
  induction m as [m IH] using (well_founded_induction (Z.lt_wf 0)). intros c Hm.
  destruct (state_stack_ c) as [|s rest] eqn:E.
  { exists c, []. split; [constructor|by left]. }
  pose proof (fits_handle _ _ _ _ Hm E) as Hl. unfold lands, wp in Hl.
  destruct (Handle (State.kind s) c) as [[[[] c1] w1]|f] eqn:Hh.
  - destruct Hl as (m' & Hlt & Hm'). pose proof (fits_nonneg _ _ Hm').
    destruct (IH m' ltac:(lia) ltac:(done) c1 Hm') as (c' & w' & Hst & Hend).
    exists c', (w1 ++ w'). split; [|done]. econstructor; [by econstructor|done].
  - exists c, []. split; [constructor|]. right. exists f. split; [|done].
    unfold iteration, state_stack. run_action. by rewrite E, Hh.
Qed.
End reachable.

(** * The theorems *)

Lemma Parse_ends b :
  Lexed b → bare_match_first b = false →
  ∃ r, r ≠ Err OutOfFuel ∧ ∀ fuel, (iteration_bound b ≤ fuel)%nat → Parse fuel b = r.
Proof.
  intros HL Hmf.
  assert (∀ c, initial b = Ok c → parse_body (iteration_bound b) c ≠ Err OutOfFuel) as Hbody
    by (intros c; by apply parse_body_ends).
  exists (Parse (iteration_bound b) b). unfold Parse, mbind, Result_bind.
  destruct (initial b) as [c|f] eqn:Ei; [|split; [|done]].
  2: { pose proof (ends_initial b) as H. unfold Ends in H. congruence. }
  split.
  - pose proof (Hbody c eq_refl) as Hc.
    destruct (parse_body (iteration_bound b) c) as [[[[] c'] w]|f]; [|congruence].
    by destruct (Tree.Verify _ _ _).
  - intros fuel Hf. by rewrite (parse_body_more (iteration_bound b) fuel c Hf (Hbody c eq_refl)).
Qed.

(** C3. The parser ends on every well-formed token stream without a bare
    [match_first]: there is one outcome, which is not the end of the fuel, and
    every number of iterations from [iteration_bound] on gives it. The bound
    is 48 iterations for every token. *)
Theorem parse_terminates b :
  Lexed b → bare_match_first b = false →
  ∃ r, r ≠ Err OutOfFuel ∧ ∀ fuel, (iteration_bound b ≤ fuel)%nat → Parse fuel b = r.
Proof. apply Parse_ends. Qed.

Lemma parse_terminates_witness :
  ∃ r, r ≠ Err OutOfFuel ∧
    ∀ fuel, (iteration_bound sample_function ≤ fuel)%nat → Parse fuel sample_function = r.
Proof.
  apply parse_terminates.
  - apply lexed_check_sound. vm_compute. reflexivity.
  - vm_compute. reflexivity.
Defined.



(** [fn F() { match_first }]. *)
Definition sample_bare_match_first : TokenizedBuffer.t :=
  sample
    [spaced 0 [TokenKind.Fn; TokenKind.Identifier];
     tight 0 [TokenKind.OpenParen; TokenKind.CloseParen; TokenKind.OpenCurlyBrace];
     spaced 2 [TokenKind.MatchFirst]; tight 0 [TokenKind.CloseCurlyBrace]].

(** [class C { match_first }]. *)
Definition sample_bare_match_first_in_class : TokenizedBuffer.t :=
  sample
    [spaced 0 [TokenKind.Class; TokenKind.Identifier; TokenKind.OpenCurlyBrace];
     spaced 2 [TokenKind.MatchFirst]; tight 0 [TokenKind.CloseCurlyBrace]].

(** * Iterations and fuel *)

Lemma iterate_state_loop n fuel c c' w :
  iterate n c = Ok (tt, c', w) →
  state_loop (n + fuel) c =
  match state_loop fuel c' with
  | Ok (_, c2, w2) => Ok (tt, c2, w ++ w2)
  | Err f => Err f
  end.
Proof.
  revert c w. induction n as [|n IH]; intros c w.
  { cbn. intros [= <- <-]. by destruct (state_loop fuel c) as [[[[] ?] ?]|]. }
  intros H. cbn [Nat.add]. rewrite state_loop_S. revert H. cbn [iterate]. run_action.
  destruct (iteration c) as [[[[] c1] w1]|f] eqn:Ei; [|done]. cbn.
  destruct (iterate n c1) as [[[[] c2] w2]|f] eqn:En; [|done]. intros [= <- <-].
  rewrite (IH _ _ En). apply iteration_step, step_stack in Ei as (s & rest & ->).
  destruct (state_loop fuel c2) as [[[[] c3] w3]|]; [|done]. by rewrite (assoc_L (++)).
Qed.

Lemma no_less_fuel fuel fuel' c :
  (fuel ≤ fuel')%nat → state_loop fuel' c = Err OutOfFuel →
  state_loop fuel c = Err OutOfFuel.
Proof.
  intros Hle Hf. destruct (state_loop fuel c) as [x|f] eqn:E.
  2: destruct (decide (f = OutOfFuel)) as [->|?]; [done|].
  all: rewrite (state_loop_more fuel fuel' c Hle), E in Hf; congruence.
Qed.

(** A context the loop comes back to, but for what it has emitted. *)
Lemma recurrent_diverges (stuck : Context → Prop) n :
  (∀ c, stuck c → ∃ c' w, iterate (S n) c = Ok (tt, c', w) ∧ stuck c') →
  ∀ fuel c, stuck c → state_loop fuel c = Err OutOfFuel.
Proof.
  intros Hs. assert (∀ k c, stuck c → state_loop (k * S n) c = Err OutOfFuel) as Hk.
  { induction k as [|k IH]; intros c Hc; [done|].
    destruct (Hs c Hc) as (c' & w & Hi & Hc'). cbn [Nat.mul].
    by rewrite (iterate_state_loop _ _ _ _ _ Hi), IH. }
  intros fuel c Hc. by apply (no_less_fuel fuel (fuel * S n)); [lia|apply Hk].
Qed.

Lemma diverging_body fuel n c0 c w :
  (parse_start ;; iterate n) c0 = Ok (tt, c, w) →
  (∀ fuel, state_loop fuel c = Err OutOfFuel) → parse_body fuel c0 = Err OutOfFuel.
Proof.
  intros Hstart Hc. unfold parse_body. revert Hstart. run_action.
  destruct (parse_start c0) as [[[[] c1] w1]|]; [|done]. cbn.
  destruct (iterate n c1) as [[[[] c2] w2]|] eqn:Ei; [|done]. intros [= -> <-].
  assert (state_loop fuel c1 = Err OutOfFuel) as ->; [|done].
  apply (no_less_fuel fuel (n + fuel)); [lia|].
  by rewrite (iterate_state_loop _ _ _ _ _ Ei), Hc.
Qed.

(** * The function body *)

(** The statement loop at the end of the file. *)
Record stuck (c : Context) : Prop := {
  stuck_tokens : tokens_ c = sample_bare_match_first;
  stuck_position : position_ c = 8;
  stuck_end : end_ c = 8;
  stuck_stack :
    state_stack_ c = state_stack_ (context_after 14 sample_bare_match_first).1;
}.

Lemma stuck_again c : stuck c → ∃ c' w, iterate 6 c = Ok (tt, c', w) ∧ stuck c'.
Proof.
  destruct c as [b [nodes imports pkg]]; intros []; cbn in *; subst.
  eexists _, _. split; [vm_compute; reflexivity|]. split; vm_compute; reflexivity.
Qed.

Lemma diverging_start : ∃ c w,
  (parse_start ;; iterate 14) (initial_of sample_bare_match_first) = Ok (tt, c, w) ∧ stuck c.
Proof. eexists _, _. split; [vm_compute; reflexivity|]. split; vm_compute; reflexivity. Qed.

(** C40. The hypothesis of termination is needed: on the tokens of
    [fn F() { match_first }] the loop of [Parse] never ends. *)
Theorem bare_match_first_diverges fuel :
  Parse fuel sample_bare_match_first = Err OutOfFuel.
Proof.
  destruct diverging_start as (c & w & Hstart & Hc). unfold Parse.
  change (initial sample_bare_match_first) with (Ok (initial_of sample_bare_match_first)).
  cbn [mbind Result_bind].
  by rewrite (diverging_body fuel _ _ _ _ Hstart (λ f, recurrent_diverges stuck 5 stuck_again f c Hc)).
Qed.

(** In a class the parser leaves its tokens: [DeclDefinitionFinish] takes the
    end of the file for the brace that is gone. *)
Theorem bare_match_first_crashes fuel :
  (100 ≤ fuel)%nat → Parse fuel sample_bare_match_first_in_class = Err OutOfRange.
Proof.
  intros Hf. unfold Parse.
  change (initial sample_bare_match_first_in_class)
    with (Ok (initial_of sample_bare_match_first_in_class)). cbn [mbind Result_bind].
  rewrite (parse_body_more 100 fuel); [vm_compute; reflexivity|exact Hf|].
  vm_compute. discriminate.
Qed.
