(* ===== verification/Frame.v ===== *)
(** What no handler of the parser can do: the transition every run of a
    handler makes. The end of the token stream is fixed and the buffer only
    gets recovery tokens appended; the cursor never moves back; nodes of the
    tree are never removed and, apart from placeholders and the introducer of a
    [let]-[else], never change; imports are appended to, the packaging
    declaration and the first non-packaging token are written once. *)

From S2P Require Import Prelude TokenKinds StateKinds NodeKinds Tokens Precedence.
From S2P Require Import ParseTree Diagnostics Context HandleExpr HandleExprForms.
From S2P Require Import HandlePattern HandlePatternList HandleLetVar HandleDeclScope.
From S2P Require Import HandleDecl HandleDeclForms HandlePackaging HandleStatement.
From S2P Require Import HandleMatch Parse Samples Runs.

(** * Transitions of an action *)

(** [moves R m]: every run of [m] that returns makes a transition in [R]. *)
Definition moves {S W A} (R : S → S → Prop) (m : Action S W A) : Prop :=
  ∀ s a s' w, m s = Ok (a, s', w) → R s s'.

Section moves.
Context {S W : Type} (R : S → S → Prop) `{!PreOrder R}.

Lemma moves_ret {A} (a : A) : moves R (mret a : Action S W A).
Proof. intros s ? s' w [= <- <- <-]. reflexivity. Qed.

Lemma moves_bind {A B} (m : Action S W A) (k : A → Action S W B) :
  moves R m → (∀ a, moves R (k a)) → moves R (m ≫= k).
Proof.
  intros Hm Hk s b s' w. unfold mbind, Action_bind, action_bind.
  destruct (m s) as [[[a s1] w1]|f] eqn:E1; [|done].
  destruct (k a s1) as [[[b' s2] w2]|f] eqn:E2; [|done].
  intros [= <- <- <-]. transitivity s1; [by eapply Hm|by eapply Hk].
Qed.

Lemma moves_fail {A} f : moves R (action_fail f : Action S W A).
Proof. by intros ????. Qed.

Lemma moves_gets {A} (f : S → A) : moves R (gets f : Action S W A).
Proof. intros s ? s' w [= <- <- <-]. reflexivity. Qed.

Lemma moves_tell (x : W) : moves R (tell x : Action S W unit).
Proof. intros s ? s' w [= <- <- <-]. reflexivity. Qed.

Lemma moves_check b : moves R (check b : Action S W unit).
Proof. destruct b; [apply moves_ret|apply moves_fail]. Qed.

Lemma moves_lift_result {A} (f : S → Result A) :
  moves R (lift_result f : Action S W A).
Proof.
  intros s a s' w. unfold lift_result. destruct (f s); [|done].
  intros [= <- <- <-]. reflexivity.
Qed.

Lemma moves_modify f : (∀ s, R s (f s)) → moves R (modify f : Action S W unit).
Proof. intros H s ? s' w [= <- <- <-]. apply H. Qed.

Lemma moves_when b (m : Action S W unit) : moves R m → moves R (when b m).
Proof. destruct b; [done|]. intros _. apply moves_ret. Qed.
End moves.

(** * The frame of the parser *)

(** How a node of the tree may change. *)
Definition node_step (n n' : NodeImpl.t) : Prop :=
  n' = n ∨
  NodeImpl.kind n = NodeKind.Placeholder ∨
  (NodeImpl.kind n ∈ [NodeKind.LetIntroducer; NodeKind.VariableIntroducer] ∧
   NodeImpl.kind n' = NodeKind.LetElseIntroducer ∧
   NodeImpl.has_error n' = NodeImpl.has_error n).

Definition pointwise {A} (R : A → A → Prop) (l l' : list A) : Prop :=
  ∀ i x, l !! i = Some x → ∃ x', l' !! i = Some x' ∧ R x x'.

Definition deferred_step (d d' : Tree.DeferredDefinition) : Prop :=
  Tree.start_id d' = Tree.start_id d.

Record tree_frame (tr tr' : Tree.t) : Prop := {
  frame_nodes : pointwise node_step (Tree.node_impls tr) (Tree.node_impls tr');
  frame_packaging : ∀ d, Tree.packaging_decl tr = Some d →
    Tree.packaging_decl tr' = Some d;
  frame_imports : Tree.imports tr `prefix_of` Tree.imports tr';
  frame_deferred : pointwise deferred_step (Tree.deferred_definitions tr)
    (Tree.deferred_definitions tr');
}.

Record frame (c c' : Context) : Prop := {
  frame_end : end_ c' = end_ c;
  frame_tokens : TokenizedBuffer.extends (tokens_ c) (tokens_ c');
  frame_position : position_ c ≤ position_ c';
  frame_tree : tree_frame (tree_ c) (tree_ c');
  frame_first : first_non_packaging_token_ c ≠ TokenizedBuffer.NoneToken →
    first_non_packaging_token_ c' = first_non_packaging_token_ c;
  frame_stack : vec_size (state_stack_ c) < MaxStateStack →
    vec_size (state_stack_ c') < MaxStateStack;
}.

Lemma pointwise_refl {A} (R : A → A → Prop) `{!Reflexive R} l : pointwise R l l.
Proof. intros i x H. exists x. split; [done|reflexivity]. Qed.

Lemma pointwise_trans {A} (R : A → A → Prop) `{!Transitive R} l1 l2 l3 :
  pointwise R l1 l2 → pointwise R l2 l3 → pointwise R l1 l3.
Proof.
  intros H1 H2 i x Hx. destruct (H1 i x Hx) as (y & Hy & ?).
  destruct (H2 i y Hy) as (z & Hz & ?). exists z. split; [done|by etrans].
Qed.

Lemma pointwise_app {A} (R : A → A → Prop) `{!Reflexive R} l k : pointwise R l (l ++ k).
Proof. intros i x H. exists x. split; [by apply lookup_app_l_Some|reflexivity]. Qed.

Lemma pointwise_vec_set {A} (R : A → A → Prop) `{!Reflexive R} l n x :
  0 ≤ n → (∀ y, vec_get l n = Ok y → R y x) → pointwise R l (vec_set l n x).
Proof.
  intros Hn H i y Hy. unfold vec_set. destruct (decide (i = Z.to_nat n)) as [->|Hne].
  - exists x. split; [|by apply H, vec_get_Ok].
    by apply list_lookup_insert_eq, lookup_lt_Some with y.
  - exists y. split; [|reflexivity]. by rewrite list_lookup_insert_ne.
Qed.

#[export] Instance node_step_po : PreOrder node_step.
Proof.
  split; [by left|].
  intros n1 n2 n3 [->|[?|(H1 & H2 & H3)]] Hs; [done|by right; left|].
  destruct Hs as [->|[Hs|(Hs & ?)]]; [by right; right|congruence|].
  rewrite H2 in Hs. by apply elem_of_cons in Hs as [?|?%list_elem_of_singleton].
Qed.

#[export] Instance deferred_step_po : PreOrder deferred_step.
Proof. split; unfold deferred_step; [done|]. intros ??? ->. done. Qed.

#[export] Instance tree_frame_po : PreOrder tree_frame.
Proof.
  split.
  - intros tr. split; [apply pointwise_refl; apply _|by auto|reflexivity|apply pointwise_refl; apply _].
  - intros t1 t2 t3 [N1 P1 I1 D1] [N2 P2 I2 D2]. split; auto;
      [by eapply pointwise_trans; [apply _|..]|by etrans|
       by eapply pointwise_trans; [apply _|..]].
Qed.

#[export] Instance frame_po : PreOrder frame.
Proof.
  split.
  - intros c. split; first [reflexivity | lia | done | auto].
  - intros c1 c2 c3 [E1 T1 P1 R1 F1 S1] [E2 T2 P2 R2 F2 S2]. split.
    + by rewrite E2, E1.
    + by etrans.
    + lia.
    + by etrans.
    + intros H. rewrite F2; [by apply F1|]. by rewrite F1.
    + auto.
Qed.

(** Updates of one component that respect the frame. *)
Lemma frame_set_tree c tr : tree_frame (tree_ c) tr → frame c (set_tree tr c).
Proof. intros H. split; first [reflexivity | lia | done | auto]. Qed.

(** A change of the cursor, the state stack and the packaging state only. *)
Lemma frame_cursor c c' :
  end_ c' = end_ c → tokens_ c' = tokens_ c → position_ c ≤ position_ c' →
  tree_ c' = tree_ c → first_non_packaging_token_ c' = first_non_packaging_token_ c →
  vec_size (state_stack_ c') ≤ vec_size (state_stack_ c) →
  frame c c'.
Proof. intros ? Ht ? Hr ? ?. split; rewrite ?Ht, ?Hr; first [reflexivity | lia | auto]. Qed.

Lemma frame_set_nodes c l :
  pointwise node_step (Tree.node_impls (tree_ c)) l →
  frame c (set_tree (Tree.set_node_impls l (tree_ c)) c).
Proof. intros H. apply frame_set_tree. split; [done|by auto|reflexivity|]. apply pointwise_refl; apply _. Qed.

Lemma frame_push_node i c : frame c (push_node i c).
Proof. apply frame_set_nodes, pointwise_app; apply _. Qed.

(** * Its handlers

    [solve_moves] follows the structure of an action; the primitives whose
    transition needs a reason have lemmas of their own. *)
Create HintDb moves.

Ltac moves_head m :=
  lazymatch m with ?f _ => moves_head f | _ => m end.

Ltac moves_step :=
  lazymatch goal with
  | |- ∀ _, _ => intro
  | |- moves _ (mret _) => apply moves_ret; apply _
  | |- moves _ (mbind _ _) => apply moves_bind; [apply _|..]
  | |- moves _ (action_fail _) => apply moves_fail
  | |- moves _ (gets _) => apply moves_gets; apply _
  | |- moves _ (tell _) => apply moves_tell; apply _
  | |- moves _ (check _) => apply moves_check; apply _
  | |- moves _ (lift_result _) => apply moves_lift_result; apply _
  | |- moves _ (when _ _) => apply moves_when; [apply _|]
  | |- moves _ (match ?x with _ => _ end) => destruct x
  | |- moves _ (let _ := _ in _) => cbv zeta
  | |- moves _ ?m =>
      first [ solve [eauto 2 with moves]
            | let h := moves_head m in progress (unfold h) ]
  end.
Ltac solve_moves := repeat moves_step.

Lemma moves_AddNode k t e : moves frame (AddNode k t e).
Proof. unfold AddNode. solve_moves. apply moves_modify, frame_push_node. Qed.

Lemma moves_cursor f :
  (∀ c, end_ (f c) = end_ c ∧ tokens_ (f c) = tokens_ c ∧ position_ c ≤ position_ (f c) ∧
        tree_ (f c) = tree_ c ∧
        first_non_packaging_token_ (f c) = first_non_packaging_token_ c ∧
        vec_size (state_stack_ (f c)) ≤ vec_size (state_stack_ c)) →
  moves frame (modify f : M unit).
Proof. intros H. apply moves_modify. intros c. apply frame_cursor; apply H. Qed.

Ltac solve_cursor :=
  apply frame_cursor; simpl;
  repeat match goal with H : state_stack_ _ = _ |- _ => rewrite H end;
  unfold vec_size; simpl; first [lia | reflexivity].

Lemma moves_Consume : moves frame Consume.
Proof. intros c t c' w [= <- <- <-]. solve_cursor. Qed.

Lemma moves_ConsumeAndDiscard : moves frame ConsumeAndDiscard.
Proof. intros c t c' w [= <- <- <-]. solve_cursor. Qed.

Lemma moves_SkipTo t : moves frame (SkipTo t).
Proof.
  intros c u c' w. unfold SkipTo, position, at_end. run_action.
  destruct (Z.leb_spec (position_ c) t); cbn; [|done].
  destruct (t =? end_ c); cbn; [done|]. intros [= <- <- <-]. solve_cursor.
Qed.

Lemma moves_PopState : moves frame PopState.
Proof.
  intros c s c' w. unfold PopState. destruct (state_stack_ c) eqn:E; [done|].
  intros [= <- <- <-]. solve_cursor.
Qed.

Lemma moves_modify_top f : moves frame (modify_top f).
Proof.
  intros c s c' w. unfold modify_top. destruct (state_stack_ c) eqn:E; [done|].
  intros [= <- <- <-]. solve_cursor.
Qed.

Lemma moves_PopDeferredDefinition : moves frame PopDeferredDefinition.
Proof.
  intros c s c' w. unfold PopDeferredDefinition.
  destruct (deferred_definition_stack_ c); [done|].
  intros [= <- <- <-]. solve_cursor.
Qed.

Lemma moves_PushStateVal s : moves frame (PushStateVal s).
Proof.
  intros c u c' w. unfold PushStateVal, state_stack. run_action.
  destruct (Z.ltb_spec (vec_size (s :: state_stack_ c)) MaxStateStack); cbn; [|done].
  intros [= <- <- <-]. by split; cbn; [..|intros _].
Qed.

Lemma moves_set_packaging_state s : moves frame (set_packaging_state s).
Proof. apply moves_cursor. cbn. auto with lia. Qed.

Lemma moves_set_first_non_packaging_token t :
  moves frame (set_first_non_packaging_token t).
Proof.
  intros c u c' w. unfold set_first_non_packaging_token, first_non_packaging_token.
  run_action.
  destruct (Z.eqb_spec (first_non_packaging_token_ c) TokenizedBuffer.NoneToken);
    cbn; [|done].
  intros [= <- <- <-]. split; cbn; first [reflexivity | lia | done | auto].
Qed.

#[export] Hint Resolve moves_AddNode moves_Consume moves_ConsumeAndDiscard moves_SkipTo
  moves_PopState moves_modify_top moves_PopDeferredDefinition moves_PushStateVal
  moves_set_packaging_state moves_set_first_non_packaging_token : moves.

(** [ReplacePlaceholderNode] replaces a placeholder. *)
Lemma moves_ReplacePlaceholderNode n k t e : moves frame (ReplacePlaceholderNode n k t e).
Proof.
  intros c u c' w.
  unfold ReplacePlaceholderNode, tree_size, node_kind. run_action.
  destruct (_ && _); cbn; [|done].
  destruct (Z.leb_spec 0 n); cbn; [|done].
  destruct (n <? _); cbn; [|done].
  destruct (Tree.node_kind _ n) as [old|] eqn:Ek; cbn; [|done].
  destruct (NodeKind.node_kind_eqb_spec old NodeKind.Placeholder) as [->|]; cbn; [|done].
  destruct (NodeImpl.make k e t); cbn; [|done]. intros [= <- <- <-].
  apply frame_set_nodes, pointwise_vec_set; [apply _|done|].
  intros i Hi. right; left. unfold Tree.node_kind in Ek.
  apply result_bind_Ok in Ek as (i' & Hi' & [= <-]). congruence.
Qed.

(** [ReplaceIntroducerNode] turns a [let] or [var] introducer into a
    [let]-[else] introducer. *)
Lemma moves_ReplaceIntroducerNode n k :
  k ∈ [NodeKind.LetIntroducer; NodeKind.VariableIntroducer] →
  moves frame (ReplaceIntroducerNode n k NodeKind.LetElseIntroducer).
Proof.
  intros Hk c u c' w.
  unfold ReplaceIntroducerNode, tree_size, node_kind, node_has_error, node_token.
  unfold Tree.node_kind, Tree.node_has_error, Tree.node_token. run_action.
  destruct (Z.leb_spec 0 n); cbn; [|done].
  destruct (n <? _); cbn; [|done].
  destruct (vec_get _ n) as [i|] eqn:Ei; cbn; [|done].
  destruct (NodeKind.node_kind_eqb_spec (NodeImpl.kind i) k) as [Eik|]; cbn; [|done].
  unfold Result_bind; rewrite Ei; cbn. rewrite Ei; cbn.
  destruct (NodeImpl.make NodeKind.LetElseIntroducer _ _) as [i'|] eqn:Em;
    cbn; [|done]. intros [= <- <- <-].
  apply NodeImpl.make_fields in Em as [Ek Ee].
  apply frame_set_nodes, pointwise_vec_set; [apply _|done|].
  intros j Hj. assert (j = i) as -> by congruence.
  right; right. by rewrite Eik, Ek, Ee.
Qed.

Lemma moves_set_packaging_decl names is_impl :
  moves frame (set_packaging_decl names is_impl).
Proof.
  intros c u c' w. unfold set_packaging_decl, tree. run_action.
  destruct (Tree.packaging_decl (tree_ c)) eqn:E; cbn; [done|].
  intros [= <- <- <-]. apply frame_set_tree.
  split; cbn; [apply pointwise_refl; apply _|congruence|reflexivity|].
  apply pointwise_refl; apply _.
Qed.

Lemma moves_AddImport names : moves frame (AddImport names).
Proof.
  intros c u c' w. unfold AddImport, tree. run_action. intros [= <- <- <-].
  apply frame_set_tree. split; cbn; [apply pointwise_refl; apply _|done| |].
  - by exists [names].
  - apply pointwise_refl; apply _.
Qed.

Lemma frame_set_deferred c l :
  pointwise deferred_step (Tree.deferred_definitions (tree_ c)) l →
  frame c (set_tree (Tree.set_deferred_definitions l (tree_ c)) c).
Proof.
  intros H. apply frame_set_tree.
  split; [apply pointwise_refl; apply _|by auto|reflexivity|done].
Qed.

Lemma moves_AddFunctionDefinitionStart t e : moves frame (AddFunctionDefinitionStart t e).
Proof.
  unfold AddFunctionDefinitionStart. do 2 (moves_step; [solve_moves|intros]).
  moves_step. intros c u c' w. unfold tree. run_action. intros [= <- <- <-].
  eapply (transitivity (R := frame)).
  - apply frame_set_deferred, pointwise_app; apply _.
  - solve_cursor.
Qed.

Lemma moves_finish_deferred_definition n : moves frame (finish_deferred_definition n).
Proof.
  unfold finish_deferred_definition. moves_step; [solve_moves|intros].
  moves_step. moves_step; [solve_moves|intros]. intros c u c' w. unfold tree. run_action.
  destruct (vec_get _ _) as [d|] eqn:Ed; cbn; [|done]. intros [= <- <- <-].
  apply frame_set_deferred, pointwise_vec_set; [apply _|apply vec_get_lt in Ed; lia|].
  intros d' Hd'. by assert (d' = d) as -> by congruence.
Qed.

Lemma moves_AddPostLexingRecoveryTokenAsIdentifier t :
  moves frame (AddPostLexingRecoveryTokenAsIdentifier t).
Proof.
  intros c u c' w. unfold AddPostLexingRecoveryTokenAsIdentifier, tokens. run_action.
  destruct (TokenizedBuffer.AddPostLexingRecoveryTokenAsIdentifier _ t)
    as [[r b']|] eqn:E; cbn; [|done].
  intros [= <- <- <-].
  apply TokenizedBuffer.AddPostLexingRecoveryTokenAsIdentifier_extends in E.
  split; cbn; first [lia | reflexivity | done].
Qed.

Lemma moves_skip_loop fuel i : moves frame (skip_loop fuel i).
Proof. induction fuel as [|fuel IH]; cbn [skip_loop]; solve_moves. Qed.

#[export] Hint Resolve moves_ReplacePlaceholderNode moves_ReplaceIntroducerNode
  moves_set_packaging_decl moves_AddImport moves_AddFunctionDefinitionStart
  moves_finish_deferred_definition moves_AddPostLexingRecoveryTokenAsIdentifier
  moves_skip_loop : moves.

(** The loops and the two handlers whose argument matters. *)
Lemma moves_modifier_loop fuel b : moves frame (modifier_loop fuel b).
Proof. revert b. induction fuel as [|fuel IH]; intros b; cbn [modifier_loop]; solve_moves. Qed.

Lemma moves_add_invalid_nodes n : moves frame (add_invalid_nodes n).
Proof. induction n as [|n IH]; cbn [add_invalid_nodes]; solve_moves. Qed.

Lemma moves_add_error_nodes l : moves frame (add_error_nodes l).
Proof. induction l as [|k l IH]; cbn [add_error_nodes]; solve_moves. Qed.

Lemma moves_StartLetElse s k :
  k ∈ [NodeKind.LetIntroducer; NodeKind.VariableIntroducer] →
  moves frame (StartLetElse s k).
Proof. intros Hk. unfold StartLetElse. solve_moves. Qed.

#[export] Hint Resolve moves_modifier_loop moves_add_invalid_nodes moves_add_error_nodes
  : moves.
#[export] Hint Extern 1 (moves frame (StartLetElse _ _)) =>
  apply moves_StartLetElse; rewrite !elem_of_cons; auto : moves.

Lemma moves_FindNextOf a : moves frame (FindNextOf a).
Proof. solve_moves. Qed.
#[export] Hint Resolve moves_FindNextOf : moves.
Lemma moves_SkipMatchingGroup : moves frame SkipMatchingGroup.
Proof. solve_moves. Qed.
#[export] Hint Resolve moves_SkipMatchingGroup : moves.
Lemma moves_SkipPastLikelyEnd a : moves frame (SkipPastLikelyEnd a).
Proof. solve_moves. Qed.
#[export] Hint Resolve moves_SkipPastLikelyEnd : moves.
Lemma moves_ConsumeIf a : moves frame (ConsumeIf a).
Proof. solve_moves. Qed.
#[export] Hint Resolve moves_ConsumeIf : moves.
Lemma moves_ConsumeChecked a : moves frame (ConsumeChecked a).
Proof. solve_moves. Qed.
#[export] Hint Resolve moves_ConsumeChecked : moves.
Lemma moves_PositionKindAhead a : moves frame (PositionKindAhead a).
Proof. solve_moves. Qed.
#[export] Hint Resolve moves_PositionKindAhead : moves.
Lemma moves_PositionIsAhead a b : moves frame (PositionIsAhead a b).
Proof. solve_moves. Qed.
#[export] Hint Resolve moves_PositionIsAhead : moves.
Lemma moves_PositionKind : moves frame PositionKind.
Proof. solve_moves. Qed.
#[export] Hint Resolve moves_PositionKind : moves.
Lemma moves_PositionIs a : moves frame (PositionIs a).
Proof. solve_moves. Qed.
#[export] Hint Resolve moves_PositionIs : moves.
Lemma moves_ConsumeAndAddLeafNodeIf a b : moves frame (ConsumeAndAddLeafNodeIf a b).
Proof. solve_moves. Qed.
#[export] Hint Resolve moves_ConsumeAndAddLeafNodeIf : moves.
Lemma moves_ConsumeAndAddOpen a b c d : moves frame (ConsumeAndAddOpen a b c d).
Proof. solve_moves. Qed.
#[export] Hint Resolve moves_ConsumeAndAddOpen : moves.
Lemma moves_ConsumeAndAddCloseSymbol a b : moves frame (ConsumeAndAddCloseSymbol a b).
Proof. solve_moves. Qed.
#[export] Hint Resolve moves_ConsumeAndAddCloseSymbol : moves.
Lemma moves_IsLexicallyValidInfixOperator : moves frame IsLexicallyValidInfixOperator.
Proof. solve_moves. Qed.
#[export] Hint Resolve moves_IsLexicallyValidInfixOperator : moves.
Lemma moves_IsTrailingOperatorInfix : moves frame IsTrailingOperatorInfix.
Proof. solve_moves. Qed.
#[export] Hint Resolve moves_IsTrailingOperatorInfix : moves.
Lemma moves_DiagnoseOperatorFixity a : moves frame (DiagnoseOperatorFixity a).
Proof. solve_moves. Qed.
#[export] Hint Resolve moves_DiagnoseOperatorFixity : moves.
Lemma moves_PushStateAs a b : moves frame (PushStateAs a b).
Proof. solve_moves. Qed.
#[export] Hint Resolve moves_PushStateAs : moves.
Lemma moves_PushStateAt a b : moves frame (PushStateAt a b).
Proof. solve_moves. Qed.
#[export] Hint Resolve moves_PushStateAt : moves.
Lemma moves_PushStateIn a b c : moves frame (PushStateIn a b c).
Proof. solve_moves. Qed.
#[export] Hint Resolve moves_PushStateIn : moves.
Lemma moves_PushState a : moves frame (PushState a).
Proof. solve_moves. Qed.
#[export] Hint Resolve moves_PushState : moves.
Lemma moves_PushStateForExpr a : moves frame (PushStateForExpr a).
Proof. solve_moves. Qed.
#[export] Hint Resolve moves_PushStateForExpr : moves.
Lemma moves_PushStateForExprLoop a b c : moves frame (PushStateForExprLoop a b c).
Proof. solve_moves. Qed.
#[export] Hint Resolve moves_PushStateForExprLoop : moves.
Lemma moves_PushStateForPattern a b c d e f : moves frame (PushStateForPattern a b c d e f).
Proof. solve_moves. Qed.
#[export] Hint Resolve moves_PushStateForPattern : moves.
Lemma moves_ReturnErrorOnState : moves frame ReturnErrorOnState.
Proof. solve_moves. Qed.
#[export] Hint Resolve moves_ReturnErrorOnState : moves.
Lemma moves_ConsumeListToken a b c : moves frame (ConsumeListToken a b c).
Proof. solve_moves. Qed.
#[export] Hint Resolve moves_ConsumeListToken : moves.
Lemma moves_RecoverFromDeclError a b c : moves frame (RecoverFromDeclError a b c).
Proof. solve_moves. Qed.
#[export] Hint Resolve moves_RecoverFromDeclError : moves.
Lemma moves_AddNodeExpectingDeclSemi a b c d : moves frame (AddNodeExpectingDeclSemi a b c d).
Proof. solve_moves. Qed.
#[export] Hint Resolve moves_AddNodeExpectingDeclSemi : moves.
Lemma moves_ParseLibraryName a : moves frame (ParseLibraryName a).
Proof. solve_moves. Qed.
#[export] Hint Resolve moves_ParseLibraryName : moves.
Lemma moves_ParseLibrarySpecifier a : moves frame (ParseLibrarySpecifier a).
Proof. solve_moves. Qed.
#[export] Hint Resolve moves_ParseLibrarySpecifier : moves.
Lemma moves_AddFunctionDefinition a b : moves frame (AddFunctionDefinition a b).
Proof. solve_moves. Qed.
#[export] Hint Resolve moves_AddFunctionDefinition : moves.
Lemma moves_AddFunctionTerseDefinition a b : moves frame (AddFunctionTerseDefinition a b).
Proof. solve_moves. Qed.
#[export] Hint Resolve moves_AddFunctionTerseDefinition : moves.
Lemma moves_EmitHere a b : moves frame (EmitHere a b).
Proof. solve_moves. Qed.
#[export] Hint Resolve moves_EmitHere : moves.
Lemma moves_AddInvalidParse a : moves frame (AddInvalidParse a).
Proof. solve_moves. Qed.
#[export] Hint Resolve moves_AddInvalidParse : moves.
Lemma moves_AddLeafNode a b : moves frame (AddLeafNode a b).
Proof. solve_moves. Qed.
#[export] Hint Resolve moves_AddLeafNode : moves.
Lemma moves_AddNodeId a b c : moves frame (AddNodeId a b c).
Proof. solve_moves. Qed.
#[export] Hint Resolve moves_AddNodeId : moves.
Lemma moves_AddLeafNodeWithError a b c : moves frame (AddLeafNodeWithError a b c).
Proof. solve_moves. Qed.
#[export] Hint Resolve moves_AddLeafNodeWithError : moves.

Lemma moves_Handle k : moves frame (Handle k).
Proof. destruct k; unfold Handle; solve_moves. Qed.

(** * Whole parses *)

Lemma frame_step c c' w : step c c' w → frame c c'.
Proof. intros [s rest c1 c2 w' _ H]. exact (moves_Handle _ _ _ _ _ H). Qed.

Lemma frame_steps c c' w : steps c c' w → frame c c'.
Proof. induction 1 as [|c1 c2 c3 w1 w2 H%frame_step _ IH]; [reflexivity|by etrans]. Qed.

Lemma moves_parse_start : moves frame parse_start.
Proof. unfold parse_start. solve_moves. Qed.

Lemma moves_state_loop fuel : moves frame (state_loop fuel).
Proof.
  induction fuel as [|fuel IH]; cbn [state_loop]; [apply moves_fail|].
  apply moves_bind; [apply _|apply moves_gets; apply _|]. intros [|s rest].
  - apply moves_ret; apply _.
  - apply moves_bind; [apply _|apply moves_Handle|done].
Qed.

Lemma initial_fields b c :
  initial b = Ok c → tokens_ c = b ∧ state_stack_ c = [] ∧ position_ c = 0 ∧
    end_ c = TokenizedBuffer.tokens_end b - 1 ∧ tree_ c = Tree.empty.
Proof.
  unfold initial. intros H. repeat (apply result_bind_Ok in H as (? & _ & H)).
  by injection H as <-.
Qed.

Lemma reachable_frame b c w :
  reachable b c w → ∃ c0, initial b = Ok c0 ∧ frame c0 c.
Proof.
  intros (c0 & c1 & w0 & w1 & Hi & Hs & Hss & _). exists c0. split; [done|].
  etrans; [by eapply moves_parse_start|by eapply frame_steps].
Qed.

(** C21. What later iterations of a parse cannot do to what earlier ones made:
    the cursor never moves back, no node is removed or changed except a
    placeholder or the introducer of a [let]-[else], imports and deferred
    definitions are only added, the packaging declaration and the first
    non-packaging token are never overwritten, and the lexed tokens stay as
    they were. The state stack stays under its bound. *)
Theorem parse_only_extends b c w c' w' :
  reachable b c w → steps c c' w' →
  frame c c' ∧ TokenizedBuffer.extends b (tokens_ c') ∧
  vec_size (state_stack_ c') < MaxStateStack.
Proof.
  intros (c0 & Hi & H0)%reachable_frame H%frame_steps. split; [done|].
  assert (frame c0 c') as H' by by etrans.
  apply initial_fields in Hi as (<- & E & _). split; [apply H'|].
  apply (frame_stack _ _ H'). by rewrite E.
Qed.

Lemma parse_only_extends_witness :
  frame (context_after 20 sample_function).1 (context_after 30 sample_function).1 ∧
  TokenizedBuffer.extends sample_function (tokens_ (context_after 30 sample_function).1) ∧
  vec_size (state_stack_ (context_after 30 sample_function).1) < MaxStateStack.
Proof.
  eapply parse_only_extends.
  - apply context_after_reachable. vm_compute. reflexivity.
  - apply (iterate_steps 10 _ _ []). vm_compute. reflexivity.
Defined.
