(* ===== verification/Quiet.v ===== *)
(** Two program logics for the handlers of the parser. [returns m Q c] is about
    every run that returns, whatever it emitted, and tracks the shape of the
    state stack, the kind and the [subtree_start] of every state. [quiet m Q c]
    is about the runs that return having emitted no error, and [Quiet] is their
    invariant: the tree has no node in error, no state on the stack has its
    error flag set, and the states that expect an opening bracket hold one.
    Every handler keeps it, by symbolic execution in the logic. *)

From S2P Require Import Prelude TokenKinds StateKinds NodeKinds Tokens Precedence.
From S2P Require Import ParseTree Diagnostics Context HandleExpr HandleExprForms.
From S2P Require Import HandlePattern HandlePatternList HandleLetVar HandleDeclScope.
From S2P Require Import HandleDecl HandleDeclForms HandlePackaging HandleStatement.
From S2P Require Import HandleMatch Parse.

(** Every run of [m] from [c] that returns ends with [Q]. *)
Definition returns {A} (m : M A) (Q : A → Context → Prop) (c : Context) : Prop :=
  wp (λ _, True) m (λ a c' _, Q a c') c.

Lemma returns_ret {A} (a : A) (Q : A → Context → Prop) c : Q a c → returns (mret a) Q c.
Proof. done. Qed.

Lemma returns_bind {A B} (m : M A) (k : A → M B) Q c :
  returns m (λ a, returns (k a) Q) c → returns (m ≫= k) Q c.
Proof.
  intros H. apply wp_bind. eapply wp_mono; [exact H|]. intros a c1 w1 Hk.
  unfold returns, wp in *. by destruct (k a c1) as [[[b c2] w2]|f].
Qed.

Lemma returns_mono {A} (m : M A) (Q Q' : A → Context → Prop) c :
  returns m Q c → (∀ a c', Q a c' → Q' a c') → returns m Q' c.
Proof. intros H HQ. eapply wp_mono; [exact H|]. simpl. auto. Qed.

Lemma returns_fail {A} f (Q : A → Context → Prop) c : returns (action_fail f) Q c.
Proof. done. Qed.

Lemma returns_check b (Q : unit → Context → Prop) c :
  (b = true → Q tt c) → returns (check b) Q c.
Proof. unfold check. destruct b; [|done]. intros H. by apply H. Qed.

Lemma returns_gets {A} (f : Context → A) (Q : A → Context → Prop) c :
  Q (f c) c → returns (gets f) Q c.
Proof. done. Qed.

Lemma returns_modify f (Q : unit → Context → Prop) c : Q tt (f c) → returns (modify f) Q c.
Proof. done. Qed.

Lemma returns_tell d (Q : unit → Context → Prop) c : Q tt c → returns (tell d) Q c.
Proof. done. Qed.

Lemma returns_lift_result {A} (f : Context → Result A) (Q : A → Context → Prop) c :
  (∀ a, f c = Ok a → Q a c) → returns (lift_result f) Q c.
Proof. intros H. unfold returns, wp, lift_result. destruct (f c); [|done]. auto. Qed.

Lemma returns_inv {A} (m : M A) (Q : A → Context → Prop) c a c' w :
  returns m Q c → m c = Ok (a, c', w) → Q a c'.
Proof. apply wp_inv. Qed.

(** One step of the monad's own operations. *)
Ltac returns_step :=
  lazymatch goal with
  | |- returns (mbind _ _) _ _ => apply returns_bind
  | |- returns (mret _) _ _ => apply returns_ret
  | |- returns (gets _) _ _ => apply returns_gets
  | |- returns position _ _ => apply returns_gets
  | |- returns (check _) _ _ => apply returns_check; intros ?
  | |- returns (modify _) _ _ => apply returns_modify
  | |- returns (lift_result _) _ _ => apply returns_lift_result; intros ? ?
  end.

(** * The shape of the state stack *)

Definition shape_of (stack : list State.t) : list (StateKind.t * Z) :=
  (λ s, (State.kind s, State.subtree_start s)) <$> stack.

Definition shape (c : Context) : list (StateKind.t * Z) := shape_of (state_stack_ c).

Lemma returns_PopState Q c :
  (∀ k p rest s c', shape c = (k, p) :: rest → State.kind s = k →
     State.subtree_start s = p → shape c' = rest → tree_ c' = tree_ c → Q s c') →
  returns PopState Q c.
Proof.
  intros HQ. unfold returns, wp, PopState, shape.
  destruct (state_stack_ c) as [|s rest] eqn:E; [done|].
  eapply HQ; unfold shape; by rewrite ?E.
Qed.

Lemma returns_PushStateVal s Q c :
  (∀ c', shape c' = (State.kind s, State.subtree_start s) :: shape c →
     tree_ c' = tree_ c → Q tt c') →
  returns (PushStateVal s) Q c.
Proof.
  intros HQ. unfold PushStateVal.
  apply returns_bind, returns_modify, returns_bind, returns_gets, returns_check.
  intros _. by apply HQ.
Qed.

Lemma returns_modify_top f Q c :
  (∀ s, State.kind (f s) = State.kind s ∧ State.subtree_start (f s) = State.subtree_start s) →
  (∀ c', shape c' = shape c → tree_ c' = tree_ c → Q tt c') →
  returns (modify_top f) Q c.
Proof.
  intros Hf HQ. unfold returns, wp, modify_top.
  destruct (state_stack_ c) as [|s rest] eqn:E; [done|].
  apply HQ; [|done]. unfold shape; rewrite E; cbn. by destruct (Hf s) as [-> ->].
Qed.

(** * The logic *)

(** Every run of [m] from [c] that returns without having emitted an error
    ends with [Q]. *)
Definition quiet {A} (m : M A) (Q : A → Context → Prop) (c : Context) : Prop :=
  wp (λ _, True) m (λ a c' w, seen_error w = false → Q a c') c.

Lemma seen_error_app w1 w2 : seen_error (w1 ++ w2) = seen_error w1 || seen_error w2.
Proof. apply existsb_app. Qed.

Lemma quiet_ret {A} (a : A) (Q : A → Context → Prop) c : Q a c → quiet (mret a) Q c.
Proof. by intros ? _. Qed.

Lemma quiet_bind {A B} (m : M A) (k : A → M B) Q c :
  quiet m (λ a, quiet (k a) Q) c → quiet (m ≫= k) Q c.
Proof.
  intros H. apply wp_bind. eapply wp_mono; [exact H|].
  intros a c1 w1 Hk; simpl in Hk. unfold quiet, wp in *.
  destruct (k a c1) as [[[b c2] w2]|f]; [|done].
  rewrite seen_error_app. intros [? ?]%orb_false_elim. by apply Hk.
Qed.

Lemma quiet_mono {A} (m : M A) (Q Q' : A → Context → Prop) c :
  quiet m Q c → (∀ a c', Q a c' → Q' a c') → quiet m Q' c.
Proof. intros H HQ. eapply wp_mono; [exact H|]. simpl. auto. Qed.

Lemma quiet_any {A} (m : M A) c : quiet m (λ _ _, True) c.
Proof. unfold quiet, wp. by destruct (m c) as [[[??]?]|]. Qed.

Lemma quiet_fail {A} f (Q : A → Context → Prop) c : quiet (action_fail f) Q c.
Proof. done. Qed.

Lemma quiet_check b (Q : unit → Context → Prop) c :
  (b = true → Q tt c) → quiet (check b) Q c.
Proof. unfold check. destruct b; [|done]. intros H _. by apply H. Qed.

Lemma quiet_gets {A} (f : Context → A) (Q : A → Context → Prop) c :
  Q (f c) c → quiet (gets f) Q c.
Proof. by intros ? _. Qed.

Lemma quiet_modify f (Q : unit → Context → Prop) c : Q tt (f c) → quiet (modify f) Q c.
Proof. by intros ? _. Qed.

Lemma quiet_lift_result {A} (f : Context → Result A) (Q : A → Context → Prop) c :
  (∀ a, f c = Ok a → Q a c) → quiet (lift_result f) Q c.
Proof.
  intros H. unfold quiet, wp, lift_result. destruct (f c); [|done]. auto.
Qed.

(** * Actions that always emit an error *)

Definition loud {A} (m : M A) : Prop :=
  ∀ c a c' w, m c = Ok (a, c', w) → seen_error w = true.

Lemma loud_quiet {A} (m : M A) Q c : loud m → quiet m Q c.
Proof.
  intros H. unfold quiet, wp. destruct (m c) as [[[a c'] w]|] eqn:E; [|done].
  apply H in E. congruence.
Qed.

Lemma loud_Emit k t args : DiagnosticLevel k = LevelError → loud (Emit k t args).
Proof. intros H c ? c' w [= <- <- <-]. cbn. by rewrite H. Qed.

Lemma loud_EmitWithNote k t args note nt :
  DiagnosticLevel k = LevelError → loud (EmitWithNote k t args note nt).
Proof. intros H c ? c' w [= <- <- <-]. cbn. by rewrite H. Qed.

Lemma loud_fail {A} f : loud (action_fail f : M A).
Proof. by intros ????. Qed.

Lemma loud_bind_l {A B} (m : M A) (k : A → M B) : loud m → loud (m ≫= k).
Proof.
  intros Hm c b c' w. run_action.
  destruct (m c) as [[[a c1] w1]|] eqn:E1; [|done].
  destruct (k a c1) as [[[b' c2] w2]|] eqn:E2; [|done].
  intros [= <- <- <-]. apply Hm in E1. by rewrite seen_error_app, E1.
Qed.

Lemma loud_bind_r {A B} (m : M A) (k : A → M B) : (∀ a, loud (k a)) → loud (m ≫= k).
Proof.
  intros Hk c b c' w. run_action.
  destruct (m c) as [[[a c1] w1]|] eqn:E1; [|done].
  destruct (k a c1) as [[[b' c2] w2]|] eqn:E2; [|done].
  intros [= <- <- <-]. apply Hk in E2. by rewrite seen_error_app, E2, orb_true_r.
Qed.

(** [solve_loud] finds the error an action is bound to emit. *)
Create HintDb loud.

Ltac action_head m := lazymatch m with ?f _ => action_head f | _ => m end.

Ltac solve_level :=
  first [ reflexivity | assumption
        | unfold missing_constant_name;
          repeat match goal with |- context [if ?x then _ else _] => destruct x end;
          reflexivity ].

Ltac solve_loud :=
  lazymatch goal with
  | |- loud (Emit _ _ _) => apply loud_Emit; solve_level
  | |- loud (EmitWithNote _ _ _ _ _) => apply loud_EmitWithNote; reflexivity
  | |- loud (action_fail _) => apply loud_fail
  | |- loud (mbind _ _) =>
      first [ apply loud_bind_l; solve_loud | apply loud_bind_r; intros ?; solve_loud ]
  | |- loud (if ?b then _ else _) => destruct b; solve_loud
  | |- loud (when true ?m) => change (loud m); solve_loud
  | |- loud (EmitHere _ _) => unfold EmitHere; solve_loud
  | |- loud _ => solve [eauto 2 with loud nocore]
  end.

Lemma loud_DiagnoseExpectedDeclSemi k : loud (DiagnoseExpectedDeclSemi k).
Proof. unfold DiagnoseExpectedDeclSemi. solve_loud. Qed.
Lemma loud_DiagnoseExpectedDeclSemiOrDefinition k :
  loud (DiagnoseExpectedDeclSemiOrDefinition k).
Proof. unfold DiagnoseExpectedDeclSemiOrDefinition. solve_loud. Qed.
Lemma loud_DiagnoseStatementOperatorAsSubExpr : loud DiagnoseStatementOperatorAsSubExpr.
Proof. unfold DiagnoseStatementOperatorAsSubExpr. solve_loud. Qed.
Lemma loud_DiagnoseLetElseUnparenthesizedIfExpr :
  loud DiagnoseLetElseUnparenthesizedIfExpr.
Proof. unfold DiagnoseLetElseUnparenthesizedIfExpr. solve_loud. Qed.
#[export] Hint Resolve loud_DiagnoseExpectedDeclSemi
  loud_DiagnoseExpectedDeclSemiOrDefinition loud_DiagnoseStatementOperatorAsSubExpr
  loud_DiagnoseLetElseUnparenthesizedIfExpr : loud.

(** * The invariant *)

(** The bracket the token of a state must be: a state that closes a bracket
    finds the closing one through it. *)
Definition opener (k : StateKind.t) : option TokenKind.t :=
  match k with
  | StateKind.IndexExpr | StateKind.IndexExprFinish => Some TokenKind.OpenSquareBracket
  | StateKind.ArrayExprComma | StateKind.ArrayExprFinish | StateKind.FormLiteralFinish
  | StateKind.TypeOfExprFinish | StateKind.ParenConditionFinishAsIf
  | StateKind.ParenConditionFinishAsWhile | StateKind.ParenConditionFinishAsMatch
  | StateKind.StatementForHeaderIn | StateKind.StatementForHeaderFinish =>
      Some TokenKind.OpenParen
  | StateKind.CodeBlockFinish => Some TokenKind.OpenCurlyBrace
  | _ => None
  end.

Definition state_quiet (b : TokenizedBuffer.t) (s : State.t) : Prop :=
  State.has_error s = false ∧
  ∀ k, opener (State.kind s) = Some k → TokenizedBuffer.GetKind b (State.token s) = Ok k.

(** The middle states of an [if] expression are on top of its [IfExprFinish],
    which the last of them updates. *)
Definition is_if_part (k : StateKind.t) : bool :=
  match k with
  | StateKind.IfExprFinishCondition | StateKind.IfExprFinishThen
  | StateKind.IfExprFinishElse => true
  | _ => false
  end.

Definition top_is (k : StateKind.t) (stack : list State.t) : Prop :=
  match stack with s :: _ => State.kind s = k | [] => False end.

Fixpoint if_stack (stack : list State.t) : Prop :=
  match stack with
  | [] => True
  | s :: rest =>
      (is_if_part (State.kind s) = true → top_is StateKind.IfExprFinish rest) ∧
      if_stack rest
  end.

Record Quiet (b : TokenizedBuffer.t) (c : Context) : Prop := {
  quiet_buffer : tokens_ c = b;
  quiet_nodes : Forall (λ n, NodeImpl.has_error n = false) (Tree.node_impls (tree_ c));
  quiet_states : Forall (state_quiet b) (state_stack_ c);
  quiet_if : if_stack (state_stack_ c);
  quiet_packaging : packaging_state_ c ≠ InImportsAfterNonPackagingDecl;
}.

(** The kind of the top state, while a handler has not popped it. *)
Definition top_kind (k : StateKind.t) (c : Context) : Prop :=
  ∀ s rest, state_stack_ c = s :: rest → State.kind s = k.

Section primitives.
Context (b : TokenizedBuffer.t).

Lemma Quiet_cursor c c' :
  tokens_ c' = tokens_ c → tree_ c' = tree_ c → state_stack_ c' = state_stack_ c →
  packaging_state_ c' = packaging_state_ c → Quiet b c → Quiet b c'.
Proof. intros Ht Hr Hs Hp [? ? ? ? ?]. split; congruence. Qed.

Lemma Quiet_tree c tr :
  Forall (λ n, NodeImpl.has_error n = false) (Tree.node_impls tr) →
  Quiet b c → Quiet b (set_tree tr c).
Proof. intros H [? ? ? ? ?]. by split. Qed.

Lemma quiet_PopState Q c :
  Quiet b c →
  (∀ s c', Quiet b c' → State.has_error s = false →
     (∀ k, top_kind k c → State.kind s = k) →
     (∀ o, opener (State.kind s) = Some o →
        TokenizedBuffer.GetKind b (State.token s) = Ok o) →
     (is_if_part (State.kind s) = true →
        top_is StateKind.IfExprFinish (state_stack_ c')) →
     Q s c') →
  quiet PopState Q c.
Proof.
  intros [Hb Hn Hs Hi Hp] HQ. unfold quiet, wp, PopState.
  destruct (state_stack_ c) as [|s rest] eqn:E; [done|]. intros _.
  apply Forall_cons in Hs as [[He Ho] Hs]. destruct Hi as [Hif Hi].
  apply HQ; [by split|done| |done|done]. intros k Hk. by apply (Hk s rest).
Qed.

Lemma quiet_PushStateVal s Q c :
  Quiet b c → state_quiet b s →
  (is_if_part (State.kind s) = true → top_is StateKind.IfExprFinish (state_stack_ c)) →
  (∀ c', Quiet b c' → top_is (State.kind s) (state_stack_ c') → Q tt c') →
  quiet (PushStateVal s) Q c.
Proof.
  intros [Hb Hn Hs Hi Hp] Hq Hif HQ. unfold PushStateVal.
  apply quiet_bind, quiet_modify, quiet_bind, quiet_gets, quiet_check. intros _.
  apply HQ; [|done]. split; cbn; [done|done|by constructor|done|done].
Qed.

(** The version that keeps track of the stack. *)
Lemma quiet_AddNode_stack k t Q c :
  Quiet b c → (∀ c', Quiet b c' → state_stack_ c' = state_stack_ c → Q tt c') →
  quiet (AddNode k t false) Q c.
Proof.
  intros Hc HQ. unfold AddNode.
  apply quiet_bind, quiet_check; intros _. apply quiet_bind, quiet_lift_result.
  intros i [_ Hi]%NodeImpl.make_fields. apply quiet_modify, HQ; [|done].
  apply Quiet_tree; [|done]. apply Forall_app. split; [apply Hc|]. by constructor.
Qed.

Lemma quiet_AddNode k t Q c :
  Quiet b c → (∀ c', Quiet b c' → Q tt c') → quiet (AddNode k t false) Q c.
Proof. intros Hc HQ. apply quiet_AddNode_stack; auto. Qed.

Lemma quiet_set_in_field_shorthand_pattern e Q c :
  Quiet b c → (∀ c', Quiet b c' → Q tt c') →
  quiet (modify_top (State.set_in_field_shorthand_pattern e)) Q c.
Proof.
  intros [Hb Hn Hs Hi Hp] HQ. unfold quiet, wp, modify_top.
  destruct (state_stack_ c) as [|s rest]; [done|]. intros _. apply HQ.
  apply Forall_cons in Hs as [? Hs]. by split; cbn; [..|constructor| |].
Qed.

Lemma quiet_ReplacePlaceholderNode n k t Q c :
  Quiet b c → (∀ c', Quiet b c' → Q tt c') →
  quiet (ReplacePlaceholderNode n k t false) Q c.
Proof.
  intros Hc HQ. unfold ReplacePlaceholderNode.
  apply quiet_bind, quiet_check; intros _. apply quiet_bind, quiet_gets.
  apply quiet_bind, quiet_check; intros _. apply quiet_bind, quiet_lift_result.
  intros old _. apply quiet_bind, quiet_check; intros _.
  apply quiet_bind, quiet_lift_result. intros i [_ Hi]%NodeImpl.make_fields.
  apply quiet_modify, HQ, Quiet_tree; [|done].
  by apply Forall_insert; [apply Hc|].
Qed.

Lemma quiet_ReplaceIntroducerNode n k k' Q c :
  Quiet b c → (∀ c', Quiet b c' → Q tt c') → quiet (ReplaceIntroducerNode n k k') Q c.
Proof.
  intros Hc HQ. unfold ReplaceIntroducerNode.
  apply quiet_bind, quiet_gets, quiet_bind, quiet_check; intros _.
  apply quiet_bind, quiet_lift_result; intros old _.
  apply quiet_bind, quiet_check; intros _.
  apply quiet_bind, quiet_lift_result; intros e He.
  apply quiet_bind, quiet_lift_result; intros t _.
  apply quiet_bind, quiet_lift_result. intros i [_ Hi]%NodeImpl.make_fields.
  apply quiet_modify, HQ, Quiet_tree; [|done].
  apply Forall_insert; [apply Hc|]. rewrite Hi.
  apply result_bind_Ok in He as (old' & Ho & [= <-]).
  apply vec_get_Ok in Ho as [_ Ho]. exact (proj1 (Forall_lookup _ _) (quiet_nodes _ _ Hc) _ _ Ho).
Qed.

Lemma quiet_Consume Q c :
  Quiet b c → (∀ c', Quiet b c' → Q (position_ c) c') → quiet Consume Q c.
Proof. intros Hc HQ _. apply HQ. eapply Quiet_cursor; [..|exact Hc]; done. Qed.

Lemma quiet_ConsumeAndDiscard Q c :
  Quiet b c → (∀ c', Quiet b c' → Q tt c') → quiet ConsumeAndDiscard Q c.
Proof. intros Hc HQ _. apply HQ. eapply Quiet_cursor; [..|exact Hc]; done. Qed.

Lemma quiet_GetKind t Q c :
  Quiet b c → (∀ k, TokenizedBuffer.GetKind b t = Ok k → Q k c) → quiet (GetKind t) Q c.
Proof.
  intros Hc HQ. apply quiet_lift_result. intros k Hk. apply HQ.
  by rewrite <- (quiet_buffer _ _ Hc).
Qed.

Lemma quiet_PositionKindAhead n Q c :
  Quiet b c → (∀ k, TokenizedBuffer.GetKind b (position_ c + n) = Ok k → Q k c) →
  quiet (PositionKindAhead n) Q c.
Proof. intros Hc HQ. apply quiet_bind, quiet_gets. by apply quiet_GetKind. Qed.

Lemma quiet_PositionKind Q c :
  Quiet b c → (∀ k, TokenizedBuffer.GetKind b (position_ c) = Ok k → Q k c) →
  quiet PositionKind Q c.
Proof.
  intros Hc HQ. apply quiet_PositionKindAhead; [done|]. intros k.
  rewrite Z.add_0_r. apply HQ.
Qed.

Lemma quiet_PositionIsAhead k n Q c :
  Quiet b c → (∀ r, Q r c) → quiet (PositionIsAhead k n) Q c.
Proof.
  intros Hc HQ. apply quiet_bind, quiet_PositionKindAhead; [done|]. intros k' _.
  by apply quiet_ret.
Qed.

Lemma quiet_PositionIs k Q c :
  Quiet b c →
  (TokenizedBuffer.GetKind b (position_ c) = Ok k → Q true c) →
  (TokenizedBuffer.GetKind b (position_ c) ≠ Ok k → Q false c) →
  quiet (PositionIs k) Q c.
Proof.
  intros Hc H1 H2. apply quiet_bind, quiet_PositionKindAhead; [done|]. intros k'.
  rewrite Z.add_0_r. intros Hk. apply quiet_ret.
  destruct (TokenKind.token_eqb_spec k' k) as [->|Hne]; [by apply H1|]. apply H2. congruence.
Qed.

Lemma quiet_ConsumeIf k Q c :
  Quiet b c →
  (∀ c', Quiet b c' → TokenizedBuffer.GetKind b (position_ c) = Ok k →
     Q (Some (position_ c)) c') →
  (TokenizedBuffer.GetKind b (position_ c) ≠ Ok k → Q None c) →
  quiet (ConsumeIf k) Q c.
Proof.
  intros Hc H1 H2. apply quiet_bind, quiet_PositionIs; [done| |].
  - intros Hk. apply quiet_bind, quiet_Consume; [done|]. intros c' Hc'.
    by apply quiet_ret, H1.
  - intros Hk. by apply quiet_ret, H2.
Qed.

Lemma quiet_ConsumeChecked k Q c :
  Quiet b c →
  (∀ c', Quiet b c' → TokenizedBuffer.GetKind b (position_ c) = Ok k →
     Q (position_ c) c') →
  quiet (ConsumeChecked k) Q c.
Proof.
  intros Hc H. apply quiet_bind, quiet_PositionIs; [done| |]; intros Hk.
  - apply quiet_bind, quiet_check; intros _. apply quiet_Consume; auto.
  - by apply quiet_bind, quiet_check.
Qed.

Lemma quiet_SkipTo t Q c :
  Quiet b c → (∀ c', Quiet b c' → Q tt c') → quiet (SkipTo t) Q c.
Proof.
  intros Hc HQ. apply quiet_bind, quiet_gets, quiet_bind, quiet_check; intros _.
  apply quiet_bind, quiet_modify, quiet_bind, quiet_gets, quiet_check; intros _.
  apply HQ. eapply Quiet_cursor; [..|exact Hc]; done.
Qed.

Lemma quiet_set_packaging_state ps Q c :
  Quiet b c → ps ≠ InImportsAfterNonPackagingDecl → (∀ c', Quiet b c' → Q tt c') →
  quiet (set_packaging_state ps) Q c.
Proof. intros [? ? ? ? ?] Hps HQ. apply quiet_modify, HQ. by split. Qed.

Lemma quiet_set_first_non_packaging_token t Q c :
  Quiet b c → (∀ c', Quiet b c' → Q tt c') →
  quiet (set_first_non_packaging_token t) Q c.
Proof.
  intros Hc HQ. apply quiet_bind, quiet_gets, quiet_bind, quiet_check; intros _.
  apply quiet_modify, HQ. eapply Quiet_cursor; [..|exact Hc]; done.
Qed.

(** Updates of the tree beside its nodes. *)
Lemma quiet_set_packaging_decl names is_impl Q c :
  Quiet b c → (∀ c', Quiet b c' → Q tt c') →
  quiet (set_packaging_decl names is_impl) Q c.
Proof.
  intros Hc HQ. apply quiet_bind, quiet_gets, quiet_bind, quiet_check; intros _.
  apply quiet_modify, HQ, Quiet_tree; [apply Hc|done].
Qed.

Lemma quiet_AddImport names Q c :
  Quiet b c → (∀ c', Quiet b c' → Q tt c') → quiet (AddImport names) Q c.
Proof.
  intros Hc HQ. apply quiet_bind, quiet_gets, quiet_modify, HQ, Quiet_tree;
    [apply Hc|done].
Qed.

Lemma quiet_AddNodeId k t Q c :
  Quiet b c → (∀ n c', Quiet b c' → Q n c') → quiet (AddNodeId k t false) Q c.
Proof.
  intros Hc HQ. apply quiet_bind, quiet_AddNode; [done|]. intros c' Hc'.
  apply quiet_bind, quiet_gets, quiet_ret. by apply HQ.
Qed.

Lemma quiet_AddFunctionDefinitionStart t Q c :
  Quiet b c → (∀ c', Quiet b c' → Q tt c') →
  quiet (AddFunctionDefinitionStart t false) Q c.
Proof.
  intros Hc HQ. apply quiet_bind, quiet_AddNodeId; [done|]. intros n c1 H1.
  apply quiet_bind, quiet_bind, quiet_gets, quiet_ret.
  destruct (match state_stack_ c1 with [] => _ | _ => _ end); [|by apply quiet_ret, HQ].
  apply quiet_bind, quiet_gets, quiet_bind, quiet_modify, quiet_modify, HQ.
  eapply Quiet_cursor, Quiet_tree, H1; [done..|]. apply H1.
Qed.

Lemma quiet_finish_deferred_definition n Q c :
  Quiet b c → (∀ c', Quiet b c' → Q tt c') →
  quiet (finish_deferred_definition n) Q c.
Proof.
  intros Hc HQ. apply quiet_bind, quiet_bind, quiet_gets, quiet_ret.
  destruct (match state_stack_ c with [] => _ | _ => _ end); [|by apply quiet_ret, HQ].
  apply quiet_bind. unfold quiet at 1, wp, PopDeferredDefinition.
  destruct (deferred_definition_stack_ c); [done|]. intros _.
  apply quiet_bind, quiet_gets, quiet_bind, quiet_lift_result. intros d _.
  apply quiet_modify, HQ, Quiet_tree; [apply Hc|]. eapply Quiet_cursor; [..|exact Hc]; done.
Qed.
End primitives.

(** Reduces the accessors of states and uses what is known of error flags. *)
Ltac quiet_simpl :=
  cbn [State.has_error State.kind State.token State.subtree_start State.set_kind
       State.set_token State.set_has_error State.set_lhs_precedence
       State.set_in_field_shorthand_pattern State.default fst snd negb andb orb
       Tree.is_export initial_names is_some note_open use_open_paren
       nested_in_shorthand_diagnostic when];
  repeat match goal with
  | H : State.has_error ?s = false |- context [State.has_error ?s] => rewrite H
  end;
  repeat match goal with
  | H : State.kind ?s = ?k |- context [State.kind ?s] => rewrite H
  end;
  repeat match goal with
  | H1 : TokenizedBuffer.GetKind ?b ?t = Ok ?k1,
    H2 : TokenizedBuffer.GetKind ?b ?t = Ok ?k2 |- _ =>
      rewrite H1 in H2; injection H2 as H2; subst
  end;
  cbn [negb andb orb when].

(** A state that needs nothing below it or of its token. *)
Definition plain (k : StateKind.t) : bool :=
  match opener k with Some _ => false | None => negb (is_if_part k) end.

Lemma plain_opener k : plain k = true → opener k = None.
Proof. unfold plain. by destruct (opener k). Qed.
Lemma plain_if_part k : plain k = true → is_if_part k = false.
Proof. unfold plain. destruct (opener k); [done|]. by destruct (is_if_part k). Qed.

(** The states chosen by token kind are plain. *)
Lemma introducer_plain k c : plain (DeclIntroducerInfo.state_kind (DeclIntroducers k c)) = true.
Proof. destruct c, k; reflexivity. Qed.
Lemma primary_substate_plain k sk : primary_substate k = Some sk → plain sk = true.
Proof. destruct k; by intros [= <-]. Qed.
Lemma pattern_introducer_plain k sk : pattern_introducer_state k = Some sk → plain sk = true.
Proof. destruct k; by intros [= <-]. Qed.
Lemma statement_state_plain k sk : statement_state k = Some sk → plain sk = true.
Proof. destruct k; by intros [= <-]. Qed.

Ltac find_plain :=
  match goal with
  | H : primary_substate _ = Some _ |- _ => apply primary_substate_plain in H
  | H : pattern_introducer_state _ = Some _ |- _ => apply pattern_introducer_plain in H
  | H : statement_state _ = Some _ |- _ => apply statement_state_plain in H
  end.

Ltac solve_state_quiet :=
  split; quiet_simpl; [first [reflexivity | assumption]|];
  intros ? ?;
  repeat match goal with H : opener (if ?x then _ else _) = _ |- _ => destruct x end;
  try find_plain;
  match goal with
  | H : plain ?k = true, Ho : opener ?k = Some _ |- _ =>
      by rewrite (plain_opener k H) in Ho
  | H : opener (DeclIntroducerInfo.state_kind (DeclIntroducers ?k ?c)) = Some _ |- _ =>
      by rewrite (plain_opener _ (introducer_plain k c)) in H
  | _ => cbn [opener] in *; simplify_eq; eauto
  end.

Ltac solve_if_part :=
  quiet_simpl;
  repeat match goal with |- context [if ?x then _ else _] => destruct x end;
  try find_plain;
  try match goal with
      | H : plain ?k = true |- _ => rewrite (plain_if_part k H)
      | |- context [DeclIntroducers ?k ?c] =>
          rewrite (plain_if_part _ (introducer_plain k c))
      end;
  cbn [is_if_part]; first [done | assumption | by auto].

(** What is known of a popped state: its kind, when the handler is the one of
    the top state, and through it its token. *)
Ltac quiet_popped Hk Ho Hi :=
  first
    [ match goal with
      | Ht : top_kind ?k ?c |- _ => specialize (Hk k Ht)
      end;
      rewrite Hk in Ho, Hi; cbn [is_if_part opener] in Ho, Hi;
      first [specialize (Ho _ eq_refl) | clear Ho];
      first [specialize (Hi eq_refl) | clear Hi]
    | clear Hk Ho Hi ].

Create HintDb quiet.

(** One step of an action in a context known to be quiet. *)
Ltac quiet_step :=
  quiet_simpl;
  lazymatch goal with
  | |- ∀ _, _ => intros ?
  | |- quiet (mret _) _ _ => apply quiet_ret
  | |- quiet (action_fail _) _ _ => apply quiet_fail
  | |- quiet (mbind _ _) _ _ =>
      first [ solve [apply loud_quiet; solve_loud] | apply quiet_bind ]
  | |- quiet (Emit _ _ _) _ _ => apply loud_quiet; solve_loud
  | |- quiet (EmitHere _ _) _ _ => apply loud_quiet; solve_loud
  | |- quiet (EmitWithNote _ _ _ _ _) _ _ => apply loud_quiet; solve_loud
  | |- quiet (gets _) _ _ => apply quiet_gets
  | |- quiet (check _) _ _ => apply quiet_check; intros ?
  | |- quiet (lift_result _) _ _ => apply quiet_lift_result; intros ? ?
  | |- quiet PopState _ _ =>
      eapply quiet_PopState; [eassumption|];
      let Hk := fresh "Hk" in let Ho := fresh "Ho" in let Hi := fresh "Hi" in
      intros ? ? ? ? Hk Ho Hi; quiet_popped Hk Ho Hi
  | |- quiet (PushStateVal _) _ _ =>
      eapply quiet_PushStateVal;
        [eassumption|solve_state_quiet|solve_if_part|intros ? ? ?]
  | |- quiet (AddNode NodeKind.InvalidParse _ false) _ _ => done
  | |- quiet (AddNode _ _ false) _ _ => eapply quiet_AddNode; [eassumption|]
  | |- quiet (AddNodeId _ _ false) _ _ => eapply quiet_AddNodeId; [eassumption|]
  | |- quiet (ReplacePlaceholderNode _ _ _ false) _ _ =>
      eapply quiet_ReplacePlaceholderNode; [eassumption|]
  | |- quiet (ReplaceIntroducerNode _ _ _) _ _ =>
      eapply quiet_ReplaceIntroducerNode; [eassumption|]
  | |- quiet (modify_top (State.set_in_field_shorthand_pattern _)) _ _ =>
      eapply quiet_set_in_field_shorthand_pattern; [eassumption|]
  | |- quiet Consume _ _ => eapply quiet_Consume; [eassumption|]
  | |- quiet ConsumeAndDiscard _ _ => eapply quiet_ConsumeAndDiscard; [eassumption|]
  | |- quiet (GetKind _) _ _ => eapply quiet_GetKind; [eassumption|]
  | |- quiet PositionKind _ _ => eapply quiet_PositionKind; [eassumption|]
  | |- quiet (PositionKindAhead _) _ _ => eapply quiet_PositionKindAhead; [eassumption|]
  | |- quiet (PositionIs _) _ _ => eapply quiet_PositionIs; [eassumption|..]
  | |- quiet (PositionIsAhead _ _) _ _ => eapply quiet_PositionIsAhead; [eassumption|]
  | |- quiet (ConsumeIf _) _ _ => eapply quiet_ConsumeIf; [eassumption|..]
  | |- quiet (ConsumeChecked _) _ _ => eapply quiet_ConsumeChecked; [eassumption|]
  | |- quiet (SkipTo _) _ _ => eapply quiet_SkipTo; [eassumption|]
  | |- quiet (set_packaging_state _) _ _ =>
      eapply quiet_set_packaging_state; [eassumption|done|]
  | |- quiet (set_first_non_packaging_token _) _ _ =>
      eapply quiet_set_first_non_packaging_token; [eassumption|]
  | |- quiet (set_packaging_decl _ _) _ _ =>
      eapply quiet_set_packaging_decl; [eassumption|]
  | |- quiet (AddImport _) _ _ => eapply quiet_AddImport; [eassumption|]
  | |- quiet (AddFunctionDefinitionStart _ false) _ _ =>
      eapply quiet_AddFunctionDefinitionStart; [eassumption|]
  | |- quiet (finish_deferred_definition _) _ _ =>
      eapply quiet_finish_deferred_definition; [eassumption|]
  | |- quiet (match ?x with _ => _ end) _ _ => first [is_var x; destruct x | destruct x eqn:?; try discriminate]
  | |- quiet ?m _ _ =>
      first [ solve [apply loud_quiet; solve_loud]
            | eapply quiet_mono; [solve [eauto 3 with quiet]|]
            | let h := action_head m in progress (unfold h) ]
  end.
Ltac solve_quiet := repeat quiet_step; try eassumption; try done.

(** [keeps m]: a quiet run of [m] keeps the invariant. *)
Abbreviation keeps b m := (∀ c, Quiet b c → quiet m (λ _, Quiet b) c).

Section handlers.
Context (b : TokenizedBuffer.t).

Lemma keeps_ConsumeListToken nk tk :
  NodeKind.eqb nk NodeKind.InvalidParse = false → keeps b (ConsumeListToken nk tk false).
Proof. intros Hn c Hc. unfold ConsumeListToken. rewrite Hn. solve_quiet. Qed.

(** An opened bracket is the token the caller keeps. *)
Lemma quiet_ConsumeAndAddOpen open diag t nk Q c :
  DiagnosticLevel diag = LevelError → Quiet b c →
  (∀ o c', Quiet b c' → TokenizedBuffer.GetKind b o = Ok open → Q (Some o) c') →
  quiet (ConsumeAndAddOpen open diag t nk) Q c.
Proof. intros Hd Hc HQ. unfold ConsumeAndAddOpen. solve_quiet. by apply HQ. Qed.

Lemma quiet_ConsumeAndAddOpenParen t nk Q c :
  Quiet b c →
  (∀ o c', Quiet b c' → TokenizedBuffer.GetKind b o = Ok TokenKind.OpenParen →
     Q (Some o) c') →
  quiet (ConsumeAndAddOpenParen t nk) Q c.
Proof. by apply quiet_ConsumeAndAddOpen. Qed.

Lemma keeps_ConsumeAndAddCloseSymbol s nk o :
  State.has_error s = false → TokenizedBuffer.GetKind b (State.token s) = Ok o →
  TokenKind.is_opening_symbol o = true → keeps b (ConsumeAndAddCloseSymbol s nk).
Proof.
  intros He Ht Ho c Hc. unfold ConsumeAndAddCloseSymbol.
  apply quiet_bind; eapply quiet_GetKind; [done|]. intros k Hk.
  assert (k = o) as -> by congruence. rewrite Ho. solve_quiet.
Qed.

Lemma keeps_SkipMatchingGroup : keeps b SkipMatchingGroup.
Proof. intros c Hc. solve_quiet. Qed.

Lemma keeps_IsLexicallyValidInfixOperator : keeps b IsLexicallyValidInfixOperator.
Proof. intros c Hc. solve_quiet. Qed.

#[local] Hint Resolve keeps_IsLexicallyValidInfixOperator : quiet.

Lemma keeps_IsTrailingOperatorInfix : keeps b IsTrailingOperatorInfix.
Proof.
  intros c Hc. unfold IsTrailingOperatorInfix.
  solve_quiet.
Qed.

Lemma keeps_DiagnoseOperatorFixity f : keeps b (DiagnoseOperatorFixity f).
Proof.
  intros c Hc. unfold DiagnoseOperatorFixity.
  solve_quiet.
Qed.

Lemma keeps_AddNodeExpectingDeclSemi s nk tk d :
  State.has_error s = false → keeps b (AddNodeExpectingDeclSemi s nk tk d).
Proof. intros He c Hc. unfold AddNodeExpectingDeclSemi. solve_quiet. Qed.

Lemma quiet_ParseLibraryName d Q c :
  Quiet b c → (∀ id c', Quiet b c' → Q (Some id) c') → quiet (ParseLibraryName d) Q c.
Proof. intros Hc HQ. unfold ParseLibraryName. solve_quiet; by apply HQ. Qed.

Lemma quiet_ParseLibrarySpecifier d Q c :
  Quiet b c → (∀ id c', Quiet b c' → Q (Some id) c') →
  quiet (ParseLibrarySpecifier d) Q c.
Proof.
  intros Hc HQ. unfold ParseLibrarySpecifier. do 2 quiet_step. intros c1 H1 _.
  apply quiet_bind, quiet_ParseLibraryName; [done|]. intros id c2 H2.
  solve_quiet. by apply HQ.
Qed.

Lemma keeps_AddFunctionDefinition t : keeps b (AddFunctionDefinition t false).
Proof. intros c Hc. unfold AddFunctionDefinition. solve_quiet. Qed.
Lemma keeps_AddFunctionTerseDefinition t : keeps b (AddFunctionTerseDefinition t false).
Proof. intros c Hc. unfold AddFunctionTerseDefinition. solve_quiet. Qed.

Hint Resolve keeps_ConsumeListToken keeps_SkipMatchingGroup keeps_ConsumeAndAddCloseSymbol
  keeps_IsTrailingOperatorInfix keeps_DiagnoseOperatorFixity
  keeps_AddNodeExpectingDeclSemi keeps_AddFunctionDefinition
  keeps_AddFunctionTerseDefinition : quiet.

(** Modifiers. *)
Lemma keeps_TryHandleAsModifier : keeps b TryHandleAsModifier.
Proof.
  intros c Hc. unfold TryHandleAsModifier, HandleExternModifier.
  solve_quiet; eapply quiet_ParseLibrarySpecifier; solve_quiet.
Qed.

Lemma keeps_modifier_loop fuel saw : keeps b (modifier_loop fuel saw).
Proof.
  revert saw. induction fuel as [|fuel IH]; intros saw c Hc; cbn [modifier_loop]; [done|].
  apply quiet_bind. eapply quiet_mono; [by apply keeps_TryHandleAsModifier|].
  intros [] c' Hc'; [by apply IH|]. by apply quiet_ret.
Qed.

(** Binding patterns, part by part. *)
Lemma loud_binding_on_error s n r :
  State.has_error s = false → loud (binding_on_error s n r).
Proof. intros He. unfold binding_on_error. rewrite He. solve_loud. Qed.
Hint Resolve loud_binding_on_error : loud.

Lemma quiet_parse_binding_modifiers s Q c :
  Quiet b c → State.has_error s = false → (∀ m c', Quiet b c' → Q (s, m) c') →
  quiet (parse_binding_modifiers s) Q c.
Proof.
  intros Hc He HQ. unfold parse_binding_modifiers.
  repeat first [by apply HQ | quiet_step].
Qed.

Lemma quiet_parse_binding_name s Q c :
  Quiet b c → State.has_error s = false → (∀ o i c', Quiet b c' → Q (s, o, i) c') →
  quiet (parse_binding_name s) Q c.
Proof.
  intros Hc He HQ. unfold parse_binding_name.
  repeat first [by apply HQ | quiet_step].
Qed.

Lemma quiet_wrap_each_name s t i Q c :
  Quiet b c → State.has_error s = false → (∀ c', Quiet b c' → Q s c') →
  quiet (wrap_each_name s t i) Q c.
Proof.
  intros Hc He HQ. unfold wrap_each_name.
  repeat first [by apply HQ | quiet_step].
Qed.

Lemma quiet_wrap_or_diagnose s t a nk d Q c :
  Quiet b c → State.has_error s = false → DiagnosticLevel d = LevelError →
  (∀ c', Quiet b c' → Q s c') → quiet (wrap_or_diagnose s t a nk d) Q c.
Proof.
  intros Hc He Hd HQ. unfold wrap_or_diagnose.
  repeat first [by apply HQ | quiet_step].
Qed.

Lemma quiet_ResolveBindingPhase s f t g r Q c :
  Quiet b c → State.has_error s = false → (∀ p c', Quiet b c' → Q p c') →
  quiet (ResolveBindingPhase s f t g r) Q c.
Proof.
  intros Hc He HQ. unfold ResolveBindingPhase.
  repeat first [by apply HQ | quiet_step].
Qed.

Lemma keeps_finish_typed_binding s m self k :
  State.has_error s = false → keeps b (finish_typed_binding s m self k).
Proof.
  intros He c Hc. unfold finish_typed_binding.
  apply quiet_bind, quiet_ResolveBindingPhase; [done..|]. intros [g r] c1 H1.
  apply quiet_bind, quiet_wrap_or_diagnose; [done..|]. intros c2 H2.
  apply quiet_bind, quiet_wrap_or_diagnose; [done..|]. intros c3 H3.
  solve_quiet.
Qed.

Lemma keeps_finish_untyped_binding s m self :
  State.has_error s = false → keeps b (finish_untyped_binding s m self).
Proof. intros He c Hc. unfold finish_untyped_binding. solve_quiet. Qed.

Lemma keeps_HandleBindingPattern : keeps b HandleBindingPattern.
Proof.
  intros c Hc. unfold HandleBindingPattern.
  apply quiet_bind; eapply quiet_PopState; [done|]. intros s c0 H0 He _ _ _.
  apply quiet_bind, quiet_parse_binding_modifiers; [done..|]. intros m c1 H1.
  apply quiet_bind, quiet_parse_binding_name; [done..|]. intros o i c2 H2.
  apply quiet_bind, quiet_wrap_each_name; [done..|]. intros c3 H3.
  quiet_step. quiet_step. intros k _. cbn [fst snd].
  destruct (negb _); [by apply keeps_finish_untyped_binding|].
  by apply keeps_finish_typed_binding.
Qed.
Hint Resolve keeps_HandleBindingPattern : quiet.

(** Packaging declarations. *)
Lemma quiet_parse_package_part K s names oe Q c :
  Quiet b c → State.has_error s = false → (∀ n c', Quiet b c' → Q (Some (s, n)) c') →
  quiet (parse_package_part K s names oe) Q c.
Proof.
  intros Hc He HQ. unfold parse_package_part, parse_package_name.
  repeat first [by apply HQ | quiet_step].
Qed.

Lemma quiet_parse_library_part K names oe Q c :
  Quiet b c → (∀ n c', Quiet b c' → Q (Some n) c') →
  quiet (parse_library_part K names oe) Q c.
Proof.
  intros Hc HQ. unfold parse_library_part, parse_inline_body.
  repeat first
    [ by apply HQ
    | eapply quiet_ParseLibraryName; [eassumption|]
    | eapply quiet_ParseLibrarySpecifier; [eassumption|]
    | quiet_step ].
Qed.

Lemma keeps_HandleDeclContent K s e i oe :
  State.has_error s = false → keeps b (HandleDeclContent K s e i oe).
Proof.
  intros He c Hc. unfold HandleDeclContent.
  apply quiet_bind, quiet_parse_package_part; [done..|]. intros n c1 H1.
  apply quiet_bind, quiet_parse_library_part; [done..|]. intros n' c2 H2.
  unfold finish_packaging_decl. solve_quiet.
Qed.
Hint Resolve keeps_HandleDeclContent : quiet.
End handlers.

#[local] Hint Resolve keeps_ConsumeListToken keeps_SkipMatchingGroup
  keeps_ConsumeAndAddCloseSymbol keeps_IsTrailingOperatorInfix
  keeps_DiagnoseOperatorFixity keeps_AddNodeExpectingDeclSemi
  keeps_AddFunctionDefinition keeps_AddFunctionTerseDefinition
  keeps_HandleBindingPattern keeps_HandleDeclContent keeps_modifier_loop : quiet.
#[local] Hint Resolve loud_binding_on_error : loud.

Ltac quiet_step' :=
  first [ eapply quiet_ConsumeAndAddOpenParen; [eassumption|] | quiet_step ].
Ltac solve_quiet' := repeat quiet_step'; try eassumption; eauto.

(** Runs up to the token kind a handler branches on. *)
Ltac quiet_to_kind :=
  repeat lazymatch goal with
         | |- ∀ _ : TokenKind.t, _ => fail
         | _ => quiet_step
         end.

Lemma keeps_HandlePatternListElement b p f e :
  plain p = true → plain f = true → keeps b (HandlePatternListElement p f e).
Proof.
  intros Hp Hf c Hc. unfold HandlePatternListElement, PushStateForPatternLike.
  solve_quiet'.
Qed.

Lemma keeps_apply_trailing_operator b s k op :
  State.has_error s = false → plain (State.kind s) = true →
  keeps b (apply_trailing_operator s k op).
Proof. intros He Hp c Hc. unfold apply_trailing_operator. solve_quiet'. Qed.
#[local] Hint Resolve keeps_HandlePatternListElement keeps_apply_trailing_operator : quiet.
#[local] Hint Extern 1 (plain _ = true) => quiet_simpl; reflexivity : quiet.

(** * The handlers that need a reason of their own *)
Section special.
Context (b : TokenizedBuffer.t).
Hypothesis no_error_tokens :
  ∀ t k, TokenizedBuffer.GetKind b t = Ok k → k ≠ TokenKind.Error.

Lemma loud_HandleMissingExpr k : k ≠ TokenKind.Error → loud (HandleMissingExpr k).
Proof.
  intros Hk. unfold HandleMissingExpr.
  destruct (TokenKind.token_eqb_spec k TokenKind.Error); [done|]. cbn [negb when].
  apply loud_bind_l, loud_bind_r. intros st. cbv zeta. unfold EmitHere.
  apply loud_bind_r. intros p. apply loud_Emit. by destruct (bool_decide _).
Qed.

Lemma keeps_HandleExprInPostfix : keeps b HandleExprInPostfix.
Proof.
  intros c Hc. unfold HandleExprInPostfix. quiet_to_kind. intros k Hk.
  apply no_error_tokens in Hk.
  destruct (primary_leaf k) eqn:?; [solve_quiet'|].
  destruct (primary_substate k) eqn:?; [solve_quiet'|].
  destruct k; cbn [HandleOtherPrimary];
    first [by apply loud_quiet, loud_HandleMissingExpr | solve_quiet'].
Qed.

(** A missing brace is an error, whatever was pushed before it was found to
    be missing. *)
Lemma keeps_HandleCodeBlock : keeps b HandleCodeBlock.
Proof.
  intros c Hc. unfold HandleCodeBlock, PopAndDiscardState.
  apply quiet_bind, quiet_bind. eapply quiet_PopState; [done|].
  intros s c1 H1 _ _ _ _. apply quiet_ret.
  destruct (decide (TokenizedBuffer.GetKind b (position_ c1) = Ok TokenKind.OpenCurlyBrace))
    as [Hb|Hb].
  { solve_quiet'. }
  unfold PushState, PushStateAt, PushStateVal.
  repeat (apply quiet_bind || apply quiet_gets || apply quiet_modify).
  apply quiet_check. intros _. unfold ConsumeAndAddLeafNodeIf, ConsumeIf, PositionIs.
  unfold PositionIsAhead, PositionKindAhead, GetKind, tokens.
  repeat (apply quiet_bind || apply quiet_gets).
  apply quiet_lift_result. cbn. rewrite Z.add_0_r, (quiet_buffer _ _ H1). intros k Hk.
  apply quiet_ret. destruct (TokenKind.token_eqb_spec k TokenKind.OpenCurlyBrace) as [->|_];
    [done|].
  do 2 apply quiet_ret. apply loud_quiet. solve_loud.
Qed.

Lemma keeps_HandleStatement : keeps b HandleStatement.
Proof.
  intros c Hc. unfold HandleStatement. quiet_to_kind. intros k _.
  assert (keeps b (HandleOtherStatement k)) as Ho.
  { intros c1 H1. unfold HandleOtherStatement. solve_quiet'. }
  destruct k;
    lazymatch goal with
    | |- quiet (HandleOtherStatement _) _ _ => exact (Ho _ H)
    | _ => clear Ho; solve_quiet'
    end.
Qed.

Lemma quiet_VerifyInImports t Q c :
  Quiet b c → (∀ c', Quiet b c' → Q true c') → quiet (VerifyInImports t) Q c.
Proof.
  intros Hc HQ. unfold VerifyInImports, packaging_state. apply quiet_bind, quiet_gets.
  pose proof (quiet_packaging _ _ Hc) as Hp.
  destruct (packaging_state_ c); [|by apply quiet_ret, HQ| |done];
    repeat first [by apply HQ | quiet_step].
Qed.

Lemma keeps_HandleImport : keeps b HandleImport.
Proof.
  intros c Hc. unfold HandleImport. quiet_step. quiet_step.
  apply quiet_bind; eapply quiet_VerifyInImports; [done|]. solve_quiet'.
Qed.

(** [if] expressions. *)
Lemma keeps_HandleIfExprFinishCondition c :
  top_kind StateKind.IfExprFinishCondition c → Quiet b c →
  quiet HandleIfExprFinishCondition (λ _, Quiet b) c.
Proof.
  intros Ht Hc. unfold HandleIfExprFinishCondition. quiet_step. quiet_step.
  quiet_simpl. apply quiet_bind; eapply quiet_AddNode_stack; [done|]. intros c1 H1 E1.
  rewrite <- E1 in Hi. solve_quiet'.
Qed.

Lemma keeps_HandleIfExprFinishThen c :
  top_kind StateKind.IfExprFinishThen c → Quiet b c →
  quiet HandleIfExprFinishThen (λ _, Quiet b) c.
Proof.
  intros Ht Hc. unfold HandleIfExprFinishThen. quiet_step. quiet_step.
  quiet_simpl. apply quiet_bind; eapply quiet_AddNode_stack; [done|]. intros c1 H1 E1.
  rewrite <- E1 in Hi. solve_quiet'.
Qed.

Lemma keeps_HandleIfExprFinishElse c :
  top_kind StateKind.IfExprFinishElse c → Quiet b c →
  quiet HandleIfExprFinishElse (λ _, Quiet b) c.
Proof.
  intros Ht Hc. unfold HandleIfExprFinishElse. quiet_step. quiet_step.
  assert (top_kind StateKind.IfExprFinish c') as Ht'.
  { intros s' rest E. by rewrite E in Hi. }
  solve_quiet'.
Qed.
End special.

Lemma keeps_Handle b k c :
  (∀ t k, TokenizedBuffer.GetKind b t = Ok k → k ≠ TokenKind.Error) →
  top_kind k c → Quiet b c → quiet (Handle k) (λ _, Quiet b) c.
Proof.
  intros He Ht Hc.
  destruct k; unfold Handle;
    lazymatch goal with
    | |- quiet HandleIfExprFinishCondition _ _ => by apply keeps_HandleIfExprFinishCondition
    | |- quiet HandleIfExprFinishThen _ _ => by apply keeps_HandleIfExprFinishThen
    | |- quiet HandleIfExprFinishElse _ _ => by apply keeps_HandleIfExprFinishElse
    | |- quiet HandleExprInPostfix _ _ => by apply keeps_HandleExprInPostfix
    | |- quiet HandleCodeBlock _ _ => by apply keeps_HandleCodeBlock
    | |- quiet HandleStatement _ _ => by apply keeps_HandleStatement
    | |- quiet HandleImport _ _ => by apply keeps_HandleImport
    | _ => clear He; solve [solve_quiet']
    end.
Qed.

(** * Whole parses *)

(** The lexer marks the buffer when it has made an [Error] token. *)
Definition error_tokens_reported (b : TokenizedBuffer.t) : Prop :=
  TokenizedBuffer.has_errors b = false →
  Forall (λ i, TokenizedBuffer.kind i ≠ TokenKind.Error) (TokenizedBuffer.token_infos b).

Lemma reported_no_error b t k :
  error_tokens_reported b → TokenizedBuffer.has_errors b = false →
  TokenizedBuffer.GetKind b t = Ok k → k ≠ TokenKind.Error.
Proof.
  intros Hb He Hk. apply result_bind_Ok in Hk as (i & [_ Hi]%vec_get_Ok & [= <-]).
  exact (proj1 (Forall_lookup _ _) (Hb He) _ _ Hi).
Qed.

Lemma quiet_state_loop b fuel c :
  (∀ t k, TokenizedBuffer.GetKind b t = Ok k → k ≠ TokenKind.Error) →
  Quiet b c → quiet (state_loop fuel) (λ _, Quiet b) c.
Proof.
  intros He. revert c. induction fuel as [|fuel IH]; intros c Hc; cbn [state_loop]; [done|].
  apply quiet_bind, quiet_gets.
  destruct (state_stack_ c) as [|s rest] eqn:E; [by apply quiet_ret|].
  apply quiet_bind. eapply quiet_mono; [eapply keeps_Handle; [done| |done]|].
  - intros s' rest' E'. congruence.
  - intros [] c' Hc'. by apply IH.
Qed.

Lemma Quiet_initial b c : initial b = Ok c → Quiet b c.
Proof.
  intros Hi. unfold initial in Hi.
  repeat (apply result_bind_Ok in Hi as (? & _ & Hi)). injection Hi as <-.
  by split; [|constructor|constructor| |].
Qed.
