(* ===== verification/Placeholders.v ===== *)
(** Placeholder nodes. A handler that does not know a construct's first node
    yet adds a [Placeholder] and the state that finishes the construct replaces
    it through its [subtree_start]. The invariant is that the placeholders of
    the tree are exactly the starts of the states on the stack that own one.
    Every handler keeps it, so that none is left when the stack is empty. *)

From S2P Require Import Prelude TokenKinds StateKinds NodeKinds Tokens Precedence.
From S2P Require Import ParseTree Diagnostics Context HandleExpr HandleExprForms.
From S2P Require Import HandlePattern HandlePatternList HandleLetVar HandleDeclScope.
From S2P Require Import HandleDecl HandleDeclForms HandlePackaging HandleStatement.
From S2P Require Import HandleMatch Parse Quiet.

(** The states that replace a placeholder. *)
Definition owns_placeholder (k : StateKind.t) : bool :=
  match k with
  | StateKind.ParenExprFinish | StateKind.TupleLiteralFinish
  | StateKind.BraceExprFinishAsType | StateKind.BraceExprFinishAsValue
  | StateKind.BraceExprFinishAsUnknown | StateKind.MatchConditionFinish => true
  | _ => false
  end.

(** The states whose handler adds one, at their [subtree_start]. *)
Definition adds_placeholder (k : StateKind.t) : bool :=
  match k with
  | StateKind.ParenExpr | StateKind.BraceExpr | StateKind.MatchIntroducer
  | StateKind.DeclAsClass | StateKind.DeclAsInterface | StateKind.DeclAsRegular
  | StateKind.DeclAsUnion => true
  | _ => false
  end.

Definition owned_by (e : StateKind.t * Z) : list Z :=
  if owns_placeholder e.1 then [e.2] else [].
Definition owned (sh : list (StateKind.t * Z)) : list Z := sh ≫= owned_by.

(** The placeholders of the tree are the positions [ps], each once. *)
Record placeholders_are (ps : list Z) (nodes : list NodeImpl.t) : Prop := {
  ph_nodes : ∀ n i, nodes !! n = Some i →
    (NodeImpl.kind i = NodeKind.Placeholder ↔ Z.of_nat n ∈ ps);
  ph_range : Forall (λ p, 0 ≤ p < vec_size nodes) ps;
  ph_nodup : NoDup ps;
}.

(** Within a handler: [extra] are the placeholders the handler has in hand. *)
Record Held (extra : list Z) (sh : list (StateKind.t * Z)) (c : Context) : Prop := {
  held_shape : shape c = sh;
  held_nodes : placeholders_are (extra ++ owned sh) (Tree.node_impls (tree_ c));
  held_settled : Forall (λ e, adds_placeholder e.1 = false) sh;
}.

(** Between handlers: the top state may be about to add a placeholder. *)
Definition Settled (c : Context) : Prop :=
  ∃ top rest, shape c = top ++ rest ∧
    placeholders_are (owned rest) (Tree.node_impls (tree_ c)) ∧
    Forall (λ e, adds_placeholder e.1 = false) rest ∧
    match top with
    | [] => True
    | [(k, p)] => adds_placeholder k = true ∧ p = Tree.size (tree_ c)
    | _ => False
    end.

(** * Placeholders of a list of nodes *)

#[export] Instance placeholders_are_perm :
  Proper ((≡ₚ) ==> (=) ==> iff) placeholders_are.
Proof.
  assert (∀ ps qs l, ps ≡ₚ qs → placeholders_are ps l → placeholders_are qs l) as H.
  { intros ps qs l Hp [H1 H2 H3]. split.
    - intros n i Hn. rewrite <- Hp. by apply H1.
    - by rewrite <- Hp.
    - by rewrite <- Hp. }
  intros ps qs Hp l ? <-. split; by apply H.
Qed.

Lemma placeholders_app ps l i :
  NodeImpl.kind i ≠ NodeKind.Placeholder →
  placeholders_are ps l → placeholders_are ps (l ++ [i]).
Proof.
  intros Hi [H1 H2 H3]. split; [|eapply Forall_impl; [exact H2|]|done].
  - intros n j Hj. apply lookup_app_Some in Hj as [Hj|[Hn Hj]]; [by apply H1|].
    apply list_lookup_singleton_Some in Hj as [Hn' <-].
    split; [done|]. intros Hp.
    rewrite Forall_forall in H2. specialize (H2 _ Hp). cbn in H2.
    unfold vec_size in H2. lia.
  - intros p Hp. cbn in Hp. rewrite vec_size_app. unfold vec_size at 2. cbn. lia.
Qed.

Lemma placeholders_app_new ps l i :
  NodeImpl.kind i = NodeKind.Placeholder →
  placeholders_are ps l → placeholders_are (vec_size l :: ps) (l ++ [i]).
Proof.
  intros Hi [H1 H2 H3]. rewrite Forall_forall in H2. split.
  - intros n j Hj. rewrite elem_of_cons.
    apply lookup_app_Some in Hj as [Hj|[Hn Hj]].
    + rewrite (H1 n j Hj). apply lookup_lt_Some in Hj. unfold vec_size.
      split; [by right|]. intros [?|?]; [lia|done].
    + apply list_lookup_singleton_Some in Hj as [Hn' <-].
      split; [|done]. intros _. left. unfold vec_size. lia.
  - rewrite Forall_forall. intros p Hp. rewrite vec_size_app.
    unfold vec_size at 2. cbn. apply elem_of_cons in Hp as [->|Hp].
    + pose proof (vec_size_nonneg l). lia.
    + specialize (H2 p Hp). cbn in H2. lia.
  - constructor; [|done]. intros Hp. specialize (H2 _ Hp). cbn in H2. lia.
Qed.

Lemma placeholders_set ps l n i :
  NodeImpl.kind i ≠ NodeKind.Placeholder →
  placeholders_are (n :: ps) l → placeholders_are ps (vec_set l n i).
Proof.
  intros Hi [H1 H2 H3]. apply Forall_cons in H2 as [Hn H2].
  apply NoDup_cons in H3 as [Hnin H3]. split; [|by rewrite vec_set_size|done].
  intros m j Hj. destruct (decide (m = Z.to_nat n)) as [->|Hne].
  - unfold vec_set in Hj. rewrite list_lookup_insert_eq in Hj by (unfold vec_size in Hn; lia).
    injection Hj as <-. rewrite Z2Nat.id by lia. done.
  - unfold vec_set in Hj. rewrite list_lookup_insert_ne in Hj by done.
    rewrite (H1 m j Hj), elem_of_cons. split; [|by right]. intros [?|?]; [lia|done].
Qed.

(** Replacing a node that is not a placeholder by one that is not. *)
Lemma placeholders_same ps l n i i' :
  vec_get l n = Ok i → NodeImpl.kind i ≠ NodeKind.Placeholder →
  NodeImpl.kind i' ≠ NodeKind.Placeholder →
  placeholders_are ps l → placeholders_are ps (vec_set l n i').
Proof.
  intros [Hn Hi]%vec_get_Ok Hk Hk' [H1 H2 H3]. split; [|by rewrite vec_set_size|done].
  intros m j Hj. destruct (decide (m = Z.to_nat n)) as [->|Hne].
  - pose proof (H1 _ _ Hi) as Hp. unfold vec_set in Hj.
    rewrite list_lookup_insert_eq in Hj by (by eapply lookup_lt_Some).
    injection Hj as <-. tauto.
  - unfold vec_set in Hj. rewrite list_lookup_insert_ne in Hj by done. by apply H1.
Qed.

(** * Rules *)

Lemma Held_same extra sh c c' :
  shape c' = shape c → Tree.node_impls (tree_ c') = Tree.node_impls (tree_ c) →
  Held extra sh c → Held extra sh c'.
Proof. intros Hs Hn [? ? ?]. split; [congruence|congruence|done]. Qed.

Lemma held_PopState extra sh Q c :
  Held extra sh c →
  (∀ s rest c', (State.kind s, State.subtree_start s) :: rest = sh →
     adds_placeholder (State.kind s) = false →
     Held (owned_by (State.kind s, State.subtree_start s) ++ extra) rest c' → Q s c') →
  returns PopState Q c.
Proof.
  intros [Hs Hn Hf] HQ. apply returns_PopState. intros k p rest s c' E <- <- E' Et.
  assert (sh = (State.kind s, State.subtree_start s) :: rest) as -> by congruence.
  apply Forall_cons in Hf as [Hf1 Hf]. apply (HQ s rest); [done..|].
  split; [done| |done]. rewrite Et. revert Hn. cbn. rewrite !(assoc_L (++)).
  apply placeholders_are_perm; [|done]. by rewrite (comm (++) extra).
Qed.

Lemma held_PushStateVal extra sh s Q c :
  Held (owned_by (State.kind s, State.subtree_start s) ++ extra) sh c →
  adds_placeholder (State.kind s) = false →
  (∀ c', Held extra ((State.kind s, State.subtree_start s) :: sh) c' → Q tt c') →
  returns (PushStateVal s) Q c.
Proof.
  intros [Hs Hn Hf] Ha HQ. apply returns_PushStateVal. intros c' E Et. apply HQ.
  split; [by rewrite E, Hs| |by constructor]. rewrite Et. revert Hn. cbn.
  rewrite !(assoc_L (++)). apply placeholders_are_perm; [|done].
  by rewrite (comm (++) extra).
Qed.

(** The last push of a handler. *)
Lemma held_PushStateVal_last sh s (Q : unit → Context → Prop) c :
  Held [] sh c → owns_placeholder (State.kind s) = false →
  (adds_placeholder (State.kind s) = true → State.subtree_start s = Tree.size (tree_ c)) →
  (∀ c', Settled c' → Q tt c') →
  returns (PushStateVal s) Q c.
Proof.
  intros [Hs Hn Hf] Ho Ha HQ. apply returns_PushStateVal. intros c' E Et. apply HQ.
  rewrite Hs in E. destruct (adds_placeholder (State.kind s)) eqn:Es.
  - exists [(State.kind s, State.subtree_start s)], sh.
    rewrite Et. split_and!; [done..|]. auto.
  - exists [], ((State.kind s, State.subtree_start s) :: sh). rewrite Et.
    split_and!; [done| |by constructor|done]. cbn. unfold owned_by. cbn. by rewrite Ho.
Qed.

Lemma Held_Settled sh c : Held [] sh c → Settled c.
Proof. intros [Hs Hn Hf]. by exists [], sh. Qed.

Lemma held_modify_top extra sh f Q c :
  (∀ s, State.kind (f s) = State.kind s ∧ State.subtree_start (f s) = State.subtree_start s) →
  Held extra sh c → (∀ c', Held extra sh c' → Q tt c') → returns (modify_top f) Q c.
Proof.
  intros Hf Hc HQ. apply returns_modify_top; [done|]. intros c' E Et. apply HQ.
  eapply Held_same; [exact E| |exact Hc]. by rewrite Et.
Qed.

Lemma held_modify extra sh f (Q : unit → Context → Prop) c :
  Held extra sh c → shape (f c) = shape c →
  Tree.node_impls (tree_ (f c)) = Tree.node_impls (tree_ c) →
  (∀ c', Held extra sh c' → Q tt c') → returns (modify f) Q c.
Proof. intros Hc ? ? HQ. apply returns_modify, HQ. by eapply Held_same. Qed.

Lemma held_AddNode extra sh k t e Q c :
  NodeKind.eqb k NodeKind.Placeholder = false →
  Held extra sh c → (∀ c', Held extra sh c' → Q tt c') → returns (AddNode k t e) Q c.
Proof.
  intros Hk [Hs Hn Hf] HQ. unfold AddNode.
  apply returns_bind, returns_check; intros _. apply returns_bind, returns_lift_result.
  intros i [Hi _]%NodeImpl.make_fields. apply returns_modify, HQ.
  split; [done| |done]. apply placeholders_app; [|done].
  destruct (NodeKind.node_kind_eqb_spec k NodeKind.Placeholder); congruence.
Qed.

Lemma held_AddNode_placeholder extra sh t e Q c :
  Held extra sh c →
  (∀ c', Held (Tree.size (tree_ c) :: extra) sh c' → Q tt c') →
  returns (AddNode NodeKind.Placeholder t e) Q c.
Proof.
  intros [Hs Hn Hf] HQ. unfold AddNode.
  apply returns_bind, returns_check; intros _. apply returns_bind, returns_lift_result.
  intros i [Hi _]%NodeImpl.make_fields. apply returns_modify, HQ.
  split; [done| |done]. by apply placeholders_app_new.
Qed.

Lemma held_ReplacePlaceholderNode extra sh n k t e Q c :
  NodeKind.eqb k NodeKind.Placeholder = false →
  Held (n :: extra) sh c → (∀ c', Held extra sh c' → Q tt c') →
  returns (ReplacePlaceholderNode n k t e) Q c.
Proof.
  intros Hk [Hs Hn Hf] HQ. unfold ReplacePlaceholderNode.
  apply returns_bind, returns_check; intros _. apply returns_bind, returns_gets.
  apply returns_bind, returns_check; intros _. apply returns_bind, returns_lift_result.
  intros old _. apply returns_bind, returns_check; intros _.
  apply returns_bind, returns_lift_result. intros i [Hi _]%NodeImpl.make_fields.
  apply returns_modify, HQ. split; [done| |done]. apply placeholders_set; [|done].
  destruct (NodeKind.node_kind_eqb_spec k NodeKind.Placeholder); congruence.
Qed.

Lemma held_ReplaceIntroducerNode extra sh n k k' Q c :
  k ≠ NodeKind.Placeholder → k' ≠ NodeKind.Placeholder →
  Held extra sh c → (∀ c', Held extra sh c' → Q tt c') →
  returns (ReplaceIntroducerNode n k k') Q c.
Proof.
  intros Hk Hk' [Hs Hn Hf] HQ. unfold ReplaceIntroducerNode.
  apply returns_bind, returns_gets, returns_bind, returns_check; intros _.
  apply returns_bind, returns_lift_result; intros old Ho.
  apply returns_bind, returns_check; intros Hold.
  apply returns_bind, returns_lift_result; intros e _.
  apply returns_bind, returns_lift_result; intros t _.
  apply returns_bind, returns_lift_result. intros i [Hi _]%NodeImpl.make_fields.
  apply returns_modify, HQ. split; [done| |done].
  apply result_bind_Ok in Ho as (j & Hj & [= <-]).
  destruct (NodeKind.node_kind_eqb_spec (NodeImpl.kind j) k); [|done].
  eapply placeholders_same; [exact Hj|congruence|congruence|done].
Qed.

(** * Node kinds chosen by a table are not placeholders *)

Definition real_node (k : NodeKind.t) : bool :=
  negb (NodeKind.eqb k NodeKind.Placeholder).

Lemma real_node_eqb k : real_node k = true → NodeKind.eqb k NodeKind.Placeholder = false.
Proof. unfold real_node. by destruct (NodeKind.eqb k _). Qed.

Lemma primary_leaf_real k nk : primary_leaf k = Some nk → real_node nk = true.
Proof. destruct k; by intros [= <-]. Qed.
Lemma prefix_operator_real k nk : prefix_operator_node k = Some nk → real_node nk = true.
Proof. destruct k; by intros [= <-]. Qed.
Lemma infix_operator_real k nk : infix_operator_node k = Some nk → real_node nk = true.
Proof. destruct k; by intros [= <-]. Qed.
Lemma postfix_operator_real k nk : postfix_operator_node k = Some nk → real_node nk = true.
Proof. destruct k; by intros [= <-]. Qed.
Lemma token_modifier_real k nk : token_modifier k = Some nk → real_node nk = true.
Proof. destruct k; by intros [= <-]. Qed.
Lemma introducer_real k c :
  NodeKind.eqb (DeclIntroducerInfo.node_kind (DeclIntroducers k c)) NodeKind.Placeholder
  = false.
Proof. destruct c, k; reflexivity. Qed.

(** States chosen by a table neither own a placeholder nor, introducers aside,
    are about to add one. *)
Definition holds_nothing (k : StateKind.t) : bool :=
  negb (owns_placeholder k) && negb (adds_placeholder k).

Lemma holds_nothing_spec k :
  holds_nothing k = true → owns_placeholder k = false ∧ adds_placeholder k = false.
Proof. unfold holds_nothing. destruct (owns_placeholder k), (adds_placeholder k); done. Qed.

Lemma introducer_state k c :
  holds_nothing (DeclIntroducerInfo.state_kind (DeclIntroducers k c)) = true.
Proof. destruct c, k; reflexivity. Qed.
Lemma primary_substate_owns k sk : primary_substate k = Some sk → owns_placeholder sk = false.
Proof. destruct k; by intros [= <-]. Qed.
Lemma statement_state_owns k sk : statement_state k = Some sk → owns_placeholder sk = false.
Proof. destruct k; by intros [= <-]. Qed.
Lemma pattern_introducer_nothing k sk :
  pattern_introducer_state k = Some sk → holds_nothing sk = true.
Proof. destruct k; by intros [= <-]. Qed.

(** * Automation *)

Ltac held_simpl :=
  cbn [State.has_error State.kind State.token State.subtree_start State.set_kind
       State.set_token State.set_has_error State.set_lhs_precedence
       State.set_in_field_shorthand_pattern State.default fst snd when scope_loop_state];
  repeat match goal with
  | H : State.kind ?s = ?k |- context [State.kind ?s] => rewrite H
  end;
  cbn [owned_by owns_placeholder adds_placeholder fst snd app].

Ltac solve_real :=
  first
    [ reflexivity | assumption | apply introducer_real
    | apply real_node_eqb;
      first [ assumption | eapply primary_leaf_real; eassumption
            | eapply prefix_operator_real; eassumption
            | eapply infix_operator_real; eassumption
            | eapply postfix_operator_real; eassumption
            | eapply token_modifier_real; eassumption ]
    | match goal with
      | |- NodeKind.eqb (if ?x then _ else _) _ = _ => destruct x; reflexivity
      end ].

(** [steady m]: [m] leaves the stack's shape and the placeholders alone. *)
Abbreviation steady m :=
  (∀ extra sh c, Held extra sh c → returns m (λ _, Held extra sh) c).

Create HintDb held.

Ltac held_head m := lazymatch m with ?f _ => held_head f | _ => m end.

Ltac held_popped :=
  let E := fresh "E" in let Ha := fresh "Ha" in let Hc := fresh "Hc" in
  intros ? ? ? E Ha Hc; revert Hc; simplify_eq; held_simpl; intros Hc.

(** What the check of a popped state's kind says. *)
Ltac held_learn H :=
  try first
    [ apply StateKind.state_kind_eqb_eq in H; rewrite H in *; held_simpl_in
    | apply orb_prop in H; destruct H as [H|H];
      apply StateKind.state_kind_eqb_eq in H; rewrite H in *; held_simpl_in ]
with held_simpl_in :=
  repeat match goal with
  | Hc : Held _ _ _ |- _ =>
      progress cbn [owned_by owns_placeholder fst snd app] in Hc
  end.

(** A pushed kind chosen by a table. *)
Ltac held_table :=
  match goal with
  | H : pattern_introducer_state _ = Some ?k |- _ =>
      apply pattern_introducer_nothing, holds_nothing_spec in H as [? ?]
  | H : primary_substate _ = Some ?k |- _ => apply primary_substate_owns in H
  | H : statement_state _ = Some ?k |- _ => apply statement_state_owns in H
  | |- context [DeclIntroducers ?k ?c] =>
      destruct (holds_nothing_spec _ (introducer_state k c)) as [? ?]
  end.

Ltac solve_owned :=
  held_simpl;
  repeat match goal with
  | H : owns_placeholder ?k = _ |- context [owns_placeholder ?k] => rewrite H
  | H : adds_placeholder ?k = _ |- context [adds_placeholder ?k] => rewrite H
  end;
  cbn [app]; first [eassumption | done].

(** Branches on a choice between two kinds to push. *)
Ltac held_split_kind :=
  repeat match goal with
  | |- returns (PushStateVal ?s) _ _ =>
      match s with
      | context [if ?x then ?a else _] =>
          match type of a with StateKind.t => destruct x end
      end
  end.

Ltac held_push :=
  held_split_kind; try held_table; held_simpl;
  first [ eapply held_PushStateVal;
            [unfold owned_by; solve_owned|solve_owned|]
        | eapply held_PushStateVal_last; [eassumption|solve_owned|done|] ].

Ltac held_step :=
  held_simpl;
  lazymatch goal with
  | |- ∀ _, _ => intros ?
  | |- returns (mret _) _ _ => apply returns_ret
  | |- returns (action_fail _) _ _ => apply returns_fail
  | |- returns (mbind _ _) _ _ => apply returns_bind
  | |- returns (tell _) _ _ => apply returns_tell
  | |- returns (gets _) _ _ => apply returns_gets
  | |- returns (check _) _ _ => 
      apply returns_check; let H := fresh "Hk" in intros H; held_learn H
  | |- returns (lift_result _) _ _ => apply returns_lift_result; intros ? ?
  | |- returns (when _ _) _ _ => unfold when
  | |- returns PopState _ _ => eapply held_PopState; [eassumption|held_popped]
  | |- returns (PushStateVal _) _ _ => held_push
  | |- returns (modify_top _) _ _ =>
      eapply held_modify_top; [by intros|eassumption|]
  | |- returns (modify _) _ _ =>
      eapply held_modify; [eassumption|reflexivity|reflexivity|]
  | |- returns (AddNode _ _ _) _ _ => eapply held_AddNode; [solve_real|eassumption|]
  | |- returns (ReplacePlaceholderNode _ _ _ _) _ _ =>
      eapply held_ReplacePlaceholderNode; [solve_real|eassumption|]
  | |- returns (ReplaceIntroducerNode _ _ _) _ _ =>
      eapply held_ReplaceIntroducerNode; [done|done|eassumption|]
  | |- returns (match ?x with _ => _ end) _ _ =>
      first [is_var x; destruct x | destruct x eqn:?; try discriminate]
  | |- returns ?m _ _ =>
      first [ eapply returns_mono; [solve [eauto 3 with held]|]
            | let h := held_head m in progress (unfold h) ]
  | |- Settled _ => eapply Held_Settled; eassumption
  end.
Ltac solve_held := repeat held_step; try eassumption.

(** * Shared operations *)

Lemma steady_Consume : steady Consume.
Proof. intros extra sh c Hc. solve_held. Qed.
Lemma steady_ConsumeAndDiscard : steady ConsumeAndDiscard.
Proof. intros extra sh c Hc. solve_held. Qed.
Lemma steady_SkipTo t : steady (SkipTo t).
Proof. intros extra sh c Hc. solve_held. Qed.
Lemma steady_PositionIs k : steady (PositionIs k).
Proof. intros extra sh c Hc. solve_held. Qed.
Lemma steady_PositionIsAhead k n : steady (PositionIsAhead k n).
Proof. intros extra sh c Hc. solve_held. Qed.
#[export] Hint Resolve steady_Consume steady_ConsumeAndDiscard steady_SkipTo
  steady_PositionIs steady_PositionIsAhead : held.
Lemma steady_ConsumeIf k : steady (ConsumeIf k).
Proof. intros extra sh c Hc. solve_held. Qed.
Lemma steady_ConsumeChecked k : steady (ConsumeChecked k).
Proof. intros extra sh c Hc. solve_held. Qed.
Lemma steady_ReturnErrorOnState : steady ReturnErrorOnState.
Proof. intros extra sh c Hc. solve_held. Qed.
Lemma steady_SkipMatchingGroup : steady SkipMatchingGroup.
Proof. intros extra sh c Hc. solve_held. Qed.
#[export] Hint Resolve steady_ConsumeIf steady_ConsumeChecked steady_ReturnErrorOnState
  steady_SkipMatchingGroup : held.

Lemma steady_keep_scanning i t : steady (keep_scanning i t).
Proof. intros extra sh c Hc. solve_held. Qed.
#[export] Hint Resolve steady_keep_scanning : held.

Lemma steady_skip_loop fuel i : steady (skip_loop fuel i).
Proof.
  induction fuel as [|fuel IH]; intros extra sh c Hc; cbn [skip_loop]; [done|].
  unfold skip_continue. solve_held.
Qed.
#[export] Hint Resolve steady_skip_loop : held.

Lemma steady_SkipPastLikelyEnd t : steady (SkipPastLikelyEnd t).
Proof. intros extra sh c Hc. solve_held. Qed.
Lemma steady_SkipFromHere : steady SkipFromHere.
Proof.
  intros extra sh c Hc. pose proof steady_SkipPastLikelyEnd. unfold SkipFromHere.
  solve_held.
Qed.
#[export] Hint Resolve steady_SkipPastLikelyEnd steady_SkipFromHere : held.

Lemma steady_IsLexicallyValidInfixOperator : steady IsLexicallyValidInfixOperator.
Proof. intros extra sh c Hc. solve_held. Qed.
#[export] Hint Resolve steady_IsLexicallyValidInfixOperator : held.
Lemma steady_IsTrailingOperatorInfix : steady IsTrailingOperatorInfix.
Proof. intros extra sh c Hc. solve_held. Qed.
Lemma steady_DiagnoseOperatorFixity f : steady (DiagnoseOperatorFixity f).
Proof. intros extra sh c Hc. solve_held. Qed.
#[export] Hint Resolve steady_IsTrailingOperatorInfix steady_DiagnoseOperatorFixity : held.

Lemma steady_ConsumeAndAddOpen o d t nk :
  real_node nk = true → steady (ConsumeAndAddOpen o d t nk).
Proof. intros Hk extra sh c Hc. solve_held. Qed.
Lemma steady_ConsumeAndAddCloseSymbol s nk :
  real_node nk = true → steady (ConsumeAndAddCloseSymbol s nk).
Proof. intros Hk extra sh c Hc. solve_held. Qed.
Lemma steady_ConsumeListToken nk tk e :
  real_node nk = true → steady (ConsumeListToken nk tk e).
Proof. intros Hk extra sh c Hc. solve_held. Qed.
Lemma steady_RecoverFromDeclError s nk b :
  real_node nk = true → steady (RecoverFromDeclError s nk b).
Proof. intros Hk extra sh c Hc. solve_held. Qed.
#[export] Hint Resolve steady_ConsumeAndAddOpen steady_ConsumeAndAddCloseSymbol
  steady_ConsumeListToken steady_RecoverFromDeclError : held.
#[export] Hint Extern 1 (real_node _ = true) => first [assumption | reflexivity] : held.

Lemma steady_AddNodeExpectingDeclSemi s nk tk d :
  real_node nk = true → steady (AddNodeExpectingDeclSemi s nk tk d).
Proof. intros Hk extra sh c Hc. solve_held. Qed.
Lemma steady_ParseLibraryName d : steady (ParseLibraryName d).
Proof. intros extra sh c Hc. solve_held. Qed.
#[export] Hint Resolve steady_AddNodeExpectingDeclSemi steady_ParseLibraryName : held.
Lemma steady_ParseLibrarySpecifier d : steady (ParseLibrarySpecifier d).
Proof. intros extra sh c Hc. solve_held. Qed.
#[export] Hint Resolve steady_ParseLibrarySpecifier : held.

Lemma steady_AddFunctionDefinitionStart t e : steady (AddFunctionDefinitionStart t e).
Proof. intros extra sh c Hc. solve_held. Qed.

Lemma steady_PopDeferredDefinition : steady PopDeferredDefinition.
Proof.
  intros extra sh c Hc. unfold returns, wp, PopDeferredDefinition.
  destruct (deferred_definition_stack_ c); [done|].
  eapply Held_same; [..|exact Hc]; reflexivity.
Qed.
#[export] Hint Resolve steady_AddFunctionDefinitionStart steady_PopDeferredDefinition : held.

Lemma steady_finish_deferred_definition n : steady (finish_deferred_definition n).
Proof. intros extra sh c Hc. solve_held. Qed.
#[export] Hint Resolve steady_finish_deferred_definition : held.

Lemma steady_AddFunctionDefinition t e : steady (AddFunctionDefinition t e).
Proof. intros extra sh c Hc. solve_held. Qed.
Lemma steady_AddFunctionTerseDefinition t e : steady (AddFunctionTerseDefinition t e).
Proof. intros extra sh c Hc. solve_held. Qed.
Lemma steady_AddPostLexingRecoveryTokenAsIdentifier t :
  steady (AddPostLexingRecoveryTokenAsIdentifier t).
Proof. intros extra sh c Hc. solve_held. Qed.
#[export] Hint Resolve steady_AddFunctionDefinition steady_AddFunctionTerseDefinition
  steady_AddPostLexingRecoveryTokenAsIdentifier : held.

Lemma steady_TryHandleAsModifier : steady TryHandleAsModifier.
Proof. intros extra sh c Hc. solve_held. Qed.
#[export] Hint Resolve steady_TryHandleAsModifier : held.

Lemma steady_modifier_loop fuel b : steady (modifier_loop fuel b).
Proof.
  revert b. induction fuel as [|fuel IH]; intros b extra sh c Hc; cbn [modifier_loop];
    [done|]. solve_held.
Qed.

Lemma steady_add_invalid_nodes n : steady (add_invalid_nodes n).
Proof. induction n as [|n IH]; intros extra sh c Hc; cbn [add_invalid_nodes]; solve_held. Qed.

Lemma steady_add_error_nodes l : forallb real_node l = true → steady (add_error_nodes l).
Proof.
  induction l as [|k l IH]; cbn [forallb add_error_nodes].
  - intros _ extra sh c Hc. solve_held.
  - intros [Hk Hl]%andb_prop. specialize (IH Hl). intros extra sh c Hc. solve_held.
Qed.
#[export] Hint Resolve steady_modifier_loop steady_add_invalid_nodes
  steady_add_error_nodes : held.
#[export] Hint Extern 1 (forallb real_node _ = true) => reflexivity : held.

Lemma steady_binding_on_error s n r : steady (binding_on_error s n r).
Proof. intros extra sh c Hc. solve_held. Qed.
#[export] Hint Resolve steady_binding_on_error : held.
Lemma steady_ResolveBindingPhase s f t g r : steady (ResolveBindingPhase s f t g r).
Proof. intros extra sh c Hc. solve_held. Qed.
#[export] Hint Resolve steady_ResolveBindingPhase : held.

(** The parts of a packaging declaration. *)
Lemma steady_OnParseError s nk : real_node nk = true → steady (OnParseError s nk).
Proof. intros Hk extra sh c Hc. solve_held. Qed.
#[export] Hint Resolve steady_OnParseError : held.

Lemma steady_HandleDeclContent K s e i oe :
  real_node K = true → steady oe → steady (HandleDeclContent K s e i oe).
Proof.
  intros Hk Ho extra sh c Hc.
  assert (∀ n, steady (parse_package_part K s n oe)).
  { clear c Hc extra sh. intros n extra sh c Hc. unfold parse_package_part. solve_held. }
  assert (∀ n, steady (parse_library_part K n oe)).
  { clear c Hc extra sh. intros n extra sh c Hc. unfold parse_library_part. solve_held. }
  solve_held.
Qed.
#[export] Hint Resolve steady_HandleDeclContent : held.

(** The parts of a binding pattern; the first may push a state. *)
Lemma held_parse_binding_modifiers extra sh s Q c :
  Held extra sh c → (∀ r sh' c', Held extra sh' c' → Q r c') →
  returns (parse_binding_modifiers s) Q c.
Proof.
  intros Hc HQ. unfold parse_binding_modifiers.
  repeat first [by eapply HQ | held_step].
Qed.

Lemma steady_parse_binding_name s : steady (parse_binding_name s).
Proof. intros extra sh c Hc. unfold parse_binding_name. solve_held. Qed.
Lemma steady_wrap_each_name s t i : steady (wrap_each_name s t i).
Proof. intros extra sh c Hc. unfold wrap_each_name. solve_held. Qed.
Lemma steady_wrap_or_diagnose s t a nk d :
  real_node nk = true → steady (wrap_or_diagnose s t a nk d).
Proof. intros Hk extra sh c Hc. unfold wrap_or_diagnose. solve_held. Qed.
#[export] Hint Resolve steady_parse_binding_name steady_wrap_each_name
  steady_wrap_or_diagnose : held.

Lemma held_HandleBindingPattern p rest c :
  Held [] ((StateKind.BindingPattern, p) :: rest) c →
  returns HandleBindingPattern (λ _, Settled) c.
Proof.
  intros Hc. unfold HandleBindingPattern. held_step. held_step.
  apply returns_bind. eapply held_parse_binding_modifiers; [eassumption|].
  intros r sh c1 H1. unfold finish_untyped_binding, finish_typed_binding. solve_held.
Qed.

Lemma held_apply_trailing_operator sh s k op c :
  Held [] sh c → holds_nothing (State.kind s) = true →
  returns (apply_trailing_operator s k op) (λ _, Settled) c.
Proof.
  intros Hc [? ?]%holds_nothing_spec. unfold apply_trailing_operator. solve_held.
Qed.

Lemma steady_find_trailing_operator : steady find_trailing_operator.
Proof. intros extra sh c Hc. unfold find_trailing_operator. solve_held. Qed.
Lemma steady_handle_operator_modifier s : steady (handle_operator_modifier s).
Proof. intros extra sh c Hc. unfold handle_operator_modifier. solve_held. Qed.

#[export] Hint Resolve steady_find_trailing_operator : held.

Lemma held_HandleExprLoop p rest c :
  Held [] ((StateKind.ExprLoop, p) :: rest) c → returns HandleExprLoop (λ _, Settled) c.
Proof.
  intros Hc. unfold HandleExprLoop.
  repeat first
    [ eapply held_apply_trailing_operator; [eassumption|held_simpl; reflexivity]
    | held_step ].
Qed.

(** * The handlers that add a placeholder *)

(** The top state is about to add one. *)
Lemma about_PopState k p rest Q c :
  adds_placeholder k = true → Settled c → shape c = (k, p) :: rest →
  (∀ s c', State.kind s = k → State.subtree_start s = Tree.size (tree_ c') →
     Held [] rest c' → Q s c') →
  returns PopState Q c.
Proof.
  intros Hk (top & rest' & E & Hn & Hf & Ht) Hs HQ. apply returns_PopState.
  intros k' p' rest0 s c' E' Hks Hps Er Et.
  assert (k' = k ∧ p' = p ∧ rest0 = rest) as (-> & -> & ->) by (split_and!; congruence).
  destruct top as [|[k1 p1] [|]]; [|destruct Ht as [_ ->]|done].
  - cbn in E. rewrite Hs in E. subst rest'. apply Forall_cons in Hf as [? _].
    cbn in *. congruence.
  - cbn in E. rewrite Hs in E. injection E as <- -> ->.
    apply HQ; [done|by rewrite Et|]. split; [done| |done]. by rewrite Et.
Qed.

Lemma held_ConsumeChecked extra sh k Q c :
  Held extra sh c →
  (∀ t c', Held extra sh c' → tree_ c' = tree_ c → Q t c') →
  returns (ConsumeChecked k) Q c.
Proof.
  intros Hc HQ. unfold ConsumeChecked, PositionIs, PositionIsAhead, PositionKindAhead,
    GetKind, tokens, Consume.
  repeat returns_step.
  apply HQ; [|done]. eapply Held_same; [..|exact Hc]; reflexivity.
Qed.

Section adding.
Context (p : Z) (rest : list (StateKind.t * Z)) (c : Context).

Lemma settled_HandleParenExpr :
  Settled c → shape c = (StateKind.ParenExpr, p) :: rest →
  returns HandleParenExpr (λ _, Settled) c.
Proof.
  intros Hc Hs. unfold HandleParenExpr. apply returns_bind.
  eapply about_PopState; [|done..|]; [done|]. intros s c1 Hk Hp H1.
  apply returns_bind. eapply held_ConsumeChecked; [done|]. intros t c2 H2 E2.
  apply returns_bind. eapply held_AddNode_placeholder; [done|]. intros c3 H3.
  rewrite E2, <- Hp in H3. solve_held.
Qed.

Lemma settled_HandleMatchIntroducer :
  Settled c → shape c = (StateKind.MatchIntroducer, p) :: rest →
  returns HandleMatchIntroducer (λ _, Settled) c.
Proof.
  intros Hc Hs. unfold HandleMatchIntroducer. apply returns_bind.
  eapply about_PopState; [|done..|]; [done|]. intros s c1 Hk Hp H1.
  apply returns_bind, returns_gets, returns_bind.
  eapply held_AddNode_placeholder; [done|]. intros c3 H3.
  rewrite <- Hp in H3. solve_held.
Qed.

Lemma settled_HandleDecl k d :
  adds_placeholder k = true → Settled c → shape c = (k, p) :: rest →
  returns (HandleDecl d) (λ _, Settled) c.
Proof.
  intros Ha Hc Hs. unfold HandleDecl. apply returns_bind.
  eapply about_PopState; [done..|]. intros s c1 Hk Hp H1.
  apply returns_bind, returns_gets, returns_bind.
  eapply held_AddNode_placeholder; [done|]. intros c3 H3.
  rewrite <- Hp in H3. solve_held.
Qed.

Lemma settled_HandleBraceExpr :
  Settled c → shape c = (StateKind.BraceExpr, p) :: rest →
  returns HandleBraceExpr (λ _, Settled) c.
Proof.
  intros Hc Hs. unfold HandleBraceExpr. apply returns_bind.
  eapply about_PopState; [|done..|]; [done|]. intros s c1 Hk Hp [S1 N1 F1].
  apply returns_bind. unfold PushStateAs. apply returns_PushStateVal. cbn.
  rewrite S1. intros c2 S2 E2.
  apply returns_bind. unfold ConsumeAndAddLeafNodeIf.
  unfold ConsumeIf, PositionIs, PositionIsAhead, PositionKindAhead, GetKind, tokens.
  repeat returns_step.
  destruct (TokenKind.eqb _ _); [|by repeat returns_step].
  unfold Consume, AddLeafNode, AddNode. 
  repeat lazymatch goal with
         | |- returns (lift_result _) _ _ => fail
         | _ => returns_step
         end.
  apply returns_lift_result. intros i [Hi _]%NodeImpl.make_fields. do 4 returns_step.
  assert (Held [] ((StateKind.BraceExprFinishAsUnknown, State.subtree_start s) :: rest)
            (push_node i (set_position (position_ c2 + 1) c2))) as H3.
  { split; [exact S2| |by constructor]. cbn. rewrite E2, Hp.
    by apply placeholders_app_new. }
  revert H3. generalize (push_node i (set_position (position_ c2 + 1) c2)).
  intros c3 H3. solve_held.
Qed.
End adding.

Lemma settled_Handle k p rest c :
  Settled c → shape c = (k, p) :: rest → returns (Handle k) (λ _, Settled) c.
Proof.
  intros Hc Hs. destruct (adds_placeholder k) eqn:Ha.
  - destruct k; try discriminate Ha; unfold Handle;
      first [ by eapply settled_HandleParenExpr | by eapply settled_HandleBraceExpr
            | by eapply settled_HandleMatchIntroducer ] ||
      (unfold HandleDeclAsClass, HandleDeclAsInterface, HandleDeclAsRegular,
         HandleDeclAsUnion; by eapply settled_HandleDecl).
  - assert (Held [] ((k, p) :: rest) c) as H.
    { destruct Hc as (top & rest' & E & Hn & Hf & Ht). rewrite Hs in E.
      destruct top as [|[k1 p1] [|]]; [|destruct Ht as [? _]|done].
      - cbn in E. subst rest'. by split.
      - injection E as <- _ _. congruence. }
    clear Hc Hs. destruct k; try discriminate Ha; clear Ha; unfold Handle;
      lazymatch goal with
      | |- returns HandleBindingPattern _ _ => by eapply held_HandleBindingPattern
      | |- returns HandleExprLoop _ _ => by eapply held_HandleExprLoop
      | |- returns ?m _ _ => solve [solve_held]
      end.
Qed.

(** * Whole parses *)

Lemma Settled_nil c : Settled c → state_stack_ c = [] →
  placeholders_are [] (Tree.node_impls (tree_ c)).
Proof.
  intros (top & rest & E & Hn & _ & _) Hs. unfold shape in E. rewrite Hs in E.
  symmetry in E. by apply app_nil in E as [-> ->].
Qed.

Lemma settled_iteration c : Settled c → returns iteration (λ _, Settled) c.
Proof.
  intros Hc. unfold iteration. apply returns_bind, returns_gets.
  destruct (state_stack_ c) as [|s rest] eqn:E; [done|].
  eapply settled_Handle; [done|]. unfold shape. by rewrite E.
Qed.

Lemma settled_state_loop fuel c :
  Settled c → returns (state_loop fuel) (λ _ c', Settled c' ∧ state_stack_ c' = []) c.
Proof.
  revert c. induction fuel as [|fuel IH]; intros c Hc; cbn [state_loop]; [done|].
  apply returns_bind, returns_gets.
  destruct (state_stack_ c) as [|s rest] eqn:E; [by apply returns_ret|].
  apply returns_bind. eapply returns_mono; [eapply settled_Handle; [done|]|].
  - unfold shape. by rewrite E.
  - intros [] c' Hc'. by apply IH.
Qed.

Lemma settled_parse_start b c :
  initial b = Ok c → returns parse_start (λ _, Settled) c.
Proof.
  intros Hi. assert (Held [] [] c) as Hc.
  { unfold initial in Hi.
    repeat (apply result_bind_Ok in Hi as (? & _ & Hi)). injection Hi as <-.
    split; [done| |done]. by split; [..|constructor|constructor]. }
  unfold parse_start. solve_held.
Qed.

Lemma settled_step c c' w : step c c' w → Settled c → Settled c'.
Proof.
  intros [s rest c1 c2 w' E Hh] Hc. eapply (returns_inv _ (λ _, Settled)); [|exact Hh].
  eapply settled_Handle; [done|]. unfold shape. by rewrite E.
Qed.

Lemma settled_reachable b c w : reachable b c w → Settled c.
Proof.
  intros (c0 & c1 & w0 & w1 & Hi & Hs & Hss & _).
  assert (Settled c1) as H1.
  { eapply (returns_inv _ (λ _, Settled)); [by eapply settled_parse_start|exact Hs]. }
  clear Hs. induction Hss as [|c1 c2 c3 w1 w2 Hs _ IH]; [done|].
  by apply IH, (settled_step _ _ _ Hs).
Qed.
