(* ===== verification/Correctness.v ===== *)
(** What the parser guarantees of every tree it returns, assembled from the
    invariants of the handlers: a tree without reported errors has no error
    node, no tree has a placeholder, and [Tree::Verify] can only object to the
    number of nodes of an error-free tree. *)

From S2P Require Import Prelude TokenKinds StateKinds NodeKinds Tokens Precedence.
From S2P Require Import ParseTree Diagnostics Context Parse Samples Runs Frame Quiet.
From S2P Require Import Placeholders.

(** * Lemmas about whole parses *)

Lemma quiet_of_parse fuel b c c' w :
  error_tokens_reported b → initial b = Ok c →
  parse_body fuel c = Ok (tt, c', w) →
  TokenizedBuffer.has_errors b || seen_error w = false → Quiet b c'.
Proof.
  intros Hb Hi Hp [He Hw]%orb_false_elim. revert Hw.
  apply (wp_inv (parse_body fuel) (λ _ c' w, seen_error w = false → Quiet b c')
    c tt c' w (λ _, True)); [|exact Hp].
  change (quiet (parse_body fuel) (λ _, Quiet b) c). apply Quiet_initial in Hi.
  unfold parse_body, parse_start, parse_finish.
  repeat quiet_step. eapply quiet_mono; [apply quiet_state_loop; [|done]|].
  - intros t k. by apply reported_no_error.
  - intros [] c2 Hc2. repeat quiet_step. all: try done.
Qed.

Lemma real_nodes_of_parse fuel b c c' w :
  initial b = Ok c → parse_body fuel c = Ok (tt, c', w) →
  Forall (λ i, NodeImpl.kind i ≠ NodeKind.Placeholder) (Tree.node_impls (tree_ c')).
Proof.
  intros Hi Hb. revert Hb. eapply (returns_inv (parse_body fuel)
    (λ _ c', Forall (λ i, NodeImpl.kind i ≠ NodeKind.Placeholder)
               (Tree.node_impls (tree_ c')))).
  unfold parse_body. apply returns_bind.
  eapply returns_mono; [by eapply settled_parse_start|]. intros [] c1 H1.
  apply returns_bind. eapply returns_mono; [by apply settled_state_loop|].
  intros [] c2 [H2 Hs]. unfold parse_finish, AddLeafNode, AddNode. repeat returns_step.
  cbn. apply Forall_app. split.
  - apply Settled_nil in H2; [|done]. apply Forall_lookup. intros n i Hn Hk.
    apply (ph_nodes _ _ H2 n i Hn) in Hk. inversion Hk.
  - constructor; [|done]. apply NodeImpl.make_fields in H0 as [-> _]. done.
Qed.

Lemma frame_of_parse fuel b c c' w :
  initial b = Ok c → parse_body fuel c = Ok (tt, c', w) → frame c c'.
Proof.
  intros _. unfold parse_body. apply moves_bind; [apply _|apply moves_parse_start|].
  intros _. apply moves_bind; [apply _|apply moves_state_loop|]. intros _.
  unfold parse_finish. solve_moves.
Qed.

(** Decides that a buffer has no [Error] token. *)
Lemma no_error_tokens b :
  forallb (λ i, negb (TokenKind.eqb (TokenizedBuffer.kind i) TokenKind.Error))
    (TokenizedBuffer.token_infos b) = true → error_tokens_reported b.
Proof.
  intros H _. apply Forall_forall. intros i Hi%list_elem_of_In.
  rewrite forallb_forall in H. specialize (H i Hi).
  by destruct (TokenKind.token_eqb_spec (TokenizedBuffer.kind i) TokenKind.Error).
Qed.

(** * The theorems *)

(** C8. A parse of a token stream without lexing errors whose loop returns
    without emitting an error leaves no node marked [has_error] and adds no
    recovery token: every path of every handler that marks a node or a state
    has emitted an error. This is the first thing [Tree::Verify] checks. *)
Theorem quiet_parse_has_no_error_nodes fuel b c c' w :
  error_tokens_reported b → initial b = Ok c →
  parse_body fuel c = Ok (tt, c', w) →
  TokenizedBuffer.has_errors b || seen_error w = false →
  Forall (λ i, NodeImpl.has_error i = false) (Tree.node_impls (tree_ c')) ∧
  tokens_ c' = b.
Proof. intros. split; eapply quiet_of_parse; eauto. Qed.

Lemma quiet_parse_has_no_error_nodes_witness :
  Forall (λ i, NodeImpl.has_error i = false)
    (Tree.node_impls (tree_ (final_of 200 sample_function).1)) ∧
  tokens_ (final_of 200 sample_function).1 = sample_function.
Proof.
  eapply (quiet_parse_has_no_error_nodes 200 sample_function (initial_of sample_function)
    _ (final_of 200 sample_function).2).
  - apply no_error_tokens. vm_compute. reflexivity.
  - vm_compute. reflexivity.
  - vm_compute. reflexivity.
  - vm_compute. reflexivity.
Defined.

(** C9. A tree the parser's loop finishes holds no placeholder: whatever the
    input and the diagnostics, [Tree::Verify] never finds one, and the trees
    handed to later phases have none. *)
Theorem no_placeholder_left fuel b c c' w :
  initial b = Ok c → parse_body fuel c = Ok (tt, c', w) →
  Forall (λ i, NodeImpl.kind i ≠ NodeKind.Placeholder) (Tree.node_impls (tree_ c')).
Proof. apply real_nodes_of_parse. Qed.

Lemma no_placeholder_left_witness :
  Forall (λ i, NodeImpl.kind i ≠ NodeKind.Placeholder)
    (Tree.node_impls (tree_ (final_of 200 sample_bad_function).1)).
Proof.
  eapply (no_placeholder_left 200 sample_bad_function (initial_of sample_bad_function) _
    (final_of 200 sample_bad_function).2).
  - vm_compute. reflexivity.
  - vm_compute. reflexivity.
Defined.

(** C19. The starting position of every state that finishes a construct begun
    by a placeholder is, at any point of a parse, the index of a placeholder of
    the tree, and no two such states share it: the node
    [ReplacePlaceholderNode] is about to replace is there to be replaced. *)
Theorem owner_has_placeholder b c w s :
  reachable b c w → s ∈ state_stack_ c → owns_placeholder (State.kind s) = true →
  Tree.node_kind (tree_ c) (State.subtree_start s) = Ok NodeKind.Placeholder ∧
  NoDup (owned (shape c)).
Proof.
  intros (top & rest & E & Hn & Hf & Ht)%settled_reachable Hs Ho.
  assert (owned (shape c) = owned rest) as Er.
  { rewrite E. destruct top as [|[k p] [|]]; [done| |done]. destruct Ht as [Ha _].
    cbn. unfold owned_by. cbn. by destruct k. }
  split; [|rewrite Er; apply Hn].
  assert (State.subtree_start s ∈ owned (shape c)) as Hin.
  { unfold owned, shape, shape_of. apply list_elem_of_bind.
    exists (State.kind s, State.subtree_start s). split.
    - unfold owned_by. cbn. rewrite Ho. by apply list_elem_of_singleton.
    - apply list_elem_of_fmap. by exists s. }
  rewrite Er in Hin. pose proof (ph_range _ _ Hn) as Hr. rewrite Forall_forall in Hr.
  specialize (Hr _ Hin). cbn in Hr.
  destruct (vec_get_in_range _ _ Hr) as [i Hi]. unfold Tree.node_kind. rewrite Hi. cbn.
  apply vec_get_Ok in Hi as [_ Hi]. f_equal. apply (ph_nodes _ _ Hn _ _ Hi).
  rewrite Z2Nat.id; [done|apply Hr].
Qed.

(** The state on top when [(x)] of [let x: auto = (x);] is about to end. *)
Lemma owner_has_placeholder_witness :
  match state_stack_ (context_after 19 sample_paren).1 with
  | s :: _ =>
      Tree.node_kind (tree_ (context_after 19 sample_paren).1) (State.subtree_start s) =
        Ok NodeKind.Placeholder ∧
      NoDup (owned (shape (context_after 19 sample_paren).1))
  | [] => False
  end.
Proof.
  pose proof (owner_has_placeholder sample_paren (context_after 19 sample_paren).1
    (context_after 19 sample_paren).2) as H.
  destruct (state_stack_ (context_after 19 sample_paren).1) as [|s rest] eqn:E.
  - vm_compute in E. discriminate.
  - apply H.
    + apply context_after_reachable. vm_compute. reflexivity.
    + left.
    + vm_compute in E. injection E as <- _. reflexivity.
Defined.

Lemma Parse_returns fuel b c c' w :
  error_tokens_reported b → initial b = Ok c →
  parse_body fuel c = Ok (tt, c', w) →
  let has_errors := TokenizedBuffer.has_errors b || seen_error w in
  (has_errors = false →
     TokenizedBuffer.size b ≤ Tree.size (tree_ c') ≤
       TokenizedBuffer.expected_max_parse_tree_size b) →
  Parse fuel b = Ok {| parsed_tree := tree_ c'; parsed_has_errors := has_errors;
                       parsed_tokens := tokens_ c'; parsed_diagnostics := w |}.
Proof.
  intros Hb Hi Hp has_errors Hsize. unfold Parse. rewrite Hi. cbn. rewrite Hp.
  pose proof (frame_of_parse _ _ _ _ _ Hi Hp) as Hf.
  apply initial_fields in Hi as Hi'. destruct Hi' as (<- & _).
  destruct (frame_tokens _ _ Hf) as (_ & _ & _ & -> & _).
  fold has_errors. unfold Tree.Verify.
  replace (Tree.VerifyNodes _ _ _) with (@None Tree.VerifyError).
  2:{ symmetry. apply Tree.VerifyNodes_None, Forall_and. split.
      - destruct has_errors eqn:E; [by apply Forall_true|].
        eapply Forall_impl; [apply (quiet_of_parse _ _ _ _ _ Hb Hi Hp E)|]. cbn. congruence.
      - by eapply real_nodes_of_parse. }
  destruct has_errors eqn:E; cbn; [done|].
  rewrite (quiet_buffer _ _ (quiet_of_parse _ _ _ _ _ Hb Hi Hp E)).
  destruct (Hsize eq_refl) as [H1 H2].
  by rewrite (proj2 (Z.ltb_ge _ _) H2), (proj2 (Z.ltb_ge _ _) H1).
Qed.


