(* ===== verification/Lexing.v ===== *)
(** What [Lexer::Lex] promises of a whole source: it returns, its tokens with the
    blanks and comments between them are the source, its line table is that of
    the source, no error token goes unreported, and a source whose brackets
    match becomes a buffer the parser's theorems are about. *)

From S2P Require Import Prelude TokenKinds Text APInts CanonicalStores IntStores IntLaws.
From S2P Require Import Simd IdentifierScan LexDiagnostics StringLiterals Utf8.
From S2P Require Import StringShape Tokens Lexed TokenText LexState LexComments LexTokens.
From S2P Require Import BracketTokens LexRecovery Lexer LexPieces LexInvariant LexSteps.
From S2P Require Import LexWords LexLayout LexDispatch Quiet RecoveryLinks.
Import TokenizedBuffer.

(** * Samples *)

Definition sample_build : LexBuild := {| CARBON_USE_SIMD := true; unset_payload := 0 |}.

Definition newline : string := String Newline EmptyString.

(** Comments, a raw identifier, literals of each kind, and groups. *)
Definition sample_source : list char := str
  ("// Sample." ++ newline ++ "  // More." ++ newline ++
   "fn r#F(a: i32) -> str {" ++ newline ++
   "  var x: auto = (0x1F + 1.5e3) >>= ['c', a$];" ++ newline ++
   "  return 'hi'; } @ // end")%string.

Section lexing.
Context {Ops : APInts} {Laws : APIntLaws Ops} {Build : LexBuild}.
Context {Utf : ConvertUTF} {UtfLaws : ConvertUTFLaws Utf}.
Context {Simd : X86Simd} {SimdLaws : X86SimdLaws Simd}.
Implicit Types (s : LexerState) (ps : list piece) (cs : list char).

(** A run of the lexer on a source, up to [Finalize]. *)
Definition lexes cs (ids : list string) (iv : IntStore.t) (rs : list Real)
    (ss : list (list char)) s (w : list LexDiagnostic) : Prop :=
  lex_source (StringRef.mk 0 cs) (MakeLexer (StringRef.mk 0 cs) ids iv rs ss) = Ok (tt, s, w).

Section run.
Context (cs : list char) (ids : list string) (iv : IntStore.t) (rs : list Real)
  (ss : list (list char)).
Hypothesis Hsize : vec_size cs < MaxSource.
Hypothesis Hstores : StoresOk cs ids iv rs ss.

Lemma lexes_total : ∃ s w, lexes cs ids iv rs ss s w.
Proof using All.
  destruct (lex_source_total cs ids iv rs ss (λ _ _ _, True) Hsize Hstores)
    as ([] & s & w & E & _); [done|]. by exists s, w.
Qed.

Lemma lexes_done s w :
  lexes cs ids iv rs ss s w → ∃ ps, Done s ps cs ∧ (w = [] → no_error_tokens s).
Proof using All.
  intros H. destruct (lex_source_total cs ids iv rs ss
    (λ _ s w, ∃ ps, Done s ps cs ∧ (w = [] → no_error_tokens s)) Hsize Hstores)
    as ([] & s' & w' & E & Hd); [by eauto|].
  unfold lexes in H. rewrite E in H. by injection H as <- <-.
Qed.
End run.

(** ** Tokens and the source *)

(** The token [i] of a buffer starts at [off] and has the text [text]. *)
Definition token_at b (i off : Z) (text : list char) : Prop :=
  ∃ info, vec_get (token_infos b) i = Ok info ∧ byte_offset info = off ∧
    GetTokenText b i = Ok text.

Lemma Done_size s ps cs : Done s ps cs → size (buffer s) = vec_size (extents 0 ps) + 2.
Proof.
  intros H. destruct (done_tokens _ _ _ H) as (first & infos & last & E & _ & Hf & _).
  unfold size. rewrite E, vec_size_cons, vec_size_app. change (vec_size [last]) with 1.
  apply Forall2_length in Hf. unfold vec_size. lia.
Qed.

(** The token of the extent [n]. *)
Lemma Done_token s ps cs n off text :
  vec_size cs < MaxSource → Done s ps cs → extents 0 ps !! n = Some (off, text) →
  ∃ info, vec_get (token_infos (buffer s)) (Z.of_nat n + 1) = Ok info ∧
    settled cs (identifiers (buffer s)) info (off, text).
Proof.
  intros Hs H He. destruct (done_tokens _ _ _ H) as (first & infos & last & E & _ & Hf & _).
  destruct (Forall2_lookup_r _ _ _ _ _ Hf He) as (info & Hi & Hset). exists info.
  split; [|done]. rewrite E. apply vec_get_Ok. split; [lia|].
  replace (Z.to_nat (Z.of_nat n + 1)) with (S n) by lia. change (S n) with (1 + n)%nat.
  cbn [Nat.add]. change ((first :: infos ++ [last]) !! S n) with ((infos ++ [last]) !! n).
  by apply lookup_app_l_Some.
Qed.

Lemma Done_token_at s ps cs n off text :
  vec_size cs < MaxSource → Done s ps cs → extents 0 ps !! n = Some (off, text) →
  token_at (buffer s) (Z.of_nat n + 1) off text.
Proof.
  intros Hs H He. destruct (Done_token _ _ _ _ _ _ Hs H He) as (info & Hi & Ho & _ & Hsp).
  exists info. split; [done|]. split; [done|].
  apply (GetTokenText_spells _ _ info cs); [by eapply done_source|unfold MaxSource in Hs; lia|
    done| |done].
  pose proof (extents_bound 0 ps (done_ok _ _ _ H)) as Hb. eapply Forall_lookup_1 in Hb; [|exact He].
  rewrite (done_pieces _ _ _ H) in Hb. rewrite Ho. cbn in *. pose proof (vec_size_nonneg text). lia.
Qed.

(** ** Lines *)

Lemma partition_point_split offset : ∀ (lines : list LineInfo) xs ys,
  start <$> lines = xs ++ ys → Forall (λ x, x ≤ offset) xs → Forall (λ y, offset < y) ys →
  partition_point lines offset = vec_size xs.
Proof.
  induction lines as [|l lines IH]; intros xs ys E Hx Hy; [by destruct xs|].
  cbn [partition_point]. destruct xs as [|x xs].
  - destruct ys as [|y ys]; [done|]. injection E as <- _. apply Forall_cons in Hy as [Hy _].
    by rewrite (proj2 (Z.leb_gt _ _)).
  - injection E as <- E. apply Forall_cons in Hx as [Hl Hx]. rewrite (proj2 (Z.leb_le _ _)) by done.
    rewrite (IH xs ys E Hx Hy), vec_size_cons. lia.
Qed.

(** The line of a position of the source: that of the newlines before it. *)
Lemma FindLineIndex_line_of (b : TokenizedBuffer.t) (before after : list char) :
  source_text b = to_string (before ++ after) → after ≠ [] →
  start <$> line_infos b = line_starts (before ++ after) →
  FindLineIndex b (vec_size before) = Ok (line_of before) ∧
  ∃ info, vec_get (line_infos b) (line_of before) = Ok info ∧ start info = start_of_line before.
Proof.
  intros Hsrc Hne Hl. pose proof (vec_size_nonneg before) as Hb0.
  assert (0 < vec_size after) as Hafter.
  { destruct after; [done|]. rewrite vec_size_cons. pose proof (vec_size_nonneg after). lia. }
  assert (partition_point (line_infos b) (vec_size before) = line_of before + 1) as Hp.
  { unfold line_starts in Hl. rewrite later_starts_app, <- app_assoc, app_comm_cons in Hl.
    rewrite (partition_point_split _ _ _ _ Hl).
    - rewrite vec_size_cons. unfold line_of. done.
    - constructor; [done|]. eapply Forall_impl; [apply later_starts_bound|]. cbn. lia.
    - apply Forall_app_2; [eapply Forall_impl; [apply later_starts_bound|]; cbn; lia|].
      destruct (_ =? _); repeat constructor. rewrite vec_size_app. lia. }
  assert (∃ info, vec_get (line_infos b) (line_of before) = Ok info ∧ start info = start_of_line before)
    as (info & Hi & Hst).
  { eapply lines_get; [exact Hl|apply line_of_nonneg|apply current_line_start]. }
  split; [|by exists info]. pose proof (vec_get_lt _ _ _ Hi) as Hlt.
  pose proof (start_of_line_bounds before).
  unfold FindLineIndex. rewrite (proj2 (Z.ltb_lt _ _)) by lia. cbn [require mbind Result_bind].
  rewrite Hp, Z.add_simpl_r, Hi. cbn [mbind Result_bind].
  assert ((start info =? Z.of_nat (String.length (source_text b))) = false) as ->.
  { apply Z.eqb_neq. rewrite Hsrc, <- str_length, str_to_string, length_app.
    unfold vec_size in *. lia. }
  rewrite andb_false_r, Hi. cbn [mbind Result_bind]. rewrite (proj2 (Z.leb_le _ _)) by lia. done.
Qed.

(** ** Brackets *)

(** No closing symbol was mismatched, and no opening one is left open. *)
Definition matched s : Prop := has_mismatched_brackets s = false ∧ open_groups s = [].

Lemma Done_kinds s ps cs :
  vec_size cs < MaxSource → Done s ps cs →
  GetKind (buffer s) 0 = Ok TokenKind.FileStart ∧
  GetKind (buffer s) (size (buffer s) - 1) = Ok TokenKind.FileEnd ∧
  ∀ i k, GetKind (buffer s) i = Ok k → 0 < i → i ≠ size (buffer s) - 1 →
    k ≠ TokenKind.FileStart ∧ k ≠ TokenKind.FileEnd.
Proof.
  intros Hs H. destruct (done_tokens _ _ _ H) as (first & infos & last & E & [Hk _] & Hf & Hl & _).
  unfold GetKind, size. rewrite E. split; [change (Ok (kind first) = Ok TokenKind.FileStart); by rewrite Hk|]. split.
  - rewrite last_index, app_comm_cons, vec_get_app_last. cbn. by rewrite Hl.
  - intros i k (info & Hi & [= <-])%result_bind_Ok H0 Hne. rewrite last_index in Hne.
    rewrite app_comm_cons in Hi. apply vec_get_snoc_inv in Hi as [Hi|[-> _]]; [|done].
    apply vec_get_Ok in Hi as [_ Hi]. destruct (Z.to_nat i) as [|n] eqn:En; [lia|].
    change ((first :: infos) !! S n) with (infos !! n) in Hi.
    destruct (Forall2_lookup_l _ _ _ _ _ Hf Hi) as (e & _ & (_ & Hin & _)).
    split; intros Hkind; rewrite Hkind in Hin; done.
Qed.

(** A token between the boundary tokens lies in the source. *)
Lemma Done_offset s ps cs i info :
  Done s ps cs → vec_get (token_infos (buffer s)) i = Ok info → 0 < i < size (buffer s) - 1 →
  0 ≤ byte_offset info < vec_size cs.
Proof.
  intros H Hi Hr. destruct (done_tokens _ _ _ H) as (first & infos & last & E & _ & Hf & _).
  unfold size in Hr. rewrite E, last_index in Hr. rewrite E, app_comm_cons in Hi.
  apply vec_get_snoc_inv in Hi as [Hi|[-> _]]; [|lia].
  apply vec_get_Ok in Hi as [_ Hi]. destruct (Z.to_nat i) as [|n] eqn:En; [lia|].
  change ((first :: infos) !! S n) with (infos !! n) in Hi.
  destruct (Forall2_lookup_l _ _ _ _ _ Hf Hi) as (e & He & (Hoff & _)).
  pose proof (extents_bound 0 ps (done_ok _ _ _ H)) as Hb.
  eapply Forall_lookup_1 in Hb; [|exact He]. rewrite (done_pieces _ _ _ H) in Hb. lia.
Qed.

Lemma Done_first_line s ps cs :
  Done s ps cs → ∃ l ls, line_infos (buffer s) = l :: ls ∧ start l ≤ 0.
Proof.
  intros H. pose proof (done_lines _ _ _ H) as Hl. destruct (line_infos (buffer s)) as [|l ls]; [done|].
  exists l, ls. split; [done|]. unfold line_starts in Hl. cbn in Hl. injection Hl as -> _. lia.
Qed.

Lemma Done_offsets s ps cs : Done s ps cs → Forall (λ t, 0 ≤ byte_offset t) (token_infos (buffer s)).
Proof.
  intros H. destruct (done_tokens _ _ _ H) as (first & infos & last & E & [_ Hz] & Hf & _ & Hl).
  rewrite E. constructor; [by rewrite Hz|]. apply Forall_app_2; [|constructor; [lia|constructor]].
  apply Forall_forall. intros info (n & Hn)%list_elem_of_lookup.
  destruct (Forall2_lookup_l _ _ _ _ _ Hf Hn) as (e & He & (Hoff & _)).
  pose proof (extents_bound 0 ps (done_ok _ _ _ H)) as Hb.
  eapply Forall_lookup_1 in Hb; [|exact He]. lia.
Qed.

Lemma Done_lexed s ps cs :
  vec_size cs < MaxSource → Done s ps cs → matched s → Lexed (buffer s).
Proof.
  intros Hs H [Hm Ho]. destruct (Done_kinds _ _ _ Hs H) as (K1 & K2 & K3).
  pose proof (done_groups _ _ _ H) as [_ HG]. specialize (HG Hm). rewrite Ho in HG.
  pose proof (Done_size _ _ _ H) as Esz. pose proof (vec_size_nonneg (extents 0 ps)).
  apply Matched_lexed; try done; [apply (done_recovery _ _ _ H)|lia|..].
  - by eapply Done_first_line.
  - by eapply Done_offsets.
Qed.

(** ** The theorems *)

Section theorems.
Context (cs : list char) (ids : list string) (iv : IntStore.t) (rs : list Real)
  (ss : list (list char)).

(** C2. Lexing terminates, and fails no check: on every source below two
    megabytes, whatever its bytes, with room in the value stores, the dispatch
    loop reaches the end of the file. Its fuel is the length of the source, so
    that every dispatch moves forward; and none of the [CARBON_CHECK]s and
    [CARBON_DCHECK]s, vector accesses and payload conversions on the way
    fails. *)
Theorem lexing_returns :
  vec_size cs < MaxSource → StoresOk cs ids iv rs ss →
  ∃ s w, lexes cs ids iv rs ss s w.
Proof. apply lexes_total. Qed.

(** C6. Lexing is lossless: the source is its blanks, its comments and the
    texts of its tokens, in order. Between the two boundary tokens the buffer
    has one token per text, at the offset of the text, and [GetTokenText] gives
    that text back, byte for byte. *)
Theorem lexing_is_lossless s w :
  vec_size cs < MaxSource → StoresOk cs ids iv rs ss → lexes cs ids iv rs ss s w →
  ∃ ps, pieces_text ps = cs ∧ Forall piece_ok ps ∧
    size (buffer s) = vec_size (extents 0 ps) + 2 ∧
    ∀ n off text, extents 0 ps !! n = Some (off, text) →
      token_at (buffer s) (Z.of_nat n + 1) off text.
Proof.
  intros Hs Hst H. destruct (lexes_done cs ids iv rs ss Hs Hst _ _ H) as (ps & HD & _).
  exists ps. split; [by eapply done_pieces|]. split; [by eapply done_ok|].
  split; [by eapply Done_size|]. intros n off text. by eapply Done_token_at.
Qed.

(** C18. The line table is that of the source: the line and the column of a
    token are those of its first byte, counting the newlines before it and the
    bytes since the last one. *)
Theorem token_line_and_column s w i info :
  vec_size cs < MaxSource → StoresOk cs ids iv rs ss → lexes cs ids iv rs ss s w →
  vec_get (token_infos (buffer s)) i = Ok info → 0 < i < size (buffer s) - 1 →
  let before := take (Z.to_nat (byte_offset info)) cs in
  GetLine (buffer s) i = Ok (line_of before) ∧
  GetColumnNumber (buffer s) i = Ok (byte_offset info - start_of_line before + 1).
Proof.
  intros Hs Hst H Hi Hr before. destruct (lexes_done cs ids iv rs ss Hs Hst _ _ H) as (ps & HD & _).
  destruct (Done_offset _ _ _ _ _ HD Hi Hr) as [H0 Hlt].
  assert (before ++ drop (Z.to_nat (byte_offset info)) cs = cs) as Ecs by apply take_drop.
  assert (vec_size before = byte_offset info) as Hb.
  { unfold before, vec_size in *. rewrite length_take. lia. }
  destruct (FindLineIndex_line_of (buffer s) before (drop (Z.to_nat (byte_offset info)) cs))
    as (Hf & l & Hl & Hsl).
  - rewrite Ecs. by eapply done_source.
  - intros E. apply (f_equal length) in E. rewrite length_drop in E. unfold vec_size in *. cbn in E. lia.
  - rewrite Ecs. by eapply done_lines.
  - rewrite Hb in Hf. unfold GetLine, GetColumnNumber. rewrite Hi. cbn [mbind Result_bind].
    rewrite Hf. cbn [mbind Result_bind]. rewrite Hl. cbn [mbind Result_bind]. by rewrite Hsl.
Qed.

(** C23. Lexing that reports nothing makes no error token. *)
Theorem quiet_lexing_has_no_error_tokens s :
  vec_size cs < MaxSource → StoresOk cs ids iv rs ss → lexes cs ids iv rs ss s [] →
  Forall (λ info, kind info ≠ TokenKind.Error) (token_infos (buffer s)).
Proof.
  intros Hs Hst H. destruct (lexes_done cs ids iv rs ss Hs Hst _ _ H) as (ps & _ & HE).
  by apply HE.
Qed.

Lemma Lex_matched FixMismatchedBrackets want_corrections s w :
  vec_size cs < MaxSource → StoresOk cs ids iv rs ss → lexes cs ids iv rs ss s w → matched s →
  ∃ s', Lex FixMismatchedBrackets want_corrections (StringRef.mk 0 cs)
      (MakeLexer (StringRef.mk 0 cs) ids iv rs ss) = Ok (None, s', w) ∧
    Lexed (buffer s') ∧ error_tokens_reported (buffer s') ∧
    has_errors (buffer s') = negb (bool_decide (w = [])) ∧ (w = [] → s' = s).
Proof.
  intros Hs Hst H Hm. destruct (lexes_done cs ids iv rs ss Hs Hst _ _ H) as (ps & HD & HE).
  pose proof (Done_lexed _ _ _ Hs HD Hm) as HL. destruct Hm as [Hm Ho].
  assert (Finalize FixMismatchedBrackets want_corrections s = Ok (None, s, [])) as Hfin.
  { enough (total (Finalize FixMismatchedBrackets want_corrections)
      (λ r s' w', r = None ∧ s' = s ∧ w' = []) s) as (r & s' & w' & E & -> & -> & ->) by exact E.
    unfold Finalize. total_steps. rewrite Hm, Ho. cbn [orb length].
    rewrite bool_decide_true by done. cbn [negb]. total_steps. apply total_when; intros Ht; [|by total_steps].
    exfalso. apply Z.ltb_lt in Ht. pose proof (done_count _ _ _ HD).
    unfold size, MaxSource in *. change MaxTokens with (2 ^ 23) in Ht. lia. }
  unfold Lex, lex_body. unfold lexes in H.
  rewrite (bind_Ok _ _ _ _ _ _ _ _ _ H Hfin). cbn [mbind Result_bind mret Result_ret].
  rewrite app_nil_r. eexists. split; [reflexivity|]. destruct w as [|d w].
  - cbn. split; [done|]. split; [intros _; by apply HE|]. split; [by apply (done_errors _ _ _ HD)|done].
  - cbn. split; [by destruct HL; split|]. by split_and!.
Qed.

(** C11. A source whose brackets match: the whole of [Lexer::Lex] returns
    without calling for bracket recovery, the buffer has what the parser's
    theorems ask of one, and its error flag tells whether anything was
    reported. *)
Theorem lex_matched_source FixMismatchedBrackets want_corrections s w :
  vec_size cs < MaxSource → StoresOk cs ids iv rs ss → lexes cs ids iv rs ss s w → matched s →
  ∃ s', Lex FixMismatchedBrackets want_corrections (StringRef.mk 0 cs)
      (MakeLexer (StringRef.mk 0 cs) ids iv rs ss) = Ok (None, s', w) ∧
    Lexed (buffer s') ∧ error_tokens_reported (buffer s') ∧
    has_errors (buffer s') = negb (bool_decide (w = [])).
Proof.
  intros Hs Hst H Hm.
  destruct (Lex_matched FixMismatchedBrackets want_corrections s w Hs Hst H Hm) as (s' & ? & ? & ? & ? & _).
  by exists s'.
Qed.
End theorems.
End lexing.

(** * The theorems at the samples *)

Definition quiet_source : list char := str
  ("// Quiet." ++ newline ++ "fn F() -> i32 { return 0x2A; }" ++ newline)%string.

Section samples.
#[local] Existing Instances ZAPInt.ops ZAPInt.laws ByteLanes.ops ByteLanes.laws sample_build.

Definition sample_lexer (cs : list char) : LexerState :=
  MakeLexer (StringRef.mk 0 cs) [] [] [] [].

(** The state and the diagnostics after a source. *)
Definition lexed_sample (cs : list char) : LexerState * list LexDiagnostic :=
  match lex_source (StringRef.mk 0 cs) (sample_lexer cs) with
  | Ok (_, s, w) => (s, w)
  | Err _ => (sample_lexer cs, [])
  end.

Lemma no_stores cs : vec_size cs < MaxSource → StoresOk cs [] [] [] [].
Proof. intros H. split; [apply wf_nil|done..]. Qed.

Lemma sample_lexes cs :
  vec_size cs < MaxSource →
  lexes cs [] [] [] [] (lexed_sample cs).1 (lexed_sample cs).2.
Proof.
  intros Hs. destruct (lexes_total cs [] [] [] [] Hs (no_stores cs Hs)) as (s & w & H).
  unfold lexes, lexed_sample, sample_lexer in *. by rewrite H.
Qed.

Lemma lexing_returns_witness : ∃ s w, lexes sample_source [] [] [] [] s w.
Proof. apply lexing_returns; [reflexivity|by apply no_stores]. Defined.

Lemma lexing_is_lossless_witness :
  ∃ ps, pieces_text ps = sample_source ∧ Forall piece_ok ps ∧
    size (buffer (lexed_sample sample_source).1) = vec_size (extents 0 ps) + 2 ∧
    ∀ n off text, extents 0 ps !! n = Some (off, text) →
      token_at (buffer (lexed_sample sample_source).1) (Z.of_nat n + 1) off text.
Proof.
  eapply lexing_is_lossless; [reflexivity|by apply no_stores|by apply sample_lexes].
Defined.

(** The [var] of the first sample, on the line of index 3, in column 3. *)
Lemma token_line_and_column_witness :
  GetLine (buffer (lexed_sample sample_source).1) 11 = Ok 3 ∧
  GetColumnNumber (buffer (lexed_sample sample_source).1) 11 = Ok 3.
Proof.
  destruct (token_line_and_column sample_source [] [] [] [] (lexed_sample sample_source).1
    (lexed_sample sample_source).2 11 (MakeTokenInfo TokenKind.Var true 0 48)) as [H1 H2].
  - reflexivity.
  - by apply no_stores.
  - by apply sample_lexes.
  - vm_compute. reflexivity.
  - vm_compute. done.
  - rewrite H1, H2. split; vm_compute; reflexivity.
Defined.

Lemma quiet_lexes : lexes quiet_source [] [] [] [] (lexed_sample quiet_source).1 [].
Proof.
  assert ((lexed_sample quiet_source).2 = []) as <- by (vm_compute; reflexivity).
  by apply sample_lexes.
Qed.

Lemma quiet_lexing_has_no_error_tokens_witness :
  Forall (λ info, kind info ≠ TokenKind.Error)
    (token_infos (buffer (lexed_sample quiet_source).1)).
Proof.
  apply (quiet_lexing_has_no_error_tokens quiet_source [] [] [] []);
    [reflexivity|by apply no_stores|exact quiet_lexes].
Defined.

Lemma lex_matched_source_witness :
  ∃ s', Lex (λ _, Ok []) false (StringRef.mk 0 sample_source) (sample_lexer sample_source) =
      Ok (None, s', (lexed_sample sample_source).2) ∧
    Lexed (buffer s') ∧ error_tokens_reported (buffer s') ∧
    has_errors (buffer s') = negb (bool_decide ((lexed_sample sample_source).2 = [])).
Proof.
  apply (lex_matched_source sample_source [] [] [] [] (λ _, Ok []) false (lexed_sample sample_source).1);
    [reflexivity|by apply no_stores|by apply sample_lexes|split; vm_compute; reflexivity].
Defined.

(** ** Behaviours worth knowing *)

(** The lines of a block of comments after the second get the indent of the
    first; the second keeps none. *)
Example second_comment_line_has_no_indent :
  (indent <$> line_infos (buffer (lexed_sample (str
    ("  // a" ++ newline ++ "  // b" ++ newline ++ "  // c" ++ newline ++ "x")%string)).1)) =
  [2; 0; 2; 0; 0].
Proof. vm_compute. reflexivity. Qed.

(** A [$] merged with the word before it takes the word's leading space away. *)
Example merged_dollar_loses_leading_space :
  (λ info, (kind info, has_leading_space info)) <$>
    token_infos (buffer (lexed_sample (str "a b$1"%string)).1) =
  [(TokenKind.FileStart, false); (TokenKind.Identifier, true); (TokenKind.Error, false);
   (TokenKind.FileEnd, true)].
Proof. vm_compute. reflexivity. Qed.

(** An empty comment before CR LF is diagnosed. *)
Example empty_comment_before_crlf :
  lex_kind <$> (lexed_sample (str "//" ++ ["013"%char; "010"%char])).2 =
  [LexDiagnosticKind.NoWhitespaceAfterCommentIntroducer].
Proof. vm_compute. reflexivity. Qed.

(** [r#$] is a raw identifier. *)
Example raw_identifier_of_dollar :
  (kind <$> token_infos (buffer (lexed_sample (str "r#$"%string)).1)) =
    [TokenKind.FileStart; TokenKind.Identifier; TokenKind.FileEnd] ∧
  identifiers (buffer (lexed_sample (str "r#$"%string)).1) = ["r"%string; "$"%string].
Proof. vm_compute. done. Qed.
End samples.
