(* ===== verification/Recovered.v ===== *)
(** Lexing a source whose brackets do not match: given a repair that balances
    them, [DiagnoseAndFixMismatchedBrackets] fails no check and leaves a buffer
    with everything the parser asks for. *)

From S2P Require Import Prelude TokenKinds Text APInts IntStores Simd LexDiagnostics.
From S2P Require Import StringLiterals Utf8 Tokens Lexed TokenText LexState BracketTokens.
From S2P Require Import LexRecovery Lexer LexPieces LexInvariant LexSteps LexDispatch.
From S2P Require Import RecoveryMerge RecoveryLinks RecoveryTotal Lexing.
Import TokenizedBuffer.

Implicit Types (k : TokenKind.t) (c : BracketCorrection) (pending : list Insertion).

(** * The repaired stream *)

(** The kinds of the stream once [pending], in order, is merged in. *)
Fixpoint merged_kinds (idx : Z) (kinds : list TokenKind.t) pending : list TokenKind.t :=
  match kinds with
  | [] => []
  | k :: kinds =>
      ((λ i, kind (insertion_info i)) <$> filter (λ i, target i = idx) pending) ++
      k :: merged_kinds (idx + 1) kinds pending
  end.

(** What corrections make of a stream. *)
Definition repaired_kinds (kinds : list TokenKind.t) (cs : list BracketCorrection)
    : list TokenKind.t :=
  merged_kinds 0 (with_errors_of kinds cs) (sort_insertions (asked 0 cs)).

Definition is_bracket k : bool := TokenKind.is_opening_symbol k || TokenKind.is_closing_symbol k.

(** What [FixMismatchedBrackets] is documented to return for a stream: some
    corrections of brackets of the stream, at tokens of it, that together balance
    it. *)
Record repair_ok (kinds : list TokenKind.t) (cs : list BracketCorrection) : Prop := {
  repair_some : cs ≠ [];
  repair_count : vec_size kinds + vec_size cs ≤ MaxTokens;
  repair_in_stream : Forall (in_stream (vec_size kinds)) cs;
  repair_brackets : Forall (λ c,
    match replaced_token c with
    | Some tok => ∃ k, vec_get kinds tok = Ok k ∧ is_bracket k = true
    | None => is_bracket (fix_token_kind c) = true
    end) cs;
  repair_balanced : balanced (repaired_kinds kinds cs);
}.

(** ** Requests that are the same but for the token's record *)

Lemma same_request_target i j : same_request i j → target i = target j.
Proof. intros (Ha & Hs & _). unfold target. by rewrite Ha, Hs. Qed.

Lemma same_request_lt i i' j j' :
  same_request i i' → same_request j j' → insertion_lt i j = insertion_lt i' j'.
Proof.
  intros Hi Hj. unfold insertion_lt, insertion_is_closing.
  rewrite (same_request_target _ _ Hi), (same_request_target _ _ Hj).
  destruct Hi as (_ & -> & -> & ->), Hj as (_ & -> & -> & ->). done.
Qed.

Lemma insert_sorted_same i i' l l' :
  same_request i i' → Forall2 same_request l l' →
  Forall2 same_request (insert_sorted i l) (insert_sorted i' l').
Proof.
  intros Hi. induction 1 as [|j j' l l' Hj Hl IH]; cbn [insert_sorted].
  { constructor; [done|constructor]. }
  rewrite (same_request_lt _ _ _ _ Hi Hj). 
  destruct (insertion_lt i' j'); (constructor; [done|]); [by constructor|done].
Qed.

Lemma sort_insertions_same l l' :
  Forall2 same_request l l' → Forall2 same_request (sort_insertions l) (sort_insertions l').
Proof.
  induction 1 as [|i i' l l' Hi Hl IH]; [constructor|]. by apply insert_sorted_same.
Qed.

Lemma filter_same idx l l' :
  Forall2 same_request l l' →
  Forall2 same_request (filter (λ i, target i = idx) l) (filter (λ i, target i = idx) l').
Proof.
  induction 1 as [|i i' l l' Hi Hl IH]; [constructor|]. rewrite !filter_cons.
  rewrite (same_request_target _ _ Hi). case_decide; [by constructor|done].
Qed.

Lemma led_kinds l l' leading :
  Forall2 same_request l l' →
  kind <$> led leading l = (λ i, kind (insertion_info i)) <$> l'.
Proof.
  intros H. revert leading. induction H as [|i i' l l' Hi Hl IH]; intros leading; [done|].
  cbn. f_equal; [apply Hi|apply IH].
Qed.

Lemma merged_tokens_kinds ts pending pending' :
  Forall2 same_request pending pending' → ∀ idx,
  kind <$> merged_tokens idx ts pending = merged_kinds idx (kind <$> ts) pending'.
Proof.
  intros H. induction ts as [|info ts IH]; intros idx; [done|].
  cbn [merged_tokens merged_kinds fmap list_fmap]. fold (fmap (M := list) kind).
  rewrite fmap_app, IH. pose proof (filter_same idx _ _ H) as Hf.
  destruct (filter _ pending) as [|i l].
  - apply Forall2_nil_inv_l in Hf as ->. done.
  - cbn [placed]. rewrite fmap_app, (led_kinds _ _ _ Hf), <- app_assoc. done.
Qed.

Lemma merged_tokens_offsets ts pending :
  Forall (λ t, 0 ≤ byte_offset t) ts →
  Forall (λ i, 0 ≤ byte_offset (insertion_info i)) pending → ∀ idx,
  Forall (λ t, 0 ≤ byte_offset t) (merged_tokens idx ts pending).
Proof.
  intros Ht Hp. induction Ht as [|t ts Ht _ IH]; intros idx; [constructor|].
  cbn [merged_tokens]. apply Forall_app_2; [|apply IH].
  assert (Forall (λ i, 0 ≤ byte_offset (insertion_info i)) (filter (λ i, target i = idx) pending)) as Hf.
  { apply Forall_forall. intros i [_ Hi]%list_elem_of_filter. rewrite Forall_forall in Hp. auto. }
  destruct (filter _ pending) as [|i l]; [by constructor|]. cbn [placed].
  apply Forall_app_2; [|by constructor]. generalize (has_leading_space t).
  induction Hf as [|j l' Hj _ IHf]; intros leading; [constructor|]. by constructor.
Qed.

(** ** The ends of the stream *)

Definition inner k : Prop := k ≠ TokenKind.FileStart ∧ k ≠ TokenKind.FileEnd.

(** A stream between its boundary tokens. *)
Definition delimited (kinds : list TokenKind.t) : Prop :=
  ∃ mid, kinds = TokenKind.FileStart :: mid ++ [TokenKind.FileEnd] ∧ Forall inner mid.

Lemma bracket_inner k : is_bracket k = true → inner k.
Proof. by destruct k. Qed.

Lemma delimited_bracket kinds tok k :
  delimited kinds → vec_get kinds tok = Ok k → is_bracket k = true → 0 < tok < vec_size kinds - 1.
Proof.
  intros (mid & -> & _) Hk Hb. pose proof (vec_get_lt _ _ _ Hk) as Hr.
  rewrite last_index. destruct (decide (tok = 0)) as [->|H0].
  { cbn in Hk. by injection Hk as <-. }
  rewrite vec_size_cons, vec_size_app, vec_size_one in Hr.
  destruct (decide (tok = vec_size (TokenKind.FileStart :: mid))) as [->|Hn].
  { rewrite app_comm_cons, vec_get_app_last in Hk. by injection Hk as <-. }
  rewrite vec_size_cons in *. lia.
Qed.

Lemma delimited_error kinds tok :
  delimited kinds → 0 < tok < vec_size kinds - 1 → delimited (vec_set kinds tok TokenKind.Error).
Proof.
  intros (mid & -> & Hm) Hr. rewrite last_index, vec_size_cons in Hr.
  exists (vec_set mid (tok - 1) TokenKind.Error). split.
  - unfold vec_set. replace (Z.to_nat tok) with (S (Z.to_nat (tok - 1))) by lia. cbn. f_equal.
    apply insert_app_l. unfold vec_size in Hr. lia.
  - by apply Forall_insert.
Qed.

Lemma delimited_errors kinds cs :
  delimited kinds → Forall (λ c, ∀ tok, replaced_token c = Some tok → 0 < tok < vec_size kinds - 1) cs →
  delimited (with_errors_of kinds cs).
Proof.
  intros Hd H. revert kinds Hd H. induction cs as [|c cs IH]; intros kinds Hd H; [done|].
  apply Forall_cons in H as [Hc H]. cbn. apply IH; [|by rewrite with_error_size].
  unfold with_error. destruct (replaced_token c) as [tok|]; [|done]. apply delimited_error; auto.
Qed.

Lemma merged_kinds_snoc kinds k pending : ∀ idx,
  merged_kinds idx (kinds ++ [k]) pending = merged_kinds idx kinds pending ++
    ((λ i, kind (insertion_info i)) <$> filter (λ i, target i = idx + vec_size kinds) pending) ++ [k].
Proof.
  induction kinds as [|k' kinds IH]; intros idx; cbn [app merged_kinds].
  { change (vec_size []) with 0. by rewrite Z.add_0_r. }
  rewrite IH, <- app_assoc. cbn [app]. do 4 f_equal. rewrite vec_size_cons. do 3 f_equal.
  apply list_filter_iff. intros i. lia.
Qed.

Lemma merged_kinds_inner kinds pending :
  Forall inner kinds → Forall (λ i, inner (kind (insertion_info i))) pending → ∀ idx,
  Forall inner (merged_kinds idx kinds pending).
Proof.
  intros Hk Hp. induction Hk as [|k kinds Hk _ IH]; intros idx; [constructor|]. cbn [merged_kinds].
  apply Forall_app_2; [|by constructor]. apply Forall_fmap, Forall_forall.
  intros i [_ Hi]%list_elem_of_filter. rewrite Forall_forall in Hp. by apply Hp.
Qed.

Lemma delimited_merged kinds pending :
  delimited kinds → Forall (λ i, inner (kind (insertion_info i))) pending →
  Forall (λ i, 1 ≤ target i) pending → delimited (merged_kinds 0 kinds pending).
Proof.
  intros (mid & -> & Hm) Hp Ht. cbn [merged_kinds]. rewrite filter_none.
  2: { eapply Forall_impl; [exact Ht|]. cbn. lia. }
  cbn [fmap list_fmap app]. rewrite merged_kinds_snoc.
  eexists. rewrite app_assoc. split; [reflexivity|].
  apply Forall_app_2; [by apply merged_kinds_inner|]. apply Forall_fmap, Forall_forall.
  intros i [_ Hi]%list_elem_of_filter. rewrite Forall_forall in Hp. by apply Hp.
Qed.

Lemma delimited_kinds b :
  delimited (kind <$> token_infos b) →
  2 ≤ size b ∧ GetKind b 0 = Ok TokenKind.FileStart ∧ GetKind b (size b - 1) = Ok TokenKind.FileEnd ∧
  ∀ i k, GetKind b i = Ok k → 0 < i → i ≠ size b - 1 → inner k.
Proof.
  intros (mid & E & Hm).
  assert (∀ i k, GetKind b i = Ok k ↔ vec_get (kind <$> token_infos b) i = Ok k) as HK.
  { intros i k. unfold GetKind. rewrite result_bind_Ok. setoid_rewrite vec_get_Ok.
    rewrite list_lookup_fmap. split.
    - intros (t & [H0 Ht] & [= <-]). by rewrite Ht.
    - intros [H0 Hk]. destruct (token_infos b !! Z.to_nat i) as [t|]; [|done].
      injection Hk as <-. by exists t. }
  pose proof (kinds_size b) as Sz. rewrite E in Sz.
  assert (size b - 1 = vec_size (TokenKind.FileStart :: mid)) as El by (by rewrite <- Sz, last_index).
  rewrite !HK, El, E. pose proof (vec_size_nonneg mid). rewrite vec_size_cons in El. split; [lia|].
  split; [done|]. split; [by rewrite app_comm_cons, vec_get_app_last|].
  intros i k Hk H0 Hn. apply HK in Hk. rewrite E, app_comm_cons in Hk.
  apply vec_get_snoc_inv in Hk as [[_ Hk]%vec_get_Ok|[? _]]; [|done].
  destruct (Z.to_nat i) as [|n] eqn:En; [lia|]. by eapply Forall_lookup_1 in Hm.
Qed.

(** * Applying the fixes *)

Section recovered.
Context {Ops : APInts} {Laws : APIntLaws Ops} {Build : LexBuild}.
Context {Utf : ConvertUTF} {UtfLaws : ConvertUTFLaws Utf}.
Context {Simd : X86Simd} {SimdLaws : X86SimdLaws Simd}.
Implicit Types (s : LexerState) (cs : list BracketCorrection) (kinds : list TokenKind.t).

Lemma repair_targets kinds cs : Forall (in_stream (vec_size kinds)) cs → ∀ order,
  Forall (λ i, 1 ≤ target i < vec_size kinds) (asked order cs).
Proof using.
  induction 1 as [|c cs Hc _ IH]; intros order; cbn [asked]; [constructor|].
  destruct (replaces c) eqn:E; [done|]. constructor; [by apply asked_target|done].
Qed.

Lemma repair_inner kinds cs : repair_ok kinds cs → ∀ order,
  Forall (λ i, inner (kind (insertion_info i))) (asked order cs).
Proof using.
  intros H. pose proof (repair_brackets _ _ H) as Hb. clear H.
  induction Hb as [|c cs Hc _ IH]; intros order; cbn [asked]; [constructor|].
  unfold replaces. destruct (replaced_token c); [done|]. constructor; [|done].
  by apply bracket_inner.
Qed.

Lemma asked_count cs : ∀ order, vec_size (asked order cs) ≤ vec_size cs.
Proof using.
  induction cs as [|c cs IH]; intros order; cbn [asked]; [done|]. rewrite vec_size_cons.
  destruct (replaces c); [specialize (IH order); lia|]. rewrite vec_size_cons.
  specialize (IH (order + 1)). lia.
Qed.

Lemma repair_delimited kinds cs :
  delimited kinds → repair_ok kinds cs → delimited (repaired_kinds kinds cs).
Proof using.
  intros Hd H. apply delimited_merged.
  - apply delimited_errors; [done|]. eapply Forall_impl; [apply (repair_brackets _ _ H)|].
    cbn. intros c Hc tok E. rewrite E in Hc. destruct Hc as (k & Hk & Hb).
    by eapply delimited_bracket.
  - rewrite sort_insertions_permutation. by eapply repair_inner.
  - rewrite sort_insertions_permutation.
    eapply Forall_impl; [apply repair_targets, (repair_in_stream _ _ H)|]. cbn. lia.
Qed.

(** The requests of the corrections are what [Apply] can merge. *)
Lemma asked_requests_ok b b' fixes cs :
  repair_ok (kind <$> token_infos b) cs → errors_made b b' cs → recovery_tokens b = [] →
  asked_for NoFixes fixes cs → requests_ok b' fixes.
Proof using.
  intros H He Hr [(new & Ei & Hsame & _) _]. cbn [NoFixes insertions app] in Ei.
  change (vec_size (insertions NoFixes)) with 0 in Hsame. pose proof (repair_count _ _ H) as Hc.
  change MaxTokens with 8388608 in Hc. rewrite kinds_size in Hc.
  assert (vec_size new = vec_size (asked 0 cs)) as Sz.
  { apply Forall2_length in Hsame. unfold vec_size. lia. }
  pose proof (asked_count cs 0). split; rewrite ?Ei.
  - rewrite Sz, <- asked_numbered. clear -Hsame.
    induction Hsame as [|i j l l' Hij _ IH]; [done|]. cbn. f_equal; [apply Hij|exact IH].
  - rewrite (errors_made_size _ _ _ He). pose proof (repair_targets _ _ (repair_in_stream _ _ H) 0) as Ht.
    rewrite kinds_size in Ht. clear -Hsame Ht.
    induction Hsame as [|i j l l' Hij _ IH]; [done|]. apply Forall_cons in Ht as [Hj Ht].
    constructor; [rewrite (same_request_target _ _ Hij); lia|auto].
  - rewrite (errors_made_size _ _ _ He). lia.
  - by rewrite (errors_recovery _ _ _ He).
Qed.

Lemma relinked_kinds b b' : relinked b b' → kind <$> token_infos b' = kind <$> token_infos b.
Proof using.
  intros (H & _). induction H as [|t t' ts ts' Ht _ IH]; [done|]. cbn. f_equal; [apply Ht|exact IH].
Qed.

Lemma relinked_offsets b b' :
  relinked b b' → Forall (λ t, 0 ≤ byte_offset t) (token_infos b) →
  Forall (λ t, 0 ≤ byte_offset t) (token_infos b').
Proof using.
  intros (H & _). induction H as [|t t' ts ts' (_ & _ & Ho & _) _ IH]; [done|].
  intros [Ht Hts]%Forall_cons. constructor; [by rewrite Ho|auto].
Qed.

(** The buffer the fixes are applied to becomes one for the parser. *)
Lemma apply_fixes_total b b' fixes cs :
  readable b → readable b' → delimited (kind <$> token_infos b) →
  recovery_tokens b = [] → post_lexing_recovery_tokens b = 0 →
  repair_ok (kind <$> token_infos b) cs → errors_made b b' cs → asked_for NoFixes fixes cs →
  ∃ fixes2 b2 b3, Apply fixes b' = Ok (fixes2, b2) ∧ FixTokenCrossReferences b2 = Ok b3 ∧
    Lexed b3 ∧ same_source b b3 ∧
    (kind <$> token_infos b3) = repaired_kinds (kind <$> token_infos b) cs ∧
    vec_size (inserted_token_index fixes2) = vec_size (insertions fixes) ∧
    vec_size (new_token_index fixes2) = size b ∧ size b3 ≤ MaxTokens.
Proof using.
  intros Hb Hb' Hd Hrec Hpost H He Ha.
  pose proof (asked_requests_ok _ _ _ _ H He Hrec Ha) as Hok.
  destruct (Apply_merged _ _ Hok) as (b2 & E2 & Ei & Hsrc & _).
  destruct (asked_insertions _ _ _ Ha) as (new & En & Hsame & Hoff).
  cbn [NoFixes insertions app] in En. change (vec_size (insertions NoFixes)) with 0 in Hsame.
  assert ((kind <$> token_infos b2) = repaired_kinds (kind <$> token_infos b) cs) as Ek.
  { rewrite Ei, En. rewrite (merged_tokens_kinds _ _ _ (sort_insertions_same _ _ Hsame)).
    by rewrite (errors_kinds _ _ _ He). }
  assert (same_source b b2) as Hs2 by (etransitivity; [apply (errors_source _ _ _ He)|exact Hsrc]).
  assert (Forall (λ t, 0 ≤ byte_offset t) (token_infos b2)) as Ho2.
  { rewrite Ei. apply merged_tokens_offsets; [apply (readable_offsets _ Hb')|].
    by rewrite sort_insertions_permutation, En. }
  assert (size b2 ≤ 2 ^ PayloadBits) as Hsz.
  { unfold size. rewrite Ei, merged_tokens_size.
    2: { rewrite sort_insertions_permutation. apply (requests_target _ _ Hok). }
    rewrite sort_insertions_size, En. pose proof (repair_count _ _ H) as Hc. rewrite kinds_size in Hc.
    pose proof (errors_made_size _ _ _ He) as Sz. unfold size in Sz, Hc. rewrite Sz.
    apply Forall2_length in Hsame. pose proof (asked_count cs 0).
    change MaxTokens with (2 ^ PayloadBits) in Hc. unfold vec_size in *. lia. }
  destruct (FixTokenCrossReferences_links b2) as (b3 & E3 & R & HL).
  - rewrite Ek. apply (repair_balanced _ _ H).
  - exact Hsz.
  - destruct Hs2 as (_ & _ & -> & _). done.
  - eexists _, b2, b3. split; [exact E2|]. split; [exact E3|].
    assert (same_source b b3) as Hs3 by (etransitivity; [exact Hs2|apply R]).
    pose proof (relinked_kinds _ _ R) as Ek3. rewrite Ek in Ek3.
    assert (delimited (kind <$> token_infos b3)) as Hd3 by (rewrite Ek3; by apply repair_delimited).
    destruct (delimited_kinds _ Hd3) as (D1 & D2 & D3 & D4). split.
    { apply Matched_lexed; try done.
      - by apply (groups_matched _ _ _ (links_groups _ _ _ HL)).
      - by destruct Hs3 as (_ & _ & -> & _).
      - destruct Hs3 as (-> & _). apply (readable_line _ Hb).
      - by apply (relinked_offsets b2). }
    split; [done|]. split; [done|]. cbn [inserted_token_index new_token_index].
    rewrite !set_all_size. unfold vec_size. rewrite !length_replicate.
    split; [by rewrite sort_insertions_permutation|]. split; [apply (errors_made_size _ _ _ He)|].
    destruct R as (R & _). apply Forall2_length in R. unfold size, vec_size in *. by rewrite <- R.
Qed.

(** * What lexing leaves to recovery *)

Lemma boundary_text b tok info :
  vec_get (token_infos b) tok = Ok info →
  kind info = TokenKind.FileStart ∨ kind info = TokenKind.FileEnd → GetTokenText b tok = Ok [].
Proof using.
  intros Hi Hk. unfold GetTokenText. rewrite Hi. cbn [mbind Result_bind]. unfold is_kind.
  destruct Hk as [-> | ->]; reflexivity.
Qed.

Lemma Done_readable s ps source :
  vec_size source < MaxSource → Done s ps source → readable (buffer s).
Proof using Laws Utf UtfLaws.
  intros Hs HD. split; [by eapply Done_first_line|by eapply Done_offsets|]. intros tok Hr.
  destruct (Done_kinds _ _ _ Hs HD) as (K1 & K2 & _). pose proof (Done_size _ _ _ HD) as Sz.
  destruct (decide (tok = 0)) as [->|H0].
  { apply result_bind_Ok in K1 as (info & Hi & [= Hk]). exists []. eapply boundary_text; eauto. }
  destruct (decide (tok = size (buffer s) - 1)) as [->|Hn].
  { apply result_bind_Ok in K2 as (info & Hi & [= Hk]). exists []. eapply boundary_text; eauto. }
  destruct (lookup_lt_is_Some_2 (extents 0 ps) (Z.to_nat (tok - 1))) as [[off text] He].
  { unfold vec_size in Sz. lia. }
  destruct (Done_token_at _ _ _ _ _ _ Hs HD He) as (info & _ & _ & Et). exists text.
  by replace (Z.of_nat (Z.to_nat (tok - 1)) + 1) with tok in Et by lia.
Qed.

Lemma Done_delimited s ps source :
  Done s ps source → delimited (kind <$> token_infos (buffer s)).
Proof using.
  intros HD. destruct (done_tokens _ _ _ HD) as (first & infos & last & E & [Hk _] & Hf & Hl & _).
  rewrite E. cbn. rewrite fmap_app. cbn. rewrite Hk, Hl. eexists. split; [reflexivity|].
  apply Forall_fmap. apply Forall_forall. intros info (n & Hn)%list_elem_of_lookup.
  destruct (Forall2_lookup_l _ _ _ _ _ Hf Hn) as (e & _ & (_ & Hin & _)). cbn.
  split; intros Ek; by rewrite Ek in Hin.
Qed.

(** * The translation of the corrections *)

Lemma renumber_all_total fixes n cs : ∀ ids,
  vec_size (inserted_token_index fixes) = vec_size (insertions fixes) →
  vec_size (new_token_index fixes) = n → Forall (in_stream n) cs →
  Forall (id_of fixes) ids →
  succeeds (renumber_all fixes ids cs) (λ _, True).
Proof using.
  intros ids Hins Hnew Hcs. revert ids.
  assert (∀ x, 0 ≤ x < n → succeeds (GetNewTokenIndex fixes x) (λ _, True)) as Hold.
  { intros x Hx. unfold GetNewTokenIndex. destruct (insertions fixes); [by apply succeeds_ret|].
    apply succeeds_bind, succeeds_require.
    - rewrite bool_decide_false; [done|]. intros E. rewrite E in Hnew.
      change (vec_size []) with 0 in Hnew. lia.
    - apply succeeds_get; [by rewrite Hnew|done]. }
  induction Hcs as [|c cs Hc _ IH]; intros ids Hids;
    (destruct ids as [|id ids]; cbn [renumber_all]; [by apply succeeds_ret|]);
    [by apply succeeds_ret|].
  apply Forall_cons in Hids as [Hid Hids].
  apply (succeeds_then _ _ (λ _, True)); [|intros c' _; eapply succeeds_then; [by apply IH|];
    intros; by apply succeeds_ret].
  unfold renumber. eapply succeeds_then; [apply Hold, Hc|]. intros d _.
  apply (succeeds_then _ _ (λ _, True)); [|intros; by apply succeeds_ret].
  destruct (Z.leb_spec 0 id); [|apply Hold, Hc].
  apply succeeds_get; [|done]. destruct Hid as [?|Hid]; lia.
Qed.

Lemma fixes_not_empty fixes cs : cs ≠ [] → asked_for NoFixes fixes cs → fixes_empty fixes = false.
Proof using.
  intros Hne [(new & Ei & Hsame & _) He]. unfold fixes_empty. rewrite He.
  destruct cs as [|c cs]; [done|]. cbn [existsb asked] in *. destruct (replaces c) eqn:E.
  - cbn. by rewrite andb_false_r.
  - apply Forall2_cons_inv_r in Hsame as (i & l & _ & _ & ->). rewrite Ei. done.
Qed.

(** [DiagnoseAndFixMismatchedBrackets], on a buffer lexing has built. *)
Lemma DiagnoseAndFix_total (Fix : BracketFixer) want s tokens cs
    (Q : option (list BracketCorrection) → LexerState → list LexDiagnostic → Prop) :
  let kinds := kind <$> token_infos (buffer s) in
  readable (buffer s) → delimited kinds → recovery_tokens (buffer s) = [] →
  post_lexing_recovery_tokens (buffer s) = 0 →
  CollectMismatchedBracketTokens (buffer s) = Ok tokens → Fix tokens = Ok cs → repair_ok kinds cs →
  (∀ r s' w, Lexed (buffer s') → has_errors (buffer s') = true →
    (kind <$> token_infos (buffer s')) = repaired_kinds kinds cs →
    length w = length cs → size (buffer s') ≤ MaxTokens →
    (is_Some r ↔ want = true) → Q r s' w) →
  total (DiagnoseAndFixMismatchedBrackets Fix want) Q s.
Proof using.
  intros kinds Hb Hd Hrec Hpost Ht HFix H HQ. unfold DiagnoseAndFixMismatchedBrackets.
  total_step. eapply total_lift; [exact Ht|]. total_step. eapply total_lift; [exact HFix|].
  total_step.
  assert (Forall (in_stream (size (buffer s))) cs) as Hin.
  { rewrite <- kinds_size. apply (repair_in_stream _ _ H). }
  apply request_fixes_total; [done|done|constructor|].
  intros fixes ids s1 w Hb1 He Ha Hids Hlen Hw. cbv beta iota. total_steps.
  set (b1 := with_errors true (buffer s1)).
  assert (errors_made (with_errors true (buffer s)) b1 cs) as He1.
  { destruct He as [(A1 & A2 & A3 & A4 & A5) E2 E3]. by split; [split_and!|..]. }
  rewrite (fixes_not_empty _ _ (repair_some _ _ H) Ha).
  destruct (apply_fixes_total (with_errors true (buffer s)) b1 fixes cs)
    as (fixes2 & b2 & b3 & E2 & E3 & HL & Hsrc & Ek & Hins & Hnew & Hsz); try done.
  { by destruct Hb; split. }
  { by destruct Hb1; split. }
  total_step. eapply total_lift; [exact E2|]. total_step. eapply total_lift; [exact E3|].
  total_steps.
  assert (has_errors b3 = true) as Herr by (destruct Hsrc as (_ & -> & _); done).
  destruct want.
  - destruct (renumber_all_total fixes2 (size (buffer s)) cs ids) as (cs' & Er & _); try done.
    { rewrite Hins. symmetry. by apply Apply_insertions in E2. }
    { eapply Forall_impl; [exact Hids|]. unfold id_of. apply Apply_insertions in E2 as ->. done. }
    total_step. eapply total_lift; [exact Er|]. total_steps. apply HQ; [done..| |done|done].
    rewrite !app_nil_r. exact Hw.
  - total_steps. apply HQ; [done..| |done|].
    + rewrite !app_nil_r. exact Hw.
    + split; [by intros []|done].
Qed.

(** [Lexer::Lex] of a source whose brackets do not match. *)
Lemma Lex_unmatched source ids iv rs ss (Fix : BracketFixer) want s w tokens cs :
  vec_size source < MaxSource → StoresOk source ids iv rs ss →
  lexes source ids iv rs ss s w → ¬ matched s →
  CollectMismatchedBracketTokens (buffer s) = Ok tokens → Fix tokens = Ok cs →
  repair_ok (kind <$> token_infos (buffer s)) cs →
  ∃ corrections s' w', Lex Fix want (StringRef.mk 0 source)
      (MakeLexer (StringRef.mk 0 source) ids iv rs ss) = Ok (corrections, s', w ++ w') ∧
    Lexed (buffer s') ∧ has_errors (buffer s') = true ∧
    (kind <$> token_infos (buffer s')) = repaired_kinds (kind <$> token_infos (buffer s)) cs ∧
    length w' = length cs ∧ (is_Some corrections ↔ want = true).
Proof using Laws Utf UtfLaws Simd SimdLaws.
  intros Hs Hst H Hm Et HFix Hok.
  destruct (lexes_done source ids iv rs ss Hs Hst _ _ H) as (ps & HD & _).
  destruct (done_recovery _ _ _ HD) as [Hpost Hrec]. set (kinds := kind <$> token_infos (buffer s)) in *.
  assert (total (Finalize Fix want) (λ r s' w', Lexed (buffer s') ∧ has_errors (buffer s') = true ∧
      (kind <$> token_infos (buffer s')) = repaired_kinds kinds cs ∧
      length w' = length cs ∧ (is_Some r ↔ want = true)) s)
    as (r & s' & w' & E & HL & He & Hk & Hw & Hr).
  { unfold Finalize. do 4 (total_step; cbv beta).
    assert (has_mismatched_brackets s || negb (bool_decide (length (open_groups s) = 0%nat)) = true) as ->.
    { destruct (has_mismatched_brackets s) eqn:Em; [done|]. cbn. rewrite bool_decide_false; [done|].
      intros En. apply Hm. split; [done|]. by destruct (open_groups s). }
    total_step. eapply DiagnoseAndFix_total; [by eapply Done_readable|by eapply Done_delimited|done|done|exact Et|exact HFix|exact Hok|].
    intros r s' w' HL He Hk Hw Hsz Hr. total_steps. apply total_when.
    { intros Hlt%Z.ltb_lt. lia. }
    intros _. total_steps. cbn [app]. by rewrite !app_nil_r. }
  unfold Lex, lex_body. unfold lexes in H.
  rewrite (bind_Ok _ _ _ _ _ _ _ _ _ H E). cbn [mbind Result_bind mret Result_ret].
  eexists r, _, w'. split; [reflexivity|]. destruct (negb _); cbn.
  - split; [by destruct HL; split|]. by split_and!.
  - by split_and!.
Qed.

Lemma Done_collects s ps source :
  vec_size source < MaxSource → Done s ps source →
  succeeds (CollectMismatchedBracketTokens (buffer s)) (λ _, True).
Proof using Laws Utf UtfLaws.
  intros Hs HD. apply (CollectMismatchedBracketTokens_total _ (Done_readable _ _ _ Hs HD)).
  destruct (done_recovery _ _ _ HD) as [Hpost _].
  unfold tokens_end. rewrite Hpost. pose proof (vec_size_nonneg (token_infos (buffer s))).
  unfold size. lia.
Qed.

(** C10. A source whose brackets do not match. Describing the tokens for the
    search returns; and if the search returns a repair as it is documented to,
    corrections of brackets that together balance the stream, then the whole of
    [Lexer::Lex] returns: no check of the recovery buffer, of the cross
    references ("Failed to balance brackets") or of the renumbering fails. Each
    correction is diagnosed once, the buffer has the repaired stream, its error
    flag, and everything the parser asks of a buffer. *)
Theorem lex_recovered_source source ids iv rs ss (Fix : BracketFixer) want s w :
  vec_size source < MaxSource → StoresOk source ids iv rs ss →
  lexes source ids iv rs ss s w → ¬ matched s →
  let kinds := kind <$> token_infos (buffer s) in
  ∃ tokens, CollectMismatchedBracketTokens (buffer s) = Ok tokens ∧
    ∀ cs, Fix tokens = Ok cs → repair_ok kinds cs →
     ∃ corrections s' w', Lex Fix want (StringRef.mk 0 source)
         (MakeLexer (StringRef.mk 0 source) ids iv rs ss) = Ok (corrections, s', w ++ w') ∧
       Lexed (buffer s') ∧ has_errors (buffer s') = true ∧
       (kind <$> token_infos (buffer s')) = repaired_kinds kinds cs ∧
       length w' = length cs ∧ (is_Some corrections ↔ want = true).
Proof using Laws Utf UtfLaws Simd SimdLaws.
  intros Hs Hst H Hm kinds. destruct (lexes_done source ids iv rs ss Hs Hst _ _ H) as (ps & HD & _).
  destruct (Done_collects _ _ _ Hs HD) as (tokens & Et & _). exists tokens. split; [done|].
  intros cs HFix Hok. by apply (Lex_unmatched _ _ _ _ _ _ _ s w tokens).
Qed.
End recovered.

(** * The theorem at a sample *)

Section samples.
#[local] Existing Instances ZAPInt.ops ZAPInt.laws ByteLanes.ops ByteLanes.laws sample_build.

(** A call without its closing parenthesis. *)
Definition open_source : list char := str "f(x;"%string.

(** The parenthesis goes after the argument. *)
Definition sample_corrections : list BracketCorrection :=
  [{| diagnostic_kind := UnmatchedOpening; diagnostic_token_index := 2;
      fix_action := InsertAfter; fix_token_index := 3;
      fix_token_kind := TokenKind.CloseParen; is_tied := false |}].

Definition sample_fixer : BracketFixer := λ _, Ok sample_corrections.

Definition open_kinds : list TokenKind.t :=
  [TokenKind.FileStart; TokenKind.Identifier; TokenKind.OpenParen; TokenKind.Identifier;
   TokenKind.Semi; TokenKind.FileEnd].

Lemma sample_repair : repair_ok open_kinds sample_corrections.
Proof.
  split.
  - done.
  - vm_compute. discriminate.
  - constructor; [|constructor]. change (vec_size open_kinds) with 6.
    split; cbn; [lia|lia|done|lia].
  - constructor; [done|constructor].
  - vm_compute. do 2 (apply balanced_other; [done..|]).
    apply (balanced_group TokenKind.OpenParen [TokenKind.Identifier]); [done|..];
      repeat (apply balanced_other; [done..|]); constructor.
Qed.

Lemma lex_recovered_source_witness :
  ∃ corrections s' w', Lex sample_fixer true (StringRef.mk 0 open_source)
      (sample_lexer open_source) = Ok (corrections, s', w') ∧
    Lexed (buffer s') ∧ (kind <$> token_infos (buffer s')) =
      [TokenKind.FileStart; TokenKind.Identifier; TokenKind.OpenParen; TokenKind.Identifier;
       TokenKind.CloseParen; TokenKind.Semi; TokenKind.FileEnd] ∧ is_Some corrections.
Proof.
  assert (vec_size open_source < MaxSource) as Hs by reflexivity.
  destruct (lex_recovered_source open_source [] [] [] [] sample_fixer true
      (lexed_sample open_source).1 (lexed_sample open_source).2) as (tokens & _ & H).
  - exact Hs.
  - by apply no_stores.
  - by apply sample_lexes.
  - intros [_ Ho]. by vm_compute in Ho.
  - destruct (H sample_corrections) as (corrections & s' & w' & E & HL & _ & Hk & _ & Hc).
    + reflexivity.
    + replace (kind <$> _) with open_kinds by (vm_compute; reflexivity). apply sample_repair.
    + exists corrections, s', ((lexed_sample open_source).2 ++ w'). split; [exact E|].
      split; [exact HL|]. split; [|by apply Hc]. rewrite Hk. vm_compute. reflexivity.
Defined.
End samples.
