(* ===== verification/BracketWalk.v ===== *)
(** Walks over a token stream that end with every bracket matched: what a
    complete bracket repair is, as the sequence of its decisions. A repaired
    stream balances because its corrections are those of a walk, whichever of
    them are given up as tied. *)

From Stdlib Require Import Sorting.Sorted.
From stdpp Require Import sorting.
From S2P Require Import Prelude TokenKinds Tokens BracketTokens LexRecovery RecoveryLinks.
From S2P Require Import LexInvariant RecoveryMerge RecoveryTotal Recovered.
Import TokenizedBuffer.

Implicit Types (k : TokenKind.t) (c : BracketCorrection) (W : list BracketCorrection).

(** * Walks *)

(** An open bracket: a token, or one that would be inserted before a token. *)
Inductive Entry : Set :=
  | Real (d : Z) (k : TokenKind.t)
  | Synth (u : Z) (k : TokenKind.t).
Implicit Types (e : Entry) (st : list Entry).

Definition entry_kind e : TokenKind.t := match e with Real _ k | Synth _ k => k end.

(** Whether the innermost open bracket would be inserted before [t]. *)
Definition opened_at (t : Z) st : bool :=
  match st with Synth u _ :: _ => u =? t | _ => false end.

(** [c] says to insert [k] before [fix_token], for the bracket [diagnosed]. *)
Definition inserts c (diagnosed fix_token : Z) k : Prop :=
  diagnostic_token_index c = diagnosed ∧ fix_action c = InsertBefore ∧
  fix_token_index c = fix_token ∧ fix_token_kind c = k.

(** [c] says to replace the bracket [t]. *)
Definition gives_up c (t : Z) : Prop :=
  diagnostic_token_index c = t ∧ fix_action c = ReplaceWithError ∧ fix_token_index c = t.

Section walk.
Variable kinds : list TokenKind.t.

(** [walk t st W]: from the token [t] with the brackets [st] open, the rest of the
    stream can be read with the corrections [W], in the order they are decided. *)
Inductive walk : Z → list Entry → list BracketCorrection → Prop :=
  | walk_end : walk (vec_size kinds) [] []
  | walk_close t d k st c W :
      1 ≤ t < vec_size kinds → inserts c d t (TokenKind.closing_symbol k) →
      walk t st W → walk t (Real d k :: st) (c :: W)
  | walk_open t k st W :
      1 ≤ t < vec_size kinds → TokenKind.is_opening_symbol k = true → opened_at t st = false →
      walk t (Synth t k :: st) W → walk t st W
  | walk_other t k st W :
      vec_get kinds t = Ok k → is_bracket k = false → walk (t + 1) st W → walk t st W
  | walk_push t k st W :
      vec_get kinds t = Ok k → TokenKind.is_opening_symbol k = true →
      walk (t + 1) (Real t k :: st) W → walk t st W
  | walk_error t k st c W :
      vec_get kinds t = Ok k → is_bracket k = true → gives_up c t →
      walk (t + 1) st W → walk t st (c :: W)
  | walk_match t d k st W :
      vec_get kinds t = Ok (TokenKind.closing_symbol k) →
      walk (t + 1) st W → walk t (Real d k :: st) W
  | walk_match_synth t u k st c W :
      vec_get kinds t = Ok (TokenKind.closing_symbol k) → inserts c t u k →
      walk (t + 1) st W → walk t (Synth u k :: st) (c :: W).

(** Open brackets are openers at positions that go down the stack, before [t]; at
    most one is inserted before any token. *)
Fixpoint wf_stack (t : Z) st : Prop :=
  match st with
  | [] => True
  | e :: st =>
      TokenKind.is_opening_symbol (entry_kind e) = true ∧
      match e with
      | Real d _ => 0 ≤ d < t ∧ wf_stack d st
      | Synth u _ => 1 ≤ u ≤ t ∧ opened_at u st = false ∧ wf_stack u st
      end
  end.

Lemma wf_stack_mono t t' st : t ≤ t' → wf_stack t st → wf_stack t' st.
Proof. intros Ht. destruct st as [|[d k|u k] st]; cbn; [done|..]; intuition lia. Qed.

Lemma wf_stack_tail t e st : wf_stack t (e :: st) → wf_stack t st.
Proof.
  destruct e as [d k|u k]; cbn; [intros (_ & ? & H)|intros (_ & ? & _ & H)];
    (eapply wf_stack_mono; [|exact H]); lia.
Qed.

Lemma wf_stack_real t st d k : wf_stack t st → Real d k ∈ st → 0 ≤ d < t.
Proof.
  revert t. induction st as [|e st IH]; intros t Hwf Hin; [by apply not_elem_of_nil in Hin|].
  apply elem_of_cons in Hin as [<-|Hin]; [cbn in Hwf; tauto|].
  apply wf_stack_tail in Hwf. eauto.
Qed.

Lemma wf_stack_synth t st u k :
  wf_stack t st → Synth u k ∈ st → u < t ∨ u = t ∧ opened_at t st = true.
Proof.
  revert t. induction st as [|e st IH]; intros t Hwf Hin; [by apply not_elem_of_nil in Hin|].
  apply elem_of_cons in Hin as [<-|Hin].
  - cbn in *. destruct (Z.eqb_spec u t); lia.
  - destruct e as [d k'|u' k']; cbn in Hwf.
    + destruct Hwf as (_ & ? & Hwf). destruct (IH _ Hwf Hin); lia.
    + destruct Hwf as (_ & ? & Ho & Hwf). destruct (IH _ Hwf Hin) as [|[-> Ho']]; [lia|congruence].
Qed.

Lemma opened_at_later t st : wf_stack t st → opened_at (t + 1) st = false.
Proof.
  destruct st as [|[d k|u k] st]; cbn; [done..|]. intros (_ & ? & _). apply Z.eqb_neq. lia.
Qed.

Lemma opened_at_below t d k st : wf_stack t (Real d k :: st) → opened_at t st = false.
Proof.
  cbn. intros (_ & ? & H). destruct st as [|[d' k'|u k'] st]; cbn in *; [done..|].
  apply Z.eqb_neq. lia.
Qed.

(** What is decided about a correction does not depend on whether it is tied. *)
Definition same_but_tie c c' : Prop :=
  diagnostic_token_index c = diagnostic_token_index c' ∧ fix_action c = fix_action c' ∧
  fix_token_index c = fix_token_index c' ∧ fix_token_kind c = fix_token_kind c'.

Lemma walk_at_end t st W : walk t st W → vec_size kinds ≤ t → st = [] ∧ W = [].
Proof.
  intros H Ht. destruct H; [done|lia|lia|..];
    match goal with H : vec_get kinds _ = Ok _ |- _ => apply vec_get_lt in H; lia end.
Qed.

Lemma walk_retie t st W : walk t st W → ∀ W', Forall2 same_but_tie W W' → walk t st W'.
Proof.
  induction 1 as [|t d k st c W Ht Hc _ IH|t k st W Ht Hk Ho _ IH|t k st W Hg Hk _ IH
    |t k st W Hg Hk _ IH|t k st c W Hg Hk Hc _ IH|t d k st W Hg _ IH|t u k st c W Hg Hc _ IH];
    intros W' HW.
  1: { apply Forall2_nil_inv_l in HW as ->. constructor. }
  1,5,7: apply Forall2_cons_inv_l in HW as (c' & W1 & (E1 & E2 & E3 & E4) & HW & ->).
  - apply walk_close; [done| |by apply IH]. unfold inserts in *. by rewrite <- E1, <- E2, <- E3, <- E4.
  - eapply walk_error; [done..| |by apply IH]. unfold gives_up in *. by rewrite <- E1, <- E2, <- E3.
  - apply walk_match_synth; [done| |by apply IH]. unfold inserts in *. by rewrite <- E1, <- E2, <- E3, <- E4.
  - eapply walk_open; [done..|by apply IH].
  - eapply walk_other; [done..|by apply IH].
  - eapply walk_push; [done..|by apply IH].
  - eapply walk_match; [done..|by apply IH].
Qed.
End walk.

(** * The stream a list of corrections makes *)

(** Whether [c] inserts a token of the class [p] before [t]. *)
Definition insertion_at (p : TokenKind.t → bool) (t : Z) c : bool :=
  negb (replaces c) && (fix_token_index c =? t) && p (fix_token_kind c).

(** The kinds inserted before [t], in the order of the corrections. *)
Definition inserted_at (p : TokenKind.t → bool) W (t : Z) : list TokenKind.t :=
  fix_token_kind <$> List.filter (insertion_at p t) W.
#[local] Abbreviation closers_at := (inserted_at TokenKind.is_closing_symbol).
#[local] Abbreviation openers_at := (inserted_at TokenKind.is_opening_symbol).

Definition replaces_at (t : Z) c : bool :=
  match replaced_token c with Some x => x =? t | None => false end.
Definition errored W (t : Z) : bool := existsb (replaces_at t) W.

(** The stream [ks] from token [t], with what [W] does to it: closing symbols go
    before opening symbols. *)
Fixpoint layout W (t : Z) (ks : list TokenKind.t) : list TokenKind.t :=
  match ks with
  | [] => []
  | k :: ks =>
      closers_at W t ++ openers_at W t ++
      (if errored W t then TokenKind.Error else k) :: layout W (t + 1) ks
  end.

(** The same without what is inserted before [t]. *)
Definition layout_rest W (t : Z) (ks : list TokenKind.t) : list TokenKind.t :=
  match ks with
  | [] => []
  | k :: ks => (if errored W t then TokenKind.Error else k) :: layout W (t + 1) ks
  end.

Lemma inserted_at_cons p t c W :
  inserted_at p (c :: W) t =
    if insertion_at p t c then fix_token_kind c :: inserted_at p W t else inserted_at p W t.
Proof. unfold inserted_at. cbn. by destruct (insertion_at p t c). Qed.

Lemma errored_cons t c W : errored (c :: W) t = (replaces_at t c || errored W t).
Proof. done. Qed.

(** A correction before [t] changes nothing from [t] on. *)
Definition acts_before (t : Z) c : Prop :=
  match replaced_token c with Some x => x < t | None => fix_token_index c < t end.

Lemma acts_before_insertion t c p t' : acts_before t c → t ≤ t' → insertion_at p t' c = false.
Proof.
  unfold acts_before, insertion_at, replaces. destruct (replaced_token c); [done|].
  intros H Ht. cbn. destruct (Z.eqb_spec (fix_token_index c) t'); [lia|done].
Qed.

Lemma acts_before_replaces t c t' : acts_before t c → t ≤ t' → replaces_at t' c = false.
Proof.
  unfold acts_before, replaces_at. destruct (replaced_token c) as [x|]; [|done].
  intros H Ht. apply Z.eqb_neq. lia.
Qed.

Lemma layout_acts_before t c W ks : acts_before t c → layout (c :: W) t ks = layout W t ks.
Proof.
  intros Hc. assert (∀ t', t ≤ t' → layout (c :: W) t' ks = layout W t' ks) as H; [|by apply H].
  induction ks as [|k ks IH]; intros t' Ht; [done|]. cbn [layout].
  rewrite !inserted_at_cons, errored_cons, !(acts_before_insertion t) by done.
  rewrite (acts_before_replaces t) by done. cbn [orb]. by rewrite IH by lia.
Qed.

(** * A walk balances its stream *)

(** Which open brackets will be in the repaired stream: those the flags keep. *)
Fixpoint live st (flags : list bool) : list TokenKind.t :=
  match st, flags with
  | e :: st, f :: flags => if f : bool then entry_kind e :: live st flags else live st flags
  | _, _ => []
  end.

(** Whether the token [d] is open and dropped. *)
Fixpoint dropped st (flags : list bool) (d : Z) : bool :=
  match st, flags with
  | Real d' _ :: st, f :: flags => (d' =? d) && negb f || dropped st flags d
  | Synth _ _ :: st, _ :: flags => dropped st flags d
  | _, _ => false
  end.

(** The kinds kept of those to be inserted before [u]. *)
Fixpoint kept_at st (flags : list bool) (u : Z) : list TokenKind.t :=
  match st, flags with
  | Synth u' k :: st, f :: flags =>
      if (u' =? u) && f then k :: kept_at st flags u else kept_at st flags u
  | Real _ _ :: st, _ :: flags => kept_at st flags u
  | _, _ => []
  end.

Lemma dropped_range t st flags d : wf_stack t st → dropped st flags d = true → 0 ≤ d < t.
Proof.
  revert t flags. induction st as [|e st IH]; intros t flags Hwf; [done|].
  pose proof (wf_stack_tail _ _ _ Hwf) as Hwf'. destruct flags as [|f flags]; [by destruct e|].
  destruct e as [d' k|u k]; cbn [dropped]; [|by eauto].
  intros [[E%Z.eqb_eq _]%andb_true_iff|H]%orb_true_iff; [|by eauto]. cbn in Hwf. lia.
Qed.

Lemma kept_at_range t st flags u :
  wf_stack t st → kept_at st flags u ≠ [] → u < t ∨ u = t ∧ opened_at t st = true.
Proof.
  intros Hwf Hne. assert (∃ k, Synth u k ∈ st) as [k Hin]; [|by eapply wf_stack_synth].
  clear Hwf. revert flags Hne. induction st as [|e st IH]; intros flags Hne; [done|].
  destruct flags as [|f flags]; [by destruct e|]. destruct e as [d k|u' k]; cbn [kept_at] in Hne.
  - destruct (IH _ Hne) as [k' Hk]. exists k'. by right.
  - destruct (Z.eqb_spec u' u) as [->|Hu]; [exists k; by left|].
    destruct (IH _ Hne) as [k' Hk]. exists k'. by right.
Qed.

(** The state at [t] agrees with the corrections to come. *)
Record foretold (ks : list TokenKind.t) (t : Z) st W (flags : list bool) : Prop := {
  foretold_length : length flags = length st;
  foretold_balances : balances (live st flags)
    ((if opened_at t st then [] else closers_at W t ++ openers_at W t) ++
     layout_rest W t (drop (Z.to_nat t) ks)) = true;
  foretold_errors d : d < t → errored W d = dropped st flags d;
  foretold_openers u : u < t ∨ u = t ∧ opened_at t st = true → openers_at W u = kept_at st flags u;
  foretold_closers u : u < t ∨ u = t ∧ opened_at t st = true → closers_at W u = [];
}.

Lemma inserts_acts c d t k :
  inserts c d t k → replaced_token c = if is_tied c then Some d else None.
Proof. intros (<- & E & _). unfold replaced_token. by rewrite E. Qed.

Lemma gives_up_replaced c t : gives_up c t → replaced_token c = Some t.
Proof. intros (_ & E & <-). unfold replaced_token. by rewrite E. Qed.

Lemma layout_split W t ks :
  layout W t ks = match ks with [] => [] | _ => closers_at W t ++ openers_at W t end ++ layout_rest W t ks.
Proof. destruct ks; cbn; [done|]. by rewrite <- !app_assoc. Qed.

Section foretold.
Variable ks : list TokenKind.t.

(** What is open when the next token is read. *)
Lemma foretold_next t st W flags :
  walk ks (t + 1) st W → foretold ks (t + 1) st W flags → opened_at (t + 1) st = false → 0 ≤ t →
  balances (live st flags) (layout W (t + 1) (drop (S (Z.to_nat t)) ks)) = true.
Proof using.
  intros HW [_ HB _ _ _] Ho Ht. rewrite Ho in HB. replace (S (Z.to_nat t)) with (Z.to_nat (t + 1)) by lia.
  rewrite layout_split. destruct (drop (Z.to_nat (t + 1)) ks) eqn:Ed; [|done].
  assert (vec_size ks ≤ t + 1) as Hsz.
  { assert (length (drop (Z.to_nat (t + 1)) ks) = 0)%nat as Hl by (by rewrite Ed).
    rewrite length_drop in Hl. unfold vec_size. lia. }
  destruct (walk_at_end _ _ _ _ HW Hsz) as [-> ->]. done.
Qed.

Lemma opening_not_closing k : TokenKind.is_opening_symbol k = true → TokenKind.is_closing_symbol k = false.
Proof. by destruct k. Qed.

(** The moves over the token [t]: [tok] is what the stream has for it. *)
Lemma foretold_token t st flags st' flags' W W' k :
  vec_get ks t = Ok k → wf_stack t st → length flags = length st →
  walk ks (t + 1) st' W' → foretold ks (t + 1) st' W' flags' → opened_at (t + 1) st' = false →
  (∀ ks', balances (live st' flags') ks' = true →
    balances (live st flags) ((if errored W t then TokenKind.Error else k) :: ks') = true) →
  layout W (t + 1) (drop (S (Z.to_nat t)) ks) = layout W' (t + 1) (drop (S (Z.to_nat t)) ks) →
  (∀ d, d < t → errored W d = dropped st flags d) →
  (∀ u, u ≤ t → openers_at W u = kept_at st flags u) →
  (∀ u, u ≤ t → closers_at W u = []) →
  foretold ks t st W flags.
Proof using.
  intros Hk Hwf Hl HW HF Ho Hstep Hlay He Hop Hcl. pose proof Hk as [Ht _]%vec_get_Ok.
  split; [done| |done|by intros u [?|[-> _]]; apply Hop; lia|by intros u [?|[-> _]]; apply Hcl; lia].
  rewrite (drop_vec _ _ _ Hk). cbn [layout_rest].
  assert ((if opened_at t st then [] else closers_at W t ++ openers_at W t) = []) as ->.
  { destruct (opened_at t st) eqn:E; [done|]. rewrite Hcl, Hop by lia. cbn [app].
    destruct (kept_at st flags t) eqn:Ek; [done|].
    destruct (kept_at_range t st flags t Hwf) as [|[_ ?]]; [by rewrite Ek|lia|congruence]. }
  cbn [app]. apply Hstep. rewrite Hlay. by apply foretold_next.
Qed.

Lemma replaces_at_other t d c : replaced_token c = Some d → d ≠ t → replaces_at t c = false.
Proof using. unfold replaces_at. intros -> Hd. by apply Z.eqb_neq. Qed.

(** Flags for the stack below a popped entry serve for the whole. *)
Lemma foretold_close t d k st c W flags :
  1 ≤ t → inserts c d t (TokenKind.closing_symbol k) → wf_stack t (Real d k :: st) →
  foretold ks t st W flags → foretold ks t (Real d k :: st) (c :: W) (negb (is_tied c) :: flags).
Proof using.
  intros Ht Hc Hwf [HL HB HE HO HC]. pose proof (inserts_acts _ _ _ _ Hc) as Hr.
  pose proof (opened_at_below _ _ _ _ Hwf) as Ho. rewrite Ho in HB.
  pose proof (proj1 Hwf) as Hk. cbn in Hk. destruct (closing_of_opening k Hk) as (K1 & K2 & _).
  assert (0 ≤ d < t) as Hd by (cbn in Hwf; tauto). destruct Hc as (Ed & Ea & Ef & Ekc).
  assert (∀ u, insertion_at TokenKind.is_opening_symbol u c = false) as Hio.
  { intros u. unfold insertion_at. by rewrite Ekc, K1, andb_false_r. }
  assert (∀ u, insertion_at TokenKind.is_closing_symbol u c = negb (is_tied c) && (t =? u)) as Hic.
  { intros u. unfold insertion_at, replaces. rewrite Ekc, K2, Ef, andb_true_r, Hr.
    by destruct (is_tied c). }
  split.
  - cbn. by rewrite HL.
  - cbn [opened_at]. rewrite !inserted_at_cons, Hio, Hic, Z.eqb_refl, andb_true_r.
    assert (layout_rest (c :: W) t (drop (Z.to_nat t) ks) = layout_rest W t (drop (Z.to_nat t) ks)) as ->.
    { destruct (drop (Z.to_nat t) ks); cbn [layout_rest]; [done|].
      rewrite errored_cons, layout_acts_before.
      - replace (replaces_at t c) with false; [done|]. symmetry. unfold replaces_at. rewrite Hr.
        destruct (is_tied c); [apply Z.eqb_neq; lia|done].
      - unfold acts_before. rewrite Hr, Ef. destruct (is_tied c); lia. }
    cbn [live]. destruct (is_tied c); cbn [negb]; [done|].
    rewrite Ekc. cbn [app balances entry_kind]. rewrite K1, K2, TokenKind.token_eqb_refl. exact HB.
  - intros d' Hd'. rewrite errored_cons, HE by done. cbn [dropped]. f_equal.
    unfold replaces_at. rewrite Hr, negb_involutive.
    destruct (is_tied c); [by rewrite andb_true_r|by rewrite andb_false_r].
  - intros u [Hu|[_ ?]]; [|done]. rewrite inserted_at_cons, Hio. cbn [kept_at]. apply HO. by left.
  - intros u [Hu|[_ ?]]; [|done]. rewrite inserted_at_cons, Hic.
    rewrite (proj2 (Z.eqb_neq t u)), andb_false_r by lia. apply HC. by left.
Qed.

Lemma foretold_open t k st W f flags :
  TokenKind.is_opening_symbol k = true → opened_at t st = false → wf_stack t st →
  foretold ks t (Synth t k :: st) W (f :: flags) → foretold ks t st W flags.
Proof using.
  intros Hk Ho Hwf [HL HB HE HO HC]. cbn [opened_at] in *. rewrite Z.eqb_refl in *. split.
  - cbn in HL. by injection HL.
  - rewrite Ho, (HC t), (HO t) by (by right). cbn [kept_at]. rewrite Z.eqb_refl. cbn [andb app].
    assert (kept_at st flags t = []) as ->.
    { destruct (kept_at st flags t) eqn:Ek; [done|].
      destruct (kept_at_range t st flags t Hwf) as [|[_ ?]]; [by rewrite Ek|lia|congruence]. }
    cbn [live entry_kind app] in HB. destruct f; [|done]. cbn [app balances]. by rewrite Hk.
  - intros d Hd. rewrite HE by done. done.
  - intros u [Hu|[_ ?]]; [|congruence]. rewrite (HO u) by (by left). cbn [kept_at].
    by rewrite (proj2 (Z.eqb_neq t u)) by lia.
  - intros u [Hu|[_ ?]]; [|congruence]. apply HC. by left.
Qed.

Lemma errored_none t st W flags :
  foretold ks (t + 1) st W flags → wf_stack t st → errored W t = false.
Proof using.
  intros [_ _ HE _ _] Hwf. rewrite HE by lia. destruct (dropped st flags t) eqn:E; [|done].
  apply (dropped_range _ _ _ _ Hwf) in E. lia.
Qed.

Lemma foretold_other t k st W flags :
  vec_get ks t = Ok k → is_bracket k = false → wf_stack t st → walk ks (t + 1) st W →
  foretold ks (t + 1) st W flags → foretold ks t st W flags.
Proof using.
  intros Hk Hb Hwf HW HF. pose proof (opened_at_later _ _ Hwf) as Ho.
  pose proof (errored_none _ _ _ _ HF Hwf) as He. pose proof HF as [HL _ HE HO HC].
  apply (foretold_token _ _ flags st flags W W k); try done.
  - intros ks' HB. rewrite He. cbn [balances]. unfold is_bracket in Hb.
    apply orb_false_iff in Hb as [-> ->]. done.
  - intros d Hd. apply HE. lia.
  - intros u Hu. apply HO. lia.
  - intros u Hu. apply HC. lia.
Qed.

Lemma foretold_push t k st W f flags :
  vec_get ks t = Ok k → TokenKind.is_opening_symbol k = true → wf_stack t st →
  walk ks (t + 1) (Real t k :: st) W →
  foretold ks (t + 1) (Real t k :: st) W (f :: flags) → foretold ks t st W flags.
Proof using.
  intros Hk Hb Hwf HW HF. pose proof HF as [HL _ HE HO HC]. cbn in HL. injection HL as HL.
  assert (errored W t = negb f) as He.
  { rewrite HE by lia. cbn [dropped]. rewrite Z.eqb_refl. destruct (dropped st flags t) eqn:E.
    - apply (dropped_range _ _ _ _ Hwf) in E. lia.
    - by rewrite orb_false_r. }
  apply (foretold_token _ _ flags (Real t k :: st) (f :: flags) W W k); try done.
  - intros ks' HB. rewrite He. cbn [live entry_kind] in HB. destruct f; cbn [negb balances].
    + by rewrite Hb.
    + exact HB.
  - intros d Hd. rewrite HE by lia. cbn [dropped]. by rewrite (proj2 (Z.eqb_neq t d)) by lia.
  - intros u Hu. rewrite HO by lia. done.
  - intros u Hu. apply HC. lia.
Qed.

Lemma foretold_error t k st c W flags :
  vec_get ks t = Ok k → gives_up c t → wf_stack t st → walk ks (t + 1) st W →
  foretold ks (t + 1) st W flags → foretold ks t st (c :: W) flags.
Proof using.
  intros Hk Hc Hwf HW HF. pose proof (opened_at_later _ _ Hwf) as Ho. pose proof HF as [HL _ HE HO HC].
  pose proof (gives_up_replaced _ _ Hc) as Hr.
  assert (∀ p u, insertion_at p u c = false) as Hi by (intros; unfold insertion_at, replaces; by rewrite Hr).
  apply (foretold_token _ _ flags st flags (c :: W) W k); try done.
  - intros ks' HB. rewrite errored_cons. unfold replaces_at. rewrite Hr, Z.eqb_refl. exact HB.
  - apply layout_acts_before. unfold acts_before. rewrite Hr. lia.
  - intros d Hd. rewrite errored_cons, (replaces_at_other d t) by (done || lia). cbn [orb]. apply HE. lia.
  - intros u Hu. rewrite inserted_at_cons, Hi. apply HO. lia.
  - intros u Hu. rewrite inserted_at_cons, Hi. apply HC. lia.
Qed.

Lemma foretold_match t d k st W flags :
  vec_get ks t = Ok (TokenKind.closing_symbol k) → wf_stack t (Real d k :: st) →
  walk ks (t + 1) st W → foretold ks (t + 1) st W flags →
  foretold ks t (Real d k :: st) W (true :: flags).
Proof using.
  intros Hk Hwf HW HF. pose proof (proj1 Hwf) as Hop. cbn in Hop.
  destruct (closing_of_opening k Hop) as (K1 & K2 & _). pose proof (wf_stack_tail _ _ _ Hwf) as Hwf'.
  pose proof (opened_at_later _ _ Hwf') as Ho. pose proof (errored_none _ _ _ _ HF Hwf') as He.
  pose proof HF as [HL _ HE HO HC].
  apply (foretold_token _ _ (true :: flags) st flags W W (TokenKind.closing_symbol k)); try done.
  - cbn. by rewrite HL.
  - intros ks' HB. rewrite He. cbn [live entry_kind balances].
    by rewrite K1, K2, TokenKind.token_eqb_refl, HB.
  - intros d' Hd. cbn [dropped]. rewrite andb_false_r. cbn [orb]. apply HE. lia.
  - intros u Hu. cbn [kept_at]. apply HO. lia.
  - intros u Hu. apply HC. lia.
Qed.

Lemma foretold_match_synth t u k st c W flags :
  vec_get ks t = Ok (TokenKind.closing_symbol k) → inserts c t u k → wf_stack t (Synth u k :: st) →
  walk ks (t + 1) st W → foretold ks (t + 1) st W flags →
  foretold ks t (Synth u k :: st) (c :: W) (negb (is_tied c) :: flags).
Proof using.
  intros Hk Hc Hwf HW HF. pose proof (proj1 Hwf) as Hop. cbn in Hop.
  destruct (closing_of_opening k Hop) as (K1 & K2 & _). pose proof (wf_stack_tail _ _ _ Hwf) as Hwf'.
  pose proof (opened_at_later _ _ Hwf') as Ho. pose proof (errored_none _ _ _ _ HF Hwf') as He.
  pose proof HF as [HL _ HE HO HC]. pose proof (inserts_acts _ _ _ _ Hc) as Hr.
  assert (1 ≤ u ≤ t) as Hut by (cbn in Hwf; tauto). destruct Hc as (Ed & Ea & Ef & Ekc).
  apply (foretold_token _ _ (negb (is_tied c) :: flags) st flags (c :: W) W
    (TokenKind.closing_symbol k)); try done.
  - cbn. by rewrite HL.
  - intros ks' HB. rewrite errored_cons, He, orb_false_r. unfold replaces_at. rewrite Hr.
    destruct (is_tied c); cbn [live negb].
    + by rewrite Z.eqb_refl.
    + cbn [entry_kind balances]. by rewrite K1, K2, TokenKind.token_eqb_refl, HB.
  - apply layout_acts_before. unfold acts_before. rewrite Hr, Ef. destruct (is_tied c); lia.
  - intros d Hd. rewrite errored_cons. cbn [dropped]. unfold replaces_at. rewrite Hr.
    rewrite <- (HE d) by lia. destruct (is_tied c); [|done]. by rewrite (proj2 (Z.eqb_neq t d)) by lia.
  - intros v Hv. rewrite inserted_at_cons. cbn [kept_at]. unfold insertion_at, replaces.
    rewrite Hr, Ekc, Hop, Ef, andb_true_r, <- (HO v) by lia.
    by destruct (is_tied c); cbn; destruct (u =? v).
  - intros v Hv. rewrite inserted_at_cons. unfold insertion_at. 
    rewrite Ekc, (opening_not_closing _ Hop), andb_false_r. apply HC. lia.
Qed.

(** Every walk foretells its stream. *)
Lemma walk_foretold t st W :
  walk ks t st W → wf_stack t st → ∃ flags, foretold ks t st W flags.
Proof using.
  induction 1 as [|t d k st c W Ht Hc _ IH|t k st W Ht Hk Ho _ IH|t k st W Hg Hk HW IH
    |t k st W Hg Hk HW IH|t k st c W Hg Hk Hc HW IH|t d k st W Hg HW IH|t u k st c W Hg Hc HW IH];
    intros Hwf.
  - exists []. split; try done. unfold vec_size. rewrite Nat2Z.id, drop_all. done.
  - destruct IH as [flags HF]; [by eapply wf_stack_tail|]. eexists. apply foretold_close; [lia|done..].
  - destruct IH as [flags HF].
    { cbn. split; [done|]. split; [lia|]. done. }
    pose proof (foretold_length _ _ _ _ _ HF) as Hl. destruct flags as [|f flags]; [done|].
    exists flags. by apply foretold_open in HF.
  - destruct IH as [flags HF]; [eapply wf_stack_mono; [|done]; lia|]. exists flags.
    by eapply foretold_other.
  - pose proof Hg as [? _]%vec_get_Ok. destruct IH as [flags HF].
    { cbn. split; [done|]. split; [lia|done]. }
    pose proof (foretold_length _ _ _ _ _ HF) as Hl. destruct flags as [|f flags]; [done|].
    exists flags. by eapply foretold_push.
  - destruct IH as [flags HF]; [eapply wf_stack_mono; [|done]; lia|]. exists flags.
    by eapply foretold_error.
  - destruct IH as [flags HF]; [eapply wf_stack_mono; [|by eapply wf_stack_tail]; lia|].
    eexists. by eapply foretold_match.
  - destruct IH as [flags HF]; [eapply wf_stack_mono; [|by eapply wf_stack_tail]; lia|].
    eexists. by eapply foretold_match_synth.
Qed.

(** The stream of a whole walk balances. *)
Lemma walk_balances W : walk ks 0 [] W → balances [] (layout W 0 ks) = true.
Proof using.
  intros HW. destruct (walk_foretold 0 [] W HW I) as [flags [HL HB _ _ _]].
  destruct flags; [|done]. cbn [live opened_at] in HB. change (drop (Z.to_nat 0) ks) with ks in HB.
  rewrite layout_split. destruct ks eqn:Ek; [|done]. done.
Qed.
End foretold.

(** * The corrections of a walk *)

Section decided.
Variable ks : list TokenKind.t.

(** The open tokens are tokens of the stream. *)
Definition in_kinds st : Prop :=
  Forall (λ e, match e with Real d k => vec_get ks d = Ok k | Synth _ _ => True end) st.

Definition closes_before c : Prop :=
  fix_action c = InsertBefore ∧ TokenKind.is_closing_symbol (fix_token_kind c) = true →
  diagnostic_token_index c < fix_token_index c.

(** What holds of a correction decided from [t] on, with [st] open. *)
Record decided (t : Z) st c : Prop := {
  decided_diagnostic : t ≤ diagnostic_token_index c ∨ ∃ k, Real (diagnostic_token_index c) k ∈ st;
  decided_stream : in_stream (vec_size ks) c;
  decided_bracket :
    match replaced_token c with
    | Some tok => ∃ k, vec_get ks tok = Ok k ∧ is_bracket k = true
    | None => fix_action c = InsertBefore ∧ is_bracket (fix_token_kind c) = true
    end;
  decided_closes : closes_before c;
}.

Lemma opening_bracket k : TokenKind.is_opening_symbol k = true → is_bracket k = true.
Proof using. unfold is_bracket. by intros ->. Qed.

Lemma closing_bracket k :
  TokenKind.is_opening_symbol k = true → is_bracket (TokenKind.closing_symbol k) = true.
Proof using. by destruct k. Qed.

Lemma inserts_decided t st c d u k :
  inserts c d u k → is_bracket k = true → 1 ≤ u < vec_size ks →
  (t ≤ d ∨ ∃ k, Real d k ∈ st) → (∃ k, vec_get ks d = Ok k ∧ is_bracket k = true) →
  (TokenKind.is_closing_symbol k = true → d < u) → decided t st c.
Proof using.
  intros Hc Hk Hu Hd (kd & Hg & Hb) Hcl. pose proof (inserts_acts _ _ _ _ Hc) as Hr.
  destruct Hc as (<- & Ea & <- & <-). apply vec_get_lt in Hg as Hr'. split; [done|..].
  - split; [done|lia|intros; lia|]. by rewrite Ea.
  - rewrite Hr. destruct (is_tied c); [by exists kd|done].
  - intros [_ ?]. auto.
Qed.

Lemma decided_weaken t t' st st' c :
  t ≤ t' → (∀ d k, Real d k ∈ st' → t ≤ d ∨ Real d k ∈ st) → decided t' st' c → decided t st c.
Proof using.
  intros Ht Hst [[H|[k H]] H2 H3 H4]; split; try done; [left; lia|].
  destruct (Hst _ _ H); [by left|right; by exists k].
Qed.

Lemma fresh_diagnostic t t' st W d :
  Forall (decided t st) W → d < t → wf_stack t' st → t' ≤ d →
  d ∉ diagnostic_token_index <$> W.
Proof using.
  intros HF Hd Hwf Ht (c & Ec & Hc)%list_elem_of_fmap. rewrite Forall_forall in HF.
  destruct (HF _ Hc) as [[Hd'|[k Hd']] _ _ _]; rewrite <- Ec in Hd'; [lia|].
  pose proof (wf_stack_real _ _ _ _ Hwf Hd'). lia.
Qed.

(** Each bracket is diagnosed at most once, by corrections of the stream. *)
Lemma walk_decided t st W :
  walk ks t st W → wf_stack t st → in_kinds st → 0 ≤ t →
  Forall (decided t st) W ∧ NoDup (diagnostic_token_index <$> W) ∧
  ∀ u, StronglySorted (λ c c', diagnostic_token_index c' < diagnostic_token_index c)
         (List.filter (insertion_at TokenKind.is_closing_symbol u) W).
Proof using.
  induction 1 as [|t d k st c W Ht Hc _ IH|t k st W Ht Hk Ho _ IH|t k st W Hg Hk HW IH
    |t k st W Hg Hk HW IH|t k st c W Hg Hk Hc HW IH|t d k st W Hg HW IH|t u k st c W Hg Hc HW IH];
    intros Hwf Hin H0.
  - split_and!; [constructor..|intros u; constructor].
  - apply Forall_cons in Hin as [Hd Hin]. pose proof (wf_stack_tail _ _ _ Hwf) as Hwf'.
    destruct (IH Hwf' Hin H0) as (HF & HN & HS). pose proof (proj1 Hwf) as Hk. cbn in Hk.
    destruct (closing_of_opening k Hk) as (K1 & K2 & _). assert (0 ≤ d < t) as Hdt by (cbn in Hwf; tauto).
    assert (wf_stack d st) as Hwfd by (cbn in Hwf; tauto).
    assert (decided t (Real d k :: st) c) as Hdc.
    { eapply inserts_decided; [done|by apply closing_bracket|lia|right; exists k; by left| |lia].
      exists k. split; [done|by apply opening_bracket]. }
    destruct Hc as (Ed & Ea & Ef & Ekc). split_and!.
    + constructor; [done|]. eapply Forall_impl; [exact HF|]. intros c'. apply decided_weaken; [lia|].
      intros d' k' Hr. right. by right.
    + cbn. constructor; [|done]. rewrite Ed. eapply fresh_diagnostic; [exact HF|lia|exact Hwfd|lia].
    + intros u. cbn [List.filter]. destruct (insertion_at _ u c) eqn:Ei; [|done].
      constructor; [done|]. apply Forall_forall. intros c' Hc'. apply list_elem_of_In, filter_In in Hc' as [Hc' Hi'].
      apply list_elem_of_In in Hc'. rewrite Forall_forall in HF. destruct (HF _ Hc') as [Hd' _ Hb' Hcl].
      unfold insertion_at, replaces in Ei, Hi'. destruct (replaced_token c'); [done|].
      rewrite !andb_true_iff, Z.eqb_eq in Ei, Hi'. destruct Ei as [[_ Ei] _], Hi' as [[_ Hi'] Hk'].
      assert (diagnostic_token_index c' < fix_token_index c') as Hlt by (apply Hcl; by destruct Hb').
      destruct Hd' as [?|[k' Hd']]; [lia|]. pose proof (wf_stack_real _ _ _ _ Hwfd Hd'). lia.
  - destruct IH as (HF & HN & HS); [cbn; split; [done|]; split; [lia|done]|by constructor|done|].
    split_and!; [|done..]. eapply Forall_impl; [exact HF|]. intros c'. apply decided_weaken; [lia|].
    intros d' k' [E|Hr]%elem_of_cons; [done|by right].
  - destruct IH as (HF & HN & HS); [eapply wf_stack_mono; [|done]; lia|done|lia|].
    split_and!; [|done..]. eapply Forall_impl; [exact HF|]. intros c'. apply decided_weaken; [lia|].
    intros d' k' Hr. by right.
  - destruct IH as (HF & HN & HS); [cbn; split; [done|]; split; [lia|done]|by constructor|lia|].
    split_and!; [|done..]. eapply Forall_impl; [exact HF|]. intros c'. apply decided_weaken; [lia|].
    intros d' k' [[= -> ->]|Hr]%elem_of_cons; [left; lia|by right].
  - destruct IH as (HF & HN & HS); [eapply wf_stack_mono; [|done]; lia|done|lia|].
    pose proof (gives_up_replaced _ _ Hc) as Hr. destruct Hc as (Ed & Ea & Ef).
    apply vec_get_lt in Hg as Hrg. split_and!.
    + constructor.
      * split; [left; lia| |rewrite Hr; by exists k|by unfold closes_before; rewrite Ea; intros [? _]].
        split; [lia|lia|by rewrite Ea..].
      * eapply Forall_impl; [exact HF|]. intros c'. apply decided_weaken; [lia|]. intros; by right.
    + cbn. constructor; [|done]. rewrite Ed. eapply fresh_diagnostic; [exact HF|lia|exact Hwf|lia].
    + intros u. cbn [List.filter]. assert (insertion_at TokenKind.is_closing_symbol u c = false) as ->.
      { unfold insertion_at, replaces. by rewrite Hr. } done.
  - apply Forall_cons in Hin as [_ Hin]. pose proof (wf_stack_tail _ _ _ Hwf) as Hwf'.
    destruct IH as (HF & HN & HS); [eapply wf_stack_mono; [|done]; lia|done|lia|].
    split_and!; [|done..]. eapply Forall_impl; [exact HF|]. intros c'. apply decided_weaken; [lia|].
    intros d' k' Hr. right. by right.
  - apply Forall_cons in Hin as [_ Hin]. pose proof (wf_stack_tail _ _ _ Hwf) as Hwf'.
    destruct IH as (HF & HN & HS); [eapply wf_stack_mono; [|done]; lia|done|lia|].
    pose proof (proj1 Hwf) as Hk. cbn in Hk. assert (1 ≤ u ≤ t) as Hut by (cbn in Hwf; tauto).
    apply vec_get_lt in Hg as Hrg.
    assert (decided t (Synth u k :: st) c) as Hdc.
    { eapply inserts_decided; [done|by apply opening_bracket|lia|left; lia| |].
      - eexists. split; [done|]. by apply closing_bracket.
      - by rewrite opening_not_closing. }
    destruct Hc as (Ed & Ea & Ef & Ekc). split_and!.
    + constructor; [done|]. eapply Forall_impl; [exact HF|]. intros c'. apply decided_weaken; [lia|].
      intros d' k' Hr. right. by right.
    + cbn. constructor; [|done]. rewrite Ed. eapply fresh_diagnostic; [exact HF|lia|exact Hwf'|lia].
    + intros v. cbn [List.filter].
      assert (insertion_at TokenKind.is_closing_symbol v c = false) as ->; [|done].
      unfold insertion_at. by rewrite Ekc, opening_not_closing, andb_false_r.
Qed.
End decided.

(** * The repaired stream is the walk's *)

Lemma filter_Permutation {A} (p : A → bool) l l' : l ≡ₚ l' → List.filter p l ≡ₚ List.filter p l'.
Proof.
  induction 1 as [|x l l' _ IH|x y l|l1 l2 l3 _ IH1 _ IH2]; cbn [List.filter]; [done|..].
  - destruct (p x); [by constructor|done].
  - destruct (p x), (p y); try done. constructor.
  - by etransitivity.
Qed.

Lemma inserted_at_permutation p W W' t : W ≡ₚ W' → inserted_at p W t ≡ₚ inserted_at p W' t.
Proof. intros HP. by apply fmap_Permutation, filter_Permutation. Qed.

Lemma errored_permutation W W' t : W ≡ₚ W' → errored W t = errored W' t.
Proof.
  unfold errored.
  induction 1 as [|c W W' _ IH|c c' W|W1 W2 W3 _ IH1 _ IH2]; cbn [existsb]; [done|by rewrite IH| |].
  - by rewrite !orb_assoc, (orb_comm (replaces_at t c)).
  - by rewrite IH1.
Qed.

(** What replacing tokens does to the stream. *)
Fixpoint marked W (t : Z) (ks : list TokenKind.t) : list TokenKind.t :=
  match ks with
  | [] => []
  | k :: ks => (if errored W t then TokenKind.Error else k) :: marked W (t + 1) ks
  end.

Lemma marked_lookup W ks : ∀ t i,
  marked W t ks !! i = (λ k, if errored W (t + Z.of_nat i) then TokenKind.Error else k) <$> ks !! i.
Proof.
  induction ks as [|k ks IH]; intros t [|i]; cbn [marked]; [done..|cbn; by rewrite Z.add_0_r|].
  change (marked W (t + 1) ks !! i =
    (λ k, if errored W (t + Z.of_nat (S i)) then TokenKind.Error else k) <$> ks !! i).
  rewrite IH. by replace (t + 1 + Z.of_nat i) with (t + Z.of_nat (S i)) by lia.
Qed.

Lemma marked_nil t ks : marked [] t ks = ks.
Proof. revert t. induction ks as [|k ks IH]; intros t; [done|]. cbn. by rewrite IH. Qed.

Lemma with_errors_of_marked ks W :
  Forall (λ c, ∀ x, replaced_token c = Some x → 0 ≤ x) W → with_errors_of ks W = marked W 0 ks.
Proof.
  intros HW. revert ks. induction HW as [|c W Hc _ IH]; intros ks; [by rewrite marked_nil|].
  change (with_errors_of ks (c :: W)) with (with_errors_of (with_error ks c) W). rewrite IH.
  apply list_eq. intros i. rewrite !marked_lookup, Z.add_0_l, errored_cons.
  unfold with_error, replaces_at. destruct (replaced_token c) as [x|]; [|done].
  specialize (Hc x eq_refl). unfold vec_set. destruct (decide (Z.to_nat x = i)) as [<-|Hne].
  - rewrite Z2Nat.id, Z.eqb_refl by done. cbn [orb].
    destruct (ks !! Z.to_nat x) as [k|] eqn:E.
    + rewrite list_lookup_insert_eq by (by eapply lookup_lt_Some). cbn. by destruct (errored W x).
    + rewrite (proj2 (lookup_ge_None _ _)); [done|]. rewrite length_insert. by apply lookup_ge_None.
  - rewrite list_lookup_insert_ne by done. by rewrite (proj2 (Z.eqb_neq x (Z.of_nat i))) by lia.
Qed.

(** Corrections that insert, if they insert, before a token, a bracket. *)
Definition plain_fix c : Prop :=
  replaced_token c = None → fix_action c = InsertBefore ∧ is_bracket (fix_token_kind c) = true.

Definition asked_at (p : TokenKind.t → bool) (t : Z) (i : Insertion) : bool :=
  (target i =? t) && p (kind (insertion_info i)).

Lemma asked_kinds p t cs : Forall plain_fix cs → ∀ order,
  (λ i, kind (insertion_info i)) <$> List.filter (asked_at p t) (asked order cs) = inserted_at p cs t.
Proof.
  induction 1 as [|c cs Hc _ IH]; intros order; [done|]. rewrite inserted_at_cons. cbn [asked].
  unfold insertion_at. destruct (replaces c) eqn:Er; cbn [negb andb List.filter]; [apply IH|].
  unfold plain_fix, replaces in *. destruct (replaced_token c); [done|].
  destruct Hc as [Ha _]; [done|].
  assert (asked_at p t (asked_insertion order c) = (fix_token_index c =? t) && p (fix_token_kind c)) as ->.
  { unfold asked_at, target. cbn. by rewrite Ha. }
  destruct (_ && _); cbn; [f_equal|]; apply IH.
Qed.

Lemma asked_before cs : Forall plain_fix cs → ∀ order,
  Forall (λ i, is_after i = false ∧ is_bracket (kind (insertion_info i)) = true) (asked order cs).
Proof.
  induction 1 as [|c cs Hc _ IH]; intros order; cbn [asked]; [constructor|].
  destruct (replaces c) eqn:Er; [done|]. constructor; [|done]. cbn.
  unfold plain_fix, replaces in *. destruct (replaced_token c); [done|].
  destruct Hc as [-> Hb]; [done|]. done.
Qed.

Lemma asked_increasing cs : ∀ order,
  StronglySorted (λ i j, insertion_order i < insertion_order j) (asked order cs) ∧
  Forall (λ i, order ≤ insertion_order i) (asked order cs).
Proof.
  induction cs as [|c cs IH]; intros order; cbn [asked]; [split; constructor|].
  destruct (replaces c); [done|]. destruct (IH (order + 1)) as [IH1 IH2]. split.
  - constructor; [done|]. eapply Forall_impl; [exact IH2|]. cbn. lia.
  - constructor; [done|]. eapply Forall_impl; [exact IH2|]. cbn. lia.
Qed.

Lemma StronglySorted_filter {A} (R : A → A → Prop) (p : A → bool) l :
  StronglySorted R l → StronglySorted R (List.filter p l).
Proof.
  induction 1 as [|x l _ IH Hx]; cbn; [constructor|]. destruct (p x); [|done].
  constructor; [done|]. rewrite Forall_forall in *. intros y Hy%list_elem_of_In.
  apply filter_In in Hy as [Hy _]. apply Hx. by apply list_elem_of_In.
Qed.

Lemma StronglySorted_reverse {A} (R : A → A → Prop) l :
  StronglySorted R l → StronglySorted (λ x y, R y x) (reverse l).
Proof.
  induction 1 as [|x l _ IH Hx]; [constructor|]. rewrite reverse_cons.
  apply StronglySorted_app_2; [|done|by repeat constructor].
  intros y z Hy Hz. apply list_elem_of_singleton in Hz as ->. rewrite elem_of_reverse in Hy.
  rewrite Forall_forall in Hx. auto.
Qed.

Lemma filter_classes {A} (p q r : A → bool) l :
  Forall (λ x, p x = q x || r x ∧ (q x = false ∨ r x = false)) l →
  List.filter p l ≡ₚ List.filter q l ++ List.filter r l.
Proof.
  induction 1 as [|x l [Hx Hqr] _ IH]; [done|]. cbn. rewrite Hx.
  destruct (q x), (r x); cbn; [by destruct Hqr|by constructor| |done].
  rewrite IH. by apply Permutation_middle.
Qed.

Lemma bracket_class k :
  is_bracket k = true →
  TokenKind.is_closing_symbol k = negb (TokenKind.is_opening_symbol k).
Proof. by destruct k. Qed.

Lemma StronglySorted_change {A} (R R' : A → A → Prop) l :
  StronglySorted R l → (∀ x y, x ∈ l → y ∈ l → R x y → R' x y) → StronglySorted R' l.
Proof.
  induction 1 as [|x l _ IH Hx]; intros HR; constructor.
  - apply IH. intros y z Hy Hz. apply HR; by right.
  - rewrite Forall_forall in *. intros y Hy. apply HR; [by left|by right|auto].
Qed.

Lemma filter_target t l :
  filter (λ i, target i = t) l = List.filter (λ i, target i =? t) l.
Proof.
  induction l as [|i l IH]; [done|]. rewrite filter_cons, IH. cbn.
  destruct (Z.eqb_spec (target i) t); by case_decide.
Qed.

(** One class of the insertions before [t]: the last asked for is first. *)
Lemma class_sorted cs q t :
  Forall plain_fix cs →
  (∀ k, q k = true → is_bracket k = true) →
  (∀ k k', q k = true → q k' = true → TokenKind.is_closing_symbol k = TokenKind.is_closing_symbol k') →
  StronglySorted insertion_before (reverse (List.filter (asked_at q t) (asked 0 cs))).
Proof.
  intros Hcs Hq Hcl. eapply StronglySorted_change.
  { apply StronglySorted_reverse, StronglySorted_filter. apply (asked_increasing cs 0). }
  intros x y Hx Hy. rewrite elem_of_reverse, list_elem_of_In, filter_In in Hx, Hy.
  destruct Hx as [Hx [->%Z.eqb_eq%eq_sym Qx]%andb_true_iff], Hy as [Hy [Ey%Z.eqb_eq Qy]%andb_true_iff].
  pose proof (asked_before cs Hcs 0) as Hb. rewrite Forall_forall in Hb.
  destruct (Hb x) as [Ax _]; [by apply list_elem_of_In|]. destruct (Hb y) as [Ay _]; [by apply list_elem_of_In|].
  cbn. intros Hlt. apply insertion_before_spec.
  unfold side_key, closing_key, order_key, insertion_is_closing. rewrite Ax, Ay, (Hcl _ _ Qx Qy). lia.
Qed.

(** The insertions before [t], in their order. *)
Lemma sorted_at cs t :
  Forall plain_fix cs →
  (λ i, kind (insertion_info i)) <$> filter (λ i, target i = t) (sort_insertions (asked 0 cs)) =
    reverse (inserted_at TokenKind.is_closing_symbol cs t) ++
    reverse (inserted_at TokenKind.is_opening_symbol cs t).
Proof.
  intros Hcs. set (l := asked 0 cs). pose proof (asked_before cs Hcs 0) as Hb. fold l in Hb.
  set (closers := List.filter (asked_at TokenKind.is_closing_symbol t) l).
  set (openers := List.filter (asked_at TokenKind.is_opening_symbol t) l).
  assert (filter (λ i, target i = t) (sort_insertions l) = reverse closers ++ reverse openers) as ->.
  2: { unfold closers, openers, l. by rewrite fmap_app, !fmap_reverse, !asked_kinds. }
  assert (∀ q i, i ∈ List.filter (asked_at q t) l → target i = t ∧ is_after i = false ∧
    q (kind (insertion_info i)) = true) as Hin.
  { intros q i. rewrite list_elem_of_In, filter_In. intros [Hi [Et%Z.eqb_eq Hq]%andb_true_iff].
    rewrite Forall_forall in Hb. split_and!; [done|by apply Hb, list_elem_of_In|done]. }
  apply (StronglySorted_unique_strong insertion_before).
  - intros x y _ _ H1 H2. destruct (insertion_before_irreflexive x). by transitivity y.
  - rewrite filter_target. apply StronglySorted_filter, sort_insertions_sorted.
    unfold l. rewrite asked_numbered. apply NoDup_seqZ.
  - apply StronglySorted_app_2.
    + intros x y Hx Hy. rewrite elem_of_reverse in Hx, Hy.
      destruct (Hin _ _ Hx) as (Ex & Ax & Kx), (Hin _ _ Hy) as (Ey & Ay & Ky). apply insertion_before_spec.
      unfold side_key, closing_key, insertion_is_closing. rewrite Ax, Ay, Kx, (opening_not_closing _ Ky). lia.
    + apply class_sorted; [done| |intros k k' -> ->; done].
      intros k Hk. unfold is_bracket. rewrite Hk. apply orb_true_r.
    + apply class_sorted; [done|apply opening_bracket|].
      intros k k' ?%opening_not_closing ?%opening_not_closing. congruence.
  - unfold closers, openers. rewrite !reverse_Permutation, filter_target.
    rewrite <- filter_classes with (p := λ i, target i =? t).
    + rewrite <- !filter_target. by rewrite sort_insertions_permutation.
    + eapply Forall_impl; [exact Hb|]. cbn. intros i [_ Hk]. apply bracket_class in Hk.
      unfold asked_at. rewrite Hk.
      destruct (target i =? t), (TokenKind.is_opening_symbol (kind (insertion_info i))); cbn; auto.
Qed.

Lemma merged_layout cs W ks :
  Forall plain_fix cs → cs ≡ₚ W →
  (∀ t, reverse (inserted_at TokenKind.is_closing_symbol cs t) =
          inserted_at TokenKind.is_closing_symbol W t) →
  (∀ t, reverse (inserted_at TokenKind.is_opening_symbol cs t) =
          inserted_at TokenKind.is_opening_symbol W t) → ∀ t,
  merged_kinds t (marked cs t ks) (sort_insertions (asked 0 cs)) = layout W t ks.
Proof.
  intros Hcs HP Hc Ho. induction ks as [|k ks IH]; intros t; [done|]. cbn [marked merged_kinds layout].
  rewrite IH, sorted_at, Hc, Ho, <- app_assoc by done. by rewrite (errored_permutation _ _ _ HP).
Qed.

(** At most one opening symbol is inserted before any token. *)
Lemma walk_one_opener ks t st W :
  walk ks t st W → wf_stack t st → ∀ u,
  (length (inserted_at TokenKind.is_opening_symbol W u) ≤ 1)%nat.
Proof.
  induction 1 as [|t d k st c W Ht Hc _ IH|t k st W Ht Hk Ho _ IH|t k st W Hg Hk HW IH
    |t k st W Hg Hk HW IH|t k st c W Hg Hk Hc HW IH|t d k st W Hg HW IH|t u k st c W Hg Hc HW IH];
    intros Hwf v.
  - cbn. lia.
  - rewrite inserted_at_cons. unfold insertion_at. destruct Hc as (_ & _ & _ & ->).
    destruct (closing_of_opening k (proj1 Hwf)) as (-> & _). rewrite andb_false_r.
    apply IH. by eapply wf_stack_tail.
  - apply IH. cbn. split; [done|]. split; [lia|done].
  - apply IH. eapply wf_stack_mono; [|done]. lia.
  - apply IH. pose proof Hg as [? _]%vec_get_Ok. cbn. split; [done|]. split; [lia|done].
  - rewrite inserted_at_cons. unfold insertion_at, replaces. rewrite (gives_up_replaced _ _ Hc).
    apply IH. eapply wf_stack_mono; [|done]. lia.
  - apply IH. eapply wf_stack_mono; [|by eapply wf_stack_tail]. lia.
  - assert (wf_stack (t + 1) st) as Hwf'.
    { eapply wf_stack_mono; [|by eapply wf_stack_tail]. lia. }
    rewrite inserted_at_cons. destruct (insertion_at _ v c) eqn:Ei; [|by apply IH].
    assert (v = u) as ->.
    { unfold insertion_at in Ei. destruct Hc as (_ & _ & <- & _).
      destruct (Z.eqb_spec (fix_token_index c) v); [done|]. by rewrite andb_false_r in Ei. }
    destruct (walk_foretold _ _ _ _ HW Hwf') as [flags HF]. cbn in Hwf. destruct Hwf as (_ & Hu & Ho & Hwf).
    rewrite (foretold_openers _ _ _ _ _ HF) by (left; lia). cbn.
    destruct (kept_at st flags u) eqn:Ek; [cbn; lia|].
    destruct (kept_at_range u st flags u Hwf) as [|[_ ?]]; [by rewrite Ek|lia|congruence].
Qed.

Lemma balances_balanced_app n : ∀ ks (st : list TokenKind.t),
  (length ks < n)%nat → balances st ks = true →
  ∃ inner rest, balanced inner ∧ ks = inner ++ rest ∧
    match st with
    | [] => rest = []
    | o :: st => ∃ rest', rest = TokenKind.closing_symbol o :: rest' ∧ balances st rest' = true
    end.
Proof.
  induction n as [|n IH]; intros ks st Hn HB; [lia|]. destruct ks as [|k ks]; cbn in Hn.
  { destruct st; [|done]. exists [], []. split_and!; [constructor|done..]. }
  cbn [balances] in HB. destruct (TokenKind.is_opening_symbol k) eqn:Ho.
  - destruct (IH ks (k :: st)) as (inner & rest & Hi & -> & rest1 & -> & HB1); [lia|done|].
    rewrite length_app in Hn. cbn in Hn.
    destruct (IH rest1 st) as (inner2 & rest2 & Hi2 & -> & H2); [lia|done|].
    exists (k :: inner ++ TokenKind.closing_symbol k :: inner2), rest2.
    split; [by apply balanced_group|]. split; [|done]. cbn. by rewrite <- app_assoc.
  - destruct (TokenKind.is_closing_symbol k) eqn:Hc.
    + destruct st as [|o st]; [done|]. apply andb_true_iff in HB as [HE HB].
      apply TokenKind.token_eqb_eq in HE as ->. exists [], (TokenKind.closing_symbol o :: ks).
      split; [constructor|]. split; [done|]. by exists ks.
    + destruct (IH ks st) as (inner & rest & Hi & -> & H); [lia|done|].
      exists (k :: inner), rest. split; [by apply balanced_other|done].
Qed.

Lemma balances_balanced ks : balances [] ks = true → balanced ks.
Proof.
  intros HB. destruct (balances_balanced_app (S (length ks)) ks [] ltac:(lia) HB)
    as (inner & rest & Hi & -> & ->). by rewrite app_nil_r.
Qed.

(** Corrections that are those of a walk, in the order of the brackets they are
    for, balance the stream. *)
Lemma walk_repairs ks W cs :
  walk ks 0 [] W → cs ≡ₚ W →
  StronglySorted (λ c c', diagnostic_token_index c < diagnostic_token_index c') cs →
  balanced (repaired_kinds ks cs) ∧ Forall (decided ks 0 []) cs ∧ (vec_size cs ≤ vec_size ks).
Proof.
  intros HW HP Hs. destruct (walk_decided _ _ _ _ HW I (List.Forall_nil _) ltac:(lia)) as (HD & HN & HC).
  assert (Forall (decided ks 0 []) cs) as HDcs by (by rewrite HP).
  assert (Forall plain_fix cs) as Hplain.
  { eapply Forall_impl; [exact HDcs|]. intros c [_ _ Hb _] Hr. by rewrite Hr in Hb. }
  split; [|split; [done|]].
  - apply balances_balanced. unfold repaired_kinds. rewrite with_errors_of_marked.
    2: { eapply Forall_impl; [exact HDcs|]. intros c [_ _ Hb _] x Hr. rewrite Hr in Hb.
         destruct Hb as (k & Hk & _). by apply vec_get_lt in Hk as [? _]. }
    rewrite (merged_layout cs W); [by apply walk_balances|done|done|..]; intros t.
    + unfold inserted_at. rewrite <- fmap_reverse. f_equal.
      apply (StronglySorted_unique_strong (λ c c', diagnostic_token_index c' < diagnostic_token_index c)).
      * intros; lia.
      * by apply (StronglySorted_reverse (λ c c', diagnostic_token_index c < diagnostic_token_index c')),
          StronglySorted_filter.
      * apply HC.
      * rewrite reverse_Permutation. by apply filter_Permutation.
    + pose proof (walk_one_opener _ _ _ _ HW I t) as Hl.
      pose proof (inserted_at_permutation TokenKind.is_opening_symbol _ _ t HP) as Hp.
      destruct (inserted_at _ W t) as [|k [|k' l]]; [..|cbn in Hl; lia].
      * symmetry in Hp. by apply Permutation_nil in Hp as ->.
      * symmetry in Hp. by apply Permutation_length_1_inv in Hp as ->.
  - assert (NoDup (diagnostic_token_index <$> cs)) as HNcs by (by rewrite HP).
    assert (diagnostic_token_index <$> cs ⊆ seqZ 0 (vec_size ks)) as Hsub.
    { intros d (c & -> & Hc)%list_elem_of_fmap. apply elem_of_seqZ. rewrite Forall_forall in HDcs.
      destruct (HDcs _ Hc) as [_ [Hd _ _ _] _ _]. lia. }
    apply NoDup_submseteq in Hsub; [|done]. apply submseteq_length in Hsub.
    rewrite length_fmap, length_seqZ in Hsub. unfold vec_size in *. lia.
Qed.
