(* ===== verification/BracketRegions.v ===== *)
(** The analysis before bracket repair never reads outside its arrays; it pairs
    brackets with brackets of the same kind; and the blocks it collapses are
    balanced. The items it builds cover the stream; a region that is skipped
    needs no correction, and the greedy fallback repairs any region. *)

From S2P Require Import Prelude TokenKinds BracketTokens BracketRules BracketAnalysis.
From S2P Require Import BracketSearch RecoveryLinks Recovered BracketWalk.

#[local] Abbreviation Token := MismatchedBracketToken.
Implicit Types (tokens : list Token) (mp : list Z).

Lemma kind_eqb_eq k k' : kind_eqb k k' = true ↔ k = k'.
Proof.
  unfold kind_eqb. rewrite Z.eqb_eq. split; [|by intros ->]. by destruct k, k'.
Qed.

Lemma kind_in_spec k ks : kind_in k ks = true ↔ k ∈ ks.
Proof.
  unfold kind_in. rewrite existsb_exists. setoid_rewrite kind_eqb_eq.
  setoid_rewrite <- list_elem_of_In. naive_solver.
Qed.

(** * Loops over a range *)

Lemma all_up_succeeds n : ∀ i (test : Z → Result bool),
  (∀ j, i ≤ j < i + Z.of_nat n → succeeds (test j) (λ _, True)) →
  succeeds (all_up n i test) (λ b, b = true → ∀ j, i ≤ j < i + Z.of_nat n → test j = Ok true).
Proof.
  induction n as [|n IH]; intros i test H; cbn [all_up].
  { apply succeeds_ret. intros _ j ?. lia. }
  destruct (H i ltac:(lia)) as (b & Eb & _). rewrite Eb. cbn [mbind Result_bind].
  destruct b; [|by apply succeeds_ret].
  eapply succeeds_mono; [apply IH; intros j Hj; apply H; lia|]. intros b Hb ->.
  intros j Hj. destruct (decide (j = i)) as [->|]; [done|]. apply Hb; [done|lia].
Qed.

Lemma all_seq_succeeds lo hi (test : Z → Result bool) :
  (∀ j, lo ≤ j < hi → succeeds (test j) (λ _, True)) →
  succeeds (all_seq lo hi test) (λ b, b = true → ∀ j, lo ≤ j < hi → test j = Ok true).
Proof.
  intros H. eapply succeeds_mono; [apply all_up_succeeds; intros j Hj; apply H; lia|].
  intros b Hb -> j Hj. apply Hb; [done|lia].
Qed.

(** Steps through a function whose result does not matter. *)
Ltac succeeds_all :=
  repeat first
    [ done
    | progress (cbv beta iota zeta)
    | match goal with
      | |- succeeds (mret _) _ => apply succeeds_ret
      | |- succeeds (vec_get _ _) _ => apply succeeds_get; [try lia|intros ? ?]
      | |- succeeds (mbind _ _) _ => apply succeeds_bind
      | |- succeeds (if ?b then _ else _) _ => destruct b eqn:?
      | |- succeeds (match ?o with _ => _ end) _ => destruct o eqn:?
      end ].

Section analysis.
Implicit Types (t : Token).
Context (tokens : list Token).
#[local] Abbreviation n := (vec_size tokens).

(** A vector with an element for each token. *)
Definition sized {A} (l : list A) : Prop := vec_size l = n.

Lemma sized_replicate {A} (x : A) : sized (replicate (length tokens) x).
Proof using. unfold sized, vec_size. by rewrite length_replicate. Qed.

Lemma sized_set {A} (l : list A) i x : sized l → sized (vec_set l i x).
Proof using. unfold sized. by rewrite vec_set_size. Qed.

(** * Pairs *)

Definition bracket_pair (opener closer : Token) : Prop :=
  IsOpeningBracket (bracket_kind opener) = true ∧
  bracket_kind closer = MatchingClosingKind (bracket_kind opener).

Definition partners_in mp : Prop := ∀ i j, vec_get mp i = Ok j → j = -1 ∨ 0 ≤ j < n.

(** Partners are partners of each other, an opener before its closer. *)
Definition paired mp : Prop := ∀ i j, vec_get mp i = Ok j → j ≠ -1 →
  vec_get mp j = Ok i ∧ ∃ ti tj, vec_get tokens i = Ok ti ∧ vec_get tokens j = Ok tj ∧
    (i < j ∧ bracket_pair ti tj ∨ j < i ∧ bracket_pair tj ti).

Lemma paired_in mp : paired mp → partners_in mp.
Proof using.
  intros H i j Hij. destruct (decide (j = -1)) as [|Hj]; [by left|right].
  destruct (H i j Hij Hj) as (_ & _ & tj & _ & Hg & _). by apply vec_get_lt in Hg.
Qed.

Lemma find_matching_opener_succeeds stack closer m :
  Forall (λ x, 0 ≤ x < n) stack → (m ≤ length stack)%nat →
  succeeds (find_matching_opener tokens stack closer m) (λ s, s = -1 ∨
    0 ≤ s ∧ ∃ idx opener, vec_get stack s = Ok idx ∧ vec_get tokens idx = Ok opener ∧
      plausible_opener closer opener = true).
Proof using.
  intros HF. induction m as [|m IH]; intros Hm; cbn [find_matching_opener].
  { apply succeeds_ret. by left. }
  apply succeeds_bind, succeeds_get; [unfold vec_size; lia|]. intros idx Hidx.
  assert (0 ≤ idx < n) as Hr.
  { apply vec_get_Ok in Hidx as [_ Hidx]. by eapply Forall_lookup_1 in HF. }
  apply succeeds_bind, succeeds_get; [done|]. intros opener Ho.
  destruct (plausible_opener closer opener) eqn:Ep; [|apply IH; lia].
  apply succeeds_ret. right. split; [lia|]. eauto.
Qed.

Lemma plausible_pair closer opener :
  IsClosingBracket (bracket_kind closer) = true → plausible_opener closer opener = true →
  bracket_pair opener closer.
Proof using.
  unfold plausible_opener. intros Hc Hp. destruct (kind_eqb (bracket_kind closer) Kind.CloseCurlyBrace) eqn:E.
  - apply kind_eqb_eq in E. cbn in Hp. apply andb_true_iff in Hp as [Hk%kind_eqb_eq _].
    split; [by rewrite Hk|by rewrite Hk, E].
  - cbn in Hp. apply kind_eqb_eq in Hp. split; rewrite Hp; by destruct (bracket_kind closer).
Qed.

(** What the loop has paired when it reaches [i]. *)
Record matching (i : Z) (s : list Z * list Z) : Prop := {
  matching_sized : sized s.1;
  matching_paired : paired s.1;
  matching_stack : Forall (λ x, 0 ≤ x < i ∧ vec_get s.1 x = Ok (-1)) s.2;
  matching_nodup : NoDup s.2;
  matching_later : ∀ j, i ≤ j < n → vec_get s.1 j = Ok (-1);
}.

Lemma match_step_succeeds i s :
  0 ≤ i < n → matching i s → succeeds (match_step tokens i s) (matching (i + 1)).
Proof using.
  intros Hi [H1 H2 H3 H4 H5]. destruct s as [mp stack]. cbn in *. unfold match_step.
  apply succeeds_bind, succeeds_get; [done|]. intros t Ht.
  assert (matching (i + 1) (mp, stack)) as Hkeep.
  { split; [done|done| |done|intros j ?; apply H5; lia].
    eapply Forall_impl; [exact H3|]. cbn. intuition lia. }
  destruct (IsOpeningBracket (bracket_kind t)) eqn:Eo;
    [|destruct (IsClosingBracket (bracket_kind t)) eqn:Ec; [|by apply succeeds_ret]].
  - apply succeeds_ret. split; [done|done| | |intros j ?; apply H5; lia].
    + apply Forall_app_2.
      * eapply Forall_impl; [exact H3|]. cbn. intuition lia.
      * constructor; [|constructor]. split; [lia|]. apply H5. lia.
    + apply NoDup_app. split_and!; [done| |apply NoDup_singleton]. intros x Hx Hxi.
      apply list_elem_of_singleton in Hxi as ->. rewrite Forall_forall in H3. destruct (H3 _ Hx). lia.
  - unfold FindMatchingOpener. apply succeeds_bind, succeeds_bind, succeeds_get; [done|].
    intros closer Hcl. rewrite Ht in Hcl. injection Hcl as <-.
    eapply succeeds_mono; [apply find_matching_opener_succeeds; [|done]|].
    { eapply Forall_impl; [exact H3|]. cbn. intuition lia. }
    intros s [->|(Hs & idx & opener & Hidx & Hop & Hpl)]; [by apply succeeds_ret|].
    destruct (Z.eqb_spec s (-1)) as [|_]; [lia|]. rewrite Hidx. cbn [mbind Result_bind].
    apply succeeds_ret. apply vec_get_Ok in Hidx as [_ Hidx].
    pose proof (Forall_lookup_1 _ _ _ _ H3 Hidx) as [Hr Hm]. cbn in Hr, Hm.
    pose proof (plausible_pair _ _ Ec Hpl) as Hpair.
    assert (0 ≤ idx < vec_size mp) as Hr1 by (rewrite H1; lia).
    assert (0 ≤ i < vec_size (vec_set mp idx i)) as Hr2 by (rewrite vec_set_size, H1; lia).
    split.
    + by do 2 apply sized_set.
    + intros a b Hab Hb. cbn in *. apply (vec_get_set _ _ _ _ _ Hr2) in Hab as [[<- <-]|[Hia Hab]].
      * split.
        -- apply (vec_get_set _ _ _ _ _ Hr2). right. split; [lia|].
           apply (vec_get_set _ _ _ _ _ Hr1). by left.
        -- exists t, opener. split_and!; [done|done|]. right. by split; [lia|].
      * apply (vec_get_set _ _ _ _ _ Hr1) in Hab as [[<- <-]|[Hda Hab]].
        -- split; [apply (vec_get_set _ _ _ _ _ Hr2); by left|].
           exists opener, t. split_and!; [done|done|]. left. by split; [lia|].
        -- destruct (H2 a b Hab Hb) as (Hba & Hrest). split; [|done].
           apply (vec_get_set _ _ _ _ _ Hr2). right. split.
           { intros <-. rewrite H5 in Hba by lia. injection Hba as <-. apply vec_get_lt in Hab. lia. }
           apply (vec_get_set _ _ _ _ _ Hr1). right. split; [|done].
           intros <-. rewrite Hm in Hba. injection Hba as <-. apply vec_get_lt in Hab. lia.
    + cbn. apply Forall_forall. intros x (j & Hj)%list_elem_of_lookup.
      apply lookup_take_Some in Hj as [Hj Hlt].
      pose proof (Forall_lookup_1 _ _ _ _ H3 Hj) as [Hrx Hmx]. cbn in Hrx, Hmx. split; [lia|].
      apply (vec_get_set _ _ _ _ _ Hr2). right. split; [lia|].
      apply (vec_get_set _ _ _ _ _ Hr1). right. split; [|done].
      intros <-. pose proof (NoDup_lookup _ _ _ _ H4 Hj Hidx). lia.
    + cbn. rewrite <- (take_drop (Z.to_nat s) stack) in H4. by apply NoDup_app in H4 as [? _].
    + cbn. intros j Hj. apply (vec_get_set _ _ _ _ _ Hr2). right. split; [lia|].
      apply (vec_get_set _ _ _ _ _ Hr1). right. split; [lia|]. apply H5. lia.
Qed.

Lemma MatchBracketPairs_succeeds :
  succeeds (MatchBracketPairs tokens) (λ mp, sized mp ∧ paired mp).
Proof using.
  unfold MatchBracketPairs. eapply succeeds_then.
  - apply (for_seq_succeeds matching); [apply vec_size_nonneg| |intros i s ?; by apply match_step_succeeds].
    assert (∀ j, vec_get (replicate (length tokens) (-1)) j = Ok (-1) ∨ ¬ 0 ≤ j < n) as Hrep.
    { intros j. destruct (decide (0 ≤ j < n)) as [Hj|]; [|by right]. left. apply vec_get_Ok.
      split; [lia|]. apply lookup_replicate_2. unfold vec_size in Hj. lia. }
    split; [apply sized_replicate| |constructor|constructor|].
    + intros i j Hij Hj. destruct (Hrep i) as [E|E]; [cbn in Hij; congruence|].
      destruct E. apply vec_get_lt in Hij. unfold vec_size in *. cbn in Hij. by rewrite length_replicate in Hij.
    + intros j Hj. by destruct (Hrep j).
  - intros s H. apply succeeds_ret. split; apply H.
Qed.

(** * The rest of the analysis returns *)

Section partners.
Context (mp : list Z) (Hmp : sized mp) (Hpaired : paired mp).

Lemma sized_get {A} (l : list A) i (P : A → Prop) :
  sized l → 0 ≤ i < n → (∀ x, vec_get l i = Ok x → P x) → succeeds (vec_get l i) P.
Proof using. intros Hl Hi. apply succeeds_get. by rewrite Hl. Qed.

Lemma partner_range i j : vec_get mp i = Ok j → negb (j =? -1) = true → 0 ≤ j < n.
Proof using Hpaired.
  intros Hj Hne. apply negb_true_iff, Z.eqb_neq in Hne.
  destruct (paired_in _ Hpaired _ _ Hj); [done|lia].
Qed.

Lemma find_branch_brace_succeeds m : ∀ depth,
  (m ≤ length tokens)%nat →
  succeeds (find_branch_brace tokens m depth) (λ b, b = -1 ∨ 0 ≤ b < Z.of_nat m).
Proof using.
  induction m as [|m IH]; intros depth Hm; cbn [find_branch_brace]; [apply succeeds_ret; by left|].
  apply succeeds_bind, succeeds_get; [unfold vec_size; lia|]. intros t _.
  assert (∀ d, succeeds (find_branch_brace tokens m d) (λ b, b = -1 ∨ 0 ≤ b < Z.of_nat (S m))) as H.
  { intros d. eapply succeeds_mono; [apply IH; lia|]. cbn. intros b [|]; [by left|right; lia]. }
  destruct (kind_eqb _ _); [done|]. destruct (kind_eqb _ _); [|done].
  destruct (depth =? 0); [|done]. apply succeeds_ret. right. lia.
Qed.

Lemma FindBranchBrace_succeeds j :
  0 ≤ j < n → succeeds (FindBranchBrace tokens j) (λ b, b = -1 ∨ 0 ≤ b < j).
Proof using.
  intros Hj. eapply succeeds_mono; [apply find_branch_brace_succeeds; unfold vec_size in Hj; lia|].
  cbn. intros b Hb. rewrite Z2Nat.id in Hb; lia.
Qed.

Lemma matched_before_succeeds p k ks :
  0 ≤ p < n → succeeds (matched_before mp p k ks)
    (λ o, match o with Some x => 0 ≤ x < p | None => True end).
Proof using Hmp Hpaired.
  intros Hp. unfold matched_before. destruct (kind_in k ks); [|by apply succeeds_ret].
  apply succeeds_bind, sized_get; [done|done|]. intros partner Hpartner. apply succeeds_ret.
  destruct (negb _ && _) eqn:E; [|done]. apply andb_true_iff in E as [E1 E2%Z.ltb_lt].
  pose proof (partner_range _ _ Hpartner E1). lia.
Qed.

Lemma outer_introducer_step_succeeds j indent :
  0 ≤ j < n → succeeds (outer_introducer_step tokens mp (j, indent))
    (λ x, match x with inl (j', _) => 0 ≤ j' < j | inr _ => True end).
Proof using Hmp Hpaired.
  intros Hj. unfold outer_introducer_step.
  destruct (Z.ltb_spec 0 j) as [Hpos|]; cbn [negb]; [|by apply succeeds_ret].
  apply succeeds_bind, succeeds_get; [done|]. intros tj _.
  apply succeeds_bind, succeeds_get; [lia|]. intros before _.
  eapply (succeeds_then _ _ (λ b, b = -1 ∨ 0 ≤ b < j)).
  { destruct (_ && _); [by apply FindBranchBrace_succeeds|apply succeeds_ret; by left]. }
  intros brace Hb. destruct (Z.ltb_spec 0 brace).
  { apply succeeds_bind, succeeds_get; [lia|]. intros tb _. apply succeeds_ret. lia. }
  eapply succeeds_then; [apply matched_before_succeeds; lia|]. intros opener Ho.
  destruct (match opener with Some o => o <=? 0 | None => false end) eqn:E; [by apply succeeds_ret|].
  assert (0 ≤ (match opener with Some o => o - 1 | None => j - 1 end) < j) as Hp.
  { destruct opener as [o|]; [apply Z.leb_gt in E; lia|lia]. }
  apply succeeds_bind, succeeds_get; [lia|]. intros tp _.
  destruct (kind_eqb _ _); [|by apply succeeds_ret].
  destruct (_ || _); by apply succeeds_ret.
Qed.

Lemma GetOuterStatementIntroducerIndent_succeeds j :
  0 ≤ j < n → succeeds (GetOuterStatementIntroducerIndent tokens mp j) (λ _, True).
Proof using Hmp Hpaired.
  intros Hj. apply succeeds_bind, succeeds_get; [done|]. intros tj _.
  apply (loop_succeeds (λ s, 0 ≤ s.1 < n) (λ s, Z.to_nat s.1)); [done|cbn; lia|].
  intros [j' indent] Hj'. cbn in Hj'. eapply succeeds_mono; [by apply outer_introducer_step_succeeds|].
  intros [[j'' i]|r]; cbn; [|done]. lia.
Qed.

Lemma continue_walk_succeeds (walk_result : list Z) next indent :
  sized walk_result → next < n → succeeds (continue_walk walk_result next indent) (λ _, True).
Proof using.
  intros Hw Hn. unfold continue_walk. destruct (Z.leb_spec 0 next); [|by apply succeeds_ret].
  apply succeeds_bind, sized_get; [done|lia|]. intros r _. by apply succeeds_ret.
Qed.

Lemma ComputeAssociatedLineIndents_succeeds :
  succeeds (ComputeAssociatedLineIndents tokens mp) sized.
Proof using Hmp Hpaired.
  unfold ComputeAssociatedLineIndents. eapply succeeds_then.
  - apply (for_seq_succeeds (λ _, sized)); [apply vec_size_nonneg|apply sized_replicate|].
    intros j w Hj Hw. unfold walk_step. apply succeeds_bind, succeeds_get; [done|]. intros tj _.
    eapply (succeeds_then _ _ (λ o, match o with Some x => 0 ≤ x < n | None => True end)).
    { destruct (IsClosingBracket _); [|by apply succeeds_ret].
      apply succeeds_bind, sized_get; [done|done|]. intros partner Hp. apply succeeds_ret.
      destruct (negb _ && _) eqn:E; [|done]. apply andb_true_iff in E as [E1 _].
      by eapply partner_range. }
    intros [open|] Ho.
    { apply succeeds_bind, succeeds_get; [done|]. intros topen _.
      eapply succeeds_then; [apply continue_walk_succeeds; [done|lia]|]. intros r _.
      by apply succeeds_ret, sized_set. }
    destruct (kind_in _ _); [by apply succeeds_ret|]. destruct (kind_eqb _ _).
    + eapply succeeds_then; [by apply GetOuterStatementIntroducerIndent_succeeds|].
      intros r _. by apply succeeds_ret, sized_set.
    + eapply succeeds_then; [apply continue_walk_succeeds; [done|lia]|].
      intros r _. by apply succeeds_ret, sized_set.
  - intros w Hw. apply (for_seq_succeeds (λ _, sized)); [apply vec_size_nonneg|apply sized_replicate|].
    intros i ind Hi Hind. unfold indent_step. apply succeeds_bind, succeeds_get; [done|]. intros ti _.
    destruct (kind_eqb _ _); [by apply succeeds_ret|].
    eapply succeeds_then; [apply continue_walk_succeeds; [done|lia]|].
    intros r _. by apply succeeds_ret, sized_set.
Qed.

Lemma ComputeFollowsStatementHeader_succeeds i :
  succeeds (ComputeFollowsStatementHeader tokens mp i) (λ _, True).
Proof using Hmp Hpaired.
  unfold ComputeFollowsStatementHeader. destruct (_ || _) eqn:E; [by apply succeeds_ret|].
  apply orb_false_iff in E as [E1%Z.leb_gt E2%Z.leb_gt].
  apply succeeds_bind, succeeds_get; [lia|]. intros curr _.
  destruct (_ || _); [by apply succeeds_ret|].
  apply succeeds_bind, succeeds_get; [lia|]. intros prev _.
  destruct (_ && _); [by apply succeeds_ret|]. destruct (_ || _); [by apply succeeds_ret|].
  apply (loop_succeeds (λ j, -1 ≤ j < i) (λ j, Z.to_nat (j + 1))); [lia|lia|].
  intros j Hj. unfold follows_header_step.
  destruct (Z.leb_spec 0 j); cbn [negb]; [|by apply succeeds_ret].
  apply succeeds_bind, succeeds_get; [lia|]. intros tj _.
  eapply succeeds_then; [apply matched_before_succeeds; lia|]. intros [o|] Ho.
  { apply succeeds_ret. lia. }
  destruct (kind_in _ _); [by apply succeeds_ret|]. destruct (kind_eqb _ _); [|apply succeeds_ret; lia].
  destruct (kind_eqb _ _); [|by apply succeeds_ret]. destruct (_ =? _); [|by apply succeeds_ret].
  eapply succeeds_then.
  { apply all_seq_succeeds. intros k Hk. apply succeeds_bind, succeeds_get; [lia|]. intros tk _.
    by apply succeeds_ret. }
  intros b _. by apply succeeds_ret.
Qed.

Lemma ComputeHeaderHasOpenCurlyBrace_succeeds i :
  succeeds (ComputeHeaderHasOpenCurlyBrace tokens mp i) (λ _, True).
Proof using Hmp Hpaired.
  unfold ComputeHeaderHasOpenCurlyBrace. destruct (_ || _) eqn:E; [by apply succeeds_ret|].
  apply orb_false_iff in E as [E1%Z.leb_gt E2%Z.leb_gt].
  apply (loop_succeeds (λ j, 0 ≤ j ≤ n) (λ j, Z.to_nat (n - j))); [lia|lia|].
  intros j Hj. unfold header_has_brace_step.
  destruct (Z.ltb_spec j n); cbn [negb]; [|by apply succeeds_ret].
  apply succeeds_bind, succeeds_get; [lia|]. intros tj _.
  destruct (kind_eqb _ _); [by apply succeeds_ret|].
  eapply (succeeds_then _ _ (λ o, match o with Some x => j < x < n | None => True end)).
  { destruct (kind_in _ _); [|by apply succeeds_ret].
    apply succeeds_bind, sized_get; [done|lia|]. intros partner Hp. apply succeeds_ret.
    destruct (negb _ && _) eqn:E; [|done]. apply andb_true_iff in E as [E3 E4%Z.ltb_lt].
    pose proof (partner_range _ _ Hp E3). lia. }
  intros [c|] Hc; [apply succeeds_ret; lia|].
  destruct (kind_in _ _); [by apply succeeds_ret|]. apply succeeds_ret. lia.
Qed.

Lemma ComputeSegments_succeeds :
  succeeds (ComputeSegments tokens) (λ s, sized (segment_id s) ∧ sized (segment_first s)).
Proof using.
  unfold ComputeSegments. destruct (decide (n = 0)) as [E|E].
  { exists {| segment_id := replicate (length tokens) 0;
              segment_first := replicate (length tokens) 0 |}.
    split; [by rewrite E|]. split; apply sized_replicate. }
  apply (for_seq_succeeds (λ _ s, sized (segment_id s) ∧ sized (segment_first s))).
  - pose proof (vec_size_nonneg tokens). lia.
  - split; apply sized_replicate.
  - intros i s Hi [H1 H2]. unfold segment_step. apply succeeds_bind, succeeds_get; [lia|]. intros prev _.
    apply succeeds_bind, sized_get; [done|lia|]. intros id _.
    apply succeeds_bind, sized_get; [done|lia|]. intros first _.
    apply succeeds_ret. split; by apply sized_set.
Qed.

Definition unmatched_in (u : UnmatchedGroupBrackets) : Prop :=
  ∀ k, Forall (λ x, 0 ≤ x < n) (OpenersOfKind u k) ∧ Forall (λ x, 0 ≤ x < n) (ClosersOfKind u k).

Lemma FindUnmatchedGroupBrackets_succeeds :
  succeeds (FindUnmatchedGroupBrackets tokens mp) unmatched_in.
Proof using Hmp.
  unfold FindUnmatchedGroupBrackets.
  apply (for_seq_succeeds (λ _, unmatched_in)); [apply vec_size_nonneg| |].
  { intros k. unfold OpenersOfKind, ClosersOfKind. destruct (kind_eqb _ _); split; constructor. }
  intros i u Hi Hu. apply succeeds_bind, succeeds_get; [done|]. intros t _.
  unfold unmatched_step. apply succeeds_bind, sized_get; [done|done|]. intros partner _.
  apply succeeds_ret. destruct (negb _); [done|].
  assert (∀ l : list Z, Forall (λ x, 0 ≤ x < n) l → Forall (λ x, 0 ≤ x < n) (l ++ [i])) as Hsnoc.
  { intros l Hl. apply Forall_app_2; [done|]. by repeat constructor; lia. }
  destruct (bracket_kind t); try done; intros k; specialize (Hu k);
    unfold OpenersOfKind, ClosersOfKind in *; cbn;
    destruct (kind_eqb k Kind.OpenParen), Hu; split; auto.
Qed.

Record analyzed (a : TokenAnalysis) : Prop := {
  analyzed_partners : sized (match_partner a);
  analyzed_paired : paired (match_partner a);
  analyzed_ids : sized (segment_id (segments a));
  analyzed_firsts : sized (segment_first (segments a));
  analyzed_unmatched : unmatched_in (unmatched a);
  analyzed_indents : sized (effective_header_indent a);
  analyzed_first_on_line : sized (is_first_on_line a);
  analyzed_follows : sized (follows_statement_header a);
  analyzed_curly : sized (header_has_open_curly_brace a);
}.

Lemma flags_succeeds :
  let bits := replicate (length tokens) false in
  succeeds (for_seq 0 n (flags_step tokens mp) (bits, bits, bits))
    (λ f, sized f.1.1 ∧ sized f.1.2 ∧ sized f.2).
Proof using Hmp Hpaired.
  intros bits.
  apply (for_seq_succeeds (λ _ f, sized f.1.1 ∧ sized f.1.2 ∧ sized f.2)); [apply vec_size_nonneg| |].
  { split_and!; apply sized_replicate. }
  intros i [[first follows] curly] Hi (H1 & H2 & H3). unfold flags_step. cbn in H1, H2, H3.
  eapply (succeeds_then _ _ (λ _, True)).
  { destruct (Z.eqb_spec i 0); [by apply succeeds_ret|].
    apply succeeds_bind, succeeds_get; [lia|]. intros ti _.
    apply succeeds_bind, succeeds_get; [lia|]. intros prev _. by apply succeeds_ret. }
  intros is_first _. eapply succeeds_then; [apply ComputeFollowsStatementHeader_succeeds|].
  intros header _. eapply (succeeds_then _ _ sized).
  { destruct header; [|by apply succeeds_ret].
    eapply succeeds_then; [apply ComputeHeaderHasOpenCurlyBrace_succeeds|].
    intros b _. by apply succeeds_ret, sized_set. }
  intros curly' Hc. apply succeeds_ret. cbn. split_and!; [by apply sized_set..|done].
Qed.
End partners.

Lemma AnalyzeTokens_succeeds : succeeds (AnalyzeTokens tokens) analyzed.
Proof using.
  unfold AnalyzeTokens. eapply succeeds_then; [apply MatchBracketPairs_succeeds|]. intros mp [H1 H2].
  eapply succeeds_then; [apply ComputeSegments_succeeds|]. intros segs [H3 H4].
  eapply succeeds_then; [by apply FindUnmatchedGroupBrackets_succeeds|]. intros unm H5.
  eapply succeeds_then; [by apply ComputeAssociatedLineIndents_succeeds|]. intros ind H6.
  eapply succeeds_then; [by apply flags_succeeds|]. intros f (H7 & H8 & H9).
  apply succeeds_ret. by split.
Qed.

(** * Clean ranges *)

Section clean.
Context (a : TokenAnalysis) (Ha : analyzed a).
#[local] Abbreviation partner_of := (vec_get (match_partner a)).

(** What is between the brackets of a pair that can be collapsed. *)
Definition interior_ok (clean : list bool) (i c : Z) : Prop := ∀ j t, i < j < c →
  vec_get tokens j = Ok t → ∃ p, partner_of j = Ok p ∧
    (IsOpeningBracket (bracket_kind t) = true ∨ IsClosingBracket (bracket_kind t) = true → p ≠ -1) ∧
    (p ≠ -1 → i ≤ p ≤ c) ∧ (IsOpeningBracket (bracket_kind t) = true → vec_get clean j = Ok true).

Definition clean_from (from : Z) (clean : list bool) : Prop := ∀ i, from ≤ i →
  vec_get clean i = Ok true → ∃ c, partner_of i = Ok c ∧ i < c ∧ interior_ok clean i c.

Lemma no_bad_separator_succeeds bad m : ∀ j depth,
  0 ≤ j → j + Z.of_nat m ≤ n → succeeds (no_bad_separator tokens bad m j depth) (λ _, True).
Proof using.
  induction m as [|m IH]; intros j depth Hj Hm; cbn [no_bad_separator]; [by apply succeeds_ret|].
  apply succeeds_bind, succeeds_get; [lia|]. intros t _.
  destruct (IsOpeningBracket _); [apply IH; lia|]. destruct (IsClosingBracket _); [apply IH; lia|].
  destruct (_ && _); [by apply succeeds_ret|]. apply IH; lia.
Qed.

Lemma BracePairIsClean_succeeds i c :
  0 ≤ i < c → c < n → succeeds (BracePairIsClean tokens a i c) (λ _, True).
Proof using Ha.
  intros Hi Hc. unfold BracePairIsClean. apply succeeds_bind, succeeds_get; [lia|]. intros open _.
  apply succeeds_bind, succeeds_get; [lia|]. intros close _.
  apply succeeds_bind, sized_get; [apply Ha|lia|]. intros indent _.
  destruct (_ && _); [by apply succeeds_ret|]. apply no_bad_separator_succeeds; lia.
Qed.

Lemma find_range (p : Z → bool) l x :
  Forall (λ x, 0 ≤ x < n) l → find p l = Some x → 0 ≤ x < n.
Proof using.
  intros Hl Hx. apply find_some in Hx as [Hx _]. rewrite Forall_forall in Hl.
  by apply Hl, list_elem_of_In.
Qed.

Lemma GroupPairIsClean_succeeds i c :
  0 ≤ i < c → c < n → succeeds (GroupPairIsClean tokens a i c) (λ _, True).
Proof using Ha.
  intros Hi Hc. unfold GroupPairIsClean. apply succeeds_bind, succeeds_get; [lia|]. intros open _.
  apply succeeds_bind, sized_get; [apply Ha|lia|]. intros first _.
  destruct (ContainsInRange _ _ _); [by apply succeeds_ret|].
  destruct (find _ _) as [it|] eqn:E; [|by apply succeeds_ret].
  apply find_range in E; [|apply (analyzed_unmatched _ Ha)].
  apply succeeds_bind, sized_get; [apply Ha|done|]. intros seg _.
  apply succeeds_bind, sized_get; [apply Ha|lia|]. intros seg' _. by apply succeeds_ret.
Qed.

Lemma PairInteriorIsClean_succeeds clean i c :
  sized clean → 0 ≤ i < c → c < n →
  succeeds (PairInteriorIsClean tokens a clean i c) (λ b, b = true → interior_ok clean i c).
Proof using Ha.
  intros Hcl Hi Hc. unfold PairInteriorIsClean.
  apply succeeds_bind, succeeds_get; [lia|]. intros open _.
  apply succeeds_bind, succeeds_get; [lia|]. intros close _.
  apply succeeds_bind, sized_get; [apply Ha|lia|]. intros indent _.
  eapply succeeds_mono.
  - apply all_seq_succeeds. intros j Hj. unfold interior_token_ok.
    apply succeeds_bind, succeeds_get; [lia|]. intros tj _.
    apply succeeds_bind, sized_get; [apply Ha|lia|]. intros p _.
    destruct (if p =? -1 then _ else _); [by apply succeeds_ret|].
    eapply (succeeds_then _ _ (λ _, True)).
    { destruct (IsOpeningBracket _); [|by apply succeeds_ret]. apply sized_get; [done|lia|done]. }
    intros b _. apply succeeds_bind, sized_get; [apply Ha|lia|]. intros first _. by apply succeeds_ret.
  - cbv beta. intros b Hb E j t Hj Ht. specialize (Hb E j ltac:(lia)). unfold interior_token_ok in Hb.
    rewrite Ht in Hb. cbn [mbind Result_bind] in Hb.
    apply result_bind_Ok in Hb as (p & Hp & Hb). exists p. split; [done|].
    destruct (Z.eqb_spec p (-1)) as [->|Hne].
    + destruct (IsOpeningBracket (bracket_kind t)), (IsClosingBracket (bracket_kind t)); try done.
      split_and!; intros; naive_solver.
    + destruct (Z.ltb_spec p i), (Z.ltb_spec c p); try done. cbn [orb] in Hb.
      split_and!; [done|lia|]. intros Ho. rewrite Ho in Hb.
      apply result_bind_Ok in Hb as (cl & Hcl' & Hb). apply result_bind_Ok in Hb as (f & _ & [= Hb]).
      by apply andb_true_iff in Hb as [-> _].
Qed.

Lemma interior_ok_ext clean clean' i c :
  (∀ j, i < j → vec_get clean j = Ok true → vec_get clean' j = Ok true) →
  interior_ok clean i c → interior_ok clean' i c.
Proof using.
  intros He H j t Hj Ht. destruct (H j t Hj Ht) as (p & H1 & H2 & H3 & H4). exists p.
  split_and!; [done|done|done|]. intros Ho. apply He; [lia|auto].
Qed.

Lemma MarkCleanRanges_succeeds :
  succeeds (MarkCleanRanges tokens a) (λ clean, sized clean ∧ clean_from 0 clean).
Proof using Ha.
  unfold MarkCleanRanges.
  eapply succeeds_mono.
  { apply (for_seq_reverse_succeeds (λ i clean, sized clean ∧ clean_from i clean ∧
      ∀ j, j < i → vec_get clean j ≠ Ok true)); [apply vec_size_nonneg| |].
    - assert (∀ j, vec_get (replicate (length tokens) false) j ≠ Ok true) as Hrep.
      { intros j [_ Hj]%vec_get_Ok. by apply lookup_replicate_1 in Hj as [? _]. }
      split_and!; [apply sized_replicate| |by intros j _; apply Hrep]. by intros i Hi ?%Hrep.
    - intros i clean Hi (H1 & H2 & H3). unfold mark_step.
      apply succeeds_bind, sized_get; [apply Ha|done|]. intros c Hc.
      destruct (Z.leb_spec c i).
      { apply succeeds_ret. split_and!; [done| |intros j ?; apply H3; lia].
        intros j Hj Hcj. destruct (decide (j = i)) as [->|]; [|apply H2; [lia|done]].
        by apply H3 in Hcj; [|lia]. }
      apply succeeds_bind, succeeds_get; [lia|]. intros ti _.
      assert (0 ≤ c < n) as Hcn.
      { destruct (paired_in _ (analyzed_paired _ Ha) _ _ Hc); lia. }
      eapply (succeeds_then _ _ (λ _, True)).
      { destruct (kind_eqb _ _); [apply BracePairIsClean_succeeds|apply GroupPairIsClean_succeeds]; lia. }
      intros b _. eapply (succeeds_then _ _ (λ b, b = true → interior_ok clean i c)).
      { destruct b; [|by apply succeeds_ret]. apply PairInteriorIsClean_succeeds; [done|lia|lia]. }
      intros b' Hb'. assert (0 ≤ i < vec_size clean) as Hr by (rewrite H1; lia).
      apply succeeds_ret. split_and!; [by apply sized_set| |].
      + intros j Hj Hcj. apply (vec_get_set _ _ _ _ _ Hr) in Hcj as [[<- ->]|[Hne Hcj]].
        * exists c. split_and!; [done|lia|]. eapply interior_ok_ext; [|by apply Hb'].
          intros j Hij Hcj. apply (vec_get_set _ _ _ _ _ Hr). right. by split; [lia|].
        * destruct (H2 j ltac:(lia) Hcj) as (c' & Hc' & Hlt & Hin). exists c'. split_and!; [done|done|].
          eapply interior_ok_ext; [|exact Hin]. intros j' Hj' Hcj'. apply (vec_get_set _ _ _ _ _ Hr).
          right. by split; [lia|].
      + intros j Hj Hcj. apply (vec_get_set _ _ _ _ _ Hr) in Hcj as [[<- _]|[_ Hcj]]; [lia|].
        by apply H3 in Hcj; [|lia]. }
  cbv beta. intros clean (H1 & H2 & _). done.
Qed.
End clean.

(** * The stream the tokens describe *)

Definition describes (bk : Kind.t) (k : TokenKind.t) : Prop :=
  if IsOpeningBracket bk || IsClosingBracket bk then k = ToTokenKind bk else is_bracket k = false.

(** [ks] is a first token that is skipped and those [tokens] describe, the last of
    which is the end of the file. *)
Record described (ks : list TokenKind.t) : Prop := {
  described_size : vec_size ks = n + 1;
  described_first k : vec_get ks 0 = Ok k → is_bracket k = false;
  described_index i t : vec_get tokens i = Ok t → bracket_token_index t = i + 1;
  described_kind i t : vec_get tokens i = Ok t →
    ∃ k, vec_get ks (i + 1) = Ok k ∧ describes (bracket_kind t) k;
  described_end i t : vec_get tokens i = Ok t → bracket_kind t = Kind.FileEnd ↔ i = n - 1;
}.

(** From [t] to [t'] the stream can be read without corrections, whatever is
    open. *)
Definition passes (ks : list TokenKind.t) (t t' : Z) : Prop :=
  ∀ st W, walk ks t' st W → walk ks t st W.

#[local] Instance passes_preorder ks : PreOrder (passes ks).
Proof using. split; [by intros t st W|]. intros t1 t2 t3 H12 H23 st W H. by apply H12, H23. Qed.

Section stream.
Context (ks : list TokenKind.t) (Hks : described ks).

Lemma described_open i t :
  vec_get tokens i = Ok t → IsOpeningBracket (bracket_kind t) = true →
  vec_get ks (i + 1) = Ok (ToTokenKind (bracket_kind t)) ∧
  TokenKind.is_opening_symbol (ToTokenKind (bracket_kind t)) = true.
Proof using Hks.
  intros Ht Ho. destruct (described_kind _ Hks _ _ Ht) as (k & Hk & Hd). unfold describes in Hd.
  rewrite Ho in Hd. cbn in Hd. subst k. split; [done|]. by destruct (bracket_kind t).
Qed.

Lemma described_close i t bk :
  vec_get tokens i = Ok t → IsOpeningBracket bk = true → bracket_kind t = MatchingClosingKind bk →
  vec_get ks (i + 1) = Ok (TokenKind.closing_symbol (ToTokenKind bk)).
Proof using Hks.
  intros Ht Ho Hk. destruct (described_kind _ Hks _ _ Ht) as (k & Hg & Hd). unfold describes in Hd.
  rewrite Hk in Hd. rewrite Hg. f_equal. by destruct bk.
Qed.

Lemma described_other i t :
  vec_get tokens i = Ok t → IsOpeningBracket (bracket_kind t) = false →
  IsClosingBracket (bracket_kind t) = false → passes ks (i + 1) (i + 2).
Proof using Hks.
  intros Ht Ho Hc st W HW. destruct (described_kind _ Hks _ _ Ht) as (k & Hg & Hd). unfold describes in Hd.
  rewrite Ho, Hc in Hd. eapply walk_other; [done|done|]. by replace (i + 1 + 1) with (i + 2) by lia.
Qed.

Lemma pair_passes i c ti tc :
  vec_get tokens i = Ok ti → vec_get tokens c = Ok tc → bracket_pair ti tc →
  passes ks (i + 2) (c + 1) → passes ks (i + 1) (c + 2).
Proof using Hks.
  intros Hi Hc [Ho Hk] Hin st W HW. destruct (described_open _ _ Hi Ho) as [Hg Hop].
  eapply walk_push; [done|done|]. replace (i + 1 + 1) with (i + 2) by lia. apply Hin.
  apply walk_match; [by eapply described_close|]. by replace (c + 1 + 1) with (c + 2) by lia.
Qed.

Context (a : TokenAnalysis) (Ha : analyzed a).
Context (clean : list bool) (Hclean : clean_from a 0 clean).
#[local] Abbreviation partner_of := (vec_get (match_partner a)).

(** Every opener between [i] and [j] has its partner before [j]. *)
Definition closed_between (i j : Z) : Prop := ∀ p t, i < p < j → vec_get tokens p = Ok t →
  IsOpeningBracket (bracket_kind t) = true → ∃ q, partner_of p = Ok q ∧ q < j.

Lemma opener_not_closer k : IsOpeningBracket k = true → IsClosingBracket k = true → False.
Proof using. by destruct k. Qed.

Lemma closer_not_opener k : IsOpeningBracket k = true → IsClosingBracket (MatchingClosingKind k) = true.
Proof using. by destruct k. Qed.

Lemma partner_direction i c ti :
  partner_of i = Ok c → c ≠ -1 → vec_get tokens i = Ok ti →
  partner_of c = Ok i ∧ ∃ tc, vec_get tokens c = Ok tc ∧
    (IsOpeningBracket (bracket_kind ti) = true → i < c ∧ bracket_pair ti tc) ∧
    (IsClosingBracket (bracket_kind ti) = true →
      c < i ∧ IsOpeningBracket (bracket_kind tc) = true).
Proof using Ha.
  intros Hc Hne Hi. destruct (analyzed_paired _ Ha _ _ Hc Hne) as (Hci & ti' & tc & Hi' & Htc & Hp).
  rewrite Hi in Hi'. injection Hi' as <-. split; [done|]. exists tc. split; [done|].
  destruct Hp as [[Hlt [Ho Hk]]|[Hlt [Ho Hk]]]; split; intros Hb.
  - done.
  - by destruct (opener_not_closer _ Ho).
  - rewrite Hk in Hb. by destruct (bracket_kind tc).
  - done.
Qed.

Lemma block_passes m : ∀ i c,
  vec_get clean i = Ok true → partner_of i = Ok c → c - i < Z.of_nat m →
  passes ks (i + 1) (c + 2).
Proof using Hks Ha Hclean.
  induction m as [|m IH]; intros i c Hcl Hc Hm.
  { pose proof (vec_get_lt _ _ _ Hcl). destruct (Hclean i ltac:(lia) Hcl) as (c' & Hc' & ? & _).
    rewrite Hc in Hc'. injection Hc' as <-. lia. }
  pose proof (vec_get_lt _ _ _ Hcl) as Hi.
  destruct (Hclean i ltac:(lia) Hcl) as (c' & Hc' & Hlt & Hin). rewrite Hc in Hc'. injection Hc' as <-.
  destruct (analyzed_paired _ Ha _ _ Hc ltac:(lia)) as (Hci & ti & tc & Hti & Htc & [[_ Hp]|[? _]]); [|lia].
  apply (pair_passes i c ti tc); [done..|].
  assert (∀ d j, i < j ≤ c → c - j < Z.of_nat d → closed_between i j → passes ks (j + 1) (c + 1)) as Hloop.
  2: { replace (i + 2) with (i + 1 + 1) by lia.
       apply (Hloop (Z.to_nat (c - i))); [lia|lia|]. intros p t Hp'. lia. }
  induction d as [|d IHd]; intros j Hj Hd Hcb; [lia|].
  destruct (decide (j = c)) as [->|Hjc]; [done|].
  destruct (vec_get_in_range tokens j) as [tj Htj]; [apply vec_get_lt in Htc; lia|].
  destruct (Hin j tj ltac:(lia) Htj) as (p & Hpj & Hb & Hpr & Hclj).
  destruct (IsOpeningBracket (bracket_kind tj)) eqn:Ho.
  - assert (p ≠ -1) as Hp1 by auto. specialize (Hpr Hp1).
    destruct (partner_direction _ _ _ Hpj Hp1 Htj) as (Hpp & tp & Htp & Hdir & _).
    destruct (Hdir Ho) as [Hjp _].
    assert (p ≠ c) as Hpc by (intros ->; rewrite Hci in Hpp; injection Hpp; lia).
    transitivity (p + 2); [apply IH; [by apply Hclj|done|lia]|].
    replace (p + 2) with (p + 1 + 1) by lia. apply IHd; [lia|lia|].
    intros q t Hq Ht Hot. destruct (decide (q < j)) as [Hqj|Hqj].
    + destruct (Hcb q t ltac:(lia) Ht Hot) as (r & Hr & Hrj). exists r. split; [done|lia].
    + destruct (decide (q = j)) as [->|Hqn]; [exists p; split; [done|lia]|].
      destruct (decide (q = p)) as [->|Hqp].
      { exists j. split; [done|lia]. }
      destruct (Hclean j ltac:(lia) (Hclj eq_refl)) as (p' & Hp' & _ & Hin').
      rewrite Hpj in Hp'. injection Hp' as <-.
      destruct (Hin' q t ltac:(lia) Ht) as (r & Hr & Hrb & Hrr & _).
      exists r. split; [done|]. specialize (Hrr ltac:(auto)). lia.
  - destruct (IsClosingBracket (bracket_kind tj)) eqn:Hcj.
    + assert (p ≠ -1) as Hp1 by auto. specialize (Hpr Hp1).
      destruct (partner_direction _ _ _ Hpj Hp1 Htj) as (Hpp & tp & Htp & _ & Hdir).
      destruct (Hdir Hcj) as [Hpjlt Hop].
      assert (p ≠ i) as Hpi by (intros ->; rewrite Hc in Hpp; injection Hpp; lia).
      destruct (Hcb p tp ltac:(lia) Htp Hop) as (q & Hq & Hqj). rewrite Hpp in Hq. injection Hq. lia.
    + transitivity (j + 2); [by eapply described_other|].
      replace (j + 2) with (j + 1 + 1) by lia. apply IHd; [lia|lia|].
      intros q t Hq Ht Hot. destruct (decide (q = j)) as [->|Hqn].
      * rewrite Htj in Ht. injection Ht as <-. congruence.
      * destruct (Hcb q t ltac:(lia) Ht Hot) as (r & Hr & Hrj). exists r. split; [done|lia].
Qed.
End stream.
End analysis.

(** * Items *)

Implicit Types (item : Item) (items : list Item) (t : Z).

(** * Cues as bits *)

Lemma CueSetOf_one c : CueSetOf [c] = Bit (Cue.AsInt c).
Proof. by destruct c. Qed.

Lemma Bit_testbit i j : 0 ≤ i → Z.testbit (Bit i) j = (j =? i).
Proof.
  intros Hi. unfold Bit. rewrite Z.shiftl_1_l, Z.pow2_bits_eqb by done. by rewrite Z.eqb_sym.
Qed.

Lemma Cue_AsInt_nonneg c : 0 ≤ Cue.AsInt c.
Proof. by destruct c. Qed.

Lemma HasAllCues_one cues c : HasAllCues cues [c] = Z.testbit cues (Cue.AsInt c).
Proof.
  unfold HasAllCues. rewrite CueSetOf_one. pose proof (Cue_AsInt_nonneg c) as Hc.
  assert (cues .& Bit (Cue.AsInt c) = if Z.testbit cues (Cue.AsInt c) then Bit (Cue.AsInt c) else 0) as ->.
  { apply Z.bits_inj'. intros i Hi. rewrite Z.land_spec, Bit_testbit by done.
    destruct (Z.eqb_spec i (Cue.AsInt c)) as [->|Hne].
    - rewrite andb_true_r. destruct (Z.testbit cues _) eqn:E; [by rewrite Bit_testbit, Z.eqb_refl|].
      by rewrite Z.testbit_0_l.
    - rewrite andb_false_r. destruct (Z.testbit cues (Cue.AsInt c)); [|by rewrite Z.testbit_0_l].
      rewrite Bit_testbit by done. symmetry. by apply Z.eqb_neq. }
  destruct (Z.testbit cues (Cue.AsInt c)); [apply Z.eqb_refl|]. apply Z.eqb_neq.
  unfold Bit. rewrite Z.shiftl_1_l. pose proof (Z.pow_pos_nonneg 2 (Cue.AsInt c) ltac:(lia) Hc). lia.
Qed.

Lemma CueIf_testbit holds c i :
  Z.testbit (CueIf holds c) i = holds && (i =? Cue.AsInt c).
Proof.
  unfold CueIf. destruct holds; [|apply Z.testbit_0_l].
  rewrite CueSetOf_one, Bit_testbit; [done|apply Cue_AsInt_nonneg].
Qed.

(** No cue computed for an item is one the caller gives but by its saying so. *)
Lemma collapsed_cue token prev_token prev_item collapsed has_scope first follows curly :
  HasAllCues (ComputeItemCues token prev_token prev_item
    (CueIf collapsed Cue.CollapsedBlock .| CueIf has_scope Cue.ContainsScopeBrace .|
     CueIf first Cue.FirstOnLine .| CueIf follows Cue.FollowsStatementHeader .|
     CueIf curly Cue.HeaderHasOpenCurly)) [Cue.CollapsedBlock] = collapsed.
Proof.
  rewrite HasAllCues_one. unfold ComputeItemCues.
  assert (∀ k, Z.testbit (PrevKindCue k) (Cue.AsInt Cue.CollapsedBlock) = false) as Hk by (by intros []).
  destruct prev_token as [prev|], prev_item as [it|];
    rewrite !Z.lor_spec, !CueIf_testbit, ?Hk, ?Z.testbit_0_l;
    cbn [Cue.AsInt Z.eqb Pos.eqb]; by rewrite !andb_false_r, andb_true_r, !orb_false_r.
Qed.

(** * Items cover the stream *)

Section items.
Context (ks : list TokenKind.t).

(** The item stands for the tokens from [t] to [t']; the end of the file, before
    which a region's brackets may be closed, for none. *)
Definition item_ok item t t' : Prop :=
  bracket_token_index (item_token item) = t ∧ 1 ≤ t < vec_size ks ∧
  if HasAll item [Cue.CollapsedBlock] then t < t' ∧ passes ks t t'
  else if kind_eqb (item_kind item) Kind.FileEnd then t' = t
  else t' = t + 1 ∧ ∃ k, vec_get ks t = Ok k ∧ describes (item_kind item) k.

Fixpoint items_ok t items t' : Prop :=
  match items with
  | [] => t = t'
  | item :: items => ∃ t1, item_ok item t t1 ∧ items_ok t1 items t'
  end.

Lemma items_ok_app t l1 l2 t' :
  items_ok t (l1 ++ l2) t' ↔ ∃ t1, items_ok t l1 t1 ∧ items_ok t1 l2 t'.
Proof using.
  revert t. induction l1 as [|item l1 IH]; intros t; cbn [app items_ok].
  - split; [intros H; by exists t|by intros (t1 & -> & H)].
  - setoid_rewrite IH. naive_solver.
Qed.

Lemma item_ok_le item t t' : item_ok item t t' → t ≤ t'.
Proof using. intros (_ & _ & H). repeat case_match; lia. Qed.

Section built.
Context (tokens : list Token) (Hks : described tokens ks).
Context (a : TokenAnalysis) (Ha : analyzed tokens a).
Context (clean : list bool) (Hsized : sized tokens clean) (Hclean : clean_from tokens a 0 clean).
#[local] Abbreviation n := (vec_size tokens).

(** The stream index of token [i], or of the end of the file if there is none. *)
Definition stream_index (i : Z) : Z := Z.min (i + 1) n.

Lemma make_item_succeeds items i j collapsed has_scope (P : list Item → Prop) :
  0 ≤ i < n →
  (∀ item, vec_get tokens i = Ok (item_token item) → token_end_index item = j →
    HasAll item [Cue.CollapsedBlock] = collapsed → P (items ++ [item])) →
  succeeds (make_item tokens a items i j collapsed has_scope) P.
Proof using Ha.
  intros Hi HP. unfold make_item. apply succeeds_bind, succeeds_get; [done|]. intros token Ht.
  do 4 (apply succeeds_bind, (sized_get tokens); [apply Ha|done|]; intros ? _).
  eapply (succeeds_then _ _ (λ _, True)).
  { destruct (Z.ltb_spec 0 i); [|by apply succeeds_ret].
    apply succeeds_bind, succeeds_get; [lia|]. intros prev _. by apply succeeds_ret. }
  intros prev _. apply succeeds_ret. apply HP; [done|done|]. apply collapsed_cue.
Qed.

Lemma token_item_ok item i :
  vec_get tokens i = Ok (item_token item) → HasAll item [Cue.CollapsedBlock] = false →
  item_ok item (stream_index i) (stream_index (i + 1)).
Proof using Hks.
  intros Ht Hc. pose proof (vec_get_lt _ _ _ Ht) as Hi. pose proof (described_size _ _ Hks).
  unfold stream_index. replace (Z.min (i + 1) n) with (i + 1) by lia.
  split; [by apply (described_index _ _ Hks)|]. split; [lia|]. rewrite Hc.
  pose proof (described_end _ _ Hks _ _ Ht) as He.
  destruct (kind_eqb (item_kind item) Kind.FileEnd) eqn:Ek.
  - apply kind_eqb_eq in Ek. apply He in Ek. lia.
  - assert (i ≠ n - 1) as Hne.
    { intros Hin. apply He in Hin. unfold item_kind in Ek. by rewrite Hin in Ek. }
    split; [lia|]. apply (described_kind _ _ Hks _ _ Ht).
Qed.

Lemma block_item_ok item i c :
  vec_get tokens i = Ok (item_token item) → HasAll item [Cue.CollapsedBlock] = true →
  vec_get clean i = Ok true → vec_get (match_partner a) i = Ok c →
  i < c < n ∧ item_ok item (stream_index i) (stream_index (c + 1)).
Proof using Hks Ha Hclean.
  intros Ht Hc Hcl Hp. pose proof (vec_get_lt _ _ _ Ht) as Hi. pose proof (described_size _ _ Hks).
  destruct (Hclean i ltac:(lia) Hcl) as (c' & Hp' & Hlt & _). rewrite Hp in Hp'. injection Hp' as <-.
  destruct (analyzed_paired _ _ Ha _ _ Hp ltac:(lia)) as (_ & ti & tc & _ & Htc & [[_ Hpair]|[? _]]); [|lia].
  pose proof (vec_get_lt _ _ _ Htc) as Hcn. split; [lia|].
  assert (c ≠ n - 1) as Hne.
  { intros E. apply (described_end _ _ Hks _ _ Htc) in E. destruct Hpair as [Ho Hk]. rewrite E in Hk.
    by destruct (bracket_kind ti). }
  unfold stream_index. replace (Z.min (i + 1) n) with (i + 1) by lia.
  replace (Z.min (c + 1 + 1) n) with (c + 2) by lia.
  split; [by apply (described_index _ _ Hks)|]. split; [lia|]. rewrite Hc. split; [lia|].
  by apply (block_passes _ _ Hks _ Ha _ Hclean (S (Z.to_nat (c - i)))); [..|lia].
Qed.

(** Every item ends at a token. *)
Definition ends_ok items : Prop := Forall (λ item, 0 ≤ token_end_index item < n) items.

Lemma BuildItems_succeeds :
  0 < n → succeeds (BuildItems tokens a clean) (λ items, items_ok 1 items n ∧ ends_ok items ∧ items ≠ []).
Proof using Hks Ha Hsized Hclean.
  intros Hn. unfold BuildItems.
  apply (loop_succeeds (λ s, 0 ≤ s.1 ≤ n ∧ items_ok 1 s.2 (stream_index s.1) ∧ ends_ok s.2 ∧
      (0 < s.1 → s.2 ≠ [])) (λ s, Z.to_nat (n - s.1))).
  { cbn. split_and!; [lia|lia|unfold stream_index; lia|constructor|lia]. }
  { cbn. unfold vec_size. lia. }
  intros [i items] (Hi & Hok & Hends & Hne). cbn in *. unfold build_step.
  destruct (Z.ltb_spec i n); cbn [negb].
  2: { apply succeeds_ret. replace (stream_index i) with n in Hok by (unfold stream_index; lia).
       split_and!; [done|done|apply Hne; lia]. }
  assert (∀ item j, item_ok item (stream_index i) (stream_index j) → i < j ≤ n →
    0 ≤ token_end_index item < n →
    (0 ≤ j ≤ n ∧ items_ok 1 (items ++ [item]) (stream_index j) ∧ ends_ok (items ++ [item]) ∧
     (0 < j → items ++ [item] ≠ [])) ∧ (Z.to_nat (n - j) < Z.to_nat (n - i))%nat) as Hnext.
  { intros item j Hit Hj He. split; [|lia]. split_and!; [lia|lia| | |by destruct items].
    - apply items_ok_app. eexists. split; [done|]. by eexists.
    - apply Forall_app_2; [done|]. constructor; [done|constructor]. }
  apply succeeds_bind, (sized_get tokens); [done|lia|]. intros b Hb. destruct b; cbn [negb].
  - apply succeeds_bind, (sized_get tokens); [apply Ha|lia|]. intros c Hc.
    destruct (Hclean i ltac:(lia) Hb) as (c' & Hc' & Hlt & _). rewrite Hc in Hc'. injection Hc' as <-.
    assert (c < n) as Hcn.
    { destruct (paired_in _ _ (analyzed_paired _ _ Ha) _ _ Hc); lia. }
    eapply succeeds_then.
    { apply all_seq_succeeds. intros j Hj. apply succeeds_bind, succeeds_get; [lia|]. intros tj _.
      by apply succeeds_ret. }
    intros no_scope _. apply succeeds_bind, make_item_succeeds; [lia|]. intros item Ht He Hcol.
    apply succeeds_ret. apply (Hnext item (c + 1)); [|lia|lia]. by apply block_item_ok.
  - apply succeeds_bind, succeeds_get; [lia|]. intros ti _.
    apply succeeds_bind, make_item_succeeds; [lia|]. intros item Ht He Hcol.
    apply succeeds_ret. apply (Hnext item (i + 1)); [|lia|lia]. by apply token_item_ok.
Qed.
End built.
End items.

(** * Repairs of a part of the stream *)

Section repairs.
Context (ks : list TokenKind.t).

(** [cs] are, in some order, the corrections of a walk from [t] to [t'] that
    leaves no bracket open. *)
Definition repairs t t' (cs : list BracketCorrection) : Prop :=
  ∀ rest, walk ks t' [] rest → ∃ W, W ≡ₚ cs ∧ walk ks t [] (W ++ rest).

Lemma repairs_nil t : repairs t t [].
Proof using. intros rest Hr. by exists []. Qed.

Lemma repairs_app t1 t2 t3 cs1 cs2 :
  repairs t1 t2 cs1 → repairs t2 t3 cs2 → repairs t1 t3 (cs1 ++ cs2).
Proof using.
  intros H1 H2 rest Hr. destruct (H2 rest Hr) as (W2 & P2 & HW2). destruct (H1 _ HW2) as (W1 & P1 & HW1).
  exists (W1 ++ W2). split; [by rewrite P1, P2|]. by rewrite <- app_assoc.
Qed.

(** The open bracket that a token is. *)
Definition real_entry (t : Token) : Entry :=
  Real (bracket_token_index t) (ToTokenKind (bracket_kind t)).

Definition loose item : Prop :=
  HasAll item [Cue.CollapsedBlock] = false ∧ item_kind item ≠ Kind.FileEnd.

Lemma item_plain item t t' :
  item_ok ks item t t' → HasAll item [Cue.CollapsedBlock] = true ∨
    IsOpeningBracket (item_kind item) = false ∧ IsClosingBracket (item_kind item) = false →
  passes ks t t'.
Proof using.
  intros (_ & Ht & H) Hc. destruct (HasAll item [Cue.CollapsedBlock]); [apply H|].
  destruct Hc as [?|[Ho Hc]]; [done|]. destruct (kind_eqb _ _); [subst t'; by intros st W|].
  destruct H as (-> & k & Hk & Hd). unfold describes in Hd. rewrite Ho, Hc in Hd.
  intros st W HW. by eapply walk_other.
Qed.

(** What the item of a bracket stands for. *)
Lemma item_bracket item t t' :
  item_ok ks item t t' → HasAll item [Cue.CollapsedBlock] = false →
  IsOpeningBracket (item_kind item) = true ∨ IsClosingBracket (item_kind item) = true →
  bracket_token_index (item_token item) = t ∧ t' = t + 1 ∧
  vec_get ks t = Ok (ToTokenKind (item_kind item)) ∧
  is_bracket (ToTokenKind (item_kind item)) = true.
Proof using.
  intros (Hi & Ht & H) Hc Hb. rewrite Hc in H. split; [done|].
  assert (kind_eqb (item_kind item) Kind.FileEnd = false) as Ek.
  { destruct Hb as [Hb|Hb]; by destruct (item_kind item). }
  rewrite Ek in H. destruct H as (-> & k & Hk & Hd). split; [done|]. unfold describes in Hd.
  assert (IsOpeningBracket (item_kind item) || IsClosingBracket (item_kind item) = true) as E.
  { by destruct Hb as [-> | ->]; [|rewrite orb_true_r]. }
  rewrite E in Hd. subst k. split; [done|]. destruct Hb as [Hb|Hb]; by destruct (item_kind item).
Qed.

Lemma opening_kind bk :
  IsOpeningBracket bk = true → TokenKind.is_opening_symbol (ToTokenKind bk) = true.
Proof using. by destruct bk. Qed.

Lemma matching_kind bk :
  IsOpeningBracket bk = true →
  ToTokenKind (MatchingClosingKind bk) = TokenKind.closing_symbol (ToTokenKind bk).
Proof using. by destruct bk. Qed.

Lemma replaced_gives_up (t : Token) d : gives_up (ReplaceBracket t d) (bracket_token_index t).
Proof using. done. Qed.

(** ** A region that balances *)

Lemma region_balances_walk items : ∀ t t' open_kinds st W,
  items_ok ks t items t' → region_balances open_kinds items = true →
  Forall2 (λ bk e, IsOpeningBracket bk = true ∧ ∃ d, e = Real d (ToTokenKind bk)) open_kinds st →
  walk ks t' [] W → walk ks t st W.
Proof using.
  induction items as [|item items IH]; intros t t' open_kinds st W Hok HB Hst HW; cbn in Hok, HB.
  { subst t'. apply bool_decide_eq_true in HB. destruct open_kinds; [|done].
    by apply Forall2_nil_inv_l in Hst as ->. }
  destruct Hok as (t1 & Hit & Hok).
  destruct (HasAll item [Cue.CollapsedBlock]) eqn:Ec.
  { eapply (item_plain item); [done|by left|by eapply IH]. }
  destruct (IsOpeningBracket (item_kind item)) eqn:Eo.
  { destruct (item_bracket _ _ _ Hit Ec) as (Ei & -> & Hk & _); [by left|].
    eapply walk_push; [done|by apply opening_kind|]. eapply IH; [done|exact HB| |done].
    constructor; [|done]. split; [done|]. by eexists. }
  destruct (IsClosingBracket (item_kind item)) eqn:Ecl.
  { destruct (item_bracket _ _ _ Hit Ec) as (Ei & -> & Hk & _); [by right|].
    destruct open_kinds as [|top open_kinds]; [done|]. apply andb_true_iff in HB as [Hm%kind_eqb_eq HB].
    apply Forall2_cons_inv_l in Hst as (e & st' & [Ho (d & ->)] & Hst & ->).
    apply walk_match; [|by eapply IH]. rewrite Hk, <- Hm. f_equal. by apply matching_kind. }
  eapply (item_plain item); [done|by right|by eapply IH].
Qed.

Lemma balanced_region_repairs items t t' :
  items_ok ks t items t' → RegionIsBalanced items = true → repairs t t' [].
Proof using.
  intros Hok HB rest Hr. exists []. split; [done|]. by eapply region_balances_walk.
Qed.

(** ** The greedy fallback *)

(** The open brackets that will be matched, and those that will not. *)
Fixpoint chosen {A} (flags : list bool) (l : list A) (keep : bool) : list A :=
  match flags, l with
  | f :: flags, x :: l =>
      if Bool.eqb f keep then x :: chosen flags l keep else chosen flags l keep
  | _, _ => []
  end.

Lemma chosen_skip {A} (passed kept : list A) flags keep :
  chosen (replicate (length passed) false ++ flags) (passed ++ kept) keep =
    (if keep then [] else passed) ++ chosen flags kept keep.
Proof using.
  induction passed as [|x passed IH]; cbn; [by destruct keep|]. rewrite IH. by destruct keep.
Qed.

Lemma naive_unclosed_app open_stack :
  open_stack = (naive_unclosed open_stack).1 ++ (naive_unclosed open_stack).2.
Proof using.
  induction open_stack as [|t open_stack IH]; cbn; [done|].
  case_match; cbn; [by rewrite <- IH|done].
Qed.

Lemma naive_match_app m k : ∀ open_stack passed kept,
  naive_match m k open_stack = Some (passed, kept) →
  ∃ o : Token, open_stack = passed ++ o :: kept ∧ MatchingClosingKind (bracket_kind o) = k.
Proof using.
  induction m as [|m IH]; intros open_stack passed kept; cbn; [done|].
  destruct open_stack as [|t open_stack]; [done|].
  case_match eqn:E; [intros [= <- <-]; exists t; split; [done|by apply kind_eqb_eq]|].
  destruct (naive_match m k open_stack) as [[p l]|] eqn:Em; [|done]. intros [= <- <-].
  destruct (IH _ _ _ Em) as (t' & -> & Hk). by exists t'.
Qed.

Definition opening (t : Token) : Prop := IsOpeningBracket (bracket_kind t) = true.

(** The walk keeps open the brackets that will be matched. *)
Definition naive_walk t items (open_stack : list Token) (rest : list BracketCorrection) : Prop :=
  ∃ flags W, length flags = length open_stack ∧
    solve_naive items open_stack ≡ₚ W ++ drop_openers (chosen flags open_stack false) ∧
    walk ks t (real_entry <$> chosen flags open_stack true) (W ++ rest).

Lemma drop_openers_app l l' : drop_openers (l ++ l') = drop_openers l ++ drop_openers l'.
Proof using. apply fmap_app. Qed.

Lemma naive_dropped (dropped others W all : list BracketCorrection) :
  all ≡ₚ W ++ others → dropped ++ all ≡ₚ W ++ dropped ++ others.
Proof using. intros ->. rewrite !app_assoc. f_equiv. apply Permutation_app_comm. Qed.

Lemma solve_naive_walk items : ∀ t t' open_stack rest,
  items_ok ks t items t' → Forall opening open_stack → walk ks t' [] rest →
  naive_walk t items open_stack rest.
Proof using.
  induction items as [|item items IH]; intros t t' open_stack rest Hok Hop Hr; cbn in Hok.
  { subst t'. exists (replicate (length open_stack) false), []. split_and!.
    - by rewrite length_replicate.
    - cbn [solve_naive app]. rewrite <- (app_nil_r open_stack) at 3.
      rewrite <- (app_nil_r (replicate _ _)), chosen_skip. cbn. by rewrite app_nil_r.
    - rewrite <- (app_nil_r open_stack) at 2.
      by rewrite <- (app_nil_r (replicate _ _)), chosen_skip. }
  destruct Hok as (t1 & Hit & Hok). unfold naive_walk. cbn [solve_naive].
  destruct (HasAll item [Cue.CollapsedBlock]) eqn:Ec.
  { destruct (IH t1 t' open_stack rest) as (flags & W & Hl & HP & HW); [done..|].
    exists flags, W. split_and!; [done|done|]. eapply (item_plain item); [done|by left|done]. }
  set (unclosed := if kind_in _ _ then _ else _).
  assert (open_stack = unclosed.1 ++ unclosed.2) as Hsplit.
  { unfold unclosed. case_match; [apply naive_unclosed_app|done]. }
  destruct unclosed as [gone stay]. cbn [fst snd] in *. subst open_stack.
  apply Forall_app in Hop as [_ Hop].
  match goal with |- ∃ flags W, _ ∧ drop_openers gone ++ ?all ≡ₚ _ ∧ _ => set (later := all) end.
  assert (∃ flags W, length flags = length stay ∧
    later ≡ₚ W ++ drop_openers (chosen flags stay false) ∧
    walk ks t (real_entry <$> chosen flags stay true) (W ++ rest)) as (flags & W & Hl & HP & HW).
  2: { exists (replicate (length gone) false ++ flags), W. split_and!.
       - rewrite !length_app, length_replicate. lia.
       - rewrite chosen_skip, drop_openers_app. by apply naive_dropped.
       - by rewrite chosen_skip. }
  unfold later. clear later. change (bracket_kind (item_token item)) with (item_kind item).
  destruct (IsOpeningBracket (item_kind item)) eqn:Eo.
  { destruct (item_bracket _ _ _ Hit Ec) as (Ei & -> & Hk & Hb); [by left|].
    destruct (IH (t + 1) t' (item_token item :: stay) rest) as (flags & W & Hl & HP & HW);
      [done|by constructor|done|].
    destruct flags as [|f flags]; [done|]. cbn in Hl. injection Hl as Hl. cbn [chosen] in *.
    destruct f; cbn [Bool.eqb] in *.
    - exists flags, W. split_and!; [done|done|]. eapply walk_push; [done|by apply opening_kind|].
      cbn in HW. unfold real_entry at 1 in HW. by rewrite Ei in HW.
    - exists flags, (ReplaceBracket (item_token item) UnmatchedOpening :: W). split_and!; [done| |].
      + rewrite HP. cbn. by rewrite <- Permutation_middle.
      + eapply walk_error; [done|done| |done]. rewrite <- Ei. apply replaced_gives_up. }
  destruct (IsClosingBracket (item_kind item)) eqn:Ecl.
  - destruct (item_bracket _ _ _ Hit Ec) as (Ei & -> & Hk & Hb); [by right|].
    destruct (naive_match _ _ stay) as [[passed kept]|] eqn:Em.
    + destruct (naive_match_app _ _ _ _ _ Em) as (o & -> & Hm).
      apply Forall_app in Hop as [_ [Ho Hop]%Forall_cons].
      destruct (IH (t + 1) t' kept rest) as (flags & W & Hl & HP & HW); [done..|].
      exists (replicate (length passed) false ++ true :: flags), W. split_and!.
      * rewrite !length_app, length_replicate. cbn. lia.
      * rewrite chosen_skip, drop_openers_app. by apply naive_dropped.
      * rewrite chosen_skip. cbn. apply walk_match; [|done].
        rewrite Hk, <- Hm. f_equal. by apply matching_kind.
    + destruct (IH (t + 1) t' stay rest) as (flags & W & Hl & HP & HW); [done..|].
      exists flags, (ReplaceBracket (item_token item) UnmatchedClosing :: W).
      split_and!; [done|by rewrite HP|].
      eapply walk_error; [done|done| |done]. rewrite <- Ei. apply replaced_gives_up.
  - destruct (IH t1 t' stay rest) as (flags & W & Hl & HP & HW); [done..|].
    exists flags, W. split_and!; [done|done|]. eapply (item_plain item); [done|by right|done].
Qed.

(** The fallback repairs any region. The order of its corrections is not that of
    the walk. *)
Lemma SolveNaive_repairs items t t' : items_ok ks t items t' → repairs t t' (SolveNaive items).
Proof using.
  intros Hok rest Hr. destruct (solve_naive_walk items t t' [] rest Hok) as (flags & W & Hl & HP & HW);
    [constructor|done|]. destruct flags; [|done]. exists W. cbn in HP. rewrite app_nil_r in HP.
  by split.
Qed.
End repairs.
