(* ===== verification/BracketBeam.v ===== *)
(** The beam search of bracket repair: every edge of its graph is a decision of
    a walk over the region, whatever the costs, so that what it returns repairs
    the region; the graph has no cycle; and no check, array access or bound on
    the way fails. *)

From S2P Require Import Prelude TokenKinds BracketTokens BracketRules BracketAnalysis.
From S2P Require Import BracketSearch RecoveryLinks Recovered BracketWalk BracketRegions.
From S2P Require Import BracketStacks.

Implicit Types (item : Item) (items : list Item) (t : Z) (s : RegionSearch).
Implicit Types (key : OpenBracketKey) (l : list OpenBracketKey).

(** * Places *)

(** The entry of a walk's stack that an open bracket is. *)
Definition entry_of key : Entry :=
  if is_synthetic key then Synth (insertion_token_index key) (ToTokenKind (open_kind key))
  else Real (open_token_index key) (ToTokenKind (open_kind key)).

(** What every open bracket of the search satisfies: it is an opener, inserted, if
    it is, before a token before [t]. *)
Definition key_before t key : Prop :=
  IsOpeningBracket (open_kind key) = true ∧
  (is_synthetic key = true → insertion_token_index key < t).

Lemma key_before_mono t t' key : t ≤ t' → key_before t key → key_before t' key.
Proof. intros Ht [H1 H2]. split; [done|]. intros Hs. specialize (H2 Hs). lia. Qed.

Lemma keys_before_mono t t' l : t ≤ t' → Forall (key_before t) l → Forall (key_before t') l.
Proof. intros Ht H. eapply Forall_impl; [exact H|]. intros key. by apply key_before_mono. Qed.

Lemma keys_not_opened t l : Forall (key_before t) l → opened_at t (entry_of <$> l) = false.
Proof.
  destruct 1 as [|key l [_ H] _]; [done|]. cbn. unfold entry_of.
  destruct (is_synthetic key); [|done]. cbn. apply Z.eqb_neq. specialize (H eq_refl). lia.
Qed.

(** Where a node of the search is: before a token, with brackets open; the rank
    grows along every edge. *)
Record Place := { place_pos : Z; place_stack : list Entry; place_rank : Z }.

Definition MaxDepth : Z := MaxSearchStackDepth.

Definition place (pos i : Z) l : Place :=
  {| place_pos := pos; place_stack := entry_of <$> l;
     place_rank := 16 * i + if opened_at pos (entry_of <$> l) then 14 else MaxDepth - vec_size l |}.

Section search.
Context (ks : list TokenKind.t).

(** The corrections [cs] lead from one place to another. *)
Definition leads (p p' : Place) (cs : list BracketCorrection) : Prop := ∀ W,
  walk ks (place_pos p') (place_stack p') W → walk ks (place_pos p) (place_stack p) (cs ++ W).

Definition edge_corrections (e : ParentEdge) : list BracketCorrection :=
  match edge_correction e with Some c => [c] | None => [] end.

Definition edge_ok (G : list Place) (p : Place) (e : ParentEdge) : Prop :=
  ∃ q, vec_get G (parent_node_index e) = Ok q ∧ leads q p (edge_corrections e) ∧
    place_rank q < place_rank p.

(** [G] is where the nodes are. Only the first node, at [t0] with nothing open, has
    no parent. *)
Record graph_ok (t0 max_rank : Z) (G : list Place) (node_list : list BeamNode) : Prop := {
  graph_size : vec_size G = vec_size node_list;
  graph_root : ∃ r, vec_get G 0 = Ok r ∧ place_pos r = t0 ∧ place_stack r = [];
  graph_edges v node p : vec_get node_list v = Ok node → vec_get G v = Ok p →
    0 ≤ place_rank p ≤ max_rank ∧ (parent_edges node = [] → v = 0) ∧
    Forall (edge_ok G p) (parent_edges node);
}.

Lemma edge_ok_app G G' p e : edge_ok G p e → edge_ok (G ++ G') p e.
Proof using. intros (q & Hq & H). exists q. split; [by apply vec_get_app_l|done]. Qed.

(** Adding a node, and changing the edges of one. *)
Lemma graph_ok_snoc t0 m G node_list p node :
  graph_ok t0 m G node_list → 0 ≤ place_rank p ≤ m → parent_edges node ≠ [] →
  Forall (edge_ok G p) (parent_edges node) → graph_ok t0 m (G ++ [p]) (node_list ++ [node]).
Proof using.
  intros [H1 (r & Hr & H2) H3] Hp Hne HF.
  split; [by rewrite !vec_size_app, H1|exists r; split; [by apply vec_get_app_l|done]|].
  intros v node' p' Hv Hg. apply vec_get_snoc_inv in Hv as [Hv|[-> ->]].
  - apply vec_get_snoc_inv in Hg as [Hg|[-> _]]; [|apply vec_get_lt in Hv; lia].
    destruct (H3 _ _ _ Hv Hg) as (A & B & C). split_and!; [lia|lia|done|].
    eapply Forall_impl; [exact C|]. intros e. apply edge_ok_app.
  - rewrite <- H1, vec_get_app_last in Hg. injection Hg as <-. split_and!; [lia|lia|done|].
    eapply Forall_impl; [exact HF|]. intros e. apply edge_ok_app.
Qed.

Lemma graph_ok_set t0 m G node_list v node p cost edges :
  graph_ok t0 m G node_list → vec_get node_list v = Ok node → vec_get G v = Ok p → edges ≠ [] →
  Forall (edge_ok G p) edges → graph_ok t0 m G (vec_set node_list v (set_node_path cost edges node)).
Proof using.
  intros [H1 H2 H3] Hv Hg Hne HF. split; [by rewrite vec_set_size|done|].
  intros v' node' p' Hv' Hg'. apply (vec_get_set _ _ _ _ _ (vec_get_lt _ _ _ Hv)) in Hv' as [[<- <-]|[_ Hv']].
  - rewrite Hg in Hg'. injection Hg' as <-. destruct (H3 _ _ _ Hv Hg) as (A & _).
    cbn. split_and!; [lia|lia|by intros ?%Hne|done].
  - by apply H3.
Qed.

(** * The rules always answer *)

Section rules.
Context (stacks : OpenStackStore) (Hs : stacks_ok stacks).

Lemma TopCategoryOf_range key : 0 ≤ TopCategoryOf key < NumContextCategories.
Proof using.
  unfold TopCategoryOf. change NumContextCategories with 5.
  destruct (open_kind key), (open_is_struct_brace key); vm_compute; split; congruence.
Qed.

Lemma InsCategoryOf_range k b : 0 ≤ InsCategoryOf k b < NumContextCategories.
Proof using. change NumContextCategories with 5. destruct k, b; vm_compute; split; congruence. Qed.

Lemma FindMatchingRule_succeeds rules category k cues :
  (length rules ≤ CandidateBits)%nat → 0 ≤ category < NumContextCategories →
  succeeds (FindMatchingRule rules (BuildRuleIndex rules) category k cues) (λ _, True).
Proof using. intros Hl Hc. rewrite FindMatchingRule_find by done. by eexists. Qed.

Lemma MatchesDeeperOpener_succeeds stack l k :
  denotes stacks stack l → succeeds (MatchesDeeperOpener stacks stack k) (λ _, True).
Proof using Hs.
  intros Hl. unfold MatchesDeeperOpener. destruct (negb _); [by apply succeeds_ret|].
  rewrite (Depth_denotes _ Hs _ _ Hl). cbn [mbind Result_bind].
  destruct (Z.ltb_spec (vec_size l) 2); [by apply succeeds_ret|].
  destruct l as [|key l]; [done|]. eapply succeeds_then; [by eapply Pop_succeeds|].
  intros below Hb. eapply Contains_succeeds; [exact Hs|exact Hb].
Qed.

Lemma ClassifyCloserInsertion_succeeds top item stack l :
  denotes stacks stack l → succeeds (ClassifyCloserInsertion top item stacks stack) (λ _, True).
Proof using Hs.
  intros Hl. unfold ClassifyCloserInsertion, ComputeTopCues.
  apply succeeds_bind. eapply succeeds_then; [by eapply MatchesDeeperOpener_succeeds|]. intros b _.
  apply succeeds_ret. eapply succeeds_then; [|intros rule _; by apply succeeds_ret].
  apply FindMatchingRule_succeeds; [apply Nat.leb_le; reflexivity|apply TopCategoryOf_range].
Qed.

Lemma ClassifyOpenerInsertion_succeeds k b item :
  succeeds (ClassifyOpenerInsertion k b item) (λ _, True).
Proof using.
  unfold ClassifyOpenerInsertion. eapply succeeds_then; [|intros rule _; by apply succeeds_ret].
  apply FindMatchingRule_succeeds; [apply Nat.leb_le; reflexivity|apply InsCategoryOf_range].
Qed.

Lemma AdvancePenalty_succeeds node item l :
  denotes stacks (state_stack node) l → succeeds (AdvancePenalty stacks node item) (λ _, True).
Proof using Hs.
  intros Hl. unfold AdvancePenalty.
  apply (succeeds_then _ _ (λ c, 0 ≤ c < NumContextCategories)).
  { unfold TopCategoryOfStack. rewrite (denotes_nil _ _ _ Hl). destruct l as [|key l]; cbn.
    { apply succeeds_ret. done. }
    eapply succeeds_then; [by eapply Top_succeeds|]. intros top _. apply succeeds_ret, TopCategoryOf_range. }
  intros category Hc. apply (succeeds_then _ _ (λ _, True)).
  - unfold ComputeAdvanceCues, OpenerSynthesizedHere. rewrite (denotes_nil _ _ _ Hl).
    destruct l as [|key l]; cbn [length bool_decide decide_rel].
    { apply succeeds_bind, succeeds_ret. by apply succeeds_ret. }
    change (bool_decide (S (length l) = 0%nat)) with false. cbv iota.
    apply succeeds_bind. eapply succeeds_then; [by eapply Top_succeeds|]. intros top _.
    apply succeeds_ret. eapply succeeds_then; [by eapply Top_succeeds|]. intros info _.
    by apply succeeds_ret.
  - intros cues _. unfold AdvanceRuleIndex.
    rewrite SumMatchingRules_total; [by eexists|apply Nat.leb_le; reflexivity|done].
Qed.
End rules.

(** * The search over a region *)

Section region.
Context (items : list Item) (t0 region_end : Z).
Context (Hitems : items_ok ks t0 items region_end) (Hend : 1 ≤ region_end < vec_size ks).
#[local] Abbreviation n := (vec_size items).

(** The token that states before item [i] are at. *)
Definition position (i : Z) : Z :=
  match items !! Z.to_nat i with
  | Some item => bracket_token_index (item_token item)
  | None => region_end
  end.

Lemma items_ok_lookup (its : list Item) : ∀ t (j : nat) item,
  items_ok ks t its region_end → its !! j = Some item →
  ∃ t', item_ok ks item (bracket_token_index (item_token item)) t' ∧
    t' = match its !! S j with
         | Some next => bracket_token_index (item_token next)
         | None => region_end
         end.
Proof using.
  induction its as [|it its IH]; intros t j item Hok Hj; [done|]. destruct Hok as (t1 & Hit & Hok).
  destruct j as [|j]; [|by apply (IH t1 j)]. injection Hj as ->. exists t1.
  pose proof Hit as (<- & _). split; [done|]. destruct its as [|next its]; [by cbn in Hok|].
  by destruct Hok as (t2 & (<- & _) & _).
Qed.

Lemma item_at i item :
  vec_get items i = Ok item → item_ok ks item (position i) (position (i + 1)).
Proof using Hitems.
  intros [Hi Hg]%vec_get_Ok. destruct (items_ok_lookup _ _ _ _ Hitems Hg) as (t' & Hok & ->).
  unfold position. rewrite Hg. by replace (Z.to_nat (i + 1)) with (S (Z.to_nat i)) by lia.
Qed.

Lemma position_first : position 0 = t0.
Proof using Hitems.
  unfold position. destruct items as [|item its]; [done|]. by destruct Hitems as (t1 & (<- & _) & _).
Qed.

Lemma position_last : position n = region_end.
Proof using. unfold position, vec_size. by rewrite Nat2Z.id, (proj2 (lookup_ge_None _ _)). Qed.

#[local] Abbreviation place_at i l := (place (position i) i l).
#[local] Abbreviation max_rank := (16 * n + 14).

Lemma place_rank_range i l :
  0 ≤ i ≤ n → vec_size l ≤ MaxDepth → 16 * i ≤ place_rank (place_at i l) ≤ 16 * i + 14.
Proof using.
  intros Hi Hl. cbn. pose proof (vec_size_nonneg l). unfold MaxDepth, MaxSearchStackDepth in *.
  destruct (opened_at _ _); lia.
Qed.

(** The node [v] is before item [i] with the brackets [l] open. *)
Definition node_at s (v i : Z) l : Prop := ∃ node,
  vec_get (nodes s) v = Ok node ∧ node_item_index node = i ∧
  denotes (search_stacks s) (node_stack node) l.

Record search_ok s : Prop := {
  search_stacks_ok : stacks_ok (search_stacks s);
  search_graph : ∃ G, graph_ok t0 max_rank G (nodes s) ∧
    ∀ v node, vec_get (nodes s) v = Ok node → 0 ≤ node_item_index node ≤ n ∧
      ∃ l, denotes (search_stacks s) (node_stack node) l ∧ vec_size l ≤ MaxDepth ∧
        vec_get G v = Ok (place_at (node_item_index node) l);
}.

Definition grows s s' : Prop := ∀ v i l, node_at s v i l → node_at s' v i l.

#[local] Instance grows_preorder : PreOrder grows.
Proof using. split; [by intros s v i l|]. intros s1 s2 s3 H12 H23 v i l H. by apply H23, H12. Qed.

(** The states of the layer being built, by their stack. *)
Definition dedup_ok (i : Z) s : Prop := ∀ stack k v,
  map_lookup (layer_dedup s) (stack, k) = Some v → ∃ node,
    vec_get (nodes s) v = Ok node ∧ node_item_index node = i ∧ node_stack node = stack.

(** States before item [i], whose synthetic openers go before tokens before [b]. *)
Definition state_ok s (i b v : Z) : Prop := ∃ l, node_at s v i l ∧ Forall (key_before b) l.
Definition layer_ok s (i b : Z) (layer : list Z) : Prop := Forall (state_ok s i b) layer.

Lemma state_ok_grows s s' i b v : grows s s' → state_ok s i b v → state_ok s' i b v.
Proof using. intros Hg (l & Hl & H). exists l. split; [by apply Hg|done]. Qed.

Lemma layer_ok_grows s s' i b layer : grows s s' → layer_ok s i b layer → layer_ok s' i b layer.
Proof using. intros Hg H. eapply Forall_impl; [exact H|]. intros v. by apply state_ok_grows. Qed.

Lemma state_ok_mono s i b b' v : b ≤ b' → state_ok s i b v → state_ok s i b' v.
Proof using. intros Hb (l & Hl & H). exists l. split; [done|by eapply keys_before_mono]. Qed.

Lemma layer_ok_mono s i b b' layer : b ≤ b' → layer_ok s i b layer → layer_ok s i b' layer.
Proof using. intros Hb H. eapply Forall_impl; [exact H|]. intros v. by apply state_ok_mono. Qed.

(** An edge to a place before item [i] with the brackets [l] open. *)
Definition new_edge s (e : ParentEdge) (i : Z) l : Prop := ∃ j lp,
  node_at s (parent_node_index e) j lp ∧ leads (place_at j lp) (place_at i l) (edge_corrections e) ∧
  place_rank (place_at j lp) < place_rank (place_at i l).

Lemma node_place s G v i l :
  (∀ v node, vec_get (nodes s) v = Ok node → 0 ≤ node_item_index node ≤ n ∧
      ∃ l, denotes (search_stacks s) (node_stack node) l ∧ vec_size l ≤ MaxDepth ∧
        vec_get G v = Ok (place_at (node_item_index node) l)) →
  node_at s v i l → vec_get G v = Ok (place_at i l) ∧ vec_size l ≤ MaxDepth.
Proof using.
  intros HG (node & Hv & <- & Hd). destruct (HG _ _ Hv) as (_ & l' & Hd' & Hl & Hg).
  by rewrite (denotes_det _ _ _ _ Hd Hd').
Qed.

(** What adding a state leaves. *)
Record added s s' (i : Z) l (old new : list Z) : Prop := {
  added_ok : search_ok s';
  added_grows : grows s s';
  added_stacks : search_stacks s' = search_stacks s;
  added_layer : current_layer s' = current_layer s;
  added_new : new = old ∨ ∃ v, new = old ++ [v] ∧ node_at s' v i l;
}.

Lemma node_at_set s v v' node cost edges i l :
  vec_get (nodes s) v = Ok node → node_at s v' i l →
  node_at (with_nodes (vec_set (nodes s) v (set_node_path cost edges node)) s) v' i l.
Proof using.
  intros Hv (node' & Hv' & Hi & Hd).
  destruct (decide (v = v')) as [->|Hne].
  - rewrite Hv in Hv'. injection Hv' as <-. exists (set_node_path cost edges node). split; [|by split].
    apply (vec_get_set _ _ _ _ _ (vec_get_lt _ _ _ Hv)). by left.
  - exists node'. split; [|by split]. apply (vec_get_set _ _ _ _ _ (vec_get_lt _ _ _ Hv)). right. by split.
Qed.

Lemma search_ok_set s v node cost edges i l :
  search_ok s → vec_get (nodes s) v = Ok node → node_item_index node = i →
  denotes (search_stacks s) (node_stack node) l → edges ≠ [] →
  Forall (λ e, e ∈ parent_edges node ∨ new_edge s e i l) edges →
  search_ok (with_nodes (vec_set (nodes s) v (set_node_path cost edges node)) s).
Proof using.
  intros [H1 (G & HG & HP)] Hv Hi Hd Hne HF. split; [done|]. exists G.
  assert (vec_get G v = Ok (place_at i l)) as Hg.
  { destruct (node_place s G v i l HP) as [Hg _]; [by exists node|done]. }
  split.
  - eapply graph_ok_set; [done|done|exact Hg|done|]. eapply Forall_impl; [exact HF|].
    intros e [He|(j & lp & Hp & Hlead & Hr)].
    + destruct (graph_edges _ _ _ _ HG _ _ _ Hv Hg) as (_ & _ & HE). rewrite Forall_forall in HE. by apply HE.
    + exists (place_at j lp). split; [by destruct (node_place s G _ j lp HP Hp)|done].
  - intros v' node' Hv'. cbn in *.
    apply (vec_get_set _ _ _ _ _ (vec_get_lt _ _ _ Hv)) in Hv' as [[<- <-]|[_ Hv']]; [|by apply HP].
    cbn. by apply HP.
Qed.

Lemma MergeIntoNode_succeeds s v cost e wl i l node :
  search_ok s → dedup_ok i s → vec_get (nodes s) v = Ok node → node_item_index node = i →
  denotes (search_stacks s) (node_stack node) l → new_edge s e i l →
  succeeds (MergeIntoNode s v cost e wl) (λ r, added s r.1 i l wl r.2 ∧ dedup_ok i r.1).
Proof using.
  intros Hs Hd Hv Hi Hl He. unfold MergeIntoNode. rewrite Hv. cbn [mbind Result_bind].
  assert (∀ c es, dedup_ok i (with_nodes (vec_set (nodes s) v (set_node_path c es node)) s)) as Hdd.
  { intros c es stack k v' Hk. destruct (Hd _ _ _ Hk) as (node' & Hv' & Hi' & Hst). cbn.
    destruct (decide (v = v')) as [->|Hne].
    - rewrite Hv in Hv'. injection Hv' as <-. exists (set_node_path c es node). split; [|by split].
      apply (vec_get_set _ _ _ _ _ (vec_get_lt _ _ _ Hv)). by left.
    - exists node'. split; [|by split]. apply (vec_get_set _ _ _ _ _ (vec_get_lt _ _ _ Hv)). right. by split. }
  destruct (cost <? node_cost node); [|destruct (_ && _)]; apply succeeds_ret; cbn [fst snd].
  - split; [|done]. split; [|by intros ???; apply node_at_set|done|done|].
    + eapply search_ok_set; [done..|]. by constructor; [right|].
    + right. exists v. split; [done|]. apply node_at_set; [done|]. by exists node.
  - split; [|done]. split; [|by intros ???; apply node_at_set|done|done|by left].
    eapply search_ok_set; [done..| |]; [by destruct (parent_edges node)|].
    apply Forall_app_2; [apply Forall_forall; by left|]. by constructor; [right|].
  - split; [|done]. by split; [| | | |left].
Qed.

Lemma node_at_snoc s node v i l m :
  node_at s v i l → node_at (with_dedup m (with_nodes (nodes s ++ [node]) s)) v i l.
Proof using.
  intros (node' & Hv & H). exists node'. split; [|done]. by apply vec_get_app_l.
Qed.

Lemma AddToLayer_succeeds s layer i stack k cost e wl l :
  search_ok s → dedup_ok i s → 0 ≤ i ≤ n → denotes (search_stacks s) stack l →
  vec_size l ≤ MaxDepth → new_edge s e i l →
  succeeds (AddToLayer s layer i stack k cost e wl) (λ r,
    added s r.1.1 i l layer r.1.2 ∧ added s r.1.1 i l wl r.2 ∧ dedup_ok i r.1.1).
Proof using.
  intros Hs Hd Hi Hl Hlen He. unfold AddToLayer. destruct (_ <? _).
  { apply succeeds_ret. cbn. split_and!; [by split; [| | | |left]..|done]. }
  destruct (map_lookup (layer_dedup s) (stack, k)) as [v|] eqn:Ek.
  { destruct (Hd _ _ _ Ek) as (node & Hv & Hni & <-).
    eapply succeeds_then; [by eapply MergeIntoNode_succeeds|]. intros [s' wl'] [Ha Hd'].
    apply succeeds_ret. cbn in *. split_and!; [|done|done]. destruct Ha. by split; [| | | |left]. }
  apply succeeds_ret. cbn [fst snd]. set (node := {| node_item_index := i |}).
  set (s' := with_dedup _ _).
  assert (node_at s' (vec_size (nodes s)) i l) as Hnew.
  { exists node. split; [apply vec_get_app_last|by split]. }
  assert (grows s s') as Hg by (intros ???; apply node_at_snoc).
  assert (search_ok s') as Hs'.
  { destruct Hs as [H1 (G & HG & HP)]. split; [done|]. exists (G ++ [place_at i l]). split.
    - pose proof (place_rank_range i l Hi Hlen).
      apply graph_ok_snoc; [done|lia|done|]. constructor; [|constructor].
      destruct He as (j & lp & Hp & Hlead & Hr). exists (place_at j lp).
      split; [by destruct (node_place s G _ j lp HP Hp)|done].
    - intros v node' Hv. cbn in Hv. apply vec_get_snoc_inv in Hv as [Hv|[-> ->]].
      + destruct (HP _ _ Hv) as (A & l' & B & C & D). split; [done|]. exists l'.
        split_and!; [done|done|]. by apply vec_get_app_l.
      + split; [done|]. exists l. split_and!; [done|done|].
        rewrite <- (graph_size _ _ _ _ HG). apply vec_get_app_last. }
  split_and!; [by split; [| | | |right; eexists]..|].
  intros stack' k' v. cbn. rewrite map_lookup_app.
  destruct (map_lookup (layer_dedup s) (stack', k')) as [v'|] eqn:Ek'.
  - intros [= <-]. destruct (Hd _ _ _ Ek') as (node' & Hv & H). exists node'. split; [|done].
    by apply vec_get_app_l.
  - cbn. case_decide as Hkk; [|done]. intros [= <-]. injection Hkk as -> ->.
    exists node. split; [apply vec_get_app_last|done].
Qed.

(** ** Inserting closers *)

Lemma leads_step p p' cs :
  (∀ W, walk ks (place_pos p') (place_stack p') W →
    walk ks (place_pos p) (place_stack p) (cs ++ W)) → leads p p' cs.
Proof using. done. Qed.

Lemma search_place s v i l :
  search_ok s → node_at s v i l → 0 ≤ i ≤ n ∧ vec_size l ≤ MaxDepth.
Proof using.
  intros [_ (G & _ & HP)] (node & Hv & <- & Hd). destruct (HP _ _ Hv) as (Hi & l' & Hd' & Hl & _).
  by rewrite (denotes_det _ _ _ _ Hd Hd').
Qed.

Lemma real_closing key :
  key_before 0 key ∨ IsOpeningBracket (open_kind key) = true →
  ToTokenKind (MatchingClosingKind (open_kind key)) = TokenKind.closing_symbol (ToTokenKind (open_kind key)).
Proof using. intros [[H _]|H]; by apply matching_kind. Qed.

(** Closing the innermost bracket before the token [t] of item [i]. *)
Lemma close_leads i t key l :
  position i = t → 1 ≤ t < vec_size ks → is_synthetic key = false →
  IsOpeningBracket (open_kind key) = true →
  leads (place_at i (key :: l)) (place_at i l) [InsertCloserCorrection key t].
Proof using.
  intros <- Ht Hsy Ho W HW. cbn. unfold entry_of at 1. rewrite Hsy. apply walk_close; [done| |done].
  split_and!; [done..|]. cbn. by apply matching_kind.
Qed.

Lemma close_rank i key l b :
  Forall (key_before b) (key :: l) → b ≤ position i →
  place_rank (place_at i (key :: l)) < place_rank (place_at i l).
Proof using.
  intros HF Hb. apply (keys_before_mono _ _ _ Hb) in HF. cbn [place_rank place].
  rewrite (keys_not_opened _ _ HF). apply Forall_cons in HF as [_ HF].
  rewrite (keys_not_opened _ _ HF), vec_size_cons. lia.
Qed.

(** The number of brackets open at a node, for the measure of the worklist. *)
Definition depth_at s (v : Z) : nat :=
  match vec_get (nodes s) v with
  | Ok node =>
      match vec_get (cells (search_stacks s)) (node_stack node) with
      | Ok c => Z.to_nat (cell_depth c)
      | Err _ => O
      end
  | Err _ => O
  end.

Lemma depth_at_node s v i l : search_ok s → node_at s v i l → depth_at s v = length l.
Proof using.
  intros [Hs _] (node & Hv & _ & Hd). unfold depth_at. rewrite Hv. destruct l as [|key l].
  - apply denotes_nil in Hd. unfold IsEmpty in Hd. apply Z.eqb_eq in Hd as ->. done.
  - destruct (cell_of _ Hs _ _ _ Hd) as (c & -> & -> & _). unfold vec_size. lia.
Qed.

Definition work_left (x : RegionSearch * list Z * Z) : nat :=
  sum_list_with (λ v, S (depth_at x.1.1 v)) (drop (Z.to_nat x.2) x.1.2).

Lemma sum_depths_grows s s' i b wl :
  search_ok s → search_ok s' → grows s s' → layer_ok s i b wl →
  sum_list_with (λ v, S (depth_at s' v)) wl = sum_list_with (λ v, S (depth_at s v)) wl.
Proof using.
  intros Hs Hs' Hg. induction 1 as [|v wl (l & Hl & _) _ IH]; [done|]. cbn. rewrite IH.
  by rewrite (depth_at_node _ _ _ _ Hs' (Hg _ _ _ Hl)), (depth_at_node _ _ _ _ Hs Hl).
Qed.

Record closing_ok (i : Z) (x : RegionSearch * list Z * Z) : Prop := {
  closing_search : search_ok x.1.1;
  closing_dedup : dedup_ok i x.1.1;
  closing_layer : layer_ok x.1.1 i (position i) (current_layer x.1.1);
  closing_worklist : layer_ok x.1.1 i (position i) x.1.2;
  closing_head : 0 ≤ x.2;
}.

Lemma layer_ok_drop s i b m wl : layer_ok s i b wl → layer_ok s i b (drop m wl).
Proof using. apply Forall_drop. Qed.

Lemma added_layer_ok s s' i b l old new :
  added s s' i l old new → layer_ok s i b old → Forall (key_before b) l → layer_ok s' i b new.
Proof using.
  intros [_ Hg _ _ Hn] Hold Hl. apply (layer_ok_grows _ _ _ _ _ Hg) in Hold.
  destruct Hn as [->|(v & -> & Hv)]; [done|]. apply Forall_app_2; [done|].
  constructor; [by exists l|constructor].
Qed.

Lemma added_work s s' i b l old new m :
  search_ok s → added s s' i l old new → layer_ok s i b old → (m ≤ length old)%nat →
  (sum_list_with (λ v, S (depth_at s' v)) (drop m new) ≤
   sum_list_with (λ v, S (depth_at s v)) (drop m old) + S (length l))%nat.
Proof using.
  intros Hs Ha Hold Hm. pose proof (added_grows _ _ _ _ _ _ Ha) as Hg.
  pose proof (added_ok _ _ _ _ _ _ Ha) as Hs'.
  apply (layer_ok_drop _ _ _ m) in Hold.
  destruct (added_new _ _ _ _ _ _ Ha) as [->|(v & -> & Hv)].
  - rewrite (sum_depths_grows _ _ _ _ _ Hs Hs' Hg Hold). lia.
  - rewrite drop_app_le, sum_list_with_app, (sum_depths_grows _ _ _ _ _ Hs Hs' Hg Hold) by done.
    cbn. rewrite (depth_at_node _ _ _ _ Hs' Hv). lia.
Qed.

Lemma with_layer_ok s layer : search_ok s → search_ok (with_layer layer s).
Proof using. by intros [H1 H2]. Qed.

Lemma with_layer_at s layer v i l : node_at s v i l → node_at (with_layer layer s) v i l.
Proof using. done. Qed.

Lemma work_left_step s wl head v :
  0 ≤ head → vec_get wl head = Ok v →
  work_left (s, wl, head) = (S (depth_at s v) + work_left (s, wl, (head + 1)%Z))%nat.
Proof using.
  intros Hh Hv. unfold work_left. cbn. replace (Z.to_nat (head + 1)) with (S (Z.to_nat head)) by lia.
  by rewrite (drop_vec _ _ _ Hv).
Qed.

Lemma closer_step_succeeds item i x :
  vec_get items i = Ok item → closing_ok i x →
  succeeds (closer_step item i x) (λ r,
    match r with
    | inl x' => closing_ok i x' ∧ (work_left x' < work_left x)%nat
    | inr s => search_ok s ∧ dedup_ok i s ∧ layer_ok s i (position i) (current_layer s)
    end).
Proof using Hitems.
  intros Hitem [H1 H2 H3 H4 H5]. destruct x as [[s wl] head]. cbn in *. unfold closer_step.
  destruct (Z.ltb_spec head (vec_size wl)); cbn [negb]; [|by apply succeeds_ret].
  apply succeeds_bind, succeeds_get; [lia|]. intros v Hv.
  pose proof Hv as [_ Hin]%vec_get_Ok. pose proof (Forall_lookup_1 _ _ _ _ H4 Hin) as (l & Hl & Hkeys).
  pose proof (work_left_step s wl head v H5 Hv) as Hwork. rewrite (depth_at_node _ _ _ _ H1 Hl) in Hwork.
  pose proof Hl as (node & Hnode & Hni & Hd). rewrite Hnode. cbn [mbind Result_bind Snapshot].
  assert (closing_ok i (s, wl, (head + 1)%Z) ∧ (work_left (s, wl, (head + 1)%Z) < work_left (s, wl, head))%nat) as Hskip.
  { split; [split; cbn; try done; lia|lia]. }
  cbn [state_cost state_stack]. destruct (_ || _) eqn:Eskip; [by apply succeeds_ret|].
  apply orb_false_iff in Eskip as [_ He]. rewrite (denotes_nil _ _ _ Hd) in He.
  destruct l as [|key l]; [done|]. pose proof (search_stacks_ok _ H1) as Hs.
  eapply succeeds_then; [by eapply Top_succeeds|]. intros info Hinfo. rewrite Hinfo.
  destruct (is_synthetic key) eqn:Esy; [by apply succeeds_ret|].
  destruct (_ && _); [by apply succeeds_ret|].
  eapply succeeds_then; [eapply ClassifyCloserInsertion_succeeds; [exact Hs|exact Hd]|].
  intros [[cost name]|] _; [|by apply succeeds_ret].
  eapply succeeds_then; [by eapply Pop_succeeds|]. intros below Hbelow.
  destruct (search_place _ _ _ _ H1 Hl) as [Hi Hlen]. rewrite vec_size_cons in Hlen.
  destruct (item_at _ _ Hitem) as (Ht & Hr & _).
  pose proof Hkeys as [[Ho _] Hkeys']%Forall_cons.
  eapply succeeds_then.
  { apply (AddToLayer_succeeds s _ i below _ _ _ _ l); [done|done|lia|done|lia|].
    exists i, (key :: l). cbn [parent_node_index edge_corrections edge_correction]. split; [done|]. split.
    - apply close_leads; [by rewrite Ht|by rewrite Ht|done|done].
    - eapply close_rank; [exact Hkeys|lia]. }
  intros [[s' layer'] wl'] (Hlayer & Hwl & Hdd). cbn [fst snd] in *. apply succeeds_ret. split.
  - split; cbn.
    + apply with_layer_ok, (added_ok _ _ _ _ _ _ Hlayer).
    + done.
    + by eapply (added_layer_ok s s').
    + by eapply (added_layer_ok s s').
    + lia.
  - pose proof (added_work _ _ _ _ _ _ _ (Z.to_nat (head + 1)) H1 Hwl H4) as Hw.
    unfold work_left in *. cbn in *. unfold vec_size in *. specialize (Hw ltac:(lia)).
    change (depth_at (with_layer layer' s')) with (depth_at s'). lia.
Qed.

Lemma InsertSyntheticClosers_succeeds item i s :
  vec_get items i = Ok item → search_ok s → dedup_ok i s →
  layer_ok s i (position i) (current_layer s) →
  succeeds (InsertSyntheticClosers item i s) (λ s,
    search_ok s ∧ dedup_ok i s ∧ layer_ok s i (position i) (current_layer s)).
Proof using Hitems.
  intros Hitem H1 H2 H3. unfold InsertSyntheticClosers.
  apply (loop_succeeds (closing_ok i) work_left); [by split|..].
  - unfold work_left, closer_rounds. cbn [fst snd]. rewrite drop_0. apply Nat.lt_succ_r.
    induction H3 as [|v wl (l & Hl & _) _ IH]; [done|]. cbn [sum_list_with length].
    rewrite (depth_at_node _ _ _ _ H1 Hl). destruct (search_place _ _ _ _ H1 Hl) as [_ Hlen].
    unfold MaxDepth, vec_size in *. lia.
  - intros x Hx. by apply closer_step_succeeds.
Qed.

(** ** Inserting openers *)

Lemma search_ok_stacks s stacks :
  search_ok s → stacks_ok stacks → extends (search_stacks s) stacks → search_ok (with_stacks stacks s).
Proof using.
  intros [_ (G & HG & HP)] Hs He. split; [done|]. exists G. split; [done|]. intros v node Hv.
  destruct (HP _ _ Hv) as (Hi & l & Hl & H). split; [done|]. exists l. split; [by apply He|done].
Qed.

Lemma grows_stacks s stacks : extends (search_stacks s) stacks → grows s (with_stacks stacks s).
Proof using. intros He v i l (node & Hv & Hi & Hd). exists node. split_and!; [done..|by apply He]. Qed.

(** The states of a layer during the insertion of openers: those it started with,
    [old], and the ones with an inserted opener. *)
Record opening_ok (i : Z) (old : list Z) s : Prop := {
  opening_search : search_ok s;
  opening_dedup : dedup_ok i s;
  opening_layer : ∃ new, current_layer s = old ++ new ∧ layer_ok s i (position i + 1) new;
  opening_old : layer_ok s i (position i) old;
}.

Lemma opener_step_succeeds item i old v l current flavor s :
  vec_get items i = Ok item → opening_ok i old s → node_at s v i l →
  denotes (search_stacks s) (state_stack current) l → Forall (key_before (position i)) l →
  vec_size l < MaxDepth → IsOpeningBracket flavor.1 = true →
  succeeds (opener_step item i v current flavor s) (λ s',
    opening_ok i old s' ∧ grows s s' ∧ extends (search_stacks s) (search_stacks s')).
Proof using Hitems.
  intros Hitem Hok Hv Hl Hkeys Hlen Ho. unfold opener_step.
  eapply succeeds_then; [by eapply ClassifyOpenerInsertion_succeeds|].
  intros [[cost name]|] _; [|by apply succeeds_ret; split_and!].
  destruct Hok as [H1 H2 (new & Hlayer & Hnew) H4].
  eapply succeeds_then; [eapply Push_succeeds; [by apply H1|exact Hl]|].
  intros [stack stacks] (Hst & Hext & Hd). cbn [fst snd] in *.
  destruct (search_place _ _ _ _ H1 Hv) as [Hi _]. destruct (item_at _ _ Hitem) as (Ht & Hr & _).
  set (key := open_key _) in Hd. pose proof (grows_stacks _ _ Hext) as Hg.
  eapply succeeds_then.
  { apply (AddToLayer_succeeds (with_stacks stacks s) _ i stack _ _ _ _ (key :: l)).
    - by apply search_ok_stacks.
    - done.
    - done.
    - done.
    - rewrite vec_size_cons. lia.
    - exists i, l. cbn [parent_node_index edge_corrections edge_correction]. split; [by apply Hg|].
      assert (entry_of <$> key :: l = Synth (position i) (ToTokenKind flavor.1) :: (entry_of <$> l)) as Hst'
        by (cbn; by rewrite Ht).
      split.
      + intros W HW. cbn [place_pos place_stack place] in *. rewrite Hst' in HW.
        by eapply walk_open; [exact Hr|apply (opening_kind _ Ho)|apply keys_not_opened|exact HW].
      + cbn [place_rank place]. rewrite Hst', keys_not_opened by done. cbn [opened_at]. rewrite Z.eqb_refl.
        pose proof (vec_size_nonneg l). unfold MaxDepth, MaxSearchStackDepth. lia. }
  intros [[s' layer'] wl'] (Hadd & _ & Hdd). cbn [fst snd] in *. apply succeeds_ret.
  assert (grows s s') as Hgs by (etransitivity; [exact Hg|apply (added_grows _ _ _ _ _ _ Hadd)]).
  split; [|split; [exact Hgs|cbn; by rewrite (added_stacks _ _ _ _ _ _ Hadd)]].
  split.
  - apply with_layer_ok, (added_ok _ _ _ _ _ _ Hadd).
  - done.
  - cbn. cbn in Hadd. destruct (added_new _ _ _ _ _ _ Hadd) as [->|(w & -> & Hw)].
    + exists new. split; [done|]. by eapply layer_ok_grows.
    + exists (new ++ [w]). rewrite Hlayer, app_assoc. split; [done|].
      apply Forall_app_2; [by eapply layer_ok_grows|]. constructor; [|constructor].
      exists (key :: l). split; [done|]. constructor.
      * split; [done|]. intros _. cbn. rewrite Ht. lia.
      * eapply keys_before_mono; [|exact Hkeys]. lia.
  - by eapply layer_ok_grows.
Qed.

Lemma opener_round_succeeds item i old idx s :
  vec_get items i = Ok item → opening_ok i old s → 0 ≤ idx < vec_size old →
  succeeds (opener_round item i idx s) (opening_ok i old).
Proof using Hitems.
  intros Hitem Hok Hidx. pose proof Hok as [H1 _ (new & Hlayer & _) H4]. unfold opener_round.
  destruct (succeeds_get old idx (λ v, vec_get old idx = Ok v) Hidx) as (v & Hv & _); [done|]. rewrite Hlayer, (vec_get_app_l _ _ _ _ Hv).
  cbn [mbind Result_bind]. apply vec_get_Ok in Hv as [_ Hin].
  pose proof (Forall_lookup_1 _ _ _ _ H4 Hin) as (l & Hl & Hkeys).
  pose proof Hl as (node & Hnode & Hni & Hd). rewrite Hnode. cbn [mbind Result_bind].
  destruct (_ <? _); [by apply succeeds_ret|]. cbn [Snapshot state_stack].
  rewrite (Depth_denotes _ (search_stacks_ok _ H1) _ _ Hd). cbn [mbind Result_bind].
  destruct (Z.leb_spec MaxSearchStackDepth (vec_size l)); [by apply succeeds_ret|].
  eapply succeeds_mono; [apply (for_each_succeeds (λ fs s, opening_ok i old s ∧ node_at s v i l ∧
    denotes (search_stacks s) (node_stack node) l ∧ Forall (λ f, IsOpeningBracket f.1 = true) fs))|by intros s' [? _]].
  - split_and!; [done..|]. by repeat constructor.
  - intros f fs s' (Hok' & Hv' & Hd' & [Hf Hfs]%Forall_cons).
    eapply succeeds_mono; [by eapply (opener_step_succeeds item i old v l)|].
    intros s2 (Hok2 & Hg & Hext). split_and!; [done|by apply Hg|by apply Hext|done].
Qed.

Lemma InsertSyntheticOpeners_succeeds item i s :
  vec_get items i = Ok item → search_ok s → dedup_ok i s →
  layer_ok s i (position i) (current_layer s) →
  succeeds (InsertSyntheticOpeners item i s) (λ s,
    search_ok s ∧ layer_ok s i (position i + 1) (current_layer s)).
Proof using Hitems.
  intros Hitem H1 H2 H3. unfold InsertSyntheticOpeners.
  eapply succeeds_mono; [apply (for_seq_succeeds (λ _, opening_ok i (current_layer s)))|].
  - apply vec_size_nonneg.
  - split; [done..| |done]. exists []. split; [by rewrite app_nil_r|constructor].
  - intros idx s' Hidx Hok. by apply opener_round_succeeds.
  - intros s' [Hs _ (new & -> & Hnew) Hold]. split; [done|]. apply Forall_app_2; [|done].
    eapply layer_ok_mono; [|exact Hold]. lia.
Qed.

(** ** Pruning *)

Lemma stable_insert_permutation {A} (lt : A → A → bool) x (xs : list A) :
  stable_insert lt x xs ≡ₚ x :: xs.
Proof using.
  induction xs as [|y xs IH]; cbn; [done|]. destruct (lt y x); [|done]. rewrite IH. apply perm_swap.
Qed.

Lemma stable_sort_permutation {A} (lt : A → A → bool) (xs : list A) : stable_sort lt xs ≡ₚ xs.
Proof using.
  induction xs as [|x xs IH]; [done|]. cbn. by rewrite stable_insert_permutation, IH.
Qed.

Lemma layer_costs_succeeds s i b layer :
  layer_ok s i b layer → succeeds (layer_costs s layer) (λ costs, costs.*1 = layer).
Proof using.
  induction 1 as [|v layer (l & (node & Hv & _) & _) _ IH]; cbn [layer_costs]; [by apply succeeds_ret|].
  rewrite Hv. cbn [mbind Result_bind]. eapply succeeds_then; [exact IH|]. intros costs <-.
  by apply succeeds_ret.
Qed.

Lemma PruneBeam_succeeds s i b layer :
  layer_ok s i b layer → succeeds (PruneBeam s layer) (layer_ok s i b).
Proof using.
  intros H. unfold PruneBeam. destruct (_ <? _)%nat; [|by apply succeeds_ret].
  eapply succeeds_then; [by eapply layer_costs_succeeds|]. intros costs <-. apply succeeds_ret.
  apply Forall_take. unfold layer_ok. by rewrite stable_sort_permutation.
Qed.

(** Before item [i]: the states of the layer. *)
Record before_item (i : Z) s : Prop := {
  before_search : search_ok s;
  before_dedup : layer_dedup s = [];
  before_layer : layer_ok s i (position i) (current_layer s);
}.

(** The same, when brackets may have been inserted there. *)
Record at_item (i : Z) s : Prop := {
  at_search : search_ok s;
  at_dedup : layer_dedup s = [];
  at_layer : layer_ok s i (position i + 1) (current_layer s);
}.

Lemma seed_dedup_succeeds i v s :
  search_ok s → dedup_ok i s → layer_ok s i (position i) (current_layer s) → v ∈ current_layer s →
  succeeds (seed_dedup v s) (λ s', search_ok s' ∧ dedup_ok i s' ∧
    layer_ok s' i (position i) (current_layer s') ∧ current_layer s' = current_layer s).
Proof using.
  intros H1 H2 H3 Hv. unfold seed_dedup. pose proof H3 as Hv'. unfold layer_ok in Hv'.
  rewrite Forall_forall in Hv'. destruct (Hv' _ Hv) as (l & (node & Hn & Hi & Hd) & _). rewrite Hn.
  cbn [mbind Result_bind]. apply succeeds_ret.
  destruct (map_lookup (layer_dedup s) (node_stack node, node_closer_inserted node)) eqn:E; [done|].
  split; [by destruct H1|]. split; [|done]. intros stack k w. cbn. rewrite map_lookup_app.
  destruct (map_lookup (layer_dedup s) (stack, k)) as [v'|] eqn:E'; [intros [= <-]; by apply (H2 stack k)|].
  cbn. case_decide as Hk; [|done]. intros [= <-]. injection Hk as -> _. by exists node.
Qed.

Lemma with_dedup_ok m s : search_ok s → search_ok (with_dedup m s).
Proof using. by intros [H1 H2]. Qed.

Lemma InsertBracketsBefore_succeeds item i s :
  vec_get items i = Ok item → before_item i s →
  succeeds (InsertBracketsBefore item i s) (at_item i).
Proof using Hitems.
  intros Hitem [H1 H2 H3]. unfold InsertBracketsBefore.
  eapply succeeds_then.
  { apply (for_each_succeeds (λ vs s', search_ok s' ∧ dedup_ok i s' ∧
      layer_ok s' i (position i) (current_layer s') ∧ vs ⊆ current_layer s')).
    - split_and!; [done| |done|done]. intros stack k v. by rewrite H2.
    - intros v vs s' (A & B & C & D).
      eapply succeeds_mono; [apply (seed_dedup_succeeds i v s' A B C), D; by left|].
      intros s2 (A2 & B2 & C2 & E). split_and!; [done..|]. rewrite E. intros w Hw. apply D. by right. }
  intros s1 (A & B & C & _).
  eapply succeeds_then; [by eapply InsertSyntheticClosers_succeeds|]. intros s2 (A2 & B2 & C2).
  eapply succeeds_then; [by eapply InsertSyntheticOpeners_succeeds|]. intros s3 (A3 & C3).
  eapply succeeds_then; [by apply (PruneBeam_succeeds _ i (position i + 1))|]. intros layer Hlayer.
  apply succeeds_ret. by split; [apply with_layer_ok, with_dedup_ok| |].
Qed.

(** ** Advancing over an item *)

(** The states of the next layer. *)
Record advancing_ok (i b : Z) (x : RegionSearch * list Z) : Prop := {
  advancing_search : search_ok x.1;
  advancing_dedup : dedup_ok (i + 1) x.1;
  advancing_next : layer_ok x.1 (i + 1) b x.2;
}.

Lemma advance_succeeds i b v l current stack l' add c x :
  advancing_ok i b x → 0 ≤ i < n → node_at x.1 v i l → denotes (search_stacks x.1) stack l' →
  vec_size l' ≤ MaxDepth → Forall (key_before b) l' →
  leads (place_at i l) (place_at (i + 1) l') (match c with Some c => [c] | None => [] end) →
  succeeds (advance i v current stack add c x) (λ x', advancing_ok i b x' ∧ grows x.1 x'.1 ∧
    search_stacks x'.1 = search_stacks x.1).
Proof using.
  intros [H1 H2 H3] Hi Hv Hd Hlen Hkeys Hlead. unfold advance.
  destruct (search_place _ _ _ _ H1 Hv) as [_ Hl].
  eapply succeeds_then.
  { apply (AddToLayer_succeeds x.1 _ (i + 1) stack _ _ _ _ l'); [done|done|lia|done|done|].
    exists i, l. split; [done|]. split; [exact Hlead|].
    pose proof (place_rank_range i l ltac:(lia) Hl). pose proof (place_rank_range (i + 1) l' ltac:(lia) Hlen).
    lia. }
  intros [[s' layer'] wl'] (Hadd & _ & Hdd). cbn [fst snd] in *. apply succeeds_ret. cbn [fst snd].
  split; [|split; [apply (added_grows _ _ _ _ _ _ Hadd)|apply (added_stacks _ _ _ _ _ _ Hadd)]].
  split; [apply (added_ok _ _ _ _ _ _ Hadd)|done|by eapply added_layer_ok].
Qed.

Lemma advancing_stacks i b stacks s layer :
  advancing_ok i b (s, layer) → stacks_ok stacks → extends (search_stacks s) stacks →
  advancing_ok i b (with_stacks stacks s, layer).
Proof using.
  intros [H1 H2 H3] Hs He. split; [by apply search_ok_stacks|done|].
  eapply layer_ok_grows; [by apply grows_stacks|done].
Qed.

(** What advancing over the item from the node [v] may do: keep the node. *)
Definition advanced (i b v : Z) l (stack : Z) (x : RegionSearch * list Z) : Prop :=
  advancing_ok i b x ∧ node_at x.1 v i l ∧ denotes (search_stacks x.1) stack l.

Lemma advance_keeps i b v l current stack stack' l' add c x :
  advanced i b v l stack x → 0 ≤ i < n → denotes (search_stacks x.1) stack' l' →
  vec_size l' ≤ MaxDepth → Forall (key_before b) l' →
  leads (place_at i l) (place_at (i + 1) l') (match c with Some c => [c] | None => [] end) →
  succeeds (advance i v current stack' add c x) (λ x', advanced i b v l stack x' ∧ grows x.1 x'.1).
Proof using.
  intros (Hok & Hv & Hd) Hi Hd' Hlen Hkeys Hlead.
  eapply succeeds_mono; [by eapply advance_succeeds|]. intros x' (Hok' & Hg & Hst). split; [|done].
  split; [done|]. split; [by apply Hg|by rewrite Hst].
Qed.

Section item.
Context (item : Item) (i : Z) (Hitem : vec_get items i = Ok item).
#[local] Abbreviation k := (item_kind item).

Lemma item_index : 0 ≤ i < n.
Proof using Hitem. by eapply vec_get_lt. Qed.

Lemma plain_leads l :
  HasAll item [Cue.CollapsedBlock] = true ∨ IsOpeningBracket k = false ∧ IsClosingBracket k = false →
  leads (place_at i l) (place_at (i + 1) l) [].
Proof using Hitem Hitems. intros Hp W HW. eapply item_plain; [by apply item_at|done|done]. Qed.

Section bracket.
Context (Hloose : HasAll item [Cue.CollapsedBlock] = false).

Lemma push_leads l :
  IsOpeningBracket k = true →
  leads (place_at i l) (place_at (i + 1) (open_key (RealOpener item) :: l)) [].
Proof using Hitem Hitems Hloose.
  intros Ho W HW. destruct (item_bracket _ _ _ _ (item_at _ _ Hitem) Hloose) as (Ht & Hnext & Hk & _); [by left|].
  cbn in *. rewrite Hnext in HW. rewrite Ht in HW.
  by eapply walk_push; [exact Hk|apply (opening_kind _ Ho)|].
Qed.

Lemma replace_leads l d :
  IsOpeningBracket k = true ∨ IsClosingBracket k = true →
  leads (place_at i l) (place_at (i + 1) l) [ReplaceBracket (item_token item) d].
Proof using Hitem Hitems Hloose.
  intros Hb W HW. destruct (item_bracket _ _ _ _ (item_at _ _ Hitem) Hloose Hb) as (Ht & Hnext & Hk & His).
  cbn in *. rewrite Hnext in HW.
  eapply walk_error; [exact Hk|exact His| |exact HW]. rewrite <- Ht. apply replaced_gives_up.
Qed.

Lemma match_leads key l :
  IsClosingBracket k = true → open_kind key = MatchingOpeningKind k →
  leads (place_at i (key :: l)) (place_at (i + 1) l)
    (if is_synthetic key then [InsertOpenerCorrection key (item_token item)] else []).
Proof using Hitem Hitems Hloose.
  intros Hc Hm W HW. destruct (item_bracket _ _ _ _ (item_at _ _ Hitem) Hloose) as (Ht & Hnext & Hk & _); [by right|].
  assert (ToTokenKind k = TokenKind.closing_symbol (ToTokenKind (open_kind key))) as E
    by (rewrite Hm; by destruct k).
  rewrite E in Hk. cbn in *. rewrite Hnext in HW. unfold entry_of at 1. destruct (is_synthetic key).
  - eapply walk_match_synth; [exact Hk|by split_and!|exact HW].
  - eapply walk_match; [exact Hk|exact HW].
Qed.
End bracket.

Lemma push_advances v l stack x (y : RegionSearch * list Z) :
  HasAll item [Cue.CollapsedBlock] = false → IsOpeningBracket k = true → vec_size l < MaxSearchStackDepth →
  Forall (key_before (position (i + 1))) l → advanced i (position (i + 1)) v l stack x →
  grows y.1 x.1 → ∀ current add,
  succeeds ('(next_stack, stacks) ← Push (search_stacks x.1) stack (RealOpener item);
            advance i v current next_stack add None (with_stacks stacks x.1, x.2))
    (λ x', advanced i (position (i + 1)) v l stack x' ∧ grows y.1 x'.1).
Proof using Hitem Hitems.
  intros Hc Ho Hlen Hkeys (Hok & Hv & Hd) Hgy current add. pose proof item_index as Hi.
  eapply succeeds_then; [eapply Push_succeeds; [by apply Hok|exact Hd]|].
  intros [stack' stacks] (Hst & Hext & Hd'). cbn [fst snd] in *. destruct x as [s layer].
  pose proof (grows_stacks s _ Hext) as Hg.
  eapply succeeds_mono; [eapply (advance_keeps i _ v l _ stack stack')|].
  - split; [by apply advancing_stacks|]. split; [by apply Hg|by apply Hext].
  - done.
  - exact Hd'.
  - rewrite vec_size_cons. unfold MaxDepth. lia.
  - constructor; [|done]. by split.
  - by apply push_leads.
  - intros x' [Hx' Hgx]. split; [done|]. etransitivity; [exact Hgy|]. by etransitivity.
Qed.

Lemma match_advances v l stack x (y : RegionSearch * list Z) :
  HasAll item [Cue.CollapsedBlock] = false → IsClosingBracket k = true →
  Forall (key_before (position (i + 1))) l → advanced i (position (i + 1)) v l stack x →
  grows y.1 x.1 → ∀ current penalty,
  succeeds
    (if IsEmpty stack then mret x
     else
       info ← Top_ (search_stacks x.1) stack;
       let top := open_key info in
       if negb (kind_eqb (open_kind top) (MatchingOpeningKind k)) then mret x
       else
         match MatchClosePenalty top item with
         | None => mret x
         | Some match_cost =>
             next_stack ← Pop (search_stacks x.1) stack;
             advance i v current next_stack (penalty + match_cost)
               (if is_synthetic top then Some (InsertOpenerCorrection top (item_token item)) else None) x
         end)
    (λ x', advanced i (position (i + 1)) v l stack x' ∧ grows y.1 x'.1).
Proof using Hitem Hitems.
  intros Hc Hcl Hkeys Hadv Hgy current penalty. pose proof item_index as Hi.
  pose proof Hadv as (Hok & Hv & Hd). pose proof (advancing_search _ _ _ Hok) as H1.
  destruct (search_place _ _ _ _ H1 Hv) as [_ Hlen].
  rewrite (denotes_nil _ _ _ Hd). destruct l as [|key l]; [by apply succeeds_ret|]. cbn [length].
  change (bool_decide (S (length l) = 0%nat)) with false. cbv iota.
  eapply succeeds_then; [by eapply Top_succeeds|]. intros info Hinfo. cbv zeta. rewrite Hinfo.
  destruct (kind_eqb _ _) eqn:Ek; cbn [negb]; [|by apply succeeds_ret]. apply kind_eqb_eq in Ek.
  destruct (MatchClosePenalty key item) as [cost|]; [|by apply succeeds_ret].
  eapply succeeds_then; [by eapply Pop_succeeds|]. intros below Hbelow.
  rewrite vec_size_cons in Hlen. apply Forall_cons in Hkeys as [_ Hkeys].
  eapply succeeds_mono; [eapply (advance_keeps i _ v (key :: l) _ stack below l)|].
  - exact Hadv.
  - done.
  - exact Hbelow.
  - lia.
  - done.
  - pose proof (match_leads Hc key l Hcl Ek) as Hm. by destruct (is_synthetic key).
  - intros x' [Hx' Hgx]. split; [done|]. by etransitivity.
Qed.

(** Bounds for what is before the item and after it. *)
Context (b : Z) (Hb : b ≤ position (i + 1)).

Lemma AdvanceNode_succeeds v x :
  advancing_ok i (position (i + 1)) x → state_ok x.1 i b v →
  succeeds (AdvanceNode item i v x) (λ x', advancing_ok i (position (i + 1)) x' ∧ grows x.1 x'.1).
Proof using Hb Hitem Hitems.
  intros Hok (l & Hl & Hkeys). pose proof item_index as Hi. pose proof (advancing_search _ _ _ Hok) as H1.
  destruct (search_place _ _ _ _ H1 Hl) as [_ Hlen]. apply (keys_before_mono _ _ _ Hb) in Hkeys.
  pose proof Hl as (node & Hn & _ & Hd). unfold AdvanceNode. rewrite Hn. cbn [mbind Result_bind].
  destruct (_ <? _); [by apply succeeds_ret|].
  assert (advanced i (position (i + 1)) v l (node_stack node) x) as Hadv by done.
  eapply succeeds_then; [eapply (AdvancePenalty_succeeds _ (search_stacks_ok _ H1)); exact Hd|].
  intros penalty _.
  cbn [Snapshot state_stack]. cbv zeta.
  assert (∀ c y, advanced i (position (i + 1)) v l (node_stack node) y → grows x.1 y.1 →
    leads (place_at i l) (place_at (i + 1) l) (match c with Some c => [c] | None => [] end) →
    ∀ add, succeeds (advance i v (Snapshot node) (node_stack node) add c y) (λ x',
      advancing_ok i (position (i + 1)) x' ∧ grows x.1 x'.1)) as Hstay.
  { intros c y Hy Hgy Hlead add. pose proof Hy as (_ & _ & Hdy).
    eapply succeeds_mono; [by eapply advance_keeps|]. intros x' [(A & _) G]. split; [done|]. by etransitivity. }
  destruct (HasAll item [Cue.CollapsedBlock]) eqn:Ec.
  { by apply Hstay; [| |apply plain_leads; left]. }
  destruct (IsOpeningBracket k) eqn:Eo.
  { rewrite (Depth_denotes _ (search_stacks_ok _ H1) _ _ Hd). cbn [mbind Result_bind].
    apply (succeeds_then _ _ (λ y, advanced i (position (i + 1)) v l (node_stack node) y ∧ grows x.1 y.1)).
    2: { intros y [Hy Hgy]. apply Hstay; [done..|]. apply replace_leads; [done|by left]. }
    destruct (Z.ltb_spec (vec_size l) MaxSearchStackDepth); [|by apply succeeds_ret].
    by apply push_advances. }
  destruct (IsClosingBracket k) eqn:Ecl.
  2: { by apply Hstay; [| |apply plain_leads; right]. }
  apply (succeeds_then _ _ (λ y, advanced i (position (i + 1)) v l (node_stack node) y ∧ grows x.1 y.1)).
  - by apply match_advances.
  - intros y [Hy Hgy]. apply Hstay; [done..|]. apply replace_leads; [done|by right].
Qed.

Lemma AdvanceOverItem_succeeds s :
  search_ok s → layer_dedup s = [] → layer_ok s i b (current_layer s) →
  succeeds (AdvanceOverItem item i s) (before_item (i + 1)).
Proof using Hb Hitem Hitems.
  intros H1 H2 H3. unfold AdvanceOverItem.
  eapply succeeds_then.
  { apply (for_each_succeeds (λ vs x, advancing_ok i (position (i + 1)) x ∧ layer_ok x.1 i b vs)).
    - split; [|exact H3]. split; [done| |constructor]. intros stack kd v. cbn. by rewrite H2.
    - intros v vs x [Hok [Hv Hvs]%Forall_cons]. eapply succeeds_mono; [by apply AdvanceNode_succeeds|].
      intros x' [Hok' Hg]. split; [done|]. by eapply layer_ok_grows. }
  intros [s' layer] [[A _ C] _]. cbn [fst snd] in *.
  eapply succeeds_then; [by apply (PruneBeam_succeeds _ (i + 1) (position (i + 1)))|].
  intros layer' Hlayer. apply succeeds_ret. by split; [apply with_layer_ok, with_dedup_ok| |].
Qed.
End item.

Lemma solve_step_succeeds i s :
  0 ≤ i < n → before_item i s → succeeds (solve_step items i s) (before_item (i + 1)).
Proof using Hitems.
  intros Hi Hs. unfold solve_step. apply succeeds_bind, succeeds_get; [done|]. intros item Hitem.
  pose proof (item_at _ _ Hitem) as Hok. pose proof (item_ok_le _ _ _ _ Hok) as Hle.
  destruct (kind_eqb (item_kind item) Kind.FileEnd) eqn:Ek; cbn [mbind Result_bind].
  - destruct Hs as [H1 H2 H3]. by apply (AdvanceOverItem_succeeds item i Hitem (position i)).
  - eapply succeeds_then; [by apply InsertBracketsBefore_succeeds|]. intros s' [H1 H2 H3].
    apply (AdvanceOverItem_succeeds item i Hitem (position i + 1)); [|done..].
    destruct Hok as (_ & _ & Hok). rewrite Ek in Hok. destruct (HasAll _ _); lia.
Qed.

Lemma InitialSearch_ok : before_item 0 InitialSearch.
Proof using Hitems.
  assert (node_at InitialSearch 0 0 []) as Hroot by (eexists; split_and!; [done|done|constructor]).
  split; [|done|constructor; [by exists []|constructor]].
  split; [apply EmptyStacks_ok|]. exists [place_at 0 []].
  pose proof (vec_size_nonneg items). split.
  - split; [done| |].
    + eexists. split; [done|]. split; [apply position_first|done].
    + intros v node p Hv Hg. apply (vec_get_snoc_inv []) in Hv as [Hv%vec_get_lt|[-> ->]]; [unfold vec_size in Hv; cbn in Hv; lia|].
      assert (p = place_at 0 []) as -> by (by injection Hg as <-).
      pose proof (place_rank_range 0 [] ltac:(lia) ltac:(done)).
      split_and!; [lia|lia|done|constructor].
  - intros v node Hv. apply (vec_get_snoc_inv []) in Hv as [Hv%vec_get_lt|[-> ->]]; [unfold vec_size in Hv; cbn in Hv; lia|].
    split; [cbn; lia|]. exists []. split_and!; [constructor|done|done].
Qed.

(** ** Closing at the end of the region *)

(** The node [v] is at the end, with the brackets [l] open. *)
Definition placed (G : list Place) (v : Z) l : Prop := vec_get G v = Ok (place_at n l).

(** What adding nodes after those of [s0] leaves; the nodes of a chain of closers
    have the brackets of their places open, not those of their stacks. *)
Record ending (s0 s : RegionSearch) (goals : list Z) (G : list Place) : Prop := {
  ending_stacks : search_stacks s = search_stacks s0;
  ending_graph : graph_ok t0 max_rank G (nodes s);
  ending_old v l : node_at s0 v n l → placed G v l ∧ vec_get (nodes s) v = vec_get (nodes s0) v;
  ending_goals : Forall (λ v, placed G v []) goals;
}.

Lemma placed_app G G' v l : placed G v l → placed (G ++ G') v l.
Proof using. apply vec_get_app_l. Qed.

Section close.
Context (s0 : RegionSearch) (Hs0 : search_ok s0).

Lemma ending_snoc s goals G node l parent c :
  ending s0 s goals G → vec_size l ≤ MaxDepth →
  parent_edges node = [{| parent_node_index := parent; edge_correction := Some c |}] →
  (∃ q, vec_get G parent = Ok q ∧ leads q (place_at n l) [c] ∧ place_rank q < place_rank (place_at n l)) →
  ending s0 (with_nodes (nodes s ++ [node]) s) goals (G ++ [place_at n l]).
Proof using.
  intros [H1 H2 H3 H4] Hlen He Hp. pose proof (vec_size_nonneg items). split; [done|..].
  - pose proof (place_rank_range n l ltac:(lia) Hlen). apply graph_ok_snoc; [done|lia|by rewrite He|].
    rewrite He. by repeat constructor.
  - intros v l' Hv. destruct (H3 _ _ Hv) as [Hpl Heq]. split; [by apply placed_app|]. cbn. rewrite <- Heq.
    destruct Hv as (nd & Hnd & _). rewrite <- Heq in Hnd. rewrite Hnd. by apply vec_get_app_l.
  - eapply Forall_impl; [exact H4|]. intros v. apply placed_app.
Qed.

(** The loop that closes what is open at one node. *)
Definition closing_end (goals : list Z) (x : RegionSearch * Z * Z * Z) : Prop :=
  let '(s, stack, _, parent) := x in ∃ G l, ending s0 s goals G ∧
    denotes (search_stacks s0) stack l ∧ placed G parent l ∧ vec_size l ≤ MaxDepth ∧
    Forall (λ key, key_before region_end key ∧ is_synthetic key = false) l.

Definition open_brackets (x : RegionSearch * Z * Z * Z) : nat :=
  let '(_, stack, _, _) := x in
  match Depth (search_stacks s0) stack with Ok d => Z.to_nat d | Err _ => O end.

Lemma close_end_step_succeeds goals x :
  closing_end goals x → succeeds (close_end_step n region_end x) (λ r,
    match r with
    | inl x' => closing_end goals x' ∧ (open_brackets x' < open_brackets x)%nat
    | inr (s, _, parent) => ∃ G, ending s0 s goals G ∧ placed G parent []
    end).
Proof using Hs0 Hend.
  pose proof (search_stacks_ok _ Hs0) as Hs. destruct x as [[[s stack] cost] parent].
  intros (G & l & HE & Hd & Hp & Hlen & Hl). unfold close_end_step. rewrite (ending_stacks _ _ _ _ HE).
  rewrite (denotes_nil _ _ _ Hd). destruct l as [|key l]; [apply succeeds_ret; by exists G|]. cbn [length].
  change (bool_decide (S (length l) = 0%nat)) with false. cbv iota.
  eapply succeeds_then; [by eapply Top_succeeds|]. intros info Hinfo. cbv zeta. rewrite Hinfo.
  eapply succeeds_then; [by eapply Pop_succeeds|]. intros below Hbelow. apply succeeds_ret.
  rewrite vec_size_cons in Hlen. pose proof Hl as [[[Ho Hb] Hsy] Hl']%Forall_cons. split.
  - exists (G ++ [place_at n l]), l. split; [|split; [exact Hbelow|split; [|split; [lia|done]]]].
    + eapply ending_snoc; [exact HE|lia|done|]. eexists. split; [exact Hp|]. split.
      * apply close_leads; [apply position_last|done|done|done].
      * eapply (close_rank n key l region_end); [|by rewrite position_last].
        eapply Forall_impl; [exact Hl|]. by intros key' [? _].
    + unfold placed. cbn. rewrite <- (graph_size _ _ _ _ (ending_graph _ _ _ _ HE)). apply vec_get_app_last.
  - cbn. rewrite (Depth_denotes _ Hs _ _ Hd), (Depth_denotes _ Hs _ _ Hbelow), vec_size_cons.
    pose proof (vec_size_nonneg l). lia.
Qed.

Lemma close_node_succeeds v x G :
  ending s0 x.1 x.2 G → state_ok s0 n region_end v →
  succeeds (close_node n region_end v x) (λ x', ∃ G, ending s0 x'.1 x'.2 G).
Proof using Hs0 Hend.
  pose proof (search_stacks_ok _ Hs0) as Hs. destruct x as [s goals]. intros HE (l & Hl & Hkeys).
  cbn [fst snd] in HE. unfold close_node. destruct (ending_old _ _ _ _ HE _ _ Hl) as [Hp ->].
  pose proof Hl as (node & Hn & _ & Hd). rewrite Hn. cbn [mbind Result_bind Snapshot state_stack].
  destruct (_ <? _); [apply succeeds_ret; by exists G|].
  rewrite (ending_stacks _ _ _ _ HE), (HasSynthetic_denotes _ Hs _ _ Hd). cbn [mbind Result_bind].
  destruct (existsb is_synthetic l) eqn:Es; [apply succeeds_ret; by exists G|].
  eapply succeeds_then.
  { apply (loop_succeeds (closing_end goals) open_brackets).
    - exists G, l. split_and!; [done..|by destruct (search_place _ _ _ _ Hs0 Hl)|].
      apply Forall_forall. intros key Hk. rewrite Forall_forall in Hkeys. split; [by apply Hkeys|].
      apply not_true_is_false. intros Ht. apply not_true_iff_false in Es. apply Es, existsb_exists.
      exists key. split; [by apply list_elem_of_In|done].
    - cbn. rewrite (Depth_denotes _ Hs _ _ Hd).
      pose proof (denotes_length _ Hs _ _ Hd). pose proof (denotes_below _ _ _ Hd).
      unfold vec_size in *. lia.
    - intros x. apply close_end_step_succeeds. }
  intros [[s' cost] parent] (G' & HE' & Hp'). 
  assert (∀ c gs, ending s0 s' gs G' → ending s0 (with_min_goal_cost c s') gs G') as Hcost
    by (intros c gs [A B C D]; by split).
  assert (∀ gs, ending s0 s' gs G' → ending s0 s' (gs ++ [parent]) G') as Hgoal.
  { intros gs [A B C D]. split; [done..|]. apply Forall_app_2; [done|]. by repeat constructor. }
  assert (ending s0 s' [] G') as Hnil by (destruct HE' as [A B C D]; by split).
  pose proof (Hgoal [] Hnil) as Hone.
  destruct (_ <? _); apply succeeds_ret; exists G'; cbn; destruct (_ =? _); cbn; auto.
Qed.

Lemma CloseAtRegionEnd_succeeds :
  before_item n s0 → succeeds (CloseAtRegionEnd n region_end s0) (λ r, ∃ G,
    graph_ok t0 max_rank G (nodes r.1) ∧
    Forall (λ v, ∃ p, vec_get G v = Ok p ∧ place_pos p = region_end ∧ place_stack p = []) r.2).
Proof using Hs0 Hend.
  intros [_ _ Hlayer]. rewrite position_last in Hlayer. unfold CloseAtRegionEnd.
  eapply succeeds_mono; [apply (for_each_succeeds (λ vs x, (∃ G, ending s0 x.1 x.2 G) ∧
    layer_ok s0 n region_end vs))|].
  - split; [|done]. destruct Hs0 as [_ (G & HG & HP)]. exists G. split; [done|done| |constructor].
    intros v l Hv. split; [|done]. by destruct (node_place s0 G v n l HP Hv).
  - intros v vs x [[G HE] [Hv Hvs]%Forall_cons]. eapply succeeds_mono; [by eapply close_node_succeeds|].
    intros x' H. by split.
  - intros x [[G [_ HG _ Hgoals]] _]. exists G. split; [done|]. eapply Forall_impl; [exact Hgoals|].
    intros v Hv. eexists. split; [exact Hv|]. split; [apply position_last|done].
Qed.
End close.
End region.
End search.
