(* ===== verification/BracketPaths.v ===== *)
(** The corrections that the search returns: the paths of its graph are repairs,
    their enumeration ends, and marking as tied the corrections that other
    paths do without leaves a repair. *)

From S2P Require Import Prelude TokenKinds BracketTokens BracketRules BracketAnalysis.
From S2P Require Import BracketSearch RecoveryLinks Recovered BracketWalk BracketRegions.
From S2P Require Import BracketStacks BracketBeam.

Implicit Types (item : Item) (items : list Item) (path : list BracketCorrection).

Section paths.
Context (ks : list TokenKind.t) (t0 region_end max_rank : Z).
Context (G : list Place) (node_list : list BeamNode).
Context (HG : graph_ok ks t0 max_rank G node_list).
Context (L num_goals : nat) (HL : max_rank ≤ Z.of_nat L).

(** * Paths of the graph *)

(** The corrections [path] lead from [p] to the end of the region. *)
Definition finishes (p : Place) path : Prop := ∀ W,
  walk ks region_end [] W → walk ks (place_pos p) (place_stack p) (path ++ W).

Definition goal_node (v : Z) : Prop := ∃ p, vec_get G v = Ok p ∧ finishes p [].

(** The stack of the depth-first search: goals that are not yet visited, and
    above one of them a path to it, each node the parent that the last edge
    taken from the one below leads to. *)
Inductive spine : list (Z * Z) → list BracketCorrection → Prop :=
  | spine_nil : spine [] []
  | spine_goal v e fs :
      goal_node v → Forall (λ f, goal_node f.1 ∧ f.2 = 0) fs → (S (length fs) ≤ num_goals)%nat →
      spine ((v, e) :: fs) []
  | spine_up e' v e fs node edge base :
      vec_get node_list v = Ok node → vec_get (parent_edges node) (e - 1) = Ok edge →
      spine ((v, e) :: fs) base →
      spine ((parent_node_index edge, e') :: (v, e) :: fs) (edge_corrections edge ++ base).

Definition rank_of (v : Z) : Z :=
  match vec_get G v with Ok p => place_rank p | Err _ => 0 end.

Lemma rank_range v : 0 ≤ rank_of v ≤ Z.of_nat L.
Proof using HG HL.
  unfold rank_of. destruct (vec_get G v) as [p|] eqn:Hp; [|lia]. pose proof (vec_get_lt _ _ _ Hp) as Hlt.
  rewrite (graph_size _ _ _ _ _ HG) in Hlt. destruct (succeeds_get node_list v (λ _, True) Hlt) as (nd & Hnd & _); [done|].
  destruct (graph_edges _ _ _ _ _ HG _ _ _ Hnd Hp) as (? & _). lia.
Qed.

(** The top of the stack is a node from which the path leads to the end. *)
Lemma spine_top v e fs base :
  spine ((v, e) :: fs) base → ∃ node p, vec_get node_list v = Ok node ∧ vec_get G v = Ok p ∧
    finishes p base.
Proof using HG.
  assert (∀ v p, vec_get G v = Ok p → ∃ node, vec_get node_list v = Ok node) as Hnode.
  { intros w p Hp%vec_get_lt. rewrite (graph_size _ _ _ _ _ HG) in Hp.
    by destruct (succeeds_get node_list w (λ _, True) Hp) as (nd & Hnd & _); [|exists nd]. }
  remember ((v, e) :: fs) as frames eqn:E. intros H. revert v e fs E.
  induction H as [|v' e' fs' (p & Hp & Hf) _ _|e' v' e'' fs' node edge base Hv He Hsp IH]; intros v e fs [= <- <- <-].
  - destruct (Hnode _ _ Hp) as [node Hnd]. by exists node, p.
  - destruct (IH _ _ _ eq_refl) as (node' & p & Hv' & Hp & Hf). rewrite Hv in Hv'. injection Hv' as <-.
    destruct (graph_edges _ _ _ _ _ HG _ _ _ Hv Hp) as (_ & _ & HE).
    apply vec_get_Ok in He as [_ He]. destruct (Forall_lookup_1 _ _ _ _ HE He) as (q & Hq & Hl & _).
    destruct (Hnode _ _ Hq) as [nd Hnd]. exists nd, q. split_and!; [done..|].
    intros W HW. rewrite <- app_assoc. by apply Hl, Hf.
Qed.

Lemma edge_rank v node e edge :
  vec_get node_list v = Ok node → vec_get (parent_edges node) e = Ok edge →
  rank_of (parent_node_index edge) < rank_of v.
Proof using HG.
  intros Hv He. pose proof (vec_get_lt _ _ _ Hv) as Hlt. rewrite <- (graph_size _ _ _ _ _ HG) in Hlt.
  destruct (succeeds_get G v (λ _, True) Hlt) as (p & Hp & _); [done|].
  destruct (graph_edges _ _ _ _ _ HG _ _ _ Hv Hp) as (_ & _ & HE).
  apply vec_get_Ok in He as [_ He]. destruct (Forall_lookup_1 _ _ _ _ HE He) as (q & Hq & _ & Hr).
  unfold rank_of. by rewrite Hq, Hp.
Qed.

(** Ranks grow down the stack, which bounds its height. *)
Lemma spine_height v e fs base :
  spine ((v, e) :: fs) base → Z.of_nat (S (length fs)) + rank_of v ≤ Z.of_nat num_goals + Z.of_nat L.
Proof using HG HL.
  remember ((v, e) :: fs) as frames eqn:E. intros H. revert v e fs E.
  induction H as [|v' e' fs' _ _ Hl|e' v' e'' fs' node edge base Hv He _ IH]; intros v e fs [= <- <- <-].
  - pose proof (rank_range v'). lia.
  - specialize (IH _ _ _ eq_refl). pose proof (edge_rank _ _ _ _ Hv He). cbn. lia.
Qed.

(** What the current path holds besides the path below the top of the stack: the
    corrections of the last edge taken from it. *)
Definition pending (frames : list (Z * Z)) base path : Prop :=
  match frames with
  | [] => path = base
  | (v, e) :: _ => ∃ node, vec_get node_list v = Ok node ∧ 0 ≤ e ≤ vec_size (parent_edges node) ∧
      if e =? 0 then path = base
      else ∃ edge, vec_get (parent_edges node) (e - 1) = Ok edge ∧ path = edge_corrections edge ++ base
  end.

Definition found path : Prop := ∀ W, walk ks region_end [] W → walk ks t0 [] (path ++ W).

Record searching (x : PathSearch) : Prop := {
  searching_spine : ∃ base, spine (frames x) base ∧ pending (frames x) base (current_path x);
  searching_found : Forall found (all_paths x);
  searching_count : vec_size (all_paths x) < MaxOptimalPaths;
}.

(** The search ends: it goes down to the first node for each path it finds, and up
    at most the height of the stack. *)
Definition top_steps (frames : list (Z * Z)) : nat :=
  match frames with
  | [] => 0
  | (v, e) :: _ => if e =? 0 then S (Z.to_nat (rank_of v)) else S (L + length frames)
  end.

Definition steps_left (x : PathSearch) : nat :=
  (Z.to_nat MaxOptimalPaths - length (all_paths x)) * (2 * L + num_goals + 4) + top_steps (frames x).

(** Only the top of the stack may count other edges. *)
Lemma spine_edge v e e' fs base : spine ((v, e) :: fs) base → spine ((v, e') :: fs) base.
Proof using. inversion 1; subst; by econstructor. Qed.

(** Leaving the top of the stack. *)
Lemma spine_pop v e fs base :
  spine ((v, e) :: fs) base → ∃ base', spine fs base' ∧ pending fs base' base.
Proof using HG HL.
  intros H. inversion H as [|v' e' fs' _ Hfs Hl|e' v' e'' fs' node edge base' Hv He Hsp]; subst.
  - exists []. destruct fs as [|[v' e'] fs]; [by split; [constructor|]|].
    apply Forall_cons in Hfs as [[Hg [= ->]] Hfs]. pose proof Hg as (p & Hp & _).
    assert (spine ((v', 0) :: fs) []) as Hsp by (apply spine_goal; [done..|cbn in Hl; lia]).
    split; [exact Hsp|]. destruct (spine_top _ _ _ _ Hsp) as (node & _ & Hn & _). exists node.
    split; [done|]. split; [pose proof (vec_size_nonneg (parent_edges node)); lia|done].
  - exists base'. split; [done|]. exists node. pose proof (vec_get_lt _ _ _ He). split; [done|].
    split; [lia|]. destruct (Z.eqb_spec e'' 0); [lia|]. by exists edge.
Qed.

Lemma pop_steps v e fs base :
  spine ((v, e) :: fs) base →
  (top_steps fs < S (L + length ((v, e) :: fs)) ∧
   S (L + length ((v, e) :: fs)) ≤ 2 * L + num_goals + 3)%nat.
Proof using HG HL.
  intros H. pose proof (spine_height _ _ _ _ H). pose proof (rank_range v). cbn [length].
  split; [|lia]. unfold top_steps. destruct fs as [|[v' e'] fs]; [lia|]. pose proof (rank_range v').
  destruct (e' =? 0); cbn [length]; lia.
Qed.

Lemma path_step_succeeds x :
  searching x → succeeds (path_step node_list x) (λ r,
    match r with
    | inl x' => searching x' ∧ (steps_left x' < steps_left x)%nat
    | inr paths => Forall found paths
    end).
Proof using HG HL.
  intros [(base & Hsp & Hpe) Hf Hc]. unfold path_step, steps_left. destruct x as [paths path fs].
  cbn [frames current_path all_paths] in *. destruct fs as [|[v e] fs]; [by apply succeeds_ret|].
  destruct (spine_top _ _ _ _ Hsp) as (node & p & Hv & Hp & Hfin).
  destruct Hpe as (node' & Hv' & He & Hpath). rewrite Hv in Hv'. injection Hv' as <-.
  rewrite Hv. cbn [mbind Result_bind]. pose proof (spine_pop _ _ _ _ Hsp) as Hpop.
  pose proof (pop_steps _ _ _ _ Hsp) as [Hsteps Hmax].
  destruct (parent_edges node) as [|edge0 edges] eqn:Ee.
  { apply succeeds_ret. change (vec_size []) with 0 in He. assert (e = 0) as -> by lia.
    cbn [Z.eqb] in *. subst path. destruct (graph_edges _ _ _ _ _ HG _ _ _ Hv Hp) as (_ & Hroot & _).
    specialize (Hroot Ee) as ->. destruct (graph_root _ _ _ _ _ HG) as (r & Hr & Hpos & Hst).
    rewrite Hr in Hp. injection Hp as <-.
    assert (Forall found (paths ++ [base])) as Hf'.
    { apply Forall_app_2; [done|]. constructor; [|constructor]. intros W HW. specialize (Hfin W HW).
      by rewrite Hpos, Hst in Hfin. }
    destruct (Z.leb_spec MaxOptimalPaths (vec_size (paths ++ [base]))) as [|Hlt]; [done|].
    split; [split; [exact Hpop|done|done]|]. cbn [frames all_paths] in *.
    rewrite vec_size_app in Hlt. unfold vec_size in Hlt, Hc. change (length [base]) with 1%nat in Hlt.
    rewrite length_app. change (length [base]) with 1%nat. unfold MaxOptimalPaths in *.
    change (Z.to_nat 100) with 100%nat. 
    replace (100 - length paths)%nat with (S (100 - (length paths + 1)))%nat by lia. lia. }
  assert (0 < vec_size (parent_edges node)) as Hedges.
  { rewrite Ee, vec_size_cons. pose proof (vec_size_nonneg edges). lia. }
  rewrite <- Ee. rewrite <- Ee in He, Hpath. clear Ee edge0 edges.
  eapply (succeeds_then _ _ (λ path, path = base)).
  { destruct (Z.eqb_spec e 0) as [->|Hne]; [by apply succeeds_ret|].
    destruct (Z.ltb_spec 0 e); [|lia]. destruct Hpath as (edge & Hedge & ->). rewrite Hedge.
    cbn [mbind Result_bind]. unfold edge_corrections. by destruct (edge_correction edge); apply succeeds_ret. }
  intros ? ->. destruct (Z.ltb_spec e (vec_size (parent_edges node))) as [Hlt|Hge].
  - apply succeeds_bind, succeeds_get; [lia|]. intros edge Hedge. apply succeeds_ret. cbn [frames all_paths].
    assert (spine ((parent_node_index edge, 0) :: (v, e + 1) :: fs) (edge_corrections edge ++ base)) as Hsp'.
    { eapply spine_up; [exact Hv|by rewrite Z.add_simpl_r|]. by eapply spine_edge. }
    split; [split; [|done|done]|].
    + exists (edge_corrections edge ++ base). split; [exact Hsp'|]. cbn.
      destruct (spine_top _ _ _ _ Hsp') as (nd & _ & Hnd & _). exists nd. split; [done|].
      split; [pose proof (vec_size_nonneg (parent_edges nd)); lia|].
      unfold edge_corrections. by destruct (edge_correction edge).
    + pose proof (edge_rank _ _ _ _ Hv Hedge). pose proof (rank_range (parent_node_index edge)).
      pose proof (rank_range v). unfold top_steps. cbn [Z.eqb]. destruct (e =? 0); lia.
  - apply succeeds_ret. cbn [frames all_paths]. split; [split; [exact Hpop|done|done]|].
    unfold top_steps at 2. destruct (Z.eqb_spec e 0) as [->|]; lia.
Qed.

Lemma EnumerateOptimalPaths_succeeds goals :
  Forall goal_node goals → (length goals ≤ num_goals)%nat →
  succeeds (loop (path_rounds L num_goals) (path_step node_list)
    {| all_paths := []; current_path := [];
       frames := reverse ((λ goal_idx, (goal_idx, 0)) <$> goals) |}) (Forall found).
Proof using HG HL.
  intros Hgoals Hlen. set (fs := reverse _).
  assert (Forall (λ f, goal_node f.1 ∧ f.2 = 0) fs) as Hfs.
  { unfold fs. apply Forall_reverse, Forall_fmap. eapply Forall_impl; [exact Hgoals|]. by intros v. }
  assert (length fs ≤ num_goals)%nat as Hlen' by (unfold fs; by rewrite length_reverse, length_fmap).
  clearbody fs.
  apply (loop_succeeds searching steps_left).
  - split; [|constructor|done]. cbn [frames current_path]. exists [].
    destruct fs as [|[v e] fs]; [by split; [constructor|]|].
    apply Forall_cons in Hfs as [[Hg [= ->]] Hfs].
    assert (spine ((v, 0) :: fs) []) as Hsp by (apply spine_goal; [done..|cbn in Hlen'; lia]).
    split; [exact Hsp|]. destruct (spine_top _ _ _ _ Hsp) as (node & _ & Hn & _). exists node.
    split; [done|]. split; [pose proof (vec_size_nonneg (parent_edges node)); lia|done].
  - unfold steps_left, path_rounds, top_steps. cbn [frames all_paths length].
    destruct Hfs as [|[v e] fs [_ Hz] _]; [lia|]. cbn in Hz. subst e. cbn [Z.eqb].
    pose proof (rank_range v). lia.
  - intros x Hx. by apply path_step_succeeds.
Qed.
End paths.

(** * Tied corrections *)

(** How many of [keys] are [key]. *)
Definition occurrences (key : Z) (keys : list Z) : Z := Z.of_nat (count_occ Z.eq_dec keys key).

Lemma occurrences_snoc key keys x :
  occurrences key (keys ++ [x]) = occurrences key keys + if decide (x = key) then 1 else 0.
Proof.
  unfold occurrences. rewrite count_occ_app. cbn. destruct (Z.eq_dec x key), (decide (x = key)); lia.
Qed.

(** The baseline's keys have ids, with their counts; each correction has the id of
    its key, and its number among those with the key. *)
Record numbered (keys : list Z) (b : BaselineKeys) : Prop := {
  numbered_count key id :
    map_lookup (key_ids b) key = Some id → vec_get (baseline_count b) id = Ok (occurrences key keys);
  numbered_inj key key' id :
    map_lookup (key_ids b) key = Some id → map_lookup (key_ids b) key' = Some id → key = key';
  numbered_none key : map_lookup (key_ids b) key = None → occurrences key keys = 0;
  numbered_ranks :
    Forall2 (λ k x, map_lookup (key_ids b) k.2 = Some x.1 ∧ x.2 = occurrences k.2 (take (S k.1) keys))
      (imap pair keys) (zip (baseline_key_id b) (baseline_rank b));
  numbered_lengths : length (baseline_key_id b) = length keys ∧ length (baseline_rank b) = length keys;
}.

Lemma numbered_ranks_snoc (b : BaselineKeys) (ids : list (Z * Z)) keys key id r :
  (∀ k i, map_lookup (key_ids b) k = Some i → map_lookup ids k = Some i) →
  map_lookup ids key = Some id → r = occurrences key (keys ++ [key]) →
  numbered keys b →
  Forall2 (λ k x, map_lookup ids k.2 = Some x.1 ∧ x.2 = occurrences k.2 (take (S k.1) (keys ++ [key])))
    (imap pair (keys ++ [key])) (zip (baseline_key_id b ++ [id]) (baseline_rank b ++ [r])).
Proof.
  intros Hids Hid -> [_ _ _ HF [H1 H2]]. rewrite zip_with_app by lia. rewrite imap_app. apply Forall2_app.
  - apply Forall2_same_length_lookup in HF as [Hlen HF]. apply Forall2_same_length_lookup. split; [done|].
    intros j [j' k] x Hj Hx. destruct (HF _ _ _ Hj Hx) as [A B]. cbn in *. split; [by apply Hids|].
    rewrite B. apply list_lookup_imap_Some in Hj as (k' & Hk & [= -> ->]).
    rewrite (take_app_le keys); [done|]. apply lookup_lt_Some in Hk. lia.
  - constructor; [|constructor]. cbn. split; [done|]. rewrite Nat.add_0_r, take_ge; [done|].
    rewrite length_app. cbn. lia.
Qed.

Lemma number_key_succeeds keys key b :
  numbered keys b → succeeds (number_key key b) (numbered (keys ++ [key])).
Proof.
  intros Hn. pose proof Hn as [H1 H2 H3 H4 H5]. unfold number_key.
  destruct (map_lookup (key_ids b) key) as [id|] eqn:E.
  - rewrite (H1 _ _ E). cbn [mbind Result_bind]. apply succeeds_ret. split; cbn.
    + intros k i Hk. rewrite occurrences_snoc. apply vec_get_set; [by eapply vec_get_lt, H1|].
      destruct (decide (key = k)) as [->|Hne].
      * left. rewrite E in Hk. by injection Hk as ->.
      * right. split; [intros ->; by apply Hne, (H2 _ _ i)|]. rewrite Z.add_0_r. by apply H1.
    + exact H2.
    + intros k Hk. rewrite occurrences_snoc, decide_False by congruence. rewrite (H3 _ Hk). done.
    + eapply numbered_ranks_snoc; [done|exact E| |done]. by rewrite occurrences_snoc, decide_True.
    + rewrite !length_app. cbn. lia.
  - rewrite vec_get_app_last. cbn [mbind Result_bind]. apply succeeds_ret.
    pose proof (H3 _ E) as Hzero.
    assert (∀ k i, map_lookup (key_ids b ++ [(key, vec_size (baseline_count b))]) k = Some i ↔
      map_lookup (key_ids b) k = Some i ∨ k = key ∧ i = vec_size (baseline_count b)) as Hids.
    { intros k i. rewrite map_lookup_app. destruct (map_lookup (key_ids b) k) as [i'|] eqn:Ek.
      - split; [by left|]. intros [?|[-> _]]; congruence.
      - cbn. case_decide; naive_solver. }
    split; cbn.
    + intros k i [Hk|[-> ->]]%Hids; rewrite occurrences_snoc, vec_set_last.
      * rewrite decide_False by congruence. rewrite Z.add_0_r. by apply vec_get_app_l, H1.
      * rewrite decide_True by done. rewrite Hzero. apply vec_get_app_last.
    + intros k k' i [Hk|[-> ->]]%Hids [Hk'|[-> Hi]]%Hids; [by eapply H2|..|done].
      * subst i. apply H1, vec_get_lt in Hk. lia.
      * apply H1, vec_get_lt in Hk'. lia.
    + intros k. rewrite map_lookup_app. destruct (map_lookup (key_ids b) k) eqn:Ek; [done|].
      cbn. case_decide; [done|]. intros _. rewrite occurrences_snoc, decide_False by congruence.
      rewrite (H3 _ Ek). done.
    + eapply numbered_ranks_snoc; [|apply Hids; by right| |done].
      * intros k i Hk. apply Hids. by left.
      * by rewrite occurrences_snoc, decide_True, Hzero.
    + rewrite !length_app. cbn. lia.
Qed.

(** A loop over a list, by what is done and what is left. *)
Lemma for_each_prefix {A St} (I : list A → St → Prop) (body : A → St → Result St) l s :
  I [] s → (∀ done x s, I done s → x ∈ l → succeeds (body x s) (I (done ++ [x]))) →
  succeeds (for_each l body s) (I l).
Proof.
  intros H Hb. eapply succeeds_mono.
  - apply (for_each_succeeds (λ rest s, ∃ done, done ++ rest = l ∧ I done s)); [by exists []|].
    intros x rest s' (done & <- & Hd). eapply succeeds_mono; [apply Hb; [exact Hd|set_solver]|].
    intros s2 H2. exists (done ++ [x]). by rewrite <- app_assoc.
  - intros s' (done & <- & Hd). by rewrite app_nil_r.
Qed.

Section ties.
Context (keys : list Z) (b : BaselineKeys) (Hb : numbered keys b).
#[local] Abbreviation id_of key := (map_lookup (key_ids b) key).

Lemma count_path_succeeds path_keys :
  succeeds (for_each path_keys (count_key (key_ids b)) (replicate (length (baseline_count b)) 0))
    (λ counts, length counts = length (baseline_count b) ∧
      ∀ key id, id_of key = Some id → vec_get counts id = Ok (occurrences key path_keys)).
Proof using Hb.
  apply (for_each_prefix (λ done counts, length counts = length (baseline_count b) ∧
    ∀ key id, id_of key = Some id → vec_get counts id = Ok (occurrences key done))).
  - split; [by rewrite length_replicate|]. intros key id Hk%(numbered_count _ _ Hb).
    apply vec_get_lt in Hk as Hlt. apply vec_get_Ok. split; [lia|]. apply lookup_replicate_2.
    unfold vec_size in Hlt. lia.
  - intros done key counts [Hl Hc] _. unfold count_key. destruct (id_of key) as [id|] eqn:E.
    + rewrite (Hc _ _ E). cbn [mbind Result_bind]. apply succeeds_ret. split; [unfold vec_set; by rewrite length_insert|].
      intros k i Hk. rewrite occurrences_snoc. apply vec_get_set; [by eapply vec_get_lt, Hc|].
      destruct (decide (key = k)) as [->|Hne].
      * left. rewrite E in Hk. by injection Hk as ->.
      * right. split; [intros ->; by apply Hne, (numbered_inj _ _ Hb _ _ i)|]. rewrite Z.add_0_r. by apply Hc.
    + apply succeeds_ret. split; [done|]. intros k i Hk. rewrite occurrences_snoc, decide_False by congruence.
      rewrite Z.add_0_r. by apply Hc.
Qed.

(** [counts] has, for each key, the least number of corrections of a path with it. *)
Definition least_counts (paths : list (list Z)) (counts : list Z) : Prop :=
  length counts = length (baseline_count b) ∧
  ∀ key id, id_of key = Some id → ∃ m, vec_get counts id = Ok m ∧
    ∀ r, (m < r ↔ Exists (λ path_keys, occurrences key path_keys < r) paths).

Lemma least_counts_snoc paths counts path_keys path_counts :
  least_counts paths counts → length path_counts = length (baseline_count b) →
  (∀ key id, id_of key = Some id → vec_get path_counts id = Ok (occurrences key path_keys)) →
  least_counts (paths ++ [path_keys]) (zip_with Z.min counts path_counts).
Proof using.
  intros [Hl Hc] Hl' Hc'. split; [rewrite length_zip_with; lia|]. intros key id Hk.
  destruct (Hc _ _ Hk) as (m & [Hi Hm]%vec_get_Ok & Hr).
  pose proof (Hc' _ _ Hk) as [_ Hm']%vec_get_Ok. exists (Z.min m (occurrences key path_keys)). split.
  - apply vec_get_Ok. split; [done|]. apply lookup_zip_with_Some. eauto.
  - intros r. rewrite Exists_app, Exists_cons, Exists_nil, <- Hr. lia.
Qed.

Lemma min_counts_succeeds (paths : list (list Z)) :
  succeeds (for_each paths (λ path_keys min_count,
      path_count ← for_each path_keys (count_key (key_ids b)) (replicate (length (baseline_count b)) 0);
      mret (zip_with Z.min min_count path_count)) (baseline_count b))
    (least_counts (keys :: paths)).
Proof using Hb.
  apply (for_each_prefix (λ done, least_counts (keys :: done))).
  - split; [done|]. intros key id Hk. exists (occurrences key keys).
    split; [by apply (numbered_count _ _ Hb)|]. intros r. by rewrite Exists_cons, Exists_nil; naive_solver.
  - intros done path_keys counts Hc _. eapply succeeds_then; [apply count_path_succeeds|].
    intros path_counts [Hl Hp]. apply succeeds_ret. by apply (least_counts_snoc (keys :: done)).
Qed.

(** Correction [j] needs more corrections with its key than some path has. *)
Definition tie (paths : list (list Z)) (j : nat) (key : Z) : Prop :=
  Exists (λ path_keys, occurrences key path_keys < occurrences key (take (S j) keys)) paths.

Lemma collect_succeeds paths counts :
  least_counts paths counts →
  succeeds (for_each (zip (baseline_key_id b) (baseline_rank b)) (λ x tied,
      fewest ← vec_get counts x.1; mret (tied ++ [fewest <? x.2])) [])
    (Forall2 (λ k (tied : bool), tied ↔ tie paths k.1 k.2) (imap pair keys)).
Proof using Hb.
  intros [_ Hc]. pose proof (numbered_ranks _ _ Hb) as HF.
  enough (∀ ks xs, Forall2 (λ k x, id_of k.2 = Some x.1 ∧ x.2 = occurrences k.2 (take (S k.1) keys)) ks xs →
    ∀ acc, succeeds (for_each xs (λ x tied, fewest ← vec_get counts x.1; mret (tied ++ [fewest <? x.2])) acc)
      (λ r, ∃ new, r = acc ++ new ∧ Forall2 (λ k (tied : bool), tied ↔ tie paths k.1 k.2) ks new)) as H.
  { eapply succeeds_mono; [by apply (H _ _ HF)|]. by intros r (new & -> & Hnew). }
  clear HF. induction 1 as [|k x ks xs [Hid Hr] _ IH]; intros acc; cbn [for_each].
  { apply succeeds_ret. exists []. by rewrite app_nil_r. }
  destruct (Hc _ _ Hid) as (m & -> & Hm). cbn [mbind Result_bind mret Result_ret].
  eapply succeeds_mono; [apply IH|]. intros r (new & -> & Hnew). eexists. rewrite <- app_assoc.
  split; [done|]. constructor; [|done]. rewrite Hr. unfold tie. rewrite <- Hm, <- Z.ltb_lt. by destruct (_ <? _).
Qed.
End ties.

Lemma for_each_fmap {A B St} (f : A → B) (body : B → St → Result St) (l : list A) : ∀ s,
  for_each (f <$> l) body s = for_each l (λ x, body (f x)) s.
Proof. induction l as [|x l IH]; intros s; [done|]. cbn. destruct (body (f x) s); [apply IH|done]. Qed.

(** The keys of a path's corrections. *)
Definition keys_of (key_of : BracketCorrection → Z) path : list Z := key_of <$> path.

Lemma FindTiedCorrections_succeeds (baseline : list BracketCorrection) paths key_of :
  succeeds (FindTiedCorrections (baseline :: paths) key_of) (λ tied,
    Forall2 (λ k (t : bool), t ↔ tie (keys_of key_of baseline) (keys_of key_of <$> baseline :: paths) k.1 k.2)
      (imap pair (keys_of key_of baseline)) tied).
Proof.
  unfold FindTiedCorrections. apply succeeds_bind, succeeds_ret.
  eapply succeeds_then.
  { apply (for_each_prefix numbered).
    - split; cbn; [done|done|done|constructor|done].
    - intros done key b Hb _. by apply number_key_succeeds. }
  intros b Hb. eapply succeeds_then.
  { pose proof (min_counts_succeeds _ b Hb (keys_of key_of <$> paths)) as H.
    rewrite for_each_fmap in H. exact H. }
  intros counts Hc. eapply succeeds_then; [by apply (collect_succeeds _ _ Hb (keys_of key_of <$> baseline :: paths))|].
  intros tied Ht. by apply succeeds_ret.
Qed.

Lemma retied (tied : list bool) : ∀ path, length tied = length path →
  Forall2 same_but_tie path (zip_with set_tied path tied).
Proof.
  induction tied as [|t tied IH]; intros [|c path] Hl; try done.
  cbn. constructor; [done|]. apply IH. by injection Hl.
Qed.

(** * The search repairs the region *)

Section solve.
Context (ks : list TokenKind.t) (items : list Item) (t0 region_end : Z).
Context (Hitems : items_ok ks t0 items region_end) (Hend : 1 ≤ region_end < vec_size ks).

Lemma ReconstructCorrections_succeeds G node_list goals :
  graph_ok ks t0 (16 * vec_size items + 14) G node_list →
  Forall (λ v, ∃ p, vec_get G v = Ok p ∧ place_pos p = region_end ∧ place_stack p = []) goals →
  succeeds (ReconstructCorrections node_list goals items region_end) (repairs ks t0 region_end).
Proof using Hitems.
  intros HG Hgoals. unfold ReconstructCorrections. eapply succeeds_then.
  { eapply (EnumerateOptimalPaths_succeeds ks t0 region_end _ G node_list HG _ (length goals)).
    - unfold max_path_length, vec_size. lia.
    - eapply Forall_impl; [exact Hgoals|]. intros v (p & Hp & Hpos & Hst). exists p. split; [done|].
      intros W HW. by rewrite Hpos, Hst.
    - done. }
  intros [|path paths] Hf; [apply succeeds_ret; by apply SolveNaive_repairs|].
  apply Forall_cons in Hf as [Hf _].
  eapply succeeds_then; [apply FindTiedCorrections_succeeds|]. intros tied Ht. apply succeeds_ret.
  apply Forall2_length in Ht. rewrite length_imap in Ht. unfold keys_of in Ht. rewrite length_fmap in Ht.
  intros rest Hrest. eexists. split; [done|]. eapply walk_retie; [by apply Hf|].
  apply Forall2_app; [by apply retied|]. clear. induction rest; by constructor.
Qed.

Lemma Solve_succeeds : succeeds (Solve items region_end) (repairs ks t0 region_end).
Proof using Hitems Hend.
  unfold Solve. eapply succeeds_then.
  { apply (for_seq_succeeds (before_item ks items t0 region_end)).
    - apply vec_size_nonneg.
    - by apply InitialSearch_ok.
    - intros i s Hi. by apply solve_step_succeeds. }
  intros s Hs. eapply succeeds_then.
  { apply (CloseAtRegionEnd_succeeds ks items t0 region_end Hend); [apply Hs|exact Hs]. }
  intros [s' goals] (G & HG & Hgoals). destruct goals as [|g goals].
  - apply succeeds_ret. by apply SolveNaive_repairs.
  - by eapply ReconstructCorrections_succeeds.
Qed.

Lemma SolveRegionCostBased_succeeds :
  succeeds (SolveRegionCostBased items region_end) (repairs ks t0 region_end).
Proof using Hitems Hend.
  unfold SolveRegionCostBased. destruct (_ <? _); [|apply Solve_succeeds].
  apply succeeds_ret. by apply SolveNaive_repairs.
Qed.
End solve.

(** * The theorem *)

(** C15. A correction is tied exactly if a cheapest repair does without it.
    [FindTiedCorrections] returns, for every list of repairs that is not empty
    and every key; and it marks the [j]-th correction of the first repair if
    and only if some repair has fewer corrections with its key than the first
    has up to and including it. *)
Theorem tied_corrections_are_spared (baseline : list BracketCorrection) paths key_of :
  ∃ tied, FindTiedCorrections (baseline :: paths) key_of = Ok tied ∧ length tied = length baseline ∧
    ∀ j c t, baseline !! j = Some c → tied !! j = Some t →
      (t = true ↔ ∃ path, path ∈ baseline :: paths ∧
        occurrences (key_of c) (key_of <$> path) < occurrences (key_of c) (key_of <$> take (S j) baseline)).
Proof.
  destruct (FindTiedCorrections_succeeds baseline paths key_of) as (tied & E & H).
  exists tied. split; [done|]. split.
  { apply Forall2_length in H. unfold keys_of in H. by rewrite length_imap, length_fmap in H. }
  intros j c t Hc Ht. assert (imap pair (keys_of key_of baseline) !! j = Some (j, key_of c)) as Hk.
  { unfold keys_of. by rewrite list_lookup_imap, list_lookup_fmap, Hc. }
  destruct (Forall2_lookup_lr _ _ _ _ _ _ H Hk Ht) as [H1 H2]. cbn [fst snd] in *. unfold tie in *.
  rewrite Exists_exists in H1, H2. unfold keys_of in *. rewrite <- fmap_take in *. split.
  - intros ->. destruct H1 as (ks & (path & -> & Hin)%list_elem_of_fmap & Hlt); [done|]. by exists path.
  - intros (path & Hin & Hlt). apply Is_true_true, H2. exists (key_of <$> path). split; [|done].
    by apply list_elem_of_fmap_2.
Qed.
