(* ===== verification/BracketRepair.v ===== *)
(** [FixMismatchedBrackets] as a whole: for the tokens of any stream it returns
    corrections that balance the stream. *)

From Stdlib Require Import Sorting.Sorted.
From stdpp Require Import sorting.
From S2P Require Import Prelude TokenKinds Tokens TokenText LexState LexRecovery.
From S2P Require Import LexInvariant RecoveryLinks RecoveryMerge RecoveryTotal Recovered.
From S2P Require Import BracketTokens BracketRules BracketAnalysis BracketSearch.
From S2P Require Import BracketWalk BracketRegions BracketStacks BracketBeam BracketPaths.

Implicit Types (item : Item) (items : list Item) (cs : list BracketCorrection).

Import TokenizedBuffer.

(** * Regions *)

(** Regions' bounds: they go up from 0 to at most [hi]. *)
Record bounds_ok (hi : Z) (bounds : list Z) : Prop := {
  bounds_first : head bounds = Some 0;
  bounds_sorted : StronglySorted Z.le bounds;
  bounds_range : Forall (λ b, 0 ≤ b ≤ hi) bounds;
}.

Lemma bounds_ok_mono hi hi' bounds : hi ≤ hi' → bounds_ok hi bounds → bounds_ok hi' bounds.
Proof.
  intros Hh [H1 H2 H3]. split; [done..|]. eapply Forall_impl; [exact H3|]. intros b Hb. cbn in Hb. lia.
Qed.

Lemma bounds_ok_snoc hi bounds : 0 ≤ hi → bounds_ok hi bounds → bounds_ok hi (bounds ++ [hi]).
Proof.
  intros Hh [H1 H2 H3]. split.
  - by destruct bounds.
  - clear H1. induction H2 as [|b bounds H2 IH Hb]; [by repeat constructor|].
    apply Forall_cons in H3 as [Hhi H3]. cbn. constructor; [by apply IH|].
    apply Forall_app_2; [done|]. constructor; [lia|constructor].
  - apply Forall_app_2; [done|]. constructor; [lia|constructor].
Qed.

Section regions.
Context (tokens : list MismatchedBracketToken) (items : list Item).
Context (Hends : ends_ok tokens items).

Lemma boundary_step_succeeds i bounds :
  0 ≤ i < vec_size items → bounds_ok i bounds →
  succeeds (boundary_step tokens items i bounds) (bounds_ok (i + 1)).
Proof using Hends.
  intros Hi Hb. pose proof (bounds_ok_mono i (i + 1) _ ltac:(lia) Hb) as Hb'. unfold boundary_step.
  apply succeeds_bind, succeeds_get; [done|]. intros item _.
  destruct (_ || _) eqn:E; [by apply succeeds_ret|]. 
  repeat (apply orb_false_iff in E as [E _]). apply Z.eqb_neq in E.
  apply succeeds_bind, succeeds_get; [lia|]. intros prev [_ Hprev]%vec_get_Ok.
  pose proof (Forall_lookup_1 _ _ _ _ Hends Hprev) as Hend.
  apply succeeds_bind, succeeds_get; [done|]. intros prev_end _.
  apply succeeds_bind, succeeds_get.
  { destruct Hb as [H1 _ _]. destruct bounds; [done|]. unfold vec_size. cbn. lia. }
  intros back _. apply succeeds_ret. destruct (_ && _); [|done].
  apply (bounds_ok_mono i); [lia|]. apply bounds_ok_snoc; [lia|exact Hb].
Qed.

Lemma FindRegionBoundaries_succeeds :
  succeeds (FindRegionBoundaries tokens items) (λ bounds,
    bounds_ok (vec_size items) bounds ∧ last bounds = Some (vec_size items)).
Proof using Hends.
  pose proof (vec_size_nonneg items). unfold FindRegionBoundaries. eapply succeeds_then.
  { apply (for_seq_succeeds bounds_ok); [done| |intros i s; apply boundary_step_succeeds].
    split; [done|repeat constructor|by repeat constructor]. }
  intros bounds Hb. destruct bounds as [|b bounds'] using rev_ind; [by destruct Hb|]. clear IHbounds'.
  rewrite vec_size_app. change (vec_size [b]) with 1. rewrite Z.add_simpl_r, vec_get_app_last.
  cbn [mbind Result_bind]. apply succeeds_ret. destruct (Z.eqb_spec b (vec_size items)) as [->|].
  - split; [done|]. apply last_snoc.
  - split; [by apply bounds_ok_snoc|]. apply last_snoc.
Qed.

Context (ks : list TokenKind.t) (Hks : described tokens ks).
#[local] Abbreviation n := (vec_size tokens).
Context (Hitems : items_ok ks 1 items n) (Hne : items ≠ []) (Hn : 0 < n).

Lemma items_ok_split (its : list Item) : ∀ t (k : nat) t', items_ok ks t its t' → (k ≤ length its)%nat →
  items_ok ks t (take k its) (position its t' (Z.of_nat k)) ∧
  items_ok ks (position its t' (Z.of_nat k)) (drop k its) t'.
Proof using.
  induction its as [|item its IH]; intros t k t' Hok Hk.
  - destruct k; [|cbn in Hk; lia]. cbn in *. by subst.
  - destruct k as [|k].
    + destruct Hok as (t1 & Hit & Hok). unfold position. rewrite Nat2Z.id. cbn. pose proof Hit as (-> & _).
      split; [done|]. by exists t1.
    + destruct Hok as (t1 & Hit & Hok). destruct (IH t1 k t' Hok) as [H1 H2]; [cbn in Hk; lia|].
      unfold position in *. rewrite Nat2Z.id in *. cbn. split; [|done]. by exists t1.
Qed.

#[local] Abbreviation pos := (position items n).

Lemma region_items_ok a b : 0 ≤ a ≤ b → b ≤ vec_size items →
  items_ok ks (pos a) (take (Z.to_nat (b - a)) (drop (Z.to_nat a) items)) (pos b).
Proof using Hitems.
  intros Ha Hb. unfold vec_size in Hb.
  destruct (items_ok_split items 1 (Z.to_nat a) n Hitems) as [_ H]; [lia|]. rewrite Z2Nat.id in H by lia.
  destruct (items_ok_split _ _ (Z.to_nat (b - a)) _ H) as [H' _]; [rewrite length_drop; lia|].
  revert H'. unfold position at 2. rewrite Nat2Z.id, lookup_drop.
  replace (Z.to_nat a + Z.to_nat (b - a))%nat with (Z.to_nat b) by lia. done.
Qed.

Lemma pos_range a : 1 ≤ pos a < vec_size ks.
Proof using Hitems Hks Hn.
  unfold position. destruct (items !! Z.to_nat a) as [item|] eqn:E.
  - destruct (items_ok_lookup ks n items _ _ _ Hitems E) as (t' & (_ & H & _) & _). done.
  - rewrite (described_size _ _ Hks). lia.
Qed.

Lemma fix_region_succeeds a b acc :
  0 ≤ a ≤ b → b ≤ vec_size items →
  succeeds (fix_region tokens items (a, b) acc) (λ r, ∃ new, r = acc ++ new ∧ repairs ks (pos a) (pos b) new).
Proof using Hitems Hks Hn.
  intros Ha Hb. unfold fix_region. pose proof (region_items_ok a b Ha Hb) as Hok.
  assert (∀ new, repairs ks (pos a) (pos b) new → ∃ new', acc ++ new = acc ++ new' ∧ repairs ks (pos a) (pos b) new')
    as Hnew by (intros new H; by exists new).
  destruct (Z.leb_spec b a).
  { apply succeeds_ret. exists []. rewrite app_nil_r. split; [done|]. replace b with a by lia. apply repairs_nil. }
  destruct (RegionIsBalanced _) eqn:EB.
  { apply succeeds_ret. exists []. rewrite app_nil_r. split; [done|]. by eapply balanced_region_repairs. }
  apply (succeeds_then _ _ (λ t, t = pos b)).
  - destruct (Z.ltb_spec b (vec_size items)).
    + apply succeeds_bind, succeeds_get; [lia|]. intros item [_ Hitem]%vec_get_Ok. apply succeeds_ret.
      unfold position. by rewrite Hitem.
    + apply succeeds_bind, succeeds_get; [lia|]. intros back Hback. apply succeeds_ret.
      unfold position. rewrite (proj2 (lookup_ge_None _ _)) by (unfold vec_size in *; lia).
      rewrite (described_index _ _ Hks _ _ Hback). lia.
  - intros t ->. eapply succeeds_then; [by apply (SolveRegionCostBased_succeeds ks _ (pos a)); [|apply pos_range]|].
    intros new Hrep. apply succeeds_ret. by apply Hnew.
Qed.

Lemma fix_regions_succeeds bounds : ∀ a acc,
  StronglySorted Z.le (a :: bounds) → Forall (λ b, 0 ≤ b ≤ vec_size items) (a :: bounds) →
  last (a :: bounds) = Some (vec_size items) →
  succeeds (for_each (zip (a :: bounds) bounds) (fix_region tokens items) acc)
    (λ r, ∃ new, r = acc ++ new ∧ repairs ks (pos a) n new).
Proof using Hitems Hks Hn.
  induction bounds as [|b bounds IH]; intros a acc Hs Hr Hl.
  - injection Hl as ->. apply succeeds_ret. exists []. rewrite app_nil_r. split; [done|].
    rewrite position_last. apply repairs_nil.
  - apply StronglySorted_inv in Hs as [Hs [Hab _]%Forall_cons]. apply Forall_cons in Hr as [Ha Hr].
    pose proof Hr as [Hb _]%Forall_cons. cbn [zip zip_with for_each].
    eapply succeeds_then; [by apply fix_region_succeeds; [lia|lia]|].
    intros r1 (new1 & -> & H1). eapply succeeds_mono; [by apply IH|]. intros r (new & -> & H2).
    exists (new1 ++ new). rewrite app_assoc. split; [done|]. by eapply repairs_app.
Qed.
End regions.

(** * The order of the corrections *)

Definition diagnosed_in_order cs : Prop :=
  StronglySorted (λ c c', diagnostic_token_index c < diagnostic_token_index c') cs.

Lemma stable_insert_sorted (c : BracketCorrection) cs :
  StronglySorted (λ c c', diagnostic_token_index c ≤ diagnostic_token_index c') cs →
  StronglySorted (λ c c', diagnostic_token_index c ≤ diagnostic_token_index c') (stable_insert correction_lt c cs).
Proof.
  induction 1 as [|d cs H IH Hd]; cbn; [by repeat constructor|]. destruct (correction_lt d c) eqn:E.
  - constructor; [done|]. rewrite stable_insert_permutation. constructor; [|done].
    revert E. unfold correction_lt. case_match eqn:Ed; [lia|].
    apply negb_false_iff, Z.eqb_eq in Ed. lia.
  - assert (diagnostic_token_index c ≤ diagnostic_token_index d) as Hcd.
    { revert E. unfold correction_lt. case_match eqn:Ed; [lia|].
      apply negb_false_iff, Z.eqb_eq in Ed. lia. }
    constructor; [by constructor|]. constructor; [done|]. eapply Forall_impl; [exact Hd|]. cbn. lia.
Qed.

Lemma stable_sort_sorted cs :
  NoDup (diagnostic_token_index <$> cs) → diagnosed_in_order (stable_sort correction_lt cs).
Proof.
  intros HN. assert (StronglySorted (λ c c', diagnostic_token_index c ≤ diagnostic_token_index c')
    (stable_sort correction_lt cs)) as H.
  { clear HN. induction cs as [|c cs IH]; [constructor|]. by apply stable_insert_sorted. }
  rewrite <- (stable_sort_permutation correction_lt) in HN. unfold diagnosed_in_order.
  induction H as [|c cs' H IH Hc]; [constructor|]. rewrite fmap_cons in HN. apply NoDup_cons in HN as [Hn HN].
  constructor; [by apply IH|]. rewrite Forall_forall in Hc. apply Forall_forall. intros d Hd.
  specialize (Hc _ Hd). cbn in *. assert (diagnostic_token_index c ≠ diagnostic_token_index d); [|lia].
  intros E. apply Hn. rewrite E. by apply list_elem_of_fmap_2.
Qed.

(** * The repair *)

(** What the corrections for a stream do: they balance it, each is for another
    bracket of it, in order, and where it says to put a bracket is in the stream. *)
Record repaired ks cs : Prop := {
  repaired_balanced : balanced (repaired_kinds ks cs);
  repaired_order : diagnosed_in_order cs;
  repaired_decided : Forall (decided ks 0 []) cs;
  repaired_count : vec_size cs ≤ vec_size ks;
}.

Lemma FixMismatchedBrackets_succeeds tokens ks :
  described tokens ks → 0 < vec_size tokens →
  succeeds (FixMismatchedBrackets tokens) (repaired ks).
Proof.
  intros Hks Hn. unfold FixMismatchedBrackets. destruct tokens as [|t ts] eqn:Et; [done|]. rewrite <- Et in *.
  clear Et t ts.
  eapply succeeds_then; [apply AnalyzeTokens_succeeds|]. intros a Ha.
  eapply succeeds_then; [by apply MarkCleanRanges_succeeds|]. intros clean [Hsized Hclean].
  eapply succeeds_then; [by apply (BuildItems_succeeds ks)|]. intros items (Hitems & Hends & Hne).
  eapply succeeds_then; [by apply FindRegionBoundaries_succeeds|]. intros bounds [[Hf Hs Hr] Hl].
  destruct bounds as [|b bounds]; [done|]. injection Hf as ->. cbn [drop skipn].
  eapply succeeds_then; [by apply (fix_regions_succeeds tokens items ks)|]. intros r (new & -> & Hrep).
  apply succeeds_ret. cbn [app]. rewrite (position_first _ _ _ _ Hitems) in Hrep.
  destruct (succeeds_get tokens (vec_size tokens - 1) (λ t, vec_get tokens (vec_size tokens - 1) = Ok t))
    as (last_token & Hlast & _); [lia|done|].
  assert (walk ks (vec_size tokens) [] []) as Hend.
  { destruct (described_kind _ _ Hks _ _ Hlast) as (k & Hk & Hd).
    rewrite (proj2 (described_end _ _ Hks _ _ Hlast)) in Hd by done.
    replace (vec_size tokens - 1 + 1) with (vec_size tokens) in Hk by lia.
    eapply walk_other; [exact Hk|exact Hd|]. rewrite <- (described_size _ _ Hks). constructor. }
  destruct (Hrep _ Hend) as (W & HP & HW). rewrite app_nil_r in HW.
  assert (walk ks 0 [] W) as HW0.
  { destruct (succeeds_get ks 0 (λ _, True)) as (k & Hk & _); [rewrite (described_size _ _ Hks); lia|done|].
    by eapply walk_other; [exact Hk|apply (described_first _ _ Hks _ Hk)|]. }
  destruct (walk_decided _ _ _ _ HW0 I (List.Forall_nil _) ltac:(lia)) as (_ & HN & _). rewrite HP in HN.
  pose proof (stable_sort_sorted _ HN) as Hsorted.
  destruct (walk_repairs ks W (stable_sort correction_lt new)) as (H1 & H2 & H3); [done| |done|by split].
  by rewrite stable_sort_permutation, HP.
Qed.

(** * The tokens of a lexed buffer *)

Lemma ClassifyBracketToken_describes k bk paren :
  ClassifyBracketToken k = Some (bk, paren) → describes bk k ∧ (bk = Kind.FileEnd ↔ k = TokenKind.FileEnd).
Proof. destruct k; intros [= <- <-]; by vm_compute. Qed.

Lemma ClassifyBracketToken_skips k : ClassifyBracketToken k = None → k = TokenKind.FileStart.
Proof. by destruct k. Qed.

Section collected.
Context (b : TokenizedBuffer.t).

Lemma DescribeBracketToken_fields tok k bk paren line wide t :
  DescribeBracketToken b tok k bk paren line wide = Ok t →
  bracket_token_index t = tok ∧ bracket_kind t = bk.
Proof using.
  unfold DescribeBracketToken. intros (next & _ & H)%result_bind_Ok.
  apply result_bind_Ok in H as (indent & _ & H). apply result_bind_Ok in H as (eol & _ & H).
  apply result_bind_Ok in H as (struct & _ & H). apply result_bind_Ok in H as (leading & _ & H).
  by injection H as <-.
Qed.

Lemma collect_bracket_tokens_describes m : ∀ tok prev_end prev_line ts,
  (∀ i, tok ≤ i < tok + Z.of_nat m → GetKind b i ≠ Ok TokenKind.FileStart) →
  collect_bracket_tokens b m tok prev_end prev_line = Ok ts →
  length ts = m ∧ ∀ j t, vec_get ts j = Ok t → bracket_token_index t = tok + j ∧
    ∃ k paren, GetKind b (tok + j) = Ok k ∧ ClassifyBracketToken k = Some (bracket_kind t, paren).
Proof using.
  induction m as [|m IH]; intros tok prev_end prev_line ts Hin H; cbn [collect_bracket_tokens] in H.
  { injection H as <-. split; [done|]. intros j t Hj%vec_get_lt. change (vec_size []) with 0 in Hj. lia. }
  apply result_bind_Ok in H as (k & Hk & H). apply result_bind_Ok in H as (offset & _ & H).
  apply result_bind_Ok in H as (line & _ & H). apply result_bind_Ok in H as (text & _ & H).
  destruct (ClassifyBracketToken k) as [[bk paren]|] eqn:E.
  2: { apply ClassifyBracketToken_skips in E as ->. destruct (Hin tok ltac:(lia) Hk). }
  apply result_bind_Ok in H as (t & Ht & H). apply result_bind_Ok in H as (rest & Hrest & H).
  injection H as <-. apply DescribeBracketToken_fields in Ht as [Hi Hbk].
  apply IH in Hrest as [Hl HF]; [|intros i Hr; apply Hin; lia]. split; [by cbn; rewrite Hl|].
  intros j u Hu. apply vec_get_Ok in Hu as [Hj Hu]. destruct (Z.to_nat j) as [|j'] eqn:Ej.
  - injection Hu as <-. replace j with 0 by lia. rewrite Z.add_0_r, Hi, Hbk. eauto.
  - destruct (HF (j - 1) u) as [H1 H2].
    { apply vec_get_Ok. split; [lia|]. by replace (Z.to_nat (j - 1)) with j' by lia. }
    by replace (tok + 1 + (j - 1)) with (tok + j) in * by lia.
Qed.

Lemma GetKind_kinds i k : GetKind b i = Ok k ↔ vec_get (kind <$> token_infos b) i = Ok k.
Proof using.
  unfold GetKind. rewrite result_bind_Ok, vec_get_Ok, list_lookup_fmap. setoid_rewrite vec_get_Ok. split.
  - intros (info & [Hi ->] & [= <-]). done.
  - intros [Hi (info & E & ->)%fmap_Some]. by exists info.
Qed.

(** What recovery hands to the search describes the buffer's tokens. *)
Lemma collected_described tokens :
  delimited (kind <$> token_infos b) → post_lexing_recovery_tokens b = 0 →
  CollectMismatchedBracketTokens b = Ok tokens →
  described tokens (kind <$> token_infos b) ∧ 0 < vec_size tokens.
Proof using.
  intros Hd Hpost H. destruct (delimited_kinds _ Hd) as (Hsz & K1 & K2 & K3).
  unfold CollectMismatchedBracketTokens, tokens_end in H. rewrite Hpost in H.
  replace (Z.to_nat (size b - 0)) with (S (Z.to_nat (size b - 1))) in H by lia.
  cbn [collect_bracket_tokens] in H. rewrite K1 in H. cbn [mbind Result_bind] in H.
  apply result_bind_Ok in H as (offset & _ & H). apply result_bind_Ok in H as (line & _ & H).
  apply result_bind_Ok in H as (text & _ & H). cbn [ClassifyBracketToken] in H.
  apply collect_bracket_tokens_describes in H as [Hl HF].
  2: { intros i Hi Hk. destruct (decide (i = size b - 1)) as [->|Hne]; [congruence|].
       by destruct (K3 i _ Hk) as [? _]; [lia|done|]. }
  assert (vec_size tokens = size b - 1) as Hn by (unfold vec_size; rewrite Hl; lia).
  assert (∀ i t, vec_get tokens i = Ok t → ∃ k paren, GetKind b (i + 1) = Ok k ∧
    ClassifyBracketToken k = Some (bracket_kind t, paren)) as Hkind.
  { intros i t Ht. destruct (HF _ _ Ht) as [_ H]. by rewrite Z.add_comm. }
  split; [|lia]. split.
  - rewrite Hn, kinds_size. lia.
  - intros k Hk. apply GetKind_kinds in Hk. rewrite K1 in Hk. by injection Hk as <-.
  - intros i t Ht. destruct (HF _ _ Ht) as [-> _]. lia.
  - intros i t Ht. destruct (Hkind _ _ Ht) as (k & paren & Hk & Hc). exists k. split; [by apply GetKind_kinds|].
    by eapply ClassifyBracketToken_describes.
  - intros i t Ht. destruct (Hkind _ _ Ht) as (k & paren & Hk & Hc).
    rewrite (proj2 (ClassifyBracketToken_describes _ _ _ Hc)). apply vec_get_lt in Ht as Hr. split.
    + intros ->. destruct (decide (i + 1 = size b - 1)) as [|Hne]; [lia|].
      by destruct (K3 (i + 1) _ Hk) as [_ ?]; [lia|done|].
    + intros ->. replace (vec_size tokens - 1 + 1) with (size b - 1) in Hk by lia. congruence.
Qed.
End collected.

(** * The theorem *)

(** C4. [FixMismatchedBrackets] balances every stream. On the descriptions of a
    token stream it returns, whatever its layout: no array access, no check and
    no loop bound on the way fails, in the analysis of the tokens, the beam
    search over each damaged region, the enumeration of its cheapest repairs or
    the greedy fallback. Applying the corrections, with those that are tied
    given up, leaves a stream whose brackets all match. Each correction is
    about another bracket, in the order of the stream; it replaces a bracket of
    the stream, or inserts a bracket before a token, after the bracket that it
    closes. *)
Theorem repair_balances_stream tokens ks :
  described tokens ks → 0 < vec_size tokens →
  ∃ cs, FixMismatchedBrackets tokens = Ok cs ∧ balanced (repaired_kinds ks cs) ∧
    diagnosed_in_order cs ∧
    Forall (λ c, in_stream (vec_size ks) c ∧
      (∀ tok, replaced_token c = Some tok → ∃ k, vec_get ks tok = Ok k ∧ is_bracket k = true) ∧
      (replaced_token c = None → fix_action c = InsertBefore ∧ is_bracket (fix_token_kind c) = true) ∧
      closes_before c) cs.
Proof.
  intros Hks Hn. destruct (FixMismatchedBrackets_succeeds _ _ Hks Hn) as (cs & E & [H1 H2 H3 _]).
  exists cs. split_and!; try done. eapply Forall_impl; [exact H3|]. intros c [_ Hin Hb Hc].
  split; [done|]. split; [|split; [|done]].
  - intros tok Ht. by rewrite Ht in Hb.
  - intros Ht. by rewrite Ht in Hb.
Qed.

(** The tokens of [f(x;], on one line. *)
Definition plain_token (i : Z) (k : Kind.t) : MismatchedBracketToken :=
  {| bracket_token_index := i; bracket_kind := k; bracket_line := 0; line_indent := 1;
     is_at_end_of_line := false; is_struct_brace := false; is_paren_keyword := false;
     is_else_keyword := false; bracket_has_leading_space := false; has_wide_leading_space := false |}.

Definition open_call : list MismatchedBracketToken :=
  [plain_token 1 Kind.Leaf; plain_token 2 Kind.OpenParen; plain_token 3 Kind.Leaf;
   plain_token 4 Kind.Semi; plain_token 5 Kind.FileEnd].

Lemma open_call_described : described open_call open_kinds.
Proof.
  assert (∀ i t, vec_get open_call i = Ok t → i = 0 ∨ i = 1 ∨ i = 2 ∨ i = 3 ∨ i = 4) as Hi.
  { intros i t H%vec_get_lt. unfold vec_size in H. cbn in H. lia. }
  split; [done|by intros k [= <-]|..]; intros i t Ht;
    destruct (Hi i t Ht) as [->|[->|[->|[->| ->]]]]; injection Ht as <-; cbn; try done.
  all: eexists; split; reflexivity.
Qed.

Lemma repair_balances_stream_witness :
  ∃ cs, FixMismatchedBrackets open_call = Ok cs ∧ repaired_kinds open_kinds cs =
    [TokenKind.FileStart; TokenKind.Identifier; TokenKind.OpenParen; TokenKind.Identifier;
     TokenKind.CloseParen; TokenKind.Semi; TokenKind.FileEnd] ∧ balanced (repaired_kinds open_kinds cs).
Proof.
  destruct (repair_balances_stream open_call open_kinds) as (cs & E & HB & _).
  - exact open_call_described.
  - reflexivity.
  - exists cs. split; [exact E|]. split; [|exact HB]. vm_compute in E. injection E as <-.
    vm_compute. reflexivity.
Defined.
