(* ===== verification/FrontEnd.v ===== *)
(** The front end on a whole source: with the search for a bracket repair,
    [Lexer::Lex] returns a buffer for the parser whatever the source, and the
    parser ends on that buffer. *)

From S2P Require Import Prelude TokenKinds Text APInts IntStores Simd LexDiagnostics.
From S2P Require Import StringLiterals Utf8 Diagnostics Tokens Lexed TokenText LexState.
From S2P Require Import BracketTokens BracketSearch LexRecovery Lexer LexPieces.
From S2P Require Import LexInvariant LexDispatch ParseTree Context Parse Termination.
From S2P Require Import Quiet Correctness RecoveryLinks RecoveryTotal Lexing Recovered.
From S2P Require Import BracketRepair.
Import TokenizedBuffer.

(** * Lexing every source *)

Section lexing.
Context {Ops : APInts} {Laws : APIntLaws Ops} {Build : LexBuild}.
Context {Utf : ConvertUTF} {UtfLaws : ConvertUTFLaws Utf}.
Context {Simd : X86Simd} {SimdLaws : X86SimdLaws Simd}.

(** The lexer only asks for a repair of a stream that needs one. *)
Lemma unmatched_unbalanced s ps source :
  Done s ps source → ¬ matched s → ¬ balanced (kind <$> token_infos (buffer s)).
Proof using.
  intros HD Hm HB. pose proof (balanced_balances _ HB [] []) as E.
  pose proof (groups_track _ _ _ (done_groups _ _ _ HD)) as Htr. unfold tracks in Htr.
  destruct (has_mismatched_brackets s) eqn:Emm; [by rewrite Htr in E|].
  destruct Htr as (st & Hst & Htr). rewrite Htr in E. apply Hm. split; [done|].
  destruct st; [|done]. apply Forall2_nil_inv_r, (f_equal reverse) in Hst. by rewrite reverse_involutive in Hst.
Qed.

Lemma repaired_kinds_nil ks : repaired_kinds ks [] = ks.
Proof using.
  unfold repaired_kinds. cbn. generalize 0 at 1. induction ks as [|k ks IH]; intros i; [done|].
  cbn. by rewrite IH.
Qed.

Lemma repaired_ok ks cs :
  repaired ks cs → ¬ balanced ks → 2 * vec_size ks ≤ MaxTokens → repair_ok ks cs.
Proof using.
  intros [H1 _ H2 H3] Hne Hc. split; [|lia| | |done].
  - intros ->. apply Hne. by rewrite repaired_kinds_nil in H1.
  - eapply Forall_impl; [exact H2|]. by intros c [_ ? _ _].
  - eapply Forall_impl; [exact H2|]. intros c [_ _ Hb _]. destruct (replaced_token c); [done|apply Hb].
Qed.

(** [Lexer::Lex] of a source whose brackets do not match, with the search. *)
Lemma Lex_repaired source ids iv rs ss want s w :
  vec_size source < MaxSource → StoresOk source ids iv rs ss →
  lexes source ids iv rs ss s w → ¬ matched s →
  ∃ cs corrections s' w', Lex FixMismatchedBrackets want (StringRef.mk 0 source)
      (MakeLexer (StringRef.mk 0 source) ids iv rs ss) = Ok (corrections, s', w ++ w') ∧
    Lexed (buffer s') ∧ has_errors (buffer s') = true ∧
    (kind <$> token_infos (buffer s')) = repaired_kinds (kind <$> token_infos (buffer s)) cs ∧
    repaired (kind <$> token_infos (buffer s)) cs ∧ length w' = length cs ∧ cs ≠ [].
Proof using Laws Utf UtfLaws Simd SimdLaws.
  intros Hs Hst H Hm. destruct (lexes_done source ids iv rs ss Hs Hst _ _ H) as (ps & HD & _).
  destruct (done_recovery _ _ _ HD) as [Hpost _].
  destruct (Done_collects _ _ _ Hs HD) as (tokens & Et & _).
  destruct (collected_described _ _ (Done_delimited _ _ _ HD) Hpost Et) as [Hd Hn].
  destruct (FixMismatchedBrackets_succeeds _ _ Hd Hn) as (cs & Ecs & Hcs).
  assert (repair_ok (kind <$> token_infos (buffer s)) cs) as Hok.
  { apply repaired_ok; [done|by eapply unmatched_unbalanced|]. rewrite kinds_size.
    pose proof (done_count _ _ _ HD). unfold size, MaxSource in *. change MaxTokens with (2 ^ 23). lia. }
  destruct (Lex_unmatched source ids iv rs ss FixMismatchedBrackets want s w tokens cs)
    as (corrections & s' & w' & E & HL & He & Hk & Hw & _); [done..|].
  exists cs, corrections, s', w'. split_and!; try done. apply (repair_some _ _ Hok).
Qed.

Lemma Lex_total source ids iv rs ss want :
  vec_size source < MaxSource → StoresOk source ids iv rs ss →
  ∃ corrections s w, Lex FixMismatchedBrackets want (StringRef.mk 0 source)
      (MakeLexer (StringRef.mk 0 source) ids iv rs ss) = Ok (corrections, s, w) ∧
    Lexed (buffer s) ∧ error_tokens_reported (buffer s) ∧
    has_errors (buffer s) = negb (bool_decide (w = [])).
Proof using Laws Utf UtfLaws Simd SimdLaws.
  intros Hs Hst. destruct (lexes_total source ids iv rs ss Hs Hst) as (s & w & H).
  assert (matched s ∨ ¬ matched s) as [Hm|Hm].
  { unfold matched. destruct (has_mismatched_brackets s), (open_groups s); naive_solver. }
  - destruct (Lex_matched source ids iv rs ss FixMismatchedBrackets want s w Hs Hst H Hm) as (s' & E & HL & He & Hw & _).
    by exists None, s', w.
  - destruct (Lex_repaired source ids iv rs ss want s w Hs Hst H Hm)
      as (cs & corrections & s' & w' & E & HL & He & _ & _ & Hw & Hne).
    exists corrections, s', (w ++ w'). split; [done|]. split; [done|]. split.
    + intros Hf. by rewrite He in Hf.
    + rewrite He, bool_decide_false; [done|]. intros [_ ->]%app_eq_nil. by destruct cs.
Qed.

(** C1. [Lexer::Lex], with the search for a bracket repair, returns on every source
    below two megabytes, whatever its bytes: no check fails, in the lexer, in
    the search, in the token recovery buffer ("Failed to balance brackets") or
    in the renumbering of the corrections. The buffer has everything the
    theorems of the parser ask of one; an error token or an unmatched bracket
    has been reported, and the error flag tells whether anything was. *)
Theorem lex_every_source source ids iv rs ss want :
  vec_size source < MaxSource → StoresOk source ids iv rs ss →
  ∃ corrections s w, Lex FixMismatchedBrackets want (StringRef.mk 0 source)
      (MakeLexer (StringRef.mk 0 source) ids iv rs ss) = Ok (corrections, s, w) ∧
    Lexed (buffer s) ∧ error_tokens_reported (buffer s) ∧
    has_errors (buffer s) = negb (bool_decide (w = [])).
Proof using Laws Utf UtfLaws Simd SimdLaws. apply Lex_total. Qed.
End lexing.

(** * The theorems at a sample *)

Section samples.
#[local] Existing Instances ZAPInt.ops ZAPInt.laws ByteLanes.ops ByteLanes.laws sample_build.

(** The call without its closing parenthesis gets one, before the semicolon. *)
Lemma lex_every_source_witness :
  ∃ corrections s w, Lex FixMismatchedBrackets true (StringRef.mk 0 open_source)
      (sample_lexer open_source) = Ok (corrections, s, w) ∧ Lexed (buffer s) ∧
    (kind <$> token_infos (buffer s)) =
      [TokenKind.FileStart; TokenKind.Identifier; TokenKind.OpenParen; TokenKind.Identifier;
       TokenKind.CloseParen; TokenKind.Semi; TokenKind.FileEnd].
Proof.
  destruct (lex_every_source open_source [] [] [] [] true) as (corrections & s & w & E & HL & _).
  - reflexivity.
  - by apply no_stores.
  - exists corrections, s, w. split; [exact E|]. split; [exact HL|].
    assert (match Lex FixMismatchedBrackets true (StringRef.mk 0 open_source) (sample_lexer open_source) with
      | Ok (_, s, _) => (kind <$> token_infos (buffer s)) =
          [TokenKind.FileStart; TokenKind.Identifier; TokenKind.OpenParen; TokenKind.Identifier;
           TokenKind.CloseParen; TokenKind.Semi; TokenKind.FileEnd]
      | Err _ => False
      end) as H by (vm_compute; reflexivity).
    unfold sample_lexer in H. by rewrite E in H.
Defined.

End samples.
