(* ===== verification/Formatter.v ===== *)
(** The formatter ([toolchain/format/formatter.{h,cpp}]): it prints the tokens
    and comments of a buffer with white space of its own. The theorems say that
    on every source that lexes without errors it returns, and changes nothing
    but white space. *)

From S2P Require Import Prelude TokenKinds Text APInts IntStores Simd LexDiagnostics.
From S2P Require Import StringLiterals Utf8 Tokens Lexed TokenText LexState.
From S2P Require Import LexTokens BracketTokens BracketSearch LexRecovery Lexer LexPieces.
From S2P Require Import LexInvariant LexDispatch Quiet RecoveryLinks RecoveryTotal Lexing Recovered.
From S2P Require Import Parse BracketRepair FrontEnd.
Import TokenizedBuffer.

(** * The code *)

Module Formatter.

Inductive LineState : Set := Empty | HasSeparator | NeedsSeparator | EndOfLine.

#[export] Instance LineState_eq_dec : EqDecision LineState.
Proof. solve_decision. Defined.

(** The members; [next_comment_] and [comments_end_] are the comments left. The
    output is the log of the monad. *)
Record t := {
  next_comment : list CommentData;
  line_state : LineState;
  indent_ : Z;
  prev_end_line : Z;
  prev_token_kind : TokenKind.t;
}.

Abbreviation Formatting := (Action t char).

(** The constructor. *)
Definition MakeFormatter (comments : list CommentData) : t :=
  {| next_comment := comments; line_state := Empty; indent_ := 0; prev_end_line := 0;
     prev_token_kind := TokenKind.FileStart |}.

Definition set_next_comment (cs : list CommentData) (s : t) : t :=
  {| next_comment := cs; line_state := line_state s; indent_ := indent_ s;
     prev_end_line := prev_end_line s; prev_token_kind := prev_token_kind s |}.
Definition set_line_state (l : LineState) (s : t) : t :=
  {| next_comment := next_comment s; line_state := l; indent_ := indent_ s;
     prev_end_line := prev_end_line s; prev_token_kind := prev_token_kind s |}.
Definition set_indent_ (n : Z) (s : t) : t :=
  {| next_comment := next_comment s; line_state := line_state s; indent_ := n;
     prev_end_line := prev_end_line s; prev_token_kind := prev_token_kind s |}.
Definition set_prev (k : TokenKind.t) (line : Z) (s : t) : t :=
  {| next_comment := next_comment s; line_state := line_state s; indent_ := indent_ s;
     prev_end_line := line; prev_token_kind := k |}.
Definition set_prev_end_line (line : Z) (s : t) : t := set_prev (prev_token_kind s) line s.

(** [*out_ << text], and [out_->indent(n)], whose argument is unsigned. *)
Definition write (text : list char) : Formatting unit := λ s, Ok (tt, s, text).
Definition write_indent (n : Z) : Formatting unit :=
  write (replicate (Z.to_nat (n mod 2 ^ 32)) " "%char).

(** [rtrim()] and [trim()] of a [StringRef], and [llvm::split(text, '\n')]. *)
Definition trimmed (c : char) : bool :=
  IsSpace c || char_eqb c "011" || char_eqb c "012" || char_eqb c "013".
Definition rtrim (text : list char) : list char := reverse (drop_while trimmed (reverse text)).
Definition trim (text : list char) : list char := rtrim (drop_while trimmed text).

Fixpoint split_lines (text : list char) : list (list char) :=
  match text with
  | [] => [[]]
  | c :: text =>
      if char_eqb c "010" then [] :: split_lines text
      else match split_lines text with
           | line :: lines => (c :: line) :: lines
           | [] => [[c]]
           end
  end.

Section formatter.
(** [tokens_]. *)
Context (b : TokenizedBuffer.t).

(** [IsAfterComment], [GetCommentText] and [GetLine(CommentIndex)];
    [IsTrailingComment] is the field. *)
Definition IsAfterComment (token : Z) (comment : CommentData) : Result bool :=
  info ← vec_get (token_infos b) token; mret (comment_start comment <? byte_offset info).
Definition GetCommentText (comment : CommentData) : list char :=
  StringRef.chars (StringRef.substr (source b) (comment_start comment) (comment_length comment)).
Definition GetCommentLine (comment : CommentData) : Result Z :=
  FindLineIndex b (comment_start comment).

Definition RequireEmptyLine : Formatting unit :=
  l ← gets line_state;
  when (negb (bool_decide (l = Empty))) (modify (set_line_state EndOfLine)).

Definition EmitNewLine (start_line : Z) : Formatting unit :=
  write (str newline) ;;
  s ← gets id;
  let source_code_gap := start_line - prev_end_line s in
  when ((1 <? source_code_gap) &&
        TokenKind.IsOneOf (prev_token_kind s) [TokenKind.Semi; TokenKind.CloseCurlyBrace])
    (write (str newline)) ;;
  modify (set_line_state Empty).

Definition PrepareForPackedContent (start_line : Z) : Formatting unit :=
  l ← gets line_state;
  when (bool_decide (l = EndOfLine)) (EmitNewLine start_line) ;;
  l ← gets line_state;
  when (bool_decide (l = Empty))
    (n ← gets indent_; write_indent n ;; modify (set_line_state HasSeparator)).

Definition PrepareForSpacedContent (start_line : Z) : Formatting unit :=
  l ← gets line_state;
  if bool_decide (l = NeedsSeparator) then
    write (str " ") ;; modify (set_line_state HasSeparator)
  else PrepareForPackedContent start_line.

(** The lines of a comment, each with the indentation. *)
Fixpoint write_lines (lines : list (list char)) : Formatting unit :=
  match lines with
  | [] => mret tt
  | line :: lines =>
      n ← gets indent_;
      write_indent n ;; write (trim line) ;; write (str newline) ;; write_lines lines
  end.

(** [EmitComment]; [*next_comment_] is there when it is called. *)
Definition EmitComment : Formatting unit :=
  cs ← gets next_comment;
  match cs with
  | [] => action_fail OutOfRange
  | comment :: cs =>
      modify (set_next_comment cs) ;;
      l ← gets line_state;
      (if comment_is_trailing comment && negb (bool_decide (l = Empty)) then
         write (str " " ++ GetCommentText comment) ;;
         line ← lift_result (λ _, GetCommentLine comment);
         modify (set_prev_end_line line)
       else
         comment_start_line ← lift_result (λ _, GetCommentLine comment);
         when (negb (bool_decide (l = Empty))) (EmitNewLine comment_start_line) ;;
         let lines := split_lines (rtrim (GetCommentText comment)) in
         write_lines lines ;;
         modify (set_prev_end_line (comment_start_line + vec_size lines - 1))) ;;
      modify (set_line_state Empty)
  end.

(** The comments before a token; each round takes one, so their number bounds
    the loop. *)
Fixpoint emit_comments (fuel : nat) (token : Z) : Formatting unit :=
  match fuel with
  | O => action_fail OutOfFuel
  | S fuel =>
      cs ← gets next_comment;
      match cs with
      | [] => mret tt
      | comment :: _ =>
          after ← lift_result (λ _, IsAfterComment token comment);
          if after : bool then EmitComment ;; emit_comments fuel token else mret tt
      end
  end.

(** The [default] case of the switch. *)
Definition emit_other (token : Z) (token_kind : TokenKind.t) (token_start_line : Z)
    : Formatting unit :=
  prev ← gets prev_token_kind;
  (if TokenKind.IsOneOf token_kind [TokenKind.CloseParen; TokenKind.CloseSquareBracket;
        TokenKind.Colon; TokenKind.Comma]
   then PrepareForPackedContent token_start_line
   else if TokenKind.IsOneOf token_kind [TokenKind.OpenParen; TokenKind.OpenSquareBracket] &&
       (TokenKind.IsOneOf prev [TokenKind.Identifier; TokenKind.Array; TokenKind.TypeOf;
          TokenKind.CloseParen; TokenKind.CloseSquareBracket] ||
        TokenKind.is_sized_type_literal prev)
   then PrepareForPackedContent token_start_line
   else PrepareForSpacedContent token_start_line) ;;
  text ← lift_result (λ _, GetTokenText b token);
  write text ;;
  modify (set_line_state
    (if TokenKind.is_opening_symbol token_kind then HasSeparator else NeedsSeparator)).

(** The switch over the kind of a token. *)
Definition emit_token (token : Z) (token_kind : TokenKind.t) (token_start_line : Z)
    : Formatting unit :=
  match token_kind with
  | TokenKind.FileStart => mret tt
  | TokenKind.FileEnd => RequireEmptyLine
  | TokenKind.OpenCurlyBrace =>
      PrepareForSpacedContent token_start_line ;;
      write (str "{") ;;
      closing ← lift_result (λ _, GetMatchedClosingToken b token);
      when (negb (token + 1 =? closing)) RequireEmptyLine ;;
      modify (λ s, set_indent_ (indent_ s + 2) s)
  | TokenKind.CloseCurlyBrace =>
      modify (λ s, set_indent_ (indent_ s - 2) s) ;;
      PrepareForPackedContent token_start_line ;;
      write (str "}") ;;
      RequireEmptyLine
  | TokenKind.Else =>
      l ← gets line_state;
      when (bool_decide (l = EndOfLine)) (modify (set_line_state NeedsSeparator)) ;;
      PrepareForSpacedContent token_start_line ;;
      write (str "else") ;;
      modify (set_line_state NeedsSeparator)
  | TokenKind.Period =>
      PrepareForPackedContent token_start_line ;;
      write (str ".") ;;
      modify (set_line_state HasSeparator)
  | TokenKind.PlusPlus | TokenKind.MinusMinus =>
      PrepareForSpacedContent token_start_line ;;
      text ← lift_result (λ _, GetTokenText b token);
      write text ;;
      modify (set_line_state HasSeparator)
  | TokenKind.Semi =>
      PrepareForPackedContent token_start_line ;;
      write (str ";") ;;
      RequireEmptyLine
  | _ => emit_other token token_kind token_start_line
  end.

(** The body of the loop over the tokens. *)
Definition FormatToken (token : Z) : Formatting unit :=
  token_kind ← lift_result (λ _, GetKind b token);
  cs ← gets next_comment;
  emit_comments (S (length cs)) token ;;
  token_start_line ← lift_result (λ _, GetLine b token);
  emit_token token token_kind token_start_line ;;
  end_loc ← lift_result (λ _, GetEndLoc b token);
  modify (set_prev token_kind end_loc.1).

(** The tokens from [token] on. *)
Fixpoint format_tokens (n : nat) (token : Z) : Formatting unit :=
  match n with
  | O => mret tt
  | S n => FormatToken token ;; format_tokens n (token + 1)
  end.

(** [Run]. *)
Definition Run : Formatting bool :=
  if has_errors b then mret false
  else
    cs ← gets next_comment;
    if (size b =? 0) && bool_decide (length cs = 0%nat) then write (str newline) ;; mret true
    else
      format_tokens (Z.to_nat (tokens_end b)) 0 ;;
      l ← gets line_state;
      when (bool_decide (l = EndOfLine)) (write (str newline) ;; modify (set_line_state Empty)) ;;
      mret true.
End formatter.
End Formatter.

(** [Format]: whether it could, and the output. *)
Definition Format (b : TokenizedBuffer.t) (comments : list CommentData)
    : Result (bool * list char) :=
  '(formatted, _, out) ← Formatter.Run b (Formatter.MakeFormatter comments);
  mret (formatted, out).

(** * What a text says *)

(** The tokens and the comments of some pieces, without the white space between
    them and at the ends of comments. *)
Definition content (ps : list piece) : list piece :=
  omap (λ p, match p with
             | Blank _ => None
             | Comment text => Some (Comment (Formatter.trim text))
             | Token text => Some (Token text)
             end) ps.

(** [w] reads as pieces with the content [items]; only the last comment may miss
    its newline, and not even that one if [closed]. *)
Definition prints (closed : bool) (w : list char) (items : list piece) : Prop :=
  ∃ ps, pieces_text ps = w ∧ Forall piece_ok ps ∧ closed_but_last ps ∧
    (closed = true → Forall piece_closed ps) ∧ content ps = items.

Section content.
Import Formatter.

Lemma content_app ps qs : content (ps ++ qs) = content ps ++ content qs.
Proof. apply omap_app. Qed.

Lemma content_blanks ws : content (blanks ws) = [].
Proof. by induction ws. Qed.

Lemma prints_app closed w1 i1 w2 i2 :
  prints true w1 i1 → prints closed w2 i2 → prints closed (w1 ++ w2) (i1 ++ i2).
Proof.
  intros (ps1 & <- & H1 & _ & C1 & <-) (ps2 & <- & H2 & L2 & C2 & <-). specialize (C1 eq_refl).
  exists (ps1 ++ ps2). rewrite pieces_text_app, content_app. split_and!; try done.
  - by apply Forall_app_2.
  - intros ps p E. destruct ps2 as [|q ps2 _] using rev_ind.
    { rewrite app_nil_r in E. subst ps1. by apply Forall_app in C1 as [C1 _]. }
    rewrite app_assoc in E. apply app_inj_tail in E as [<- _]. apply Forall_app_2; [done|].
    by eapply L2.
  - intros Hc. apply Forall_app_2; auto.
Qed.

Lemma prints_white closed ws : Forall (λ c, IsSpace c = true) ws → prints closed ws [].
Proof.
  intros H. exists (blanks ws). split_and!; [apply blanks_text|by apply blanks_ok|
    by apply closed_all, blanks_closed|intros _; apply blanks_closed|apply content_blanks].
Qed.

Lemma prints_piece p :
  piece_ok p → piece_closed p → prints true (piece_text p) (content [p]).
Proof.
  intros H1 H2. assert (Forall piece_closed [p]) as Hc by by apply Forall_singleton.
  exists [p]. split_and!; [unfold pieces_text; cbn; by rewrite app_nil_r|by apply Forall_singleton|
    by apply closed_all|done|done].
Qed.

Lemma prints_weaken closed w items : prints true w items → prints closed w items.
Proof. intros (ps & ? & ? & ? & H & ?). exists ps. split_and!; auto. Qed.

(** ** Trimming *)

Lemma drop_while_app_keep p (a x : list char) :
  drop_while p a ≠ [] → drop_while p (a ++ x) = drop_while p a ++ x.
Proof. induction a as [|c a IH]; [done|]. cbn. destruct (p c); [by apply IH|done]. Qed.

Lemma drop_while_app_drop p (a x : list char) :
  Forall (λ c, p c = true) a → drop_while p (a ++ x) = drop_while p x.
Proof. induction 1 as [|c a Hc _ IH]; [done|]. cbn. by rewrite Hc. Qed.

Lemma rtrim_trimmed a x : Forall (λ c, trimmed c = true) x → rtrim (a ++ x) = rtrim a.
Proof. intros H. unfold rtrim. rewrite reverse_app, drop_while_app_drop; [done|]. by apply Forall_reverse. Qed.

Lemma rtrim_keep a x : rtrim x ≠ [] → rtrim (a ++ x) = a ++ rtrim x.
Proof.
  intros H. unfold rtrim in *. rewrite reverse_app, drop_while_app_keep.
  - by rewrite reverse_app, reverse_involutive.
  - intros E. by rewrite E in H.
Qed.

Lemma rtrim_cons c x : trimmed c = false → rtrim (c :: x) = c :: rtrim x.
Proof.
  intros Hc. destruct (decide (rtrim x = [])) as [E|E]; [|by apply (rtrim_keep [c])].
  rewrite E. unfold rtrim in *. rewrite reverse_cons.
  assert (drop_while trimmed (reverse x) = []) as E'.
  { rewrite <- (reverse_involutive (drop_while _ _)), E. done. }
  rewrite drop_while_app_drop; [cbn; by rewrite Hc|].
  rewrite <- (take_drop_while trimmed (reverse x)), E', app_nil_r. apply take_while_all.
Qed.

Lemma rtrim_idem x : rtrim (rtrim x) = rtrim x.
Proof.
  unfold rtrim. rewrite reverse_involutive. f_equal. destruct (drop_while trimmed (reverse x)) as [|c y] eqn:E; [done|].
  apply drop_while_head in E. cbn. by rewrite E.
Qed.

Lemma rtrim_no_newline x : no_newline x → no_newline (rtrim x).
Proof.
  unfold rtrim, no_newline. intros H. apply Forall_reverse. apply Forall_reverse in H.
  rewrite <- (take_drop_while trimmed (reverse x)) in H. by apply Forall_app in H as [_ H].
Qed.

Lemma horizontal_trimmed ws : horizontal ws → Forall (λ c, trimmed c = true) ws.
Proof.
  intros H. eapply Forall_impl; [exact H|]. intros c Hc. cbn in *.
  unfold trimmed, IsSpace. by rewrite Hc.
Qed.

(** A comment after blanks. *)
Lemma trim_line ws body : horizontal ws → trim (ws ++ str "//" ++ body) = str "//" ++ rtrim body.
Proof.
  intros H. unfold trim. rewrite drop_while_app_drop by by apply horizontal_trimmed.
  change (rtrim ("/"%char :: "/"%char :: body) = "/"%char :: "/"%char :: rtrim body).
  by rewrite !rtrim_cons.
Qed.

Lemma trim_comment text :
  piece_ok (Comment text) → ∃ body, no_newline body ∧ trim text = str "//" ++ rtrim body.
Proof.
  intros (body & Hb & Ht). exists body. split; [done|]. destruct Ht as [-> | ->].
  - apply (trim_line []). constructor.
  - etransitivity; [apply (trim_line []); constructor|]. f_equal. apply rtrim_trimmed. by repeat constructor.
Qed.

(** ** Lines *)

Lemma split_lines_one a : no_newline a → split_lines a = [a].
Proof.
  induction 1 as [|c a Hc _ IH]; [done|]. cbn [split_lines]. unfold IsVerticalWhitespace in Hc.
  by rewrite Hc, IH.
Qed.

Lemma split_lines_cons a x : no_newline a → split_lines (a ++ Newline :: x) = a :: split_lines x.
Proof.
  induction 1 as [|c a Hc _ IH]; [done|]. cbn [app split_lines]. unfold IsVerticalWhitespace in Hc.
  by rewrite Hc, IH.
Qed.
(** ** Blocks of comments *)

Lemma closed_but_last_app ps qs :
  closed_but_last (ps ++ qs) → closed_but_last qs ∧ (qs ≠ [] → Forall piece_closed ps).
Proof.
  intros H. split.
  - intros qs' q ->. rewrite app_assoc in H. specialize (H _ _ eq_refl). by apply Forall_app in H as [_ H].
  - intros Hne. destruct qs as [|q qs _] using rev_ind; [done|]. rewrite app_assoc in H.
    specialize (H _ _ eq_refl). by apply Forall_app in H as [H _].
Qed.

Lemma closed_but_last_prefix ps qs : closed_but_last (ps ++ qs) → closed_but_last ps.
Proof.
  intros H. destruct (closed_but_last_app _ _ H) as [_ Hc]. destruct (decide (qs = [])) as [->|Hne].
  - by rewrite app_nil_r in H.
  - by apply closed_all, Hc.
Qed.

Lemma inner_blank g : Forall in_note g → content g = [] → horizontal (pieces_text g).
Proof.
  induction 1 as [|q g Hq _ IH]; [constructor|]. destruct q as [c|t|t]; [|done..].
  intros E. rewrite pieces_text_cons. apply Forall_app_2; [by apply Forall_singleton|by apply IH].
Qed.

(** The lines of a block are its comments. *)
Lemma block_lines g : ∀ ws,
  horizontal ws → Forall in_note g → Forall piece_ok g → closed_but_last g → content g ≠ [] →
  (λ line, Comment (trim line)) <$> split_lines (rtrim (ws ++ pieces_text g)) = content g.
Proof.
  induction g as [|q g IH]; intros ws Hws Hin Hok Hcl Hne; [done|].
  apply Forall_cons in Hin as [Hq Hin]. apply Forall_cons in Hok as [Hok Hoks].
  destruct (closed_but_last_app [q] g Hcl) as [Hcl' Hc]. rewrite pieces_text_cons.
  destruct q as [c|text|text]; [| |done].
  { rewrite app_assoc. apply IH; try done. apply Forall_app_2; [done|by apply Forall_singleton]. }
  cbn [piece_text]. assert (content (Comment text :: g) = Comment (trim text) :: content g) as -> by done.
  assert (trimmed "/" = false) as Hslash by done.
  destruct (decide (content g = [])) as [E|E].
  - rewrite E, app_assoc, rtrim_trimmed by by apply horizontal_trimmed, inner_blank.
    assert (∃ body, no_newline body ∧ rtrim text = str "//" ++ rtrim body ∧ trim text = str "//" ++ rtrim body)
      as (body & Hb & Er & Et).
    { destruct (trim_comment _ Hok) as (body & Hb & Et). exists body. split; [done|]. split; [|done].
      rewrite <- Et. unfold trim. by destruct Hok as (? & _ & [-> | ->]). }
    rewrite rtrim_keep by by rewrite Er. rewrite Er, split_lines_one.
    + cbn [fmap list_fmap]. by rewrite trim_line, Et, rtrim_idem.
    + apply Forall_app_2; [by apply horizontal_no_newline|].
      apply Forall_app_2; [by repeat constructor|by apply rtrim_no_newline].
  - assert (g ≠ []) as Hg by (by intros ->). apply Hc, Forall_cons in Hg as [Hlast _].
    destruct (trim_comment _ Hok) as (body0 & _ & Et0).
    destruct Hok as (body & Hb & [-> | ->]).
    { exfalso. change (last (str "//" ++ body) = Some Newline) in Hlast.
      apply last_Some in Hlast as [l El]. assert (no_newline (str "//" ++ body)) as Hn
        by (apply Forall_app_2; [by repeat constructor|done]).
      rewrite El in Hn. by apply Forall_app in Hn as [_ [Hn _]%Forall_cons]. }
    clear Et0 body0. assert (rtrim (pieces_text g) ≠ []) as Hr.
    { intros Er. specialize (IH [] ltac:(constructor) Hin Hoks Hcl' E). cbn [app] in IH.
      rewrite Er in IH. cbn in IH. assert (Comment (trim []) ∈ content g) as Hi by (rewrite <- IH; by left).
      apply list_elem_of_omap in Hi as (q & Hi & Eq). rewrite Forall_forall in Hoks. apply Hoks in Hi.
      destruct q as [c|t|t]; [done| |done]. injection Eq as Eq.
      destruct (trim_comment _ Hi) as (b' & _ & Et'). by rewrite Et' in Eq. }
    replace (ws ++ (str "//" ++ body ++ [Newline]) ++ pieces_text g)
      with ((ws ++ str "//" ++ body) ++ Newline :: pieces_text g) by by rewrite <- !app_assoc.
    assert (rtrim (Newline :: pieces_text g) = Newline :: rtrim (pieces_text g)) as En
      by by apply (rtrim_keep [Newline]).
    rewrite rtrim_keep by by rewrite En. rewrite En, split_lines_cons.
    + cbn [fmap list_fmap]. f_equal; [|apply (IH []); [constructor|done..]]. f_equal. rewrite trim_line by done.
      symmetry. etransitivity; [apply (trim_line []); constructor|]. f_equal.
      apply rtrim_trimmed. by repeat constructor.
    + apply Forall_app_2; [by apply horizontal_no_newline|]. apply Forall_app_2; [by repeat constructor|done].
Qed.
End content.

(** * Running the formatter *)

Section runs.
Import Formatter.
Context (b : TokenizedBuffer.t).
Implicit Types (s : Formatter.t) (g ps : list piece) (before after : list char).

(** [m] returns, and its output and state are as stated. *)
Definition formats {A} (m : Formatting A) (Q : A → Formatter.t → list char → Prop) s : Prop :=
  wp (λ _, False) m Q s.

Lemma formats_bind {A B} (m : Formatting A) (k : A → Formatting B) Q s :
  formats m (λ a s1 w1, formats (k a) (λ b s2 w2, Q b s2 (w1 ++ w2)) s1) s → formats (m ≫= k) Q s.
Proof. apply wp_bind. Qed.

Lemma formats_then {A B} (m : Formatting A) (k : A → Formatting B) P Q s :
  formats m P s → (∀ a s1 w1, P a s1 w1 → formats (k a) (λ b s2 w2, Q b s2 (w1 ++ w2)) s1) →
  formats (m ≫= k) Q s.
Proof. intros Hm Hk. apply formats_bind. eapply wp_mono; [exact Hm|exact Hk]. Qed.

Lemma formats_mono {A} (m : Formatting A) (P Q : A → Formatter.t → list char → Prop) s :
  formats m P s → (∀ a s' w, P a s' w → Q a s' w) → formats m Q s.
Proof. apply wp_mono. Qed.

Lemma formats_lift {A} (f : Formatter.t → Result A) a (Q : A → Formatter.t → list char → Prop) s :
  f s = Ok a → Q a s [] → formats (lift_result f) Q s.
Proof. intros E H. unfold formats, wp, lift_result. by rewrite E. Qed.

(** One step of straight-line code. *)
Ltac format_step :=
  lazymatch goal with
  | |- formats (_ ≫= _) _ _ => apply formats_bind
  | |- formats (mret ?a) ?Q ?s => change (Q a s [])
  | |- formats (gets ?f) ?Q ?s => change (Q (f s) s [])
  | |- formats (modify ?f) ?Q ?s => change (Q tt (f s) [])
  | |- formats (write ?w) ?Q ?s => change (Q tt s w)
  end; cbv beta.
Ltac format_steps := repeat format_step.

(** ** White space *)

(** [m] prints white space, and no comment. *)
Definition White (m : Formatting unit) : Prop :=
  ∀ s, formats m (λ _ s' w, next_comment s' = next_comment s ∧ Forall (λ c, IsSpace c = true) w) s.

Lemma white_ret : White (mret tt).
Proof. by split. Qed.

Lemma white_modify f : (∀ s, next_comment (f s) = next_comment s) → White (modify f).
Proof. intros H s. by split. Qed.

Lemma white_write w : Forall (λ c, IsSpace c = true) w → White (write w).
Proof. by split. Qed.

Lemma white_indent n : White (write_indent n).
Proof. apply white_write. by apply Forall_replicate. Qed.

Lemma white_seq m k : White m → White k → White (m ;; k).
Proof.
  intros Hm Hk s. eapply formats_then; [apply Hm|]. intros _ s1 w1 [E1 H1].
  eapply formats_mono; [apply Hk|]. intros _ s2 w2 [E2 H2]. split; [congruence|by apply Forall_app_2].
Qed.

Lemma white_gets {A} (f : Formatter.t → A) k : (∀ a, White (k a)) → White (gets f ≫= k).
Proof. intros H s. format_steps. apply H. Qed.

Lemma white_when c m : White m → White (when c m).
Proof. intros H. destruct c; [exact H|apply white_ret]. Qed.

Ltac white :=
  repeat first
    [ apply white_gets; intros ? | apply white_seq | apply white_when | apply white_indent
    | apply white_modify; intros ?; reflexivity | apply white_write; by repeat constructor
    | apply white_ret | case_match ].

Lemma white_RequireEmptyLine : White RequireEmptyLine.
Proof. unfold RequireEmptyLine. white. Qed.

Lemma white_EmitNewLine line : White (EmitNewLine line).
Proof. unfold EmitNewLine. white. Qed.

Lemma white_Packed line : White (PrepareForPackedContent line).
Proof. unfold PrepareForPackedContent. white. Qed.

Lemma white_Spaced line : White (PrepareForSpacedContent line).
Proof. unfold PrepareForSpacedContent. white. Qed.

Lemma RequireEmptyLine_silent s :
  formats RequireEmptyLine (λ _ s' w, next_comment s' = next_comment s ∧ w = []) s.
Proof. unfold RequireEmptyLine, formats, wp. run_action. by destruct (line_state s). Qed.

(** ** Comments *)

Lemma write_lines_prints lines : ∀ s,
  Forall (λ line, ∃ body, no_newline body ∧ trim line = str "//" ++ rtrim body) lines →
  formats (write_lines lines) (λ _ s' w, s' = s ∧
    prints true w ((λ line, Comment (trim line)) <$> lines)) s.
Proof.
  induction lines as [|line lines IH]; intros s H; cbn [write_lines].
  { split; [done|]. by apply prints_white. }
  apply Forall_cons in H as [(body & Hb & Et) H]. unfold write_indent. format_steps.
  eapply formats_mono; [by apply IH|]. intros _ s' w [-> Hw]. split; [done|]. rewrite app_nil_l.
  apply (prints_app _ _ [] _ (_ :: _)); [apply prints_white; by apply Forall_replicate|].
  rewrite app_assoc. apply (prints_app _ _ [_]); [|exact Hw].
  assert (piece_ok (Comment (trim line ++ str newline))) as Hok.
  { exists (rtrim body). split; [by apply rtrim_no_newline|]. right. by rewrite Et, <- app_assoc. }
  assert (content [Comment (trim line ++ str newline)] = [Comment (trim line)]) as <-.
  { cbn. do 2 f_equal. rewrite Et, <- app_assoc. etransitivity; [apply (trim_line []); constructor|].
    rewrite rtrim_trimmed by by repeat constructor. by rewrite rtrim_idem. }
  apply (prints_piece (Comment _)); [done|].
  change (last (trim line ++ [Newline]) = Some Newline). by rewrite last_snoc.
Qed.
(** The lines of a block of comments. *)
Lemma content_lines g :
  Forall piece_ok g → Forall (λ p, match p with
    | Comment t => ∃ body, no_newline body ∧ t = str "//" ++ rtrim body | _ => True end) (content g).
Proof.
  induction 1 as [|q g Hq _ IH]; [constructor|]. destruct q as [c|t|t]; [done| |by constructor].
  constructor; [by apply trim_comment|done].
Qed.

Context (cs : list char).
Hypothesis Hlexed : Lexed b.
Hypothesis Hsource : source_text b = to_string cs.
Hypothesis Hsize : vec_size cs < MaxSource.

Lemma comment_text before g after trailing :
  cs = before ++ pieces_text g ++ after →
  GetCommentText b (note_at (vec_size before) trailing g) = pieces_text g.
Proof using Hsource Hsize.
  intros E. unfold GetCommentText, note_at, MaxSource in *. cbn [comment_start comment_length].
  assert (vec_size cs = vec_size before + (vec_size (pieces_text g) + vec_size after)) as Es
    by (rewrite E, !vec_size_app; lia).
  pose proof (vec_size_nonneg before). pose proof (vec_size_nonneg (pieces_text g)).
  pose proof (vec_size_nonneg after).
  assert (source b = StringRef.mk 0 cs) as -> by (unfold source; by rewrite Hsource, str_to_string).
  rewrite StringRef.substr_all_in; unfold StringRef.size; cbn [StringRef.chars]; [|lia..].
  unfold vec_size. rewrite !Nat2Z.id, E, drop_app_length. apply take_app_length.
Qed.

Lemma comment_line_total comment : 0 ≤ comment_start comment → ∃ line, GetCommentLine b comment = Ok line.
Proof using Hlexed.
  intros H. destruct (FindLineIndex_total (b := b) _ H) as (line & _ & E & _). by exists line.
Qed.

(** A comment is printed with the content it has in the source. *)
Lemma EmitComment_prints before g after trailing rest s :
  cs = before ++ pieces_text g ++ after → comment_block g → Forall piece_ok g → closed_but_last g →
  next_comment s = note_at (vec_size before) trailing g :: rest →
  formats (EmitComment b) (λ _ s' w, next_comment s' = rest ∧
    ∀ closed, (closed = true → Forall piece_closed g) → prints closed w (content g)) s.
Proof using All.
  intros E Hg Hok Hcl Hn. unfold EmitComment. format_steps. rewrite Hn. format_steps.
  destruct (comment_line_total (note_at (vec_size before) trailing g)) as [line Hline];
    [apply vec_size_nonneg|]. rewrite (comment_text _ _ _ _ E).
  set (l := line_state _). destruct (_ && _).
  - format_steps. eapply formats_lift; [exact Hline|]. format_steps. split; [done|].
    intros closed Hc. rewrite !app_nil_r. exists (Blank " " :: g). split_and!.
    + by rewrite pieces_text_cons.
    + constructor; [by left|done].
    + intros ps p Ep. destruct ps as [|q ps]; [constructor|]. injection Ep as <- Ep.
      constructor; [done|by eapply Hcl].
    + intros Ht. by constructor; [|apply Hc].
    + done.
  - format_steps. eapply formats_lift; [exact Hline|]. format_steps.
    eapply formats_mono; [apply (white_when _ _ (white_EmitNewLine line))|].
    intros _ s1 w1 [E1 W1]. destruct Hg as (text & tail & -> & Htail).
    pose proof (block_lines (Comment text :: tail) [] ltac:(constructor) ltac:(by constructor) Hok Hcl
      ltac:(done)) as Hlines. cbn [app] in Hlines.
    format_steps. eapply formats_mono; [apply write_lines_prints|].
    { pose proof (content_lines _ Hok) as Hc. rewrite <- Hlines, Forall_fmap in Hc. exact Hc. }
    intros _ s2 w2 [-> W2]. format_steps. split; [exact E1|]. intros closed _.
    rewrite Hlines in W2. rewrite !app_nil_r, !app_nil_l. apply prints_weaken.
    by apply (prints_app _ _ []); [apply prints_white|].
Qed.
Lemma blocks_nil bs : Forall block_ok bs → blocks_pieces bs = [] → bs = [].
Proof using.
  intros H E. destruct H as [|q bs Hq _]; [done|]. exfalso. destruct q as [p|trailing g]; [done|].
  by destruct Hq as (text & rest & -> & _).
Qed.

(** The comments before a token. *)
Lemma emit_comments_prints token info rest bs : ∀ before after fuel s,
  cs = before ++ pieces_text (blocks_pieces bs) ++ after →
  Forall block_ok bs → Forall piece_ok (blocks_pieces bs) → closed_but_last (blocks_pieces bs) →
  extents (vec_size before) (blocks_pieces bs) = [] →
  next_comment s = notes (vec_size before) bs ++ rest →
  vec_get (token_infos b) token = Ok info →
  Forall (λ c, comment_start c < byte_offset info) (notes (vec_size before) bs) →
  (∀ c, head rest = Some c → byte_offset info ≤ comment_start c) →
  (length (notes (vec_size before) bs) < fuel)%nat →
  formats (emit_comments b fuel token) (λ _ s' w, next_comment s' = rest ∧ (bs = [] → w = []) ∧
    ∀ closed, (closed = true → Forall piece_closed (blocks_pieces bs)) →
      prints closed w (content (blocks_pieces bs))) s.
Proof using All.
  induction bs as [|q bs IH]; intros before after fuel s E Hbs Hok Hcl Hex Hn Hi Hlt Hge Hf.
  - destruct fuel as [|fuel]; [cbn in Hf; lia|]. cbn [emit_comments]. format_steps. rewrite Hn.
    assert (formats (mret ()) (λ _ s' w, next_comment s' = rest ∧ (@nil block = [] → w = []) ∧
      ∀ closed, (closed = true → Forall piece_closed (blocks_pieces [])) →
        prints closed w (content (blocks_pieces []))) s) as Hend.
    { split; [done|]. split; [done|]. intros closed _. by apply prints_white. }
    cbn [notes app]. destruct rest as [|c rest]; [exact Hend|]. specialize (Hge c eq_refl).
    apply formats_bind. eapply formats_lift.
    { unfold IsAfterComment. rewrite Hi. cbn. by rewrite (proj2 (Z.ltb_ge _ _) Hge). }
    exact Hend.
  - apply Forall_cons in Hbs as [Hq Hbs].
    change (blocks_pieces (q :: bs)) with (block_pieces q ++ blocks_pieces bs) in *.
    apply Forall_app in Hok as [Hokq Hok]. destruct (closed_but_last_app _ _ Hcl) as [Hcl' Hclq].
    rewrite extents_app in Hex. apply app_nil in Hex as [Hexq Hex].
    rewrite pieces_text_app, <- app_assoc in E. cbn [notes] in Hn, Hlt, Hf.
    rewrite <- vec_size_app in Hn, Hlt, Hf, Hex.
    assert (cs = (before ++ pieces_text (block_pieces q)) ++ pieces_text (blocks_pieces bs) ++ after) as E'
      by by rewrite <- app_assoc.
    destruct q as [[c|text|text]|trailing g]; [|done|done|]; cbn [block_pieces app] in *.
    { eapply formats_mono; [by eapply IH|]. intros _ s' w (H1 & _ & H2). split; [done|]. split; [done|].
      intros closed Hc. apply H2. intros Ht. by apply Hc, Forall_cons in Ht as [_ Ht]. }
    destruct fuel as [|fuel]; [cbn in Hf; lia|]. cbn [emit_comments]. format_steps. rewrite Hn.
    apply Forall_cons in Hlt as [Hlt Hlts]. format_step. eapply formats_lift.
    { unfold IsAfterComment. rewrite Hi. cbn [mbind Result_bind].
      rewrite (proj2 (Z.ltb_lt _ _) Hlt). reflexivity. }
    eapply formats_then.
    { eapply (EmitComment_prints before g (pieces_text (blocks_pieces bs) ++ after)); try done.
      by eapply closed_but_last_prefix. }
    intros _ s1 w1 [H1 W1]. eapply formats_mono; [eapply IH; try done; cbn in Hf; lia|].
    intros _ s2 w2 (H2 & Hnil & W2). split; [done|]. split; [done|]. intros closed Hc.
    rewrite !app_nil_l, content_app. destruct (decide (blocks_pieces bs = [])) as [Enil|Hne].
    + rewrite Hnil, Enil, !app_nil_r by by apply blocks_nil. apply W1. intros Ht.
      by apply Hc, Forall_app in Ht as [Ht _].
    + apply prints_app; [apply W1; auto|]. apply W2. intros Ht. by apply Hc, Forall_app in Ht as [_ Ht].
Qed.
(** ** Tokens *)

(** [m] prints nothing, and takes no comment. *)
Definition Silent (m : Formatting unit) : Prop :=
  ∀ s, formats m (λ _ s' w, next_comment s' = next_comment s ∧ w = []) s.

Lemma silent_modify f : (∀ s, next_comment (f s) = next_comment s) → Silent (modify f).
Proof using. intros H s. by split. Qed.

Lemma silent_seq m k : Silent m → Silent k → Silent (m ;; k).
Proof using.
  intros Hm Hk s. eapply formats_then; [apply Hm|]. intros _ s1 w1 [E1 ->].
  eapply formats_mono; [apply Hk|]. intros _ s2 w2 [E2 ->]. split; [congruence|done].
Qed.

Lemma silent_when c m : Silent m → Silent (when c m).
Proof using. intros H. destruct c; [exact H|]. by split. Qed.

Lemma silent_lift {A} (r : Result A) a k :
  r = Ok a → Silent (k a) → Silent (lift_result (λ _, r) ≫= k).
Proof using. intros E Hk s. format_steps. eapply formats_lift; [exact E|]. apply Hk. Qed.

(** White space and a token. *)
Definition writes_token (m : Formatting unit) (text : list char) : Prop :=
  ∀ s, formats m (λ _ s' w, next_comment s' = next_comment s ∧ prints true w [Token text]) s.

Lemma token_after_white m post text :
  White m → starts_token text → Silent post → writes_token (m ;; write text ;; post) text.
Proof using.
  intros Hm Ht Hp s. eapply formats_then; [apply Hm|]. intros _ s1 w1 [E1 W1]. format_step. format_step.
  eapply formats_mono; [apply Hp|]. intros _ s2 w2 [E2 ->]. split; [congruence|].
  rewrite app_nil_r. apply (prints_app _ _ []); [by apply prints_white|]. by apply (prints_piece (Token text)).
Qed.

Lemma writes_token_lift {A} (r : Result A) a k text :
  r = Ok a → writes_token (k a) text → writes_token (lift_result (λ _, r) ≫= k) text.
Proof using. intros E Hk s. format_steps. eapply formats_lift; [exact E|]. apply Hk. Qed.

Lemma writes_token_seq m k text : Silent m → writes_token k text → writes_token (m ;; k) text.
Proof using.
  intros Hm Hk s. eapply formats_then; [apply Hm|]. intros _ s1 w1 [E1 ->].
  eapply formats_mono; [apply Hk|]. intros _ s2 w2 [E2 W2]. split; [congruence|done].
Qed.

Lemma fixed_text token k text :
  GetKind b token = Ok k → TokenKind.fixed_spelling k ≠ ""%string → GetTokenText b token = Ok text →
  text = spelling k.
Proof using.
  unfold GetKind, GetTokenText. intros (info & Hi & [= <-])%result_bind_Ok Hf. rewrite Hi.
  cbn [mbind Result_bind]. rewrite bool_decide_false by by rewrite str_empty. by intros [= <-].
Qed.

Lemma emit_token_writes token k line text :
  GetKind b token = Ok k → GetTokenText b token = Ok text → starts_token text →
  k ≠ TokenKind.FileStart → k ≠ TokenKind.FileEnd → writes_token (emit_token b token k line) text.
Proof using Hlexed.
  intros Hk Ht Hst Hns Hne.
  assert (∀ m post, White m → Silent post → writes_token
    (m ;; text ← lift_result (λ _, GetTokenText b token); write text ;; post) text) as Htext.
  { intros m post Hm Hp s. eapply formats_then; [apply Hm|]. intros _ s1 w1 [E1 W1]. format_step.
    eapply formats_lift; [exact Ht|]. format_step. format_step. eapply formats_mono; [apply Hp|].
    intros _ s2 w2 [E2 ->]. split; [congruence|]. rewrite app_nil_r, app_nil_l.
    apply (prints_app _ _ []); [by apply prints_white|]. by apply (prints_piece (Token text)). }
  assert (writes_token (emit_other b token k line) text) as Hother.
  { unfold emit_other. intros s. format_step. format_step. refine (Htext _ _ _ _ s); [|by apply silent_modify].
    repeat case_match; [apply white_Packed..|apply white_Spaced]. }
  assert (∀ m post fixed, k = fixed → TokenKind.fixed_spelling fixed ≠ ""%string → White m → Silent post →
    writes_token (m ;; write (spelling fixed) ;; post) text) as Hfixed.
  { intros m post fixed -> Hf Hm Hp. rewrite (fixed_text _ _ _ Hk Hf Ht) in *. by apply token_after_white. }
  pose proof (white_Packed line) as HP. pose proof (white_Spaced line) as HS.
  assert (Silent RequireEmptyLine) as HR by exact RequireEmptyLine_silent.
  destruct k; try done; try exact Hother; cbn [emit_token].
  all: try (apply Htext; [done|by apply silent_modify]).
  all: try (apply (Hfixed _ _ _ eq_refl); [done|done|first [exact HR|by apply silent_modify]]).
  - destruct (lexed_match token _ Hk eq_refl) as (closing & Hc & _).
    apply (Hfixed _ _ _ eq_refl); [done|done|]. apply (silent_lift _ closing); [exact Hc|].
    apply silent_seq; [by apply silent_when|by apply silent_modify].
  - apply writes_token_seq; [by apply silent_modify|].
    apply (Hfixed _ _ _ eq_refl); [done|done|exact HR].
  - intros s. format_step. format_step. refine (writes_token_seq _ _ _ _ _ s).
    + by apply silent_when, silent_modify.
    + apply (Hfixed _ _ _ eq_refl); [done|done|by apply silent_modify].
Qed.
(** The last lines of a token's iteration, which read the buffer only. *)
Lemma end_loc_total token text :
  0 ≤ token < size b → GetTokenText b token = Ok text → ∃ loc, GetEndLoc b token = Ok loc.
Proof using Hlexed.
  intros Ht Hx. destruct (GetLine_total (b := b) token Ht) as (line & indent & column & El & _ & Ec).
  unfold GetEndLoc. rewrite El, Ec, Hx. cbn [mbind Result_bind]. by destruct (bool_decide _); eexists.
Qed.

(** One iteration, at a token with the text [text] and the comments [bs] before
    it. *)
Lemma FormatToken_prints token info k text bs before after rest s :
  cs = before ++ pieces_text (blocks_pieces bs) ++ after →
  Forall block_ok bs → Forall piece_ok (blocks_pieces bs) → closed_but_last (blocks_pieces bs) →
  extents (vec_size before) (blocks_pieces bs) = [] →
  next_comment s = notes (vec_size before) bs ++ rest →
  vec_get (token_infos b) token = Ok info → kind info = k → GetTokenText b token = Ok text →
  Forall (λ c, comment_start c < byte_offset info) (notes (vec_size before) bs) →
  (∀ c, head rest = Some c → byte_offset info ≤ comment_start c) →
  (k = TokenKind.FileStart ∨ k = TokenKind.FileEnd) ∨
    starts_token text ∧ Forall piece_closed (blocks_pieces bs) ∧
      k ≠ TokenKind.FileStart ∧ k ≠ TokenKind.FileEnd →
  formats (FormatToken b token) (λ _ s' w, next_comment s' = rest ∧
    if TokenKind.IsOneOf k [TokenKind.FileStart; TokenKind.FileEnd]
    then prints false w (content (blocks_pieces bs))
    else prints true w (content (blocks_pieces bs) ++ [Token text])) s.
Proof using All.
  intros E Hbs Hok Hcl Hex Hn Hi <- Hx Hlt Hge Hk.
  assert (0 ≤ token < size b) as Ht by by eapply vec_get_lt.
  assert (GetKind b token = Ok (kind info)) as Hkind by (unfold GetKind; by rewrite Hi).
  destruct (GetLine_total (b := b) token Ht) as (line & _ & _ & El & _).
  destruct (end_loc_total token text Ht Hx) as [loc Eloc].
  unfold FormatToken. format_step. eapply formats_lift; [exact Hkind|]. format_step. format_step.
  eapply formats_then.
  { eapply (emit_comments_prints _ info rest bs before after); try done. rewrite Hn, length_app. lia. }
  intros _ s1 w1 (H1 & _ & W1). format_step. eapply formats_lift; [exact El|].
  assert (∀ closed items s2 w2, next_comment s2 = rest → prints closed (w1 ++ w2) items →
    formats (end_loc ← lift_result (λ _, GetEndLoc b token); modify (set_prev (kind info) end_loc.1))
      (λ _ s' w, next_comment s' = rest ∧ prints closed (w1 ++ w2 ++ w) items) s2) as Hend.
  { intros closed items s2 w2 H2 W2. format_step. eapply formats_lift; [exact Eloc|]. format_step.
    split; [done|]. by rewrite !app_nil_r. }
  destruct Hk as [Hk|(Hst & Hclosed & Hns & Hne)].
  - assert (TokenKind.IsOneOf (kind info) [TokenKind.FileStart; TokenKind.FileEnd] = true) as ->
      by by destruct Hk as [-> | ->].
    eapply (formats_then _ _ (λ _ s2 w2, next_comment s2 = next_comment s1 ∧ w2 = [])).
    { destruct Hk as [-> | ->]; [by split|apply RequireEmptyLine_silent]. }
    intros _ s2 w2 [H2 ->]. eapply formats_mono; [apply (Hend false (content (blocks_pieces bs)) s2 [])|].
    + congruence.
    + rewrite app_nil_r. by apply W1.
    + intros a s3 w3 H3. exact H3.
  - assert (TokenKind.IsOneOf (kind info) [TokenKind.FileStart; TokenKind.FileEnd] = false) as ->
      by by destruct (kind info).
    eapply formats_then; [by apply (emit_token_writes token (kind info) line text)|].
    intros _ s2 w2 [H2 W2]. eapply formats_mono.
    { eapply (Hend true); [by rewrite H2|]. apply prints_app; [by apply W1|exact W2]. }
    intros a s3 w3 H3. exact H3.
Qed.
(** ** All tokens *)

Lemma in_note_extents p g : Forall in_note g → extents p g = [].
Proof using.
  intros H. revert p. induction H as [|q g Hq _ IH]; intros p; [done|]. cbn [extents].
  rewrite IH. by destruct q.
Qed.

Lemma block_extents p q : block_ok q → (∀ text, q ≠ Single (Token text)) → extents p (block_pieces q) = [].
Proof using.
  intros Hq Hne. destruct q as [[c|text|text]|trailing g]; [done|done|by destruct (Hne text)|].
  destruct Hq as (text & rest & -> & Hr). cbn [block_pieces extents app]. by apply in_note_extents.
Qed.

(** The first token of some blocks. *)
Lemma blocks_split p bs :
  Forall block_ok bs → extents p (blocks_pieces bs) = [] ∨
  ∃ bs1 text bs2, bs = bs1 ++ Single (Token text) :: bs2 ∧ extents p (blocks_pieces bs1) = [].
Proof using.
  intros H. revert p. induction H as [|q bs Hq _ IH]; intros p; [by left|].
  assert ((∃ text, q = Single (Token text)) ∨ ∀ text, q ≠ Single (Token text)) as [[text ->]|Hne].
  { destruct q as [[]|]; [by right|by right|left; by eexists|by right]. }
  { right. by exists [], text, bs. }
  change (blocks_pieces (q :: bs)) with (block_pieces q ++ blocks_pieces bs).
  rewrite extents_app, block_extents by done.
  destruct (IH (p + vec_size (pieces_text (block_pieces q)))) as [E|(bs1 & text & bs2 & -> & E)]; [by left|].
  right. exists (q :: bs1), text, bs2. split; [done|].
  change (blocks_pieces (q :: bs1)) with (block_pieces q ++ blocks_pieces bs1).
  by rewrite extents_app, block_extents.
Qed.

(** The token [i] of the buffer is the extent [e]. *)
Definition token_of (i : Z) (e : Z * list char) : Prop :=
  ∃ info, vec_get (token_infos b) i = Ok info ∧ byte_offset info = e.1 ∧
    TokenKind.IsOneOf (kind info) [TokenKind.FileStart; TokenKind.FileEnd] = false ∧
    GetTokenText b i = Ok e.2.

Definition file_end_at (i : Z) : Prop :=
  ∃ info, vec_get (token_infos b) i = Ok info ∧ kind info = TokenKind.FileEnd ∧
    GetTokenText b i = Ok [] ∧ vec_size cs - 1 ≤ byte_offset info.

Lemma format_tokens_prints n : ∀ bs before token s,
  cs = before ++ pieces_text (blocks_pieces bs) → Forall block_ok bs →
  Forall piece_ok (blocks_pieces bs) → closed_but_last (blocks_pieces bs) →
  next_comment s = notes (vec_size before) bs →
  length (extents (vec_size before) (blocks_pieces bs)) = n →
  (∀ i e, extents (vec_size before) (blocks_pieces bs) !! i = Some e → token_of (token + Z.of_nat i) e) →
  file_end_at (token + Z.of_nat n) →
  formats (format_tokens b (S n) token) (λ _ _ w, prints false w (content (blocks_pieces bs))) s.
Proof using All.
  induction n as [|n IH]; intros bs before token s E Hbs Hok Hcl Hn Hl Htok Hend.
  - apply length_zero_iff_nil in Hl. destruct Hend as (info & Hi & Hk & Hx & Ho).
    rewrite Z.add_0_r in Hi, Hx. destruct (notes_bound (vec_size before) bs Hbs Hok) as [_ HB].
    eapply formats_then.
    { eapply (FormatToken_prints token info TokenKind.FileEnd [] bs before [] []); try done.
      - by rewrite app_nil_r.
      - by rewrite app_nil_r.
      - eapply Forall_impl; [exact HB|]. cbn. rewrite E, vec_size_app in Ho. lia.
      - left. by right. }
    intros _ s1 w1 [_ W1]. cbn [format_tokens]. format_step. rewrite app_nil_r. exact W1.
  - destruct (blocks_split (vec_size before) bs Hbs) as [Enil|(bs1 & text & bs2 & -> & E1)].
    { by rewrite Enil in Hl. }
    rewrite blocks_pieces_app in *.
    change (blocks_pieces (Single (Token text) :: bs2)) with ([Token text] ++ blocks_pieces bs2) in *.
    apply Forall_app in Hbs as [Hbs1 [_ Hbs2]%Forall_cons].
    apply Forall_app in Hok as [Hok1 [Htext Hok2]%Forall_cons]. destruct (closed_but_last_app _ _ Hcl) as [Hcl2 Hclosed].
    destruct (closed_but_last_app _ _ Hcl2) as [Hcl3 _]. specialize (Hclosed ltac:(done)).
    rewrite extents_app, E1 in Hl, Htok. cbn [app extents] in Hl, Htok.
    set (mid := before ++ pieces_text (blocks_pieces bs1)) in *.
    rewrite <- vec_size_app in Hl, Htok. fold mid in Hl, Htok.
    rewrite <- vec_size_app in Hl, Htok. injection Hl as Hl.
    destruct (Htok 0%nat _ eq_refl) as (info & Hi & Ho & Hk & Hx). rewrite Z.add_0_r in Hi, Hx.
    cbn [fst snd] in *. rewrite notes_app in Hn. cbn [notes app] in Hn.
    rewrite <- vec_size_app in Hn. fold mid in Hn. rewrite <- vec_size_app in Hn.
    rewrite pieces_text_app, app_assoc in E. fold mid in E. rewrite pieces_text_app in E.
    assert (pieces_text [Token text] = text) as Et by (unfold pieces_text; cbn; by rewrite app_nil_r).
    rewrite Et in E. change (block_pieces (Single (Token text))) with [Token text] in Hn.
    rewrite Et in Hn. cbn [piece_text] in Htok.
    destruct (notes_bound (vec_size before) bs1 Hbs1 Hok1) as [_ HB1].
    destruct (notes_bound (vec_size (mid ++ text)) bs2 Hbs2 Hok2) as [_ HB2].
    assert (0 < vec_size text) as Hpos.
    { destruct text; [by destruct Htext|]. rewrite vec_size_cons. pose proof (vec_size_nonneg text). lia. }
    cbn [format_tokens]. eapply formats_then.
    { eapply (FormatToken_prints token info (kind info) text bs1 before
        (text ++ pieces_text (blocks_pieces bs2))); try done.
      - by rewrite app_assoc.
      - by eapply closed_but_last_prefix.
      - rewrite Ho. unfold mid. rewrite vec_size_app. eapply Forall_impl; [exact HB1|]. cbn. lia.
      - rewrite Ho. intros c Hc. destruct (notes _ bs2) as [|c' cs']; [done|]. injection Hc as ->.
        apply Forall_cons in HB2 as [HB2 _]. rewrite vec_size_app in HB2. lia.
      - right. split; [done|]. split; [done|]. split; intros E'; by rewrite E' in Hk. }
    intros _ s1 w1 [H1 W1]. rewrite Hk in W1. eapply formats_mono.
    { eapply (IH bs2 (mid ++ text)); try done.
      - by rewrite <- app_assoc.
      - intros i e He. replace (token + 1 + Z.of_nat i) with (token + Z.of_nat (S i)) by lia. by apply Htok.
      - by replace (token + 1 + Z.of_nat n) with (token + Z.of_nat (S n)) by lia. }
    intros ? ? w2 W2. rewrite !content_app, app_assoc. by apply prints_app.
Qed.

(** ** The whole run *)

Lemma prints_empty w : prints false w [] → prints true w [].
Proof using.
  intros (ps & H1 & H2 & H3 & _ & H5). exists ps. split_and!; try done. intros _. clear -H5.
  induction ps as [|q ps IH]; [constructor|]. destruct q; [|done..]. constructor; [done|by apply IH].
Qed.

(** A newline at the end, which may be that of the last comment. *)
Lemma prints_newline w items : prints false w items → prints false (w ++ str newline) items.
Proof using.
  intros (ps & <- & Hok & Hcl & _ & <-).
  assert (Forall piece_closed ps ∨ ∃ ps' body, ps = ps' ++ [Comment (str "//" ++ body)] ∧ no_newline body)
    as [Hc|(ps' & body & -> & Hb)].
  { destruct ps as [|q ps _] using rev_ind; [by left|]. pose proof (Hcl _ _ eq_refl) as Hc.
    apply Forall_app in Hok as [_ [Hok _]%Forall_cons].
    destruct q as [c|text|text]; [left|destruct Hok as (body & Hb & [-> | ->])|left].
    1, 4: by apply Forall_app_2; [|constructor].
    - right. by exists ps, body.
    - left. apply Forall_app_2; [done|]. apply Forall_singleton. unfold piece_closed.
      by rewrite app_assoc, last_snoc. }
  - exists (ps ++ [Blank Newline]). split_and!.
    + by rewrite pieces_text_snoc.
    + apply Forall_app_2; [done|]. apply Forall_singleton. by left.
    + by apply closed_snoc.
    + done.
    + rewrite content_app. apply app_nil_r.
  - exists (ps' ++ [Comment (str "//" ++ body ++ [Newline])]). pose proof (Hcl _ _ eq_refl) as Hc.
    apply Forall_app in Hok as [Hok _]. split_and!.
    + by rewrite !pieces_text_snoc, <- !app_assoc.
    + apply Forall_app_2; [done|]. apply Forall_singleton. exists body. split; [done|by right].
    + by apply closed_snoc.
    + done.
    + rewrite !content_app. f_equal. cbn. do 2 f_equal.
      transitivity (str "//" ++ rtrim body); [|symmetry; apply (trim_line []); constructor].
      etransitivity; [apply (trim_line []); constructor|]. f_equal. apply rtrim_trimmed. by repeat constructor.
Qed.

Lemma Run_prints bs first :
  has_errors b = false → cs = pieces_text (blocks_pieces bs) → Forall block_ok bs →
  Forall piece_ok (blocks_pieces bs) → closed_but_last (blocks_pieces bs) →
  vec_get (token_infos b) 0 = Ok first → kind first = TokenKind.FileStart → byte_offset first = 0 →
  GetTokenText b 0 = Ok [] →
  tokens_end b = size b → size b = vec_size (extents 0 (blocks_pieces bs)) + 2 →
  (∀ i e, extents 0 (blocks_pieces bs) !! i = Some e → token_of (1 + Z.of_nat i) e) →
  file_end_at (size b - 1) →
  formats (Run b) (λ r _ w, r = true ∧ prints false w (content (blocks_pieces bs)))
    (MakeFormatter (notes 0 bs)).
Proof using All.
  intros He E Hbs Hok Hcl Hfirst Hk Ho Hx Hte Hsz Htok Hend. unfold Run. rewrite He. format_step. format_step.
  pose proof (vec_size_nonneg (extents 0 (blocks_pieces bs))) as Hnn.
  rewrite (proj2 (Z.eqb_neq (size b) 0)) by lia. cbn [andb].
  replace (Z.to_nat (tokens_end b)) with (S (S (length (extents 0 (blocks_pieces bs)))))
    by (unfold vec_size in *; lia).
  eapply (formats_then _ _ (λ _ _ w, prints false w (content (blocks_pieces bs)))).
  - change (format_tokens b (S ?n) 0) with (FormatToken b 0 ;; format_tokens b n 1).
    destruct (notes_bound 0 bs Hbs Hok) as [_ HB]. eapply formats_then.
    { eapply (FormatToken_prints 0 first TokenKind.FileStart [] [] [] cs (notes 0 bs)); try done.
      - by apply closed_all.
      - rewrite Ho. intros c Hc. destruct (notes 0 bs) as [|c' cs']; [done|]. injection Hc as ->.
        by apply Forall_cons in HB as [[HB _] _].
      - by left; left. }
    intros _ s1 w1 [H1 W1]. eapply formats_mono.
    { eapply (format_tokens_prints _ bs [] 1 s1); try done.
      change (vec_size []) with 0.
      replace (1 + Z.of_nat (length (extents 0 (blocks_pieces bs)))) with (size b - 1)
        by (unfold vec_size in *; lia). done. }
    intros ? ? w2 W2. apply (prints_app _ w1 []); [by apply prints_empty|exact W2].
  - intros _ s1 w1 W1. format_step. format_step. destruct (bool_decide _).
    + unfold when. format_steps. split; [done|]. rewrite app_nil_l, !app_nil_r. by apply prints_newline.
    + unfold when. format_steps. split; [done|]. by rewrite !app_nil_r.
Qed.
End runs.

(** * Formatting a lexed source *)

Section formatting.
Context {Ops : APInts} {Laws : APIntLaws Ops} {Build : LexBuild}.
Context {Utf : ConvertUTF} {UtfLaws : ConvertUTFLaws Utf}.
Context {Simd : X86Simd} {SimdLaws : X86SimdLaws Simd}.

(** The tokens of [ps] are those of the buffer, between its boundary tokens. *)
Definition has_tokens_of (b : TokenizedBuffer.t) (ps : list piece) : Prop :=
  size b = vec_size (extents 0 ps) + 2 ∧
  ∀ n off text, extents 0 ps !! n = Some (off, text) → token_at b (Z.of_nat n + 1) off text.

Lemma Done_token_of s ps cs i e :
  vec_size cs < MaxSource → Done s ps cs → extents 0 ps !! i = Some e →
  token_of (buffer s) (1 + Z.of_nat i) e.
Proof using Laws Utf UtfLaws.
  intros Hs HD He. destruct e as [off text].
  destruct (Done_token _ _ _ _ _ _ Hs HD He) as (info & Hi & Ho & Hk & _).
  destruct (Done_token_at _ _ _ _ _ _ Hs HD He) as (_ & _ & _ & Hx).
  exists info. by rewrite Z.add_comm.
Qed.

Lemma Done_file_end s ps cs : Done s ps cs → file_end_at (buffer s) cs (size (buffer s) - 1).
Proof using.
  intros HD. destruct (done_tokens _ _ _ HD) as (first & infos & last & E & _ & _ & Hk & _ & Ho).
  assert (vec_get (token_infos (buffer s)) (size (buffer s) - 1) = Ok last) as Hi.
  { unfold size. rewrite E, app_comm_cons, vec_size_app. change (vec_size [last]) with 1.
    rewrite Z.add_simpl_r. apply vec_get_Ok. unfold vec_size. split; [lia|]. rewrite Nat2Z.id.
    by apply list_lookup_middle. }
  exists last. split; [done|]. split; [done|]. split; [|done]. eapply boundary_text; [done|by right].
Qed.

(** The formatter on what the lexer leaves of a source without errors. *)
Lemma Done_formats s ps cs :
  vec_size cs < MaxSource → Done s ps cs → Lexed (buffer s) →
  ∃ out, Format (buffer s) (comments s) = Ok (true, out) ∧ prints false out (content ps).
Proof using Laws Utf UtfLaws.
  intros Hs HD HL. destruct (done_notes _ _ _ HD) as (bs & E & Hbs & Hn). subst ps.
  destruct (done_tokens _ _ _ HD) as (first & infos & last & Ei & [Hk Ho] & _).
  assert (vec_get (token_infos (buffer s)) 0 = Ok first) as Hf by by rewrite Ei.
  assert (formats (Formatter.Run (buffer s)) (λ r _ w, r = true ∧ prints false w (content (blocks_pieces bs)))
    (Formatter.MakeFormatter (comments s))) as H.
  { rewrite Hn. eapply (Run_prints _ cs HL (done_source _ _ _ HD) Hs bs first); try done.
    - by eapply done_errors.
    - by symmetry; eapply done_pieces.
    - by eapply done_ok.
    - by eapply done_closed.
    - eapply boundary_text; [done|by left].
    - unfold tokens_end. destruct (done_recovery _ _ _ HD) as [-> _]. lia.
    - by eapply Done_size.
    - intros i e He. by eapply Done_token_of.
    - by eapply Done_file_end. }
  unfold formats, wp in H. unfold Format. destruct (Formatter.Run _ _) as [[[r s'] w]|]; [|done].
  destruct H as [-> H]. by exists w.
Qed.

End formatting.

(** * The theorem at samples *)

Section samples.
#[local] Existing Instances ZAPInt.ops ZAPInt.laws ByteLanes.ops ByteLanes.laws sample_build.

(** A source, formatted. *)
Definition formatted (source : string) : option string :=
  match Lex FixMismatchedBrackets false (StringRef.mk 0 (str source)) (sample_lexer (str source)) with
  | Ok (_, s, _) =>
      match Format (buffer s) (comments s) with
      | Ok (true, out) => Some (to_string out)
      | _ => None
      end
  | Err _ => None
  end.

(** The kinds of the tokens of a source, and whether parsing it reports an error. *)
Definition token_kinds (source : string) : list TokenKind.t :=
  kind <$> token_infos (buffer (lexed_sample (str source)).1).
Definition parses_with_errors (source : string) : option bool :=
  match Parse 1000 (buffer (lexed_sample (str source)).1) with
  | Ok p => Some (parsed_has_errors p)
  | Err _ => None
  end.

Definition untidy_source : string :=
  "  // Says little.
fn   F( x :i32 )->i32{ // Trailing. 
return x . a [ 0x2A ]  ;}
// The end".

Example untidy_source_formatted : formatted untidy_source = Some
"// Says little.
fn F(x: i32) -> i32 { // Trailing. 
  return x.a[0x2A];
}
// The end
"%string.
Proof. vm_compute. reflexivity. Qed.


(** ** Behaviours worth knowing *)

(** A period is packed even after a number, with which it then reads as one
    real literal. *)
Example packed_period_joins_a_number :
  formatted "var x: i32 = 1 .F();" = Some ("var x: i32 = 1.F();" ++ newline)%string ∧
  parses_with_errors "var x: i32 = 1 .F();" = Some false ∧
  token_kinds "1 .F" = [TokenKind.FileStart; TokenKind.IntLiteral; TokenKind.Period;
    TokenKind.Identifier; TokenKind.FileEnd] ∧
  token_kinds "1.F" = [TokenKind.FileStart; TokenKind.Error; TokenKind.FileEnd].
Proof. vm_compute. done. Qed.

(** A prefix [-] and a postfix [*] are spaced like infix operators, which the
    parser takes them for, or diagnoses. *)
Example spaced_unary_operators_do_not_parse :
  formatted "var x: i32 = -1;" = Some ("var x: i32 = - 1;" ++ newline)%string ∧
  parses_with_errors "var x: i32 = -1;" = Some false ∧
  parses_with_errors "var x: i32 = - 1;" = Some true ∧
  formatted "fn F(p: i32*);" = Some ("fn F(p: i32 *);" ++ newline)%string ∧
  parses_with_errors "fn F(p: i32*);" = Some false ∧
  parses_with_errors "fn F(p: i32 *);" = Some true.
Proof. vm_compute. done. Qed.

(** A comment at the end of a line keeps its trailing blanks, one on a line of
    its own loses them. *)
Example trailing_blanks_of_comments :
  formatted ("x; // a " ++ newline ++ "// b " ++ newline)%string =
    Some ("x; // a " ++ newline ++ "// b" ++ newline)%string.
Proof. vm_compute. done. Qed.
End samples.
